(* ===== verification/_CoqProject ===== *)
-Q . S2P
Prelude.v
Formula.v
Trit.v
Clts.v
Modal.v
Evaluator.v
Semantics.v
Domains.v
Checking.v
Verdicts.v
Divergences.v
Transforms.v
Simplify.v
Branching.v
Text.v
FormulaParser.v
FormulaText.v
Ltl.v
LtlParser.v
Translator.v
Universal.v
UniversalCorrect.v
ParityGame.v
GameBuild.v
GameCorrect.v
Morphism.v
Minimize.v
Binary.v
Persistence.v
Snapshot.v
Segments.v
Storage.v
Composition.v
Product.v
CompositionCorrect.v
Hide.v
AbstractValues.v
AbstractSound.v
AbstractLattice.v
Guards.v
GuardsCorrect.v
Bitvec.v
Btor2.v
Btor2Spec.v
Btor2Correct.v
BitBlast.v
BitBlastCorrect.v
BitBlastBackend.v
BitBlastBuild.v
BitBlastStep.v
BitBlastAgree.v
Game3v.v
Solve3v.v
Solve3vCorrect.v
Meaning3v.v
Evaluate3v.v
Gr1.v
Gr1Game.v
Gr1Correct.v
Gr1Strategies.v
Gr1Build.v
Gr1BuildCorrect.v
Gr1Synthesis.v
