(* ===== verification/Prelude.v ===== *)
(** * Verification of the mununu model checker

    mununu checks modal mu-calculus properties of labelled transition systems
    whose actions are split between a controller and an environment and whose
    transitions may carry abstraction modalities; it composes, minimises and
    stores such systems and synthesises controllers for them.  This library
    models the core of the crate [src/crates/mununu-core]: the formula arena, the
    transition systems and their builder, the two- and three-valued model checker,
    the formula transforms, the parser and the simplifier of formulas, the
    temporal front end, the two- and three-valued parity games, composition,
    hiding, minimisation, persistence, abstract values and guards, BTOR2 designs
    with their bit-blaster, and GR(1) synthesis.

    ** How the program works

    A [Formula] ([mu_calculus/mod.rs]) is an arena of nodes built by
    [FormulaBuilder].  A [Clts] ([clts/mod.rs]) is built by [CltsBuilder]: labels
    and variable sets are interned, transitions carry a modality (sharp, may,
    must over a set of targets) and are grouped by their uncontrollable labels.
    [evaluate] and [evaluate_tri] ([mu_calculus/evaluator.rs]) walk the formula
    over one of two domains, bit vectors or pairs of bit vectors
    ([mu_calculus/trit.rs]); fixpoints are iterated until they stop changing, and
    a modality is decided state by state by one of the modal rules.  [to_nnf],
    [invert] and [env_enforce] ([mu_calculus/nnf.rs], [invert.rs],
    [env_enforce.rs]) rewrite formulas before evaluation, [simplify]
    ([mu_calculus/simplify.rs]) shrinks them, and [parse] ([mu_calculus/parser.rs])
    reads them from text.  Temporal formulas ([ltl/]) are parsed, brought to
    negation normal form, written as the text of a mu-calculus formula and parsed
    again ([translate_universal]); a second, branching, translation pushes nodes
    directly ([translate_existential]).
    [mu_calculus/parity_game.rs] turns a formula and a system into a parity game
    and solves it with Zielonka's algorithm.  [compose] ([composition/mod.rs])
    explores the reachable pairs of two systems and emits their product;
    [minimize_bisimulation] ([composition/minimize.rs]) refines a partition and
    builds the quotient; [hide] ([composition/hide.rs]) copies a system with
    labels made internal.  [mu_calculus/parity_game_3v*.rs] play the
    model-checking game over abstract systems in three values;
    [evaluate_3v_game] ([evaluator.rs]) evaluates formulas through it.  The
    abstraction layer ([abstraction/]) describes unbounded data by constants,
    sets, intervals and unknowns ([value.rs], [domains.rs]), with widening, and
    evaluates, propagates and refines guards over abstract states.  [adapter/btor2/] holds hardware designs: bit
    vectors ([bv.rs]), the tree of a design and one generic walk over it with a
    concrete backend ([ast.rs], [sts_ir.rs]), and the bit-blaster
    ([symbolic_bitblast.rs], [bit_blast.rs]), which runs the same walk over
    vectors of decision diagrams.  [persistence/] writes a system to a file, reads it back,
    and reads the transitions of single states through a segment index.
    [synthesise_gr1] ([mu_calculus/gr1_build.rs]) classifies temporal formulas,
    builds a game with monitor bits through the same builder, solves it with the
    fixpoints of [mu_calculus/gr1.rs] and extracts a controller.

    ** The files

    - Prelude: partial computations, bit vectors ([bv_and], [bv_set], ...), the
      bounded-iteration lemmas of monotone functions ([stabilise], ...), loops
      ([for_each]), the values and groups of a map, separated strings.
    - Formula: the arena, [FormulaBuilder] and the inspections of
      [mu_calculus/mod.rs]; [Tree] and [repr] give the inductive reading of an
      arena.
    - Trit: [TritSet] and the Kleene operations.
    - Clts: identifiers and their widths ([IdStorage]), interning, symbol
      universes, [CltsBuilder] and the [Clts] it builds.
    - Modal: one modal step at one state, for every scope, bound and modality
      filter.
    - Evaluator: the generic evaluator, its memo table, guard cache, witnesses
      and prior approximants, and the entry points.
    - Semantics: [DomainLaws], the interface between a domain and the evaluator;
      [denote], the meaning of a formula in a lawful domain; the evaluator
      computes it.
    - Domains: the two domains of the source keep the laws.
    - Checking: [sat], the textbook semantics, and the two-valued evaluator.
    - Verdicts: the three-valued evaluator, refinement and sharp systems.
    - Divergences: systems on which the evaluator leaves the proved fragment.
    - Transforms: the three formula transforms.
    - Simplify: [simplify.rs], its caches and what one pass keeps.
    - Branching: the unguarded box and diamond, and fixpoints over them as paths.
    - Text: UTF-8 text and the string functions of the standard library the
      parsers use; the Unicode tables are the class [Unicode].
    - FormulaParser: the parser of formulas; it ends on every text and what it
      accepts is closed.
    - FormulaText: a grammar of texts ([derives]) and the theorem that the parser
      reads it.
    - Ltl: temporal formulas ([ltl/ast.rs]), their meaning on traces, printing.
    - LtlParser: the temporal parser, and the round trip with printing.
    - Translator: the branching translation.
    - Universal: the universal translation and the fair-path encoder
      ([verify/fairness.rs]); the text it writes belongs to the parser's grammar.
    - UniversalCorrect: negation normal form, paths, and the correctness of the
      universal translation.  Classical logic and choice are used here, for
      infinite paths, and in no other file but Meaning3v.
    - ParityGame: the game, its solver and positional determinacy.
    - GameBuild: the construction of the game.
    - GameCorrect: what the game decides.
    - Morphism: maps between systems that keep the evaluation of formulas.
    - Minimize: partition refinement and the quotient.
    - Binary: the byte reader and writer of [persistence/io.rs].
    - Persistence: snapshots, files, the segment index and prefetching.
    - Snapshot, Segments, Storage: a snapshot rebuilds its system; where the
      segments of a file lie; the theorems on saving, loading and prefetching.
    - Composition: [compose] and its checks.
    - Product: the abstract product and the exploration that finds it.
    - CompositionCorrect: the theorems on [compose].
    - Hide: hiding labels.
    - AbstractValues, AbstractSound, AbstractLattice: abstract values, the
      soundness of their arithmetic and comparisons, their order and widening.
    - Guards, GuardsCorrect: guards, abstract states, refinement; what a verdict
      on a guard says of the concrete states.
    - Bitvec: bit vectors in both representations.
    - Btor2: designs, the sort check, the walk over the class [BvTermBackend], the
      concrete backend, the plain and the prepared step.
    - Btor2Spec: the meaning of a design ([op_value], [design_values]) and the
      interface [Implements], what a backend promises to the walk;
      [walk_design_implements] is proved against it and the concrete backend is
      its first instance.  Btor2Correct: the theorems on steps.
    - BitBlast: the gadgets of the bit-blaster over the class [BddLib] of decision
      diagram packages.  BitBlastCorrect: the laws of a package ([BddMeaning]) and
      the gadgets under them.  BitBlastBackend: the blaster is the second instance
      of [Implements].
    - BitBlastBuild, BitBlastStep, BitBlastAgree: leaves, variable orders, the
      passes of a build and [eval_step]; the theorems; a concrete package of
      Boolean expressions for the witnesses.
    - Game3v, Solve3v: the three-valued game, its solvers and failure subgames.
      Solve3vCorrect, Meaning3v: what the solvers decide.  Evaluate3v: the
      evaluator over the game.
    - Gr1: the solver and the strategies of [gr1.rs].
    - Gr1Game: plays, the two players' winning conditions and the fixpoints the
      solver iterates.
    - Gr1Correct: the region is the winning region.
    - Gr1Strategies: the positional strategy wins without assumptions.
    - Gr1Build: classification, the monitor game and [synthesise_gr1].
    - Gr1BuildCorrect: the states, labels and moves of the built game.
    - Gr1Synthesis: plays are traces; what a verdict and a controller mean.

    ** Correspondence

    Definitions keep the source's names where Rocq allows it.  A function that
    can panic or that recurses through an arena returns an [option]; [None] is a
    panic or exhausted fuel, and every such function has a theorem that neither
    happens on well-formed inputs.  Recursions through the arena use the number
    of nodes as fuel, which bounds the height of a well-formed arena
    ([formula_tree_fuel]); the fixpoint loops use a number of rounds, and
    [2 * n + 1] rounds are enough for [n] states; the solver uses the number of
    positions; the game construction uses the number of pairs of a state and a
    node; the exploration of a product uses the number of pairs of states
    ([explore_spec]); the parsers use the bytes left, since every call consumes
    one ([parse_outcome], [parse_ends]); partition refinement and every loop of the GR(1) solver use
    more rounds than states ([stabilise_shrinks], [stabilise_grows]).  State and
    label identifiers are natural numbers, with the storage bound of the source
    where an insertion can overflow it.  Bytes are integers below 256 and sizes
    and offsets keep their 32- and 64-bit ranges.  Hash maps and sets are [gmap]
    and [gset]; where the source iterates over one, the theorems hold for every
    order or the order is shown not to matter.

    Code outside the repository is an argument.  [Unicode] gives the character
    tables; [BddLib] the operations of a decision-diagram package, which may fail
    for want of memory, with their documented laws in [BddMeaning]; [RadixParser]
    the parsing of wide constants; the budget of a run is an argument of the
    passes it can interrupt.  The theorems that assume such laws have witnesses
    with a concrete instance.

    ** What the theorems show

    - The model checker is correct: [evaluate_decides_sat] (two values, the
      documented reading of every scope; environment diamonds where the controller
      has one action),
      [verdict_sound] and [sharp_agreement] (three values), termination with an
      explicit bound on the rounds, and transparency of memoisation, guard
      partitions, witnesses and prior approximants.
    - The builder is correct: rows, controllability, groups and interning.
    - The transforms keep, complement or re-read the meaning of a formula.
    - The parser ends on every text and accepts closed formulas only
      ([parse_closed]); it reads its grammar ([parse_reads]); the temporal parser
      reads what is printed ([ltl_parse_show]); simplification keeps verdicts
      ([simplify_preserves]).
    - Checking the universal translation of a temporal formula decides whether
      every path satisfies it ([translate_universal_correct]): text, parser,
      evaluator and path semantics in one statement; the branching translation
      decides the branching reading ([translate_existential_correct]).
    - Zielonka's solver decides every total game ([solve_correct]); the game
      construction is total; the game agrees with the evaluator on safety
      formulas.
    - Minimisation returns the quotient by strong bisimilarity and keeps verdicts
      ([minimize_correct], [minimize_preserves_verdicts]).
    - Composition returns the product, refuses exactly the documented systems and
      is simulated by its components ([compose_correct], [compose_refuses]).
    - What is saved is loaded; every strict prefix of a snapshot is rejected;
      prefetching reads exactly the transitions of a state ([save_load_same],
      [snapshot_round_trip], [prefetch_correct]).
    - The GR(1) solver computes the winning region of the game, with strategies
      for both players ([gr1_win_correct]); a specification is reported realizable
      exactly when a controller keeps its temporal formulas
      ([synthesise_gr1_correct]).
    - The three-valued game's solver gives each position to the player with a
      winning strategy ([solve_2v_correct]); its definite verdicts hold with and
      without the uncertain transitions ([solve_3v_meaning]); the evaluator over
      the game returns the verdicts of [evaluate_tri]
      ([evaluate_3v_game_spec]).
    - Hiding returns the copy with the labels internal
      ([hide_labels_correct]).
    - Abstract arithmetic contains the concrete results ([arithmetic_sound]), the
      lattice operations bound their operands ([lattice_correct]), widening stops
      ([widening_stabilises]); decided guards hold in every concrete state
      ([evaluate_guard_sound]) and refinement partitions ([refine_partition]).
    - Bit vectors are arithmetic modulo a power of two
      ([bv_operations_correct]); one step of a design is its reference meaning
      ([simulate_one_step_correct]), so is the prepared step; the bit-blaster
      builds functions with the same values ([build_passes_correct]), over
      distinct variables ([variable_orders_correct]), and its step is the concrete
      one ([eval_step_agrees], [backends_agree]).
    - The inspections of a formula compute what their tree definitions say.
    - Outside these fragments the program departs from its documentation; each
      departure is a closed theorem on a concrete system (Divergences, and the
      ends of Transforms, Simplify, FormulaText, UniversalCorrect, GameCorrect,
      Minimize, Storage, CompositionCorrect, Hide, AbstractSound,
      AbstractLattice, GuardsCorrect, Btor2Correct, Evaluate3v and Gr1Synthesis).

    ** Not modelled

    On-demand evaluation of predicate text over abstract states, the callbacks'
    timing and logging; display names; the projection of a game strategy to a
    controller and the printing of controllers as text; relabelling and
    structural hashing; the meaning of the fair-path encoding; the unrolling of
    declarations of the context language, and that language itself; of BTOR2, the
    parser of the text, memories, and the fixpoints over decision diagrams of the
    exact model and the predicate images; the other adapters and external
    checkers, the contracts and codesign layers, HTTP and the command line. *)
From stdpp Require Export base tactics list gmap strings sorting pretty options.
From Stdlib Require Export Lia.

Open Scope nat_scope.

(** ** Partial computations

    A Rust function that may panic, or a recursion that needs fuel, returns an
    [option]; [let*] sequences two of them. *)
Declare Scope mununu_scope.
Notation "'let*' x ':=' e 'in' k" :=
  (match e with Some x => k | None => None end)
  (at level 10, x strict pattern, e at level 200, k at level 200,
   format "'[v' 'let*'  x  ':='  e  'in' '/' k ']'") : mununu_scope.
Open Scope mununu_scope.

(** The element a push appends is at the old length. *)
Lemma lookup_push {A} (l : list A) (x : A) : (l ++ [x]) !! length l = Some x.
Proof. by rewrite lookup_app_r, Nat.sub_diag by lia. Qed.

(** ** Boolean quantifiers over lists *)

Lemma existsb_spec {A} (f : A → bool) l : existsb f l = true ↔ ∃ x, x ∈ l ∧ f x = true.
Proof. rewrite existsb_exists. by setoid_rewrite list_elem_of_In. Qed.

Lemma forallb_spec {A} (f : A → bool) l : forallb f l = true ↔ ∀ x, x ∈ l → f x = true.
Proof. rewrite forallb_forall. by setoid_rewrite list_elem_of_In. Qed.

Lemma elem_of_filterb {A} (f : A → bool) l x : x ∈ List.filter f l ↔ x ∈ l ∧ f x = true.
Proof. by rewrite !list_elem_of_In, filter_In. Qed.

Lemma existsb_impl {A} (f g : A → bool) l :
  (∀ x, x ∈ l → f x = true → g x = true) → existsb f l = true → existsb g l = true.
Proof. rewrite !existsb_spec. naive_solver. Qed.

Lemma forallb_impl {A} (f g : A → bool) l :
  (∀ x, x ∈ l → f x = true → g x = true) → forallb f l = true → forallb g l = true.
Proof. rewrite !forallb_spec. naive_solver. Qed.

(** Two Booleans are equal when each is true if the other is. *)
Lemma bool_eq_iff (a b : bool) : (a = true ↔ b = true) → a = b.
Proof. destruct a, b; naive_solver. Qed.

Lemma existsb_ext_in {A} (f g : A → bool) l :
  (∀ x, x ∈ l → f x = g x) → existsb f l = existsb g l.
Proof.
  intros H. induction l as [|x l IH]; simpl; [done|].
  rewrite H, IH; [done| |by left]. intros; apply H; by right.
Qed.

Lemma forallb_ext_in {A} (f g : A → bool) l :
  (∀ x, x ∈ l → f x = g x) → forallb f l = forallb g l.
Proof.
  intros H. induction l as [|x l IH]; simpl; [done|].
  rewrite H, IH; [done| |by left]. intros; apply H; by right.
Qed.

(** ** Values of a map *)

Definition values {K A} `{Countable K} (m : gmap K A) : list A := map snd (map_to_list m).

Lemma elem_of_values {K A} `{Countable K} (m : gmap K A) x :
  x ∈ values m ↔ ∃ k, m !! k = Some x.
Proof.
  unfold values. rewrite list_elem_of_fmap. split.
  - intros ([k y] & -> & Hin%elem_of_map_to_list). eauto.
  - intros [k Hk]. exists (k, x). by rewrite elem_of_map_to_list.
Qed.

(** [entry(key).or_default().push(x)] over a list. *)
Definition group_by {A} (key : A → string) (xs : list A) : gmap string (list A) :=
  foldl (λ m x, <[key x := default [] (m !! key x) ++ [x]]> m) ∅ xs.

Lemma group_by_spec {A} (key : A → string) xs k :
  default [] (group_by key xs !! k) = List.filter (λ x, bool_decide (key x = k)) xs ∧
  group_by key xs !! k ≠ Some [].
Proof.
  unfold group_by.
  assert (Hgen : ∀ m : gmap string (list A), m !! k ≠ Some [] →
    let m' := foldl (λ m x, <[key x := default [] (m !! key x) ++ [x]]> m) m xs in
    default [] (m' !! k) = default [] (m !! k) ++ List.filter (λ x, bool_decide (key x = k)) xs ∧
    m' !! k ≠ Some []).
  { induction xs as [|x xs IH]; intros m Hm; simpl; [by rewrite app_nil_r|].
    destruct (IH (<[key x := default [] (m !! key x) ++ [x]]> m)) as [IH1 IH2].
    { destruct (decide (key x = k)) as [->|]; [|by rewrite lookup_insert_ne].
      rewrite lookup_insert_eq. by destruct (default [] _). }
    split; [|done]. rewrite IH1. case_bool_decide as Hk.
    - subst k. rewrite lookup_insert_eq. simpl. by rewrite <-app_assoc.
    - by rewrite lookup_insert_ne. }
  destruct (Hgen ∅) as [H1 H2]; [by rewrite lookup_empty|].
  split; [|done]. rewrite H1. by rewrite lookup_empty.
Qed.

Lemma group_by_lookup {A} (key : A → string) xs k l :
  group_by key xs !! k = Some l ↔ l = List.filter (λ x, bool_decide (key x = k)) xs ∧ l ≠ [].
Proof.
  destruct (group_by_spec key xs k) as [H1 H2]. destruct (group_by key xs !! k) as [l'|]; simpl in *.
  - rewrite <-H1. split; [intros [= <-]|intros [-> _]; done]. split; [done|]. by intros ->.
  - rewrite <-H1. split; [done|]. by intros [-> ?].
Qed.

(** ** Bit vectors

    The source keeps every set of states as a [BitVec<usize, Lsb0>]; here it is
    the list of its bits.  Indexing out of range reads [false], as
    [bits.get(i).map(|b| *b).unwrap_or(false)] does, and the bitwise
    assignments keep the length of their left operand. *)

Definition bit (l : list bool) (i : nat) : bool := default false (l !! i).
Definition bv_and (a b : list bool) : list bool := imap (λ i x, x && bit b i) a.
Definition bv_or (a b : list bool) : list bool := imap (λ i x, x || bit b i) a.
Definition bv_not (a : list bool) : list bool := map negb a.
Definition bv_fill (n : nat) (b : bool) : list bool := replicate n b.
Definition bv_tabulate (n : nat) (f : nat → bool) : list bool := map f (seq 0 n).
Definition bv_set (l : list bool) (i : nat) (b : bool) : list bool := <[i:=b]> l.
Definition bv_any (l : list bool) : bool := existsb id l.

Create HintDb bits.
Create Rewrite HintDb bits.

Lemma bit_lt l i : bit l i = true → i < length l.
Proof.
  unfold bit. destruct (l !! i) eqn:E; simpl; [|done].
  intros _. by apply lookup_lt_Some in E.
Qed.

Lemma bit_ge l i : length l ≤ i → bit l i = false.
Proof. intros. unfold bit. by rewrite lookup_ge_None_2. Qed.

Lemma bit_lookup l i b : l !! i = Some b → bit l i = b.
Proof. unfold bit. by intros ->. Qed.

Lemma lookup_bit l i : i < length l → l !! i = Some (bit l i).
Proof.
  intros Hi. unfold bit. destruct (lookup_lt_is_Some_2 l i Hi) as [b ->]. done.
Qed.

Lemma bit_and a b i : bit (bv_and a b) i = bit a i && bit b i.
Proof.
  unfold bit at 1 2, bv_and. rewrite list_lookup_imap.
  by destruct (a !! i); simpl.
Qed.

Lemma bit_or a b i : i < length a → bit (bv_or a b) i = bit a i || bit b i.
Proof.
  intros Hi. unfold bit at 1 2, bv_or. rewrite list_lookup_imap.
  destruct (lookup_lt_is_Some_2 a i Hi) as [x ->]. done.
Qed.

Lemma bit_not a i : i < length a → bit (bv_not a) i = negb (bit a i).
Proof.
  intros Hi. unfold bit, bv_not. rewrite list_lookup_fmap.
  destruct (lookup_lt_is_Some_2 a i Hi) as [x ->]. done.
Qed.

Lemma bit_fill n b i : bit (bv_fill n b) i = b && bool_decide (i < n).
Proof.
  unfold bit, bv_fill. case_bool_decide.
  - rewrite lookup_replicate_2 by done. by destruct b.
  - rewrite lookup_ge_None_2 by (rewrite length_replicate; lia). by destruct b.
Qed.

Lemma bit_tabulate n f i : i < n → bit (bv_tabulate n f) i = f i.
Proof.
  intros Hi. unfold bit, bv_tabulate.
  rewrite list_lookup_fmap, lookup_seq_lt; done.
Qed.

Lemma bit_set l i j b :
  j < length l → bit (bv_set l j b) i = if decide (i = j) then b else bit l i.
Proof.
  intros Hj. unfold bit, bv_set. case_decide; subst.
  - by rewrite list_lookup_insert_eq.
  - by rewrite list_lookup_insert_ne.
Qed.

Lemma length_bv_and a b : length (bv_and a b) = length a.
Proof. apply length_imap. Qed.
Lemma length_bv_or a b : length (bv_or a b) = length a.
Proof. apply length_imap. Qed.
Lemma length_bv_not a : length (bv_not a) = length a.
Proof. apply length_fmap. Qed.
Lemma length_bv_fill n b : length (bv_fill n b) = n.
Proof. apply length_replicate. Qed.
Lemma length_bv_tabulate n f : length (bv_tabulate n f) = n.
Proof. unfold bv_tabulate. by rewrite length_fmap, length_seq. Qed.
Lemma length_bv_set l i b : length (bv_set l i b) = length l.
Proof. apply length_insert. Qed.

#[export] Hint Rewrite length_bv_and length_bv_or length_bv_not length_bv_fill
  length_bv_tabulate length_bv_set : bits.

(** Two bit vectors of the same length are equal when their bits are. *)
Lemma bv_eq (a b : list bool) :
  length a = length b → (∀ i, i < length a → bit a i = bit b i) → a = b.
Proof.
  intros Hl Hb. apply list_eq_same_length with (length a); [done..|].
  intros i x y Hi Hx Hy. apply bit_lookup in Hx, Hy. subst. by apply Hb.
Qed.

Lemma bv_any_spec l : bv_any l = true ↔ ∃ i, bit l i = true.
Proof.
  unfold bv_any. rewrite existsb_exists. split.
  - intros (x & Hin & Hx). apply list_elem_of_In, list_elem_of_lookup in Hin as [i Hi].
    exists i. apply bit_lookup in Hi. by rewrite Hi.
  - intros [i Hi]. exists true. split; [|done].
    apply list_elem_of_In, list_elem_of_lookup. exists i.
    pose proof (bit_lt _ _ Hi). rewrite lookup_bit; [by f_equal|done].
Qed.

(** Set inclusion of bit vectors and the number of set bits. *)
Definition bv_sub (a b : list bool) : Prop := ∀ i, bit a i = true → bit b i = true.
Definition bv_count (a : list bool) : nat := length (filter (λ b, b = true) a).

Lemma bv_sub_refl a : bv_sub a a.
Proof. by intros i. Qed.
Lemma bv_sub_trans a b c : bv_sub a b → bv_sub b c → bv_sub a c.
Proof. intros H1 H2 i Hi. by apply H2, H1. Qed.
Lemma bv_sub_antisym a b : length a = length b → bv_sub a b → bv_sub b a → a = b.
Proof.
  intros Hl H1 H2. apply bv_eq; [done|]. intros i _.
  destruct (bit a i) eqn:Ea, (bit b i) eqn:Eb; try done.
  - by rewrite (H1 i Ea) in Eb.
  - by rewrite (H2 i Eb) in Ea.
Qed.

#[export] Hint Resolve bv_sub_refl : bits.

Lemma bv_sub_cons x a y b : bv_sub (x :: a) (y :: b) ↔ (x = true → y = true) ∧ bv_sub a b.
Proof.
  split.
  - intros H. split; [apply (H 0)|intros i; apply (H (S i))].
  - intros [H0 H] [|i]; [apply H0|apply H].
Qed.

Lemma bv_count_le_length a : bv_count a ≤ length a.
Proof. unfold bv_count. apply length_filter. Qed.

Lemma bv_count_cons x a : bv_count (x :: a) = (if x then 1 else 0) + bv_count a.
Proof. unfold bv_count. destruct x; by rewrite filter_cons. Qed.

Lemma bv_count_mono a b : length a = length b → bv_sub a b → bv_count a ≤ bv_count b.
Proof.
  revert b. induction a as [|x a IH]; intros [|y b] Hl Hs; simpl in *; try lia.
  apply bv_sub_cons in Hs as [H0 Hs]. rewrite !bv_count_cons.
  specialize (IH b ltac:(lia) Hs). destruct x, y; try lia; by specialize (H0 eq_refl).
Qed.

Lemma bv_count_strict a b :
  length a = length b → bv_sub a b → a ≠ b → bv_count a < bv_count b.
Proof.
  revert b. induction a as [|x a IH]; intros [|y b] Hl Hs Hne; simpl in *; try lia; try done.
  apply bv_sub_cons in Hs as [H0 Hs]. rewrite !bv_count_cons.
  pose proof (bv_count_mono a b ltac:(lia) Hs).
  destruct (decide (a = b)) as [->|Hab].
  - destruct x, y; try done; [by specialize (H0 eq_refl)|lia].
  - specialize (IH b ltac:(lia) Hs Hab). destruct x, y; try lia; by specialize (H0 eq_refl).
Qed.

(** [is_empty] *)
Definition null {A} (l : list A) : bool := match l with [] => true | _ => false end.

(** ** Results

    The source's [Result<T, E>]. *)
Inductive Result (A E : Type) : Type := Ok (a : A) | Err (e : E).
Arguments Ok {A E} a.
Arguments Err {A E} e.

(** [e?] in code that may also panic. *)
Notation "'let?' x ':=' e 'in' k" :=
  (match e with Some (Ok x) => k | Some (Err err) => Some (Err err) | None => None end)
  (at level 10, x strict pattern, e at level 200, k at level 200,
   format "'[v' 'let?'  x  ':='  e  'in'  '/' k ']'") : mununu_scope.

(** ** Separated strings *)

(** The character does not occur. *)
Fixpoint char_free (ch : Ascii.ascii) (s : string) : bool :=
  match s with EmptyString => true | String a s' => negb (Ascii.eqb a ch) && char_free ch s' end.

Lemma split_at_char ch a a' b b' : char_free ch a = true → char_free ch a' = true →
  a +:+ String ch EmptyString +:+ b = a' +:+ String ch EmptyString +:+ b' → a = a' ∧ b = b'.
Proof.
  revert a'. induction a as [|x a IH]; intros [|y a'] Ha Ha' E; cbn in *.
  - by simplify_eq.
  - injection E as <- _. by rewrite Ascii.eqb_refl in Ha'.
  - injection E as -> _. by rewrite Ascii.eqb_refl in Ha.
  - apply andb_true_iff in Ha as [_ Ha], Ha' as [_ Ha']. injection E as -> E. destruct (IH a' Ha Ha' E) as [-> ->]. done.
Qed.

(** A printed number consists of digits. *)
Lemma pretty_char_free ch (n : nat) :
  (∀ d, Ascii.eqb (pretty_N_char d) ch = false) → char_free ch (pretty n) = true.
Proof.
  intros Hd. assert (Hgo : ∀ x s, char_free ch s = true → char_free ch (pretty_N_go x s) = true).
  { intros x. induction (N.lt_wf_0 x) as [x _ IH]; intros s Hs. destruct (decide (x = 0)%N) as [->|Hx]; [done|].
    rewrite pretty_N_go_step by lia. apply IH; [by apply N.div_lt; lia|]. cbn [char_free]. by rewrite Hd, Hs. }
  unfold pretty, pretty_nat, pretty, pretty_N. case_decide; [|by apply Hgo].
  pose proof (Hd 0%N) as H0. cbn in *. by rewrite H0.
Qed.

(** ** Loops *)

(** [for x in l]; an iteration can panic. *)
Fixpoint for_each {A B} (f : A → B → option A) (acc : A) (l : list B) : option A :=
  match l with
  | [] => Some acc
  | x :: l' => let* acc' := f acc x in for_each f acc' l'
  end.

(** A loop whose iterations keep [I], move along [R] and establish [Q], which
    later iterations keep. *)
Lemma for_each_spec {A B} (I : A → Prop) (R : relation A) `{!PreOrder R} (Q : B → A → Prop)
    (f : A → B → option A) (l : list B) :
  (∀ x a a', Q x a → R a a' → Q x a') →
  (∀ x a, x ∈ l → I a → ∃ a', f a x = Some a' ∧ I a' ∧ R a a' ∧ Q x a') →
  ∀ a, I a → ∃ a', for_each f a l = Some a' ∧ I a' ∧ R a a' ∧ ∀ x, x ∈ l → Q x a'.
Proof.
  intros HQ Hf. induction l as [|x l IH]; intros a Ha; cbn [for_each].
  { exists a. split_and!; [done..|]. by intros x ?%not_elem_of_nil. }
  destruct (Hf x a) as (a1 & -> & Ha1 & HR1 & HQ1); [by left|done|].
  destruct IH with a1 as (a2 & -> & Ha2 & HR2 & HQ2); [intros; apply Hf; [by right|done]|done|].
  exists a2. split_and!; [done..|by etransitivity|].
  intros y [->|Hy]%elem_of_cons; [by eapply HQ|by apply HQ2].
Qed.

(** A loop none of whose iterations panics. *)
Lemma for_each_total {A B} (f : A → B → option A) l :
  (∀ a x, x ∈ l → is_Some (f a x)) → ∀ a, is_Some (for_each f a l).
Proof.
  intros Hf. induction l as [|x l IH]; intros a; cbn [for_each]; [by eexists|].
  destruct (Hf a x) as [a' ->]; [by left|]. apply IH. intros; apply Hf; by right.
Qed.

(** [loop { next = f(x); if next == x { return x } x = next }] on bit vectors;
    [None] also when the rounds are used up. *)
Fixpoint stabilise (rounds : nat) (F : list bool → option (list bool)) (x : list bool) : option (list bool) :=
  match rounds with
  | O => None
  | S r => let* nxt := F x in if decide (nxt = x) then Some x else stabilise r F nxt
  end.

Lemma stabilise_S rounds F x nxt :
  F x = Some nxt → stabilise (S rounds) F x = if decide (nxt = x) then Some x else stabilise rounds F nxt.
Proof. intros E. cbn [stabilise]. by rewrite E. Qed.

Lemma iter_fixpoint {A} (G : A → A) k x : G x = x → Nat.iter k G x = x.
Proof. intros E. induction k as [|k IH]; simpl; congruence. Qed.

Lemma iter_shift {A} (G : A → A) k x : Nat.iter k G (G x) = Nat.iter (S k) G x.
Proof. induction k as [|k IH]; simpl in *; congruence. Qed.

(** A loop that changes its set in one direction, as measured by [size], ends
    within as many rounds as the size can change, plus one. *)
Lemma stabilise_total (I : list bool → Prop) (G : list bool → list bool) (size : list bool → nat) F bound :
  (∀ x, I x → F x = Some (G x) ∧ I (G x) ∧ (G x ≠ x → size (G x) < size x)) →
  (∀ x, I x → size x ≤ bound) →
  ∀ rounds x, I x → bound < rounds →
  stabilise rounds F x = Some (Nat.iter bound G x) ∧ G (Nat.iter bound G x) = Nat.iter bound G x ∧ I (Nat.iter bound G x).
Proof.
  intros Hstep Hbound.
  assert (Hgen : ∀ b x, I x → size x ≤ b → ∀ rounds, b < rounds →
    stabilise rounds F x = Some (Nat.iter b G x) ∧ G (Nat.iter b G x) = Nat.iter b G x ∧ I (Nat.iter b G x)).
  { induction b as [|b IH]; intros x Hx Hs [|rounds] Hr; try lia; destruct (Hstep x Hx) as (E & HG & Hlt);
      rewrite (stabilise_S _ _ _ _ E); destruct (decide (G x = x)) as [Hfix|Hne].
    - by rewrite iter_fixpoint.
    - specialize (Hlt Hne). lia.
    - by rewrite iter_fixpoint.
    - rewrite <-iter_shift. apply IH; [done| |lia]. specialize (Hlt Hne). lia. }
  intros rounds x Hx Hr. by apply Hgen; [|apply Hbound|].
Qed.

Lemma stabilise_shrinks (I : list bool → Prop) (G : list bool → list bool) F n :
  (∀ x, I x → F x = Some (G x) ∧ I (G x) ∧ length x = n ∧ length (G x) = n ∧ bv_sub (G x) x) →
  ∀ rounds x, I x → n < rounds →
  stabilise rounds F x = Some (Nat.iter n G x) ∧ G (Nat.iter n G x) = Nat.iter n G x ∧ I (Nat.iter n G x).
Proof.
  intros Hstep. apply (stabilise_total I G bv_count).
  - intros x Hx. destruct (Hstep x Hx) as (? & ? & Hl & HlG & Hsub). split_and!; [done..|].
    intros Hne. apply bv_count_strict; [congruence|done..].
  - intros x Hx. destruct (Hstep x Hx) as (_ & _ & <- & _). apply bv_count_le_length.
Qed.

Lemma stabilise_grows (I : list bool → Prop) (G : list bool → list bool) F n :
  (∀ x, I x → F x = Some (G x) ∧ I (G x) ∧ length x = n ∧ length (G x) = n ∧ bv_sub x (G x)) →
  ∀ rounds x, I x → n < rounds →
  stabilise rounds F x = Some (Nat.iter n G x) ∧ G (Nat.iter n G x) = Nat.iter n G x ∧ I (Nat.iter n G x).
Proof.
  intros Hstep. apply (stabilise_total I G (λ x, n - bv_count x)).
  - intros x Hx. destruct (Hstep x Hx) as (? & ? & Hl & HlG & Hsub). split_and!; [done..|].
    intros Hne. pose proof (bv_count_le_length (G x)).
    assert (bv_count x < bv_count (G x)); [|lia]. apply bv_count_strict; [congruence|done|congruence].
  - intros x _. lia.
Qed.

(** ** Hash sets

    The order in which a hash set is visited is left open. *)
Class HashOrder := {
  visit : ∀ {A : Type} `{Countable A}, gset A → list A;
  visit_elements : ∀ {A : Type} `{Countable A} (X : gset A), visit X ≡ₚ elements X
}.

Lemma elem_of_visit `{HashOrder} {A} `{Countable A} (X : gset A) x : x ∈ visit X ↔ x ∈ X.
Proof. by rewrite visit_elements, elem_of_elements. Qed.

Definition elements_order : HashOrder :=
  {| visit := λ A _ _ X, elements X; visit_elements := λ A _ _ X, Permutation_refl _ |}.

(** ** Sorted, duplicate-free lists of symbols

    [buffer.sort(); buffer.dedup()] on a [Vec<String>]. *)
Fixpoint dedup {A} `{EqDecision A} (l : list A) : list A :=
  match l with
  | [] => []
  | x :: l' =>
    match l' with
    | [] => [x]
    | y :: _ => if decide (x = y) then dedup l' else x :: dedup l'
    end
  end.

Definition sort_strings (l : list string) : list string := merge_sort String.le l.
Definition canon (l : list string) : list string := dedup (sort_strings l).

Lemma elem_of_dedup {A} `{EqDecision A} (l : list A) x : x ∈ dedup l ↔ x ∈ l.
Proof.
  induction l as [|a [|b l] IH]; [done..|]. cbn [dedup]. case_decide; subst.
  - rewrite IH. set_solver.
  - rewrite elem_of_cons, IH. set_solver.
Qed.

Lemma dedup_sorted (l : list string) :
  StronglySorted String.le l → StronglySorted String.le (dedup l) ∧ NoDup (dedup l).
Proof.
  induction l as [|a [|b l] IH]; intros Hs.
  - split; constructor.
  - split; [done|]. apply NoDup_singleton.
  - apply StronglySorted_inv in Hs as [Hs Ha]. destruct (IH Hs) as [IHs IHn].
    cbn [dedup]. case_decide; subst; [done|]. split.
    + constructor; [done|]. apply Forall_forall. intros x Hx.
      apply (elem_of_dedup (b :: l)) in Hx. by eapply Forall_forall in Ha.
    + constructor; [|done]. intros Hx. apply (elem_of_dedup (b :: l)) in Hx.
      apply elem_of_cons in Hx as [->|Hx]; [done|].
      apply StronglySorted_inv in Hs as [_ Hb].
      rewrite Forall_forall in Hb. specialize (Hb _ Hx).
      rewrite Forall_forall in Ha. specialize (Ha b ltac:(left)).
      apply H. by apply (anti_symm String.le).
Qed.

Lemma elem_of_canon l x : x ∈ canon l ↔ x ∈ l.
Proof.
  unfold canon, sort_strings. rewrite elem_of_dedup.
  by rewrite (merge_sort_Permutation String.le l).
Qed.

Lemma canon_sorted l : StronglySorted String.le (canon l) ∧ NoDup (canon l).
Proof. apply dedup_sorted, (StronglySorted_merge_sort String.le). Qed.

(** Lists with the same symbols have the same canonical form. *)
Lemma canon_ext l l' : (∀ x, x ∈ l ↔ x ∈ l') → canon l = canon l'.
Proof.
  intros H. apply (StronglySorted_unique String.le); [apply canon_sorted..|].
  apply NoDup_Permutation; [apply canon_sorted..|]. intros x. by rewrite !elem_of_canon.
Qed.

Lemma canon_inj l l' : canon l = canon l' → ∀ x, x ∈ l ↔ x ∈ l'.
Proof. intros H x. by rewrite <-(elem_of_canon l), H, elem_of_canon. Qed.

Lemma canon_idemp l : canon (canon l) = canon l.
Proof. apply canon_ext. intros x. apply elem_of_canon. Qed.
