(* ===== verification/Formula.v ===== *)
(** The mu-calculus formula arena of [mu_calculus/mod.rs]: nodes, guards, the
    builder, and the syntactic inspections (fixpoint order, alternation depth,
    property class, constant value).

    A formula is an arena of nodes referring to each other by index.  The
    recursive inspections follow the indices, so they carry a fuel argument; the
    entry points pass the number of nodes, which is enough for every arena whose
    children precede their parents ([wf_arena], what [FormulaBuilder] and the
    parser produce).  [None] is an index panic or exhausted fuel.  [Tree] and
    [repr] give the inductive reading of an arena that the theorems use. *)
From S2P Require Import Prelude.

(** ** Data *)

Inductive ModalKind := Box | Diamond.
Inductive Control := Control_All | Controllable | Environment.
Inductive FixpointKind := Least | Greatest.
Inductive PropertyClass := Safety | Reachability | Liveness | Mixed | Propositional.

#[export] Instance ModalKind_eq_dec : EqDecision ModalKind.
Proof. solve_decision. Defined.
#[export] Instance Control_eq_dec : EqDecision Control.
Proof. solve_decision. Defined.
#[export] Instance FixpointKind_eq_dec : EqDecision FixpointKind.
Proof. solve_decision. Defined.

Record VariableGuard := { required : list string; forbidden : list string }.

(** [max_steps] is the [Option<u32>] bound. *)
Record Guard := {
  g_labels : list string;
  g_current : VariableGuard;
  g_next : VariableGuard;
  g_control : Control;
  max_steps : option nat
}.

Definition VariableGuard_default : VariableGuard := {| required := []; forbidden := [] |}.
Definition Guard_default : Guard :=
  {| g_labels := []; g_current := VariableGuard_default; g_next := VariableGuard_default;
     g_control := Control_All; max_steps := None |}.

#[export] Instance VariableGuard_eq_dec : EqDecision VariableGuard.
Proof. solve_decision. Defined.
#[export] Instance Guard_eq_dec : EqDecision Guard.
Proof. solve_decision. Defined.

Abbreviation NodeId := nat (only parsing).
Abbreviation FormulaVarId := nat (only parsing).

Inductive Node :=
  | NTrue
  | NFalse
  | NPredicate (name : string)
  | NVariable (var : FormulaVarId)
  | NNot (inner : NodeId)
  | NAnd (left right : NodeId)
  | NOr (left right : NodeId)
  | NModal (kind : ModalKind) (guard : Guard) (target : NodeId)
  | NMu (var : FormulaVarId) (body : NodeId)
  | NNu (var : FormulaVarId) (body : NodeId).

#[export] Instance Node_eq_dec : EqDecision Node.
Proof. solve_decision. Defined.

Definition is_fixpoint (n : Node) : bool :=
  match n with NMu _ _ | NNu _ _ => true | _ => false end.

(** A [FormulaVar] holds only its name. *)
Record Formula := { root : NodeId; nodes : list Node; vars : list string }.

Definition node (f : Formula) (id : NodeId) : option Node := nodes f !! id.

(** ** [FormulaBuilder] *)

Record FormulaBuilder := { b_nodes : list Node; b_vars : list string }.

Definition FormulaBuilder_default : FormulaBuilder := {| b_nodes := []; b_vars := [] |}.

Definition push_node (b : FormulaBuilder) (n : Node) : NodeId * FormulaBuilder :=
  (length (b_nodes b), {| b_nodes := b_nodes b ++ [n]; b_vars := b_vars b |}).

Definition push_var (b : FormulaBuilder) (name : string) : FormulaVarId * FormulaBuilder :=
  (length (b_vars b), {| b_nodes := b_nodes b; b_vars := b_vars b ++ [name] |}).

Definition into_formula (b : FormulaBuilder) (r : NodeId) : Formula :=
  {| root := r; nodes := b_nodes b; vars := b_vars b |}.

(** ** Fixpoint order *)

Fixpoint collect_fixpoint_order (fuel : nat) (ns : list Node) (id : NodeId)
    (out : list (FormulaVarId * bool)) : option (list (FormulaVarId * bool)) :=
  match fuel with
  | O => None
  | S k =>
    let* n := ns !! id in
    match n with
    | NMu var body => collect_fixpoint_order k ns body (out ++ [(var, true)])
    | NNu var body => collect_fixpoint_order k ns body (out ++ [(var, false)])
    | NAnd l r | NOr l r =>
        let* out' := collect_fixpoint_order k ns l out in
        collect_fixpoint_order k ns r out'
    | NNot inner => collect_fixpoint_order k ns inner out
    | NModal _ _ target => collect_fixpoint_order k ns target out
    | NTrue | NFalse | NPredicate _ | NVariable _ => Some out
    end
  end.

Definition fixpoint_nesting_order (f : Formula) : option (list (FormulaVarId * bool)) :=
  collect_fixpoint_order (length (nodes f)) (nodes f) (root f) [].

Definition mu_obligations (f : Formula) : option (list FormulaVarId) :=
  let* o := fixpoint_nesting_order f in
  Some (omap (λ '(v, is_mu), if (is_mu : bool) then Some v else None) o).

(** ** Alternation depth *)

Fixpoint contains_opposite_fixpoint (fuel : nat) (ns : list Node) (id : NodeId)
    (looking_for_nu : bool) : option bool :=
  match fuel with
  | O => None
  | S k =>
    let* n := ns !! id in
    match n with
    | NTrue | NFalse | NPredicate _ | NVariable _ => Some false
    | NNot inner => contains_opposite_fixpoint k ns inner looking_for_nu
    | NAnd l r | NOr l r =>
        let* b := contains_opposite_fixpoint k ns l looking_for_nu in
        if (b : bool) then Some true
        else contains_opposite_fixpoint k ns r looking_for_nu
    | NModal _ _ target => contains_opposite_fixpoint k ns target looking_for_nu
    | NNu _ body =>
        if looking_for_nu then Some true
        else contains_opposite_fixpoint k ns body looking_for_nu
    | NMu _ body =>
        if looking_for_nu then contains_opposite_fixpoint k ns body looking_for_nu
        else Some true
    end
  end.

(** [ad_node] reads and fills the per-node cache; the cache is the state. *)
Fixpoint ad_node (fuel : nat) (ns : list Node) (id : NodeId) (cache : list (option nat))
    : option (nat * list (option nat)) :=
  match fuel with
  | O => None
  | S k =>
    let* c := cache !! id in
    match c with
    | Some d => Some (d, cache)
    | None =>
      let* n := ns !! id in
      let* res := match n with
        | NTrue | NFalse | NPredicate _ | NVariable _ => Some (0, cache)
        | NNot inner => ad_node k ns inner cache
        | NAnd l r | NOr l r =>
            let* (dl, cache1) := ad_node k ns l cache in
            let* (dr, cache2) := ad_node k ns r cache1 in
            Some (dl `max` dr, cache2)
        | NModal _ _ target => ad_node k ns target cache
        | NMu _ body =>
            let* (body_depth, cache1) := ad_node k ns body cache in
            let* opp := contains_opposite_fixpoint k ns body true in
            Some (if (opp : bool) then body_depth `max` 1 + 1 else body_depth `max` 1, cache1)
        | NNu _ body =>
            let* (body_depth, cache1) := ad_node k ns body cache in
            let* opp := contains_opposite_fixpoint k ns body false in
            Some (if (opp : bool) then body_depth `max` 1 + 1 else body_depth `max` 1, cache1)
        end in
      let '(depth, cache') := (res : nat * list (option nat)) in
      Some (depth, <[id := Some depth]> cache')
    end
  end.

Definition alternation_depth (f : Formula) : option nat :=
  let* (d, _) := ad_node (length (nodes f)) (nodes f) (root f)
                   (replicate (length (nodes f)) None) in
  Some d.

(** ** Modalities and property class *)

Definition box_modality_count (f : Formula) : nat :=
  length (List.filter (λ n, match n with NModal Box _ _ => true | _ => false end) (nodes f)).

Definition has_modality (f : Formula) : bool :=
  existsb (λ n, match n with NModal _ _ _ => true | _ => false end) (nodes f).

Fixpoint fixpoint_kinds (fuel : nat) (ns : list Node) (id : NodeId) : option (bool * bool) :=
  match fuel with
  | O => None
  | S k =>
    let* n := ns !! id in
    match n with
    | NTrue | NFalse | NPredicate _ | NVariable _ => Some (false, false)
    | NNot inner => fixpoint_kinds k ns inner
    | NAnd l r | NOr l r =>
        let* (lm, ln) := fixpoint_kinds k ns l in
        let* (rm, rn) := fixpoint_kinds k ns r in
        Some (lm || rm, ln || rn)
    | NModal _ _ target => fixpoint_kinds k ns target
    | NMu _ body => let* (_, bn) := fixpoint_kinds k ns body in Some (true, bn)
    | NNu _ body => let* (bm, _) := fixpoint_kinds k ns body in Some (bm, true)
    end
  end.

Definition property_class (f : Formula) : option PropertyClass :=
  let* (has_mu, has_nu) := fixpoint_kinds (length (nodes f)) (nodes f) (root f) in
  let* ad := alternation_depth f in
  Some (match has_mu, has_nu with
        | false, false => Propositional
        | false, true => Safety
        | true, false => Reachability
        | true, true => if 2 <=? ad then Liveness else Mixed
        end).

(** ** Constant value of an atom-less formula

    [env] is the binding stack, innermost binding first.  The outer option is a
    panic, the inner one the source's [Option<bool>]. *)

Fixpoint const_loop (rounds : nat) (body : bool → option (option bool)) (cur : bool)
    : option (option bool) :=
  match rounds with
  | O => Some (Some cur)
  | S r =>
    let* res := body cur in
    match res with
    | None => Some None
    | Some nxt => if Bool.eqb nxt cur then Some (Some cur) else const_loop r body nxt
    end
  end.

Fixpoint const_lookup (env : list (FormulaVarId * bool)) (v : FormulaVarId) : option bool :=
  match env with
  | [] => None
  | (w, b) :: env' => if w =? v then Some b else const_lookup env' v
  end.

Fixpoint const_eval (fuel : nat) (ns : list Node) (id : NodeId)
    (env : list (FormulaVarId * bool)) : option (option bool) :=
  match fuel with
  | O => None
  | S k =>
    let* n := ns !! id in
    match n with
    | NTrue => Some (Some true)
    | NFalse => Some (Some false)
    | NPredicate _ => Some None
    | NVariable v => Some (const_lookup env v)
    | NNot a => let* r := const_eval k ns a env in Some (negb <$> r)
    | NAnd a b =>
        let* ra := const_eval k ns a env in
        match ra with
        | None => Some None
        | Some va => let* rb := const_eval k ns b env in Some ((andb va) <$> rb)
        end
    | NOr a b =>
        let* ra := const_eval k ns a env in
        match ra with
        | None => Some None
        | Some va => let* rb := const_eval k ns b env in Some ((orb va) <$> rb)
        end
    | NModal _ g target =>
        if decide (g = Guard_default) then const_eval k ns target env else Some None
    | NMu var body => const_loop 3 (λ cur, const_eval k ns body ((var, cur) :: env)) false
    | NNu var body => const_loop 3 (λ cur, const_eval k ns body ((var, cur) :: env)) true
    end
  end.

Definition constant_value (f : Formula) : option (option bool) :=
  const_eval (length (nodes f)) (nodes f) (root f) [].

(** ** Trees

    The inductive reading of an arena. *)

Inductive Tree :=
  | TTrue
  | TFalse
  | TPred (p : string)
  | TVar (v : FormulaVarId)
  | TNot (t : Tree)
  | TAnd (l r : Tree)
  | TOr (l r : Tree)
  | TModal (k : ModalKind) (g : Guard) (t : Tree)
  | TFix (k : FixpointKind) (v : FormulaVarId) (t : Tree).

#[export] Instance Tree_eq_dec : EqDecision Tree.
Proof. solve_decision. Defined.

Inductive repr (ns : list Node) : NodeId → Tree → Prop :=
  | repr_true id : ns !! id = Some NTrue → repr ns id TTrue
  | repr_false id : ns !! id = Some NFalse → repr ns id TFalse
  | repr_pred id p : ns !! id = Some (NPredicate p) → repr ns id (TPred p)
  | repr_var id v : ns !! id = Some (NVariable v) → repr ns id (TVar v)
  | repr_not id a t :
      ns !! id = Some (NNot a) → repr ns a t → repr ns id (TNot t)
  | repr_and id a b ta tb :
      ns !! id = Some (NAnd a b) → repr ns a ta → repr ns b tb → repr ns id (TAnd ta tb)
  | repr_or id a b ta tb :
      ns !! id = Some (NOr a b) → repr ns a ta → repr ns b tb → repr ns id (TOr ta tb)
  | repr_modal id k g a t :
      ns !! id = Some (NModal k g a) → repr ns a t → repr ns id (TModal k g t)
  | repr_mu id v a t :
      ns !! id = Some (NMu v a) → repr ns a t → repr ns id (TFix Least v t)
  | repr_nu id v a t :
      ns !! id = Some (NNu v a) → repr ns a t → repr ns id (TFix Greatest v t).

Definition formula_tree (f : Formula) (t : Tree) : Prop := repr (nodes f) (root f) t.

Definition children (n : Node) : list NodeId :=
  match n with
  | NTrue | NFalse | NPredicate _ | NVariable _ => []
  | NNot a | NModal _ _ a | NMu _ a | NNu _ a => [a]
  | NAnd a b | NOr a b => [a; b]
  end.

(** Children precede their parent: what [push_node] produces. *)
Definition wf_arena (ns : list Node) : Prop :=
  ∀ id n, ns !! id = Some n → Forall (λ c, c < id) (children n).

Definition wf_formula (f : Formula) : Prop :=
  wf_arena (nodes f) ∧ root f < length (nodes f).

Fixpoint height (t : Tree) : nat :=
  match t with
  | TTrue | TFalse | TPred _ | TVar _ => 1
  | TNot t | TModal _ _ t | TFix _ _ t => S (height t)
  | TAnd l r | TOr l r => S (height l `max` height r)
  end.

Fixpoint free_vars (t : Tree) : gset nat :=
  match t with
  | TTrue | TFalse | TPred _ => ∅
  | TVar v => {[v]}
  | TNot t | TModal _ _ t => free_vars t
  | TAnd l r | TOr l r => free_vars l ∪ free_vars r
  | TFix _ v t => free_vars t ∖ {[v]}
  end.

(** [positive pol P t]: every free occurrence in [t] of a variable in [P] is
    under a number of negations whose parity is [pol] ([true] is even), and the
    same holds at every binder inside. *)
Fixpoint occurs_only (pol : bool) (v : nat) (t : Tree) : bool :=
  match t with
  | TTrue | TFalse | TPred _ => true
  | TVar w => pol || negb (v =? w)
  | TNot t => occurs_only (negb pol) v t
  | TAnd l r | TOr l r => occurs_only pol v l && occurs_only pol v r
  | TModal _ _ t => occurs_only pol v t
  | TFix _ w t => if v =? w then true else occurs_only pol v t
  end.

(** Every bound variable occurs only positively in the body of its binder. *)
Fixpoint monotone (t : Tree) : bool :=
  match t with
  | TTrue | TFalse | TPred _ | TVar _ => true
  | TNot t | TModal _ _ t => monotone t
  | TAnd l r | TOr l r => monotone l && monotone r
  | TFix _ v t => occurs_only true v t && monotone t
  end.

(** ** Reading the inspections on trees *)

Fixpoint t_order (t : Tree) : list (FormulaVarId * bool) :=
  match t with
  | TTrue | TFalse | TPred _ | TVar _ => []
  | TNot t | TModal _ _ t => t_order t
  | TAnd l r | TOr l r => t_order l ++ t_order r
  | TFix k v t => (v, bool_decide (k = Least)) :: t_order t
  end.

Definition dual (k : FixpointKind) : FixpointKind :=
  match k with Least => Greatest | Greatest => Least end.

(** [t] contains a fixpoint of kind [k]. *)
Fixpoint has_fix (k : FixpointKind) (t : Tree) : bool :=
  match t with
  | TTrue | TFalse | TPred _ | TVar _ => false
  | TNot t | TModal _ _ t => has_fix k t
  | TAnd l r | TOr l r => has_fix k l || has_fix k r
  | TFix k' _ t => bool_decide (k = k') || has_fix k t
  end.

(** Some fixpoint of [t] has a fixpoint of the other kind in its body. *)
Fixpoint alternates (t : Tree) : bool :=
  match t with
  | TTrue | TFalse | TPred _ | TVar _ => false
  | TNot t | TModal _ _ t => alternates t
  | TAnd l r | TOr l r => alternates l || alternates r
  | TFix k _ t => has_fix (dual k) t || alternates t
  end.

(** The alternation depth without the cache. *)
Fixpoint t_alternation (t : Tree) : nat :=
  match t with
  | TTrue | TFalse | TPred _ | TVar _ => 0
  | TNot t | TModal _ _ t => t_alternation t
  | TAnd l r | TOr l r => t_alternation l `max` t_alternation r
  | TFix k _ t =>
      if has_fix (dual k) t then t_alternation t `max` 1 + 1 else t_alternation t `max` 1
  end.

(** ** Lemmas on arenas *)

Lemma repr_mono ns ms id t : repr ns id t → repr (ns ++ ms) id t.
Proof. induction 1; econstructor; eauto using lookup_app_l_Some. Qed.

Lemma repr_det ns id t t' : repr ns id t → repr ns id t' → t = t'.
Proof.
  intros H. revert t'.
  induction H; intros t'; inversion 1; simplify_eq; f_equal; eauto.
Qed.

Lemma repr_lt ns id t : repr ns id t → id < length ns.
Proof. destruct 1; eapply lookup_lt_Some; eauto. Qed.

Lemma repr_height ns id t : wf_arena ns → repr ns id t → height t ≤ S id.
Proof.
  intros Hwf. induction 1; simpl; try lia;
    match goal with H : ns !! id = Some _ |- _ =>
      specialize (Hwf _ _ H); simpl in Hwf; rewrite ?Forall_cons in Hwf; lia end.
Qed.

Lemma repr_exists ns id : wf_arena ns → id < length ns → ∃ t, repr ns id t.
Proof.
  intros Hwf. induction id as [id IH] using lt_wf_ind. intros Hlt.
  destruct (lookup_lt_is_Some_2 ns id Hlt) as [n Hn].
  pose proof (Hwf _ _ Hn) as Hc.
  assert (Hsub : ∀ c, c ∈ children n → ∃ t, repr ns c t).
  { intros c Hin. rewrite Forall_forall in Hc. specialize (Hc c Hin). apply IH; lia. }
  clear IH Hc Hwf. destruct n as [| | | |a|a b|a b|k g a|v a|v a]; simpl in Hsub;
    try (by eexists; econstructor);
    (destruct (Hsub a) as [ta Ha]; [by left|]);
    try (destruct (Hsub b) as [tb Hb]; [by right; left|]); eexists;
    [eapply repr_not|eapply repr_and|eapply repr_or|eapply repr_modal|eapply repr_mu|eapply repr_nu];
    eauto.
Qed.

Lemma wf_formula_tree f :
  wf_formula f → ∃ t, formula_tree f t ∧ height t ≤ length (nodes f).
Proof.
  intros [Hwf Hr]. destruct (repr_exists _ _ Hwf Hr) as [t Ht].
  exists t. split; [done|]. pose proof (repr_height _ _ _ Hwf Ht). lia.
Qed.

Lemma formula_tree_fuel f t :
  wf_formula f → formula_tree f t → height t ≤ length (nodes f).
Proof. intros [Hwf Hr] Ht. pose proof (repr_height _ _ _ Hwf Ht). lia. Qed.

(** The builder keeps the arena well formed. *)
Lemma wf_arena_nil : wf_arena [].
Proof. by intros id n. Qed.

Lemma wf_arena_push ns n :
  wf_arena ns → Forall (λ c, c < length ns) (children n) → wf_arena (ns ++ [n]).
Proof.
  intros Hwf Hn id m. rewrite lookup_app_Some, list_lookup_singleton_Some.
  intros [H|(? & ? & <-)]; [eauto|]. by replace id with (length ns) by lia.
Qed.

#[export] Hint Resolve wf_arena_nil wf_arena_push repr_lt repr_mono lookup_push : arena.

(** Step through one level of a fuelled recursion over an arena. *)
Ltac arena_step :=
  match goal with
  | H : height _ ≤ ?fuel |- context [?fuel] => is_var fuel; destruct fuel; simpl in H; [lia|]
  end; simpl;
  repeat match goal with H : ?ns !! ?id = Some _ |- context [?ns !! ?id] => rewrite H end.

Lemma collect_fixpoint_order_spec ns id t fuel out :
  repr ns id t → height t ≤ fuel →
  collect_fixpoint_order fuel ns id out = Some (out ++ t_order t).
Proof.
  intros H. revert fuel out. induction H; intros fuel out Hf; arena_step;
    rewrite ?app_nil_r; auto with lia.
  - rewrite IHrepr1 by lia. rewrite IHrepr2 by lia. by rewrite app_assoc.
  - rewrite IHrepr1 by lia. rewrite IHrepr2 by lia. by rewrite app_assoc.
  - rewrite IHrepr by lia. by rewrite <-app_assoc.
  - rewrite IHrepr by lia. by rewrite <-app_assoc.
Qed.

Lemma contains_opposite_fixpoint_spec ns id t fuel b :
  repr ns id t → height t ≤ fuel →
  contains_opposite_fixpoint fuel ns id b =
    Some (has_fix (if b then Greatest else Least) t).
Proof.
  intros H. revert fuel. induction H; intros fuel Hf; arena_step; auto with lia;
    rewrite ?IHrepr1, ?IHrepr2, ?IHrepr by lia; destruct b; try done;
    by destruct (has_fix _ ta).
Qed.

Lemma fixpoint_kinds_spec ns id t fuel :
  repr ns id t → height t ≤ fuel →
  fixpoint_kinds fuel ns id = Some (has_fix Least t, has_fix Greatest t).
Proof.
  intros H. revert fuel. induction H; intros fuel Hf; arena_step; auto with lia;
    by rewrite ?IHrepr1, ?IHrepr2, ?IHrepr by lia.
Qed.

(** The cache of [ad_node] only ever holds depths of the nodes it names. *)
Definition cache_ok (ns : list Node) (cache : list (option nat)) : Prop :=
  length cache = length ns ∧
  ∀ i d t, cache !! i = Some (Some d) → repr ns i t → d = t_alternation t.

Lemma cache_ok_insert ns cache id t d :
  cache_ok ns cache → repr ns id t → d = t_alternation t →
  cache_ok ns (<[id:=Some d]> cache).
Proof.
  intros [Hl Hc] Hr ->. split; [by rewrite length_insert|].
  intros i d t' Hi Ht'. destruct (decide (i = id)) as [->|Hne].
  - rewrite list_lookup_insert_eq in Hi by (rewrite Hl; by eapply repr_lt).
    simplify_eq. by rewrite (repr_det _ _ _ _ Ht' Hr).
  - rewrite list_lookup_insert_ne in Hi by done. eauto.
Qed.

Lemma cache_ok_lookup ns cache id t :
  cache_ok ns cache → repr ns id t →
  cache !! id = Some None ∨ cache !! id = Some (Some (t_alternation t)).
Proof.
  intros [Hl Hc] Hr. destruct (lookup_lt_is_Some_2 cache id) as [[d|] Hd].
  - rewrite Hl. by eapply repr_lt.
  - right. by rewrite Hd, (Hc _ _ _ Hd Hr).
  - by left.
Qed.

(** Close a case of [ad_node_spec]: the node is written back to the cache. *)
Ltac ad_store :=
  eexists; split; [reflexivity|]; eapply cache_ok_insert; [eassumption|by econstructor|done].

Lemma ad_node_spec ns id t fuel cache :
  repr ns id t → height t ≤ fuel → cache_ok ns cache →
  ∃ cache', ad_node fuel ns id cache = Some (t_alternation t, cache') ∧ cache_ok ns cache'.
Proof.
  intros H. revert fuel cache.
  induction H as [| | | |? ? ? ? H IH|? ? ? ? ? ? H1 IH1 H2 IH2|? ? ? ? ? ? H1 IH1 H2 IH2
    |? ? ? ? ? ? H IH|? ? ? ? ? H IH|? ? ? ? ? H IH]; intros fuel cache Hf Hok;
    (destruct fuel as [|fuel]; simpl in Hf; [lia|]); simpl;
    (edestruct cache_ok_lookup as [Hd|Hd]; [exact Hok|by econstructor|..]; rewrite Hd;
     [|by eexists]);
    repeat match goal with Hid : ns !! _ = Some _ |- _ => rewrite Hid end;
    try ad_store.
  - destruct (IH fuel cache) as (c1 & -> & ?); [lia|done|]. ad_store.
  - destruct (IH1 fuel cache) as (c1 & -> & ?); [lia|done|].
    destruct (IH2 fuel c1) as (c2 & -> & ?); [lia|done|]. ad_store.
  - destruct (IH1 fuel cache) as (c1 & -> & ?); [lia|done|].
    destruct (IH2 fuel c1) as (c2 & -> & ?); [lia|done|]. ad_store.
  - destruct (IH fuel cache) as (c1 & -> & ?); [lia|done|]. ad_store.
  - destruct (IH fuel cache) as (c1 & -> & ?); [lia|done|].
    rewrite (contains_opposite_fixpoint_spec _ _ _ _ _ H) by lia. ad_store.
  - destruct (IH fuel cache) as (c1 & -> & ?); [lia|done|].
    rewrite (contains_opposite_fixpoint_spec _ _ _ _ _ H) by lia. ad_store.
Qed.

Lemma alternation_depth_spec f t :
  wf_formula f → formula_tree f t → alternation_depth f = Some (t_alternation t).
Proof.
  intros Hwf Ht. unfold alternation_depth.
  destruct (ad_node_spec _ _ _ (length (nodes f)) (replicate (length (nodes f)) None) Ht)
    as (c & -> & _); [by apply formula_tree_fuel| |done].
  split; [by rewrite length_replicate|]. intros i d t' Hi.
  by apply lookup_replicate in Hi as [? _].
Qed.

Lemma t_alternation_pos t : 1 ≤ t_alternation t ↔ has_fix Least t || has_fix Greatest t = true.
Proof.
  induction t as [| | | |t IH|t1 IH1 t2 IH2|t1 IH1 t2 IH2|k g t IH|k v t IH]; simpl; try done;
    try (split; [lia|done]).
  - rewrite !orb_true_iff, Nat.max_le_iff, IH1, IH2, !orb_true_iff. tauto.
  - rewrite !orb_true_iff, Nat.max_le_iff, IH1, IH2, !orb_true_iff. tauto.
  - split; intros; [destruct k; simpl; by rewrite ?orb_true_r|].
    destruct (has_fix (dual k) t); lia.
Qed.

Lemma t_alternation_two t : 2 ≤ t_alternation t ↔ alternates t = true.
Proof.
  induction t as [| | | |t IH|t1 IH1 t2 IH2|t1 IH1 t2 IH2|k g t IH|k v t IH]; simpl; try done;
    try (split; [lia|done]).
  - by rewrite orb_true_iff, Nat.max_le_iff, IH1, IH2.
  - by rewrite orb_true_iff, Nat.max_le_iff, IH1, IH2.
  - destruct (has_fix (dual k) t); simpl; [split; intros; [done|lia]|].
    rewrite <-IH. lia.
Qed.

Lemma alternates_has_both t : alternates t = true → has_fix Least t = true ∧ has_fix Greatest t = true.
Proof.
  induction t as [| | | |t IH|t1 IH1 t2 IH2|t1 IH1 t2 IH2|k g t IH|k v t IH]; simpl; try done;
    rewrite ?orb_true_iff; [tauto|tauto|].
  destruct k; simpl; tauto.
Qed.

(** ** Checking an arena *)

Definition wf_formulab (f : Formula) : bool :=
  forallb id (imap (λ id n, forallb (λ c, c <? id) (children n)) (nodes f)) &&
  (root f <? length (nodes f)).

Lemma wf_formulab_sound f : wf_formulab f = true → wf_formula f.
Proof.
  unfold wf_formulab. rewrite andb_true_iff, Nat.ltb_lt. intros [H Hr]. split; [|done].
  rewrite forallb_forall in H. intros id n Hn.
  specialize (H (forallb (λ c, c <? id) (children n))).
  rewrite Forall_forall. intros c Hc.
  assert (Hb : forallb (λ c, c <? id) (children n) = true).
  { apply H. apply list_elem_of_In, list_elem_of_lookup. exists id.
    by rewrite list_lookup_imap, Hn. }
  rewrite forallb_forall in Hb. apply list_elem_of_In in Hc.
  specialize (Hb c Hc). by apply Nat.ltb_lt.
Qed.

(** The tree of an arena, computed. *)
Fixpoint tree_of (fuel : nat) (ns : list Node) (id : NodeId) : option Tree :=
  match fuel with
  | O => None
  | S k =>
    let* n := ns !! id in
    match n with
    | NTrue => Some TTrue
    | NFalse => Some TFalse
    | NPredicate p => Some (TPred p)
    | NVariable v => Some (TVar v)
    | NNot a => let* t := tree_of k ns a in Some (TNot t)
    | NAnd a b => let* ta := tree_of k ns a in let* tb := tree_of k ns b in Some (TAnd ta tb)
    | NOr a b => let* ta := tree_of k ns a in let* tb := tree_of k ns b in Some (TOr ta tb)
    | NModal m g a => let* t := tree_of k ns a in Some (TModal m g t)
    | NMu v a => let* t := tree_of k ns a in Some (TFix Least v t)
    | NNu v a => let* t := tree_of k ns a in Some (TFix Greatest v t)
    end
  end.

Lemma tree_of_repr fuel ns id t : tree_of fuel ns id = Some t → repr ns id t.
Proof.
  revert id t. induction fuel as [|k IH]; intros id t; simpl; [done|].
  destruct (ns !! id) as [[]|] eqn:Hn; intros; simplify_eq;
    repeat case_match; simplify_eq; econstructor; eauto.
Qed.

(** [nu Y. (mu X. (p \/ <> X)) /\ [] Y]: recoverability. *)
Definition ex_recoverability : Formula :=
  {| root := 8;
     nodes := [NPredicate "p"; NVariable 1; NModal Diamond Guard_default 1; NOr 0 2;
               NMu 1 3; NVariable 0; NModal Box Guard_default 5; NAnd 4 6; NNu 0 7];
     vars := ["Y"; "X"] |}.

(** [mu X1 ... mu Xn. nu Z. Z] as an arena. *)
Definition mu_tower (n : nat) : Formula :=
  {| root := S n;
     nodes := NVariable 0 :: NNu 0 0 :: map (λ i, NMu (S i) (S i)) (seq 0 n);
     vars := replicate (S n) "X" |}.

(** * Theorems *)

(** [alternation_depth], with its per-node cache, returns on every well
    formed formula the depth of the cache-free recursion; it is at least 2
    exactly when some fixpoint contains a fixpoint of the other kind. *)
Theorem alternation_depth_correct f :
  wf_formula f →
  ∃ t, formula_tree f t ∧ alternation_depth f = Some (t_alternation t) ∧
       (2 ≤ t_alternation t ↔ alternates t = true).
Proof.
  intros Hwf. destruct (wf_formula_tree _ Hwf) as (t & Ht & _).
  exists t. split_and!; [done|by apply alternation_depth_spec|apply t_alternation_two].
Qed.

Lemma alternation_depth_correct_witness :
  ∃ t, formula_tree ex_recoverability t ∧
       alternation_depth ex_recoverability = Some (t_alternation t) ∧
       (2 ≤ t_alternation t ↔ alternates t = true).
Proof. apply alternation_depth_correct, wf_formulab_sound. reflexivity. Defined.

(** [property_class] is total on well formed formulas and computes the class
    from the fixpoints of the formula: none, only greatest, only least, an
    opposite pair nested one inside the other ([Liveness]), or both kinds
    without such a nesting ([Mixed]). *)
Theorem property_class_correct f t :
  wf_formula f → formula_tree f t →
  property_class f = Some
    (match has_fix Least t, has_fix Greatest t with
     | false, false => Propositional
     | false, true => Safety
     | true, false => Reachability
     | true, true => if alternates t then Liveness else Mixed
     end).
Proof.
  intros Hwf Ht. unfold property_class.
  rewrite (fixpoint_kinds_spec _ _ _ _ Ht) by (by apply formula_tree_fuel).
  rewrite (alternation_depth_spec _ _ Hwf Ht).
  destruct (has_fix Least t), (has_fix Greatest t); try done.
  pose proof (t_alternation_two t). destruct (Nat.leb_spec 2 (t_alternation t)), (alternates t);
    naive_solver lia.
Qed.

Lemma property_class_correct_witness :
  property_class ex_recoverability = Some Liveness.
Proof.
  rewrite (property_class_correct ex_recoverability
    (TFix Greatest 0 (TAnd (TFix Least 1 (TOr (TPred "p") (TModal Diamond Guard_default (TVar 1))))
       (TModal Box Guard_default (TVar 0))))).
  - reflexivity.
  - apply wf_formulab_sound. reflexivity.
  - apply (tree_of_repr 9). reflexivity.
Defined.

(** A chain of [n] least fixpoints over one greatest fixpoint, which
    alternates once, is reported with alternation depth [n + 1]: nested
    fixpoints of the same kind are counted. *)
Theorem alternation_depth_mu_tower n :
  alternation_depth (mu_tower n) = Some (S n).
Proof.
  set (tower := fix tower k := match k with
                 | O => TFix Greatest 0 (TVar 0) | S k => TFix Least (S k) (tower k) end).
  assert (Hl : ∀ m k, k < m →
     (NVariable 0 :: NNu 0 0 :: map (λ i, NMu (S i) (S i)) (seq 0 m)) !! S (S k) =
       Some (NMu (S k) (S k))).
  { intros m k Hk. simpl. rewrite list_lookup_fmap, lookup_seq_lt by lia. done. }
  assert (Ht : ∀ k, k ≤ n → repr (nodes (mu_tower n)) (S k) (tower k)).
  { induction k as [|k IH]; intros Hk; simpl.
    - eapply repr_nu; [done|]. by apply repr_var.
    - eapply repr_mu; [apply (Hl n k); lia|]. apply IH. lia. }
  assert (Hfix : ∀ k, has_fix Greatest (tower k) = true) by (induction k; simpl; auto).
  assert (Hd : ∀ k, t_alternation (tower k) = S k).
  { induction k as [|k IH]; simpl; [done|]. rewrite Hfix, IH. lia. }
  rewrite <-(Hd n). apply alternation_depth_spec; [|by apply Ht].
  split; [|simpl; rewrite length_map, length_seq; lia].
  intros id m Hm. destruct id as [|[|id]]; simpl in Hm; simplify_eq; simpl; try by auto.
  rewrite list_lookup_fmap in Hm. destruct (seq 0 n !! id) eqn:E; simplify_eq/=.
  apply lookup_seq in E as [-> _]. constructor; [lia|done].
Qed.

(** [fixpoint_nesting_order] lists the fixpoints of the formula in preorder
    (a binder before the binders of its body), and [mu_obligations] is its
    sublist of least fixpoints. *)
Theorem fixpoint_nesting_order_correct f t :
  wf_formula f → formula_tree f t →
  fixpoint_nesting_order f = Some (t_order t) ∧
  mu_obligations f = Some (map fst (List.filter snd (t_order t))).
Proof.
  intros Hwf Ht.
  assert (Ho : fixpoint_nesting_order f = Some (t_order t)).
  { unfold fixpoint_nesting_order.
    by rewrite (collect_fixpoint_order_spec _ _ _ _ _ Ht) by (by apply formula_tree_fuel). }
  split; [done|]. unfold mu_obligations. rewrite Ho. f_equal. clear Ho.
  induction (t_order t) as [|[v b] l IH]; [done|].
  destruct b; simpl; [f_equal|]; apply IH.
Qed.

Lemma fixpoint_nesting_order_correct_witness :
  fixpoint_nesting_order ex_recoverability = Some [(0, false); (1, true)] ∧
  mu_obligations ex_recoverability = Some [1].
Proof.
  apply (fixpoint_nesting_order_correct ex_recoverability
    (TFix Greatest 0 (TAnd (TFix Least 1 (TOr (TPred "p") (TModal Diamond Guard_default (TVar 1))))
       (TModal Box Guard_default (TVar 0))))).
  - apply wf_formulab_sound. reflexivity.
  - apply (tree_of_repr 9). reflexivity.
Defined.
