(* ===== verification/Trit.v ===== *)
(** Three-valued sets: [mu_calculus/trit.rs], and the [Tristate] labels of
    [clts/mod.rs] they are converted from. *)
From S2P Require Import Prelude.

(** ** Truth values *)

Inductive Tristate := KleeneT | KleeneF | KleeneBot.
Inductive Trit := Trit_True | Trit_False | Trit_Unknown.

#[export] Instance Tristate_eq_dec : EqDecision Tristate.
Proof. solve_decision. Defined.
#[export] Instance Trit_eq_dec : EqDecision Trit.
Proof. solve_decision. Defined.

Definition from_bool (b : bool) : Tristate := if b then KleeneT else KleeneF.
Definition is_true (t : Tristate) : bool := match t with KleeneT => true | _ => false end.
Definition is_definite (t : Tristate) : bool := match t with KleeneBot => false | _ => true end.

Definition Trit_from_Tristate (t : Tristate) : Trit :=
  match t with KleeneT => Trit_True | KleeneF => Trit_False | KleeneBot => Trit_Unknown end.
Definition Tristate_from_Trit (t : Trit) : Tristate :=
  match t with Trit_True => KleeneT | Trit_False => KleeneF | Trit_Unknown => KleeneBot end.

(** ** [TritSet] *)

Record TritSet := { must_true : list bool; may_true : list bool }.

#[export] Instance TritSet_eq_dec : EqDecision TritSet.
Proof. solve_decision. Defined.

Definition from_predicate (bits oob_bits : list bool) : TritSet :=
  let not_oob := bv_not oob_bits in
  {| must_true := bv_and bits not_oob; may_true := bv_or bits oob_bits |}.

Definition all_true (state_count : nat) (oob_bits : list bool) : TritSet :=
  let not_oob := bv_not oob_bits in
  {| must_true := bv_and (bv_fill state_count true) not_oob;
     may_true := bv_fill state_count true |}.

Definition all_false (state_count : nat) : TritSet :=
  {| must_true := bv_fill state_count false; may_true := bv_fill state_count false |}.

Definition len (t : TritSet) : nat := length (must_true t).
Definition is_empty (t : TritSet) : bool := len t =? 0.

Definition verdict_at (t : TritSet) (state : nat) : Trit :=
  if bit (must_true t) state then Trit_True
  else if bit (may_true t) state then Trit_Unknown
  else Trit_False.

Definition tand (a b : TritSet) : TritSet :=
  {| must_true := bv_and (must_true a) (must_true b);
     may_true := bv_and (may_true a) (may_true b) |}.

Definition tor (a b : TritSet) : TritSet :=
  {| must_true := bv_or (must_true a) (must_true b);
     may_true := bv_or (may_true a) (may_true b) |}.

Definition eq_set (a b : TritSet) : bool :=
  bool_decide (must_true a = must_true b) && bool_decide (may_true a = may_true b).

Definition from_parts (must may : list bool) : TritSet :=
  {| must_true := must; may_true := may |}.

Definition tnot (t : TritSet) : TritSet :=
  {| must_true := bv_not (may_true t); may_true := bv_not (must_true t) |}.

(** ** The invariant and Kleene's tables *)

Record trit_ok (n : nat) (t : TritSet) : Prop := {
  ok_must_len : length (must_true t) = n;
  ok_may_len : length (may_true t) = n;
  ok_sub : bv_sub (must_true t) (may_true t)
}.

Definition kleene_and (a b : Trit) : Trit :=
  match a, b with
  | Trit_False, _ | _, Trit_False => Trit_False
  | Trit_True, Trit_True => Trit_True
  | _, _ => Trit_Unknown
  end.

Definition kleene_or (a b : Trit) : Trit :=
  match a, b with
  | Trit_True, _ | _, Trit_True => Trit_True
  | Trit_False, Trit_False => Trit_False
  | _, _ => Trit_Unknown
  end.

Definition kleene_not (a : Trit) : Trit :=
  match a with Trit_True => Trit_False | Trit_False => Trit_True | Trit_Unknown => Trit_Unknown end.

Lemma TritSet_eq a b : must_true a = must_true b → may_true a = may_true b → a = b.
Proof. destruct a, b; simpl; congruence. Qed.

Lemma eq_set_spec a b : eq_set a b = true ↔ a = b.
Proof.
  unfold eq_set. rewrite andb_true_iff, !bool_decide_eq_true.
  split; [intros []; by apply TritSet_eq|by intros ->].
Qed.

Lemma trit_ok_and n a b : trit_ok n a → trit_ok n b → trit_ok n (tand a b).
Proof.
  intros [Ha1 Ha2 Ha3] [Hb1 Hb2 Hb3]. constructor; simpl; autorewrite with bits; [done..|].
  intros i. rewrite !bit_and, !andb_true_iff. intros [? ?]. split; [by apply Ha3|by apply Hb3].
Qed.

Lemma trit_ok_or n a b : trit_ok n a → trit_ok n b → trit_ok n (tor a b).
Proof.
  intros [Ha1 Ha2 Ha3] [Hb1 Hb2 Hb3]. constructor; simpl; autorewrite with bits; [done..|].
  intros i Hi. pose proof (bit_lt _ _ Hi) as Hl. rewrite length_bv_or in Hl.
  rewrite bit_or in Hi |- * by lia. apply orb_true_iff in Hi. apply orb_true_iff.
  destruct Hi; [left; by apply Ha3|right; by apply Hb3].
Qed.

Lemma trit_ok_not n a : trit_ok n a → trit_ok n (tnot a).
Proof.
  intros [H1 H2 H3]. constructor; simpl; autorewrite with bits; [done..|].
  intros i Hi. pose proof (bit_lt _ _ Hi) as Hl. rewrite length_bv_not in Hl.
  rewrite bit_not in Hi |- * by lia. apply negb_true_iff in Hi. apply negb_true_iff.
  destruct (bit (must_true a) i) eqn:E; [|done]. apply H3 in E. congruence.
Qed.

Lemma trit_ok_false n : trit_ok n (all_false n).
Proof. constructor; simpl; autorewrite with bits; auto with bits. Qed.

Lemma trit_ok_true n oob : trit_ok n (all_true n oob).
Proof.
  constructor; simpl; autorewrite with bits; [done..|].
  intros i. rewrite bit_and, andb_true_iff. by intros [? _].
Qed.

Lemma trit_ok_from_predicate bits oob :
  length oob = length bits → trit_ok (length bits) (from_predicate bits oob).
Proof.
  intros Hl. constructor; simpl; autorewrite with bits; [done..|].
  intros i. rewrite bit_and, andb_true_iff. intros [H _].
  rewrite bit_or by (by apply bit_lt). by rewrite H.
Qed.

#[export] Hint Resolve trit_ok_and trit_ok_or trit_ok_not trit_ok_false trit_ok_true : trit.

Lemma tnot_involutive a : tnot (tnot a) = a.
Proof.
  apply TritSet_eq; simpl; unfold bv_not; rewrite map_map;
    rewrite <-(map_id (_ a)) at 2; apply map_ext; by intros [].
Qed.

(** [verdict_at] of an ordered set, from its two bits. *)
Lemma verdict_true n t i : trit_ok n t → verdict_at t i = Trit_True ↔ bit (must_true t) i = true.
Proof. intros _. unfold verdict_at. destruct (bit _ i); [done|]. by destruct (bit _ i). Qed.

Lemma verdict_false n t i : trit_ok n t → verdict_at t i = Trit_False ↔ bit (may_true t) i = false.
Proof.
  intros [_ _ H]. unfold verdict_at. specialize (H i).
  destruct (bit (must_true t) i), (bit (may_true t) i); naive_solver.
Qed.

(** On sets over the same [n] states that satisfy the invariant
    [must ⊆ may], the operations keep the invariant and are Kleene's strong
    conjunction, disjunction and negation state by state. *)
Theorem tritset_kleene n a b i :
  trit_ok n a → trit_ok n b → i < n →
  trit_ok n (tand a b) ∧ trit_ok n (tor a b) ∧ trit_ok n (tnot a) ∧
  verdict_at (tand a b) i = kleene_and (verdict_at a i) (verdict_at b i) ∧
  verdict_at (tor a b) i = kleene_or (verdict_at a i) (verdict_at b i) ∧
  verdict_at (tnot a) i = kleene_not (verdict_at a i).
Proof.
  intros Ha Hb Hi. split_and!; [auto with trit..| | |]; destruct Ha as [A1 A2 A3], Hb as [B1 B2 B3];
    specialize (A3 i); specialize (B3 i); unfold verdict_at; simpl;
    rewrite ?bit_and, ?bit_or, ?bit_not by lia;
    destruct (bit (must_true a) i), (bit (may_true a) i), (bit (must_true b) i),
      (bit (may_true b) i); simpl; try done; naive_solver.
Qed.

Lemma tritset_kleene_witness :
  verdict_at (tand (from_parts [true; false] [true; true]) (from_parts [false; false] [true; false])) 0
    = Trit_Unknown.
Proof.
  destruct (tritset_kleene 2 (from_parts [true; false] [true; true])
    (from_parts [false; false] [true; false]) 0) as (_ & _ & _ & -> & _); [..|reflexivity].
  - constructor; [done..|]. intros [|[|i]]; done.
  - constructor; [done..|]. intros [|[|i]]; done.
  - lia.
Defined.

(** The constructors establish the invariant; [from_predicate] reads
    [Unknown] exactly at the out-of-bounds states, and the two conversions
    between CLTS labels and verdicts are mutually inverse. *)
Theorem from_predicate_verdicts bits oob i :
  length oob = length bits → i < length bits →
  trit_ok (length bits) (from_predicate bits oob) ∧
  verdict_at (from_predicate bits oob) i =
    (if bit oob i then Trit_Unknown else if bit bits i then Trit_True else Trit_False) ∧
  (∀ t, Trit_from_Tristate (Tristate_from_Trit t) = t) ∧
  (∀ t, Tristate_from_Trit (Trit_from_Tristate t) = t).
Proof.
  intros Hl Hi. split_and!; [by apply trit_ok_from_predicate| |by intros []|by intros []].
  unfold verdict_at; simpl. rewrite bit_and, bit_or, bit_not by lia.
  by destruct (bit oob i), (bit bits i).
Qed.

Lemma from_predicate_verdicts_witness :
  verdict_at (from_predicate [true; true] [false; true]) 1 = Trit_Unknown.
Proof.
  destruct (from_predicate_verdicts [true; true] [false; true] 1) as (_ & -> & _);
    [done|simpl; lia|reflexivity].
Defined.
