(* ===== verification/Clts.v ===== *)
(** The transition-system data structure of [clts/mod.rs]: interned labels and
    variable sets with their bit-set views, transition modalities, the builder
    and the immutable [Clts] it produces.

    State and label identifiers are the indices the source wraps in [StateId]
    and [LabelId]; [IdStorage] is the integer type that bounds them.  Hash maps
    and hash sets are [gmap]/[gset]; recycled scratch buffers
    ([StringVecPool], [StateSetPool]) hold no observable state and are left out. *)
From S2P Require Import Prelude Trit.

(** ** Identifiers and errors *)

Abbreviation StateId := nat (only parsing).
Abbreviation LabelId := nat (only parsing).
Abbreviation VariableSetId := nat (only parsing).

Class IdStorage := { id_max : N }.
Definition u16_storage : IdStorage := {| id_max := 2 ^ 16 - 1 |}.
Definition u32_storage : IdStorage := {| id_max := 2 ^ 32 - 1 |}.
Definition u64_storage : IdStorage := {| id_max := 2 ^ 64 - 1 |}.

Definition try_from_usize `{IdStorage} (value : nat) : option nat :=
  if (N.of_nat value <=? id_max)%N then Some value else None.

Inductive CltsError :=
  | UnknownState (name : string)
  | IdOverflow (kind : string) (value : N)
  | CompositionError (message : string).

Inductive LabelControllability := LC_Controllable | LC_Internal | LC_Uncontrollable.

#[export] Instance LabelControllability_eq_dec : EqDecision LabelControllability.
Proof. solve_decision. Defined.

(** ** Transition modality *)

Inductive TransitionModality :=
  | Sharp
  | MayOnly
  | MustHyperOnly (targets : list StateId).

#[export] Instance TransitionModality_eq_dec : EqDecision TransitionModality.
Proof. solve_decision. Defined.

Definition has_may (m : TransitionModality) : bool := true.
Definition has_must (m : TransitionModality) : bool :=
  match m with Sharp | MustHyperOnly _ => true | MayOnly => false end.
Definition is_must (m : TransitionModality) : bool := has_must m.

Definition merge (m other : TransitionModality) : TransitionModality :=
  let lhs_hyper := match m with MustHyperOnly _ => true | _ => false end in
  let rhs_hyper := match other with MustHyperOnly _ => true | _ => false end in
  match is_must m, is_must other with
  | true, true => if lhs_hyper || rhs_hyper then MustHyperOnly [] else Sharp
  | _, _ => MayOnly
  end.

Definition hyper_targets (m : TransitionModality) : option (list StateId) :=
  match m with MustHyperOnly ts => Some ts | _ => None end.

Definition must_target_set (m : TransitionModality) (fallback : StateId) : list StateId :=
  match m with Sharp => [fallback] | MustHyperOnly ts => ts | MayOnly => [] end.

Record Transition := {
  target : StateId;
  t_labels : list LabelId;
  modality : TransitionModality
}.

(** ** Symbol universes *)

Record SymbolUniverse := {
  u_sets : list (list string);
  u_bitsets : list (list bool);
  u_symbols : list string;
  u_symbol_index : gmap string nat
}.

Definition record_symbols_into_universe (symbol_set : gset string) (symbols : list string)
    (symbols_dirty : bool) (payload : list string) : gset string * list string * bool :=
  foldl (λ '(set, syms, dirty) symbol,
    if decide (symbol ∈ set) then (set, syms, dirty)
    else ({[symbol]} ∪ set, syms ++ [symbol], true))
    (symbol_set, symbols, symbols_dirty) payload.

(** [HashMap::collect] keeps the last index of a repeated symbol. *)
Definition index_symbols (symbols : list string) : gmap string nat :=
  foldl (λ m '(idx, symbol), <[symbol := idx]> m) ∅ (imap pair symbols).

Definition symbol_bits (index : gmap string nat) (n : nat) (items : list string) : list bool :=
  foldl (λ bits item, match index !! item with Some idx => bv_set bits idx true | None => bits end)
    (bv_fill n false) items.

Definition build_symbol_index_and_bitsets (sets : list (list string)) (symbols : list string)
    (symbols_dirty : bool) : SymbolUniverse :=
  let symbols := if symbols_dirty then sort_strings symbols else symbols in
  let symbol_index := index_symbols symbols in
  {| u_sets := sets;
     u_bitsets := map (symbol_bits symbol_index (length symbols)) sets;
     u_symbols := symbols;
     u_symbol_index := symbol_index |}.

(** ** Label store *)

Record LabelStoreBuilder := {
  lb_entries : list (list string);
  lb_entry_map : gmap (list string) LabelId;
  lb_symbol_set : gset string;
  lb_symbols : list string;
  lb_symbols_dirty : bool
}.

Definition LabelStoreBuilder_default : LabelStoreBuilder :=
  {| lb_entries := []; lb_entry_map := ∅; lb_symbol_set := ∅; lb_symbols := [];
     lb_symbols_dirty := false |}.

Definition intern `{IdStorage} (b : LabelStoreBuilder) (symbols : list string)
    : Result LabelId CltsError * LabelStoreBuilder :=
  let buffer := canon symbols in
  match lb_entry_map b !! buffer with
  | Some id => (Ok id, b)
  | None =>
    let nxt := length (lb_entries b) in
    match try_from_usize nxt with
    | None => (Err (IdOverflow "label" (N.of_nat nxt)), b)
    | Some id =>
      let '(set, syms, dirty) :=
        record_symbols_into_universe (lb_symbol_set b) (lb_symbols b) (lb_symbols_dirty b) buffer in
      (Ok id, {| lb_entries := lb_entries b ++ [buffer];
                 lb_entry_map := <[buffer := id]> (lb_entry_map b);
                 lb_symbol_set := set; lb_symbols := syms; lb_symbols_dirty := dirty |})
    end
  end.

(** Interning the entries of another store, stopping at the first error. *)
Fixpoint absorb `{IdStorage} (b : LabelStoreBuilder) (entries : list (list string))
    : Result unit CltsError * LabelStoreBuilder :=
  match entries with
  | [] => (Ok tt, b)
  | entry :: rest =>
    match intern b entry with
    | (Ok _, b') => absorb b' rest
    | (Err e, b') => (Err e, b')
    end
  end.

Definition label_build (b : LabelStoreBuilder) : SymbolUniverse :=
  build_symbol_index_and_bitsets (lb_entries b) (lb_symbols b) (lb_symbols_dirty b).

(** [LabelStore] and [VariableStore] are the built universe; [get] and the
    bit-set view index it. *)
Definition store_get (u : SymbolUniverse) (id : nat) : option (list string) := u_sets u !! id.

Definition bitset_test (u : SymbolUniverse) (bits : list bool) (symbol : string) : bool :=
  match u_symbol_index u !! symbol with Some idx => bit bits idx | None => false end.

(** ** Variable store *)

Record VariableStoreBuilder := {
  vb_sets : list (list string);
  vb_index : gmap (list string) VariableSetId;
  vb_symbol_set : gset string;
  vb_symbols : list string;
  vb_symbols_dirty : bool
}.

Definition VariableStoreBuilder_default : VariableStoreBuilder :=
  {| vb_sets := []; vb_index := ∅; vb_symbol_set := ∅; vb_symbols := []; vb_symbols_dirty := false |}.

Definition intern_variables (b : VariableStoreBuilder) (vars : list string)
    : VariableSetId * VariableStoreBuilder :=
  let buffer := canon vars in
  match vb_index b !! buffer with
  | Some id => (id, b)
  | None =>
    let id := length (vb_sets b) in
    let '(set, syms, dirty) :=
      record_symbols_into_universe (vb_symbol_set b) (vb_symbols b) (vb_symbols_dirty b) buffer in
    (id, {| vb_sets := vb_sets b ++ [buffer];
            vb_index := <[buffer := id]> (vb_index b);
            vb_symbol_set := set; vb_symbols := syms; vb_symbols_dirty := dirty |})
  end.

Definition variable_build (b : VariableStoreBuilder) : SymbolUniverse :=
  build_symbol_index_and_bitsets (vb_sets b) (vb_symbols b) (vb_symbols_dirty b).

(** ** [Clts] *)

Record Clts := {
  state_names : list string;
  state_map : gmap string StateId;
  initial_states : gset StateId;
  outgoing_rows : list (list Transition);
  incoming_rows : list (list Transition);
  labels : SymbolUniverse;
  variables : SymbolUniverse;
  state_variable_ids : list VariableSetId;
  state_valuations : list (option (gmap string string));
  state_3valued_predicates : option (gmap (StateId * string) Tristate);
  label_controllability : gmap LabelId LabelControllability;
  uncontrollable_alphabet : gset LabelId;
  controllable_alphabet : gset LabelId;
  internal_alphabet : gset LabelId;
  uncontrollable_groups : list (gmap (list LabelId) (list nat))
}.

Definition state_count (c : Clts) : nat := length (state_names c).
Definition state_id (c : Clts) (name : string) : Result StateId CltsError :=
  match state_map c !! name with Some id => Ok id | None => Err (UnknownState name) end.

(** [outgoing] and [incoming] panic on an unknown state; every caller modelled
    here iterates over [states], where the default is never read. *)
Definition outgoing (c : Clts) (s : StateId) : list Transition :=
  default [] (outgoing_rows c !! s).
Definition incoming (c : Clts) (s : StateId) : list Transition :=
  default [] (incoming_rows c !! s).
Definition states (c : Clts) : list StateId := seq 0 (state_count c).
Definition state_name (c : Clts) (s : StateId) : option string := state_names c !! s.
Definition label_payload (c : Clts) (l : LabelId) : option (list string) := store_get (labels c) l.

(** [clts.label_bitset(l).is_some_and(|b| b.test(symbol))] *)
Definition label_test (c : Clts) (l : LabelId) (symbol : string) : bool :=
  match u_bitsets (labels c) !! l with
  | Some bits => bitset_test (labels c) bits symbol
  | None => false
  end.

Definition is_uncontrollable_label (c : Clts) (l : LabelId) : bool :=
  bool_decide (l ∈ uncontrollable_alphabet c).
Definition is_controllable_label (c : Clts) (l : LabelId) : bool :=
  bool_decide (l ∈ controllable_alphabet c).
Definition is_internal_label (c : Clts) (l : LabelId) : bool :=
  bool_decide (l ∈ internal_alphabet c).

Definition is_controllable (c : Clts) (t : Transition) : bool :=
  match t_labels t with
  | [] => false
  | ls => forallb (λ l, is_controllable_label c l || is_internal_label c l) ls
  end.

Definition is_uncontrollable (c : Clts) (t : Transition) : bool :=
  match t_labels t with
  | [] => true
  | ls => existsb (is_uncontrollable_label c) ls
  end.

Definition transitions_grouped_by_uncontrollable_labels (c : Clts) (s : StateId)
    : gmap (list LabelId) (list nat) :=
  default ∅ (uncontrollable_groups c !! s).

Definition state_variables (c : Clts) (s : StateId) : list string :=
  match state_variable_ids c !! s with
  | Some id => default [] (store_get (variables c) id)
  | None => []
  end.

(** [state_variable_bitset(s).bits()] *)
Definition state_variable_bits (c : Clts) (s : StateId) : list bool :=
  match state_variable_ids c !! s with
  | Some id => default [] (u_bitsets (variables c) !! id)
  | None => []
  end.

(** [state_variable_bitset(s).contains(symbol)] *)
Definition state_variable_contains (c : Clts) (s : StateId) (symbol : string) : bool :=
  match state_variable_ids c !! s with
  | Some id => bitset_test (variables c) (default [] (u_bitsets (variables c) !! id)) symbol
  | None => false
  end.

Definition state_valuation (c : Clts) (s : StateId) : option (gmap string string) :=
  match state_valuations c !! s with Some v => v | None => None end.

Definition state_3valued_predicate (c : Clts) (s : StateId) (predicate : string) : option Tristate :=
  match state_3valued_predicates c with Some m => m !! (s, predicate) | None => None end.

Definition has_3valued_predicates (c : Clts) : bool :=
  match state_3valued_predicates c with Some m => negb (bool_decide (m = ∅)) | None => false end.

(** ** Builder *)

Record TransitionSpec := {
  spec_from : StateId;
  spec_to : StateId;
  spec_labels : list LabelId;
  spec_modality : TransitionModality
}.

Record CltsBuilder := {
  cb_state_names : list string;
  cb_state_map : gmap string StateId;
  cb_state_overflow : option nat;
  cb_initial_states : gset StateId;
  cb_transitions : list TransitionSpec;
  cb_labels : LabelStoreBuilder;
  cb_variables : VariableStoreBuilder;
  cb_state_variables : list VariableSetId;
  cb_state_valuations : list (option (gmap string string));
  cb_state_3valued_predicates : option (gmap (StateId * string) Tristate);
  cb_label_controllability : gmap LabelId LabelControllability;
  cb_declared_labels : gset LabelId
}.

Definition CltsBuilder_default : CltsBuilder :=
  {| cb_state_names := []; cb_state_map := ∅; cb_state_overflow := None;
     cb_initial_states := ∅; cb_transitions := []; cb_labels := LabelStoreBuilder_default;
     cb_variables := VariableStoreBuilder_default; cb_state_variables := [];
     cb_state_valuations := []; cb_state_3valued_predicates := None;
     cb_label_controllability := ∅; cb_declared_labels := ∅ |}.

(** Field updates of the builder. *)
Definition set_state_names (x : list string) (b : CltsBuilder) : CltsBuilder :=
  {| cb_state_names := x;
     cb_state_map := cb_state_map b;
     cb_state_overflow := cb_state_overflow b;
     cb_initial_states := cb_initial_states b;
     cb_transitions := cb_transitions b;
     cb_labels := cb_labels b;
     cb_variables := cb_variables b;
     cb_state_variables := cb_state_variables b;
     cb_state_valuations := cb_state_valuations b;
     cb_state_3valued_predicates := cb_state_3valued_predicates b;
     cb_label_controllability := cb_label_controllability b;
     cb_declared_labels := cb_declared_labels b |}.
Definition set_state_map (x : gmap string StateId) (b : CltsBuilder) : CltsBuilder :=
  {| cb_state_names := cb_state_names b;
     cb_state_map := x;
     cb_state_overflow := cb_state_overflow b;
     cb_initial_states := cb_initial_states b;
     cb_transitions := cb_transitions b;
     cb_labels := cb_labels b;
     cb_variables := cb_variables b;
     cb_state_variables := cb_state_variables b;
     cb_state_valuations := cb_state_valuations b;
     cb_state_3valued_predicates := cb_state_3valued_predicates b;
     cb_label_controllability := cb_label_controllability b;
     cb_declared_labels := cb_declared_labels b |}.
Definition set_state_overflow (x : option nat) (b : CltsBuilder) : CltsBuilder :=
  {| cb_state_names := cb_state_names b;
     cb_state_map := cb_state_map b;
     cb_state_overflow := x;
     cb_initial_states := cb_initial_states b;
     cb_transitions := cb_transitions b;
     cb_labels := cb_labels b;
     cb_variables := cb_variables b;
     cb_state_variables := cb_state_variables b;
     cb_state_valuations := cb_state_valuations b;
     cb_state_3valued_predicates := cb_state_3valued_predicates b;
     cb_label_controllability := cb_label_controllability b;
     cb_declared_labels := cb_declared_labels b |}.
Definition set_initial_states (x : gset StateId) (b : CltsBuilder) : CltsBuilder :=
  {| cb_state_names := cb_state_names b;
     cb_state_map := cb_state_map b;
     cb_state_overflow := cb_state_overflow b;
     cb_initial_states := x;
     cb_transitions := cb_transitions b;
     cb_labels := cb_labels b;
     cb_variables := cb_variables b;
     cb_state_variables := cb_state_variables b;
     cb_state_valuations := cb_state_valuations b;
     cb_state_3valued_predicates := cb_state_3valued_predicates b;
     cb_label_controllability := cb_label_controllability b;
     cb_declared_labels := cb_declared_labels b |}.
Definition set_transitions (x : list TransitionSpec) (b : CltsBuilder) : CltsBuilder :=
  {| cb_state_names := cb_state_names b;
     cb_state_map := cb_state_map b;
     cb_state_overflow := cb_state_overflow b;
     cb_initial_states := cb_initial_states b;
     cb_transitions := x;
     cb_labels := cb_labels b;
     cb_variables := cb_variables b;
     cb_state_variables := cb_state_variables b;
     cb_state_valuations := cb_state_valuations b;
     cb_state_3valued_predicates := cb_state_3valued_predicates b;
     cb_label_controllability := cb_label_controllability b;
     cb_declared_labels := cb_declared_labels b |}.
Definition set_labels (x : LabelStoreBuilder) (b : CltsBuilder) : CltsBuilder :=
  {| cb_state_names := cb_state_names b;
     cb_state_map := cb_state_map b;
     cb_state_overflow := cb_state_overflow b;
     cb_initial_states := cb_initial_states b;
     cb_transitions := cb_transitions b;
     cb_labels := x;
     cb_variables := cb_variables b;
     cb_state_variables := cb_state_variables b;
     cb_state_valuations := cb_state_valuations b;
     cb_state_3valued_predicates := cb_state_3valued_predicates b;
     cb_label_controllability := cb_label_controllability b;
     cb_declared_labels := cb_declared_labels b |}.
Definition set_variables (x : VariableStoreBuilder) (b : CltsBuilder) : CltsBuilder :=
  {| cb_state_names := cb_state_names b;
     cb_state_map := cb_state_map b;
     cb_state_overflow := cb_state_overflow b;
     cb_initial_states := cb_initial_states b;
     cb_transitions := cb_transitions b;
     cb_labels := cb_labels b;
     cb_variables := x;
     cb_state_variables := cb_state_variables b;
     cb_state_valuations := cb_state_valuations b;
     cb_state_3valued_predicates := cb_state_3valued_predicates b;
     cb_label_controllability := cb_label_controllability b;
     cb_declared_labels := cb_declared_labels b |}.
Definition set_state_variables (x : list VariableSetId) (b : CltsBuilder) : CltsBuilder :=
  {| cb_state_names := cb_state_names b;
     cb_state_map := cb_state_map b;
     cb_state_overflow := cb_state_overflow b;
     cb_initial_states := cb_initial_states b;
     cb_transitions := cb_transitions b;
     cb_labels := cb_labels b;
     cb_variables := cb_variables b;
     cb_state_variables := x;
     cb_state_valuations := cb_state_valuations b;
     cb_state_3valued_predicates := cb_state_3valued_predicates b;
     cb_label_controllability := cb_label_controllability b;
     cb_declared_labels := cb_declared_labels b |}.
Definition set_state_valuations (x : list (option (gmap string string))) (b : CltsBuilder) : CltsBuilder :=
  {| cb_state_names := cb_state_names b;
     cb_state_map := cb_state_map b;
     cb_state_overflow := cb_state_overflow b;
     cb_initial_states := cb_initial_states b;
     cb_transitions := cb_transitions b;
     cb_labels := cb_labels b;
     cb_variables := cb_variables b;
     cb_state_variables := cb_state_variables b;
     cb_state_valuations := x;
     cb_state_3valued_predicates := cb_state_3valued_predicates b;
     cb_label_controllability := cb_label_controllability b;
     cb_declared_labels := cb_declared_labels b |}.
Definition set_state_3valued_predicates (x : option (gmap (StateId * string) Tristate)) (b : CltsBuilder) : CltsBuilder :=
  {| cb_state_names := cb_state_names b;
     cb_state_map := cb_state_map b;
     cb_state_overflow := cb_state_overflow b;
     cb_initial_states := cb_initial_states b;
     cb_transitions := cb_transitions b;
     cb_labels := cb_labels b;
     cb_variables := cb_variables b;
     cb_state_variables := cb_state_variables b;
     cb_state_valuations := cb_state_valuations b;
     cb_state_3valued_predicates := x;
     cb_label_controllability := cb_label_controllability b;
     cb_declared_labels := cb_declared_labels b |}.
Definition set_label_controllability (x : gmap LabelId LabelControllability) (b : CltsBuilder) : CltsBuilder :=
  {| cb_state_names := cb_state_names b;
     cb_state_map := cb_state_map b;
     cb_state_overflow := cb_state_overflow b;
     cb_initial_states := cb_initial_states b;
     cb_transitions := cb_transitions b;
     cb_labels := cb_labels b;
     cb_variables := cb_variables b;
     cb_state_variables := cb_state_variables b;
     cb_state_valuations := cb_state_valuations b;
     cb_state_3valued_predicates := cb_state_3valued_predicates b;
     cb_label_controllability := x;
     cb_declared_labels := cb_declared_labels b |}.
Definition set_declared_labels (x : gset LabelId) (b : CltsBuilder) : CltsBuilder :=
  {| cb_state_names := cb_state_names b;
     cb_state_map := cb_state_map b;
     cb_state_overflow := cb_state_overflow b;
     cb_initial_states := cb_initial_states b;
     cb_transitions := cb_transitions b;
     cb_labels := cb_labels b;
     cb_variables := cb_variables b;
     cb_state_variables := cb_state_variables b;
     cb_state_valuations := cb_state_valuations b;
     cb_state_3valued_predicates := cb_state_3valued_predicates b;
     cb_label_controllability := cb_label_controllability b;
     cb_declared_labels := x |}.

Definition insert_state_owned `{IdStorage} (name : string) (b : CltsBuilder)
    : option StateId * CltsBuilder :=
  match cb_state_map b !! name with
  | Some id => (Some id, b)
  | None =>
    let next_index := length (cb_state_names b) in
    match try_from_usize next_index with
    | Some id =>
      let '(vid, vars) := intern_variables (cb_variables b) [] in
      (Some id,
       set_state_variables (cb_state_variables b ++ [vid])
         (set_variables vars
         (set_state_valuations (cb_state_valuations b ++ [None])
         (set_state_map (<[name := id]> (cb_state_map b))
         (set_state_names (cb_state_names b ++ [name]) b)))))
    | None =>
      (None,
       set_state_overflow
         (match cb_state_overflow b with Some v => Some v | None => Some next_index end) b)
    end
  end.

Definition initial_state_id (state : StateId) (b : CltsBuilder) : CltsBuilder :=
  set_initial_states ({[state]} ∪ cb_initial_states b) b.

Definition initial `{IdStorage} (name : string) (b : CltsBuilder) : CltsBuilder :=
  match insert_state_owned name b with
  | (Some id, b') => initial_state_id id b'
  | (None, b') => b'
  end.

(** Writing to a slot that does not exist is skipped ([get_mut]). *)
Definition with_variables_for_state (state : StateId) (vs : list string) (b : CltsBuilder)
    : CltsBuilder :=
  let '(set_id, vars) := intern_variables (cb_variables b) vs in
  set_state_variables (<[state := set_id]> (cb_state_variables b)) (set_variables vars b).

Definition with_variables `{IdStorage} (name : string) (vs : list string) (b : CltsBuilder)
    : CltsBuilder :=
  match insert_state_owned name b with
  | (Some id, b') => with_variables_for_state id vs b'
  | (None, b') => b'
  end.

Definition with_valuation_for_state (state : StateId) (valuation : gmap string string)
    (b : CltsBuilder) : CltsBuilder :=
  set_state_valuations (<[state := Some valuation]> (cb_state_valuations b)) b.

Definition with_3valued_predicate (state : StateId) (predicate : string) (verdict : Tristate)
    (b : CltsBuilder) : CltsBuilder :=
  let map := default ∅ (cb_state_3valued_predicates b) in
  set_state_3valued_predicates (Some (<[(state, predicate) := verdict]> map)) b.

Definition transition_ids_with_modality (from : StateId) (ls : list LabelId) (to : StateId)
    (m : TransitionModality) (b : CltsBuilder) : CltsBuilder :=
  set_transitions (cb_transitions b ++
    [{| spec_from := from; spec_to := to; spec_labels := ls; spec_modality := m |}]) b.

Definition transition_ids (from : StateId) (ls : list LabelId) (to : StateId) (b : CltsBuilder)
    : CltsBuilder := transition_ids_with_modality from ls to Sharp b.

Definition transition `{IdStorage} (from : string) (ls : list LabelId) (to : string)
    (b : CltsBuilder) : CltsBuilder :=
  let '(from_id, b1) := insert_state_owned from b in
  let '(to_id, b2) := insert_state_owned to b1 in
  match from_id, to_id with
  | Some f, Some t => transition_ids f ls t b2
  | _, _ => b2
  end.

Definition set_controllability (l : LabelId) (c : LabelControllability) (b : CltsBuilder)
    : CltsBuilder :=
  set_label_controllability (<[l := c]> (cb_label_controllability b)) b.

Definition declare_in_alphabet (l : LabelId) (b : CltsBuilder) : CltsBuilder :=
  set_declared_labels ({[l]} ∪ cb_declared_labels b) b.

(** ** [CltsBuilder::build] *)

(** [rows[i].push(x)]: indexing panics out of range. *)
Definition push_at {A} (rows : list (list A)) (i : nat) (x : A) : option (list (list A)) :=
  let* row := rows !! i in Some (<[i := row ++ [x]]> rows).

Definition spec_outgoing (s : TransitionSpec) : Transition :=
  {| target := spec_to s; t_labels := spec_labels s; modality := spec_modality s |}.
Definition spec_incoming (s : TransitionSpec) : Transition :=
  {| target := spec_from s; t_labels := spec_labels s; modality := spec_modality s |}.

Fixpoint fill_adjacency (specs : list TransitionSpec) (out inc : list (list Transition))
    : option (list (list Transition) * list (list Transition)) :=
  match specs with
  | [] => Some (out, inc)
  | s :: rest =>
    let* out' := push_at out (spec_from s) (spec_outgoing s) in
    let* inc' := push_at inc (spec_to s) (spec_incoming s) in
    fill_adjacency rest out' inc'
  end.

Definition all_labels (b : CltsBuilder) : gset LabelId :=
  foldl (λ acc s, foldl (λ a l, {[l]} ∪ a) acc (spec_labels s)) ∅ (cb_transitions b)
  ∪ cb_declared_labels b.

(** The three alphabets: uncontrollable, controllable, internal. *)
Definition classify (lc : gmap LabelId LabelControllability)
    (acc : gset LabelId * gset LabelId * gset LabelId) (l : LabelId)
    : gset LabelId * gset LabelId * gset LabelId :=
  let '(unc, con, int) := acc in
  match lc !! l with
  | Some LC_Uncontrollable => ({[l]} ∪ unc, con, int)
  | Some LC_Controllable => (unc, {[l]} ∪ con, int)
  | Some LC_Internal => (unc, con, {[l]} ∪ int)
  | None => (unc, {[l]} ∪ con, int)
  end.

Definition build_alphabets (b : CltsBuilder) : gset LabelId * gset LabelId * gset LabelId :=
  foldl (classify (cb_label_controllability b)) (∅, ∅, ∅) (elements (all_labels b)).

(** The grouping key of a transition: all of its labels, sorted. *)
Definition label_set (t : Transition) : list LabelId := merge_sort (≤) (t_labels t).

Definition should_group (unc : gset LabelId) (t : Transition) : bool :=
  match t_labels t with
  | [] => true
  | ls => existsb (λ l, bool_decide (l ∈ unc)) ls
  end.

Definition group_transition (unc : gset LabelId) (groups : gmap (list LabelId) (list nat))
    (it : nat * Transition) : gmap (list LabelId) (list nat) :=
  let '(trans_idx, t) := it in
  if should_group unc t
  then <[label_set t := default [] (groups !! label_set t) ++ [trans_idx]]> groups
  else groups.

Definition group_transitions (unc : gset LabelId) (ts : list Transition)
    : gmap (list LabelId) (list nat) :=
  foldl (group_transition unc) ∅ (imap pair ts).

(** [None] is the index panic on a transition whose endpoint is not a state. *)
Definition build (b : CltsBuilder) : option (Result Clts CltsError) :=
  match cb_state_overflow b with
  | Some value => Some (Err (IdOverflow "state" (N.of_nat value)))
  | None =>
    let n := length (cb_state_names b) in
    let* (out, inc) := fill_adjacency (cb_transitions b) (replicate n []) (replicate n []) in
    let '(unc, con, int) := build_alphabets b in
    Some (Ok
      {| state_names := cb_state_names b;
         state_map := cb_state_map b;
         initial_states := cb_initial_states b;
         outgoing_rows := out;
         incoming_rows := inc;
         labels := label_build (cb_labels b);
         variables := variable_build (cb_variables b);
         state_variable_ids := cb_state_variables b;
         state_valuations := cb_state_valuations b;
         state_3valued_predicates := cb_state_3valued_predicates b;
         label_controllability := cb_label_controllability b;
         uncontrollable_alphabet := unc;
         controllable_alphabet := con;
         internal_alphabet := int;
         uncontrollable_groups := map (group_transitions unc) out |})
  end.

Definition empty_universe : SymbolUniverse :=
  {| u_sets := []; u_bitsets := []; u_symbols := []; u_symbol_index := ∅ |}.
Definition empty_clts : Clts :=
  {| state_names := []; state_map := ∅; initial_states := ∅; outgoing_rows := [];
     incoming_rows := []; labels := empty_universe; variables := empty_universe;
     state_variable_ids := []; state_valuations := []; state_3valued_predicates := None;
     label_controllability := ∅; uncontrollable_alphabet := ∅; controllable_alphabet := ∅;
     internal_alphabet := ∅; uncontrollable_groups := [] |}.

(** The system a builder builds, for concrete examples. *)
Definition built (b : CltsBuilder) : Clts :=
  match build b with Some (Ok c) => c | _ => empty_clts end.

(** * Lemmas *)

(** ** Symbol universes *)

Lemma record_symbols_spec set syms dirty payload set' syms' dirty' :
  record_symbols_into_universe set syms dirty payload = (set', syms', dirty') →
  NoDup syms → (∀ x, x ∈ set ↔ x ∈ syms) →
  NoDup syms' ∧ (∀ x, x ∈ set' ↔ x ∈ syms') ∧ (∀ x, x ∈ syms' ↔ x ∈ syms ∨ x ∈ payload).
Proof.
  unfold record_symbols_into_universe.
  revert set syms dirty. induction payload as [|p payload IH]; intros set syms dirty; simpl.
  - intros; simplify_eq. split_and!; [done..|set_solver].
  - case_decide as Hp; intros Hf Hnd Hs.
    + destruct (IH _ _ _ Hf Hnd Hs) as (? & ? & H3). split_and!; [done..|].
      intros x. rewrite H3, elem_of_cons. apply Hs in Hp. naive_solver.
    + destruct (IH _ _ _ Hf) as (? & ? & H3).
      * apply NoDup_app. split_and!; [done| |apply NoDup_singleton].
        intros x Hx ->%list_elem_of_singleton. by apply Hp, Hs.
      * intros x. rewrite elem_of_union, elem_of_app, Hs. set_solver.
      * split_and!; [done..|]. intros x.
        rewrite H3. set_solver.
Qed.

Lemma index_symbols_spec symbols s i :
  NoDup symbols → index_symbols symbols !! s = Some i ↔ symbols !! i = Some s.
Proof.
  assert (Hgen : ∀ l k m, NoDup l → (∀ x, x ∈ l → m !! x = None) →
    foldl (λ (m : gmap string nat) '(idx, symbol), <[symbol := idx]> m) m
      (imap (λ i x, (k + i, x)) l) !! s = Some i ↔
    m !! s = Some i ∨ ∃ j, l !! j = Some s ∧ i = k + j).
  { induction l as [|x l IH]; intros k m Hnd Hm; simpl.
    - split; [by left|intros [?|(? & ? & _)]; [done|by rewrite lookup_nil in *]].
    - apply NoDup_cons in Hnd as [Hx Hnd].
      rewrite (imap_ext _ (λ i y, (S k + i, y))) by (intros; simpl; f_equal; lia).
      rewrite IH; [|done|].
      + split.
        * intros [H|(j & ? & ->)]; [|right; exists (S j); split; [done|lia]].
          destruct (decide (x = s)) as [->|Hne].
          -- rewrite lookup_insert_eq in H. simplify_eq. right. exists 0. by rewrite Nat.add_0_r.
          -- rewrite lookup_insert_ne in H by done. by left.
        * intros [H|([|j] & Hj & ->)]; simplify_eq/=.
          -- left. rewrite lookup_insert_ne; [done|]. intros ->.
             rewrite (Hm s) in H by left. done.
          -- left. rewrite lookup_insert_eq. f_equal; lia.
          -- right. exists j. split; [done|lia].
      + intros y Hy. rewrite lookup_insert_ne by (by intros ->). apply Hm. by right. }
  intros Hnd. unfold index_symbols.
  rewrite (Hgen symbols 0 ∅ Hnd) by (intros; apply lookup_empty).
  rewrite lookup_empty. naive_solver.
Qed.

Lemma symbol_bits_spec index n items j :
  (∀ s i, index !! s = Some i → i < n) →
  bit (symbol_bits index n items) j = true ↔ ∃ s, s ∈ items ∧ index !! s = Some j.
Proof.
  intros Hidx. unfold symbol_bits.
  assert (Hgen : ∀ l bits, length bits = n →
    bit (foldl (λ bits item, match index !! item with
           Some idx => bv_set bits idx true | None => bits end) bits l) j = true ↔
    bit bits j = true ∨ ∃ s, s ∈ l ∧ index !! s = Some j).
  { induction l as [|x l IH]; intros bits Hl; simpl.
    - split; [by left|]. intros [?|(? & ?%elem_of_nil & _)]; done.
    - destruct (index !! x) as [i|] eqn:Hx.
      + rewrite IH by (by rewrite length_bv_set).
        rewrite bit_set by (rewrite Hl; eauto). case_decide; set_solver.
      + rewrite IH by done. set_solver. }
  rewrite Hgen by apply length_bv_fill. rewrite bit_fill. naive_solver.
Qed.

Lemma length_symbol_bits index n items : length (symbol_bits index n items) = n.
Proof.
  unfold symbol_bits. assert (Hgen : ∀ l bits, length (foldl (λ bits item, match index !! item with
    Some idx => bv_set bits idx true | None => bits end) bits l) = length bits).
  { induction l as [|x l IH]; intros bits; simpl; [done|]. rewrite IH.
    destruct (index !! x); [apply length_bv_set|done]. }
  by rewrite Hgen, length_bv_fill.
Qed.

(** Sets with the same members have the same bits. *)
Lemma symbol_bits_ext index n items items' :
  (∀ s i, index !! s = Some i → i < n) → (∀ s, s ∈ items ↔ s ∈ items') →
  symbol_bits index n items = symbol_bits index n items'.
Proof.
  intros Hidx Hmem. apply bv_eq; [by rewrite !length_symbol_bits|]. intros i _.
  apply bool_eq_iff. rewrite !symbol_bits_spec by done. by setoid_rewrite Hmem.
Qed.

(** The bit-set view of set [id] tests membership in that set. *)
Lemma bitset_test_spec sets symbols dirty id items s :
  NoDup symbols → (∀ x, x ∈ items → x ∈ symbols) → sets !! id = Some items →
  let u := build_symbol_index_and_bitsets sets symbols dirty in
  ∃ bits, u_bitsets u !! id = Some bits ∧ (bitset_test u bits s = true ↔ s ∈ items).
Proof.
  intros Hnd Hsub Hid u.
  set (syms := if dirty then sort_strings symbols else symbols).
  assert (Hp : syms ≡ₚ symbols) by (unfold syms; destruct dirty; [apply merge_sort_Permutation|done]).
  assert (Hnd' : NoDup syms) by (by rewrite Hp).
  exists (symbol_bits (index_symbols syms) (length syms) items). split.
  { unfold u, build_symbol_index_and_bitsets. simpl. by rewrite list_lookup_fmap, Hid. }
  unfold bitset_test. change (u_symbol_index u) with (index_symbols syms).
  assert (Hlt : ∀ s i, index_symbols syms !! s = Some i → i < length syms).
  { intros s' i. rewrite index_symbols_spec by done. apply lookup_lt_Some. }
  destruct (index_symbols syms !! s) as [i|] eqn:Hi.
  - rewrite symbol_bits_spec by done. split; [|by eauto].
    intros (s' & Hs' & Hi'). rewrite index_symbols_spec in Hi, Hi' by done. by simplify_eq.
  - split; [done|]. intros Hs. exfalso.
    assert (s ∈ syms) as Hin by (rewrite Hp; auto).
    apply list_elem_of_lookup in Hin as [i Hin%index_symbols_spec]; [congruence|done].
Qed.

(** ** Interning *)

Record label_builder_ok (b : LabelStoreBuilder) : Prop := {
  lok_canon : ∀ i e, lb_entries b !! i = Some e → canon e = e;
  lok_map : ∀ e i, lb_entry_map b !! e = Some i ↔ lb_entries b !! i = Some e;
  lok_nodup : NoDup (lb_symbols b);
  lok_set : ∀ x, x ∈ lb_symbol_set b ↔ x ∈ lb_symbols b;
  lok_syms : ∀ i e x, lb_entries b !! i = Some e → x ∈ e → x ∈ lb_symbols b
}.

Lemma label_builder_ok_default : label_builder_ok LabelStoreBuilder_default.
Proof.
  constructor; simpl.
  - done.
  - intros e i. by rewrite lookup_empty, lookup_nil.
  - constructor.
  - set_solver.
  - done.
Qed.

Lemma try_from_usize_Some `{IdStorage} n i : try_from_usize n = Some i → i = n.
Proof. unfold try_from_usize. case_match; naive_solver. Qed.

Lemma intern_ok `{IdStorage} b ls r b' :
  label_builder_ok b → intern b ls = (r, b') →
  label_builder_ok b' ∧ (∃ ext, lb_entries b' = lb_entries b ++ ext) ∧
  (∀ id, r = Ok id → lb_entries b' !! id = Some (canon ls)).
Proof.
  intros Hok. unfold intern.
  destruct (lb_entry_map b !! canon ls) as [id|] eqn:Hm.
  { intros; simplify_eq. split_and!; [done|exists []; by rewrite app_nil_r|].
    intros ? ?; simplify_eq. by apply (lok_map _ Hok). }
  destruct (try_from_usize _) as [id|] eqn:Ht; intros Hr; simplify_eq;
    [|split_and!; [done|exists []; by rewrite app_nil_r|done]].
  apply try_from_usize_Some in Ht as ->.
  destruct (record_symbols_into_universe _ _ _ _) as [[set syms] dirty] eqn:Hrec.
  simplify_eq. destruct (record_symbols_spec _ _ _ _ _ _ _ Hrec) as (Hnd & Hs & Hsy);
    [apply Hok..|].
  split_and!; [|by eexists|intros ? [= <-]; apply lookup_push].
  constructor; simpl; [| |done|done|].
  - intros i e. rewrite lookup_app_Some, list_lookup_singleton_Some.
    intros [?|(_ & _ & <-)]; [by eapply Hok|apply canon_idemp].
  - intros e i. rewrite lookup_app_Some, list_lookup_singleton_Some.
    destruct (decide (e = canon ls)) as [->|Hne].
    + rewrite lookup_insert_eq. split.
      * intros [= <-]. right. split_and!; [lia|lia|done].
      * intros [Hi|(? & ? & _)]; [apply (lok_map _ Hok) in Hi; congruence|f_equal; lia].
    + rewrite lookup_insert_ne, (lok_map _ Hok) by done. naive_solver.
  - intros i e x. rewrite lookup_app_Some, list_lookup_singleton_Some, Hsy.
    intros [Hi|(_ & _ & <-)] Hx; [left; by eapply (lok_syms _ Hok)|by right].
Qed.

Lemma intern_hit `{IdStorage} b ls id :
  label_builder_ok b → lb_entries b !! id = Some (canon ls) → intern b ls = (Ok id, b).
Proof. intros Hok Hi. unfold intern. apply (lok_map _ Hok) in Hi. by rewrite Hi. Qed.

(** Interning never overflows when the payloads come from a list that fits. *)
Lemma intern_bounded `{IdStorage} (allowed : list (list string)) b p :
  label_builder_ok b → (∀ e, e ∈ lb_entries b → e ∈ allowed) → canon p = p → p ∈ allowed →
  (N.of_nat (length allowed) <= id_max + 1)%N →
  ∃ id b', intern b p = (Ok id, b') ∧ label_builder_ok b' ∧ (∀ e, e ∈ lb_entries b' → e ∈ allowed) ∧
    lb_entries b `prefix_of` lb_entries b' ∧ lb_entries b' !! id = Some p.
Proof.
  intros Hok Hin Hcan Hmem Hfit. destruct (intern b p) as [r b'] eqn:E.
  destruct (intern_ok b p r b' Hok E) as (Hok' & [ext Hext] & Hid).
  assert (Hr : ∃ id, r = Ok id ∧ ∀ e, e ∈ lb_entries b' → e ∈ allowed).
  { revert E. unfold intern. rewrite Hcan. destruct (lb_entry_map b !! p) as [id|] eqn:Em.
    { intros [= <- <-]. by exists id. }
    assert (Hlen : (N.of_nat (length (lb_entries b)) <= id_max)%N).
    { assert (Hnd : NoDup (p :: lb_entries b)).
      { constructor.
        - intros [i Hi]%list_elem_of_lookup. apply (lok_map _ Hok) in Hi. congruence.
        - apply NoDup_alt. intros i j e Hi Hj. apply (lok_map _ Hok) in Hi, Hj. congruence. }
      apply NoDup_submseteq with (k := allowed) in Hnd.
      - apply submseteq_length in Hnd. simpl in Hnd. lia.
      - intros e [->|He]%elem_of_cons; auto. }
    unfold try_from_usize. rewrite (proj2 (N.leb_le _ _)) by done.
    destruct (record_symbols_into_universe _ _ _ _) as [[set syms] dirty]. intros [= <- <-].
    eexists. split; [done|]. simpl. intros e [He| ->%list_elem_of_singleton]%elem_of_app; auto. }
  destruct Hr as (id & -> & Hsub). exists id, b'. split_and!; try done.
  - rewrite Hext. by apply prefix_app_r.
  - rewrite (Hid id) by done. by rewrite Hcan.
Qed.

Record variable_builder_ok (b : VariableStoreBuilder) : Prop := {
  vok_canon : ∀ i e, vb_sets b !! i = Some e → canon e = e;
  vok_map : ∀ e i, vb_index b !! e = Some i ↔ vb_sets b !! i = Some e;
  vok_nodup : NoDup (vb_symbols b);
  vok_set : ∀ x, x ∈ vb_symbol_set b ↔ x ∈ vb_symbols b;
  vok_syms : ∀ i e x, vb_sets b !! i = Some e → x ∈ e → x ∈ vb_symbols b
}.

Lemma variable_builder_ok_default : variable_builder_ok VariableStoreBuilder_default.
Proof.
  constructor; simpl.
  - done.
  - intros e i. by rewrite lookup_empty, lookup_nil.
  - constructor.
  - set_solver.
  - done.
Qed.

Lemma intern_variables_ok b vs id b' :
  variable_builder_ok b → intern_variables b vs = (id, b') →
  variable_builder_ok b' ∧ (∃ ext, vb_sets b' = vb_sets b ++ ext) ∧
  vb_sets b' !! id = Some (canon vs).
Proof.
  intros Hok. unfold intern_variables.
  destruct (vb_index b !! canon vs) as [i|] eqn:Hm; intros Hr.
  { simplify_eq. split_and!; [done|exists []; by rewrite app_nil_r|by apply (vok_map _ Hok)]. }
  destruct (record_symbols_into_universe _ _ _ _) as [[set syms] dirty] eqn:Hrec.
  simplify_eq. destruct (record_symbols_spec _ _ _ _ _ _ _ Hrec) as (Hnd & Hs & Hsy);
    [apply Hok..|].
  split_and!; [|by eexists|apply lookup_push].
  constructor; simpl; [| |done|done|].
  - intros i e. rewrite lookup_app_Some, list_lookup_singleton_Some.
    intros [?|(_ & _ & <-)]; [by eapply Hok|apply canon_idemp].
  - intros e i. rewrite lookup_app_Some, list_lookup_singleton_Some.
    destruct (decide (e = canon vs)) as [->|Hne].
    + rewrite lookup_insert_eq. split.
      * intros [= <-]. right. split_and!; [lia|lia|done].
      * intros [Hi|(? & ? & _)]; [apply (vok_map _ Hok) in Hi; congruence|f_equal; lia].
    + rewrite lookup_insert_ne, (vok_map _ Hok) by done. naive_solver.
  - intros i e x. rewrite lookup_app_Some, list_lookup_singleton_Some, Hsy.
    intros [Hi|(_ & _ & <-)] Hx; [left; by eapply (vok_syms _ Hok)|by right].
Qed.

(** ** The builder invariant *)

Record builder_ok (b : CltsBuilder) : Prop := {
  bok_labels : label_builder_ok (cb_labels b);
  bok_variables : variable_builder_ok (cb_variables b);
  bok_map : ∀ name i, cb_state_map b !! name = Some i ↔ cb_state_names b !! i = Some name;
  bok_var_rows : length (cb_state_variables b) = length (cb_state_names b);
  bok_val_rows : length (cb_state_valuations b) = length (cb_state_names b);
  bok_var_ids : ∀ i id, cb_state_variables b !! i = Some id → id < length (vb_sets (cb_variables b));
  bok_initial : ∀ s, s ∈ cb_initial_states b → s < length (cb_state_names b);
  bok_specs : ∀ t, t ∈ cb_transitions b →
    spec_from t < length (cb_state_names b) ∧ spec_to t < length (cb_state_names b)
}.

Lemma builder_ok_default : builder_ok CltsBuilder_default.
Proof.
  constructor.
  - apply label_builder_ok_default.
  - apply variable_builder_ok_default.
  - intros name i. cbn. by rewrite lookup_empty, lookup_nil.
  - done.
  - done.
  - done.
  - cbn. set_solver.
  - cbn. set_solver.
Qed.

Lemma insert_state_owned_ok `{IdStorage} name b r b' :
  builder_ok b → insert_state_owned name b = (r, b') →
  builder_ok b' ∧ length (cb_state_names b) ≤ length (cb_state_names b') ∧
  (∀ i, r = Some i → cb_state_names b' !! i = Some name).
Proof.
  intros Hok. unfold insert_state_owned.
  destruct (cb_state_map b !! name) as [i|] eqn:Hm; intros Hr.
  { simplify_eq. split_and!; [done|done|]. intros ? ?; simplify_eq. by apply (bok_map _ Hok). }
  destruct (try_from_usize _) as [i|] eqn:Ht.
  2:{ simplify_eq. split_and!; [destruct Hok; by constructor|done|done]. }
  apply try_from_usize_Some in Ht as ->.
  destruct (intern_variables (cb_variables b) []) as [vid vars] eqn:Hv. simplify_eq.
  destruct (intern_variables_ok _ _ _ _ (bok_variables _ Hok) Hv) as (Hvok & [ext He] & Hid).
  split_and!; simpl.
  - constructor; simpl; rewrite ?length_app; simpl.
    + apply Hok.
    + done.
    + intros n i. rewrite lookup_app_Some, list_lookup_singleton_Some.
      destruct (decide (n = name)) as [->|Hne].
      * rewrite lookup_insert_eq. split.
        -- intros [= <-]. right. split_and!; [lia|lia|done].
        -- intros [Hi|(? & ? & _)]; [apply (bok_map _ Hok) in Hi; congruence|f_equal; lia].
      * rewrite lookup_insert_ne, (bok_map _ Hok) by done. naive_solver.
    + by rewrite (bok_var_rows _ Hok).
    + by rewrite (bok_val_rows _ Hok).
    + intros i id. rewrite lookup_app_Some, list_lookup_singleton_Some.
      intros [Hi|(_ & _ & <-)]; [|by apply lookup_lt_Some in Hid].
      apply (bok_var_ids _ Hok) in Hi. rewrite He, length_app. lia.
    + intros s Hs%(bok_initial _ Hok). lia.
    + intros t Ht%(bok_specs _ Hok). lia.
  - rewrite length_app. lia.
  - intros ? [= <-]. apply lookup_push.
Qed.

Lemma with_variables_for_state_ok s vs b :
  builder_ok b → builder_ok (with_variables_for_state s vs b).
Proof.
  intros Hok. unfold with_variables_for_state.
  destruct (intern_variables _ _) as [id vars] eqn:Hv.
  destruct (intern_variables_ok _ _ _ _ (bok_variables _ Hok) Hv) as (Hvok & [ext He] & Hid).
  destruct Hok. constructor; simpl; try done.
  - by rewrite length_insert.
  - intros i j. rewrite list_lookup_insert_Some.
    intros [(_ & <- & _)|(_ & Hj%bok_var_ids0)]; [by eapply lookup_lt_Some|].
    rewrite He, length_app. lia.
Qed.

Lemma initial_state_id_ok s b :
  builder_ok b → s < length (cb_state_names b) → builder_ok (initial_state_id s b).
Proof.
  intros Hok Hs. destruct Hok. constructor; simpl; try done.
  intros t [->%elem_of_singleton|?]%elem_of_union; auto.
Qed.

Lemma transition_ids_ok f ls t m b :
  builder_ok b → f < length (cb_state_names b) → t < length (cb_state_names b) →
  builder_ok (transition_ids_with_modality f ls t m b).
Proof.
  intros Hok Hf Ht. destruct Hok. constructor; simpl; try done.
  intros x [Hx| ->%list_elem_of_singleton]%elem_of_app; auto.
Qed.

(** Inserting a state with a new name. *)
Lemma insert_state_fresh `{IdStorage} b name :
  builder_ok b → cb_state_map b !! name = None → (N.of_nat (length (cb_state_names b)) <= id_max)%N →
  ∃ b' vid ext, insert_state_owned name b = (Some (length (cb_state_names b)), b') ∧ builder_ok b' ∧
    b' = set_state_variables (cb_state_variables b ++ [vid]) (set_variables (cb_variables b')
         (set_state_valuations (cb_state_valuations b ++ [None])
         (set_state_map (<[name := length (cb_state_names b)]> (cb_state_map b))
         (set_state_names (cb_state_names b ++ [name]) b)))) ∧
    vb_sets (cb_variables b') = vb_sets (cb_variables b) ++ ext ∧ vb_sets (cb_variables b') !! vid = Some [].
Proof.
  intros Hok Hnone Hfit. destruct (insert_state_owned name b) as [r b'] eqn:E.
  destruct (insert_state_owned_ok name b r b' Hok E) as (Hok' & _).
  unfold insert_state_owned in E. rewrite Hnone in E.
  unfold try_from_usize in E. rewrite (proj2 (N.leb_le _ _)) in E by done.
  destruct (intern_variables (cb_variables b) []) as [vid vars] eqn:Ev. injection E as <- <-.
  destruct (intern_variables_ok _ _ _ _ (bok_variables _ Hok) Ev) as (_ & [ext He] & Hid).
  by eexists _, vid, ext.
Qed.

Lemma insert_state_known `{IdStorage} b name i :
  cb_state_map b !! name = Some i → insert_state_owned name b = (Some i, b).
Proof. intros Hn. unfold insert_state_owned. by rewrite Hn. Qed.

(** Setting the variables of a state that has none yet. *)
Lemma variables_slot b s vid vars :
  builder_ok b → cb_state_variables b !! s = Some vid → vb_sets (cb_variables b) !! vid = Some [] →
  let b' := if negb (null vars) then with_variables_for_state s vars b else b in
  builder_ok b' ∧ b' = set_state_variables (cb_state_variables b') (set_variables (cb_variables b') b) ∧
  (∃ id, cb_state_variables b' !! s = Some id ∧ vb_sets (cb_variables b') !! id = Some (canon vars)) ∧
  (∀ i, i ≠ s → cb_state_variables b' !! i = cb_state_variables b !! i) ∧
  ∃ ext, vb_sets (cb_variables b') = vb_sets (cb_variables b) ++ ext.
Proof.
  intros Hok Hvid Hset b'. destruct vars as [|v vars]; simpl in b'.
  - subst b'. split_and!; [done|by destruct b|by exists vid|done|exists []; by rewrite app_nil_r].
  - set (vs := v :: vars) in *. clearbody vs. subst b'. split; [by apply with_variables_for_state_ok|].
    unfold with_variables_for_state. destruct (intern_variables (cb_variables b) vs) as [id store'] eqn:E.
    destruct (intern_variables_ok _ _ _ _ (bok_variables _ Hok) E) as (_ & [ext He] & Hid). simpl.
    split_and!; [done| |by intros; rewrite list_lookup_insert_ne|by exists ext].
    exists id. split; [|done]. apply list_lookup_insert_eq. by eapply lookup_lt_Some.
Qed.

(** The calls a client can make on a builder, in any order. State identifiers
    come from the builder, so they are below the number of states. *)
Inductive BuilderOp :=
  | OpLabel (ls : list string)
  | OpState (name : string)
  | OpInitial (name : string)
  | OpVariables (name : string) (vs : list string)
  | OpValuation (s : StateId) (v : gmap string string)
  | OpPredicate (s : StateId) (p : string) (t : Tristate)
  | OpTransitionIds (f : StateId) (ls : list LabelId) (t : StateId) (m : TransitionModality)
  | OpTransition (f : string) (ls : list LabelId) (t : string)
  | OpControllability (l : LabelId) (c : LabelControllability)
  | OpDeclare (l : LabelId).

Definition op_valid (op : BuilderOp) (b : CltsBuilder) : Prop :=
  match op with
  | OpTransitionIds f _ t _ => f < length (cb_state_names b) ∧ t < length (cb_state_names b)
  | _ => True
  end.

Definition apply_op `{IdStorage} (op : BuilderOp) (b : CltsBuilder) : CltsBuilder :=
  match op with
  | OpLabel ls => set_labels (intern (cb_labels b) ls).2 b
  | OpState name => (insert_state_owned name b).2
  | OpInitial name => initial name b
  | OpVariables name vs => with_variables name vs b
  | OpValuation s v => with_valuation_for_state s v b
  | OpPredicate s p t => with_3valued_predicate s p t b
  | OpTransitionIds f ls t m => transition_ids_with_modality f ls t m b
  | OpTransition f ls t => transition f ls t b
  | OpControllability l c => set_controllability l c b
  | OpDeclare l => declare_in_alphabet l b
  end.

Inductive reachable_builder `{IdStorage} : CltsBuilder → Prop :=
  | rb_default : reachable_builder CltsBuilder_default
  | rb_step b op : reachable_builder b → op_valid op b → reachable_builder (apply_op op b).

Lemma apply_op_ok `{IdStorage} op b : builder_ok b → op_valid op b → builder_ok (apply_op op b).
Proof.
  intros Hok Hv. destruct op; simpl in *.
  - destruct (intern _ _) as [r lb] eqn:Hi. destruct (intern_ok _ _ _ _ (bok_labels _ Hok) Hi).
    destruct Hok. by constructor.
  - destruct (insert_state_owned _ _) as [r b'] eqn:Hi. by eapply insert_state_owned_ok in Hi as [? _].
  - unfold initial. destruct (insert_state_owned _ _) as [[i|] b'] eqn:Hi;
      eapply insert_state_owned_ok in Hi as (? & _ & Hn); try done.
    apply initial_state_id_ok; [done|]. eapply lookup_lt_Some, Hn; done.
  - unfold with_variables. destruct (insert_state_owned _ _) as [[i|] b'] eqn:Hi;
      eapply insert_state_owned_ok in Hi as (? & _ & Hn); try done.
    by apply with_variables_for_state_ok.
  - destruct Hok. constructor; simpl; try done. by rewrite length_insert.
  - destruct Hok. by constructor.
  - destruct Hv. by apply transition_ids_ok.
  - unfold transition. destruct (insert_state_owned f b) as [r1 b1] eqn:H1.
    destruct (insert_state_owned t b1) as [r2 b2] eqn:H2.
    eapply insert_state_owned_ok in H1 as (Hok1 & _ & Hn1); [|done].
    eapply insert_state_owned_ok in H2 as (Hok2 & Hl2 & Hn2); [|done].
    destruct r1 as [i|], r2 as [j|]; try done. apply transition_ids_ok; [done| |].
    + eapply Nat.lt_le_trans; [|done]. eapply lookup_lt_Some, Hn1; done.
    + eapply lookup_lt_Some, Hn2; done.
  - destruct Hok. by constructor.
  - destruct Hok. by constructor.
Qed.

Lemma reachable_builder_ok `{IdStorage} b : reachable_builder b → builder_ok b.
Proof. induction 1; [apply builder_ok_default|by apply apply_op_ok]. Qed.

(** ** [build] *)

Definition specs_from (s : StateId) (specs : list TransitionSpec) : list Transition :=
  map spec_outgoing (List.filter (λ t, spec_from t =? s) specs).
Definition specs_to (s : StateId) (specs : list TransitionSpec) : list Transition :=
  map spec_incoming (List.filter (λ t, spec_to t =? s) specs).

Lemma push_at_spec {A} (rows : list (list A)) i x :
  i < length rows →
  ∃ rows', push_at rows i x = Some rows' ∧ length rows' = length rows ∧
    ∀ j, rows' !! j = (λ row, row ++ if i =? j then [x] else []) <$> rows !! j.
Proof.
  intros Hi. unfold push_at. destruct (lookup_lt_is_Some_2 rows i Hi) as [row Hr].
  rewrite Hr. eexists; split_and!; [done|apply length_insert|].
  intros j. destruct (Nat.eqb_spec i j) as [->|Hne].
  - by rewrite list_lookup_insert_eq, Hr.
  - rewrite list_lookup_insert_ne by done. destruct (rows !! j); simpl; [by rewrite app_nil_r|done].
Qed.

Lemma fill_adjacency_spec specs n out inc :
  length out = n → length inc = n →
  (∀ t, t ∈ specs → spec_from t < n ∧ spec_to t < n) →
  ∃ out' inc', fill_adjacency specs out inc = Some (out', inc') ∧
    length out' = n ∧ length inc' = n ∧
    ∀ s, out' !! s = (λ row, row ++ specs_from s specs) <$> out !! s ∧
         inc' !! s = (λ row, row ++ specs_to s specs) <$> inc !! s.
Proof.
  revert out inc. induction specs as [|t specs IH]; intros out inc Ho Hi Hs; simpl.
  { exists out, inc. split_and!; [done..|]. intros s. unfold specs_from, specs_to; simpl.
    destruct (out !! s), (inc !! s); simpl; rewrite ?app_nil_r; done. }
  destruct (Hs t) as [Hf Ht]; [by left|].
  destruct (push_at_spec out (spec_from t) (spec_outgoing t)) as (out1 & -> & Hl1 & H1); [lia|].
  destruct (push_at_spec inc (spec_to t) (spec_incoming t)) as (inc1 & -> & Hl2 & H2); [lia|].
  destruct (IH out1 inc1) as (out2 & inc2 & -> & ? & ? & Hrows); [lia|lia|intros; apply Hs; by right|].
  exists out2, inc2. split_and!; [done..|]. intros s. destruct (Hrows s) as [-> ->].
  rewrite H1, H2. unfold specs_from, specs_to; simpl.
  destruct (spec_from t =? s), (spec_to t =? s), (out !! s), (inc !! s); simpl;
    rewrite ?app_nil_r, <-?app_assoc; done.
Qed.

Definition labelled_as (lc : gmap LabelId LabelControllability) (l : LabelId) : LabelControllability :=
  default LC_Controllable (lc !! l).

Lemma classify_spec lc ls unc con int unc' con' int' :
  foldl (classify lc) (unc, con, int) ls = (unc', con', int') →
  ∀ l, (l ∈ unc' ↔ l ∈ unc ∨ (l ∈ ls ∧ labelled_as lc l = LC_Uncontrollable)) ∧
       (l ∈ con' ↔ l ∈ con ∨ (l ∈ ls ∧ labelled_as lc l = LC_Controllable)) ∧
       (l ∈ int' ↔ l ∈ int ∨ (l ∈ ls ∧ labelled_as lc l = LC_Internal)).
Proof.
  revert unc con int. induction ls as [|x ls IH]; intros unc con int; simpl.
  { intros; simplify_eq. set_solver. }
  intros Hf l. unfold labelled_as in *. destruct (lc !! x) as [[]|] eqn:Hx;
    destruct (IH _ _ _ Hf l) as (-> & -> & ->);
    rewrite !elem_of_cons, ?elem_of_union, ?elem_of_singleton;
    (destruct (decide (l = x)) as [->|]; [rewrite Hx; simpl; intuition congruence|tauto]).
Qed.

Lemma elem_of_all_labels b l :
  l ∈ all_labels b ↔ (∃ t, t ∈ cb_transitions b ∧ l ∈ spec_labels t) ∨ l ∈ cb_declared_labels b.
Proof.
  unfold all_labels. rewrite elem_of_union.
  assert (Hin : ∀ ls (a : gset LabelId),
    l ∈ foldl (λ a l, {[l]} ∪ a) a ls ↔ l ∈ a ∨ l ∈ ls).
  { induction ls as [|x ls IH]; intros a; simpl; [set_solver|rewrite IH; set_solver]. }
  assert (Hout : ∀ ts (a : gset LabelId),
    l ∈ foldl (λ acc s, foldl (λ a l, {[l]} ∪ a) acc (spec_labels s)) a ts ↔
    l ∈ a ∨ ∃ t, t ∈ ts ∧ l ∈ spec_labels t).
  { induction ts as [|x ts IH]; intros a; simpl; [set_solver|rewrite IH, Hin; set_solver]. }
  rewrite Hout. set_solver.
Qed.

Lemma group_transitions_spec unc ts key :
  (∀ i, i ∈ default [] (group_transitions unc ts !! key) ↔
     ∃ t, ts !! i = Some t ∧ should_group unc t = true ∧ label_set t = key) ∧
  group_transitions unc ts !! key ≠ Some [].
Proof.
  unfold group_transitions.
  assert (Hgen : ∀ ts k (g : gmap (list LabelId) (list nat)), g !! key ≠ Some [] →
    let g' := foldl (group_transition unc) g (imap (λ i x, (k + i, x)) ts) in
    (∀ i, i ∈ default [] (g' !! key) ↔ i ∈ default [] (g !! key) ∨
      ∃ j t, i = k + j ∧ ts !! j = Some t ∧ should_group unc t = true ∧ label_set t = key) ∧
    g' !! key ≠ Some []).
  { clear ts. induction ts as [|t ts IH]; intros k g Hg; cbn [imap foldl].
    { split; [|done]. intros i. split; [by left|]. intros [?|(? & ? & _ & Hl & _)]; [done|].
      by rewrite lookup_nil in Hl. }
    rewrite (imap_ext _ (λ i y, (S k + i, y))) by (intros; simpl; f_equal; lia).
    match goal with |- context [foldl _ ?g1 _] => set (g1' := g1) end.
    assert (Hg1 : g1' !! key ≠ Some [] ∧ ∀ i, i ∈ default [] (g1' !! key) ↔
      i ∈ default [] (g !! key) ∨ (i = k ∧ should_group unc t = true ∧ label_set t = key)).
    { subst g1'. unfold group_transition. rewrite Nat.add_0_r.
      destruct (should_group unc t); [|naive_solver].
      destruct (decide (label_set t = key)) as [->|Hne].
      - rewrite lookup_insert_eq. simpl. split; [by destruct (default [] _)|].
        intros i. rewrite elem_of_app, list_elem_of_singleton. naive_solver.
      - rewrite lookup_insert_ne by done. naive_solver. }
    destruct Hg1 as [Hne Hin]. destruct (IH (S k) g1' Hne) as [IH1 IH2]. split; [|done].
    intros i. rewrite IH1, Hin. split.
    - intros [[?|(-> & ? & ?)]|(j & t' & -> & ? & ? & ?)]; [by left| |].
      + right. exists 0, t. split_and!; [lia|done..].
      + right. exists (S j), t'. split_and!; [lia|done..].
    - intros [?|([|j] & t' & -> & Ht & ? & ?)]; [tauto| |]; simplify_eq/=.
      + left. right. split_and!; [lia|done..].
      + right. exists j, t'. split_and!; [lia|done..]. }
  destruct (Hgen ts 0 ∅) as [H1 H2]; [by rewrite lookup_empty|].
  split; [|done]. intros i. etransitivity; [apply H1|]. rewrite lookup_empty. simpl.
  rewrite elem_of_nil. naive_solver.
Qed.

(** What every built system satisfies, and what the algorithms on it rely on. *)
Record clts_ok (c : Clts) : Prop := {
  ok_out : length (outgoing_rows c) = state_count c;
  ok_inc : length (incoming_rows c) = state_count c;
  ok_target : ∀ s t, t ∈ outgoing c s → target t < state_count c;
  ok_dual : ∀ s s' ls m, {| target := s'; t_labels := ls; modality := m |} ∈ outgoing c s ↔
    s < state_count c ∧ {| target := s; t_labels := ls; modality := m |} ∈ incoming c s';
  ok_alphabet : ∀ s t l, t ∈ outgoing c s → l ∈ t_labels t →
    is_uncontrollable_label c l = negb (is_controllable_label c l || is_internal_label c l);
  ok_groups : uncontrollable_groups c =
    map (group_transitions (uncontrollable_alphabet c)) (outgoing_rows c)
}.

Lemma elem_of_specs_from s specs t :
  t ∈ specs_from s specs ↔ ∃ x, x ∈ specs ∧ spec_from x = s ∧ t = spec_outgoing x.
Proof.
  unfold specs_from. rewrite list_elem_of_fmap.
  setoid_rewrite list_elem_of_In. setoid_rewrite filter_In.
  setoid_rewrite Nat.eqb_eq. naive_solver.
Qed.

Lemma elem_of_specs_to s specs t :
  t ∈ specs_to s specs ↔ ∃ x, x ∈ specs ∧ spec_to x = s ∧ t = spec_incoming x.
Proof.
  unfold specs_to. rewrite list_elem_of_fmap.
  setoid_rewrite list_elem_of_In. setoid_rewrite filter_In.
  setoid_rewrite Nat.eqb_eq. naive_solver.
Qed.

Lemma lookup_rows {A} n (rows : list (list A)) s f :
  (∀ s, rows !! s = (λ row, row ++ f s) <$> replicate n [] !! s) →
  default [] (rows !! s) = if decide (s < n) then f s else [].
Proof.
  intros ->. case_decide.
  - by rewrite lookup_replicate_2.
  - rewrite lookup_ge_None_2; [done|]. rewrite length_replicate. lia.
Qed.

Lemma build_rows b :
  builder_ok b → cb_state_overflow b = None →
  ∃ c unc con int, build b = Some (Ok c) ∧
    state_count c = length (cb_state_names b) ∧
    length (outgoing_rows c) = state_count c ∧ length (incoming_rows c) = state_count c ∧
    (∀ s, outgoing c s = if decide (s < state_count c) then specs_from s (cb_transitions b) else []) ∧
    (∀ s, incoming c s = if decide (s < state_count c) then specs_to s (cb_transitions b) else []) ∧
    build_alphabets b = (unc, con, int) ∧
    uncontrollable_alphabet c = unc ∧ controllable_alphabet c = con ∧ internal_alphabet c = int ∧
    uncontrollable_groups c = map (group_transitions unc) (outgoing_rows c).
Proof.
  intros Hok Hov. unfold build. rewrite Hov. set (n := length (cb_state_names b)).
  destruct (fill_adjacency_spec (cb_transitions b) n (replicate n []) (replicate n []))
    as (out & inc & -> & Ho & Hi & Hrows); [by rewrite length_replicate..|apply Hok|].
  destruct (build_alphabets b) as [[unc con] int] eqn:Ha.
  eexists _, unc, con, int. split_and!; try done.
  - intros s. apply (lookup_rows n out s (λ s, specs_from s (cb_transitions b))). apply Hrows.
  - intros s. apply (lookup_rows n inc s (λ s, specs_to s (cb_transitions b))). apply Hrows.
Qed.

Lemma build_ok b c :
  builder_ok b → build b = Some (Ok c) → clts_ok c.
Proof.
  intros Hok Hb. assert (Hov : cb_state_overflow b = None).
  { unfold build in Hb. by destruct (cb_state_overflow b). }
  destruct (build_rows b Hok Hov)
    as (c' & unc & con & int & Hb' & Hn & Hlo & Hli & Hout & Hinc & Ha & <- & <- & <- & Hg).
  rewrite Hb in Hb'. simplify_eq. constructor; try done.
  - intros s t. rewrite Hout. case_decide; [|by intros ?%elem_of_nil].
    intros (x & Hx & _ & ->)%elem_of_specs_from. rewrite Hn. by apply (bok_specs _ Hok).
  - intros s s' ls m. rewrite Hout, Hinc. split.
    + case_decide; [|by intros ?%elem_of_nil].
      intros (x & Hx & <- & Ht)%elem_of_specs_from. split; [done|].
      destruct (bok_specs _ Hok _ Hx) as [_ Hto].
      unfold spec_outgoing in Ht; simplify_eq. rewrite decide_True by (by rewrite Hn).
      apply elem_of_specs_to. eauto.
    + intros [Hs Hin]. rewrite decide_True by done. case_decide; [|by apply elem_of_nil in Hin].
      apply elem_of_specs_to in Hin as (x & Hx & <- & Ht).
      unfold spec_incoming in Ht; simplify_eq. apply elem_of_specs_from. eauto.
  - intros s t l. rewrite Hout. case_decide; [|by intros ?%elem_of_nil].
    intros (x & Hx & _ & ->)%elem_of_specs_from Hl.
    pose proof (classify_spec _ _ _ _ _ _ _ _ Ha l) as (Hu & Hc & Hint).
    assert (Hall : l ∈ elements (all_labels b)).
    { apply elem_of_elements, elem_of_all_labels. left. eauto. }
    unfold is_uncontrollable_label, is_controllable_label, is_internal_label.
    rewrite (bool_decide_ext _ _ Hu), (bool_decide_ext _ _ Hc), (bool_decide_ext _ _ Hint).
    assert (l ∉ (∅ : gset LabelId)) by apply not_elem_of_empty. clear Hu Hc Hint Ha.
    destruct (labelled_as _ l); repeat case_bool_decide; simpl; try done; intuition congruence.
Qed.

(** What [build] copies from the builder. *)
Record build_copies (b : CltsBuilder) (c : Clts) : Prop := {
  bc_names : state_names c = cb_state_names b;
  bc_initial : initial_states c = cb_initial_states b;
  bc_labels : labels c = label_build (cb_labels b);
  bc_variables : variables c = variable_build (cb_variables b);
  bc_variable_ids : state_variable_ids c = cb_state_variables b;
  bc_valuations : state_valuations c = cb_state_valuations b;
  bc_predicates : state_3valued_predicates c = cb_state_3valued_predicates b;
  bc_controllability : label_controllability c = cb_label_controllability b
}.

Lemma build_copied b c : build b = Some (Ok c) → build_copies b c.
Proof.
  unfold build. destruct (cb_state_overflow b); [done|].
  destruct (fill_adjacency _ _ _) as [[out inc]|]; [|done].
  destruct (build_alphabets b) as [[unc con] int]. intros H. simplify_eq. by constructor.
Qed.

(** The variable bits of a state test membership in its variable set. *)
Lemma build_variables b c s id items v :
  builder_ok b → build b = Some (Ok c) → cb_state_variables b !! s = Some id →
  vb_sets (cb_variables b) !! id = Some items →
  state_variables c s = items ∧ (state_variable_contains c s v = true ↔ v ∈ items).
Proof.
  intros Hok Hb Hid Hitems. pose proof (build_copied b c Hb) as Hcp.
  unfold state_variables, state_variable_contains.
  rewrite (bc_variable_ids _ _ Hcp), (bc_variables _ _ Hcp), Hid. split.
  { unfold store_get, variable_build, build_symbol_index_and_bitsets. simpl. by rewrite Hitems. }
  unfold variable_build. pose proof (bok_variables b Hok) as Hv.
  destruct (bitset_test_spec (vb_sets (cb_variables b)) (vb_symbols (cb_variables b))
    (vb_symbols_dirty (cb_variables b)) id items v) as (bits & Hbits & Ht); [apply Hv| |done|].
  - intros x Hx. by apply (vok_syms _ Hv id items).
  - by rewrite Hbits.
Qed.

(** The labels and variables of a built label store. *)
Lemma label_build_test b l v :
  label_builder_ok b →
  match u_bitsets (label_build b) !! l with Some bits => bitset_test (label_build b) bits v | None => false end
    = true ↔ v ∈ default [] (lb_entries b !! l).
Proof.
  intros Hok. unfold label_build. destruct (lb_entries b !! l) as [items|] eqn:E; cbn [default from_option].
  - destruct (bitset_test_spec (lb_entries b) (lb_symbols b) (lb_symbols_dirty b) l items v)
      as (bits & Hbits & Ht); [apply Hok| |done|].
    + intros x Hx. by apply (lok_syms _ Hok l items).
    + by rewrite Hbits.
  - unfold build_symbol_index_and_bitsets. cbn [u_bitsets]. rewrite list_lookup_fmap, E. simpl. split; [done|by intros ?%not_elem_of_nil].
Qed.

(** The names in a built system. *)
Record states_ok (c : Clts) : Prop := {
  so_names : NoDup (state_names c);
  so_variables : ∀ s v, s < state_count c → state_variable_contains c s v = true ↔ v ∈ state_variables c s;
  so_bits : ∀ s s', s < state_count c → s' < state_count c →
    (∀ v, state_variable_contains c s v = state_variable_contains c s' v) →
    state_variable_bits c s = state_variable_bits c s';
  so_payloads : ∀ l p, label_payload c l = Some p → canon p = p;
  so_payload_inj : ∀ l l' p, label_payload c l = Some p → label_payload c l' = Some p → l = l';
  so_variable_sets : ∀ s, canon (state_variables c s) = state_variables c s;
  so_labels : ∀ l v, label_test c l v = true ↔ v ∈ default [] (label_payload c l);
  so_initial : ∀ s, s ∈ initial_states c → s < state_count c
}.

Lemma build_bits b c s s' :
  builder_ok b → build b = Some (Ok c) → s < state_count c → s' < state_count c →
  (∀ v, state_variable_contains c s v = state_variable_contains c s' v) →
  state_variable_bits c s = state_variable_bits c s'.
Proof.
  intros Hok Hb Hs Hs' Hsame. pose proof (build_copied b c Hb) as Hcp. pose proof (bok_variables b Hok) as Hv.
  assert (Hrow : ∀ s, s < state_count c → ∃ id items, cb_state_variables b !! s = Some id ∧
    vb_sets (cb_variables b) !! id = Some items ∧ state_variable_bits c s =
      symbol_bits (u_symbol_index (variables c)) (length (u_symbols (variables c))) items).
  { intros s0 Hs0. unfold state_count in Hs0. rewrite (bc_names _ _ Hcp), <-(bok_var_rows _ Hok) in Hs0.
    destruct (lookup_lt_is_Some_2 _ _ Hs0) as [id Hid].
    destruct (lookup_lt_is_Some_2 _ _ (bok_var_ids _ Hok s0 id Hid)) as [items Hi].
    exists id, items. split_and!; [done..|]. unfold state_variable_bits.
    rewrite (bc_variable_ids _ _ Hcp), (bc_variables _ _ Hcp), Hid.
    unfold variable_build, build_symbol_index_and_bitsets. simpl. by rewrite list_lookup_fmap, Hi. }
  destruct (Hrow s Hs) as (id & items & Hid & Hi & ->), (Hrow s' Hs') as (id' & items' & Hid' & Hi' & ->).
  apply symbol_bits_ext.
  - rewrite (bc_variables _ _ Hcp). intros x i. simpl. rewrite index_symbols_spec; [apply lookup_lt_Some|].
    destruct (vb_symbols_dirty (cb_variables b)); [unfold sort_strings; rewrite merge_sort_Permutation|]; apply Hv.
  - intros x. destruct (build_variables b c s id items x Hok Hb Hid Hi) as [_ <-].
    destruct (build_variables b c s' id' items' x Hok Hb Hid' Hi') as [_ <-]. by rewrite Hsame.
Qed.

Lemma build_states_ok b c : builder_ok b → build b = Some (Ok c) → states_ok c.
Proof.
  intros Hok Hb. pose proof (build_copied b c Hb) as Hcp. constructor.
  - rewrite (bc_names _ _ Hcp). apply NoDup_alt. intros i j name Hi Hj.
    apply (bok_map _ Hok) in Hi, Hj. congruence.
  - intros s v Hs. unfold state_count in Hs. rewrite (bc_names _ _ Hcp), <-(bok_var_rows _ Hok) in Hs.
    destruct (lookup_lt_is_Some_2 _ _ Hs) as [id Hid].
    destruct (lookup_lt_is_Some_2 _ _ (bok_var_ids _ Hok s id Hid)) as [items Hi].
    by destruct (build_variables b c s id items v Hok Hb Hid Hi) as [-> ?].
  - intros s s' Hs Hs' Hsame. by apply (build_bits b).
  - intros l p. unfold label_payload. rewrite (bc_labels _ _ Hcp). apply (lok_canon _ (bok_labels _ Hok)).
  - intros l l' p. unfold label_payload. rewrite (bc_labels _ _ Hcp). unfold store_get. simpl.
    intros H1%(lok_map _ (bok_labels _ Hok)) H2%(lok_map _ (bok_labels _ Hok)). congruence.
  - intros s. unfold state_variables. rewrite (bc_variable_ids _ _ Hcp), (bc_variables _ _ Hcp).
    destruct (cb_state_variables b !! s) as [id|]; [|done]. unfold store_get. simpl.
    destruct (vb_sets (cb_variables b) !! id) as [e|] eqn:E; [|done]. by apply (vok_canon _ (bok_variables _ Hok) id).
  - intros l v. unfold label_test, label_payload. rewrite (bc_labels _ _ Hcp).
    apply label_build_test, (bok_labels _ Hok).
  - intros s. unfold state_count. rewrite (bc_initial _ _ Hcp), (bc_names _ _ Hcp). apply (bok_initial _ Hok).
Qed.

Lemma outgoing_in_range c s t : clts_ok c → t ∈ outgoing c s → s < state_count c.
Proof.
  intros Hok Ht. unfold outgoing in Ht. rewrite <-(ok_out _ Hok).
  destruct (outgoing_rows c !! s) eqn:Hs; [by eapply lookup_lt_Some|by apply elem_of_nil in Ht].
Qed.

Lemma groups_eq c s :
  clts_ok c →
  transitions_grouped_by_uncontrollable_labels c s =
  group_transitions (uncontrollable_alphabet c) (outgoing c s).
Proof.
  intros Hok. unfold transitions_grouped_by_uncontrollable_labels, outgoing.
  rewrite (ok_groups _ Hok), list_lookup_fmap. by destruct (outgoing_rows c !! s).
Qed.

Lemma controllable_xor c s t :
  clts_ok c → t ∈ outgoing c s → is_controllable c t = negb (is_uncontrollable c t).
Proof.
  intros Hok Ht. unfold is_controllable, is_uncontrollable.
  pose proof (ok_alphabet _ Hok s t) as Ha.
  destruct (t_labels t) as [|l0 ls]; [done|]. revert Ha. generalize (l0 :: ls). clear l0 ls.
  induction l as [|l ls IH]; intros Ha; [done|]. cbn [forallb existsb].
  rewrite (Ha l Ht) by left. rewrite IH by (intros; apply Ha; [done|by right]).
  by rewrite negb_orb, negb_involutive.
Qed.

Lemma should_group_spec c t :
  should_group (uncontrollable_alphabet c) t = is_uncontrollable c t.
Proof. done. Qed.

(** * Properties *)

(** Building is faithful and total. From any builder a client can reach
    without exhausting the state identifiers, [build] succeeds, and in the
    built system the outgoing row of a state is exactly the transitions added
    from it and the incoming row exactly those added to it, in the order they
    were added, with their labels and modality. *)
Theorem build_adjacency `{IdStorage} b :
  reachable_builder b → cb_state_overflow b = None →
  ∃ c, build b = Some (Ok c) ∧ clts_ok c ∧ state_count c = length (cb_state_names b) ∧
    ∀ s, s < state_count c →
      outgoing c s = specs_from s (cb_transitions b) ∧ incoming c s = specs_to s (cb_transitions b).
Proof.
  intros Hr%reachable_builder_ok Hov.
  destruct (build_rows b Hr Hov) as (c & unc & con & int & Hb & Hn & _ & _ & Ho & Hi & _).
  exists c. split_and!; [done|by eapply build_ok|done|]. intros s Hs.
  rewrite Ho, Hi, !decide_True by done. done.
Qed.

(** C36: controllability is a partition. In a built system every label of a
    transition is in exactly one of the uncontrollable and the
    controllable-or-internal alphabets, a transition is controllable exactly
    when it is not uncontrollable, and the group of a key holds exactly the
    indices of the uncontrollable transitions with that label set. *)
Theorem build_controllability `{IdStorage} b c s :
  reachable_builder b → build b = Some (Ok c) →
  (∀ t, t ∈ outgoing c s → is_controllable c t = negb (is_uncontrollable c t)) ∧
  (∀ key i, i ∈ default [] (transitions_grouped_by_uncontrollable_labels c s !! key) ↔
     ∃ t, outgoing c s !! i = Some t ∧ is_uncontrollable c t = true ∧ label_set t = key) ∧
  (∀ key, transitions_grouped_by_uncontrollable_labels c s !! key ≠ Some []).
Proof.
  intros Hr%reachable_builder_ok Hb. pose proof (build_ok _ _ Hr Hb) as Hok.
  rewrite groups_eq by done. split_and!.
  - intros t. by apply controllable_xor.
  - intros key i. apply group_transitions_spec.
  - intros key. apply group_transitions_spec.
Qed.

(** Interning is canonical. In a reachable builder two label payloads get
    the same identifier exactly when they have the same symbols; the built
    store returns the sorted, duplicate-free payload of the identifier, and the
    bit-set view of that identifier tests membership in it. *)
Theorem intern_canonical `{IdStorage} b x y idx idy b1 b2 s :
  reachable_builder b →
  intern (cb_labels b) x = (Ok idx, b1) → intern b1 y = (Ok idy, b2) →
  (idx = idy ↔ ∀ l, l ∈ x ↔ l ∈ y) ∧
  store_get (label_build b2) idx = Some (canon x) ∧
  (∃ bits, u_bitsets (label_build b2) !! idx = Some bits ∧
     (bitset_test (label_build b2) bits s = true ↔ s ∈ x)).
Proof.
  intros Hr%reachable_builder_ok Hx Hy.
  destruct (intern_ok _ _ _ _ (bok_labels _ Hr) Hx) as (H1 & _ & Gx).
  destruct (intern_ok _ _ _ _ H1 Hy) as (H2 & [ext He] & Gy).
  specialize (Gx _ eq_refl). specialize (Gy _ eq_refl).
  assert (Gx' : lb_entries b2 !! idx = Some (canon x)).
  { rewrite He. by apply lookup_app_l_Some. }
  split_and!.
  - split.
    + intros ->. apply canon_inj. congruence.
    + intros Heq%canon_ext. apply (lok_map _ H2) in Gx', Gy. congruence.
  - done.
  - destruct (bitset_test_spec (lb_entries b2) (lb_symbols b2) (lb_symbols_dirty b2) idx (canon x) s)
      as (bits & Hb & Ht); [apply H2|intros; by eapply (lok_syms _ H2)|done|].
    exists bits. split; [done|]. by rewrite <-elem_of_canon.
Qed.

(** ** Witnesses *)

#[local] Existing Instance u16_storage.

(** A request/grant system: the environment moves on "req" or "tick", the
    system answers on "grant". *)
Definition demo_ops : list BuilderOp :=
  [OpLabel ["req"]; OpLabel ["grant"; "ack"]; OpLabel ["tick"]; OpInitial "idle";
   OpTransition "idle" [0] "busy"; OpTransition "busy" [1] "idle"; OpTransition "idle" [2] "idle";
   OpControllability 0 LC_Uncontrollable; OpControllability 2 LC_Uncontrollable;
   OpVariables "busy" ["pending"]].
Definition demo_builder : CltsBuilder :=
  foldl (λ b op, apply_op op b) CltsBuilder_default demo_ops.
Definition demo_clts : Clts := built demo_builder.

Lemma reachable_run ops b :
  reachable_builder b → Forall (λ op, ∀ b, op_valid op b) ops →
  reachable_builder (foldl (λ b op, apply_op op b) b ops).
Proof.
  intros Hr Hv. revert b Hr. induction Hv as [|op ops Hop _ IH]; intros b Hr; simpl; [done|].
  apply IH. by apply rb_step.
Qed.

Lemma demo_reachable : reachable_builder demo_builder.
Proof. apply reachable_run; [constructor|]. by repeat constructor. Qed.

Lemma build_adjacency_witness :
  cb_state_overflow demo_builder = None ∧
  ∃ c, build demo_builder = Some (Ok c) ∧ clts_ok c ∧
    state_count c = length (cb_state_names demo_builder) ∧
    ∀ s, s < state_count c →
      outgoing c s = specs_from s (cb_transitions demo_builder) ∧
      incoming c s = specs_to s (cb_transitions demo_builder).
Proof.
  split; [reflexivity|]. apply build_adjacency; [apply demo_reachable|reflexivity].
Defined.

Lemma demo_build : build demo_builder = Some (Ok demo_clts).
Proof. vm_compute. reflexivity. Qed.

Lemma demo_clts_ok : clts_ok demo_clts.
Proof. eapply build_ok; [apply reachable_builder_ok, demo_reachable|apply demo_build]. Qed.

Lemma build_controllability_witness :
  map (is_uncontrollable demo_clts) (outgoing demo_clts 0 ++ outgoing demo_clts 1)
    = [true; true; false] ∧
  (∀ t, t ∈ outgoing demo_clts 0 →
     is_controllable demo_clts t = negb (is_uncontrollable demo_clts t)) ∧
  (∀ key i, i ∈ default [] (transitions_grouped_by_uncontrollable_labels demo_clts 0 !! key) ↔
     ∃ t, outgoing demo_clts 0 !! i = Some t ∧ is_uncontrollable demo_clts t = true ∧
       label_set t = key) ∧
  (∀ key, transitions_grouped_by_uncontrollable_labels demo_clts 0 !! key ≠ Some []).
Proof.
  split; [vm_compute; reflexivity|].
  apply (build_controllability demo_builder demo_clts 0); [apply demo_reachable|apply demo_build].
Defined.

Lemma intern_canonical_witness :
  ∃ b1 b2, intern (cb_labels demo_builder) ["ack"; "grant"; "ack"] = (Ok 1, b1) ∧
  intern b1 ["grant"; "ack"] = (Ok 1, b2) ∧
  (1 = 1 ↔ ∀ l, l ∈ ["ack"; "grant"; "ack"] ↔ l ∈ ["grant"; "ack"]) ∧
  store_get (label_build b2) 1 = Some (canon ["ack"; "grant"; "ack"]) ∧
  (∃ bits, u_bitsets (label_build b2) !! 1 = Some bits ∧
     (bitset_test (label_build b2) bits "ack" = true ↔ "ack" ∈ ["ack"; "grant"; "ack"])).
Proof.
  eexists _, _. split; [vm_compute; reflexivity|]. split; [vm_compute; reflexivity|].
  eapply (intern_canonical demo_builder); [apply demo_reachable|vm_compute; reflexivity..].
Defined.
