(* ===== verification/Modal.v ===== *)
(** The modal operators of [mu_calculus/evaluator.rs]: one step of a diamond or
    a box at one state, on the two-valued and on the three-valued path.

    [modal_exists] and [modal_forall] decide an unbounded modality,
    [modal_exists_bounded] and [modal_forall_bounded] a modality with
    [steps = k], and [modal_trit_core] the per-player three-valued rule.  Every
    hash map the source groups transitions in is a [gmap]; the source only asks
    whether some or all of its values satisfy a test, so their order is
    immaterial: [values] and [group_by] are in the prelude. *)
From S2P Require Import Prelude Formula Trit Clts.

(** ** Guards *)

(** [vars.contains] over required and forbidden names ([state] is the state
    whose variables are read). *)
Definition required_ok (c : Clts) (state : StateId) (names : list string) : bool :=
  forallb (state_variable_contains c state) names.
Definition forbidden_ok (c : Clts) (state : StateId) (names : list string) : bool :=
  forallb (λ v, negb (state_variable_contains c state v)) names.

Definition guard_matches_labels_and_vars (c : Clts) (source : StateId) (t : Transition)
    (g : Guard) : bool :=
  (match g_labels g with
   | [] => true
   | wanted => existsb (λ w, existsb (λ l, label_test c l w) (t_labels t)) wanted
   end)
  && (required_ok c source (required (g_current g)) && forbidden_ok c source (forbidden (g_current g)))
  && (required_ok c (target t) (required (g_next g)) && forbidden_ok c (target t) (forbidden (g_next g))).

Definition guard_current_matches (c : Clts) (state : StateId) (g : Guard) : bool :=
  required_ok c state (required (g_current g)) && forbidden_ok c state (forbidden (g_current g)).

Definition guard_zero_step_allowed (g : Guard) : bool :=
  match g_labels g, required (g_next g), forbidden (g_next g) with
  | [], [], [] => true
  | _, _, _ => false
  end.

(** ** Guard partitions *)

Definition GuardSignature : Type :=
  list string * list string * list string * list string * list string * option nat.

Definition GuardSignature_new (g : Guard) : GuardSignature :=
  (canon (g_labels g), canon (required (g_current g)), canon (forbidden (g_current g)),
   canon (required (g_next g)), canon (forbidden (g_next g)), max_steps g).

Record GuardPartitions := {
  gp_current_required : list bool;
  gp_current_forbidden : list bool;
  gp_next_required : list bool;
  gp_next_forbidden : list bool
}.

Definition GuardPartitions_new (g : Guard) (c : Clts) : GuardPartitions :=
  let n := state_count c in
  {| gp_current_required := bv_tabulate n (λ s, required_ok c s (required (g_current g)));
     gp_current_forbidden := bv_tabulate n (λ s, forbidden_ok c s (forbidden (g_current g)));
     gp_next_required := bv_tabulate n (λ s, required_ok c s (required (g_next g)));
     gp_next_forbidden := bv_tabulate n (λ s, forbidden_ok c s (forbidden (g_next g))) |}.

Definition matches_current (p : GuardPartitions) (idx : nat) : bool :=
  bit (gp_current_required p) idx && bit (gp_current_forbidden p) idx.
Definition matches_next (p : GuardPartitions) (idx : nat) : bool :=
  bit (gp_next_required p) idx && bit (gp_next_forbidden p) idx.

(** [guard_parts.is_none_or(..)] *)
Definition parts_current (parts : option GuardPartitions) (idx : nat) : bool :=
  match parts with Some p => matches_current p idx | None => true end.
Definition parts_next (parts : option GuardPartitions) (idx : nat) : bool :=
  match parts with Some p => matches_next p idx | None => true end.

(** ** Modality filters and hyper-target coverage *)

Inductive TransitionModalityFilter := All | MustOnly.

#[export] Instance TransitionModalityFilter_eq_dec : EqDecision TransitionModalityFilter.
Proof. solve_decision. Defined.

Definition allows (f : TransitionModalityFilter) (t : Transition) : bool :=
  match f with
  | All => true
  | MustOnly => match modality t with MayOnly => false | _ => true end
  end.

Definition transition_target_in_set_diamond (t : Transition) (targets : list bool) : bool :=
  match modality t with
  | MustHyperOnly hyper =>
      if 1 <? length hyper then existsb (bit targets) hyper else bit targets (target t)
  | _ => bit targets (target t)
  end.

Definition transition_target_in_set_box (t : Transition) (targets : list bool) : bool :=
  match modality t with
  | MustHyperOnly hyper =>
      if 1 <? length hyper then forallb (bit targets) hyper else bit targets (target t)
  | _ => bit targets (target t)
  end.

(** ** Grouping *)

(** [labels.extend(payload)] over the labels of a transition, then [sort]. *)
Definition transition_label_set (c : Clts) (t : Transition) : list string :=
  sort_strings (concat (map (λ l, default [] (label_payload c l)) (t_labels t))).

(** The key [full_label_set.join(",")]. *)
Definition label_key (c : Clts) (t : Transition) : string :=
  String.concat "," (transition_label_set c t).

Definition extract_uncontrollable_label_ids (c : Clts) (t : Transition) : list LabelId :=
  merge_sort (≤) (List.filter (is_uncontrollable_label c) (t_labels t)).

Definition edge_admitted (c : Clts) (state : StateId) (g : Guard) (parts : option GuardPartitions)
    (f : TransitionModalityFilter) (t : Transition) : bool :=
  allows f t && guard_matches_labels_and_vars c state t g && parts_next parts (target t).

(** Looks the indices of a group up in the outgoing row and keeps the admitted
    transitions; groups left empty are not inserted. *)
Definition filter_group (c : Clts) (ts : list Transition) (admitted : Transition → bool)
    (idxs : list nat) : option (list (Transition * nat)) :=
  let kept := omap (λ idx,
    match ts !! idx with
    | Some t => if admitted t then Some (t, idx) else None
    | None => None
    end) idxs in
  match kept with [] => None | _ => Some kept end.

Definition group_transitions_by_uncontrollable_labels (c : Clts) (ts : list Transition) (g : Guard)
    (state : StateId) (parts : option GuardPartitions) (f : TransitionModalityFilter)
    : gmap (list LabelId) (list (Transition * nat)) :=
  omap (filter_group c ts (edge_admitted c state g parts f))
    (transitions_grouped_by_uncontrollable_labels c state).

(** ** Unbounded diamond and box *)

(** A sub-group of transitions with the same labels: all the controllable ones
    must satisfy, or, when there is none, all the uncontrollable ones. *)
Definition subgroup_satisfies (c : Clts) (sat : Transition → bool) (sub : list (Transition * nat))
    : bool :=
  match List.filter (λ x, is_controllable c x.1) sub with
  | [] => forallb (λ x, sat x.1) (List.filter (λ x, is_uncontrollable c x.1) sub)
  | controllable => forallb (λ x, sat x.1) controllable
  end.

Definition in_uncontrollable_group {A} (c : Clts) (groups : gmap (list LabelId) A)
    (t : Transition) : bool :=
  match extract_uncontrollable_label_ids c t with
  | [] => false
  | ids => match groups !! ids with Some _ => true | None => false end
  end.

(** A class of the second grouping (all admitted transitions by label set). *)
Definition class_satisfies (c : Clts) {A} (groups : gmap (list LabelId) A) (sat : Transition → bool)
    (cls : list (Transition * nat)) : bool :=
  match cls with
  | [] => false
  | (first, _) :: _ =>
    if in_uncontrollable_group c groups first then false
    else
      match List.filter (λ x, is_controllable c x.1) cls with
      | [] =>
        match List.filter (λ x, is_uncontrollable c x.1) cls with
        | [] => false
        | unc => forallb (λ x, sat x.1) unc
        end
      | con => forallb (λ x, sat x.1) con
      end
  end.

(** The extra rules of [<ctrl = environment>]. *)
Definition environment_diamond (c : Clts) (admitted sat : Transition → bool)
    (ts : list Transition) : bool :=
  let unc := List.filter (λ t, is_uncontrollable c t && admitted t) ts in
  let con := List.filter (λ t, is_controllable c t && admitted t) ts in
  existsb sat unc
  || (let ctrl_seen := negb (null con) in
      (ctrl_seen && forallb sat con) || negb ctrl_seen).

Definition modal_exists (c : Clts) (state : StateId) (g : Guard) (targets : list bool)
    (parts : option GuardPartitions) (f : TransitionModalityFilter) : bool :=
  if negb (parts_current parts state) then false
  else
    let ts := outgoing c state in
    let admitted := edge_admitted c state g parts f in
    match g_control g with
    | Control_All =>
      existsb (λ t, admitted t &&
        match f with
        | MustOnly => transition_target_in_set_box t targets
        | All => transition_target_in_set_diamond t targets
        end) ts
    | ctrl =>
      let sat t := transition_target_in_set_diamond t targets in
      let groups := group_transitions_by_uncontrollable_labels c ts g state parts f in
      let any_group_satisfies :=
        existsb (λ grp, existsb (subgroup_satisfies c sat)
                          (values (group_by (λ x, label_key c x.1) grp))) (values groups) in
      let all_by_label_set :=
        group_by (λ x, label_key c x.1)
          (List.filter (λ x, admitted x.1) (imap (λ idx t, (t, idx)) ts)) in
      existsb (class_satisfies c groups sat) (values all_by_label_set)
      || any_group_satisfies
      || match ctrl with Environment => environment_diamond c admitted sat ts | _ => false end
    end.

Definition modal_forall (c : Clts) (state : StateId) (g : Guard) (targets : list bool)
    (parts : option GuardPartitions) (f : TransitionModalityFilter) : bool :=
  if negb (parts_current parts state) then true
  else
    let ts := outgoing c state in
    let admitted := edge_admitted c state g parts f in
    let groups := group_transitions_by_uncontrollable_labels c ts g state parts f in
    let box t := transition_target_in_set_box t targets in
    match g_control g with
    | Control_All =>
      forallb (λ grp, forallb (λ x, bit targets (target x.1)) grp) (values groups)
      && forallb (λ t, negb (admitted t && is_controllable c t) || in_uncontrollable_group c groups t
                       || box t) ts
      && (if bool_decide (groups = ∅) then forallb (λ t, negb (admitted t) || box t) ts else true)
    | Controllable =>
      forallb (λ grp, forallb (λ x, box x.1) grp) (values groups)
      && (let con := List.filter (λ t, admitted t && is_controllable c t) ts in
          if null con then true else existsb box con)
    | Environment => forallb (λ t, negb (admitted t) || box t) ts
    end.

(** ** Bounded diamond and box *)

Definition step_admitted (c : Clts) (state : StateId) (g : Guard) (f : TransitionModalityFilter)
    (t : Transition) : bool :=
  guard_matches_labels_and_vars c state t g && allows f t.

(** The breadth-first fallback: a queue of (state, depth) pairs and the visited
    table.  Queueing the admitted successors of a popped pair. *)
Definition bfs_push (bound depth : nat) (acc : gset (nat * nat) * list (nat * nat)) (nxt : StateId)
    : gset (nat * nat) * list (nat * nat) :=
  let '(visited, queue) := acc in
  let next_depth := S depth in
  if (next_depth <=? bound) && negb (bool_decide ((nxt, next_depth) ∈ visited))
  then ({[(nxt, next_depth)]} ∪ visited,
        if next_depth <? bound then queue ++ [(nxt, next_depth)] else queue)
  else (visited, queue).

Definition bfs_successors (c : Clts) (g : Guard) (f : TransitionModalityFilter) (current : StateId)
    : list StateId :=
  map target (List.filter (step_admitted c current g f) (outgoing c current)).

Fixpoint bfs_exists (fuel : nat) (c : Clts) (g : Guard) (targets : list bool)
    (f : TransitionModalityFilter) (bound : nat) (visited : gset (nat * nat))
    (queue : list (nat * nat)) : option bool :=
  match queue with
  | [] => Some false
  | (current, depth) :: rest =>
    match fuel with
    | O => None
    | S k =>
      if bound <? depth then bfs_exists k c g targets f bound visited rest
      else if (0 <? depth) && bit targets current then Some true
      else if depth =? bound then bfs_exists k c g targets f bound visited rest
      else
        let succs := bfs_successors c g f current in
        if existsb (bit targets) succs then Some true
        else
          let '(visited', queue') := foldl (bfs_push bound depth) (visited, rest) succs in
          bfs_exists k c g targets f bound visited' queue'
    end
  end.

Fixpoint bfs_forall (fuel : nat) (c : Clts) (g : Guard) (targets : list bool)
    (f : TransitionModalityFilter) (bound : nat) (visited : gset (nat * nat))
    (queue : list (nat * nat)) : option bool :=
  match queue with
  | [] => Some true
  | (current, depth) :: rest =>
    match fuel with
    | O => None
    | S k =>
      if depth =? bound then bfs_forall k c g targets f bound visited rest
      else
        let succs := bfs_successors c g f current in
        if forallb (bit targets) succs then
          let '(visited', queue') := foldl (bfs_push bound depth) (visited, rest) succs in
          bfs_forall k c g targets f bound visited' queue'
        else Some false
    end
  end.

(** Each pop was pushed once, and each push marks a fresh cell of the
    [state_count × (bound + 1)] table: this fuel is never exhausted. *)
Definition bfs_fuel (c : Clts) (bound : nat) : nat := S (state_count c * S bound).

Fixpoint modal_exists_bounded (c : Clts) (g : Guard) (targets : list bool)
    (f : TransitionModalityFilter) (bound : nat) (state : StateId) {struct bound} : bool :=
  match bound with
  | O => guard_zero_step_allowed g && guard_current_matches c state g && bit targets state
  | S b =>
    if negb (guard_current_matches c state g) then false
    else
      let ts := outgoing c state in
      let can t := bit targets (target t)
        || (if 0 <? b then modal_exists_bounded c g targets f b (target t) else false) in
      let groups := group_transitions_by_uncontrollable_labels c ts g state None f in
      let no_groups := bool_decide (groups = ∅) in
      let any_group_has_satisfying_subgroup :=
        existsb (λ grp, existsb (subgroup_satisfies c can)
                          (values (group_by (λ x, label_key c x.1) grp))) (values groups) in
      if negb any_group_has_satisfying_subgroup && negb no_groups then false
      else if existsb (λ t, is_controllable c t && step_admitted c state g f t
                            && negb (in_uncontrollable_group c groups t) && can t) ts then true
      else if negb no_groups then true
      else default false
             (bfs_exists (bfs_fuel c bound) c g targets f bound {[(state, 0)]} [(state, 0)])
  end.

(** [modal_forall_bounded_controllable_rec]: the memo table is threaded through
    every call. *)
Definition BoundedMemo : Type := gmap (StateId * nat) bool.

Fixpoint all_next_ok (targets : list bool) (rec : StateId → BoundedMemo → bool * BoundedMemo)
    (ts : list Transition) (memo : BoundedMemo) : bool * BoundedMemo :=
  match ts with
  | [] => (true, memo)
  | t :: rest =>
    let '(ok, memo') := if bit targets (target t) then rec (target t) memo else (false, memo) in
    if ok then all_next_ok targets rec rest memo' else (false, memo')
  end.

Fixpoint some_next_ok (targets : list bool) (rec : StateId → BoundedMemo → bool * BoundedMemo)
    (ts : list Transition) (memo : BoundedMemo) : bool * BoundedMemo :=
  match ts with
  | [] => (false, memo)
  | t :: rest =>
    let '(ok, memo') := if bit targets (target t) then rec (target t) memo else (false, memo) in
    let '(ok_rest, memo'') := some_next_ok targets rec rest memo' in
    (ok || ok_rest, memo'')
  end.

Definition grouped_transitions (groups : gmap (list LabelId) (list (Transition * nat)))
    : list Transition := map fst (concat (values groups)).

Fixpoint modal_forall_bounded_controllable_rec (c : Clts) (g : Guard) (targets : list bool)
    (f : TransitionModalityFilter) (remaining : nat) (state : StateId) (memo : BoundedMemo)
    {struct remaining} : bool * BoundedMemo :=
  match memo !! (state, remaining) with
  | Some value => (value, memo)
  | None =>
    if negb (guard_current_matches c state g) then (false, <[(state, remaining) := false]> memo)
    else
      let '(result, memo') :=
        match remaining with
        | O => (guard_zero_step_allowed g && bit targets state, memo)
        | S r =>
          let ts := outgoing c state in
          let groups := group_transitions_by_uncontrollable_labels c ts g state None f in
          let rec := modal_forall_bounded_controllable_rec c g targets f r in
          let '(unc_ok, m1) := all_next_ok targets rec (grouped_transitions groups) memo in
          if unc_ok then
            let con := List.filter (λ t, step_admitted c state g f t && is_controllable c t) ts in
            let '(ctrl_satisfied, m2) := some_next_ok targets rec con m1 in
            (if null con then true else ctrl_satisfied, m2)
          else (false, m1)
        end in
      (result, <[(state, remaining) := result]> memo')
  end.

Definition modal_forall_bounded_controllable (c : Clts) (state : StateId) (g : Guard)
    (targets : list bool) (bound : nat) (f : TransitionModalityFilter) : bool :=
  (modal_forall_bounded_controllable_rec c g targets f bound state ∅).1.

Fixpoint modal_forall_bounded (c : Clts) (g : Guard) (targets : list bool)
    (f : TransitionModalityFilter) (bound : nat) (state : StateId) {struct bound} : bool :=
  match bound with
  | O => guard_zero_step_allowed g && guard_current_matches c state g && bit targets state
  | S b =>
    if negb (guard_current_matches c state g) then false
    else if bool_decide (g_control g = Controllable)
    then modal_forall_bounded_controllable c state g targets bound f
    else
      let ts := outgoing c state in
      let groups := group_transitions_by_uncontrollable_labels c ts g state None f in
      let stays t := bit targets (target t)
        && (if 0 <? b then modal_forall_bounded c g targets f b (target t) else true) in
      forallb (λ grp, forallb (λ x, stays x.1) grp) (values groups)
      && forallb (λ t, negb (is_controllable c t && step_admitted c state g f t)
                       || in_uncontrollable_group c groups t || stays t) ts
      && (if bool_decide (groups = ∅)
          then default true
                 (bfs_forall (bfs_fuel c bound) c g targets f bound {[(state, 0)]} [(state, 0)])
          else true)
  end.

Definition eval_modal_bounded (c : Clts) (kind : ModalKind) (g : Guard) (target_set : list bool)
    (bound : nat) (f : TransitionModalityFilter) : list bool :=
  bv_tabulate (state_count c) (λ s,
    match kind with
    | Diamond => modal_exists_bounded c g target_set f bound s
    | Box => modal_forall_bounded c g target_set f bound s
    end).

(** The result of an unbounded modality, state by state. *)
Definition eval_modal_unbounded (c : Clts) (kind : ModalKind) (g : Guard) (target_set : list bool)
    (parts : option GuardPartitions) (f : TransitionModalityFilter) : list bool :=
  bv_tabulate (state_count c) (λ s,
    match kind with
    | Diamond => modal_exists c s g target_set parts f
    | Box => modal_forall c s g target_set parts f
    end).

(** ** The per-player three-valued rule *)

Record EdgeFacts := {
  controllable : bool;
  is_must_edge : bool;
  reaches_must : bool;
  reaches_may : bool
}.

Definition reaches (e : EdgeFacts) (def : bool) : bool :=
  if def then reaches_must e else reaches_may e.
Definition in_subset (e : EdgeFacts) (ctrl : option bool) (must : bool) : bool :=
  (match ctrl with Some b => Bool.eqb (controllable e) b | None => true end)
  && (negb must || is_must_edge e).
Definition ef_exists (edges : list EdgeFacts) (ctrl : option bool) (must def : bool) : bool :=
  existsb (λ e, in_subset e ctrl must && reaches e def) edges.
Definition ef_forall (edges : list EdgeFacts) (ctrl : option bool) (must def : bool) : bool :=
  forallb (λ e, negb (in_subset e ctrl must) || reaches e def) edges.

Definition modal_trit_core (kind : ModalKind) (ctl : Control) (edges : list EdgeFacts) : Trit :=
  let exists_ := ef_exists edges in
  let forall_ := ef_forall edges in
  let env := Some false in
  let ctrl := Some true in
  let has_ctrl := existsb controllable edges in
  let verdict (must_good may_good : bool) :=
    if must_good then Trit_True else if may_good then Trit_Unknown else Trit_False in
  match ctl with
  | Control_All =>
    match kind with
    | Diamond => verdict (exists_ None true true) (exists_ None false false)
    | Box => verdict (forall_ None false true) (forall_ None true false)
    end
  | Controllable =>
    verdict (forall_ env false true && (exists_ ctrl true true || negb has_ctrl))
            (forall_ env true false && (exists_ ctrl false false || negb has_ctrl))
  | Environment =>
    verdict (exists_ env true true || (has_ctrl && forall_ ctrl false true))
            (exists_ env false false || (has_ctrl && forall_ ctrl true false))
  end.

Definition edge_facts (c : Clts) (must_set may_set : list bool) (t : Transition) : EdgeFacts :=
  {| controllable := is_controllable c t;
     is_must_edge := match modality t with MayOnly => false | _ => true end;
     reaches_must := transition_target_in_set_box t must_set;
     reaches_may := transition_target_in_set_diamond t may_set |}.

Definition modal_edges (c : Clts) (s : StateId) (g : Guard) (parts : option GuardPartitions)
    (tset : TritSet) : list EdgeFacts :=
  map (edge_facts c (must_true tset) (may_true tset))
    (List.filter (λ t, guard_matches_labels_and_vars c s t g && parts_next parts (target t))
       (outgoing c s)).

Definition modal_trit_from_target (c : Clts) (kind : ModalKind) (g : Guard)
    (parts : option GuardPartitions) (tset : TritSet) : TritSet :=
  let verdicts := map (λ s, modal_trit_core kind (g_control g) (modal_edges c s g parts tset))
                    (states c) in
  from_parts (map (λ v, bool_decide (v = Trit_True)) verdicts)
             (map (λ v, negb (bool_decide (v = Trit_False))) verdicts).

(** [oob_bits]: the states marked as the out-of-bounds sink. *)
Definition compute_oob_bits (c : Clts) : list bool :=
  bv_tabulate (state_count c) (λ s,
    match state_valuation c s with
    | Some v => bool_decide (v !! "__mununu_oob__" = Some "true")
    | None => false
    end).

(** * Lemmas *)

(** ** Guards and partitions *)

Lemma required_ok_canon c s names names' :
  canon names = canon names' → required_ok c s names = required_ok c s names'.
Proof.
  intros Hn. pose proof (canon_inj _ _ Hn) as H.
  apply bool_eq_iff. unfold required_ok. rewrite !forallb_spec. split; intros Hf v Hv; apply Hf, H, Hv.
Qed.

Lemma forbidden_ok_canon c s names names' :
  canon names = canon names' → forbidden_ok c s names = forbidden_ok c s names'.
Proof.
  intros Hn. pose proof (canon_inj _ _ Hn) as H.
  apply bool_eq_iff. unfold forbidden_ok. rewrite !forallb_spec. split; intros Hf v Hv; apply Hf, H, Hv.
Qed.

(** Guards with the same signature have the same partitions. *)
Lemma signature_partitions c g g' :
  GuardSignature_new g = GuardSignature_new g' → GuardPartitions_new g c = GuardPartitions_new g' c.
Proof.
  unfold GuardSignature_new. intros H; simplify_eq.
  unfold GuardPartitions_new, bv_tabulate. f_equal; apply map_ext; intros s;
    by (apply required_ok_canon || apply forbidden_ok_canon).
Qed.

Definition parts_ok (c : Clts) (g : Guard) (parts : option GuardPartitions) : Prop :=
  parts = None ∨ parts = Some (GuardPartitions_new g c).

Lemma parts_current_spec c g parts s :
  parts_ok c g parts → s < state_count c →
  parts_current parts s = false → guard_current_matches c s g = false.
Proof.
  intros [->| ->] Hs; [done|]. simpl. unfold matches_current, GuardPartitions_new; simpl.
  rewrite !bit_tabulate by done. done.
Qed.

Lemma guard_matches_current c s t g :
  guard_matches_labels_and_vars c s t g = true → guard_current_matches c s g = true.
Proof. unfold guard_matches_labels_and_vars. rewrite !andb_true_iff. unfold guard_current_matches. rewrite andb_true_iff. tauto. Qed.

Lemma parts_next_spec c g parts s t :
  parts_ok c g parts → target t < state_count c →
  guard_matches_labels_and_vars c s t g = true → parts_next parts (target t) = true.
Proof.
  intros [->| ->] Ht; [done|]. simpl. unfold matches_next, GuardPartitions_new; simpl.
  rewrite !bit_tabulate by done. unfold guard_matches_labels_and_vars.
  rewrite !andb_true_iff. tauto.
Qed.

Lemma edge_admitted_spec c s g parts f t :
  clts_ok c → parts_ok c g parts → t ∈ outgoing c s →
  edge_admitted c s g parts f t = step_admitted c s g f t.
Proof.
  intros Hok Hp Ht. unfold edge_admitted, step_admitted.
  destruct (allows f t), (guard_matches_labels_and_vars c s t g) eqn:Hg; simpl; try done.
  by rewrite (parts_next_spec c g parts s t Hp (ok_target _ Hok _ _ Ht) Hg).
Qed.

(** No edge is admitted where the current-state partition rejects the state. *)
Lemma parts_current_blocks c s g parts f t :
  parts_ok c g parts → s < state_count c → parts_current parts s = false →
  step_admitted c s g f t = false.
Proof.
  intros Hp Hs Hc. apply (parts_current_spec c g parts s Hp Hs) in Hc.
  unfold step_admitted. destruct (guard_matches_labels_and_vars c s t g) eqn:Hg; [|done].
  apply guard_matches_current in Hg. congruence.
Qed.

(** ** Groups *)

Lemma filter_group_spec c ts adm idxs t i :
  (t, i) ∈ default [] (filter_group c ts adm idxs) ↔ i ∈ idxs ∧ ts !! i = Some t ∧ adm t = true.
Proof.
  unfold filter_group.
  match goal with |- context [omap ?f idxs] => set (kept := omap f idxs) end.
  assert (Hk : (t, i) ∈ kept ↔ i ∈ idxs ∧ ts !! i = Some t ∧ adm t = true).
  { unfold kept. rewrite list_elem_of_omap. split.
    - intros (j & Hj & H). repeat case_match; naive_solver.
    - intros (Hi & Ht & Ha). exists i. by rewrite Ht, Ha. }
  by destruct kept.
Qed.

Lemma groups_spec c s g parts f key t i :
  clts_ok c → parts_ok c g parts →
  (t, i) ∈ default [] (group_transitions_by_uncontrollable_labels c (outgoing c s) g s parts f !! key)
  ↔ outgoing c s !! i = Some t ∧ is_uncontrollable c t = true ∧ label_set t = key
    ∧ step_admitted c s g f t = true.
Proof.
  intros Hok Hp. unfold group_transitions_by_uncontrollable_labels.
  rewrite lookup_omap, (groups_eq c s Hok).
  destruct (group_transitions_spec (uncontrollable_alphabet c) (outgoing c s) key) as [Hin _].
  set (G := group_transitions _ _) in *.
  assert (Heq : (t, i) ∈ default [] (G !! key ≫= filter_group c (outgoing c s) (edge_admitted c s g parts f))
    ↔ i ∈ default [] (G !! key) ∧ outgoing c s !! i = Some t ∧ edge_admitted c s g parts f t = true).
  { destruct (G !! key); simpl; [apply filter_group_spec|]. rewrite !elem_of_nil. tauto. }
  rewrite Heq, Hin. split.
  - intros ((t' & Ht & Hu & Hl) & Ht' & Ha). simplify_eq.
    rewrite edge_admitted_spec in Ha by eauto using list_elem_of_lookup_2.
    by rewrite should_group_spec in Hu.
  - intros (Ht & Hu & Hl & Ha). rewrite edge_admitted_spec by eauto using list_elem_of_lookup_2.
    split; [|done]. exists t. by rewrite should_group_spec.
Qed.

Lemma groups_nonempty c ts g s parts f key :
  group_transitions_by_uncontrollable_labels c ts g s parts f !! key ≠ Some [].
Proof.
  unfold group_transitions_by_uncontrollable_labels. rewrite lookup_omap.
  destruct (_ !! key) as [l|]; simpl; [|done]. unfold filter_group. by case_match.
Qed.

(** Quantifying over the groups quantifies over the admitted uncontrollable
    transitions. *)
Lemma grouped_forall c s g parts f (P : Transition → bool) :
  clts_ok c → parts_ok c g parts →
  forallb (λ grp, forallb (λ x, P x.1) grp)
    (values (group_transitions_by_uncontrollable_labels c (outgoing c s) g s parts f)) = true
  ↔ ∀ t, t ∈ outgoing c s → is_uncontrollable c t = true → step_admitted c s g f t = true →
      P t = true.
Proof.
  intros Hok Hp. rewrite forallb_spec. setoid_rewrite elem_of_values. setoid_rewrite forallb_spec.
  split.
  - intros H t Ht Hu Ha. apply list_elem_of_lookup in Ht as [i Hi].
    pose proof (proj2 (groups_spec c s g parts f (label_set t) t i Hok Hp)) as Hg.
    destruct (group_transitions_by_uncontrollable_labels _ _ _ _ _ _ !! label_set t) as [grp|] eqn:E.
    + simpl in Hg. apply (H grp ltac:(eauto) (t, i)). by apply Hg.
    + simpl in Hg. by destruct (not_elem_of_nil (t, i)); apply Hg.
  - intros H grp [key Hk] [t i] Hin.
    pose proof (proj1 (groups_spec c s g parts f key t i Hok Hp)) as Hg. rewrite Hk in Hg.
    destruct (Hg Hin) as (? & ? & ? & ?). apply H; eauto using list_elem_of_lookup_2.
Qed.

Lemma groups_empty c s g parts f :
  clts_ok c → parts_ok c g parts →
  group_transitions_by_uncontrollable_labels c (outgoing c s) g s parts f = ∅ ↔
  ∀ t, t ∈ outgoing c s → is_uncontrollable c t = true → step_admitted c s g f t = false.
Proof.
  intros Hok Hp. split.
  - intros He t Ht Hu. destruct (step_admitted c s g f t) eqn:Ha; [|done].
    apply list_elem_of_lookup in Ht as [i Hi].
    pose proof (proj2 (groups_spec c s g parts f (label_set t) t i Hok Hp)) as Hg.
    rewrite He, lookup_empty in Hg. by destruct (not_elem_of_nil (t, i)); apply Hg.
  - intros H. apply map_empty. intros key.
    destruct (_ !! key) as [[|[t i] grp]|] eqn:E; [by apply groups_nonempty in E| |done].
    pose proof (proj1 (groups_spec c s g parts f key t i Hok Hp)) as Hg. rewrite E in Hg.
    destruct (Hg ltac:(left)) as (? & Hu & _ & Ha).
    rewrite H in Ha; eauto using list_elem_of_lookup_2. done.
Qed.

(** A controllable transition carries no uncontrollable label, so it is never
    looked up in the groups. *)
Lemma controllable_no_uncontrollable c s t :
  clts_ok c → t ∈ outgoing c s → is_controllable c t = true →
  extract_uncontrollable_label_ids c t = [].
Proof.
  intros Hok Ht Hc. rewrite (controllable_xor c s t Hok Ht) in Hc. apply negb_true_iff in Hc.
  unfold extract_uncontrollable_label_ids.
  assert (He : List.filter (is_uncontrollable_label c) (t_labels t) = []); [|by rewrite He].
  unfold is_uncontrollable in Hc. destruct (t_labels t) as [|l0 ls]; [done|].
  revert Hc. generalize (l0 :: ls). clear. induction l as [|l ls IH]; simpl; [done|].
  destruct (is_uncontrollable_label c l); simpl; [done|apply IH].
Qed.

Lemma controllable_not_grouped {A} (c : Clts) (s : StateId) (t : Transition) (groups : gmap (list LabelId) A) :
  clts_ok c → t ∈ outgoing c s → is_controllable c t = true →
  in_uncontrollable_group c groups t = false.
Proof.
  intros. unfold in_uncontrollable_group.
  by erewrite controllable_no_uncontrollable by eauto.
Qed.

(** ** The unbounded operators, edge by edge *)

Definition coverage (f : TransitionModalityFilter) (t : Transition) (targets : list bool) : bool :=
  match f with
  | MustOnly => transition_target_in_set_box t targets
  | All => transition_target_in_set_diamond t targets
  end.

Lemma modal_exists_all c s g T parts f :
  clts_ok c → parts_ok c g parts → s < state_count c → g_control g = Control_All →
  modal_exists c s g T parts f =
  existsb (λ t, step_admitted c s g f t && coverage f t T) (outgoing c s).
Proof.
  intros Hok Hp Hs Hc. unfold modal_exists. destruct (parts_current parts s) eqn:Hcur; simpl.
  - rewrite Hc. apply existsb_ext_in. intros t Ht. by rewrite edge_admitted_spec.
  - symmetry. apply not_true_is_false. rewrite existsb_spec. intros (t & _ & Ht).
    by rewrite (parts_current_blocks c s g parts f t Hp Hs Hcur) in Ht.
Qed.

(** The target a box reads: the recorded one for an uncontrollable transition,
    every hyper-target otherwise. *)
Definition box_reads (c : Clts) (t : Transition) (targets : list bool) : bool :=
  if is_uncontrollable c t then bit targets (target t) else transition_target_in_set_box t targets.

Lemma modal_forall_all c s g T parts f :
  clts_ok c → parts_ok c g parts → s < state_count c → g_control g = Control_All →
  modal_forall c s g T parts f =
  forallb (λ t, negb (step_admitted c s g f t) || box_reads c t T) (outgoing c s).
Proof.
  intros Hok Hp Hs Hc. unfold modal_forall. destruct (parts_current parts s) eqn:Hcur; simpl.
  2:{ symmetry. apply forallb_spec. intros t _.
      by rewrite (parts_current_blocks c s g parts f t Hp Hs Hcur). }
  rewrite Hc. apply bool_eq_iff. rewrite !andb_true_iff.
  rewrite (grouped_forall c s g parts f (λ t, bit T (target t)) Hok Hp), !forallb_spec.
  assert (Hxor : ∀ t, t ∈ outgoing c s → is_controllable c t = negb (is_uncontrollable c t)).
  { intros. by eapply controllable_xor. }
  split.
  - intros [[Hu Hcon] _] t Ht. specialize (Hu t Ht). specialize (Hcon t Ht).
    specialize (Hxor t Ht). rewrite edge_admitted_spec in Hcon by done. unfold box_reads.
    destruct (step_admitted c s g f t); simpl in *; [|done].
    destruct (is_uncontrollable c t) eqn:E; [by apply Hu|].
    rewrite Hxor in Hcon. by erewrite controllable_not_grouped in Hcon by (rewrite ?Hxor; done).
  - intros H. unfold box_reads in H. split_and!.
    + intros t Ht Hu Ha. specialize (H t Ht). by rewrite Ha, Hu in H.
    + intros t Ht. specialize (H t Ht). rewrite edge_admitted_spec by done. rewrite Hxor by done.
      destruct (step_admitted c s g f t), (is_uncontrollable c t); simpl in *; try done.
      by rewrite H, orb_true_r.
    + case_bool_decide as He; [|done]. rewrite forallb_spec. intros t Ht.
      rewrite edge_admitted_spec by done. rewrite groups_empty in He by done.
      specialize (H t Ht). specialize (He t Ht).
      destruct (step_admitted c s g f t), (is_uncontrollable c t); simpl in *; try done.
      by specialize (He eq_refl).
Qed.

Lemma modal_forall_controllable c s g T parts f :
  clts_ok c → parts_ok c g parts → s < state_count c → g_control g = Controllable →
  modal_forall c s g T parts f = true ↔
  (∀ t, t ∈ outgoing c s → step_admitted c s g f t = true → is_uncontrollable c t = true →
     transition_target_in_set_box t T = true) ∧
  ((∃ t, t ∈ outgoing c s ∧ step_admitted c s g f t = true ∧ is_controllable c t = true ∧
     transition_target_in_set_box t T = true) ∨
   (∀ t, t ∈ outgoing c s → step_admitted c s g f t = true → is_controllable c t = false)).
Proof.
  intros Hok Hp Hs Hc. unfold modal_forall. destruct (parts_current parts s) eqn:Hcur; simpl.
  2:{ split; [intros _|done].
      assert (Hb := λ t, parts_current_blocks c s g parts f t Hp Hs Hcur).
      split; [|right]; intros t _; by rewrite Hb. }
  rewrite Hc, andb_true_iff.
  rewrite (grouped_forall c s g parts f (λ t, transition_target_in_set_box t T) Hok Hp).
  set (con := List.filter _ _).
  assert (Hcon : ∀ t, t ∈ con ↔ t ∈ outgoing c s ∧ step_admitted c s g f t = true
                                ∧ is_controllable c t = true).
  { intros t. unfold con. rewrite elem_of_filterb, andb_true_iff. split.
    - intros (Ht & Ha & Hct). by rewrite edge_admitted_spec in Ha.
    - intros (Ht & Ha & Hct). by rewrite edge_admitted_spec. }
  assert (Hnull : (if null con then true else existsb (λ t, transition_target_in_set_box t T) con)
    = true ↔ (∃ t, t ∈ con ∧ transition_target_in_set_box t T = true) ∨ ∀ t, t ∉ con).
  { clearbody con. destruct con as [|t0 con]; cbn [null].
    - split; [|done]. right. intros t. apply not_elem_of_nil.
    - rewrite existsb_spec. split; [by left|]. intros [?|H]; [done|]. by destruct (H t0); left. }
  rewrite Hnull. setoid_rewrite Hcon. split.
  - intros [H1 H2]. split; [by auto|]. destruct H2 as [(t & ? & ?)|H2]; [left; exists t; tauto|right].
    intros t Ht Ha. apply not_true_is_false. intros Hct. by destruct (H2 t).
  - intros [H1 H2]. split; [by auto|]. destruct H2 as [(t & ? & ? & ? & ?)|H2]; [left; exists t; tauto|right].
    intros t (Ht & Ha & Hct). rewrite H2 in Hct; done.
Qed.

Lemma modal_forall_environment c s g T parts f :
  clts_ok c → parts_ok c g parts → s < state_count c → g_control g = Environment →
  modal_forall c s g T parts f =
  forallb (λ t, negb (step_admitted c s g f t) || transition_target_in_set_box t T) (outgoing c s).
Proof.
  intros Hok Hp Hs Hc. unfold modal_forall. destruct (parts_current parts s) eqn:Hcur; simpl.
  - rewrite Hc. apply forallb_ext_in. intros t Ht. by rewrite edge_admitted_spec.
  - symmetry. apply forallb_spec. intros t _.
    by rewrite (parts_current_blocks c s g parts f t Hp Hs Hcur).
Qed.

(** ** Monotonicity in the target set *)

Lemma coverage_diamond_mono t T T' :
  bv_sub T T' → transition_target_in_set_diamond t T = true →
  transition_target_in_set_diamond t T' = true.
Proof.
  intros Hs. unfold transition_target_in_set_diamond. repeat case_match; auto.
  apply existsb_impl. auto.
Qed.

Lemma coverage_box_mono t T T' :
  bv_sub T T' → transition_target_in_set_box t T = true → transition_target_in_set_box t T' = true.
Proof.
  intros Hs. unfold transition_target_in_set_box. repeat case_match; auto.
  apply forallb_impl. auto.
Qed.

(** Covering every hyper-target covers some. *)
Lemma coverage_box_diamond t T :
  transition_target_in_set_box t T = true → transition_target_in_set_diamond t T = true.
Proof.
  unfold transition_target_in_set_box, transition_target_in_set_diamond.
  repeat case_match; try done. rewrite forallb_spec, existsb_spec. intros H1.
  destruct targets as [|x xs]; [done|]. exists x. split; [left|apply H1; left].
Qed.

#[local] Hint Resolve coverage_diamond_mono coverage_box_mono : core.

Lemma subgroup_mono c (sat sat' : Transition → bool) sub :
  (∀ t, sat t = true → sat' t = true) →
  subgroup_satisfies c sat sub = true → subgroup_satisfies c sat' sub = true.
Proof.
  intros H. unfold subgroup_satisfies. case_match; apply forallb_impl; auto.
Qed.

Lemma class_mono {A} (c : Clts) (groups : gmap (list LabelId) A) (sat sat' : Transition → bool) cls :
  (∀ t, sat t = true → sat' t = true) →
  class_satisfies c groups sat cls = true → class_satisfies c groups sat' cls = true.
Proof.
  intros H. unfold class_satisfies. destruct cls as [|[t0 i0] cls]; [done|].
  repeat case_match; try done; apply forallb_impl; auto.
Qed.

Lemma environment_diamond_mono c adm (sat sat' : Transition → bool) ts :
  (∀ t, sat t = true → sat' t = true) →
  environment_diamond c adm sat ts = true → environment_diamond c adm sat' ts = true.
Proof.
  intros H. unfold environment_diamond. rewrite !orb_true_iff, !andb_true_iff.
  intros [He|[[? Hf]|?]]; [left|right; left|tauto].
  - revert He. apply existsb_impl; auto.
  - split; [done|]. revert Hf. apply forallb_impl; auto.
Qed.

Lemma modal_exists_mono c s g T T' parts f :
  bv_sub T T' → modal_exists c s g T parts f = true → modal_exists c s g T' parts f = true.
Proof.
  intros Hs. unfold modal_exists. destruct (negb _); [done|].
  assert (Hsat : ∀ t, transition_target_in_set_diamond t T = true →
                      transition_target_in_set_diamond t T' = true) by eauto.
  assert (Hgen : ∀ (A : bool → bool → bool → bool) a b e a' b' e', A = (λ a b e, a || b || e) →
    (a = true → a' = true) → (b = true → b' = true) → (e = true → e' = true) →
    A a b e = true → A a' b' e' = true).
  { intros A a b e a' b' e' -> Ha Hb He. rewrite !orb_true_iff. tauto. }
  destruct (g_control g).
  - apply existsb_impl. intros t _. rewrite !andb_true_iff. intros [? ?]. split; [done|].
    destruct f; eauto.
  - apply (Hgen (λ a b e, a || b || e)); [done| | |done].
    + apply existsb_impl. intros cls _. by apply class_mono.
    + apply existsb_impl. intros grp _. apply existsb_impl. intros sub _. by apply subgroup_mono.
  - apply (Hgen (λ a b e, a || b || e)); [done| | |].
    + apply existsb_impl. intros cls _. by apply class_mono.
    + apply existsb_impl. intros grp _. apply existsb_impl. intros sub _. by apply subgroup_mono.
    + by apply environment_diamond_mono.
Qed.

Lemma modal_forall_mono c s g T T' parts f :
  bv_sub T T' → modal_forall c s g T parts f = true → modal_forall c s g T' parts f = true.
Proof.
  intros Hs. unfold modal_forall. destruct (negb _); [done|].
  assert (Hbox : ∀ b t, negb b || transition_target_in_set_box t T = true →
                        negb b || transition_target_in_set_box t T' = true).
  { intros [] t; simpl; eauto. }
  destruct (g_control g).
  - rewrite !andb_true_iff. intros [[H1 H2] H3]. split_and!.
    + revert H1. apply forallb_impl. intros grp _. apply forallb_impl. auto.
    + revert H2. apply forallb_impl. intros t _. rewrite !orb_true_iff. intros [?|?]; eauto.
    + case_bool_decide; [|done]. revert H3. apply forallb_impl. auto.
  - rewrite !andb_true_iff. intros [H1 H2]. split.
    + revert H1. apply forallb_impl. intros grp _. apply forallb_impl. eauto.
    + destruct (null _); [done|]. revert H2. apply existsb_impl. eauto.
  - apply forallb_impl. auto.
Qed.

Lemma eval_modal_unbounded_mono c k g T T' parts f :
  bv_sub T T' → bv_sub (eval_modal_unbounded c k g T parts f) (eval_modal_unbounded c k g T' parts f).
Proof.
  intros Hs i Hi. pose proof (bit_lt _ _ Hi) as Hl. unfold eval_modal_unbounded in *.
  rewrite length_bv_tabulate in Hl. rewrite bit_tabulate in Hi |- * by done.
  destruct k; [by eapply modal_forall_mono|by eapply modal_exists_mono].
Qed.

(** ** The three-valued step *)

(** The truth order: both halves grow. *)
Definition tle (a b : TritSet) : Prop :=
  bv_sub (must_true a) (must_true b) ∧ bv_sub (may_true a) (may_true b).

(** [b] reaches at least what [a] reaches, on the same edge. *)
Definition facts_le (a b : EdgeFacts) : Prop :=
  controllable a = controllable b ∧ is_must_edge a = is_must_edge b ∧
  (reaches_must a = true → reaches_must b = true) ∧ (reaches_may a = true → reaches_may b = true).

Lemma in_subset_facts a b ctrl must : facts_le a b → in_subset a ctrl must = in_subset b ctrl must.
Proof. intros (H1 & H2 & _). unfold in_subset. by rewrite H1, H2. Qed.

Lemma ef_exists_mono es es' ctrl must def :
  Forall2 facts_le es es' → ef_exists es ctrl must def = true → ef_exists es' ctrl must def = true.
Proof.
  intros H. unfold ef_exists. induction H as [|a b es es' Hab _ IH]; simpl; [done|].
  rewrite !orb_true_iff, !andb_true_iff, (in_subset_facts _ _ _ _ Hab).
  destruct Hab as (_ & _ & ? & ?). destruct def; simpl; tauto.
Qed.

Lemma ef_forall_mono es es' ctrl must def :
  Forall2 facts_le es es' → ef_forall es ctrl must def = true → ef_forall es' ctrl must def = true.
Proof.
  intros H. unfold ef_forall. induction H as [|a b es es' Hab _ IH]; simpl; [done|].
  rewrite !andb_true_iff, !orb_true_iff, (in_subset_facts _ _ _ _ Hab).
  destruct Hab as (_ & _ & ? & ?). destruct def; simpl; tauto.
Qed.

Lemma has_ctrl_facts es es' :
  Forall2 facts_le es es' → existsb controllable es = existsb controllable es'.
Proof. induction 1 as [|a b es es' (Hc & _) _ IH]; simpl; [done|]. by rewrite Hc, IH. Qed.

(** The definite and the possible condition of [modal_trit_core]. *)
Definition core_must (kind : ModalKind) (ctl : Control) (es : list EdgeFacts) : bool :=
  let has_ctrl := existsb controllable es in
  match ctl, kind with
  | Control_All, Diamond => ef_exists es None true true
  | Control_All, Box => ef_forall es None false true
  | Controllable, _ =>
      ef_forall es (Some false) false true && (ef_exists es (Some true) true true || negb has_ctrl)
  | Environment, _ =>
      ef_exists es (Some false) true true || (has_ctrl && ef_forall es (Some true) false true)
  end.

Definition core_may (kind : ModalKind) (ctl : Control) (es : list EdgeFacts) : bool :=
  let has_ctrl := existsb controllable es in
  match ctl, kind with
  | Control_All, Diamond => ef_exists es None false false
  | Control_All, Box => ef_forall es None true false
  | Controllable, _ =>
      ef_forall es (Some false) true false && (ef_exists es (Some true) false false || negb has_ctrl)
  | Environment, _ =>
      ef_exists es (Some false) false false || (has_ctrl && ef_forall es (Some true) true false)
  end.

Lemma modal_trit_core_spec kind ctl es :
  modal_trit_core kind ctl es =
  if core_must kind ctl es then Trit_True else if core_may kind ctl es then Trit_Unknown else Trit_False.
Proof. by destruct ctl, kind. Qed.

Lemma core_must_mono kind ctl es es' :
  Forall2 facts_le es es' → core_must kind ctl es = true → core_must kind ctl es' = true.
Proof.
  intros H. unfold core_must. rewrite (has_ctrl_facts _ _ H).
  pose proof (λ ctrl must def, ef_exists_mono es es' ctrl must def H).
  pose proof (λ ctrl must def, ef_forall_mono es es' ctrl must def H).
  destruct ctl, kind; rewrite ?andb_true_iff, ?orb_true_iff, ?andb_true_iff; intuition.
Qed.

Lemma core_may_mono kind ctl es es' :
  Forall2 facts_le es es' → core_may kind ctl es = true → core_may kind ctl es' = true.
Proof.
  intros H. unfold core_may. rewrite (has_ctrl_facts _ _ H).
  pose proof (λ ctrl must def, ef_exists_mono es es' ctrl must def H).
  pose proof (λ ctrl must def, ef_forall_mono es es' ctrl must def H).
  destruct ctl, kind; rewrite ?andb_true_iff, ?orb_true_iff, ?andb_true_iff; intuition.
Qed.

Lemma bit_map_seq n (h : nat → bool) i : bit (map h (seq 0 n)) i = true ↔ i < n ∧ h i = true.
Proof.
  change (map h (seq 0 n)) with (bv_tabulate n h). split.
  - intros H. pose proof (bit_lt _ _ H) as Hl. rewrite length_bv_tabulate in Hl.
    by rewrite bit_tabulate in H.
  - intros [? ?]. by rewrite bit_tabulate.
Qed.

Lemma modal_trit_bits c kind g parts tset i :
  let r := modal_trit_from_target c kind g parts tset in
  let es := modal_edges c i g parts tset in
  (bit (must_true r) i = true ↔ i < state_count c ∧ core_must kind (g_control g) es = true) ∧
  (bit (may_true r) i = true ↔
     i < state_count c ∧ (core_must kind (g_control g) es || core_may kind (g_control g) es) = true).
Proof.
  intros r es. unfold r, modal_trit_from_target; simpl. unfold states. rewrite !map_map.
  rewrite !bit_map_seq, !modal_trit_core_spec. fold es.
  destruct (core_must _ _ es), (core_may _ _ es); simpl; split; split; intros [??]; split; try done.
Qed.

Lemma trit_ok_modal_trit c kind g parts tset :
  trit_ok (state_count c) (modal_trit_from_target c kind g parts tset).
Proof.
  constructor.
  - unfold modal_trit_from_target, states; simpl. by rewrite !length_map, length_seq.
  - unfold modal_trit_from_target, states; simpl. by rewrite !length_map, length_seq.
  - intros i. destruct (modal_trit_bits c kind g parts tset i) as [-> ->].
    intros [? ->]. done.
Qed.

Lemma modal_edges_mono c s g parts a b :
  tle a b → Forall2 facts_le (modal_edges c s g parts a) (modal_edges c s g parts b).
Proof.
  intros [H1 H2]. unfold modal_edges. generalize (List.filter
    (λ t, guard_matches_labels_and_vars c s t g && parts_next parts (target t)) (outgoing c s)).
  intros l. induction l as [|t l IH]; simpl; constructor; [|done].
  split_and!; simpl; eauto.
Qed.

Lemma modal_trit_mono c kind g parts a b :
  tle a b → tle (modal_trit_from_target c kind g parts a) (modal_trit_from_target c kind g parts b).
Proof.
  intros H. pose proof (λ i, modal_edges_mono c i g parts a b H) as Hes.
  split; intros i; [destruct (modal_trit_bits c kind g parts a i) as [-> _],
                     (modal_trit_bits c kind g parts b i) as [-> _]
                   |destruct (modal_trit_bits c kind g parts a i) as [_ ->],
                     (modal_trit_bits c kind g parts b i) as [_ ->]].
  - intros [? ?]. split; [done|]. by eapply core_must_mono.
  - rewrite !orb_true_iff. intros [? [?|?]]; (split; [done|]).
    + left. by eapply core_must_mono.
    + right. by eapply core_may_mono.
Qed.

(** The two filtered passes for [Control_All] keep the definite half inside the
    possible half. *)
Lemma two_pass_sub c k g T T' parts i :
  clts_ok c → parts_ok c g parts → g_control g = Control_All → bv_sub T T' →
  let fs := match k with Diamond => (MustOnly, All) | Box => (All, MustOnly) end in
  bit (eval_modal_unbounded c k g T parts fs.1) i = true →
  bit (eval_modal_unbounded c k g T' parts fs.2) i = true.
Proof.
  intros Hok Hp Hc Hs fs Hi. pose proof (bit_lt _ _ Hi) as Hl. unfold eval_modal_unbounded in *.
  rewrite length_bv_tabulate in Hl. rewrite bit_tabulate in Hi |- * by done.
  destruct k; simpl in *.
  - rewrite modal_forall_all in Hi |- * by done. revert Hi. apply forallb_impl. intros t _.
    unfold step_admitted, box_reads. simpl. rewrite !orb_true_iff, !negb_true_iff, !andb_false_iff.
    intros [[?|?]|?]; [by left; left|done|right]. case_match; eauto.
  - rewrite modal_exists_all in Hi |- * by done. revert Hi. apply existsb_impl. intros t _.
    unfold step_admitted. simpl. rewrite !andb_true_iff. intros [[? ?] ?].
    split_and!; [done|done|]. apply coverage_diamond_mono with T; [done|]. by apply coverage_box_diamond.
Qed.

(** ** The Skolem reading of a controllability-scoped diamond *)

(** The joined label names of two outgoing transitions agree only when their
    label identifiers do. *)
Definition keys_faithful (c : Clts) : Prop :=
  ∀ s t t', t ∈ outgoing c s → t' ∈ outgoing c s →
    label_key c t = label_key c t' → label_set t = label_set t'.

Lemma label_set_perm t t' : label_set t = label_set t' → t_labels t ≡ₚ t_labels t'.
Proof.
  unfold label_set. intros H. rewrite <-(merge_sort_Permutation (≤) (t_labels t)), H.
  apply merge_sort_Permutation.
Qed.

Lemma label_set_key c t t' : label_set t = label_set t' → label_key c t = label_key c t'.
Proof.
  intros Hp%label_set_perm. unfold label_key. f_equal. unfold transition_label_set, sort_strings.
  apply (StronglySorted_unique String.le); [apply (StronglySorted_merge_sort String.le)..|].
  rewrite !merge_sort_Permutation. rewrite <-!flat_map_concat_map.
  induction Hp; simpl; [done| |by rewrite !app_assoc, (Permutation_app_comm (default [] (label_payload c y)))|by etrans].
  by apply Permutation_app_head.
Qed.

Lemma label_set_uncontrollable c t t' :
  label_set t = label_set t' → is_uncontrollable c t = is_uncontrollable c t'.
Proof.
  intros Hp%label_set_perm. unfold is_uncontrollable.
  destruct (t_labels t) as [|l ls], (t_labels t') as [|l' ls'].
  - done.
  - by apply Permutation_nil_cons in Hp.
  - symmetry in Hp. by apply Permutation_nil_cons in Hp.
  - apply bool_eq_iff. rewrite !existsb_spec. by setoid_rewrite Hp.
Qed.

Definition skolem_exists (c : Clts) (s : StateId) (adm sat : Transition → bool) : Prop :=
  ∃ t0, t0 ∈ outgoing c s ∧ adm t0 = true ∧
    ∀ t, t ∈ outgoing c s → adm t = true → label_set t = label_set t0 → sat t = true.

Section skolem.
Context (c : Clts) (s : StateId) (g : Guard) (parts : option GuardPartitions)
  (f : TransitionModalityFilter) (sat : Transition → bool).
Context (Hok : clts_ok c) (Hp : parts_ok c g parts).

Let groups := group_transitions_by_uncontrollable_labels c (outgoing c s) g s parts f.
Let admitted_rows := List.filter (λ x, edge_admitted c s g parts f x.1)
  (imap (λ idx t, (t, idx)) (outgoing c s)).

Local Lemma elem_of_rows t i :
  (t, i) ∈ admitted_rows ↔ outgoing c s !! i = Some t ∧ step_admitted c s g f t = true.
Proof using Type*.
  unfold admitted_rows. rewrite elem_of_filterb. simpl.
  rewrite elem_of_lookup_imap. split.
  - intros [(j & t' & Heq & Hj) Ha]. simplify_eq.
    rewrite edge_admitted_spec in Ha by eauto using list_elem_of_lookup_2. done.
  - intros [Hi Ha]. rewrite edge_admitted_spec by eauto using list_elem_of_lookup_2. eauto 6.
Qed.

Local Lemma skolem_group key grp k sub :
  groups !! key = Some grp → group_by (λ x, label_key c x.1) grp !! k = Some sub →
  subgroup_satisfies c sat sub = true → skolem_exists c s (step_admitted c s g f) sat.
Proof using Type*.
  intros Hk [-> Hne]%group_by_lookup Hs.
  assert (Hin : ∀ t i, (t, i) ∈ grp ↔ outgoing c s !! i = Some t ∧ is_uncontrollable c t = true ∧
    label_set t = key ∧ step_admitted c s g f t = true).
  { intros t i. rewrite <-(groups_spec c s g parts f key t i Hok Hp). fold groups. by rewrite Hk. }
  set (sub := List.filter _ grp) in *.
  assert (Hsub : ∀ t i, (t, i) ∈ sub ↔ (t, i) ∈ grp ∧ label_key c t = k).
  { intros t i. unfold sub. by rewrite elem_of_filterb, bool_decide_eq_true. }
  assert (Hnc : List.filter (λ x, is_controllable c x.1) sub = []).
  { destruct (List.filter _ sub) as [|[t i] l] eqn:E; [done|].
    assert (Hti : (t, i) ∈ List.filter (λ x, is_controllable c x.1) sub) by (rewrite E; left).
    apply elem_of_filterb in Hti as [Hti Hc]. apply Hsub, proj1, Hin in Hti as (Ht & Hu & _).
    simpl in Hc. rewrite (controllable_xor c s t Hok), Hu in Hc by eauto using list_elem_of_lookup_2.
    done. }
  unfold subgroup_satisfies in Hs. rewrite Hnc, forallb_spec in Hs.
  destruct sub as [|[t0 i0] sub0] eqn:Esub; [done|]. rewrite <-Esub in *.
  assert (H0 : (t0, i0) ∈ sub) by (rewrite Esub; left).
  apply Hsub in H0 as [H0 Hk0]. apply Hin in H0 as (Ht0 & Hu0 & Hl0 & Ha0).
  exists t0. split_and!; [eauto using list_elem_of_lookup_2|done|]. intros t Ht Ha Hl.
  apply list_elem_of_lookup in Ht as [i Hi]. apply (Hs (t, i)), elem_of_filterb.
  assert (Hu : is_uncontrollable c t = true) by (by rewrite (label_set_uncontrollable c t t0)).
  split; [|done]. apply Hsub. split; [|by rewrite (label_set_key c t t0)].
  apply Hin. split_and!; [done|done|congruence|done].
Qed.

Local Lemma skolem_class cls k :
  group_by (λ x, label_key c x.1) admitted_rows !! k = Some cls →
  class_satisfies c groups sat cls = true → skolem_exists c s (step_admitted c s g f) sat.
Proof using Type*.
  intros [-> Hne]%group_by_lookup Hs. set (cls := List.filter _ admitted_rows) in *.
  assert (Hin : ∀ t i, (t, i) ∈ cls ↔ outgoing c s !! i = Some t ∧ step_admitted c s g f t = true
    ∧ label_key c t = k).
  { intros t i. unfold cls. rewrite elem_of_filterb, elem_of_rows, bool_decide_eq_true. simpl. tauto. }
  assert (Hgen : ∀ P : Transition → bool, (∀ t t', label_set t = label_set t' → P t = P t') →
    List.filter (λ x, P x.1) cls ≠ [] → forallb (λ x, sat x.1) (List.filter (λ x, P x.1) cls) = true →
    skolem_exists c s (step_admitted c s g f) sat).
  { intros P HP Hn Hall. destruct (List.filter (λ x, P x.1) cls) as [|[t0 i0] l] eqn:E; [done|].
    rewrite <-E in Hall.
    assert (H0 : (t0, i0) ∈ List.filter (λ x, P x.1) cls) by (rewrite E; left).
    apply elem_of_filterb in H0 as [H0 HP0]. apply Hin in H0 as (Ht0 & Ha0 & Hk0).
    exists t0. split_and!; [eauto using list_elem_of_lookup_2|done|]. intros t Ht Ha Hl.
    apply list_elem_of_lookup in Ht as [i Hi]. rewrite forallb_spec in Hall.
    apply (Hall (t, i)), elem_of_filterb. split; [|simpl; by rewrite (HP t t0)].
    apply Hin. split_and!; [done|done|]. by rewrite (label_set_key c t t0). }
  unfold class_satisfies in Hs. destruct cls as [|[tf fi] rest] eqn:Ecls; [done|].
  rewrite <-Ecls in *. destruct (in_uncontrollable_group c groups tf); [done|].
  assert (Hc : ∀ t t', label_set t = label_set t' → is_uncontrollable c t = is_uncontrollable c t')
    by apply label_set_uncontrollable.
  destruct (List.filter (λ x, is_controllable c x.1) cls) as [|c0 con] eqn:Econ.
  - destruct (List.filter (λ x, is_uncontrollable c x.1) cls) as [|u0 unc] eqn:Eunc; [done|].
    rewrite <-Eunc in Hs. by apply (Hgen (is_uncontrollable c)); [|rewrite Eunc|].
  - rewrite <-Econ in Hs.
    assert (Hnn : ∀ x, x ∈ cls → is_controllable c x.1 = negb (is_uncontrollable c x.1)).
    { intros [t i] (Ht & _)%Hin. eapply controllable_xor; eauto using list_elem_of_lookup_2. }
    assert (He : List.filter (λ x, is_controllable c x.1) cls
      = List.filter (λ x, negb (is_uncontrollable c x.1)) cls).
    { apply filter_ext_in. intros x Hx. apply Hnn. by apply list_elem_of_In. }
    apply (Hgen (λ t, negb (is_uncontrollable c t))); [|congruence|congruence].
    intros t t' Hl. by rewrite (Hc t t').
Qed.

Local Lemma skolem_back :
  keys_faithful c → skolem_exists c s (step_admitted c s g f) sat →
  existsb (class_satisfies c groups sat) (values (group_by (λ x, label_key c x.1) admitted_rows))
  || existsb (λ grp, existsb (subgroup_satisfies c sat)
                       (values (group_by (λ x, label_key c x.1) grp))) (values groups) = true.
Proof using Type*.
  intros Hkf (t0 & Ht0 & Ha0 & Hall). pose proof Ht0 as Hin0.
  apply list_elem_of_lookup in Ht0 as [i0 Hi0]. apply orb_true_iff.
  destruct (is_uncontrollable c t0) eqn:Hu.
  - right. apply existsb_spec.
    pose proof (proj2 (groups_spec c s g parts f (label_set t0) t0 i0 Hok Hp)) as Hg. fold groups in Hg.
    pose proof (λ t i, proj1 (groups_spec c s g parts f (label_set t0) t i Hok Hp)) as Hg'.
    fold groups in Hg'.
    destruct (groups !! label_set t0) as [grp|] eqn:E; [|by destruct (not_elem_of_nil (t0, i0)); apply Hg].
    simpl in Hg, Hg'. exists grp. split; [apply elem_of_values; eauto|]. apply existsb_spec.
    set (sub := List.filter (λ x, bool_decide (label_key c x.1 = label_key c t0)) grp).
    assert (Hin : (t0, i0) ∈ sub).
    { unfold sub. rewrite elem_of_filterb, bool_decide_eq_true. split; [by apply Hg|done]. }
    exists sub. split.
    + apply elem_of_values. exists (label_key c t0). apply group_by_lookup. split; [done|].
      intros He. rewrite He in Hin. by apply not_elem_of_nil in Hin.
    + unfold subgroup_satisfies.
      assert (Hsat : ∀ x, x ∈ sub → sat x.1 = true).
      { intros [t i] [Hx _]%elem_of_filterb. apply Hg' in Hx as (Ht & _ & Hl & Ha).
        apply Hall; eauto using list_elem_of_lookup_2. }
      case_match eqn:E2; [|rewrite <-E2]; apply forallb_spec; intros x [Hx _]%elem_of_filterb; auto.
  - left. apply existsb_spec.
    set (cls := List.filter (λ x, bool_decide (label_key c x.1 = label_key c t0)) admitted_rows).
    assert (Hin : ∀ t i, (t, i) ∈ cls ↔ outgoing c s !! i = Some t ∧ step_admitted c s g f t = true
      ∧ label_key c t = label_key c t0).
    { intros t i. unfold cls. rewrite elem_of_filterb, elem_of_rows, bool_decide_eq_true. simpl. tauto. }
    assert (H0 : (t0, i0) ∈ cls) by (by apply Hin).
    assert (Hset : ∀ x, x ∈ cls → label_set x.1 = label_set t0).
    { intros [t i] (Ht & _ & Hk)%Hin. apply (Hkf s); eauto using list_elem_of_lookup_2. }
    exists cls. split.
    { apply elem_of_values. exists (label_key c t0). apply group_by_lookup. split; [done|].
      intros He. rewrite He in H0. by apply not_elem_of_nil in H0. }
    assert (Hcon : ∀ x, x ∈ cls → is_controllable c x.1 = true).
    { intros [t i] Hx. pose proof (Hset _ Hx) as Hl. apply Hin in Hx as (Ht & _).
      simpl in *. rewrite (controllable_xor c s t Hok) by eauto using list_elem_of_lookup_2.
      by rewrite (label_set_uncontrollable c t t0), Hu. }
    assert (Hsat : ∀ x, x ∈ cls → sat x.1 = true).
    { intros [t i] Hx. pose proof (Hset _ Hx) as Hl. apply Hin in Hx as (Ht & Ha & _).
      apply Hall; eauto using list_elem_of_lookup_2. }
    unfold class_satisfies. destruct cls as [|[tf fi] rest] eqn:Ecls; [by apply not_elem_of_nil in H0|].
    rewrite <-Ecls in *.
    assert (Hf : (tf, fi) ∈ cls) by (rewrite Ecls; left). pose proof (Hcon _ Hf) as Hcf.
    apply Hin in Hf as (Htf & _). simpl in Hcf.
    rewrite (controllable_not_grouped c s tf groups Hok (list_elem_of_lookup_2 _ _ _ Htf) Hcf).
    destruct (List.filter (λ x, is_controllable c x.1) cls) as [|y ys] eqn:Econ.
    + assert (Hy : (t0, i0) ∈ List.filter (λ x, is_controllable c x.1) cls).
      { apply elem_of_filterb. split; [done|]. by apply Hcon. }
      rewrite Econ in Hy. by apply not_elem_of_nil in Hy.
    + rewrite <-Econ. apply forallb_spec. intros x [Hx _]%elem_of_filterb. auto.
Qed.

Lemma skolem_spec :
  keys_faithful c →
  existsb (class_satisfies c groups sat) (values (group_by (λ x, label_key c x.1) admitted_rows))
  || existsb (λ grp, existsb (subgroup_satisfies c sat)
                       (values (group_by (λ x, label_key c x.1) grp))) (values groups) = true
  ↔ skolem_exists c s (step_admitted c s g f) sat.
Proof using Type*.
  intros Hkf. split; [|by apply skolem_back].
  rewrite orb_true_iff, !existsb_spec. intros [(cls & [k Hk]%elem_of_values & Hs)|(grp & [key Hk]%elem_of_values & Hs)].
  - by eapply skolem_class.
  - apply existsb_spec in Hs as (sub & [k' Hk']%elem_of_values & Hs). by eapply skolem_group.
Qed.
End skolem.
