(* ===== verification/Evaluator.v ===== *)
(** The generic evaluator of [mu_calculus/evaluator.rs].

    [EvalDomain] is the source's trait: the two-valued domain works on bit
    vectors, the three-valued one on [TritSet]s, and one body evaluates both.
    [eval_node_generic] and [eval_fixpoint_generic] walk the formula arena and
    thread the mutable part of the source's [EvalContext] (memo table, guard
    cache, witness map, and the log of convergence callbacks).  The
    recursion and the fixpoint loop run on fuel; [None] is exhaustion or an
    index panic.  On-demand evaluation over abstract states is left out: the
    environment has none. *)
From S2P Require Import Prelude Formula Trit Clts Modal.

(** ** Environment and options *)

Record EvalEnvironment := {
  env_state_count : nat;
  predicates : gmap string (list bool)
}.

Definition EvalEnvironment_new (n : nat) : EvalEnvironment :=
  {| env_state_count := n; predicates := ∅ |}.

(** The length assertion panics. *)
Definition with_predicate (e : EvalEnvironment) (name : string) (set : list bool)
    : option EvalEnvironment :=
  if length set =? env_state_count e
  then Some {| env_state_count := env_state_count e; predicates := <[name := set]> (predicates e) |}
  else None.

Definition predicate (e : EvalEnvironment) (name : string) : option (list bool) :=
  predicates e !! name.

Record PriorApproximant := {
  pa_state_count : nat;
  pa_must_true : list bool;
  pa_may_true : list bool
}.

Record EvaluationOptions := {
  use_memoisation : bool;
  use_partitions : bool;
  prior_approximants : option (gmap FormulaVarId PriorApproximant)
}.

Definition EvaluationOptions_default : EvaluationOptions :=
  {| use_memoisation := true; use_partitions := true; prior_approximants := None |}.

(** What a convergence callback observes. *)
Record ApproximantView := {
  av_must_true : list bool;
  av_may_true : list bool;
  av_polarity : FixpointKind;
  av_iteration_count : nat
}.

Definition indefinite (v : ApproximantView) : list bool :=
  bv_and (av_may_true v) (bv_not (av_must_true v)).

(** ** Witnesses *)

(** Rows of [u32] ranks, [u32::MAX] meaning absent. *)
Definition u32_max : N := 2 ^ 32 - 1.
Definition IterationRanks : Type := list (list N).

Definition resize_rows (rows : IterationRanks) (len : nat) : IterationRanks :=
  rows ++ replicate (len - length rows) [].

(** [iteration.try_into().unwrap_or(MAX - 1).min(MAX - 1)] *)
Definition rank_value (iteration : nat) : N := N.min (N.of_nat iteration) (u32_max - 1).

Definition ranks_record (rows : IterationRanks) (var : FormulaVarId) (state_idx iteration : nat)
    (state_count : nat) : IterationRanks :=
  let rows := if length rows <=? var then resize_rows rows (S var) else rows in
  let row := default [] (rows !! var) in
  let row := if null row then replicate state_count u32_max else row in
  let row := match row !! state_idx with
             | Some v => if (v =? u32_max)%N then <[state_idx := rank_value iteration]> row else row
             | None => row
             end in
  <[var := row]> rows.

(** [None] is the [usize::MAX] sentinel. *)
Definition get_rank (rows : IterationRanks) (var : FormulaVarId) (state_idx : nat) : option N :=
  let* row := rows !! var in
  let* v := row !! state_idx in
  if (v =? u32_max)%N then None else Some v.

Record WitnessMap := {
  witnesses : gmap (nat * NodeId) nat;
  iteration_ranks : IterationRanks
}.

Definition WitnessMap_default : WitnessMap := {| witnesses := ∅; iteration_ranks := [] |}.

Definition signature (w : WitnessMap) (state_idx : nat) (nesting : list (FormulaVarId * bool))
    : list (option N) :=
  map (λ x, get_rank (iteration_ranks w) x.1 state_idx) nesting.

(** ** Context *)

Record Ctx := {
  clts : Clts;
  env : EvalEnvironment;
  options : EvaluationOptions
}.

Definition oob_bits (x : Ctx) : list bool := compute_oob_bits (clts x).
Definition not_oob_bits (x : Ctx) : list bool := bv_not (oob_bits x).

Definition alloc_bitvec (x : Ctx) (fill : bool) : list bool :=
  let bits := bv_fill (env_state_count (env x)) fill in
  if fill then bv_and bits (not_oob_bits x) else bits.

(** The part of the state a modal step touches. *)
Record ModalState := {
  guard_cache : gmap GuardSignature GuardPartitions;
  witness_map : option WitnessMap
}.

Record EvalState (V : Type) := {
  memo : gmap NodeId V;
  modal_state : ModalState;
  converged : list (FormulaVarId * ApproximantView)
}.
Arguments memo {V}.
Arguments modal_state {V}.
Arguments converged {V}.

Definition initial_state {V} (w : option WitnessMap) : EvalState V :=
  {| memo := ∅; modal_state := {| guard_cache := ∅; witness_map := w |}; converged := [] |}.

Definition memo_insert {V} (id : NodeId) (v : V) (st : EvalState V) : EvalState V :=
  {| memo := <[id := v]> (memo st); modal_state := modal_state st; converged := converged st |}.
Definition set_modal_state {V} (m : ModalState) (st : EvalState V) : EvalState V :=
  {| memo := memo st; modal_state := m; converged := converged st |}.
Definition log_converged {V} (e : FormulaVarId * ApproximantView) (st : EvalState V) : EvalState V :=
  {| memo := memo st; modal_state := modal_state st; converged := converged st ++ [e] |}.

Definition guard_partitions (x : Ctx) (g : Guard) (m : ModalState) : GuardPartitions * ModalState :=
  match guard_cache m !! GuardSignature_new g with
  | Some p => (p, m)
  | None =>
    let p := GuardPartitions_new g (clts x) in
    (p, {| guard_cache := <[GuardSignature_new g := p]> (guard_cache m);
           witness_map := witness_map m |})
  end.

Definition maybe_partitions (x : Ctx) (g : Guard) (m : ModalState)
    : option GuardPartitions * ModalState :=
  if use_partitions (options x)
  then let '(p, m') := guard_partitions x g m in (Some p, m')
  else (None, m).

(** ** Atomic predicates *)

(** The labels of a predicate-cube lift, when some state mentions [name]. *)
Definition cube_label (x : Ctx) (name : string) (i : nat) : option Tristate :=
  state_3valued_predicate (clts x) i name.

Definition predicate_bits (x : Ctx) (name : string) : list bool * list bool :=
  match predicate (env x) name with
  | Some bits => let out := bv_and bits (not_oob_bits x) in (out, out)
  | None =>
    let n := env_state_count (env x) in
    let label := cube_label x name in
    let mentioned :=
      existsb (λ i, match label i with Some _ => true | None => false end) (seq 0 n) in
    if has_3valued_predicates (clts x) && mentioned then
      let must := bv_tabulate n (λ i, bool_decide (label i = Some KleeneT)) in
      let may := bv_tabulate n (λ i,
        bool_decide (label i = Some KleeneT) || bool_decide (label i = Some KleeneBot)) in
      (bv_and must (not_oob_bits x), bv_and may (not_oob_bits x))
    else let empty := alloc_bitvec x false in (empty, empty)
  end.

(** ** Evaluation domains *)

Class EvalDomain (V : Type) := {
  MEMOISED : bool;
  dom_top : Ctx → V;
  dom_bottom : Ctx → V;
  dom_from_predicate : Ctx → list bool → list bool → V;
  dom_not : Ctx → V → V;
  dom_and : V → V → V;
  dom_or : V → V → V;
  dom_modal_image : Ctx → ModalKind → Guard → V → NodeId → ModalState → V * ModalState;
  dom_fixpoint_eq : V → V → bool;
  dom_seed_from_prior : PriorApproximant → FixpointKind → option V;
  dom_must_view : V → list bool;
  dom_may_view : V → list bool;
  dom_record_ranks : FormulaVarId → V → V → nat → ModalState → ModalState
}.

Definition dom_from_binding `{EvalDomain V} (x : Ctx) (bound : option V) : V :=
  match bound with Some v => v | None => dom_bottom x end.

(** The first admitted transition into the target set witnesses a diamond. *)
Definition first_witness (c : Clts) (s : StateId) (g : Guard) (targets : list bool) : option nat :=
  (λ x, x.1) <$> list_find (λ t, guard_matches_labels_and_vars c s t g = true
                               ∧ transition_target_in_set_diamond t targets = true) (outgoing c s).

Definition record_witness (c : Clts) (g : Guard) (targets : list bool) (id : NodeId)
    (w : WitnessMap) (s : StateId) : WitnessMap :=
  match first_witness c s g targets with
  | Some idx => {| witnesses := <[(s, id) := idx]> (witnesses w);
                   iteration_ranks := iteration_ranks w |}
  | None => w
  end.

Definition eval_modal_with_target_set (x : Ctx) (kind : ModalKind) (g : Guard)
    (target_set : list bool) (id : NodeId) (m : ModalState) : list bool * ModalState :=
  match max_steps g with
  | Some bound => (eval_modal_bounded (clts x) kind g target_set bound All, m)
  | None =>
    let '(parts, m') := maybe_partitions x g m in
    let result := eval_modal_unbounded (clts x) kind g target_set parts All in
    (result,
     match witness_map m', kind with
     | Some w, Diamond =>
       {| guard_cache := guard_cache m';
          witness_map := Some (foldl (record_witness (clts x) g target_set id) w
                                 (List.filter (bit result) (states (clts x)))) |}
     | _, _ => m'
     end)
  end.

Definition record_iteration_ranks (var : FormulaVarId) (prev nxt : list bool) (iteration : nat)
    (m : ModalState) : ModalState :=
  match witness_map m with
  | None => m
  | Some w =>
    let n := length nxt in
    let ranks := foldl (λ r s, ranks_record r var s iteration n) (iteration_ranks w)
      (List.filter (λ s, bit nxt s && negb (bit prev s)) (seq 0 n)) in
    {| guard_cache := guard_cache m;
       witness_map := Some {| witnesses := witnesses w; iteration_ranks := ranks |} |}
  end.

#[export] Instance BoolDom : EvalDomain (list bool) := {|
  MEMOISED := true;
  dom_top x := bv_and (bv_fill (env_state_count (env x)) true) (not_oob_bits x);
  dom_bottom x := bv_fill (env_state_count (env x)) false;
  dom_from_predicate _ must _ := must;
  dom_not x v := bv_and (bv_tabulate (env_state_count (env x))
                           (λ i, match v !! i with Some b => negb b | None => false end))
                        (not_oob_bits x);
  dom_and := bv_and;
  dom_or := bv_or;
  dom_modal_image := eval_modal_with_target_set;
  dom_fixpoint_eq a b := bool_decide (a = b);
  dom_seed_from_prior pa _ := Some (pa_must_true pa);
  dom_must_view v := v;
  dom_may_view v := v;
  dom_record_ranks := record_iteration_ranks
|}.

Definition modal_bits_from_target (x : Ctx) (kind : ModalKind) (g : Guard) (target_set : list bool)
    (f : TransitionModalityFilter) (m : ModalState) : list bool * ModalState :=
  match max_steps g with
  | Some bound => (eval_modal_bounded (clts x) kind g target_set bound f, m)
  | None =>
    let '(parts, m') := maybe_partitions x g m in
    (eval_modal_unbounded (clts x) kind g target_set parts f, m')
  end.

Definition kleene_filters (kind : ModalKind) : TransitionModalityFilter * TransitionModalityFilter :=
  match kind with Diamond => (MustOnly, All) | Box => (All, MustOnly) end.

Definition kleene_modal_image (x : Ctx) (kind : ModalKind) (g : Guard) (tset : TritSet)
    (id : NodeId) (m : ModalState) : TritSet * ModalState :=
  match max_steps g, g_control g with
  | None, Controllable | None, Environment =>
    let '(parts, m') := maybe_partitions x g m in
    (modal_trit_from_target (clts x) kind g parts tset, m')
  | _, _ =>
    let '(must_filter, may_filter) := kleene_filters kind in
    let '(must_bits, m1) := modal_bits_from_target x kind g (must_true tset) must_filter m in
    let '(may_bits, m2) := modal_bits_from_target x kind g (may_true tset) may_filter m1 in
    (from_parts must_bits may_bits, m2)
  end.

#[export] Instance KleeneDom : EvalDomain TritSet := {|
  MEMOISED := false;
  dom_top x := all_true (env_state_count (env x)) (oob_bits x);
  dom_bottom x := all_false (env_state_count (env x));
  dom_from_predicate x must may := from_parts must (bv_or may (oob_bits x));
  dom_not _ := tnot;
  dom_and := tand;
  dom_or := tor;
  dom_modal_image := kleene_modal_image;
  dom_fixpoint_eq := eq_set;
  dom_seed_from_prior pa _ := Some (from_parts (pa_must_true pa) (pa_may_true pa));
  dom_must_view := must_true;
  dom_may_view := may_true;
  dom_record_ranks _ _ _ _ m := m
|}.

(** ** The generic evaluator *)

(** The fixpoint loop: [rounds] bounds its iterations. *)
Fixpoint fixpoint_loop `{EvalDomain V} (rounds : nat) (var : FormulaVarId) (kind : FixpointKind)
    (body : V → EvalState V → option (V * EvalState V)) (current : V) (iteration : nat)
    (st : EvalState V) : option (V * EvalState V) :=
  match rounds with
  | O => None
  | S r =>
    let iteration := S iteration in
    let* (nxt, st1) := body current st in
    let st2 := set_modal_state (dom_record_ranks var current nxt iteration (modal_state st1)) st1 in
    if dom_fixpoint_eq nxt current then
      Some (nxt, log_converged (var, {| av_must_true := dom_must_view nxt;
                                        av_may_true := dom_may_view nxt;
                                        av_polarity := kind;
                                        av_iteration_count := iteration |}) st2)
    else fixpoint_loop r var kind body nxt iteration st2
  end.

Definition seed `{EvalDomain V} (x : Ctx) (var : FormulaVarId) (kind : FixpointKind) : option V :=
  let* m := prior_approximants (options x) in
  let* pa := m !! var in
  if pa_state_count pa =? env_state_count (env x) then dom_seed_from_prior pa kind else None.

Definition fixpoint_start `{EvalDomain V} (x : Ctx) (var : FormulaVarId) (kind : FixpointKind) : V :=
  match seed x var kind with
  | Some prior => prior
  | None => match kind with Least => dom_bottom x | Greatest => dom_top x end
  end.

Fixpoint eval_node_generic `{EvalDomain V} (fuel rounds : nat) (x : Ctx) (ns : list Node)
    (id : NodeId) (bindings : gmap FormulaVarId V) (st : EvalState V)
    : option (V * EvalState V) :=
  match fuel with
  | O => None
  | S k =>
    let* n := ns !! id in
    let use_memo := MEMOISED && use_memoisation (options x) && bool_decide (bindings = ∅) in
    match (if use_memo then memo st !! id else None) with
    | Some hit => Some (hit, st)
    | None =>
      let store_result := use_memo && negb (is_fixpoint n) in
      let fixpoint var body kind :=
        fixpoint_loop rounds var kind
          (λ cur, eval_node_generic k rounds x ns body (<[var := cur]> bindings))
          (fixpoint_start x var kind) 0 st in
      let* (v, st') :=
        match n with
        | NTrue => Some (dom_top x, st)
        | NFalse => Some (dom_bottom x, st)
        | NPredicate name =>
          let '(must, may) := predicate_bits x name in Some (dom_from_predicate x must may, st)
        | NVariable var => Some (dom_from_binding x (bindings !! var), st)
        | NNot a =>
          let* (va, s1) := eval_node_generic k rounds x ns a bindings st in
          Some (dom_not x va, s1)
        | NAnd l r =>
          let* (vl, s1) := eval_node_generic k rounds x ns l bindings st in
          let* (vr, s2) := eval_node_generic k rounds x ns r bindings s1 in
          Some (dom_and vl vr, s2)
        | NOr l r =>
          let* (vl, s1) := eval_node_generic k rounds x ns l bindings st in
          let* (vr, s2) := eval_node_generic k rounds x ns r bindings s1 in
          Some (dom_or vl vr, s2)
        | NModal kind g t =>
          let* (vt, s1) := eval_node_generic k rounds x ns t bindings st in
          let '(v, m) := dom_modal_image x kind g vt id (modal_state s1) in
          Some (v, set_modal_state m s1)
        | NMu var body => fixpoint var body Least
        | NNu var body => fixpoint var body Greatest
        end in
      Some (v, if store_result then memo_insert id v st' else st')
    end
  end.

Definition run_eval `{EvalDomain V} (rounds : nat) (f : Formula) (x : Ctx) (w : option WitnessMap)
    : option (V * EvalState V) :=
  if state_count (clts x) =? env_state_count (env x)
  then eval_node_generic (length (nodes f)) rounds x (nodes f) (root f) ∅ (initial_state w)
  else None.

Definition evaluate_with_options (rounds : nat) (f : Formula) (c : Clts) (e : EvalEnvironment)
    (o : EvaluationOptions) : option (list bool) :=
  fst <$> run_eval (V := list bool) rounds f {| clts := c; env := e; options := o |} None.

Definition evaluate (rounds : nat) (f : Formula) (c : Clts) (e : EvalEnvironment)
    : option (list bool) :=
  evaluate_with_options rounds f c e EvaluationOptions_default.

Definition evaluate_with_witnesses (rounds : nat) (f : Formula) (c : Clts) (e : EvalEnvironment)
    (o : EvaluationOptions) : option (list bool * WitnessMap) :=
  let* (v, st) := run_eval (V := list bool) rounds f {| clts := c; env := e; options := o |}
                    (Some WitnessMap_default) in
  Some (v, default WitnessMap_default (witness_map (modal_state st))).

Definition evaluate_tri_with_options (rounds : nat) (f : Formula) (c : Clts) (e : EvalEnvironment)
    (o : EvaluationOptions) : option TritSet :=
  fst <$> run_eval (V := TritSet) rounds f {| clts := c; env := e; options := o |} None.

Definition evaluate_tri (rounds : nat) (f : Formula) (c : Clts) (e : EvalEnvironment)
    : option TritSet :=
  evaluate_tri_with_options rounds f c e EvaluationOptions_default.
