(* ===== verification/Semantics.v ===== *)
(** What the evaluator computes, for any evaluation domain that keeps the laws
    of [DomainLaws].

    [denote] is the denotational reading of a formula tree: the connectives and
    the modal step are the domain's, and a fixpoint is the iterate of its body
    from the bottom (or the top) of a lattice of bounded height, which the laws
    make the least (greatest) fixpoint.  [eval_correct] shows that the generic
    evaluator terminates and returns [denote], whatever the memo table and the
    guard cache contain, and [loop_from_seed] that a loop started below the
    least fixpoint (above the greatest) still ends there. *)
From S2P Require Import Prelude Formula Trit Clts Modal Evaluator.

Lemma iter_ext {A} n (F G : A → A) a : (∀ w, F w = G w) → Nat.iter n F a = Nat.iter n G a.
Proof. intros H. induction n as [|n IH]; [done|]. simpl. by rewrite IH, H. Qed.

(** ** The interface *)

(** Every cached partition is the one of the guards with its signature. *)
Definition cache_ok (x : Ctx) (m : ModalState) : Prop :=
  ∀ g p, guard_cache m !! GuardSignature_new g = Some p → p = GuardPartitions_new g (clts x).

Class DomainLaws (V : Type) `{EvalDomain V} (x : Ctx) (good : ModalKind → Guard → Prop) := {
  dok : V → Prop;
  dle : V → V → Prop;
  dsize : V → nat;
  dbound : nat;
  dmodal : ModalKind → Guard → V → V;
  dle_refl : ∀ a, dle a a;
  dle_trans : ∀ a b c, dle a b → dle b c → dle a c;
  dle_antisym : ∀ a b, dok a → dok b → dle a b → dle b a → a = b;
  dok_bottom : dok (dom_bottom x);
  dok_top : dok (dom_top x);
  dbottom_least : ∀ a, dok a → dle (dom_bottom x) a;
  dtop_greatest : ∀ a, dok a → dle a (dom_top x);
  dok_predicate : ∀ p, dok (dom_from_predicate x (predicate_bits x p).1 (predicate_bits x p).2);
  dok_not : ∀ a, dok a → dok (dom_not x a);
  dok_and : ∀ a b, dok a → dok b → dok (dom_and a b);
  dok_or : ∀ a b, dok a → dok b → dok (dom_or a b);
  dok_modal : ∀ k g a, good k g → dok a → dok (dmodal k g a);
  dle_not : ∀ a b, dok a → dok b → dle a b → dle (dom_not x b) (dom_not x a);
  dle_and : ∀ a a' b b', dok a → dok a' → dok b → dok b' →
    dle a a' → dle b b' → dle (dom_and a b) (dom_and a' b');
  dle_or : ∀ a a' b b', dok a → dok a' → dok b → dok b' →
    dle a a' → dle b b' → dle (dom_or a b) (dom_or a' b');
  dle_modal : ∀ k g a b, good k g → dok a → dok b → dle a b → dle (dmodal k g a) (dmodal k g b);
  dmodal_spec : ∀ k g a id m, good k g → dok a → cache_ok x m →
    ∃ m', dom_modal_image x k g a id m = (dmodal k g a, m') ∧ cache_ok x m';
  dranks_spec : ∀ v a b i m, cache_ok x m → cache_ok x (dom_record_ranks v a b i m);
  deq_spec : ∀ a b, dom_fixpoint_eq a b = true ↔ a = b;
  dsize_strict : ∀ a b, dok a → dok b → dle a b → a ≠ b → dsize a < dsize b;
  dsize_bound : ∀ a, dok a → dsize a ≤ dbound
}.

(** Every modality of a tree is [good]. *)
Fixpoint modalities_good (good : ModalKind → Guard → Prop) (t : Tree) : Prop :=
  match t with
  | TTrue | TFalse | TPred _ | TVar _ => True
  | TNot t | TFix _ _ t => modalities_good good t
  | TAnd l r | TOr l r => modalities_good good l ∧ modalities_good good r
  | TModal k g t => good k g ∧ modalities_good good t
  end.

Section semantics.
Context {V : Type} {D : EvalDomain V} (x : Ctx) (good : ModalKind → Guard → Prop)
  {L : DomainLaws V x good}.

Definition fix_start (k : FixpointKind) : V :=
  match k with Least => dom_bottom x | Greatest => dom_top x end.

Fixpoint denote (t : Tree) (ρ : gmap FormulaVarId V) : V :=
  match t with
  | TTrue => dom_top x
  | TFalse => dom_bottom x
  | TPred p => dom_from_predicate x (predicate_bits x p).1 (predicate_bits x p).2
  | TVar v => dom_from_binding x (ρ !! v)
  | TNot t => dom_not x (denote t ρ)
  | TAnd l r => dom_and (denote l ρ) (denote r ρ)
  | TOr l r => dom_or (denote l ρ) (denote r ρ)
  | TModal k g t => dmodal k g (denote t ρ)
  | TFix k v t => Nat.iter dbound (λ w, denote t (<[v := w]> ρ)) (fix_start k)
  end.

Definition env_ok (ρ : gmap FormulaVarId V) : Prop := ∀ v w, ρ !! v = Some w → dok w.

(** ** Iteration of a monotone function *)

Definition mono_fun (F : V → V) : Prop :=
  (∀ a, dok a → dok (F a)) ∧ (∀ a b, dok a → dok b → dle a b → dle (F a) (F b)).

(** The order in which the iterates of a fixpoint of kind [k] move. *)
Definition kle (k : FixpointKind) (a b : V) : Prop :=
  match k with Least => dle a b | Greatest => dle b a end.

Lemma kle_refl k a : kle k a a.
Proof. destruct k; apply dle_refl. Qed.
Lemma kle_trans k a b c : kle k a b → kle k b c → kle k a c.
Proof. destruct k; simpl; intros; eapply dle_trans; eauto. Qed.
Lemma kle_antisym k a b : dok a → dok b → kle k a b → kle k b a → a = b.
Proof. destruct k; simpl; intros; by apply dle_antisym. Qed.
Lemma kle_start k a : dok a → kle k (fix_start k) a.
Proof. destruct k; simpl; [apply dbottom_least|apply dtop_greatest]. Qed.
Lemma dok_start k : dok (fix_start k).
Proof. destruct k; simpl; [apply dok_bottom|apply dok_top]. Qed.
Lemma mono_kle k F a b : mono_fun F → dok a → dok b → kle k a b → kle k (F a) (F b).
Proof. intros [_ HF]; destruct k; simpl; auto. Qed.

Lemma iter_succ {A} n (F : A → A) a : Nat.iter (S n) F a = F (Nat.iter n F a).
Proof. done. Qed.

Lemma dok_iter n F a : mono_fun F → dok a → dok (Nat.iter n F a).
Proof. intros [HF _] Ha. induction n; [done|]. rewrite iter_succ; auto. Qed.

Lemma iter_ascending k F n :
  mono_fun F → kle k (Nat.iter n F (fix_start k)) (Nat.iter (S n) F (fix_start k)).
Proof.
  intros HF. induction n as [|n IH].
  - apply kle_start. by apply (dok_iter 1), dok_start.
  - rewrite !(iter_succ (S n)), (iter_succ n) at 1. apply mono_kle; [done| | |done];
      apply (dok_iter _ F); try done; apply dok_start.
Qed.

(** Moving strictly, the iterates cover the size range in [dbound] steps. *)
Lemma iter_progress k F n :
  mono_fun F →
  F (Nat.iter n F (fix_start k)) = Nat.iter n F (fix_start k) ∨
  match k with
  | Least => n ≤ dsize (Nat.iter n F (fix_start k))
  | Greatest => dsize (Nat.iter n F (fix_start k)) + n ≤ dsize (fix_start k)
  end.
Proof.
  intros HF. induction n as [|n IH]; [right; destruct k; simpl; lia|].
  set (a := Nat.iter n F (fix_start k)) in *. rewrite iter_succ. fold a.
  destruct IH as [IH|IH]; [left; congruence|].
  pose proof (dok_iter n F _ HF (dok_start k)) as Ha. fold a in Ha.
  assert (Ha' : dok (F a)) by (by apply HF).
  destruct (decide (dom_fixpoint_eq (F a) a = true)) as [He|He]; rewrite deq_spec in He.
  { left. congruence. }
  right. pose proof (iter_ascending k F n HF) as Hle. rewrite iter_succ in Hle. fold a in Hle.
  destruct k; simpl in Hle.
  - pose proof (dsize_strict a (F a) Ha Ha' Hle ltac:(congruence)). lia.
  - pose proof (dsize_strict (F a) a Ha' Ha Hle ltac:(congruence)). lia.
Qed.

Lemma iter_fixed F n (a : V) : F a = a → Nat.iter n F a = a.
Proof. intros Ha. induction n; [done|]. rewrite iter_succ. congruence. Qed.

Lemma fix_is_fixpoint k F :
  mono_fun F → F (Nat.iter dbound F (fix_start k)) = Nat.iter dbound F (fix_start k).
Proof.
  intros HF. set (a := Nat.iter dbound F (fix_start k)).
  assert (Ha : dok a) by (apply dok_iter; [done|apply dok_start]).
  destruct (iter_progress k F dbound HF) as [?|Hs]; [done|]. fold a in Hs.
  destruct (iter_progress k F (S dbound) HF) as [He|Hs'].
  - rewrite iter_succ in He. fold a in He.
    destruct (decide (dom_fixpoint_eq (F a) a = true)) as [Heq|Hne]; rewrite deq_spec in *; [done|].
    pose proof (iter_ascending k F dbound HF) as Hle. rewrite iter_succ in Hle. fold a in Hle.
    assert (Hok : dok (F a)) by (by apply HF).
    pose proof (dsize_bound _ Hok). pose proof (dsize_bound _ (dok_start k)).
    pose proof (dsize_bound _ Ha). exfalso.
    destruct k; simpl in Hle.
    + pose proof (dsize_strict a (F a) Ha Hok Hle ltac:(congruence)). lia.
    + pose proof (dsize_strict (F a) a Hok Ha Hle ltac:(congruence)). lia.
  - exfalso. pose proof (dsize_bound _ (dok_start k)).
    assert (Hok : dok (Nat.iter (S dbound) F (fix_start k))) by (apply dok_iter; [done|apply dok_start]).
    pose proof (dsize_bound _ Hok). destruct k; lia.
Qed.

(** The iterate is below every point the function moves down (for [Least];
    dually for [Greatest]): it is the least, greatest, fixpoint. *)
Lemma fix_extremal k F a n :
  mono_fun F → dok a → kle k (F a) a → kle k (Nat.iter n F (fix_start k)) a.
Proof.
  intros HF Ha Hle. induction n as [|n IH]; [by apply kle_start|].
  rewrite iter_succ. eapply kle_trans; [|exact Hle].
  apply mono_kle; [done| |done|done]. apply dok_iter; [done|apply dok_start].
Qed.

Definition fixpoint_of (k : FixpointKind) (F : V → V) : V := Nat.iter dbound F (fix_start k).

(** A sequence started between the start and the fixpoint stays there, and is
    squeezed onto the fixpoint. *)
Lemma iter_squeeze k F s n :
  mono_fun F → dok s → kle k s (fixpoint_of k F) →
  kle k (Nat.iter n F (fix_start k)) (Nat.iter n F s) ∧ kle k (Nat.iter n F s) (fixpoint_of k F).
Proof.
  intros HF Hs Hle. induction n as [|n [IH1 IH2]]; [split; [by apply kle_start|done]|].
  rewrite !iter_succ. pose proof (fix_is_fixpoint k F HF) as Hfix.
  split; [apply mono_kle|unfold fixpoint_of; rewrite <-Hfix; apply mono_kle]; try done;
    apply dok_iter; try done; apply dok_start.
Qed.

Lemma iter_from_seed k F s :
  mono_fun F → dok s → kle k s (fixpoint_of k F) → Nat.iter dbound F s = fixpoint_of k F.
Proof.
  intros HF Hs Hle. destruct (iter_squeeze k F s dbound HF Hs Hle).
  apply (kle_antisym k); try done; apply dok_iter; try done; apply dok_start.
Qed.

Lemma fixpoint_in_window k F s n :
  mono_fun F → dok s → kle k s (fixpoint_of k F) →
  F (Nat.iter n F s) = Nat.iter n F s → Nat.iter n F s = fixpoint_of k F.
Proof.
  intros HF Hs Hle Hfix. destruct (iter_squeeze k F s n HF Hs Hle) as [_ H2].
  apply (kle_antisym k); try done; try (apply dok_iter; try done; apply dok_start).
  apply fix_extremal; [done|by apply dok_iter|]. rewrite Hfix. apply kle_refl.
Qed.

(** ** The denotation is monotone *)

Lemma env_ok_insert ρ v w : env_ok ρ → dok w → env_ok (<[v := w]> ρ).
Proof. intros H Hw u z. rewrite lookup_insert_Some. naive_solver. Qed.

Lemma env_ok_empty : env_ok ∅.
Proof. intros v w. by rewrite lookup_empty. Qed.

Lemma dok_binding ρ v : env_ok ρ → dok (dom_from_binding x (ρ !! v)).
Proof.
  intros H. unfold dom_from_binding. destruct (ρ !! v) eqn:E; [by eapply H|apply dok_bottom].
Qed.

Lemma denote_ok t ρ : modalities_good good t → env_ok ρ → dok (denote t ρ).
Proof.
  revert ρ. induction t as [| |p|v|t IH|l IHl r IHr|l IHl r IHr|k g t IH|k v t IH];
    intros ρ Hg Hρ; simpl in *.
  - apply dok_top.
  - apply dok_bottom.
  - apply dok_predicate.
  - by apply dok_binding.
  - apply dok_not; auto.
  - destruct Hg. apply dok_and; auto.
  - destruct Hg. apply dok_or; auto.
  - destruct Hg. apply dok_modal; auto.
  - induction dbound as [|n IHn]; [apply dok_start|]. rewrite iter_succ.
    apply IH; [done|]. by apply env_ok_insert.
Qed.

Definition ple (pol : bool) (a b : V) : Prop := if pol then dle a b else dle b a.

Lemma iter_mono2 pol k n F G :
  (∀ a, dok a → dok (F a)) → (∀ a, dok a → dok (G a)) →
  (∀ a b, dok a → dok b → dle a b → dle (G a) (G b)) →
  (∀ a b, dok a → dok b → dle a b → dle (F a) (F b)) →
  (∀ a, dok a → ple pol (F a) (G a)) →
  ple pol (Nat.iter n F (fix_start k)) (Nat.iter n G (fix_start k)).
Proof.
  intros HF HG HmG HmF Hle.
  assert (Hok : ∀ j, dok (Nat.iter j F (fix_start k)) ∧ dok (Nat.iter j G (fix_start k))).
  { intros j. induction j as [|j [? ?]]; [split; apply dok_start|]. rewrite !iter_succ; auto. }
  induction n as [|n IH]; [destruct pol; apply dle_refl|].
  destruct (Hok n). rewrite !iter_succ. destruct pol; simpl in *.
  - eapply dle_trans; [apply HmF; [| |exact IH]; done|]. by apply Hle.
  - eapply dle_trans; [apply Hle; done|]. by apply HmF.
Qed.

Lemma denote_mono t : modalities_good good t → monotone t = true →
  ∀ pol v ρ a b, occurs_only pol v t = true → env_ok ρ → dok a → dok b → dle a b →
  ple pol (denote t (<[v := a]> ρ)) (denote t (<[v := b]> ρ)).
Proof.
  induction t as [| |p|v0|t IH|l IHl r IHr|l IHl r IHr|k g t IH|k w t IH]; simpl;
    intros Hg Hm pol v ρ a b Ho Hρ Ha Hb Hab;
    pose proof (env_ok_insert ρ v a Hρ Ha) as HA; pose proof (env_ok_insert ρ v b Hρ Hb) as HB.
  - destruct pol; apply dle_refl.
  - destruct pol; apply dle_refl.
  - destruct pol; apply dle_refl.
  - destruct (decide (v = v0)) as [->|Hne].
    + rewrite !lookup_insert_eq. rewrite Nat.eqb_refl in Ho. by destruct pol.
    + rewrite !lookup_insert_ne by done. destruct pol; apply dle_refl.
  - specialize (IH Hg Hm (negb pol) v ρ a b Ho Hρ Ha Hb Hab).
    destruct pol; simpl in *; apply dle_not; try done; by apply denote_ok.
  - destruct Hg. apply andb_true_iff in Hm as [? ?], Ho as [? ?].
    specialize (IHl ltac:(done) ltac:(done) pol v ρ a b). specialize (IHr ltac:(done) ltac:(done) pol v ρ a b).
    destruct pol; simpl in *; apply dle_and; try (by apply denote_ok); auto.
  - destruct Hg. apply andb_true_iff in Hm as [? ?], Ho as [? ?].
    specialize (IHl ltac:(done) ltac:(done) pol v ρ a b). specialize (IHr ltac:(done) ltac:(done) pol v ρ a b).
    destruct pol; simpl in *; apply dle_or; try (by apply denote_ok); auto.
  - destruct Hg. specialize (IH ltac:(done) Hm pol v ρ a b Ho Hρ Ha Hb Hab).
    destruct pol; simpl in *; apply dle_modal; try done; by apply denote_ok.
  - apply andb_true_iff in Hm as [Hw Hm]. destruct (Nat.eqb_spec v w) as [->|Hne].
    + assert (Heq : ∀ c n, Nat.iter n (λ z, denote t (<[w := z]> (<[w := c]> ρ))) (fix_start k)
        = Nat.iter n (λ z, denote t (<[w := z]> ρ)) (fix_start k)).
      { intros c n. induction n as [|n IHn]; [done|]. by rewrite !iter_succ, IHn, insert_insert_eq. }
      rewrite !Heq. destruct pol; apply dle_refl.
    + apply iter_mono2; intros; try (apply denote_ok; [done|by apply env_ok_insert]).
      * by apply (IH Hg Hm true w).
      * by apply (IH Hg Hm true w).
      * rewrite !(insert_insert_ne _ w v) by done. apply IH; try done. by apply env_ok_insert.
Qed.

Lemma denote_mono_fun t v ρ :
  modalities_good good t → monotone t = true → occurs_only true v t = true → env_ok ρ →
  mono_fun (λ w, denote t (<[v := w]> ρ)).
Proof.
  intros Hg Hm Ho Hρ. split.
  - intros w Hw. apply denote_ok; [done|by apply env_ok_insert].
  - intros w w' Hw Hw' Hle. by apply (denote_mono t Hg Hm true v).
Qed.

(** ** The evaluator computes the denotation *)

Definition st_ok (ns : list Node) (st : EvalState V) : Prop :=
  cache_ok x (modal_state st) ∧
  ∀ id v t, memo st !! id = Some v → repr ns id t → v = denote t ∅.

Lemma st_ok_initial ns w : st_ok ns (initial_state w).
Proof.
  split; simpl.
  - intros g p. simpl. by rewrite lookup_empty.
  - intros id v t. by rewrite lookup_empty.
Qed.

Lemma st_ok_modal ns st m : st_ok ns st → cache_ok x m → st_ok ns (set_modal_state m st).
Proof. intros [_ H] Hm. by split. Qed.

Lemma st_ok_log ns st e : st_ok ns st → st_ok ns (log_converged e st).
Proof. by intros [? ?]. Qed.

Lemma st_ok_memo ns st id v t :
  st_ok ns st → repr ns id t → v = denote t ∅ → st_ok ns (memo_insert id v st).
Proof.
  intros [Hc Hm] Hr ->. split; [done|]. simpl. intros id' v' t' Hl Hr'.
  destruct (decide (id = id')) as [->|Hne].
  - rewrite lookup_insert_eq in Hl. simplify_eq. by rewrite (repr_det _ _ _ _ Hr' Hr).
  - rewrite lookup_insert_ne in Hl by done. eauto.
Qed.

(** A loop body computes [F] and keeps the state well formed. *)
Definition computes (ns : list Node) (body : V → EvalState V → option (V * EvalState V))
    (F : V → V) : Prop :=
  ∀ cur st, dok cur → st_ok ns st → ∃ st', body cur st = Some (F cur, st') ∧ st_ok ns st'.

Lemma loop_from_iterate ns var k body F s rounds n iteration st :
  mono_fun F → computes ns body F → dok s → kle k s (fixpoint_of k F) →
  st_ok ns st → n ≤ dbound → dbound < n + rounds →
  ∃ st', fixpoint_loop rounds var k body (Nat.iter n F s) iteration st
         = Some (fixpoint_of k F, st') ∧ st_ok ns st'.
Proof.
  intros HF Hbody Hs Hle. revert n iteration st.
  induction rounds as [|r IH]; intros n iteration st Hst Hn Hlt; [lia|]. cbn [fixpoint_loop].
  destruct (Hbody (Nat.iter n F s) st) as (st1 & -> & Hst1); [by apply dok_iter|done|].
  set (st2 := set_modal_state _ _).
  assert (Hst2 : st_ok ns st2) by (apply st_ok_modal; [done|apply (dranks_spec (good := good)), Hst1]).
  destruct (dom_fixpoint_eq _ _) eqn:Heq.
  - apply deq_spec in Heq. rewrite Heq. eexists. split; [|by apply st_ok_log, Hst2].
    do 2 f_equal. by apply fixpoint_in_window.
  - apply (IH (S n)); [done| |lia]. destruct (decide (n = dbound)) as [->|]; [|lia].
    exfalso. assert (Hne : dom_fixpoint_eq (F (Nat.iter dbound F s)) (Nat.iter dbound F s) = true).
    { apply deq_spec. rewrite (iter_from_seed k) by done. by apply fix_is_fixpoint. }
    congruence.
Qed.

(** A loop from any seed between its start and the fixpoint ends there. *)
Lemma loop_from_seed ns var k body F s rounds st :
  mono_fun F → computes ns body F → dok s → kle k s (fixpoint_of k F) →
  st_ok ns st → dbound < rounds →
  ∃ st', fixpoint_loop rounds var k body s 0 st = Some (fixpoint_of k F, st') ∧ st_ok ns st'.
Proof. intros. apply (loop_from_iterate ns var k body F s rounds 0); try done; lia. Qed.

(** Every prior approximant that seeds a loop of [t] lies between the start of
    that loop and its fixpoint, whatever the outer variables are bound to. *)
Fixpoint seeds_sound (t : Tree) : Prop :=
  match t with
  | TTrue | TFalse | TPred _ | TVar _ => True
  | TNot t | TModal _ _ t => seeds_sound t
  | TAnd l r | TOr l r => seeds_sound l ∧ seeds_sound r
  | TFix k v b =>
    (∀ w, seed x v k = Some w → dok w ∧ ∀ ρ, env_ok ρ → kle k w (denote (TFix k v b) ρ))
    ∧ seeds_sound b
  end.

(** No prior approximant applies: the usual, from-scratch, run. *)
Definition no_seeds : Prop := ∀ k v, seed (V := V) x v k = None.

Lemma no_seeds_sound t : no_seeds → seeds_sound t.
Proof using Type.
  intros Hn. induction t; simpl; try done. split; [|done]. intros w. by rewrite Hn.
Qed.

Lemma eval_correct fuel rounds ns id t bindings st :
  repr ns id t → height t ≤ fuel → dbound < rounds → seeds_sound t →
  modalities_good good t → monotone t = true → env_ok bindings → st_ok ns st →
  ∃ st', eval_node_generic fuel rounds x ns id bindings st = Some (denote t bindings, st')
         ∧ st_ok ns st'.
Proof.
  intros Hr Hh Hrounds. revert t id bindings st Hr Hh.
  induction fuel as [|k IH]; intros t id bindings st Hr Hh Hseeds Hg Hm Hb Hst.
  { destruct t; simpl in Hh; lia. }
  cbn [eval_node_generic].
  assert (Hn : ∃ n, ns !! id = Some n) by (destruct Hr; eauto).
  destruct Hn as [n Hn]. rewrite Hn.
  set (use_memo := MEMOISED && _ && _).
  destruct (if use_memo then memo st !! id else None) as [hit|] eqn:Hhit.
  { exists st. split; [|done]. destruct use_memo eqn:Hu; [|done].
    unfold use_memo in Hu. rewrite !andb_true_iff, bool_decide_eq_true in Hu.
    destruct Hu as [_ ->]. do 2 f_equal. destruct Hst as [_ Hmemo]. by eapply Hmemo. }
  clear Hhit.
  match goal with |- context [match ?e with Some _ => _ | None => None end] => set (res := e) end.
  assert (Hres : ∃ st', res = Some (denote t bindings, st') ∧ st_ok ns st').
  2:{ destruct Hres as (st' & -> & Hst'). eexists. split; [done|].
      destruct (use_memo && _) eqn:Hu; [|done]. apply andb_true_iff in Hu as [Hu _].
      unfold use_memo in Hu. rewrite !andb_true_iff, bool_decide_eq_true in Hu.
      destruct Hu as [_ ->]. by eapply st_ok_memo. }
  assert (Hfix : ∀ v t' a kd, t = TFix kd v t' → repr ns a t' → height t' ≤ k →
    ∃ st', fixpoint_loop rounds v kd
      (λ cur, eval_node_generic k rounds x ns a (<[v := cur]> bindings))
      (fixpoint_start x v kd) 0 st = Some (denote t bindings, st') ∧ st_ok ns st').
  { intros v t' a kd -> Hr' Hh'. destruct Hseeds as [Hseed Hseeds].
    simpl in Hg, Hm. apply andb_true_iff in Hm as [Ho Hm].
    assert (HF : mono_fun (λ w, denote t' (<[v := w]> bindings))) by (by apply denote_mono_fun).
    assert (Hstart : dok (fixpoint_start x v kd) ∧
      kle kd (fixpoint_start x v kd) (fixpoint_of kd (λ w, denote t' (<[v := w]> bindings)))).
    { unfold fixpoint_start. destruct (seed x v kd) as [w|] eqn:Hw.
      - destruct (Hseed w eq_refl) as [? Hle]. split; [done|]. by apply Hle.
      - split; [apply dok_start|]. apply kle_start, dok_iter; [done|apply dok_start]. }
    destruct Hstart. apply loop_from_seed; try done.
    intros cur st' Hcur Hst'. apply IH; try done. by apply env_ok_insert. }
  subst res. destruct Hr; rewrite H in Hn; simplify_eq/=.
  - eauto.
  - eauto.
  - destruct (predicate_bits x p) as [must may]. eauto.
  - eauto.
  - destruct (IH t a bindings st Hr ltac:(lia) Hseeds Hg Hm Hb Hst) as (s1 & -> & Hs1). eauto.
  - destruct Hseeds as [Hd1 Hd2], Hg as [Hg1 Hg2]. apply andb_true_iff in Hm as [Hm1 Hm2].
    destruct (IH ta a bindings st Hr1 ltac:(lia) Hd1 Hg1 Hm1 Hb Hst) as (s1 & -> & Hs1).
    destruct (IH tb b bindings s1 Hr2 ltac:(lia) Hd2 Hg2 Hm2 Hb Hs1) as (s2 & -> & Hs2). eauto.
  - destruct Hseeds as [Hd1 Hd2], Hg as [Hg1 Hg2]. apply andb_true_iff in Hm as [Hm1 Hm2].
    destruct (IH ta a bindings st Hr1 ltac:(lia) Hd1 Hg1 Hm1 Hb Hst) as (s1 & -> & Hs1).
    destruct (IH tb b bindings s1 Hr2 ltac:(lia) Hd2 Hg2 Hm2 Hb Hs1) as (s2 & -> & Hs2). eauto.
  - destruct Hg as [Hg1 Hg2].
    destruct (IH t a bindings st Hr ltac:(lia) Hseeds Hg2 Hm Hb Hst) as (s1 & -> & Hs1).
    destruct (dmodal_spec k0 g (denote t bindings) id (modal_state s1) Hg1) as (m' & -> & Hm').
    + by apply denote_ok.
    + apply Hs1.
    + eexists. split; [done|]. by apply st_ok_modal.
  - apply (Hfix v t a Least); [done|done|lia].
  - apply (Hfix v t a Greatest); [done|done|lia].
Qed.

End semantics.
