(* ===== verification/Domains.v ===== *)
(** The two evaluation domains keep the laws of [DomainLaws], so the evaluator
    terminates on them with its denotation.

    The laws need a context without out-of-bounds states ([oob_free]): with
    them the top of the source is not the greatest valuation, and the greatest
    fixpoint loop need not converge (see [oob_divergence]).  Modalities with a
    [steps] bound are left to [Modal]. *)
From S2P Require Import Prelude Formula Trit Clts Modal Evaluator Semantics.

(** ** Well-formed contexts *)

Record ctx_ok (x : Ctx) : Prop := {
  cok_clts : clts_ok (clts x);
  cok_count : env_state_count (env x) = state_count (clts x);
  cok_predicates : ∀ p set, predicates (env x) !! p = Some set → length set = env_state_count (env x)
}.

Definition oob_free (x : Ctx) : Prop := ∀ i, bit (oob_bits x) i = false.

(** Modalities without a [steps] bound. *)
Definition unbounded (k : ModalKind) (g : Guard) : Prop := max_steps g = None.

(** The partitions the evaluator passes for a guard. *)
Definition ctx_parts (x : Ctx) (g : Guard) : option GuardPartitions :=
  if use_partitions (options x) then Some (GuardPartitions_new g (clts x)) else None.

Lemma ctx_parts_ok x g : parts_ok (clts x) g (ctx_parts x g).
Proof. unfold ctx_parts. destruct (use_partitions _); [by right|by left]. Qed.

Lemma maybe_partitions_spec x g m :
  cache_ok x m →
  ∃ m', maybe_partitions x g m = (ctx_parts x g, m') ∧ cache_ok x m' ∧ witness_map m' = witness_map m.
Proof.
  intros Hm. unfold maybe_partitions, ctx_parts, guard_partitions.
  destruct (use_partitions (options x)); [|by eauto].
  destruct (guard_cache m !! GuardSignature_new g) as [p|] eqn:E.
  - rewrite (Hm g p E). eauto.
  - eexists. split_and!; [done| |done]. intros g' p. simpl.
    destruct (decide (GuardSignature_new g = GuardSignature_new g')) as [Hs|Hs].
    + rewrite Hs, lookup_insert_eq. intros [= <-]. by apply signature_partitions.
    + rewrite lookup_insert_ne by done. apply Hm.
Qed.

Lemma length_oob x : length (oob_bits x) = state_count (clts x).
Proof. unfold oob_bits, compute_oob_bits. by rewrite length_bv_tabulate. Qed.

Lemma bit_not_oob x i : oob_free x → i < state_count (clts x) → bit (not_oob_bits x) i = true.
Proof.
  intros Hx Hi. unfold not_oob_bits. rewrite bit_not by (by rewrite length_oob). by rewrite Hx.
Qed.

(** Masking with [not_oob] is the identity without out-of-bounds states. *)
Lemma mask_id x v :
  oob_free x → length v = state_count (clts x) → bv_and v (not_oob_bits x) = v.
Proof.
  intros Hx Hl. apply bv_eq; autorewrite with bits; [done|]. intros i Hi.
  rewrite bit_and, (bit_not_oob x i Hx) by lia. apply andb_true_r.
Qed.

Lemma predicate_bits_ok x p :
  ctx_ok x → trit_ok (env_state_count (env x)) (from_parts (predicate_bits x p).1 (predicate_bits x p).2).
Proof.
  intros Hx. unfold predicate_bits, predicate.
  destruct (predicates (env x) !! p) as [set|] eqn:E.
  { apply (cok_predicates x Hx) in E. constructor; simpl; autorewrite with bits; auto with bits. }
  destruct (_ && _).
  - constructor; simpl; autorewrite with bits; try done.
    intros i. rewrite !bit_and, !andb_true_iff. intros [H ?]. split; [|done].
    pose proof (bit_lt _ _ H) as Hl. rewrite length_bv_tabulate in Hl.
    rewrite bit_tabulate in H |- * by done. by rewrite H.
  - constructor; simpl; autorewrite with bits; auto with bits.
Qed.

(** ** The two-valued domain *)

Definition bool_modal (x : Ctx) (k : ModalKind) (g : Guard) (v : list bool) : list bool :=
  eval_modal_unbounded (clts x) k g v (ctx_parts x g) All.

Definition bool_ok (x : Ctx) (v : list bool) : Prop := length v = state_count (clts x).

Lemma bool_not_spec x v i :
  ctx_ok x → oob_free x → bool_ok x v → i < state_count (clts x) →
  bit (dom_not x v) i = negb (bit v i).
Proof.
  intros Hx Ho Hv Hi. simpl.
  rewrite bit_and, bit_not_oob, andb_true_r by done.
  rewrite (cok_count x Hx), bit_tabulate by done. rewrite lookup_bit; [done|]. by rewrite Hv.
Qed.

Lemma length_modal_unbounded c k g v parts f :
  length (eval_modal_unbounded c k g v parts f) = state_count c.
Proof. unfold eval_modal_unbounded. apply length_bv_tabulate. Qed.

Lemma bool_modal_spec x k g a id m :
  unbounded k g → cache_ok x m →
  ∃ m', dom_modal_image x k g a id m = (bool_modal x k g a, m') ∧ cache_ok x m'.
Proof.
  intros Hg Hm. simpl. unfold eval_modal_with_target_set. rewrite Hg.
  destruct (maybe_partitions_spec x g m Hm) as (m' & -> & Hm' & _).
  eexists. split; [done|]. destruct (witness_map m'), k; done.
Qed.

#[local] Ltac bits_mono :=
  let i := fresh "i" in intros i; rewrite ?bit_and, ?andb_true_iff; intuition.

Definition bool_laws (x : Ctx) (Hx : ctx_ok x) (Ho : oob_free x) :
  DomainLaws (list bool) x unbounded.
Proof.
  refine {| dok := bool_ok x; dle := bv_sub; dsize := bv_count; dbound := state_count (clts x);
            dmodal := bool_modal x |}; unfold bool_ok; simpl; rewrite ?(cok_count x Hx).
  - apply bv_sub_refl.
  - apply bv_sub_trans.
  - intros a b Ha Hb. apply bv_sub_antisym. congruence.
  - by autorewrite with bits.
  - by autorewrite with bits.
  - intros a _ i. by rewrite bit_fill.
  - intros a Ha i Hi. rewrite mask_id by (by autorewrite with bits). rewrite bit_fill.
    apply bit_lt in Hi. rewrite Ha in Hi. by apply bool_decide_eq_true.
  - intros p. destruct (predicate_bits_ok x p Hx) as [Hl _ _]. simpl in Hl. by rewrite (cok_count x Hx) in Hl.
  - intros a _. by autorewrite with bits.
  - intros a b Ha _. by autorewrite with bits.
  - intros a b Ha _. by autorewrite with bits.
  - intros. apply length_modal_unbounded.
  - intros a b Ha Hb Hs i Hi. pose proof (bit_lt _ _ Hi) as Hl. revert Hl. autorewrite with bits.
    intros Hl. pose proof (bool_not_spec x a i Hx Ho Ha Hl) as HA.
    pose proof (bool_not_spec x b i Hx Ho Hb Hl) as HB. simpl in HA, HB.
    rewrite (cok_count x Hx) in HA, HB. rewrite HA. rewrite HB in Hi.
    apply negb_true_iff in Hi. apply negb_true_iff. destruct (bit a i) eqn:E; [|done].
    apply Hs in E. congruence.
  - intros a a' b b' _ _ _ _ H1 H2 i. rewrite !bit_and, !andb_true_iff. intros [? ?]. split; auto.
  - intros a a' b b' Ha Ha' Hb Hb' H1 H2 i Hi. pose proof (bit_lt _ _ Hi) as Hl.
    rewrite length_bv_or in Hl. rewrite bit_or in Hi |- * by congruence.
    apply orb_true_iff in Hi. apply orb_true_iff. destruct Hi; auto.
  - intros k g a b _ _ _ Hs. by apply eval_modal_unbounded_mono.
  - intros. by apply bool_modal_spec.
  - intros v a b i m Hm. unfold record_iteration_ranks. by destruct (witness_map m).
  - intros a b. apply bool_decide_eq_true.
  - intros a b Ha Hb. apply bv_count_strict. congruence.
  - intros a Ha. rewrite <-Ha. apply bv_count_le_length.
Defined.

(** ** The three-valued domain *)

Definition kleene_modal (x : Ctx) (k : ModalKind) (g : Guard) (v : TritSet) : TritSet :=
  match g_control g with
  | Control_All =>
    let fs := kleene_filters k in
    from_parts (eval_modal_unbounded (clts x) k g (must_true v) (ctx_parts x g) fs.1)
               (eval_modal_unbounded (clts x) k g (may_true v) (ctx_parts x g) fs.2)
  | _ => modal_trit_from_target (clts x) k g (ctx_parts x g) v
  end.

Lemma kleene_modal_spec x k g a id m :
  unbounded k g → cache_ok x m →
  ∃ m', dom_modal_image x k g a id m = (kleene_modal x k g a, m') ∧ cache_ok x m'.
Proof.
  intros Hg Hm. simpl. unfold kleene_modal_image, kleene_modal, modal_bits_from_target. rewrite Hg.
  destruct (maybe_partitions_spec x g m Hm) as (m1 & E1 & Hm1 & _).
  destruct (g_control g); rewrite ?E1; [|by eauto..].
  destruct (maybe_partitions_spec x g m1 Hm1) as (m2 & E2 & Hm2 & _).
  destruct (kleene_filters k) as [fa fb]; simpl. rewrite E2. eauto.
Qed.

Lemma kleene_modal_ok x k g a :
  ctx_ok x → trit_ok (state_count (clts x)) a → trit_ok (state_count (clts x)) (kleene_modal x k g a).
Proof.
  intros Hx [Hl1 Hl2 Hs]. unfold kleene_modal. destruct (g_control g) eqn:Hc;
    [|apply trit_ok_modal_trit..].
  constructor; simpl; [apply length_modal_unbounded..|].
  intros i. pose proof (two_pass_sub (clts x) k g (must_true a) (may_true a) (ctx_parts x g) i
    (cok_clts x Hx) (ctx_parts_ok x g) Hc Hs) as H. by destruct k.
Qed.

Lemma kleene_modal_mono x k g a b : tle a b → tle (kleene_modal x k g a) (kleene_modal x k g b).
Proof.
  intros Hs. unfold kleene_modal. destruct (g_control g); [|by apply modal_trit_mono..].
  destruct Hs. split; simpl; by apply eval_modal_unbounded_mono.
Qed.

Lemma trit_ok_predicate x p : ctx_ok x → trit_ok (state_count (clts x))
  (dom_from_predicate (V := TritSet) x (predicate_bits x p).1 (predicate_bits x p).2).
Proof.
  intros Hx. destruct (predicate_bits_ok x p Hx) as [H1 H2 H3]. simpl in *.
  rewrite (cok_count x Hx) in H1, H2. constructor; simpl; autorewrite with bits; [done..|].
  intros i Hi. pose proof (bit_lt _ _ Hi). rewrite bit_or by lia. by rewrite (H3 i Hi).
Qed.

Lemma tle_not n a b : trit_ok n a → trit_ok n b → tle a b → tle (tnot b) (tnot a).
Proof.
  intros [Ha1 Ha2 _] [Hb1 Hb2 _] [H1 H2].
  split; intros i Hi; pose proof (bit_lt _ _ Hi) as Hl; simpl in *; rewrite length_bv_not in Hl;
    rewrite bit_not in Hi |- * by lia; apply negb_true_iff in Hi; apply negb_true_iff.
  - destruct (bit (may_true a) i) eqn:E; [apply H2 in E; congruence|done].
  - destruct (bit (must_true a) i) eqn:E; [apply H1 in E; congruence|done].
Qed.

Lemma tle_or n a a' b b' :
  trit_ok n a → trit_ok n a' → trit_ok n b → trit_ok n b' →
  tle a a' → tle b b' → tle (tor a b) (tor a' b').
Proof.
  intros [Ha1 Ha2 _] [Ha3 Ha4 _] [Hb1 Hb2 _] [Hb3 Hb4 _] [H1 H2] [H3 H4].
  split; intros i Hi; pose proof (bit_lt _ _ Hi) as Hl; simpl in *; rewrite length_bv_or in Hl;
    rewrite bit_or in Hi |- * by lia; apply orb_true_iff in Hi; apply orb_true_iff;
    destruct Hi; auto.
Qed.

Definition trit_size (a : TritSet) : nat := bv_count (must_true a) + bv_count (may_true a).

Lemma trit_size_strict n a b :
  trit_ok n a → trit_ok n b → tle a b → a ≠ b → trit_size a < trit_size b.
Proof.
  intros [Ha1 Ha2 _] [Hb1 Hb2 _] [H1 H2] Hne. unfold trit_size.
  pose proof (bv_count_mono (must_true a) (must_true b) ltac:(congruence) H1). pose proof (bv_count_mono (may_true a) (may_true b) ltac:(congruence) H2).
  destruct (decide (must_true a = must_true b)) as [E1|E1].
  - destruct (decide (may_true a = may_true b)) as [E2|E2]; [by destruct Hne; apply TritSet_eq|].
    pose proof (bv_count_strict (may_true a) (may_true b) ltac:(congruence) H2 E2). lia.
  - pose proof (bv_count_strict (must_true a) (must_true b) ltac:(congruence) H1 E1). lia.
Qed.

Definition kleene_laws (x : Ctx) (Hx : ctx_ok x) (Ho : oob_free x) :
  DomainLaws TritSet x unbounded.
Proof.
  refine {| dok := trit_ok (state_count (clts x)); dle := tle; dsize := trit_size;
            dbound := 2 * state_count (clts x); dmodal := kleene_modal x |};
    simpl; rewrite ?(cok_count x Hx).
  - intros a. split; apply bv_sub_refl.
  - intros a b c [? ?] [? ?]. split; by eapply bv_sub_trans.
  - intros a b [? ? _] [? ? _] [? ?] [? ?].
    apply TritSet_eq; apply bv_sub_antisym; (done || congruence).
  - apply trit_ok_false.
  - apply trit_ok_true.
  - intros a _. split; intros i; simpl; by rewrite bit_fill.
  - intros a [H1 H2 _]. split; intros i Hi; simpl; apply bit_lt in Hi.
    + fold (not_oob_bits x). rewrite mask_id by (by autorewrite with bits).
      rewrite bit_fill. apply bool_decide_eq_true. lia.
    + rewrite bit_fill. apply bool_decide_eq_true. lia.
  - intros p. by apply trit_ok_predicate.
  - apply trit_ok_not.
  - apply trit_ok_and.
  - apply trit_ok_or.
  - intros. by apply kleene_modal_ok.
  - apply tle_not.
  - intros a a' b b' _ _ _ _ [H1 H2] [H3 H4].
    split; intros i; simpl; rewrite !bit_and, !andb_true_iff; intros [? ?]; split; auto.
  - apply tle_or.
  - intros. by apply kleene_modal_mono.
  - intros. by apply kleene_modal_spec.
  - done.
  - apply eq_set_spec.
  - apply trit_size_strict.
  - intros a [H1 H2 _]. unfold trit_size. pose proof (bv_count_le_length (must_true a)).
    pose proof (bv_count_le_length (may_true a)). lia.
Defined.
