(* ===== verification/Checking.v ===== *)
(** What a verdict of the model checker means.

    [sat] is the textbook semantics of the modal mu-calculus on a [Clts], with
    fixpoints as intersections of pre-fixpoints and unions of post-fixpoints;
    [step] reads a modality under its [ctrl] scope, as the reference pages of the
    logic document it.  The theorems relate the
    evaluator's bits to [sat], the three-valued verdicts to the two-valued
    ones, and record where the two paths part. *)
From S2P Require Import Prelude Formula Trit Clts Modal Evaluator Semantics Domains.

(** ** Textbook semantics *)

Definition matched (c : Clts) (s : StateId) (g : Guard) (t : Transition) : Prop :=
  t ∈ outgoing c s ∧ guard_matches_labels_and_vars c s t g = true.

(** The documented reading of the scopes ([wiki/Mu-Calculus-Reference.md],
    [wiki/Counterstrategy.md]).  A controllable diamond asks for an action all of
    whose outcomes are good; an environment diamond for an uncontrollable move to
    a good state, or that every controllable move leads to one (the second page;
    the first names the uncontrollable move only).  An unscoped diamond asks for
    some good successor; the first page says so, and contradicts it in an example
    ([nondeterministic_diamond_departure]). *)
Definition skolem_step (c : Clts) (g : Guard) (P : nat → Prop) (s : StateId) : Prop :=
  ∃ t0, matched c s g t0 ∧ ∀ t, matched c s g t → label_set t = label_set t0 → P (target t).

Definition step (c : Clts) (k : ModalKind) (g : Guard) (P : nat → Prop) (s : StateId) : Prop :=
  match k, g_control g with
  | Diamond, Control_All => ∃ t, matched c s g t ∧ P (target t)
  | Diamond, Controllable => skolem_step c g P s
  | Diamond, Environment =>
      (∃ t, matched c s g t ∧ is_uncontrollable c t = true ∧ P (target t))
      ∨ (∀ t, matched c s g t → is_controllable c t = true → P (target t))
  | Box, Controllable =>
      (∀ t, matched c s g t → is_uncontrollable c t = true → P (target t))
      ∧ ((∃ t, matched c s g t ∧ is_controllable c t = true ∧ P (target t))
         ∨ ∀ t, matched c s g t → is_controllable c t = false)
  | Box, _ => ∀ t, matched c s g t → P (target t)
  end.

(** The truth of an atomic predicate: the environment's set, else the
    three-valued labelling read as definitely true. *)
Definition atom (c : Clts) (e : EvalEnvironment) (p : string) (s : nat) : Prop :=
  match predicate e p with
  | Some bits => bit bits s = true
  | None => state_3valued_predicate c s p = Some KleeneT
  end.

Definition upd (ρ : nat → nat → Prop) (v : nat) (S : nat → Prop) : nat → nat → Prop :=
  λ w, if decide (w = v) then S else ρ w.

Fixpoint sat (c : Clts) (e : EvalEnvironment) (t : Tree) (ρ : nat → nat → Prop) (s : nat) : Prop :=
  match t with
  | TTrue => True
  | TFalse => False
  | TPred p => atom c e p s
  | TVar v => ρ v s
  | TNot t => ¬ sat c e t ρ s
  | TAnd l r => sat c e l ρ s ∧ sat c e r ρ s
  | TOr l r => sat c e l ρ s ∨ sat c e r ρ s
  | TModal k g t => step c k g (sat c e t ρ) s
  | TFix Least v t => ∀ S : nat → Prop,
      (∀ s', s' < state_count c → sat c e t (upd ρ v S) s' → S s') → S s
  | TFix Greatest v t => ∃ S : nat → Prop,
      (∀ s', s' < state_count c → S s' → sat c e t (upd ρ v S) s') ∧ S s
  end.

(** [sat] in the system and environment of a context. *)
Abbreviation csat x := (sat (clts x) (env x)).

(** No variable is bound: a free one is the empty set. *)
Definition no_binding : nat → nat → Prop := λ _ _, False.

(** ** Models and guards the textbook semantics covers *)

(** No hyper-transition with several targets. *)
Definition plain (c : Clts) : Prop :=
  ∀ s t hyper, t ∈ outgoing c s → modality t = MustHyperOnly hyper → length hyper ≤ 1.

(** The controllable moves a guard admits at a state all have the same labels. *)
Definition one_action (c : Clts) (g : Guard) : Prop :=
  ∀ s t u, matched c s g t → matched c s g u →
    is_controllable c t = true → is_controllable c u = true → label_set t = label_set u.

(** A modality without [steps]; an environment diamond only without guard
    partitions (see [environment_diamond_partitions]) and where the controller
    has no choice of actions (see [environment_diamond_departure]). *)
Definition checkable (x : Ctx) (k : ModalKind) (g : Guard) : Prop :=
  unbounded k g ∧
  (k = Diamond → g_control g = Environment → use_partitions (options x) = false ∧ one_action (clts x) g).

Lemma coverage_plain c s t T f :
  plain c → t ∈ outgoing c s →
  transition_target_in_set_diamond t T = bit T (target t) ∧
  transition_target_in_set_box t T = bit T (target t) ∧
  coverage f t T = bit T (target t) ∧ box_reads c t T = bit T (target t).
Proof.
  intros Hp Ht.
  assert (H : transition_target_in_set_diamond t T = bit T (target t) ∧
              transition_target_in_set_box t T = bit T (target t)).
  { unfold transition_target_in_set_diamond, transition_target_in_set_box.
    destruct (modality t) eqn:E; [done..|]. specialize (Hp s t _ Ht E).
    by destruct (Nat.ltb_spec 1 (length targets)); [lia|]. }
  destruct H as [H1 H2]. unfold coverage, box_reads. split_and!; [done..| |].
  - by destruct f.
  - by destruct (is_uncontrollable c t).
Qed.

Lemma admitted_matched c s g t :
  t ∈ outgoing c s → step_admitted c s g All t = true ↔ matched c s g t.
Proof. intros Ht. unfold step_admitted, matched. simpl. rewrite andb_true_r. tauto. Qed.

Lemma step_mono c k g (P Q : nat → Prop) s :
  clts_ok c → (∀ s', s' < state_count c → P s' → Q s') → step c k g P s → step c k g Q s.
Proof.
  intros Hok HPQ.
  assert (Hm : ∀ t, matched c s g t → P (target t) → Q (target t)).
  { intros t [Ht _]. apply HPQ. by eapply ok_target. }
  assert (Hsk : skolem_step c g P s → skolem_step c g Q s).
  { intros (t0 & H0 & H). exists t0. split; [done|]. intros t Ht Hl. by apply Hm, H. }
  unfold step. destruct k, (g_control g).
  - intros H t Ht. by apply Hm, H.
  - intros [H1 [(t & Ht & Hc & HP)|H2]]; (split; [intros u Hu Hunc; by apply Hm, H1|]).
    + left. exists t. split_and!; [done..|]. by apply Hm.
    + by right.
  - intros H t Ht. by apply Hm, H.
  - intros (t & Ht & HP). exists t. split; [done|]. by apply Hm.
  - done.
  - intros [(t & Ht & Hu & HP)|H].
    + left. exists t. split_and!; [done..|]. by apply Hm.
    + right. intros t Ht Hc. by apply Hm, H.
Qed.

(** ** One modal step of the two-valued evaluator *)

Section step.
Context (x : Ctx) (Hx : ctx_ok x) (Hplain : plain (clts x)) (Hkeys : keys_faithful (clts x)).
Let c := clts x.

Local Lemma ctx_clts_ok : clts_ok c.
Proof using All. apply cok_clts, Hx. Qed.

Lemma skolem_step_spec s g (P : nat → Prop) (b : Transition → bool) :
  (∀ t, t ∈ outgoing c s → b t = true ↔ P (target t)) →
  skolem_exists c s (step_admitted c s g All) b ↔ skolem_step c g P s.
Proof using All.
  intros HP. unfold skolem_exists, skolem_step. split.
  - intros (t0 & H0 & Ha0 & H). exists t0. split; [by apply admitted_matched|].
    intros t Ht Hl. pose proof (proj1 Ht) as Hin. apply HP; [done|]. apply H; [done| |done].
    by apply admitted_matched.
  - intros (t0 & H0 & H). pose proof (proj1 H0) as Hin0. exists t0.
    split_and!; [done|by apply admitted_matched|].
    intros t Ht Ha Hl. apply HP; [done|]. apply H; [|done]. by apply admitted_matched.
Qed.

Lemma exists_controllable s g T :
  s < state_count c → g_control g = Controllable →
  modal_exists c s g T (ctx_parts x g) All = true ↔ step c Diamond g (λ s, bit T s = true) s.
Proof using All.
  intros Hs Hc. pose proof ctx_clts_ok as Hok. pose proof (ctx_parts_ok x g) as Hp. fold c in Hp.
  unfold step. rewrite Hc, <-(skolem_step_spec s g _ (λ t, transition_target_in_set_diamond t T)).
  2:{ intros t Ht. by destruct (coverage_plain c s t T All Hplain Ht) as (-> & _). }
  unfold modal_exists. destruct (parts_current (ctx_parts x g) s) eqn:Hcur; simpl.
  - rewrite Hc, orb_false_r.
    apply (skolem_spec c s g (ctx_parts x g) All
             (λ t, transition_target_in_set_diamond t T) Hok Hp Hkeys).
  - split; [done|]. intros (t0 & _ & Ha & _).
    by rewrite (parts_current_blocks c s g (ctx_parts x g) All t0 Hp Hs Hcur) in Ha.
Qed.

Lemma environment_diamond_spec s g T :
  environment_diamond c (edge_admitted c s g (ctx_parts x g) All)
    (λ t, transition_target_in_set_diamond t T) (outgoing c s) = true ↔
  (∃ t, matched c s g t ∧ is_uncontrollable c t = true ∧ bit T (target t) = true) ∨
  (∀ t, matched c s g t → is_controllable c t = true → bit T (target t) = true).
Proof using All.
  pose proof ctx_clts_ok as Hok. pose proof (ctx_parts_ok x g) as Hp. fold c in Hp.
  assert (Hadm : ∀ t, t ∈ outgoing c s →
    edge_admitted c s g (ctx_parts x g) All t = true ↔ matched c s g t).
  { intros t Ht. rewrite edge_admitted_spec by done. by apply admitted_matched. }
  assert (Hcov : ∀ t, t ∈ outgoing c s → transition_target_in_set_diamond t T = bit T (target t)).
  { intros t Ht. apply (coverage_plain c s t T All Hplain Ht). }
  unfold environment_diamond. rewrite orb_true_iff, existsb_spec.
  set (con := List.filter (λ t, is_controllable c t && _) _).
  assert (Hcon : ∀ t, t ∈ con ↔ matched c s g t ∧ is_controllable c t = true).
  { intros t. unfold con. rewrite elem_of_filterb, andb_true_iff. split.
    - intros (Ht & ? & ?). split; [|done]. by apply Hadm.
    - intros [Hm ?]. pose proof (proj1 Hm). split_and!; [done..|]. by apply Hadm. }
  assert (Hall : (negb (null con) && forallb (λ t, transition_target_in_set_diamond t T) con)
    || negb (negb (null con)) = true ↔ ∀ t, t ∈ con → transition_target_in_set_diamond t T = true).
  { clearbody con. rewrite <-forallb_spec. destruct con as [|t0 con]; simpl; [done|].
    by rewrite orb_false_r. }
  rewrite Hall. split; (intros [H|H]; [left|right]).
  - destruct H as (t & [Ht [Hu Ha]%andb_true_iff]%elem_of_filterb & Hb).
    rewrite Hcov in Hb by done. exists t. split_and!; [by apply Hadm|done..].
  - intros t Hm Hc. rewrite <-Hcov by apply Hm. apply H, Hcon. done.
  - destruct H as (t & Hm & Hu & Hb). pose proof (proj1 Hm). exists t. rewrite Hcov by done.
    split; [|done]. apply elem_of_filterb. rewrite andb_true_iff.
    split_and!; [done..|]. by apply Hadm.
  - intros t [Hm Hc]%Hcon. rewrite Hcov by apply Hm. by apply H.
Qed.

(** Without partitions an environment diamond is the documented step or an
    action all of whose outcomes are good. *)
Lemma exists_environment_reads s g T :
  s < state_count c → g_control g = Environment → use_partitions (options x) = false →
  modal_exists c s g T (ctx_parts x g) All = true ↔
  skolem_step c g (λ s, bit T s = true) s ∨ step c Diamond g (λ s, bit T s = true) s.
Proof using All.
  intros Hs Hc Hu. pose proof ctx_clts_ok as Hok. pose proof (ctx_parts_ok x g) as Hp. fold c in Hp.
  unfold step. rewrite Hc, <-environment_diamond_spec.
  rewrite <-(skolem_step_spec s g _ (λ t, transition_target_in_set_diamond t T)).
  2:{ intros t Ht. by destruct (coverage_plain c s t T All Hplain Ht) as (-> & _). }
  unfold modal_exists. assert (Hcur : parts_current (ctx_parts x g) s = true).
  { unfold ctx_parts. by rewrite Hu. }
  rewrite Hcur; simpl. rewrite Hc, orb_true_iff.
  by rewrite (skolem_spec c s g (ctx_parts x g) All
                (λ t, transition_target_in_set_diamond t T) Hok Hp Hkeys).
Qed.

(** Where the controller has no choice of actions, such an action is an escape or
    leaves the controller trapped. *)
Lemma one_action_skolem s g (P : nat → Prop) :
  one_action c g → g_control g = Environment → skolem_step c g P s → step c Diamond g P s.
Proof using All.
  intros Ha Hc (t0 & H0 & H). unfold step. rewrite Hc.
  pose proof (controllable_xor c s t0 ctx_clts_ok (proj1 H0)) as Hn.
  destruct (is_controllable c t0) eqn:Hct.
  - right. intros t Ht Hct'. apply H; [done|]. by apply (Ha s).
  - left. exists t0. split_and!; [done| |by apply H]. by apply negb_sym in Hn.
Qed.

Lemma exists_environment s g T :
  s < state_count c → g_control g = Environment → use_partitions (options x) = false → one_action c g →
  modal_exists c s g T (ctx_parts x g) All = true ↔ step c Diamond g (λ s, bit T s = true) s.
Proof using All.
  intros Hs Hc Hu Ha. rewrite exists_environment_reads by done. split; [|by right].
  intros [H|H]; [by apply one_action_skolem|done].
Qed.

(** A plain box quantifies over the matched transitions. *)
Lemma forall_admitted s g T (r : Transition → bool) :
  (∀ t, t ∈ outgoing c s → r t = bit T (target t)) →
  forallb (λ t, negb (step_admitted c s g All t) || r t) (outgoing c s) = true ↔
  ∀ t, matched c s g t → bit T (target t) = true.
Proof using All.
  intros Hr. rewrite forallb_spec. split.
  - intros H t Hm. pose proof (proj1 Hm) as Ht. specialize (H t Ht). rewrite Hr in H by done.
    apply admitted_matched in Hm; [|done]. by rewrite Hm in H.
  - intros H t Ht. rewrite Hr by done. destruct (step_admitted c s g All t) eqn:Ha; [|done].
    apply H. by apply admitted_matched.
Qed.

Lemma forall_controllable s g T :
  s < state_count c → g_control g = Controllable →
  modal_forall c s g T (ctx_parts x g) All = true ↔ step c Box g (λ s, bit T s = true) s.
Proof using All.
  intros Hs Hc. pose proof ctx_clts_ok as Hok. pose proof (ctx_parts_ok x g) as Hp. fold c in Hp.
  assert (Hbox : ∀ t, t ∈ outgoing c s → transition_target_in_set_box t T = bit T (target t)).
  { intros t Ht. apply (coverage_plain c s t T All Hplain Ht). }
  assert (Hadm : ∀ t, t ∈ outgoing c s → step_admitted c s g All t = true ↔ matched c s g t).
  { intros t Ht. by apply admitted_matched. }
  rewrite modal_forall_controllable by done. unfold step. rewrite Hc. split; intros [H1 H2].
  - split.
    + intros t Hm Hu. pose proof (proj1 Hm). rewrite <-Hbox by done. apply H1; [done| |done].
      by apply Hadm.
    + destruct H2 as [(t & Ht & Ha & Hct & Hb)|H2]; [left; exists t|right; intros t Hm].
      * rewrite <-Hbox by done. split_and!; [by apply Hadm|done..].
      * pose proof (proj1 Hm). apply H2; [done|]. by apply Hadm.
  - split.
    + intros t Ht Ha Hu. rewrite Hbox by done. apply H1; [|done]. by apply Hadm.
    + destruct H2 as [(t & Hm & Hct & Hb)|H2]; [left; exists t|right; intros t Ht Ha].
      * pose proof (proj1 Hm). rewrite Hbox by done. split_and!; [done|by apply Hadm|done..].
      * apply H2. by apply Hadm.
Qed.

(** The bits of an unbounded modality are the textbook step. *)
Lemma bool_modal_step k g T s :
  checkable x k g → s < state_count c →
  bit (bool_modal x k g T) s = true ↔ step c k g (λ s, bit T s = true) s.
Proof using All.
  intros [Hb He] Hs. pose proof ctx_clts_ok as Hok. pose proof (ctx_parts_ok x g) as Hp. fold c in Hp.
  unfold bool_modal, eval_modal_unbounded. fold c. rewrite bit_tabulate by done.
  assert (Hcov : ∀ t, t ∈ outgoing c s → coverage All t T = bit T (target t)
    ∧ box_reads c t T = bit T (target t) ∧ transition_target_in_set_box t T = bit T (target t)).
  { intros t Ht. by destruct (coverage_plain c s t T All Hplain Ht) as (? & ? & ? & ?). }
  destruct k; destruct (g_control g) eqn:Hc.
  - unfold step. rewrite Hc, modal_forall_all by done. apply forall_admitted. apply Hcov.
  - by apply forall_controllable.
  - unfold step. rewrite Hc, modal_forall_environment by done. apply forall_admitted. apply Hcov.
  - unfold step. rewrite Hc, modal_exists_all, existsb_spec by done. split.
    + intros (t & Ht & [Ha Hcv]%andb_true_iff). exists t. split; [by apply admitted_matched|].
      destruct (Hcov t Ht) as [<- _]. done.
    + intros (t & Hm & Hb2). pose proof (proj1 Hm) as Ht. exists t. split; [done|].
      apply andb_true_iff. destruct (Hcov t Ht) as [-> _].
      split; [by apply admitted_matched|done].
  - by apply exists_controllable.
  - destruct (He eq_refl eq_refl). by apply exists_environment.
Qed.
End step.

(** ** [sat] depends on the bindings pointwise and monotonically *)

Definition holds_on (n : nat) (P Q : nat → Prop) : Prop := ∀ s, s < n → P s → Q s.

Lemma holds_on_refl n P : holds_on n P P.
Proof. by intros s _ H. Qed.

(** [ρ] is below [ρ'] where a variable occurs positively, above it where it
    occurs negatively, and equal elsewhere. *)
Definition env_below (n : nat) (pol : bool) (v : nat) (ρ ρ' : nat → nat → Prop) : Prop :=
  (if pol then holds_on n (ρ v) (ρ' v) else holds_on n (ρ' v) (ρ v)) ∧
  ∀ w, w ≠ v → holds_on n (ρ w) (ρ' w) ∧ holds_on n (ρ' w) (ρ w).

Lemma env_below_upd n pol v w ρ ρ' S :
  w ≠ v → env_below n pol v ρ ρ' → env_below n pol v (upd ρ w S) (upd ρ' w S).
Proof.
  intros Hne [H1 H2]. unfold env_below, upd. rewrite !decide_False by done. split; [done|].
  intros u Hu. case_decide; [split; apply holds_on_refl|by apply H2].
Qed.

Lemma env_below_shadow n v ρ ρ' S :
  (∀ w, w ≠ v → holds_on n (ρ w) (ρ' w) ∧ holds_on n (ρ' w) (ρ w)) →
  ∀ w, holds_on n (upd ρ v S w) (upd ρ' v S w) ∧ holds_on n (upd ρ' v S w) (upd ρ v S w).
Proof. intros H w. unfold upd. case_decide; [split; apply holds_on_refl|by apply H]. Qed.

Lemma sat_ext x t ρ ρ' s :
  clts_ok (clts x) → let n := state_count (clts x) in
  (∀ w, holds_on n (ρ w) (ρ' w) ∧ holds_on n (ρ' w) (ρ w)) → s < n →
  csat x t ρ s ↔ csat x t ρ' s.
Proof.
  intros Hok n. revert ρ ρ' s.
  induction t as [| |p|v|t IH|l IHl r IHr|l IHl r IHr|k g t IH|k v t IH];
    intros ρ ρ' s H Hs; simpl; try done.
  - split; by apply H.
  - by rewrite (IH ρ ρ').
  - by rewrite (IHl ρ ρ'), (IHr ρ ρ').
  - by rewrite (IHl ρ ρ'), (IHr ρ ρ').
  - split; apply step_mono; try done; intros s' Hs'; apply (IH ρ ρ' s' H Hs').
  - assert (HS : ∀ S s', s' < n → csat x t (upd ρ v S) s' ↔ csat x t (upd ρ' v S) s').
    { intros S s' Hs'. apply IH; [|done]. apply env_below_shadow. intros w _. apply H. }
    destruct k; split.
    + intros Hf S HS'. apply Hf. intros s' Hs' Hsat. apply HS'; [done|]. by apply HS.
    + intros Hf S HS'. apply Hf. intros s' Hs' Hsat. apply HS'; [done|]. by apply HS.
    + intros (S & HS' & ?). exists S. split; [|done]. intros s' Hs' ?. by apply HS, HS'.
    + intros (S & HS' & ?). exists S. split; [|done]. intros s' Hs' ?. by apply HS, HS'.
Qed.

Lemma sat_mono x t pol v ρ ρ' s :
  clts_ok (clts x) → let n := state_count (clts x) in
  occurs_only pol v t = true → env_below n true v ρ ρ' → s < n →
  if pol then csat x t ρ s → csat x t ρ' s else csat x t ρ' s → csat x t ρ s.
Proof.
  intros Hok n. revert pol ρ ρ' s.
  induction t as [| |p|w|t IH|l IHl r IHr|l IHl r IHr|k g t IH|k w t IH];
    intros pol ρ ρ' s Ho He Hs; simpl in *.
  - by destruct pol.
  - by destruct pol.
  - by destruct pol.
  - destruct He as [H1 H2]. destruct (Nat.eqb_spec v w) as [<-|Hne].
    + destruct pol; [|done]. by apply H1.
    + destruct (H2 w ltac:(done)) as [Ha Hb]. destruct pol; [by apply Ha|by apply Hb].
  - specialize (IH (negb pol) ρ ρ' s Ho He Hs). destruct pol; simpl in *; tauto.
  - apply andb_true_iff in Ho as [Ho1 Ho2]. specialize (IHl pol ρ ρ' s Ho1 He Hs).
    specialize (IHr pol ρ ρ' s Ho2 He Hs). destruct pol; tauto.
  - apply andb_true_iff in Ho as [Ho1 Ho2]. specialize (IHl pol ρ ρ' s Ho1 He Hs).
    specialize (IHr pol ρ ρ' s Ho2 He Hs). destruct pol; tauto.
  - pose proof (λ s' H, IH pol ρ ρ' s' Ho He H) as IH'.
    destruct pol; apply step_mono; done.
  - assert (HS : ∀ S s', s' < n → if pol then csat x t (upd ρ w S) s' → csat x t (upd ρ' w S) s'
      else csat x t (upd ρ' w S) s' → csat x t (upd ρ w S) s').
    { intros S s' Hs'. destruct (Nat.eqb_spec v w) as [<-|Hne].
      - pose proof (sat_ext x t (upd ρ v S) (upd ρ' v S) s' Hok
          (env_below_shadow _ v ρ ρ' S (proj2 He)) Hs') as Heq. destruct pol; apply Heq.
      - apply IH; [done|by apply env_below_upd|done]. }
    destruct pol, k.
    + intros Hf S HS'. apply Hf. intros s' Hs' ?. by apply HS', HS.
    + intros (S & HS' & ?). exists S. split; [|done]. intros s' Hs' ?. by apply HS, HS'.
    + intros Hf S HS'. apply Hf. intros s' Hs' ?. by apply HS', HS.
    + intros (S & HS' & ?). exists S. split; [|done]. intros s' Hs' ?. by apply HS, HS'.
Qed.

(** ** The denotation is the textbook semantics *)

Section correctness.
Context (x : Ctx) (Hx : ctx_ok x) (Ho : oob_free x)
  (Hplain : plain (clts x)) (Hkeys : keys_faithful (clts x)).
Let n := state_count (clts x).
Let L := bool_laws x Hx Ho.
#[local] Existing Instance L.

Definition bits_env (ρ : gmap FormulaVarId (list bool)) : nat → nat → Prop :=
  λ v s, bit (dom_from_binding x (ρ !! v)) s = true.

Lemma bits_env_insert ρ v w u s :
  bits_env (<[v := w]> ρ) u s ↔ upd (bits_env ρ) v (λ s, bit w s = true) u s.
Proof using Type.
  unfold bits_env, upd. case_decide as Hd.
  - subst. by rewrite lookup_insert_eq.
  - by rewrite lookup_insert_ne by done.
Qed.

Lemma sat_bits_insert t ρ v w s :
  s < n → csat x t (bits_env (<[v := w]> ρ)) s ↔ csat x t (upd (bits_env ρ) v (λ s, bit w s = true)) s.
Proof using Hx.
  intros Hs. apply sat_ext; [apply (cok_clts x Hx)| |done].
  intros u. split; intros s' _; by rewrite bits_env_insert.
Qed.

Lemma atom_spec p s :
  s < n → bit (predicate_bits x p).1 s = true ↔ atom (clts x) (env x) p s.
Proof using Hx Ho.
  intros Hs. unfold predicate_bits, atom. destruct (predicate (env x) p) as [bits|]; simpl.
  { rewrite bit_and, bit_not_oob by done. by rewrite andb_true_r. }
  rewrite (cok_count x Hx). fold n. unfold cube_label.
  destruct (has_3valued_predicates (clts x)) eqn:H3; simpl.
  - destruct (existsb _ _) eqn:Hm; simpl.
    + rewrite bit_and, bit_not_oob, andb_true_r, bit_tabulate by done. apply bool_decide_eq_true.
    + rewrite bit_fill. split; [done|]. intros Hl. exfalso.
      enough (Ht : existsb (λ i, match state_3valued_predicate (clts x) i p with
        Some _ => true | None => false end) (seq 0 n) = true) by congruence.
      apply existsb_spec. exists s. rewrite Hl, elem_of_seq. split; [lia|done].
  - rewrite bit_fill. split; [done|]. unfold state_3valued_predicate, has_3valued_predicates in *.
    destruct (state_3valued_predicates (clts x)) as [m|]; [|done].
    apply negb_false_iff, bool_decide_eq_true in H3 as ->. by rewrite lookup_empty.
Qed.

(** A fixpoint of the denotation is the textbook one: its bits are a closed
    set, and each iterate stays inside every closed set. *)
Lemma denote_sat_fix k v t ρ s :
  (∀ ρ s, env_ok x unbounded ρ → s < n →
     bit (denote x unbounded t ρ) s = true ↔ csat x t (bits_env ρ) s) →
  modalities_good unbounded t → monotone t = true → occurs_only true v t = true →
  env_ok x unbounded ρ → s < n →
  bit (denote x unbounded (TFix k v t) ρ) s = true ↔ csat x (TFix k v t) (bits_env ρ) s.
Proof using All.
  intros IH Hg Hm Hocc Hρ Hs. cbn [denote].
  set (F := λ w, denote x unbounded t (<[v := w]> ρ)).
  assert (HF : mono_fun x unbounded F).
  { split.
    - intros w Hw. apply denote_ok; [done|by apply env_ok_insert].
    - intros w w' Hw Hw' Hle. by apply (denote_mono x unbounded t Hg Hm true v). }
  assert (Hiter : ∀ j, dok (Nat.iter j F (fix_start x k))).
  { intros j. apply (dok_iter x unbounded); [done|]. apply (dok_start x unbounded). }
  assert (HFsat : ∀ w s', dok w → s' < n →
    bit (F w) s' = true ↔ csat x t (upd (bits_env ρ) v (λ s, bit w s = true)) s').
  { intros w s' Hw Hs'. unfold F. rewrite IH; [|by apply env_ok_insert|done]. by apply sat_bits_insert. }
  assert (Hmono : ∀ S S' s', holds_on n S S' → s' < n →
    csat x t (upd (bits_env ρ) v S) s' → csat x t (upd (bits_env ρ) v S') s').
  { intros S S' s' HS Hs'. apply (sat_mono x t true v _ _ s' (cok_clts x Hx) Hocc); [|done].
    split; [unfold upd; by rewrite !decide_True by done|].
    intros w Hw. unfold upd. rewrite !decide_False by done. split; apply holds_on_refl. }
  pose proof (fix_is_fixpoint x unbounded k F HF) as Hfix.
  set (a := Nat.iter dbound F (fix_start x k)) in *.
  assert (Ha : dok a) by apply Hiter.
  destruct k; cbn [sat]; fold n; split.
  - intros Hb S HS. revert s Hs Hb. unfold a. generalize dbound as j.
    induction j as [|j IHj]; intros s Hs; rewrite ?iter_succ.
    + simpl. by rewrite bit_fill.
    + intros Hb. apply HS; [done|]. apply (Hmono (λ s, bit (Nat.iter j F (fix_start x Least)) s = true));
        [intros s' Hs'; by apply IHj|done|]. apply HFsat; [apply Hiter|done|done].
  - intros H. apply (H (λ s, bit a s = true)). intros s' Hs' Hsat. rewrite <-Hfix. by apply HFsat.
  - intros Hb. exists (λ s, bit a s = true). split; [|done]. intros s' Hs' Hb'.
    apply HFsat; [done..|]. by rewrite Hfix.
  - intros (S & HS & Hs0). revert s Hs Hs0. unfold a. generalize dbound as j.
    induction j as [|j IHj]; intros s Hs Hs0; rewrite ?iter_succ.
    + simpl. rewrite bit_and, bit_not_oob, bit_fill, (cok_count x Hx) by done.
      by rewrite bool_decide_true by done.
    + apply HFsat; [apply Hiter|done|]. apply (Hmono S); [intros s' Hs'; by apply IHj|done|].
      by apply HS.
Qed.

Lemma denote_sat t ρ s :
  modalities_good (checkable x) t → monotone t = true → env_ok x unbounded ρ → s < n →
  bit (denote x unbounded t ρ) s = true ↔ csat x t (bits_env ρ) s.
Proof using All.
  assert (Hgood : ∀ t, modalities_good (checkable x) t → modalities_good unbounded t).
  { clear. intros t. induction t; simpl; try tauto. unfold checkable. tauto. }
  revert ρ s. induction t as [| |p|v|t IH|l IHl r IHr|l IHl r IHr|k g t IH|k v t IH];
    intros ρ s Hg Hm Hρ Hs; pose proof (Hgood _ Hg) as Hg'; cbn [denote sat].
  - simpl. rewrite bit_and, bit_not_oob, bit_fill, (cok_count x Hx) by done.
    rewrite bool_decide_true by done. done.
  - simpl. by rewrite bit_fill.
  - by apply atom_spec.
  - done.
  - rewrite bool_not_spec by (try done; apply (denote_ok x unbounded t ρ Hg' Hρ)).
    rewrite negb_true_iff, <-not_true_iff_false. by rewrite IH.
  - destruct Hg, Hg'. apply andb_true_iff in Hm as [? ?]. simpl.
    by rewrite bit_and, andb_true_iff, IHl, IHr.
  - destruct Hg, Hg' as [Hgl _]. apply andb_true_iff in Hm as [? ?]. simpl.
    rewrite bit_or, orb_true_iff, IHl, IHr; try done.
    rewrite (denote_ok x unbounded l ρ Hgl Hρ). done.
  - destruct Hg as [Hck Hg]. pose proof (bool_modal_step x Hx Hplain Hkeys k g
      (denote x unbounded t ρ) s Hck Hs) as Hstep.
    change (dmodal k g (denote x unbounded t ρ)) with (bool_modal x k g (denote x unbounded t ρ)).
    rewrite Hstep. split; apply step_mono; try apply (cok_clts x Hx);
      intros s' Hs' H; by apply (IH ρ s' Hg Hm Hρ Hs').
  - apply andb_true_iff in Hm as [Hocc Hm]. apply denote_sat_fix; try done.
    intros ρ' s' Hρ' Hs'. by apply IH.
Qed.
End correctness.

(** ** Running the evaluator *)

Definition mk_ctx (c : Clts) (e : EvalEnvironment) (o : EvaluationOptions) : Ctx :=
  {| clts := c; env := e; options := o |}.

Lemma no_priors_seeds `{D : EvalDomain V} x (L : DomainLaws V x unbounded) t :
  prior_approximants (options x) = None → seeds_sound x unbounded t.
Proof. intros Hp. apply no_seeds_sound. intros k v. unfold seed. by rewrite Hp. Qed.

(** The evaluator on a whole formula, for any lawful domain. *)
Lemma run_eval_correct `{D : EvalDomain V} x (L : DomainLaws V x unbounded) rounds f t w :
  ctx_ok x → wf_formula f → formula_tree f t → monotone t = true → modalities_good unbounded t →
  seeds_sound x unbounded t → dbound < rounds →
  ∃ st, run_eval rounds f x w = Some (denote x unbounded t ∅, st).
Proof.
  intros Hx Hwf Ht Hm Hg Hs Hr. unfold run_eval.
  rewrite (cok_count x Hx), Nat.eqb_refl.
  destruct (eval_correct x unbounded (length (nodes f)) rounds (nodes f) (root f) t ∅ (initial_state w))
    as (st & -> & _); eauto using st_ok_initial, env_ok_empty, formula_tree_fuel.
Qed.

Lemma modalities_checkable x t : modalities_good (checkable x) t → modalities_good unbounded t.
Proof. induction t; simpl; try tauto. unfold checkable. tauto. Qed.

Lemma bits_env_empty x v s : bits_env x ∅ v s ↔ no_binding v s.
Proof.
  unfold bits_env, no_binding, dom_from_binding. rewrite lookup_empty. simpl.
  by rewrite bit_fill.
Qed.

(** * Properties *)


(** Memoisation, guard partitions and witness recording are transparent.
    Two runs of the model checker that differ in those options return the same
    set of states. *)
Theorem options_transparent rounds rounds' f t c e o o' :
  let x := mk_ctx c e o in let x' := mk_ctx c e o' in
  ctx_ok x → oob_free x → plain c → keys_faithful c →
  prior_approximants o = None → prior_approximants o' = None →
  wf_formula f → formula_tree f t → monotone t = true →
  modalities_good (checkable x) t → modalities_good (checkable x') t →
  state_count c < rounds → state_count c < rounds' →
  ∃ v, evaluate_with_options rounds f c e o = Some v ∧
    (∃ w, evaluate_with_witnesses rounds' f c e o' = Some (v, w)).
Proof.
  intros x x' Hx Ho Hp Hk Hprior Hprior' Hwf Ht Hm Hg Hg2 Hr Hr'.
  assert (Hx' : ctx_ok x') by (destruct Hx; constructor; done).
  assert (Ho' : oob_free x') by done.
  destruct (run_eval_correct x (bool_laws x Hx Ho) rounds f t None Hx Hwf Ht Hm
    (modalities_checkable _ _ Hg) (no_priors_seeds x _ t Hprior) Hr) as [st Hrun].
  destruct (run_eval_correct x' (bool_laws x' Hx' Ho') rounds' f t (Some WitnessMap_default) Hx' Hwf
    Ht Hm (modalities_checkable _ _ Hg2) (no_priors_seeds x' _ t Hprior') Hr') as [st' Hrun'].
  set (v := denote x unbounded t ∅ (L := bool_laws x Hx Ho)) in *.
  set (v' := denote x' unbounded t ∅ (L := bool_laws x' Hx' Ho')) in *.
  assert (v = v') as Heq.
  { assert (Hl : length v = state_count c).
    { apply (denote_ok x unbounded (L := bool_laws x Hx Ho)); [by apply modalities_checkable in Hg|apply env_ok_empty]. }
    assert (Hl' : length v' = state_count c).
    { apply (denote_ok x' unbounded (L := bool_laws x' Hx' Ho')); [by apply modalities_checkable in Hg2|apply env_ok_empty]. }
    apply bv_eq; [congruence|]. intros s Hs. rewrite Hl in Hs. apply bool_eq_iff.
    unfold v, v'. rewrite (denote_sat x Hx Ho Hp Hk t ∅ s Hg Hm (env_ok_empty x unbounded) Hs).
    rewrite (denote_sat x' Hx' Ho' Hp Hk t ∅ s Hg2 Hm (env_ok_empty x' unbounded) Hs).
    rewrite (sat_ext x t (bits_env x ∅) no_binding s (cok_clts x Hx)) by
      (done || intros u; split; intros s' _; by rewrite bits_env_empty).
    by rewrite (sat_ext x' t (bits_env x' ∅) no_binding s (cok_clts x' Hx')) by
      (done || intros u; split; intros s' _; by rewrite bits_env_empty). }
  exists v. unfold evaluate_with_options, evaluate_with_witnesses. fold (mk_ctx c e o) (mk_ctx c e o').
  fold x x'. rewrite Hrun, Hrun', <-Heq. split; [done|]. eexists. done.
Qed.

(** Approximant reuse is sound. Seeding fixpoint loops with prior
    approximants that lie below their least fixpoint (above their greatest
    one), for every binding of the outer variables, does not change the result
    of the model checker, and the same bound on the rounds
    of each loop is enough. *)
Theorem seeded_evaluation rounds f t c e o o' :
  ∀ (Hx : ctx_ok (mk_ctx c e o)) (Ho : oob_free (mk_ctx c e o)),
  use_partitions o = use_partitions o' → prior_approximants o' = None →
  wf_formula f → formula_tree f t → monotone t = true → modalities_good unbounded t →
  seeds_sound (mk_ctx c e o) unbounded (L := bool_laws _ Hx Ho) t →
  state_count c < rounds →
  ∃ v, evaluate_with_options rounds f c e o = Some v ∧ evaluate_with_options rounds f c e o' = Some v.
Proof.
  intros Hx Ho Hpart Hprior Hwf Ht Hm Hg Hs Hr.
  set (x := mk_ctx c e o) in *. set (x' := mk_ctx c e o').
  assert (Hx' : ctx_ok x') by (destruct Hx; constructor; done).
  assert (Ho' : oob_free x') by done.
  destruct (run_eval_correct x (bool_laws x Hx Ho) rounds f t None Hx Hwf Ht Hm Hg Hs Hr) as [st Hrun].
  destruct (run_eval_correct x' (bool_laws x' Hx' Ho') rounds f t None Hx' Hwf Ht Hm Hg
    (no_priors_seeds x' _ t Hprior) Hr) as [st' Hrun'].
  assert (Hd : ∀ t ρ, denote x unbounded (L := bool_laws x Hx Ho) t ρ
                    = denote x' unbounded (L := bool_laws x' Hx' Ho') t ρ).
  { assert (Hcp : ∀ g, ctx_parts x g = ctx_parts x' g).
    { intros g. unfold ctx_parts. change (options x) with o. change (options x') with o'.
      by rewrite Hpart. }
    clear -Hcp. intros t.
    induction t as [| | | |t IHt|l IHl r IHr|l IHl r IHr|k g t IHt|k v t IHt];
      intros ρ; cbn [denote]; try done.
    - by rewrite IHt.
    - by rewrite IHl, IHr.
    - by rewrite IHl, IHr.
    - rewrite IHt. set (w := denote _ _ _ _). clearbody w.
      change (bool_modal x k g w = bool_modal x' k g w). unfold bool_modal. by rewrite Hcp.
    - change (@dbound _ _ x' unbounded (bool_laws x' Hx' Ho')) with
        (@dbound _ _ x unbounded (bool_laws x Hx Ho)).
      generalize (@dbound _ _ x unbounded (bool_laws x Hx Ho)). intros j.
      induction j as [|j IHj]; [by destruct k|]. rewrite !iter_succ, IHj. apply IHt. }
  exists (denote x unbounded (L := bool_laws x Hx Ho) t ∅). unfold evaluate_with_options.
  fold (mk_ctx c e o) (mk_ctx c e o'). fold x x'. rewrite Hrun, Hrun', Hd. done.
Qed.

(** ** Witnesses *)

(** Checking the hypotheses on a concrete system. *)
Definition all_transitions (c : Clts) (P : StateId → Transition → bool) : bool :=
  forallb (λ s, forallb (P s) (outgoing c s)) (states c).

Lemma all_transitions_spec c P :
  clts_ok c → all_transitions c P = true → ∀ s t, t ∈ outgoing c s → P s t = true.
Proof.
  intros Hok H s t Ht. unfold all_transitions in H. rewrite forallb_spec in H.
  assert (Hs : s ∈ states c).
  { unfold states. rewrite elem_of_seq. pose proof (outgoing_in_range c s t Hok Ht). lia. }
  specialize (H s Hs). rewrite forallb_spec in H. auto.
Qed.

Definition plainb (c : Clts) : bool :=
  all_transitions c (λ _ t, match modality t with MustHyperOnly h => length h <=? 1 | _ => true end).

Lemma plainb_sound c : clts_ok c → plainb c = true → plain c.
Proof.
  intros Hok H s t hyper Ht Hm. pose proof (all_transitions_spec c _ Hok H s t Ht) as Hp.
  simpl in Hp. rewrite Hm in Hp. by apply Nat.leb_le.
Qed.

Definition keys_faithfulb (c : Clts) : bool :=
  all_transitions c (λ s t, forallb (λ t',
    negb (bool_decide (label_key c t = label_key c t')) || bool_decide (label_set t = label_set t'))
    (outgoing c s)).

Lemma keys_faithfulb_sound c : clts_ok c → keys_faithfulb c = true → keys_faithful c.
Proof.
  intros Hok H s t t' Ht Ht' Hk. pose proof (all_transitions_spec c _ Hok H s t Ht) as Hp.
  simpl in Hp. rewrite forallb_spec in Hp. specialize (Hp t' Ht').
  rewrite bool_decide_true in Hp by done. by apply bool_decide_eq_true in Hp.
Qed.

Lemma oob_free_check x : bv_any (oob_bits x) = false → oob_free x.
Proof.
  intros H i. destruct (bit (oob_bits x) i) eqn:E; [|done].
  assert (bv_any (oob_bits x) = true) by (apply bv_any_spec; eauto). congruence.
Qed.

Definition env_okb (e : EvalEnvironment) : bool :=
  forallb (λ kv, length kv.2 =? env_state_count e) (map_to_list (predicates e)).

Lemma ctx_ok_check c e o :
  clts_ok c → env_state_count e = state_count c → env_okb e = true → ctx_ok (mk_ctx c e o).
Proof.
  intros Hok Hn H. constructor; [done..|]. intros p set Hp. unfold env_okb in H.
  rewrite forallb_spec in H. apply elem_of_map_to_list in Hp. apply (H _) in Hp.
  by apply Nat.eqb_eq.
Qed.

Definition demo_env : EvalEnvironment :=
  {| env_state_count := 2; predicates := {["p" := [false; true]]} |}.
Definition demo_tree : Tree :=
  TFix Greatest 0 (TAnd (TFix Least 1 (TOr (TPred "p") (TModal Diamond Guard_default (TVar 1))))
                        (TModal Box Guard_default (TVar 0))).

Lemma demo_plain : plain demo_clts.
Proof. apply plainb_sound; [apply demo_clts_ok|vm_compute; reflexivity]. Qed.

Lemma demo_keys : keys_faithful demo_clts.
Proof. apply keys_faithfulb_sound; [apply demo_clts_ok|vm_compute; reflexivity]. Qed.

Lemma demo_ctx_ok o : ctx_ok (mk_ctx demo_clts demo_env o).
Proof. apply ctx_ok_check; [apply demo_clts_ok|vm_compute; reflexivity..]. Qed.

Lemma demo_oob_free o : oob_free (mk_ctx demo_clts demo_env o).
Proof. apply oob_free_check. vm_compute. reflexivity. Qed.

Lemma demo_formula : wf_formula ex_recoverability ∧ formula_tree ex_recoverability demo_tree.
Proof.
  split; [by apply wf_formulab_sound|]. apply tree_of_repr with 9. reflexivity.
Qed.


Definition bare_options : EvaluationOptions :=
  {| use_memoisation := false; use_partitions := false; prior_approximants := None |}.

Lemma options_transparent_witness :
  ∃ v, evaluate_with_options 3 ex_recoverability demo_clts demo_env EvaluationOptions_default = Some v
    ∧ (∃ w, evaluate_with_witnesses 4 ex_recoverability demo_clts demo_env bare_options = Some (v, w)).
Proof.
  apply (options_transparent 3 4 ex_recoverability demo_tree demo_clts demo_env
    EvaluationOptions_default bare_options).
  - apply demo_ctx_ok.
  - apply demo_oob_free.
  - apply demo_plain.
  - apply demo_keys.
  - reflexivity.
  - reflexivity.
  - apply demo_formula.
  - apply demo_formula.
  - reflexivity.
  - cbn. repeat split; done.
  - cbn. repeat split; done.
  - vm_compute. lia.
  - vm_compute. lia.
Defined.

(** [mu X. p \/ <> X], seeded with the states satisfying [p]. *)
Definition ex_reach : Formula :=
  {| root := 4;
     nodes := [NPredicate "p"; NVariable 0; NModal Diamond Guard_default 1; NOr 0 2; NMu 0 3];
     vars := ["X"] |}.
Definition ex_reach_tree : Tree :=
  TFix Least 0 (TOr (TPred "p") (TModal Diamond Guard_default (TVar 0))).
Definition seeded_options : EvaluationOptions :=
  {| use_memoisation := true; use_partitions := true;
     prior_approximants := Some {[ 0 := {| pa_state_count := 2; pa_must_true := [false; true];
                                           pa_may_true := [false; true] |} ]} |}.

Lemma seeded_sound :
  seeds_sound (mk_ctx demo_clts demo_env seeded_options) unbounded
    (L := bool_laws _ (demo_ctx_ok _) (demo_oob_free _)) ex_reach_tree.
Proof.
  set (x := mk_ctx demo_clts demo_env seeded_options). split; [|done].
  intros w Hw. vm_compute in Hw. injection Hw as <-. split; [reflexivity|]. intros ρ _.
  set (G := λ w : list bool,
    bv_or (predicate_bits x "p").1 (bool_modal x Diamond Guard_default w)).
  cbn [denote kle]. rewrite (iter_ext _ _ G).
  2:{ intros w. unfold G. cbn. by rewrite lookup_insert_eq. }
  intros i Hi. apply (bit_lookup _ i true).
  destruct i as [|[|i]]; [vm_compute in Hi; discriminate|vm_compute; reflexivity|].
  vm_compute in Hi. discriminate.
Qed.

Lemma seeded_evaluation_witness :
  ∃ v, evaluate_with_options 3 ex_reach demo_clts demo_env seeded_options = Some v ∧
       evaluate_with_options 3 ex_reach demo_clts demo_env EvaluationOptions_default = Some v.
Proof.
  apply (seeded_evaluation 3 ex_reach ex_reach_tree demo_clts demo_env seeded_options
    EvaluationOptions_default (demo_ctx_ok _) (demo_oob_free _)).
  - reflexivity.
  - reflexivity.
  - by apply wf_formulab_sound.
  - apply tree_of_repr with 5. reflexivity.
  - reflexivity.
  - cbn. repeat split; done.
  - apply seeded_sound.
  - vm_compute. lia.
Defined.
