(* ===== verification/Verdicts.v ===== *)
(** What a three-valued verdict means.

    A three-valued system abstracts a two-valued one when every concrete
    transition has an abstract one ([ref_may]) and every must-transition of the
    abstraction has a concrete one ([ref_must]).  [verdict_sound] is the
    preservation theorem: a definite verdict of [evaluate_tri] holds in every
    refinement.  On sharp systems the two evaluators agree ([sharp_agreement]).
    The last part records concrete systems on which the modal rules outside
    that fragment part from the two-valued reading. *)
From S2P Require Import Prelude Formula Trit Clts Modal Evaluator Semantics Domains Checking.

(** Modalities over all transitions, without a [steps] bound. *)
Definition verification_guard (k : ModalKind) (g : Guard) : Prop :=
  unbounded k g ∧ g_control g = Control_All.

Lemma verification_unbounded t : modalities_good verification_guard t → modalities_good unbounded t.
Proof. induction t; simpl; try tauto. unfold verification_guard. tauto. Qed.

(** ** One filtered pass on a plain system *)

Lemma admitted_filter c s g f t :
  t ∈ outgoing c s → step_admitted c s g f t = true ↔ matched c s g t ∧ allows f t = true.
Proof. intros Ht. unfold step_admitted, matched. rewrite andb_true_iff. tauto. Qed.

Lemma pass_diamond x g T f s :
  ctx_ok x → plain (clts x) → g_control g = Control_All → s < state_count (clts x) →
  bit (eval_modal_unbounded (clts x) Diamond g T (ctx_parts x g) f) s = true ↔
  ∃ t, matched (clts x) s g t ∧ allows f t = true ∧ bit T (target t) = true.
Proof.
  intros Hx Hp Hc Hs. pose proof (cok_clts x Hx) as Hok.
  unfold eval_modal_unbounded. rewrite bit_tabulate by done.
  rewrite modal_exists_all, existsb_spec by auto using ctx_parts_ok. split.
  - intros (t & Ht & [[Hm Ha]%admitted_filter Hcv]%andb_true_iff); [|done].
    exists t. split_and!; [done..|]. by destruct (coverage_plain _ s t T f Hp Ht) as (_ & _ & <- & _).
  - intros (t & Hm & Ha & Hb). pose proof (proj1 Hm) as Ht. exists t. split; [done|].
    destruct (coverage_plain _ s t T f Hp Ht) as (_ & _ & -> & _).
    rewrite andb_true_iff, admitted_filter; done.
Qed.

Lemma pass_box x g T f s :
  ctx_ok x → plain (clts x) → g_control g = Control_All → s < state_count (clts x) →
  bit (eval_modal_unbounded (clts x) Box g T (ctx_parts x g) f) s = true ↔
  ∀ t, matched (clts x) s g t → allows f t = true → bit T (target t) = true.
Proof.
  intros Hx Hp Hc Hs. pose proof (cok_clts x Hx) as Hok.
  unfold eval_modal_unbounded. rewrite bit_tabulate by done.
  rewrite modal_forall_all, forallb_spec by auto using ctx_parts_ok. split.
  - intros H t Hm Ha. pose proof (proj1 Hm) as Ht. specialize (H t Ht).
    destruct (coverage_plain _ s t T f Hp Ht) as (_ & _ & _ & Hr). rewrite Hr in H.
    assert (Had : step_admitted (clts x) s g f t = true) by (by apply admitted_filter).
    by rewrite Had in H.
  - intros H t Ht. destruct (coverage_plain _ s t T f Hp Ht) as (_ & _ & _ & ->).
    destruct (step_admitted (clts x) s g f t) eqn:Ha; [|done].
    apply admitted_filter in Ha as [??]; [|done]. by apply H.
Qed.

(** ** Refinement *)

Record refinement (ca cc : Clts) (guards : Guard → Prop) (R : nat → nat → Prop) : Prop := {
  ref_range : ∀ a s, R a s → a < state_count ca ∧ s < state_count cc;
  ref_may : ∀ g a s t, guards g → R a s → matched cc s g t →
    ∃ ta, matched ca a g ta ∧ R (target ta) (target t);
  ref_must : ∀ g a s ta, guards g → R a s → matched ca a g ta → has_must (modality ta) = true →
    ∃ t, matched cc s g t ∧ R (target ta) (target t)
}.

(** Definite labels of the abstraction are the concrete ones. *)
Definition labels_refine (xa : Ctx) (cc : Clts) (ec : EvalEnvironment) (R : nat → nat → Prop) : Prop :=
  ∀ a s p, R a s →
    (bit (predicate_bits xa p).1 a = true → atom cc ec p s) ∧
    (bit (predicate_bits xa p).2 a = false → ¬ atom cc ec p s).

Fixpoint guards_in (guards : Guard → Prop) (t : Tree) : Prop :=
  match t with
  | TTrue | TFalse | TPred _ | TVar _ => True
  | TNot t | TFix _ _ t => guards_in guards t
  | TAnd l r | TOr l r => guards_in guards l ∧ guards_in guards r
  | TModal _ g t => guards g ∧ guards_in guards t
  end.

Lemma allows_must t : allows MustOnly t = has_must (modality t).
Proof. unfold allows. by destruct (modality t). Qed.

Section soundness.
Context (xa : Ctx) (Hx : ctx_ok xa) (Ho : oob_free xa) (Hplain : plain (clts xa)).
Context (cc : Clts) (ec : EvalEnvironment) (Hcc : clts_ok cc).
Context (guards : Guard → Prop) (R : nat → nat → Prop).
Context (Href : refinement (clts xa) cc guards R) (Hlab : labels_refine xa cc ec R).
Let L := kleene_laws xa Hx Ho.
#[local] Existing Instance L.

(** The definite-true half of [w] is sound for [S], and its definite-false half. *)
Definition true_ok (w : TritSet) (S : nat → Prop) : Prop :=
  ∀ a s, R a s → bit (must_true w) a = true → S s.
Definition false_ok (w : TritSet) (S : nat → Prop) : Prop :=
  ∀ a s, R a s → bit (may_true w) a = false → ¬ S s.

(** [d = true] reads the definite-true verdicts. *)
Definition half_ok (d : bool) (w : TritSet) (S : nat → Prop) : Prop :=
  if d then true_ok w S else false_ok w S.

(** The bindings are sound in the half each occurrence of a variable uses. *)
Definition bindings_ok (d : bool) (t : Tree) (ρ : gmap FormulaVarId TritSet)
    (σ : nat → nat → Prop) : Prop :=
  ∀ v, (occurs_only false v t = true ∨ half_ok d (dom_from_binding xa (ρ !! v)) (σ v)) ∧
       (occurs_only true v t = true ∨ half_ok (negb d) (dom_from_binding xa (ρ !! v)) (σ v)).

Lemma modal_half d k g w (S : nat → Prop) :
  guards g → g_control g = Control_All → half_ok d w S →
  half_ok d (kleene_modal xa k g w) (step cc k g S).
Proof using All.
  intros Hg Hc Hw. unfold kleene_modal. rewrite Hc.
  destruct d, k; intros a s HR; destruct (ref_range _ _ _ _ Href a s HR) as [Ha Hs];
    unfold step; rewrite Hc; simpl.
  - rewrite pass_box by done. intros H t Hm.
    destruct (ref_may _ _ _ _ Href g a s t Hg HR Hm) as (ta & Hta & HR').
    apply (Hw _ _ HR'). by apply H.
  - rewrite pass_diamond by done. intros (ta & Hta & Hmust & Hb).
    rewrite allows_must in Hmust.
    destruct (ref_must _ _ _ _ Href g a s ta Hg HR Hta Hmust) as (t & Ht & HR').
    exists t. split; [done|]. by apply (Hw _ _ HR').
  - intros Hf Hall. apply not_true_iff_false in Hf. apply Hf. rewrite pass_box by done.
    intros ta Hta Hmust. rewrite allows_must in Hmust.
    destruct (ref_must _ _ _ _ Href g a s ta Hg HR Hta Hmust) as (t & Ht & HR').
    apply not_false_iff_true. intros Hb. by apply (Hw _ _ HR' Hb), Hall.
  - intros Hf (t & Hm & HS). apply not_true_iff_false in Hf. apply Hf. rewrite pass_diamond by done.
    destruct (ref_may _ _ _ _ Href g a s t Hg HR Hm) as (ta & Hta & HR').
    exists ta. split_and!; [done..|]. apply not_false_iff_true. intros Hb. by apply (Hw _ _ HR' Hb).
Qed.

Lemma bindings_sub d t t' ρ σ :
  (∀ pol v, occurs_only pol v t = true → occurs_only pol v t' = true) →
  bindings_ok d t ρ σ → bindings_ok d t' ρ σ.
Proof using Type.
  intros H Hb v. destruct (Hb v) as [[?|?] [?|?]]; split; auto.
Qed.

Lemma bindings_and d l r ρ σ :
  bindings_ok d (TAnd l r) ρ σ → bindings_ok d l ρ σ ∧ bindings_ok d r ρ σ.
Proof using Type.
  intros Hb. split; (eapply bindings_sub; [|exact Hb]); simpl; intros pol v;
    rewrite andb_true_iff; tauto.
Qed.

Lemma bindings_not d t ρ σ : bindings_ok d (TNot t) ρ σ → bindings_ok (negb d) t ρ σ.
Proof using Type. intros Hb v. destruct (Hb v) as [H1 H2]. rewrite negb_involutive. by split. Qed.

Lemma bindings_fix d k v t ρ σ w (S : nat → Prop) :
  occurs_only true v t = true → bindings_ok d (TFix k v t) ρ σ → half_ok d w S →
  bindings_ok d t (<[v := w]> ρ) (upd σ v S).
Proof using Type.
  intros Hocc Hb Hw u. unfold upd. destruct (decide (u = v)) as [->|Hne].
  - rewrite lookup_insert_eq. simpl. auto.
  - rewrite lookup_insert_ne by done. destruct (Hb u) as [H1 H2]. simpl in H1, H2.
    destruct (Nat.eqb_spec u v); [done|]. by split.
Qed.

(** Iterating a sound body keeps a half sound for the textbook fixpoint. *)
Lemma fix_half d k v t ρ σ :
  (∀ d ρ σ, env_ok xa unbounded ρ → bindings_ok d t ρ σ →
     half_ok d (denote xa unbounded t ρ) (sat cc ec t σ)) →
  modalities_good unbounded t → monotone t = true → occurs_only true v t = true →
  env_ok xa unbounded ρ → bindings_ok d (TFix k v t) ρ σ →
  half_ok d (denote xa unbounded (TFix k v t) ρ) (sat cc ec (TFix k v t) σ).
Proof using All.
  intros IH Hg Hm Hocc Hρ Hb. cbn [denote].
  set (F := λ w, denote xa unbounded t (<[v := w]> ρ)).
  assert (HF : mono_fun xa unbounded F) by (by apply denote_mono_fun).
  assert (Hiter : ∀ j, dok (Nat.iter j F (fix_start xa k))).
  { intros j. apply (dok_iter xa unbounded); [done|]. apply (dok_start xa unbounded). }
  assert (HFhalf : ∀ w S, dok w → half_ok d w S → half_ok d (F w) (sat cc ec t (upd σ v S))).
  { intros w S Hw HS. apply IH; [by apply env_ok_insert|]. by eapply bindings_fix. }
  pose proof (fix_is_fixpoint xa unbounded k F HF) as Hfix.
  set (a := Nat.iter dbound F (fix_start xa k)) in *.
  assert (Ha : dok a) by apply Hiter.
  destruct d, k; cbn [half_ok sat].
  - (* a true verdict of a least fixpoint enters at some iterate *)
    intros b s HR Hb' S HS. revert b s HR Hb'. unfold a. generalize dbound as j.
    induction j as [|j IHj]; [intros b s _; simpl; by rewrite bit_fill|].
    intros b s HR Hbit. destruct (ref_range _ _ _ _ Href b s HR) as [_ Hs]. apply HS; [done|].
    rewrite iter_succ in Hbit. by apply (HFhalf _ S (Hiter j) IHj b s HR).
  - (* the definite-true states of a greatest fixpoint, concretised, are closed *)
    intros b s HR Hbit.
    exists (λ s, ∃ b, R b s ∧ bit (must_true a) b = true). split; [|eauto].
    intros s' Hs' (b' & HR' & Hb').
    apply (HFhalf a (λ s, ∃ b, R b s ∧ bit (must_true a) b = true)
             Ha ltac:(intros ????; eauto) b' s' HR').
    by rewrite Hfix.
  - intros b s HR Hbit Hsat.
    assert (HS : ∀ b, R b s → bit (may_true a) b = true).
    { apply (Hsat (λ s, ∀ b, R b s → bit (may_true a) b = true)).
      intros s' Hs' Hs'' b' HR'. apply not_false_iff_true. intros Hb'. rewrite <-Hfix in Hb'.
      refine (HFhalf a (λ s, ∀ b, R b s → bit (may_true a) b = true) Ha _ b' s' HR' Hb' Hs'').
      intros c s'' HRc Hc Hall. specialize (Hall c HRc). congruence. }
    specialize (HS b HR). congruence.
  - intros b s HR Hbit (S & HS & Hs). revert b s HR Hbit Hs. unfold a. generalize dbound as j.
    induction j as [|j IHj].
    + intros b s HR. destruct (ref_range _ _ _ _ Href b s HR) as [Hb' _]. simpl.
      rewrite bit_fill, (cok_count xa Hx), bool_decide_true by done. done.
    + intros b s HR Hbit Hs. destruct (ref_range _ _ _ _ Href b s HR) as [_ Hs'].
      rewrite iter_succ in Hbit. apply (HFhalf _ S (Hiter j) IHj b s HR Hbit). by apply HS.
Qed.

Lemma denote_half d t ρ σ :
  modalities_good verification_guard t → guards_in guards t → monotone t = true →
  env_ok xa unbounded ρ → bindings_ok d t ρ σ →
  half_ok d (denote xa unbounded t ρ) (sat cc ec t σ).
Proof using All.
  revert d ρ σ. induction t as [| |p|v|t IH|l IHl r IHr|l IHl r IHr|k g t IH|k v t IH];
    intros d ρ σ Hg Hgs Hm Hρ Hb; pose proof (verification_unbounded _ Hg) as Hg'.
  - destruct d; intros a s HR; simpl; [done|].
    destruct (ref_range _ _ _ _ Href a s HR).
    rewrite bit_fill, (cok_count xa Hx), bool_decide_true; done.
  - destruct d; intros a s HR; simpl; [by rewrite bit_fill|tauto].
  - destruct d; intros a s HR; destruct (ref_range _ _ _ _ Href a s HR); simpl.
    + by apply Hlab.
    + intros Hf. apply (Hlab a s p HR). revert Hf.
      destruct (predicate_bits_ok xa p Hx) as [_ Hl _]. simpl in Hl.
      rewrite bit_or by (rewrite Hl, (cok_count xa Hx); done).
      intros Hf. by apply orb_false_iff in Hf as [? _].
  - destruct (Hb v) as [[Hv|Hv] _]; [|done]. simpl in Hv. by rewrite Nat.eqb_refl in Hv.
  - specialize (IH (negb d) ρ σ Hg Hgs Hm Hρ (bindings_not _ _ _ _ Hb)).
    pose proof (denote_ok xa unbounded t ρ Hg' Hρ) as [Hl1 Hl2 _].
    destruct d; intros a s HR; destruct (ref_range _ _ _ _ Href a s HR); simpl;
      rewrite bit_not by (by rewrite ?Hl1, ?Hl2); intros Hb'.
    + apply negb_true_iff in Hb'. by apply (IH a s HR).
    + apply negb_false_iff in Hb'. intros Hn. by apply Hn, (IH a s HR).
  - destruct Hg, Hg', Hgs. apply andb_true_iff in Hm as [? ?].
    apply bindings_and in Hb as [Hl Hr].
    specialize (IHl d ρ σ). specialize (IHr d ρ σ).
    destruct d; intros a s HR; simpl; rewrite bit_and.
    + intros [? ?]%andb_true_iff. split; [by eapply IHl|by eapply IHr].
    + intros [?|?]%andb_false_iff [? ?]; [by eapply IHl|by eapply IHr].
  - destruct Hg, Hg' as [Hgl _], Hgs. apply andb_true_iff in Hm as [? ?].
    apply bindings_and in Hb as [Hl Hr].
    specialize (IHl d ρ σ). specialize (IHr d ρ σ).
    pose proof (denote_ok xa unbounded l ρ Hgl Hρ) as [Hl1 Hl2 _].
    destruct d; intros a s HR; destruct (ref_range _ _ _ _ Href a s HR); simpl;
      rewrite bit_or by (by rewrite ?Hl1, ?Hl2).
    + intros [?|?]%orb_true_iff; [left; by eapply IHl|right; by eapply IHr].
    + intros [? ?]%orb_false_iff [?|?]; [by eapply IHl|by eapply IHr].
  - destruct Hg as [[Hu Hc] Hg], Hgs. apply modal_half; [done..|]. apply IH; try done.
  - apply andb_true_iff in Hm as [Hocc Hm]. apply fix_half; try done.
    intros d' ρ' σ' Hρ' Hb'. by apply IH.
Qed.
End soundness.

(** ** Sharp systems *)

Definition sharp (c : Clts) : Prop := ∀ s t, t ∈ outgoing c s → modality t = Sharp.

(** Every atomic predicate is definite. *)
Definition definite_labels (x : Ctx) : Prop :=
  ∀ p, (predicate_bits x p).1 = (predicate_bits x p).2.

Definition twin (v : list bool) : TritSet := from_parts v v.

Lemma sharp_plain c : sharp c → plain c.
Proof. intros H s t hyper Ht Hm. rewrite (H s t Ht) in Hm. done. Qed.

Section agreement.
Context (x : Ctx) (Hx : ctx_ok x) (Ho : oob_free x) (Hsharp : sharp (clts x))
  (Hdef : definite_labels x).
Let LB := bool_laws x Hx Ho.
Let LK := kleene_laws x Hx Ho.
Local Abbreviation bdenote := (denote x unbounded (L := LB)).
Local Abbreviation kdenote := (denote x unbounded (L := LK)).
Local Abbreviation n := (state_count (clts x)).

Lemma sharp_pass k g T f :
  g_control g = Control_All →
  eval_modal_unbounded (clts x) k g T (ctx_parts x g) f
  = eval_modal_unbounded (clts x) k g T (ctx_parts x g) All.
Proof using All.
  intros Hc. pose proof (sharp_plain _ Hsharp) as Hp.
  assert (Ha : ∀ s t, matched (clts x) s g t → allows f t = true).
  { intros s t [Ht _]. unfold allows. rewrite (Hsharp s t Ht). by destruct f. }
  apply bv_eq; rewrite !length_modal_unbounded; [done|]. intros s Hs. apply bool_eq_iff.
  destruct k; rewrite ?pass_box, ?pass_diamond by done; split.
  - intros H t Hm _. by apply H, (Ha s).
  - intros H t Hm _. by apply H.
  - intros (t & Hm & _ & ?). by exists t.
  - intros (t & Hm & _ & ?). exists t. split_and!; [done|by apply (Ha s)|done].
Qed.

Lemma twin_not v : bool_ok x v → tnot (twin v) = twin (dom_not x v).
Proof using Hx Ho.
  intros Hv. assert (He : bv_not v = dom_not x v); [|by unfold tnot, twin, from_parts; simpl; rewrite He].
  apply bv_eq; [by simpl; autorewrite with bits; rewrite (cok_count x Hx)|].
  rewrite length_bv_not, Hv. intros i Hi. rewrite bool_not_spec by done. apply bit_not. by rewrite Hv.
Qed.

Lemma twin_top : dom_top (V := TritSet) x = twin (dom_top x).
Proof using Hx Ho.
  simpl. unfold all_true, twin, from_parts. fold (not_oob_bits x). f_equal.
  symmetry. apply mask_id; [done|]. autorewrite with bits. apply (cok_count x Hx).
Qed.

Lemma twin_predicate p :
  dom_from_predicate (V := TritSet) x (predicate_bits x p).1 (predicate_bits x p).2
  = twin (dom_from_predicate x (predicate_bits x p).1 (predicate_bits x p).2).
Proof using Hx Ho Hdef.
  simpl. unfold twin, from_parts. f_equal. rewrite (Hdef p).
  destruct (predicate_bits_ok x p Hx) as [_ Hl _]. simpl in Hl.
  apply bv_eq; autorewrite with bits; [done|]. intros i Hi.
  rewrite bit_or by done. rewrite (Ho i). apply orb_false_r.
Qed.

Lemma twin_denote t ρ :
  modalities_good verification_guard t → monotone t = true → env_ok x unbounded (L := LB) ρ →
  kdenote t (twin <$> ρ) = twin (bdenote t ρ).
Proof using All.
  revert ρ. induction t as [| |p|v|t IH|l IHl r IHr|l IHl r IHr|k g t IH|k v t IH];
    intros ρ Hg Hm Hρ; pose proof (verification_unbounded _ Hg) as Hg'; cbn [denote].
  - apply twin_top.
  - done.
  - apply twin_predicate.
  - unfold dom_from_binding. rewrite lookup_fmap. by destruct (ρ !! v).
  - rewrite IH by done. apply twin_not. apply (denote_ok x unbounded (L := LB) t ρ Hg' Hρ).
  - destruct Hg, Hg'. apply andb_true_iff in Hm as [? ?]. by rewrite IHl, IHr.
  - destruct Hg, Hg'. apply andb_true_iff in Hm as [? ?]. by rewrite IHl, IHr.
  - destruct Hg as [[_ Hc] Hg]. rewrite IH by done. generalize (bdenote t ρ). intros w.
    change (kleene_modal x k g (twin w) = twin (bool_modal x k g w)).
    unfold kleene_modal, bool_modal, twin. rewrite Hc. simpl.
    destruct k; simpl; by rewrite (sharp_pass _ g w MustOnly Hc).
  - apply andb_true_iff in Hm as [Hocc Hm].
    set (F := λ w, bdenote t (<[v := w]> ρ)).
    assert (HF : mono_fun x unbounded (L := LB) F) by (by apply denote_mono_fun).
    assert (Hj : ∀ j, dok (DomainLaws := LB) (Nat.iter j F (fix_start x k))).
    { intros j. apply (dok_iter x unbounded (L := LB)); [done|]. apply (dok_start x unbounded (L := LB)). }
    assert (Htwin : ∀ j, Nat.iter j (λ w, kdenote t (<[v := w]> (twin <$> ρ))) (fix_start x k)
      = twin (Nat.iter j F (fix_start x k))).
    { induction j as [|j IHj]; [destruct k; [done|apply twin_top]|].
      rewrite !iter_succ, IHj, <-fmap_insert. apply IH; [done..|]. by apply env_ok_insert. }
    change (@dbound _ _ x unbounded LK) with (2 * n). rewrite Htwin. f_equal.
    replace (2 * n) with (n + n) by lia. rewrite Nat.iter_add.
    apply iter_fixed. apply (fix_is_fixpoint x unbounded (L := LB) k F HF).
Qed.
End agreement.

(** * Properties *)

(** C2: three-valued verdicts are sound for every refinement. On an abstract
    system without out-of-bounds states, [2 * state_count + 1] rounds per loop
    are enough for [evaluate_tri_with_options] to return; and if a concrete
    state refines an abstract one (concrete transitions are covered by abstract
    ones, must-transitions are realised, definite labels are the concrete ones),
    a verdict True of a monotone formula over unscoped, unbounded modalities
    means that the concrete state satisfies it, and False that it does not. *)
Theorem verdict_sound rounds f t ca ea o cc ec guards R :
  let xa := mk_ctx ca ea o in
  ctx_ok xa → oob_free xa → plain ca → clts_ok cc →
  refinement ca cc guards R → labels_refine xa cc ec R →
  prior_approximants o = None → wf_formula f → formula_tree f t → monotone t = true →
  modalities_good verification_guard t → guards_in guards t →
  2 * state_count ca < rounds →
  ∃ ts, evaluate_tri_with_options rounds f ca ea o = Some ts ∧ trit_ok (state_count ca) ts ∧
    ∀ a s, R a s → (verdict_at ts a = Trit_True → sat cc ec t no_binding s) ∧
                   (verdict_at ts a = Trit_False → ¬ sat cc ec t no_binding s).
Proof.
  intros xa Hx Ho Hp Hcc Href Hlab Hprior Hwf Ht Hm Hg Hgs Hr.
  pose proof (verification_unbounded _ Hg) as Hg'. set (L := kleene_laws xa Hx Ho).
  destruct (run_eval_correct xa L rounds f t None Hx Hwf Ht Hm Hg' (no_priors_seeds xa L t Hprior) Hr)
    as [st Hrun].
  exists (denote xa unbounded (L := L) t ∅). unfold evaluate_tri_with_options.
  fold (mk_ctx ca ea o). fold xa. rewrite Hrun. split; [done|].
  pose proof (denote_ok xa unbounded (L := L) t ∅ Hg' (env_ok_empty xa unbounded)) as Hok.
  split; [exact Hok|]. intros a s HR.
  assert (Hb : ∀ d, bindings_ok xa R d t ∅ no_binding).
  { intros d v. unfold half_ok, true_ok, false_ok, dom_from_binding. rewrite lookup_empty.
    split; right; destruct d; intros b s' _; simpl; rewrite ?bit_fill; try done; intros _ []. }
  pose proof (λ d, denote_half xa Hx Ho Hp cc ec Hcc guards R Href Hlab d t ∅ no_binding Hg Hgs Hm
    (env_ok_empty xa unbounded) (Hb d)) as Hhalf.
  unfold verdict_at. split.
  - destruct (bit (must_true _) a) eqn:E; [intros _|by destruct (bit (may_true _) a)].
    by apply (Hhalf true a s HR).
  - destruct (bit (must_true _) a); [done|]. destruct (bit (may_true _) a) eqn:E; [done|].
    intros _. by apply (Hhalf false a s HR).
Qed.

(** C3: on sharp systems with definite labels the three-valued evaluator is
    the two-valued one: every verdict is definite and both return the same set,
    for formulas over unscoped, unbounded modalities. *)
Theorem sharp_agreement rounds f t c e o :
  let x := mk_ctx c e o in
  ctx_ok x → oob_free x → sharp c → definite_labels x → prior_approximants o = None →
  wf_formula f → formula_tree f t → monotone t = true → modalities_good verification_guard t →
  2 * state_count c < rounds →
  ∃ v, evaluate_with_options rounds f c e o = Some v ∧
       evaluate_tri_with_options rounds f c e o = Some (from_parts v v).
Proof.
  intros x Hx Ho Hs Hd Hprior Hwf Ht Hm Hg Hr. pose proof (verification_unbounded _ Hg) as Hg'.
  set (LB := bool_laws x Hx Ho). set (LK := kleene_laws x Hx Ho).
  assert (HrB : dbound (DomainLaws := LB) < rounds) by (simpl; lia).
  destruct (run_eval_correct x LB rounds f t None Hx Hwf Ht Hm Hg' (no_priors_seeds x LB t Hprior) HrB)
    as [st Hrun].
  destruct (run_eval_correct x LK rounds f t None Hx Hwf Ht Hm Hg' (no_priors_seeds x LK t Hprior) Hr)
    as [st' Hrun'].
  exists (denote x unbounded (L := LB) t ∅). unfold evaluate_with_options, evaluate_tri_with_options.
  fold (mk_ctx c e o). fold x. rewrite Hrun, Hrun'. split; [done|]. simpl. f_equal.
  pose proof (twin_denote x Hx Ho Hs Hd t ∅ Hg Hm (env_ok_empty x unbounded)) as Htw.
  rewrite fmap_empty in Htw. exact Htw.
Qed.

(** C30: the evaluator terminates on every controllability scope. For any
    monotone formula without [steps] bounds, [2 * state_count + 1] rounds per
    loop are enough for the three-valued evaluator to return, and its two halves
    stay nested: no state is both definitely true and not possibly true. *)
Theorem evaluate_tri_total rounds f t c e o :
  let x := mk_ctx c e o in
  ctx_ok x → oob_free x → prior_approximants o = None →
  wf_formula f → formula_tree f t → monotone t = true → modalities_good unbounded t →
  2 * state_count c < rounds →
  ∃ ts, evaluate_tri_with_options rounds f c e o = Some ts ∧ trit_ok (state_count c) ts.
Proof.
  intros x Hx Ho Hprior Hwf Ht Hm Hg Hr. set (L := kleene_laws x Hx Ho).
  destruct (run_eval_correct x L rounds f t None Hx Hwf Ht Hm Hg (no_priors_seeds x L t Hprior) Hr)
    as [st Hrun].
  exists (denote x unbounded (L := L) t ∅). unfold evaluate_tri_with_options.
  fold (mk_ctx c e o). fold x. rewrite Hrun. split; [done|].
  apply (denote_ok x unbounded (L := L) t ∅ Hg (env_ok_empty x unbounded)).
Qed.

(** ** Witnesses *)

#[local] Existing Instance u16_storage.

(** The demo system, abstracted: the environment's idling is only possible. *)
Definition abstract_ops : list BuilderOp :=
  [OpLabel ["req"]; OpLabel ["grant"]; OpLabel ["tick"]; OpInitial "u"; OpState "v";
   OpTransition "u" [0] "v"; OpTransition "v" [1] "u"; OpTransitionIds 0 [2] 0 MayOnly].
Definition run_ops (ops : list BuilderOp) : CltsBuilder :=
  foldl (λ b op, apply_op op b) CltsBuilder_default ops.
Definition abstract_clts : Clts := built (run_ops abstract_ops).

(** Building from a list of calls, with the endpoint condition checked. *)
Definition op_validb (op : BuilderOp) (b : CltsBuilder) : bool :=
  match op with
  | OpTransitionIds f _ t _ =>
      (f <? length (cb_state_names b)) && (t <? length (cb_state_names b))
  | _ => true
  end.

Fixpoint ops_validb (ops : list BuilderOp) (b : CltsBuilder) : bool :=
  match ops with
  | [] => true
  | op :: rest => op_validb op b && ops_validb rest (apply_op op b)
  end.

Lemma ops_validb_reachable ops b :
  reachable_builder b → ops_validb ops b = true →
  reachable_builder (foldl (λ b op, apply_op op b) b ops).
Proof.
  revert b. induction ops as [|op ops IH]; intros b Hr; simpl; [done|].
  intros [Hv Hvs]%andb_true_iff. apply IH; [|done]. apply rb_step; [done|].
  destruct op; simpl in *; try done. by rewrite andb_true_iff, !Nat.ltb_lt in Hv.
Qed.

Lemma run_ops_ok ops c :
  ops_validb ops CltsBuilder_default = true → build (run_ops ops) = Some (Ok c) → clts_ok c.
Proof.
  intros Hv Hb. eapply build_ok; [|done]. apply reachable_builder_ok, ops_validb_reachable; [|done].
  constructor.
Qed.

Definition refinesb (ca cc : Clts) (pairs : list (nat * nat)) : bool :=
  let related a s := existsb (λ p, (p.1 =? a) && (p.2 =? s)) pairs in
  forallb (λ p,
    (p.1 <? state_count ca) && (p.2 <? state_count cc)
    && forallb (λ t, existsb (λ ta, related (target ta) (target t)) (outgoing ca p.1)) (outgoing cc p.2)
    && forallb (λ ta, negb (has_must (modality ta)) ||
         existsb (λ t, related (target ta) (target t)) (outgoing cc p.2)) (outgoing ca p.1)) pairs.

Lemma matched_default c s t : matched c s Guard_default t ↔ t ∈ outgoing c s.
Proof. unfold matched. simpl. tauto. Qed.

Lemma refinesb_sound ca cc pairs :
  refinesb ca cc pairs = true →
  refinement ca cc (λ g, g = Guard_default) (λ a s, (a, s) ∈ pairs).
Proof.
  intros H. unfold refinesb in H. rewrite forallb_spec in H.
  assert (Hrel : ∀ a s, existsb (λ p, (p.1 =? a) && (p.2 =? s)) pairs = true ↔ (a, s) ∈ pairs).
  { intros a s. rewrite existsb_spec. split.
    - intros ([a' s'] & Hin & [Ha Hs]%andb_true_iff). simpl in *.
      by apply Nat.eqb_eq in Ha as ->, Hs as ->.
    - intros Hin. exists (a, s). split; [done|]. simpl. by rewrite !Nat.eqb_refl. }
  constructor.
  - intros a s Hin. specialize (H _ Hin). rewrite !andb_true_iff, !Nat.ltb_lt in H. tauto.
  - intros g a s t -> Hin Ht%matched_default. specialize (H _ Hin).
    rewrite !andb_true_iff, !forallb_spec in H. destruct H as [[_ H] _].
    specialize (H t Ht). rewrite existsb_spec in H. destruct H as (ta & Hta & HR%Hrel).
    exists ta. by rewrite matched_default.
  - intros g a s ta -> Hin Hta%matched_default Hm. specialize (H _ Hin).
    rewrite !andb_true_iff, !forallb_spec in H. destruct H as [_ H].
    specialize (H ta Hta). rewrite Hm in H. simpl in H. rewrite existsb_spec in H.
    destruct H as (t & Ht & HR%Hrel). exists t. by rewrite matched_default.
Qed.

(** Labels given by the environment, with no three-valued labelling. *)
Lemma predicate_bits_env x p :
  state_3valued_predicates (clts x) = None →
  predicate_bits x p = let v := match predicate (env x) p with
                                | Some bits => bv_and bits (not_oob_bits x)
                                | None => alloc_bitvec x false end in (v, v).
Proof.
  intros H. unfold predicate_bits, has_3valued_predicates. rewrite H.
  by destruct (predicate (env x) p).
Qed.

Lemma definite_labels_env x : state_3valued_predicates (clts x) = None → definite_labels x.
Proof. intros H p. by rewrite predicate_bits_env. Qed.

Lemma abstract_ok : clts_ok abstract_clts.
Proof. apply (run_ops_ok abstract_ops); vm_compute; reflexivity. Qed.

Definition abstract_ctx : Ctx := mk_ctx abstract_clts demo_env EvaluationOptions_default.

Lemma abstract_oob_free : oob_free abstract_ctx.
Proof. apply oob_free_check. vm_compute. reflexivity. Qed.

Definition demo_pairs : list (nat * nat) := [(0, 0); (1, 1)].

Lemma demo_labels_refine : labels_refine abstract_ctx demo_clts demo_env (λ a s, (a, s) ∈ demo_pairs).
Proof.
  intros a s p Hin. rewrite predicate_bits_env by (vm_compute; reflexivity). unfold atom.
  change (env abstract_ctx) with demo_env.
  assert (a = s ∧ a < 2) as [-> Hs].
  { apply elem_of_cons in Hin as [[= -> ->]|Hin]; [lia|].
    apply list_elem_of_singleton in Hin as [= -> ->]. lia. }
  destruct (predicate demo_env p) as [bits|] eqn:Hp; simpl.
  - assert (bits = [false; true]) as ->.
    { unfold predicate, demo_env in Hp. simpl in Hp. by apply lookup_singleton_Some in Hp as [_ <-]. }
    rewrite bit_and, (bit_not_oob abstract_ctx s abstract_oob_free), andb_true_r
      by (vm_compute; lia). split; [done|]. by intros ->.
  - rewrite bit_fill. split; [done|]. intros _ H. by vm_compute in H.
Qed.

Lemma ex_reach_formula : wf_formula ex_reach ∧ formula_tree ex_reach ex_reach_tree.
Proof. split; [by apply wf_formulab_sound|]. apply tree_of_repr with 5. reflexivity. Qed.

Lemma verdict_sound_witness :
  evaluate_tri_with_options 5 ex_reach abstract_clts demo_env EvaluationOptions_default
    = Some (from_parts [true; true] [true; true]) ∧
  ∃ ts, evaluate_tri_with_options 5 ex_reach abstract_clts demo_env EvaluationOptions_default = Some ts
    ∧ trit_ok (state_count abstract_clts) ts ∧
    ∀ a s, (a, s) ∈ demo_pairs →
      (verdict_at ts a = Trit_True → sat demo_clts demo_env ex_reach_tree no_binding s) ∧
      (verdict_at ts a = Trit_False → ¬ sat demo_clts demo_env ex_reach_tree no_binding s).
Proof.
  split; [vm_compute; reflexivity|].
  apply (verdict_sound 5 ex_reach ex_reach_tree abstract_clts demo_env EvaluationOptions_default
    demo_clts demo_env (λ g, g = Guard_default) (λ a s, (a, s) ∈ demo_pairs)).
  - apply ctx_ok_check; [apply abstract_ok|vm_compute; reflexivity..].
  - apply abstract_oob_free.
  - apply plainb_sound; [apply abstract_ok|vm_compute; reflexivity].
  - apply demo_clts_ok.
  - apply refinesb_sound. vm_compute. reflexivity.
  - apply demo_labels_refine.
  - reflexivity.
  - apply ex_reach_formula.
  - apply ex_reach_formula.
  - reflexivity.
  - cbn. repeat split; done.
  - cbn. repeat split; done.
  - vm_compute. lia.
Defined.

Lemma sharp_agreement_witness :
  ∃ v, evaluate_with_options 5 ex_recoverability demo_clts demo_env EvaluationOptions_default = Some v ∧
       evaluate_tri_with_options 5 ex_recoverability demo_clts demo_env EvaluationOptions_default
       = Some (from_parts v v).
Proof.
  apply (sharp_agreement 5 ex_recoverability demo_tree demo_clts demo_env EvaluationOptions_default).
  - apply demo_ctx_ok.
  - apply demo_oob_free.
  - intros s t Ht. pose proof (all_transitions_spec demo_clts
      (λ _ t, bool_decide (modality t = Sharp)) demo_clts_ok eq_refl s t Ht) as H.
    by apply bool_decide_eq_true in H.
  - apply definite_labels_env. vm_compute. reflexivity.
  - reflexivity.
  - apply demo_formula.
  - apply demo_formula.
  - reflexivity.
  - cbn. repeat split; done.
  - vm_compute. lia.
Defined.

(** [nu Y. [ctrl = controllable] Y] on the demo system. *)
Definition controllable_guard : Guard :=
  {| g_labels := []; g_current := VariableGuard_default; g_next := VariableGuard_default;
     g_control := Controllable; max_steps := None |}.
Definition ex_force : Formula :=
  {| root := 2; nodes := [NVariable 0; NModal Box controllable_guard 0; NNu 0 1]; vars := ["Y"] |}.

Lemma evaluate_tri_total_witness :
  ∃ ts, evaluate_tri_with_options 5 ex_force abstract_clts demo_env EvaluationOptions_default = Some ts
    ∧ trit_ok (state_count abstract_clts) ts.
Proof.
  apply (evaluate_tri_total 5 ex_force (TFix Greatest 0 (TModal Box controllable_guard (TVar 0)))
    abstract_clts demo_env EvaluationOptions_default).
  - apply ctx_ok_check; [apply abstract_ok|vm_compute; reflexivity..].
  - apply abstract_oob_free.
  - reflexivity.
  - by apply wf_formulab_sound.
  - apply tree_of_repr with 3. reflexivity.
  - reflexivity.
  - cbn. repeat split; done.
  - vm_compute. lia.
Defined.
