(* ===== verification/Divergences.v ===== *)
(** Concrete systems on which the evaluator leaves the fragment the other files
    prove correct: loops that never converge, modal rules whose two readings
    disagree, and definite three-valued verdicts that a refinement refutes. *)
From S2P Require Import Prelude Formula Trit Clts Modal Evaluator Semantics Domains Checking Verdicts.

#[local] Existing Instance u16_storage.

(** ** Loops that do not converge *)

Section cycle.
Context {V : Type} {D : EvalDomain V}.

Lemma set_same_modal (st : EvalState V) : set_modal_state (modal_state st) st = st.
Proof. by destruct st. Qed.

(** One round that does not converge. *)
Lemma loop_step rounds var k body (a b : V) it st :
  body a st = Some (b, st) → dom_record_ranks var a b (S it) (modal_state st) = modal_state st →
  dom_fixpoint_eq b a = false →
  fixpoint_loop (S rounds) var k body a it st = fixpoint_loop rounds var k body b (S it) st.
Proof.
  intros Hb Hr He. cbn [fixpoint_loop]. by rewrite Hb, Hr, set_same_modal, He.
Qed.

(** Two iterates that map to each other are never left. *)
Lemma loop_two_cycle rounds var k body (a b : V) it st :
  body a st = Some (b, st) → body b st = Some (a, st) →
  (∀ i c d, dom_record_ranks var c d i (modal_state st) = modal_state st) →
  dom_fixpoint_eq b a = false → dom_fixpoint_eq a b = false →
  fixpoint_loop rounds var k body a it st = None ∧ fixpoint_loop rounds var k body b it st = None.
Proof.
  intros Ha Hb Hr H1 H2. revert it. induction rounds as [|r IH]; intros it; [done|].
  rewrite (loop_step r var k body a b it st), (loop_step r var k body b a it st) by done.
  split; apply IH.
Qed.
End cycle.

Definition root_body (rounds k : nat) (x : Ctx) (ns : list Node) (v b : nat) (cur : list bool)
    (st : EvalState (list bool)) : option (list bool * EvalState (list bool)) :=
  eval_node_generic k rounds x ns b (<[v := cur]> ∅) st.

(** A formula whose root loop exhausts its rounds has no result. *)
Lemma root_loop_diverges rounds f c e o kd v b k :
  length (nodes f) = S k →
  nodes f !! root f = Some (match kd with Least => NMu v b | Greatest => NNu v b end) →
  use_memoisation o = false →
  fixpoint_loop rounds v kd (root_body rounds k (mk_ctx c e o) (nodes f) v b)
    (fixpoint_start (mk_ctx c e o) v kd) 0 (initial_state None) = None →
  evaluate_with_options rounds f c e o = None.
Proof.
  intros Hl Hn Hm Hloop. unfold evaluate_with_options, run_eval. fold (mk_ctx c e o).
  destruct (_ =? _); [|done]. rewrite Hl. cbn [eval_node_generic]. rewrite Hn.
  change (options (mk_ctx c e o)) with o. rewrite Hm, andb_false_r. cbn [andb].
  unfold root_body in Hloop.
  change (λ cur st, eval_node_generic k rounds (mk_ctx c e o) (nodes f) b (<[v:=cur]> ∅) st) with
    (λ cur, eval_node_generic (V := list bool) k rounds (mk_ctx c e o) (nodes f) b (<[v:=cur]> ∅))
    in Hloop.
  destruct kd; by rewrite Hloop.
Qed.

(** [mu X. !X] *)
Definition ex_odd : Formula :=
  {| root := 2; nodes := [NVariable 0; NNot 0; NMu 0 1]; vars := ["X"] |}.

(** A cycle a <-> b with an escape to an out-of-bounds sink whose self-loop is
    labelled differently, and [nu X. [labels = {step}] X]. *)
Definition oob_ops : list BuilderOp :=
  [OpLabel ["step"]; OpLabel ["oob"]; OpInitial "a"; OpState "b"; OpState "sink";
   OpTransition "a" [0] "b"; OpTransition "b" [0] "a"; OpTransition "a" [0] "sink";
   OpTransition "sink" [1] "sink"; OpValuation 2 {["__mununu_oob__" := "true"]}].
Definition oob_clts : Clts := built (run_ops oob_ops).
Definition step_guard : Guard :=
  {| g_labels := ["step"]; g_current := VariableGuard_default; g_next := VariableGuard_default;
     g_control := Control_All; max_steps := None |}.
Definition ex_safe : Formula :=
  {| root := 2; nodes := [NVariable 0; NModal Box step_guard 0; NNu 0 1]; vars := ["X"] |}.
Definition no_predicates (n : nat) : EvalEnvironment :=
  {| env_state_count := n; predicates := ∅ |}.

(** ** Guards *)

Definition scoped (ctl : Control) (steps : option nat) (ls : list string) (cur : list string) : Guard :=
  {| g_labels := ls; g_current := {| required := cur; forbidden := [] |};
     g_next := VariableGuard_default; g_control := ctl; max_steps := steps |}.
Definition modal_formula (k : ModalKind) (g : Guard) (body : Node) : Formula :=
  {| root := 1; nodes := [body; NModal k g 0]; vars := [] |}.

(** ** Systems *)

(** Two successors 1 and 2 of state 0. *)
Definition fork_ops (m1 m2 : TransitionModality) (l1 l2 : LabelId) (ctl : list (LabelId * LabelControllability))
    : list BuilderOp :=
  [OpLabel ["a"]; OpLabel ["b"]; OpInitial "s0"; OpState "s1"; OpState "s2";
   OpTransitionIds 0 [l1] 1 m1; OpTransitionIds 0 [l2] 2 m2]
  ++ map (λ x, OpControllability x.1 x.2) ctl.
Definition fork (m1 m2 : TransitionModality) (l1 l2 : LabelId)
    (ctl : list (LabelId * LabelControllability)) : Clts := built (run_ops (fork_ops m1 m2 l1 l2 ctl)).

(** [p] holds in state 1 only. *)
Definition p_env : EvalEnvironment :=
  {| env_state_count := 3; predicates := {["p" := [false; true; false]]} |}.
Definition uncontrollable (ls : list LabelId) : list (LabelId * LabelControllability) :=
  map (λ l, (l, LC_Uncontrollable)) ls.

(** One edge from state 0 to state [to], or none. *)
Definition arrow_ops (edges : list (LabelId * StateId * TransitionModality))
    (ctl : list (LabelId * LabelControllability)) : list BuilderOp :=
  [OpLabel ["a"]; OpInitial "s0"; OpState "s1"; OpState "s2"]
  ++ map (λ e, OpTransitionIds 0 [e.1.1] e.1.2 e.2) edges ++ map (λ x, OpControllability x.1 x.2) ctl.
Definition arrow (edges : list (LabelId * StateId * TransitionModality))
    (ctl : list (LabelId * LabelControllability)) : Clts := built (run_ops (arrow_ops edges ctl)).

Definition tri_verdict (f : Formula) (c : Clts) : option Trit :=
  (λ ts, verdict_at ts 0) <$> evaluate_tri 9 f c p_env.
Definition bool_verdict (o : EvaluationOptions) (f : Formula) (c : Clts) : option bool :=
  (λ v, bit v 0) <$> evaluate_with_options 9 f c p_env o.

(** * Properties *)

(** A formula that binds a variable negatively is not rejected, and the
    evaluator does not terminate on it: no number of rounds lets the loop of
    [mu X. !X] converge. *)
Theorem nonmonotone_divergence rounds :
  monotone (TFix Least 0 (TNot (TVar 0))) = false ∧
  evaluate_with_options rounds ex_odd demo_clts demo_env bare_options = None.
Proof.
  split; [done|]. apply (root_loop_diverges rounds ex_odd demo_clts demo_env bare_options Least 0 1 2);
    [done..|].
  apply (loop_two_cycle rounds 0 Least _ [false; false] [true; true]); vm_compute; reflexivity.
Qed.

(** A safety formula diverges on a system with an out-of-bounds sink. The
    greatest-fixpoint loop of [nu X. [labels = {step}] X] starts without the
    sink, which then satisfies the box vacuously; on a cycle that can escape to
    it the loop alternates between two sets and no number of rounds is enough. *)
Theorem oob_divergence rounds :
  clts_ok oob_clts ∧ monotone (TFix Greatest 0 (TModal Box step_guard (TVar 0))) = true ∧
  evaluate_with_options rounds ex_safe oob_clts (no_predicates 3) bare_options = None.
Proof.
  split; [apply (run_ops_ok oob_ops); vm_compute; reflexivity|]. split; [done|].
  apply (root_loop_diverges rounds ex_safe oob_clts (no_predicates 3) bare_options Greatest 0 1 2);
    [done..|].
  change (fixpoint_start _ 0 Greatest) with
    (bv_and (bv_fill 3 true) (not_oob_bits (mk_ctx oob_clts (no_predicates 3) bare_options))).
  replace (bv_and _ _) with [true; true; false] by (vm_compute; reflexivity).
  destruct rounds as [|r]; [done|].
  rewrite (loop_step r 0 Greatest _ _ [false; true; true]) by (vm_compute; reflexivity).
  apply (loop_two_cycle r 0 Greatest _ [false; true; true] [true; false; true]);
    vm_compute; reflexivity.
Qed.

(** Guard partitions are not transparent for an environment diamond. At a
    state that fails the current-state part of the guard,
    [<ctrl = environment, current = {v}> false] is false with partitions and
    true (no controllable transition seen) without. *)
Theorem environment_diamond_partitions :
  let f := modal_formula Diamond (scoped Environment None [] ["v"]) NFalse in
  let c := fork Sharp Sharp 0 1 [] in
  clts_ok c ∧ bool_verdict EvaluationOptions_default f c = Some false ∧
  bool_verdict bare_options f c = Some true.
Proof.
  split; [apply (run_ops_ok (fork_ops Sharp Sharp 0 1 [])); vm_compute; reflexivity|].
  split; vm_compute; reflexivity.
Qed.

(** On a sharp system the two evaluators disagree on a controllable
    diamond. With an uncontrollable move to a bad state and a controllable one
    to a good state, [<ctrl = controllable> p] is true for the two-valued
    evaluator and definitely false for the three-valued one. *)
Theorem controllable_diamond_disagreement :
  let f := modal_formula Diamond (scoped Controllable None [] []) (NPredicate "p") in
  let c := fork Sharp Sharp 0 1 (uncontrollable [1]) in
  clts_ok c ∧ bool_verdict EvaluationOptions_default f c = Some true ∧
  tri_verdict f c = Some Trit_False.
Proof.
  split; [apply (run_ops_ok (fork_ops Sharp Sharp 0 1 (uncontrollable [1]))); vm_compute; reflexivity|].
  split; vm_compute; reflexivity.
Qed.

(** A [steps = 1] diamond is not the plain diamond. With two uncontrollable
    successors under one label, [<> p] holds where one of them satisfies [p],
    and [<steps = 1> p] does not. *)
Theorem bounded_diamond_is_skolem :
  let c := fork Sharp Sharp 0 0 (uncontrollable [0]) in
  let f g := modal_formula Diamond g (NPredicate "p") in
  clts_ok c ∧
  bool_verdict EvaluationOptions_default (f (scoped Control_All None [] [])) c = Some true ∧
  bool_verdict EvaluationOptions_default (f (scoped Control_All (Some 1) [] [])) c = Some false.
Proof.
  split; [apply (run_ops_ok (fork_ops Sharp Sharp 0 0 (uncontrollable [0]))); vm_compute; reflexivity|].
  split; vm_compute; reflexivity.
Qed.

(** Bounded diamonds break the three-valued invariant. With a must- and a
    may-transition under one uncontrollable label, the definite half of
    [<steps = 1> p] is not inside its possible half, and both the formula and
    its negation are definitely true. *)
Theorem bounded_diamond_breaks_trit :
  let c := fork Sharp MayOnly 0 0 (uncontrollable [0]) in
  let g := scoped Control_All (Some 1) [] [] in
  let f := {| root := 1; nodes := [NPredicate "p"; NModal Diamond g 0]; vars := [] |} in
  let nf := {| root := 2; nodes := [NPredicate "p"; NModal Diamond g 0; NNot 1]; vars := [] |} in
  clts_ok c ∧ tri_verdict f c = Some Trit_True ∧ tri_verdict nf c = Some Trit_True ∧
  (∀ ts, evaluate_tri 9 f c p_env = Some ts → ¬ trit_ok 3 ts).
Proof.
  split; [apply (run_ops_ok (fork_ops Sharp MayOnly 0 0 (uncontrollable [0]))); vm_compute; reflexivity|].
  split; [vm_compute; reflexivity|]. split; [vm_compute; reflexivity|].
  intros ts Hts [_ _ Hsub]. specialize (Hsub 0).
  assert (He : evaluate_tri 9
    {| root := 1; nodes := [NPredicate "p"; NModal Diamond (scoped Control_All (Some 1) [] []) 0];
       vars := [] |} (fork Sharp MayOnly 0 0 (uncontrollable [0])) p_env
    = Some (from_parts [true; false; false] [false; false; false])) by (vm_compute; reflexivity).
  rewrite He in Hts. injection Hts as <-. discriminate (Hsub eq_refl).
Qed.

(** A bounded controllable box with a label guard fails on every admitted
    edge: the recursion asks the zero-step guard at its leaves, which a label
    set never allows. The unbounded box over the same edge holds. *)
Theorem bounded_controllable_labels :
  let c := arrow [(0, 1, Sharp)] [] in
  let f steps := modal_formula Box (scoped Controllable steps ["a"] []) NTrue in
  clts_ok c ∧ bool_verdict EvaluationOptions_default (f None) c = Some true ∧
  bool_verdict EvaluationOptions_default (f (Some 1)) c = Some false.
Proof.
  split; [apply (run_ops_ok (arrow_ops [(0, 1, Sharp)] [])); vm_compute; reflexivity|].
  split; vm_compute; reflexivity.
Qed.

(** Every abstract edge reaches one of its targets, and every concrete edge is
    covered by a target of an abstract one (state names are shared). *)
Definition resolves_hyper (ca cc : Clts) : Prop :=
  ∀ s, s < state_count ca →
    (∀ ta, ta ∈ outgoing ca s →
       ∃ t, t ∈ outgoing cc s ∧ target t ∈ must_target_set (modality ta) (target ta)) ∧
    (∀ t, t ∈ outgoing cc s →
       ∃ ta, ta ∈ outgoing ca s ∧ target t ∈ must_target_set (modality ta) (target ta)).

Lemma arrow_resolves to :
  to ∈ [1; 2] → ∀ ctl, ctl = [] ∨ ctl = uncontrollable [0] →
  resolves_hyper (arrow [(0, 1, MustHyperOnly [1; 2])] ctl) (arrow [(0, to, Sharp)] []).
Proof.
  intros Hto ctl Hctl.
  assert (Hc : ∀ s, outgoing (arrow [(0, to, Sharp)] []) s
    = if decide (s = 0) then [{| target := to; t_labels := [0]; modality := Sharp |}] else []).
  { apply elem_of_cons in Hto as [->|Hto%list_elem_of_singleton]; [|subst to];
      intros [|[|[|s]]]; vm_compute; reflexivity. }
  assert (Ha : ∀ s, outgoing (arrow [(0, 1, MustHyperOnly [1; 2])] ctl) s
    = if decide (s = 0) then [{| target := 1; t_labels := [0]; modality := MustHyperOnly [1; 2] |}]
      else []).
  { destruct Hctl as [-> | ->]; intros [|[|[|s]]]; vm_compute; reflexivity. }
  intros s _. rewrite Ha, Hc. destruct (decide (s = 0)); [|split; intros t Ht; by apply elem_of_nil in Ht].
  split; intros t ->%list_elem_of_singleton; eexists; (split; [by left|done]).
Qed.

(** Boxes over hyper-must edges are decided wrongly in both directions. On
    an edge that must reach state 1 or state 2, with [p] in 1 only, [[] p] is
    definitely false when the edge is controllable although the resolution to
    state 1 satisfies it, and definitely true when it is uncontrollable although
    the resolution to state 2 violates it. *)
Theorem hyper_box_unsound :
  let f := modal_formula Box Guard_default (NPredicate "p") in
  let t := TModal Box Guard_default (TPred "p") in
  let ca ctl := arrow [(0, 1, MustHyperOnly [1; 2])] ctl in
  let cc to := arrow [(0, to, Sharp)] [] in
  (tri_verdict f (ca []) = Some Trit_False ∧
   resolves_hyper (ca []) (cc 1) ∧ sat (cc 1) p_env t no_binding 0) ∧
  (tri_verdict f (ca (uncontrollable [0])) = Some Trit_True ∧
   resolves_hyper (ca (uncontrollable [0])) (cc 2) ∧ ¬ sat (cc 2) p_env t no_binding 0).
Proof.
  split; (split; [vm_compute; reflexivity|]); (split; [apply arrow_resolves; [set_solver|auto]|]).
  - intros t [Ht _]. vm_compute in Ht. apply list_elem_of_singleton in Ht as ->. reflexivity.
  - intros H. specialize (H {| target := 2; t_labels := [0]; modality := Sharp |}).
    assert (Hm : matched (arrow [(0, 2, Sharp)] []) 0 Guard_default
      {| target := 2; t_labels := [0]; modality := Sharp |}) by (split; [by left|reflexivity]).
    specialize (H Hm). vm_compute in H. discriminate.
Qed.

(** The per-player rule over-claims a definite False. Where the only
    controllable edge is a may-transition to a bad state, [[ctrl = controllable] p]
    is definitely false, although the refinement without that edge satisfies
    it. *)
Theorem controllable_box_false_unsound :
  let g := scoped Controllable None [] [] in
  let ca := arrow [(0, 2, MayOnly)] [] in
  let cc := arrow [] [] in
  tri_verdict (modal_formula Box g (NPredicate "p")) ca = Some Trit_False ∧
  refinement ca cc (λ g', g' = g) (λ a s, a = s ∧ a < 3) ∧
  sat cc p_env (TModal Box g (TPred "p")) no_binding 0.
Proof.
  assert (Hno : ∀ s g t, ¬ matched (arrow [] []) s g t).
  { intros s g t [Ht _]. destruct s as [|[|[|s]]]; vm_compute in Ht; by apply elem_of_nil in Ht. }
  split; [vm_compute; reflexivity|]. split.
  - constructor.
    + intros a s [-> Hs]. vm_compute. lia.
    + intros g' a s t _ _ Ht. by apply Hno in Ht.
    + intros g' a s ta _ [-> Hs] [Hta _] Hm. exfalso.
      destruct s as [|[|[|s]]]; vm_compute in Hta; [|by apply elem_of_nil in Hta..].
      by apply list_elem_of_singleton in Hta as ->.
  - split; [intros t Ht; by apply Hno in Ht|]. right. intros t Ht. by apply Hno in Ht.
Qed.

(** ** Documented readings the evaluator departs from *)

(** Two controllable moves with different labels, one of them to a good state.
    The environment can neither move nor is the controller trapped, so the
    documented environment diamond is false; the evaluator returns true, because
    it also accepts an action of the controller all of whose outcomes are good. *)
Theorem environment_diamond_departure :
  let g := scoped Environment None [] [] in
  let c := fork Sharp Sharp 0 1 [] in
  bool_verdict bare_options (modal_formula Diamond g (NPredicate "p")) c = Some true ∧
  skolem_step c g (atom c p_env "p") 0 ∧
  ¬ sat c p_env (TModal Diamond g (TPred "p")) no_binding 0.
Proof.
  intros g c.
  assert (Hmoves : ∃ t0 t1, outgoing c 0 = [t0; t1] ∧ label_set t0 ≠ label_set t1 ∧
    is_controllable c t0 = true ∧ is_controllable c t1 = true ∧ target t0 = 1 ∧ target t1 = 2 ∧
    guard_matches_labels_and_vars c 0 t0 g = true ∧ guard_matches_labels_and_vars c 0 t1 g = true ∧
    is_uncontrollable c t0 = false ∧ is_uncontrollable c t1 = false).
  { eexists _, _. split; [vm_compute; reflexivity|]. split_and!; by vm_compute. }
  destruct Hmoves as (t0 & t1 & Hout & Hl & Hc0 & Hc1 & Ht0 & Ht1 & Hg0 & Hg1 & Hu0 & Hu1).
  assert (Hcases : ∀ t, t ∈ outgoing c 0 → t = t0 ∨ t = t1).
  { intros t. rewrite Hout. by intros [->|[->|[]%not_elem_of_nil]%elem_of_cons]%elem_of_cons; [left|right]. }
  split; [vm_compute; reflexivity|]. split.
  - exists t0. split; [split; [rewrite Hout; left|done]|].
    intros t [[->| ->]%Hcases _] He; [by rewrite Ht0|by rewrite He in Hl].
  - intros [(t & [[->| ->]%Hcases _] & Hu & _)|H]; [congruence..|].
    specialize (H t1). rewrite Ht1 in H. apply not_true_iff_false with (b := false); [done|].
    apply H; [split; [rewrite Hout; right; left|done]|done].
Qed.

(** [mu X. (Good || <> X)] *)
Definition reach_good : Formula :=
  {| root := 4; nodes := [NPredicate "p"; NVariable 0; NModal Diamond Guard_default 1; NOr 0 2; NMu 0 3]; vars := ["X"] |}.

(** The example of the reference page on nondeterminism: two transitions with one
    label to a good and to a bad state.  The page says that state 0 does not
    satisfy the formula; the evaluator, which reads an unscoped diamond as some
    successor, returns true. *)
Theorem nondeterministic_diamond_departure :
  bool_verdict bare_options reach_good (fork Sharp Sharp 0 0 []) = Some true.
Proof. vm_compute. reflexivity. Qed.
