(* ===== verification/Transforms.v ===== *)
(** The formula transforms [nnf.rs], [invert.rs] and [env_enforce.rs].

    Each walks the arena of a formula and writes a fresh one, renaming the bound
    variables through a map.  The walks are modelled on the arena ([to_nnf],
    [invert], [env_enforce]); [nnf_tree] and [enforce_tree] are the trees they
    build, and [to_nnf_tree], [invert_tree] and [env_enforce_tree] relate the
    two.  On trees the transforms are read in any
    lawful domain with a de Morgan negation ([DualLaws]): negation normal form
    keeps the denotation, and inversion complements it as long as the formula
    has no negation.  With one, it does not ([invert_drops_negation]). *)
From S2P Require Import Prelude Formula Trit Clts Modal Evaluator Semantics Domains Checking Verdicts Divergences.

(** ** The arena walks *)

Abbreviation VarMap := (gmap FormulaVarId FormulaVarId).
Definition Walk : Type := NodeId * FormulaBuilder * VarMap.

Definition dual_kind (k : ModalKind) : ModalKind :=
  match k with Box => Diamond | Diamond => Box end.
Definition dual_control (c : Control) : Control :=
  match c with Control_All => Control_All | Controllable => Environment | Environment => Controllable end.
Definition with_control (g : Guard) (c : Control) : Guard :=
  {| g_labels := g_labels g; g_current := g_current g; g_next := g_next g; g_control := c;
     max_steps := max_steps g |}.
Definition dual_guard (g : Guard) : Guard := with_control g (dual_control (g_control g)).

(** [push_node], keeping the variable map. *)
Definition emit (n : Node) (b : FormulaBuilder) (vm : VarMap) : option Walk :=
  let '(id, b') := push_node b n in Some (id, b', vm).

Definition map_var (vm : VarMap) (v : FormulaVarId) : FormulaVarId := default v (vm !! v).

(** [builder.push_var(formula.vars()[var.0].name.clone())]: the index panics. *)
Definition bind_var (f : Formula) (v : FormulaVarId) (b : FormulaBuilder) (vm : VarMap)
    : option (FormulaVarId * FormulaBuilder * VarMap) :=
  let* name := vars f !! v in
  let '(w, b') := push_var b name in Some (w, b', <[v := w]> vm).

Fixpoint nnf_node (fuel : nat) (f : Formula) (id : NodeId) (negate : bool) (b : FormulaBuilder)
    (vm : VarMap) : option Walk :=
  match fuel with
  | O => None
  | S k =>
    let* n := node f id in
    match n with
    | NTrue => emit (if negate then NFalse else NTrue) b vm
    | NFalse => emit (if negate then NTrue else NFalse) b vm
    | NPredicate p =>
      if negate
      then let '(inner, b1) := push_node b (NPredicate p) in emit (NNot inner) b1 vm
      else emit (NPredicate p) b vm
    | NNot inner => nnf_node k f inner (negb negate) b vm
    | NAnd l r =>
      let* (nl, b1, vm1) := nnf_node k f l negate b vm in
      let* (nr, b2, vm2) := nnf_node k f r negate b1 vm1 in
      emit (if negate then NOr nl nr else NAnd nl nr) b2 vm2
    | NOr l r =>
      let* (nl, b1, vm1) := nnf_node k f l negate b vm in
      let* (nr, b2, vm2) := nnf_node k f r negate b1 vm1 in
      emit (if negate then NAnd nl nr else NOr nl nr) b2 vm2
    | NModal kd g t =>
      let* (nt, b1, vm1) := nnf_node k f t negate b vm in
      emit (if negate then NModal (dual_kind kd) (dual_guard g) nt
            else NModal kd (with_control g (g_control g)) nt) b1 vm1
    | NMu v body =>
      let* (w, b1, vm1) := bind_var f v b vm in
      let* (nb, b2, vm2) := nnf_node k f body negate b1 vm1 in
      emit (if negate then NNu w nb else NMu w nb) b2 vm2
    | NNu v body =>
      let* (w, b1, vm1) := bind_var f v b vm in
      let* (nb, b2, vm2) := nnf_node k f body negate b1 vm1 in
      emit (if negate then NMu w nb else NNu w nb) b2 vm2
    | NVariable v => emit (NVariable (map_var vm v)) b vm
    end
  end.

Definition to_nnf (f : Formula) : option Formula :=
  let* (r, b, _) := nnf_node (length (nodes f)) f (root f) false FormulaBuilder_default ∅ in
  Some (into_formula b r).

Fixpoint invert_node (fuel : nat) (f : Formula) (id : NodeId) (b : FormulaBuilder)
    (vm : VarMap) : option Walk :=
  match fuel with
  | O => None
  | S k =>
    let* n := node f id in
    match n with
    | NTrue => emit NFalse b vm
    | NFalse => emit NTrue b vm
    | NPredicate p => let '(inner, b1) := push_node b (NPredicate p) in emit (NNot inner) b1 vm
    | NNot inner => invert_node k f inner b vm
    | NAnd l r =>
      let* (nl, b1, vm1) := invert_node k f l b vm in
      let* (nr, b2, vm2) := invert_node k f r b1 vm1 in
      emit (NOr nl nr) b2 vm2
    | NOr l r =>
      let* (nl, b1, vm1) := invert_node k f l b vm in
      let* (nr, b2, vm2) := invert_node k f r b1 vm1 in
      emit (NAnd nl nr) b2 vm2
    | NModal kd g t =>
      let* (nt, b1, vm1) := invert_node k f t b vm in
      emit (NModal (dual_kind kd) (dual_guard g) nt) b1 vm1
    | NMu v body =>
      let* (w, b1, vm1) := bind_var f v b vm in
      let* (nb, b2, vm2) := invert_node k f body b1 vm1 in
      emit (NNu w nb) b2 vm2
    | NNu v body =>
      let* (w, b1, vm1) := bind_var f v b vm in
      let* (nb, b2, vm2) := invert_node k f body b1 vm1 in
      emit (NMu w nb) b2 vm2
    | NVariable v => emit (NVariable (map_var vm v)) b vm
    end
  end.

Definition invert (f : Formula) : option Formula :=
  let* (r, b, _) := invert_node (length (nodes f)) f (root f) FormulaBuilder_default ∅ in
  Some (into_formula b r).

Fixpoint rewrite_node (fuel : nat) (f : Formula) (id : NodeId) (b : FormulaBuilder)
    (vm : VarMap) : option Walk :=
  match fuel with
  | O => None
  | S k =>
    let* n := node f id in
    match n with
    | NTrue => emit NTrue b vm
    | NFalse => emit NFalse b vm
    | NPredicate p => emit (NPredicate p) b vm
    | NNot inner =>
      let* (ni, b1, vm1) := rewrite_node k f inner b vm in emit (NNot ni) b1 vm1
    | NAnd l r =>
      let* (nl, b1, vm1) := rewrite_node k f l b vm in
      let* (nr, b2, vm2) := rewrite_node k f r b1 vm1 in
      emit (NAnd nl nr) b2 vm2
    | NOr l r =>
      let* (nl, b1, vm1) := rewrite_node k f l b vm in
      let* (nr, b2, vm2) := rewrite_node k f r b1 vm1 in
      emit (NOr nl nr) b2 vm2
    | NModal _ g t =>
      let* (nt, b1, vm1) := rewrite_node k f t b vm in emit (NModal Diamond g nt) b1 vm1
    | NMu v body =>
      let* (w, b1, vm1) := bind_var f v b vm in
      let* (nb, b2, vm2) := rewrite_node k f body b1 vm1 in
      emit (NMu w nb) b2 vm2
    | NNu v body =>
      let* (w, b1, vm1) := bind_var f v b vm in
      let* (nb, b2, vm2) := rewrite_node k f body b1 vm1 in
      emit (NNu w nb) b2 vm2
    | NVariable v => emit (NVariable (map_var vm v)) b vm
    end
  end.

Definition env_enforce (f : Formula) : option Formula :=
  let* (r, b, _) := rewrite_node (length (nodes f)) f (root f) FormulaBuilder_default ∅ in
  Some (into_formula b r).

(** ** The trees they build *)

(** The next variable index and the variable map. *)
Definition Names : Type := nat * VarMap.
Definition bind_name (v : nat) (s : Names) : Names := (S s.1, <[v := s.1]> s.2).

Fixpoint nnf_tree (negate : bool) (t : Tree) (s : Names) : Tree * Names :=
  match t with
  | TTrue => (if negate then TFalse else TTrue, s)
  | TFalse => (if negate then TTrue else TFalse, s)
  | TPred p => (if negate then TNot (TPred p) else TPred p, s)
  | TNot t => nnf_tree (negb negate) t s
  | TAnd l r =>
    let '(tl, s1) := nnf_tree negate l s in
    let '(tr, s2) := nnf_tree negate r s1 in
    (if negate then TOr tl tr else TAnd tl tr, s2)
  | TOr l r =>
    let '(tl, s1) := nnf_tree negate l s in
    let '(tr, s2) := nnf_tree negate r s1 in
    (if negate then TAnd tl tr else TOr tl tr, s2)
  | TModal k g t =>
    let '(ti, s1) := nnf_tree negate t s in
    (if negate then TModal (dual_kind k) (dual_guard g) ti else TModal k g ti, s1)
  | TFix k v t =>
    let '(tb, s1) := nnf_tree negate t (bind_name v s) in
    (TFix (if negate then dual k else k) s.1 tb, s1)
  | TVar v => (TVar (map_var s.2 v), s)
  end.

(** The negations of a formula, erased. *)
Fixpoint erase_not (t : Tree) : Tree :=
  match t with
  | TTrue | TFalse | TPred _ | TVar _ => t
  | TNot t => erase_not t
  | TAnd l r => TAnd (erase_not l) (erase_not r)
  | TOr l r => TOr (erase_not l) (erase_not r)
  | TModal k g t => TModal k g (erase_not t)
  | TFix k v t => TFix k v (erase_not t)
  end.

Fixpoint enforce_tree (t : Tree) (s : Names) : Tree * Names :=
  match t with
  | TTrue | TFalse | TPred _ => (t, s)
  | TNot t => let '(t', s1) := enforce_tree t s in (TNot t', s1)
  | TAnd l r =>
    let '(tl, s1) := enforce_tree l s in let '(tr, s2) := enforce_tree r s1 in (TAnd tl tr, s2)
  | TOr l r =>
    let '(tl, s1) := enforce_tree l s in let '(tr, s2) := enforce_tree r s1 in (TOr tl tr, s2)
  | TModal _ g t => let '(t', s1) := enforce_tree t s in (TModal Diamond g t', s1)
  | TFix k v t => let '(tb, s1) := enforce_tree t (bind_name v s) in (TFix k s.1 tb, s1)
  | TVar v => (TVar (map_var s.2 v), s)
  end.

Fixpoint bound_vars (t : Tree) : list nat :=
  match t with
  | TTrue | TFalse | TPred _ | TVar _ => []
  | TNot t | TModal _ _ t => bound_vars t
  | TAnd l r | TOr l r => bound_vars l ++ bound_vars r
  | TFix _ v t => v :: bound_vars t
  end.

(** Binders are distinct and the formula has no free variable: what the parser
    produces, with one variable per binder. *)
Definition well_named (t : Tree) : Prop := NoDup (bound_vars t) ∧ free_vars t = ∅.

(** ** The walks build the trees *)

(** A walk from [b] with map [vm] has built [t], taking the names to [s]. *)
Definition builds (b : FormulaBuilder) (res : option Walk) (t : Tree) (s : Names) : Prop :=
  ∃ id b', res = Some (id, b', s.2) ∧ wf_arena (b_nodes b') ∧ repr (b_nodes b') id t ∧
    length (b_vars b') = s.1 ∧ ∃ ext, b_nodes b' = b_nodes b ++ ext.

(** A node over trees already built. *)
Definition node_tree (ns : list Node) (n : Node) (t : Tree) : Prop :=
  ∀ ms id, ms !! id = Some n → (∃ ext, ms = ns ++ ext) → repr ms id t.

Lemma builds_emit b0 b n vm t :
  wf_arena (b_nodes b) → Forall (λ c, c < length (b_nodes b)) (children n) →
  node_tree (b_nodes b) n t → (∃ ext, b_nodes b = b_nodes b0 ++ ext) →
  builds b0 (emit n b vm) t (length (b_vars b), vm).
Proof.
  intros Hwf Hc Hn [ext He]. unfold builds, emit, push_node. eexists _, _. simpl.
  split_and!; [done|by apply wf_arena_push| |done|].
  - apply Hn; [apply lookup_push|by eexists].
  - rewrite He, <-app_assoc. by eexists.
Qed.

Lemma repr_ext ns ms id t : repr ns id t → (∃ ext, ms = ns ++ ext) → repr ms id t.
Proof. intros H [ext ->]. by apply repr_mono. Qed.

#[export] Hint Resolve repr_ext : arena.

(** The node built over the children, from their representations. *)
Ltac node_tree_tac :=
  let ms := fresh in let id := fresh in let H := fresh in let E := fresh in
  intros ms id H E; econstructor; eauto using repr_ext.

Lemma builds_leaf b n vm t :
  wf_arena (b_nodes b) → children n = [] → node_tree (b_nodes b) n t →
  builds b (emit n b vm) t (length (b_vars b), vm).
Proof.
  intros Hwf Hc Hn. apply builds_emit; [done|by rewrite Hc|done|].
  exists []. by rewrite app_nil_r.
Qed.

Lemma builds_unary b res t s (mk : NodeId → Node) t' :
  builds b res t s →
  (∀ c ns, children (mk c) = [c] ∧ (repr ns c t → node_tree ns (mk c) t')) →
  builds b (let* (c, b1, vm1) := res in emit (mk c) b1 vm1) t' s.
Proof.
  intros (c & b1 & -> & Hwf & Hr & Hl & He) Hmk. destruct (Hmk c (b_nodes b1)) as [Hc Ht].
  destruct s as [n vm]. simpl in *. subst n. apply builds_emit; [done| |by apply Ht|done].
  rewrite Hc. constructor; [by eapply repr_lt|constructor].
Qed.

Lemma builds_binary b res1 t1 s1 (k2 : FormulaBuilder → VarMap → option Walk) t2 s2
    (mk : NodeId → NodeId → Node) t' :
  builds b res1 t1 s1 →
  (∀ b1, wf_arena (b_nodes b1) → length (b_vars b1) = s1.1 → builds b1 (k2 b1 s1.2) t2 s2) →
  (∀ c d ns, children (mk c d) = [c; d] ∧ (repr ns c t1 → repr ns d t2 → node_tree ns (mk c d) t')) →
  builds b (let* (c, b1, vm1) := res1 in let* (d, b2, vm2) := k2 b1 vm1 in emit (mk c d) b2 vm2) t' s2.
Proof.
  intros (c & b1 & -> & Hwf1 & Hr1 & Hl1 & [e1 He1]) H2 Hmk.
  destruct (H2 b1 Hwf1 Hl1) as (d & b2 & -> & Hwf2 & Hr2 & Hl2 & [e2 He2]).
  destruct (Hmk c d (b_nodes b2)) as [Hc Ht]. destruct s2 as [n vm]. simpl in *. subst n.
  assert (Hr1' : repr (b_nodes b2) c t1) by (rewrite He2; by apply repr_mono).
  apply builds_emit; [done| |by apply Ht|].
  - rewrite Hc. repeat constructor; by eapply repr_lt.
  - rewrite He2, He1, <-app_assoc. by eexists.
Qed.

Lemma builds_bind f v b vm (k2 : FormulaBuilder → VarMap → option Walk) t s (mk : nat → NodeId → Node) t' :
  wf_arena (b_nodes b) → v < length (vars f) →
  (∀ b1, b_nodes b1 = b_nodes b → length (b_vars b1) = S (length (b_vars b)) →
     builds b1 (k2 b1 (<[v := length (b_vars b)]> vm)) t s) →
  (∀ c ns, let n := mk (length (b_vars b)) c in
     children n = [c] ∧ (repr ns c t → node_tree ns n t')) →
  builds b (let* (w, b1, vm1) := bind_var f v b vm in
            let* (c, b2, vm2) := k2 b1 vm1 in emit (mk w c) b2 vm2) t' s.
Proof.
  intros Hwf Hv H2 Hmk. unfold bind_var. destruct (lookup_lt_is_Some_2 _ _ Hv) as [name ->].
  unfold push_var. simpl.
  set (b1 := {| b_nodes := b_nodes b; b_vars := b_vars b ++ [name] |}).
  destruct (H2 b1 eq_refl) as (c & b2 & -> & Hwf2 & Hr2 & Hl2 & [e2 He2]).
  { simpl. rewrite length_app. simpl. lia. }
  destruct (Hmk c (b_nodes b2)) as [Hc Ht]. destruct s as [n vm']. simpl in *. subst n.
  apply builds_emit; [done| |by apply Ht|by eexists].
  rewrite Hc. constructor; [by eapply repr_lt|constructor].
Qed.

Lemma with_control_id g : with_control g (g_control g) = g.
Proof. by destruct g. Qed.

(** Binders name variables of the formula's table. *)
Definition binders_in (f : Formula) (t : Tree) : Prop := Forall (λ v, v < length (vars f)) (bound_vars t).

#[local] Ltac node_case :=
  intros; simpl; split; [done|]; intros; node_tree_tac.

Lemma builds_not_predicate b p vm :
  wf_arena (b_nodes b) →
  builds b (let '(inner, b1) := push_node b (NPredicate p) in emit (NNot inner) b1 vm)
    (TNot (TPred p)) (length (b_vars b), vm).
Proof.
  intros Hwf. unfold push_node.
  apply (builds_emit b {| b_nodes := b_nodes b ++ [NPredicate p]; b_vars := b_vars b |}); simpl.
  - apply wf_arena_push; [done|constructor].
  - rewrite length_app. simpl. repeat constructor. lia.
  - intros ms id' Hid' [ext Hext]. eapply repr_not; [done|]. apply repr_pred.
    rewrite Hext. apply lookup_app_l_Some, lookup_push.
  - by eexists.
Qed.

(** One case of a walk: [walk] and [tree] are the walk and its tree function,
    [mk] the node it emits over the walked children. *)
#[local] Ltac walk_binary walk tree mk IHl IHr l r tl tr b vm Hb Hwf :=
  let Hbl := fresh in let Hbr := fresh in let E1 := fresh in let E2 := fresh in
  let IH := fresh in
  apply Forall_app in Hb as [Hbl Hbr];
  pose proof (IHl b vm ltac:(lia) Hbl Hwf) as IH;
  destruct (tree tl (length (b_vars b), vm)) as [?t [? ?vm]] eqn:E1; simpl in IH;
  match type of E1 with _ = (?tl', (?n1, ?vm1)) =>
    destruct (tree tr (n1, vm1)) as [?t ?s] eqn:E2; simpl;
    match type of E2 with _ = (?tr', ?s2) =>
      apply (builds_binary b _ tl' (n1, vm1) (λ b1 vm1, walk r b1 vm1) tr' s2 mk); [done| |];
      [let b1 := fresh in let Hwf1 := fresh in let Hl1 := fresh in let H := fresh in
       intros b1 Hwf1 Hl1; pose proof (IHr b1 vm1 ltac:(lia) Hbr Hwf1) as H;
       simpl in *; by rewrite Hl1, E2 in H
      |try match goal with n : bool |- _ => destruct n end; node_case]
    end
  end.

#[local] Ltac walk_unary tree mk IH t b vm Hb Hwf :=
  let H := fresh in let E := fresh in
  pose proof (IH b vm ltac:(lia) Hb Hwf) as H;
  destruct (tree t (length (b_vars b), vm)) as [?t ?s] eqn:E; simpl in *; rewrite ?with_control_id;
  match type of E with _ = (?t', ?s1) => apply (builds_unary b _ t' s1 mk); [done|] end;
  try match goal with n : bool |- _ => destruct n end; node_case.

#[local] Ltac walk_fix f walk tree mk IH a t v b vm Hb Hwf :=
  let Hv := fresh in let Hb' := fresh in let E := fresh in
  apply Forall_cons in Hb as [Hv Hb'];
  destruct (tree t (bind_name v (length (b_vars b), vm))) as [?t ?s] eqn:E; simpl;
  match type of E with _ = (?t', ?s1) =>
    apply (builds_bind f v b vm (λ b1 vm1, walk a b1 vm1) t' s1 mk); [done|done| |];
    [let b1 := fresh in let Hn1 := fresh in let Hl1 := fresh in let H := fresh in
     intros b1 Hn1 Hl1;
     pose proof (IH b1 (<[v := length (b_vars b)]> vm) ltac:(lia) Hb') as H;
     rewrite Hn1, Hl1 in H; unfold bind_name in E; simpl in E; rewrite E in H; by apply H
    |try match goal with n : bool |- _ => destruct n end; node_case]
  end.

Lemma nnf_walk fuel f id t negate b vm :
  repr (nodes f) id t → height t ≤ fuel → binders_in f t → wf_arena (b_nodes b) →
  builds b (nnf_node fuel f id negate b vm) (nnf_tree negate t (length (b_vars b), vm)).1
    (nnf_tree negate t (length (b_vars b), vm)).2.
Proof.
  intros Hr. revert fuel negate b vm.
  induction Hr as [id Hn|id Hn|id p Hn|id v Hn|id a t Hn _ IH|id l r tl tr Hn _ IHl _ IHr
    |id l r tl tr Hn _ IHl _ IHr|id k g a t Hn _ IH|id v a t Hn _ IH|id v a t Hn _ IH];
    intros fuel negate b vm Hh Hb Hwf; (destruct fuel as [|fuel]; simpl in Hh; [lia|]);
    cbn [nnf_node nnf_tree]; unfold node; rewrite Hn; unfold binders_in in *; simpl in Hb.
  - destruct negate; apply builds_leaf; try done; node_tree_tac.
  - destruct negate; apply builds_leaf; try done; node_tree_tac.
  - destruct negate; [by apply builds_not_predicate|]. apply builds_leaf; try done; node_tree_tac.
  - apply builds_leaf; try done; node_tree_tac.
  - apply IH; [lia|done|done].
  - walk_binary (λ r, nnf_node fuel f r negate) (nnf_tree negate)
      (λ c d, if negate then NOr c d else NAnd c d) (IHl fuel negate) (IHr fuel negate) l r tl tr b vm Hb Hwf.
  - walk_binary (λ r, nnf_node fuel f r negate) (nnf_tree negate)
      (λ c d, if negate then NAnd c d else NOr c d) (IHl fuel negate) (IHr fuel negate) l r tl tr b vm Hb Hwf.
  - walk_unary (nnf_tree negate) (λ c, if negate then NModal (dual_kind k) (dual_guard g) c
      else NModal k g c) (IH fuel negate) t b vm Hb Hwf.
  - walk_fix f (λ r, nnf_node fuel f r negate) (nnf_tree negate)
      (λ w c, if negate then NNu w c else NMu w c) (IH fuel negate) a t v b vm Hb Hwf.
  - walk_fix f (λ r, nnf_node fuel f r negate) (nnf_tree negate)
      (λ w c, if negate then NMu w c else NNu w c) (IH fuel negate) a t v b vm Hb Hwf.
Qed.

Lemma bound_vars_erase t : bound_vars (erase_not t) = bound_vars t.
Proof. induction t; simpl; congruence. Qed.

(** Inversion walks a formula as if its negations were not there. *)
Lemma invert_walk fuel f id t b vm :
  repr (nodes f) id t → height t ≤ fuel → binders_in f t → wf_arena (b_nodes b) →
  builds b (invert_node fuel f id b vm) (nnf_tree true (erase_not t) (length (b_vars b), vm)).1
    (nnf_tree true (erase_not t) (length (b_vars b), vm)).2.
Proof.
  intros Hr. revert fuel b vm.
  induction Hr as [id Hn|id Hn|id p Hn|id v Hn|id a t Hn _ IH|id l r tl tr Hn _ IHl _ IHr
    |id l r tl tr Hn _ IHl _ IHr|id k g a t Hn _ IH|id v a t Hn _ IH|id v a t Hn _ IH];
    intros fuel b vm Hh Hb Hwf; (destruct fuel as [|fuel]; simpl in Hh; [lia|]);
    cbn [invert_node erase_not nnf_tree]; unfold node; rewrite Hn; unfold binders_in in *; simpl in Hb.
  - apply builds_leaf; try done; node_tree_tac.
  - apply builds_leaf; try done; node_tree_tac.
  - by apply builds_not_predicate.
  - apply builds_leaf; try done; node_tree_tac.
  - apply IH; [lia|done|done].
  - walk_binary (λ r, invert_node fuel f r) (λ t, nnf_tree true (erase_not t))
      NOr (IHl fuel) (IHr fuel) l r tl tr b vm Hb Hwf.
  - walk_binary (λ r, invert_node fuel f r) (λ t, nnf_tree true (erase_not t))
      NAnd (IHl fuel) (IHr fuel) l r tl tr b vm Hb Hwf.
  - walk_unary (λ t, nnf_tree true (erase_not t)) (NModal (dual_kind k) (dual_guard g))
      (IH fuel) t b vm Hb Hwf.
  - walk_fix f (λ r, invert_node fuel f r) (λ t, nnf_tree true (erase_not t)) NNu (IH fuel) a t v b vm Hb Hwf.
  - walk_fix f (λ r, invert_node fuel f r) (λ t, nnf_tree true (erase_not t)) NMu (IH fuel) a t v b vm Hb Hwf.
Qed.

Lemma enforce_walk fuel f id t b vm :
  repr (nodes f) id t → height t ≤ fuel → binders_in f t → wf_arena (b_nodes b) →
  builds b (rewrite_node fuel f id b vm) (enforce_tree t (length (b_vars b), vm)).1
    (enforce_tree t (length (b_vars b), vm)).2.
Proof.
  intros Hr. revert fuel b vm.
  induction Hr as [id Hn|id Hn|id p Hn|id v Hn|id a t Hn _ IH|id l r tl tr Hn _ IHl _ IHr
    |id l r tl tr Hn _ IHl _ IHr|id k g a t Hn _ IH|id v a t Hn _ IH|id v a t Hn _ IH];
    intros fuel b vm Hh Hb Hwf; (destruct fuel as [|fuel]; simpl in Hh; [lia|]);
    cbn [rewrite_node enforce_tree]; unfold node; rewrite Hn; unfold binders_in in *; simpl in Hb.
  - apply builds_leaf; try done; node_tree_tac.
  - apply builds_leaf; try done; node_tree_tac.
  - apply builds_leaf; try done; node_tree_tac.
  - apply builds_leaf; try done; node_tree_tac.
  - walk_unary enforce_tree NNot (IH fuel) t b vm Hb Hwf.
  - walk_binary (λ r, rewrite_node fuel f r) enforce_tree NAnd (IHl fuel) (IHr fuel) l r tl tr b vm Hb Hwf.
  - walk_binary (λ r, rewrite_node fuel f r) enforce_tree NOr (IHl fuel) (IHr fuel) l r tl tr b vm Hb Hwf.
  - walk_unary enforce_tree (NModal Diamond g) (IH fuel) t b vm Hb Hwf.
  - walk_fix f (λ r, rewrite_node fuel f r) enforce_tree NMu (IH fuel) a t v b vm Hb Hwf.
  - walk_fix f (λ r, rewrite_node fuel f r) enforce_tree NNu (IH fuel) a t v b vm Hb Hwf.
Qed.

Lemma walk_formula (w : option Walk) t s f :
  builds FormulaBuilder_default w t s →
  (let* (r, b, _) := w in Some (into_formula b r)) = Some f → wf_formula f ∧ formula_tree f t.
Proof.
  intros (id & b' & -> & Hwf & Hr & _) [= <-]. split; [|done]. split; [done|].
  by eapply repr_lt.
Qed.

Lemma walk_total (w : option Walk) t s :
  builds FormulaBuilder_default w t s →
  ∃ f, (let* (r, b, _) := w in Some (into_formula b r)) = Some f.
Proof. intros (id & b' & -> & _). eauto. Qed.

Lemma to_nnf_tree f t :
  wf_formula f → formula_tree f t → binders_in f t →
  ∃ g, to_nnf f = Some g ∧ wf_formula g ∧ formula_tree g (nnf_tree false t (0, ∅)).1.
Proof.
  intros Hwf Ht Hb.
  pose proof (nnf_walk (length (nodes f)) f (root f) t false FormulaBuilder_default ∅ Ht
    (formula_tree_fuel f t Hwf Ht) Hb wf_arena_nil) as Hw.
  destruct (walk_total _ _ _ Hw) as [g Hg]. exists g. split; [done|]. by eapply walk_formula.
Qed.

Lemma invert_tree f t :
  wf_formula f → formula_tree f t → binders_in f t →
  ∃ g, invert f = Some g ∧ wf_formula g ∧ formula_tree g (nnf_tree true (erase_not t) (0, ∅)).1.
Proof.
  intros Hwf Ht Hb.
  pose proof (invert_walk (length (nodes f)) f (root f) t FormulaBuilder_default ∅ Ht
    (formula_tree_fuel f t Hwf Ht) Hb wf_arena_nil) as Hw.
  destruct (walk_total _ _ _ Hw) as [g Hg]. exists g. split; [done|]. by eapply walk_formula.
Qed.

Lemma env_enforce_tree f t :
  wf_formula f → formula_tree f t → binders_in f t →
  ∃ g, env_enforce f = Some g ∧ wf_formula g ∧ formula_tree g (enforce_tree t (0, ∅)).1.
Proof.
  intros Hwf Ht Hb.
  pose proof (enforce_walk (length (nodes f)) f (root f) t FormulaBuilder_default ∅ Ht
    (formula_tree_fuel f t Hwf Ht) Hb wf_arena_nil) as Hw.
  destruct (walk_total _ _ _ Hw) as [g Hg]. exists g. split; [done|]. by eapply walk_formula.
Qed.

(** ** Shapes *)

(** Negations sit on predicates only. *)
Fixpoint is_nnf (t : Tree) : bool :=
  match t with
  | TTrue | TFalse | TPred _ | TVar _ => true
  | TNot (TPred _) => true
  | TNot _ => false
  | TAnd l r | TOr l r => is_nnf l && is_nnf r
  | TModal _ _ t | TFix _ _ t => is_nnf t
  end.

Lemma nnf_tree_is_nnf negate t s : is_nnf (nnf_tree negate t s).1 = true.
Proof.
  revert negate s. induction t as [| |p|v|t IH|l IHl r IHr|l IHl r IHr|k g t IH|k v t IH];
    intros negate s; simpl; try (by destruct negate); try done.
  - specialize (IHl negate s). destruct (nnf_tree negate l s) as [tl s1].
    specialize (IHr negate s1). destruct (nnf_tree negate r s1) as [tr s2].
    simpl in *. destruct negate; simpl; by rewrite IHl, IHr.
  - specialize (IHl negate s). destruct (nnf_tree negate l s) as [tl s1].
    specialize (IHr negate s1). destruct (nnf_tree negate r s1) as [tr s2].
    simpl in *. destruct negate; simpl; by rewrite IHl, IHr.
  - specialize (IH negate s). destruct (nnf_tree negate t s). by destruct negate.
  - specialize (IH negate (bind_name v s)). destruct (nnf_tree negate t (bind_name v s)). done.
Qed.

Lemma is_nnf_positive t v : is_nnf t = true → occurs_only true v t = true.
Proof.
  induction t as [| |p|w|t IH|l IHl r IHr|l IHl r IHr|k g t IH|k w t IH]; simpl; try done.
  - by destruct t.
  - rewrite !andb_true_iff. naive_solver.
  - rewrite !andb_true_iff. naive_solver.
  - by destruct (_ =? _).
Qed.

Lemma is_nnf_monotone t : is_nnf t = true → monotone t = true.
Proof.
  induction t as [| |p|w|t IH|l IHl r IHr|l IHl r IHr|k g t IH|k w t IH]; simpl; try done.
  - by destruct t.
  - rewrite !andb_true_iff. naive_solver.
  - rewrite !andb_true_iff. naive_solver.
  - intros H. apply andb_true_iff. split; [by apply is_nnf_positive|auto].
Qed.

(** No box is left. *)
Fixpoint box_free (t : Tree) : bool :=
  match t with
  | TTrue | TFalse | TPred _ | TVar _ => true
  | TNot t | TFix _ _ t => box_free t
  | TAnd l r | TOr l r => box_free l && box_free r
  | TModal k _ t => bool_decide (k = Diamond) && box_free t
  end.

Lemma enforce_box_free t s : box_free (enforce_tree t s).1 = true.
Proof.
  revert s. induction t as [| |p|v|t IH|l IHl r IHr|l IHl r IHr|k g t IH|k v t IH];
    intros s; simpl; try done.
  - specialize (IH s). by destruct (enforce_tree t s).
  - specialize (IHl s). destruct (enforce_tree l s) as [tl s1].
    specialize (IHr s1). destruct (enforce_tree r s1). simpl in *. by rewrite IHl, IHr.
  - specialize (IHl s). destruct (enforce_tree l s) as [tl s1].
    specialize (IHr s1). destruct (enforce_tree r s1). simpl in *. by rewrite IHl, IHr.
  - specialize (IH s). by destruct (enforce_tree t s).
  - specialize (IH (bind_name v s)). by destruct (enforce_tree t (bind_name v s)).
Qed.

(** ** Names *)

(** A walk keeps the names of variables it does not bind, and only grows. *)
Lemma nnf_names negate t s :
  let s' := (nnf_tree negate t s).2 in
  s.1 ≤ s'.1 ∧ (∀ v, v ∉ bound_vars t → s'.2 !! v = s.2 !! v).
Proof.
  revert negate s. induction t as [| |p|v|t IH|l IHl r IHr|l IHl r IHr|k g t IH|k v t IH];
    intros negate s; simpl; try done.
  - destruct (IHl negate s) as [H1 H2]. destruct (nnf_tree negate l s) as [tl s1].
    destruct (IHr negate s1) as [H3 H4]. destruct (nnf_tree negate r s1) as [tr s2]. simpl in *.
    split; [lia|]. intros v [Hl Hr]%not_elem_of_app. rewrite H4, H2 by done. done.
  - destruct (IHl negate s) as [H1 H2]. destruct (nnf_tree negate l s) as [tl s1].
    destruct (IHr negate s1) as [H3 H4]. destruct (nnf_tree negate r s1) as [tr s2]. simpl in *.
    split; [lia|]. intros v [Hl Hr]%not_elem_of_app. rewrite H4, H2 by done. done.
  - destruct (IH negate s) as [H1 H2]. by destruct (nnf_tree negate t s).
  - destruct (IH negate (bind_name v s)) as [H1 H2].
    destruct (nnf_tree negate t (bind_name v s)) as [t' s1]. simpl in *. split; [lia|].
    intros u [Hu Hb]%not_elem_of_cons. rewrite H2 by done. by rewrite lookup_insert_ne.
Qed.

(** Free variables are named, below the next name. *)
Definition names_ok (t : Tree) (s : Names) : Prop :=
  ∀ v, v ∈ free_vars t → ∃ w, s.2 !! v = Some w ∧ w < s.1.

(** ** De Morgan domains *)

Class DualLaws (V : Type) `{EvalDomain V} (x : Ctx) (good dual_good : ModalKind → Guard → Prop)
    `{!DomainLaws V x good} := {
  dnot_involutive : ∀ a, dok a → dom_not x (dom_not x a) = a;
  dnot_top : dom_not x (dom_top x) = dom_bottom x;
  dnot_and : ∀ a b, dok a → dok b → dom_not x (dom_and a b) = dom_or (dom_not x a) (dom_not x b);
  dnot_modal : ∀ k g a, dual_good k g → dok a →
    dom_not x (dmodal k g a) = dmodal (dual_kind k) (dual_guard g) (dom_not x a);
  dual_good_good : ∀ k g, dual_good k g → good k g;
  dual_good_dual : ∀ k g, dual_good k g → dual_good (dual_kind k) (dual_guard g)
}.

Section duality.
Context {V : Type} {D : EvalDomain V} (x : Ctx) (good dual_good : ModalKind → Guard → Prop)
  {L : DomainLaws V x good} {DL : DualLaws V x good dual_good}.

Lemma dnot_bottom : dom_not x (dom_bottom x) = dom_top x.
Proof using DL. rewrite <-dnot_top. apply dnot_involutive, dok_top. Qed.

Lemma dnot_or a b : dok a → dok b → dom_not x (dom_or a b) = dom_and (dom_not x a) (dom_not x b).
Proof using DL.
  intros Ha Hb.
  rewrite <-(dnot_involutive (dom_and (dom_not x a) (dom_not x b))) by (apply dok_and; by apply dok_not).
  rewrite dnot_and by (by apply dok_not). by rewrite !dnot_involutive.
Qed.

Definition cond_not (negate : bool) (a : V) : V := if negate then dom_not x a else a.

Lemma cond_not_start negate k : cond_not negate (fix_start x k) = fix_start x (if negate then dual k else k).
Proof using DL. destruct negate, k; simpl; [apply dnot_bottom|apply dnot_top|done..]. Qed.

Definition binding (ρ : gmap FormulaVarId V) (v : nat) : V := dom_from_binding x (ρ !! v).

(** [ρ'] holds under the new names what [ρ] holds under the old, complemented
    according to the polarity of the occurrences. *)
Definition renames (negate : bool) (t : Tree) (s : Names) (ρ ρ' : gmap FormulaVarId V) : Prop :=
  ∀ v, v ∈ free_vars t →
    (occurs_only false v t = true ∨ binding ρ' (map_var s.2 v) = cond_not negate (binding ρ v)) ∧
    (occurs_only true v t = true ∨ binding ρ' (map_var s.2 v) = cond_not (negb negate) (binding ρ v)).

Lemma map_var_keep negate t s v :
  v ∉ bound_vars t → map_var (nnf_tree negate t s).2.2 v = map_var s.2 v.
Proof using Type. intros Hv. unfold map_var. by rewrite (proj2 (nnf_names negate t s) v Hv). Qed.

Lemma modalities_dual t : modalities_good dual_good t → modalities_good good t.
Proof using DL. induction t; simpl; try tauto. intros [? ?]. split; [by apply dual_good_good|auto]. Qed.

(** Distinct binders, none of which is also free. *)
Definition separate (t : Tree) : Prop :=
  NoDup (bound_vars t) ∧ ∀ v, v ∈ bound_vars t → v ∉ free_vars t.

Lemma renames_sub negate t t' s s' ρ ρ' :
  (∀ v, v ∈ free_vars t' → v ∈ free_vars t ∧ map_var s'.2 v = map_var s.2 v) →
  (∀ pol v, occurs_only pol v t = true → occurs_only pol v t' = true) →
  renames negate t s ρ ρ' → renames negate t' s' ρ ρ'.
Proof using Type.
  intros Hv Ho H v Hin. destruct (Hv v Hin) as [Hin' ->]. destruct (H v Hin') as [[?|?] [?|?]]; auto.
Qed.

Lemma cond_not_binary (negate : bool) (f g : V → V → V) a b :
  dom_not x (f a b) = g (dom_not x a) (dom_not x b) →
  (if negate then g else f) (cond_not negate a) (cond_not negate b) = cond_not negate (f a b).
Proof using Type. intros H. by destruct negate; simpl. Qed.

(** The premises of a conjunction's children. *)
Lemma children_ok negate l r s ρ ρ' :
  separate (TAnd l r) → names_ok (TAnd l r) s → renames negate (TAnd l r) s ρ ρ' →
  let s1 := (nnf_tree negate l s).2 in
  (separate l ∧ names_ok l s ∧ renames negate l s ρ ρ') ∧
  (separate r ∧ names_ok r s1 ∧ renames negate r s1 ρ ρ').
Proof using Type.
  intros [Hnd Hsep] Hn Hr s1. simpl in *. apply NoDup_app in Hnd as (Hl & Hlr & Hr').
  destruct (nnf_names negate l s) as [Hle Hkeep]. fold s1 in Hle, Hkeep.
  assert (Hfree : ∀ v, v ∈ free_vars r → v ∉ bound_vars l).
  { intros v Hv Hb. apply (Hsep v); [apply elem_of_app; by left|apply elem_of_union; by right]. }
  assert (Ho : ∀ pol v, occurs_only pol v (TAnd l r) = true →
    occurs_only pol v l = true ∧ occurs_only pol v r = true) by (simpl; intros; by apply andb_true_iff).
  split; split_and!.
  - split; [done|]. intros v Hv Hf. apply (Hsep v); [apply elem_of_app; by left|apply elem_of_union; by left].
  - intros v Hv. apply Hn. apply elem_of_union. by left.
  - eapply renames_sub; [| |exact Hr]; [|intros; by eapply Ho].
    intros v Hv. split; [simpl; apply elem_of_union; by left|done].
  - split; [done|]. intros v Hv Hf. apply (Hsep v); [apply elem_of_app; by right|apply elem_of_union; by right].
  - intros v Hv. destruct (Hn v) as (w & Hw & Hlt); [apply elem_of_union; by right|].
    exists w. rewrite Hkeep by auto. split; [done|lia].
  - eapply renames_sub; [| |exact Hr]; [|intros; by eapply Ho].
    intros v Hv. split; [simpl; apply elem_of_union; by right|].
    unfold map_var. by rewrite Hkeep by auto.
Qed.

(** The premises of a fixpoint's body. *)
Lemma body_ok negate k v t s ρ ρ' a :
  separate (TFix k v t) → occurs_only true v t = true → names_ok (TFix k v t) s →
  renames negate (TFix k v t) s ρ ρ' →
  separate t ∧ names_ok t (bind_name v s) ∧
  renames negate t (bind_name v s) (<[v := a]> ρ) (<[s.1 := cond_not negate a]> ρ').
Proof using All.
  intros [Hnd Hsep] Hocc Hn Hr. simpl in *. apply NoDup_cons in Hnd as [Hv Hnd]. split_and!.
  - split; [done|]. intros u Hu Hf. destruct (decide (u = v)) as [->|Hne]; [done|].
    apply (Hsep u); [by right|]. set_solver.
  - intros u Hu. simpl. destruct (decide (u = v)) as [->|Hne].
    + exists s.1. rewrite lookup_insert_eq. split; [done|lia].
    + destruct (Hn u) as (w & Hw & Hlt); [simpl; set_solver|]. exists w.
      rewrite lookup_insert_ne by done. split; [done|lia].
  - intros u Hu. unfold binding, map_var. simpl. destruct (decide (u = v)) as [->|Hne].
    + rewrite !lookup_insert_eq. simpl. auto.
    + destruct (Hn u) as (w & Hw & Hlt); [simpl; set_solver|].
      rewrite !(lookup_insert_ne _ v u) by done. rewrite Hw. simpl.
      rewrite (lookup_insert_ne _ s.1 w) by lia.
      assert (Hu' : u ∈ free_vars (TFix k v t)) by (simpl; set_solver).
      specialize (Hr u Hu'). unfold binding, map_var in Hr. rewrite Hw in Hr. simpl in Hr.
      destruct (Nat.eqb_spec u v); [done|]. exact Hr.
Qed.

(** Negation normal form keeps the denotation, inversion's polarity flips it. *)
Lemma nnf_denote negate t s ρ ρ' :
  modalities_good dual_good t → monotone t = true → separate t →
  env_ok x good ρ → names_ok t s → renames negate t s ρ ρ' →
  denote x good (nnf_tree negate t s).1 ρ' = cond_not negate (denote x good t ρ).
Proof using DL.
  revert negate s ρ ρ'. induction t as [| |p|v|t IH|l IHl r IHr|l IHl r IHr|k g t IH|k v t IH];
    intros negate s ρ ρ' Hg Hm Hsep Hρ Hn Hr; pose proof (modalities_dual _ Hg) as Hg'.
  - destruct negate; simpl; [by rewrite dnot_top|done].
  - destruct negate; simpl; [by rewrite dnot_bottom|done].
  - by destruct negate.
  - destruct (Hr v) as [[Hv|Hv] _]; [simpl; set_solver| |done].
    simpl in Hv. by rewrite Nat.eqb_refl in Hv.
  - simpl. rewrite (IH (negb negate) s ρ ρ' Hg Hm Hsep Hρ Hn).
    + destruct negate; simpl; [|done]. symmetry. by apply dnot_involutive, denote_ok.
    + intros v Hv. destruct (Hr v Hv) as [H1 H2]. rewrite negb_involutive. by split.
  - destruct Hg as [Hgl Hgr], Hg' as [Hgl' Hgr']. apply andb_true_iff in Hm as [? ?].
    destruct (children_ok negate l r s ρ ρ' Hsep Hn Hr) as [(? & ? & Hrl) (? & ? & Hrr)].
    specialize (IHl negate s ρ ρ' Hgl ltac:(done) ltac:(done) Hρ ltac:(done) Hrl). simpl.
    destruct (nnf_tree negate l s) as [tl s1]. simpl in *.
    specialize (IHr negate s1 ρ ρ' Hgr ltac:(done) ltac:(done) Hρ ltac:(done) Hrr).
    destruct (nnf_tree negate r s1) as [tr s2]. simpl in *.
    rewrite <-(cond_not_binary negate dom_and dom_or) by (apply dnot_and; by apply denote_ok).
    rewrite <-IHl, <-IHr. by destruct negate.
  - destruct Hg as [Hgl Hgr], Hg' as [Hgl' Hgr']. apply andb_true_iff in Hm as [? ?].
    destruct (children_ok negate l r s ρ ρ' Hsep Hn Hr) as [(? & ? & Hrl) (? & ? & Hrr)].
    specialize (IHl negate s ρ ρ' Hgl ltac:(done) ltac:(done) Hρ ltac:(done) Hrl). simpl.
    destruct (nnf_tree negate l s) as [tl s1]. simpl in *.
    specialize (IHr negate s1 ρ ρ' Hgr ltac:(done) ltac:(done) Hρ ltac:(done) Hrr).
    destruct (nnf_tree negate r s1) as [tr s2]. simpl in *.
    rewrite <-(cond_not_binary negate dom_or dom_and) by (apply dnot_or; by apply denote_ok).
    rewrite <-IHl, <-IHr. by destruct negate.
  - destruct Hg as [Hk Hg], Hg' as [_ Hg']. simpl in Hm, Hsep. simpl.
    specialize (IH negate s ρ ρ' Hg Hm Hsep Hρ Hn Hr).
    destruct (nnf_tree negate t s) as [t' s1]. simpl in *.
    destruct negate; simpl in *; rewrite IH; [|done].
    symmetry. apply dnot_modal; [done|]. by apply denote_ok.
  - simpl in Hg, Hg'. simpl in Hm. apply andb_true_iff in Hm as [Hocc Hm]. cbn [nnf_tree].
    pose proof (λ a, body_ok negate k v t s ρ ρ' a Hsep Hocc Hn Hr) as Hbody.
    assert (IHb : ∀ a, dok a → denote x good (nnf_tree negate t (bind_name v s)).1
      (<[s.1 := cond_not negate a]> ρ') = cond_not negate (denote x good t (<[v := a]> ρ))).
    { intros a Ha. destruct (Hbody a) as (? & ? & ?). apply IH; try done. by apply env_ok_insert. }
    clear IH Hbody. destruct (nnf_tree negate t (bind_name v s)) as [t' s1]. cbn [fst denote] in *.
    rewrite <-cond_not_start.
    assert (Hit : ∀ j, Nat.iter j (λ w, denote x good t' (<[s.1 := w]> ρ')) (cond_not negate (fix_start x k))
      = cond_not negate (Nat.iter j (λ w, denote x good t (<[v := w]> ρ)) (fix_start x k))
      ∧ dok (Nat.iter j (λ w, denote x good t (<[v := w]> ρ)) (fix_start x k))); [|apply Hit].
    intros j. induction j as [|j [IHj Hj]]; [split; [done|apply (dok_start x good)]|].
    rewrite !iter_succ, IHj. split; [by apply IHb|]. apply denote_ok; [done|by apply env_ok_insert].
Qed.

Lemma well_named_separate t : well_named t → separate t.
Proof using Type. intros [Hnd Hf]. split; [done|]. intros v _. rewrite Hf. apply not_elem_of_empty. Qed.

(** For closed formulas. *)
Lemma nnf_denote_closed negate t :
  modalities_good dual_good t → monotone t = true → well_named t →
  denote x good (nnf_tree negate t (0, ∅)).1 ∅ = cond_not negate (denote x good t ∅).
Proof using DL.
  intros Hg Hm Hw. apply nnf_denote; try done.
  - by apply well_named_separate.
  - intros v. destruct Hw as [_ ->]. by intros ?%elem_of_empty.
  - intros v. destruct Hw as [_ ->]. by intros ?%elem_of_empty.
Qed.

Lemma nnf_good negate t s :
  modalities_good dual_good t → modalities_good dual_good (nnf_tree negate t s).1.
Proof using DL.
  revert negate s. induction t as [| |p|v|t IH|l IHl r IHr|l IHl r IHr|k g t IH|k v t IH];
    intros negate s; simpl; try (by destruct negate); try done.
  - intros H. by apply IH.
  - intros [Hl Hr]. specialize (IHl negate s Hl). destruct (nnf_tree negate l s) as [tl s1].
    specialize (IHr negate s1 Hr). destruct (nnf_tree negate r s1) as [tr s2]. by destruct negate.
  - intros [Hl Hr]. specialize (IHl negate s Hl). destruct (nnf_tree negate l s) as [tl s1].
    specialize (IHr negate s1 Hr). destruct (nnf_tree negate r s1) as [tr s2]. by destruct negate.
  - intros [Hk Hg]. specialize (IH negate s Hg). destruct (nnf_tree negate t s) as [t' s1].
    destruct negate; simpl in *; [split; [by apply dual_good_dual|done]|by split].
  - intros Hg. specialize (IH negate (bind_name v s) Hg).
    by destruct (nnf_tree negate t (bind_name v s)).
Qed.
End duality.

Lemma separate_children l r :
  separate (TAnd l r) →
  separate l ∧ separate r ∧ ∀ v, v ∈ free_vars r → v ∉ bound_vars l.
Proof.
  intros [Hnd Hsep]. simpl in *. apply NoDup_app in Hnd as (Hl & _ & Hr).
  split_and!; [split; [done|]|split; [done|]|]; intros v Hv Hf.
  - apply (Hsep v); [apply elem_of_app; by left|apply elem_of_union; by left].
  - apply (Hsep v); [apply elem_of_app; by right|apply elem_of_union; by right].
  - apply (Hsep v); [apply elem_of_app; by left|apply elem_of_union; by right].
Qed.

Lemma separate_fix k v t : separate (TFix k v t) → separate t.
Proof.
  intros [Hnd Hsep]. simpl in *. apply NoDup_cons in Hnd as [Hv Hnd]. split; [done|].
  intros u Hu Hf. destruct (decide (u = v)) as [->|Hne]; [done|].
  apply (Hsep u); [by right|]. apply elem_of_difference. by rewrite elem_of_singleton.
Qed.

(** The free variables of a rewritten tree are the renamed ones. *)
Lemma nnf_free negate t s w :
  separate t → w ∈ free_vars (nnf_tree negate t s).1 → ∃ v, v ∈ free_vars t ∧ w = map_var s.2 v.
Proof.
  revert negate s. induction t as [| |p|v|t IH|l IHl r IHr|l IHl r IHr|k g t IH|k v t IH];
    intros negate s Hsep; try (by destruct negate; intros []%not_elem_of_empty).
  - simpl. intros ->%elem_of_singleton. exists v. by rewrite elem_of_singleton.
  - by apply IH.
  - destruct (separate_children l r Hsep) as (Hl & Hr & Hlr). simpl.
    specialize (IHl negate s Hl). pose proof (nnf_names negate l s) as [_ Hkeep].
    destruct (nnf_tree negate l s) as [tl s1]. specialize (IHr negate s1 Hr).
    destruct (nnf_tree negate r s1) as [tr s2]. simpl in *. setoid_rewrite elem_of_union.
    assert (Hw : w ∈ free_vars tl ∨ w ∈ free_vars tr → ∃ v, (v ∈ free_vars l ∨ v ∈ free_vars r) ∧ w = map_var s.2 v).
    { intros [(v & ? & ->)%IHl|(v & ? & ->)%IHr]; [eauto|]. exists v. split; [by right|].
      unfold map_var. by rewrite Hkeep by auto. }
    by destruct negate; simpl; rewrite elem_of_union.
  - destruct (separate_children l r Hsep) as (Hl & Hr & Hlr). simpl.
    specialize (IHl negate s Hl). pose proof (nnf_names negate l s) as [_ Hkeep].
    destruct (nnf_tree negate l s) as [tl s1]. specialize (IHr negate s1 Hr).
    destruct (nnf_tree negate r s1) as [tr s2]. simpl in *. setoid_rewrite elem_of_union.
    assert (Hw : w ∈ free_vars tl ∨ w ∈ free_vars tr → ∃ v, (v ∈ free_vars l ∨ v ∈ free_vars r) ∧ w = map_var s.2 v).
    { intros [(v & ? & ->)%IHl|(v & ? & ->)%IHr]; [eauto|]. exists v. split; [by right|].
      unfold map_var. by rewrite Hkeep by auto. }
    by destruct negate; simpl; rewrite elem_of_union.
  - specialize (IH negate s Hsep). simpl. destruct (nnf_tree negate t s) as [t' s1].
    by destruct negate.
  - specialize (IH negate (bind_name v s) (separate_fix _ _ _ Hsep)). simpl.
    destruct (nnf_tree negate t (bind_name v s)) as [t' s1]. simpl in *.
    rewrite elem_of_difference, elem_of_singleton. intros [(u & Hu & ->)%IH Hne].
    unfold map_var in *. simpl in *. destruct (decide (u = v)) as [->|Huv].
    + rewrite lookup_insert_eq in Hne. done.
    + exists u. rewrite lookup_insert_ne by done. by rewrite elem_of_difference, elem_of_singleton.
Qed.

(** ** Both evaluators read negation as a de Morgan dual *)

Lemma matched_with_control c s g k t : matched c s (with_control g k) t ↔ matched c s g t.
Proof. done. Qed.

Lemma dual_guard_all g : g_control g = Control_All → dual_guard g = g.
Proof. intros Hc. unfold dual_guard. rewrite Hc. simpl. rewrite <-Hc. apply with_control_id. Qed.

(** The dual pass over the complement is the complement of the pass. *)
Lemma pass_dual x k g T f s :
  ctx_ok x → plain (clts x) → g_control g = Control_All →
  length T = state_count (clts x) → s < state_count (clts x) →
  bit (eval_modal_unbounded (clts x) (dual_kind k) g (bv_not T) (ctx_parts x g) f) s
  = negb (bit (eval_modal_unbounded (clts x) k g T (ctx_parts x g) f) s).
Proof.
  intros Hx Hp Hc Hl Hs. apply bool_eq_iff. rewrite negb_true_iff, <-not_true_iff_false.
  assert (Hn : ∀ t, matched (clts x) s g t →
    bit (bv_not T) (target t) = true ↔ bit T (target t) ≠ true).
  { intros t [Ht _]. rewrite bit_not, negb_true_iff, not_true_iff_false; [done|].
    rewrite Hl. by eapply ok_target; [apply (cok_clts x Hx)|]. }
  destruct k; simpl; rewrite ?pass_box, ?pass_diamond by done.
  - split; [intros (t & Hm & Ha & Hb) H; by apply Hn in Hb; [apply Hb, H|]|].
    intros H. set (bad t := guard_matches_labels_and_vars (clts x) s t g && allows f t && negb (bit T (target t))).
    destruct (existsb bad (outgoing (clts x) s)) eqn:E.
    + apply existsb_spec in E as (t & Ht & [[Hg Ha]%andb_true_iff Hb]%andb_true_iff).
      assert (Hm : matched (clts x) s g t) by done. exists t. split_and!; [done..|].
      apply Hn; [done|]. by apply negb_true_iff in Hb as ->.
    + destruct H. intros t [Ht Hg] Ha. destruct (bit T (target t)) eqn:Hb; [done|].
      enough (existsb bad (outgoing (clts x) s) = true) by congruence.
      apply existsb_spec. exists t. split; [done|]. unfold bad. by rewrite Hg, Ha, Hb.
  - split.
    + intros H (t & Hm & Ha & Hb). specialize (H t Hm Ha). by apply Hn in H.
    + intros H t Hm Ha. apply Hn; [done|]. intros Hb. apply H. by exists t.
Qed.

Lemma bool_dom_not x a :
  ctx_ok x → oob_free x → bool_ok x a → dom_not x a = bv_not a.
Proof.
  intros Hx Ho Ha. pose proof (dok_not (DomainLaws := bool_laws x Hx Ho) a Ha) as Hl.
  apply bv_eq; [rewrite length_bv_not, Ha; exact Hl|]. intros i Hi. rewrite Hl in Hi.
  rewrite (bool_not_spec x a i Hx Ho Ha Hi). rewrite bit_not; [done|]. by rewrite Ha.
Qed.

Lemma bv_not_involutive a : bv_not (bv_not a) = a.
Proof.
  apply bv_eq; [by rewrite !length_bv_not|]. intros i Hi. rewrite !length_bv_not in Hi.
  by rewrite !bit_not, negb_involutive by (by rewrite ?length_bv_not).
Qed.

Lemma bv_not_and a b : length a = length b → bv_not (bv_and a b) = bv_or (bv_not a) (bv_not b).
Proof.
  intros Hl. apply bv_eq; [by rewrite length_bv_not, length_bv_and, length_bv_or, length_bv_not|].
  intros i Hi. rewrite length_bv_not, length_bv_and in Hi.
  rewrite bit_or, !bit_not, bit_and by (rewrite ?length_bv_not, ?length_bv_and; lia).
  by rewrite negb_andb.
Qed.

Lemma bv_not_or a b : length a = length b → bv_not (bv_or a b) = bv_and (bv_not a) (bv_not b).
Proof.
  intros Hl. rewrite <-(bv_not_involutive a), <-(bv_not_involutive b) at 1.
  rewrite <-bv_not_and by (by rewrite !length_bv_not). apply bv_not_involutive.
Qed.

Lemma bv_not_fill n b : bv_not (bv_fill n b) = bv_fill n (negb b).
Proof.
  apply bv_eq; [by rewrite length_bv_not, !length_bv_fill|]. intros i Hi.
  rewrite length_bv_not, length_bv_fill in Hi.
  rewrite bit_not, !bit_fill, bool_decide_true by (rewrite ?length_bv_fill; done).
  by destruct b.
Qed.

Lemma all_top x : ctx_ok x → oob_free x →
  bv_and (bv_fill (env_state_count (env x)) true) (not_oob_bits x) = bv_fill (state_count (clts x)) true.
Proof. intros Hx Ho. rewrite (cok_count x Hx). apply mask_id; [done|apply length_bv_fill]. Qed.

(** The dual of a modality. *)
Lemma eval_pass_dual x k g T f :
  ctx_ok x → plain (clts x) → g_control g = Control_All → length T = state_count (clts x) →
  eval_modal_unbounded (clts x) (dual_kind k) g (bv_not T) (ctx_parts x g) f
  = bv_not (eval_modal_unbounded (clts x) k g T (ctx_parts x g) f).
Proof.
  intros Hx Hp Hc Hl. apply bv_eq; [by rewrite length_bv_not, !length_modal_unbounded|].
  intros i Hi. rewrite length_modal_unbounded in Hi.
  rewrite bit_not by (by rewrite length_modal_unbounded). by apply pass_dual.
Qed.

Lemma verification_dual k g : verification_guard k g → verification_guard (dual_kind k) (dual_guard g).
Proof. intros [Hu Hc]. by rewrite dual_guard_all. Qed.

#[local] Instance bool_dual x (Hx : ctx_ok x) (Ho : oob_free x) (Hp : plain (clts x)) :
  DualLaws (list bool) x unbounded verification_guard (DomainLaws0 := bool_laws x Hx Ho).
Proof.
  set (L := bool_laws x Hx Ho).
  assert (Hn : ∀ a, bool_ok x a → dom_not x a = bv_not a) by (intros; by apply bool_dom_not).
  constructor.
  - intros a Ha. rewrite (Hn a Ha), Hn by (unfold bool_ok; by rewrite length_bv_not).
    apply bv_not_involutive.
  - assert (Htop : dom_top x = bv_fill (state_count (clts x)) true) by (by apply all_top).
    rewrite Htop, Hn by (apply length_bv_fill). rewrite bv_not_fill. simpl. by rewrite (cok_count x Hx).
  - intros a b Ha Hb. rewrite (Hn a Ha), (Hn b Hb), Hn by (exact (dok_and a b Ha Hb)).
    apply bv_not_and. congruence.
  - intros k g a [_ Hc] Ha. rewrite !Hn; [|exact Ha|apply length_modal_unbounded].
    rewrite dual_guard_all by done. symmetry. by apply eval_pass_dual.
  - by intros k g [? _].
  - apply verification_dual.
Qed.

#[local] Instance kleene_dual x (Hx : ctx_ok x) (Ho : oob_free x) (Hp : plain (clts x)) :
  DualLaws TritSet x unbounded verification_guard (DomainLaws0 := kleene_laws x Hx Ho).
Proof.
  constructor; simpl.
  - intros a _. apply tnot_involutive.
  - apply TritSet_eq; simpl.
    + by rewrite bv_not_fill.
    + rewrite all_top by done. rewrite bv_not_fill. by rewrite (cok_count x Hx).
  - intros a b [Ha1 Ha2 _] [Hb1 Hb2 _]. apply TritSet_eq; simpl; apply bv_not_and; congruence.
  - intros k g a [_ Hc] [Ha1 Ha2 _]. rewrite dual_guard_all by done. unfold kleene_modal. rewrite Hc.
    apply TritSet_eq; simpl;
      [rewrite <-(eval_pass_dual x k g (may_true a))|rewrite <-(eval_pass_dual x k g (must_true a))];
      try done; by destruct k.
  - by intros k g [? _].
  - apply verification_dual.
Qed.

(** ** Evaluating a transformed formula *)

(** A run on a formula whose tree is [t] returns the denotation of [t]. *)
Lemma evaluate_denote_unbounded x (Hx : ctx_ok x) (Ho : oob_free x) rounds f t :
  prior_approximants (options x) = None → wf_formula f → formula_tree f t → monotone t = true →
  modalities_good unbounded t → 2 * state_count (clts x) < rounds →
  evaluate_with_options rounds f (clts x) (env x) (options x)
    = Some (denote x unbounded (L := bool_laws x Hx Ho) t ∅) ∧
  evaluate_tri_with_options rounds f (clts x) (env x) (options x)
    = Some (denote x unbounded (L := kleene_laws x Hx Ho) t ∅).
Proof.
  intros Hp Hwf Ht Hm Hg Hr.
  set (LB := bool_laws x Hx Ho). set (LK := kleene_laws x Hx Ho).
  assert (HrB : dbound (DomainLaws := LB) < rounds) by (simpl; lia).
  destruct (run_eval_correct x LB rounds f t None Hx Hwf Ht Hm Hg (no_priors_seeds x LB t Hp) HrB)
    as [st Hrun].
  destruct (run_eval_correct x LK rounds f t None Hx Hwf Ht Hm Hg (no_priors_seeds x LK t Hp) Hr)
    as [st' Hrun'].
  unfold evaluate_with_options, evaluate_tri_with_options.
  replace {| clts := clts x; env := env x; options := options x |} with x by (by destruct x).
  by rewrite Hrun, Hrun'.
Qed.

Lemma evaluate_denote x (Hx : ctx_ok x) (Ho : oob_free x) rounds f t :
  prior_approximants (options x) = None → wf_formula f → formula_tree f t → monotone t = true →
  modalities_good verification_guard t → 2 * state_count (clts x) < rounds →
  evaluate_with_options rounds f (clts x) (env x) (options x)
    = Some (denote x unbounded (L := bool_laws x Hx Ho) t ∅) ∧
  evaluate_tri_with_options rounds f (clts x) (env x) (options x)
    = Some (denote x unbounded (L := kleene_laws x Hx Ho) t ∅).
Proof. intros Hp Hwf Ht Hm Hg%verification_unbounded Hr. by apply evaluate_denote_unbounded. Qed.

(** No negation, not even on predicates. *)
Fixpoint negation_free (t : Tree) : bool :=
  match t with
  | TTrue | TFalse | TPred _ | TVar _ => true
  | TNot _ => false
  | TAnd l r | TOr l r => negation_free l && negation_free r
  | TModal _ _ t | TFix _ _ t => negation_free t
  end.

(** The textbook reading of a verification formula. *)
Lemma verification_checkable x t :
  modalities_good verification_guard t → modalities_good (checkable x) t.
Proof.
  intros Hg. induction t; simpl in *; unfold verification_guard, checkable in *; try tauto.
  destruct Hg as [[Hu Hc] Hg]. split; [|by apply IHt]. split; [done|]. intros _ Hc'. congruence.
Qed.

Lemma denote_sat_closed x (Hx : ctx_ok x) (Ho : oob_free x) (Hp : plain (clts x)) (Hk : keys_faithful (clts x)) t s :
  monotone t = true → modalities_good verification_guard t → s < state_count (clts x) →
  bit (denote x unbounded (L := bool_laws x Hx Ho) t ∅) s = true ↔ csat x t no_binding s.
Proof.
  intros Hm Hg Hs. rewrite (denote_sat x Hx Ho Hp Hk t ∅ s);
    [|by apply verification_checkable|done|apply env_ok_empty|done].
  apply sat_ext; [apply (cok_clts x Hx)| |done]. intros v. split; intros s' _; by rewrite bits_env_empty.
Qed.

Lemma evaluate_sat x rounds f t :
  ctx_ok x → oob_free x → plain (clts x) → keys_faithful (clts x) → prior_approximants (options x) = None →
  wf_formula f → formula_tree f t → monotone t = true → modalities_good verification_guard t →
  2 * state_count (clts x) < rounds →
  ∃ v, evaluate_with_options rounds f (clts x) (env x) (options x) = Some v ∧
    ∀ s, s < state_count (clts x) → bit v s = true ↔ csat x t no_binding s.
Proof.
  intros Hx Ho Hp Hk Hprior Hwf Ht Hm Hg Hr.
  destruct (evaluate_denote x Hx Ho rounds f t Hprior Hwf Ht Hm Hg Hr) as [E _].
  eexists. split; [exact E|]. intros s Hs. by apply denote_sat_closed.
Qed.

Lemma negation_free_erase t : negation_free t = true → erase_not t = t.
Proof.
  induction t; simpl; try done; rewrite ?andb_true_iff; intros; try (destruct H); f_equal; auto.
Qed.

Lemma negation_free_is_nnf t : negation_free t = true → is_nnf t = true.
Proof. induction t; simpl; try done. all: rewrite !andb_true_iff; intros []; auto. Qed.

(** Every box read as a diamond. *)
Fixpoint diamonds (t : Tree) : Tree :=
  match t with
  | TTrue | TFalse | TPred _ | TVar _ => t
  | TNot t => TNot (diamonds t)
  | TAnd l r => TAnd (diamonds l) (diamonds r)
  | TOr l r => TOr (diamonds l) (diamonds r)
  | TModal _ g t => TModal Diamond g (diamonds t)
  | TFix k v t => TFix k v (diamonds t)
  end.

Lemma enforce_is_nnf t s : is_nnf t = true → enforce_tree t s = nnf_tree false (diamonds t) s.
Proof.
  revert s. induction t as [| |p|v|t IH|l IHl r IHr|l IHl r IHr|k g t IH|k v t IH];
    intros s Hn; simpl in *; try done.
  - by destruct t.
  - apply andb_true_iff in Hn as [Hl Hr]. rewrite IHl by done.
    destruct (nnf_tree false (diamonds l) s) as [? s1]. by rewrite IHr.
  - apply andb_true_iff in Hn as [Hl Hr]. rewrite IHl by done.
    destruct (nnf_tree false (diamonds l) s) as [? s1]. by rewrite IHr.
  - by rewrite IH.
  - by rewrite IH.
Qed.

Lemma diamonds_bound t : bound_vars (diamonds t) = bound_vars t.
Proof. induction t; simpl; congruence. Qed.
Lemma diamonds_free t : free_vars (diamonds t) = free_vars t.
Proof. induction t; simpl; congruence. Qed.
Lemma diamonds_is_nnf t : is_nnf t = true → is_nnf (diamonds t) = true.
Proof.
  induction t as [| | | |t IH| | | |]; simpl; try done.
  - by destruct t.
  - rewrite !andb_true_iff. intros []; auto.
  - rewrite !andb_true_iff. intros []; auto.
Qed.
Lemma diamonds_guards (P : Guard → Prop) t :
  modalities_good (λ _, P) t → modalities_good (λ _, P) (diamonds t).
Proof. induction t; simpl; tauto. Qed.

Lemma diamonds_well_named t : well_named t → well_named (diamonds t).
Proof. unfold well_named. by rewrite diamonds_bound, diamonds_free. Qed.

(** Every state has a transition matching each guard of the formula. *)
Definition serial (c : Clts) (t : Tree) : Prop :=
  modalities_good (λ _ g, ∀ s, s < state_count c → ∃ t, matched c s g t) t.

Lemma sat_diamonds c e t ρ s :
  is_nnf t = true → serial c t → modalities_good verification_guard t → s < state_count c →
  clts_ok c → sat c e t ρ s → sat c e (diamonds t) ρ s.
Proof.
  intros Hn Hser Hg Hs Hok. revert ρ s Hs Hn Hser Hg.
  induction t as [| |p|v|t IH|l IHl r IHr|l IHl r IHr|k g t IH|k v t IH];
    intros ρ s Hs Hn Hser Hg; simpl in *; try done.
  - by destruct t.
  - apply andb_true_iff in Hn as [? ?]. destruct Hg, Hser. intros [? ?]; split; auto.
  - apply andb_true_iff in Hn as [? ?]. destruct Hg, Hser. intros [?|?]; [left|right]; auto.
  - destruct Hg as [[_ Hc] Hg], Hser as [Hex Hser]. intros Hst.
    apply (step_mono c k g _ (sat c e (diamonds t) ρ)) in Hst; [|done|intros s' Hs' H; by apply IH].
    unfold step in *. rewrite Hc in *. destruct k; [|done].
    destruct (Hex s Hs) as [tr Hm]. exists tr. split; [done|]. by apply Hst.
  - destruct k.
    + intros Hf S HS. apply Hf. intros s' Hs' H. apply HS; [done|]. by apply IH.
    + intros (S & HS & HSs). exists S. split; [|done]. intros s' Hs' H. apply IH; try done. by apply HS.
Qed.

(** A formula as the builder leaves it: a well-formed arena, one variable of the
    table per binder, and no free variable. *)
Record closed_formula (f : Formula) (t : Tree) : Prop := {
  cf_wf : wf_formula f;
  cf_tree : formula_tree f t;
  cf_binders : binders_in f t;
  cf_named : well_named t
}.

(** * Properties *)

(** C37: negation normal form is an equivalence. On every closed monotone
    formula over unscoped, unbounded modalities [to_nnf] returns a well-formed
    formula whose negations sit on predicates only, and both evaluators return
    the same result on it as on the original, on every system without
    out-of-bounds states and multi-target hyper-transitions. *)
Theorem to_nnf_preserves rounds f t c e o :
  let x := mk_ctx c e o in
  ctx_ok x → oob_free x → plain c → prior_approximants o = None →
  closed_formula f t → monotone t = true → modalities_good verification_guard t →
  2 * state_count c < rounds →
  ∃ g u, to_nnf f = Some g ∧ wf_formula g ∧ formula_tree g u ∧ is_nnf u = true ∧
    (∃ v, evaluate_with_options rounds f c e o = Some v ∧ evaluate_with_options rounds g c e o = Some v) ∧
    (∃ ts, evaluate_tri_with_options rounds f c e o = Some ts ∧
           evaluate_tri_with_options rounds g c e o = Some ts).
Proof.
  intros x Hx Ho Hp Hprior [Hwf Ht Hb Hw] Hm Hg Hr.
  destruct (to_nnf_tree f t Hwf Ht Hb) as (g & Hto & Hwf' & Ht').
  pose proof (nnf_tree_is_nnf false t (0, ∅)) as Hnnf.
  destruct (evaluate_denote x Hx Ho rounds f t Hprior Hwf Ht Hm Hg Hr) as [E1 E2].
  destruct (evaluate_denote x Hx Ho rounds g _ Hprior Hwf' Ht' (is_nnf_monotone _ Hnnf)
    (nnf_good x unbounded verification_guard (DL := bool_dual x Hx Ho Hp) false t _ Hg) Hr) as [E3 E4].
  rewrite (nnf_denote_closed x unbounded verification_guard (DL := bool_dual x Hx Ho Hp)) in E3 by done.
  rewrite (nnf_denote_closed x unbounded verification_guard (DL := kleene_dual x Hx Ho Hp)) in E4 by done.
  exists g, (nnf_tree false t (0, ∅)).1. split_and!; eauto.
Qed.

(** Inverting a negation-free formula complements it. [invert] returns a
    well-formed formula that the two-valued evaluator maps to the complement of
    the original's states, and the three-valued one to its Kleene negation. *)
Theorem invert_complements rounds f t c e o :
  let x := mk_ctx c e o in
  ctx_ok x → oob_free x → plain c → prior_approximants o = None →
  closed_formula f t → negation_free t = true → modalities_good verification_guard t →
  2 * state_count c < rounds →
  ∃ g v ts, invert f = Some g ∧ wf_formula g ∧
    evaluate_with_options rounds f c e o = Some v ∧
    evaluate_with_options rounds g c e o = Some (bv_not v) ∧
    evaluate_tri_with_options rounds f c e o = Some ts ∧
    evaluate_tri_with_options rounds g c e o = Some (tnot ts).
Proof.
  intros x Hx Ho Hp Hprior [Hwf Ht Hb Hw] Hnf Hg Hr.
  pose proof (is_nnf_monotone _ (negation_free_is_nnf _ Hnf)) as Hm.
  destruct (invert_tree f t Hwf Ht Hb) as (g & Hinv & Hwf' & Ht').
  rewrite (negation_free_erase t Hnf) in Ht'.
  pose proof (is_nnf_monotone _ (nnf_tree_is_nnf true t (0, ∅))) as Hm'.
  destruct (evaluate_denote x Hx Ho rounds f t Hprior Hwf Ht Hm Hg Hr) as [E1 E2].
  destruct (evaluate_denote x Hx Ho rounds g _ Hprior Hwf' Ht' Hm'
    (nnf_good x unbounded verification_guard (DL := bool_dual x Hx Ho Hp) true t _ Hg) Hr) as [E3 E4].
  rewrite (nnf_denote_closed x unbounded verification_guard (DL := bool_dual x Hx Ho Hp)) in E3 by done.
  rewrite (nnf_denote_closed x unbounded verification_guard (DL := kleene_dual x Hx Ho Hp)) in E4 by done.
  unfold cond_not in E3. rewrite (bool_dom_not x _ Hx Ho) in E3.
  - eexists g, _, _. split_and!; eauto.
  - apply (denote_ok x unbounded (L := bool_laws x Hx Ho) t ∅ (verification_unbounded _ Hg)).
    apply env_ok_empty.
Qed.

(** The environment's control reading. On a closed formula in negation
    normal form over unscoped, unbounded modalities, [env_enforce] returns a
    box-free formula whose evaluation is the textbook meaning of the original
    with every box read as a diamond; where every state has a matching
    transition, it contains every state that satisfies the original. *)
Theorem env_enforce_correct rounds f t c e o :
  let x := mk_ctx c e o in
  ctx_ok x → oob_free x → plain c → keys_faithful c → prior_approximants o = None →
  closed_formula f t → is_nnf t = true → modalities_good verification_guard t →
  2 * state_count c < rounds →
  ∃ g u v, env_enforce f = Some g ∧ formula_tree g u ∧ box_free u = true ∧
    evaluate_with_options rounds g c e o = Some v ∧
    (∀ s, s < state_count c → bit v s = true ↔ sat c e (diamonds t) no_binding s) ∧
    (serial c t → ∀ s, s < state_count c → sat c e t no_binding s → bit v s = true).
Proof.
  intros x Hx Ho Hp Hk Hprior [Hwf Ht Hb Hw] Hn Hg Hr.
  destruct (env_enforce_tree f t Hwf Ht Hb) as (g & Henf & Hwf' & Ht').
  pose proof (enforce_box_free t (0, ∅)) as Hbf. rewrite (enforce_is_nnf t _ Hn) in Ht', Hbf.
  assert (Hgd : modalities_good verification_guard (diamonds t)).
  { clear -Hg. induction t; simpl in *; unfold verification_guard in *; tauto. }
  pose proof (is_nnf_monotone _ (diamonds_is_nnf _ Hn)) as Hmd.
  pose proof (is_nnf_monotone _ (nnf_tree_is_nnf false (diamonds t) (0, ∅))) as Hm'.
  destruct (evaluate_denote x Hx Ho rounds g _ Hprior Hwf' Ht' Hm'
    (nnf_good x unbounded verification_guard (DL := bool_dual x Hx Ho Hp) false _ _ Hgd) Hr) as [E1 _].
  rewrite (nnf_denote_closed x unbounded verification_guard (DL := bool_dual x Hx Ho Hp)) in E1
    by eauto using diamonds_well_named.
  assert (Hsat : ∀ s, s < state_count c →
    bit (denote x unbounded (L := bool_laws x Hx Ho) (diamonds t) ∅) s = true
    ↔ sat c e (diamonds t) no_binding s) by (intros s Hs; by apply denote_sat_closed).
  eexists g, _, _. split_and!; eauto. intros Hser s Hs Hst. apply Hsat; [done|].
  apply sat_diamonds; try done. apply (cok_clts x Hx).
Qed.

Definition not_predicate (p : string) : Formula :=
  {| root := 1; nodes := [NPredicate p; NNot 0]; vars := [] |}.
(** [! [] p] *)
Definition not_box : Formula :=
  {| root := 2; nodes := [NPredicate "p"; NModal Box Guard_default 0; NNot 1]; vars := [] |}.
(** The two-valued verdict of state 0 on a transformed formula. *)
Definition verdict_after (f : option Formula) (c : Clts) : option bool :=
  let* g := f in bool_verdict EvaluationOptions_default g c.
Definition fair_fork : Clts := fork Sharp Sharp 0 0 [].

(** Inversion drops negations. It maps [!p] to itself, so the formula and
    its "complement" hold in the same states; [invert] inverts the formula that
    is left when its negations are erased. *)
Theorem invert_drops_negation :
  (∀ p, invert (not_predicate p) = Some (not_predicate p)) ∧
  bool_verdict EvaluationOptions_default (not_predicate "p") fair_fork = Some true ∧
  verdict_after (invert (not_predicate "p")) fair_fork = Some true ∧
  (∀ f t, wf_formula f → formula_tree f t → binders_in f t →
     ∃ g, invert f = Some g ∧ formula_tree g (nnf_tree true (erase_not t) (0, ∅)).1).
Proof.
  split_and!; [done|vm_compute; reflexivity..|].
  intros f t Hwf Ht Hb. destruct (invert_tree f t Hwf Ht Hb) as (g & ? & _ & ?). eauto.
Qed.

(** The control reading does not commute with negation. The environment can
    refute [[] p] by choosing the successor without [p], and [env_enforce] of the
    negation normal form of [! [] p] says so, but [env_enforce] of [! [] p]
    itself is [! <> p], which is false. *)
Theorem env_enforce_under_negation :
  bool_verdict EvaluationOptions_default not_box fair_fork = Some true ∧
  verdict_after (env_enforce not_box) fair_fork = Some false ∧
  verdict_after (let* g := to_nnf not_box in env_enforce g) fair_fork = Some true.
Proof. split_and!; vm_compute; reflexivity. Qed.

(** ** Witnesses *)

Lemma demo_binders : binders_in ex_recoverability demo_tree.
Proof. repeat constructor; simpl; lia. Qed.

Lemma demo_closed : closed_formula ex_recoverability demo_tree.
Proof.
  split; [apply demo_formula..|apply demo_binders|].
  split; [|vm_compute; reflexivity]. repeat constructor; set_solver.
Qed.

Lemma to_nnf_preserves_witness :
  ∃ g u, to_nnf ex_recoverability = Some g ∧ wf_formula g ∧ formula_tree g u ∧ is_nnf u = true ∧
    (∃ v, evaluate_with_options 5 ex_recoverability demo_clts demo_env EvaluationOptions_default = Some v
        ∧ evaluate_with_options 5 g demo_clts demo_env EvaluationOptions_default = Some v) ∧
    (∃ ts, evaluate_tri_with_options 5 ex_recoverability demo_clts demo_env EvaluationOptions_default = Some ts
        ∧ evaluate_tri_with_options 5 g demo_clts demo_env EvaluationOptions_default = Some ts).
Proof.
  apply (to_nnf_preserves 5 ex_recoverability demo_tree demo_clts demo_env EvaluationOptions_default).
  - apply demo_ctx_ok.
  - apply demo_oob_free.
  - apply demo_plain.
  - reflexivity.
  - apply demo_closed.
  - reflexivity.
  - cbn. repeat split; done.
  - vm_compute. lia.
Defined.

Lemma invert_complements_witness :
  ∃ g v ts, invert ex_recoverability = Some g ∧ wf_formula g ∧
    evaluate_with_options 5 ex_recoverability demo_clts demo_env EvaluationOptions_default = Some v ∧
    evaluate_with_options 5 g demo_clts demo_env EvaluationOptions_default = Some (bv_not v) ∧
    evaluate_tri_with_options 5 ex_recoverability demo_clts demo_env EvaluationOptions_default = Some ts ∧
    evaluate_tri_with_options 5 g demo_clts demo_env EvaluationOptions_default = Some (tnot ts).
Proof.
  apply (invert_complements 5 ex_recoverability demo_tree demo_clts demo_env EvaluationOptions_default).
  - apply demo_ctx_ok.
  - apply demo_oob_free.
  - apply demo_plain.
  - reflexivity.
  - apply demo_closed.
  - reflexivity.
  - cbn. repeat split; done.
  - vm_compute. lia.
Defined.

Lemma env_enforce_correct_witness :
  ∃ g u v, env_enforce ex_recoverability = Some g ∧ formula_tree g u ∧ box_free u = true ∧
    evaluate_with_options 5 g demo_clts demo_env EvaluationOptions_default = Some v ∧
    (∀ s, s < state_count demo_clts →
       bit v s = true ↔ sat demo_clts demo_env (diamonds demo_tree) no_binding s) ∧
    (serial demo_clts demo_tree → ∀ s, s < state_count demo_clts →
       sat demo_clts demo_env demo_tree no_binding s → bit v s = true).
Proof.
  apply (env_enforce_correct 5 ex_recoverability demo_tree demo_clts demo_env EvaluationOptions_default).
  - apply demo_ctx_ok.
  - apply demo_oob_free.
  - apply demo_plain.
  - apply demo_keys.
  - reflexivity.
  - apply demo_closed.
  - reflexivity.
  - cbn. repeat split; done.
  - vm_compute. lia.
Defined.
