(* ===== verification/Simplify.v ===== *)
(** The simplifier of [mu_calculus/simplify.rs].

    [simplify] walks the arena of a formula and writes a fresh one, removing
    double negations, constants under connectives and repeated operands.  Each
    source node is translated once: the translations are cached by node id, even
    across the binders of the variables they mention.  [reduces] relates a tree
    to what the simplifier makes of it under a renaming [σ] of the variables;
    the walk keeps [σ] injective and never renames a variable twice
    ([simplify_node_spec]), so the cache is sound, and trees so related have
    the same denotation in every domain with units ([UnitLaws]). *)
From S2P Require Import Prelude Formula Trit Clts Modal Evaluator Semantics Domains Checking Verdicts Divergences Transforms.

(** ** The walk *)

Record Simplifier := {
  s_builder : FormulaBuilder;
  node_cache : gmap NodeId NodeId;
  s_var_map : VarMap;
  s_true : option NodeId;
  s_false : option NodeId
}.

Definition Simplifier_new : Simplifier :=
  {| s_builder := FormulaBuilder_default; node_cache := ∅; s_var_map := ∅;
     s_true := None; s_false := None |}.

Definition set_builder (b : FormulaBuilder) (st : Simplifier) : Simplifier :=
  {| s_builder := b; node_cache := node_cache st; s_var_map := s_var_map st;
     s_true := s_true st; s_false := s_false st |}.
Definition set_var_map (vm : VarMap) (st : Simplifier) : Simplifier :=
  {| s_builder := s_builder st; node_cache := node_cache st; s_var_map := vm;
     s_true := s_true st; s_false := s_false st |}.
Definition cache_insert (id new : NodeId) (st : Simplifier) : Simplifier :=
  {| s_builder := s_builder st; node_cache := <[id := new]> (node_cache st);
     s_var_map := s_var_map st; s_true := s_true st; s_false := s_false st |}.
Definition set_true (id : NodeId) (st : Simplifier) : Simplifier :=
  {| s_builder := s_builder st; node_cache := node_cache st; s_var_map := s_var_map st;
     s_true := Some id; s_false := s_false st |}.
Definition set_false (id : NodeId) (st : Simplifier) : Simplifier :=
  {| s_builder := s_builder st; node_cache := node_cache st; s_var_map := s_var_map st;
     s_true := s_true st; s_false := Some id |}.

Definition Step : Type := option (NodeId * Simplifier).

(** [self.push_node]. *)
Definition s_push (n : Node) (st : Simplifier) : NodeId * Simplifier :=
  let '(id, b) := push_node (s_builder st) n in (id, set_builder b st).

Definition true_node (st : Simplifier) : NodeId * Simplifier :=
  match s_true st with
  | Some id => (id, st)
  | None => let '(id, st') := s_push NTrue st in (id, set_true id st')
  end.

Definition false_node (st : Simplifier) : NodeId * Simplifier :=
  match s_false st with
  | Some id => (id, st)
  | None => let '(id, st') := s_push NFalse st in (id, set_false id st')
  end.

(** [self.builder.node(id)] panics out of range. *)
Definition is_true_node (st : Simplifier) (id : NodeId) : option bool :=
  let* n := b_nodes (s_builder st) !! id in
  Some (match n with NTrue => true | _ => false end).

Definition is_false_node (st : Simplifier) (id : NodeId) : option bool :=
  let* n := b_nodes (s_builder st) !! id in
  Some (match n with NFalse => true | _ => false end).

Section simplifier.
Variables (f : Formula) (simplify_rec : NodeId → Simplifier → Step).

Definition simplify_var (v : FormulaVarId) (st : Simplifier) : Step :=
  match s_var_map st !! v with
  | Some w => Some (s_push (NVariable w) st)
  | None =>
    let* name := vars f !! v in
    let '(w, b) := push_var (s_builder st) name in
    Some (s_push (NVariable w) (set_var_map (<[v := w]> (s_var_map st)) (set_builder b st)))
  end.

Definition simplify_not (inner : NodeId) (st : Simplifier) : Step :=
  let* n := node f inner in
  match n with
  | NTrue => Some (false_node st)
  | NFalse => Some (true_node st)
  | NNot inner_inner => simplify_rec inner_inner st
  | _ =>
    let* (id, st1) := simplify_rec inner st in
    Some (s_push (NNot id) st1)
  end.

Definition simplify_and (left right : NodeId) (st : Simplifier) : Step :=
  let* (l, st1) := simplify_rec left st in
  let* (r, st2) := simplify_rec right st1 in
  let* fl := is_false_node st2 l in
  let* fr := if (fl : bool) then Some true else is_false_node st2 r in
  if (fr : bool) then Some (false_node st2) else
  let* tl := is_true_node st2 l in
  if (tl : bool) then Some (r, st2) else
  let* tr := is_true_node st2 r in
  if (tr : bool) then Some (l, st2) else
  if l =? r then Some (l, st2) else Some (s_push (NAnd l r) st2).

Definition simplify_or (left right : NodeId) (st : Simplifier) : Step :=
  let* (l, st1) := simplify_rec left st in
  let* (r, st2) := simplify_rec right st1 in
  let* tl := is_true_node st2 l in
  let* tr := if (tl : bool) then Some true else is_true_node st2 r in
  if (tr : bool) then Some (true_node st2) else
  let* fl := is_false_node st2 l in
  if (fl : bool) then Some (r, st2) else
  let* fr := is_false_node st2 r in
  if (fr : bool) then Some (l, st2) else
  if l =? r then Some (l, st2) else Some (s_push (NOr l r) st2).

Definition simplify_fixpoint (least : bool) (var : FormulaVarId) (body : NodeId) (st : Simplifier)
    : Step :=
  let* name := vars f !! var in
  let '(w, b) := push_var (s_builder st) name in
  let previous := s_var_map st !! var in
  let* (id, st1) := simplify_rec body (set_var_map (<[var := w]> (s_var_map st)) (set_builder b st)) in
  let st2 := set_var_map
    (match previous with Some prev => <[var := prev]> (s_var_map st1) | None => delete var (s_var_map st1) end) st1 in
  Some (s_push (if least then NMu w id else NNu w id) st2).
End simplifier.

Fixpoint simplify_node (fuel : nat) (f : Formula) (id : NodeId) (st : Simplifier) : Step :=
  match fuel with
  | O => None
  | S k =>
    match node_cache st !! id with
    | Some cached => Some (cached, st)
    | None =>
      let* n := node f id in
      let* (new, st') :=
        match n with
        | NTrue => Some (true_node st)
        | NFalse => Some (false_node st)
        | NPredicate name => Some (s_push (NPredicate name) st)
        | NVariable v => simplify_var f v st
        | NNot inner => simplify_not f (simplify_node k f) inner st
        | NAnd l r => simplify_and (simplify_node k f) l r st
        | NOr l r => simplify_or (simplify_node k f) l r st
        | NModal kind guard target =>
          let* (inner, st1) := simplify_node k f target st in
          Some (s_push (NModal kind guard inner) st1)
        | NMu v body => simplify_fixpoint f (simplify_node k f) true v body st
        | NNu v body => simplify_fixpoint f (simplify_node k f) false v body st
        end in
      Some (new, cache_insert id new st')
    end
  end.

Definition simplify (f : Formula) : option Formula :=
  let* (r, st) := simplify_node (length (nodes f)) f (root f) Simplifier_new in
  Some (into_formula (s_builder st) r).

(** ** What the walk makes of a tree *)

(** [reduces σ t u]: the simplifier may turn [t] into [u], the variables of [t]
    renamed by [σ]. *)
Inductive reduces (σ : VarMap) : Tree → Tree → Prop :=
  | red_true : reduces σ TTrue TTrue
  | red_false : reduces σ TFalse TFalse
  | red_pred p : reduces σ (TPred p) (TPred p)
  | red_var v w : σ !! v = Some w → reduces σ (TVar v) (TVar w)
  | red_not t u : reduces σ t u → reduces σ (TNot t) (TNot u)
  | red_not_true : reduces σ (TNot TTrue) TFalse
  | red_not_false : reduces σ (TNot TFalse) TTrue
  | red_not_not t u : reduces σ t u → reduces σ (TNot (TNot t)) u
  | red_and l r tl tr : reduces σ l tl → reduces σ r tr → reduces σ (TAnd l r) (TAnd tl tr)
  | red_and_false l r tl tr :
      reduces σ l tl → reduces σ r tr → tl = TFalse ∨ tr = TFalse → reduces σ (TAnd l r) TFalse
  | red_and_true_l l r t : reduces σ l TTrue → reduces σ r t → reduces σ (TAnd l r) t
  | red_and_true_r l r t : reduces σ l t → reduces σ r TTrue → reduces σ (TAnd l r) t
  | red_and_same l r t : reduces σ l t → reduces σ r t → reduces σ (TAnd l r) t
  | red_or l r tl tr : reduces σ l tl → reduces σ r tr → reduces σ (TOr l r) (TOr tl tr)
  | red_or_true l r tl tr :
      reduces σ l tl → reduces σ r tr → tl = TTrue ∨ tr = TTrue → reduces σ (TOr l r) TTrue
  | red_or_false_l l r t : reduces σ l TFalse → reduces σ r t → reduces σ (TOr l r) t
  | red_or_false_r l r t : reduces σ l t → reduces σ r TFalse → reduces σ (TOr l r) t
  | red_or_same l r t : reduces σ l t → reduces σ r t → reduces σ (TOr l r) t
  | red_modal k g t u : reduces σ t u → reduces σ (TModal k g t) (TModal k g u)
  | red_fix k v w t u : σ !! v = Some w → reduces σ t u → reduces σ (TFix k v t) (TFix k w u).

#[local] Hint Constructors reduces : core.

Lemma reduces_mono σ τ t u : σ ⊆ τ → reduces σ t u → reduces τ t u.
Proof. intros Hs H. induction H; eauto using lookup_weaken. Qed.

(** Different variables keep different names. *)
Definition injective (σ : VarMap) : Prop := ∀ v v' w, σ !! v = Some w → σ !! v' = Some w → v = v'.

Lemma reduces_occurs σ pol v w t u :
  injective σ → reduces σ t u → σ !! v = Some w →
  occurs_only pol v t = true → occurs_only pol w u = true.
Proof.
  intros Hi H Hv. revert pol.
  induction H; intros pol Ho; simpl in *; rewrite ?negb_involutive, ?andb_true_iff in *;
    try (destruct Ho; auto; done); try (by auto).
  - destruct (Nat.eqb_spec w w0) as [->|]; [|by rewrite orb_true_r].
    rewrite (Hi v v0 w0) in Ho by done. by rewrite Nat.eqb_refl in Ho.
  - destruct (Nat.eqb_spec w w0) as [->|]; [done|]. destruct (Nat.eqb_spec v v0) as [->|]; [|auto].
    congruence.
Qed.

Lemma reduces_monotone σ t u : injective σ → reduces σ t u → monotone t = true → monotone u = true.
Proof.
  intros Hi H. induction H; simpl; rewrite ?andb_true_iff; try (intros []; auto; done); auto.
  intros [Ho Hm]. split; [|auto]. by eapply reduces_occurs.
Qed.

Lemma reduces_good σ good t u :
  reduces σ t u → modalities_good good t → modalities_good good u.
Proof. intros H. induction H; simpl; naive_solver. Qed.

(** ** The denotation is kept *)

(** The constants are the units and zeroes of the connectives. *)
Class UnitLaws (V : Type) `{EvalDomain V} (x : Ctx) (good : ModalKind → Guard → Prop)
    `{!DomainLaws V x good} := {
  unit_not_top : dom_not x (dom_top x) = dom_bottom x;
  unit_not_bottom : dom_not x (dom_bottom x) = dom_top x;
  unit_not_not : ∀ a, dok a → dom_not x (dom_not x a) = a;
  unit_and_comm : ∀ a b, dok a → dok b → dom_and a b = dom_and b a;
  unit_or_comm : ∀ a b, dok a → dok b → dom_or a b = dom_or b a;
  unit_and_top : ∀ a, dok a → dom_and (dom_top x) a = a;
  unit_and_bottom : ∀ a, dok a → dom_and (dom_bottom x) a = dom_bottom x;
  unit_and_same : ∀ a, dok a → dom_and a a = a;
  unit_or_top : ∀ a, dok a → dom_or (dom_top x) a = dom_top x;
  unit_or_bottom : ∀ a, dok a → dom_or (dom_bottom x) a = a;
  unit_or_same : ∀ a, dok a → dom_or a a = a
}.

Section denotation.
Context {V : Type} {D : EvalDomain V} (x : Ctx) (good : ModalKind → Guard → Prop)
  {L : DomainLaws V x good} {U : UnitLaws V x good}.

(** [ρ'] binds the renamed variables of [t] as [ρ] binds the originals. *)
Definition agrees (σ : VarMap) (t : Tree) (ρ ρ' : gmap FormulaVarId V) : Prop :=
  ∀ v w, v ∈ free_vars t → σ !! v = Some w → ρ' !! w = ρ !! v.

Lemma agrees_sub σ t t' ρ ρ' : free_vars t' ⊆ free_vars t → agrees σ t ρ ρ' → agrees σ t' ρ ρ'.
Proof using Type. intros Hs H v w Hv. apply H. by apply Hs. Qed.

Lemma agrees_children σ l r ρ ρ' : agrees σ (TAnd l r) ρ ρ' → agrees σ l ρ ρ' ∧ agrees σ r ρ ρ'.
Proof using Type.
  intros H. split; (eapply agrees_sub; [|exact H]); simpl; [apply union_subseteq_l|apply union_subseteq_r].
Qed.

Lemma reduces_denote σ t u ρ ρ' :
  injective σ → reduces σ t u → modalities_good good t → env_ok x good ρ → agrees σ t ρ ρ' →
  denote x good u ρ' = denote x good t ρ.
Proof using U.
  intros Hi H. revert ρ ρ'.
  induction H as [| |p|v w Hw|t u H IH| | |t u H IH|l r tl tr Hl IHl Hr IHr|l r tl tr Hl IHl Hr IHr He
    |l r t Hl IHl Hr IHr|l r t Hl IHl Hr IHr|l r t Hl IHl Hr IHr|l r tl tr Hl IHl Hr IHr
    |l r tl tr Hl IHl Hr IHr He|l r t Hl IHl Hr IHr|l r t Hl IHl Hr IHr|l r t Hl IHl Hr IHr
    |k g t u H IH|k v w t u Hw H IH];
    intros ρ ρ' Hg Hρ Ha; simpl in Hg;
    try (destruct (agrees_children σ l r ρ ρ' Ha) as [Hal Har]; destruct Hg as [Hgl Hgr];
         specialize (IHl ρ ρ' Hgl Hρ Hal); specialize (IHr ρ ρ' Hgr Hρ Har);
         pose proof (denote_ok x good l ρ Hgl Hρ); pose proof (denote_ok x good r ρ Hgr Hρ));
    simpl.
  - done.
  - done.
  - done.
  - by rewrite (Ha v w) by (simpl; first [done|set_solver]).
  - by rewrite (IH ρ ρ').
  - by rewrite unit_not_top.
  - by rewrite unit_not_bottom.
  - rewrite (IH ρ ρ') by done. rewrite unit_not_not; [done|]. by apply denote_ok.
  - by rewrite IHl, IHr.
  - destruct He as [->| ->].
    + rewrite <-IHl. simpl. by rewrite unit_and_bottom.
    + rewrite unit_and_comm, <-IHr by done. simpl. by rewrite unit_and_bottom.
  - rewrite <-IHl. simpl. by rewrite unit_and_top.
  - rewrite unit_and_comm, <-IHr by done. simpl. by rewrite unit_and_top.
  - rewrite <-IHl, <-IHr. rewrite unit_and_same; [done|]. by rewrite IHl.
  - by rewrite IHl, IHr.
  - destruct He as [->| ->].
    + rewrite <-IHl. simpl. by rewrite unit_or_top.
    + rewrite unit_or_comm, <-IHr by done. simpl. by rewrite unit_or_top.
  - rewrite <-IHl. simpl. by rewrite unit_or_bottom.
  - rewrite unit_or_comm, <-IHr by done. simpl. by rewrite unit_or_bottom.
  - rewrite <-IHl, <-IHr. rewrite unit_or_same; [done|]. by rewrite IHl.
  - destruct Hg as [_ Hg]. by rewrite (IH ρ ρ').
  - assert (Hit : ∀ j, Nat.iter j (λ a, denote x good u (<[w := a]> ρ')) (fix_start x k)
      = Nat.iter j (λ a, denote x good t (<[v := a]> ρ)) (fix_start x k)
      ∧ dok (Nat.iter j (λ a, denote x good t (<[v := a]> ρ)) (fix_start x k))); [|apply Hit].
    intros j. induction j as [|j [IHj Hj]]; [split; [done|apply (dok_start x good)]|].
    rewrite !iter_succ, IHj. pose proof (env_ok_insert x good ρ v _ Hρ Hj) as Hρj.
    split; [|by apply denote_ok]. apply IH; [done..|].
    intros v' w' Hv' Hw'. destruct (decide (v' = v)) as [->|Hne].
    + assert (w' = w) as -> by congruence. by rewrite !lookup_insert_eq.
    + rewrite !lookup_insert_ne; [|done|intros ->; by apply Hne, (Hi v' v w')].
      apply Ha; [simpl; set_solver|done].
Qed.
End denotation.

(** ** The walk keeps an injective renaming *)

(** The builder holds a well-formed arena, the constants it says it holds, and
    for every cached source node something its tree reduces to under [σ]; the
    variables in scope are renamed by [σ]. *)
Record walk_ok (f : Formula) (σ : VarMap) (st : Simplifier) : Prop := {
  wk_arena : wf_arena (b_nodes (s_builder st));
  wk_below : ∀ v w, σ !! v = Some w → w < length (b_vars (s_builder st));
  wk_injective : injective σ;
  wk_scope : s_var_map st ⊆ σ;
  wk_true : ∀ id, s_true st = Some id → repr (b_nodes (s_builder st)) id TTrue;
  wk_false : ∀ id, s_false st = Some id → repr (b_nodes (s_builder st)) id TFalse;
  wk_cache : ∀ id new t, node_cache st !! id = Some new → repr (nodes f) id t →
    ∃ u, repr (b_nodes (s_builder st)) new u ∧ reduces σ t u
}.

(** A variable renamed before, whose scope is closed. *)
Definition out_of_scope (σ : VarMap) (st : Simplifier) (v : nat) : Prop :=
  is_Some (σ !! v) ∧ s_var_map st !! v = None.

(** Between two states of the walk, over a part of the formula that binds [B]
    and has the free variables [F]. *)
Record grows (f : Formula) (σ : VarMap) (st : Simplifier) (B : list nat) (F : gset nat)
    (σ' : VarMap) (st' : Simplifier) : Prop := {
  gr_ok : walk_ok f σ' st';
  gr_renaming : σ ⊆ σ';
  gr_nodes : ∃ ext, b_nodes (s_builder st') = b_nodes (s_builder st) ++ ext;
  gr_scope : s_var_map st ⊆ s_var_map st';
  gr_named : ∀ v, is_Some (σ' !! v) → is_Some (σ !! v) ∨ v ∈ B ∨ v ∈ F;
  gr_out : ∀ v, out_of_scope σ' st' v → out_of_scope σ st v ∨ v ∈ B
}.

(** The step translated [t]. *)
Definition translates (f : Formula) (σ : VarMap) (st : Simplifier) (t : Tree) (res : Step) : Prop :=
  ∃ σ' id st' u, res = Some (id, st') ∧ grows f σ st (bound_vars t) (free_vars t) σ' st' ∧
    repr (b_nodes (s_builder st')) id u ∧ reduces σ' t u.

Lemma grows_refl f σ st : walk_ok f σ st → grows f σ st [] ∅ σ st.
Proof. intros H. split; try done; [exists []; by rewrite app_nil_r|by left|by left]. Qed.

Lemma grows_trans f σ st B F σ1 st1 B' F' σ2 st2 :
  grows f σ st B F σ1 st1 → grows f σ1 st1 B' F' σ2 st2 → grows f σ st (B ++ B') (F ∪ F') σ2 st2.
Proof.
  intros [_ Hr [e1 He1] Hs Hn Ho] [Hk Hr' [e2 He2] Hs' Hn' Ho']. split; try done.
  - by etrans.
  - exists (e1 ++ e2). by rewrite He2, He1, app_assoc.
  - by etrans.
  - intros v Hv. rewrite elem_of_app, elem_of_union. destruct (Hn' v Hv) as [?|[?|?]]; [|tauto..].
    destruct (Hn v) as [?|[?|?]]; tauto.
  - intros v Hv. rewrite elem_of_app. destruct (Ho' v Hv) as [?|?]; [|tauto].
    destruct (Ho v) as [?|?]; tauto.
Qed.

Lemma grows_weaken f σ st B F B' F' σ' st' :
  grows f σ st B F σ' st' → B ⊆ B' → F ⊆ F' → grows f σ st B' F' σ' st'.
Proof. intros [? ? ? ? ? ?] HB HF. split; try done; naive_solver. Qed.

Lemma grows_repr f σ st B F σ' st' id u :
  grows f σ st B F σ' st' → repr (b_nodes (s_builder st)) id u → repr (b_nodes (s_builder st')) id u.
Proof. intros [_ _ He _ _ _] H. by eapply repr_ext. Qed.

(** Pushing a node whose children are there. *)
Lemma push_grows f σ st n :
  walk_ok f σ st → Forall (λ c, c < length (b_nodes (s_builder st))) (children n) →
  grows f σ st [] ∅ σ (s_push n st).2 ∧
  b_nodes (s_builder (s_push n st).2) !! (s_push n st).1 = Some n.
Proof.
  intros [Ha Hb Hi Hs Ht Hf Hc] Hn. unfold s_push, push_node. simpl. split; [|apply lookup_push].
  split; simpl; try done; [|by eexists|by left|by left]. split; simpl; try done.
  - by apply wf_arena_push.
  - intros id H. by apply repr_mono, Ht.
  - intros id H. by apply repr_mono, Hf.
  - intros id new t H Hr. destruct (Hc id new t H Hr) as (u & Hu & ?). exists u.
    split; [by apply repr_mono|done].
Qed.

Lemma push_translates f σ st n B F σ1 st1 t u :
  grows f σ st B F σ1 st1 → Forall (λ c, c < length (b_nodes (s_builder st1))) (children n) →
  node_tree (b_nodes (s_builder st1)) n u → reduces σ1 t u → B ⊆ bound_vars t → F ⊆ free_vars t →
  translates f σ st t (Some (s_push n st1)).
Proof.
  intros Hg Hc Hn Hu HB HF. destruct (push_grows f σ1 st1 n) as [Hp Hid]; [apply Hg|done|].
  pose proof (gr_nodes _ _ _ _ _ _ _ Hp) as He.
  destruct (s_push n st1) as [id st2]. simpl in *. exists σ1, id, st2, u. split_and!; [done| |by apply Hn|done].
  eapply grows_weaken; [by eapply grows_trans| |]; set_solver.
Qed.

Lemma true_grows f σ st :
  walk_ok f σ st → grows f σ st [] ∅ σ (true_node st).2 ∧
  repr (b_nodes (s_builder (true_node st).2)) (true_node st).1 TTrue.
Proof.
  intros Hk. unfold true_node. destruct (s_true st) as [id|] eqn:E.
  { split; [by apply grows_refl|]. by eapply wk_true. }
  destruct (push_grows f σ st NTrue Hk) as [[Hk' ? ? ? ? ?] Hid]; [constructor|].
  destruct (s_push NTrue st) as [id st']. simpl in *. split; [|by apply repr_true].
  split; try done. destruct Hk'. split; try done. simpl. intros ? [= <-]. by apply repr_true.
Qed.

Lemma false_grows f σ st :
  walk_ok f σ st → grows f σ st [] ∅ σ (false_node st).2 ∧
  repr (b_nodes (s_builder (false_node st).2)) (false_node st).1 TFalse.
Proof.
  intros Hk. unfold false_node. destruct (s_false st) as [id|] eqn:E.
  { split; [by apply grows_refl|]. by eapply wk_false. }
  destruct (push_grows f σ st NFalse Hk) as [[Hk' ? ? ? ? ?] Hid]; [constructor|].
  destruct (s_push NFalse st) as [id st']. simpl in *. split; [|by apply repr_false].
  split; try done. destruct Hk'. split; try done. simpl. intros ? [= <-]. by apply repr_false.
Qed.

Lemma constant_translates f σ st B F σ1 st1 t u (b : bool) :
  grows f σ st B F σ1 st1 → u = (if b then TTrue else TFalse) → reduces σ1 t u →
  B ⊆ bound_vars t → F ⊆ free_vars t →
  translates f σ st t (Some (if b then true_node st1 else false_node st1)).
Proof.
  intros Hg -> Hu HB HF.
  assert (Hp : grows f σ1 st1 [] ∅ σ1 (if b then true_node st1 else false_node st1).2 ∧
    repr (b_nodes (s_builder (if b then true_node st1 else false_node st1).2))
      (if b then true_node st1 else false_node st1).1 (if b then TTrue else TFalse)).
  { destruct b; [apply true_grows|apply false_grows]; apply Hg. }
  destruct (if b then true_node st1 else false_node st1) as [id st2]. destruct Hp as [Hp Hr].
  exists σ1, id, st2, (if b then TTrue else TFalse). split_and!; [done| |done|done].
  eapply grows_weaken; [by eapply grows_trans| |]; set_solver.
Qed.

(** A state that only adds to the renaming. *)
Lemma walk_ok_extend f σ τ st st' :
  walk_ok f σ st → σ ⊆ τ → injective τ → s_var_map st' ⊆ τ →
  (∀ v w, τ !! v = Some w → w < length (b_vars (s_builder st'))) →
  b_nodes (s_builder st') = b_nodes (s_builder st) → s_true st' = s_true st →
  s_false st' = s_false st → node_cache st' = node_cache st → walk_ok f τ st'.
Proof.
  intros [? ? ? ? ? ? Hc] Hs Hi Hv Hb Hn Ht Hf Hcache.
  split; rewrite ?Hn, ?Ht, ?Hf, ?Hcache; try done.
  intros id new t H Hr. destruct (Hc id new t H Hr) as (u & ? & ?). exists u. split; [done|].
  by apply (reduces_mono σ).
Qed.

(** Naming a variable with a fresh index. *)
Definition bind_fresh (v : nat) (name : string) (st : Simplifier) : Simplifier :=
  let '(w, b) := push_var (s_builder st) name in
  set_var_map (<[v := w]> (s_var_map st)) (set_builder b st).

Lemma bind_fresh_ok f σ st v name :
  walk_ok f σ st → σ !! v = None →
  walk_ok f (<[v := length (b_vars (s_builder st))]> σ) (bind_fresh v name st).
Proof.
  intros Hk Hv. pose proof (wk_below f σ st Hk) as Hb.
  eapply walk_ok_extend; [exact Hk|by apply insert_subseteq| | | |done..].
  - intros u u' w. rewrite !lookup_insert_Some.
    intros [[<- <-]|[? Hu]] [[<- Hw]|[? Hu']]; [done| | |by eapply wk_injective].
    + apply Hb in Hu'. lia.
    + subst w. apply Hb in Hu. lia.
  - simpl. apply insert_mono, Hk.
  - intros u w. simpl. rewrite length_app. simpl. rewrite lookup_insert_Some.
    intros [[<- <-]|[? Hu]]; [lia|]. apply Hb in Hu. lia.
Qed.

(** ** The walk translates *)

(** What a step needs: binders not yet renamed, free variables in scope or new,
    and both in the formula's table. *)
Record ready (f : Formula) (σ : VarMap) (st : Simplifier) (t : Tree) : Prop := {
  rd_ok : walk_ok f σ st;
  rd_separate : separate t;
  rd_binders : ∀ v, v ∈ bound_vars t → σ !! v = None ∧ v < length (vars f);
  rd_free : ∀ v, v ∈ free_vars t → ¬ out_of_scope σ st v ∧ v < length (vars f)
}.

Lemma ready_left f σ st l r : ready f σ st (TAnd l r) → ready f σ st l.
Proof.
  intros [Hk Hs Hb Hf]. split; [done|by apply (separate_children l r)| |].
  - intros v Hv. apply Hb. apply elem_of_app. by left.
  - intros v Hv. apply Hf. apply elem_of_union. by left.
Qed.

Lemma ready_right f σ st l r σ1 st1 :
  ready f σ st (TAnd l r) → grows f σ st (bound_vars l) (free_vars l) σ1 st1 → ready f σ1 st1 r.
Proof.
  intros [Hk [Hnd Hs] Hb Hf] [Hk1 _ _ _ Hn Ho]. simpl in *.
  apply NoDup_app in Hnd as (Hndl & Hlr & Hndr). split; [done| | |].
  - split; [done|]. intros v Hv Hfv. apply (Hs v); [apply elem_of_app|apply elem_of_union]; by right.
  - intros v Hv. destruct (Hb v) as [Hnone Hlt]; [apply elem_of_app; by right|]. split; [|done].
    apply eq_None_not_Some. intros [Hin|[Hin|Hin]]%Hn.
    + rewrite Hnone in Hin. by destruct Hin.
    + by apply (Hlr v).
    + apply (Hs v); [apply elem_of_app; by right|apply elem_of_union; by left].
  - intros v Hv. destruct (Hf v) as [Hout Hlt]; [apply elem_of_union; by right|]. split; [|done].
    intros [?|Hin]%Ho; [done|]. apply (Hs v); [apply elem_of_app; by left|apply elem_of_union; by right].
Qed.

(** Descending into a child with the same names. *)
Lemma ready_child f σ st t t' :
  ready f σ st t → bound_vars t' = bound_vars t → free_vars t' = free_vars t → ready f σ st t'.
Proof. intros [Hk Hs Hb Hf] Eb Ef. split; unfold separate; rewrite ?Eb, ?Ef; done. Qed.

Lemma ready_body f σ st k v t name :
  ready f σ st (TFix k v t) →
  ready f (<[v := length (b_vars (s_builder st))]> σ) (bind_fresh v name st) t.
Proof.
  intros [Hk Hs Hb Hf]. simpl in *.
  pose proof (separate_fix k v t Hs) as Hs'. destruct Hs as [Hnd Hs]. simpl in *.
  apply NoDup_cons in Hnd as [Hv Hnd]. destruct (Hb v) as [Hnone Hlt]; [by left|].
  split; [by apply bind_fresh_ok|done| |].
  - intros u Hu. destruct (Hb u) as [? ?]; [by right|]. rewrite lookup_insert_ne by congruence. done.
  - intros u Hu. destruct (decide (u = v)) as [->|Hne].
    + split; [|done]. intros [_ H]. simpl in H. by rewrite lookup_insert_eq in H.
    + destruct (Hf u) as [Hout ?]; [by apply elem_of_difference; rewrite elem_of_singleton|].
      split; [|done]. intros [H1 H2]. simpl in H2. rewrite lookup_insert_ne in H1, H2 by done.
      by apply Hout.
Qed.

(** Leaving the scope of [v]. *)
Definition unbind (v : nat) (st : Simplifier) : Simplifier := set_var_map (delete v (s_var_map st)) st.

Lemma unbind_grows f σ st k v t name σ1 st1 :
  ready f σ st (TFix k v t) →
  grows f (<[v := length (b_vars (s_builder st))]> σ) (bind_fresh v name st)
    (bound_vars t) (free_vars t) σ1 st1 →
  σ1 !! v = Some (length (b_vars (s_builder st))) ∧
  grows f σ st (bound_vars (TFix k v t)) (free_vars (TFix k v t)) σ1 (unbind v st1).
Proof.
  intros [Hk Hs Hb Hf] [Hk1 Hr He Hsc Hn Ho]. destruct (Hb v) as [Hnone _]; [by left|].
  assert (Hv : σ1 !! v = Some (length (b_vars (s_builder st)))).
  { eapply lookup_weaken; [|exact Hr]. apply lookup_insert_eq. }
  split; [done|]. split.
  - apply (walk_ok_extend f σ1 σ1 st1); try done; [apply Hk1| |apply Hk1].
    etrans; [apply delete_subseteq|apply Hk1].
  - etrans; [|exact Hr]. by apply insert_subseteq.
  - exact He.
  - apply map_subseteq_spec. intros u w Hu. simpl.
    assert (Hne : u ≠ v).
    { intros ->. enough (σ !! v = Some w) by congruence. eapply lookup_weaken; [done|apply Hk]. }
    rewrite lookup_delete_ne by done. eapply lookup_weaken; [|exact Hsc]. simpl.
    by rewrite lookup_insert_ne.
  - intros u Hu. simpl. destruct (decide (u = v)) as [->|Hne]; [right; left; by left|].
    destruct (Hn u Hu) as [H|[H|H]].
    + left. by rewrite lookup_insert_ne in H.
    + right; left; by right.
    + right; right. apply elem_of_difference. by rewrite elem_of_singleton.
  - intros u [H1 H2]. simpl in *. destruct (decide (u = v)) as [->|Hne]; [right; by left|].
    rewrite lookup_delete_ne in H2 by done. destruct (Ho u) as [[H H']|H]; [by split| |right; by right].
    left. simpl in H'. rewrite lookup_insert_ne in H, H' by done. by split.
Qed.

Definition rec_ok (f : Formula) (n : nat) (rec : NodeId → Simplifier → Step) : Prop :=
  ∀ id t σ st, repr (nodes f) id t → height t ≤ n → ready f σ st t → translates f σ st t (rec id st).

Lemma is_true_node_spec st id u :
  repr (b_nodes (s_builder st)) id u → is_true_node st id = Some (bool_decide (u = TTrue)).
Proof. intros H. unfold is_true_node. by destruct H as [? H|? H|? ? H|? ? H|? ? ? H|? ? ? ? ? H|? ? ? ? ? H|? ? ? ? ? H|? ? ? ? H|? ? ? ? H]; rewrite H. Qed.

Lemma is_false_node_spec st id u :
  repr (b_nodes (s_builder st)) id u → is_false_node st id = Some (bool_decide (u = TFalse)).
Proof. intros H. unfold is_false_node. by destruct H as [? H|? H|? ? H|? ? H|? ? ? H|? ? ? ? ? H|? ? ? ? ? H|? ? ? ? ? H|? ? ? ? H|? ? ? ? H]; rewrite H. Qed.

(** The two children of a connective, one after the other. *)
Lemma children_translate f n rec σ st idl idr l r :
  rec_ok f n rec → repr (nodes f) idl l → repr (nodes f) idr r → height l ≤ n → height r ≤ n →
  ready f σ st (TAnd l r) →
  ∃ σ1 nl st1 nr st2 tl tr, rec idl st = Some (nl, st1) ∧ rec idr st1 = Some (nr, st2) ∧
    grows f σ st (bound_vars l ++ bound_vars r) (free_vars l ∪ free_vars r) σ1 st2 ∧
    repr (b_nodes (s_builder st2)) nl tl ∧ repr (b_nodes (s_builder st2)) nr tr ∧
    reduces σ1 l tl ∧ reduces σ1 r tr.
Proof.
  intros Hrec Hl Hr Hhl Hhr Hrd.
  destruct (Hrec idl l σ st Hl Hhl (ready_left _ _ _ _ _ Hrd)) as (σ1 & nl & st1 & tl & El & Hg1 & Hrl & Htl).
  destruct (Hrec idr r σ1 st1 Hr Hhr (ready_right _ _ _ _ _ _ _ Hrd Hg1)) as (σ2 & nr & st2 & tr & Er & Hg2 & Hrr & Htr).
  exists σ2, nl, st1, nr, st2, tl, tr. split_and!; try done.
  - by eapply grows_trans.
  - by eapply grows_repr.
  - by apply (reduces_mono σ1); [apply Hg2|].
Qed.

(** A child translated already is the result. *)
Lemma child_translates f σ st σ1 st1 id u t :
  grows f σ st (bound_vars t) (free_vars t) σ1 st1 → repr (b_nodes (s_builder st1)) id u →
  reduces σ1 t u → translates f σ st t (Some (id, st1)).
Proof. intros. by exists σ1, id, st1, u. Qed.

Lemma simplify_and_spec f n rec σ st idl idr l r :
  rec_ok f n rec → repr (nodes f) idl l → repr (nodes f) idr r → height l ≤ n → height r ≤ n →
  ready f σ st (TAnd l r) → translates f σ st (TAnd l r) (simplify_and rec idl idr st).
Proof.
  intros Hrec Hl Hr Hhl Hhr Hrd.
  destruct (children_translate f n rec σ st idl idr l r Hrec Hl Hr Hhl Hhr Hrd)
    as (σ1 & nl & st1 & nr & st2 & tl & tr & E1 & E2 & Hg & Hrl & Hrr & Htl & Htr).
  unfold simplify_and. rewrite E1, E2, (is_false_node_spec _ _ _ Hrl), (is_false_node_spec _ _ _ Hrr).
  rewrite (is_true_node_spec _ _ _ Hrl), (is_true_node_spec _ _ _ Hrr).
  assert (Hz : tl = TFalse ∨ tr = TFalse →
    translates f σ st (TAnd l r) (Some (false_node st2))).
  { intros H. apply (constant_translates f σ st _ _ σ1 st2 (TAnd l r) TFalse false Hg); eauto. }
  destruct (bool_decide_reflect (tl = TFalse)); [by apply Hz; left|].
  destruct (bool_decide_reflect (tr = TFalse)); [by apply Hz; right|].
  destruct (bool_decide_reflect (tl = TTrue)) as [->|]; [eapply child_translates; eauto|].
  destruct (bool_decide_reflect (tr = TTrue)) as [->|]; [eapply child_translates; eauto|].
  destruct (Nat.eqb_spec nl nr) as [->|].
  { rewrite (repr_det _ _ _ _ Hrl Hrr) in Htl. eapply child_translates; eauto. }
  apply (push_translates f σ st (NAnd nl nr) _ _ σ1 st2 (TAnd l r) (TAnd tl tr) Hg); auto.
  - repeat constructor; by eapply repr_lt.
  - node_tree_tac.
Qed.

Lemma simplify_or_spec f n rec σ st idl idr l r :
  rec_ok f n rec → repr (nodes f) idl l → repr (nodes f) idr r → height l ≤ n → height r ≤ n →
  ready f σ st (TOr l r) → translates f σ st (TOr l r) (simplify_or rec idl idr st).
Proof.
  intros Hrec Hl Hr Hhl Hhr Hrd%(ready_child _ _ _ _ (TAnd l r)); [|done..].
  destruct (children_translate f n rec σ st idl idr l r Hrec Hl Hr Hhl Hhr Hrd)
    as (σ1 & nl & st1 & nr & st2 & tl & tr & E1 & E2 & Hg & Hrl & Hrr & Htl & Htr).
  unfold simplify_or. rewrite E1, E2, (is_false_node_spec _ _ _ Hrl), (is_false_node_spec _ _ _ Hrr).
  rewrite (is_true_node_spec _ _ _ Hrl), (is_true_node_spec _ _ _ Hrr).
  assert (Hz : tl = TTrue ∨ tr = TTrue →
    translates f σ st (TOr l r) (Some (true_node st2))).
  { intros H. apply (constant_translates f σ st _ _ σ1 st2 (TOr l r) TTrue true Hg); eauto. }
  destruct (bool_decide_reflect (tl = TTrue)); [by apply Hz; left|].
  destruct (bool_decide_reflect (tr = TTrue)); [by apply Hz; right|].
  destruct (bool_decide_reflect (tl = TFalse)) as [->|]; [eapply child_translates; eauto|].
  destruct (bool_decide_reflect (tr = TFalse)) as [->|]; [eapply child_translates; eauto|].
  destruct (Nat.eqb_spec nl nr) as [->|].
  { rewrite (repr_det _ _ _ _ Hrl Hrr) in Htl. eapply child_translates; eauto. }
  apply (push_translates f σ st (NOr nl nr) _ _ σ1 st2 (TOr l r) (TOr tl tr) Hg); auto.
  - repeat constructor; by eapply repr_lt.
  - node_tree_tac.
Qed.

Lemma simplify_var_spec f σ st v :
  ready f σ st (TVar v) → translates f σ st (TVar v) (simplify_var f v st).
Proof.
  intros [Hk _ _ Hf]. destruct (Hf v) as [Hout Hlt]; [simpl; set_solver|]. unfold simplify_var.
  destruct (s_var_map st !! v) as [w|] eqn:Hv.
  - apply (push_translates f σ st _ _ _ σ st (TVar v) (TVar w) (grows_refl f σ st Hk)); try done.
    + node_tree_tac.
    + constructor. eapply lookup_weaken; [done|apply Hk].
  - destruct (lookup_lt_is_Some_2 _ _ Hlt) as [name ->].
    assert (Hnone : σ !! v = None) by (apply eq_None_not_Some; intros ?; by apply Hout).
    pose proof (bind_fresh_ok f σ st v name Hk Hnone) as Hk'.
    apply (push_translates f σ st _ [] {[v]} (<[v := length (b_vars (s_builder st))]> σ)
      (bind_fresh v name st) (TVar v) (TVar (length (b_vars (s_builder st))))); try done.
    + split; try done.
      * by apply insert_subseteq.
      * exists []. by rewrite app_nil_r.
      * by apply insert_subseteq.
      * intros u [? [[<- _]|[_ ?]]%lookup_insert_Some]; [right; right; by apply elem_of_singleton|eauto].
      * intros u [H1 H2]. simpl in H2. apply lookup_insert_None in H2 as [H2 Hne].
        rewrite lookup_insert_ne in H1 by done. by left.
    + node_tree_tac.
    + constructor. apply lookup_insert_eq.
Qed.

Lemma cached_translates f σ st t id res :
  repr (nodes f) id t → translates f σ st t res →
  translates f σ st t (let* (new, st') := res in Some (new, cache_insert id new st')).
Proof.
  intros Hr (σ1 & new & st1 & u & -> & [Hk ? ? ? ? ?] & Hu & Ht).
  exists σ1, new, (cache_insert id new st1), u. split_and!; try done. split; try done.
  destruct Hk as [? ? ? ? ? ? Hc]. split; try done. simpl. intros id' new' t' H Hr'.
  apply lookup_insert_Some in H as [[<- <-]|[_ H]]; [|by eapply Hc].
  rewrite (repr_det _ _ _ _ Hr' Hr). eauto.
Qed.

Lemma simplify_not_spec f n rec σ st a t :
  rec_ok f n rec → repr (nodes f) a t → height t ≤ n → ready f σ st (TNot t) →
  translates f σ st (TNot t) (simplify_not f rec a st).
Proof.
  intros Hrec Hr Hh Hrd. assert (Hrd' : ready f σ st t) by (by eapply ready_child).
  assert (Hk : walk_ok f σ st) by apply Hrd.
  assert (Hdefault : translates f σ st (TNot t) (let* (id, st1) := rec a st in Some (s_push (NNot id) st1))).
  { destruct (Hrec a t σ st Hr Hh Hrd') as (σ1 & id & st1 & u & -> & Hg & Hu & Ht).
    apply (push_translates f σ st _ _ _ σ1 st1 (TNot t) (TNot u) Hg); auto.
    - repeat constructor. by eapply repr_lt.
    - node_tree_tac. }
  unfold simplify_not, node.
  destruct Hr as [? H|? H|? ? H|? ? H|? b t H Hb|? ? ? ? ? H|? ? ? ? ? H|? ? ? ? ? H|? ? ? ? H|? ? ? ? H];
    rewrite H; try exact Hdefault.
  - apply (constant_translates f σ st [] ∅ σ st (TNot TTrue) TFalse false); auto using grows_refl; set_solver.
  - apply (constant_translates f σ st [] ∅ σ st (TNot TFalse) TTrue true); auto using grows_refl; set_solver.
  - simpl in Hh. destruct (Hrec b t σ st Hb ltac:(lia)) as (σ1 & new & st1 & u & E & Hg & Hu & Ht).
    { by eapply ready_child. }
    rewrite E. apply (child_translates f σ st σ1 st1 new u); auto.
Qed.

Lemma simplify_fixpoint_spec f n rec σ st (least : bool) v a t :
  let k := if least then Least else Greatest in
  rec_ok f n rec → repr (nodes f) a t → height t ≤ n → ready f σ st (TFix k v t) →
  translates f σ st (TFix k v t) (simplify_fixpoint f rec least v a st).
Proof.
  intros k Hrec Hr Hh Hrd. unfold simplify_fixpoint.
  assert (Hlt : v < length (vars f)) by (apply Hrd; by left).
  destruct (lookup_lt_is_Some_2 _ _ Hlt) as [name ->]. simpl.
  assert (Hnone : s_var_map st !! v = None).
  { destruct (rd_binders _ _ _ _ Hrd v) as [Hn _]; [by left|].
    destruct (s_var_map st !! v) as [w|] eqn:E; [|done].
    enough (σ !! v = Some w) by congruence. eapply lookup_weaken; [done|apply Hrd]. }
  rewrite Hnone. set (w := length (b_vars (s_builder st))).
  pose proof (ready_body f σ st k v t name Hrd) as Hrd'.
  destruct (Hrec a t _ _ Hr Hh Hrd') as (σ1 & id & st1 & u & E & Hg & Hu & Ht).
  unfold bind_fresh in E. simpl in E. fold w in E. rewrite E.
  destruct (unbind_grows f σ st k v t name σ1 st1 Hrd Hg) as [Hv Hg'].
  apply (push_translates f σ st (if least then NMu w id else NNu w id) _ _ σ1 (unbind v st1)
    (TFix k v t) (TFix k w u) Hg'); auto.
  - apply repr_lt in Hu. destruct least; by repeat constructor.
  - subst k. destruct least; node_tree_tac.
Qed.

Lemma simplify_node_spec f fuel : rec_ok f fuel (simplify_node fuel f).
Proof.
  induction fuel as [|n IH]; intros id t σ st Hr Hh Hrd; [destruct t; simpl in Hh; lia|].
  cbn [simplify_node]. assert (Hk : walk_ok f σ st) by apply Hrd.
  destruct (node_cache st !! id) as [cached|] eqn:Hc.
  { destruct (wk_cache f σ st Hk id cached t Hc Hr) as (u & Hu & Ht).
    exists σ, cached, st, u. split_and!; try done.
    eapply grows_weaken; [by apply grows_refl|set_solver..]. }
  pose proof (grows_refl f σ st Hk) as Hrefl.
  unfold node. assert (Hn : ∃ n, nodes f !! id = Some n) by (destruct Hr; eauto).
  destruct Hn as [nd Hn]. rewrite Hn. apply cached_translates; [done|].
  destruct Hr as [? H|? H|? p H|? v H|? a t H Ha|? a b ta tb H Ha Hb|? a b ta tb H Ha Hb|? k g a t H Ha
    |? v a t H Ha|? v a t H Ha]; rewrite H in Hn; injection Hn as <-; simpl in Hh.
  - apply (constant_translates f σ st [] ∅ σ st TTrue TTrue true); auto; set_solver.
  - apply (constant_translates f σ st [] ∅ σ st TFalse TFalse false); auto; set_solver.
  - apply (push_translates f σ st _ [] ∅ σ st (TPred p) (TPred p)); auto; node_tree_tac.
  - by apply simplify_var_spec.
  - apply (simplify_not_spec f n); auto; lia.
  - apply (simplify_and_spec f n); auto; lia.
  - apply (simplify_or_spec f n); auto; lia.
  - destruct (IH a t σ st Ha ltac:(lia)) as (σ1 & id' & st1 & u & -> & Hg & Hu & Ht).
    { by eapply ready_child. }
    apply (push_translates f σ st _ _ _ σ1 st1 (TModal k g t) (TModal k g u) Hg); auto.
    + repeat constructor. by eapply repr_lt.
    + node_tree_tac.
  - apply (simplify_fixpoint_spec f n _ σ st true); auto; lia.
  - apply (simplify_fixpoint_spec f n _ σ st false); auto; lia.
Qed.

(** ** Both evaluators have units *)

Lemma bv_and_comm a b : length a = length b → bv_and a b = bv_and b a.
Proof.
  intros Hl. apply bv_eq; [by rewrite !length_bv_and|]. intros i _. rewrite !bit_and. apply andb_comm.
Qed.

Lemma bv_or_comm a b : length a = length b → bv_or a b = bv_or b a.
Proof.
  intros Hl. apply bv_eq; [by rewrite !length_bv_or|]. intros i Hi. rewrite length_bv_or in Hi.
  rewrite !bit_or by lia. apply orb_comm.
Qed.

(** Conjunction with a constant vector, disjunction with one. *)
Lemma bv_and_fill b a n : length a = n → bv_and (bv_fill n b) a = if b then a else bv_fill n false.
Proof.
  intros Hl. apply bv_eq; [destruct b; by rewrite length_bv_and, ?length_bv_fill|].
  intros i Hi. rewrite length_bv_and, length_bv_fill in Hi.
  rewrite bit_and, bit_fill, bool_decide_true by done. destruct b; [done|]. by rewrite bit_fill.
Qed.

Lemma bv_or_fill b a n : length a = n → bv_or (bv_fill n b) a = if b then bv_fill n true else a.
Proof.
  intros Hl. apply bv_eq; [destruct b; by rewrite length_bv_or, ?length_bv_fill|].
  intros i Hi. rewrite length_bv_or, length_bv_fill in Hi.
  rewrite bit_or, bit_fill, bool_decide_true by (by rewrite ?length_bv_fill).
  destruct b; [|done]. by rewrite bit_fill, bool_decide_true.
Qed.

Lemma bv_and_same a : bv_and a a = a.
Proof.
  apply bv_eq; [by rewrite length_bv_and|]. intros i _. rewrite bit_and. apply andb_diag.
Qed.

Lemma bv_or_same a : bv_or a a = a.
Proof.
  apply bv_eq; [by rewrite length_bv_or|]. intros i Hi. rewrite length_bv_or in Hi.
  rewrite bit_or by done. apply orb_diag.
Qed.

#[local] Instance bool_units x (Hx : ctx_ok x) (Ho : oob_free x) :
  UnitLaws (list bool) x unbounded (DomainLaws0 := bool_laws x Hx Ho).
Proof.
  set (L := bool_laws x Hx Ho). pose proof (cok_count x Hx) as Hn.
  assert (Hnot : ∀ a, bool_ok x a → dom_not x a = bv_not a) by (intros; by apply bool_dom_not).
  assert (Htop : dom_top x = bv_fill (state_count (clts x)) true) by (by apply all_top).
  assert (Hbot : dom_bottom x = bv_fill (state_count (clts x)) false) by (simpl; by rewrite Hn).
  assert (Hb : bool_ok x (dom_bottom x)) by exact (dok_bottom (DomainLaws := L)).
  assert (Ht : bool_ok x (dom_top x)) by exact (dok_top (DomainLaws := L)).
  constructor.
  - by rewrite Hnot, Htop, Hbot, bv_not_fill.
  - by rewrite Hnot, Htop, Hbot, bv_not_fill.
  - intros a Ha. rewrite (Hnot a Ha), Hnot by (unfold bool_ok; by rewrite length_bv_not).
    apply bv_not_involutive.
  - intros a b Ha Hb'. apply bv_and_comm. by rewrite Ha, Hb'.
  - intros a b Ha Hb'. apply bv_or_comm. by rewrite Ha, Hb'.
  - intros a Ha. rewrite Htop. by apply (bv_and_fill true).
  - intros a Ha. rewrite Hbot. by apply (bv_and_fill false).
  - intros a _. apply bv_and_same.
  - intros a Ha. rewrite Htop. by apply (bv_or_fill true).
  - intros a Ha. rewrite Hbot. by apply (bv_or_fill false).
  - intros a _. apply bv_or_same.
Qed.

#[local] Instance kleene_units x (Hx : ctx_ok x) (Ho : oob_free x) :
  UnitLaws TritSet x unbounded (DomainLaws0 := kleene_laws x Hx Ho).
Proof.
  pose proof (cok_count x Hx) as Hn. pose proof (all_top x Hx Ho) as Htop.
  constructor; simpl; unfold all_true, all_false, tand, tor, tnot; simpl; unfold not_oob_bits in Htop;
    rewrite ?Htop, ?Hn, ?bv_not_fill; simpl; try done.
  - intros a _. by destruct a; simpl; rewrite !bv_not_involutive.
  - intros a b [Ha1 Ha2 _] [Hb1 Hb2 _]. f_equal; apply bv_and_comm; congruence.
  - intros a b [Ha1 Ha2 _] [Hb1 Hb2 _]. f_equal; apply bv_or_comm; congruence.
  - intros a [H1 H2 _]. rewrite (bv_and_fill true), (bv_and_fill true) by done. by destruct a.
  - intros a [H1 H2 _]. by rewrite (bv_and_fill false), (bv_and_fill false).
  - intros a _. rewrite !bv_and_same. by destruct a.
  - intros a [H1 H2 _]. by rewrite (bv_or_fill true), (bv_or_fill true).
  - intros a [H1 H2 _]. rewrite (bv_or_fill false), (bv_or_fill false) by done. by destruct a.
  - intros a _. rewrite !bv_or_same. by destruct a.
Qed.

(** ** Simplified formulas *)

Lemma walk_ok_new f : walk_ok f ∅ Simplifier_new.
Proof.
  split; simpl; try done; intros v w; by rewrite lookup_empty.
Qed.

(** Binders are distinct and differ from the free variables, and all variables
    are in the formula's table. *)
Record well_scoped (f : Formula) (t : Tree) : Prop := {
  ws_wf : wf_formula f;
  ws_tree : formula_tree f t;
  ws_separate : separate t;
  ws_binders : ∀ v, v ∈ bound_vars t → v < length (vars f);
  ws_free : ∀ v, v ∈ free_vars t → v < length (vars f)
}.

Lemma simplify_reduces f t :
  well_scoped f t → ∃ g u σ, simplify f = Some g ∧ wf_formula g ∧ formula_tree g u ∧
    injective σ ∧ reduces σ t u.
Proof.
  intros [Hwf Ht Hs Hb Hf].
  destruct (simplify_node_spec f (length (nodes f)) (root f) t ∅ Simplifier_new Ht (formula_tree_fuel f t Hwf Ht))
    as (σ & id & st & u & E & Hg & Hu & Hr).
  { split; [apply walk_ok_new|done| |].
    - intros v Hv. split; [apply lookup_empty|by apply Hb].
    - intros v Hv. split; [|by apply Hf]. intros [[w H] _]. by rewrite lookup_empty in H. }
  destruct Hg as [Hk _ _ _ _ _]. unfold simplify. rewrite E.
  exists (into_formula (s_builder st) id), u, σ. split_and!; try done; [|by apply Hk].
  split; [apply Hk|]. by eapply repr_lt.
Qed.

(** * Properties *)

(** C33: simplification is an equivalence. On every monotone formula whose
    binders are distinct and whose modalities carry no step bound, [simplify]
    returns a well-formed monotone formula on which both evaluators return what
    they return on the original, whatever the guards' scopes and on every system
    without out-of-bounds states. *)
Theorem simplify_preserves rounds f t c e o :
  let x := mk_ctx c e o in
  ctx_ok x → oob_free x → prior_approximants o = None →
  well_scoped f t → monotone t = true → modalities_good unbounded t →
  2 * state_count c < rounds →
  ∃ g u, simplify f = Some g ∧ wf_formula g ∧ formula_tree g u ∧ monotone u = true ∧
    (∃ v, evaluate_with_options rounds f c e o = Some v ∧ evaluate_with_options rounds g c e o = Some v) ∧
    (∃ ts, evaluate_tri_with_options rounds f c e o = Some ts ∧
           evaluate_tri_with_options rounds g c e o = Some ts).
Proof.
  intros x Hx Ho Hprior Hs Hm Hg Hr.
  destruct (simplify_reduces f t Hs) as (g & u & σ & Hsim & Hwf' & Ht' & Hi & Hred).
  destruct Hs as [Hwf Ht _ _ _]. pose proof (reduces_monotone σ t u Hi Hred Hm) as Hm'.
  destruct (evaluate_denote_unbounded x Hx Ho rounds f t Hprior Hwf Ht Hm Hg Hr) as [E1 E2].
  destruct (evaluate_denote_unbounded x Hx Ho rounds g u Hprior Hwf' Ht' Hm'
    (reduces_good σ _ t u Hred Hg) Hr) as [E3 E4].
  assert (Ha : ∀ V, agrees (V := V) σ t ∅ ∅) by (intros V v w _ _; by rewrite !lookup_empty).
  rewrite (reduces_denote x unbounded (U := bool_units x Hx Ho) σ t u ∅ ∅) in E3; auto using env_ok_empty.
  rewrite (reduces_denote x unbounded (U := kleene_units x Hx Ho) σ t u ∅ ∅) in E4; auto using env_ok_empty.
  exists g, u. split_and!; eauto.
Qed.

(** [! (p && false)] *)
Definition not_absorbed : Formula :=
  {| root := 3; nodes := [NPredicate "p"; NFalse; NAnd 0 1; NNot 2]; vars := [] |}.
(** [mu X. X || nu X. X], with one node for both occurrences of [X]. *)
Definition shared_variable : Formula :=
  {| root := 3; nodes := [NVariable 0; NMu 0 0; NNu 0 0; NOr 1 2]; vars := ["X"] |}.

(** The limits of the simplifier. A negation is not simplified again after its
    operand has become a constant: [! (p && false)] becomes [! false].  The cache
    does not look at binders: where one node serves two binders of the same
    variable, the second is left unbound and the verdict changes. *)
Theorem simplify_limits :
  simplify not_absorbed
    = Some {| root := 2; nodes := [NPredicate "p"; NFalse; NNot 1]; vars := [] |} ∧
  simplify shared_variable
    = Some {| root := 3; nodes := [NVariable 0; NMu 0 0; NNu 1 0; NOr 1 2]; vars := ["X"; "X"] |} ∧
  bool_verdict EvaluationOptions_default shared_variable fair_fork = Some true ∧
  verdict_after (simplify shared_variable) fair_fork = Some false.
Proof. split_and!; vm_compute; reflexivity. Qed.

(** ** Witness *)

Lemma demo_well_scoped : well_scoped ex_recoverability demo_tree.
Proof.
  destruct demo_closed as [Hwf Ht Hb Hw]. split; try done.
  - by apply well_named_separate.
  - by apply Forall_forall.
Qed.

Lemma simplify_preserves_witness :
  ∃ g u, simplify ex_recoverability = Some g ∧ wf_formula g ∧ formula_tree g u ∧ monotone u = true ∧
    (∃ v, evaluate_with_options 5 ex_recoverability demo_clts demo_env EvaluationOptions_default = Some v
        ∧ evaluate_with_options 5 g demo_clts demo_env EvaluationOptions_default = Some v) ∧
    (∃ ts, evaluate_tri_with_options 5 ex_recoverability demo_clts demo_env EvaluationOptions_default = Some ts
        ∧ evaluate_tri_with_options 5 g demo_clts demo_env EvaluationOptions_default = Some ts).
Proof.
  apply (simplify_preserves 5 ex_recoverability demo_tree demo_clts demo_env EvaluationOptions_default).
  - apply demo_ctx_ok.
  - apply demo_oob_free.
  - reflexivity.
  - apply demo_well_scoped.
  - reflexivity.
  - cbn. repeat split; done.
  - vm_compute. lia.
Defined.
