(* ===== verification/Branching.v ===== *)
(** One step of a system in the modal mu-calculus: the unguarded box and diamond,
    the fixpoints over them, and what they mean on paths.  The translations of
    temporal formulas ([ltl/]) are built from these. *)
From S2P Require Import Prelude Formula Trit Clts Modal Evaluator Semantics Domains Checking Verdicts Divergences Transforms.

Create HintDb ltl.

(** ** Trees *)

Definition box (t : Tree) : Tree := TModal Box Guard_default t.
Definition dia (t : Tree) : Tree := TModal Diamond Guard_default t.
(** Every successor, and there is one. *)
Definition all_next (t : Tree) : Tree := TAnd (box t) (TModal Diamond Guard_default TTrue).

Section branching.
Context (c : Clts) (e : EvalEnvironment).

Definition edge (s s' : nat) : Prop := ∃ t, t ∈ outgoing c s ∧ target t = s'.

(** Every state has a successor. *)
Definition total : Prop := ∀ s, s < state_count c → outgoing c s ≠ [].

Lemma edge_bound (Hok : clts_ok c) s s' : edge s s' → s < state_count c ∧ s' < state_count c.
Proof using Type.
  intros (t & Ht & <-). split; [by eapply outgoing_in_range|by eapply (ok_target c Hok)].
Qed.

Lemma sat_box t ρ s : sat c e (box t) ρ s ↔ ∀ s', edge s s' → sat c e t ρ s'.
Proof using Type.
  simpl. unfold step. simpl. setoid_rewrite matched_default. split.
  - intros H s' (tr & Ht & <-). by apply H.
  - intros H tr Ht. apply H. by exists tr.
Qed.

Lemma sat_dia t ρ s : sat c e (dia t) ρ s ↔ ∃ s', edge s s' ∧ sat c e t ρ s'.
Proof using Type.
  simpl. unfold step. simpl. setoid_rewrite matched_default. split.
  - intros (tr & Ht & Hs). exists (target tr). split; [by exists tr|done].
  - intros (s' & (tr & Ht & <-) & Hs). by exists tr.
Qed.

Lemma sat_all_next t ρ s :
  sat c e (all_next t) ρ s ↔ (∀ s', edge s s' → sat c e t ρ s') ∧ ∃ s', edge s s'.
Proof using Type.
  unfold all_next. rewrite <-sat_box. change (sat c e (TAnd ?l ?r) ρ s) with (sat c e l ρ s ∧ sat c e r ρ s).
  assert (H : sat c e (TModal Diamond Guard_default TTrue) ρ s ↔ ∃ s', edge s s'); [|by rewrite H].
  etransitivity; [apply (sat_dia TTrue)|]. split; [intros (s' & ? & _); eauto|intros [s' ?]; by exists s'].
Qed.

(** ** Fixpoints *)

(** The variable of the innermost fixpoint. *)
Lemma sat_box_var n X ρ u : sat c e (box (TVar n)) (upd ρ n X) u ↔ ∀ s', edge u s' → X s'.
Proof using Type. rewrite sat_box. simpl. unfold upd. by rewrite decide_True by done. Qed.

Lemma sat_dia_var n X ρ u : sat c e (dia (TVar n)) (upd ρ n X) u ↔ ∃ s', edge u s' ∧ X s'.
Proof using Type. rewrite sat_dia. simpl. unfold upd. by rewrite decide_True by done. Qed.

Lemma sat_next_var n X ρ u :
  sat c e (all_next (TVar n)) (upd ρ n X) u ↔ (∀ s', edge u s' → X s') ∧ ∃ s', edge u s'.
Proof using Type. rewrite sat_all_next. simpl. unfold upd. by rewrite decide_True by done. Qed.

(** The tree holds in the states of [P], whatever the variables are bound to. *)
Definition means (t : Tree) (P : nat → Prop) : Prop :=
  ∀ ρ u, u < state_count c → sat c e t ρ u ↔ P u.

(** [nu X. (t && [] X)]: [t] everywhere from here. *)
Lemma greatest_always t P n ρ s : means t P →
  sat c e (TFix Greatest n (TAnd t (box (TVar n)))) ρ s ↔
  ∃ X : nat → Prop, (∀ u, u < state_count c → X u → P u ∧ ∀ s', edge u s' → X s') ∧ X s.
Proof using Type.
  intros HP. cbn [sat]. split; intros (X & HX & Hs); exists X; (split; [|done]); intros u Hu Hxu;
    specialize (HX u Hu Hxu); rewrite sat_box_var, (HP _ u Hu) in *; exact HX.
Qed.

(** Some path satisfies [P] until [Q]. *)
Inductive exists_until (P Q : nat → Prop) : nat → Prop :=
  | eu_now s : Q s → exists_until P Q s
  | eu_step s s' : P s → edge s s' → exists_until P Q s' → exists_until P Q s.

Context (Hok : clts_ok c).

Lemma reach_bound s s' : rtc edge s s' → s < state_count c → s' < state_count c.
Proof using Hok. induction 1 as [|s u s' Hs _ IH]; [done|]. intros _. apply IH, (edge_bound Hok s u Hs). Qed.

Lemma everywhere t P n ρ s : s < state_count c → means t P →
  sat c e (TFix Greatest n (TAnd t (box (TVar n)))) ρ s ↔ ∀ s', rtc edge s s' → P s'.
Proof using Hok.
  intros Hs HP. rewrite (greatest_always t P n ρ s HP). split.
  - intros (X & HX & Hxs) s' Hr.
    assert (H : X s'); [|apply HX; [by eapply reach_bound|done]].
    induction Hr as [|s u s' Hsu Hr IH]; [done|].
    apply IH; [apply (edge_bound Hok s u Hsu)|]. by apply (HX s Hs Hxs).
  - intros H. exists (λ u, ∀ s', rtc edge u s' → P s'). split; [|done]. intros u _ Hu. split; [by apply Hu|].
    intros s' Hs' s'' Hr. apply Hu. by eapply rtc_l.
Qed.

(** [mu X. (q || (p && <> X))] *)
Lemma somewhere_until tp tq P Q n ρ s : s < state_count c → means tp P → means tq Q →
  sat c e (TFix Least n (TOr tq (TAnd tp (dia (TVar n))))) ρ s ↔ exists_until P Q s.
Proof using Hok.
  intros Hs HP HQ. cbn [sat]. split.
  - intros H. apply H. intros u Hu. rewrite sat_dia_var, (HP _ u Hu), (HQ _ u Hu).
    intros [Hq|(Hp & s' & Hs' & Hx)]; [by apply eu_now|by eapply eu_step].
  - intros H X HX. induction H as [s Hq|s s' Hp Hss' _ IH]; apply HX; try done;
      rewrite sat_dia_var, (HP _ s Hs), (HQ _ s Hs); [by left|right]. split; [done|].
    exists s'. split; [done|]. by apply IH, (edge_bound Hok s).
Qed.

(** [mu X. (q || <> X)]: [q] is reachable. *)
Lemma somewhere tq Q n ρ s : s < state_count c → means tq Q →
  sat c e (TFix Least n (TOr tq (dia (TVar n)))) ρ s ↔ ∃ s', rtc edge s s' ∧ Q s'.
Proof using Hok.
  intros Hs HQ. cbn [sat]. split.
  - intros H. apply (H (λ u, ∃ s', rtc edge u s' ∧ Q s')). intros u Hu. rewrite sat_dia_var, (HQ _ u Hu).
    intros [Hq|(s' & Hs' & s'' & Hr & Hq)]; [by exists u|]. exists s''. split; [by eapply rtc_l|done].
  - intros (s' & Hr & Hq) X HX. induction Hr as [s|s u s' Hsu _ IH]; apply HX; try done;
      rewrite sat_dia_var, (HQ _ s Hs); [by left|right]. exists u. split; [done|].
    by apply IH, Hq; apply (edge_bound Hok s).
Qed.
End branching.
