(* ===== verification/Text.v ===== *)
(** UTF-8 text, as the parsers of the source read it: a string is a sequence of
    bytes, a [char] is the string of its bytes, and positions are byte offsets.

    [next_char] is [s.chars().next()].  ASCII characters are classified here;
    the tables of the other characters are those of the Unicode standard and are
    an argument ([Unicode]), about which nothing is assumed. *)
From S2P Require Import Prelude.
From stdpp Require Import strings.
From Stdlib Require Ascii.
Notation ascii := Ascii.ascii.

Abbreviation char := string (only parsing).

(** ** Characters *)

(** The classes of the characters outside ASCII. *)
Class Unicode := {
  alphabetic : char → bool;
  numeric : char → bool;
  white_space : char → bool
}.

(** The tables of a text without other characters. *)
Definition ascii_only : Unicode :=
  {| alphabetic := λ _, false; numeric := λ _, false; white_space := λ _, false |}.

Definition code (a : ascii) : nat := Ascii.nat_of_ascii a.

(** The number of bytes of the character a lead byte starts. *)
Definition char_len (lead : ascii) : nat :=
  if code lead <? 128 then 1 else if code lead <? 224 then 2 else if code lead <? 240 then 3 else 4.

Fixpoint take_bytes (n : nat) (s : string) : string :=
  match n, s with
  | S k, String a s' => String a (take_bytes k s')
  | _, _ => EmptyString
  end.

Fixpoint drop_bytes (n : nat) (s : string) : string :=
  match n, s with
  | S k, String _ s' => drop_bytes k s'
  | _, _ => s
  end.

Definition next_char (s : string) : option (char * string) :=
  match s with
  | EmptyString => None
  | String a _ => Some (take_bytes (char_len a) s, drop_bytes (char_len a) s)
  end.

Definition in_range (lo hi : nat) (a : ascii) : bool := (lo <=? code a) && (code a <=? hi).
Definition ascii_digit (a : ascii) : bool := in_range 48 57 a.
Definition ascii_upper (a : ascii) : bool := in_range 65 90 a.
Definition ascii_lower (a : ascii) : bool := in_range 97 122 a.
Definition ascii_alpha (a : ascii) : bool := ascii_upper a || ascii_lower a.
Definition ascii_space (a : ascii) : bool := in_range 9 13 a || (code a =? 32).

Section classes.
Context {U : Unicode}.

(** [char::is_alphabetic], [is_numeric], [is_alphanumeric], [is_whitespace],
    [is_ascii_digit]. *)
Definition is_alphabetic (c : char) : bool :=
  match c with String a EmptyString => ascii_alpha a | _ => alphabetic c end.
Definition is_numeric (c : char) : bool :=
  match c with String a EmptyString => ascii_digit a | _ => numeric c end.
Definition is_alphanumeric (c : char) : bool := is_alphabetic c || is_numeric c.
Definition is_whitespace (c : char) : bool :=
  match c with String a EmptyString => ascii_space a | _ => white_space c end.
Definition is_ascii_digit (c : char) : bool :=
  match c with String a EmptyString => ascii_digit a | _ => false end.
End classes.

(** ** Operations on strings *)

Fixpoint strip_prefix (pre s : string) : option string :=
  match pre, s with
  | EmptyString, _ => Some s
  | String a pre', String b s' => if Ascii.eqb a b then strip_prefix pre' s' else None
  | String _ _, EmptyString => None
  end.

Definition starts_with (pre s : string) : bool :=
  match strip_prefix pre s with Some _ => true | None => false end.

Definition to_lower (a : ascii) : ascii :=
  if ascii_upper a then Ascii.ascii_of_nat (code a + 32) else a.

Fixpoint to_ascii_lowercase (s : string) : string :=
  match s with EmptyString => EmptyString | String a s' => String (to_lower a) (to_ascii_lowercase s') end.

(** [s.chars()]; every character has a byte, so the length is enough fuel. *)
Fixpoint chars_fuel (fuel : nat) (s : string) : list char :=
  match fuel with
  | O => []
  | S k => match next_char s with None => [] | Some (c, s') => c :: chars_fuel k s' end
  end.
Definition chars (s : string) : list char := chars_fuel (String.length s) s.

Definition of_chars (l : list char) : string := foldr String.append EmptyString l.

Fixpoint drop_while (f : char → bool) (l : list char) : list char :=
  match l with [] => [] | c :: l' => if f c then drop_while f l' else l end.

(** [trim_start_matches] and [trim_end_matches]. *)
Definition trim_start_matches (f : char → bool) (s : string) : string :=
  of_chars (drop_while f (chars s)).
Definition trim_end_matches (f : char → bool) (s : string) : string :=
  of_chars (reverse (drop_while f (reverse (chars s)))).

Section trim.
Context {U : Unicode}.
Definition trim_start (s : string) : string := trim_start_matches is_whitespace s.
Definition trim (s : string) : string := trim_end_matches is_whitespace (trim_start s).
End trim.

(** [s.split(f)]: the pieces between the characters that satisfy [f]. *)
Fixpoint split_chars (f : char → bool) (l cur : list char) : list (list char) :=
  match l with
  | [] => [reverse cur]
  | c :: l' => if f c then reverse cur :: split_chars f l' [] else split_chars f l' (c :: cur)
  end.
Definition split (f : char → bool) (s : string) : list string :=
  map of_chars (split_chars f (chars s) []).

(** [split_once(input, delimiter)]: around the first delimiter. *)
Fixpoint split_once_chars (d : char) (l before : list char) : option (list char * list char) :=
  match l with
  | [] => None
  | c :: l' => if String.eqb c d then Some (reverse before, l') else split_once_chars d l' (c :: before)
  end.
Definition split_once (s : string) (d : char) : option (string * string) :=
  let* (a, b) := split_once_chars d (chars s) [] in Some (of_chars a, of_chars b).

(** The text after the first, before the last, occurrence of a character. *)
Definition after_first (d : char) (s : string) : string :=
  match split_once s d with Some (_, b) => b | None => s end.
Definition before_last (d : char) (s : string) : string :=
  match split_once_chars d (reverse (chars s)) [] with
  | Some (_, a) => of_chars (reverse a)
  | None => s
  end.

(** [s.parse::<u32>()]: an optional [+], then decimal digits, below [2^32]. *)
Fixpoint parse_digits (s : string) (acc : N) : option N :=
  match s with
  | EmptyString => Some acc
  | String a s' =>
    if ascii_digit a then parse_digits s' (10 * acc + N.of_nat (code a - 48))%N else None
  end.

Definition parse_u32 (s : string) : option nat :=
  let digits := match strip_prefix "+" s with Some d => d | None => s end in
  match digits with
  | EmptyString => None
  | _ =>
    let* n := parse_digits digits 0 in
    if (n <? 4294967296)%N then Some (N.to_nat n) else None
  end.

(** ** Lemmas *)

Lemma sapp_cons a s t : String a s +:+ t = String a (s +:+ t).
Proof. done. Qed.

Lemma sapp_nil_l s : "" +:+ s = s.
Proof. done. Qed.

Lemma length_sapp a b : String.length (a +:+ b) = String.length a + String.length b.
Proof. induction a as [|x a IH]; [done|]. rewrite sapp_cons. simpl. by rewrite IH. Qed.

Lemma sapp_assoc a b c : (a +:+ b) +:+ c = a +:+ (b +:+ c).
Proof. induction a as [|x a IH]; [done|]. by rewrite !sapp_cons, IH. Qed.

Lemma sapp_nil_r a : a +:+ "" = a.
Proof. induction a as [|x a IH]; [done|]. by rewrite sapp_cons, IH. Qed.

Lemma char_len_pos a : 0 < char_len a.
Proof. unfold char_len. repeat case_match; lia. Qed.

Lemma length_drop_bytes n s : String.length (drop_bytes n s) = String.length s - n.
Proof.
  revert s. induction n as [|n IH]; intros s; [destruct s; simpl; lia|].
  destruct s; simpl; [done|apply IH].
Qed.

Lemma length_take_bytes n s : String.length (take_bytes n s) = n `min` String.length s.
Proof.
  revert s. induction n as [|n IH]; intros s; [done|].
  destruct s; simpl; [done|by rewrite IH].
Qed.

Lemma take_drop_bytes n s : take_bytes n s +:+ drop_bytes n s = s.
Proof.
  revert s. induction n as [|n IH]; intros s; [done|]. destruct s; simpl; [done|by rewrite sapp_cons, IH].
Qed.

(** A character is a non-empty prefix. *)
Lemma next_char_some s c s' :
  next_char s = Some (c, s') → s = c +:+ s' ∧ 0 < String.length c.
Proof.
  unfold next_char. destruct s as [|a s0]; [done|]. pose proof (char_len_pos a) as Hp.
  remember (char_len a) as n eqn:En. intros [= <- <-].
  split; [symmetry; apply take_drop_bytes|]. rewrite length_take_bytes. simpl. lia.
Qed.

Lemma next_char_length s c s' :
  next_char s = Some (c, s') → String.length s = String.length c + String.length s' ∧ 0 < String.length c.
Proof. intros [-> ?]%next_char_some. by rewrite length_sapp. Qed.

(** ASCII text: every byte is a character. *)
Definition is_ascii (a : ascii) : bool := code a <? 128.

Lemma next_char_ascii a s : is_ascii a = true → next_char (String a s) = Some (String a "", s).
Proof.
  intros Ha. unfold next_char, char_len, is_ascii in *. by rewrite Ha.
Qed.

Lemma strip_prefix_app pre s : strip_prefix pre (pre +:+ s) = Some s.
Proof. induction pre as [|a pre IH]; [done|]. rewrite sapp_cons. simpl. by rewrite Ascii.eqb_refl. Qed.

Lemma strip_prefix_some pre s s' : strip_prefix pre s = Some s' → s = pre +:+ s'.
Proof.
  revert s. induction pre as [|a pre IH]; intros s; simpl; [by intros [= ->]|].
  destruct s as [|b s]; [done|]. destruct (Ascii.eqb_spec a b) as [->|]; [|done].
  intros H. by rewrite (IH s H), sapp_cons.
Qed.

Lemma strip_prefix_length pre s s' :
  strip_prefix pre s = Some s' → String.length s = String.length pre + String.length s'.
Proof. intros ->%strip_prefix_some. apply length_sapp. Qed.

Lemma length_lowercase s : String.length (to_ascii_lowercase s) = String.length s.
Proof. induction s; simpl; congruence. Qed.

(** ** Words *)

Definition head_is (f : ascii → bool) (s : string) : bool :=
  match s with String a _ => f a | EmptyString => false end.

Fixpoint all_digits (s : string) : bool :=
  match s with EmptyString => true | String a s' => ascii_digit a && all_digits s' end.
Definition decimal (s : string) : bool :=
  match s with EmptyString => false | _ => all_digits s end.

(** A character of a class differs from one outside it. *)
Lemma class_eqb (f : ascii → bool) a c : f a = true → f c = false → Ascii.eqb c a = false.
Proof. intros Ha Hc. destruct (Ascii.eqb_spec c a) as [->|]; [congruence|done]. Qed.

Lemma in_range_ascii lo hi a : in_range lo hi a = true → hi < 128 → is_ascii a = true.
Proof.
  unfold in_range, is_ascii. intros [_ H]%andb_true_iff Hhi. apply Nat.leb_le in H.
  apply Nat.ltb_lt. lia.
Qed.

Lemma ascii_digit_ascii a : ascii_digit a = true → is_ascii a = true.
Proof. intros H. eapply in_range_ascii; [exact H|lia]. Qed.

Lemma drop_bytes_app a b : drop_bytes (String.length a) (a +:+ b) = b.
Proof. induction a as [|x a IH]; [done|]. by rewrite sapp_cons. Qed.

Lemma take_bytes_app a b : take_bytes (String.length a) (a +:+ b) = a.
Proof. induction a as [|x a IH]; [by destruct b|]. rewrite sapp_cons. simpl. by rewrite IH. Qed.
