(* ===== verification/FormulaParser.v ===== *)
(** The parser of formulas, [mu_calculus/parser.rs]: a recursive-descent parser
    over the bytes of the input.

    The parser's state holds what is left of the input ([rest], the source's
    [input[pos..]]), the byte offset, the arena built so far, the binders in
    scope (innermost first) and the nesting depth.  An error ends the parse, so
    [Err] carries no state.  [parse_total] shows that the recursion ends
    ([NoFuel] is never returned by [parse]), [parse_closed] that an accepted text
    is a closed formula with one variable per binder, and the [reads_*] lemmas
    how each construct of the grammar is read, whatever follows it. *)
From S2P Require Import Prelude Formula Trit Clts Modal Evaluator Semantics Domains Checking Verdicts Divergences Transforms Text.

(** ** State and errors *)

Inductive ParseError :=
  | UnexpectedEof
  | Unexpected (e_pos : nat) (message : string)
  | DuplicateGuardField (field : string) (e_pos : nat).

Inductive ParseErrorKind :=
  | Expected (message : string)
  | ExpectedChar (ch : char)
  | UnexpectedGuardKey (key : string)
  | UnexpectedTrailing.

Record Binder := { b_name : string; b_id : FormulaVarId }.

Record Parser := {
  rest : string;
  pos : nat;
  p_builder : FormulaBuilder;
  binder_stack : list Binder;
  depth : nat
}.

Definition MAX_PARSE_DEPTH : nat := 256.

Definition Parser_new (input : string) : Parser :=
  {| rest := input; pos := 0; p_builder := FormulaBuilder_default; binder_stack := []; depth := 0 |}.

Definition move (n : nat) (r : string) (p : Parser) : Parser :=
  {| rest := r; pos := pos p + n; p_builder := p_builder p; binder_stack := binder_stack p; depth := depth p |}.
Definition with_builder (b : FormulaBuilder) (p : Parser) : Parser :=
  {| rest := rest p; pos := pos p; p_builder := b; binder_stack := binder_stack p; depth := depth p |}.
Definition with_stack (l : list Binder) (p : Parser) : Parser :=
  {| rest := rest p; pos := pos p; p_builder := p_builder p; binder_stack := l; depth := depth p |}.
Definition with_depth (d : nat) (p : Parser) : Parser :=
  {| rest := rest p; pos := pos p; p_builder := p_builder p; binder_stack := binder_stack p; depth := d |}.

Inductive Outcome (A : Type) := Ok (a : A) (p : Parser) | Err (e : ParseError) | NoFuel.
Arguments Ok {A}. Arguments Err {A}. Arguments NoFuel {A}.

Notation "'let!' ( x , p ) ':=' e 'in' k" :=
  (match e with Ok x p => k | Err er => Err er | NoFuel => NoFuel end)
  (at level 10, x name, p name, e at level 200, k at level 200,
   format "'[v' 'let!'  ( x ,  p )  ':='  e  'in' '/' k ']'") : mununu_scope.

Definition error_here (p : Parser) (kind : ParseErrorKind) : ParseError :=
  match kind with
  | Expected message => Unexpected (pos p) ("expected " +:+ message)
  | ExpectedChar ch => Unexpected (pos p) ("expected `" +:+ ch +:+ "`")
  | UnexpectedGuardKey key => Unexpected (pos p) ("unexpected guard key `" +:+ key +:+ "`")
  | UnexpectedTrailing => Unexpected (pos p) "trailing characters after formula"
  end.

Definition push (n : Node) (p : Parser) : Outcome NodeId :=
  let '(id, b) := push_node (p_builder p) n in Ok id (with_builder b p).

Section parser.
Context {U : Unicode}.

(** ** Tokens *)

Definition is_ident_start (c : char) : bool :=
  is_alphabetic c || String.eqb c "_" || String.eqb c "$".
Definition is_ident_continue (c : char) : bool :=
  is_alphanumeric c || String.eqb c "_" || String.eqb c "$".

Definition peek_char (p : Parser) : option char := fst <$> next_char (rest p).
Definition peek_is (c : char) (p : Parser) : bool :=
  match peek_char p with Some d => String.eqb d c | None => false end.

(** A non-ASCII [char] is its bytes, so looking at the first character is
    looking at the first bytes. *)
Definition try_consume_str (s : string) (p : Parser) : option Parser :=
  let* r := strip_prefix s (rest p) in Some (move (String.length s) r p).
Definition try_consume_char (c : char) (p : Parser) : option Parser := try_consume_str c p.

Fixpoint skip_loop (fuel : nat) (p : Parser) : Parser :=
  match fuel with
  | O => p
  | S k =>
    match next_char (rest p) with
    | Some (c, r) => if is_whitespace c then skip_loop k (move (String.length c) r p) else p
    | None => p
    end
  end.
Definition skip_whitespace (p : Parser) : Parser := skip_loop (String.length (rest p)) p.

Definition expect_char (c : char) (p : Parser) : Outcome unit :=
  let p := skip_whitespace p in
  match try_consume_char c p with
  | Some p' => Ok tt p'
  | None => Err (error_here p (ExpectedChar c))
  end.

Definition next_continues (s : string) : bool :=
  match next_char s with Some (c, _) => is_ident_continue c | None => false end.

(** Case-insensitive, and not followed by an identifier character. *)
Definition consume_keyword (kw : string) (p : Parser) : option Parser :=
  if starts_with kw (to_ascii_lowercase (rest p)) then
    let r := drop_bytes (String.length kw) (rest p) in
    if next_continues r then None else Some (move (String.length kw) r p)
  else None.

(** The first alternative that consumes something. *)
Definition or_else (a b : option Parser) : option Parser :=
  match a with Some p => Some p | None => b end.

Definition try_consume_not (p : Parser) : option Parser :=
  or_else (try_consume_char "¬" p) (or_else (try_consume_char "!" p) (consume_keyword "not" p)).
Definition try_consume_and (p : Parser) : option Parser :=
  or_else (try_consume_char "∧" p)
    (or_else (try_consume_str "&&" p) (or_else (try_consume_char "&" p) (consume_keyword "and" p))).
Definition try_consume_or (p : Parser) : option Parser :=
  or_else (try_consume_char "∨" p)
    (or_else (try_consume_str "||" p) (or_else (try_consume_char "|" p) (consume_keyword "or" p))).

(** The bytes an identifier's tail takes: identifier characters, and dots
    followed by one. *)
Fixpoint ident_tail (fuel : nat) (s : string) : nat :=
  match fuel with
  | O => 0
  | S k =>
    match next_char s with
    | None => 0
    | Some (c, s') =>
      if is_ident_continue c || (String.eqb c "." && next_continues s')
      then String.length c + ident_tail k s' else 0
    end
  end.

Definition parse_identifier (p : Parser) : option string * Parser :=
  let p := skip_whitespace p in
  match next_char (rest p) with
  | None => (None, p)
  | Some (first, tail) =>
    if is_ident_start first then
      let len := String.length first + ident_tail (String.length tail) tail in
      (Some (take_bytes len (rest p)), move len (drop_bytes len (rest p)) p)
    else (None, p)
  end.

Definition lookup_binder (p : Parser) (name : string) : option FormulaVarId :=
  b_id <$> List.find (λ b, String.eqb (b_name b) name) (binder_stack p).

(** ** Comparisons *)

Definition try_consume_comparison_op (p : Parser) : option (string * Parser) :=
  let two := take_bytes 2 (rest p) in
  if existsb (String.eqb two) ["=="; "!="; "<="; ">="]
  then Some (two, move 2 (drop_bytes 2 (rest p)) p)
  else match try_consume_char "<" p with
       | Some p' => Some ("<", p')
       | None => match try_consume_char ">" p with Some p' => Some (">", p') | None => None end
       end.

Fixpoint consume_digits (fuel : nat) (p : Parser) : string * Parser :=
  match fuel with
  | O => (EmptyString, p)
  | S k =>
    match next_char (rest p) with
    | Some (c, r) =>
      if is_ascii_digit c
      then let '(s, p') := consume_digits k (move (String.length c) r p) in (c +:+ s, p')
      else (EmptyString, p)
    | None => (EmptyString, p)
    end
  end.
Definition digits (p : Parser) : string * Parser := consume_digits (String.length (rest p)) p.

Definition parse_comparison_rhs (p : Parser) : option string * Parser :=
  let start := skip_whitespace p in
  let '(sign, p1) :=
    match try_consume_char "-" start with
    | Some p' => ("-", p')
    | None => match try_consume_char "+" start with Some p' => ("+", p') | None => (EmptyString, start) end
    end in
  let '(number, p2) := digits p1 in
  if negb (String.eqb number EmptyString) then (Some (sign +:+ number), p2)
  else match consume_keyword "true" start with
       | Some p' => (Some "true", p')
       | None =>
         match consume_keyword "false" start with
         | Some p' => (Some "false", p')
         | None => parse_identifier start
         end
       end.

Definition try_consume_addend (p : Parser) : option (string * Parser) :=
  let p1 := skip_whitespace p in
  let* p2 := try_consume_char "+" p1 in
  let '(number, p3) := digits (skip_whitespace p2) in
  if String.eqb number EmptyString then None else Some (" + " +:+ number, p3).

(** ** Guards *)

Record GuardSeen := {
  seen_labels : bool; seen_req_cur : bool; seen_forb_cur : bool; seen_req_next : bool;
  seen_forb_next : bool; seen_ctrl : bool; seen_steps : bool
}.
Definition GuardSeen_none : GuardSeen :=
  {| seen_labels := false; seen_req_cur := false; seen_forb_cur := false; seen_req_next := false;
     seen_forb_next := false; seen_ctrl := false; seen_steps := false |}.

Definition extend_labels (g : Guard) (l : list string) : Guard :=
  {| g_labels := g_labels g ++ l; g_current := g_current g; g_next := g_next g;
     g_control := g_control g; max_steps := max_steps g |}.
Definition extend_current (g : Guard) (req forb : list string) : Guard :=
  {| g_labels := g_labels g;
     g_current := {| required := required (g_current g) ++ req; forbidden := forbidden (g_current g) ++ forb |};
     g_next := g_next g; g_control := g_control g; max_steps := max_steps g |}.
Definition extend_next (g : Guard) (req forb : list string) : Guard :=
  {| g_labels := g_labels g; g_current := g_current g;
     g_next := {| required := required (g_next g) ++ req; forbidden := forbidden (g_next g) ++ forb |};
     g_control := g_control g; max_steps := max_steps g |}.
Definition set_steps (g : Guard) (n : nat) : Guard :=
  {| g_labels := g_labels g; g_current := g_current g; g_next := g_next g;
     g_control := g_control g; max_steps := Some n |}.

(** A set literal: what stands between the first [{] and the last [}], split at
    commas and white space. *)
Definition parse_set (raw : string) : list string :=
  let value := before_last "}" (after_first "{" (trim raw)) in
  omap (λ s, let t := trim s in if String.eqb t EmptyString then None else Some t)
    (split (λ c, String.eqb c "," || is_whitespace c) value).

Definition parse_control (raw : string) (at_pos : nat) : ParseError + Control :=
  let v := to_ascii_lowercase (trim raw) in
  if String.eqb v "all" then inr Control_All
  else if existsb (String.eqb v) ["controllable"; "controller"] then inr Controllable
  else if existsb (String.eqb v) ["environment"; "env"] then inr Environment
  else inl (Unexpected at_pos ("unknown controllability `" +:+ v +:+ "`")).

Definition ensure_once (flag : bool) (field : string) (at_pos : nat) : option ParseError :=
  if flag then Some (DuplicateGuardField field at_pos) else None.

Definition Component : Type := ParseError + (Guard * GuardSeen).

(** One field given once: [update] is the guard it makes. *)
Definition apply_field (flag : bool) (field : string) (at_pos : nat) (seen' : GuardSeen)
    (update : ParseError + Guard) : Component :=
  match ensure_once flag field at_pos with
  | Some e => inl e
  | None => match update with inl e => inl e | inr g => inr (g, seen') end
  end.

Definition parse_steps (p : Parser) (trimmed : string) (guard : Guard) : ParseError + Guard :=
  let r0 := trim_start (drop_bytes 5 trimmed) in
  let remainder := match strip_prefix ":" r0 with Some r => trim_start r | None => r0 end in
  if String.eqb remainder EmptyString then
    inl (Unexpected (pos p) "expected comparator for steps bound")
  else
    match (match strip_prefix "<=" remainder with
           | Some s => Some (trim_start s)
           | None => match strip_prefix "=" remainder with Some s => Some (trim_start s) | None => None end
           end) with
    | None => inl (Unexpected (pos p)
        ("unsupported steps comparator in `" +:+ trimmed +:+ "`; expected `steps <= N`"))
    | Some value_str =>
      if String.eqb value_str EmptyString then
        inl (Unexpected (pos p) "missing numeric value for steps bound")
      else
        let this c := λ d, String.eqb d c in
        let value_clean := trim (trim_end_matches (this ";") (trim_end_matches (this "}")
          (trim_start_matches (this "{") (trim value_str)))) in
        match parse_u32 value_clean with
        | None => inl (Unexpected (pos p) ("invalid steps bound `" +:+ value_clean +:+ "`"))
        | Some n => inr (set_steps guard n)
        end
    end.

Definition apply_guard_component (p : Parser) (component : string) (guard : Guard) (seen : GuardSeen)
    : Component :=
  let '(Build_GuardSeen sl src sfc srn sfn sc ss) := seen in
  let trimmed := trim component in
  if String.eqb trimmed EmptyString then inr (guard, seen)
  else if starts_with "steps" (to_ascii_lowercase trimmed) then
    apply_field ss "steps" (pos p) (Build_GuardSeen sl src sfc srn sfn sc true)
      (parse_steps p trimmed guard)
  else
    match split_once trimmed "=" with
    | None => inr (extend_labels guard (parse_set trimmed), seen)
    | Some (key, value) =>
      let field := trim key in
      let key_norm := to_ascii_lowercase field in
      let is_one := λ l, existsb (String.eqb key_norm) l in
      if is_one ["labels"; "label"; "alphabet"] then
        apply_field sl field (pos p) (Build_GuardSeen true src sfc srn sfn sc ss)
          (inr (extend_labels guard (parse_set value)))
      else if is_one ["req_cur"; "require"; "require_current"] then
        apply_field src field (pos p) (Build_GuardSeen sl true sfc srn sfn sc ss)
          (inr (extend_current guard (parse_set value) []))
      else if is_one ["forb_cur"; "forbid_current"] then
        apply_field sfc field (pos p) (Build_GuardSeen sl src true srn sfn sc ss)
          (inr (extend_current guard [] (parse_set value)))
      else if is_one ["req_next"; "require_next"] then
        apply_field srn field (pos p) (Build_GuardSeen sl src sfc true sfn sc ss)
          (inr (extend_next guard (parse_set value) []))
      else if is_one ["forb_next"; "forbid_next"] then
        apply_field sfn field (pos p) (Build_GuardSeen sl src sfc srn true sc ss)
          (inr (extend_next guard [] (parse_set value)))
      else if is_one ["ctrl"; "control"; "controllability"] then
        apply_field sc field (pos p) (Build_GuardSeen sl src sfc srn sfn true ss)
          (match parse_control value (pos p) with
           | inl e => inl e
           | inr c => inr (with_control guard c)
           end)
      else inl (error_here p (UnexpectedGuardKey key_norm))
    end.

(** The text up to one of the delimiters outside braces. *)
Fixpoint component_loop (fuel depth_brace : nat) (delimiters : list char) (p : Parser) : string * Parser :=
  match fuel with
  | O => (EmptyString, p)
  | S k =>
    match next_char (rest p) with
    | None => (EmptyString, p)
    | Some (c, r) =>
      if (depth_brace =? 0) && existsb (String.eqb c) delimiters then (EmptyString, p)
      else
        let depth' := if String.eqb c "{" then depth_brace + 1
                      else if String.eqb c "}" && (0 <? depth_brace) then depth_brace - 1
                      else depth_brace in
        let '(s, p') := component_loop k depth' delimiters (move (String.length c) r p) in (c +:+ s, p')
    end
  end.
Definition read_component (delimiters : list char) (p : Parser) : string * Parser :=
  let '(s, p') := component_loop (String.length (rest p)) 0 delimiters p in (trim s, p').

Fixpoint until_loop (fuel : nat) (closing : char) (p : Parser) : string * Parser :=
  match fuel with
  | O => (EmptyString, p)
  | S k =>
    match next_char (rest p) with
    | None => (EmptyString, p)
    | Some (c, r) =>
      if String.eqb c closing then (EmptyString, p)
      else let '(s, p') := until_loop k closing (move (String.length c) r p) in (c +:+ s, p')
    end
  end.
Definition read_until (closing : char) (p : Parser) : string * Parser :=
  until_loop (String.length (rest p)) closing p.

(** The parenthesised components.  A round reads a component up to a delimiter
    and the delimiter; a component that cannot be read ends the loop. *)
Fixpoint components (fuel : nat) (guard : Guard) (seen : GuardSeen) (p : Parser) : Outcome Guard :=
  match fuel with
  | O => NoFuel
  | S k =>
    let p := skip_whitespace p in
    match try_consume_char ")" p with
    | Some p' => Ok guard p'
    | None =>
      let '(component, p) := read_component [","; ")"] p in
      match apply_guard_component p component guard seen with
      | inl e => Err e
      | inr (guard', seen') =>
        let p := skip_whitespace p in
        match try_consume_char "," p with
        | Some p' => components k guard' seen' p'
        | None =>
          match try_consume_char ")" p with
          | Some p' => Ok guard' p'
          | None => match peek_char p with
                    | Some _ => Err (error_here p (Expected "`)` or `,`"))
                    | None => Err UnexpectedEof
                    end
          end
        end
      end
    end
  end.

Definition parse_guard (closing : char) (p : Parser) : Outcome Guard :=
  let p := skip_whitespace p in
  match try_consume_char closing p with
  | Some p' => Ok Guard_default p'
  | None =>
    let p := skip_whitespace p in
    let! (guard, p) :=
      match try_consume_char "(" p with
      | Some p' => components (S (String.length (rest p'))) Guard_default GuardSeen_none p'
      | None =>
        let '(component, p') := read_until closing p in
        match apply_guard_component p' (trim component) Guard_default GuardSeen_none with
        | inl e => Err e
        | inr (guard, _) => Ok guard p'
        end
      end in
    let! (found, p) := expect_char closing (skip_whitespace p) in
    Ok guard p
  end.

(** ** The grammar *)

Section grammar.
Variables (rec_unary rec_or : Parser → Outcome NodeId).

Definition parse_fixpoint (mk : FormulaVarId → NodeId → Node) (p : Parser) : Outcome NodeId :=
  match parse_identifier (skip_whitespace p) with
  | (None, p) => Err (error_here p (Expected "fixpoint variable"))
  | (Some name, p) =>
    let! (dot, p) := expect_char "." (skip_whitespace p) in
    let '(var_id, b) := push_var (p_builder p) name in
    let outer := binder_stack p in
    let! (body, p) := rec_or (with_stack ({| b_name := name; b_id := var_id |} :: outer) (with_builder b p)) in
    push (mk var_id body) (with_stack outer p)
  end.

Definition parse_modal (kind : ModalKind) (closing : char) (p : Parser) : Outcome NodeId :=
  let! (guard, p) := parse_guard closing p in
  let! (target, p) := rec_unary p in
  push (NModal kind guard target) p.

Definition parse_atom (identifier : string) (p : Parser) : Outcome NodeId :=
  match lookup_binder p identifier with
  | Some var_id => push (NVariable var_id) p
  | None =>
    let p := skip_whitespace p in
    match try_consume_comparison_op p with
    | None => push (NPredicate identifier) p
    | Some (op, p) =>
      match parse_comparison_rhs (skip_whitespace p) with
      | (None, p) => Err (error_here p (Expected "comparison rhs"))
      | (Some rhs, p) =>
        let full := identifier +:+ " " +:+ op +:+ " " +:+ rhs in
        let starts_ident := match next_char rhs with Some (c, _) => is_ident_start c | None => false end in
        match (if starts_ident then try_consume_addend p else None) with
        | Some (addend, p) => push (NPredicate (full +:+ addend)) p
        | None => push (NPredicate full) p
        end
      end
    end
  end.

Definition parse_primary (p : Parser) : Outcome NodeId :=
  let p := skip_whitespace p in
  match try_consume_char "(" p with
  | Some p =>
    let! (node, p) := rec_or p in
    let! (closed, p) := expect_char ")" (skip_whitespace p) in
    Ok node p
  | None =>
    match consume_keyword "true" p with
    | Some p => push NTrue p
    | None =>
      match consume_keyword "false" p with
      | Some p => push NFalse p
      | None =>
        match parse_identifier p with
        | (Some identifier, p) => parse_atom identifier p
        | (None, p) => Err (error_here p (Expected "formula"))
        end
      end
    end
  end.

Definition parse_unary_inner (p : Parser) : Outcome NodeId :=
  let p := skip_whitespace p in
  match try_consume_not p with
  | Some p =>
    let! (operand, p) := rec_unary p in
    push (NNot operand) p
  | None =>
    match or_else (consume_keyword "mu" p) (try_consume_char "μ" p) with
    | Some p => parse_fixpoint NMu p
    | None =>
      match or_else (consume_keyword "nu" p) (try_consume_char "ν" p) with
      | Some p => parse_fixpoint NNu p
      | None =>
        match try_consume_char "[" p with
        | Some p => parse_modal Box "]" p
        | None =>
          match try_consume_char "⟨" p with
          | Some p => parse_modal Diamond "⟩" p
          | None =>
            match try_consume_char "<" p with
            | Some p => parse_modal Diamond ">" p
            | None => parse_primary p
            end
          end
        end
      end
    end
  end.
End grammar.

(** A binary chain: [op]s between [item]s, associated to the left. *)
Section chain.
Variables (item : Parser → Outcome NodeId) (op : Parser → option Parser)
  (mk : NodeId → NodeId → Node).

Fixpoint chain_loop (fuel : nat) (left : NodeId) (p : Parser) : Outcome NodeId :=
  match fuel with
  | O => NoFuel
  | S k =>
    let p := skip_whitespace p in
    match op p with
    | Some p =>
      let! (right, p) := item p in
      let! (left', p) := push (mk left right) p in
      chain_loop k left' p
    | None => Ok left p
    end
  end.

Definition chain (fuel : nat) (p : Parser) : Outcome NodeId :=
  let! (left, p) := item p in chain_loop fuel left p.
End chain.

(** Every round of a chain consumes its operator, and every nested call at
    least a character: the bytes left bound both. *)
Fixpoint parse_unary (fuel : nat) (p : Parser) : Outcome NodeId :=
  match fuel with
  | O => NoFuel
  | S k =>
    let outer := depth p in
    let p := with_depth (outer + 1) p in
    if MAX_PARSE_DEPTH <? depth p then
      Err (error_here p (Expected "expression (maximum nesting depth exceeded)"))
    else
      let rec_and := λ p, chain (parse_unary k) try_consume_and NAnd (S (String.length (rest p))) p in
      let rec_or := λ p, chain rec_and try_consume_or NOr (S (String.length (rest p))) p in
      let! (id, p) := parse_unary_inner (parse_unary k) rec_or p in
      Ok id (with_depth (depth p - 1) p)
  end.

Definition parse_and (fuel : nat) (p : Parser) : Outcome NodeId :=
  chain (parse_unary fuel) try_consume_and NAnd (S (String.length (rest p))) p.
Definition parse_or (fuel : nat) (p : Parser) : Outcome NodeId :=
  chain (parse_and fuel) try_consume_or NOr (S (String.length (rest p))) p.
Definition parse_formula (fuel : nat) (p : Parser) : Outcome NodeId := parse_or fuel p.

Definition parse (input : string) : Outcome Formula :=
  let! (root, p) := parse_formula (S (String.length input)) (Parser_new input) in
  let p := skip_whitespace p in
  if String.eqb (rest p) EmptyString then Ok (into_formula (p_builder p) root) p
  else Err (error_here p UnexpectedTrailing).
End parser.

(** ** Tokens leave the arena alone *)

(** [p'] is [p] after at least [n] more bytes. *)
Record token (n : nat) (p p' : Parser) : Prop := {
  tk_builder : p_builder p' = p_builder p;
  tk_stack : binder_stack p' = binder_stack p;
  tk_depth : depth p' = depth p;
  tk_rest : String.length (rest p') + n ≤ String.length (rest p)
}.

Lemma token_refl p : token 0 p p.
Proof. split; try done. lia. Qed.

Lemma token_trans m n p q r : token m p q → token n q r → token (m + n) p r.
Proof. intros [] []. split; try congruence. lia. Qed.

Lemma token_le m n p q : token m p q → n ≤ m → token n p q.
Proof. intros [] ?. split; try done. lia. Qed.

Lemma token_move n p r : String.length r + n ≤ String.length (rest p) → token n p (move n r p).
Proof. by split. Qed.

Section tokens.
Context {U : Unicode}.

Lemma skip_loop_token fuel p : token 0 p (skip_loop fuel p).
Proof using Type.
  revert p. induction fuel as [|k IH]; intros p; [apply token_refl|]. cbn [skip_loop].
  destruct (next_char (rest p)) as [[c r]|] eqn:E; [|apply token_refl].
  destruct (is_whitespace c); [|apply token_refl].
  apply next_char_length in E as [E ?].
  eapply (token_trans 0 0); [|apply IH]. split; try done. simpl. lia.
Qed.

Lemma skip_whitespace_token p : token 0 p (skip_whitespace p).
Proof using Type. apply skip_loop_token. Qed.

Lemma try_consume_str_token s p p' :
  try_consume_str s p = Some p' → token (String.length s) p p'.
Proof using Type.
  unfold try_consume_str. destruct (strip_prefix s (rest p)) as [r|] eqn:E; [|done].
  intros [= <-]. apply strip_prefix_length in E. apply token_move. lia.
Qed.

Lemma strip_prefix_lower kw s r :
  strip_prefix kw (to_ascii_lowercase s) = Some r → String.length kw ≤ String.length s.
Proof using Type. intros H%strip_prefix_length. rewrite length_lowercase in H. lia. Qed.

Lemma consume_keyword_token kw p p' :
  consume_keyword kw p = Some p' → token (String.length kw) p p'.
Proof using Type.
  unfold consume_keyword, starts_with.
  destruct (strip_prefix kw (to_ascii_lowercase (rest p))) as [r|] eqn:E; [|done].
  apply strip_prefix_lower in E. destruct (next_continues _); [done|]. intros [= <-].
  apply token_move. rewrite length_drop_bytes. lia.
Qed.

Lemma or_else_some a b p : or_else a b = Some p → a = Some p ∨ b = Some p.
Proof using Type. destruct a; simpl; auto. Qed.

(** An operator consumes a byte. *)
Lemma operator_token p p' :
  try_consume_not p = Some p' ∨ try_consume_and p = Some p' ∨ try_consume_or p = Some p' →
  token 1 p p'.
Proof using Type.
  unfold try_consume_not, try_consume_and, try_consume_or, try_consume_char.
  intros [H|[H|H]]; repeat (apply or_else_some in H; destruct H as [H|H]);
    (apply try_consume_str_token in H || apply consume_keyword_token in H);
    eapply token_le; try exact H; simpl; lia.
Qed.

Lemma parse_identifier_token p o p' :
  parse_identifier p = (o, p') → token (if o then 1 else 0) p p'.
Proof using Type.
  unfold parse_identifier. pose proof (skip_whitespace_token p) as Hs.
  destruct (next_char (rest (skip_whitespace p))) as [[c r]|] eqn:E; [|by intros [= <- <-]].
  destruct (is_ident_start c); [|by intros [= <- <-]]. intros [= <- <-].
  apply next_char_length in E as [E ?]. eapply (token_trans 0 1); [exact Hs|].
  split; try done. simpl. rewrite length_drop_bytes. lia.
Qed.

Lemma consume_digits_token fuel p : token 0 p (consume_digits fuel p).2.
Proof using Type.
  revert p. induction fuel as [|k IH]; intros p; [apply token_refl|]. cbn [consume_digits].
  destruct (next_char (rest p)) as [[c r]|] eqn:E; [|apply token_refl].
  destruct (is_ascii_digit c); [|apply token_refl].
  apply next_char_length in E as [E ?].
  pose proof (IH (move (String.length c) r p)) as Hk. destruct (consume_digits k _) as [s p']. simpl in *.
  eapply (token_trans 0 0); [|exact Hk]. split; try done. simpl. lia.
Qed.

Lemma comparison_op_token p o p' : try_consume_comparison_op p = Some (o, p') → token 0 p p'.
Proof using Type.
  unfold try_consume_comparison_op. destruct (existsb _ _).
  { intros [= <- <-]. pose proof (length_drop_bytes 2 (rest p)). split; try done. simpl rest in *. simpl in *. lia. }
  destruct (try_consume_char "<" p) eqn:E1.
  { intros [= <- <-]. by apply try_consume_str_token, (token_le _ 0) in E1; [|simpl; lia]. }
  destruct (try_consume_char ">" p) eqn:E2; [|done].
  intros [= <- <-]. by apply try_consume_str_token, (token_le _ 0) in E2; [|simpl; lia].
Qed.

Lemma comparison_rhs_token p o p' : parse_comparison_rhs p = (o, p') → token 0 p p'.
Proof using Type.
  unfold parse_comparison_rhs. set (start := skip_whitespace p).
  assert (Hs : token 0 p start) by apply skip_whitespace_token.
  set (signed := match try_consume_char "-" start with Some p' => _ | None => _ end).
  assert (Hsign : token 0 start signed.2).
  { subst signed. destruct (try_consume_char "-" start) eqn:E1.
    { apply try_consume_str_token in E1. eapply token_le; [exact E1|lia]. }
    destruct (try_consume_char "+" start) eqn:E2; [|apply token_refl].
    apply try_consume_str_token in E2. eapply token_le; [exact E2|lia]. }
  destruct signed as [sign p1]. simpl in Hsign. unfold digits.
  pose proof (consume_digits_token (String.length (rest p1)) p1) as Hd.
  destruct (consume_digits _ p1) as [number p2]. simpl in Hd.
  destruct (negb _).
  { intros [= <- <-]. apply (token_trans 0 0 p start); [done|]. by apply (token_trans 0 0 start p1). }
  destruct (consume_keyword "true" start) eqn:E1.
  { intros [= <- <-]. apply consume_keyword_token in E1. eapply token_le; [by eapply token_trans|lia]. }
  destruct (consume_keyword "false" start) eqn:E2.
  { intros [= <- <-]. apply consume_keyword_token in E2. eapply token_le; [by eapply token_trans|lia]. }
  intros H%parse_identifier_token. eapply token_le; [by eapply token_trans|lia].
Qed.

Lemma addend_token p o p' : try_consume_addend p = Some (o, p') → token 0 p p'.
Proof using Type.
  unfold try_consume_addend, digits. pose proof (skip_whitespace_token p) as Hs.
  destruct (try_consume_char "+" (skip_whitespace p)) as [p2|] eqn:E; [|done].
  apply try_consume_str_token in E. pose proof (skip_whitespace_token p2) as Hs2.
  pose proof (consume_digits_token (String.length (rest (skip_whitespace p2))) (skip_whitespace p2)) as Hd.
  destruct (consume_digits _ _) as [n p3]. simpl in Hd. destruct (String.eqb n ""); [done|].
  intros [= <- <-]. eapply token_le; [|apply Nat.le_0_l].
  eapply token_trans; [exact Hs|]. eapply token_trans; [exact E|]. by eapply token_trans.
Qed.

Lemma component_loop_token fuel d ds p : token 0 p (component_loop fuel d ds p).2.
Proof using Type.
  revert d p. induction fuel as [|k IH]; intros d p; [apply token_refl|]. cbn [component_loop].
  destruct (next_char (rest p)) as [[c r]|] eqn:E; [|apply token_refl].
  destruct (_ && _); [apply token_refl|]. set (d' := if String.eqb c "{" then _ else _).
  apply next_char_length in E as [E ?].
  pose proof (IH d' (move (String.length c) r p)) as Hk. destruct (component_loop k _ _ _) as [s p'].
  simpl in *. eapply (token_trans 0 0); [|exact Hk]. split; try done. simpl. lia.
Qed.

Lemma until_loop_token fuel c p : token 0 p (until_loop fuel c p).2.
Proof using Type.
  revert p. induction fuel as [|k IH]; intros p; [apply token_refl|]. cbn [until_loop].
  destruct (next_char (rest p)) as [[d r]|] eqn:E; [|apply token_refl].
  destruct (String.eqb d c); [apply token_refl|]. apply next_char_length in E as [E ?].
  pose proof (IH (move (String.length d) r p)) as Hk. destruct (until_loop k _ _) as [s p'].
  simpl in *. eapply (token_trans 0 0); [|exact Hk]. split; try done. simpl. lia.
Qed.

(** A token that may be refused, and never runs out of fuel. *)
Definition reads {A} (n : nat) (p : Parser) (r : Outcome A) : Prop :=
  match r with Ok _ p' => token n p p' | Err _ => True | NoFuel => False end.

Lemma reads_from {A} m n k p q (r : Outcome A) : token m p q → reads n q r → k ≤ m + n → reads k p r.
Proof using Type.
  destruct r as [a p'| |]; simpl; try done. intros. eapply token_le; [by eapply token_trans|done].
Qed.

Lemma expect_char_reads c p : reads (String.length c) p (expect_char c p).
Proof using Type.
  unfold expect_char. pose proof (skip_whitespace_token p) as Hs.
  destruct (try_consume_char c (skip_whitespace p)) as [p'|] eqn:E; [|done].
  apply try_consume_str_token in E. simpl. by apply (token_trans 0 _ p (skip_whitespace p)).
Qed.

Lemma components_reads fuel g seen p :
  String.length (rest p) < fuel → reads 0 p (components fuel g seen p).
Proof using Type.
  revert g seen p. induction fuel as [|k IH]; intros g seen p Hlt; [lia|]. cbn [components].
  pose proof (skip_whitespace_token p) as Hs. set (p1 := skip_whitespace p) in *.
  destruct (try_consume_char ")" p1) as [p'|] eqn:E.
  { apply try_consume_str_token in E. simpl. eapply token_le; [by eapply token_trans|lia]. }
  unfold read_component. pose proof (component_loop_token (String.length (rest p1)) 0 [","; ")"] p1) as Hc.
  destruct (component_loop _ _ _ p1) as [s p2]. simpl in Hc.
  destruct (apply_guard_component p2 (trim s) g seen) as [e|[g' seen']]; [done|].
  pose proof (skip_whitespace_token p2) as Hs2. set (p3 := skip_whitespace p2) in *.
  pose proof (token_trans _ _ _ _ _ (token_trans _ _ _ _ _ Hs Hc) Hs2) as H3.
  destruct (try_consume_char "," p3) as [p4|] eqn:E4.
  { apply try_consume_str_token in E4. pose proof (token_trans _ _ _ _ _ H3 E4) as H4.
    eapply reads_from; [exact H4|apply IH|lia]. destruct H4. simpl in *. lia. }
  destruct (try_consume_char ")" p3) as [p4|] eqn:E5; [|by destruct (peek_char p3)].
  apply try_consume_str_token in E5. simpl. eapply token_le; [by eapply token_trans|lia].
Qed.

Lemma parse_guard_reads closing p : reads (String.length closing) p (parse_guard closing p).
Proof using Type.
  unfold parse_guard. pose proof (skip_whitespace_token p) as Hs. set (p1 := skip_whitespace p) in *.
  destruct (try_consume_char closing p1) as [p'|] eqn:E.
  { apply try_consume_str_token in E. simpl. by apply (token_trans 0 _ p p1). }
  pose proof (skip_whitespace_token p1) as Hs2. set (p2 := skip_whitespace p1) in *.
  set (body := match try_consume_char "(" p2 with Some p' => _ | None => _ end).
  assert (Hbody : reads 0 p2 body).
  { subst body. destruct (try_consume_char "(" p2) as [p'|] eqn:E2.
    - apply try_consume_str_token in E2. eapply reads_from; [exact E2|apply components_reads; lia|lia].
    - unfold read_until. pose proof (until_loop_token (String.length (rest p2)) closing p2) as Hu.
      destruct (until_loop _ closing p2) as [s p3]. simpl in Hu.
      by destruct (apply_guard_component p3 (trim s) _ _) as [e|[g' seen']]. }
  destruct body as [g p3| |]; [|done..]. simpl in Hbody.
  pose proof (skip_whitespace_token p3) as Hs3.
  pose proof (expect_char_reads closing (skip_whitespace p3)) as He.
  destruct (expect_char closing (skip_whitespace p3)) as [[] p4| |]; [|done..]. simpl in *.
  pose proof (token_trans _ _ _ _ _ (token_trans _ _ _ _ _ (token_trans _ _ _ _ _ Hs Hs2) Hbody) Hs3) as H3.
  eapply token_le; [by eapply token_trans|lia].
Qed.
End tokens.

(** ** What a construct builds *)

Record parser_ok (p : Parser) : Prop := {
  pk_arena : wf_arena (b_nodes (p_builder p));
  pk_stack : Forall (λ b, b_id b < length (b_vars (p_builder p))) (binder_stack p)
}.

(** The variables of a tree built over the table from [lo] to [hi]: each binder
    has a new entry of its own, the free variables are in scope. *)
Record scoped (lo hi : nat) (stack : list Binder) (t : Tree) : Prop := {
  sc_binders : NoDup (bound_vars t);
  sc_fresh : ∀ v, v ∈ bound_vars t → lo ≤ v < hi;
  sc_free : ∀ v, v ∈ free_vars t → v ∈ map b_id stack
}.

Definition table (p : Parser) : nat := length (b_vars (p_builder p)).

(** [p'] is [p] after at least [n] bytes, with new nodes and variables. *)
Record extends (n : nat) (p p' : Parser) : Prop := {
  ex_arena : wf_arena (b_nodes (p_builder p'));
  ex_nodes : ∃ ext, b_nodes (p_builder p') = b_nodes (p_builder p) ++ ext;
  ex_vars : ∃ ext, b_vars (p_builder p') = b_vars (p_builder p) ++ ext;
  ex_stack : binder_stack p' = binder_stack p;
  ex_depth : depth p' = depth p;
  ex_rest : String.length (rest p') + n ≤ String.length (rest p)
}.

Definition built (n : nat) (p : Parser) (id : NodeId) (t : Tree) (p' : Parser) : Prop :=
  extends n p p' ∧ repr (b_nodes (p_builder p')) id t ∧ scoped (table p) (table p') (binder_stack p) t.

(** A construct that builds a node, is refused, and never runs out of fuel. *)
Definition builds_node (n : nat) (p : Parser) (r : Outcome NodeId) : Prop :=
  match r with Ok id p' => ∃ t, built n p id t p' | Err _ => True | NoFuel => False end.

Lemma token_extends n p p' : wf_arena (b_nodes (p_builder p)) → token n p p' → extends n p p'.
Proof.
  intros Hw [Hb Hs Hd Hr]. split; rewrite ?Hb; try done; exists []; by rewrite app_nil_r.
Qed.

Lemma extends_then m n p q r : extends m p q → extends n q r → extends (m + n) p r.
Proof.
  intros [_ [e1 H1] [e2 H2] ? ? ?] [? [e3 H3] [e4 H4] ? ? ?]. split; try done; try congruence; try lia.
  - exists (e1 ++ e3). by rewrite H3, H1, app_assoc.
  - exists (e2 ++ e4). by rewrite H4, H2, app_assoc.
Qed.

Lemma extends_table n p p' : extends n p p' → table p ≤ table p'.
Proof. intros [_ _ [e He] _ _ _]. unfold table. rewrite He, length_app. lia. Qed.

Lemma extends_ok n p p' : parser_ok p → extends n p p' → parser_ok p'.
Proof.
  intros [Hw Hs] He. pose proof (extends_table _ _ _ He). destruct He as [? _ _ Hst _ _]. split; [done|].
  rewrite Hst. eapply Forall_impl; [exact Hs|]. unfold table in *. simpl. lia.
Qed.

Lemma token_ok n p p' : parser_ok p → token n p p' → parser_ok p'.
Proof. intros [? ?] [Hb Hs _ _]. by split; rewrite ?Hb, ?Hs. Qed.

Lemma extends_le m n p q : extends m p q → n ≤ m → extends n p q.
Proof. intros [] ?. split; try done. lia. Qed.

Lemma scoped_widen lo hi lo' hi' st t : scoped lo hi st t → lo' ≤ lo → hi ≤ hi' → scoped lo' hi' st t.
Proof. intros [? Hf ?] ? ?. split; try done. intros v Hv. specialize (Hf v Hv). lia. Qed.

(** A construct read after a token, or inside an extension. *)
Lemma builds_from m n k p q r :
  parser_ok p → token m p q → builds_node n q r → k ≤ m + n → builds_node k p r.
Proof.
  intros [Hw _] Ht Hb Hk. destruct r as [id p'| |]; simpl in *; try done.
  destruct Hb as (t & He & Hr & Hs). exists t. split_and!; [|done|].
  - eapply extends_le; [eapply extends_then; [by apply token_extends|exact He]|done].
  - destruct Ht as [Hb Hst _ _]. unfold table in *. by rewrite <-Hb, <-Hst.
Qed.

Lemma push_extends n p : parser_ok p → Forall (λ c, c < length (b_nodes (p_builder p))) (children n) →
  ∃ p', push n p = Ok (length (b_nodes (p_builder p))) p' ∧ extends 0 p p' ∧ table p' = table p ∧
    b_nodes (p_builder p') = b_nodes (p_builder p) ++ [n].
Proof.
  intros [Hw Hs] Hc. unfold push, push_node. eexists. split_and!; [done| |done|done].
  split; simpl; try done; [by apply wf_arena_push|by eexists|exists []; by rewrite app_nil_r|lia].
Qed.

Lemma push_builds n p q node t :
  extends n p q → parser_ok p → Forall (λ c, c < length (b_nodes (p_builder q))) (children node) →
  node_tree (b_nodes (p_builder q)) node t → scoped (table p) (table q) (binder_stack p) t →
  builds_node n p (push node q).
Proof.
  intros He Hok Hc Hn Hs.
  destruct (push_extends node q (extends_ok _ _ _ Hok He) Hc) as (q' & -> & He' & Ht & Hq').
  exists t. split_and!.
  - eapply extends_le; [by eapply extends_then|lia].
  - apply Hn; rewrite Hq'; [apply lookup_push|by eexists].
  - by rewrite Ht.
Qed.

(** Two operands, one after the other. *)
Lemma scoped_pair lo mid hi st l r :
  scoped lo mid st l → scoped mid hi st r → lo ≤ mid → mid ≤ hi →
  NoDup (bound_vars l ++ bound_vars r) ∧ (∀ v, v ∈ bound_vars l ++ bound_vars r → lo ≤ v < hi) ∧
  (∀ v, v ∈ free_vars l ∪ free_vars r → v ∈ map b_id st).
Proof.
  intros [Hl1 Hl2 Hl3] [Hr1 Hr2 Hr3] ? ?. split_and!.
  - apply NoDup_app. split_and!; try done. intros v H1 H2. specialize (Hl2 v H1). specialize (Hr2 v H2). lia.
  - intros v [Hv|Hv]%elem_of_app; [specialize (Hl2 v Hv)|specialize (Hr2 v Hv)]; lia.
  - intros v [Hv|Hv]%elem_of_union; auto.
Qed.

Section chains.
Variables (item : Parser → Outcome NodeId) (op : Parser → option Parser)
  (mk : NodeId → NodeId → Node) (tmk : Tree → Tree → Tree) (n : nat).
Context {U : Unicode}.
Hypothesis item_builds : ∀ p, parser_ok p → String.length (rest p) ≤ n → builds_node 1 p (item p).
Hypothesis op_token : ∀ p p', op p = Some p' → token 1 p p'.
Hypothesis mk_tree : ∀ c d t u ns, children (mk c d) = [c; d] ∧
  (repr ns c t → repr ns d u → node_tree ns (mk c d) (tmk t u)).
Hypothesis mk_vars : ∀ t u, bound_vars (tmk t u) = bound_vars t ++ bound_vars u ∧
  free_vars (tmk t u) = free_vars t ∪ free_vars u.

Lemma chain_loop_builds fuel p left t q :
  parser_ok p → String.length (rest p) ≤ n → built 1 p left t q → String.length (rest q) < fuel →
  builds_node 1 p (chain_loop item op mk fuel left q).
Proof using All.
  intros Hp Hn. revert left t q. induction fuel as [|k IH]; intros left t q (He & Hr & Hs) Hf; [lia|].
  cbn [chain_loop]. pose proof (extends_ok _ _ _ Hp He) as Hq.
  pose proof (skip_whitespace_token q) as Hw. set (q1 := skip_whitespace q) in *.
  pose proof (token_ok _ _ _ Hq Hw) as Hq1.
  destruct (op q1) as [q2|] eqn:Eo.
  2:{ exists t. destruct Hw as [Hb Hst Hd Hl]. split_and!.
      - eapply extends_le; [eapply extends_then; [exact He|]|lia].
        apply token_extends; [apply Hq|]. by split.
      - by rewrite Hb.
      - unfold table. by rewrite Hb. }
  apply op_token in Eo. pose proof (token_trans _ _ _ _ _ Hw Eo) as H2.
  pose proof (token_ok _ _ _ Hq H2) as Hq2. destruct H2 as [Hb2 Hst2 Hd2 Hl2].
  assert (Hlen : String.length (rest q2) ≤ n) by (destruct He; simpl in *; lia).
  pose proof (item_builds q2 Hq2 Hlen) as Hi. destruct (item q2) as [right q3| |]; [|done..].
  destruct Hi as (u & He3 & Hr3 & Hs3).
  assert (He' : extends 1 p q3).
  { eapply extends_le; [eapply extends_then; [exact He|eapply extends_then; [|exact He3]]|].
    - apply (token_extends (0 + 1)); [apply Hq|]. by split.
    - lia. }
  assert (Hr' : repr (b_nodes (p_builder q3)) left t).
  { eapply repr_ext; [exact Hr|]. rewrite <-Hb2. apply He3. }
  destruct (mk_tree left right t u (b_nodes (p_builder q3))) as [Hc Ht].
  assert (Hbuild : builds_node 1 p (push (mk left right) q3)).
  { apply (push_builds 1 p q3 _ (tmk t u)); auto.
    - rewrite Hc. apply repr_lt in Hr', Hr3. by repeat constructor.
    - destruct (mk_vars t u) as [Ebv Efv].
      assert (Hst : binder_stack q2 = binder_stack p) by (rewrite Hst2; apply He).
      assert (Htb : table q2 = table q) by (unfold table; by rewrite Hb2).
      rewrite Hst, Htb in Hs3. pose proof (extends_table _ _ _ He). pose proof (extends_table _ _ _ He3).
      destruct (scoped_pair (table p) (table q) (table q3) _ t u Hs Hs3 ltac:(lia) ltac:(lia)) as (? & ? & ?).
      split; by rewrite ?Ebv, ?Efv. }
  destruct (push (mk left right) q3) as [id q4| |] eqn:Ep; [|done..].
  destruct Hbuild as (w & Hw4). eapply IH; [exact Hw4|].
  destruct He3. injection Ep as <- <-. simpl in *. lia.
Qed.

Lemma chain_builds fuel p :
  parser_ok p → String.length (rest p) ≤ n → String.length (rest p) < fuel →
  builds_node 1 p (chain item op mk fuel p).
Proof using All.
  intros Hp Hn Hf. unfold chain. pose proof (item_builds p Hp Hn) as Hi.
  destruct (item p) as [left q| |]; [|done..]. destruct Hi as (t & Hb).
  eapply chain_loop_builds; [done|done|exact Hb|]. destruct Hb as [[] _]. lia.
Qed.
End chains.

Section constructs.
Context {U : Unicode}.
Variables (rec_unary rec_or : Parser → Outcome NodeId) (n : nat).
Hypothesis unary_builds : ∀ p, parser_ok p → String.length (rest p) < n → builds_node 1 p (rec_unary p).
Hypothesis or_builds : ∀ p, parser_ok p → String.length (rest p) < n → builds_node 1 p (rec_or p).

Lemma leaf_builds p q node t :
  parser_ok p → token 1 p q → children node = [] → node_tree (b_nodes (p_builder q)) node t →
  bound_vars t = [] → (∀ v, v ∈ free_vars t → v ∈ map b_id (binder_stack p)) →
  builds_node 1 p (push node q).
Proof using Type.
  intros Hp Ht Hc Hn Hb Hf. apply (push_builds 1 p q node t); try done.
  - apply token_extends; [apply Hp|done].
  - by rewrite Hc.
  - split; rewrite ?Hb; [constructor|by intros v ?%elem_of_nil|done].
Qed.

(** One operand under a node that binds nothing. *)
Lemma unary_node_builds p q (mk : NodeId → Node) (tmk : Tree → Tree) :
  parser_ok p → token 1 p q → String.length (rest p) ≤ n →
  (∀ c t ns, children (mk c) = [c] ∧ (repr ns c t → node_tree ns (mk c) (tmk t))) →
  (∀ t, bound_vars (tmk t) = bound_vars t ∧ free_vars (tmk t) = free_vars t) →
  builds_node 1 p (let! (id, p') := rec_unary q in push (mk id) p').
Proof using unary_builds.
  intros Hp Ht Hl Hmk Hv. pose proof (token_ok _ _ _ Hp Ht) as Hq.
  assert (Hlt : String.length (rest q) < n) by (destruct Ht; lia).
  pose proof (unary_builds q Hq Hlt) as Hu. destruct (rec_unary q) as [id q'| |]; [|done..].
  destruct Hu as (t & He & Hr & Hs). destruct (Hmk id t (b_nodes (p_builder q'))) as [Hc Hn].
  destruct (Hv t) as [Eb Ef].
  apply (push_builds 1 p q' (mk id) (tmk t)); auto.
  - eapply extends_le; [eapply extends_then; [apply token_extends; [apply Hp|exact Ht]|exact He]|lia].
  - rewrite Hc. apply repr_lt in Hr. by repeat constructor.
  - destruct Ht as [Hb Hst _ _]. destruct Hs. unfold table in *. rewrite Hb, Hst in *.
    split; by rewrite ?Eb, ?Ef.
Qed.

Lemma parse_fixpoint_builds p q k (mk : FormulaVarId → NodeId → Node) :
  parser_ok p → token 1 p q → String.length (rest p) ≤ n →
  (∀ v c t ns, children (mk v c) = [c] ∧ (repr ns c t → node_tree ns (mk v c) (TFix k v t))) →
  builds_node 1 p (parse_fixpoint rec_or mk q).
Proof using or_builds.
  intros Hp Ht Hl Hmk. unfold parse_fixpoint.
  pose proof (token_trans _ _ _ _ _ Ht (skip_whitespace_token q)) as H1.
  destruct (parse_identifier (skip_whitespace q)) as [[name|] q2] eqn:E; [|done].
  apply parse_identifier_token in E. pose proof (token_trans _ _ _ _ _ H1 E) as H2.
  pose proof (token_trans _ _ _ _ _ H2 (skip_whitespace_token q2)) as H3.
  pose proof (expect_char_reads "." (skip_whitespace q2)) as Hd.
  destruct (expect_char "." (skip_whitespace q2)) as [[] q3| |]; [|done..]. simpl in Hd.
  pose proof (token_trans _ _ _ _ _ H3 Hd) as H4. simpl. clear Ht H1 H2 H3 Hd E.
  pose proof (token_ok _ _ _ Hp H4) as Hok3. destruct H4 as [Hb Hst Hdp Hr]. simpl in Hr.
  set (v := length (b_vars (p_builder q3))).
  set (inner := with_stack _ _).
  assert (Hin : parser_ok inner).
  { subst inner. split; simpl; [apply Hok3|]. rewrite length_app. simpl. constructor; [simpl; lia|].
    eapply Forall_impl; [apply Hok3|]. simpl. lia. }
  assert (Hlt : String.length (rest inner) < n) by (subst inner; simpl; lia).
  pose proof (or_builds inner Hin Hlt) as Ho. destruct (rec_or inner) as [body q4| |]; [|done..].
  destruct Ho as (t & [Hw [e1 He1] [e2 He2] Hst4 Hd4 Hr4] & Hrep & Hs). simpl in *.
  destruct (Hmk v body t (b_nodes (p_builder q4))) as [Hc Hn].
  assert (Hv : v = table p) by (unfold v, table; by rewrite Hb).
  assert (Htab : S v ≤ table q4) by (unfold table; rewrite He2, !length_app; simpl; unfold v; lia).
  apply (push_builds 1 p (with_stack (binder_stack q3) q4) (mk v body) (TFix k v t)); auto.
  - split; simpl; try done; try congruence; try lia.
    + exists e1. by rewrite He1, Hb.
    + exists ([name] ++ e2). by rewrite He2, Hb, app_assoc.
  - rewrite Hc. apply repr_lt in Hrep. by repeat constructor.
  - destruct Hs as [Hnd Hfr Hfv]. unfold table in Hfr at 1. simpl in Hfr.
    rewrite length_app in Hfr. simpl in Hfr. fold v in Hfr. unfold table at 2. simpl.
    fold (table q4). split; simpl.
    + constructor; [|done]. intros Hvin. specialize (Hfr v Hvin). lia.
    + intros u [->|Hu]%elem_of_cons; [lia|]. specialize (Hfr u Hu). lia.
    + intros u [Hu Hne]%elem_of_difference. specialize (Hfv u Hu). simpl in Hfv.
      apply elem_of_cons in Hfv as [->|Hfv]; [by destruct Hne; apply elem_of_singleton|].
      by rewrite <-Hst.
Qed.

Lemma parse_modal_builds p q kind closing :
  parser_ok p → token 1 p q → String.length (rest p) ≤ n →
  builds_node 1 p (parse_modal rec_unary kind closing q).
Proof using unary_builds.
  intros Hp Ht Hl. unfold parse_modal. pose proof (parse_guard_reads closing q) as Hg.
  destruct (parse_guard closing q) as [g q2| |]; [|done..]. simpl in Hg.
  apply (unary_node_builds p q2 (NModal kind g) (TModal kind g)); try done.
  - eapply token_le; [by eapply token_trans|lia].
  - intros c t ns. split; [done|]. intros Hr. node_tree_tac.
Qed.

Lemma predicate_builds p q s : parser_ok p → token 1 p q → builds_node 1 p (push (NPredicate s) q).
Proof using Type.
  intros Hp Ht. apply (leaf_builds p q _ (TPred s)); try done. node_tree_tac.
Qed.

Lemma constant_builds p q (b : bool) :
  parser_ok p → token 1 p q → builds_node 1 p (push (if b then NTrue else NFalse) q).
Proof using Type.
  intros Hp Ht. apply (leaf_builds p q _ (if b then TTrue else TFalse)); try (by destruct b).
  destruct b; node_tree_tac.
Qed.

Lemma parse_atom_builds p q s :
  parser_ok p → token 1 p q → builds_node 1 p (parse_atom s q).
Proof using Type.
  intros Hp Ht. unfold parse_atom, lookup_binder.
  destruct (List.find _ _) as [b|] eqn:Ef; simpl.
  { apply (leaf_builds p q _ (TVar (b_id b))); try done; [node_tree_tac|].
    intros v Hv. simpl in Hv. apply elem_of_singleton in Hv as ->. apply List.find_some in Ef as [Hin _].
    apply list_elem_of_fmap. exists b. split; [done|]. rewrite <-(tk_stack _ _ _ Ht).
    by apply list_elem_of_In. }
  pose proof (token_trans _ _ _ _ _ Ht (skip_whitespace_token q)) as H1.
  destruct (try_consume_comparison_op (skip_whitespace q)) as [[op q2]|] eqn:Eo;
    [|by apply predicate_builds].
  apply comparison_op_token in Eo. pose proof (token_trans _ _ _ _ _ H1 Eo) as H2.
  pose proof (token_trans _ _ _ _ _ H2 (skip_whitespace_token q2)) as H3.
  destruct (parse_comparison_rhs (skip_whitespace q2)) as [[rhs|] q3] eqn:Er; [|done].
  apply comparison_rhs_token in Er. pose proof (token_trans _ _ _ _ _ H3 Er) as H4.
  simpl in H4.
  destruct (match next_char rhs with Some (c, _) => is_ident_start c | None => false end);
    [|by apply predicate_builds].
  destruct (try_consume_addend q3) as [[a q4]|] eqn:Ea; [|by apply predicate_builds].
  apply addend_token in Ea. apply predicate_builds; [done|]. by apply (token_trans 1 0 p q3).
Qed.

Lemma parse_primary_builds p :
  parser_ok p → String.length (rest p) ≤ n → builds_node 1 p (parse_primary rec_or p).
Proof using or_builds.
  intros Hp Hl. unfold parse_primary. pose proof (skip_whitespace_token p) as Hw.
  set (p1 := skip_whitespace p) in *.
  destruct (try_consume_char "(" p1) as [p2|] eqn:E1.
  { apply try_consume_str_token in E1. pose proof (token_trans _ _ _ _ _ Hw E1) as H2.
    assert (Hlt : String.length (rest p2) < n) by (destruct H2; simpl in *; lia).
    pose proof (or_builds p2 (token_ok _ _ _ Hp H2) Hlt) as Ho.
    destruct (rec_or p2) as [id p3| |]; [|done..].
    pose proof (skip_whitespace_token p3) as Hw3.
    pose proof (expect_char_reads ")" (skip_whitespace p3)) as He.
    destruct (expect_char ")" (skip_whitespace p3)) as [[] p4| |]; [|done..]. simpl in He.
    pose proof (token_trans _ _ _ _ _ Hw3 He) as H4. destruct Ho as (t & He3 & Hr & Hs).
    exists t. split_and!.
    - eapply extends_le; [eapply extends_then; [apply token_extends; [apply Hp|exact H2]|]|].
      + eapply extends_then; [exact He3|]. apply token_extends; [apply He3|exact H4].
      + lia.
    - by rewrite (tk_builder _ _ _ H4).
    - destruct H2 as [Hb Hst _ _]. unfold table in *. by rewrite (tk_builder _ _ _ H4), <-Hb, <-Hst. }
  destruct (consume_keyword "true" p1) as [p2|] eqn:E2.
  { apply consume_keyword_token in E2. apply (constant_builds p p2 true); [done|].
    eapply token_le; [by eapply token_trans|simpl; lia]. }
  destruct (consume_keyword "false" p1) as [p2|] eqn:E3.
  { apply consume_keyword_token in E3. apply (constant_builds p p2 false); [done|].
    eapply token_le; [by eapply token_trans|simpl; lia]. }
  destruct (parse_identifier p1) as [[s|] p2] eqn:E4; [|done].
  apply parse_identifier_token in E4. apply parse_atom_builds; [done|]. by apply (token_trans 0 1 p p1).
Qed.

Lemma parse_unary_inner_builds p :
  parser_ok p → String.length (rest p) ≤ n → builds_node 1 p (parse_unary_inner rec_unary rec_or p).
Proof using unary_builds or_builds.
  intros Hp Hl. unfold parse_unary_inner. pose proof (skip_whitespace_token p) as Hw.
  set (p1 := skip_whitespace p) in *.
  assert (Htok : ∀ p2, token 1 p1 p2 → token 1 p p2) by (intros p2 H; by apply (token_trans 0 1 p p1)).
  assert (Hkw : ∀ kw c p2, 0 < String.length kw → 0 < String.length c →
    or_else (consume_keyword kw p1) (try_consume_char c p1) = Some p2 → token 1 p p2).
  { intros kw c p2 ? ? [H|H]%or_else_some; apply Htok;
      [apply consume_keyword_token in H|apply try_consume_str_token in H]; eapply token_le; eauto. }
  destruct (try_consume_not p1) as [p2|] eqn:E1.
  { apply (unary_node_builds p p2 NNot TNot); try done.
    - apply Htok, operator_token; auto.
    - intros c t ns. split; [done|]. intros Hr. node_tree_tac. }
  destruct (or_else (consume_keyword "mu" p1) (try_consume_char "μ" p1)) as [p2|] eqn:E2.
  { apply (parse_fixpoint_builds p p2 Least); try done.
    - eapply Hkw; [| |exact E2]; simpl; lia.
    - intros v c t ns. split; [done|]. intros Hr. node_tree_tac. }
  destruct (or_else (consume_keyword "nu" p1) (try_consume_char "ν" p1)) as [p2|] eqn:E3.
  { apply (parse_fixpoint_builds p p2 Greatest); try done.
    - eapply Hkw; [| |exact E3]; simpl; lia.
    - intros v c t ns. split; [done|]. intros Hr. node_tree_tac. }
  assert (Hch : ∀ c p2, 0 < String.length c → try_consume_char c p1 = Some p2 → token 1 p p2).
  { intros c p2 ? H%try_consume_str_token. apply Htok. eapply token_le; eauto. }
  destruct (try_consume_char "[" p1) as [p2|] eqn:E4.
  { apply parse_modal_builds; [done| |done]. eapply Hch; [|exact E4]. simpl. lia. }
  destruct (try_consume_char "⟨" p1) as [p2|] eqn:E5.
  { apply parse_modal_builds; [done| |done]. eapply Hch; [|exact E5]. simpl. lia. }
  destruct (try_consume_char "<" p1) as [p2|] eqn:E6.
  { apply parse_modal_builds; [done| |done]. eapply Hch; [|exact E6]. simpl. lia. }
  eapply builds_from; [done|exact Hw|apply parse_primary_builds|done].
  - by eapply token_ok.
  - destruct Hw. lia.
Qed.
End constructs.

Section total.
Context {U : Unicode}.

Lemma and_chain_builds item n p :
  (∀ p, parser_ok p → String.length (rest p) ≤ n → builds_node 1 p (item p)) →
  parser_ok p → String.length (rest p) ≤ n →
  builds_node 1 p (chain item try_consume_and NAnd (S (String.length (rest p))) p).
Proof using Type.
  intros Hi Hp Hl. apply (chain_builds item try_consume_and NAnd TAnd n); try done; try lia.
  - intros q q' H. apply operator_token. auto.
  - intros c d t u ns. split; [done|]. intros ? ?. node_tree_tac.
Qed.

Lemma or_chain_builds item n p :
  (∀ p, parser_ok p → String.length (rest p) ≤ n → builds_node 1 p (item p)) →
  parser_ok p → String.length (rest p) ≤ n →
  builds_node 1 p (chain item try_consume_or NOr (S (String.length (rest p))) p).
Proof using Type.
  intros Hi Hp Hl. apply (chain_builds item try_consume_or NOr TOr n); try done; try lia.
  - intros q q' H. apply operator_token. auto.
  - intros c d t u ns. split; [done|]. intros ? ?. node_tree_tac.
Qed.

Lemma parse_unary_builds fuel p :
  parser_ok p → String.length (rest p) < fuel → builds_node 1 p (parse_unary fuel p).
Proof using Type.
  revert p. induction fuel as [|k IH]; intros p Hp Hl; [lia|]. cbn [parse_unary].
  destruct (MAX_PARSE_DEPTH <? _); [done|]. cbv zeta.
  set (rec_or := λ p0, chain _ _ _ _ p0).
  set (p1 := with_depth (depth p + 1) p). assert (Hp1 : parser_ok p1) by (by destruct Hp).
  assert (Hb : builds_node 1 p1 (parse_unary_inner (parse_unary k) rec_or p1)).
  { apply (parse_unary_inner_builds _ _ k).
    - intros q Hq Hlt. by apply IH.
    - intros q Hq Hlt. apply (or_chain_builds _ (k - 1)); [|done|lia].
      intros q' Hq' Hlt'. apply (and_chain_builds _ (k - 1)); [|done|done].
      intros q'' Hq'' Hlt''. apply IH; [done|]. lia.
    - done.
    - simpl. lia. }
  destruct (parse_unary_inner _ _ p1) as [id p2| |]; [|done..].
  destruct Hb as (t & [? ? ? ? Hd ?] & Hr & Hs). exists t. split_and!; try done.
  split; try done. simpl in *. rewrite Hd. lia.
Qed.

Lemma parse_and_builds fuel p :
  parser_ok p → String.length (rest p) < fuel → builds_node 1 p (parse_and fuel p).
Proof using Type.
  intros Hp Hl. apply (and_chain_builds _ (fuel - 1)); [|done|lia].
  intros q Hq Hlq. apply parse_unary_builds; [done|lia].
Qed.

Lemma parse_or_builds fuel p :
  parser_ok p → String.length (rest p) < fuel → builds_node 1 p (parse_or fuel p).
Proof using Type.
  intros Hp Hl. apply (or_chain_builds _ (fuel - 1)); [|done|lia].
  intros q Hq Hlq. apply parse_and_builds; [done|lia].
Qed.

Lemma parser_new_ok s : parser_ok (Parser_new s).
Proof using Type. split; simpl; [apply wf_arena_nil|constructor]. Qed.

Lemma parse_outcome input :
  match parse input with
  | Ok f _ => ∃ t, closed_formula f t
  | Err _ => True
  | NoFuel => False
  end.
Proof using Type.
  unfold parse, parse_formula.
  pose proof (parse_or_builds (S (String.length input)) (Parser_new input) (parser_new_ok input)
    ltac:(simpl; lia)) as Hb.
  destruct (parse_or _ _) as [id p| |]; [|done..]. destruct Hb as (t & He & Hr & [Hnd Hfr Hfv]).
  pose proof (skip_whitespace_token p) as [Hb _ _ _].
  destruct (String.eqb _ _); [|done]. rewrite Hb. exists t. split; simpl.
  - split; [apply He|]. by eapply repr_lt.
  - done.
  - apply Forall_forall. intros v Hv. by apply Hfr.
  - split; [done|]. apply elem_of_equiv_empty_L. intros v Hv. specialize (Hfv v Hv).
    by apply elem_of_nil in Hfv.
Qed.
End total.

(** * Properties *)

(** C32: the parser of formulas ends on every text, with a formula or an error,
    and what it accepts is well formed: the arena's children precede their
    parents, every variable of the table is named by at most one binder, and no
    variable is free. *)
Theorem parse_closed {U : Unicode} input :
  match parse input with
  | Ok f _ => ∃ t, closed_formula f t
  | Err _ => True
  | NoFuel => False
  end.
Proof. apply parse_outcome. Qed.
