(* ===== verification/FormulaText.v ===== *)
(** What the parser of formulas reads: a grammar of texts and their syntax trees
    with named variables, and the theorem that the parser reads every text of the
    grammar as its tree.

    [derives] is the grammar, by precedence level.  It is a part of what the
    parser accepts: modalities without guards, the symbols of the connectives and
    not their word and Unicode forms; [parse_closed] covers every text.  [resolve] turns names into
    variables the way the parser does: an identifier is the innermost binder of
    that name, and a predicate when there is none. *)
From S2P Require Import Prelude Formula Trit Clts Modal Evaluator Semantics Domains Checking Verdicts Divergences Transforms Text FormulaParser.
From Stdlib Require Import Ascii.

(** ** Syntax trees *)

Inductive Syntax :=
  | SConst (b : bool)
  | SAtom (name : string)
  | SCompare (lhs op rhs : string)
  | SNot (s : Syntax)
  | SAnd (l r : Syntax)
  | SOr (l r : Syntax)
  | SModal (k : ModalKind) (g : Guard) (s : Syntax)
  | SFix (k : FixpointKind) (x : string) (s : Syntax).

Definition find_binder (stack : list Binder) (name : string) : option FormulaVarId :=
  b_id <$> List.find (λ b, String.eqb (b_name b) name) stack.

(** Names resolved under the binders [stack]; the next variable is [n]. *)
Fixpoint resolve (stack : list Binder) (n : nat) (s : Syntax) : Tree * nat :=
  match s with
  | SConst b => (if b then TTrue else TFalse, n)
  | SAtom x => (match find_binder stack x with Some v => TVar v | None => TPred x end, n)
  | SCompare l op r => (TPred (l +:+ " " +:+ op +:+ " " +:+ r), n)
  | SNot s => let '(t, n1) := resolve stack n s in (TNot t, n1)
  | SAnd l r =>
    let '(tl, n1) := resolve stack n l in let '(tr, n2) := resolve stack n1 r in (TAnd tl tr, n2)
  | SOr l r =>
    let '(tl, n1) := resolve stack n l in let '(tr, n2) := resolve stack n1 r in (TOr tl tr, n2)
  | SModal k g s => let '(t, n1) := resolve stack n s in (TModal k g t, n1)
  | SFix k x s =>
    let '(t, n1) := resolve ({| b_name := x; b_id := n |} :: stack) (S n) s in (TFix k n t, n1)
  end.

(** The left side of a comparison is not a variable in scope. *)
Fixpoint compares_free (stack : list string) (s : Syntax) : bool :=
  match s with
  | SConst _ | SAtom _ => true
  | SCompare l _ _ => negb (existsb (String.eqb l) stack)
  | SNot s | SModal _ _ s => compares_free stack s
  | SAnd l r | SOr l r => compares_free stack l && compares_free stack r
  | SFix _ x s => compares_free (x :: stack) s
  end.

(** ** ASCII words *)

Definition ident_head (a : ascii) : bool := ascii_alpha a || Ascii.eqb a "_"%char || Ascii.eqb a "$"%char.
Definition ident_char (a : ascii) : bool := ident_head a || ascii_digit a.

(** Identifier characters, and dots followed by one. *)
Fixpoint ident_rest (s : string) : bool :=
  match s with
  | EmptyString => true
  | String a s' => (ident_char a || (Ascii.eqb a "."%char && head_is ident_char s')) && ident_rest s'
  end.

(** The parser takes the start of [s] for the keyword. *)
Definition keyword_like (kw s : string) : bool :=
  match strip_prefix kw (to_ascii_lowercase s) with
  | Some _ => negb (head_is ident_char (drop_bytes (String.length kw) s))
  | None => false
  end.

Definition keyword_free (kws : list string) (s : string) : bool :=
  forallb (λ kw, negb (keyword_like kw s)) kws.

Definition identifier (s : string) : bool :=
  match s with String a s' => ident_head a && ident_rest s' | EmptyString => false end.

(** A name the parser reads as an atom. *)
Definition atom_name (s : string) : bool :=
  identifier s && keyword_free ["not"; "mu"; "nu"; "true"; "false"] s.

Definition comparison_op (s : string) : bool :=
  existsb (String.eqb s) ["=="; "!="; "<="; ">="; "<"; ">"].

(** The right side of a comparison: a decimal with an optional sign, or an
    identifier with an optional offset. *)
Inductive operand : string → Prop :=
  | operand_number n : decimal n = true → operand n
  | operand_negative n : decimal n = true → operand ("-" +:+ n)
  | operand_name x : identifier x = true → keyword_free ["true"; "false"] x = true → operand x
  | operand_offset x n : identifier x = true → keyword_free ["true"; "false"] x = true →
      decimal n = true → operand (x +:+ " + " +:+ n).

(** ** The grammar *)

Inductive Level := Unary | Conjunction | Disjunction | Whole.

(** [derives l txt s d]: [txt] is a text of level [l] for [s], nested [d] deep. *)
Inductive derives : Level → string → Syntax → nat → Prop :=
  | derives_const (b : bool) : derives Unary (if b then "true" else "false") (SConst b) 1
  | derives_atom x : atom_name x = true → derives Unary x (SAtom x) 1
  | derives_compare x op r : atom_name x = true → comparison_op op = true → operand r →
      derives Unary (x +:+ " " +:+ op +:+ " " +:+ r) (SCompare x op r) 1
  | derives_paren txt s d :
      derives Whole txt s d → derives Unary ("(" +:+ txt +:+ ")") s (S d)
  | derives_not txt s d : derives Unary txt s d → derives Unary ("!" +:+ txt) (SNot s) (S d)
  | derives_box txt s d :
      derives Unary txt s d → derives Unary ("[] " +:+ txt) (SModal Box Guard_default s) (S d)
  | derives_diamond txt s d :
      derives Unary txt s d → derives Unary ("<> " +:+ txt) (SModal Diamond Guard_default s) (S d)
  | derives_unary txt s d : derives Unary txt s d → derives Conjunction txt s d
  | derives_and t1 s1 d1 t2 s2 d2 :
      derives Conjunction t1 s1 d1 → derives Unary t2 s2 d2 →
      derives Conjunction (t1 +:+ " && " +:+ t2) (SAnd s1 s2) (d1 `max` d2)
  | derives_conjunction txt s d : derives Conjunction txt s d → derives Disjunction txt s d
  | derives_or t1 s1 d1 t2 s2 d2 :
      derives Disjunction t1 s1 d1 → derives Conjunction t2 s2 d2 →
      derives Disjunction (t1 +:+ " || " +:+ t2) (SOr s1 s2) (d1 `max` d2)
  | derives_whole txt s d : derives Disjunction txt s d → derives Whole txt s d
  | derives_mu x txt s d : identifier x = true → derives Whole txt s d →
      derives Whole ("mu " +:+ x +:+ ". " +:+ txt) (SFix Least x s) (S d)
  | derives_nu x txt s d : identifier x = true → derives Whole txt s d →
      derives Whole ("nu " +:+ x +:+ ". " +:+ txt) (SFix Greatest x s) (S d).

(** ** Character facts *)

Lemma ident_head_char a : ident_head a = true → ident_char a = true.
Proof. unfold ident_char. by intros ->. Qed.

Lemma ident_char_ascii a : ident_char a = true → is_ascii a = true.
Proof.
  unfold ident_char, ident_head, ascii_alpha, ascii_upper, ascii_lower, ascii_digit.
  rewrite !orb_true_iff. intros [[[[H|H]|H]|H]|H];
    try (by eapply in_range_ascii; [exact H|lia]); by apply Ascii.eqb_eq in H as ->.
Qed.

Section reading.
Context {U : Unicode}.

Lemma ident_start_ascii a : is_ident_start (String a "") = ident_head a.
Proof using Type.
  unfold is_ident_start, is_alphabetic, ident_head.
  assert (H : ∀ c, String.eqb (String a "") (String c "") = Ascii.eqb a c).
  { intros c. simpl. by destruct (Ascii.eqb a c). }
  by rewrite !H.
Qed.

Lemma ident_continue_ascii a : is_ident_continue (String a "") = ident_char a.
Proof using Type.
  unfold is_ident_continue, is_alphanumeric, is_alphabetic, is_numeric, ident_char, ident_head.
  assert (H : ∀ c, String.eqb (String a "") (String c "") = Ascii.eqb a c).
  { intros c. simpl. by destruct (Ascii.eqb a c). }
  rewrite !H. destruct (ascii_alpha a), (ascii_digit a), (Ascii.eqb a "_"), (Ascii.eqb a "$"); done.
Qed.

(** The text after a word: its end, a blank, a parenthesis, or the dot of a
    binder. *)
Definition boundary (s : string) : Prop :=
  s = "" ∨ ∃ r, s = String " " r ∨ s = String ")" r ∨ s = ". " +:+ r.

Lemma boundary_cases s : boundary s → s = "" ∨ ∃ r, s = String " " r ∨ s = String ")" r ∨ s = String "." (String " " r).
Proof using Type. done. Qed.

Lemma boundary_continues s : boundary s → next_continues s = false.
Proof using Type. by intros [->|(r & [->|[->| ->]])]%boundary_cases. Qed.

Lemma next_continues_app s r :
  ident_rest s = true → boundary r → next_continues (s +:+ r) = head_is ident_char s.
Proof using Type.
  intros Hs Hr. destruct s as [|a s]; [by apply boundary_continues|].
  rewrite sapp_cons. unfold next_continues. simpl in Hs. apply andb_true_iff in Hs as [Hs _].
  rewrite next_char_ascii; [apply ident_continue_ascii|].
  apply orb_true_iff in Hs as [Hs|Hs]; [by apply ident_char_ascii|].
  apply andb_true_iff in Hs as [Hs _]. by apply Ascii.eqb_eq in Hs as ->.
Qed.

(** ** White space *)

(** What is left after white space. *)
Definition skips (s : string) : string := rest (skip_whitespace (Parser_new s)).

Lemma skip_loop_rest fuel p q : rest p = rest q → rest (skip_loop fuel p) = rest (skip_loop fuel q).
Proof using Type.
  revert p q. induction fuel as [|k IH]; intros p q H; [done|]. cbn [skip_loop]. rewrite H.
  destruct (next_char (rest q)) as [[c r]|]; [|done]. destruct (is_whitespace c); [|done]. by apply IH.
Qed.

Lemma skip_rest p : rest (skip_whitespace p) = skips (rest p).
Proof using Type. unfold skips, skip_whitespace. by apply skip_loop_rest. Qed.

Lemma skips_cons a s :
  is_ascii a = true → skips (String a s) = if ascii_space a then skips s else String a s.
Proof using Type.
  intros Ha. unfold skips, skip_whitespace. cbn [rest Parser_new String.length skip_loop].
  rewrite (next_char_ascii a s Ha). simpl. destruct (ascii_space a); [|done]. by apply skip_loop_rest.
Qed.

Lemma skips_length s : String.length (skips s) ≤ String.length s.
Proof using Type. destruct (skip_whitespace_token (Parser_new s)). unfold skips. simpl in *. lia. Qed.

(** [q] is [p] with [r] left to read. *)
Record here (p : Parser) (r : string) (q : Parser) : Prop := {
  hr_builder : p_builder q = p_builder p;
  hr_stack : binder_stack q = binder_stack p;
  hr_depth : depth q = depth p;
  hr_rest : rest q = r
}.

Lemma here_refl p : here p (rest p) p.
Proof using Type. done. Qed.

Lemma here_trans p r q r' q' : here p r q → here q r' q' → here p r' q'.
Proof using Type. intros [] []. split; congruence. Qed.

Lemma here_skip p r : skips (rest p) = r → here p r (skip_whitespace p).
Proof using Type.
  intros <-. destruct (skip_whitespace_token p). split; try done. apply skip_rest.
Qed.

Lemma consume_here s p r : rest p = s +:+ r → ∃ q, try_consume_str s p = Some q ∧ here p r q.
Proof using Type. intros H. unfold try_consume_str. rewrite H, strip_prefix_app. by eexists. Qed.

Lemma consume_none s p : strip_prefix s (rest p) = None → try_consume_str s p = None.
Proof using Type. intros H. unfold try_consume_str. by rewrite H. Qed.

(** ** Words *)

Lemma lower_app a b : to_ascii_lowercase (a +:+ b) = to_ascii_lowercase a +:+ to_ascii_lowercase b.
Proof using Type. induction a as [|x a IH]; [done|]. rewrite !sapp_cons. simpl. by rewrite IH. Qed.

Lemma strip_prefix_app_some kw s r x : strip_prefix kw s = Some x → strip_prefix kw (s +:+ r) = Some (x +:+ r).
Proof using Type. intros ->%strip_prefix_some. by rewrite sapp_assoc, strip_prefix_app. Qed.

Fixpoint letters (s : string) : bool :=
  match s with EmptyString => true | String a s' => ascii_lower a && letters s' end.

(** A keyword does not reach past a boundary. *)
Lemma strip_prefix_boundary kw s r :
  letters kw = true → boundary r → strip_prefix kw s = None →
  strip_prefix kw (s +:+ to_ascii_lowercase r) = None.
Proof using Type.
  intros Hl Hr. revert s. induction kw as [|a kw IH]; intros s Hn; [done|].
  simpl in Hl. apply andb_true_iff in Hl as [Ha Hl]. destruct s as [|b s].
  - rewrite sapp_nil_l. destruct (boundary_cases r Hr) as [->|(r' & [->|[->| ->]])]; [done|..]; simpl;
      by rewrite Ascii.eqb_sym, (class_eqb ascii_lower a).
  - rewrite sapp_cons. simpl in *. destruct (Ascii.eqb a b); [|done]. by apply IH.
Qed.

Lemma drop_bytes_app_le n a b : n ≤ String.length a → drop_bytes n (a +:+ b) = drop_bytes n a +:+ b.
Proof using Type.
  revert a. induction n as [|n IH]; intros a Hn; [by destruct a, b|].
  destruct a as [|x a]; [simpl in Hn; lia|]. rewrite sapp_cons. simpl in *. apply IH. lia.
Qed.

Lemma ident_rest_drop n s : ident_rest s = true → ident_rest (drop_bytes n s) = true.
Proof using Type.
  revert s. induction n as [|n IH]; intros s Hs; [by destruct s|].
  destruct s as [|a s]; [done|]. simpl in *. apply andb_true_iff in Hs as [_ Hs]. auto.
Qed.

Lemma identifier_rest s : identifier s = true → ident_rest s = true.
Proof using Type.
  destruct s as [|a s]; [done|]. simpl. intros [Ha Hs]%andb_true_iff.
  by rewrite (ident_head_char a Ha), Hs.
Qed.

(** A keyword is not read at the start of a word that is not like it. *)
Lemma keyword_none kw p x r :
  letters kw = true → rest p = x +:+ r → ident_rest x = true → boundary r →
  keyword_like kw x = false → consume_keyword kw p = None.
Proof using Type.
  intros Hl Hp Hx Hr Hk. unfold consume_keyword, starts_with. rewrite Hp, lower_app.
  unfold keyword_like in Hk. destruct (strip_prefix kw (to_ascii_lowercase x)) as [y|] eqn:E.
  - rewrite (strip_prefix_app_some _ _ _ _ E). apply strip_prefix_lower in E.
    rewrite drop_bytes_app_le by done.
    rewrite next_continues_app by (try done; by apply ident_rest_drop).
    apply negb_false_iff in Hk. by rewrite Hk.
  - by rewrite (strip_prefix_boundary kw _ r).
Qed.

(** A keyword standing alone is read. *)
Lemma keyword_here kw p r :
  to_ascii_lowercase kw = kw → rest p = kw +:+ r → boundary r →
  ∃ q, consume_keyword kw p = Some q ∧ here p r q.
Proof using Type.
  intros Hl Hp Hr. unfold consume_keyword, starts_with. rewrite Hp, lower_app, Hl, strip_prefix_app.
  rewrite drop_bytes_app, (boundary_continues r Hr). by eexists.
Qed.

Lemma ident_tail_app fuel s r :
  ident_rest s = true → boundary r → String.length s ≤ fuel → ident_tail fuel (s +:+ r) = String.length s.
Proof using Type.
  intros Hs Hr. revert s Hs. induction fuel as [|k IH]; intros s Hs Hf.
  - destruct s; [done|simpl in Hf; lia].
  - cbn [ident_tail]. destruct s as [|a s].
    + rewrite sapp_nil_l. by destruct (boundary_cases r Hr) as [->|(r' & [->|[->| ->]])].
    + rewrite sapp_cons. simpl in Hs. apply andb_true_iff in Hs as [Ha Hs].
      rewrite next_char_ascii.
      * rewrite ident_continue_ascii, (next_continues_app s r Hs Hr).
        assert (E : String.eqb (String a "") "." = Ascii.eqb a ".") by (simpl; by destruct (Ascii.eqb a ".")).
        rewrite E, Ha. simpl in *. rewrite IH by (try done; lia). done.
      * apply orb_true_iff in Ha as [Ha|Ha]; [by apply ident_char_ascii|].
        apply andb_true_iff in Ha as [Ha _]. by apply Ascii.eqb_eq in Ha as ->.
Qed.

Lemma ident_not_space a : ident_head a = true → ascii_space a = false.
Proof using Type.
  unfold ident_head, ascii_alpha, ascii_upper, ascii_lower, in_range, ascii_space, in_range.
  intros H. apply not_true_iff_false. rewrite orb_true_iff, andb_true_iff, !Nat.leb_le, Nat.eqb_eq.
  rewrite !orb_true_iff, !andb_true_iff, !Nat.leb_le, !Ascii.eqb_eq in H.
  destruct H as [[[?|?]| ->]| ->]; [lia|lia|vm_compute; lia..].
Qed.

(** White space before an identifier, and none in front of its end. *)
Lemma skips_ident x r : identifier x = true → skips (x +:+ r) = x +:+ r.
Proof using Type.
  destruct x as [|a x]; [done|]. simpl. intros [Ha _]%andb_true_iff. rewrite sapp_cons.
  rewrite skips_cons by (by apply ident_char_ascii, ident_head_char). by rewrite ident_not_space.
Qed.

Lemma identifier_here p x r :
  identifier x = true → boundary r → skips (rest p) = x +:+ r →
  ∃ q, parse_identifier p = (Some x, q) ∧ here p r q.
Proof using Type.
  intros Hx Hr Hp. unfold parse_identifier. pose proof (here_skip p _ Hp) as [Hb Hs Hd Hrest].
  rewrite Hrest. destruct x as [|a x]; [done|]. simpl in Hx. apply andb_true_iff in Hx as [Ha Hx].
  rewrite sapp_cons. rewrite next_char_ascii by (by apply ident_char_ascii, ident_head_char).
  rewrite ident_start_ascii, Ha.
  rewrite ident_tail_app by (try done; rewrite length_sapp; lia).
  replace (String.length (String a "") + String.length x) with (String.length (String a x)) by done.
  rewrite <-sapp_cons, take_bytes_app, drop_bytes_app. eexists. split; [done|]. by split.
Qed.

(** ** Numbers *)

Lemma digits_here p n r :
  all_digits n = true → boundary r → rest p = n +:+ r →
  ∃ q, digits p = (n, q) ∧ here p r q.
Proof using Type.
  unfold digits. intros Hn Hr. enough (H : ∀ fuel, String.length n ≤ fuel → rest p = n +:+ r →
    ∃ q, consume_digits fuel p = (n, q) ∧ here p r q).
  { intros Hp. apply H; [|done]. rewrite Hp, length_sapp. lia. }
  intros fuel. revert n p Hn. induction fuel as [|k IH]; intros n p Hn Hf Hp.
  - destruct n; [|simpl in Hf; lia]. exists p. split; [done|]. by rewrite <-(sapp_nil_l r).
  - cbn [consume_digits]. rewrite Hp. destruct n as [|a n].
    + exists p. rewrite sapp_nil_l. split; [|by rewrite <-(sapp_nil_l r)].
      by destruct (boundary_cases r Hr) as [->|(r' & [->|[->| ->]])].
    + simpl in Hn. apply andb_true_iff in Hn as [Ha Hn]. rewrite sapp_cons.
      rewrite next_char_ascii by (by apply ascii_digit_ascii). simpl is_ascii_digit. rewrite Ha.
      simpl in Hf. destruct (IH n (move (String.length (String a "")) (n +:+ r) p) Hn ltac:(lia) eq_refl)
        as (q & -> & Hq). exists q. split; [done|]. destruct Hq. by split.
Qed.

(** No digit is read at the start of a word. *)
Lemma digits_none p a s :
  ascii_digit a = false → is_ascii a = true → rest p = String a s → digits p = ("", p).
Proof using Type.
  intros Ha Has Hp. unfold digits. rewrite Hp. cbn [String.length consume_digits].
  rewrite Hp, next_char_ascii by done. simpl. by rewrite Ha.
Qed.
(** ** What may follow *)

(** After a conjunct, a disjunct and a formula. *)
Definition closing (s : string) : Prop := s = "" ∨ ∃ r, s = ")" +:+ r.
Definition after_disjunct (s : string) : Prop := closing s ∨ ∃ r, s = " || " +:+ r.
Definition after_conjunct (s : string) : Prop := after_disjunct s ∨ ∃ r, s = " && " +:+ r.

Lemma after_conjunct_cases s : after_conjunct s →
  s = "" ∨ ∃ r, s = ")" +:+ r ∨ s = " || " +:+ r ∨ s = " && " +:+ r.
Proof using Type. unfold after_conjunct, after_disjunct, closing. naive_solver. Qed.

Lemma after_conjunct_boundary s : after_conjunct s → boundary s.
Proof using Type.
  intros [->|(r & [->|[->| ->]])]%after_conjunct_cases; [by left|right; eexists..].
  - by right; left.
  - by left.
  - by left.
Qed.

Lemma skips_solid a s : is_ascii a = true → ascii_space a = false → skips (String a s) = String a s.
Proof using Type. intros Ha Hs. by rewrite skips_cons, Hs. Qed.

Lemma skips_empty : skips "" = "".
Proof using Type. done. Qed.

Lemma skips_space s : skips (" " +:+ s) = skips s.
Proof using Type. by rewrite sapp_cons, sapp_nil_l, skips_cons. Qed.

(** No comparison follows a conjunct. *)
Lemma no_comparison p s :
  after_conjunct s → rest p = skips s → try_consume_comparison_op p = None.
Proof using Type.
  intros [->|(r & [->|[->| ->]])]%after_conjunct_cases Hp; unfold try_consume_comparison_op;
    rewrite Hp, ?sapp_cons, ?skips_cons by done; simpl;
    rewrite ?consume_none by (rewrite Hp, ?sapp_cons, ?skips_cons by done; done); try done;
    by destruct r.
Qed.

(** ** Single tests *)

Lemma consume_head_none c s p a r :
  rest p = String a r → Ascii.eqb c a = false → try_consume_str (String c s) p = None.
Proof using Type. intros Hp Hc. apply consume_none. rewrite Hp. simpl. by rewrite Hc. Qed.

Lemma keyword_head_none c kw p a r :
  rest p = String a r → Ascii.eqb c (to_lower a) = false → consume_keyword (String c kw) p = None.
Proof using Type. intros Hp Hc. unfold consume_keyword, starts_with. rewrite Hp. simpl. by rewrite Hc. Qed.

(** The bytes that start an operator, a fixpoint or a modality. *)
Definition symbol_free (a : ascii) : bool :=
  forallb (λ s, negb (head_is (Ascii.eqb a) s)) ["¬"; "!"; "μ"; "ν"; "["; "⟨"; "<"].

Lemma symbol_none a s p r :
  symbol_free a = true → In s ["¬"; "!"; "μ"; "ν"; "["; "⟨"; "<"] → rest p = String a r →
  try_consume_str s p = None.
Proof using Type.
  intros Ha Hs Hp. unfold symbol_free in Ha. rewrite forallb_forall in Ha. specialize (Ha s Hs).
  destruct s as [|c s]; [by repeat destruct Hs as [Hs|Hs]|].
  apply (consume_head_none _ _ _ a r Hp). simpl in Ha. rewrite Ascii.eqb_sym. by apply negb_true_iff in Ha.
Qed.

Lemma inner_primary ru ro p a r :
  let p1 := skip_whitespace p in
  skips (rest p) = String a r → symbol_free a = true →
  consume_keyword "not" p1 = None → consume_keyword "mu" p1 = None → consume_keyword "nu" p1 = None →
  parse_unary_inner ru ro p = parse_primary ro p1.
Proof using Type.
  intros p1 Hp Ha H1 H2 H3. assert (Hr : rest p1 = String a r) by (unfold p1; by rewrite skip_rest).
  unfold parse_unary_inner. fold p1. unfold try_consume_not, try_consume_char.
  rewrite !(symbol_none a _ p1 r Ha) by (simpl; tauto || done). simpl. rewrite H1, H2, H3. done.
Qed.

Lemma ident_symbol_free a : ident_head a = true → symbol_free a = true.
Proof using Type.
  intros Ha. apply forallb_forall. intros s Hs. apply negb_true_iff.
  repeat destruct Hs as [<-|Hs]; [| | | | | | |done]; simpl;
    by rewrite Ascii.eqb_sym, (class_eqb ident_head a).
Qed.
(** ** Reading a construct *)

(** [q] is [p] after reading [s], with [r] left up to white space. *)
Record reads_as (p : Parser) (s : Syntax) (r : string) (id : NodeId) (q : Parser) : Prop := {
  ra_rest : skips (rest q) = skips r;
  ra_length : String.length (rest q) ≤ String.length r;
  ra_stack : binder_stack q = binder_stack p;
  ra_depth : depth q = depth p;
  ra_nodes : ∃ ext, b_nodes (p_builder q) = b_nodes (p_builder p) ++ ext;
  ra_tree : repr (b_nodes (p_builder q)) id (resolve (binder_stack p) (table p) s).1;
  ra_table : table q = (resolve (binder_stack p) (table p) s).2
}.

Definition names_of (p : Parser) : list string := map b_name (binder_stack p).

Lemma skips_idem s : after_conjunct s → skips (skips s) = skips s.
Proof using Type.
  intros [->|(r & [->|[->| ->]])]%after_conjunct_cases; rewrite ?skips_empty, ?sapp_cons, ?sapp_nil_l; [done|..];
    rewrite !skips_cons by done; simpl; rewrite ?skips_cons by done; done.
Qed.

(** A leaf pushed when what follows it has been reached. *)
Lemma push_reads p q r r' n s :
  here p r' q → skips r' = skips r → String.length r' ≤ String.length r →
  (resolve (binder_stack p) (table p) s).2 = table p →
  node_tree (b_nodes (p_builder p)) n (resolve (binder_stack p) (table p) s).1 →
  ∃ id q', push n q = Ok id q' ∧ reads_as p s r id q'.
Proof using Type.
  intros [Hb Hs Hd Hr] Hsk Hl Hres Hn. unfold push, push_node. eexists _, _. split; [done|].
  split; simpl; rewrite ?Hb, ?Hr; try done.
  - by eexists.
  - apply Hn; [apply lookup_push|by eexists].
Qed.

(** The tests before a primary all fail on an atom. *)
Lemma inner_atom ru ro p x r :
  atom_name x = true → boundary r → skips (rest p) = x +:+ r →
  ∃ q, here p (x +:+ r) q ∧ parse_unary_inner ru ro p = parse_primary ro q.
Proof using Type.
  intros [Hx Hk]%andb_true_iff Hr Hp. pose proof (here_skip p _ Hp) as Hh. exists (skip_whitespace p).
  split; [done|]. pose proof (hr_rest _ _ _ Hh) as Hrest. pose proof (identifier_rest x Hx) as Hir.
  simpl in Hk. rewrite !andb_true_iff, !negb_true_iff in Hk. destruct Hk as (H1 & H2 & H3 & _).
  assert (Hkw : ∀ kw, letters kw = true → keyword_like kw x = false →
    consume_keyword kw (skip_whitespace p) = None) by (intros kw ? ?; by apply (keyword_none kw _ x r)).
  destruct x as [|a x]; [done|]. simpl in Hx. apply andb_true_iff in Hx as [Ha _].
  apply (inner_primary ru ro p a (x +:+ r)); auto using ident_symbol_free.
Qed.

(** A primary that is an identifier. *)
Lemma primary_atom ro p x r :
  atom_name x = true → boundary r → rest p = x +:+ r →
  ∃ q, here p r q ∧ parse_primary ro p = parse_atom x q.
Proof using Type.
  intros [Hx Hk]%andb_true_iff Hr Hp. unfold parse_primary.
  assert (Hs : skips (rest p) = x +:+ r) by (rewrite Hp; by apply skips_ident).
  pose proof (here_skip p _ Hs) as Hh. pose proof (hr_rest _ _ _ Hh) as Hrest.
  simpl in Hk. rewrite !andb_true_iff, !negb_true_iff in Hk. destruct Hk as (_ & _ & _ & H4 & H5 & _).
  assert (Hpar : try_consume_char "(" (skip_whitespace p) = None).
  { destruct x as [|a x]; [done|]. simpl in Hx. apply andb_true_iff in Hx as [Ha _].
    apply (consume_head_none _ _ _ a (x +:+ r) Hrest). by apply (class_eqb ident_head a). }
  rewrite Hpar, (keyword_none "true" _ x r), (keyword_none "false" _ x r) by (try done; by apply identifier_rest).
  assert (Hs' : skips (rest (skip_whitespace p)) = x +:+ r) by (rewrite Hrest; by apply skips_ident).
  destruct (identifier_here (skip_whitespace p) x r Hx Hr Hs') as (q & -> & Hq).
  exists q. split; [by eapply here_trans|done].
Qed.

Lemma find_binder_none stack x :
  existsb (String.eqb x) (map b_name stack) = false → find_binder stack x = None.
Proof using Type.
  unfold find_binder. induction stack as [|b stack IH]; [done|]. simpl.
  intros [H1 H2]%orb_false_iff. rewrite String.eqb_sym, H1. by apply IH.
Qed.

(** Reads of a text at the level of an operand, after the depth is counted. *)
Definition inner_reads (txt : string) (s : Syntax) (d : nat) : Prop :=
  ∀ k p r, skips (rest p) = txt +:+ r → after_conjunct r → String.length (rest p) ≤ k →
    depth p + d ≤ MAX_PARSE_DEPTH → compares_free (names_of p) s = true →
    ∃ id q, parse_unary_inner (parse_unary k) (parse_or k) p = Ok id q ∧ reads_as p s r id q.

Lemma const_reads (b : bool) : inner_reads (if b then "true" else "false") (SConst b) 0.
Proof using Type.
  intros k p r Hp Hr _ _ _. pose proof (after_conjunct_boundary r Hr) as Hb.
  pose proof (here_skip p _ Hp) as Hh. pose proof (hr_rest _ _ _ Hh) as Hrest.
  assert (Hin : parse_unary_inner (parse_unary k) (parse_or k) p = parse_primary (parse_or k) (skip_whitespace p)).
  { destruct b; rewrite sapp_cons in Hp, Hrest; eapply inner_primary; try exact Hp; try done;
      by eapply keyword_head_none. }
  rewrite Hin. unfold parse_primary.
  assert (Hs : skips (rest (skip_whitespace p)) = (if b then "true" else "false") +:+ r).
  { rewrite Hrest. destruct b; rewrite sapp_cons; by apply skips_solid. }
  pose proof (here_skip _ _ Hs) as Hh2. pose proof (hr_rest _ _ _ Hh2) as Hrest2.
  set (p2 := skip_whitespace (skip_whitespace p)) in *.
  assert (Hpar : try_consume_char "(" p2 = None).
  { destruct b; rewrite sapp_cons in Hrest2; by eapply consume_head_none. }
  rewrite Hpar. pose proof (here_trans _ _ _ _ _ Hh Hh2) as H2. destruct b.
  - destruct (keyword_here "true" p2 r eq_refl Hrest2 Hb) as (q & -> & Hq).
    apply (push_reads p q r r NTrue (SConst true)); try done; [by eapply here_trans|node_tree_tac].
  - assert (Ht : consume_keyword "true" p2 = None).
    { rewrite sapp_cons in Hrest2. by eapply keyword_head_none. }
    rewrite Ht. destruct (keyword_here "false" p2 r eq_refl Hrest2 Hb) as (q & -> & Hq).
    apply (push_reads p q r r NFalse (SConst false)); try done; [by eapply here_trans|node_tree_tac].
Qed.

Lemma atom_reads x : atom_name x = true → inner_reads x (SAtom x) 0.
Proof using Type.
  intros Hx k p r Hp Hr _ _ _. pose proof (after_conjunct_boundary r Hr) as Hb.
  destruct (inner_atom (parse_unary k) (parse_or k) p x r Hx Hb Hp) as (q1 & H1 & ->).
  destruct (primary_atom (parse_or k) q1 x r Hx Hb (hr_rest _ _ _ H1)) as (q2 & H2 & ->).
  pose proof (here_trans _ _ _ _ _ H1 H2) as H. unfold parse_atom.
  change (lookup_binder q2 x) with (find_binder (binder_stack q2) x). rewrite (hr_stack _ _ _ H).
  destruct (find_binder (binder_stack p) x) as [v|] eqn:Ev.
  - apply (push_reads p q2 r r (NVariable v) (SAtom x)); simpl; rewrite ?Ev; try done. node_tree_tac.
  - pose proof (here_skip q2 (skips r)) as H3. rewrite (hr_rest _ _ _ H) in H3.
    specialize (H3 eq_refl). rewrite (no_comparison (skip_whitespace q2) r Hr (hr_rest _ _ _ H3)).
    apply (push_reads p _ r (skips r) (NPredicate x) (SAtom x)); simpl; rewrite ?Ev; try done.
    + by eapply here_trans.
    + by apply skips_idem.
    + apply skips_length.
    + node_tree_tac.
Qed.
(** The operator of a comparison. *)
Lemma comparison_op_here p op r :
  comparison_op op = true → rest p = op +:+ " " +:+ r →
  ∃ q, try_consume_comparison_op p = Some (op, q) ∧ here p (" " +:+ r) q.
Proof using Type.
  intros Ho Hp. unfold comparison_op in Ho. apply existsb_exists in Ho as (o & Hin & ->%String.eqb_eq).
  unfold try_consume_comparison_op. rewrite Hp.
  repeat (destruct Hin as [<-|Hin]; [rewrite ?sapp_cons, ?sapp_nil_l; simpl; try (by eexists)|]); [| |done].
  - destruct (consume_here "<" p (" " +:+ r) Hp) as (q & Hq & Hh). unfold try_consume_char. rewrite Hq. by exists q.
  - assert (Hn : try_consume_str "<" p = None) by (by eapply consume_head_none).
    destruct (consume_here ">" p (" " +:+ r) Hp) as (q & Hq & Hh).
    unfold try_consume_char. rewrite Hn, Hq. by exists q.
Qed.

Lemma decimal_spec n : decimal n = true → ∃ a n', n = String a n' ∧ ascii_digit a = true ∧ all_digits n = true.
Proof using Type.
  destruct n as [|a n]; [done|]. intros H. exists a, n. split_and!; try done.
  simpl in H. by apply andb_true_iff in H as [? _].
Qed.

(** The sign tests fail on a digit or a letter. *)
Lemma digit_not_sign a : ascii_digit a = true → Ascii.eqb "-" a = false ∧ Ascii.eqb "+" a = false.
Proof using Type. intros H. split; by apply (class_eqb ascii_digit). Qed.

Lemma head_not_sign a : ident_head a = true → Ascii.eqb "-" a = false ∧ Ascii.eqb "+" a = false.
Proof using Type. intros H. split; by apply (class_eqb ident_head). Qed.

Lemma ident_not_digit a : ident_head a = true → ascii_digit a = false.
Proof using Type.
  unfold ident_head, ascii_alpha, ascii_upper, ascii_lower, in_range, ascii_digit, in_range.
  intros H. apply not_true_iff_false. rewrite andb_true_iff, !Nat.leb_le.
  rewrite !orb_true_iff, !andb_true_iff, !Nat.leb_le, !Ascii.eqb_eq in H.
  destruct H as [[[?|?]| ->]| ->]; [lia|lia|vm_compute; lia..].
Qed.

Lemma skips_digits a s r : ascii_digit a = true → skips (String a s +:+ r) = String a s +:+ r.
Proof using Type.
  intros Ha. rewrite sapp_cons. apply skips_solid; [by apply ascii_digit_ascii|].
  unfold ascii_digit, in_range, ascii_space, in_range in *.
  rewrite andb_true_iff, !Nat.leb_le in Ha. apply not_true_iff_false.
  rewrite orb_true_iff, andb_true_iff, !Nat.leb_le, Nat.eqb_eq. lia.
Qed.

(** An unsigned or negative number. *)
Lemma rhs_number p sign n r :
  decimal n = true → sign = "" ∨ sign = "-" → boundary r → rest p = sign +:+ n +:+ r →
  ∃ q, parse_comparison_rhs p = (Some (sign +:+ n), q) ∧ here p r q.
Proof using Type.
  intros Hn Hs Hr Hp. destruct (decimal_spec n Hn) as (a & n' & -> & Ha & Hall).
  unfold parse_comparison_rhs.
  assert (Hsk : skips (rest p) = sign +:+ String a n' +:+ r).
  { rewrite Hp. destruct Hs as [->| ->].
    - rewrite sapp_nil_l. by apply skips_digits.
    - rewrite !sapp_cons, sapp_nil_l. by apply skips_solid. }
  pose proof (here_skip p _ Hsk) as Hh. pose proof (hr_rest _ _ _ Hh) as Hrest.
  set (start := skip_whitespace p) in *. destruct Hs as [->| ->].
  - rewrite !sapp_nil_l, sapp_cons in *. destruct (digit_not_sign a Ha) as [H1 H2].
    unfold try_consume_char. rewrite (consume_head_none _ _ _ _ _ Hrest H1), (consume_head_none _ _ _ _ _ Hrest H2).
    rewrite <-sapp_cons in Hrest. destruct (digits_here start (String a n') r Hall Hr Hrest) as (q & -> & Hq).
    simpl negb. exists q. split; [done|]. by eapply here_trans.
  - destruct (consume_here "-" start _ Hrest) as (q1 & Hq1 & Hh1). unfold try_consume_char. rewrite Hq1.
    destruct (digits_here q1 (String a n') r Hall Hr (hr_rest _ _ _ Hh1)) as (q & -> & Hq).
    simpl negb. exists q. split; [done|]. eapply here_trans; [exact Hh|]. by eapply here_trans.
Qed.

(** A name, up to a blank. *)
Lemma rhs_name p x r :
  identifier x = true → keyword_free ["true"; "false"] x = true → boundary r → rest p = x +:+ r →
  ∃ q, parse_comparison_rhs p = (Some x, q) ∧ here p r q.
Proof using Type.
  intros Hx Hk Hr Hp. unfold parse_comparison_rhs.
  assert (Hsk : skips (rest p) = x +:+ r) by (rewrite Hp; by apply skips_ident).
  pose proof (here_skip p _ Hsk) as Hh. pose proof (hr_rest _ _ _ Hh) as Hrest.
  set (start := skip_whitespace p) in *. pose proof (identifier_rest x Hx) as Hir.
  simpl in Hk. rewrite !andb_true_iff, !negb_true_iff in Hk. destruct Hk as (H1 & H2 & _).
  assert (Hnum : (match try_consume_char "-" start with Some p' => ("-", p')
    | None => match try_consume_char "+" start with Some p' => ("+", p') | None => ("", start) end end)
    = ("", start) ∧ digits start = ("", start)).
  { destruct x as [|a x]; [done|]. simpl in Hx. apply andb_true_iff in Hx as [Ha _]. rewrite sapp_cons in Hrest.
    destruct (head_not_sign a Ha) as [Hm Hpl]. unfold try_consume_char.
    rewrite (consume_head_none _ _ _ _ _ Hrest Hm), (consume_head_none _ _ _ _ _ Hrest Hpl). split; [done|].
    apply (digits_none start a (x +:+ r)); [by apply ident_not_digit| |done].
    by apply ident_char_ascii, ident_head_char. }
  destruct Hnum as [-> ->]. simpl negb.
  rewrite (keyword_none "true" start x r), (keyword_none "false" start x r) by done.
  assert (Hs2 : skips (rest start) = x +:+ r) by (rewrite Hrest; by apply skips_ident).
  destruct (identifier_here start x r Hx Hr Hs2) as (q & -> & Hq). exists q. split; [done|]. by eapply here_trans.
Qed.

Lemma addend_none p r : after_conjunct r → rest p = r → try_consume_addend p = None.
Proof using Type.
  intros [->|(r' & [->|[->| ->]])]%after_conjunct_cases Hp; unfold try_consume_addend, try_consume_char;
    rewrite consume_none; try done; rewrite skip_rest, Hp, ?sapp_cons, ?sapp_nil_l, ?skips_cons by done; try done.
Qed.

Lemma addend_here p n r :
  decimal n = true → boundary r → rest p = " + " +:+ n +:+ r →
  ∃ q, try_consume_addend p = Some (" + " +:+ n, q) ∧ here p r q.
Proof using Type.
  intros Hn Hr Hp. destruct (decimal_spec n Hn) as (a & n' & En & Ha & Hall).
  unfold try_consume_addend.
  assert (Hsk : skips (rest p) = "+" +:+ " " +:+ n +:+ r).
  { rewrite Hp, !sapp_cons, !sapp_nil_l, skips_cons by done. by apply skips_solid. }
  pose proof (here_skip p _ Hsk) as Hh. destruct (consume_here "+" _ _ (hr_rest _ _ _ Hh)) as (q1 & Hq1 & Hh1).
  unfold try_consume_char. rewrite Hq1.
  assert (Hsk1 : skips (rest q1) = n +:+ r).
  { rewrite (hr_rest _ _ _ Hh1), skips_space, En. by apply skips_digits. }
  pose proof (here_skip q1 _ Hsk1) as Hh2.
  destruct (digits_here _ n r Hall Hr (hr_rest _ _ _ Hh2)) as (q & -> & Hq).
  rewrite En. simpl. exists q. rewrite <-En. split; [done|].
  eapply here_trans; [exact Hh|]. eapply here_trans; [exact Hh1|]. by eapply here_trans.
Qed.
Lemma operand_solid y r : operand y → skips (y +:+ r) = y +:+ r.
Proof using Type.
  intros [n Hn|n Hn|x Hx _|x n Hx _ _].
  - destruct (decimal_spec n Hn) as (a & n' & -> & Ha & _). by apply skips_digits.
  - rewrite sapp_assoc, sapp_cons. by apply skips_solid.
  - by apply skips_ident.
  - rewrite sapp_assoc. by apply skips_ident.
Qed.

(** The right side, and the offset the parser adds to it. *)
Lemma operand_here p y r :
  operand y → after_conjunct r → rest p = y +:+ r →
  ∃ rhs addend q q', y = rhs +:+ addend ∧ parse_comparison_rhs p = (Some rhs, q) ∧
    (if match next_char rhs with Some (c, _) => is_ident_start c | None => false end
     then try_consume_addend q else None) = (if String.eqb addend "" then None else Some (addend, q')) ∧
    here p r (if String.eqb addend "" then q else q').
Proof using Type.
  intros Ho Hr Hp. pose proof (after_conjunct_boundary r Hr) as Hb.
  assert (Hident : ∀ x, identifier x = true →
    match next_char x with Some (c, _) => is_ident_start c | None => false end = true).
  { intros [|a x] Hx; [done|]. simpl in Hx. apply andb_true_iff in Hx as [Ha _].
    by rewrite next_char_ascii, ident_start_ascii by (by apply ident_char_ascii, ident_head_char). }
  destruct Ho as [n Hn|n Hn|x Hx Hk|x n Hx Hk Hn].
  - destruct (rhs_number p "" n r Hn (or_introl eq_refl) Hb Hp) as (q & E & Hq). rewrite sapp_nil_l in E.
    exists n, "", q, q. rewrite sapp_nil_r. split_and!; try done.
    destruct (decimal_spec n Hn) as (a & n' & -> & Ha & _).
    rewrite next_char_ascii, ident_start_ascii by (by apply ascii_digit_ascii).
    destruct (ident_head a) eqn:Eh; [|done]. apply ident_not_digit in Eh. congruence.
  - rewrite sapp_assoc in Hp. destruct (rhs_number p "-" n r Hn (or_intror eq_refl) Hb Hp) as (q & E & Hq).
    exists ("-" +:+ n), "", q, q. rewrite sapp_nil_r. by split_and!.
  - destruct (rhs_name p x r Hx Hk Hb Hp) as (q & E & Hq).
    exists x, "", q, q. rewrite sapp_nil_r. split_and!; try done.
    rewrite (Hident x Hx). simpl. apply (addend_none q r Hr (hr_rest _ _ _ Hq)).
  - rewrite sapp_assoc in Hp. assert (Hb' : boundary ((" + " +:+ n) +:+ r)) by (right; eexists; by left).
    destruct (rhs_name p x _ Hx Hk Hb' Hp) as (q & E & Hq). pose proof (hr_rest _ _ _ Hq) as Hrest.
    rewrite sapp_assoc in Hrest. destruct (addend_here q n r Hn Hb Hrest) as (q' & E' & Hq').
    exists x, (" + " +:+ n), q, q'. split_and!; try done; [by rewrite (Hident x Hx)|]. simpl.
    by eapply here_trans.
Qed.

Lemma compare_reads x op y :
  atom_name x = true → comparison_op op = true → operand y →
  inner_reads (x +:+ " " +:+ op +:+ " " +:+ y) (SCompare x op y) 0.
Proof using Type.
  intros Hx Hop Hy k p r Hp Hr _ _ Hfree. rewrite !sapp_assoc in Hp.
  set (r1 := " " +:+ op +:+ " " +:+ y +:+ r) in *. assert (Hb1 : boundary r1) by (right; eexists; by left).
  destruct (inner_atom (parse_unary k) (parse_or k) p x r1 Hx Hb1 Hp) as (q1 & H1 & ->).
  destruct (primary_atom (parse_or k) q1 x r1 Hx Hb1 (hr_rest _ _ _ H1)) as (q2 & H2 & ->).
  pose proof (here_trans _ _ _ _ _ H1 H2) as H. unfold parse_atom.
  change (lookup_binder q2 x) with (find_binder (binder_stack q2) x). rewrite (hr_stack _ _ _ H).
  simpl in Hfree. rewrite find_binder_none by (by apply negb_true_iff in Hfree).
  assert (Hs2 : skips (rest q2) = op +:+ " " +:+ y +:+ r).
  { rewrite (hr_rest _ _ _ H). unfold r1. rewrite skips_space.
    unfold comparison_op in Hop. apply existsb_exists in Hop as (o & Hin & ->%String.eqb_eq).
    repeat (destruct Hin as [<-|Hin]; [rewrite sapp_cons; by apply skips_solid|]). done. }
  pose proof (here_skip q2 _ Hs2) as H3.
  destruct (comparison_op_here _ op (y +:+ r) Hop (hr_rest _ _ _ H3)) as (q3 & -> & H4).
  assert (Hs3 : skips (rest q3) = y +:+ r).
  { rewrite (hr_rest _ _ _ H4), skips_space. by apply operand_solid. }
  pose proof (here_skip q3 _ Hs3) as H5.
  destruct (operand_here _ y r Hy Hr (hr_rest _ _ _ H5)) as (rhs & addend & q4 & q5 & -> & -> & -> & H6).
  pose proof (here_trans _ _ _ _ _ H (here_trans _ _ _ _ _ H3 (here_trans _ _ _ _ _ H4
    (here_trans _ _ _ _ _ H5 H6)))) as Hall.
  destruct (String.eqb_spec addend "") as [->|].
  - rewrite sapp_nil_r. apply (push_reads p q4 r r (NPredicate _) (SCompare x op rhs)); try done. node_tree_tac.
  - rewrite <-!sapp_assoc. rewrite !sapp_assoc.
    apply (push_reads p q5 r r (NPredicate _) (SCompare x op (rhs +:+ addend))); try done. node_tree_tac.
Qed.
(** ** Reading by level *)

Definition unary_reads (txt : string) (s : Syntax) (d : nat) : Prop :=
  ∀ k p r, skips (rest p) = txt +:+ r → after_conjunct r → String.length (rest p) < k →
    depth p + d ≤ MAX_PARSE_DEPTH → compares_free (names_of p) s = true →
    ∃ id q, parse_unary k p = Ok id q ∧ reads_as p s r id q.

(** A chain of conjuncts has read [txt] and goes on behind it. *)
Definition conjunction_reads (txt : string) (s : Syntax) (d : nat) : Prop :=
  ∀ k fuel p r, skips (rest p) = txt +:+ r → after_conjunct r → String.length (rest p) < k →
    String.length (rest p) < fuel → depth p + d ≤ MAX_PARSE_DEPTH →
    compares_free (names_of p) s = true →
    ∃ id q fuel', chain (parse_unary k) try_consume_and NAnd fuel p
                  = chain_loop (parse_unary k) try_consume_and NAnd fuel' id q ∧
      String.length (rest q) < fuel' ∧ reads_as p s r id q.

Definition disjunction_reads (txt : string) (s : Syntax) (d : nat) : Prop :=
  ∀ k fuel p r, skips (rest p) = txt +:+ r → after_disjunct r → String.length (rest p) < k →
    String.length (rest p) < fuel → depth p + d ≤ MAX_PARSE_DEPTH →
    compares_free (names_of p) s = true →
    ∃ id q fuel', chain (parse_and k) try_consume_or NOr fuel p
                  = chain_loop (parse_and k) try_consume_or NOr fuel' id q ∧
      String.length (rest q) < fuel' ∧ reads_as p s r id q.

Definition whole_reads (txt : string) (s : Syntax) (d : nat) : Prop :=
  ∀ k p r, skips (rest p) = txt +:+ r → closing r → String.length (rest p) < k →
    depth p + d ≤ MAX_PARSE_DEPTH → compares_free (names_of p) s = true →
    ∃ id q, parse_or k p = Ok id q ∧ reads_as p s r id q.

Definition level_reads (l : Level) : string → Syntax → nat → Prop :=
  match l with
  | Unary => unary_reads | Conjunction => conjunction_reads
  | Disjunction => disjunction_reads | Whole => whole_reads
  end.

Lemma parse_unary_step k p :
  parse_unary (S k) p =
  if MAX_PARSE_DEPTH <? depth p + 1
  then Err (error_here p (Expected "expression (maximum nesting depth exceeded)"))
  else let! (id, q) := parse_unary_inner (parse_unary k) (parse_or k) (with_depth (depth p + 1) p) in
       Ok id (with_depth (depth q - 1) q).
Proof using Type. done. Qed.

Lemma unary_from_inner txt s d : inner_reads txt s d → unary_reads txt s (S d).
Proof using Type.
  intros Hi k p r Hp Hr Hk Hd Hf. destruct k as [|k]; [lia|]. rewrite parse_unary_step.
  destruct (Nat.ltb_spec MAX_PARSE_DEPTH (depth p + 1)); [lia|].
  destruct (Hi k (with_depth (depth p + 1) p) r) as (id & q & -> & Hq); simpl; try done; try lia.
  exists id, (with_depth (depth q - 1) q). split; [done|].
  destruct Hq as [? ? ? Hdq ? ? ?]. split; try done. simpl in *. rewrite Hdq. lia.
Qed.

(** [p'] continues [p]: a token has been consumed. *)
Lemma reads_from_here p r0 p' s r id q :
  here p r0 p' → reads_as p' s r id q → reads_as p s r id q.
Proof using Type. intros [Hb Hs Hd _] []. split; unfold table in *; rewrite ?Hb, ?Hs, ?Hd in *; done. Qed.

Lemma names_of_here p r q : here p r q → names_of q = names_of p.
Proof using Type. intros [_ Hs _ _]. unfold names_of. by rewrite Hs. Qed.

(** A unary operator. *)
Lemma operator_reads k p p1 txt s d r (mk : NodeId → Node) (ms : Syntax → Syntax) (mt : Tree → Tree) r1 :
  here p r1 p1 → skips r1 = txt +:+ r → unary_reads txt s d → after_conjunct r → String.length r1 < k →
  depth p + d ≤ MAX_PARSE_DEPTH → compares_free (names_of p) s = true →
  (∀ st n, resolve st n (ms s) = (mt (resolve st n s).1, (resolve st n s).2)) →
  (∀ c t ns, repr ns c t → node_tree ns (mk c) (mt t)) →
  ∃ id q, (let! (id, q) := parse_unary k p1 in push (mk id) q) = Ok id q ∧ reads_as p (ms s) r id q.
Proof using Type.
  intros H1 Hs Hu Hr Hk Hd Hf Hres Hmk. pose proof (hr_rest _ _ _ H1) as Hrest.
  destruct (Hu k p1 r) as (id & q & -> & Hq); try done.
  - by rewrite Hrest.
  - by rewrite Hrest.
  - by rewrite (hr_depth _ _ _ H1).
  - by rewrite (names_of_here _ _ _ H1).
  - apply (reads_from_here p _ p1 _ _ _ _ H1) in Hq. destruct Hq as [? ? ? ? [ext He] Ht Htab].
    unfold push, push_node. eexists _, _. split; [done|]. split; simpl; rewrite ?Hres; try done.
    + exists (ext ++ [mk id]). by rewrite He, app_assoc.
    + apply (Hmk id _ _ Ht); [apply lookup_push|by eexists].
Qed.

(** A text that starts with a visible character. *)
Definition solid (txt : string) : Prop :=
  head_is (λ a, is_ascii a && negb (ascii_space a)) txt = true.

Lemma skips_solid_text txt r : solid txt → skips (txt +:+ r) = txt +:+ r.
Proof using Type.
  unfold solid. destruct txt as [|a txt]; [done|]. simpl. intros [Ha Hs]%andb_true_iff.
  rewrite sapp_cons. apply skips_solid; [done|]. by apply negb_true_iff.
Qed.

Lemma skipped_length p s : skips (rest p) = s → String.length s ≤ String.length (rest p).
Proof using Type. intros <-. apply skips_length. Qed.

Lemma not_reads txt s d : solid txt → unary_reads txt s d → inner_reads ("!" +:+ txt) (SNot s) d.
Proof using Type.
  intros Hso Hu k p r Hp Hr Hk Hd Hf. rewrite sapp_assoc in Hp.
  pose proof (here_skip p _ Hp) as Hh. pose proof (hr_rest _ _ _ Hh) as Hrest.
  apply skipped_length in Hp. rewrite length_sapp in Hp. simpl in Hp.
  set (p1 := skip_whitespace p) in *. unfold parse_unary_inner. fold p1. unfold try_consume_not, try_consume_char.
  rewrite (consume_none "¬" p1) by (rewrite Hrest; done).
  destruct (consume_here "!" p1 _ Hrest) as (p2 & -> & H2). simpl or_else. cbv iota beta.
  apply (operator_reads k p p2 txt s d r NNot SNot TNot (txt +:+ r)); try done; try lia.
  - by eapply here_trans.
  - by apply skips_solid_text.
  - intros st n. simpl. by destruct (resolve st n s).
  - intros c t ns H. node_tree_tac.
Qed.

(** The tests before a modality. *)
Lemma inner_modal ru ro p a r :
  skips (rest p) = String a r → Ascii.eqb a "[" || Ascii.eqb a "<" = true →
  parse_unary_inner ru ro p =
    let p1 := skip_whitespace p in
    match try_consume_char "[" p1 with
    | Some q => parse_modal ru Box "]" q
    | None => match try_consume_char "<" p1 with Some q => parse_modal ru Diamond ">" q | None => parse_primary ro p1 end
    end.
Proof using Type.
  intros Hp Ha. unfold parse_unary_inner. set (p1 := skip_whitespace p).
  assert (Hrest : rest p1 = String a r) by (unfold p1; by rewrite skip_rest).
  assert (Hk : ∀ c kw, ascii_lower c = true → consume_keyword (String c kw) p1 = None).
  { intros c kw Hc. eapply keyword_head_none; [exact Hrest|]. destruct (Ascii.eqb_spec c (to_lower a)) as [->|]; [|done].
    apply orb_true_iff in Ha as [Ha|Ha]; apply Ascii.eqb_eq in Ha as ->; by vm_compute in Hc. }
  assert (Hc : ∀ s, negb (head_is (λ c, Ascii.eqb c "[" || Ascii.eqb c "<") s || String.eqb s "") = true →
    try_consume_str s p1 = None).
  { intros [|c s] H; [done|]. eapply consume_head_none; [exact Hrest|]. simpl in H.
    rewrite orb_false_r in H. apply negb_true_iff in H.
    destruct (Ascii.eqb_spec c a) as [->|]; [congruence|done]. }
  unfold try_consume_not, try_consume_char.
  rewrite (Hc "¬"), (Hc "!"), (Hk "n"%char), (Hk "m"%char), (Hc "μ"), (Hk "n"%char), (Hc "ν"), (Hc "⟨") by done.
  done.
Qed.

Lemma guard_here closing p r :
  rest p = closing +:+ r → closing = "]" ∨ closing = ">" →
  ∃ q, parse_guard closing p = Ok Guard_default q ∧ here p r q.
Proof using Type.
  intros Hp Hc. unfold parse_guard.
  assert (Hs : skips (rest p) = closing +:+ r).
  { rewrite Hp. destruct Hc as [->| ->]; rewrite sapp_cons; by apply skips_solid. }
  pose proof (here_skip p _ Hs) as Hh.
  destruct (consume_here closing _ _ (hr_rest _ _ _ Hh)) as (q & E & Hq). unfold try_consume_char. rewrite E.
  exists q. split; [done|]. by eapply here_trans.
Qed.

Lemma modal_reads (box : bool) txt s d :
  solid txt → unary_reads txt s d →
  inner_reads ((if box then "[] " else "<> ") +:+ txt) (SModal (if box then Box else Diamond) Guard_default s) d.
Proof using Type.
  intros Hso Hu k p r Hp Hr Hk Hd Hf.
  assert (Hp' : skips (rest p) = (if box then "[" else "<") +:+ (if box then "]" else ">") +:+ " " +:+ txt +:+ r).
  { rewrite Hp. by destruct box. }
  clear Hp. pose proof (here_skip p _ Hp') as Hh. pose proof (hr_rest _ _ _ Hh) as Hrest.
  pose proof (skipped_length p _ Hp') as Hlen.
  assert (Hl : String.length (" " +:+ txt +:+ r) < k).
  { destruct box; rewrite !length_sapp in Hlen; simpl in Hlen; rewrite !length_sapp; simpl; lia. }
  assert (Hin : parse_unary_inner (parse_unary k) (parse_or k) p =
    match try_consume_char (if box then "[" else "<") (skip_whitespace p) with
    | Some q => parse_modal (parse_unary k) (if box then Box else Diamond) (if box then "]" else ">") q
    | None => parse_primary (parse_or k) (skip_whitespace p)
    end).
  { destruct box; rewrite sapp_cons in Hp'; rewrite (inner_modal _ _ p _ _ Hp') by done; cbv zeta;
      unfold try_consume_char; rewrite (hr_rest _ _ _ Hh) in Hrest.
    - destruct (try_consume_str "[" (skip_whitespace p)) eqn:E; [done|].
      destruct (consume_here "[" _ _ (hr_rest _ _ _ Hh)) as (q & E' & _). congruence.
    - by rewrite (consume_none "[") by (rewrite (hr_rest _ _ _ Hh); done). }
  rewrite Hin. clear Hin.
  destruct (consume_here _ _ _ Hrest) as (p2 & E & H2). unfold try_consume_char. rewrite E.
  unfold parse_modal.
  destruct (guard_here (if box then "]" else ">") p2 (" " +:+ txt +:+ r)) as (p3 & -> & H3).
  { apply (hr_rest _ _ _ H2). }
  { destruct box; auto. }
  apply (operator_reads k p p3 txt s d r (NModal (if box then Box else Diamond) Guard_default)
    (SModal (if box then Box else Diamond) Guard_default) (TModal (if box then Box else Diamond) Guard_default)
    (" " +:+ txt +:+ r)); try done.
  - eapply here_trans; [exact Hh|]. by eapply here_trans.
  - rewrite skips_space. by apply skips_solid_text.
  - intros st n. simpl. by destruct (resolve st n s).
  - intros c t ns H. node_tree_tac.
Qed.
Lemma reads_then_here p s r id q r' q' :
  reads_as p s r id q → here q r' q' → reads_as p s r' id q'.
Proof using Type.
  intros [? ? ? ? ? ? ?] [Hb Hs Hd Hr]. split; unfold table in *; rewrite ?Hb, ?Hs, ?Hd, ?Hr in *; done.
Qed.

Lemma paren_reads txt s d : solid txt → whole_reads txt s d → inner_reads ("(" +:+ txt +:+ ")") s d.
Proof using Type.
  intros Hso Hw k p r Hp Hr Hk Hd Hf. rewrite !sapp_assoc in Hp.
  pose proof (skipped_length p _ Hp) as Hlen. rewrite !length_sapp in Hlen. simpl in Hlen.
  pose proof (here_skip p _ Hp) as Hh. pose proof (hr_rest _ _ _ Hh) as Hrest.
  assert (Hin : parse_unary_inner (parse_unary k) (parse_or k) p = parse_primary (parse_or k) (skip_whitespace p)).
  { rewrite sapp_cons in Hp, Hrest. eapply inner_primary; try exact Hp; try done; by eapply keyword_head_none. }
  rewrite Hin. clear Hin. unfold parse_primary. set (p1 := skip_whitespace p) in *.
  assert (Hp1 : skips (rest p1) = "(" +:+ txt +:+ ")" +:+ r).
  { rewrite Hrest, sapp_cons. by apply skips_solid. }
  pose proof (here_skip p1 _ Hp1) as Hh1.
  destruct (consume_here "(" _ _ (hr_rest _ _ _ Hh1)) as (p2 & E & H2). unfold try_consume_char at 1. rewrite E.
  pose proof (here_trans _ _ _ _ _ Hh (here_trans _ _ _ _ _ Hh1 H2)) as H02.
  pose proof (hr_rest _ _ _ H02) as Hrest2.
  destruct (Hw k p2 (")" +:+ r)) as (id & q & -> & Hq).
  - rewrite Hrest2. by apply skips_solid_text.
  - right. by eexists.
  - rewrite Hrest2, !length_sapp. simpl. lia.
  - rewrite (hr_depth _ _ _ H02). lia.
  - by rewrite (names_of_here _ _ _ H02).
  - apply (reads_from_here p _ p2 _ _ _ _ H02) in Hq.
    assert (Hs : skips (rest q) = ")" +:+ r) by (rewrite (ra_rest _ _ _ _ _ Hq), sapp_cons; by apply skips_solid).
    pose proof (here_skip q _ Hs) as Hh3. unfold expect_char.
    assert (Hs2 : skips (rest (skip_whitespace q)) = ")" +:+ r).
    { rewrite (hr_rest _ _ _ Hh3), sapp_cons. by apply skips_solid. }
    pose proof (here_skip _ _ Hs2) as Hh4.
    destruct (consume_here ")" _ _ (hr_rest _ _ _ Hh4)) as (q2 & E2 & H4). unfold try_consume_char. rewrite E2.
    exists id, q2. split; [done|].
    eapply reads_then_here; [exact Hq|]. eapply here_trans; [exact Hh3|]. by eapply here_trans.
Qed.

(** ** Chains *)

(** An operator in front. *)
Lemma and_here p r : rest p = "&& " +:+ r → ∃ q, try_consume_and p = Some q ∧ here p (" " +:+ r) q.
Proof using Type.
  intros Hp. unfold try_consume_and, try_consume_char.
  rewrite (consume_none "∧" p) by (rewrite Hp; done).
  destruct (consume_here "&&" p (" " +:+ r) Hp) as (q & -> & Hq). by exists q.
Qed.

Lemma or_here p r : rest p = "|| " +:+ r → ∃ q, try_consume_or p = Some q ∧ here p (" " +:+ r) q.
Proof using Type.
  intros Hp. unfold try_consume_or, try_consume_char.
  rewrite (consume_none "∨" p) by (rewrite Hp; done).
  destruct (consume_here "||" p (" " +:+ r) Hp) as (q & -> & Hq). by exists q.
Qed.

(** No operator in front. *)
Lemma and_none p r : after_disjunct r → rest p = skips r → try_consume_and p = None.
Proof using Type.
  intros Hr Hp. unfold try_consume_and, try_consume_char, try_consume_str, consume_keyword, starts_with.
  destruct Hr as [[->|[r' ->]]|[r' ->]];
    rewrite Hp, ?sapp_cons, ?sapp_nil_l, ?skips_empty, ?skips_cons by done; simpl;
    rewrite ?skips_cons by done; done.
Qed.

Lemma or_none p r : closing r → rest p = skips r → try_consume_or p = None.
Proof using Type.
  intros Hr Hp. unfold try_consume_or, try_consume_char, try_consume_str, consume_keyword, starts_with.
  destruct Hr as [->|[r' ->]];
    rewrite Hp, ?sapp_cons, ?sapp_nil_l, ?skips_empty, ?skips_cons by done; simpl;
    rewrite ?skips_cons by done; done.
Qed.

(** The node of a binary connective over two operands read one after the other. *)
Lemma pair_reads p s1 r1 id1 q r2 p2 s2 r id2 q2 ms (mk : NodeId → NodeId → Node) (mt : Tree → Tree → Tree) :
  reads_as p s1 r1 id1 q → here q r2 p2 → reads_as p2 s2 r id2 q2 →
  (∀ st n, resolve st n (ms s1 s2) =
    (mt (resolve st n s1).1 (resolve st (resolve st n s1).2 s2).1, (resolve st (resolve st n s1).2 s2).2)) →
  (∀ c d t u ns, repr ns c t → repr ns d u → node_tree ns (mk c d) (mt t u)) →
  ∃ id q', push (mk id1 id2) q2 = Ok id q' ∧ reads_as p (ms s1 s2) r id q' ∧ rest q' = rest q2.
Proof using Type.
  intros [_ _ Hs1 Hd1 [e1 He1] Ht1 Hb1] [Hb Hs Hd _] [? ? Hs2 Hd2 [e2 He2] Ht2 Hb2] Hres Hmk.
  unfold table in Ht2, Hb2 at 2. rewrite Hs, Hs1, Hb in Ht2. rewrite Hs, Hs1, Hb in Hb2.
  fold (table q) in Ht2, Hb2. rewrite Hb1 in Ht2, Hb2.
  unfold push, push_node. eexists _, _. split_and!; [done| |done].
  split; simpl; rewrite ?Hres; simpl; try done; try congruence.
  - exists (e1 ++ e2 ++ [mk id1 id2]). by rewrite He2, Hb, He1, !app_assoc.
  - assert (Ht1' : repr (b_nodes (p_builder q2)) id1 (resolve (binder_stack p) (table p) s1).1).
    { rewrite He2, Hb. by apply repr_mono. }
    apply (Hmk id1 id2 _ _ _ Ht1' Ht2); [apply lookup_push|by eexists].
Qed.

Lemma conjunction_from_unary txt s d : unary_reads txt s d → conjunction_reads txt s d.
Proof using Type.
  intros Hu k fuel p r Hp Hr Hk Hf Hd Hc. destruct (Hu k p r Hp Hr Hk Hd Hc) as (id & q & E & Hq).
  exists id, q, fuel. unfold chain. rewrite E. split_and!; try done.
  pose proof (ra_length _ _ _ _ _ Hq). apply skipped_length in Hp. rewrite length_sapp in Hp. lia.
Qed.

Lemma conjunction_reads_and t1 s1 d1 t2 s2 d2 :
  solid t2 → conjunction_reads t1 s1 d1 → unary_reads t2 s2 d2 →
  conjunction_reads (t1 +:+ " && " +:+ t2) (SAnd s1 s2) (d1 `max` d2).
Proof using Type.
  intros Hso H1 H2 k fuel p r Hp Hr Hk Hf Hd Hc. simpl in Hc. apply andb_true_iff in Hc as [Hc1 Hc2].
  rewrite !sapp_assoc in Hp. pose proof (skipped_length p _ Hp) as Hlen.
  destruct (H1 k fuel p (" && " +:+ t2 +:+ r)) as (id1 & q & fuel' & -> & Hf' & Hq); try done; try lia.
  { right. by eexists. }
  destruct fuel' as [|f]; [lia|]. cbn [chain_loop].
  assert (Hs : skips (rest q) = "&& " +:+ t2 +:+ r).
  { rewrite (ra_rest _ _ _ _ _ Hq). change (" && " +:+ t2 +:+ r) with (" " +:+ "&& " +:+ t2 +:+ r).
    rewrite skips_space, sapp_cons. by apply skips_solid. }
  pose proof (skipped_length q _ Hs) as Hlq. pose proof (ra_length _ _ _ _ _ Hq) as Hlq2.
  rewrite !length_sapp in Hlen. rewrite !length_sapp in Hlq. rewrite !length_sapp in Hlq2. simpl in Hlen, Hlq, Hlq2.
  pose proof (here_skip q _ Hs) as Hh. destruct (and_here _ _ (hr_rest _ _ _ Hh)) as (p2 & -> & Hp2).
  pose proof (here_trans _ _ _ _ _ Hh Hp2) as Hqp.
  destruct (H2 k p2 r) as (id2 & q2 & -> & Hq2); try done.
  { rewrite (hr_rest _ _ _ Hqp), skips_space. by apply skips_solid_text. }
  { rewrite (hr_rest _ _ _ Hqp), !length_sapp. simpl. lia. }
  { rewrite (hr_depth _ _ _ Hqp), (ra_depth _ _ _ _ _ Hq). lia. }
  { unfold names_of. by rewrite (hr_stack _ _ _ Hqp), (ra_stack _ _ _ _ _ Hq). }
  destruct (pair_reads p s1 _ id1 q _ p2 s2 r id2 q2 SAnd NAnd TAnd Hq Hqp Hq2) as (id & q' & -> & Hq' & Hr').
  - intros st n. simpl. destruct (resolve st n s1) as [a m]. simpl. by destruct (resolve st m s2).
  - intros c d t u ns ? ?. node_tree_tac.
  - exists id, q', f. split_and!; try done. rewrite Hr'. pose proof (ra_length _ _ _ _ _ Hq2). lia.
Qed.

Lemma parse_and_reads txt s d k p r :
  conjunction_reads txt s d → skips (rest p) = txt +:+ r → after_disjunct r → String.length (rest p) < k →
  depth p + d ≤ MAX_PARSE_DEPTH → compares_free (names_of p) s = true →
  ∃ id q, parse_and k p = Ok id q ∧ reads_as p s r id q.
Proof using Type.
  intros Hc Hp Hr Hk Hd Hf. unfold parse_and.
  destruct (Hc k (S (String.length (rest p))) p r) as (id & q & fuel & -> & Hf' & Hq); try done; [by left|lia|].
  destruct fuel as [|f]; [lia|]. cbn [chain_loop].
  pose proof (here_skip q (skips r) (ra_rest _ _ _ _ _ Hq)) as Hh.
  rewrite (and_none _ r Hr (hr_rest _ _ _ Hh)). exists id, (skip_whitespace q). split; [done|].
  destruct Hq as [? ? ? ? ? ? ?], Hh as [Hb Hs Hdp Hrest].
  split; unfold table in *; rewrite ?Hb, ?Hs, ?Hdp, ?Hrest in *; try done.
  - apply skips_idem. by left.
  - apply skips_length.
Qed.

Lemma disjunction_from_conjunction txt s d : conjunction_reads txt s d → disjunction_reads txt s d.
Proof using Type.
  intros Hu k fuel p r Hp Hr Hk Hf Hd Hc.
  destruct (parse_and_reads txt s d k p r Hu Hp Hr Hk Hd Hc) as (id & q & E & Hq).
  exists id, q, fuel. unfold chain. rewrite E. split_and!; try done.
  pose proof (ra_length _ _ _ _ _ Hq). apply skipped_length in Hp. rewrite length_sapp in Hp. lia.
Qed.

Lemma disjunction_reads_or t1 s1 d1 t2 s2 d2 :
  solid t2 → disjunction_reads t1 s1 d1 → conjunction_reads t2 s2 d2 →
  disjunction_reads (t1 +:+ " || " +:+ t2) (SOr s1 s2) (d1 `max` d2).
Proof using Type.
  intros Hso H1 H2 k fuel p r Hp Hr Hk Hf Hd Hc. simpl in Hc. apply andb_true_iff in Hc as [Hc1 Hc2].
  rewrite !sapp_assoc in Hp. pose proof (skipped_length p _ Hp) as Hlen.
  destruct (H1 k fuel p (" || " +:+ t2 +:+ r)) as (id1 & q & fuel' & -> & Hf' & Hq); try done; try lia.
  { right. by eexists. }
  destruct fuel' as [|f]; [lia|]. cbn [chain_loop].
  assert (Hs : skips (rest q) = "|| " +:+ t2 +:+ r).
  { rewrite (ra_rest _ _ _ _ _ Hq). change (" || " +:+ t2 +:+ r) with (" " +:+ "|| " +:+ t2 +:+ r).
    rewrite skips_space, sapp_cons. by apply skips_solid. }
  pose proof (skipped_length q _ Hs) as Hlq. pose proof (ra_length _ _ _ _ _ Hq) as Hlq2.
  rewrite !length_sapp in Hlen. rewrite !length_sapp in Hlq. rewrite !length_sapp in Hlq2. simpl in Hlen, Hlq, Hlq2.
  pose proof (here_skip q _ Hs) as Hh. destruct (or_here _ _ (hr_rest _ _ _ Hh)) as (p2 & -> & Hp2).
  pose proof (here_trans _ _ _ _ _ Hh Hp2) as Hqp.
  destruct (parse_and_reads t2 s2 d2 k p2 r H2) as (id2 & q2 & -> & Hq2); try done.
  { rewrite (hr_rest _ _ _ Hqp), skips_space. by apply skips_solid_text. }
  { rewrite (hr_rest _ _ _ Hqp), !length_sapp. simpl. lia. }
  { rewrite (hr_depth _ _ _ Hqp), (ra_depth _ _ _ _ _ Hq). lia. }
  { unfold names_of. by rewrite (hr_stack _ _ _ Hqp), (ra_stack _ _ _ _ _ Hq). }
  destruct (pair_reads p s1 _ id1 q _ p2 s2 r id2 q2 SOr NOr TOr Hq Hqp Hq2) as (id & q' & -> & Hq' & Hr').
  - intros st n. simpl. destruct (resolve st n s1) as [a m]. simpl. by destruct (resolve st m s2).
  - intros c d t u ns ? ?. node_tree_tac.
  - exists id, q', f. split_and!; try done. rewrite Hr'. pose proof (ra_length _ _ _ _ _ Hq2). lia.
Qed.

Lemma closing_after_conjunct r : closing r → after_conjunct r.
Proof using Type. intros H. by left; left. Qed.

Lemma whole_from_disjunction txt s d : disjunction_reads txt s d → whole_reads txt s d.
Proof using Type.
  intros Hdj k p r Hp Hr Hk Hd Hf. unfold parse_or.
  destruct (Hdj k (S (String.length (rest p))) p r) as (id & q & fuel & -> & Hf' & Hq); try done; [by left|lia|].
  destruct fuel as [|f]; [lia|]. cbn [chain_loop].
  pose proof (here_skip q (skips r) (ra_rest _ _ _ _ _ Hq)) as Hh.
  rewrite (or_none _ r Hr (hr_rest _ _ _ Hh)). exists id, (skip_whitespace q). split; [done|].
  destruct Hq as [? ? ? ? ? ? ?], Hh as [Hb Hs Hdp Hrest].
  split; unfold table in *; rewrite ?Hb, ?Hs, ?Hdp, ?Hrest in *; try done.
  - by apply skips_idem, closing_after_conjunct.
  - apply skips_length.
Qed.
(** ** Fixpoints *)

(** A text that the parser of operands reads up to a closing parenthesis. *)
Lemma whole_from_unary txt s d :
  (∀ k p r, skips (rest p) = txt +:+ r → closing r → String.length (rest p) < k →
    depth p + d ≤ MAX_PARSE_DEPTH → compares_free (names_of p) s = true →
    ∃ id q, parse_unary k p = Ok id q ∧ reads_as p s r id q) →
  whole_reads txt s d.
Proof using Type.
  intros Hu k p r Hp Hr Hk Hd Hf. unfold parse_or, parse_and, chain.
  destruct (Hu k p r Hp Hr Hk Hd Hf) as (id & q & -> & Hq). cbn [chain_loop].
  pose proof (closing_after_conjunct r Hr) as Hr'.
  pose proof (here_skip q (skips r) (ra_rest _ _ _ _ _ Hq)) as Hh.
  rewrite (and_none _ r (or_introl Hr) (hr_rest _ _ _ Hh)).
  assert (Hs : skips (rest (skip_whitespace q)) = skips r).
  { rewrite (hr_rest _ _ _ Hh). by apply skips_idem. }
  pose proof (here_skip _ _ Hs) as Hh2. rewrite (or_none _ r Hr (hr_rest _ _ _ Hh2)).
  eexists _, _. split; [done|]. destruct (here_trans _ _ _ _ _ Hh Hh2) as [Hb Hst Hdp Hrest].
  destruct Hq. split; unfold table in *; rewrite ?Hb, ?Hst, ?Hdp, ?Hrest in *; try done.
  - by apply skips_idem.
  - apply skips_length.
Qed.

(** The keyword of a fixpoint is read. *)
Lemma inner_fixpoint ru ro p (least : bool) r :
  skips (rest p) = (if least then "mu" else "nu") +:+ " " +:+ r →
  ∃ q, here p (" " +:+ r) q ∧
    parse_unary_inner ru ro p = parse_fixpoint ro (if least then NMu else NNu) q.
Proof using Type.
  intros Hp. pose proof (here_skip p _ Hp) as Hh. pose proof (hr_rest _ _ _ Hh) as Hrest.
  unfold parse_unary_inner. set (p1 := skip_whitespace p) in *.
  assert (Hb : boundary (" " +:+ r)) by (right; eexists; by left).
  assert (Hnot : try_consume_not p1 = None).
  { unfold try_consume_not, try_consume_char, try_consume_str, consume_keyword, starts_with.
    rewrite Hrest. by destruct least. }
  rewrite Hnot. destruct least.
  - destruct (keyword_here "mu" p1 _ eq_refl Hrest Hb) as (q & -> & Hq). exists q. split; [|done].
    by eapply here_trans.
  - assert (Hmu : or_else (consume_keyword "mu" p1) (try_consume_char "μ" p1) = None).
    { unfold try_consume_char, try_consume_str, consume_keyword, starts_with. by rewrite Hrest. }
    rewrite Hmu. destruct (keyword_here "nu" p1 _ eq_refl Hrest Hb) as (q & -> & Hq). exists q. split; [|done].
    by eapply here_trans.
Qed.

Lemma fixpoint_here ro p (mk : FormulaVarId → NodeId → Node) x r :
  identifier x = true → rest p = " " +:+ x +:+ ". " +:+ r →
  ∃ q, here p (" " +:+ r) q ∧ parse_fixpoint ro mk p =
    let '(v, b) := push_var (p_builder p) x in
    let! (body, q') := ro (with_stack ({| b_name := x; b_id := v |} :: binder_stack p) (with_builder b q)) in
    push (mk v body) (with_stack (binder_stack p) q').
Proof using Type.
  intros Hx Hp. unfold parse_fixpoint. set (r1 := ". " +:+ r) in *.
  assert (Hs : skips (rest p) = x +:+ r1) by (rewrite Hp, skips_space; by apply skips_ident).
  pose proof (here_skip p _ Hs) as H1.
  assert (Hs1 : skips (rest (skip_whitespace p)) = x +:+ r1) by (rewrite (hr_rest _ _ _ H1); by apply skips_ident).
  assert (Hb : boundary r1) by (right; exists r; by right; right).
  destruct (identifier_here _ x r1 Hx Hb Hs1) as (q1 & -> & H2).
  pose proof (here_trans _ _ _ _ _ H1 H2) as H12.
  assert (Hr1 : skips r1 = "." +:+ " " +:+ r) by (unfold r1; rewrite sapp_cons; by apply skips_solid).
  assert (Hs2 : skips (rest q1) = "." +:+ " " +:+ r) by (by rewrite (hr_rest _ _ _ H12)).
  pose proof (here_skip q1 _ Hs2) as H3. unfold expect_char.
  assert (Hs3 : skips (rest (skip_whitespace q1)) = "." +:+ " " +:+ r).
  { rewrite (hr_rest _ _ _ H3), sapp_cons. by apply skips_solid. }
  pose proof (here_skip _ _ Hs3) as H4.
  destruct (consume_here "." _ _ (hr_rest _ _ _ H4)) as (q & E & H5). unfold try_consume_char. rewrite E.
  pose proof (here_trans _ _ _ _ _ H12 (here_trans _ _ _ _ _ H3 (here_trans _ _ _ _ _ H4 H5))) as H.
  exists q. split; [done|]. unfold push_var. destruct H as [-> -> _ _]. done.
Qed.

Lemma fixpoint_reads (least : bool) x txt s d :
  let k0 := if least then Least else Greatest in
  identifier x = true → solid txt → whole_reads txt s d →
  whole_reads ((if least then "mu " else "nu ") +:+ x +:+ ". " +:+ txt) (SFix k0 x s) (S d).
Proof using Type.
  intros k0 Hx Hso Hw. apply whole_from_unary. intros k p r Hp Hr Hk Hd Hf. rewrite !sapp_assoc in Hp.
  destruct k as [|k]; [lia|]. rewrite parse_unary_step.
  destruct (Nat.ltb_spec MAX_PARSE_DEPTH (depth p + 1)); [lia|].
  set (p0 := with_depth (depth p + 1) p).
  assert (Hp0 : skips (rest p0) = (if least then "mu" else "nu") +:+ " " +:+ x +:+ ". " +:+ txt +:+ r).
  { simpl. rewrite Hp. by destruct least. }
  pose proof (skipped_length _ _ Hp0) as Hlen. rewrite !length_sapp in Hlen.
  destruct (inner_fixpoint (parse_unary k) (parse_or k) p0 least _ Hp0) as (p1 & H1 & ->).
  destruct (fixpoint_here (parse_or k) p1 (if least then NMu else NNu) x _ Hx (hr_rest _ _ _ H1)) as (p2 & H2 & ->).
  pose proof (here_trans _ _ _ _ _ H1 H2) as H02. unfold push_var. cbv beta iota.
  rewrite (hr_builder _ _ _ H1), (hr_stack _ _ _ H1).
  set (v := length (b_vars (p_builder p0))).
  set (inner := with_stack _ _). pose proof (hr_rest _ _ _ H02) as Hrest.
  destruct (Hw k inner r) as (body & q & -> & Hq).
  - subst inner. simpl rest. rewrite Hrest, skips_space. by apply skips_solid_text.
  - done.
  - subst inner. simpl rest. rewrite Hrest, !length_sapp. destruct least; simpl in Hlen; simpl in *; lia.
  - subst inner. simpl. rewrite (hr_depth _ _ _ H02). simpl. lia.
  - exact Hf.
  - destruct Hq as [Hq1 Hq2 Hq3 Hq4 [ext Hq5] Hq6 Hq7]. subst inner. simpl in *.
    unfold table in Hq6, Hq7. simpl in Hq6, Hq7. rewrite length_app in Hq6, Hq7. simpl in Hq6, Hq7.
    replace (length (b_vars (p_builder p)) + 1) with (S v) in Hq6, Hq7 by (unfold v; simpl; lia).
    unfold push, push_node. eexists _, _. split; [done|].
    assert (Hres : resolve (binder_stack p) (table p) (SFix k0 x s)
      = (TFix k0 v (resolve ({| b_name := x; b_id := v |} :: binder_stack p) (S v) s).1,
         (resolve ({| b_name := x; b_id := v |} :: binder_stack p) (S v) s).2)).
    { simpl. unfold v, table. simpl. by destruct (resolve _ (S _) s). }
    split; rewrite ?Hres; simpl; try done.
    + rewrite Hq4, (hr_depth _ _ _ H02). simpl. lia.
    + rewrite Hq5. exists (ext ++ [if least then NMu v body else NNu v body]).
      rewrite <-app_assoc. by destruct least.
    + subst k0. destruct least; eapply repr_mu || eapply repr_nu; try apply lookup_push;
        by apply repr_mono.
Qed.

(** ** The parser reads the grammar *)

Lemma ident_head_solid a : ident_head a = true → is_ascii a && negb (ascii_space a) = true.
Proof using Type. intros Ha. by rewrite (ident_char_ascii a (ident_head_char a Ha)), ident_not_space. Qed.

Lemma head_app f s t : head_is f s = true → head_is f (s +:+ t) = true.
Proof using Type. by destruct s. Qed.

Lemma atom_solid x r : atom_name x = true → solid (x +:+ r).
Proof using Type.
  intros [Hx _]%andb_true_iff. apply head_app. destruct x as [|a x]; [done|]. simpl in *.
  apply andb_true_iff in Hx as [Ha _]. by apply ident_head_solid.
Qed.

Lemma derives_solid l txt s d : derives l txt s d → solid txt.
Proof using Type.
  intros H. induction H; try done; try (by apply head_app).
  - by destruct b.
  - rewrite <-(sapp_nil_r x). by apply atom_solid.
  - by apply atom_solid.
Qed.

Lemma derives_reads l txt s d : derives l txt s d → level_reads l txt s d.
Proof using Type.
  intros H. induction H as [b|x Hx|x op y Hx Ho Hy|txt s d H IH|txt s d H IH|txt s d H IH|txt s d H IH
    |txt s d H IH|t1 s1 d1 t2 s2 d2 H1 IH1 H2 IH2|txt s d H IH|t1 s1 d1 t2 s2 d2 H1 IH1 H2 IH2|txt s d H IH
    |x txt s d Hx H IH|x txt s d Hx H IH]; simpl in *;
    try (pose proof (derives_solid _ _ _ _ H) as Hso).
  - apply unary_from_inner, const_reads.
  - by apply unary_from_inner, atom_reads.
  - by apply unary_from_inner, compare_reads.
  - by apply unary_from_inner, paren_reads.
  - by apply unary_from_inner, not_reads.
  - by apply unary_from_inner, (modal_reads true).
  - by apply unary_from_inner, (modal_reads false).
  - by apply conjunction_from_unary.
  - apply conjunction_reads_and; [by eapply derives_solid|done..].
  - by apply disjunction_from_conjunction.
  - apply disjunction_reads_or; [by eapply derives_solid|done..].
  - by apply whole_from_disjunction.
  - by apply (fixpoint_reads true).
  - by apply (fixpoint_reads false).
Qed.
Lemma parse_derives txt s d :
  derives Whole txt s d → d ≤ MAX_PARSE_DEPTH → compares_free [] s = true →
  ∃ f p, parse txt = Ok f p ∧ closed_formula f (resolve [] 0 s).1.
Proof using Type.
  intros Hd Hle Hc. pose proof (derives_reads _ _ _ _ Hd) as Hr.
  pose proof (skips_solid_text txt "" (derives_solid _ _ _ _ Hd)) as Hs.
  destruct (Hr (S (String.length txt)) (Parser_new txt) "") as (id & q & E & Hq).
  - simpl rest. by rewrite sapp_nil_r in *.
  - by left.
  - simpl. lia.
  - done.
  - done.
  - pose proof (parse_outcome txt) as Hcl. unfold parse, parse_formula in *. rewrite E in *.
    assert (Hrest : rest (skip_whitespace q) = "") by (rewrite skip_rest; apply Hq).
    rewrite Hrest in *. simpl in *. eexists _, _. split; [done|].
    destruct Hcl as (t & Hcl). assert (Ht : formula_tree {| nodes := b_nodes (p_builder (skip_whitespace q));
      vars := b_vars (p_builder (skip_whitespace q)); root := id |} (resolve [] 0 s).1).
    { destruct (skip_whitespace_token q) as [Hb _ _ _]. unfold formula_tree. simpl. rewrite Hb. apply Hq. }
    replace ((resolve [] 0 s).1) with t; [done|]. destruct Hcl as [_ Ht' _ _]. by eapply repr_det.
Qed.
End reading.

(** * Properties *)

(** C31: the parser reads the grammar. A text derived for a syntax tree, nested
    at most 256 deep and comparing no variable, is accepted (the grammar has the
    unguarded modalities and the ASCII symbols of the connectives); the formula's tree
    is the syntax tree with every identifier resolved to its innermost binder,
    or to a predicate where there is none. *)
Theorem parse_reads {U : Unicode} txt s d :
  derives Whole txt s d → d ≤ MAX_PARSE_DEPTH → compares_free [] s = true →
  ∃ f p, parse txt = Ok f p ∧ wf_formula f ∧ formula_tree f (resolve [] 0 s).1.
Proof.
  intros Hd Hle Hc. destruct (parse_derives _ _ _ Hd Hle Hc) as (f & p & E & [Hwf Ht _ _]). by exists f, p.
Qed.

(** [n] negations in front of [p]. *)
Fixpoint negations (n : nat) : string :=
  match n with O => "p" | S k => "!" +:+ negations k end.

(** The nesting limit: 255 operators in front of a predicate are read, 256 are
    refused. *)
Theorem nesting_limit :
  (∃ f p, parse (U := ascii_only) (negations 255) = Ok f p) ∧
  parse (U := ascii_only) (negations 256)
    = Err (Unexpected 256 "expected expression (maximum nesting depth exceeded)").
Proof. split; [eexists _, _|]; vm_compute; reflexivity. Qed.

(** ** Witness *)

(** [nu X. (p && [] X)] *)
Lemma parse_reads_witness :
  ∃ f p, parse (U := ascii_only) "nu X. (p && [] X)" = Ok f p ∧ wf_formula f ∧
    formula_tree f (TFix Greatest 0 (TAnd (TPred "p") (TModal Box Guard_default (TVar 0)))).
Proof.
  apply (parse_reads (U := ascii_only) "nu X. (p && [] X)"
    (SFix Greatest "X" (SAnd (SAtom "p") (SModal Box Guard_default (SAtom "X")))) 4).
  - apply (derives_nu "X" "(p && [] X)" _ 3); [reflexivity|].
    apply derives_whole, derives_conjunction, derives_unary.
    apply (derives_paren "p && [] X" _ 2), derives_whole, derives_conjunction.
    apply (derives_and "p" _ 1 "[] X" _ 2).
    + apply derives_unary, derives_atom. reflexivity.
    + apply (derives_box "X" _ 1), derives_atom. reflexivity.
  - unfold MAX_PARSE_DEPTH. lia.
  - reflexivity.
Defined.
