(* ===== verification/Ltl.v ===== *)
(** Linear temporal logic: the formulas of [ltl/ast.rs] and their meaning on
    infinite traces. *)
From S2P Require Import Prelude Text.

Inductive LtlFormula :=
  | LTrue
  | LFalse
  | LPredicate (p : string)
  | LNot (f : LtlFormula)
  | LAnd (f g : LtlFormula)
  | LOr (f g : LtlFormula)
  | LImplies (f g : LtlFormula)
  | LNext (f : LtlFormula)
  | LAlways (f : LtlFormula)
  | LEventually (f : LtlFormula)
  | LUntil (l r : LtlFormula)
  | LWeakUntil (l r : LtlFormula)
  | LRelease (l r : LtlFormula)
  | LRecurrence (f : LtlFormula)
  | LStabilization (f : LtlFormula)
  | LResponse (trigger response : LtlFormula).

#[export] Instance LtlFormula_eq_dec : EqDecision LtlFormula.
Proof. solve_decision. Defined.

(** The predicates that hold at each time. *)
Abbreviation Trace := (nat → string → bool) (only parsing).

(** The formula holds from time [i] on. *)
Fixpoint ltl_sat (tr : Trace) (f : LtlFormula) (i : nat) : Prop :=
  match f with
  | LTrue => True
  | LFalse => False
  | LPredicate p => tr i p = true
  | LNot f => ¬ ltl_sat tr f i
  | LAnd f g => ltl_sat tr f i ∧ ltl_sat tr g i
  | LOr f g => ltl_sat tr f i ∨ ltl_sat tr g i
  | LImplies f g => ltl_sat tr f i → ltl_sat tr g i
  | LNext f => ltl_sat tr f (S i)
  | LAlways f => ∀ j, i ≤ j → ltl_sat tr f j
  | LEventually f => ∃ j, i ≤ j ∧ ltl_sat tr f j
  | LUntil l r => ∃ j, i ≤ j ∧ ltl_sat tr r j ∧ ∀ k, i ≤ k < j → ltl_sat tr l k
  | LWeakUntil l r => (∃ j, i ≤ j ∧ ltl_sat tr r j ∧ ∀ k, i ≤ k < j → ltl_sat tr l k) ∨ (∀ j, i ≤ j → ltl_sat tr l j)
  | LRelease l r => ∀ j, i ≤ j → (∀ k, i ≤ k < j → ¬ ltl_sat tr l k) → ltl_sat tr r j
  | LRecurrence f => ∀ j, i ≤ j → ∃ k, j ≤ k ∧ ltl_sat tr f k
  | LStabilization f => ∃ j, i ≤ j ∧ ∀ k, j ≤ k → ltl_sat tr f k
  | LResponse t r => ∀ j, i ≤ j → ltl_sat tr t j → ∃ k, j ≤ k ∧ ltl_sat tr r k
  end.

(** A formula in the surface syntax. *)
Fixpoint show (f : LtlFormula) : string :=
  match f with
  | LTrue => "true"
  | LFalse => "false"
  | LPredicate p => p
  | LNot a => "!" +:+ show a
  | LAnd x y => "(" +:+ show x +:+ " && " +:+ show y +:+ ")"
  | LOr x y => "(" +:+ show x +:+ " || " +:+ show y +:+ ")"
  | LImplies x y => "(" +:+ show x +:+ " -> " +:+ show y +:+ ")"
  | LNext a => "X " +:+ show a
  | LAlways a => "G " +:+ show a
  | LEventually a => "F " +:+ show a
  | LUntil l r => "(" +:+ show l +:+ " U " +:+ show r +:+ ")"
  | LWeakUntil l r => "(" +:+ show l +:+ " W " +:+ show r +:+ ")"
  | LRelease l r => "(" +:+ show l +:+ " R " +:+ show r +:+ ")"
  | LRecurrence a => "G F " +:+ show a
  | LStabilization a => "F G " +:+ show a
  | LResponse t r => "G (" +:+ show t +:+ " -> F " +:+ show r +:+ ")"
  end.
