(* ===== verification/LtlParser.v ===== *)
(** The parser of temporal formulas, [ltl/parser.rs], and the round trip with the
    texts [ltl/universal.rs] prints.

    The source's [Parser] is the input and a byte offset; the state here is what
    is left of the input, and the offset of an error is the length of the input
    less the length of what is left.  Unlike the parser of the mu-calculus it
    bounds no nesting depth, and its keywords are case-sensitive. *)
From S2P Require Import Prelude Text Ltl.
From Stdlib Require Import Ascii.

(** ** Errors *)

Inductive LtlParseError :=
  | L_UnexpectedEof
  | L_Unexpected (e_pos : nat) (message : string)
  | L_UnexpectedTrailing (e_pos : nat).

Inductive LtlParseErrorKind :=
  | LK_UnexpectedTrailing
  | LK_Expected (message : string)
  | LK_UnexpectedChar (ch : char).

Inductive LtlOutcome := LOk (f : LtlFormula) (rest : string) | LErr (e : LtlParseError) | LNoFuel.

Notation "'letl' ( x , s ) ':=' e 'in' k" :=
  (match e with LOk x s => k | LErr er => LErr er | LNoFuel => LNoFuel end)
  (at level 10, x name, s name, e at level 200, k at level 200,
   format "'[v' 'letl'  ( x ,  s )  ':='  e  'in'  '/' k ']'") : mununu_scope.

Section parser.
Context {U : Unicode}.

(** The length of the input. *)
Variable input_len : nat.

Definition error_here (rest : string) (kind : LtlParseErrorKind) : LtlParseError :=
  let pos := input_len - String.length rest in
  match kind with
  | LK_UnexpectedTrailing => L_UnexpectedTrailing pos
  | LK_Expected msg => L_Unexpected pos ("expected " +:+ msg)
  | LK_UnexpectedChar ch => L_Unexpected pos ("expected `" +:+ ch +:+ "`")
  end.

(** ** Tokens *)

Fixpoint skip_loop (fuel : nat) (s : string) : string :=
  match fuel with
  | O => s
  | S k => match next_char s with Some (c, r) => if is_whitespace c then skip_loop k r else s | None => s end
  end.
Definition skip_whitespace (s : string) : string := skip_loop (String.length s) s.

Definition try_consume_str (pre s : string) : option string := strip_prefix pre s.
Definition try_consume_char (c : char) (s : string) : option string := strip_prefix c s.

Definition expect_char (c : char) (s : string) : LtlParseError + string :=
  match try_consume_char c s with Some r => inr r | None => inl (error_here s (LK_UnexpectedChar c)) end.

Definition try_consume_keyword (keyword s : string) : option string :=
  let* r := try_consume_str keyword s in
  match next_char r with
  | Some (c, _) => if is_alphanumeric c || String.eqb c "_" then None else Some r
  | None => Some r
  end.

(** The first of two alternatives that consumes something. *)
Definition or_keyword (a b s : string) : option string :=
  match try_consume_keyword a s with Some r => Some r | None => try_consume_keyword b s end.

(** The bytes of an identifier. *)
Fixpoint ident_bytes (fuel : nat) (first : bool) (s : string) : nat :=
  match fuel with
  | O => 0
  | S k =>
    match next_char s with
    | None => 0
    | Some (c, r) =>
      if is_alphabetic c || String.eqb c "_" || (negb first && is_numeric c)
      then String.length c + ident_bytes k false r else 0
    end
  end.

Definition parse_identifier (s : string) : option string * string :=
  let s := skip_whitespace s in
  match ident_bytes (String.length s) true s with
  | O => (None, s)
  | n => (Some (take_bytes n s), drop_bytes n s)
  end.

(** The first of the operators that the text starts with. *)
Fixpoint first_op (ops : list string) (s : string) : option (string * string) :=
  match ops with
  | [] => None
  | op :: ops => match try_consume_str op s with Some r => Some (op, r) | None => first_op ops s end
  end.
Definition try_consume_comparison_op (s : string) : option (string * string) :=
  first_op ["=="; "!="; "<="; ">="; "<"; ">"] s.

(** The decimal digits at the start, and what follows them. *)
Fixpoint take_digits (s : string) : string * string :=
  match s with
  | String a r => if ascii_digit a then let '(d, r') := take_digits r in (String a d, r') else ("", s)
  | EmptyString => ("", "")
  end.

Definition starts_digit (s : string) : bool :=
  match s with String a _ => ascii_digit a | EmptyString => false end.

Definition parse_comparison_rhs (s : string) : option string * string :=
  let '(signed, sign, after) :=
    match try_consume_char "-" s with Some r => (true, "-", r) | None => (starts_digit s, "", s) end in
  if signed : bool then
    let '(d, r) := take_digits after in
    if String.eqb d "" then (None, s) else (Some (sign +:+ d), r)
  else
    match parse_identifier s with
    | (None, s') => (None, s')
    | (Some ident, saved) =>
      match try_consume_char "+" (skip_whitespace saved) with
      | None => (Some ident, saved)
      | Some r =>
        let '(d, r') := take_digits (skip_whitespace r) in
        if String.eqb d "" then (Some ident, saved) else (Some (ident +:+ " + " +:+ d), r')
      end
    end.

(** ** The grammar *)

Section grammar.
Variables (rec_unary rec_formula : string → LtlOutcome).

(** [( formula )], after the parenthesis. *)
Definition parenthesised (s : string) : LtlOutcome :=
  letl (f, s) := rec_formula s in
  match expect_char ")" (skip_whitespace s) with inr r => LOk f r | inl e => LErr e end.

Definition parse_predicate (identifier saved : string) : LtlOutcome :=
  match try_consume_comparison_op (skip_whitespace saved) with
  | None => LOk (LPredicate identifier) saved
  | Some (op, s) =>
    match parse_comparison_rhs (skip_whitespace s) with
    | (Some rhs, s) => LOk (LPredicate (identifier +:+ " " +:+ op +:+ " " +:+ rhs)) s
    | (None, s) => LErr (error_here s (LK_Expected "a number or an identifier after the comparison operator"))
    end
  end.

Definition parse_primary (s : string) : LtlOutcome :=
  let s := skip_whitespace s in
  match try_consume_char "(" s with
  | Some s => parenthesised s
  | None =>
    match try_consume_keyword "true" s with
    | Some s => LOk LTrue s
    | None =>
      match try_consume_keyword "false" s with
      | Some s => LOk LFalse s
      | None =>
        match parse_identifier s with
        | (Some identifier, s) => parse_predicate identifier s
        | (None, s) => LErr (error_here s (LK_Expected "formula"))
        end
      end
    end
  end.

(** The operand of [G], [F] and [X]. *)
Definition parse_operand (s : string) : LtlOutcome :=
  let s := skip_whitespace s in
  match try_consume_char "(" s with Some s => parenthesised s | None => rec_unary s end.

Definition parse_unary_inner (s : string) : LtlOutcome :=
  let s := skip_whitespace s in
  match try_consume_char "!" s with
  | Some s => letl (f, s) := rec_unary s in LOk (LNot f) s
  | None =>
    match or_keyword "G" "always" s with
    | Some s => letl (f, s) := parse_operand s in LOk (LAlways f) s
    | None =>
      match or_keyword "F" "eventually" s with
      | Some s => letl (f, s) := parse_operand s in LOk (LEventually f) s
      | None =>
        match or_keyword "X" "next" s with
        | Some s => letl (f, s) := parse_operand s in LOk (LNext f) s
        | None => parse_primary s
        end
      end
    end
  end.
End grammar.

Definition BinaryOp : Type := LtlFormula → LtlFormula → LtlFormula.

Definition until_op (s : string) : option (BinaryOp * string) :=
  match or_keyword "U" "until" s with
  | Some r => Some (LUntil, r)
  | None =>
    match or_keyword "W" "weak_until" s with
    | Some r => Some (LWeakUntil, r)
    | None => match or_keyword "R" "release" s with Some r => Some (LRelease, r) | None => None end
    end
  end.
Definition symbol_op (symbol : string) (mk : BinaryOp) (s : string) : option (BinaryOp * string) :=
  match try_consume_str symbol s with Some r => Some (mk, r) | None => None end.

(** A chain of operands, associated to the left. *)
Section chain.
Variables (item : string → LtlOutcome) (op : string → option (BinaryOp * string)).

Fixpoint chain_loop (fuel : nat) (lhs : LtlFormula) (s : string) : LtlOutcome :=
  match fuel with
  | O => LNoFuel
  | S k =>
    let s := skip_whitespace s in
    match op s with
    | Some (mk, s) => letl (rhs, s) := item s in chain_loop k (mk lhs rhs) s
    | None => LOk lhs s
    end
  end.
Definition chain (s : string) : LtlOutcome :=
  letl (lhs, r) := item s in chain_loop (S (String.length r)) lhs r.
End chain.

(** The four binary levels over a parser of operands. *)
Definition until_level (unary : string → LtlOutcome) : string → LtlOutcome := chain unary until_op.
Definition and_level (unary : string → LtlOutcome) : string → LtlOutcome :=
  chain (until_level unary) (symbol_op "&&" LAnd).
Definition or_level (unary : string → LtlOutcome) : string → LtlOutcome :=
  chain (and_level unary) (symbol_op "||" LOr).
Definition implies_level (unary : string → LtlOutcome) : string → LtlOutcome :=
  chain (or_level unary) (symbol_op "->" LImplies).

(** Every nested call is made after at least a byte has been consumed. *)
Fixpoint parse_unary (fuel : nat) (s : string) : LtlOutcome :=
  match fuel with
  | O => LNoFuel
  | S k => parse_unary_inner (parse_unary k) (implies_level (parse_unary k)) s
  end.

Definition parse_until (fuel : nat) : string → LtlOutcome := until_level (parse_unary fuel).
Definition parse_and (fuel : nat) : string → LtlOutcome := and_level (parse_unary fuel).
Definition parse_or (fuel : nat) : string → LtlOutcome := or_level (parse_unary fuel).
Definition parse_implies (fuel : nat) : string → LtlOutcome := implies_level (parse_unary fuel).
Definition parse_formula (fuel : nat) : string → LtlOutcome := parse_implies fuel.
End parser.

Section parse.
Context {U : Unicode}.

Definition parse (input : string) : LtlOutcome :=
  let n := String.length input in
  letl (f, s) := parse_formula n (S n) input in
  let s := skip_whitespace s in
  if String.eqb s "" then LOk f s else LErr (error_here n s LK_UnexpectedTrailing).
End parse.

Example parse_response : parse (U := ascii_only) "G (req -> F grant)" =
  LOk (LAlways (LImplies (LPredicate "req") (LEventually (LPredicate "grant")))) "".
Proof. vm_compute. reflexivity. Qed.

Example parse_comparison : parse (U := ascii_only) "a U x >= y + 3 && !b" =
  LOk (LAnd (LUntil (LPredicate "a") (LPredicate "x >= y + 3")) (LNot (LPredicate "b"))) "".
Proof. vm_compute. reflexivity. Qed.

(** ** Every text is parsed in bounded time *)

Section ends.
Context {U : Unicode} (n : nat).

Lemma skip_loop_length fuel s : String.length (skip_loop fuel s) ≤ String.length s.
Proof using Type.
  revert s. induction fuel as [|k IH]; intros s; [done|]. cbn [skip_loop].
  destruct (next_char s) as [[c r]|] eqn:E; [|done]. destruct (is_whitespace c); [|done].
  apply next_char_length in E as [E ?]. pose proof (IH r). lia.
Qed.

Lemma skip_length s : String.length (skip_whitespace s) ≤ String.length s.
Proof using Type. apply skip_loop_length. Qed.

Lemma consume_length pre s r : try_consume_str pre s = Some r → String.length s = String.length pre + String.length r.
Proof using Type. apply strip_prefix_length. Qed.

Lemma keyword_length kw s r :
  try_consume_keyword kw s = Some r → String.length s = String.length kw + String.length r.
Proof using Type.
  unfold try_consume_keyword, try_consume_str. destruct (strip_prefix kw s) as [x|] eqn:E; simpl; [|done].
  apply strip_prefix_length in E. destruct (next_char x) as [[c r']|]; [|by intros [= <-]].
  destruct (_ || _); [done|]. by intros [= <-].
Qed.

Lemma or_keyword_length a b s r :
  or_keyword a b s = Some r → 0 < String.length a → 0 < String.length b → String.length r < String.length s.
Proof using Type.
  unfold or_keyword. destruct (try_consume_keyword a s) eqn:E1; [intros [= <-]|intros E2].
  - apply keyword_length in E1. lia.
  - apply keyword_length in E2. lia.
Qed.

(** A name takes at least a byte. *)
Lemma identifier_length s o s' :
  parse_identifier s = (o, s') → String.length s' + (if o then 1 else 0) ≤ String.length s.
Proof using Type.
  unfold parse_identifier. pose proof (skip_length s) as Hs. set (t := skip_whitespace s) in *.
  destruct (ident_bytes _ true t) as [|b] eqn:E; [intros [= <- <-]; lia|].
  assert (Ht : 0 < String.length t).
  { destruct t; [|simpl; lia]. simpl in E. done. }
  intros H. assert (Ho : s' = drop_bytes (S b) t) by congruence.
  assert (Hs' : String.length s' < String.length t) by (rewrite Ho, length_drop_bytes; lia).
  destruct o; lia.
Qed.

Lemma digits_length s d r : take_digits s = (d, r) → String.length s = String.length d + String.length r.
Proof using Type.
  revert d r. induction s as [|a s IH]; intros d r; simpl; [by intros [= <- <-]|].
  destruct (ascii_digit a); [|by intros [= <- <-]].
  destruct (take_digits s) as [d' r']. intros [= <- <-]. simpl. by rewrite (IH d' r').
Qed.

Lemma rhs_length s o s' : parse_comparison_rhs s = (o, s') → String.length s' ≤ String.length s.
Proof using Type.
  unfold parse_comparison_rhs.
  set (head := match try_consume_char "-" s with Some r => _ | None => _ end).
  assert (Hh : String.length head.2 ≤ String.length s).
  { subst head. destruct (try_consume_char "-" s) eqn:E; [|done]. apply consume_length in E. simpl in *. lia. }
  destruct head as [[signed sign] after]. simpl in Hh. destruct signed.
  { destruct (take_digits after) as [d r] eqn:E. apply digits_length in E.
    destruct (String.eqb d ""); intros [= <- <-]; lia. }
  destruct (parse_identifier s) as [[ident|] saved] eqn:E; apply identifier_length in E; [|by intros [= <- <-]; lia].
  destruct (try_consume_char "+" _) as [r|] eqn:Er; [|intros [= <- <-]; lia].
  apply consume_length in Er. pose proof (skip_length saved). pose proof (skip_length r).
  destruct (take_digits (skip_whitespace r)) as [d r'] eqn:Ed. apply digits_length in Ed.
  destruct (String.eqb d ""); intros [= <- <-]; simpl in *; lia.
Qed.

Lemma op_length s op r : try_consume_comparison_op s = Some (op, r) → String.length r ≤ String.length s.
Proof using Type.
  unfold try_consume_comparison_op. generalize ["=="; "!="; "<="; ">="; "<"; ">"]. intros ops.
  induction ops as [|o ops IH]; simpl; [done|]. destruct (try_consume_str o s) as [x|] eqn:E; [|done].
  intros [= <- <-]. apply consume_length in E. lia.
Qed.

(** The run ends, and consumes at least [k] bytes when it succeeds. *)
Definition ends (k : nat) (s : string) (o : LtlOutcome) : Prop :=
  match o with LOk _ s' => String.length s' + k ≤ String.length s | LErr _ => True | LNoFuel => False end.

Lemma ends_from j k s t o : ends j t o → String.length t + k ≤ String.length s + j → ends k s o.
Proof using Type. destruct o; simpl; try done. lia. Qed.

Lemma ends_bind j k s t o (g : LtlFormula → string → LtlOutcome) :
  ends j t o → (∀ f s', String.length s' + j ≤ String.length t → ends k s (g f s')) →
  ends k s (letl (f, s') := o in g f s').
Proof using Type. destruct o; simpl; auto. Qed.

(** A parser of operands that ends on the texts shorter than [b]. *)
Definition item_ends (b : nat) (item : string → LtlOutcome) : Prop :=
  ∀ s, String.length s < b → ends 1 s (item s).

Lemma chain_ends b item op :
  item_ends b item →
  (∀ s mk r, op s = Some (mk, r) → String.length r < String.length s) →
  item_ends b (chain item op).
Proof using Type.
  intros Hi Hop.
  assert (Hloop : ∀ fuel lhs s, String.length s < fuel → String.length s < b → ends 0 s (chain_loop item op fuel lhs s)).
  { intros fuel. induction fuel as [|k IH]; intros lhs s Hf Hb; [lia|]. cbn [chain_loop].
    pose proof (skip_length s) as Hs. destruct (op (skip_whitespace s)) as [[mk r]|] eqn:E; [|simpl; lia].
    apply Hop in E. eapply ends_bind; [apply Hi; lia|]. intros f s' Hs'.
    eapply ends_from; [apply IH; lia|lia]. }
  intros s Hs. unfold chain. eapply ends_bind; [by apply Hi|]. intros f s' Hs'.
  eapply ends_from; [apply Hloop; lia|lia].
Qed.

Lemma until_op_length s mk r : until_op s = Some (mk, r) → String.length r < String.length s.
Proof using Type.
  unfold until_op. destruct (or_keyword "U" "until" s) eqn:E1.
  { intros [= <- <-]. eapply or_keyword_length; [exact E1|simpl; lia..]. }
  destruct (or_keyword "W" "weak_until" s) eqn:E2.
  { intros [= <- <-]. eapply or_keyword_length; [exact E2|simpl; lia..]. }
  destruct (or_keyword "R" "release" s) eqn:E3; [|done].
  intros [= <- <-]. eapply or_keyword_length; [exact E3|simpl; lia..].
Qed.

Lemma symbol_op_length sym mk0 s mk r :
  0 < String.length sym → symbol_op sym mk0 s = Some (mk, r) → String.length r < String.length s.
Proof using Type.
  intros Hl. unfold symbol_op. destruct (try_consume_str sym s) eqn:E; [|done]. intros [= <- <-].
  apply consume_length in E. lia.
Qed.

Lemma implies_ends b unary : item_ends b unary → item_ends b (implies_level unary).
Proof using Type.
  intros H. unfold implies_level, or_level, and_level, until_level.
  repeat (apply chain_ends; [|intros s mk r; apply symbol_op_length; simpl; lia]).
  apply chain_ends; [done|apply until_op_length].
Qed.

Lemma parenthesised_ends b ro s :
  item_ends b ro → String.length s < b → ends 0 s (parenthesised n ro s).
Proof using Type.
  intros H Hs. unfold parenthesised. eapply ends_bind; [by apply H|]. intros f s' Hs'.
  unfold expect_char. pose proof (skip_length s'). destruct (try_consume_char ")" _) eqn:E; [|done].
  apply consume_length in E. simpl in *. lia.
Qed.

Lemma primary_ends b ro s : item_ends b ro → String.length s ≤ b → ends 1 s (parse_primary n ro s).
Proof using Type.
  intros H Hs. unfold parse_primary. pose proof (skip_length s) as Hl. set (t := skip_whitespace s) in *.
  destruct (try_consume_char "(" t) as [r|] eqn:E1.
  { apply consume_length in E1. simpl in E1. eapply ends_from; [apply (parenthesised_ends b); [done|lia]|lia]. }
  destruct (try_consume_keyword "true" t) eqn:E2; [apply keyword_length in E2; simpl in *; lia|].
  destruct (try_consume_keyword "false" t) eqn:E3; [apply keyword_length in E3; simpl in *; lia|].
  destruct (parse_identifier t) as [[x|] saved] eqn:E4; apply identifier_length in E4; [|done].
  unfold parse_predicate. pose proof (skip_length saved).
  destruct (try_consume_comparison_op _) as [[op r]|] eqn:E5; [|simpl; lia]. apply op_length in E5.
  pose proof (skip_length r). destruct (parse_comparison_rhs _) as [[rhs|] r'] eqn:E6; [|done].
  apply rhs_length in E6. simpl. lia.
Qed.

Lemma operand_ends b ru ro s :
  item_ends b ru → item_ends b ro → String.length s < b → ends 0 s (parse_operand n ru ro s).
Proof using Type.
  intros Hu Ho Hs. unfold parse_operand. pose proof (skip_length s) as Hl. set (t := skip_whitespace s) in *.
  destruct (try_consume_char "(" t) as [r|] eqn:E.
  - apply consume_length in E. simpl in E. eapply ends_from; [apply (parenthesised_ends b); [done|lia]|lia].
  - eapply ends_from; [apply Hu; lia|lia].
Qed.

Lemma unary_ends b ru ro s :
  item_ends b ru → item_ends b ro → String.length s ≤ b → ends 1 s (parse_unary_inner n ru ro s).
Proof using Type.
  intros Hu Ho Hs. unfold parse_unary_inner. pose proof (skip_length s) as Hl. set (t := skip_whitespace s) in *.
  destruct (try_consume_char "!" t) as [r|] eqn:E1.
  { apply consume_length in E1. simpl in E1. eapply ends_bind; [apply Hu; lia|]. intros f s' ?. simpl. lia. }
  assert (Hop : ∀ a a' mk, 0 < String.length a → 0 < String.length a' → ∀ r, or_keyword a a' t = Some r →
    ends 1 s (letl (f, s') := parse_operand n ru ro r in LOk (mk f) s')).
  { intros a a' mk Ha Ha' r Hr. apply or_keyword_length in Hr; [|done..].
    eapply ends_bind; [apply (operand_ends b); [done..|lia]|]. intros f s' ?. simpl. lia. }
  destruct (or_keyword "G" "always" t) eqn:E2; [eapply Hop; [| |exact E2]; simpl; lia|].
  destruct (or_keyword "F" "eventually" t) eqn:E3; [eapply Hop; [| |exact E3]; simpl; lia|].
  destruct (or_keyword "X" "next" t) eqn:E4; [eapply Hop; [| |exact E4]; simpl; lia|].
  eapply ends_from; [apply (primary_ends b); [done|lia]|lia].
Qed.

Lemma parse_unary_ends fuel : item_ends fuel (parse_unary n fuel).
Proof using Type.
  induction fuel as [|k IH]; intros s Hs; [lia|]. cbn [parse_unary].
  apply (unary_ends k); [done|by apply implies_ends|lia].
Qed.
End ends.

Lemma parse_ends `{Unicode} input : parse input ≠ LNoFuel.
Proof.
  unfold parse, parse_formula, parse_implies. set (n := String.length input).
  pose proof (implies_ends _ _ (parse_unary_ends n (S n)) input ltac:(subst n; lia)) as He.
  destruct (implies_level _ input); simpl in *; try done. by destruct (String.eqb _ _).
Qed.

(** ** What the parser reads *)

(** The derived operators are read as what they abbreviate. *)
Fixpoint desugar (f : LtlFormula) : LtlFormula :=
  match f with
  | LTrue => LTrue
  | LFalse => LFalse
  | LPredicate p => LPredicate p
  | LNot a => LNot (desugar a)
  | LAnd x y => LAnd (desugar x) (desugar y)
  | LOr x y => LOr (desugar x) (desugar y)
  | LImplies x y => LImplies (desugar x) (desugar y)
  | LNext a => LNext (desugar a)
  | LAlways a => LAlways (desugar a)
  | LEventually a => LEventually (desugar a)
  | LUntil l r => LUntil (desugar l) (desugar r)
  | LWeakUntil l r => LWeakUntil (desugar l) (desugar r)
  | LRelease l r => LRelease (desugar l) (desugar r)
  | LRecurrence a => LAlways (LEventually (desugar a))
  | LStabilization a => LEventually (LAlways (desugar a))
  | LResponse t r => LAlways (LImplies (desugar t) (LEventually (desugar r)))
  end.

(** ASCII names. *)
Definition name_head (a : ascii) : bool := ascii_alpha a || Ascii.eqb a "_"%char.
Definition name_char (a : ascii) : bool := name_head a || ascii_digit a.
Fixpoint name_rest (s : string) : bool :=
  match s with EmptyString => true | String a s' => name_char a && name_rest s' end.
Definition name (s : string) : bool :=
  match s with String a s' => name_head a && name_rest s' | EmptyString => false end.

Definition keywords : list string := ["G"; "always"; "F"; "eventually"; "X"; "next"; "true"; "false"].
Definition plain_name (s : string) : bool := name s && forallb (λ kw, negb (String.eqb kw s)) keywords.

(** The right side of a comparison. *)
Inductive comparison_rhs : string → Prop :=
  | rhs_number d : decimal d = true → comparison_rhs d
  | rhs_negative d : decimal d = true → comparison_rhs ("-" +:+ d)
  | rhs_name x : name x = true → comparison_rhs x
  | rhs_offset x d : name x = true → decimal d = true → comparison_rhs (x +:+ " + " +:+ d).

(** The predicates the parser reads back. *)
Inductive predicate_text : string → Prop :=
  | pt_name x : plain_name x = true → predicate_text x
  | pt_compare x op y : plain_name x = true → In op ["=="; "!="; "<="; ">="; "<"; ">"] → comparison_rhs y →
      predicate_text (x +:+ " " +:+ op +:+ " " +:+ y).

Fixpoint predicates_read (f : LtlFormula) : Prop :=
  match f with
  | LTrue | LFalse => True
  | LPredicate p => predicate_text p
  | LNot a | LNext a | LAlways a | LEventually a | LRecurrence a | LStabilization a => predicates_read a
  | LAnd x y | LOr x y | LImplies x y | LUntil x y | LWeakUntil x y | LRelease x y | LResponse x y =>
    predicates_read x ∧ predicates_read y
  end.

(** No derived operator. *)
Fixpoint core (f : LtlFormula) : bool :=
  match f with
  | LTrue | LFalse | LPredicate _ => true
  | LNot a | LNext a | LAlways a | LEventually a => core a
  | LAnd x y | LOr x y | LImplies x y | LUntil x y | LWeakUntil x y | LRelease x y => core x && core y
  | LRecurrence _ | LStabilization _ | LResponse _ _ => false
  end.

Lemma show_desugar f : show (desugar f) = show f.
Proof.
  induction f; simpl; rewrite ?IHf, ?IHf1, ?IHf2; try done; by rewrite ?sapp_assoc.
Qed.

Lemma core_desugar f : core (desugar f) = true.
Proof. induction f; simpl; rewrite ?IHf1, ?IHf2; done. Qed.

Lemma desugar_core f : core f = true → desugar f = f.
Proof.
  induction f; simpl; try done; try (intros H; by rewrite IHf);
    intros [H1 H2]%andb_true_iff; by rewrite IHf1, IHf2.
Qed.

Lemma desugar_predicates f : predicates_read f → predicates_read (desugar f).
Proof. induction f; simpl; intuition. Qed.

Section reading.
Context {U : Unicode} (n : nat).

(** ** White space *)

Lemma skip_cons a s :
  is_ascii a = true → skip_whitespace (String a s) = if ascii_space a then skip_whitespace s else String a s.
Proof using Type.
  intros Ha. unfold skip_whitespace. cbn [String.length skip_loop]. rewrite (next_char_ascii a s Ha).
  simpl. by destruct (ascii_space a).
Qed.

Lemma skip_space s : skip_whitespace (" " +:+ s) = skip_whitespace s.
Proof using Type. by rewrite sapp_cons, sapp_nil_l, skip_cons. Qed.

Lemma skip_sym a t :
  is_ascii a = true → ascii_space a = false → skip_whitespace (String a "" +:+ t) = String a "" +:+ t.
Proof using Type. intros Ha Hs. by rewrite sapp_cons, skip_cons, Hs. Qed.

(** ** What may follow an operand *)

Inductive follow : string → Prop :=
  | follow_end : follow ""
  | follow_close r : follow (")" +:+ r)
  | follow_op op r : In op [" && "; " || "; " -> "; " U "; " W "; " R "] → follow (op +:+ r).

(** A name ends here. *)
Definition stop (s : string) : Prop := s = "" ∨ ∃ a r, s = String a r ∧ is_ascii a = true ∧ name_char a = false.

Lemma follow_stop r : follow r → stop r.
Proof using Type.
  intros [|r'|op r' Hop]; [by left|right; by eexists _, _|right].
  repeat (destruct Hop as [<-|Hop]; [by eexists _, _|]). done.
Qed.

Lemma space_stop r : stop (" " +:+ r).
Proof using Type. right. by eexists _, _. Qed.

Lemma name_char_ascii a : name_char a = true → is_ascii a = true.
Proof using Type.
  unfold name_char, name_head, ascii_alpha, ascii_upper, ascii_lower, ascii_digit.
  rewrite !orb_true_iff. intros [[[H|H]|H]|H];
    try (by eapply in_range_ascii; [exact H|lia]); by apply Ascii.eqb_eq in H as ->.
Qed.

Lemma name_head_char a : name_head a = true → name_char a = true.
Proof using Type. unfold name_char. by intros ->. Qed.

Lemma name_head_solid a : name_head a = true → ascii_space a = false.
Proof using Type.
  unfold name_head, ascii_alpha, ascii_upper, ascii_lower, in_range, ascii_space, in_range.
  intros H. apply not_true_iff_false. rewrite orb_true_iff, andb_true_iff, !Nat.leb_le, Nat.eqb_eq.
  rewrite !orb_true_iff, !andb_true_iff, !Nat.leb_le, !Ascii.eqb_eq in H.
  destruct H as [[?|?]| ->]; [lia|lia|vm_compute; lia].
Qed.

Lemma char_eqb a c : String.eqb (String a "") (String c "") = Ascii.eqb a c.
Proof using Type. simpl. by destruct (Ascii.eqb a c). Qed.

(** The test after a keyword. *)
Lemma continues_ascii a :
  is_alphanumeric (String a "") || String.eqb (String a "") "_" = name_char a.
Proof using Type.
  rewrite char_eqb. unfold is_alphanumeric, name_char, name_head. simpl.
  destruct (ascii_alpha a), (ascii_digit a), (Ascii.eqb a "_"); done.
Qed.

(** ** Names *)

Lemma ident_bytes_app s r : ∀ fuel first,
  name_rest s = true → (first = true → head_is name_head s = true ∨ s = "") → stop r →
  String.length s ≤ fuel → (s = "" → first = false) →
  ident_bytes fuel first (s +:+ r) = String.length s.
Proof using Type.
  induction s as [|a s IH]; intros fuel first Hs Hf Hr Hl He.
  - rewrite sapp_nil_l, He by done. destruct fuel as [|k]; [done|]. cbn [ident_bytes].
    destruct Hr as [->|(a & r' & -> & Ha & Hn)]; [done|]. rewrite next_char_ascii by done.
    unfold name_char, name_head in Hn. rewrite char_eqb. simpl. by rewrite Hn.
  - destruct fuel as [|k]; [simpl in Hl; lia|]. rewrite sapp_cons. cbn [ident_bytes].
    simpl in Hs. apply andb_true_iff in Hs as [Ha Hs]. rewrite next_char_ascii by (by apply name_char_ascii).
    assert (Hok : is_alphabetic (String a "") || String.eqb (String a "") "_" || negb first && is_numeric (String a "") = true).
    { rewrite char_eqb. simpl. destruct first.
      - destruct (Hf eq_refl) as [Hh|]; [|done]. simpl in Hh. unfold name_head in Hh. by rewrite Hh.
      - exact Ha. }
    rewrite Hok, IH; try done; simpl in *; lia.
Qed.

Lemma name_rest_of x : name x = true → name_rest x = true ∧ head_is name_head x = true ∧ x ≠ "".
Proof using Type.
  destruct x as [|a x]; [done|]. simpl. intros [Ha Hx]%andb_true_iff. by rewrite name_head_char, Hx.
Qed.

Lemma skip_name x r : name x = true → skip_whitespace (x +:+ r) = x +:+ r.
Proof using Type.
  destruct x as [|a x]; [done|]. simpl. intros [Ha _]%andb_true_iff. rewrite sapp_cons.
  rewrite skip_cons by (by apply name_char_ascii, name_head_char). by rewrite name_head_solid.
Qed.

Lemma identifier_read x r s :
  name x = true → stop r → skip_whitespace s = x +:+ r → parse_identifier s = (Some x, r).
Proof using Type.
  intros Hx Hr Hs. unfold parse_identifier. rewrite Hs. destruct (name_rest_of x Hx) as (H1 & H2 & H3).
  rewrite (ident_bytes_app x r); [|done|auto|done|rewrite length_sapp; lia|done].
  pose proof (take_bytes_app x r) as Ht. pose proof (drop_bytes_app x r) as Hd.
  destruct (String.length x) as [|k] eqn:El; [by destruct x|]. by rewrite Ht, Hd.
Qed.

(** ** Keywords *)

Fixpoint letters (s : string) : bool :=
  match s with EmptyString => true | String a s' => name_char a && letters s' end.

Lemma strip_name kw x r t :
  letters kw = true → name_rest x = true → stop r → strip_prefix kw (x +:+ r) = Some t →
  ∃ x', x = kw +:+ x' ∧ t = x' +:+ r.
Proof using Type.
  intros Hk Hx Hr. revert x Hx. induction kw as [|c kw IH]; intros x Hx Hs.
  - simpl in Hs. injection Hs as <-. by exists x.
  - simpl in Hk. apply andb_true_iff in Hk as [Hc Hk]. destruct x as [|a x].
    + rewrite sapp_nil_l in Hs. destruct Hr as [->|(b & r' & -> & _ & Hb)]; [done|]. simpl in Hs.
      destruct (Ascii.eqb_spec c b) as [->|]; [congruence|done].
    + rewrite sapp_cons in Hs. simpl in Hs, Hx. destruct (Ascii.eqb_spec c a) as [->|]; [|done].
      apply andb_true_iff in Hx as [_ Hx]. destruct (IH Hk x Hx Hs) as (x' & -> & ->). by exists x'.
Qed.

Lemma ltl_keyword_none kw x r :
  letters kw = true → name_rest x = true → stop r → x ≠ kw → try_consume_keyword kw (x +:+ r) = None.
Proof using Type.
  intros Hk Hx Hr Hne. unfold try_consume_keyword, try_consume_str.
  destruct (strip_prefix kw (x +:+ r)) as [t|] eqn:E; [|done]. simpl.
  destruct (strip_name kw x r t Hk Hx Hr E) as (x' & -> & ->).
  destruct x' as [|a x']; [by rewrite sapp_nil_r in Hne|].
  assert (Ha : name_char a = true).
  { clear - Hx. induction kw as [|c kw IH]; [by apply andb_true_iff in Hx as [? _]|].
    rewrite sapp_cons in Hx. simpl in Hx. apply andb_true_iff in Hx as [_ Hx]. auto. }
  rewrite sapp_cons, next_char_ascii by (by apply name_char_ascii). by rewrite continues_ascii, Ha.
Qed.

Lemma keyword_read kw r : stop r → try_consume_keyword kw (kw +:+ r) = Some r.
Proof using Type.
  intros Hr. unfold try_consume_keyword, try_consume_str. rewrite strip_prefix_app. simpl.
  destruct Hr as [->|(a & r' & -> & Ha & Hn)]; [done|].
  rewrite next_char_ascii by done. by rewrite continues_ascii, Hn.
Qed.

Lemma plain_name_keywords x : plain_name x = true →
  name x = true ∧ name_rest x = true ∧ ∀ kw, In kw keywords → x ≠ kw.
Proof using Type.
  unfold plain_name. intros [Hx Hk]%andb_true_iff. split_and!; [done|by apply name_rest_of|].
  intros kw Hkw ->. rewrite forallb_forall in Hk. specialize (Hk _ Hkw). by rewrite String.eqb_refl in Hk.
Qed.

Lemma name_keyword_none x r kw :
  plain_name x = true → stop r → In kw keywords → try_consume_keyword kw (x +:+ r) = None.
Proof using Type.
  intros Hx Hr Hkw. destruct (plain_name_keywords x Hx) as (_ & Hxr & Hne).
  apply ltl_keyword_none; try done; [|by apply Hne].
  repeat (destruct Hkw as [<-|Hkw]; [done|]). done.
Qed.

(** ** Comparisons *)

Lemma ltl_no_comparison r : follow r → try_consume_comparison_op (skip_whitespace r) = None.
Proof using Type.
  intros [|r'|op r' Hop]; [done|by rewrite sapp_cons, skip_cons|].
  repeat (destruct Hop as [<-|Hop]; [rewrite ?sapp_cons, ?sapp_nil_l, skip_cons by done; simpl ascii_space;
    cbv iota; rewrite skip_cons by done; done|]). done.
Qed.

Lemma no_plus r : follow r → try_consume_char "+" (skip_whitespace r) = None.
Proof using Type.
  intros [|r'|op r' Hop]; [done|by rewrite sapp_cons, skip_cons|].
  repeat (destruct Hop as [<-|Hop]; [rewrite ?sapp_cons, ?sapp_nil_l, skip_cons by done; simpl ascii_space;
    cbv iota; rewrite skip_cons by done; done|]). done.
Qed.

Lemma digits_read d r : all_digits d = true → stop r → take_digits (d +:+ r) = (d, r).
Proof using Type.
  intros Hd Hr. induction d as [|a d IH].
  - rewrite sapp_nil_l. destruct Hr as [->|(a & r' & -> & _ & Hn)]; [done|]. simpl.
    unfold name_char in Hn. apply orb_false_iff in Hn as [_ ->]. done.
  - rewrite sapp_cons. simpl in *. apply andb_true_iff in Hd as [-> Hd]. by rewrite IH.
Qed.

Lemma decimal_head d : decimal d = true → ∃ a d', d = String a d' ∧ ascii_digit a = true ∧ all_digits d = true.
Proof using Type.
  destruct d as [|a d]; [done|]. intros H. exists a, d. split_and!; try done.
  simpl in H. by apply andb_true_iff in H as [? _].
Qed.

Lemma skip_digit a s : ascii_digit a = true → skip_whitespace (String a s) = String a s.
Proof using Type.
  intros Ha. rewrite skip_cons by (by apply ascii_digit_ascii).
  unfold ascii_digit, in_range, ascii_space, in_range in *.
  rewrite andb_true_iff, !Nat.leb_le in Ha.
  assert (Hs : ((9 <=? code a) && (code a <=? 13)) || (code a =? 32) = false); [|by rewrite Hs].
  apply not_true_iff_false. rewrite orb_true_iff, andb_true_iff, !Nat.leb_le, Nat.eqb_eq. lia.
Qed.

Lemma name_not_number a s : name_head a = true →
  try_consume_char "-" (String a s) = None ∧ starts_digit (String a s) = false.
Proof using Type.
  intros Ha. unfold try_consume_char. cbn [strip_prefix starts_digit].
  rewrite (class_eqb name_head a) by done. split; [done|].
  unfold name_head, ascii_alpha, ascii_upper, ascii_lower, in_range, ascii_digit, in_range in *.
  apply not_true_iff_false. rewrite andb_true_iff, !Nat.leb_le.
  rewrite !orb_true_iff, !andb_true_iff, !Nat.leb_le, !Ascii.eqb_eq in Ha.
  destruct Ha as [[?|?]| ->]; [lia|lia|vm_compute; lia].
Qed.

(** The sign and the digit tests fail on a name. *)
Lemma name_rhs x r : name x = true → stop r →
  try_consume_char "-" (x +:+ r) = None ∧ starts_digit (x +:+ r) = false ∧
  parse_identifier (x +:+ r) = (Some x, r).
Proof using Type.
  intros Hx Hr. rewrite (identifier_read x r) by (try done; by apply skip_name).
  destruct x as [|a x]; [done|]. rewrite sapp_cons. simpl in Hx. apply andb_true_iff in Hx as [Ha _].
  destruct (name_not_number a (x +:+ r) Ha). done.
Qed.

Lemma rhs_read y r : comparison_rhs y → follow r → parse_comparison_rhs (y +:+ r) = (Some y, r).
Proof using Type.
  intros Hy Hr. pose proof (follow_stop r Hr) as Hs. unfold parse_comparison_rhs. destruct Hy as [d Hd|d Hd|x Hx|x d Hx Hd].
  - destruct (decimal_head d Hd) as (a & d' & -> & Ha & Hall). unfold try_consume_char.
    rewrite sapp_cons. cbn [strip_prefix starts_digit]. rewrite (class_eqb ascii_digit a), Ha by done.
    rewrite <-sapp_cons, (digits_read _ r Hall Hs). done.
  - destruct (decimal_head d Hd) as (a & d' & -> & Ha & Hall). rewrite sapp_assoc. unfold try_consume_char.
    rewrite strip_prefix_app. rewrite (digits_read _ r Hall Hs). done.
  - destruct (name_rhs x r Hx Hs) as (-> & -> & ->). by rewrite no_plus.
  - rewrite !sapp_assoc. destruct (name_rhs x (" + " +:+ d +:+ r) Hx (space_stop _)) as (-> & -> & ->).
    destruct (decimal_head d Hd) as (a & d' & -> & Ha & Hall).
    assert (Hsk : ∀ t, skip_whitespace (" + " +:+ t) = "+" +:+ " " +:+ t).
    { intros t. rewrite !sapp_cons, !sapp_nil_l, skip_cons by done. simpl ascii_space. cbv iota. by apply skip_cons. }
    rewrite Hsk. unfold try_consume_char. rewrite strip_prefix_app, skip_space, sapp_cons, skip_digit by done.
    rewrite <-(sapp_cons a d' r), (digits_read _ r Hall Hs). done.
Qed.

Lemma op_read op r : In op ["=="; "!="; "<="; ">="; "<"; ">"] →
  try_consume_comparison_op (op +:+ " " +:+ r) = Some (op, " " +:+ r).
Proof using Type. intros Hop. repeat (destruct Hop as [<-|Hop]; [done|]). done. Qed.

Lemma skip_op op r : In op ["=="; "!="; "<="; ">="; "<"; ">"] →
  skip_whitespace (" " +:+ op +:+ r) = op +:+ r.
Proof using Type.
  intros Hop. rewrite skip_space.
  repeat (destruct Hop as [<-|Hop]; [rewrite sapp_cons; by apply skip_cons|]). done.
Qed.

Lemma skip_rhs y r : comparison_rhs y → skip_whitespace (y +:+ r) = y +:+ r.
Proof using Type.
  intros [d Hd|d Hd|x Hx|x d Hx _].
  - destruct (decimal_head d Hd) as (a & d' & -> & Ha & _). rewrite sapp_cons. by apply skip_digit.
  - rewrite sapp_assoc, sapp_cons. by apply skip_cons.
  - by apply skip_name.
  - rewrite sapp_assoc. by apply skip_name.
Qed.

(** A predicate is read up to what follows it. *)
Lemma predicate_read p r s ro :
  predicate_text p → follow r → skip_whitespace s = p +:+ r →
  parse_primary n ro s = LOk (LPredicate p) r.
Proof using Type.
  intros Hp Hr Hs. pose proof (follow_stop r Hr) as Hst. unfold parse_primary. rewrite Hs.
  assert (Hname : ∃ x t, plain_name x = true ∧ p +:+ r = x +:+ t ∧ stop t ∧
    parse_predicate n x t = LOk (LPredicate p) r).
  { destruct Hp as [x Hx|x op y Hx Hop Hy].
    - exists x, r. split_and!; try done. unfold parse_predicate. by rewrite ltl_no_comparison.
    - exists x, (" " +:+ op +:+ " " +:+ y +:+ r). rewrite !sapp_assoc. split_and!; try done; [apply space_stop|].
      unfold parse_predicate. rewrite skip_op, op_read, skip_space, skip_rhs, rhs_read by done. done. }
  destruct Hname as (x & t & Hx & -> & Ht & Hpred).
  assert (Hpar : try_consume_char "(" (x +:+ t) = None).
  { destruct (plain_name_keywords x Hx) as (Hxn & _). destruct x as [|a x]; [done|]. rewrite sapp_cons.
    unfold try_consume_char. cbn [strip_prefix]. simpl in Hxn. apply andb_true_iff in Hxn as [Ha _].
    by rewrite (class_eqb name_head a). }
  rewrite Hpar, !name_keyword_none by (try done; simpl; tauto).
  destruct (plain_name_keywords x Hx) as (Hxn & _).
  rewrite (identifier_read x t); [done..|by apply skip_name].
Qed.

(** ** Operators *)

(** The text does not start with a prefix operator, so a primary is read. *)
Lemma primary_inner ru ro s t :
  skip_whitespace s = t →
  try_consume_char "!" t = None → or_keyword "G" "always" t = None → or_keyword "F" "eventually" t = None →
  or_keyword "X" "next" t = None → skip_whitespace t = t →
  parse_unary_inner n ru ro s = parse_primary n ro t.
Proof using Type. intros Hs H1 H2 H3 H4 _. unfold parse_unary_inner. by rewrite Hs, H1, H2, H3, H4. Qed.

Lemma predicate_unary p r s ru ro :
  predicate_text p → follow r → skip_whitespace s = p +:+ r →
  parse_unary_inner n ru ro s = LOk (LPredicate p) r.
Proof using Type.
  intros Hp Hr Hs.
  assert (Hx : ∃ x t, plain_name x = true ∧ p +:+ r = x +:+ t ∧ stop t).
  { destruct Hp as [x Hx|x op y Hx Hop Hy]; [exists x, r; split_and!; try done; by apply follow_stop|].
    exists x, (" " +:+ op +:+ " " +:+ y +:+ r). rewrite !sapp_assoc. split_and!; try done. apply space_stop. }
  destruct Hx as (x & t & Hx & E & Ht).
  assert (Hsk : skip_whitespace (p +:+ r) = p +:+ r) by (rewrite E; apply skip_name; by apply plain_name_keywords).
  rewrite (primary_inner _ _ s (p +:+ r)); [by apply predicate_read|done| | | | |done]; rewrite E.
  - destruct (plain_name_keywords x Hx) as (Hxn & _). destruct x as [|a x]; [done|]. rewrite sapp_cons.
    unfold try_consume_char. cbn [strip_prefix]. simpl in Hxn. apply andb_true_iff in Hxn as [Ha _].
    by rewrite (class_eqb name_head a).
  - unfold or_keyword. by rewrite !name_keyword_none by (try done; simpl; tauto).
  - unfold or_keyword. by rewrite !name_keyword_none by (try done; simpl; tauto).
  - unfold or_keyword. by rewrite !name_keyword_none by (try done; simpl; tauto).
Qed.

Lemma const_unary (b : bool) r s ru ro :
  follow r → skip_whitespace s = (if b then "true" else "false") +:+ r →
  parse_unary_inner n ru ro s = LOk (if b then LTrue else LFalse) r.
Proof using Type.
  intros Hr Hs. pose proof (follow_stop r Hr) as Hst.
  assert (Hsk : skip_whitespace ((if b then "true" else "false") +:+ r) = (if b then "true" else "false") +:+ r).
  { destruct b; rewrite sapp_cons; by apply skip_cons. }
  rewrite (primary_inner _ _ s ((if b then "true" else "false") +:+ r)); try done.
  - unfold parse_primary. rewrite Hsk. destruct b.
    + by rewrite keyword_read.
    + assert (Ht : try_consume_keyword "true" ("false" +:+ r) = None) by done. rewrite Ht. by rewrite keyword_read.
  - by destruct b.
  - by destruct b.
  - unfold or_keyword. destruct b; [done|].
    assert (H1 : try_consume_keyword "F" ("false" +:+ r) = None) by done. by rewrite H1.
  - by destruct b.
Qed.

(** A parser of operands reads [f] from the text [t], in a text of at most [b] bytes. *)
Definition item_reads (item : string → LtlOutcome) (b : nat) (t : string) (f : LtlFormula) : Prop :=
  ∀ s r, String.length s ≤ b → skip_whitespace s = t +:+ r → follow r → item s = LOk f r.

(** The levels over a parser of operands: one chain around another. *)
Definition levels (item : string → LtlOutcome) (ops : list (string → option (BinaryOp * string))) :
    string → LtlOutcome := foldl chain item ops.

Definition all_ops : list (string → option (BinaryOp * string)) :=
  [until_op; symbol_op "&&" LAnd; symbol_op "||" LOr; symbol_op "->" LImplies].

Lemma implies_levels unary : implies_level unary = levels unary all_ops.
Proof using Type. done. Qed.

(** No operator of the levels comes next. *)
Definition no_op (ops : list (string → option (BinaryOp * string))) (s : string) : Prop :=
  Forall (λ op, op s = None) ops.

Lemma levels_one item ops s f r r' :
  item s = LOk f r → skip_whitespace r = r' → skip_whitespace r' = r' → no_op ops r' →
  ∃ r0, levels item ops s = LOk f r0 ∧ skip_whitespace r0 = r' ∧ (ops ≠ [] → r0 = r').
Proof using Type.
  intros Hi Hr Hr' Hn. revert item r Hi Hr. induction Hn as [|op ops Hop _ IH]; intros item r Hi Hr; [by exists r|].
  assert (Hc : chain item op s = LOk f r').
  { unfold chain. rewrite Hi. cbn [chain_loop]. by rewrite Hr, Hop. }
  destruct (IH _ _ Hc Hr') as (r0 & E & Hr0 & Hne). exists r0. split_and!; [done|done|].
  intros _. destruct ops; [|by apply Hne]. simpl in E. congruence.
Qed.

Lemma chain_two item op s f a r1 mk r2 g b r4 :
  item s = LOk f a → skip_whitespace a = r1 → r1 ≠ "" → op r1 = Some (mk, r2) → item r2 = LOk g b →
  skip_whitespace b = r4 → op r4 = None → chain item op s = LOk (mk f g) r4.
Proof using Type.
  intros Hi Ha Hne Hop Hi2 Hb Hop4. unfold chain. rewrite Hi. cbn [chain_loop]. rewrite Ha, Hop, Hi2.
  pose proof (skip_length a) as Hl. rewrite Ha in Hl.
  destruct (String.length a) as [|k]; [by destruct r1; [|simpl in Hl; lia]|].
  cbn [chain_loop]. by rewrite Hb, Hop4.
Qed.

Lemma levels_two item lo op hi s f r r1 mk r2 g r3 r4 :
  item s = LOk f r → skip_whitespace r = r1 → skip_whitespace r1 = r1 → r1 ≠ "" → no_op lo r1 →
  op r1 = Some (mk, r2) → item r2 = LOk g r3 → skip_whitespace r3 = r4 → skip_whitespace r4 = r4 →
  no_op (lo ++ op :: hi) r4 → levels item (lo ++ op :: hi) s = LOk (mk f g) r4.
Proof using Type.
  intros Hi1 Hr1 Hr1' Hne Hlo Hop Hi2 Hr4 Hr4' Hno. unfold no_op in Hno.
  apply Forall_app in Hno as [Hlo4 [Hop4 Hhi4]%Forall_cons_1]. unfold levels. rewrite foldl_app. simpl.
  destruct (levels_one item lo s f r r1) as (a & Ea & Ha & _); try done.
  destruct (levels_one item lo r2 g r3 r4) as (b & Eb & Hb & _); try done.
  unfold levels in Ea, Eb.
  assert (Hc : chain (foldl chain item lo) op s = LOk (mk f g) r4).
  { by eapply chain_two. }
  destruct (levels_one _ hi s _ _ r4 Hc Hr4' Hr4' Hhi4) as (r0 & E & _ & Hr0). unfold levels in E. rewrite E.
  destruct hi; [simpl in E; congruence|by rewrite Hr0].
Qed.

(** The binary operators and their spellings. *)
Definition binary_ops : list (string * BinaryOp) :=
  [("&&", LAnd); ("||", LOr); ("->", LImplies); ("U", LUntil); ("W", LWeakUntil); ("R", LRelease)].

Lemma binary_read unary b sym mk tf f tg g r s :
  In (sym, mk) binary_ops → item_reads unary b tf f → item_reads unary b tg g → String.length s ≤ b →
  (∀ t, skip_whitespace (tg +:+ t) = tg +:+ t) →
  skip_whitespace s = tf +:+ " " +:+ sym +:+ " " +:+ tg +:+ ")" +:+ r →
  implies_level unary s = LOk (mk f g) (")" +:+ r).
Proof using Type.
  intros Hop Hf Hg Hb Hsk Hs. pose proof (skip_length s) as Hl. rewrite Hs, !length_sapp in Hl. set (close := ")" +:+ r) in *. rewrite implies_levels.
  assert (Hc : skip_whitespace close = close) by (by apply skip_cons).
  assert (Hcn : no_op all_ops close) by (by repeat constructor).
  assert (Hg' : unary (" " +:+ tg +:+ close) = LOk g close).
  { apply Hg; [subst close; rewrite !length_sapp; simpl in *; lia|rewrite skip_space; apply Hsk|apply (follow_close r)]. }
  assert (two : ∀ lo op hi sym mk, lo ++ op :: hi = all_ops →
    unary s = LOk f (" " +:+ sym +:+ " " +:+ tg +:+ close) →
    skip_whitespace (" " +:+ sym +:+ " " +:+ tg +:+ close) = sym +:+ " " +:+ tg +:+ close →
    skip_whitespace (sym +:+ " " +:+ tg +:+ close) = sym +:+ " " +:+ tg +:+ close →
    sym ≠ "" → no_op lo (sym +:+ " " +:+ tg +:+ close) →
    op (sym +:+ " " +:+ tg +:+ close) = Some (mk, " " +:+ tg +:+ close) →
    levels unary all_ops s = LOk (mk f g) close).
  { intros lo op hi sy m E Hu H1 H2 Hne Hlo Ho. rewrite <-E.
    eapply levels_two; [exact Hu|exact H1|exact H2| |exact Hlo|exact Ho|exact Hg'|exact Hc|exact Hc|by rewrite E].
    by destruct sy. }
  assert (Hf' : unary s = LOk f (" " +:+ sym +:+ " " +:+ tg +:+ close)).
  { apply Hf; [done..|]. rewrite <-(sapp_assoc sym " "), <-(sapp_assoc " " (sym +:+ " ")). apply follow_op.
    repeat (destruct Hop as [Hop|Hop]; [injection Hop as <- <-; simpl; tauto|]). done. }
  assert (Hsym : skip_whitespace (" " +:+ sym +:+ " " +:+ tg +:+ close) = sym +:+ " " +:+ tg +:+ close
    ∧ skip_whitespace (sym +:+ " " +:+ tg +:+ close) = sym +:+ " " +:+ tg +:+ close).
  { rewrite skip_space. repeat (destruct Hop as [Hop|Hop]; [injection Hop as <- <-;
      rewrite sapp_cons; split; by apply skip_cons|]). done. }
  destruct Hsym as [H1 H2].
  repeat (destruct Hop as [Hop|Hop]; [injection Hop as <- <-|]); [..|done].
  - apply (two [until_op] (symbol_op "&&" LAnd) [symbol_op "||" LOr; symbol_op "->" LImplies] "&&"); [done..|by repeat constructor|done].
  - apply (two [until_op; symbol_op "&&" LAnd] (symbol_op "||" LOr) [symbol_op "->" LImplies] "||"); [done..|by repeat constructor|done].
  - apply (two [until_op; symbol_op "&&" LAnd; symbol_op "||" LOr] (symbol_op "->" LImplies) [] "->"); [done..|by repeat constructor|done].
  - apply (two [] until_op [symbol_op "&&" LAnd; symbol_op "||" LOr; symbol_op "->" LImplies] "U"); [done..|by repeat constructor|done].
  - apply (two [] until_op [symbol_op "&&" LAnd; symbol_op "||" LOr; symbol_op "->" LImplies] "W"); [done..|by repeat constructor|done].
  - apply (two [] until_op [symbol_op "&&" LAnd; symbol_op "||" LOr; symbol_op "->" LImplies] "R"); [done..|by repeat constructor|done].
Qed.

Lemma parenthesised_read ro s f r : ro s = LOk f (")" +:+ r) → parenthesised n ro s = LOk f r.
Proof using Type.
  intros H. unfold parenthesised. rewrite H, skip_sym by done.
  unfold expect_char, try_consume_char. by rewrite strip_prefix_app.
Qed.

Lemma predicate_head p : predicate_text p → ∃ a t, p = String a t ∧ name_head a = true.
Proof using Type.
  intros Hp. assert (Hx : ∃ x t, plain_name x = true ∧ p = x +:+ t).
  { destruct Hp as [x Hx|x op y Hx _ _]; [exists x, ""|by eexists _, _]. by rewrite sapp_nil_r. }
  destruct Hx as (x & t & Hx & ->). destruct (plain_name_keywords x Hx) as (Hxn & _).
  destruct x as [|a x]; [done|]. simpl in Hxn. apply andb_true_iff in Hxn as [Ha _]. by eexists _, _.
Qed.

Lemma show_solid f t : predicates_read f → skip_whitespace (show f +:+ t) = show f +:+ t.
Proof using Type.
  destruct f; simpl; intros Hp; rewrite ?sapp_assoc;
    try (rewrite ?sapp_cons, ?sapp_nil_l; by apply skip_cons).
  destruct (predicate_head p Hp) as (a & t' & -> & Ha). rewrite sapp_cons.
  rewrite skip_cons by (by apply name_char_ascii, name_head_char). by rewrite name_head_solid.
Qed.

(** A formula is read by the parser of operands, and when it is in parentheses,
    after the opening one. *)
Definition shown_reads (f : LtlFormula) : Prop :=
  (∀ k, item_reads (parse_unary n (S k)) k (show f) f) ∧
  (∀ k s r, String.length s ≤ k → "(" +:+ s = show f +:+ r → follow r →
     parenthesised n (implies_level (parse_unary n (S k))) s = LOk f r).

(** Binary formulas. *)
Lemma binary_shown sym mk x y :
  In (sym, mk) binary_ops → show (mk x y) = "(" +:+ show x +:+ " " +:+ sym +:+ " " +:+ show y +:+ ")" →
  predicates_read x → predicates_read y → shown_reads x → shown_reads y → shown_reads (mk x y).
Proof using Type.
  intros Hop Hshow Hpx Hpy [Hx _] [Hy _].
  assert (H2 : ∀ k s r, String.length s ≤ k → "(" +:+ s = show (mk x y) +:+ r → follow r →
     parenthesised n (implies_level (parse_unary n (S k))) s = LOk (mk x y) r).
  { intros k s r Hl Hs Hr. rewrite Hshow, !sapp_assoc in Hs. apply (inj (String.append _)) in Hs.
    apply parenthesised_read. apply (binary_read _ k sym mk (show x) x (show y) y); auto.
    - intros t. by apply show_solid.
    - rewrite Hs. by apply show_solid. }
  split; [|done]. intros k s r Hl Hs Hr. rewrite Hshow, sapp_assoc in Hs.
  pose proof (skip_length s) as Hsl. rewrite Hs, length_sapp in Hsl. simpl in Hsl.
  cbn [parse_unary]. destruct k as [|k]; [lia|].
  set (t := _ +:+ r) in Hs, Hsl. rewrite (primary_inner _ _ s _ Hs) by (try done; by apply skip_cons).
  unfold parse_primary. rewrite skip_sym by done. unfold try_consume_char. rewrite strip_prefix_app.
  apply H2; [lia| |done]. subst t. by rewrite Hshow, !sapp_assoc.
Qed.

(** The operand of a prefix operator. *)
Lemma operand_read k a s r :
  shown_reads a → predicates_read a → String.length s ≤ k → s = " " +:+ show a +:+ r → follow r →
  parse_operand n (parse_unary n (S k)) (implies_level (parse_unary n (S k))) s = LOk a r.
Proof using Type.
  intros [H1 H2] Hp Hl -> Hr. unfold parse_operand. rewrite skip_space, show_solid by done.
  rewrite !length_sapp in Hl. unfold try_consume_char.
  destruct (strip_prefix "(" (show a +:+ r)) as [t|] eqn:E.
  - apply strip_prefix_some in E. pose proof (f_equal String.length E) as El. rewrite !length_sapp in El. simpl in El.
    apply H2; [lia|done|done].
  - apply H1; [rewrite length_sapp; lia|by apply show_solid|done].
Qed.

(** Prefix operators. *)
Lemma prefix_shown kw kw' (mk : LtlFormula → LtlFormula) a :
  In (kw, kw', mk) [("G", "always", LAlways); ("F", "eventually", LEventually); ("X", "next", LNext)] →
  show (mk a) = kw +:+ " " +:+ show a → predicates_read a → shown_reads a → shown_reads (mk a).
Proof using Type.
  intros Hop Hshow Hp Ha. split.
  - intros k s r Hl Hs Hr. rewrite Hshow, !sapp_assoc in Hs. cbn [parse_unary].
    pose proof (skip_length s) as Hsl. rewrite Hs, !length_sapp in Hsl.
    destruct k as [|k]; [simpl in Hsl; lia|].
    assert (Hkw : 0 < String.length kw) by (repeat (destruct Hop as [Hop|Hop]; [injection Hop as <- <- <-; simpl; lia|]); done).
    assert (Ho := operand_read k a (" " +:+ show a +:+ r) r Ha Hp ltac:(rewrite !length_sapp; lia) eq_refl Hr).
    unfold parse_unary_inner. rewrite Hs.
    repeat (destruct Hop as [Hop|Hop]; [injection Hop as <- <- <-|]); [..|done].
    + change (try_consume_char "!" _) with (@None string). unfold or_keyword.
      rewrite keyword_read by apply space_stop. by rewrite Ho.
    + change (try_consume_char "!" _) with (@None string).
      change (or_keyword "G" "always" _) with (@None string). unfold or_keyword.
      rewrite keyword_read by apply space_stop. by rewrite Ho.
    + change (try_consume_char "!" _) with (@None string).
      change (or_keyword "G" "always" _) with (@None string).
      change (or_keyword "F" "eventually" _) with (@None string). unfold or_keyword.
      rewrite keyword_read by apply space_stop. by rewrite Ho.
  - intros k s r _ Hs _. exfalso. rewrite Hshow, !sapp_assoc in Hs.
    repeat (destruct Hop as [Hop|Hop]; [injection Hop as <- <- <-; done|]). done.
Qed.

Lemma not_shown a : predicates_read a → shown_reads a → shown_reads (LNot a).
Proof using Type.
  intros Hp [Ha _]. split.
  - intros k s r Hl Hs Hr. simpl in Hs. rewrite sapp_assoc in Hs. cbn [parse_unary].
    pose proof (skip_length s) as Hsl. rewrite Hs, !length_sapp in Hsl. simpl in Hsl.
    destruct k as [|k]; [lia|].
    unfold parse_unary_inner. rewrite Hs. unfold try_consume_char. rewrite strip_prefix_app.
    rewrite (Ha k _ r); [done|rewrite length_sapp; lia|by apply show_solid|done].
  - intros k s r _ Hs _. exfalso. simpl in Hs. by rewrite sapp_assoc in Hs.
Qed.

Lemma core_shown f : core f = true → predicates_read f → shown_reads f.
Proof using Type.
  induction f as [| |p|a IHa|a IHa b IHb|a IHa b IHb|a IHa b IHb|a IHa|a IHa|a IHa|a IHa b IHb|a IHa b IHb
    |a IHa b IHb|a IHa|a IHa|a IHa b IHb]; intros Hc Hp; try done; simpl in Hc, Hp;
    try (apply andb_true_iff in Hc as [Hca Hcb]; destruct Hp as [Hpa Hpb]).
  - split; [intros k s r _ Hs Hr; by apply (const_unary true)|intros k s r _ Hs _; done].
  - split; [intros k s r _ Hs Hr; by apply (const_unary false)|intros k s r _ Hs _; done].
  - split; [intros k s r _ Hs Hr; by apply predicate_unary|]. intros k s r _ Hs _. exfalso.
    destruct (predicate_head p Hp) as (a & t & -> & Ha). simpl show in Hs. rewrite !sapp_cons in Hs.
    injection Hs as <- _. done.
  - apply not_shown; auto.
  - apply (binary_shown "&&" LAnd); simpl; auto.
  - apply (binary_shown "||" LOr); simpl; auto.
  - apply (binary_shown "->" LImplies); simpl; auto.
  - apply (prefix_shown "X" "next" LNext); simpl; auto.
  - apply (prefix_shown "G" "always" LAlways); simpl; auto.
  - apply (prefix_shown "F" "eventually" LEventually); simpl; auto.
  - apply (binary_shown "U" LUntil); simpl; auto 7.
  - apply (binary_shown "W" LWeakUntil); simpl; auto 8.
  - apply (binary_shown "R" LRelease); simpl; auto 9.
Qed.

Lemma formula_shown f k s :
  core f = true → predicates_read f → String.length s ≤ k → skip_whitespace s = show f →
  implies_level (parse_unary n (S k)) s = LOk f "".
Proof using Type.
  intros Hc Hp Hl Hs. destruct (core_shown f Hc Hp) as [H1 _]. rewrite implies_levels.
  assert (Hu : parse_unary n (S k) s = LOk f "") by (apply H1; [done|by rewrite sapp_nil_r|constructor]).
  destruct (levels_one _ all_ops s f "" "" Hu) as (r0 & -> & _ & Hr0); [done|done|by repeat constructor|].
  by rewrite Hr0.
Qed.
End reading.

(** * Properties *)

(** C35: temporal formulas survive printing. The text a formula is printed as,
    in messages and in the surface syntax, is parsed back as the formula, with
    the derived operators ([G F], [F G] and response) spelled out, whatever the
    formula's nesting. *)
Theorem ltl_parse_show `{Unicode} f :
  predicates_read f → parse (show f) = LOk (desugar f) "".
Proof.
  intros Hp. unfold parse, parse_formula, parse_implies.
  rewrite (formula_shown _ (desugar f) (String.length (show f)) (show f)); [done|apply core_desugar| |done|].
  - by apply desugar_predicates.
  - pose proof (show_solid (desugar f) "" (desugar_predicates f Hp)) as Hs.
    rewrite !sapp_nil_r, show_desugar in Hs. by rewrite show_desugar.
Qed.

(** ** Witness *)

(** [G ((req && x >= y + 3) -> F !ack)] *)
Lemma ltl_parse_show_witness :
  let f := LResponse (LAnd (LPredicate "req") (LPredicate "x >= y + 3")) (LNot (LPredicate "ack")) in
  show f = "G ((req && x >= y + 3) -> F !ack)" ∧
  parse (U := ascii_only) (show f) =
    LOk (LAlways (LImplies (LAnd (LPredicate "req") (LPredicate "x >= y + 3"))
      (LEventually (LNot (LPredicate "ack"))))) "".
Proof.
  split; [reflexivity|].
  apply (ltl_parse_show (H := ascii_only)
    (LResponse (LAnd (LPredicate "req") (LPredicate "x >= y + 3")) (LNot (LPredicate "ack")))).
  repeat split.
  - by apply pt_name.
  - apply (pt_compare "x" ">=" "y + 3"); [done|simpl; tauto|]. by apply (rhs_offset "y" "3").
  - by apply pt_name.
Defined.
