(* ===== verification/Translator.v ===== *)
(** The branching translation of temporal formulas, [translate_existential] of
    [ltl/translator.rs]: [G] and [X] over every successor, [F] and [U] over some.

    The translator pushes nodes and fixpoint variables into a [FormulaBuilder].
    No branch of it returns an error, so the functions below return the node
    only.  [translate_formula_builds] says which tree is built, and
    [translate_existential_correct] what the model checker answers on it. *)
From S2P Require Import Prelude Formula Trit Clts Modal Evaluator Semantics Domains Checking Verdicts Divergences Transforms Branching Ltl.

(** ** The translator *)

Record Translator := { t_builder : FormulaBuilder; var_counter : nat }.

Definition Translator_new : Translator := {| t_builder := FormulaBuilder_default; var_counter := 0 |}.

(** [self.builder.push_node]. *)
Definition t_push (n : Node) (tr : Translator) : NodeId * Translator :=
  let '(id, b) := push_node (t_builder tr) n in (id, {| t_builder := b; var_counter := var_counter tr |}).

Definition new_fixpoint_var (prefix : string) (tr : Translator) : FormulaVarId * Translator :=
  let '(v, b) := push_var (t_builder tr) (prefix +:+ pretty (var_counter tr)) in
  (v, {| t_builder := b; var_counter := var_counter tr + 1 |}).

Definition box_modal (t : NodeId) (tr : Translator) : NodeId * Translator :=
  t_push (NModal Box Guard_default t) tr.
Definition diamond_modal (t : NodeId) (tr : Translator) : NodeId * Translator :=
  t_push (NModal Diamond Guard_default t) tr.

(** [nu X. (inner && [] X)] *)
Definition always_around (prefix : string) (inner_id : NodeId) (tr : Translator) : NodeId * Translator :=
  let '(v, tr) := new_fixpoint_var prefix tr in
  let '(var_node, tr) := t_push (NVariable v) tr in
  let '(box_var, tr) := box_modal var_node tr in
  let '(and_node, tr) := t_push (NAnd inner_id box_var) tr in
  t_push (NNu v and_node) tr.

(** [mu X. (inner || <> X)] *)
Definition eventually_around (prefix : string) (inner_id : NodeId) (tr : Translator) : NodeId * Translator :=
  let '(v, tr) := new_fixpoint_var prefix tr in
  let '(var_node, tr) := t_push (NVariable v) tr in
  let '(dia_var, tr) := diamond_modal var_node tr in
  let '(or_node, tr) := t_push (NOr inner_id dia_var) tr in
  t_push (NMu v or_node) tr.

Definition translate_eventually_internal : NodeId → Translator → NodeId * Translator := eventually_around "X".

Definition translate_until_internal (left_id right_id : NodeId) (tr : Translator) : NodeId * Translator :=
  let '(v, tr) := new_fixpoint_var "X" tr in
  let '(var_node, tr) := t_push (NVariable v) tr in
  let '(dia_var, tr) := diamond_modal var_node tr in
  let '(and_left, tr) := t_push (NAnd left_id dia_var) tr in
  let '(or_node, tr) := t_push (NOr right_id and_left) tr in
  t_push (NMu v or_node) tr.

(** The three helpers that translate their operands first; [go] is
    [translate_formula] on the operand. *)
Definition translate_always (go : Translator → NodeId * Translator) (tr : Translator) : NodeId * Translator :=
  let '(inner_id, tr) := go tr in always_around "X" inner_id tr.
Definition translate_eventually (go : Translator → NodeId * Translator) (tr : Translator) : NodeId * Translator :=
  let '(inner_id, tr) := go tr in translate_eventually_internal inner_id tr.
Definition translate_until (go_left go_right : Translator → NodeId * Translator) (tr : Translator)
    : NodeId * Translator :=
  let '(left_id, tr) := go_left tr in
  let '(right_id, tr) := go_right tr in
  translate_until_internal left_id right_id tr.

Fixpoint translate_formula (ltl : LtlFormula) (tr : Translator) : NodeId * Translator :=
  match ltl with
  | LTrue => t_push NTrue tr
  | LFalse => t_push NFalse tr
  | LPredicate name => t_push (NPredicate name) tr
  | LNot inner => let '(inner_id, tr) := translate_formula inner tr in t_push (NNot inner_id) tr
  | LAnd lhs rhs =>
    let '(left_id, tr) := translate_formula lhs tr in
    let '(right_id, tr) := translate_formula rhs tr in
    t_push (NAnd left_id right_id) tr
  | LOr lhs rhs =>
    let '(left_id, tr) := translate_formula lhs tr in
    let '(right_id, tr) := translate_formula rhs tr in
    t_push (NOr left_id right_id) tr
  | LImplies lhs rhs =>
    let '(left_id, tr) := translate_formula lhs tr in
    let '(right_id, tr) := translate_formula rhs tr in
    let '(not_left, tr) := t_push (NNot left_id) tr in
    t_push (NOr not_left right_id) tr
  | LNext inner => let '(inner_id, tr) := translate_formula inner tr in box_modal inner_id tr
  | LAlways inner => translate_always (translate_formula inner) tr
  | LEventually inner => translate_eventually (translate_formula inner) tr
  | LUntil lhs rhs => translate_until (translate_formula lhs) (translate_formula rhs) tr
  | LWeakUntil lhs rhs =>
    let '(until_id, tr) := translate_until (translate_formula lhs) (translate_formula rhs) tr in
    let '(always_left_id, tr) := translate_always (translate_formula lhs) tr in
    t_push (NOr until_id always_left_id) tr
  | LRelease lhs rhs =>
    let '(left_id, tr) := translate_formula lhs tr in
    let '(right_id, tr) := translate_formula rhs tr in
    let '(not_left, tr) := t_push (NNot left_id) tr in
    let '(not_right, tr) := t_push (NNot right_id) tr in
    let '(until_id, tr) := translate_until_internal not_left not_right tr in
    t_push (NNot until_id) tr
  | LRecurrence inner =>
    let '(eventually_id, tr) := translate_eventually (translate_formula inner) tr in
    always_around "Y" eventually_id tr
  | LStabilization inner =>
    let '(always_id, tr) := translate_always (translate_formula inner) tr in
    eventually_around "Y" always_id tr
  | LResponse trigger response =>
    let '(trigger_id, tr) := translate_formula trigger tr in
    let '(response_id, tr) := translate_formula response tr in
    let '(not_trigger, tr) := t_push (NNot trigger_id) tr in
    let '(eventually_response, tr) := translate_eventually_internal response_id tr in
    let '(or_node, tr) := t_push (NOr not_trigger eventually_response) tr in
    always_around "X" or_node tr
  end.

Definition translate_existential (ltl : LtlFormula) : Formula :=
  let '(root, tr) := translate_formula ltl Translator_new in into_formula (t_builder tr) root.

Definition ALTERNATION_DEPTH_WARN_THRESHOLD : nat := 3.

(** A warning on the standard error is printed. *)
Definition warn_on_alternation (f : Formula) : option bool :=
  (λ d, ALTERNATION_DEPTH_WARN_THRESHOLD <? d) <$> alternation_depth f.

(** ** The trees *)

Definition always_tree_at (t : Tree) (n : nat) : Tree * nat :=
  (TFix Greatest n (TAnd t (box (TVar n))), S n).
Definition eventually_tree_at (t : Tree) (n : nat) : Tree * nat :=
  (TFix Least n (TOr t (dia (TVar n))), S n).
Definition until_tree_at (l r : Tree) (n : nat) : Tree * nat :=
  (TFix Least n (TOr r (TAnd l (dia (TVar n)))), S n).

(** The tree built when [n] variables exist already, and how many exist then. *)
Fixpoint existential_tree (f : LtlFormula) (n : nat) : Tree * nat :=
  match f with
  | LTrue => (TTrue, n)
  | LFalse => (TFalse, n)
  | LPredicate p => (TPred p, n)
  | LNot a => let '(t, n) := existential_tree a n in (TNot t, n)
  | LAnd a b =>
    let '(l, n) := existential_tree a n in let '(r, n) := existential_tree b n in (TAnd l r, n)
  | LOr a b =>
    let '(l, n) := existential_tree a n in let '(r, n) := existential_tree b n in (TOr l r, n)
  | LImplies a b =>
    let '(l, n) := existential_tree a n in let '(r, n) := existential_tree b n in (TOr (TNot l) r, n)
  | LNext a => let '(t, n) := existential_tree a n in (box t, n)
  | LAlways a => let '(t, n) := existential_tree a n in always_tree_at t n
  | LEventually a => let '(t, n) := existential_tree a n in eventually_tree_at t n
  | LUntil a b =>
    let '(l, n) := existential_tree a n in let '(r, n) := existential_tree b n in until_tree_at l r n
  | LWeakUntil a b =>
    let '(l, n) := existential_tree a n in let '(r, n) := existential_tree b n in
    let '(u, n) := until_tree_at l r n in
    let '(l', n) := existential_tree a n in
    let '(g, n) := always_tree_at l' n in (TOr u g, n)
  | LRelease a b =>
    let '(l, n) := existential_tree a n in let '(r, n) := existential_tree b n in
    let '(u, n) := until_tree_at (TNot l) (TNot r) n in (TNot u, n)
  | LRecurrence a =>
    let '(t, n) := existential_tree a n in
    let '(u, n) := eventually_tree_at t n in always_tree_at u n
  | LStabilization a =>
    let '(t, n) := existential_tree a n in
    let '(u, n) := always_tree_at t n in eventually_tree_at u n
  | LResponse a b =>
    let '(l, n) := existential_tree a n in let '(r, n) := existential_tree b n in
    let '(u, n) := eventually_tree_at r n in always_tree_at (TOr (TNot l) u) n
  end.

(** ** What the translator builds *)

(** The arena's children precede their parents, every variable of the table has
    been counted and is named by its place. *)
Record translator_ok (tr : Translator) : Prop := {
  tk_arena : wf_arena (b_nodes (t_builder tr));
  tk_counter : var_counter tr = length (b_vars (t_builder tr));
  tk_names : ∀ i x, b_vars (t_builder tr) !! i = Some x → x = "X" +:+ pretty i ∨ x = "Y" +:+ pretty i
}.

Definition table (tr : Translator) : nat := length (b_vars (t_builder tr)).

(** [r] is a node for the first tree of [t], and the table has grown to the second. *)
Record makes (tr : Translator) (t : Tree * nat) (r : NodeId * Translator) : Prop := {
  mk_ok : translator_ok r.2;
  mk_tree : repr (b_nodes (t_builder r.2)) r.1 t.1;
  mk_table : table r.2 = t.2;
  mk_ext : ∃ ext, b_nodes (t_builder r.2) = b_nodes (t_builder tr) ++ ext
}.

(** A tree of an earlier arena is still there. *)
Definition holds_at (tr : Translator) (id : NodeId) (t : Tree) : Prop := repr (b_nodes (t_builder tr)) id t.

Lemma makes_trans tr id tr1 t r u :
  makes tr t (id, tr1) → makes tr1 u r → makes tr u r.
Proof.
  intros [_ _ _ [e1 E1]] [H1 H2 H3 [e2 E2]]. split; try done. simpl in *. rewrite E2, E1, <-app_assoc. by eexists.
Qed.

Lemma makes_keeps tr t r id u : makes tr t r → holds_at tr id u → holds_at r.2 id u.
Proof. intros [_ _ _ [e E]] H. unfold holds_at in *. rewrite E. by apply repr_mono. Qed.

Lemma push_makes tr n t :
  translator_ok tr → Forall (λ c, c < length (b_nodes (t_builder tr))) (children n) →
  node_tree (b_nodes (t_builder tr)) n t → makes tr (t, table tr) (t_push n tr).
Proof.
  intros [H1 H2 H3] Hc Ht. unfold t_push, push_node. split; simpl.
  - split; simpl; [by apply wf_arena_push|done..].
  - apply Ht; [apply lookup_push|by eexists].
  - done.
  - by eexists.
Qed.

Lemma var_makes tr prefix :
  translator_ok tr → prefix = "X" ∨ prefix = "Y" →
  let r := new_fixpoint_var prefix tr in
  r.1 = table tr ∧ table r.2 = S (table tr) ∧ translator_ok r.2 ∧
  b_nodes (t_builder r.2) = b_nodes (t_builder tr).
Proof.
  intros [H1 H2 H3] Hp. unfold new_fixpoint_var, push_var, table. simpl. rewrite length_app. simpl.
  split_and!; [done|lia| |done]. split; simpl; [done|rewrite length_app; simpl; lia|].
  intros i x. rewrite lookup_snoc_Some. intros [[_ Hx]|[-> <-]]; [by apply H3|].
  rewrite H2. by destruct Hp as [->| ->]; [left|right].
Qed.

(** The body of a fixpoint is built over one more variable, the fixpoint after it. *)
Lemma bind_makes tr prefix (body : FormulaVarId → Translator → NodeId * Translator) (least : bool) t :
  translator_ok tr → prefix = "X" ∨ prefix = "Y" →
  (∀ tr1, translator_ok tr1 → table tr1 = S (table tr) →
     b_nodes (t_builder tr1) = b_nodes (t_builder tr) →
     makes tr1 (t, S (table tr)) (body (table tr) tr1)) →
  makes tr (TFix (if least then Least else Greatest) (table tr) t, S (table tr))
    (let '(v, tr1) := new_fixpoint_var prefix tr in
     let '(b, tr2) := body v tr1 in t_push ((if least then NMu else NNu) v b) tr2).
Proof.
  intros Htr Hp Hb. destruct (var_makes tr prefix Htr Hp) as (E1 & E2 & E3 & E4).
  destruct (new_fixpoint_var prefix tr) as [v tr1]. simpl in *. subst v.
  specialize (Hb tr1 E3 E2 E4). destruct (body (table tr) tr1) as [b tr2] eqn:Eb.
  pose proof Hb as [H1 H2 H3 H4]. simpl in *.
  assert (Hpush : makes tr2 (TFix (if least then Least else Greatest) (table tr) t, table tr2)
    (t_push ((if least then NMu else NNu) (table tr) b) tr2)).
  { apply push_makes; [done| |].
    - destruct least; repeat constructor; by eapply repr_lt.
    - destruct least; node_tree_tac. }
  rewrite H3 in Hpush. destruct Hpush as [P1 P2 P3 [e P4]], H4 as [e' H4].
  split; try done. rewrite P4, H4, E4, <-app_assoc. by eexists.
Qed.

(** One run after another. *)
Lemma makes_bind tr t r u (k : NodeId → Translator → NodeId * Translator) :
  makes tr t r →
  (∀ id tr1, translator_ok tr1 → table tr1 = t.2 → holds_at tr1 id t.1 →
     (∀ id' t', holds_at tr id' t' → holds_at tr1 id' t') → makes tr1 u (k id tr1)) →
  makes tr u (let '(id, tr1) := r in k id tr1).
Proof.
  intros Hm Hk. destruct r as [id tr1]. pose proof Hm as [H1 H2 H3 _].
  eapply makes_trans; [exact Hm|]. apply Hk; try done. intros id' t'. by apply (makes_keeps _ _ _ _ _ Hm).
Qed.

Lemma push_node_makes tr n t m :
  translator_ok tr → table tr = m → Forall (λ c, ∃ u, holds_at tr c u) (children n) →
  node_tree (b_nodes (t_builder tr)) n t → makes tr (t, m) (t_push n tr).
Proof.
  intros H1 <- Hc Ht. apply push_makes; try done. eapply Forall_impl; [exact Hc|].
  intros c [u Hu]. by eapply repr_lt.
Qed.

(** Pushing a node over trees that are there. *)
Ltac push_over :=
  apply push_node_makes; [done|done|simpl; repeat constructor; eauto|unfold holds_at in *; node_tree_tac].

Lemma leaf_makes tr n t m :
  translator_ok tr → table tr = m → children n = [] → node_tree (b_nodes (t_builder tr)) n t →
  makes tr (t, m) (t_push n tr).
Proof. intros H1 H2 Hc Ht. apply push_node_makes; try done. rewrite Hc. constructor. Qed.

Lemma modal_makes k tr id t m :
  translator_ok tr → table tr = m → holds_at tr id t →
  makes tr (TModal k Guard_default t, m) (t_push (NModal k Guard_default id) tr).
Proof. intros H1 H2 Hid. push_over. Qed.

(** The variable under a modality, at the start of a fixpoint's body. *)
Lemma next_var_makes k tr v m (u : Tree * nat) (rest : NodeId → Translator → NodeId * Translator) :
  translator_ok tr → table tr = m →
  (∀ id tr1, translator_ok tr1 → table tr1 = m → holds_at tr1 id (TModal k Guard_default (TVar v)) →
     (∀ id' t', holds_at tr id' t' → holds_at tr1 id' t') → makes tr1 u (rest id tr1)) →
  makes tr u (let '(var_node, tr1) := t_push (NVariable v) tr in
              let '(next, tr2) := t_push (NModal k Guard_default var_node) tr1 in rest next tr2).
Proof.
  intros Htr Hm Hk.
  eapply makes_bind; [by apply (leaf_makes _ _ (TVar v) m); [done..|node_tree_tac]|].
  intros a tr1 H1 E1 Ha K1. eapply makes_bind; [by apply (modal_makes k _ _ (TVar v) m)|].
  intros b tr2 H2 E2 Hb K2. apply Hk; try done. eauto.
Qed.

Lemma always_makes prefix tr id t m :
  translator_ok tr → table tr = m → prefix = "X" ∨ prefix = "Y" → holds_at tr id t →
  makes tr (always_tree_at t m) (always_around prefix id tr).
Proof.
  intros Htr <- Hp Hid. refine (bind_makes tr prefix (λ v tr,
    let '(var_node, tr) := t_push (NVariable v) tr in
    let '(box_var, tr) := box_modal var_node tr in t_push (NAnd id box_var) tr) false
    (TAnd t (box (TVar (table tr)))) Htr Hp _).
  intros tr1' H1 H2 H3. assert (Hid1 : holds_at tr1' id t) by (unfold holds_at; by rewrite H3).
  apply (next_var_makes Box _ _ (S (table tr))); [done..|]. intros b' tr4 ? ? Hb K. specialize (K _ _ Hid1). push_over.
Qed.

Lemma eventually_makes prefix tr id t m :
  translator_ok tr → table tr = m → prefix = "X" ∨ prefix = "Y" → holds_at tr id t →
  makes tr (eventually_tree_at t m) (eventually_around prefix id tr).
Proof.
  intros Htr <- Hp Hid. refine (bind_makes tr prefix (λ v tr,
    let '(var_node, tr) := t_push (NVariable v) tr in
    let '(dia_var, tr) := diamond_modal var_node tr in t_push (NOr id dia_var) tr) true
    (TOr t (dia (TVar (table tr)))) Htr Hp _).
  intros tr1' H1 H2 H3. assert (Hid1 : holds_at tr1' id t) by (unfold holds_at; by rewrite H3).
  apply (next_var_makes Diamond _ _ (S (table tr))); [done..|]. intros b' tr4 ? ? Hb K. specialize (K _ _ Hid1). push_over.
Qed.

Lemma until_makes tr idl l idr r m :
  translator_ok tr → table tr = m → holds_at tr idl l → holds_at tr idr r →
  makes tr (until_tree_at l r m) (translate_until_internal idl idr tr).
Proof.
  intros Htr <- Hl Hr. refine (bind_makes tr "X" (λ v tr,
    let '(var_node, tr) := t_push (NVariable v) tr in
    let '(dia_var, tr) := diamond_modal var_node tr in
    let '(and_left, tr) := t_push (NAnd idl dia_var) tr in t_push (NOr idr and_left) tr) true
    (TOr r (TAnd l (dia (TVar (table tr))))) Htr (or_introl eq_refl) _).
  intros tr1' H1 H2 H3. assert (Hl1 : holds_at tr1' idl l) by (unfold holds_at; by rewrite H3).
  assert (Hr1 : holds_at tr1' idr r) by (unfold holds_at; by rewrite H3).
  apply (next_var_makes Diamond _ _ (S (table tr))); [done..|]. intros b' tr5 ? ? Hb K.
  pose proof (K _ _ Hl1) as Hl2. pose proof (K _ _ Hr1) as Hr2.
  eapply makes_bind; [apply (push_node_makes _ _ (TAnd l (dia (TVar (table tr)))) (S (table tr))); [done|done|..];
    [repeat constructor; eauto|unfold holds_at in *; node_tree_tac]|].
  intros d tr6 ? ? Hd K2. specialize (K2 _ _ Hr2). push_over.
Qed.

Lemma translate_always_makes tr go t m :
  makes tr (t, m) (go tr) → makes tr (always_tree_at t m) (translate_always go tr).
Proof. intros H. unfold translate_always. eapply makes_bind; [exact H|]. intros. by apply always_makes; auto. Qed.

Lemma translate_eventually_makes tr go t m :
  makes tr (t, m) (go tr) → makes tr (eventually_tree_at t m) (translate_eventually go tr).
Proof.
  intros H. unfold translate_eventually. eapply makes_bind; [exact H|]. intros. by apply eventually_makes; auto.
Qed.

Lemma translate_until_makes tr go_left go_right l n r m :
  makes tr (l, n) (go_left tr) →
  (∀ tr1, translator_ok tr1 → table tr1 = n → makes tr1 (r, m) (go_right tr1)) →
  makes tr (until_tree_at l r m) (translate_until go_left go_right tr).
Proof.
  intros Hl Hr. unfold translate_until. eapply makes_bind; [exact Hl|]. intros idl tr1 H1 E1 Hidl _.
  eapply makes_bind; [by apply Hr|]. intros idr tr2 H2 E2 Hidr K. apply until_makes; try done. by apply K.
Qed.

(** The next run: its node is there, and the earlier ones still are. *)
Ltac run_next H id tr Hid K :=
  eapply makes_bind; [exact H|let a := fresh in let b := fresh in intros id tr a b Hid K; cbn [fst snd] in b, Hid].

Lemma not_makes tr id t m :
  translator_ok tr → table tr = m → holds_at tr id t → makes tr (TNot t, m) (t_push (NNot id) tr).
Proof. intros H1 H2 Hid. push_over. Qed.

Lemma or_makes tr l r tl tr' m :
  translator_ok tr → table tr = m → holds_at tr l tl → holds_at tr r tr' → makes tr (TOr tl tr', m) (t_push (NOr l r) tr).
Proof. intros H1 H2 Hl Hr. push_over. Qed.

Lemma and_makes tr l r tl tr' m :
  translator_ok tr → table tr = m → holds_at tr l tl → holds_at tr r tr' → makes tr (TAnd tl tr', m) (t_push (NAnd l r) tr).
Proof. intros H1 H2 Hl Hr. push_over. Qed.

(** What the translation of a formula builds, from any translator. *)
Definition formula_makes (f : LtlFormula) : Prop :=
  ∀ tr n, translator_ok tr → table tr = n → makes tr (existential_tree f n) (translate_formula f tr).

Lemma pair_makes a b (mk : NodeId → NodeId → Node) (tmk : Tree → Tree → Tree) tr n :
  (∀ tr l r tl tr' m, translator_ok tr → table tr = m → holds_at tr l tl → holds_at tr r tr' →
     makes tr (tmk tl tr', m) (t_push (mk l r) tr)) →
  formula_makes a → formula_makes b → translator_ok tr → table tr = n →
  makes tr (let '(l, n) := existential_tree a n in let '(r, n) := existential_tree b n in (tmk l r, n))
    (let '(ia, tr) := translate_formula a tr in let '(ib, tr) := translate_formula b tr in t_push (mk ia ib) tr).
Proof.
  intros Hmk Ha Hb Htr Hn. specialize (Ha tr n Htr Hn). destruct (existential_tree a n) as [ta na].
  run_next Ha ia tr1 Hia K1. specialize (Hb tr1 na). destruct (existential_tree b na) as [tb nb].
  run_next (Hb ltac:(done) ltac:(done)) ib tr2 Hib K2. apply Hmk; auto.
Qed.

Lemma weak_until_makes a b tr n :
  formula_makes a → formula_makes b → translator_ok tr → table tr = n →
  makes tr (existential_tree (LWeakUntil a b) n) (translate_formula (LWeakUntil a b) tr).
Proof.
  intros Ha Hb Htr Hn. cbn [existential_tree translate_formula].
  pose proof (Ha tr n Htr Hn) as HA. destruct (existential_tree a n) as [ta na].
  assert (HB := Hb). specialize (HB tr). pose proof (λ tr1, Hb tr1 na) as HB1.
  destruct (existential_tree b na) as [tb nb].
  pose proof (translate_until_makes tr _ (translate_formula b) _ _ _ _ HA HB1) as HU.
  unfold until_tree_at in *. run_next HU iu tr1 Hiu K1.
  pose proof (Ha tr1 _ ltac:(done) ltac:(done)) as HA2. destruct (existential_tree a (S nb)) as [ta' na'].
  apply translate_always_makes in HA2. unfold always_tree_at in *. run_next HA2 ig tr2 Hig K2.
  apply or_makes; auto.
Qed.

Lemma release_makes a b tr n :
  formula_makes a → formula_makes b → translator_ok tr → table tr = n →
  makes tr (existential_tree (LRelease a b) n) (translate_formula (LRelease a b) tr).
Proof.
  intros Ha Hb Htr Hn. cbn [existential_tree translate_formula].
  pose proof (Ha tr n Htr Hn) as HA. destruct (existential_tree a n) as [ta na].
  run_next HA ia tr1 Hia K1. pose proof (Hb tr1 na ltac:(done) ltac:(done)) as HB.
  destruct (existential_tree b na) as [tb nb]. run_next HB ib tr2 Hib K2.
  run_next (not_makes tr2 ia ta nb ltac:(done) ltac:(done) (K2 _ _ Hia)) nl tr3 Hinl K3.
  run_next (not_makes tr3 ib tb nb ltac:(done) ltac:(done) (K3 _ _ Hib)) nr tr4 Hinr K4.
  run_next (until_makes tr4 _ _ _ _ nb ltac:(done) ltac:(done) (K4 _ _ Hinl) Hinr) iu tr5 Hiu K5.
  by apply not_makes.
Qed.

Lemma response_makes a b tr n :
  formula_makes a → formula_makes b → translator_ok tr → table tr = n →
  makes tr (existential_tree (LResponse a b) n) (translate_formula (LResponse a b) tr).
Proof.
  intros Ha Hb Htr Hn. cbn [existential_tree translate_formula].
  pose proof (Ha tr n Htr Hn) as HA. destruct (existential_tree a n) as [ta na].
  run_next HA ia tr1 Hia K1. pose proof (Hb tr1 na ltac:(done) ltac:(done)) as HB.
  destruct (existential_tree b na) as [tb nb]. run_next HB ib tr2 Hib K2.
  run_next (not_makes tr2 ia ta nb ltac:(done) ltac:(done) (K2 _ _ Hia)) nl tr3 Hinl K3.
  run_next (eventually_makes "X" tr3 ib tb nb ltac:(done) ltac:(done) ltac:(by left) (K3 _ _ Hib)) ie tr4 Hie K4.
  run_next (or_makes tr4 _ _ _ _ (S nb) ltac:(done) ltac:(done) (K4 _ _ Hinl) Hie) io tr5 Hio K5.
  apply always_makes; auto.
Qed.

Lemma translate_formula_makes f : formula_makes f.
Proof.
  induction f as [| |p|a IHa|a IHa b IHb|a IHa b IHb|a IHa b IHb|a IHa|a IHa|a IHa|a IHa b IHb|a IHa b IHb
    |a IHa b IHb|a IHa|a IHa|a IHa b IHb]; intros tr n Htr Hn;
    try (by apply weak_until_makes); try (by apply release_makes); try (by apply response_makes);
    cbn [existential_tree translate_formula].
  - apply leaf_makes; [done..|node_tree_tac].
  - apply leaf_makes; [done..|node_tree_tac].
  - apply leaf_makes; [done..|node_tree_tac].
  - specialize (IHa tr n Htr Hn). destruct (existential_tree a n) as [ta na].
    run_next IHa ia tr1 Hia K. by apply not_makes.
  - by apply (pair_makes a b NAnd TAnd); [apply and_makes|..].
  - by apply (pair_makes a b NOr TOr); [apply or_makes|..].
  - specialize (IHa tr n Htr Hn). destruct (existential_tree a n) as [ta na].
    run_next IHa ia tr1 Hia K1. specialize (IHb tr1 na ltac:(done) ltac:(done)).
    destruct (existential_tree b na) as [tb nb]. run_next IHb ib tr2 Hib K2.
    run_next (not_makes tr2 ia ta nb ltac:(done) ltac:(done) (K2 _ _ Hia)) nl tr3 Hinl K3.
    apply or_makes; auto.
  - specialize (IHa tr n Htr Hn). destruct (existential_tree a n) as [ta na].
    run_next IHa ia tr1 Hia K. by apply modal_makes.
  - specialize (IHa tr n Htr Hn). destruct (existential_tree a n). by apply translate_always_makes.
  - specialize (IHa tr n Htr Hn). destruct (existential_tree a n). by apply translate_eventually_makes.
  - specialize (IHa tr n Htr Hn). destruct (existential_tree a n) as [ta na].
    pose proof (λ tr1, IHb tr1 na) as HB. destruct (existential_tree b na). by eapply translate_until_makes.
  - specialize (IHa tr n Htr Hn). destruct (existential_tree a n) as [ta na].
    apply translate_eventually_makes in IHa. unfold eventually_tree_at in *.
    run_next IHa ie tr1 Hie K. apply always_makes; auto.
  - specialize (IHa tr n Htr Hn). destruct (existential_tree a n) as [ta na].
    apply translate_always_makes in IHa. unfold always_tree_at in *.
    run_next IHa ie tr1 Hie K. apply eventually_makes; auto.
Qed.

(** ** The trees are closed *)

(** Free variables and negations do not matter to variables that do not occur. *)
Lemma absent_occurs v t : v ∉ free_vars t → ∀ pol, occurs_only pol v t = true.
Proof.
  induction t; simpl; intros Hv pol; try done.
  - destruct pol; simpl; [done|]. apply negb_true_iff, Nat.eqb_neq. set_solver.
  - by apply IHt.
  - rewrite IHt1, IHt2 by set_solver. done.
  - rewrite IHt1, IHt2 by set_solver. done.
  - by apply IHt.
  - destruct (Nat.eqb_spec v v0); [done|]. apply IHt. set_solver.
Qed.

(** No variable is free, bound ones occur positively, modalities are unscoped. *)
Record closed_tree (t : Tree) : Prop := {
  ct_free : free_vars t = ∅;
  ct_mono : monotone t = true;
  ct_good : modalities_good verification_guard t
}.

Lemma closed_not t : closed_tree t → closed_tree (TNot t).
Proof. by intros []. Qed.
Lemma closed_and l r : closed_tree l → closed_tree r → closed_tree (TAnd l r).
Proof. intros [H1 H2 H3] [H4 H5 H6]. split; simpl; [by rewrite H1, H4|by rewrite H2, H5|done]. Qed.
Lemma closed_or l r : closed_tree l → closed_tree r → closed_tree (TOr l r).
Proof. intros [H1 H2 H3] [H4 H5 H6]. split; simpl; [by rewrite H1, H4|by rewrite H2, H5|done]. Qed.
Lemma closed_box t : closed_tree t → closed_tree (box t).
Proof. by intros []. Qed.

Lemma closed_fix k mk n t :
  (∀ l r, (mk l r = TAnd l r) ∨ mk l r = TOr l r) → closed_tree t →
  closed_tree (TFix k n (mk t (TModal (match k with Least => Diamond | Greatest => Box end) Guard_default (TVar n)))).
Proof.
  intros Hmk [H1 H2 H3]. pose proof (absent_occurs n t ltac:(rewrite H1; set_solver) true) as Hn.
  destruct (Hmk t (TModal (match k with Least => Diamond | Greatest => Box end) Guard_default (TVar n))) as [->| ->];
    split; simpl; try (rewrite H1; set_solver); try (by rewrite Hn, H2); by destruct k.
Qed.

Lemma closed_always t n : closed_tree t → closed_tree (always_tree_at t n).1.
Proof. apply (closed_fix Greatest TAnd). by left. Qed.
Lemma closed_eventually t n : closed_tree t → closed_tree (eventually_tree_at t n).1.
Proof. apply (closed_fix Least TOr). by right. Qed.
Lemma closed_until l r n : closed_tree l → closed_tree r → closed_tree (until_tree_at l r n).1.
Proof.
  intros [H1 H2 H3] [H4 H5 H6]. simpl.
  pose proof (absent_occurs n l ltac:(rewrite H1; set_solver) true) as Hl.
  pose proof (absent_occurs n r ltac:(rewrite H4; set_solver) true) as Hr.
  split; simpl; [rewrite H1, H4; set_solver|by rewrite Hl, Hr, H2, H5|done].
Qed.

#[export] Hint Resolve closed_not closed_and closed_or closed_box : ltl.

Lemma existential_closed f : ∀ n, closed_tree (existential_tree f n).1.
Proof.
  induction f as [| |p|a IHa|a IHa b IHb|a IHa b IHb|a IHa b IHb|a IHa|a IHa|a IHa|a IHa b IHb|a IHa b IHb
    |a IHa b IHb|a IHa|a IHa|a IHa b IHb]; intros n; cbn [existential_tree]; try (by split);
    try (pose proof (IHa n); destruct (existential_tree a n) as [l na]);
    try (pose proof (IHb na); destruct (existential_tree b na) as [r nb]); cbn [fst] in *;
    auto using closed_always, closed_eventually, closed_until with ltl.
  - pose proof (IHa (S nb)). simpl. destruct (existential_tree a (S nb)) as [l' n'].
    apply closed_or; [by apply (closed_until _ _ nb)|by apply (closed_always _ n')].
  - apply closed_not, (closed_until _ _ nb); by apply closed_not.
  - by apply (closed_always (eventually_tree_at l na).1 (S na)), closed_eventually.
  - by apply (closed_eventually (always_tree_at l na).1 (S na)), closed_always.
  - apply (closed_always (TOr (TNot l) (eventually_tree_at r nb).1) (S nb)), closed_or;
      [by apply closed_not|by apply closed_eventually].
Qed.

(** ** The branching reading *)

Section reading.
Context (c : Clts) (e : EvalEnvironment).

(** [G] and [X] look at every path, [F] and [U] at some; [!] negates. *)
Fixpoint branching (f : LtlFormula) (s : nat) : Prop :=
  match f with
  | LTrue => True
  | LFalse => False
  | LPredicate p => atom c e p s
  | LNot a => ¬ branching a s
  | LAnd a b => branching a s ∧ branching b s
  | LOr a b => branching a s ∨ branching b s
  | LImplies a b => ¬ branching a s ∨ branching b s
  | LNext a => ∀ s', edge c s s' → branching a s'
  | LAlways a => ∀ s', rtc (edge c) s s' → branching a s'
  | LEventually a => ∃ s', rtc (edge c) s s' ∧ branching a s'
  | LUntil a b => exists_until c (branching a) (branching b) s
  | LWeakUntil a b =>
    exists_until c (branching a) (branching b) s ∨ ∀ s', rtc (edge c) s s' → branching a s'
  | LRelease a b => ¬ exists_until c (λ u, ¬ branching a u) (λ u, ¬ branching b u) s
  | LRecurrence a => ∀ s', rtc (edge c) s s' → ∃ s'', rtc (edge c) s' s'' ∧ branching a s''
  | LStabilization a => ∃ s', rtc (edge c) s s' ∧ ∀ s'', rtc (edge c) s' s'' → branching a s''
  | LResponse a b =>
    ∀ s', rtc (edge c) s s' → ¬ branching a s' ∨ ∃ s'', rtc (edge c) s' s'' ∧ branching b s''
  end.

Context (Hok : clts_ok c).
#[local] Abbreviation means := (means c e).

Lemma means_not t P : means t P → means (TNot t) (λ s, ¬ P s).
Proof using Type. intros H ρ u Hu. simpl. by rewrite (H ρ u Hu). Qed.
Lemma means_and l r P Q : means l P → means r Q → means (TAnd l r) (λ s, P s ∧ Q s).
Proof using Type. intros H1 H2 ρ u Hu. simpl. by rewrite (H1 ρ u Hu), (H2 ρ u Hu). Qed.
Lemma means_or l r P Q : means l P → means r Q → means (TOr l r) (λ s, P s ∨ Q s).
Proof using Type. intros H1 H2 ρ u Hu. simpl. by rewrite (H1 ρ u Hu), (H2 ρ u Hu). Qed.
Lemma means_box t P : means t P → means (box t) (λ s, ∀ s', edge c s s' → P s').
Proof using Hok.
  intros H ρ u Hu. rewrite sat_box. split; intros Ha s' Hs'; apply (H ρ s'); auto;
    by apply (edge_bound c Hok u).
Qed.
Lemma means_always t P n : means t P → means (always_tree_at t n).1 (λ s, ∀ s', rtc (edge c) s s' → P s').
Proof using Hok. intros H ρ u Hu. by apply everywhere. Qed.
Lemma means_eventually t P n :
  means t P → means (eventually_tree_at t n).1 (λ s, ∃ s', rtc (edge c) s s' ∧ P s').
Proof using Hok. intros H ρ u Hu. by apply somewhere. Qed.
Lemma means_until l r P Q n : means l P → means r Q → means (until_tree_at l r n).1 (exists_until c P Q).
Proof using Hok. intros H1 H2 ρ u Hu. by apply somewhere_until. Qed.

Lemma existential_means f : ∀ n, means (existential_tree f n).1 (branching f).
Proof using Hok.
  induction f as [| |p|a IHa|a IHa b IHb|a IHa b IHb|a IHa b IHb|a IHa|a IHa|a IHa|a IHa b IHb|a IHa b IHb
    |a IHa b IHb|a IHa|a IHa|a IHa b IHb]; intros n; cbn [existential_tree]; try done;
    try (pose proof (IHa n) as Ha; destruct (existential_tree a n) as [l na]);
    try (pose proof (IHb na) as Hb; destruct (existential_tree b na) as [r nb]); cbn [fst] in *.
  - by apply means_not.
  - by apply means_and.
  - by apply means_or.
  - by apply means_or, Hb; apply means_not.
  - by apply means_box.
  - by apply means_always.
  - by apply means_eventually.
  - by apply means_until.
  - pose proof (IHa (S nb)) as Ha'. simpl. destruct (existential_tree a (S nb)) as [l' n'].
    by apply means_or; [apply (means_until l r _ _ nb)|apply (means_always l' _ n')].
  - by apply means_not, (means_until (TNot l) (TNot r) _ _ nb); apply means_not.
  - by apply (means_always (eventually_tree_at l na).1 _ (S na)), means_eventually.
  - by apply (means_eventually (always_tree_at l na).1 _ (S na)), means_always.
  - apply (means_always (TOr (TNot l) (eventually_tree_at r nb).1) _ (S nb)), means_or;
      [by apply means_not|by apply means_eventually].
Qed.
End reading.

Lemma translator_new_ok : translator_ok Translator_new.
Proof. split; [apply wf_arena_nil|done|done]. Qed.

(** A name tells the place of its variable. *)
Lemma names_distinct tr : translator_ok tr → NoDup (b_vars (t_builder tr)).
Proof.
  intros [_ _ Hn]. apply NoDup_alt. intros i j x Hi Hj.
  destruct (Hn i x Hi) as [->| ->], (Hn j _ Hj) as [E|E]; try discriminate E;
    apply (inj (String.append _)) in E; by apply (inj pretty) in E.
Qed.

Lemma translate_existential_builds f :
  let φ := translate_existential f in
  wf_formula φ ∧ formula_tree φ (existential_tree f 0).1 ∧ NoDup (vars φ).
Proof.
  unfold translate_existential.
  pose proof (translate_formula_makes f Translator_new 0 translator_new_ok eq_refl) as [H1 H2 H3 _].
  destruct (translate_formula f Translator_new) as [id tr]. simpl in *. split_and!.
  - split; [apply H1|by eapply repr_lt].
  - exact H2.
  - by apply names_distinct.
Qed.

(** * Properties *)

(** C34: the branching reading of temporal formulas. For every formula the
    translator builds a well-formed formula whose variables have distinct names,
    and the model checker run on it puts a state in its answer exactly when the
    state satisfies the branching reading: [G], [X] and [R] over every path, [F]
    and [U] over some path, [W] as an until over some path or an always over
    every path. *)
Theorem translate_existential_correct rounds f c e o :
  let x := mk_ctx c e o in
  ctx_ok x → oob_free x → plain c → keys_faithful c → prior_approximants o = None →
  2 * state_count c < rounds →
  wf_formula (translate_existential f) ∧ NoDup (vars (translate_existential f)) ∧
  ∃ v, evaluate_with_options rounds (translate_existential f) c e o = Some v ∧
    ∀ s, s < state_count c → bit v s = true ↔ branching c e f s.
Proof.
  intros x Hx Ho Hp Hk Hprior Hr. destruct (translate_existential_builds f) as (Hwf & Ht & Hn).
  destruct (existential_closed f 0) as [_ Hm Hg]. split_and!; [done..|].
  destruct (evaluate_sat x rounds _ _ Hx Ho Hp Hk Hprior Hwf Ht Hm Hg Hr) as (v & Ev & Hv).
  exists v. split; [done|]. intros s Hs. rewrite (Hv s Hs).
  by apply (existential_means c e (cok_clts x Hx) f 0).
Qed.

(** ** Witness *)

(** [G (p -> F !p)] *)
Lemma translate_existential_correct_witness :
  let f := LResponse (LPredicate "p") (LNot (LPredicate "p")) in
  vars (translate_existential f) = ["X0"; "X1"] ∧
  wf_formula (translate_existential f) ∧ NoDup (vars (translate_existential f)) ∧
  ∃ v, evaluate_with_options 9 (translate_existential f) demo_clts demo_env EvaluationOptions_default = Some v ∧
    ∀ s, s < state_count demo_clts → bit v s = true ↔ branching demo_clts demo_env f s.
Proof.
  split; [vm_compute; reflexivity|].
  apply (translate_existential_correct 9 (LResponse (LPredicate "p") (LNot (LPredicate "p"))) demo_clts demo_env
    EvaluationOptions_default).
  - apply demo_ctx_ok.
  - apply demo_oob_free.
  - apply demo_plain.
  - apply demo_keys.
  - reflexivity.
  - vm_compute. lia.
Defined.
