(* ===== verification/Universal.v ===== *)
(** The universal translation of temporal formulas, [ltl/universal.rs], and the
    fair-path encoder it uses, [verify/fairness.rs].

    A formula is brought to negation normal form ([ltl_nnf]), written as the text
    of a mu-calculus formula ([universal]) and parsed back ([translate_universal]).
    [universal_derives] shows that the text belongs to the parser's grammar and
    which syntax tree it is; the trees' meaning is in UniversalCorrect. *)
From S2P Require Import Prelude Formula Trit Clts Modal Evaluator Semantics Domains Checking Verdicts Divergences Transforms Branching Text FormulaParser FormulaText Ltl.
From Stdlib Require Import Ascii.

(** ** Fair paths *)

Inductive Assumption :=
  | A_State (atom : string)
  | A_Edge (label : string)
  | A_Edges (labels : list string)
  | A_Weak (label : string)
  | A_WeakEdges (labels : list string).

(** [Vec::join]. *)
Definition join (sep : string) (l : list string) : string := String.concat sep l.

Definition label_diamond (labels : string) : string := "< labels = { " +:+ labels +:+ " } > ".

Definition constraint (k : nat) (a : Assumption) (z q : string) : string :=
  let y := "Y" +:+ pretty k in
  match a with
  | A_State atom =>
    if String.eqb q "true"
    then "< > (mu " +:+ y +:+ ". (((" +:+ z +:+ ") && (" +:+ atom +:+ ")) || < > " +:+ y +:+ "))"
    else "< > (mu " +:+ y +:+ ". (((" +:+ z +:+ ") && (" +:+ atom +:+ ")) || ((" +:+ q +:+ ") && < > " +:+ y +:+ ")))"
  | A_Edge label =>
    "(mu " +:+ y +:+ ". (" +:+ label_diamond label +:+ z +:+ " || < > ((" +:+ q +:+ ") && " +:+ y +:+ ")))"
  | A_Edges labels =>
    let alts := join " || " (map (λ l, label_diamond l +:+ z) labels) in
    "(mu " +:+ y +:+ ". (" +:+ alts +:+ " || < > ((" +:+ q +:+ ") && " +:+ y +:+ ")))"
  | A_Weak label =>
    "(mu " +:+ y +:+ ". (" +:+ label_diamond label +:+ z +:+ " || < > (" +:+ z +:+ " && !(" +:+ label_diamond label
      +:+ "true)) || < > ((" +:+ q +:+ ") && " +:+ y +:+ ")))"
  | A_WeakEdges labels =>
    let set := join ", " labels in
    "(mu " +:+ y +:+ ". (" +:+ label_diamond set +:+ z +:+ " || < > (" +:+ z +:+ " && !(" +:+ label_diamond set
      +:+ "true)) || < > ((" +:+ q +:+ ") && " +:+ y +:+ ")))"
  end.

Definition fair_eg (q : string) (assumptions : list Assumption) : string :=
  match assumptions with
  | [] => "(nu Z. ((" +:+ q +:+ ") && < > Z))"
  | _ =>
    let body := join " && " (imap (λ k a, constraint k a "Z" q) assumptions) in
    "(nu Z. ((" +:+ q +:+ ") && " +:+ body +:+ "))"
  end.

Definition fair_af (p : string) (assumptions : list Assumption) : string :=
  "!" +:+ fair_eg ("!(" +:+ p +:+ ")") assumptions.
Definition fair_response (a b : string) (assumptions : list Assumption) : string :=
  "(nu W. ((!(" +:+ a +:+ ") || " +:+ fair_af b assumptions +:+ ") && [] W))".
Definition fair_always_eventually (p : string) (assumptions : list Assumption) : string :=
  "(nu W. (" +:+ fair_af p assumptions +:+ " && [] W))".
Definition fair_path_exists (assumptions : list Assumption) : string := fair_eg "true" assumptions.

(** ** Negation normal form

    The source rewrites the derived operators and recurs on the result; the
    recursion is unfolded here so that it is structural, and the [nnf_*]
    equations below are the source's. *)
Fixpoint ltl_nnf (f : LtlFormula) (neg : bool) : LtlFormula :=
  match f with
  | LTrue => if neg then LFalse else LTrue
  | LFalse => if neg then LTrue else LFalse
  | LPredicate p => if neg then LNot (LPredicate p) else LPredicate p
  | LNot a => ltl_nnf a (negb neg)
  | LAnd x y => if neg then LOr (ltl_nnf x true) (ltl_nnf y true) else LAnd (ltl_nnf x false) (ltl_nnf y false)
  | LOr x y => if neg then LAnd (ltl_nnf x true) (ltl_nnf y true) else LOr (ltl_nnf x false) (ltl_nnf y false)
  | LImplies x y =>
    if neg then LAnd (ltl_nnf x false) (ltl_nnf y true) else LOr (ltl_nnf x true) (ltl_nnf y false)
  | LNext a => LNext (ltl_nnf a neg)
  | LAlways a => if neg then LEventually (ltl_nnf a true) else LAlways (ltl_nnf a false)
  | LEventually a => if neg then LAlways (ltl_nnf a true) else LEventually (ltl_nnf a false)
  | LUntil l r =>
    if neg then LWeakUntil (ltl_nnf r true) (LAnd (ltl_nnf l true) (ltl_nnf r true))
    else LUntil (ltl_nnf l false) (ltl_nnf r false)
  | LWeakUntil l r =>
    if neg then LUntil (ltl_nnf r true) (LAnd (ltl_nnf l true) (ltl_nnf r true))
    else LWeakUntil (ltl_nnf l false) (ltl_nnf r false)
  | LRelease l r =>
    if neg then
      let wr := LOr (ltl_nnf l true) (ltl_nnf r true) in
      LUntil wr (LAnd (ltl_nnf r true) wr)
    else LWeakUntil (ltl_nnf r false) (LAnd (ltl_nnf l false) (ltl_nnf r false))
  | LRecurrence a =>
    if neg then LEventually (LAlways (ltl_nnf a true)) else LAlways (LEventually (ltl_nnf a false))
  | LStabilization a =>
    if neg then LAlways (LEventually (ltl_nnf a true)) else LEventually (LAlways (ltl_nnf a false))
  | LResponse t r =>
    if neg then LEventually (LAnd (ltl_nnf t false) (LAlways (ltl_nnf r true)))
    else LAlways (LOr (ltl_nnf t true) (LEventually (ltl_nnf r false)))
  end.

Lemma nnf_implies x y neg : ltl_nnf (LImplies x y) neg = ltl_nnf (LOr (LNot x) y) neg.
Proof. by destruct neg. Qed.
Lemma nnf_release l r neg : ltl_nnf (LRelease l r) neg = ltl_nnf (LWeakUntil r (LAnd l r)) neg.
Proof. by destruct neg. Qed.
Lemma nnf_recurrence a neg : ltl_nnf (LRecurrence a) neg = ltl_nnf (LAlways (LEventually a)) neg.
Proof. by destruct neg. Qed.
Lemma nnf_stabilization a neg : ltl_nnf (LStabilization a) neg = ltl_nnf (LEventually (LAlways a)) neg.
Proof. by destruct neg. Qed.
Lemma nnf_response t r neg :
  ltl_nnf (LResponse t r) neg = ltl_nnf (LAlways (LImplies t (LEventually r))) neg.
Proof. by destruct neg. Qed.

(** ** Text *)

Fixpoint is_propositional (f : LtlFormula) : bool :=
  match f with
  | LTrue | LFalse | LPredicate _ => true
  | LNot a => is_propositional a
  | LAnd x y | LOr x y | LImplies x y => is_propositional x && is_propositional y
  | _ => false
  end.

(** [p.contains(' ')]. *)
Definition contains_space (p : string) : bool := negb (char_free " " p).

(** [None] is [unreachable!]. *)
Fixpoint prop (f : LtlFormula) : option string :=
  match f with
  | LTrue => Some "true"
  | LFalse => Some "false"
  | LPredicate p => Some (if contains_space p then "(" +:+ p +:+ ")" else p)
  | LNot a => let* ta := prop a in Some ("(!(" +:+ ta +:+ "))")
  | LAnd x y => let* tx := prop x in let* ty := prop y in Some ("(" +:+ tx +:+ " && " +:+ ty +:+ ")")
  | LOr x y => let* tx := prop x in let* ty := prop y in Some ("(" +:+ tx +:+ " || " +:+ ty +:+ ")")
  | LImplies x y => let* tx := prop x in let* ty := prop y in Some ("((!(" +:+ tx +:+ ")) || " +:+ ty +:+ ")")
  | _ => None
  end.

(** A [TranslationError]: a refused formula, or a text that does not parse (the
    source formats the text and the parser's error into the message). *)
Inductive TranslationError :=
  | Outside (message : string)
  | Internal (text : string) (e : ParseError).

Definition outside (f : LtlFormula) (why : string) : TranslationError :=
  Outside ("`" +:+ show f +:+ "` is outside the LTL fragment mununu checks over every path (" +:+ why
    +:+ "). Write it in μ-calculus, use `body = eltl …;` for the some-path reading, or state it as a GR(1) objective.").

(** The text and the number of variables used, or an error; [None] is a panic. *)
Definition Translated : Type := option (TranslationError + string * nat).

Notation "'let?' ( x , n ) ':=' e 'in' k" :=
  (match e with Some (inr (x, n)) => k | Some (inl er) => Some (inl er) | None => None end)
  (at level 10, x name, n name, e at level 200, k at level 200,
   format "'[v' 'let?'  ( x ,  n )  ':='  e  'in' '/' k ']'") : mununu_scope.


(** [var(p)]. *)
Definition fresh_var (p : string) (n : nat) : string * nat := (p +:+ pretty (S n), S n).

Fixpoint universal (f : LtlFormula) (n : nat) (fairness : list Assumption) : Translated :=
  if is_propositional f then let* t := prop f in Some (inr (t, n)) else
  match f with
  | LAnd x y =>
    let? (tx, n) := universal x n fairness in
    let? (ty, n) := universal y n fairness in
    Some (inr ("(" +:+ tx +:+ " && " +:+ ty +:+ ")", n))
  | LOr x y =>
    if is_propositional x then
      let* px := prop x in
      let? (ty, n) := universal y n fairness in
      Some (inr ("(" +:+ px +:+ " || " +:+ ty +:+ ")", n))
    else if is_propositional y then
      let? (tx, n) := universal x n fairness in
      let* py := prop y in
      Some (inr ("(" +:+ tx +:+ " || " +:+ py +:+ ")", n))
    else Some (inl (outside f "a disjunction of two temporal formulas holds path by path, not state by state"))
  | LNext a =>
    let? (ta, n) := universal a n fairness in
    Some (inr ("([] " +:+ ta +:+ ")", n))
  | LAlways a =>
    let '(x, n) := fresh_var "G" n in
    let? (ta, n) := universal a n fairness in
    Some (inr ("(nu " +:+ x +:+ ". (" +:+ ta +:+ " && [] " +:+ x +:+ "))", n))
  | LEventually a =>
    if is_propositional a then
      let* pa := prop a in
      match fairness with
      | [] =>
        let '(x, n) := fresh_var "F" n in
        Some (inr ("(mu " +:+ x +:+ ". (" +:+ pa +:+ " || (([] " +:+ x +:+ ") && (<> true))))", n))
      | _ => Some (inr (fair_af pa fairness, n))
      end
    else Some (inl (outside f "`F` applies to a propositional formula here"))
  | LUntil l r =>
    if is_propositional l && is_propositional r then
      let* p := prop l in
      let* q := prop r in
      match fairness with
      | [] =>
        let '(x, n) := fresh_var "U" n in
        Some (inr ("(mu " +:+ x +:+ ". (" +:+ q +:+ " || (" +:+ p +:+ " && (([] " +:+ x +:+ ") && (<> true)))))", n))
      | _ =>
        let '(x, n) := fresh_var "W" n in
        Some (inr ("((nu " +:+ x +:+ ". ((" +:+ q +:+ " || " +:+ p +:+ ") && (" +:+ q +:+ " || ([] " +:+ x
          +:+ ")))) && " +:+ fair_af q fairness +:+ ")", n))
      end
    else Some (inl (outside f "`U` and `W` apply to propositional formulas here"))
  | LWeakUntil l r =>
    if is_propositional l && is_propositional r then
      let* p := prop l in
      let* q := prop r in
      let '(x, n) := fresh_var "W" n in
      Some (inr ("(nu " +:+ x +:+ ". ((" +:+ q +:+ " || " +:+ p +:+ ") && (" +:+ q +:+ " || ([] " +:+ x +:+ "))))", n))
    else Some (inl (outside f "`U` and `W` apply to propositional formulas here"))
  | _ => Some (inl (outside f "not in negation normal form"))
  end.

Section translate.
Context {U : Unicode}.

(** The result of the translation: a panic, an error or a value. *)
Definition translate_universal_fair (ltl : LtlFormula) (fairness : list Assumption)
    : option (TranslationError + Formula) :=
  let? (text, n) := universal (ltl_nnf ltl false) 0 fairness in
  match parse text with
  | Ok f _ => Some (inr f)
  | Err e => Some (inl (Internal text e))
  | NoFuel => None
  end.

Definition translate_universal (ltl : LtlFormula) : option (TranslationError + Formula) :=
  translate_universal_fair ltl [].

Definition translate_universal_text (ltl : LtlFormula) : option (TranslationError + string) :=
  let? (text, n) := universal (ltl_nnf ltl false) 0 [] in
  match parse text with
  | Ok _ _ => Some (inr text)
  | Err e => Some (inl (Internal text e))
  | NoFuel => None
  end.
End translate.

(** ** The trees *)

Fixpoint prop_tree (f : LtlFormula) : Tree :=
  match f with
  | LTrue => TTrue
  | LPredicate p => TPred p
  | LNot a => TNot (prop_tree a)
  | LAnd x y => TAnd (prop_tree x) (prop_tree y)
  | LOr x y => TOr (prop_tree x) (prop_tree y)
  | LImplies x y => TOr (TNot (prop_tree x)) (prop_tree y)
  | _ => TFalse
  end.

(** The tree of the text, from the next variable; [None] is a refusal. *)
Fixpoint universal_tree (f : LtlFormula) (n : nat) : option (Tree * nat) :=
  if is_propositional f then Some (prop_tree f, n) else
  match f with
  | LAnd x y =>
    let* (tx, n1) := universal_tree x n in
    let* (ty, n2) := universal_tree y n1 in Some (TAnd tx ty, n2)
  | LOr x y =>
    if is_propositional x then
      let* (ty, n1) := universal_tree y n in Some (TOr (prop_tree x) ty, n1)
    else if is_propositional y then
      let* (tx, n1) := universal_tree x n in Some (TOr tx (prop_tree y), n1)
    else None
  | LNext a => let* (ta, n1) := universal_tree a n in Some (box ta, n1)
  | LAlways a => let* (ta, n1) := universal_tree a (S n) in Some (TFix Greatest n (TAnd ta (box (TVar n))), n1)
  | LEventually a =>
    if is_propositional a then Some (TFix Least n (TOr (prop_tree a) (all_next (TVar n))), S n) else None
  | LUntil l r =>
    if is_propositional l && is_propositional r
    then Some (TFix Least n (TOr (prop_tree r) (TAnd (prop_tree l) (all_next (TVar n)))), S n) else None
  | LWeakUntil l r =>
    if is_propositional l && is_propositional r
    then Some (TFix Greatest n (TAnd (TOr (prop_tree r) (prop_tree l)) (TOr (prop_tree r) (box (TVar n)))), S n)
    else None
  | _ => None
  end.

(** ** Names the text can carry *)

(** A predicate the parser reads back as it is. *)
Inductive readable : string → Syntax → Prop :=
  | readable_atom p : atom_name p = true → readable p (SAtom p)
  | readable_compare x op y : atom_name x = true → comparison_op op = true → operand y →
      readable (x +:+ " " +:+ op +:+ " " +:+ y) (SCompare x op y).

(** A name the translation gives to a fixpoint variable. *)
Definition fixpoint_name (s : string) : Prop :=
  ∃ c k, c ∈ ["G"; "F"; "U"; "W"] ∧ s = c +:+ pretty (S k).

(** The identifier a predicate starts with is no fixpoint variable. *)
Definition uncaptured (s : Syntax) : Prop :=
  match s with SAtom x | SCompare x _ _ => ¬ fixpoint_name x | _ => True end.

Definition good_predicate (p : string) : Prop := ∃ s, readable p s ∧ uncaptured s.

Fixpoint all_predicates (P : string → Prop) (f : LtlFormula) : Prop :=
  match f with
  | LTrue | LFalse => True
  | LPredicate p => P p
  | LNot a | LNext a | LAlways a | LEventually a | LRecurrence a | LStabilization a => all_predicates P a
  | LAnd x y | LOr x y | LImplies x y | LUntil x y | LWeakUntil x y | LRelease x y | LResponse x y =>
    all_predicates P x ∧ all_predicates P y
  end.

(** How deep the text of a formula in negation normal form nests. *)
Fixpoint nesting (f : LtlFormula) : nat :=
  match f with
  | LPredicate p => if contains_space p then 2 else 1
  | LNot a => 3 + nesting a
  | LAnd x y | LOr x y => 1 + nesting x `max` nesting y
  | LImplies x y => 1 + (3 + nesting x) `max` nesting y
  | LNext a => 2 + nesting a
  | LAlways a => 3 + nesting a `max` 2
  | LEventually a => 3 + nesting a `max` 4
  | LUntil l r => 3 + nesting r `max` (1 + nesting l `max` 4)
  | LWeakUntil l r => 3 + (1 + nesting r `max` nesting l) `max` (1 + nesting r `max` 3)
  | _ => 1
  end.

(** ** The text belongs to the grammar *)

(** Only variables of the translation are in scope. *)
Definition scope_ok (stack : list Binder) : Prop := Forall (λ b, fixpoint_name (b_name b)) stack.

(** The innermost of them is [x]. *)
Definition scope_under (x : string) (v : nat) (stack : list Binder) : Prop :=
  ∃ st, stack = {| b_name := x; b_id := v |} :: st ∧ scope_ok st.

(** The text reads as [t], with the variables from [n] to [m], in the scopes [P]. *)
Definition text_reads (P : list Binder → Prop) (txt : string) (d : nat) (t : Tree) (n m : nat) : Prop :=
  ∃ s, derives Unary txt s d ∧ ∀ stack, P stack →
    compares_free (map b_name stack) s = true ∧ resolve stack n s = (t, m).

Lemma fixpoint_stack_free stack x :
  scope_ok stack → ¬ fixpoint_name x →
  existsb (String.eqb x) (map b_name stack) = false.
Proof.
  intros Hs Hx. apply not_true_iff_false. rewrite existsb_exists. intros (y & Hy & ->%String.eqb_eq).
  apply in_map_iff in Hy as (b & <- & Hb). unfold scope_ok in Hs. rewrite List.Forall_forall in Hs. by apply Hx, Hs.
Qed.

Lemma char_free_app c a b : char_free c (a +:+ b) = char_free c a && char_free c b.
Proof. induction a as [|x a IH]; [done|]. rewrite sapp_cons. simpl. by rewrite IH, andb_assoc. Qed.

Lemma ident_char_free x : ident_rest x = true → char_free " " x = true.
Proof.
  induction x as [|a x IH]; [done|]. simpl. intros [Ha Hx]%andb_true_iff. rewrite (IH Hx), andb_true_r.
  apply negb_true_iff. destruct (Ascii.eqb_spec a " ") as [->|]; [|done]. vm_compute in Ha. done.
Qed.

Lemma predicate_reads p n :
  good_predicate p →
  text_reads scope_ok (if contains_space p then "(" +:+ p +:+ ")" else p) (if contains_space p then 2 else 1) (TPred p) n n.
Proof.
  intros (s & Hr & Hu). unfold contains_space. destruct Hr as [p Hp|x op y Hx Ho Hy].
  - assert (Hf : char_free " " p = true).
    { apply andb_true_iff in Hp as [Hp _]. by apply ident_char_free, identifier_rest. }
    rewrite Hf. simpl. exists (SAtom p). split; [by constructor|]. intros stack Hs. split; [done|].
    simpl. by rewrite find_binder_none by (by apply fixpoint_stack_free).
  - rewrite char_free_app. simpl. rewrite andb_false_r. simpl.
    exists (SCompare x op y). split.
    + by apply derives_paren, derives_whole, derives_conjunction, derives_unary, derives_compare.
    + intros stack Hs. split; [|done]. simpl. by rewrite (fixpoint_stack_free stack x Hs Hu).
Qed.

Lemma derives_up txt s d : derives Unary txt s d → derives Whole txt s d.
Proof. intros H. by apply derives_whole, derives_conjunction, derives_unary. Qed.

Lemma derives_eq l txt txt' s d d' : derives l txt s d → txt = txt' → d = d' → derives l txt' s d'.
Proof. by intros ? <- <-. Qed.

(** Conjunctions and disjunctions in parentheses. *)
Lemma and_text_reads P ta da a n m tb db b k :
  text_reads P ta da a n m → text_reads P tb db b m k →
  text_reads P ("(" +:+ ta +:+ " && " +:+ tb +:+ ")") (1 + da `max` db) (TAnd a b) n k.
Proof.
  intros (sa & Ha & Hra) (sb & Hb & Hrb). exists (SAnd sa sb). split.
  - eapply derives_eq.
    + eapply derives_paren, derives_whole, derives_conjunction, derives_and; [by apply derives_unary|done].
    + by rewrite !sapp_assoc.
    + done.
  - intros stack Hs. destruct (Hra stack Hs) as [H1 H2], (Hrb stack Hs) as [H3 H4]. simpl.
    by rewrite H1, H3, H2, H4.
Qed.

Lemma or_text_reads P ta da a n m tb db b k :
  text_reads P ta da a n m → text_reads P tb db b m k →
  text_reads P ("(" +:+ ta +:+ " || " +:+ tb +:+ ")") (1 + da `max` db) (TOr a b) n k.
Proof.
  intros (sa & Ha & Hra) (sb & Hb & Hrb). exists (SOr sa sb). split.
  - eapply derives_eq.
    + eapply derives_paren, derives_whole, derives_or;
        [by apply derives_conjunction, derives_unary|by apply derives_unary].
    + by rewrite !sapp_assoc.
    + done.
  - intros stack Hs. destruct (Hra stack Hs) as [H1 H2], (Hrb stack Hs) as [H3 H4]. simpl.
    by rewrite H1, H3, H2, H4.
Qed.

Lemma not_text_reads P ta da a n m :
  text_reads P ta da a n m → text_reads P ("(!(" +:+ ta +:+ "))") (3 + da) (TNot a) n m.
Proof.
  intros (sa & Ha & Hra). exists (SNot sa). split.
  - eapply derives_eq.
    + eapply derives_paren, derives_up, derives_not, derives_paren, derives_up, Ha.
    + by rewrite !sapp_assoc.
    + done.
  - intros stack Hs. destruct (Hra stack Hs) as [H1 H2]. simpl. by rewrite H1, H2.
Qed.

Lemma prop_reads f n :
  is_propositional f = true → all_predicates good_predicate f →
  ∃ txt, prop f = Some txt ∧ text_reads scope_ok txt (nesting f) (prop_tree f) n n.
Proof.
  induction f as [| |p|a IHa|a IHa b IHb|a IHa b IHb|a IHa b IHb| | | | | | | | |]; simpl; intros Hp Hg; try done.
  - exists "true". split; [done|]. exists (SConst true). split; [apply (derives_const true)|done].
  - exists "false". split; [done|]. exists (SConst false). split; [apply (derives_const false)|done].
  - eexists. split; [done|]. by apply predicate_reads.
  - destruct (IHa Hp Hg) as (ta & -> & Ha). eexists. split; [done|]. by apply not_text_reads.
  - apply andb_true_iff in Hp as [Hpa Hpb]. destruct Hg as [Hga Hgb].
    destruct (IHa Hpa Hga) as (ta & -> & Ha), (IHb Hpb Hgb) as (tb & -> & Hb).
    eexists. split; [done|]. by eapply and_text_reads.
  - apply andb_true_iff in Hp as [Hpa Hpb]. destruct Hg as [Hga Hgb].
    destruct (IHa Hpa Hga) as (ta & -> & Ha), (IHb Hpb Hgb) as (tb & -> & Hb).
    eexists. split; [done|]. by eapply or_text_reads.
  - apply andb_true_iff in Hp as [Hpa Hpb]. destruct Hg as [Hga Hgb].
    destruct (IHa Hpa Hga) as (ta & -> & Ha), (IHb Hpb Hgb) as (tb & -> & Hb).
    eexists. split; [done|]. pose proof (or_text_reads _ _ _ _ _ _ _ _ _ _ (not_text_reads _ _ _ _ _ _ Ha) Hb) as H.
    rewrite !sapp_assoc in H. exact H.
Qed.

(** ** The variables of the translation *)

Lemma pretty_char_digit x : (x < 10)%N → ascii_digit (pretty_N_char x) = true.
Proof.
  rewrite <-(N2Nat.id x). generalize (N.to_nat x). intros k Hk. do 10 (destruct k as [|k]; [vm_compute; reflexivity|]). lia.
Qed.

Lemma all_digits_go x s : all_digits s = true → all_digits (pretty_N_go x s) = true.
Proof.
  revert s. induction (N.lt_wf_0 x) as [x _ IH]. intros s Hs. destruct (decide (0 < x)%N) as [Hx|Hx].
  - rewrite pretty_N_go_step by done. apply IH; [by apply N.div_lt; lia|]. simpl.
    rewrite pretty_char_digit, Hs; [done|]. by apply N.mod_lt.
  - replace x with 0%N by lia. by rewrite pretty_N_go_0.
Qed.

Lemma decimal_pretty (n : nat) : decimal (pretty n) = true.
Proof.
  assert (Hall : all_digits (pretty n) = true).
  { unfold pretty, pretty_nat, pretty, pretty_N. case_decide; [done|]. by apply all_digits_go. }
  destruct (pretty n) as [|a s] eqn:E; [|done].
  unfold pretty, pretty_nat, pretty, pretty_N in E. case_decide as Hn; [done|].
  exfalso. assert (Hne : ∀ x s, s ≠ "" → pretty_N_go x s ≠ "").
  { intros x. induction (N.lt_wf_0 x) as [x _ IH]. intros s Hs. destruct (decide (0 < x)%N) as [Hx|Hx].
    - rewrite pretty_N_go_step by done. apply IH; [by apply N.div_lt; lia|done].
    - replace x with 0%N by lia. by rewrite pretty_N_go_0. }
  rewrite pretty_N_go_step in E by lia. by apply Hne in E.
Qed.

Lemma digits_rest s : all_digits s = true → ident_rest s = true.
Proof.
  induction s as [|a s IH]; [done|]. simpl. intros [Ha Hs]%andb_true_iff.
  unfold ident_char. by rewrite Ha, orb_true_r, (IH Hs).
Qed.

(** A capital letter and a number are read as an atom. *)
Lemma fixpoint_name_atom c k :
  c ∈ ["G"; "F"; "U"; "W"] → atom_name (c +:+ pretty (S k)) = true ∧ identifier (c +:+ pretty (S k)) = true.
Proof.
  intros Hc. destruct (decimal_spec _ (decimal_pretty (S k))) as (a & s & E & Ha & Hall).
  assert (Hi : identifier (c +:+ pretty (S k)) = true).
  { pose proof (digits_rest _ Hall) as Hr.
    repeat (apply elem_of_cons in Hc as [->|Hc]; [exact Hr|]). by apply elem_of_nil in Hc. }
  split; [|done]. unfold atom_name. rewrite Hi. simpl andb.
  assert (Hlow : Ascii.eqb "a" (to_lower a) = false).
  { unfold to_lower, ascii_upper. unfold ascii_digit, in_range in *.
    apply andb_true_iff in Ha as [Ha1 Ha2]. apply Nat.leb_le in Ha1, Ha2.
    assert (E65 : (65 <=? code a) = false) by (apply Nat.leb_gt; lia). rewrite E65, andb_false_l.
    destruct (Ascii.eqb_spec "a" a) as [<-|Hne]; [vm_compute in Ha2; lia|done]. }
  rewrite E.
  assert (Hk : ∀ c kw, Ascii.eqb c (to_lower a) = false → ∀ d, to_lower d = "f"%char ∨ c = "a"%char →
    strip_prefix (String "f" (String c kw)) (to_ascii_lowercase (String d (String a s))) = None).
  { intros e kw He d _. cbn [to_ascii_lowercase strip_prefix]. rewrite He. by destruct (Ascii.eqb "f" (to_lower d)). }
  unfold keyword_free, keyword_like.
  repeat (apply elem_of_cons in Hc as [->|Hc];
    [rewrite sapp_cons, sapp_nil_l; cbn [forallb]; rewrite Hk by auto; done|]).
  by apply elem_of_nil in Hc.
Qed.

Lemma scope_under_ok x v stack : fixpoint_name x → scope_under x v stack → scope_ok stack.
Proof. intros Hx (st & -> & Hst). by constructor. Qed.

Lemma text_reads_under x v txt d t n m :
  fixpoint_name x → text_reads scope_ok txt d t n m → text_reads (scope_under x v) txt d t n m.
Proof.
  intros Hx (s & Hd & Hs). exists s. split; [done|]. intros stack Hst. by eapply Hs, scope_under_ok.
Qed.

Lemma var_reads x v n : fixpoint_name x → text_reads (scope_under x v) x 1 (TVar v) n n.
Proof.
  intros (c & k & Hc & ->). exists (SAtom (c +:+ pretty (S k))). split.
  - constructor. by apply fixpoint_name_atom.
  - intros stack (st & -> & _). split; [done|]. simpl. unfold find_binder. simpl. by rewrite String.eqb_refl.
Qed.

Lemma box_text_reads P txt d t n m :
  text_reads P txt d t n m → text_reads P ("[] " +:+ txt) (S d) (box t) n m.
Proof.
  intros (s & Hd & Hs). exists (SModal Box Guard_default s). split; [by constructor|].
  intros stack Hst. destruct (Hs stack Hst) as [H1 H2]. simpl. by rewrite H1, H2.
Qed.

Lemma paren_text_reads P txt d t n m :
  text_reads P txt d t n m → text_reads P ("(" +:+ txt +:+ ")") (S d) t n m.
Proof. intros (s & Hd & Hs). exists s. split; [|done]. by apply derives_paren, derives_up. Qed.

Lemma some_next_reads P n : text_reads P "(<> true)" 3 (TModal Diamond Guard_default TTrue) n n.
Proof.
  exists (SModal Diamond Guard_default (SConst true)). split; [|done].
  apply (derives_paren "<> true" _ 2), derives_up, (derives_diamond "true" _ 1), (derives_const true).
Qed.

(** [(([] x) && (<> true))] *)
Lemma all_next_reads x v n : fixpoint_name x →
  text_reads (scope_under x v) ("(([] " +:+ x +:+ ") && (<> true))") 4 (all_next (TVar v)) n n.
Proof.
  intros Hx. pose proof (and_text_reads _ _ _ _ _ _ _ _ _ _
    (paren_text_reads _ _ _ _ _ _ (box_text_reads _ _ _ _ _ _ (var_reads x v n Hx)))
    (some_next_reads (scope_under x v) n)) as H.
  rewrite !sapp_assoc in H. exact H.
Qed.

(** A fixpoint over a body in parentheses. *)
Lemma fix_text_reads (least : bool) x txt d t n m :
  fixpoint_name x → text_reads (scope_under x n) txt d t (S n) m →
  text_reads scope_ok ("(" +:+ (if least then "mu " else "nu ") +:+ x +:+ ". " +:+ txt +:+ ")") (2 + d)
    (TFix (if least then Least else Greatest) n t) n m.
Proof.
  intros Hx (s & Hd & Hs). exists (SFix (if least then Least else Greatest) x s).
  assert (Hid : identifier x = true) by (destruct Hx as (c & k & Hc & ->); by apply fixpoint_name_atom).
  split.
  - destruct least; (eapply derives_eq; [|shelve|reflexivity]).
    + eapply derives_paren, derives_mu; [exact Hid|by apply derives_up].
    + eapply derives_paren, derives_nu; [exact Hid|by apply derives_up].
    Unshelve. all: by rewrite !sapp_assoc.
  - intros stack Hst. destruct (Hs ({| b_name := x; b_id := n |} :: stack)) as [H1 H2]; [by exists stack|].
    simpl in *. by rewrite H1, H2.
Qed.

Lemma fresh_name c n : c ∈ ["G"; "F"; "U"; "W"] → fixpoint_name (c +:+ pretty (S n)).
Proof. intros Hc. by exists c, n. Qed.

(** ** The translation of the fragment *)

Lemma always_reads ta da t n m :
  let x := "G" +:+ pretty (S n) in
  text_reads scope_ok ta da t (S n) m →
  text_reads scope_ok ("(nu " +:+ x +:+ ". (" +:+ ta +:+ " && [] " +:+ x +:+ "))") (3 + da `max` 2)
    (TFix Greatest n (TAnd t (box (TVar n)))) n m.
Proof.
  intros x Ht. assert (Hx : fixpoint_name x) by (apply fresh_name; by left).
  pose proof (fix_text_reads false x _ _ _ n m Hx (and_text_reads _ _ _ _ _ _ _ _ _ _
    (text_reads_under x n _ _ _ _ _ Hx Ht) (box_text_reads _ _ _ _ _ _ (var_reads x n m Hx)))) as H.
  rewrite !sapp_assoc in H. exact H.
Qed.

Lemma eventually_reads pa da t n :
  let x := "F" +:+ pretty (S n) in
  text_reads scope_ok pa da t (S n) (S n) →
  text_reads scope_ok ("(mu " +:+ x +:+ ". (" +:+ pa +:+ " || (([] " +:+ x +:+ ") && (<> true))))") (3 + da `max` 4)
    (TFix Least n (TOr t (all_next (TVar n)))) n (S n).
Proof.
  intros x Ht. assert (Hx : fixpoint_name x) by (apply fresh_name; by right; left).
  pose proof (fix_text_reads true x _ _ _ n (S n) Hx (or_text_reads _ _ _ _ _ _ _ _ _ _
    (text_reads_under x n _ _ _ _ _ Hx Ht) (all_next_reads x n (S n) Hx))) as H.
  rewrite !sapp_assoc in H. exact H.
Qed.

Lemma until_reads p dp tp q dq tq n :
  let x := "U" +:+ pretty (S n) in
  text_reads scope_ok p dp tp (S n) (S n) → text_reads scope_ok q dq tq (S n) (S n) →
  text_reads scope_ok
    ("(mu " +:+ x +:+ ". (" +:+ q +:+ " || (" +:+ p +:+ " && (([] " +:+ x +:+ ") && (<> true)))))")
    (3 + dq `max` (1 + dp `max` 4)) (TFix Least n (TOr tq (TAnd tp (all_next (TVar n))))) n (S n).
Proof.
  intros x Hp Hq. assert (Hx : fixpoint_name x) by (apply fresh_name; by right; right; left).
  pose proof (fix_text_reads true x _ _ _ n (S n) Hx (or_text_reads _ _ _ _ _ _ _ _ _ _
    (text_reads_under x n _ _ _ _ _ Hx Hq) (and_text_reads _ _ _ _ _ _ _ _ _ _
      (text_reads_under x n _ _ _ _ _ Hx Hp) (all_next_reads x n (S n) Hx)))) as H.
  rewrite !sapp_assoc in H. exact H.
Qed.

Lemma weak_until_reads p dp tp q dq tq n :
  let x := "W" +:+ pretty (S n) in
  text_reads scope_ok p dp tp (S n) (S n) → text_reads scope_ok q dq tq (S n) (S n) →
  text_reads scope_ok
    ("(nu " +:+ x +:+ ". ((" +:+ q +:+ " || " +:+ p +:+ ") && (" +:+ q +:+ " || ([] " +:+ x +:+ "))))")
    (3 + (1 + dq `max` dp) `max` (1 + dq `max` 3))
    (TFix Greatest n (TAnd (TOr tq tp) (TOr tq (box (TVar n))))) n (S n).
Proof.
  intros x Hp Hq. assert (Hx : fixpoint_name x) by (apply fresh_name; by right; right; right; left).
  pose proof (text_reads_under x n _ _ _ _ _ Hx Hq) as Hq'.
  pose proof (fix_text_reads false x _ _ _ n (S n) Hx (and_text_reads _ _ _ _ _ _ _ _ _ _
    (or_text_reads _ _ _ _ _ _ _ _ _ _ Hq' (text_reads_under x n _ _ _ _ _ Hx Hp))
    (or_text_reads _ _ _ _ _ _ _ _ _ _ Hq'
      (paren_text_reads _ _ _ _ _ _ (box_text_reads _ _ _ _ _ _ (var_reads x n (S n) Hx)))))) as H.
  rewrite !sapp_assoc in H. exact H.
Qed.

(** What [universal] returns without fairness: the text of [universal_tree], or
    a refusal where there is none. *)
Definition universal_outcome (f : LtlFormula) (n : nat) : Prop :=
  match universal_tree f n with
  | Some (t, m) => ∃ txt, universal f n [] = Some (inr (txt, m)) ∧ text_reads scope_ok txt (nesting f) t n m
  | None => ∃ message, universal f n [] = Some (inl (Outside message))
  end.

Lemma propositional_outcome f n :
  is_propositional f = true → all_predicates good_predicate f → universal_outcome f n.
Proof.
  intros Hp Hg. destruct (prop_reads f n Hp Hg) as (txt & Et & Hr). unfold universal_outcome.
  assert (E1 : universal_tree f n = Some (prop_tree f, n)) by (destruct f; simpl in *; rewrite ?Hp; done).
  assert (E2 : universal f n [] = let* t := prop f in Some (inr (t, n))).
  { destruct f; simpl in *; rewrite ?Hp; done. }
  rewrite E1, E2, Et. eauto.
Qed.

Lemma universal_derives f : ∀ n, all_predicates good_predicate f → universal_outcome f n.
Proof.
  induction f as [| |p|a IHa|a IHa b IHb|a IHa b IHb|a IHa b IHb|a IHa|a IHa|a IHa|a IHa b IHb|a IHa b IHb
    |a IHa b IHb|a IHa|a IHa|a IHa b IHb]; intros n Hg;
    match goal with |- universal_outcome ?g _ =>
      destruct (is_propositional g) eqn:Hp; [by apply propositional_outcome|] end;
    try done; unfold universal_outcome in *; cbn [universal universal_tree]; rewrite Hp; simpl in Hp, Hg;
    try (by eexists).
  - destruct Hg as [Hga Hgb]. specialize (IHa n Hga).
    destruct (universal_tree a n) as [[ta m]|]; [|by destruct IHa as (msg & ->); eexists].
    destruct IHa as (txa & -> & Ha). specialize (IHb m Hgb).
    destruct (universal_tree b m) as [[tb k]|]; [|by destruct IHb as (msg & ->); eexists].
    destruct IHb as (txb & -> & Hb). eexists. split; [done|]. by eapply and_text_reads.
  - destruct Hg as [Hga Hgb]. destruct (is_propositional a) eqn:Hpa.
    { destruct (prop_reads a n Hpa Hga) as (txa & -> & Ha). specialize (IHb n Hgb).
      destruct (universal_tree b n) as [[tb k]|]; [|by destruct IHb as (msg & ->); eexists].
      destruct IHb as (txb & -> & Hb). eexists. split; [done|]. by eapply or_text_reads. }
    destruct (is_propositional b) eqn:Hpb; [|by eexists].
    specialize (IHa n Hga).
    destruct (universal_tree a n) as [[ta m]|]; [|by destruct IHa as (msg & ->); eexists].
    destruct IHa as (txa & -> & Ha). destruct (prop_reads b m Hpb Hgb) as (txb & -> & Hb).
    eexists. split; [done|]. by eapply or_text_reads.
  - specialize (IHa n Hg).
    destruct (universal_tree a n) as [[ta m]|]; [|by destruct IHa as (msg & ->); eexists].
    destruct IHa as (txa & -> & Ha). eexists. split; [done|].
    pose proof (paren_text_reads _ _ _ _ _ _ (box_text_reads _ _ _ _ _ _ Ha)) as H.
    rewrite !sapp_assoc in H. exact H.
  - specialize (IHa (S n) Hg). unfold fresh_var.
    destruct (universal_tree a (S n)) as [[ta m]|]; [|by destruct IHa as (msg & ->); eexists].
    destruct IHa as (txa & -> & Ha). eexists. split; [done|]. by apply always_reads.
  - destruct (is_propositional a) eqn:Hpa; [|by eexists].
    destruct (prop_reads a (S n) Hpa Hg) as (pa & -> & Ha). eexists. split; [done|]. by apply eventually_reads.
  - destruct Hg as [Hga Hgb]. destruct (is_propositional a) eqn:Hpa; [|by eexists].
    destruct (is_propositional b) eqn:Hpb; [|by eexists].
    destruct (prop_reads a (S n) Hpa Hga) as (pa & -> & Ha), (prop_reads b (S n) Hpb Hgb) as (pb & -> & Hb).
    eexists. split; [done|]. by apply until_reads.
  - destruct Hg as [Hga Hgb]. destruct (is_propositional a) eqn:Hpa; [|by eexists].
    destruct (is_propositional b) eqn:Hpb; [|by eexists].
    destruct (prop_reads a (S n) Hpa Hga) as (pa & -> & Ha), (prop_reads b (S n) Hpb Hgb) as (pb & -> & Hb).
    eexists. split; [done|]. by apply weak_until_reads.
Qed.
