(* ===== verification/UniversalCorrect.v ===== *)
(** The universal translation is correct: on a system where every state has a
    successor, the model checker run on the translated formula answers whether
    every path satisfies the temporal formula.

    The chain: negation normal form keeps the meaning ([nnf_sat], through the
    dualities of until and weak until), each fixpoint the translation writes is
    the set of states all of whose paths behave ([tree_paths]), the text is read
    back as that tree ([universal_derives] and the parser's theorem), and the
    evaluator computes the tree's textbook meaning ([evaluate_sat]).  Infinite
    paths that avoid a least fixpoint are built with the axiom of choice. *)
From S2P Require Import Prelude Formula Trit Clts Modal Evaluator Semantics Domains Checking Verdicts Divergences Transforms Branching Text FormulaParser FormulaText Ltl Universal.
From Stdlib Require Import Classical ClassicalEpsilon.

(** ** Until and its duals *)

Section until.
Implicit Types P Q : nat → Prop.

Definition until P Q (i : nat) : Prop := ∃ j, i ≤ j ∧ Q j ∧ ∀ k, i ≤ k < j → P k.
Definition always P (i : nat) : Prop := ∀ j, i ≤ j → P j.
Definition weak P Q (i : nat) : Prop := until P Q i ∨ always P i.
Definition release P Q (i : nat) : Prop := ∀ j, i ≤ j → (∀ k, i ≤ k < j → ¬ P k) → Q j.

(** The first time from [i] on. *)
Lemma first_time P i j : i ≤ j → P j → until (λ k, ¬ P k) P i.
Proof.
  induction (lt_wf j) as [j _ IH]. intros Hi Hj.
  destruct (classic (∃ k, i ≤ k < j ∧ P k)) as [(k & Hk & HP)|Hn]; [apply (IH k); [lia..|done]|].
  exists j. split_and!; [done..|]. intros k Hk HP. apply Hn. eauto.
Qed.

Lemma always_or P i : always P i ∨ until P (λ k, ¬ P k) i.
Proof.
  destruct (classic (always P i)) as [H|H]; [by left|right].
  apply not_all_ex_not in H as (j & Hj). apply imply_to_and in Hj as [Hj HP].
  destruct (first_time (λ k, ¬ P k) i j Hj HP) as (k & ? & ? & Hk). exists k. split_and!; [done..|].
  intros l Hl. by apply NNPP, Hk.
Qed.

Lemma until_mono P P' Q Q' i :
  (∀ k, P k → P' k) → (∀ k, Q k → Q' k) → until P Q i → until P' Q' i.
Proof. intros HP HQ (j & ? & ? & ?). exists j. eauto 6. Qed.

Lemma not_weak P Q i : ¬ weak P Q i ↔ until (λ k, ¬ Q k) (λ k, ¬ P k ∧ ¬ Q k) i.
Proof.
  split.
  - intros Hn. destruct (always_or P i) as [Ha|(j & Hi & Hj & Hk)]; [by destruct Hn; right|].
    assert (HQ : ∀ k, i ≤ k ≤ j → ¬ Q k).
    { intros k Hik HQ. apply Hn. left. exists k. split_and!; [lia|done|]. intros l Hl. apply Hk. lia. }
    exists j. split_and!; [done..|apply HQ; lia|]. intros k Hik. apply HQ. lia.
  - intros (j & Hi & [HP HQ] & Hk) [(l & Hl & HQl & Hkl)|Ha]; [|by apply HP, Ha].
    destruct (lt_eq_lt_dec l j) as [[Hlj| ->]|Hlj]; [by apply (Hk l)|done|by apply HP, Hkl].
Qed.

Lemma not_until P Q i : ¬ until P Q i ↔ weak (λ k, ¬ Q k) (λ k, ¬ P k ∧ ¬ Q k) i.
Proof.
  split.
  - intros Hn. destruct (always_or (λ k, ¬ Q k) i) as [Ha|(j & Hi & Hj%NNPP & Hk)]; [by right|left].
    destruct (classic (∃ k, i ≤ k < j ∧ ¬ P k)) as [(k & Hik & HP)|Hx].
    + exists k. split_and!; [lia|done|apply Hk; lia|]. intros l Hl. apply Hk. lia.
    + destruct Hn. exists j. split_and!; [done..|]. intros k Hik. apply NNPP. intros HP. apply Hx. eauto.
  - intros [(j & Hi & [HP HQ] & Hk)|Ha] (l & Hl & HQl & Hkl); [|by apply (Ha l)].
    destruct (lt_eq_lt_dec l j) as [[Hlj| ->]|Hlj]; [by apply (Hk l)|done|by apply HP, Hkl].
Qed.

Lemma release_weak P Q i : release P Q i ↔ weak Q (λ k, P k ∧ Q k) i.
Proof.
  split.
  - intros Hr. destruct (always_or (λ k, ¬ P k) i) as [Ha|(j & Hi & Hj%NNPP & Hk)].
    + right. intros j Hj. apply Hr; [done|]. intros k Hk. apply Ha. lia.
    + left. exists j. assert (HQ : ∀ k, i ≤ k ≤ j → Q k).
      { intros k Hik. apply Hr; [lia|]. intros l Hl. apply Hk. lia. }
      split_and!; [done..|apply HQ; lia|]. intros k Hik. apply HQ. lia.
  - intros [(j & Hi & [HP HQ] & Hk)|Ha] l Hl Hn; [|by apply Ha].
    destruct (lt_eq_lt_dec l j) as [[Hlj| ->]|Hlj]; [by apply Hk|done|by destruct (Hn j)].
Qed.

Lemma weak_mono P P' Q Q' i :
  (∀ k, P k → P' k) → (∀ k, Q k → Q' k) → weak P Q i → weak P' Q' i.
Proof. intros HP HQ [H|H]; [left; by eapply until_mono|right]. intros j Hj. by apply HP, H. Qed.

Lemma until_iff P P' Q Q' i :
  (∀ k, P k ↔ P' k) → (∀ k, Q k ↔ Q' k) → until P Q i ↔ until P' Q' i.
Proof. intros HP HQ. split; apply until_mono; intros k; by rewrite ?HP, ?HQ. Qed.

Lemma weak_iff P P' Q Q' i :
  (∀ k, P k ↔ P' k) → (∀ k, Q k ↔ Q' k) → weak P Q i ↔ weak P' Q' i.
Proof. intros HP HQ. split; apply weak_mono; intros k; by rewrite ?HP, ?HQ. Qed.
End until.

(** ** Negation normal form *)

Lemma not_always P i : ¬ (∀ j, i ≤ j → P j) ↔ ∃ j, i ≤ j ∧ ¬ P j.
Proof.
  split; [|intros (j & Hj & HP) Ha; by apply HP, Ha].
  intros [j Hj]%not_all_ex_not. exists j. by apply imply_to_and in Hj.
Qed.

Lemma not_eventually P i : ¬ (∃ j, i ≤ j ∧ P j) ↔ ∀ j, i ≤ j → ¬ P j.
Proof. split; [intros H j Hj HP; apply H; eauto|intros H (j & Hj & HP); by apply (H j)]. Qed.

(** [ltl_nnf f false] means [f], and [ltl_nnf f true] its negation. *)
Lemma nnf_sat tr f : ∀ i,
  (ltl_sat tr (ltl_nnf f false) i ↔ ltl_sat tr f i) ∧ (ltl_sat tr (ltl_nnf f true) i ↔ ¬ ltl_sat tr f i).
Proof.
  induction f as [| |p|a IHa|a IHa b IHb|a IHa b IHb|a IHa b IHb|a IHa|a IHa|a IHa|a IHa b IHb|a IHa b IHb
    |a IHa b IHb|a IHa|a IHa|a IHa b IHb]; intros i; try (pose proof (IHa i) as [A1 A2]); try (pose proof (IHb i) as [B1 B2]);
    simpl; try tauto.
  - apply IHa.
  - split; [by setoid_rewrite (λ j, proj1 (IHa j))|].
    rewrite (not_always (ltl_sat tr a)). by setoid_rewrite (λ j, proj2 (IHa j)).
  - split; [by setoid_rewrite (λ j, proj1 (IHa j))|].
    rewrite (not_eventually (ltl_sat tr a)). by setoid_rewrite (λ j, proj2 (IHa j)).
  - split; [apply until_iff; intros k; apply IHa || apply IHb|].
    etransitivity; [|symmetry; apply not_until]. apply weak_iff; intros k; simpl; [apply IHb|].
    pose proof (IHa k). pose proof (IHb k). tauto.
  - split; [apply weak_iff; intros k; apply IHa || apply IHb|].
    etransitivity; [|symmetry; apply not_weak]. apply until_iff; intros k; simpl; [apply IHb|].
    pose proof (IHa k). pose proof (IHb k). tauto.
  - assert (Hr : weak (ltl_sat tr b) (λ k, ltl_sat tr a k ∧ ltl_sat tr b k) i
      ↔ release (ltl_sat tr a) (ltl_sat tr b) i) by (symmetry; apply release_weak).
    split.
    + rewrite <-Hr. apply weak_iff; intros k; simpl; [apply IHb|].
      pose proof (IHa k). pose proof (IHb k). tauto.
    + unfold release in Hr. rewrite <-Hr. etransitivity; [|symmetry; apply not_weak].
      apply until_iff; intros k; simpl; destruct (IHa k) as [? H1], (IHb k) as [? H2]; rewrite H1, H2;
        destruct (classic (ltl_sat tr a k)), (classic (ltl_sat tr b k)); tauto.
  - split; [by setoid_rewrite (λ j, proj1 (IHa j))|].
    rewrite (not_always (λ j, ∃ k, j ≤ k ∧ ltl_sat tr a k)). setoid_rewrite (not_eventually (ltl_sat tr a)).
    by setoid_rewrite (λ j, proj2 (IHa j)).
  - split; [by setoid_rewrite (λ j, proj1 (IHa j))|].
    rewrite (not_eventually (λ j, ∀ k, j ≤ k → ltl_sat tr a k)). setoid_rewrite (not_always (ltl_sat tr a)).
    by setoid_rewrite (λ j, proj2 (IHa j)).
  - assert (Hor : ∀ j (X : Prop), (ltl_sat tr (ltl_nnf a true) j ∨ X) ↔ (ltl_sat tr a j → X)).
    { intros j X. rewrite (proj2 (IHa j)). split; [tauto|apply imply_to_or]. }
    split.
    + setoid_rewrite Hor. by setoid_rewrite (λ j, proj1 (IHb j)).
    + rewrite (not_always (λ j, ltl_sat tr a j → ∃ k, j ≤ k ∧ ltl_sat tr b k)). setoid_rewrite (λ j, proj1 (IHa j)). setoid_rewrite (λ j, proj2 (IHb j)).
      split; intros (j & Hj & H); exists j; (split; [done|]).
      * intros Hi. destruct H as [Ha Hb]. destruct (Hi Ha) as (k & Hk & HB). by apply (Hb k).
      * apply imply_to_and in H as [Ha Hb]. split; [done|]. by apply not_eventually.
Qed.

(** ** Suffixes of traces *)

Section suffix.
Context (P P' Q Q' : nat → Prop) (i i' : nat).
Context (HP : ∀ d, P (i + d) ↔ P' (i' + d)) (HQ : ∀ d, Q (i + d) ↔ Q' (i' + d)).

Lemma always_suffix : (∀ j, i ≤ j → P j) ↔ (∀ j, i' ≤ j → P' j).
Proof using HP.
  split; intros H j Hj.
  - replace j with (i' + (j - i')) by lia. apply HP, H. lia.
  - replace j with (i + (j - i)) by lia. apply HP, H. lia.
Qed.

Lemma eventually_suffix : (∃ j, i ≤ j ∧ P j) ↔ (∃ j, i' ≤ j ∧ P' j).
Proof using HP.
  split; intros (j & Hj & H).
  - exists (i' + (j - i)). split; [lia|]. apply HP. by replace (i + (j - i)) with j by lia.
  - exists (i + (j - i')). split; [lia|]. apply HP. by replace (i' + (j - i')) with j by lia.
Qed.

Lemma until_suffix : until P Q i ↔ until P' Q' i'.
Proof using HP HQ.
  split; intros (j & Hj & Hq & Hk).
  - exists (i' + (j - i)). split_and!; [lia|apply HQ; by replace (i + (j - i)) with j by lia|].
    intros l Hl. replace l with (i' + (l - i')) by lia. apply HP, Hk. lia.
  - exists (i + (j - i')). split_and!; [lia|apply HQ; by replace (i' + (j - i')) with j by lia|].
    intros l Hl. replace l with (i + (l - i)) by lia. apply HP, Hk. lia.
Qed.

Lemma weak_suffix : weak P Q i ↔ weak P' Q' i'.
Proof using HP HQ. unfold weak, always. by rewrite until_suffix, always_suffix. Qed.
End suffix.

(** What a formula says depends on the suffix of the trace only. *)
Lemma ltl_suffix tr tr' f : ∀ i i',
  (∀ k, tr (i + k) = tr' (i' + k)) → ltl_sat tr f i ↔ ltl_sat tr' f i'.
Proof.
  induction f as [| |p|a IHa|a IHa b IHb|a IHa b IHb|a IHa b IHb|a IHa|a IHa|a IHa|a IHa b IHb|a IHa b IHb
    |a IHa b IHb|a IHa|a IHa|a IHa b IHb]; intros i i' H;
    assert (H' : ∀ d k, tr (i + d + k) = tr' (i' + d + k)) by (intros d k; rewrite <-!Nat.add_assoc; apply H);
    try (pose proof (λ d, IHa (i + d) (i' + d) (H' d)) as Da);
    try (pose proof (λ d, IHb (i + d) (i' + d) (H' d)) as Db);
    try (specialize (IHa i i' H)); try (specialize (IHb i i' H)); simpl; try tauto.
  - specialize (H 0). rewrite !Nat.add_0_r in H. by rewrite H.
  - specialize (Da 1). by rewrite !Nat.add_1_r in Da.
  - by apply always_suffix.
  - by apply eventually_suffix.
  - by apply until_suffix.
  - by apply weak_suffix.
  - etransitivity; [apply release_weak|]. etransitivity; [|symmetry; apply release_weak].
    apply weak_suffix; [done|]. intros d. by rewrite Da, Db.
  - apply always_suffix. intros d. apply eventually_suffix. intros d'. by rewrite <-!Nat.add_assoc.
  - apply eventually_suffix. intros d. apply always_suffix. intros d'. by rewrite <-!Nat.add_assoc.
  - apply always_suffix. intros d. rewrite (Da d). apply imp_iff_compat_l, eventually_suffix.
    intros d'. by rewrite <-!Nat.add_assoc.
Qed.

(** ** Paths *)

Section paths.
Context (c : Clts) (e : EvalEnvironment).

#[local] Abbreviation edge := (edge c).
#[local] Abbreviation total := (total c).
#[local] Abbreviation means := (means c e).

Definition path (π : nat → nat) : Prop := ∀ i, edge (π i) (π (S i)).

Definition atomb (p : string) (s : nat) : bool :=
  match predicate e p with
  | Some bits => bit bits s
  | None => bool_decide (state_3valued_predicate c s p = Some KleeneT)
  end.

Lemma atomb_spec p s : atomb p s = true ↔ atom c e p s.
Proof using Type. unfold atomb, atom. destruct (predicate e p); [done|]. by rewrite bool_decide_eq_true. Qed.

(** The predicates that hold along a path. *)
Definition trace (π : nat → nat) : Trace := λ i p, atomb p (π i).

(** Every path from [s] satisfies the formula. *)
Definition all_paths (f : LtlFormula) (s : nat) : Prop :=
  ∀ π, path π → π 0 = s → ltl_sat (trace π) f 0.


Lemma forall_paths (A B : (nat → nat) → Prop) s :
  (∀ π, A π ↔ B π) → (∀ π, path π → π 0 = s → A π) ↔ (∀ π, path π → π 0 = s → B π).
Proof using Type. intros H. split; intros Hall π ? ?; apply H; auto. Qed.

(** ** Building paths *)

Definition cons_path (s : nat) (π : nat → nat) : nat → nat :=
  λ i, match i with O => s | S j => π j end.

Lemma path_cons s π : edge s (π 0) → path π → path (cons_path s π).
Proof using Type. intros Hs Hp [|i]; [done|]. apply Hp. Qed.

Lemma path_drop k π : path π → path (λ i, π (k + i)).
Proof using Type. intros Hp i. rewrite Nat.add_succ_r. apply Hp. Qed.

Lemma trace_drop π k f : ltl_sat (trace (λ i, π (k + i))) f 0 ↔ ltl_sat (trace π) f k.
Proof using Type. by apply ltl_suffix. Qed.

Lemma trace_cons s π f : ltl_sat (trace (cons_path s π)) f 1 ↔ ltl_sat (trace π) f 0.
Proof using Type. by apply ltl_suffix. Qed.

(** A property of all paths from a state holds wherever a path gets to. *)
Lemma all_paths_at f π k : path π → all_paths f (π k) → ltl_sat (trace π) f k.
Proof using Type.
  intros Hp Ha. apply trace_drop, Ha; [by apply path_drop|]. simpl. by rewrite Nat.add_0_r.
Qed.

Section total.
Context (Hok : clts_ok c) (Htot : total).

Lemma path_bound π k : path π → π k < state_count c.
Proof using Hok. intros Hp. apply (edge_bound c Hok _ _ (Hp k)). Qed.

(** From a state of [W], a path that stays in [W] as long as it can. *)
Lemma steered_path (W : nat → Prop) s :
  s < state_count c →
  ∃ π, path π ∧ π 0 = s ∧ ∀ i, (∃ s', edge (π i) s' ∧ W s') → W (π (S i)).
Proof using Hok Htot.
  intros Hs.
  assert (Hnext : ∀ u, ∃ v, u < state_count c → edge u v ∧ ((∃ s', edge u s' ∧ W s') → W v)).
  { intros u. destruct (classic (∃ s', edge u s' ∧ W s')) as [(v & Hv & HW)|Hn]; [by exists v|].
    destruct (outgoing c u) as [|t ts] eqn:E.
    - exists 0. intros Hu. by destruct (Htot u Hu).
    - exists (target t). intros _. split; [|done]. exists t. split; [|done]. rewrite E. by left. }
  set (next u := proj1_sig (constructive_indefinite_description _ (Hnext u))).
  assert (Hn : ∀ u, u < state_count c → edge u (next u) ∧ ((∃ s', edge u s' ∧ W s') → W (next u))).
  { intros u. unfold next. by destruct (constructive_indefinite_description _ (Hnext u)). }
  set (π i := Nat.iter i next s).
  assert (Hb : ∀ i, π i < state_count c).
  { intros i. induction i as [|i IH]; [done|]. by apply (edge_bound c Hok (π i)), Hn. }
  exists π. split_and!; [|done|].
  - intros i. by apply Hn.
  - intros i. by apply Hn.
Qed.

Lemma some_path s : s < state_count c → ∃ π, path π ∧ π 0 = s.
Proof using Hok Htot. intros Hs. destruct (steered_path (λ _, True) s Hs) as (π & ? & ? & _). eauto. Qed.

(** ** Fixpoints over paths *)

(** The least set closed under [Q ∨ (P ∧ every successor)] is the set of the
    states all of whose paths satisfy [P] until [Q]. *)
Definition pre_fixed (P Q : nat → Prop) (X : nat → Prop) : Prop :=
  ∀ s, s < state_count c → Q s ∨ (P s ∧ (∀ s', edge s s' → X s') ∧ ∃ s', edge s s') → X s.

Lemma until_paths P Q s :
  s < state_count c →
  (∀ X, pre_fixed P Q X → X s) ↔
  ∀ π, path π → π 0 = s → until (λ i, P (π i)) (λ i, Q (π i)) 0.
Proof using Hok Htot.
  intros Hs. split.
  - intros HX. apply (HX (λ s, ∀ π, path π → π 0 = s → until (λ i, P (π i)) (λ i, Q (π i)) 0)).
    intros u Hu [HQ|(HP & Hnext & _)] π Hp H0.
    { exists 0. split_and!; [lia|by rewrite H0|lia]. }
    destruct (Hnext (π 1)) with (π := λ i, π (1 + i)) as (j & _ & HQ & Hk);
      [rewrite <-H0; apply Hp|by apply path_drop|done|].
    exists (S j). split_and!; [lia|done|]. intros [|k] Hk'; [by rewrite H0|]. apply Hk. lia.
  - intros Hall. apply NNPP. intros Hn.
    set (W u := u < state_count c ∧ ¬ ∀ X, pre_fixed P Q X → X u).
    destruct (steered_path W s Hs) as (π & Hp & H0 & HW).
    destruct (Hall π Hp H0) as (j & _ & HQ & HP).
    assert (Hstep : ∀ u, W u → ¬ Q u ∧ (P u → ∃ s', edge u s' ∧ W s')).
    { intros u [Hu Hx]. split.
      - intros HQu. apply Hx. intros X HX. apply HX; auto.
      - intros HPu. apply NNPP. intros Hno. apply Hx. intros X HX. apply HX; [done|right].
        split_and!; [done| |].
        + intros s' Hs'. apply NNPP. intros HXs. apply Hno. exists s'. split; [done|].
          split; [by apply (edge_bound c Hok u)|]. intros Hall'. by apply HXs, Hall'.
        + destruct (some_path u Hu) as (π' & Hp' & <-). eexists. apply Hp'. }
    assert (Hin : ∀ i, i ≤ j → W (π i)).
    { intros i. induction i as [|i IH]; intros Hi; [rewrite H0; by split|].
      apply HW. apply Hstep; [apply IH; lia|]. apply HP. lia. }
    by apply (Hstep (π j) (Hin j ltac:(lia))).
Qed.

(** The greatest set with [Q ∨ P] and [Q ∨ every successor] is the set of the
    states all of whose paths satisfy [P] weakly until [Q]. *)
Definition post_fixed (P Q : nat → Prop) (X : nat → Prop) : Prop :=
  ∀ s, s < state_count c → X s → (Q s ∨ P s) ∧ (Q s ∨ ∀ s', edge s s' → X s').

(** Weak until, one step at a time. *)
Lemma weak_step (P Q : nat → Prop) π :
  weak (λ i, P (π i)) (λ i, Q (π i)) 0 →
  Q (π 0) ∨ (P (π 0) ∧ weak (λ i, P (π (1 + i))) (λ i, Q (π (1 + i))) 0).
Proof using Type.
  intros [([|j] & _ & HQ & HP)|Ha]; [by left|right..].
  - split; [apply HP; lia|]. left. exists j. split_and!; [lia|done|]. intros k Hk. apply HP. lia.
  - split; [apply Ha; lia|]. right. intros j _. apply Ha. lia.
Qed.

Lemma weak_paths P Q s :
  s < state_count c →
  (∃ X, post_fixed P Q X ∧ X s) ↔
  ∀ π, path π → π 0 = s → weak (λ i, P (π i)) (λ i, Q (π i)) 0.
Proof using Hok Htot.
  intros Hs. split.
  - intros (X & HX & Hsx) π Hp H0.
    assert (Hin : ∀ i, (∀ k, k < i → ¬ Q (π k)) → X (π i)).
    { intros i. induction i as [|i IH]; intros Hn; [by rewrite H0|].
      destruct (HX (π i) (path_bound π i Hp)) as [_ [HQ|HX']]; [apply IH; auto with lia|by destruct (Hn i); [lia|]|].
      apply HX', Hp. }
    destruct (always_or (λ i, ¬ Q (π i)) 0) as [Ha|(j & _ & Hj%NNPP & Hk)].
    + right. intros i _. destruct (HX (π i) (path_bound π i Hp)) as [[HQ|HP] _]; [|by destruct (Ha i); [lia|]|done].
      apply Hin. intros k _. apply Ha. lia.
    + left. exists j. split_and!; [lia|done|]. intros i Hi.
      destruct (HX (π i) (path_bound π i Hp)) as [[HQ|HP] _]; [|by destruct (Hk i)|done].
      apply Hin. intros k Hki. apply Hk. lia.
  - intros Hall. exists (λ s, ∀ π, path π → π 0 = s → weak (λ i, P (π i)) (λ i, Q (π i)) 0).
    split; [|done]. intros u Hu Hu'. destruct (some_path u Hu) as (π & Hp & H0).
    pose proof (weak_step P Q π (Hu' π Hp H0)) as Hstep. rewrite H0 in Hstep.
    split; [tauto|]. destruct (classic (Q u)) as [HQ|HQ]; [by left|right].
    intros s' Hs' π' Hp' <-.
    destruct (weak_step P Q (cons_path u π')) as [?|[_ ?]]; [|done..].
    apply Hu'; [by apply path_cons|done].
Qed.

(** ** The meaning of the trees *)

Lemma sat_prop f ρ π i :
  is_propositional f = true → sat c e (prop_tree f) ρ (π i) ↔ ltl_sat (trace π) f i.
Proof using Type.
  induction f as [| |p|a IHa|a IHa b IHb|a IHa b IHb|a IHa b IHb| | | | | | | | |]; simpl; intros Hp;
    try (apply andb_true_iff in Hp as [Hpa Hpb]); try done.
  - symmetry. apply atomb_spec.
  - by rewrite (IHa Hp).
  - by rewrite (IHa Hpa), (IHb Hpb).
  - by rewrite (IHa Hpa), (IHb Hpb).
  - rewrite (IHa Hpa), (IHb Hpb). tauto.
Qed.

(** A propositional formula at the start of a path. *)
Lemma prop_all_paths f ρ s :
  s < state_count c → is_propositional f = true → sat c e (prop_tree f) ρ s ↔ all_paths f s.
Proof using Hok Htot.
  intros Hs Hp. destruct (some_path s Hs) as (π & Hpath & H0). split.
  - intros Hf π' _ H0'. apply (sat_prop f ρ π' 0 Hp). by rewrite H0'.
  - intros Ha. rewrite <-H0. apply (sat_prop f ρ π 0 Hp). by apply Ha.
Qed.

Lemma all_paths_and a b s : all_paths (LAnd a b) s ↔ all_paths a s ∧ all_paths b s.
Proof using Type.
  split; [intros H; split; intros π Hp H0; by apply (H π Hp)|]. intros [Ha Hb] π Hp H0. split; auto.
Qed.

(** A disjunction with a propositional side is decided at the first state. *)
Lemma all_paths_or a b ρ s :
  s < state_count c → is_propositional a = true →
  all_paths (LOr a b) s ↔ sat c e (prop_tree a) ρ s ∨ all_paths b s.
Proof using Hok Htot.
  intros Hs Hp. split.
  - intros H. destruct (classic (sat c e (prop_tree a) ρ s)) as [Ha|Ha]; [by left|right].
    intros π Hpath H0. destruct (H π Hpath H0) as [Hl|Hl]; [|done]. destruct Ha.
    rewrite <-H0. by apply (sat_prop a ρ π 0 Hp).
  - intros [Ha|Hb] π Hpath H0; [left|right; by apply Hb]. apply (sat_prop a ρ π 0 Hp). by rewrite H0.
Qed.

Lemma all_paths_or_comm a b s : all_paths (LOr a b) s ↔ all_paths (LOr b a) s.
Proof using Type. split; intros H π Hp H0; destruct (H π Hp H0); [by right|by left|by right|by left]. Qed.

Lemma all_paths_next a s : all_paths (LNext a) s ↔ ∀ s', edge s s' → all_paths a s'.
Proof using Type.
  split.
  - intros H s' Hs π Hp <-. apply (trace_cons s), H; [by apply path_cons|done].
  - intros H π Hp H0. apply (all_paths_at a π 1 Hp), H. rewrite <-H0. apply Hp.
Qed.

Lemma all_paths_always a s :
  all_paths (LAlways a) s ↔
  ∃ X : nat → Prop, (∀ u, u < state_count c → X u → all_paths a u ∧ ∀ s', edge u s' → X s') ∧ X s.
Proof using Hok.
  split.
  - intros H. exists (all_paths (LAlways a)). split; [|done]. intros u _ Hu. split.
    + intros π Hp H0. apply (Hu π Hp H0). lia.
    + intros s' Hs' π Hp <- j _. pose proof (Hu _ (path_cons u π Hs' Hp) eq_refl (S j) ltac:(lia)) as Hj.
      by apply (ltl_suffix (trace (cons_path u π)) (trace π) a (S j) j).
  - intros (X & HX & Hs) π Hp H0 j _. apply all_paths_at; [done|].
    assert (Hj : ∀ j, X (π j)).
    { intros i. induction i as [|i IH]; [by rewrite H0|]. apply (HX (π i)); [by apply path_bound|done|apply Hp]. }
    apply HX; [by apply path_bound|done].
Qed.

(** ** Fixpoints of the translation *)

Lemma prop_means f ρ : is_propositional f = true → means (prop_tree f) (sat c e (prop_tree f) ρ).
Proof using Type. intros Hp ρ' u _. by rewrite (sat_prop f ρ' (λ _, u) 0 Hp), (sat_prop f ρ (λ _, u) 0 Hp). Qed.

Lemma least_until tp tq P Q n ρ s : means tp P → means tq Q →
  sat c e (TFix Least n (TOr tq (TAnd tp (all_next (TVar n))))) ρ s ↔ ∀ X, pre_fixed P Q X → X s.
Proof using Type.
  intros HP HQ. cbn [sat]. split; intros H X HX; apply H.
  - intros u Hu HS. apply HX; [done|]. rewrite sat_next_var, (HP _ u Hu), (HQ _ u Hu) in HS. exact HS.
  - intros u Hu HS. apply HX; [done|]. rewrite sat_next_var, (HP _ u Hu), (HQ _ u Hu). exact HS.
Qed.

Lemma least_eventually tq Q n ρ s : means tq Q →
  sat c e (TFix Least n (TOr tq (all_next (TVar n)))) ρ s ↔ ∀ X, pre_fixed (λ _, True) Q X → X s.
Proof using Type.
  intros HQ. cbn [sat]. split; intros H X HX; apply H.
  - intros u Hu HS. apply HX; [done|]. rewrite sat_next_var, (HQ _ u Hu) in HS. tauto.
  - intros u Hu HS. apply HX; [done|]. rewrite sat_next_var, (HQ _ u Hu). tauto.
Qed.

Lemma greatest_weak tp tq P Q n ρ s : means tp P → means tq Q →
  sat c e (TFix Greatest n (TAnd (TOr tq tp) (TOr tq (box (TVar n))))) ρ s ↔ ∃ X, post_fixed P Q X ∧ X s.
Proof using Type.
  intros HP HQ. cbn [sat]. split; intros (X & HX & Hs); exists X; (split; [|done]); intros u Hu Hxu;
    specialize (HX u Hu Hxu); rewrite sat_box_var, (HP _ u Hu), !(HQ _ u Hu) in *; exact HX.
Qed.

Lemma propositional_tree f n : is_propositional f = true → universal_tree f n = Some (prop_tree f, n).
Proof using Type. intros Hp. destruct f; cbn [universal_tree]; rewrite ?Hp; done. Qed.

(** The tree of a formula of the fragment holds where every path satisfies it,
    whatever the variables outside are bound to. *)
Lemma tree_paths f : ∀ n t m, universal_tree f n = Some (t, m) →
  ∀ ρ s, s < state_count c → sat c e t ρ s ↔ all_paths f s.
Proof using Hok Htot.
  induction f as [| |p|a IHa|a IHa b IHb|a IHa b IHb|a IHa b IHb|a IHa|a IHa|a IHa|a IHa b IHb|a IHa b IHb
    |a IHa b IHb|a IHa|a IHa|a IHa b IHb]; intros n t m;
    match goal with |- universal_tree ?g _ = _ → _ =>
      destruct (is_propositional g) eqn:Hp;
      [rewrite (propositional_tree g n Hp); intros [= <- <-] ρ s Hs; by apply (prop_all_paths g)|] end;
    try done; cbn [universal_tree]; rewrite ?Hp; try done; clear Hp.
  - destruct (universal_tree a n) as [[ta n1]|] eqn:Ea; simpl; [|done].
    destruct (universal_tree b n1) as [[tb n2]|] eqn:Eb; simpl; [|done]. intros [= <- <-] ρ s Hs.
    rewrite all_paths_and. simpl. by rewrite (IHa _ _ _ Ea), (IHb _ _ _ Eb).
  - destruct (is_propositional a) eqn:Hpa.
    { destruct (universal_tree b n) as [[tb n2]|] eqn:Eb; simpl; [|done]. intros [= <- <-] ρ s Hs.
      rewrite (all_paths_or a b ρ) by done. simpl. by rewrite (IHb _ _ _ Eb). }
    destruct (is_propositional b) eqn:Hpb; [|done].
    destruct (universal_tree a n) as [[ta n2]|] eqn:Ea; simpl; [|done]. intros [= <- <-] ρ s Hs.
    rewrite all_paths_or_comm, (all_paths_or b a ρ) by done. simpl. rewrite (IHa _ _ _ Ea) by done. tauto.
  - destruct (universal_tree a n) as [[ta n2]|] eqn:Ea; simpl; [|done]. intros [= <- <-] ρ s Hs.
    rewrite all_paths_next, sat_box.
    split; intros H s' Hs'; apply (IHa _ _ _ Ea ρ s' (proj2 (edge_bound c Hok _ _ Hs'))), H, Hs'.
  - destruct (universal_tree a (S n)) as [[ta n2]|] eqn:Ea; simpl; [|done]. intros [= <- <-] ρ s Hs.
    rewrite all_paths_always. exact (greatest_always c e ta (all_paths a) n ρ s (IHa _ _ _ Ea)).
  - destruct (is_propositional a) eqn:Hpa; [|done]. intros [= <- <-] ρ s Hs.
    rewrite (least_eventually _ _ n ρ s (prop_means a ρ Hpa)), until_paths by done.
    apply forall_paths. intros π. split.
    + intros (j & ? & Hj & _). exists j. split; [done|]. by apply (sat_prop a ρ π j Hpa).
    + intros (j & ? & Hj). exists j. split_and!; [done| |done]. by apply (sat_prop a ρ π j Hpa).
  - destruct (is_propositional a) eqn:Hpa; [|done]. destruct (is_propositional b) eqn:Hpb; [|done].
    intros [= <- <-] ρ s Hs. simpl.
    rewrite (least_until _ _ _ _ n ρ s (prop_means a ρ Hpa) (prop_means b ρ Hpb)), until_paths by done.
    apply forall_paths. intros π. apply until_iff; intros k; by apply sat_prop.
  - destruct (is_propositional a) eqn:Hpa; [|done]. destruct (is_propositional b) eqn:Hpb; [|done].
    intros [= <- <-] ρ s Hs. simpl.
    rewrite (greatest_weak _ _ _ _ n ρ s (prop_means a ρ Hpa) (prop_means b ρ Hpb)), weak_paths by done.
    apply forall_paths. intros π. apply weak_iff; intros k; by apply sat_prop.
Qed.
End total.
End paths.

(** ** The fragment *)

(** The formulas in negation normal form the translation accepts. *)
Fixpoint in_fragment (f : LtlFormula) : bool :=
  is_propositional f ||
  match f with
  | LAnd x y => in_fragment x && in_fragment y
  | LOr x y => if is_propositional x then in_fragment y else is_propositional y && in_fragment x
  | LNext a | LAlways a => in_fragment a
  | LEventually a => is_propositional a
  | LUntil l r | LWeakUntil l r => is_propositional l && is_propositional r
  | _ => false
  end.

Definition positive (t : Tree) : Prop :=
  (∀ v, occurs_only true v t = true) ∧ monotone t = true ∧ modalities_good verification_guard t.

Lemma prop_positive f :
  (∀ v pol, occurs_only pol v (prop_tree f) = true) ∧ monotone (prop_tree f) = true
  ∧ modalities_good verification_guard (prop_tree f).
Proof.
  induction f as [| |p|a IHa|a IHa b IHb|a IHa b IHb|a IHa b IHb| | | | | | | | |]; simpl; try done.
  1: destruct IHa as (A1 & A2 & A3); split_and!; [intros v pol; apply A1|done..].
  all: destruct IHa as (A1 & A2 & A3), IHb as (B1 & B2 & B3).
  all: split_and!; [intros v pol; by rewrite A1, B1|by rewrite A2, B2|done..].
Qed.

Lemma positive_prop f : positive (prop_tree f).
Proof. destruct (prop_positive f) as (H1 & H2 & H3). split; [intros v; apply H1|done]. Qed.

Lemma positive_and a b : positive a → positive b → positive (TAnd a b).
Proof.
  intros (A1 & A2 & A3) (B1 & B2 & B3). split_and!; simpl;
    [intros v; by rewrite A1, B1|by rewrite A2, B2|done].
Qed.

Lemma positive_or a b : positive a → positive b → positive (TOr a b).
Proof.
  intros (A1 & A2 & A3) (B1 & B2 & B3). split_and!; simpl;
    [intros v; by rewrite A1, B1|by rewrite A2, B2|done].
Qed.

Lemma positive_box t : positive t → positive (box t).
Proof. by intros (H1 & H2 & H3). Qed.

Lemma positive_fix k v t : positive t → positive (TFix k v t).
Proof. intros (H1 & H2 & H3). split_and!; simpl; [intros w; rewrite H1; by case_match|by rewrite H1, H2|done]. Qed.

Lemma positive_next v : positive (all_next (TVar v)).
Proof. done. Qed.

#[export] Hint Resolve positive_prop positive_and positive_or positive_box positive_fix positive_next : ltl.

(** The translation has a tree exactly on the fragment, and its variables occur
    positively. *)
Lemma universal_tree_fragment f : ∀ n,
  match universal_tree f n with
  | Some (t, _) => in_fragment f = true ∧ positive t
  | None => in_fragment f = false
  end.
Proof.
  induction f as [| |p|a IHa|a IHa b IHb|a IHa b IHb|a IHa b IHb|a IHa|a IHa|a IHa|a IHa b IHb|a IHa b IHb
    |a IHa b IHb|a IHa|a IHa|a IHa b IHb]; intros n;
    match goal with |- context [universal_tree ?g _] =>
      destruct (is_propositional g) eqn:Hp;
      [rewrite (propositional_tree g n Hp); split; [by destruct g; simpl in *; rewrite ?Hp|apply positive_prop]|]
    end; cbn [universal_tree in_fragment]; rewrite ?Hp; try done; clear Hp; simpl.
  - specialize (IHa n). destruct (universal_tree a n) as [[ta n1]|]; simpl; [|by rewrite IHa].
    specialize (IHb n1). destruct (universal_tree b n1) as [[tb n2]|]; simpl; destruct IHa as [-> ?]; [|done].
    destruct IHb as [-> ?]. auto with ltl.
  - destruct (is_propositional a) eqn:Hpa.
    + specialize (IHb n). destruct (universal_tree b n) as [[tb n2]|]; simpl; [|done].
      destruct IHb as [-> ?]. auto with ltl.
    + destruct (is_propositional b); [|done]. specialize (IHa n).
      destruct (universal_tree a n) as [[ta n2]|]; simpl; [|done]. destruct IHa as [-> ?]. auto with ltl.
  - specialize (IHa n). destruct (universal_tree a n) as [[ta n2]|]; simpl; [|done].
    destruct IHa as [-> ?]. auto with ltl.
  - specialize (IHa (S n)). destruct (universal_tree a (S n)) as [[ta n2]|]; simpl; [|done].
    destruct IHa as [-> ?]. split; [done|]. apply positive_fix, positive_and; [done|by repeat split].
  - destruct (is_propositional a); [|done]. auto with ltl.
  - destruct (is_propositional a), (is_propositional b); simpl; auto 6 with ltl.
  - destruct (is_propositional a), (is_propositional b); simpl; try done.
    split; [done|]. apply positive_fix, positive_and; apply positive_or; auto with ltl. by repeat split.
Qed.

Lemma nnf_predicates P f : ∀ neg, all_predicates P f → all_predicates P (ltl_nnf f neg).
Proof.
  induction f; intros [|]; simpl; intuition eauto.
Qed.

Lemma nnf_all_paths c e f s : all_paths c e (ltl_nnf f false) s ↔ all_paths c e f s.
Proof. apply forall_paths. intros π. apply nnf_sat. Qed.

(** * Properties *)

(** C8: temporal formulas are model checked over every path. For a formula whose
    predicates the formula parser reads back and whose translation nests at most
    256 deep: outside the fragment it is refused with a message; inside, the
    translation returns a formula, and the model checker run on it puts a state
    of a system without deadlocks in its answer exactly when every infinite path
    from the state satisfies the temporal formula. *)
Theorem translate_universal_correct {U : Unicode} rounds f c e o :
  let x := mk_ctx c e o in
  ctx_ok x → oob_free x → plain c → keys_faithful c → prior_approximants o = None → total c →
  2 * state_count c < rounds →
  all_predicates good_predicate f → nesting (ltl_nnf f false) ≤ MAX_PARSE_DEPTH →
  if in_fragment (ltl_nnf f false) then
    ∃ φ, translate_universal f = Some (inr φ) ∧
    ∃ v, evaluate_with_options rounds φ c e o = Some v ∧
      ∀ s, s < state_count c → bit v s = true ↔ ∀ π, path c π → π 0 = s → ltl_sat (trace c e π) f 0
  else ∃ message, translate_universal f = Some (inl (Outside message)).
Proof.
  intros x Hx Ho Hp Hk Hprior Htot Hr Hg Hn. unfold translate_universal, translate_universal_fair.
  pose proof (universal_derives (ltl_nnf f false) 0 (nnf_predicates _ f false Hg)) as Hu.
  pose proof (universal_tree_fragment (ltl_nnf f false) 0) as Hf. unfold universal_outcome in Hu.
  destruct (universal_tree (ltl_nnf f false) 0) as [[t m]|] eqn:Et.
  2:{ rewrite Hf. destruct Hu as (msg & ->). by eexists. }
  destruct Hf as [-> (_ & Hm & Hgood)], Hu as (txt & -> & sx & Hd & Hs).
  destruct (Hs [] ltac:(constructor)) as [Hc Hres].
  destruct (parse_derives txt sx (nesting (ltl_nnf f false))) as (φ & p & -> & [Hwf Ht _ _]);
    [by apply derives_up|done..|].
  rewrite Hres in Ht. exists φ. split; [done|].
  destruct (evaluate_sat x rounds φ t Hx Ho Hp Hk Hprior Hwf Ht Hm Hgood Hr) as (v & Ev & Hv).
  exists v. split; [done|]. intros s Hsb. rewrite (Hv s Hsb).
  etransitivity; [by apply (tree_paths c e (cok_clts x Hx) Htot _ _ _ _ Et)|apply nnf_all_paths].
Qed.

(** ** Where the translation goes wrong *)

Definition never_env : EvalEnvironment :=
  {| env_state_count := 2; predicates := {["G1" := [false; false]]} |}.

(** A predicate named like a variable of the translation is captured: [G G1]
    becomes [nu G1. (G1 && [] G1)], which holds everywhere, also where [G1] does
    not. *)
Theorem captured_predicate :
  ∃ φ, translate_universal (U := ascii_only) (LAlways (LPredicate "G1")) = Some (inr φ) ∧
  evaluate_with_options 9 φ demo_clts never_env EvaluationOptions_default = Some [true; true] ∧
  ∀ π, ¬ ltl_sat (trace demo_clts never_env π) (LAlways (LPredicate "G1")) 0.
Proof.
  eexists. split_and!; [vm_compute; reflexivity..|].
  intros π H. specialize (H 0 ltac:(lia)). simpl in H. unfold trace, atomb in H.
  change (predicate never_env "G1") with (Some [false; false]) in H. simpl in H.
  destruct (π 0) as [|[|n]]; try done.
Qed.

(** Names the temporal parser takes for predicates and the formula parser for
    its constants and keywords, whatever their case: [TRUE] holds everywhere,
    and [not], [mu] end in an internal error. *)
Theorem keyword_predicates :
  (∃ φ, translate_universal (U := ascii_only) (LPredicate "TRUE") = Some (inr φ) ∧ nodes φ = [NTrue]) ∧
  (∃ e, translate_universal (U := ascii_only) (LAnd (LPredicate "not") (LPredicate "q"))
    = Some (inl (Internal "(not && q)" e))) ∧
  ∃ e, translate_universal (U := ascii_only) (LPredicate "mu") = Some (inl (Internal "mu" e)).
Proof. split_and!; eexists; try split; vm_compute; reflexivity. Qed.

(** In a state without successors [X p] and [X !p] both hold, and so does
    [!(X p)]: [F] and [U] ask for a successor, [X] does not. *)
Theorem next_in_deadlock :
  let verdict f := match translate_universal (U := ascii_only) f with
    | Some (inr φ) => (λ v, bit v 1) <$> evaluate_with_options 9 φ fair_fork p_env EvaluationOptions_default
    | _ => None end in
  outgoing fair_fork 1 = [] ∧
  verdict (LNext (LPredicate "p")) = Some true ∧
  verdict (LNext (LNot (LPredicate "p"))) = Some true ∧
  verdict (LNot (LNext (LPredicate "p"))) = Some true.
Proof. vm_compute. split_and!; reflexivity. Qed.

(** ** Witness *)

Lemma demo_total : total demo_clts.
Proof. intros [|[|s]] Hs; [vm_compute in *; done|vm_compute in *; done|vm_compute in Hs; lia]. Qed.

(** Names of one letter are no variables of the translation. *)
Lemma good_p : good_predicate "p".
Proof.
  exists (SAtom "p"). split; [by constructor|]. intros (ch & k & Hc & E).
  repeat (apply elem_of_cons in Hc as [->|Hc]; [done|]). by apply elem_of_nil in Hc.
Qed.

(** [G (p -> F !p)]: every path leaves [p] again. *)
Lemma translate_universal_correct_witness :
  let f := LResponse (LPredicate "p") (LNot (LPredicate "p")) in
  ∃ φ, translate_universal (U := ascii_only) f = Some (inr φ) ∧
  ∃ v, evaluate_with_options 9 φ demo_clts demo_env EvaluationOptions_default = Some v ∧
    ∀ s, s < state_count demo_clts →
      bit v s = true ↔ ∀ π, path demo_clts π → π 0 = s → ltl_sat (trace demo_clts demo_env π) f 0.
Proof.
  apply (translate_universal_correct (U := ascii_only) 9
    (LResponse (LPredicate "p") (LNot (LPredicate "p"))) demo_clts demo_env EvaluationOptions_default).
  - apply demo_ctx_ok.
  - apply demo_oob_free.
  - apply demo_plain.
  - apply demo_keys.
  - reflexivity.
  - apply demo_total.
  - vm_compute. lia.
  - split; apply good_p.
  - unfold MAX_PARSE_DEPTH. vm_compute. lia.
Defined.
