(* ===== verification/ParityGame.v ===== *)
(** Parity games and Zielonka's solver: the data and [solve] of
    [mu_calculus/parity_game.rs].

    [solve_correct] is the theorem of the file: on every total game the solver
    returns, and it decides the game with positional strategies for both
    players.  A play is won by a player when no priority of the opponent's
    parity is seen infinitely often and bounds the priorities from some point
    on; for the bounded priorities of a game this is the usual condition on the
    highest priority seen infinitely often ([won_exclusive]).

    Indexing: the vectors of a [ParityGame] have one entry per position and the
    edges stay in range ([game_total]), so the reads of the solver never panic
    there; [owner], [priority] and [successors] read them with a default. *)
From S2P Require Import Prelude Formula.

(** ** Data *)

Record Position := { p_state : nat; p_node : NodeId }.
Inductive Player := Eve | Adam.

#[export] Instance Position_eq_dec : EqDecision Position.
Proof. solve_decision. Defined.
#[export] Instance Position_countable : Countable Position.
Proof.
  refine (inj_countable' (λ p, (p_state p, p_node p)) (λ x, {| p_state := x.1; p_node := x.2 |}) _).
  by intros [].
Defined.
#[export] Instance Player_eq_dec : EqDecision Player.
Proof. solve_decision. Defined.

Record ParityGame := {
  positions : list Position;
  position_idx : gmap Position nat;
  owners : list Player;
  priorities : list nat;
  edges : list (list nat);
  terminal_eve_wins : list bool;
  terminals : gset nat;
  g_formula : Formula
}.

Record ParitySolution := { winner : list Player; eve_strategy : list (option nat) }.

Definition game_len (g : ParityGame) : nat := length (positions g).

Definition owner (g : ParityGame) (i : nat) : Player := default Eve (owners g !! i).
Definition priority (g : ParityGame) (i : nat) : nat := default 0 (priorities g !! i).
Definition successors (g : ParityGame) (i : nat) : list nat := default [] (edges g !! i).

Definition opponent (p : Player) : Player := match p with Eve => Adam | Adam => Eve end.
Definition favoured (prio : nat) : Player := if Nat.even prio then Eve else Adam.

(** ** [compute_attractor] *)

Definition in_attr (g : ParityGame) (universe snapshot : list bool) (player : Player) (i : nat) : bool :=
  let succs_in_universe := List.filter (bit universe) (successors g i) in
  if decide (owner g i = player)
  then existsb (bit snapshot) succs_in_universe
  else negb (null succs_in_universe) && forallb (bit snapshot) succs_in_universe.

(** The positions a round adds. *)
Definition attracted (g : ParityGame) (universe snapshot : list bool) (player : Player) (i : nat) : bool :=
  bit universe i && negb (bit snapshot i) && in_attr g universe snapshot player i.

Definition attract_round (g : ParityGame) (universe attr : list bool) (player : Player)
    : list bool * bool :=
  (bv_tabulate (game_len g) (λ i, bit attr i || attracted g universe attr player i),
   existsb (attracted g universe attr player) (seq 0 (game_len g))).

(** [while changed]; [None] when the rounds are used up. *)
Fixpoint attract_loop (rounds : nat) (g : ParityGame) (universe attr : list bool) (player : Player)
    : option (list bool) :=
  match rounds with
  | O => None
  | S r =>
    let '(attr', changed) := attract_round g universe attr player in
    if (changed : bool) then attract_loop r g universe attr' player else Some attr'
  end.

Definition compute_attractor (g : ParityGame) (universe target : list bool) (player : Player)
    : option (list bool) :=
  attract_loop (S (game_len g)) g universe
    (bv_tabulate (game_len g) (λ i, bit target i && bit universe i)) player.

(** ** [solve_subgame] *)

(** The scan for the highest priority and its positions. *)
Definition scan_priority (g : ParityGame) (universe : list bool) (acc : nat * list bool) (i : nat)
    : nat * list bool :=
  if bit universe i then
    match priority g i ?= acc.1 with
    | Gt => (priority g i, bv_set (bv_fill (game_len g) false) i true)
    | Eq => (acc.1, bv_set acc.2 i true)
    | Lt => acc
    end
  else acc.

Definition max_priority (g : ParityGame) (universe : list bool) : nat * list bool :=
  foldl (scan_priority g universe) (0, bv_fill (game_len g) false) (seq 0 (game_len g)).

(** [universe] without [attr]. *)
Definition without (g : ParityGame) (universe attr : list bool) : list bool :=
  bv_tabulate (game_len g) (λ i, bit universe i && negb (bit attr i)).

Definition verdict (res : list (option Player)) (i : nat) : option Player := mjoin (res !! i).

Definition won_by (g : ParityGame) (res : list (option Player)) (p : Player) : list bool :=
  bv_tabulate (game_len g) (λ i, bool_decide (verdict res i = Some p)).

Definition tabulate_result (g : ParityGame) (f : nat → option Player) : list (option Player) :=
  map f (seq 0 (game_len g)).

Fixpoint solve_subgame (fuel : nat) (g : ParityGame) (universe : list bool)
    : option (list (option Player)) :=
  match fuel with
  | O => None
  | S k =>
    if negb (bv_any universe) then Some (tabulate_result g (λ _, None))
    else
      let '(max_prio, max_prio_set) := max_priority g universe in
      let player := favoured max_prio in
      let* attr_self := compute_attractor g universe max_prio_set player in
      let* sub_result := solve_subgame k g (without g universe attr_self) in
      let opp_wins := won_by g sub_result (opponent player) in
      if negb (bv_any opp_wins) then
        Some (tabulate_result g (λ i, if bit universe i then Some player else None))
      else
        let* attr_opp := compute_attractor g universe opp_wins (opponent player) in
        let* sub_result2 := solve_subgame k g (without g universe attr_opp) in
        Some (tabulate_result g (λ i,
          if bit attr_opp i then Some (opponent player) else verdict sub_result2 i))
  end.

(** ** [solve] *)

Definition final_winner (g : ParityGame) (active : list (option Player)) (i : nat) : Player :=
  match verdict active i with
  | Some p => p
  | None =>
    if decide (i ∈ terminals g)
    then if bit (terminal_eve_wins g) i then Eve else Adam
    else Adam
  end.

Definition eve_strategy_for_region (g : ParityGame) (eve_winning : list bool) (i : nat) : option nat :=
  if bit eve_winning i && bool_decide (owner g i = Eve)
  then List.find (bit eve_winning) (successors g i)
  else None.

Definition solve (g : ParityGame) : option ParitySolution :=
  let n := game_len g in
  let* active := solve_subgame (S n) g (bv_fill n true) in
  let winner := map (final_winner g active) (seq 0 n) in
  let eve_winning := map (λ p, bool_decide (p = Eve)) winner in
  Some {| winner := winner; eve_strategy := map (eve_strategy_for_region g eve_winning) (seq 0 n) |}.

(** ** Plays *)

(** One entry per position, edges in range, no dead end. *)
Record game_total (g : ParityGame) : Prop := {
  gt_owners : length (owners g) = game_len g;
  gt_priorities : length (priorities g) = game_len g;
  gt_edges : length (edges g) = game_len g;
  gt_range : ∀ i s, s ∈ successors g i → s < game_len g;
  gt_total : ∀ i, i < game_len g → successors g i ≠ []
}.

(** A play of the subgame [U] in which [p] follows the positional strategy [σ]. *)
Definition play_in (g : ParityGame) (U : list bool) (p : Player) (σ π : nat → nat) : Prop :=
  ∀ n, bit U (π n) = true ∧ π (S n) ∈ successors g (π n) ∧ (owner g (π n) = p → π (S n) = σ (π n)).

(** From no point on does the play avoid priority [q]. *)
Definition recurs (g : ParityGame) (π : nat → nat) (q : nat) : Prop :=
  ∀ M, ¬ ∀ m, M ≤ m → priority g (π m) ≠ q.

(** The play is lost for [p]: some priority of the opponent recurs and is the
    highest from some point on. *)
Definition lost (g : ParityGame) (p : Player) (π : nat → nat) : Prop :=
  ∃ q N, favoured q = opponent p ∧ recurs g π q ∧ ∀ m, N ≤ m → priority g (π m) ≤ q.

Definition won (g : ParityGame) (p : Player) (π : nat → nat) : Prop := ¬ lost g p π.

(** [σ] wins for [p] from every position of [W], inside the subgame [U]. *)
Record wins (g : ParityGame) (U : list bool) (p : Player) (W : nat → Prop) (σ : nat → nat) : Prop := {
  wi_sub : ∀ i, W i → bit U i = true;
  wi_own : ∀ i, W i → owner g i = p → σ i ∈ successors g i ∧ W (σ i);
  wi_opp : ∀ i s, W i → owner g i ≠ p → s ∈ successors g i → bit U s = true → W s;
  wi_won : ∀ π, play_in g U p σ π → W (π 0) → won g p π
}.

Lemma opponent_ne p : opponent p ≠ p.
Proof. by destruct p. Qed.
Lemma opponent_involutive p : opponent (opponent p) = p.
Proof. by destruct p. Qed.
Lemma player_cases p q : q = p ∨ q = opponent p.
Proof. destruct p, q; auto. Qed.

(** ** Infinite plays *)

Section plays.
Context (g : ParityGame).

(** A lost play is lost from any point on. *)
Lemma lost_from p π k : lost g p π → lost g p (λ n, π (n + k)).
Proof.
  intros (q & N & Hq & Hrec & Hub). exists q, N. split_and!; [done| |].
  - intros M Hne. apply (Hrec (M + k)). intros j Hj. specialize (Hne (j - k) ltac:(lia)).
    simpl in Hne. by replace (j - k + k) with j in Hne by lia.
  - intros j Hj. apply Hub. lia.
Qed.

Lemma play_suffix U p σ π k : play_in g U p σ π → play_in g U p σ (λ n, π (n + k)).
Proof. intros H n. apply (H (n + k)). Qed.

(** A play of a bounded game is not won by both players. *)
Lemma won_exclusive_below B π :
  (∃ N, ∀ m, N ≤ m → priority g (π m) ≤ B) → won g Eve π → won g Adam π → False.
Proof.
  intros HB He Ha. induction B as [|B IH]; destruct HB as [N HB].
  - apply Ha. exists 0, N. split_and!; [done| |done].
    intros M Hne. apply (Hne (M + N)); [lia|]. specialize (HB (M + N) ltac:(lia)). lia.
  - assert (Hinf : ¬ recurs g π (S B)).
    { intros Hinf. destruct (favoured (S B)) eqn:E; [apply Ha|apply He]; by exists (S B), N. }
    apply Hinf. intros M Hne. apply IH. exists (M + N). intros m Hm.
    specialize (Hne m ltac:(lia)). specialize (HB m ltac:(lia)). lia.
Qed.

Lemma priority_bound i : priority g i ≤ max_list (priorities g).
Proof.
  unfold priority. destruct (priorities g !! i) as [q|] eqn:E; simpl; [|lia].
  by apply max_list_elem_of_le, list_elem_of_lookup_2 with i.
Qed.

Lemma won_exclusive p π : won g p π → ¬ won g (opponent p) π.
Proof.
  intros H1 H2. apply (won_exclusive_below (max_list (priorities g)) π); destruct p; try done;
    exists 0; intros m _; apply priority_bound.
Qed.
End plays.

(** ** The attractor *)

Section attractor.
Context (g : ParityGame) (U T : list bool) (p : Player).
Let n := game_len g.

(** Every position of [A] is in [T] or is moved towards it, in steps that
    decrease [rank]. *)
Definition ranked (A : list bool) (rank : nat → nat) : Prop :=
  ∀ i, bit A i = true → bit U i = true ∧ (bit T i = true ∨
    if decide (owner g i = p)
    then ∃ s, s ∈ successors g i ∧ bit U s = true ∧ bit A s = true ∧ rank s < rank i
    else ∀ s, s ∈ successors g i → bit U s = true → bit A s = true ∧ rank s < rank i).

(** Nothing outside [A] can be moved into it. *)
Definition closed (A : list bool) : Prop :=
  ∀ i, bit U i = true → bit A i = false →
    if decide (owner g i = p)
    then ∀ s, s ∈ successors g i → bit U s = true → bit A s = false
    else (∃ s, s ∈ successors g i ∧ bit U s = true) →
         ∃ s, s ∈ successors g i ∧ bit U s = true ∧ bit A s = false.

Lemma bit_lt_length A i : length A = n → bit A i = true → i < n.
Proof using Type. intros <-. apply bit_lt. Qed.

Lemma attracted_sound A rank k i :
  ranked A rank → (∀ j, bit A j = true → rank j ≤ k) → attracted g U A p i = true →
  let rank' := λ j, if bit A j then rank j else S k in
  bit U i = true ∧
  if decide (owner g i = p)
  then ∃ s, s ∈ successors g i ∧ bit U s = true ∧ bit A s = true ∧ rank' s < rank' i
  else ∀ s, s ∈ successors g i → bit U s = true → bit A s = true ∧ rank' s < rank' i.
Proof using Type.
  intros Hr Hk [[Hu Hn%negb_true_iff]%andb_true_iff Ha]%andb_true_iff rank'. split; [done|].
  assert (Hlt : ∀ s, bit A s = true → rank' s < rank' i).
  { intros s Hs. unfold rank'. rewrite Hs, Hn. specialize (Hk s Hs). lia. }
  unfold in_attr in Ha. destruct (decide (owner g i = p)).
  - apply existsb_spec in Ha as (s & [Hs Hus]%elem_of_filterb & HA). exists s. auto.
  - apply andb_true_iff in Ha as [_ Ha]. rewrite forallb_spec in Ha. intros s Hs Hus.
    assert (HA : bit A s = true) by (apply Ha, elem_of_filterb; done). auto.
Qed.

Lemma bit_attract_round A i :
  length A = n → length U = n →
  bit (attract_round g U A p).1 i = true ↔ bit A i = true ∨ attracted g U A p i = true.
Proof using Type.
  intros HA HU. simpl. fold n. destruct (decide (i < n)) as [Hi|Hi].
  - by rewrite bit_tabulate, orb_true_iff.
  - split; [intros H; apply bit_lt in H; rewrite length_bv_tabulate in H; lia|].
    intros [H|H]; [apply bit_lt in H; lia|].
    apply andb_true_iff in H as [[H _]%andb_true_iff _]. apply bit_lt in H. lia.
Qed.

Lemma round_ranked A rank k :
  length A = n → length U = n → ranked A rank → (∀ j, bit A j = true → rank j ≤ k) →
  let rank' := λ j, if bit A j then rank j else S k in
  ranked (attract_round g U A p).1 rank' ∧ ∀ j, rank' j ≤ S k.
Proof using Type.
  intros HlA HlU Hr Hk rank'. set (A' := (attract_round g U A p).1).
  assert (Hsub : bv_sub A A') by (intros i Hi; apply bit_attract_round; auto).
  split; [|intros j; unfold rank'; destruct (bit A j) eqn:E; [|done]; specialize (Hk j E); lia].
  assert (Hrank : ∀ i, bit A i = true → rank' i = rank i) by (intros i Hi; unfold rank'; by rewrite Hi).
  intros i [Hi|Hi]%bit_attract_round; [| |done..].
  - destruct (Hr i Hi) as [Hu [Ht|H]]; split; [done|by left|done|right]. rewrite (Hrank i Hi).
    destruct (decide (owner g i = p)).
    + destruct H as (s & ? & ? & Hs & Hlt). exists s. rewrite (Hrank s Hs). auto.
    + intros s Hs Hus. destruct (H s Hs Hus) as [HAs Hlt]. rewrite (Hrank s HAs). auto.
  - destruct (attracted_sound A rank k i Hr Hk Hi) as [Hu H]. fold rank' in H. split; [done|right].
    destruct (decide (owner g i = p)).
    + destruct H as (s & ? & ? & Hs & ?). exists s. auto.
    + intros s Hs Hus. destruct (H s Hs Hus). auto.
Qed.

Lemma stable_closed A : (∀ i, attracted g U A p i = false) → closed A.
Proof using Type.
  intros Hst i Hu Hi. specialize (Hst i). unfold attracted, in_attr in Hst.
  rewrite Hu, Hi in Hst. simpl in Hst. destruct (decide (owner g i = p)).
  - intros s Hs Hus. apply not_true_iff_false. intros Hs'.
    enough (existsb (bit A) (List.filter (bit U) (successors g i)) = true) by congruence.
    apply existsb_spec. exists s. by rewrite elem_of_filterb.
  - intros (s & Hs & Hus). apply andb_false_iff in Hst as [Hst|Hst].
    + assert (Hin : s ∈ List.filter (bit U) (successors g i)) by (by apply elem_of_filterb).
      destruct (List.filter _ _); [by apply not_elem_of_nil in Hin|done].
    + assert (Hd : ¬ Forall (λ s, bit A s = true) (List.filter (bit U) (successors g i))).
      { rewrite Forall_forall, <-forallb_spec. congruence. }
      apply not_Forall_Exists, Exists_exists in Hd; [|intros ?; apply _].
      destruct Hd as (s' & [Hs' Hus']%elem_of_filterb & Hb). exists s'.
      by apply not_true_iff_false in Hb.
Qed.

Lemma attract_loop_spec rounds A rank k :
  length A = n → length U = n → ranked A rank → (∀ j, bit A j = true → rank j ≤ k) →
  n < rounds + bv_count A →
  ∃ A' rank', attract_loop rounds g U A p = Some A' ∧ length A' = n ∧
    ranked A' rank' ∧ closed A' ∧ bv_sub A A'.
Proof using Type.
  intros HlA HlU. revert A HlA rank k. induction rounds as [|r IH]; intros A HlA rank k Hr Hk Hn.
  { pose proof (bv_count_le_length A). lia. }
  cbn [attract_loop]. destruct (attract_round g U A p) as [A' changed] eqn:E.
  pose proof (λ i, bit_attract_round A i HlA HlU) as HA'. rewrite E in HA'. simpl in HA'.
  assert (HlA' : length A' = n).
  { unfold attract_round in E. injection E as <- _. apply length_bv_tabulate. }
  assert (Hsub : bv_sub A A') by (intros i Hi; apply HA'; by left).
  assert (Hch : changed = existsb (attracted g U A p) (seq 0 n)) by (by injection E as _ <-).
  destruct changed.
  - destruct (round_ranked A rank k HlA HlU Hr Hk) as [Hr' Hk']. rewrite E in Hr'. simpl in Hr'.
    symmetry in Hch. apply existsb_spec in Hch as (i & _ & Hi).
    assert (Hne : A ≠ A').
    { intros He. assert (Hb : bit A i = true) by (rewrite He; apply HA'; by right).
      unfold attracted in Hi. by rewrite Hb, andb_false_r in Hi. }
    pose proof (bv_count_strict A A' ltac:(congruence) Hsub Hne).
    destruct (IH A' HlA' _ (S k) Hr' ltac:(intros j _; apply Hk') ltac:(lia))
      as (A2 & rank2 & -> & ? & ? & ? & Hs2).
    exists A2, rank2. split_and!; try done. intros j Hj. by apply Hs2, Hsub.
  - assert (Hst : ∀ i, attracted g U A p i = false).
    { intros i. apply not_true_iff_false. intros Hi.
      enough (existsb (attracted g U A p) (seq 0 n) = true) by congruence.
      apply existsb_spec. exists i. split; [|done]. apply elem_of_seq.
      apply andb_true_iff in Hi as [[Hi _]%andb_true_iff _]. apply bit_lt in Hi. lia. }
    assert (HA : ∀ i, bit A i = bit A' i).
    { intros i. apply bool_eq_iff. rewrite HA', Hst. naive_solver. }
    assert (A = A') as <- by (apply bv_eq; [congruence|intros; apply HA]).
    exists A, rank. split_and!; try done. by apply stable_closed.
Qed.

(** The attractor of [T] inside [U]. *)
Record attractor (A : list bool) (rank : nat → nat) : Prop := {
  at_length : length A = n;
  at_ranked : ranked A rank;
  at_closed : closed A;
  at_target : ∀ i, bit T i = true → bit U i = true → bit A i = true
}.

Lemma compute_attractor_spec :
  length U = n → ∃ A rank, compute_attractor g U T p = Some A ∧ attractor A rank.
Proof using Type.
  intros HlU. unfold compute_attractor. fold n. set (A0 := bv_tabulate n _).
  assert (HA0 : ∀ i, i < n → bit A0 i = bit T i && bit U i) by (intros; by apply bit_tabulate).
  assert (Hl : length A0 = n) by apply length_bv_tabulate.
  destruct (attract_loop_spec (S n) A0 (λ _, 0) 0) as (A & rank & -> & ? & ? & ? & Hs);
    [done|done| |done|lia|].
  - intros i Hi. pose proof (bit_lt _ _ Hi) as Hlt. rewrite Hl in Hlt. rewrite HA0 in Hi by done.
    apply andb_true_iff in Hi as [? ?]. auto.
  - exists A, rank. split; [done|]. constructor; try done. intros i Ht Hu. apply Hs.
    pose proof (bit_lt _ _ Hu). rewrite HA0 by congruence. by rewrite Ht, Hu.
Qed.
End attractor.

(** ** Building strategies *)

Section strategies.
Context (g : ParityGame).

(** Every position of the subgame has a move inside it. *)
Definition total_in (U : list bool) : Prop :=
  ∀ i, bit U i = true → ∃ s, s ∈ successors g i ∧ bit U s = true.

(** A play stays in a set its moves keep. *)
Lemma play_stays U p (W : nat → Prop) σ π k :
  play_in g U p σ π → (∀ i, W i → owner g i = p → W (σ i)) →
  (∀ i s, W i → owner g i ≠ p → s ∈ successors g i → bit U s = true → W s) →
  W (π k) → ∀ j, W (π (j + k)).
Proof.
  intros Hplay Hown Hopp Hk j. induction j as [|j IH]; [done|].
  destruct (Hplay (j + k)) as (_ & Hs & Hown'). change (S j + k) with (S (j + k)).
  destruct (decide (owner g (π (j + k)) = p)) as [Ho|Ho].
  - rewrite (Hown' Ho). by apply Hown.
  - apply (Hopp (π (j + k))); [done..|]. apply (Hplay (S (j + k))).
Qed.

Lemma bit_without U A i :
  length U = game_len g → bit (without g U A) i = true ↔ bit U i = true ∧ bit A i = false.
Proof.
  intros Hl. unfold without. destruct (decide (i < game_len g)) as [Hi|Hi].
  - by rewrite bit_tabulate, andb_true_iff, negb_true_iff.
  - split; [intros H|intros [H _]]; apply bit_lt in H; [rewrite length_bv_tabulate in H; lia|lia].
Qed.

Lemma without_total U T p A rank :
  length U = game_len g → attractor g U T p A rank → total_in U → total_in (without g U A).
Proof.
  intros Hl [_ _ Hc _] Ht i [Hu Hi]%bit_without; [|done]. specialize (Hc i Hu Hi).
  destruct (decide (owner g i = p)).
  - destruct (Ht i Hu) as (s & Hs & Hus). exists s. rewrite bit_without by done. auto.
  - destruct (Hc (Ht i Hu)) as (s & ? & ? & ?). exists s. by rewrite bit_without.
Qed.

Definition attr_move (U A : list bool) (rank : nat → nat) (i : nat) : nat :=
  default 0 (List.find (λ s, bit U s && bit A s && (rank s <? rank i)) (successors g i)).

Lemma find_spec (f : nat → bool) l :
  (∃ x, x ∈ l ∧ f x = true) → default 0 (List.find f l) ∈ l ∧ f (default 0 (List.find f l)) = true.
Proof.
  intros (x & Hx & Hf). destruct (List.find f l) as [y|] eqn:E; simpl.
  - apply find_some in E as [? ?]. by rewrite list_elem_of_In.
  - apply list_elem_of_In, (find_none _ _ E) in Hx. congruence.
Qed.

Lemma attr_move_spec U T p A rank i :
  attractor g U T p A rank → bit A i = true → bit T i = false → owner g i = p →
  let s := attr_move U A rank i in
  s ∈ successors g i ∧ bit U s = true ∧ bit A s = true ∧ rank s < rank i.
Proof.
  intros [_ Hr _ _] Hi Ht Ho. destruct (Hr i Hi) as [_ [?|H]]; [congruence|].
  rewrite decide_True in H by done. destruct H as (s & Hs & Hu & HA & Hlt).
  destruct (find_spec (λ s, bit U s && bit A s && (rank s <? rank i)) (successors g i)) as [H1 H2].
  { exists s. rewrite !andb_true_iff, Nat.ltb_lt. auto. }
  rewrite !andb_true_iff, Nat.ltb_lt in H2. unfold attr_move. tauto.
Qed.

(** A play that follows the attractor moves reaches the target. *)
Lemma attr_reaches U T p A rank σ π :
  attractor g U T p A rank → play_in g U p σ π →
  (∀ i, bit A i = true → bit T i = false → σ i = attr_move U A rank i) →
  ∀ k, bit A (π k) = true → ∃ m, k ≤ m ∧ bit T (π m) = true.
Proof.
  intros Hat Hplay Hσ. assert (Hind : ∀ r k, rank (π k) < r → bit A (π k) = true →
    ∃ m, k ≤ m ∧ bit T (π m) = true); [|intros k; apply (Hind (S (rank (π k)))); lia].
  induction r as [|r IH]; intros k Hr HA; [lia|].
  destruct (bit T (π k)) eqn:Ht; [by exists k|].
  destruct (Hplay k) as (_ & Hs & Hown). destruct (Hplay (S k)) as (Hu & _ & _).
  assert (H : bit A (π (S k)) = true ∧ rank (π (S k)) < rank (π k)).
  { destruct (decide (owner g (π k) = p)) as [Ho|Ho].
    - rewrite (Hown Ho), (Hσ _ HA Ht). by apply (attr_move_spec U T p A rank (π k) Hat).
    - destruct (at_ranked _ _ _ _ _ _ Hat _ HA) as [_ [?|H]]; [congruence|].
      rewrite decide_False in H by done. by apply H. }
  destruct H as [HA' Hlt]. destruct (IH (S k)) as (m & ? & ?); [lia|done|]. exists m. split; [lia|done].
Qed.

(** The favoured player of the highest priority, who wins what is outside the
    attractor to it, wins everything. *)
Lemma wins_all U T p A rank d σ' :
  length U = game_len g → total_in U → attractor g U T p A rank → favoured d = p →
  (∀ i, bit U i = true → priority g i ≤ d) →
  (∀ i, bit T i = true ↔ bit U i = true ∧ priority g i = d) →
  wins g (without g U A) p (λ i, bit (without g U A) i = true) σ' →
  ∃ σ, wins g U p (λ i, bit U i = true) σ.
Proof.
  intros Hl Htot Hat Hd Hmax HT Hw. set (U' := without g U A) in *.
  assert (HU' : ∀ i, bit U' i = true ↔ bit U i = true ∧ bit A i = false) by (intros; by apply bit_without).
  set (σ := λ i, if bit U' i then σ' i else if bit T i then default 0 (List.find (bit U) (successors g i))
                 else attr_move U A rank i).
  exists σ. constructor; [done| |done|].
  - intros i Hi Ho. unfold σ. destruct (bit U' i) eqn:E.
    + destruct (wi_own _ _ _ _ _ Hw i E Ho) as [? ?%HU']. tauto.
    + destruct (bit T i) eqn:Ht; [by apply find_spec, Htot|].
      destruct (bit A i) eqn:HA; [|exfalso; apply not_true_iff_false in E; apply E, HU'; auto].
      destruct (attr_move_spec U T p A rank i Hat HA Ht Ho) as (? & ? & _). done.
  - intros π Hplay _ (q & N & Hq & Hrec & Hub).
    assert (Hout : ∀ m, N ≤ m → bit A (π m) = false).
    { intros m Hm. apply not_true_iff_false. intros HA.
      destruct (attr_reaches U T p A rank σ π Hat Hplay) with (k := m) as (m' & Hm' & Ht); [|done|].
      - intros i HiA HiT. unfold σ. rewrite HiT. destruct (bit U' i) eqn:E; [|done].
        apply HU' in E as [_ E]. congruence.
      - apply HT in Ht as [_ Hp]. specialize (Hub m' ltac:(lia)). rewrite Hp in Hub.
        destruct (decide (q = d)) as [->|Hne]; [rewrite Hd in Hq; by apply (opponent_ne p)|].
        apply (Hrec 0). intros k _. specialize (Hmax (π k) (proj1 (Hplay k))). lia. }
    assert (HinU : ∀ m, N ≤ m → bit U' (π m) = true) by (intros; apply HU'; split; [apply Hplay|auto]).
    apply (wi_won _ _ _ _ _ Hw (λ n, π (n + N))).
    + intros n. split_and!; [apply HinU; lia|apply (Hplay (n + N))|]. intros Ho.
      change (π (S n + N)) with (π (S (n + N))). destruct (Hplay (n + N)) as (_ & _ & ->); [|done].
      unfold σ. by rewrite HinU by lia.
    + apply HinU. lia.
    + apply lost_from. by exists q, N.
Qed.

(** The opponent wins the attractor to what they win outside [A]: the positions
    they win there are a trap. *)
Lemma wins_attractor U U' T p B rank σ' :
  attractor g U T p B rank → (∀ i, bit T i = true → bit U' i = true) →
  (∀ i, bit U' i = true → bit U i = true) →
  (∀ i s, bit T i = true → owner g i ≠ p → s ∈ successors g i → bit U s = true → bit U' s = true) →
  wins g U' p (λ i, bit T i = true) σ' →
  ∃ σ, wins g U p (λ i, bit B i = true) σ.
Proof.
  intros Hat HTU' HUU Htrap Hw.
  set (σ := λ i, if bit T i then σ' i else attr_move U B rank i).
  assert (HTB : ∀ i, bit T i = true → bit B i = true).
  { intros i Hi. apply (at_target _ _ _ _ _ _ Hat i Hi). by apply HUU, HTU'. }
  assert (Hout : ∀ i s, bit T i = true → owner g i ≠ p → s ∈ successors g i → bit U s = true →
    bit T s = true).
  { intros i s Hi Ho Hs Hu. apply (wi_opp _ _ _ _ _ Hw i s Hi Ho Hs). by apply (Htrap i s). }
  exists σ. constructor.
  - intros i Hi. apply (at_ranked _ _ _ _ _ _ Hat i Hi).
  - intros i Hi Ho. unfold σ. destruct (bit T i) eqn:Ht.
    + destruct (wi_own _ _ _ _ _ Hw i Ht Ho). auto.
    + destruct (attr_move_spec U T p B rank i Hat Hi Ht Ho) as (? & _ & ? & _). done.
  - intros i s Hi Ho Hs Hu. destruct (bit T i) eqn:Ht; [by apply HTB, (Hout i)|].
    destruct (at_ranked _ _ _ _ _ _ Hat i Hi) as [_ [?|H]]; [congruence|].
    rewrite decide_False in H by done. by apply H.
  - intros π Hplay H0 Hlost.
    destruct (attr_reaches U T p B rank σ π Hat Hplay) with (k := 0) as (m & _ & Hm); [|done|].
    { intros i _ Hi. unfold σ. by rewrite Hi. }
    assert (HT : ∀ k, bit T (π (k + m)) = true).
    { apply (play_stays U p (λ i, bit T i = true) σ π m Hplay); [|by apply Hout|done].
      intros i Hi Ho. unfold σ. rewrite Hi. apply (wi_own _ _ _ _ _ Hw i Hi Ho). }
    apply (wi_won _ _ _ _ _ Hw (λ n, π (n + m))); [|apply HT|].
    + intros n. split_and!; [apply HTU', HT|apply (Hplay (n + m))|]. intros Ho.
      change (π (S n + m)) with (π (S (n + m))). destruct (Hplay (n + m)) as (_ & _ & ->); [|done].
      unfold σ. by rewrite HT.
    + by apply lost_from.
Qed.

(** A region [B] won by [p], and one won in what is left of the subgame. *)
Lemma wins_union U B p W σ1 σ2 :
  length U = game_len g →
  wins g U p (λ i, bit B i = true) σ1 → wins g (without g U B) p W σ2 →
  ∃ σ, wins g U p (λ i, bit B i = true ∨ W i) σ.
Proof.
  intros Hl H1 H2. set (σ := λ i, if bit B i then σ1 i else σ2 i).
  assert (HW : ∀ i, W i → bit U i = true ∧ bit B i = false).
  { intros i Hi. apply bit_without; [done|]. by apply (wi_sub _ _ _ _ _ H2). }
  exists σ. constructor.
  - intros i [Hi|Hi]; [by apply (wi_sub _ _ _ _ _ H1)|by apply HW].
  - intros i [Hi|Hi] Ho; unfold σ.
    + rewrite Hi. destruct (wi_own _ _ _ _ _ H1 i Hi Ho). auto.
    + rewrite (proj2 (HW i Hi)). destruct (wi_own _ _ _ _ _ H2 i Hi Ho). auto.
  - intros i s [Hi|Hi] Ho Hs Hu; [left; by apply (wi_opp _ _ _ _ _ H1 i)|].
    destruct (bit B s) eqn:E; [by left|right]. apply (wi_opp _ _ _ _ _ H2 i); [done..|].
    by apply bit_without.
  - intros π Hplay H0 Hlost.
    assert (HB : ∀ k, bit B (π k) = true → False).
    { intros k Hk. assert (Hin : ∀ j, bit B (π (j + k)) = true).
      { apply (play_stays U p (λ i, bit B i = true) σ π k Hplay); [|by apply (wi_opp _ _ _ _ _ H1)|done].
        intros i Hi Ho. unfold σ. rewrite Hi. apply (wi_own _ _ _ _ _ H1 i Hi Ho). }
      apply (wi_won _ _ _ _ _ H1 (λ n, π (n + k))); [|apply Hin|by apply lost_from].
      intros n. destruct (Hplay (n + k)) as (? & ? & Hown). split_and!; [done..|]. intros Ho.
      change (π (S n + k)) with (π (S (n + k))). rewrite (Hown Ho). unfold σ. by rewrite Hin. }
    destruct H0 as [H0|H0]; [by apply (HB 0)|].
    assert (Hout : ∀ k, bit B (π k) = false) by (intros k; apply not_true_iff_false; exact (HB k)).
    apply (wi_won _ _ _ _ _ H2 π); [|done|done].
    intros n. destruct (Hplay n) as (? & ? & Hown). split_and!; [by apply bit_without|done|].
    intros Ho. rewrite (Hown Ho). unfold σ. by rewrite Hout.
Qed.

(** What the other player wins outside a closed set, they win in the subgame. *)
Lemma wins_outside U T p B rank W σ :
  length U = game_len g → attractor g U T p B rank →
  wins g (without g U B) (opponent p) W σ → wins g U (opponent p) W σ.
Proof.
  intros Hl Hat Hw.
  assert (HW : ∀ i, W i → bit U i = true ∧ bit B i = false).
  { intros i Hi. apply bit_without; [done|]. by apply (wi_sub _ _ _ _ _ Hw). }
  assert (Hopp : ∀ i s, W i → owner g i ≠ opponent p → s ∈ successors g i → bit U s = true → W s).
  { intros i s Hi Ho Hs Hu. destruct (HW i Hi) as [Hui Hbi].
    pose proof (at_closed _ _ _ _ _ _ Hat i Hui Hbi) as Hc.
    rewrite decide_True in Hc by (by destruct (player_cases p (owner g i))).
    apply (wi_opp _ _ _ _ _ Hw i s); [done..|]. apply bit_without; auto. }
  constructor; [intros; by apply HW|apply (wi_own _ _ _ _ _ Hw)|done|].
  intros π Hplay H0. apply (wi_won _ _ _ _ _ Hw π); [|done].
  assert (Hin : ∀ k, W (π (k + 0))).
  { apply (play_stays U (opponent p) W σ π 0 Hplay); [|done|done].
    intros i Hi Ho. by apply (wi_own _ _ _ _ _ Hw). }
  intros n. specialize (Hin n). rewrite Nat.add_0_r in Hin. destruct (Hplay n) as (? & ? & ?).
  split_and!; [|done..]. by apply bit_without, HW.
Qed.
End strategies.

(** ** The recursion *)

Section solver.
Context (g : ParityGame).
Let n := game_len g.

Lemma verdict_tabulate f i : verdict (tabulate_result g f) i = if decide (i < n) then f i else None.
Proof using Type.
  unfold verdict, tabulate_result. fold n. rewrite list_lookup_fmap.
  case_decide; [by rewrite lookup_seq_lt|]. by rewrite lookup_seq_ge by lia.
Qed.

Lemma bit_won_by res p i : i < n → bit (won_by g res p) i = bool_decide (verdict res i = Some p).
Proof using Type. intros Hi. unfold won_by. by rewrite bit_tabulate. Qed.

Record scanned (U : list bool) (m : nat) (acc : nat * list bool) : Prop := {
  sc_length : length acc.2 = n;
  sc_max : ∀ i, i < m → bit U i = true → priority g i ≤ acc.1;
  sc_set : ∀ i, bit acc.2 i = true ↔ i < m ∧ bit U i = true ∧ priority g i = acc.1;
  sc_some : acc.1 = 0 ∨ ∃ i, bit acc.2 i = true
}.

Lemma bit_set_true l j i : j < length l → bit (bv_set l j true) i = true ↔ i = j ∨ bit l i = true.
Proof using Type. intros Hj. rewrite bit_set by done. case_decide; naive_solver. Qed.

Lemma scan_step U m acc : m < n → scanned U m acc → scanned U (S m) (scan_priority g U acc m).
Proof using Type.
  intros Hm [Hl Hmax Hset Hsome]. unfold scan_priority.
  assert (Hlt : ∀ i, i < S m → i = m ∨ i < m) by lia.
  destruct (bit U m) eqn:Hu.
  2:{ constructor; [done| |intros i; rewrite Hset|done].
      - intros i [->|Hi]%Hlt ?; [congruence|by apply Hmax].
      - split; intros (Hi & ? & ?); split_and!; try done; [lia|]. apply Hlt in Hi as [->|?]; congruence. }
  assert (Hfill : length (bv_fill n false) = n) by apply length_bv_fill.
  destruct (Nat.compare_spec (priority g m) acc.1) as [He|Hl'|Hg]; (constructor; simpl); fold n.
  - by rewrite length_bv_set.
  - intros i [->|Hi]%Hlt ?; [lia|by apply Hmax].
  - intros i. rewrite bit_set_true, Hset by lia. split.
    + intros [->|(? & ? & ?)]; split_and!; (done || lia).
    + intros ([->|?]%Hlt & ? & ?); auto.
  - right. exists m. apply bit_set_true; [lia|by left].
  - done.
  - intros i [->|Hi]%Hlt ?; [lia|by apply Hmax].
  - intros i. rewrite Hset. split.
    + intros (? & ? & ?); split_and!; (done || lia).
    + intros ([->|?]%Hlt & ? & ?); [lia|auto].
  - done.
  - by rewrite length_bv_set.
  - intros i [->|Hi]%Hlt Hui; [lia|]. specialize (Hmax i Hi Hui). lia.
  - intros i. rewrite bit_set_true, bit_fill by lia. split.
    + intros [->|?]; [split_and!; (done || lia)|done].
    + intros ([->|Hi]%Hlt & Hui & Hp); [by left|]. specialize (Hmax i Hi Hui). lia.
  - right. exists m. apply bit_set_true; [lia|by left].
Qed.

Lemma scanned_max U : scanned U n (max_priority g U).
Proof using Type.
  unfold max_priority. fold n. enough (H : ∀ m, m ≤ n →
    scanned U m (foldl (scan_priority g U) (0, bv_fill n false) (seq 0 m))) by (by apply H).
  induction m as [|m IH]; intros Hm.
  - constructor; simpl; [apply length_bv_fill|lia| |by left].
    intros i. rewrite bit_fill. split; [done|lia].
  - rewrite seq_S, foldl_app. simpl. apply scan_step; [lia|]. apply IH. lia.
Qed.

Lemma max_priority_spec U d T :
  length U = n → max_priority g U = (d, T) →
  (∀ i, bit U i = true → priority g i ≤ d) ∧
  (∀ i, bit T i = true ↔ bit U i = true ∧ priority g i = d) ∧
  (bv_any U = true → ∃ i, bit T i = true).
Proof using Type.
  intros Hl E. pose proof (scanned_max U) as [Hlt Hmax Hset Hsome]. rewrite E in *. simpl in *.
  assert (HU : ∀ i, bit U i = true → i < n) by (intros i Hi; apply bit_lt in Hi; lia).
  split_and!; [auto| |].
  - intros i. rewrite Hset. naive_solver.
  - intros [i Hi]%bv_any_spec. destruct Hsome as [->|?]; [|done].
    exists i. apply Hset. specialize (Hmax i (HU i Hi) Hi). split_and!; [auto|done|lia].
Qed.

(** A partition of the subgame, with a winning strategy for each player. *)
Record solved (U : list bool) (res : list (option Player)) : Prop := {
  so_none : ∀ i, bit U i = false → verdict res i = None;
  so_some : ∀ i, bit U i = true → verdict res i ≠ None;
  so_wins : ∀ p, ∃ σ, wins g U p (λ i, verdict res i = Some p) σ
}.

Lemma wins_empty U p (W : nat → Prop) σ : (∀ i, ¬ W i) → wins g U p W σ.
Proof using Type. intros H. constructor; intros; exfalso; by eapply H. Qed.

Lemma wins_ext U p (W W' : nat → Prop) σ : (∀ i, W i ↔ W' i) → wins g U p W σ → wins g U p W' σ.
Proof using Type.
  intros H [H1 H2 H3 H4]. constructor.
  - intros i Hi. by apply H1, H.
  - intros i Hi Ho. destruct (H2 i) as [? ?]; [by apply H|done|]. by rewrite <-H.
  - intros i s Hi Ho Hs Hu. apply H. by apply (H3 i s); [apply H|..].
  - intros π Hp H0. by apply H4; [|apply H].
Qed.

(** The set of one verdict. *)
Lemma won_by_spec U res p i :
  length U = n → solved U res → bit (won_by g res p) i = true ↔ verdict res i = Some p.
Proof using Type.
  intros Hl [Hnone _ _]. destruct (decide (i < n)) as [Hi|Hi].
  - rewrite bit_won_by by done. apply bool_decide_eq_true.
  - rewrite Hnone by (apply bit_ge; lia). split; [|done]. intros H. apply bit_lt in H.
    unfold won_by in H. rewrite length_bv_tabulate in H. fold n in H. lia.
Qed.

Lemma count_without U A i :
  length U = n → bit U i = true → bit A i = true → bv_count (without g U A) < bv_count U.
Proof using Type.
  intros Hl Hu HA.
  assert (Hlw : length (without g U A) = n) by apply length_bv_tabulate.
  apply bv_count_strict; [congruence|intros j [? _]%bit_without; done|].
  intros He. assert (H : bit (without g U A) i = true) by (by rewrite He).
  apply bit_without in H as [_ ?]; [congruence|done].
Qed.

(** The opponent wins nothing outside the attractor: the player wins all. *)
Lemma solved_all U d T A rank sub :
  length U = n → total_in g U → max_priority g U = (d, T) →
  attractor g U T (favoured d) A rank → solved (without g U A) sub →
  bv_any (won_by g sub (opponent (favoured d))) = false →
  solved U (tabulate_result g (λ i, if bit U i then Some (favoured d) else None)).
Proof using Type.
  intros Hl Ht Hmax Hat Hsub Hno. set (p := favoured d) in *.
  destruct (max_priority_spec U d T Hl Hmax) as (Hle & HT & _).
  assert (HU : ∀ i, bit U i = true → i < n) by (intros i Hi; apply bit_lt in Hi; lia).
  assert (Hlw : length (without g U A) = n) by apply length_bv_tabulate.
  assert (Hall : ∀ i, verdict sub i = Some p ↔ bit (without g U A) i = true).
  { intros i. split.
    - intros Hv. apply not_false_iff_true. intros Hb. rewrite (so_none _ _ Hsub i Hb) in Hv. done.
    - intros Hb. destruct (verdict sub i) as [q|] eqn:E; [|by apply (so_some _ _ Hsub) in E].
      destruct (player_cases p q) as [->| ->]; [done|]. exfalso. apply not_true_iff_false in Hno.
      apply Hno, bv_any_spec. exists i. by apply (won_by_spec (without g U A)). }
  constructor.
  - intros i Hi. rewrite verdict_tabulate, Hi. by case_decide.
  - intros i Hi. rewrite verdict_tabulate, decide_True, Hi by auto. done.
  - intros q. destruct (player_cases p q) as [->| ->].
    + destruct (so_wins _ _ Hsub p) as [σ' Hw].
      destruct (wins_all g U T p A rank d σ' Hl Ht Hat eq_refl Hle HT) as [σ Hσ].
      { by eapply wins_ext; [|exact Hw]. }
      exists σ. eapply wins_ext; [|exact Hσ]. intros i. rewrite verdict_tabulate. split.
      * intros Hi. rewrite decide_True, Hi by auto. done.
      * case_decide; [|done]. by destruct (bit U i).
    + exists id. apply wins_empty. intros i. rewrite verdict_tabulate.
      case_decide; [|done]. destruct (bit U i); [|done]. intros [= He]. by apply (opponent_ne p).
Qed.

(** The opponent wins the attractor to what they won, and what is left is
    solved by the second recursive call. *)
Lemma solved_split U d T A rank sub B rankB sub2 :
  length U = n → max_priority g U = (d, T) →
  attractor g U T (favoured d) A rank → solved (without g U A) sub →
  attractor g U (won_by g sub (opponent (favoured d))) (opponent (favoured d)) B rankB →
  solved (without g U B) sub2 →
  solved U (tabulate_result g (λ i, if bit B i then Some (opponent (favoured d)) else verdict sub2 i)).
Proof using Type.
  intros Hl Hmax Hat Hsub HatB Hsub2. set (p := favoured d) in *. set (o := opponent p) in *.
  set (U' := without g U A) in *. set (U2 := without g U B) in *. set (T' := won_by g sub o) in *.
  assert (Hlw : length U' = n) by apply length_bv_tabulate.
  assert (HT' : ∀ i, bit T' i = true ↔ verdict sub i = Some o) by (intros; by apply (won_by_spec U')).
  assert (HTU : ∀ i, bit T' i = true → bit U' i = true).
  { intros i Hi%HT'. apply not_false_iff_true. intros Hb. by rewrite (so_none _ _ Hsub i Hb) in Hi. }
  assert (HU' : ∀ i, bit U' i = true ↔ bit U i = true ∧ bit A i = false) by (intros; by apply bit_without).
  assert (HB : ∀ i, bit B i = true → bit U i = true) by (intros i Hi; apply (at_ranked _ _ _ _ _ _ HatB i Hi)).
  assert (HU2 : ∀ i, verdict sub2 i ≠ None → bit U i = true ∧ bit B i = false).
  { intros i Hv. rewrite <-(bit_without g U B i Hl). apply not_false_iff_true. intros Hb.
    by apply Hv, (so_none _ _ Hsub2). }
  assert (Hres : ∀ i q, verdict (tabulate_result g (λ i, if bit B i then Some o else verdict sub2 i)) i
    = Some q ↔ (bit B i = true ∧ q = o) ∨ verdict sub2 i = Some q).
  { intros i q. rewrite verdict_tabulate. destruct (bit B i) eqn:E.
    - rewrite decide_True by (apply HB, bit_lt in E; lia). split; [intros [= <-]; auto|].
      intros [[_ ->]|Hv]; [done|]. destruct (HU2 i); congruence.
    - case_decide as Hi; [naive_solver|]. split; [done|]. intros [[? _]|Hv]; [done|].
      destruct (HU2 i) as [Hu _]; [congruence|]. apply bit_lt in Hu. lia. }
  destruct (so_wins _ _ Hsub o) as [σ' Hw'].
  destruct (wins_attractor g U U' T' o B rankB σ' HatB HTU) as [σB HσB].
  { intros i Hi. by apply HU'. }
  { intros i s Hi Ho Hs Hu. apply HU'. split; [done|]. destruct (proj1 (HU' i) (HTU i Hi)) as [Hui HAi].
    pose proof (at_closed _ _ _ _ _ _ Hat i Hui HAi) as Hc.
    rewrite decide_True in Hc; [by apply Hc|]. destruct (player_cases p (owner g i)); [done|by destruct Ho]. }
  { eapply wins_ext; [|exact Hw']. intros i. by rewrite HT'. }
  constructor.
  - intros i Hi. destruct (verdict (tabulate_result _ _) i) as [q|] eqn:E; [|done].
    apply Hres in E as [[Hb _]|Hv]; [apply HB in Hb; congruence|].
    destruct (HU2 i) as [Hu _]; congruence.
  - intros i Hi Hn. destruct (bit B i) eqn:E.
    + assert (Hv := proj2 (Hres i o) (or_introl (conj E eq_refl))). congruence.
    + destruct (verdict sub2 i) as [q|] eqn:E2.
      * assert (Hv := proj2 (Hres i q) (or_intror E2)). congruence.
      * apply (so_some _ _ Hsub2 i); [|done]. by apply bit_without.
  - intros q. destruct (player_cases p q) as [->| ->].
    + destruct (so_wins _ _ Hsub2 p) as [σ2 H2]. exists σ2.
      apply (wins_ext _ _ (λ i, verdict sub2 i = Some p)).
      { intros i. rewrite Hres. split; [by right|]. intros [[_ He]|?]; [|done].
        symmetry in He; by apply (opponent_ne p) in He. }
      rewrite <-(opponent_involutive p). apply (wins_outside g U T' o B rankB); [done|done|].
      unfold o. by rewrite opponent_involutive.
    + destruct (so_wins _ _ Hsub2 o) as [σ2 H2].
      destruct (wins_union g U B o _ σB σ2 Hl HσB H2) as [σ Hσ]. exists σ.
      eapply wins_ext; [|exact Hσ]. intros i. fold o. rewrite Hres. naive_solver.
Qed.

Lemma solve_subgame_correct fuel U :
  length U = n → total_in g U → bv_count U < fuel →
  ∃ res, solve_subgame fuel g U = Some res ∧ solved U res.
Proof using Type.
  revert U. induction fuel as [|k IH]; intros U Hl Ht Hf; [lia|]. cbn [solve_subgame].
  destruct (bv_any U) eqn:Hany; simpl.
  2:{ assert (HU : ∀ i, bit U i = false).
      { intros i. apply not_true_iff_false. intros Hi.
        assert (bv_any U = true) by (apply bv_any_spec; eauto). congruence. }
      eexists. split; [done|]. constructor.
      - intros i _. rewrite verdict_tabulate. by case_decide.
      - intros i Hi. rewrite HU in Hi. done.
      - intros q. exists id. apply wins_empty. intros i. rewrite verdict_tabulate. by case_decide. }
  destruct (max_priority g U) as [d T] eqn:Hmax.
  destruct (max_priority_spec U d T Hl Hmax) as (_ & HT & Hne).
  destruct (compute_attractor_spec g U T (favoured d) Hl) as (A & rank & -> & Hat).
  destruct (Hne Hany) as [i0 Hi0]. assert (Hu0 : bit U i0 = true) by (by apply HT).
  assert (HA0 : bit A i0 = true) by (by apply (at_target _ _ _ _ _ _ Hat)).
  destruct (IH (without g U A)) as (sub & -> & Hsub).
  { apply length_bv_tabulate. }
  { by eapply without_total. }
  { pose proof (count_without U A i0 Hl Hu0 HA0). lia. }
  destruct (bv_any (won_by g sub _)) eqn:Hopp; simpl.
  2:{ eexists. split; [done|]. by eapply solved_all. }
  destruct (compute_attractor_spec g U (won_by g sub (opponent (favoured d))) (opponent (favoured d)) Hl)
    as (B & rankB & -> & HatB).
  apply bv_any_spec in Hopp as [j Hj].
  assert (Huj : bit U j = true).
  { rewrite (won_by_spec (without g U A)) in Hj by (done || apply length_bv_tabulate).
    destruct (bit (without g U A) j) eqn:E; [apply bit_without in E as [? _]; done|].
    rewrite (so_none _ _ Hsub j E) in Hj. done. }
  assert (HBj : bit B j = true) by (by apply (at_target _ _ _ _ _ _ HatB)).
  destruct (IH (without g U B)) as (sub2 & -> & Hsub2).
  { apply length_bv_tabulate. }
  { by eapply without_total. }
  { pose proof (count_without U B j Hl Huj HBj). lia. }
  eexists. split; [done|]. by eapply solved_split.
Qed.
End solver.

(** ** The whole game *)

(** A play of the game in which [p] follows [σ]. *)
Definition play (g : ParityGame) (p : Player) (σ π : nat → nat) : Prop :=
  ∀ k, π (S k) ∈ successors g (π k) ∧ (owner g (π k) = p → π (S k) = σ (π k)).

(** A positional strategy of [p] from position [i]: legal where [p] owns, and
    winning. *)
Definition winning_strategy (g : ParityGame) (p : Player) (i : nat) (σ : nat → nat) : Prop :=
  (∀ j, j < game_len g → owner g j = p → σ j ∈ successors g j) ∧
  ∀ π, play g p σ π → π 0 = i → won g p π.

Section whole.
Context (g : ParityGame) (Hg : game_total g).
Let n := game_len g.
Let U := bv_fill n true.

Lemma bit_whole i : bit U i = true ↔ i < n.
Proof using Type. unfold U. rewrite bit_fill. apply bool_decide_eq_true. Qed.

Lemma play_in_range p σ π : play g p σ π → π 0 < n → ∀ k, π k < n.
Proof using Hg. intros Hp H0 k. destruct k as [|k]; [done|]. by apply (gt_range g Hg (π k)), Hp. Qed.

Lemma play_whole p σ π : play g p σ π → π 0 < n → play_in g U p σ π.
Proof using Hg.
  intros Hp H0 k. split; [|apply Hp]. apply bit_whole. by apply (play_in_range p σ π Hp H0).
Qed.

Lemma total_whole : total_in g U.
Proof using Hg.
  intros i Hi%bit_whole. pose proof (gt_total g Hg i Hi) as Hne.
  destruct (successors g i) as [|s l] eqn:E; [done|]. exists s. split; [by left|].
  apply bit_whole, (gt_range g Hg i). rewrite E. by left.
Qed.

(** Completing a strategy by any move outside the region. *)
Definition complete (W : nat → bool) (σ : nat → nat) (i : nat) : nat :=
  if W i then σ i else default 0 (head (successors g i)).

Lemma head_move i : i < n → default 0 (head (successors g i)) ∈ successors g i.
Proof using Hg.
  intros Hi. pose proof (gt_total g Hg i Hi). destruct (successors g i); [done|by left].
Qed.

Lemma wins_strategy p (W : nat → bool) σ :
  wins g U p (λ i, W i = true) σ →
  (∀ i, W i = true → winning_strategy g p i (complete W σ)) ∧
  (∀ i, W i = true → owner g i = p → W (complete W σ i) = true).
Proof using Hg.
  intros Hw.
  assert (Hstay : ∀ i, W i = true → owner g i = p → W (complete W σ i) = true).
  { intros i Hi Ho. unfold complete. rewrite Hi. apply (wi_own _ _ _ _ _ Hw i Hi Ho). }
  split; [|done]. intros i Hi. split.
  - intros j Hj Ho. unfold complete. destruct (W j) eqn:E; [|by apply head_move].
    apply (wi_own _ _ _ _ _ Hw j E Ho).
  - intros π Hp <-. assert (H0 : π 0 < n) by (by apply bit_whole, (wi_sub _ _ _ _ _ Hw)).
    pose proof (play_whole p _ π Hp H0) as Hin. apply (wi_won _ _ _ _ _ Hw π); [|done].
    assert (HW : ∀ k, W (π (k + 0)) = true).
    { apply (play_stays g U p (λ i, W i = true) _ π 0 Hin); [done| |done]. apply (wi_opp _ _ _ _ _ Hw). }
    intros k. destruct (Hin k) as (? & ? & Hown). split_and!; [done..|]. intros Ho.
    specialize (HW k). rewrite Nat.add_0_r in HW. rewrite (Hown Ho). unfold complete. by rewrite HW.
Qed.

(** Both players following their strategies. *)
Definition both (p : Player) (σ τ : nat → nat) (i : nat) : nat → nat :=
  fix go k := match k with O => i | S k => if decide (owner g (go k) = p) then σ (go k) else τ (go k) end.

Lemma not_both_win p σ τ i :
  i < n → winning_strategy g p i σ → ¬ winning_strategy g (opponent p) i τ.
Proof using Hg.
  intros Hi [Hσ Hwσ] [Hτ Hwτ]. set (π := both p σ τ i).
  assert (Hstep : ∀ k, π (S k) = if decide (owner g (π k) = p) then σ (π k) else τ (π k)) by done.
  assert (Hlegal : ∀ k, π k < n ∧ π (S k) ∈ successors g (π k)).
  { intros k. assert (Hk : π k < n → π (S k) ∈ successors g (π k)).
    { intros Hlt. rewrite Hstep. destruct (decide (owner g (π k) = p)) as [Ho|Ho]; [by apply Hσ|].
      apply Hτ; [done|]. by destruct (player_cases p (owner g (π k))). }
    assert (Hlt : π k < n); [|by auto]. clear Hk. induction k as [|k IH]; [done|].
    apply (gt_range g Hg (π k)). rewrite Hstep. destruct (decide (owner g (π k) = p)) as [Ho|Ho].
    - by apply Hσ.
    - apply Hτ; [done|]. by destruct (player_cases p (owner g (π k))). }
  apply (won_exclusive g p π).
  - apply Hwσ; [|done]. intros k. split; [apply Hlegal|]. intros Ho. rewrite Hstep. by rewrite decide_True.
  - apply Hwτ; [|done]. intros k. split; [apply Hlegal|]. intros Ho. rewrite Hstep, decide_False; [done|].
    rewrite Ho. apply opponent_ne.
Qed.

(** What [solve] returns: the winners are the verdicts of the recursion. *)
Lemma solve_spec :
  ∃ sol res, solve g = Some sol ∧ solved g U res ∧ length (winner sol) = n ∧
    (∀ i p, winner sol !! i = Some p ↔ verdict res i = Some p) ∧
    (∀ i, i < n → eve_strategy sol !! i
       = Some (eve_strategy_for_region g (map (λ p, bool_decide (p = Eve)) (winner sol)) i)).
Proof using Hg.
  destruct (solve_subgame_correct g (S n) U) as (res & Hres & Hsol).
  { apply length_bv_fill. }
  { apply total_whole. }
  { pose proof (bv_count_le_length U) as H. unfold U in *. rewrite length_bv_fill in H. lia. }
  unfold solve. fold n U. rewrite Hres. eexists _, res. split_and!; [done|done|..]; simpl.
  - by rewrite length_map, length_seq.
  - intros i p. rewrite list_lookup_fmap. destruct (decide (i < n)) as [Hi|Hi].
    + rewrite lookup_seq_lt by done. simpl. unfold final_winner.
      assert (Hu : bit U i = true) by (by apply bit_whole).
      apply (so_some _ _ _ Hsol) in Hu. by destruct (verdict res i).
    + rewrite lookup_seq_ge by lia. simpl. rewrite (so_none _ _ _ Hsol); [done|].
      apply not_true_iff_false. by rewrite bit_whole.
  - intros i Hi. rewrite list_lookup_fmap. by rewrite lookup_seq_lt.
Qed.

(** Eve's winning positions: she keeps a move to one, every move of Adam leads
    to one. *)
Lemma eve_moves sol i :
  solve g = Some sol → winner sol !! i = Some Eve →
  (owner g i = Eve → ∃ s, s ∈ successors g i ∧ winner sol !! s = Some Eve) ∧
  (owner g i = Adam → ∀ s, s ∈ successors g i → winner sol !! s = Some Eve).
Proof using Hg.
  intros Hs Hi. destruct solve_spec as (sol' & res & Hs' & Hsol & Hl & Hw & _).
  rewrite Hs in Hs'. injection Hs' as <-. apply Hw in Hi.
  destruct (so_wins _ _ _ Hsol Eve) as [σ Hwins]. split.
  - intros Ho. destruct (wi_own _ _ _ _ _ Hwins i Hi Ho). exists (σ i). by rewrite Hw.
  - intros Ho s Hin. apply Hw, (wi_opp _ _ _ _ _ Hwins i s Hi); [by rewrite Ho|done|].
    apply bit_whole. by eapply (gt_range g Hg).
Qed.

(** The strategies behind the winners. *)
Lemma winner_strategy sol i p :
  solve g = Some sol → winner sol !! i = Some p → ∃ σ, winning_strategy g p i σ.
Proof using Hg.
  intros Hs Hi. destruct solve_spec as (sol' & res & Hs' & Hsol & Hl & Hw & _).
  rewrite Hs in Hs'. injection Hs' as <-.
  destruct (so_wins _ _ _ Hsol p) as [σ Hwins].
  set (W := λ i, bool_decide (verdict res i = Some p)).
  assert (HW : wins g U p (λ i, W i = true) σ).
  { eapply wins_ext; [|exact Hwins]. intros k. unfold W. by rewrite bool_decide_eq_true. }
  exists (complete W σ). apply (wins_strategy p W σ HW). apply bool_decide_eq_true. by apply Hw.
Qed.
End whole.

(** * Properties *)

(** C4: the solver decides every parity game. On a total game (edges in range,
    no dead end) [solve] returns one winner per position, the player named at a
    position has a positional strategy that wins every play from it, and the
    other player has none. *)
Theorem solve_correct g :
  game_total g →
  ∃ sol, solve g = Some sol ∧ length (winner sol) = game_len g ∧
    ∀ i p, winner sol !! i = Some p →
      (∃ σ, winning_strategy g p i σ) ∧ (∀ τ, ¬ winning_strategy g (opponent p) i τ).
Proof.
  intros Hg. destruct (solve_spec g Hg) as (sol & res & Hs & _ & Hl & _).
  exists sol. split_and!; [done..|]. intros i p Hi.
  assert (Hlt : i < game_len g) by (rewrite <-Hl; by eapply lookup_lt_Some).
  destruct (winner_strategy g Hg sol i p Hs Hi) as [σ Hσ]. split; [by exists σ|].
  intros τ. by apply (not_both_win g Hg p σ τ i Hlt).
Qed.

(** The strategy [solve] returns for Eve keeps to her winning region: at
    every position she owns and wins it names one of its successors, and she
    wins that successor. *)
Theorem eve_strategy_stays g sol i :
  game_total g → solve g = Some sol → winner sol !! i = Some Eve → owner g i = Eve →
  ∃ s, eve_strategy sol !! i = Some (Some s) ∧ s ∈ successors g i ∧ winner sol !! s = Some Eve.
Proof.
  intros Hg Hs Hi Ho. destruct (solve_spec g Hg) as (sol' & res & Hs' & Hsol & Hl & Hw & Hst).
  rewrite Hs in Hs'. injection Hs' as <-. assert (Hlt : i < game_len g) by (rewrite <-Hl; by eapply lookup_lt_Some).
  set (region := map (λ p, bool_decide (p = Eve)) (winner sol)) in *.
  assert (Hbit : ∀ k, bit region k = true ↔ winner sol !! k = Some Eve).
  { intros k. unfold bit, region. rewrite list_lookup_fmap. destruct (winner sol !! k) as [q|]; simpl; [|done].
    rewrite bool_decide_eq_true. naive_solver. }
  destruct (proj1 (eve_moves g Hg sol i Hs Hi) Ho) as (s0 & Hsucc & Hv).
  destruct (find_spec (bit region) (successors g i)) as [H1 H2].
  { exists s0. split; [done|]. by apply Hbit. }
  rewrite Hst by done. unfold eve_strategy_for_region.
  rewrite (proj2 (Hbit i) Hi), bool_decide_true by done. simpl.
  destruct (List.find (bit region) (successors g i)) as [s|] eqn:E; simpl in *.
  - exists s. split_and!; [done..|]. by apply Hbit.
  - exfalso. apply list_elem_of_In, (find_none _ _ E) in Hsucc.
    assert (bit region s0 = true) by (by apply Hbit). congruence.
Qed.

(** ** Witnesses *)

(** Adam moves from 0 to a cycle through priority 1 or to Eve's position 2, from
    where she can stay at priority 2. *)
Definition fork_game : ParityGame :=
  {| positions := map (λ i, {| p_state := i; p_node := 0 |}) [0; 1; 2; 3]; position_idx := ∅;
     owners := [Adam; Adam; Eve; Eve]; priorities := [0; 1; 2; 1]; edges := [[1; 2]; [1]; [3; 2]; [3]];
     terminal_eve_wins := [false; false; false; false]; terminals := ∅;
     g_formula := {| root := 0; nodes := [NTrue]; vars := [] |} |}.

Lemma fork_game_total : game_total fork_game.
Proof.
  split; [done..| |].
  - intros i s Hs. unfold successors in Hs. destruct i as [|[|[|[|i]]]]; simpl in Hs;
      (repeat (apply elem_of_cons in Hs as [->|Hs]; [vm_compute; lia|])); by apply not_elem_of_nil in Hs.
  - intros i Hi. vm_compute in Hi. destruct i as [|[|[|[|i]]]]; [done..|lia].
Qed.

Lemma solve_correct_witness :
  ∃ sol, solve fork_game = Some sol ∧ length (winner sol) = game_len fork_game ∧
    ∀ i p, winner sol !! i = Some p →
      (∃ σ, winning_strategy fork_game p i σ) ∧ (∀ τ, ¬ winning_strategy fork_game (opponent p) i τ).
Proof. apply (solve_correct fork_game fork_game_total). Defined.

Lemma eve_strategy_stays_witness :
  ∃ s, [None; None; Some 2; None] !! 2 = Some (Some s) ∧ s ∈ successors fork_game 2 ∧
    [Adam; Adam; Eve; Adam] !! s = Some Eve.
Proof.
  apply (eve_strategy_stays fork_game
    {| winner := [Adam; Adam; Eve; Adam]; eve_strategy := [None; None; Some 2; None] |} 2);
    [apply fork_game_total|vm_compute; reflexivity|reflexivity|reflexivity].
Defined.
