(* ===== verification/GameBuild.v ===== *)
(** The construction of the model-checking game: [build_parity_game] and its
    helpers in [mu_calculus/parity_game.rs].

    The expansion is a worklist over positions; the queue is a stack, here a
    list whose head is the top.  [None] is a panic (an index out of range, a
    variable without binder, a negation over a compound formula) or exhausted
    fuel.  [build_parity_game_total] shows that on a closed formula none of them
    happens and that the game is one [solve] decides.
    [expansion] and [faithful] say which moves a finished game has at a position;
    GameCorrect.v draws the consequences. *)
From S2P Require Import Prelude Formula Trit Clts Modal Evaluator Semantics Domains Checking Verdicts Divergences Transforms ParityGame.

(** ** [assign_var_priorities], [collect_var_bodies] *)

Definition fixpoint_priority (base : nat) (is_mu : bool) : nat :=
  if is_mu then (if Nat.even base then base + 1 else base)
  else (if Nat.even base then base else base + 1).

Definition assign_var_priorities (f : Formula) : option (gmap FormulaVarId nat) :=
  let* nesting := fixpoint_nesting_order f in
  let total_levels := length nesting in
  Some (foldl (λ m lv, <[lv.2.1 := fixpoint_priority (total_levels - lv.1) lv.2.2]> m) ∅
          (zip (seq 0 total_levels) nesting)).

Fixpoint collect_var_bodies (fuel : nat) (f : Formula) (id : NodeId)
    (out : gmap FormulaVarId NodeId) : option (gmap FormulaVarId NodeId) :=
  match fuel with
  | O => None
  | S k =>
    let* n := node f id in
    match n with
    | NMu v body | NNu v body => collect_var_bodies k f body (<[v := body]> out)
    | NAnd l r | NOr l r =>
        let* out' := collect_var_bodies k f l out in collect_var_bodies k f r out'
    | NNot inner => collect_var_bodies k f inner out
    | NModal _ _ t => collect_var_bodies k f t out
    | NTrue | NFalse | NPredicate _ | NVariable _ => Some out
    end
  end.

(** ** Positions and edges *)

(** [v[i] = x] *)
Definition set_at {A} (l : list A) (i : nat) (x : A) : option (list A) :=
  if decide (i < length l) then Some (<[i := x]> l) else None.

Definition empty_game (f : Formula) : ParityGame :=
  {| positions := []; position_idx := ∅; owners := []; priorities := []; edges := [];
     terminal_eve_wins := []; terminals := ∅; g_formula := f |}.

Definition set_owner (g : ParityGame) (i : nat) (p : Player) : option ParityGame :=
  let* os := set_at (owners g) i p in
  Some {| positions := positions g; position_idx := position_idx g; owners := os;
          priorities := priorities g; edges := edges g; terminal_eve_wins := terminal_eve_wins g;
          terminals := terminals g; g_formula := g_formula g |}.

Definition set_terminal (g : ParityGame) (i : nat) (eve_wins : bool) : option ParityGame :=
  let* tew := set_at (terminal_eve_wins g) i eve_wins in
  let* ps := set_at (priorities g) i (if eve_wins then 0 else 1) in
  let* row := edges g !! i in
  let* os := set_at (owners g) i Eve in
  Some {| positions := positions g; position_idx := position_idx g; owners := os; priorities := ps;
          edges := if bool_decide (i ∈ row) then edges g else <[i := row ++ [i]]> (edges g);
          terminal_eve_wins := tew; terminals := {[i]} ∪ terminals g; g_formula := g_formula g |}.

Definition position_priority (vp : gmap FormulaVarId nat) (n : Node) : nat :=
  match n with
  | NMu v _ => default 1 (vp !! v)
  | NNu v _ => default 0 (vp !! v)
  | _ => 0
  end.

Definition intern_position (g : ParityGame) (pos : Position) (f : Formula)
    (vp : gmap FormulaVarId nat) : option (ParityGame * nat) :=
  match position_idx g !! pos with
  | Some idx => Some (g, idx)
  | None =>
    let* n := node f (p_node pos) in
    let idx := length (positions g) in
    Some ({| positions := positions g ++ [pos]; position_idx := <[pos := idx]> (position_idx g);
             owners := owners g ++ [Eve]; priorities := priorities g ++ [position_priority vp n];
             edges := edges g ++ [[]]; terminal_eve_wins := terminal_eve_wins g ++ [false];
             terminals := terminals g; g_formula := g_formula g |}, idx)
  end.

Definition push_edge (g : ParityGame) (src tgt : nat) : option ParityGame :=
  let* row := edges g !! src in
  Some {| positions := positions g; position_idx := position_idx g; owners := owners g;
          priorities := priorities g;
          edges := if bool_decide (tgt ∈ row) then edges g else <[src := row ++ [tgt]]> (edges g);
          terminal_eve_wins := terminal_eve_wins g; terminals := terminals g; g_formula := g_formula g |}.

Definition add_edge (g : ParityGame) (f : Formula) (vp : gmap FormulaVarId nat) (src : nat)
    (tgt : Position) (queue : list Position) : option (ParityGame * list Position) :=
  match position_idx g !! tgt with
  | Some idx => let* g' := push_edge g src idx in Some (g', queue)
  | None =>
    let* (g1, idx) := intern_position g tgt f vp in
    let* g' := push_edge g1 src idx in Some (g', tgt :: queue)
  end.

Fixpoint add_edges (g : ParityGame) (f : Formula) (vp : gmap FormulaVarId nat) (src : nat)
    (tgts : list Position) (queue : list Position) : option (ParityGame * list Position) :=
  match tgts with
  | [] => Some (g, queue)
  | t :: rest => let* (g', q') := add_edge g f vp src t queue in add_edges g' f vp src rest q'
  end.

(** ** [expand_position] *)

Definition modal_owner (k : ModalKind) : Player := match k with Diamond => Eve | Box => Adam end.

Definition transition_matches_guard (t : Transition) (g : Guard) (c : Clts) (source : StateId) : bool :=
  (match g_control g with
   | Control_All => true
   | Controllable => is_controllable c t
   | Environment => negb (is_controllable c t)
   end) && guard_matches_labels_and_vars c source t g.

Record BuildContext := {
  bc_formula : Formula;
  bc_clts : Clts;
  bc_env : EvalEnvironment;
  bc_priority : gmap FormulaVarId nat;
  bc_body : gmap FormulaVarId NodeId
}.

(** [env.predicate(name).map(|bits| bits.get(state) ...).unwrap_or(false)] *)
Definition predicate_holds (e : EvalEnvironment) (name : string) (s : nat) : bool :=
  match predicate e name with Some bits => bit bits s | None => false end.

(** Set the owner, then add the edges. *)
Definition own_edges (x : BuildContext) (g : ParityGame) (i : nat) (p : Player)
    (tgts : list Position) (queue : list Position) : option (ParityGame * list Position) :=
  let* g1 := set_owner g i p in add_edges g1 (bc_formula x) (bc_priority x) i tgts queue.

Definition terminal (g : ParityGame) (i : nat) (eve_wins : bool) (queue : list Position)
    : option (ParityGame * list Position) :=
  let* g' := set_terminal g i eve_wins in Some (g', queue).

Definition modal_targets (x : BuildContext) (s : nat) (P : Transition → bool) (t : NodeId) : list Position :=
  map (λ tr, {| p_state := target tr; p_node := t |}) (List.filter P (outgoing (bc_clts x) s)).

Definition expand_position (pos : Position) (i : nat) (x : BuildContext) (g : ParityGame)
    (queue : list Position) : option (ParityGame * list Position) :=
  let c := bc_clts x in
  let s := p_state pos in
  let at_node n := {| p_state := s; p_node := n |} in
  let* n := node (bc_formula x) (p_node pos) in
  match n with
  | NTrue => terminal g i true queue
  | NFalse => terminal g i false queue
  | NPredicate name => terminal g i (predicate_holds (bc_env x) name s) queue
  | NNot inner =>
    let* m := node (bc_formula x) inner in
    match m with
    | NTrue => terminal g i false queue
    | NFalse => terminal g i true queue
    | NPredicate name => terminal g i (negb (predicate_holds (bc_env x) name s)) queue
    | _ => None
    end
  | NAnd l r => own_edges x g i Adam [at_node l; at_node r] queue
  | NOr l r => own_edges x g i Eve [at_node l; at_node r] queue
  | NModal k gd t =>
    match g_control gd with
    | Controllable =>
      let matched tr := guard_matches_labels_and_vars c s tr gd in
      let ctrl_targets := modal_targets x s (λ tr, matched tr && is_controllable c tr) t in
      let env_targets := modal_targets x s (λ tr, matched tr && negb (is_controllable c tr)) t in
      match null env_targets, null ctrl_targets with
      | true, true => terminal g i true queue
      | false, true => own_edges x g i Adam env_targets queue
      | true, false => own_edges x g i Eve ctrl_targets queue
      | false, false => own_edges x g i Adam (env_targets ++ ctrl_targets) queue
      end
    | Control_All | Environment =>
      let* (g1, q1) := own_edges x g i (modal_owner k)
        (modal_targets x s (λ tr, transition_matches_guard tr gd c s) t) queue in
      if null (successors g1 i) then terminal g1 i (match k with Box => true | Diamond => false end) q1
      else Some (g1, q1)
    end
  | NMu _ body | NNu _ body => own_edges x g i Eve [at_node body] queue
  | NVariable v => let* body := bc_body x !! v in own_edges x g i Eve [at_node body] queue
  end.

(** ** [build_parity_game] *)

Fixpoint expand_all (fuel : nat) (x : BuildContext) (g : ParityGame) (queue : list Position)
    : option ParityGame :=
  match queue with
  | [] => Some g
  | pos :: rest =>
    match fuel with
    | O => None
    | S k =>
      let* i := position_idx g !! pos in
      if negb (null (successors g i)) || bool_decide (i ∈ terminals g) then expand_all k x g rest
      else let* (g', q') := expand_position pos i x g rest in expand_all k x g' q'
    end
  end.

(** The initial positions: the loop over [clts.initial_states()]. *)
Fixpoint intern_initials (inits : list StateId) (f : Formula) (vp : gmap FormulaVarId nat)
    (g : ParityGame) (queue : list Position) : option (ParityGame * list Position) :=
  match inits with
  | [] => Some (g, queue)
  | s :: rest =>
    let pos := {| p_state := s; p_node := root f |} in
    let* (g', _) := intern_position g pos f vp in
    intern_initials rest f vp g' (pos :: queue)
  end.

(** [inits] lists the initial states in the order the set is iterated in. *)
Definition build_parity_game (fuel : nat) (formula : Formula) (c : Clts) (e : EvalEnvironment)
    (inits : list StateId) : option ParityGame :=
  let* f := to_nnf formula in
  let* vp := assign_var_priorities f in
  let* bodies := collect_var_bodies (length (nodes f)) f (root f) ∅ in
  let x := {| bc_formula := f; bc_clts := c; bc_env := e; bc_priority := vp; bc_body := bodies |} in
  let* (g, queue) := intern_initials inits f vp (empty_game f) [] in
  expand_all fuel x g queue.

(** ** The variable maps *)

(** A node of the formula whose variables are in [B]. *)
Definition body_node (f : Formula) (B : nat → Prop) (id : NodeId) : Prop :=
  ∃ t, repr (nodes f) id t ∧ is_nnf t = true ∧ ∀ v, v ∈ free_vars t ∨ v ∈ bound_vars t → B v.

(** [out'] extends [out] with bodies for the binders of [t]. *)
Definition collected (f : Formula) (t : Tree) (out out' : gmap FormulaVarId NodeId) : Prop :=
  (∀ v, v ∈ bound_vars t ∨ is_Some (out !! v) → is_Some (out' !! v)) ∧
  (∀ v b, out' !! v = Some b → out !! v = Some b ∨
     body_node f (λ v, v ∈ free_vars t ∨ v ∈ bound_vars t) b).

Lemma body_node_sub f (B B' : nat → Prop) id : (∀ v, B v → B' v) → body_node f B id → body_node f B' id.
Proof. intros H (t & ? & ? & ?). exists t. auto. Qed.

Lemma collected_refl f t out : bound_vars t = [] → collected f t out out.
Proof. intros Hb. split; [|by left]. rewrite Hb. intros v [H|?]; [by apply not_elem_of_nil in H|done]. Qed.

Lemma collected_binary f l r t o1 o2 o3 :
  bound_vars t = bound_vars l ++ bound_vars r → free_vars t = free_vars l ∪ free_vars r →
  collected f l o1 o2 → collected f r o2 o3 → collected f t o1 o3.
Proof.
  intros Hb Hf [H1 H2] [H3 H4]. unfold collected. rewrite Hb, Hf. split.
  - intros v [[Hv|Hv]%elem_of_app|Hv]; auto.
  - intros v b Hv. destruct (H4 v b Hv) as [Hv'|?]; [destruct (H2 v b Hv') as [?|?]; [by left|]|];
      right; (eapply body_node_sub; [|done]); intros u; rewrite elem_of_union, elem_of_app; tauto.
Qed.

Lemma collected_fix f k v a t o o' :
  repr (nodes f) a t → is_nnf t = true → collected f t (<[v := a]> o) o' → collected f (TFix k v t) o o'.
Proof.
  intros Hr Hn [H1 H2]. split.
  - simpl. intros u [[->|Hu]%elem_of_cons|Hu]; apply H1; [right; by rewrite lookup_insert_eq|by left|right].
    destruct (decide (u = v)) as [->|]; [by rewrite lookup_insert_eq|by rewrite lookup_insert_ne].
  - assert (Hsub : ∀ w, w ∈ free_vars t ∨ w ∈ bound_vars t →
      w ∈ free_vars (TFix k v t) ∨ w ∈ bound_vars (TFix k v t)).
    { intros w. simpl. rewrite elem_of_cons, elem_of_difference, elem_of_singleton.
      destruct (decide (w = v)); tauto. }
    intros u b Hu. destruct (H2 u b Hu) as [[[-> <-]|[_ ?]]%lookup_insert_Some|?]; [right|by left|right].
    + exists t. auto.
    + by eapply body_node_sub; [exact Hsub|].
Qed.

Lemma collect_var_bodies_spec f id t fuel out :
  repr (nodes f) id t → height t ≤ fuel → is_nnf t = true →
  ∃ out', collect_var_bodies fuel f id out = Some out' ∧ collected f t out out'.
Proof.
  intros Hr. revert fuel out.
  induction Hr as [id Hn|id Hn|id p Hn|id v Hn|id a t Hn Hr IH|id l r tl tr Hn _ IHl _ IHr
    |id l r tl tr Hn _ IHl _ IHr|id k g a t Hn _ IH|id v a t Hn Hr IH|id v a t Hn Hr IH];
    intros fuel out Hh Hnnf; (destruct fuel as [|fuel]; simpl in Hh, Hnnf; [lia|]);
    cbn [collect_var_bodies]; unfold node; rewrite Hn; try (by eauto using collected_refl).
  - destruct (IH fuel out) as (o1 & -> & ?); [lia|by destruct t|by exists o1].
  - apply andb_true_iff in Hnnf as [? ?].
    destruct (IHl fuel out) as (o1 & -> & ?); [lia|done|].
    destruct (IHr fuel o1) as (o2 & -> & ?); [lia|done|]. eauto using collected_binary.
  - apply andb_true_iff in Hnnf as [? ?].
    destruct (IHl fuel out) as (o1 & -> & ?); [lia|done|].
    destruct (IHr fuel o1) as (o2 & -> & ?); [lia|done|]. eauto using collected_binary.
  - destruct (IH fuel out) as (o1 & -> & ?); [lia|done|by exists o1].
  - destruct (IH fuel (<[v := a]> out)) as (o1 & -> & ?); [lia|done|]. eauto using collected_fix.
  - destruct (IH fuel (<[v := a]> out)) as (o1 & -> & ?); [lia|done|]. eauto using collected_fix.
Qed.

(** ** The invariant of the expansion *)

Section expansion.
Context (x : BuildContext) (B : nat → Prop).
Let f := bc_formula x.
Let c := bc_clts x.
Context (Hc : clts_ok c).
Context (Hbodies : ∀ v, B v → ∃ b, bc_body x !! v = Some b ∧ body_node f B b).

(** Positions are states of the system at negation normal nodes. *)
Definition position_ok (pos : Position) : Prop :=
  p_state pos < state_count c ∧ body_node f B (p_node pos).

Record game_ok (g : ParityGame) : Prop := {
  go_formula : g_formula g = f;
  go_owners : length (owners g) = game_len g;
  go_priorities : length (priorities g) = game_len g;
  go_edges : length (edges g) = game_len g;
  go_terminal : length (terminal_eve_wins g) = game_len g;
  go_index : ∀ pos i, position_idx g !! pos = Some i ↔ positions g !! i = Some pos;
  go_position : ∀ i pos, positions g !! i = Some pos → position_ok pos;
  go_range : ∀ i s, s ∈ successors g i → s < game_len g;
  go_terminals : ∀ i, i ∈ terminals g → successors g i ≠ []
}.

(** From a game and a queue to a larger game and queue: the new positions are
    queued, and no position loses its moves. *)
Record extends (g : ParityGame) (q : list Position) (g' : ParityGame) (q' : list Position) : Prop := {
  ex_ok : game_ok g';
  ex_count : length q' + game_len g = length q + game_len g';
  ex_queue : ∀ pos, pos ∈ q → pos ∈ q';
  ex_queued : ∀ pos, pos ∈ q' → pos ∈ q ∨ ∃ i, positions g' !! i = Some pos;
  ex_new : ∀ i pos, positions g' !! i = Some pos → positions g !! i = Some pos ∨ pos ∈ q';
  ex_old : ∀ i pos, positions g !! i = Some pos → positions g' !! i = Some pos;
  ex_moves : ∀ i, successors g i ≠ [] → successors g' i ≠ []
}.

Lemma extends_refl g q : game_ok g → extends g q g q.
Proof using Type. constructor; auto. Qed.

Lemma extends_trans g q g1 q1 g2 q2 : extends g q g1 q1 → extends g1 q1 g2 q2 → extends g q g2 q2.
Proof using Type.
  intros [? ? ? Hq1 H1 Ho1 ?] [? ? ? Hq2 H2 Ho2 ?]. constructor; auto; [lia| |].
  - intros pos Hp. destruct (Hq2 pos Hp) as [Hp'|]; [|by right].
    destruct (Hq1 pos Hp') as [|[i Hi]]; [by left|right]. exists i. by apply Ho2.
  - intros i pos Hi. destruct (H2 i pos Hi) as [Hi'|]; [destruct (H1 i pos Hi'); auto|auto].
Qed.

Lemma set_at_Some {A} (l : list A) i y : i < length l → set_at l i y = Some (<[i := y]> l).
Proof using Type. intros Hi. unfold set_at. by rewrite decide_True. Qed.

(** A vector with entry [i] replaced. *)
Lemma lookup_insert_row {A} (l : list A) i j y d :
  i < length l → default d (<[i := y]> l !! j) = if decide (j = i) then y else default d (l !! j).
Proof using Type.
  intros Hi. case_decide as Hj; [subst; by rewrite list_lookup_insert_eq|by rewrite list_lookup_insert_ne].
Qed.

Lemma set_owner_spec g q i p :
  game_ok g → i < game_len g → ∃ g', set_owner g i p = Some g' ∧ extends g q g' q ∧
    successors g' i = successors g i.
Proof using Type.
  intros [H0 H1 H2 H3 H4 H5 H6 H7 H8] Hi. unfold set_owner. rewrite set_at_Some by lia. eexists.
  split; [done|]. split; [|done]. constructor; auto.
  constructor; try done. simpl. by rewrite length_insert.
Qed.

(** Adding one entry to a row, unless it is there. *)
Lemma row_push g i s :
  game_ok g → i < game_len g → s < game_len g →
  let rows := if bool_decide (s ∈ successors g i) then edges g
              else <[i := successors g i ++ [s]]> (edges g) in
  edges g !! i = Some (successors g i) ∧ length rows = game_len g ∧
  (∀ j r, r ∈ default [] (rows !! j) → r < game_len g) ∧
  (∀ j, successors g j ≠ [] → default [] (rows !! j) ≠ []) ∧ default [] (rows !! i) ≠ [].
Proof using Type.
  intros Hg Hi Hs rows. assert (Hrow : edges g !! i = Some (successors g i)).
  { unfold successors. destruct (edges g !! i) eqn:E; [done|].
    apply lookup_ge_None in E. rewrite (go_edges g Hg) in E. lia. }
  unfold rows. case_bool_decide as Hin; split_and!; try done.
  - apply (go_edges g Hg).
  - apply (go_range g Hg).
  - fold (successors g i). intros He. rewrite He in Hin. by apply not_elem_of_nil in Hin.
  - rewrite length_insert. apply (go_edges g Hg).
  - intros j r. rewrite lookup_insert_row by (rewrite (go_edges g Hg); done).
    case_decide; [|apply (go_range g Hg)]. intros [Hr|Hr]%elem_of_app; [by eapply (go_range g Hg)|].
    apply list_elem_of_singleton in Hr. by subst.
  - intros j Hj. rewrite lookup_insert_row by (rewrite (go_edges g Hg); done). case_decide; [|done].
    by destruct (successors g i).
  - rewrite lookup_insert_row, decide_True by (done || rewrite (go_edges g Hg); done).
    by destruct (successors g i).
Qed.

Lemma set_terminal_spec g q i b :
  game_ok g → i < game_len g →
  ∃ g', set_terminal g i b = Some g' ∧ extends g q g' q ∧ successors g' i ≠ [].
Proof using Type.
  intros Hg Hi. destruct (row_push g i i Hg Hi Hi) as (Hrow & Hl & Hr & Hm & Hne).
  destruct Hg as [H0 H1 H2 H3 H4 H5 H6 H7 H8]. unfold set_terminal.
  rewrite !set_at_Some, Hrow by lia. eexists. split; [done|]. split; [|done].
  constructor; auto. constructor; simpl; try done; try (by rewrite length_insert).
  intros j [->%elem_of_singleton|Hj]%elem_of_union; [done|]. apply Hm. by apply H8.
Qed.

Lemma push_edge_spec g q i s :
  game_ok g → i < game_len g → s < game_len g →
  ∃ g', push_edge g i s = Some g' ∧ extends g q g' q ∧ successors g' i ≠ [].
Proof using Type.
  intros Hg Hi Hs. destruct (row_push g i s Hg Hi Hs) as (Hrow & Hl & Hr & Hm & Hne).
  destruct Hg as [H0 H1 H2 H3 H4 H5 H6 H7 H8]. unfold push_edge. rewrite Hrow. eexists.
  split; [done|]. split; [|done]. constructor; auto. constructor; simpl; try done.
  intros j Hj. apply Hm. by apply H8.
Qed.

Lemma body_node_node id : body_node f B id → ∃ n, node f id = Some n.
Proof using Type. intros (t & Hr & _). unfold node. destruct Hr; eauto. Qed.

(** A position is interned once; a new one is the last. *)
Lemma intern_position_spec g q pos :
  game_ok g → position_ok pos →
  ∃ g' i, intern_position g pos f (bc_priority x) = Some (g', i) ∧
    positions g' !! i = Some pos ∧
    match position_idx g !! pos with
    | Some _ => g' = g
    | None => extends g q g' (pos :: q)
    end.
Proof using Type.
  intros Hg Hpos. unfold intern_position. destruct (position_idx g !! pos) as [i|] eqn:E.
  { exists g, i. split_and!; [done|by apply (go_index g Hg)|done]. }
  destruct Hpos as [Hs Hb]. destruct (body_node_node _ Hb) as [n ->].
  destruct Hg as [H0 H1 H2 H3 H4 H5 H6 H7 H8]. unfold game_len in *.
  eexists _, _. split_and!; [done|simpl; by apply lookup_push|].
  assert (Hrow : ∀ j, default [] ((edges g ++ [[]]) !! j) = successors g j).
  { intros j. unfold successors. destruct (decide (j < length (edges g))) as [Hj|Hj].
    - by rewrite lookup_app_l.
    - rewrite (lookup_ge_None_2 (edges g)) by lia. destruct (decide (j = length (edges g))) as [->|].
      + by rewrite lookup_push.
      + by rewrite lookup_ge_None_2 by (rewrite length_app; simpl; lia). }
  assert (Hnew : ∀ i p, (positions g ++ [pos]) !! i = Some p →
    positions g !! i = Some p ∨ (i = length (positions g) ∧ p = pos)).
  { intros i p Hi. destruct (decide (i < length (positions g))) as [Hlt|Hlt].
    - rewrite lookup_app_l in Hi by done. by left.
    - right. pose proof (lookup_lt_Some _ _ _ Hi) as Hl. rewrite length_app in Hl. simpl in Hl.
      replace i with (length (positions g)) in * by lia. rewrite lookup_push in Hi. by injection Hi. }
  constructor.
  - constructor; simpl; unfold game_len; simpl; rewrite ?length_app; simpl; try lia.
    + done.
    + intros p i. destruct (decide (p = pos)) as [->|Hne].
      * rewrite lookup_insert_eq. split; [intros [= <-]; apply lookup_push|].
        intros [Hi|[-> _]]%Hnew; [|done]. apply H5 in Hi. congruence.
      * rewrite lookup_insert_ne by done. rewrite H5. split; [by apply lookup_app_l_Some|].
        intros [?|[_ ?]]%Hnew; done.
    + intros i p [Hi|[_ ->]]%Hnew; [by eapply H6|done].
    + intros i s. unfold successors. simpl. rewrite Hrow. intros Hin. specialize (H7 i s Hin). lia.
    + intros i Hi. unfold successors. simpl. rewrite Hrow. by apply H8.
  - simpl. unfold game_len. simpl. rewrite length_app. simpl. lia.
  - intros p Hp. by right.
  - intros p [->|Hp]%elem_of_cons; [right|by left]. eexists. simpl. apply lookup_push.
  - intros i p [Hi|[_ ->]]%Hnew; [by left|right; by left].
  - intros i p Hi. simpl. by apply lookup_app_l_Some.
  - intros i Hi. unfold successors. simpl. by rewrite Hrow.
Qed.

Lemma position_index_lt g i pos : positions g !! i = Some pos → i < game_len g.
Proof using Type. apply lookup_lt_Some. Qed.

Lemma extends_len g q g' q' i : extends g q g' q' → i < game_len g → i < game_len g'.
Proof using Type.
  intros He Hi. destruct (lookup_lt_is_Some_2 (positions g) i Hi) as [pos Hp].
  eapply position_index_lt, (ex_old _ _ _ _ He), Hp.
Qed.

Lemma add_edge_spec g q i pos :
  game_ok g → i < game_len g → position_ok pos →
  ∃ g' q', add_edge g f (bc_priority x) i pos q = Some (g', q') ∧ extends g q g' q' ∧
    successors g' i ≠ [].
Proof using Type.
  intros Hg Hi Hpos. unfold add_edge.
  destruct (intern_position_spec g q pos Hg Hpos) as (g1 & j & Hint & Hj & Hext).
  destruct (position_idx g !! pos) as [k|] eqn:E.
  - destruct (push_edge_spec g q i k Hg Hi) as (g' & -> & ? & ?).
    { apply (go_index g Hg) in E. by eapply position_index_lt. }
    eauto.
  - rewrite Hint. pose proof (ex_ok _ _ _ _ Hext) as Hg1.
    destruct (push_edge_spec g1 (pos :: q) i j Hg1) as (g' & -> & ? & ?).
    { by eapply extends_len. }
    { by eapply position_index_lt. }
    eexists _, _. split_and!; [done| |done]. by eapply extends_trans.
Qed.

Lemma add_edges_spec g q i tgts :
  game_ok g → i < game_len g → (∀ pos, pos ∈ tgts → position_ok pos) →
  ∃ g' q', add_edges g f (bc_priority x) i tgts q = Some (g', q') ∧ extends g q g' q' ∧
    (tgts ≠ [] → successors g' i ≠ []).
Proof using Type.
  revert g q. induction tgts as [|pos rest IH]; intros g q Hg Hi Hpos; simpl.
  { eexists _, _. split_and!; [done|by apply extends_refl|done]. }
  destruct (add_edge_spec g q i pos Hg Hi) as (g1 & q1 & -> & He & Hne); [apply Hpos; by left|].
  destruct (IH g1 q1 (ex_ok _ _ _ _ He)) as (g2 & q2 & -> & He2 & _).
  { by eapply extends_len. }
  { intros p Hp. apply Hpos. by right. }
  eexists _, _. split_and!; [done|by eapply extends_trans|]. intros _. by apply (ex_moves _ _ _ _ He2).
Qed.

Lemma own_edges_spec g q i p tgts :
  game_ok g → i < game_len g → (∀ pos, pos ∈ tgts → position_ok pos) →
  ∃ g' q', own_edges x g i p tgts q = Some (g', q') ∧ extends g q g' q' ∧
    (tgts ≠ [] → successors g' i ≠ []).
Proof using Type.
  intros Hg Hi Hpos. unfold own_edges.
  destruct (set_owner_spec g q i p Hg Hi) as (g1 & -> & He & _).
  destruct (add_edges_spec g1 q i tgts (ex_ok _ _ _ _ He)) as (g2 & q2 & E & ? & ?).
  { by eapply extends_len. }
  { done. }
  fold f. rewrite E. eexists _, _. split_and!; [done|by eapply extends_trans|done].
Qed.

Lemma terminal_spec g q i b :
  game_ok g → i < game_len g →
  ∃ g' q', terminal g i b q = Some (g', q') ∧ extends g q g' q' ∧ successors g' i ≠ [].
Proof using Type.
  intros Hg Hi. unfold terminal. destruct (set_terminal_spec g q i b Hg Hi) as (g' & -> & ? & ?). eauto.
Qed.

(** ** One expansion *)

Definition expanded (g : ParityGame) (q : list Position) (i : nat)
    (res : option (ParityGame * list Position)) : Prop :=
  ∃ g' q', res = Some (g', q') ∧ extends g q g' q' ∧ successors g' i ≠ [].

Lemma modal_targets_ok s P t :
  body_node f B t → ∀ pos, pos ∈ modal_targets x s P t → position_ok pos.
Proof using Hc.
  intros Ht pos [tr [-> Htr]]%list_elem_of_fmap. apply elem_of_filterb in Htr as [Hin _].
  split; [|done]. by eapply ok_target.
Qed.

Lemma own_edges_expanded g q i p tgts :
  game_ok g → i < game_len g → (∀ pos, pos ∈ tgts → position_ok pos) → tgts ≠ [] →
  expanded g q i (own_edges x g i p tgts q).
Proof using Type.
  intros Hg Hi Hpos Hne. destruct (own_edges_spec g q i p tgts Hg Hi Hpos) as (g' & q' & ? & ? & ?).
  exists g', q'. auto.
Qed.

Lemma modal_expanded g q i s k gd t :
  game_ok g → i < game_len g → body_node f B t →
  expanded g q i (match g_control gd with
    | Controllable =>
      let matched tr := guard_matches_labels_and_vars c s tr gd in
      let ctrl_targets := modal_targets x s (λ tr, matched tr && is_controllable c tr) t in
      let env_targets := modal_targets x s (λ tr, matched tr && negb (is_controllable c tr)) t in
      match null env_targets, null ctrl_targets with
      | true, true => terminal g i true q
      | false, true => own_edges x g i Adam env_targets q
      | true, false => own_edges x g i Eve ctrl_targets q
      | false, false => own_edges x g i Adam (env_targets ++ ctrl_targets) q
      end
    | Control_All | Environment =>
      let* (g1, q1) := own_edges x g i (modal_owner k)
        (modal_targets x s (λ tr, transition_matches_guard tr gd c s) t) q in
      if null (successors g1 i) then terminal g1 i (match k with Box => true | Diamond => false end) q1
      else Some (g1, q1)
    end).
Proof using Hc.
  intros Hg Hi Ht.
  assert (Hall : expanded g q i (let* (g1, q1) := own_edges x g i (modal_owner k)
        (modal_targets x s (λ tr, transition_matches_guard tr gd c s) t) q in
      if null (successors g1 i) then terminal g1 i (match k with Box => true | Diamond => false end) q1
      else Some (g1, q1))).
  { destruct (own_edges_spec g q i (modal_owner k)
      (modal_targets x s (λ tr, transition_matches_guard tr gd c s) t) Hg Hi) as (g1 & q1 & -> & He & _).
    { by apply modal_targets_ok. }
    destruct (successors g1 i) as [|j js] eqn:E; simpl.
    - destruct (terminal_spec g1 q1 i (match k with Box => true | Diamond => false end)
        (ex_ok _ _ _ _ He)) as (g2 & q2 & -> & He2 & Hne); [by eapply extends_len|].
      eexists _, _. split_and!; [done|by eapply extends_trans|done].
    - eexists _, _. split_and!; [done|done|]. by rewrite E. }
  destruct (g_control gd); [done| |done].
  cbn zeta. set (env_targets := modal_targets _ _ _ _). set (ctrl_targets := modal_targets _ _ _ _).
  assert (Hc' : ∀ pos, pos ∈ ctrl_targets → position_ok pos) by (by apply modal_targets_ok).
  assert (He' : ∀ pos, pos ∈ env_targets → position_ok pos) by (by apply modal_targets_ok).
  destruct (null env_targets) eqn:E1, (null ctrl_targets) eqn:E2.
  - by apply terminal_spec.
  - apply own_edges_expanded; [done..|]. intros H. by rewrite H in E2.
  - apply own_edges_expanded; [done..|]. intros H. by rewrite H in E1.
  - apply own_edges_expanded; [done..| |].
    + intros pos [?|?]%elem_of_app; auto.
    + by destruct env_targets.
Qed.

Lemma body_node_child id n : body_node f B id → node f id = Some n →
  match n with
  | NNot inner => ∃ p, node f inner = Some (NPredicate p)
  | NAnd l r | NOr l r => body_node f B l ∧ body_node f B r
  | NModal _ _ t | NMu _ t | NNu _ t => body_node f B t
  | NVariable v => B v
  | _ => True
  end.
Proof using Type.
  intros (t & Hr & Hn & Hfv) E. unfold node in *.
  assert (Hfix : ∀ v a t, repr (nodes f) a t → is_nnf t = true →
    (∀ u, u ∈ free_vars t ∖ {[v]} ∨ u ∈ v :: bound_vars t → B u) → body_node f B a).
  { intros v a t' Hr' Hn' H. exists t'. split_and!; [done..|]. intros u Hu.
    apply H. rewrite elem_of_difference, elem_of_singleton, elem_of_cons.
    destruct (decide (u = v)); tauto. }
  destruct Hr; rewrite E in *; simplify_eq/=; try done.
  - apply Hfv. left. by apply elem_of_singleton.
  - destruct t; simpl in Hn; try done. inversion Hr; subst. eauto.
  - apply andb_true_iff in Hn as [? ?]. split; eexists; split_and!; try done; intros v Hv; apply Hfv;
      rewrite elem_of_union, elem_of_app; tauto.
  - apply andb_true_iff in Hn as [? ?]. split; eexists; split_and!; try done; intros v Hv; apply Hfv;
      rewrite elem_of_union, elem_of_app; tauto.
  - eexists. eauto.
  - by eapply Hfix.
  - by eapply Hfix.
Qed.

Lemma expand_position_spec g q i pos :
  game_ok g → positions g !! i = Some pos → expanded g q i (expand_position pos i x g q).
Proof using Hc Hbodies.
  intros Hg Hp. pose proof (position_index_lt g i pos Hp) as Hi.
  destruct (go_position g Hg i pos Hp) as [Hs Hb].
  destruct (body_node_node _ Hb) as [n Hn]. pose proof (body_node_child _ n Hb Hn) as Hch.
  unfold expand_position. fold f c. rewrite Hn.
  assert (Hat : ∀ b, body_node f B b → position_ok {| p_state := p_state pos; p_node := b |}) by done.
  destruct n; try (by apply terminal_spec).
  - destruct (Hbodies _ Hch) as (b & -> & Hbb). apply own_edges_expanded; [done..| |done].
    intros p Hp'. apply list_elem_of_singleton in Hp' as ->. by apply Hat.
  - destruct Hch as [p ->]. by apply terminal_spec.
  - destruct Hch as [Hl Hr]. apply own_edges_expanded; [done..| |done].
    intros p Hp'. apply elem_of_cons in Hp' as [->|Hp']; [by apply Hat|].
    apply list_elem_of_singleton in Hp' as ->. by apply Hat.
  - destruct Hch as [Hl Hr]. apply own_edges_expanded; [done..| |done].
    intros p Hp'. apply elem_of_cons in Hp' as [->|Hp']; [by apply Hat|].
    apply list_elem_of_singleton in Hp' as ->. by apply Hat.
  - by apply modal_expanded.
  - apply own_edges_expanded; [done..| |done]. intros p Hp'. apply list_elem_of_singleton in Hp' as ->. by apply Hat.
  - apply own_edges_expanded; [done..| |done]. intros p Hp'. apply list_elem_of_singleton in Hp' as ->. by apply Hat.
Qed.

(** ** What one expansion writes *)

(** The moves, owner and priority of a position. *)
Definition row (g : ParityGame) (j : nat) : list nat * Player * nat :=
  (successors g j, owner g j, priority g j).

(** The moves over matching transitions, a terminal when there are none. *)
Definition modal_moves (o : Player) (tgts : list Position) : bool + Player * list Position :=
  if null tgts then inl (bool_decide (o = Adam)) else inr (o, tgts).

(** The moves, owner and priority an expansion gives position [pos] of index
    [i]; [inl b] is a terminal won by Eve when [b]. *)
Definition expansion (pos : Position) : option (bool + Player * list Position) :=
  let s := p_state pos in
  let at_node n := {| p_state := s; p_node := n |} in
  let* n := node f (p_node pos) in
  match n with
  | NTrue => Some (inl true)
  | NFalse => Some (inl false)
  | NPredicate name => Some (inl (predicate_holds (bc_env x) name s))
  | NNot inner =>
    let* m := node f inner in
    match m with
    | NTrue => Some (inl false)
    | NFalse => Some (inl true)
    | NPredicate name => Some (inl (negb (predicate_holds (bc_env x) name s)))
    | _ => None
    end
  | NAnd l r => Some (inr (Adam, [at_node l; at_node r]))
  | NOr l r => Some (inr (Eve, [at_node l; at_node r]))
  | NModal k gd t =>
    match g_control gd with
    | Controllable =>
      let matched tr := guard_matches_labels_and_vars c s tr gd in
      let ctrl := modal_targets x s (λ tr, matched tr && is_controllable c tr) t in
      let env := modal_targets x s (λ tr, matched tr && negb (is_controllable c tr)) t in
      Some (modal_moves (if null env && negb (null ctrl) then Eve else Adam) (env ++ ctrl))
    | Control_All | Environment =>
      Some (modal_moves (modal_owner k) (modal_targets x s (λ tr, transition_matches_guard tr gd c s) t))
    end
  | NMu _ body | NNu _ body => Some (inr (Eve, [at_node body]))
  | NVariable v => let* body := bc_body x !! v in Some (inr (Eve, [at_node body]))
  end.

(** The rows of [g'] against [g]: [i] is written, old rows are kept and new
    positions have no moves and the priority of their node. *)
Record writes (g g' : ParityGame) (i : nat) (moves : nat → Prop) (o : Player) (p : nat) : Prop := {
  wr_moves : ∀ j, j ∈ successors g' i ↔ moves j;
  wr_owner : owner g' i = o;
  wr_priority : priority g' i = p;
  wr_frame : ∀ j, j < game_len g → j ≠ i → row g' j = row g j;
  wr_fresh : ∀ j pos, game_len g ≤ j → positions g' !! j = Some pos →
    successors g' j = [] ∧ ∃ n, node f (p_node pos) = Some n ∧ priority g' j = position_priority (bc_priority x) n
}.

Lemma no_fresh g j pos : game_len g ≤ j → positions g !! j = Some pos → False.
Proof using Type. intros Hj Hp%lookup_lt_Some. unfold game_len in Hj. lia. Qed.

Lemma set_owner_writes g i p g' :
  game_ok g → i < game_len g → set_owner g i p = Some g' →
  writes g g' i (λ j, j ∈ successors g i) p (priority g i).
Proof using Type.
  intros Hg Hi. unfold set_owner. rewrite set_at_Some by (by rewrite (go_owners g Hg)). intros [= <-].
  assert (Ho : ∀ j, default Eve (<[i := p]> (owners g) !! j) = if decide (j = i) then p else owner g j).
  { intros j. by rewrite lookup_insert_row by (by rewrite (go_owners g Hg)). }
  constructor; try done.
  - unfold owner. simpl. by rewrite Ho, decide_True.
  - intros j _ Hne. unfold row, owner. simpl. by rewrite Ho, decide_False.
  - intros j pos Hj Hp. by destruct (no_fresh g j pos).
Qed.

(** The rows after adding an entry. *)
Lemma row_push_moves g i s :
  game_ok g → i < game_len g →
  let rows := if bool_decide (s ∈ successors g i) then edges g
              else <[i := successors g i ++ [s]]> (edges g) in
  edges g !! i = Some (successors g i) ∧
  (∀ j, j ∈ default [] (rows !! i) ↔ j ∈ successors g i ∨ j = s) ∧
  (∀ j, j ≠ i → default [] (rows !! j) = successors g j).
Proof using Type.
  intros Hg Hi rows. assert (Hl : i < length (edges g)) by (by rewrite (go_edges g Hg)).
  assert (Hrow : edges g !! i = Some (successors g i)).
  { unfold successors. by destruct (lookup_lt_is_Some_2 _ _ Hl) as [r ->]. }
  unfold rows. case_bool_decide as Hin; split_and!; try done.
  - intros j. fold (successors g i). naive_solver.
  - intros j. rewrite lookup_insert_row, decide_True by done. by rewrite elem_of_app, list_elem_of_singleton.
  - intros j Hj. by rewrite lookup_insert_row, decide_False by done.
Qed.

Lemma push_edge_writes g i s g' :
  game_ok g → i < game_len g → push_edge g i s = Some g' →
  writes g g' i (λ j, j ∈ successors g i ∨ j = s) (owner g i) (priority g i) ∧ position_idx g' = position_idx g.
Proof using Type.
  intros Hg Hi. destruct (row_push_moves g i s Hg Hi) as (Hrow & Hi' & Hj). unfold push_edge.
  rewrite Hrow. intros [= <-]. split; [|done]. constructor; try done.
  - intros j _ Hne. unfold row, successors. simpl. by rewrite Hj.
  - intros j pos Hlt Hp. by destruct (no_fresh g j pos).
Qed.

Lemma set_terminal_writes g i b g' :
  game_ok g → i < game_len g → set_terminal g i b = Some g' →
  writes g g' i (λ j, j ∈ successors g i ∨ j = i) Eve (if b then 0 else 1).
Proof using Type.
  intros Hg Hi. destruct (row_push_moves g i i Hg Hi) as (Hrow & Hi' & Hj). unfold set_terminal.
  rewrite !set_at_Some, Hrow by (by rewrite ?(go_owners g Hg), ?(go_priorities g Hg), ?(go_terminal g Hg)).
  intros [= <-]. constructor; try done.
  - unfold owner. simpl. by rewrite lookup_insert_row, decide_True by (by rewrite ?(go_owners g Hg)).
  - unfold priority. simpl. by rewrite lookup_insert_row, decide_True by (by rewrite ?(go_priorities g Hg)).
  - intros j _ Hne. unfold row, successors, owner, priority. simpl.
    rewrite Hj, !lookup_insert_row, !decide_False by (by rewrite ?(go_owners g Hg), ?(go_priorities g Hg)).
    done.
  - intros j pos Hlt Hp. by destruct (no_fresh g j pos).
Qed.

(** Interning a new position keeps every row and adds a fresh one. *)
Lemma intern_rows g pos g' k :
  game_ok g → position_ok pos → position_idx g !! pos = None →
  intern_position g pos f (bc_priority x) = Some (g', k) →
  (∀ j, j < game_len g → row g' j = row g j) ∧
  (∀ j p, game_len g ≤ j → positions g' !! j = Some p → successors g' j = [] ∧
     ∃ n, node f (p_node p) = Some n ∧ priority g' j = position_priority (bc_priority x) n) ∧
  position_idx g' !! pos = Some k.
Proof using Type.
  intros Hg [_ Hb] E. unfold intern_position. rewrite E. destruct (body_node_node _ Hb) as [n Hn].
  rewrite Hn. intros [= <- <-]. simpl. split_and!; [| |by rewrite lookup_insert_eq].
  - assert (Hold : ∀ {A} (l : list A) y d j, length l = game_len g → j < game_len g →
      default d ((l ++ [y]) !! j) = default d (l !! j)).
    { intros A l y d j Hl Hj. by rewrite lookup_app_l by lia. }
    intros j Hj. unfold row, successors, owner, priority. simpl.
    rewrite !Hold; auto; [apply (go_priorities g Hg)|apply (go_owners g Hg)|apply (go_edges g Hg)].
  - intros j p Hj Hp. pose proof (lookup_lt_Some _ _ _ Hp) as Hlt.
    rewrite length_app in Hlt. simpl in Hlt. unfold game_len in Hj.
    assert (j = length (positions g)) as -> by lia. rewrite lookup_push in Hp. injection Hp as <-.
    pose proof (go_edges g Hg) as He. pose proof (go_priorities g Hg) as Hpr. unfold game_len in He, Hpr.
    unfold successors, priority. simpl. split; [by rewrite <-He, lookup_push|].
    exists n. split; [done|]. by rewrite <-Hpr, lookup_push.
Qed.

Lemma intern_writes g pos g' k i :
  game_ok g → position_ok pos → i < game_len g → position_idx g !! pos = None →
  intern_position g pos f (bc_priority x) = Some (g', k) →
  writes g g' i (λ j, j ∈ successors g i) (owner g i) (priority g i) ∧ position_idx g' !! pos = Some k.
Proof using Type.
  intros Hg Hpos Hi E Eint. destruct (intern_rows g pos g' k Hg Hpos E Eint) as (Hrow & Hnew & Hidx).
  split; [|done]. pose proof (Hrow i Hi) as Hri. unfold row in Hri. injection Hri as H1 H2 H3.
  constructor; [intros j; by rewrite H1|done|done|intros j Hj _; by apply Hrow|done].
Qed.

Lemma writes_trans g q g1 q1 g2 i M1 M2 o1 o2 p1 p2 :
  extends g q g1 q1 → i < game_len g →
  (∀ j pos, positions g1 !! j = Some pos → positions g2 !! j = Some pos) →
  writes g g1 i M1 o1 p1 → writes g1 g2 i M2 o2 p2 → writes g g2 i M2 o2 p2.
Proof using Type.
  intros He Hi Hold [_ _ _ Hf1 Hn1] [? ? ? Hf2 Hn2]. constructor; try done.
  - intros j Hj Hne. rewrite Hf2; [by apply Hf1| |done]. by eapply extends_len.
  - intros j pos Hj Hp. destruct (decide (j < game_len g1)) as [Hlt|Hlt]; [|apply Hn2; [lia|done]].
    destruct (lookup_lt_is_Some_2 (positions g1) j Hlt) as [pos' Hp'].
    assert (pos' = pos) as -> by (apply Hold in Hp'; congruence).
    assert (Hr : row g2 j = row g1 j) by (apply Hf2; [done|lia]).
    unfold row in Hr. injection Hr as -> _ ->. by apply Hn1.
Qed.

Lemma index_old g g' pos j :
  game_ok g → game_ok g' → (∀ j pos, positions g !! j = Some pos → positions g' !! j = Some pos) →
  position_idx g !! pos = Some j → position_idx g' !! pos = Some j.
Proof using Type. intros Hg Hg' Hold Hj. apply (go_index g' Hg'), Hold. by apply (go_index g Hg). Qed.

Lemma add_edge_writes g q i pos g' q' :
  game_ok g → i < game_len g → position_ok pos → add_edge g f (bc_priority x) i pos q = Some (g', q') →
  writes g g' i (λ j, j ∈ successors g i ∨ position_idx g' !! pos = Some j) (owner g i) (priority g i)
  ∧ is_Some (position_idx g' !! pos).
Proof using Type.
  intros Hg Hi Hpos. unfold add_edge.
  destruct (intern_position_spec g q pos Hg Hpos) as (g1 & k & Hint & Hk & Hext).
  destruct (position_idx g !! pos) as [k'|] eqn:E.
  - destruct (push_edge g i k') as [g2|] eqn:Ep; [|done]. intros [= <- <-].
    destruct (push_edge_writes g i k' g2 Hg Hi Ep) as [[Hm ? ? ? ?] Hidx].
    rewrite Hidx, E. split; [|done]. constructor; try done. intros j. rewrite Hm. naive_solver.
  - rewrite Hint. destruct (push_edge g1 i k) as [g2|] eqn:Ep; [|done]. intros [= <- <-].
    pose proof (ex_ok _ _ _ _ Hext) as Hg1.
    assert (Hi1 : i < game_len g1) by (by eapply extends_len).
    destruct (intern_writes g pos g1 k i Hg Hpos Hi E Hint) as [Hw1 Hidx1].
    destruct (push_edge_writes g1 i k g2 Hg1 Hi1 Ep) as [Hw2 Hidx2].
    destruct (push_edge_spec g1 (pos :: q) i k Hg1 Hi1) as (g3 & Ep' & He2 & _); [by eapply position_index_lt|].
    rewrite Ep in Ep'. injection Ep' as <-.
    pose proof (writes_trans _ _ _ _ _ _ _ _ _ _ _ _ Hext Hi (ex_old _ _ _ _ He2) Hw1 Hw2) as [Hm Ho Hp ? ?].
    rewrite Hidx2, Hidx1. split; [|done]. constructor; try done.
    + intros j. rewrite Hm, (wr_moves _ _ _ _ _ _ Hw1). naive_solver.
    + rewrite Ho. apply (wr_owner _ _ _ _ _ _ Hw1).
    + rewrite Hp. apply (wr_priority _ _ _ _ _ _ Hw1).
Qed.

Lemma add_edges_writes g q i tgts g' q' :
  game_ok g → i < game_len g → (∀ pos, pos ∈ tgts → position_ok pos) →
  add_edges g f (bc_priority x) i tgts q = Some (g', q') →
  writes g g' i (λ j, j ∈ successors g i ∨ ∃ pos, pos ∈ tgts ∧ position_idx g' !! pos = Some j)
    (owner g i) (priority g i)
  ∧ ∀ pos, pos ∈ tgts → is_Some (position_idx g' !! pos).
Proof using Type.
  revert g q. induction tgts as [|pos rest IH]; intros g q Hg Hi Hpos; simpl.
  { intros [= <- <-]. split; [|intros pos Hp; by apply not_elem_of_nil in Hp]. constructor; try done.
    - intros j. split; [by left|]. intros [?|(pos & Hp & _)]; [done|by apply not_elem_of_nil in Hp].
    - intros j p Hj Hp. by destruct (no_fresh g j p). }
  destruct (add_edge_spec g q i pos Hg Hi) as (g1 & q1 & E1 & He & _); [apply Hpos; by left|].
  rewrite E1. intros E2. pose proof (ex_ok _ _ _ _ He) as Hg1.
  assert (Hi1 : i < game_len g1) by (by eapply extends_len).
  assert (Hrest : ∀ p, p ∈ rest → position_ok p) by (intros p Hp; apply Hpos; by right).
  destruct (add_edge_writes g q i pos g1 q1 Hg Hi ltac:(apply Hpos; by left) E1) as [Hw1 [k Hk]].
  destruct (IH g1 q1 Hg1 Hi1 Hrest E2) as [Hw2 Hin2].
  destruct (add_edges_spec g1 q1 i rest Hg1 Hi1 Hrest) as (g2 & q2 & E2' & He2 & _).
  rewrite E2 in E2'. injection E2' as <- <-.
  pose proof (writes_trans _ _ _ _ _ _ _ _ _ _ _ _ He Hi (ex_old _ _ _ _ He2) Hw1 Hw2) as [Hm Ho Hp ? ?].
  pose proof (index_old g1 g' pos k Hg1 (ex_ok _ _ _ _ He2) (ex_old _ _ _ _ He2) Hk) as Hk2.
  split; [|intros p Hin; apply elem_of_cons in Hin as [->|Hin]; [by exists k|by apply Hin2]].
  constructor; try done.
  - intros j. rewrite Hm, (wr_moves _ _ _ _ _ _ Hw1). setoid_rewrite elem_of_cons. rewrite Hk. naive_solver.
  - rewrite Ho. apply (wr_owner _ _ _ _ _ _ Hw1).
  - rewrite Hp. apply (wr_priority _ _ _ _ _ _ Hw1).
Qed.

(** The rows of an expanded position. *)
Definition local_as (g : ParityGame) (i : nat) (pos : Position) (e : bool + Player * list Position) : Prop :=
  match e with
  | inl b => (∀ j, j ∈ successors g i ↔ j = i) ∧ priority g i = if b then 0 else 1
  | inr (o, tgts) =>
    owner g i = o ∧ (∀ p, p ∈ tgts → is_Some (position_idx g !! p)) ∧
    (∀ j, j ∈ successors g i ↔ ∃ p, p ∈ tgts ∧ position_idx g !! p = Some j) ∧
    ∃ n, node f (p_node pos) = Some n ∧ priority g i = position_priority (bc_priority x) n
  end.

(** A position not expanded yet. *)
Definition fresh (g : ParityGame) (i : nat) (pos : Position) : Prop :=
  successors g i = [] ∧ ∃ n, node f (p_node pos) = Some n ∧ priority g i = position_priority (bc_priority x) n.

(** [i] is expanded as [e], the other rows are as [writes] says. *)
Definition expanded_as (g g' : ParityGame) (i : nat) (pos : Position) (e : bool + Player * list Position) : Prop :=
  local_as g' i pos e ∧ ∃ M o p, writes g g' i M o p.

Lemma own_edges_writes g q i pos o tgts g' q' :
  game_ok g → i < game_len g → fresh g i pos → (∀ p, p ∈ tgts → position_ok p) →
  own_edges x g i o tgts q = Some (g', q') → expanded_as g g' i pos (inr (o, tgts)).
Proof using Type.
  intros Hg Hi [Hs Hprio] Hpos. unfold own_edges.
  destruct (set_owner_spec g q i o Hg Hi) as (g1 & E1 & He & _). rewrite E1. intros E2.
  pose proof (set_owner_writes g i o g1 Hg Hi E1) as Hw1.
  assert (Hi1 : i < game_len g1) by (by eapply extends_len).
  pose proof (ex_ok _ _ _ _ He) as Hg1. destruct (add_edges_writes g1 q i tgts g' q' Hg1 Hi1 Hpos E2) as [Hw2 Hin].
  destruct (add_edges_spec g1 q i tgts Hg1 Hi1 Hpos) as (g2 & q2 & E2' & He2 & _).
  fold f in E2. rewrite E2 in E2'. injection E2' as <- <-.
  pose proof (writes_trans _ _ _ _ _ _ _ _ _ _ _ _ He Hi (ex_old _ _ _ _ He2) Hw1 Hw2) as Hw.
  split; [|by eexists _, _, _]. destruct Hw as [Hm Ho Hp ? ?]. split_and!; [|done| |].
  - rewrite Ho. apply (wr_owner _ _ _ _ _ _ Hw1).
  - intros j. rewrite Hm, (wr_moves _ _ _ _ _ _ Hw1), Hs. split; [|by right].
    intros [H|?]; [by apply not_elem_of_nil in H|done].
  - rewrite Hp, (wr_priority _ _ _ _ _ _ Hw1). done.
Qed.

Lemma terminal_writes g q i pos b g' q' :
  game_ok g → i < game_len g → successors g i = [] → terminal g i b q = Some (g', q') →
  expanded_as g g' i pos (inl b).
Proof using Type.
  intros Hg Hi Hs. unfold terminal. destruct (set_terminal g i b) as [g1|] eqn:E; [|done].
  intros [= <- <-]. pose proof (set_terminal_writes g i b g1 Hg Hi E) as Hw.
  split; [|by eexists _, _, _]. destruct Hw as [Hm ? Hp ? ?]. split; [|done]. intros j.
  rewrite Hm, Hs. split; [|by right]. intros [H|?]; [by apply not_elem_of_nil in H|done].
Qed.

Lemma modal_all_writes g q i pos k tgts g' q' :
  game_ok g → i < game_len g → fresh g i pos → (∀ p, p ∈ tgts → position_ok p) →
  (let* (g1, q1) := own_edges x g i (modal_owner k) tgts q in
   if null (successors g1 i) then terminal g1 i (match k with Box => true | Diamond => false end) q1
   else Some (g1, q1)) = Some (g', q') →
  expanded_as g g' i pos (modal_moves (modal_owner k) tgts).
Proof using Type.
  intros Hg Hi Hf Hpos. destruct (own_edges_spec g q i (modal_owner k) tgts Hg Hi Hpos) as (g1 & q1 & E & He & Hne).
  rewrite E. pose proof (own_edges_writes g q i pos _ tgts g1 q1 Hg Hi Hf Hpos E) as [Hloc (M & o & p & Hw)].
  unfold modal_moves. destruct tgts as [|t0 ts]; simpl.
  - destruct Hloc as (_ & _ & Hm & _). assert (Hs : successors g1 i = []).
    { destruct (successors g1 i) as [|j js]; [done|].
      destruct (proj1 (Hm j)) as (p' & Hp' & _); [by left|]. by apply not_elem_of_nil in Hp'. }
    rewrite Hs. intros Et. pose proof (ex_ok _ _ _ _ He) as Hg1.
    assert (Hi1 : i < game_len g1) by (by eapply extends_len).
    destruct (terminal_writes g1 q1 i pos _ g' q' Hg1 Hi1 Hs Et) as [Hloc' (M' & o' & p' & Hw')].
    destruct (terminal_spec g1 q1 i (match k with Box => true | Diamond => false end) Hg1 Hi1)
      as (g2 & q2 & E2 & He2 & _). simpl in Et. rewrite Et in E2. injection E2 as <- <-.
    split; [by destruct k|]. eexists _, _, _. by eapply writes_trans; [| |apply (ex_old _ _ _ _ He2)| |].
  - assert (Hs : successors g1 i ≠ []) by (by apply Hne).
    destruct (successors g1 i) eqn:Es; [done|]. intros [= <- <-]. split; [done|]. by eexists _, _, _.
Qed.

Lemma expand_position_writes g q i pos g' q' :
  game_ok g → positions g !! i = Some pos → fresh g i pos →
  expand_position pos i x g q = Some (g', q') →
  ∃ e, expansion pos = Some e ∧ expanded_as g g' i pos e.
Proof using Hc Hbodies.
  intros Hg Hp Hf. pose proof (position_index_lt g i pos Hp) as Hi. pose proof (proj1 Hf) as Hs0.
  destruct (go_position g Hg i pos Hp) as [Hs Hb].
  destruct (body_node_node _ Hb) as [n Hn]. pose proof (body_node_child _ n Hb Hn) as Hch.
  unfold expand_position, expansion. fold f c. rewrite Hn.
  assert (Hat : ∀ b, body_node f B b → ∀ p, p ∈ [{| p_state := p_state pos; p_node := b |}] → position_ok p).
  { intros b Hbb p Hp'. apply list_elem_of_singleton in Hp' as ->. by split. }
  assert (Hat2 : ∀ a b, body_node f B a → body_node f B b → ∀ p, p ∈ [{| p_state := p_state pos; p_node := a |};
    {| p_state := p_state pos; p_node := b |}] → position_ok p).
  { intros a b Ha Hbb p Hp'. apply elem_of_cons in Hp' as [->|Hp']; [by split|by apply (Hat b)]. }
  destruct n; try (intros E; eexists; split; [done|by eapply terminal_writes]).
  - destruct (Hbodies _ Hch) as (b & -> & Hbb). intros E. eexists. split; [done|]. eapply own_edges_writes; eauto.
  - destruct Hch as [p ->]. intros E. eexists. split; [done|by eapply terminal_writes].
  - destruct Hch. intros E. eexists. split; [done|]. eapply own_edges_writes; eauto.
  - destruct Hch. intros E. eexists. split; [done|]. eapply own_edges_writes; eauto.
  - pose proof (λ P, modal_targets_ok (p_state pos) P target Hch) as Htgt.
    destruct (g_control guard).
    { intros E. eexists. split; [done|]. eapply modal_all_writes; eauto. }
    2:{ intros E. eexists. split; [done|]. eapply modal_all_writes; eauto. }
    cbn zeta. set (env := modal_targets _ _ _ _). set (ctrl := modal_targets _ _ _ _).
    assert (He : ∀ p, p ∈ env → position_ok p) by apply Htgt.
    assert (Hct : ∀ p, p ∈ ctrl → position_ok p) by apply Htgt.
    intros E. eexists. split; [done|]. clearbody env ctrl.
    destruct env as [|e0 env]; destruct ctrl as [|c0 ctrl]; simpl in *.
    + by eapply terminal_writes.
    + eapply own_edges_writes; eauto.
    + rewrite app_nil_r. eapply own_edges_writes; eauto.
    + eapply own_edges_writes; eauto. intros p [?|?]%(elem_of_app (e0 :: env)); auto.
  - intros E. eexists. split; [done|]. eapply own_edges_writes; eauto.
  - intros E. eexists. split; [done|]. eapply own_edges_writes; eauto.
Qed.

(** ** The worklist *)

(** The positions a game can have. *)
Definition all_positions : list Position :=
  flat_map (λ s, map (λ m, {| p_state := s; p_node := m |}) (seq 0 (length (nodes f)))) (seq 0 (state_count c)).

Lemma length_all_positions ss : length (flat_map (λ s, map (λ m, {| p_state := s; p_node := m |})
  (seq 0 (length (nodes f)))) ss) = length ss * length (nodes f).
Proof using Type.
  induction ss as [|s ss IH]; [done|]. simpl. by rewrite length_app, length_map, length_seq, IH.
Qed.

Lemma game_len_bound g : game_ok g → game_len g ≤ state_count c * length (nodes f).
Proof using Type.
  intros Hg. rewrite <-(length_seq (state_count c) 0), <-length_all_positions. fold all_positions.
  apply submseteq_length, NoDup_submseteq.
  - apply NoDup_alt. intros i j pos Hi Hj. apply (go_index g Hg) in Hi, Hj. congruence.
  - intros pos [i Hi]%list_elem_of_lookup_1. destruct (go_position g Hg i pos Hi) as [Hs Hb].
    apply body_node_node in Hb as [n Hn%lookup_lt_Some].
    apply list_elem_of_In, in_flat_map. exists (p_state pos). rewrite <-!list_elem_of_In. split.
    + apply elem_of_seq. lia.
    + apply list_elem_of_fmap. exists (p_node pos). split; [by destruct pos|]. apply elem_of_seq. lia.
Qed.

(** Every position is expanded or waits in the queue. *)
Definition pending (g : ParityGame) (q : list Position) : Prop :=
  (∀ i pos, positions g !! i = Some pos → successors g i ≠ [] ∨ pos ∈ q) ∧
  (∀ pos, pos ∈ q → ∃ i, positions g !! i = Some pos).

Definition measure (g : ParityGame) (q : list Position) : nat :=
  length q + (state_count c * length (nodes f) - game_len g).

(** Every position with moves has those of its node. *)
Definition faithful (g : ParityGame) : Prop :=
  ∀ i pos, positions g !! i = Some pos →
    fresh g i pos ∨ (successors g i ≠ [] ∧ ∃ e, expansion pos = Some e ∧ local_as g i pos e).

Lemma local_as_keep g g' i pos e :
  game_ok g → game_ok g' → (∀ j p, positions g !! j = Some p → positions g' !! j = Some p) →
  row g' i = row g i → local_as g i pos e → local_as g' i pos e.
Proof using Type.
  intros Hg Hg' Hold Hrow. unfold row in Hrow. injection Hrow as Hs Ho Hp.
  destruct e as [b|[o tgts]]; simpl; rewrite Hs, Hp, ?Ho; [done|].
  intros (? & Hin & Hm & ?). split_and!; [done| | |done].
  - intros p Hpt. destruct (Hin p Hpt) as [j Hj]. exists j. by apply (index_old g g').
  - intros j. rewrite Hm. split; intros (p & Hpt & Hj); exists p; split; try done; [by apply (index_old g g')|].
    destruct (Hin p Hpt) as [j' Hj']. pose proof (index_old g g' p j' Hg Hg' Hold Hj'). congruence.
Qed.

Lemma faithful_step g q g' q' i pos e :
  game_ok g → extends g q g' q' → positions g !! i = Some pos → successors g' i ≠ [] →
  expansion pos = Some e → expanded_as g g' i pos e → faithful g → faithful g'.
Proof using Type.
  intros Hg He Hi Hne Hexp [Hloc (M & o & p & Hw)] Hf j p' Hj.
  pose proof (ex_old _ _ _ _ He) as Hold.
  destruct (decide (j = i)) as [->|Hji].
  { right. split; [done|]. exists e. apply Hold in Hi. assert (p' = pos) as -> by congruence. done. }
  destruct (decide (j < game_len g)) as [Hlt|Hlt]; [|left; apply (wr_fresh _ _ _ _ _ _ Hw); [lia|done]].
  destruct (lookup_lt_is_Some_2 (positions g) j Hlt) as [p0 Hp0].
  assert (p0 = p') as -> by (apply Hold in Hp0; congruence).
  pose proof (wr_frame _ _ _ _ _ _ Hw j Hlt Hji) as Hrow.
  destruct (Hf j p' Hp0) as [Hfr|[Hs (e' & ? & ?)]].
  - left. unfold row in Hrow. injection Hrow as H1 _ H2. unfold fresh. by rewrite H1, H2.
  - right. split; [unfold row in Hrow; injection Hrow as ->; done|]. exists e'. split; [done|].
    apply (local_as_keep g g'); try done. apply (ex_ok _ _ _ _ He).
Qed.

Lemma pending_step g g' i pos rest q' :
  game_ok g → positions g !! i = Some pos → extends g rest g' q' → successors g' i ≠ [] →
  pending g (pos :: rest) → pending g' q'.
Proof using Type.
  intros Hg Hi He Hne [Hp Hq]. split.
  - intros j p Hj. destruct (ex_new _ _ _ _ He j p Hj) as [Hj'|]; [|by right].
    destruct (Hp j p Hj') as [Hs|[->|Hin]%elem_of_cons].
    + left. by apply (ex_moves _ _ _ _ He).
    + left. apply (go_index g Hg) in Hi, Hj'. rewrite Hi in Hj'. injection Hj' as <-. done.
    + right. by apply (ex_queue _ _ _ _ He).
  - intros p Hin. destruct (ex_queued _ _ _ _ He p Hin) as [Hin'|?]; [|done].
    destruct (Hq p) as [j Hj]; [by right|]. exists j. by apply (ex_old _ _ _ _ He).
Qed.

Lemma expand_all_spec fuel g q :
  game_ok g → pending g q → faithful g → measure g q ≤ fuel →
  ∃ g', expand_all fuel x g q = Some g' ∧ game_ok g' ∧ pending g' [] ∧ faithful g' ∧
    ∀ i pos, positions g !! i = Some pos → positions g' !! i = Some pos.
Proof using Hc Hbodies.
  revert g q. induction fuel as [|k IH]; intros g [|pos rest] Hg Hpend Hf Hm; try (by exists g).
  { unfold measure in Hm. simpl in Hm. lia. }
  cbn [expand_all]. destruct Hpend as [Hp Hq]. destruct (Hq pos) as [i Hi]; [by left|].
  rewrite (proj2 (go_index g Hg pos i) Hi).
  assert (Hm' : measure g rest ≤ k) by (unfold measure in *; simpl in Hm; lia).
  destruct (negb (null (successors g i)) || _) eqn:Hskip.
  - apply IH; [done| |done|done]. split; [|intros p Hin; apply Hq; by right].
    intros j p Hj. destruct (Hp j p Hj) as [?|[->|?]%elem_of_cons]; [by left| |by right]. left.
    apply (go_index g Hg) in Hi, Hj. rewrite Hi in Hj. injection Hj as <-.
    apply orb_true_iff in Hskip as [Hs|Ht%bool_decide_eq_true]; [by destruct (successors g i)|].
    by apply (go_terminals g Hg).
  - apply orb_false_iff in Hskip as [Hskip _].
    destruct (expand_position_spec g rest i pos Hg Hi) as (g' & q' & E & He & Hne).
    assert (Hfr : fresh g i pos).
    { destruct (Hf i pos Hi) as [?|[Hs _]]; [done|]. by destruct (successors g i). }
    destruct (expand_position_writes g rest i pos g' q' Hg Hi Hfr E) as (e & Hexp & Has).
    rewrite E. destruct (IH g' q') as (g2 & -> & ? & ? & ? & Hold).
    + apply (ex_ok _ _ _ _ He).
    + by eapply pending_step.
    + by eapply faithful_step.
    + pose proof (game_len_bound g' (ex_ok _ _ _ _ He)). pose proof (ex_count _ _ _ _ He).
      unfold measure in *. simpl in Hm. lia.
    + exists g2. split_and!; [done..|]. intros j p Hj. by apply Hold, (ex_old _ _ _ _ He).
Qed.

Lemma game_ok_empty : game_ok (empty_game f).
Proof using Type.
  constructor; try done.
  - intros i s H. unfold successors in H. simpl in H. by apply not_elem_of_nil in H.
Qed.

Lemma intern_fresh g q pos g' k :
  game_ok g → position_ok pos → position_idx g !! pos = None → extends g q g' (pos :: q) →
  intern_position g pos f (bc_priority x) = Some (g', k) →
  (∀ i p, positions g !! i = Some p → fresh g i p) → ∀ i p, positions g' !! i = Some p → fresh g' i p.
Proof using Type.
  intros Hg Hpos E Hext Eint Hf i p Hi.
  destruct (intern_rows g pos g' k Hg Hpos E Eint) as (Hrow & Hnew & _).
  destruct (decide (i < game_len g)) as [Hlt|Hlt]; [|by apply Hnew; [lia|]].
  destruct (lookup_lt_is_Some_2 (positions g) i Hlt) as [p0 Hp0].
  assert (p0 = p) as -> by (apply (ex_old _ _ _ _ Hext) in Hp0; congruence).
  specialize (Hrow i Hlt). unfold row in Hrow. injection Hrow as H1 _ H2.
  unfold fresh. rewrite H1, H2. by apply Hf.
Qed.

Lemma intern_initials_spec inits g q :
  game_ok g → pending g q → (∀ i pos, positions g !! i = Some pos → fresh g i pos) →
  body_node f B (root f) → (∀ s, s ∈ inits → s < state_count c) →
  ∃ g' q', intern_initials inits f (bc_priority x) g q = Some (g', q') ∧ game_ok g' ∧ pending g' q' ∧
    (∀ i pos, positions g' !! i = Some pos → fresh g' i pos) ∧
    length q' = length q + length inits ∧
    (∀ i pos, positions g !! i = Some pos → positions g' !! i = Some pos) ∧
    ∀ s, s ∈ inits → ∃ i, positions g' !! i = Some {| p_state := s; p_node := root f |}.
Proof using Type.
  intros Hg Hq Hf Hr. revert g q Hg Hq Hf. induction inits as [|s rest IH]; intros g q Hg [Hp Hq] Hf Hs; simpl.
  { eexists _, _. split_and!; [done..|lia|done|]. intros s H. by apply not_elem_of_nil in H. }
  set (pos := {| p_state := s; p_node := root f |}).
  assert (Hpos : position_ok pos) by (split; [apply Hs; by left|done]).
  destruct (intern_position_spec g q pos Hg Hpos) as (g1 & i & Eint & Hi & Hext).
  rewrite Eint. assert (H1 : game_ok g1 ∧ pending g1 (pos :: q) ∧
    (∀ i pos, positions g1 !! i = Some pos → fresh g1 i pos) ∧
    ∀ i pos, positions g !! i = Some pos → positions g1 !! i = Some pos).
  { destruct (position_idx g !! pos) as [j|] eqn:E.
    - subst g1. split_and!; [done| |done|done]. split.
      + intros k p Hk. destruct (Hp k p Hk); [by left|right; by right].
      + intros p [->|Hin]%elem_of_cons; [by exists i|by apply Hq].
    - split_and!; [apply (ex_ok _ _ _ _ Hext)| |by eapply intern_fresh|apply (ex_old _ _ _ _ Hext)]. split.
      + intros k p Hk. destruct (ex_new _ _ _ _ Hext k p Hk) as [Hk'|]; [|by right].
        destruct (Hp k p Hk'); [left; by apply (ex_moves _ _ _ _ Hext)|right; by right].
      + intros p [->|Hin]%elem_of_cons; [by exists i|]. destruct (Hq p Hin) as [j Hj].
        exists j. by apply (ex_old _ _ _ _ Hext). }
  destruct H1 as (Hg1 & Hq1 & Hf1 & Hold1).
  destruct (IH g1 (pos :: q) Hg1 Hq1 Hf1) as (g2 & q2 & -> & ? & ? & ? & Hl & Hold2 & Hin2).
  { intros s' Hs'. apply Hs. by right. }
  eexists _, _. split_and!; [done..|simpl in Hl; lia|auto|].
  intros s' [->|Hs']%elem_of_cons; [exists i; by apply Hold2|by apply Hin2].
Qed.

(** A finished game has no dead end. *)
Lemma finished_total g : game_ok g → pending g [] → game_total g.
Proof using Type.
  intros Hg [Hp _]. constructor; [apply (go_owners g Hg)|apply (go_priorities g Hg)|apply (go_edges g Hg)|apply (go_range g Hg)|].
  intros i Hi. destruct (lookup_lt_is_Some_2 (positions g) i Hi) as [pos Hpos].
  destruct (Hp i pos Hpos) as [?|H]; [done|by apply not_elem_of_nil in H].
Qed.
End expansion.

(** ** The construction on a closed formula *)

Lemma nnf_closed t : well_named t → free_vars (nnf_tree false t (0, ∅)).1 = ∅.
Proof.
  intros Hw. apply set_eq. intros w. split; [|by intros []%not_elem_of_empty].
  intros (v & Hv & _)%nnf_free; [|by apply well_named_separate].
  destruct Hw as [_ Hf]. by rewrite Hf in Hv.
Qed.

Lemma assign_var_priorities_total f t :
  wf_formula f → formula_tree f t → ∃ vp, assign_var_priorities f = Some vp.
Proof.
  intros Hwf Ht. unfold assign_var_priorities, fixpoint_nesting_order.
  rewrite (collect_fixpoint_order_spec _ _ t) by (done || by apply formula_tree_fuel). eauto.
Qed.

(** The variables of a tree. *)
Definition vars_of (u : Tree) : nat → Prop := λ v, v ∈ free_vars u ∨ v ∈ bound_vars u.

(** The construction, with the context it expands the positions in. *)
Lemma build_parity_game_spec f t c e inits :
  clts_ok c → closed_formula f t → (∀ s, s ∈ inits → s < state_count c) →
  let u := (nnf_tree false t (0, ∅)).1 in
  ∃ nf x, to_nnf f = Some nf ∧ wf_formula nf ∧ formula_tree nf u ∧
    bc_formula x = nf ∧ bc_clts x = c ∧ bc_env x = e ∧
    collect_var_bodies (length (nodes nf)) nf (root nf) ∅ = Some (bc_body x) ∧
    assign_var_priorities nf = Some (bc_priority x) ∧
    ∀ fuel, length inits + state_count c * length (nodes nf) ≤ fuel →
    ∃ g, build_parity_game fuel f c e inits = Some g ∧ game_ok x (vars_of u) g ∧ game_total g ∧ faithful x g ∧
      ∀ s, s ∈ inits → ∃ i, position_idx g !! {| p_state := s; p_node := root nf |} = Some i.
Proof.
  intros Hc [Hwf Ht Hb Hw] Hin u. destruct (to_nnf_tree f t Hwf Ht Hb) as (nf & Hnf & Hwf' & Ht').
  fold u in Ht'. assert (Hnnf : is_nnf u = true) by apply nnf_tree_is_nnf.
  destruct (assign_var_priorities_total nf u Hwf' Ht') as [vp Hvp].
  destruct (collect_var_bodies_spec nf (root nf) u (length (nodes nf)) ∅ Ht') as (bodies & Hcol & Hbodies);
    [by apply formula_tree_fuel|done|].
  set (x := {| bc_formula := nf; bc_clts := c; bc_env := e; bc_priority := vp; bc_body := bodies |}).
  exists nf, x. split_and!; [done..|]. intros fuel Hfuel. unfold build_parity_game. rewrite Hnf, Hvp, Hcol.
  fold x. assert (Hfree : free_vars u = ∅) by (by apply nnf_closed).
  assert (HB : ∀ v, vars_of u v → ∃ b, bc_body x !! v = Some b ∧ body_node (bc_formula x) (vars_of u) b).
  { destruct Hbodies as [Hb1 Hb2].
    intros v [Hv|Hv]; [rewrite Hfree in Hv; by apply not_elem_of_empty in Hv|].
    destruct (Hb1 v) as [b Hvb]; [by left|]. exists b. split; [done|].
    destruct (Hb2 v b Hvb) as [H|?]; [by rewrite lookup_empty in H|done]. }
  destruct (intern_initials_spec x (vars_of u) inits (empty_game nf) [])
    as (g & q & Hint & Hg & Hq & Hfr & Hlen & _ & Hinit).
  { apply game_ok_empty. }
  { split; [done|]. intros pos H. by apply not_elem_of_nil in H. }
  { done. }
  { exists u. done. }
  { done. }
  simpl in Hint. rewrite Hint.
  destruct (expand_all_spec x (vars_of u) Hc HB fuel g q Hg Hq) as (g' & E & Hg' & Hq' & Hf' & Hold).
  { intros i pos Hi. left. by apply Hfr. }
  { unfold measure. simpl in *. lia. }
  rewrite E. exists g'. split_and!; [done|done|by eapply finished_total|done|].
  intros s Hs. destruct (Hinit s Hs) as [i Hi]. exists i. apply (go_index _ _ _ Hg'). by apply Hold.
Qed.

(** C38: the construction never panics and terminates. On a system and a closed
    formula whose negation normal form is [nf], [build_parity_game] returns when
    the fuel covers the initial states and every pair of a state and a node of
    [nf]; no negation over a compound node and no variable without binder is
    met. The game is total, so [solve] decides it, has one vector entry per
    position and at most that many positions, keeps [nf], and has a position
    for [nf]'s root at every initial state. *)
Theorem build_parity_game_total f t c e inits :
  clts_ok c → closed_formula f t → (∀ s, s ∈ inits → s < state_count c) →
  ∃ nf, to_nnf f = Some nf ∧
    ∀ fuel, length inits + state_count c * length (nodes nf) ≤ fuel →
    ∃ g, build_parity_game fuel f c e inits = Some g ∧ game_total g ∧ g_formula g = nf ∧
      length (owners g) = game_len g ∧ length (priorities g) = game_len g ∧
      game_len g ≤ state_count c * length (nodes nf) ∧
      ∀ s, s ∈ inits → ∃ i, position_idx g !! {| p_state := s; p_node := root nf |} = Some i.
Proof.
  intros Hc Hf Hin. destruct (build_parity_game_spec f t c e inits Hc Hf Hin)
    as (nf & x & Hnf & _ & _ & Hx & Hxc & _ & _ & _ & Hbuild).
  exists nf. split; [done|]. intros fuel Hfuel.
  destruct (Hbuild fuel Hfuel) as (g & Hg & Hok & Htot & _ & Hinit). exists g.
  split_and!; [done|done|by rewrite (go_formula _ _ _ Hok)|apply (go_owners _ _ _ Hok)|
    apply (go_priorities _ _ _ Hok)| |done].
  rewrite <-Hxc, <-Hx. by apply (game_len_bound x (vars_of (nnf_tree false t (0, ∅)).1)).
Qed.

(** ** Witnesses *)

Lemma build_parity_game_total_witness :
  ∃ nf, to_nnf ex_recoverability = Some nf ∧
    ∀ fuel, length [0] + state_count demo_clts * length (nodes nf) ≤ fuel →
    ∃ g, build_parity_game fuel ex_recoverability demo_clts demo_env [0] = Some g ∧ game_total g ∧
      g_formula g = nf ∧ length (owners g) = game_len g ∧ length (priorities g) = game_len g ∧
      game_len g ≤ state_count demo_clts * length (nodes nf) ∧
      ∀ s, s ∈ [0] → ∃ i, position_idx g !! {| p_state := s; p_node := root nf |} = Some i.
Proof.
  apply (build_parity_game_total ex_recoverability demo_tree demo_clts demo_env [0]).
  - apply demo_clts_ok.
  - apply demo_closed.
  - intros s ->%list_elem_of_singleton. vm_compute. lia.
Defined.
