(* ===== verification/GameCorrect.v ===== *)
(** What the model-checking game decides.

    A variable's position leads to the body of its binder, so a play passes a
    binder position at most once unless an outer fixpoint leads back to it, and
    only binders carry the priorities of fixpoints.  [game_solves_as_greatest]
    is the consequence: on every formula whose least fixpoints lie outside all
    other fixpoints, Eve wins the initial position exactly when the initial state
    satisfies the formula with every fixpoint read as a greatest one.  Where the
    formula has no least fixpoint this is the formula itself, and the game agrees
    with the evaluator ([safety_game_correct]); where it has one, it is not, in
    either direction ([game_least_as_greatest]).  The file also shows that the
    strategy [solve] records is not a winning one in general
    ([eve_strategy_loses]) and that the game does not read the bound of a
    bounded modality ([game_ignores_steps]). *)
From S2P Require Import Prelude Formula Trit Clts Modal Evaluator Semantics Domains Checking Verdicts Divergences Transforms ParityGame GameBuild.

(** ** Trees *)

Fixpoint all_greatest (t : Tree) : Tree :=
  match t with
  | TTrue | TFalse | TPred _ | TVar _ => t
  | TNot t => TNot (all_greatest t)
  | TAnd l r => TAnd (all_greatest l) (all_greatest r)
  | TOr l r => TOr (all_greatest l) (all_greatest r)
  | TModal k g t => TModal k g (all_greatest t)
  | TFix _ v t => TFix Greatest v (all_greatest t)
  end.

(** No least fixpoint lies inside a fixpoint. *)
Fixpoint outer_least (t : Tree) : bool :=
  match t with
  | TTrue | TFalse | TPred _ | TVar _ => true
  | TNot t | TModal _ _ t => outer_least t
  | TAnd l r | TOr l r => outer_least l && outer_least r
  | TFix _ _ t => negb (has_fix Least t)
  end.

Lemma all_greatest_free t : free_vars (all_greatest t) = free_vars t.
Proof. induction t; simpl; congruence. Qed.
Lemma all_greatest_bound t : bound_vars (all_greatest t) = bound_vars t.
Proof. induction t; simpl; congruence. Qed.

Lemma all_greatest_id t : has_fix Least t = false → all_greatest t = t.
Proof.
  induction t as [| | | |t IH|l IHl r IHr|l IHl r IHr|k g t IH|k v t IH]; simpl; try done.
  - intros H. by rewrite IH.
  - intros [? ?]%orb_false_iff. by rewrite IHl, IHr.
  - intros [? ?]%orb_false_iff. by rewrite IHl, IHr.
  - intros H. by rewrite IH.
  - intros [Hk ?]%orb_false_iff. rewrite IH by done. by destruct k.
Qed.

Lemma all_greatest_occurs pol v t : occurs_only pol v (all_greatest t) = occurs_only pol v t.
Proof.
  revert pol. induction t as [| | | |t IH|l IHl r IHr|l IHl r IHr|k g t IH|k w t IH];
    intros pol; simpl; rewrite ?IHl, ?IHr; try done. by destruct (_ =? _).
Qed.

(** Binders of a rewritten formula are numbered in preorder. *)
Lemma nnf_bound negate t s :
  bound_vars (nnf_tree negate t s).1 = seq s.1 (length (bound_vars t)) ∧
  (nnf_tree negate t s).2.1 = s.1 + length (bound_vars t).
Proof.
  revert negate s. induction t as [| |p|v|t IH|l IHl r IHr|l IHl r IHr|k g t IH|k v t IH];
    intros negate s; simpl; try (by destruct negate; simpl; auto).
  - destruct (IHl negate s) as [Hl1 Hl2]. destruct (nnf_tree negate l s) as [tl s1].
    destruct (IHr negate s1) as [Hr1 Hr2]. destruct (nnf_tree negate r s1) as [tr s2]. simpl in *.
    rewrite length_app, seq_app, <-Hl1, <-Hl2. split; [|lia]. rewrite <-Hr1. by destruct negate.
  - destruct (IHl negate s) as [Hl1 Hl2]. destruct (nnf_tree negate l s) as [tl s1].
    destruct (IHr negate s1) as [Hr1 Hr2]. destruct (nnf_tree negate r s1) as [tr s2]. simpl in *.
    rewrite length_app, seq_app, <-Hl1, <-Hl2. split; [|lia]. rewrite <-Hr1. by destruct negate.
  - specialize (IH negate s). destruct (nnf_tree negate t s) as [t' s1]. by destruct negate.
  - specialize (IH negate (bind_name v s)). destruct (nnf_tree negate t (bind_name v s)) as [t' s1].
    simpl in *. destruct IH as [-> ->]. split; [done|lia].
Qed.

Lemma nnf_well_named t : well_named t → well_named (nnf_tree false t (0, ∅)).1.
Proof.
  intros Hw. split; [|by apply nnf_closed].
  destruct (nnf_bound false t (0, ∅)) as [-> _]. apply NoDup_seq.
Qed.

(** ** Solved environments *)

Section environment.
Context (c : Clts) (e : EvalEnvironment) (Hc : clts_ok c).
Let n := state_count c.

(** [sat] depends on the free variables only. *)
Lemma sat_free t ρ ρ' s :
  (∀ v s, v ∈ free_vars t → s < n → ρ v s ↔ ρ' v s) → s < n → sat c e t ρ s ↔ sat c e t ρ' s.
Proof using Hc.
  revert ρ ρ' s. induction t as [| |p|v|t IH|l IHl r IHr|l IHl r IHr|k g t IH|k v t IH];
    intros ρ ρ' s H Hs; simpl in *; try done.
  - apply H; [by apply elem_of_singleton|done].
  - by rewrite (IH ρ ρ').
  - rewrite (IHl ρ ρ'), (IHr ρ ρ'); try done; intros; apply H; try done; apply elem_of_union; auto.
  - rewrite (IHl ρ ρ'), (IHr ρ ρ'); try done; intros; apply H; try done; apply elem_of_union; auto.
  - split; apply step_mono; try done; intros s' Hs'; by apply (IH ρ ρ').
  - assert (HS : ∀ S s', s' < n → sat c e t (upd ρ v S) s' ↔ sat c e t (upd ρ' v S) s').
    { intros S s' Hs'. apply IH; [|done]. intros u s0 Hu Hs0. unfold upd. case_decide; [done|].
      apply H; [|done]. apply elem_of_difference. by rewrite elem_of_singleton. }
    destruct k; split.
    + intros Hf S HS'. apply Hf. intros s' Hs' Hsat. apply HS'; [done|]. by apply HS.
    + intros Hf S HS'. apply Hf. intros s' Hs' Hsat. apply HS'; [done|]. by apply HS.
    + intros (S & HS' & ?). exists S. split; [|done]. intros s' Hs' ?. by apply HS, HS'.
    + intros (S & HS' & ?). exists S. split; [|done]. intros s' Hs' ?. by apply HS, HS'.
Qed.

(** Every bound variable holds the meaning of its binder. *)
Fixpoint solves (ρ : nat → nat → Prop) (t : Tree) : Prop :=
  match t with
  | TTrue | TFalse | TPred _ | TVar _ => True
  | TNot t | TModal _ _ t => solves ρ t
  | TAnd l r | TOr l r => solves ρ l ∧ solves ρ r
  | TFix k v b => (∀ s, s < n → ρ v s ↔ sat c e (TFix k v b) ρ s) ∧ solves ρ b
  end.

Fixpoint scope (t : Tree) (ρ : nat → nat → Prop) : nat → nat → Prop :=
  match t with
  | TTrue | TFalse | TPred _ | TVar _ => ρ
  | TNot t | TModal _ _ t => scope t ρ
  | TAnd l r | TOr l r => scope r (scope l ρ)
  | TFix k v b => scope b (upd ρ v (sat c e (TFix k v b) ρ))
  end.

Lemma scope_keeps t ρ v : v ∉ bound_vars t → scope t ρ v = ρ v.
Proof using Type.
  revert ρ. induction t as [| |p|w|t IH|l IHl r IHr|l IHl r IHr|k g t IH|k w t IH];
    intros ρ; simpl; try done; try apply IH.
  - intros [? ?]%not_elem_of_app. by rewrite IHr, IHl.
  - intros [? ?]%not_elem_of_app. by rewrite IHr, IHl.
  - intros [? ?]%not_elem_of_cons. rewrite IH by done. unfold upd. by rewrite decide_False.
Qed.

Lemma solves_ext t ρ ρ' :
  (∀ v, v ∈ free_vars t ∨ v ∈ bound_vars t → ρ v = ρ' v) → solves ρ t → solves ρ' t.
Proof using Hc.
  induction t as [| |p|w|t IH|l IHl r IHr|l IHl r IHr|k g t IH|k w t IH]; simpl; try done; intros H.
  - setoid_rewrite elem_of_union in H. setoid_rewrite elem_of_app in H. intros [? ?]. split;
      [apply IHl|apply IHr]; try done; intros v [?|?]; apply H; auto.
  - setoid_rewrite elem_of_union in H. setoid_rewrite elem_of_app in H. intros [? ?]. split;
      [apply IHl|apply IHr]; try done; intros v [?|?]; apply H; auto.
  - setoid_rewrite elem_of_difference in H. setoid_rewrite elem_of_singleton in H.
    setoid_rewrite elem_of_cons in H. intros [H1 H2]. split.
    + intros s Hs. rewrite <-(H w) by auto. rewrite H1 by done. apply (sat_free (TFix k w t)); [|done].
      intros v s' Hv _. simpl in Hv. rewrite elem_of_difference, elem_of_singleton in Hv. by rewrite H by auto.
    + apply IH; [|done]. intros v Hv. apply H. destruct (decide (v = w)); tauto.
Qed.

Lemma scope_solves t ρ : separate t → solves (scope t ρ) t.
Proof using Hc.
  revert ρ. induction t as [| |p|w|t IH|l IHl r IHr|l IHl r IHr|k g t IH|k w t IH];
    intros ρ Hsep; simpl; try done; try (by apply IH).
  - destruct (separate_children l r Hsep) as (? & ? & ?). destruct Hsep as [Hnd Hfr]. simpl in *.
    apply NoDup_app in Hnd as (_ & Hlr & _). split; [|by apply IHr].
    apply (solves_ext l (scope l ρ)); [|by apply IHl]. intros v Hv. symmetry. apply scope_keeps.
    intros Hr. destruct Hv as [Hv|Hv]; [|by apply (Hlr v)].
    apply (Hfr v); [apply elem_of_app; by right|apply elem_of_union; by left].
  - destruct (separate_children l r Hsep) as (? & ? & ?). destruct Hsep as [Hnd Hfr]. simpl in *.
    apply NoDup_app in Hnd as (_ & Hlr & _). split; [|by apply IHr].
    apply (solves_ext l (scope l ρ)); [|by apply IHl]. intros v Hv. symmetry. apply scope_keeps.
    intros Hr. destruct Hv as [Hv|Hv]; [|by apply (Hlr v)].
    apply (Hfr v); [apply elem_of_app; by right|apply elem_of_union; by left].
  - split; [|by apply IH, (separate_fix k w)]. intros s Hs.
    destruct Hsep as [Hnd Hfr]. simpl in *. apply NoDup_cons in Hnd as [Hw Hnd].
    rewrite scope_keeps by done. unfold upd at 1. rewrite decide_True by done.
    apply (sat_free (TFix k w t)); [|done]. intros v s' Hv Hs'. simpl in Hv.
    rewrite scope_keeps by (intros Hb; apply (Hfr v); [by right|done]).
    apply elem_of_difference in Hv as [_ Hne]. rewrite elem_of_singleton in Hne.
    unfold upd. by rewrite decide_False.
Qed.

(** A greatest fixpoint unfolds in a solved environment. *)
Lemma greatest_unfold v b ρ s :
  occurs_only true v b = true → s < n → (∀ s, s < n → ρ v s ↔ sat c e (TFix Greatest v b) ρ s) →
  sat c e (TFix Greatest v b) ρ s → sat c e b ρ s.
Proof using Hc.
  intros Hocc Hs Hv (S & HS & HSs). set (x := mk_ctx c e EvaluationOptions_default).
  assert (Hle : ∀ s', s' < n → S s' → ρ v s').
  { intros s' Hs' H. apply Hv; [done|]. by exists S. }
  apply (sat_mono x b true v (upd ρ v S) ρ s Hc Hocc); [|done|by apply HS].
  split.
  - intros s' Hs'. unfold upd. rewrite decide_True by done. by apply Hle.
  - intros w Hw. unfold upd. rewrite decide_False by done. split; apply holds_on_refl.
Qed.
End environment.

(** ** Occurrences in the arena *)

(** The nodes of a tree, with the body each binder variable is mapped to. *)
Fixpoint mapped (ns : list Node) (m : gmap FormulaVarId NodeId) (id : NodeId) (t : Tree) : Prop :=
  match t with
  | TTrue => ns !! id = Some NTrue
  | TFalse => ns !! id = Some NFalse
  | TPred p => ns !! id = Some (NPredicate p)
  | TVar v => ns !! id = Some (NVariable v)
  | TNot t => ∃ a, ns !! id = Some (NNot a) ∧ mapped ns m a t
  | TAnd l r => ∃ a b, ns !! id = Some (NAnd a b) ∧ mapped ns m a l ∧ mapped ns m b r
  | TOr l r => ∃ a b, ns !! id = Some (NOr a b) ∧ mapped ns m a l ∧ mapped ns m b r
  | TModal k g t => ∃ a, ns !! id = Some (NModal k g a) ∧ mapped ns m a t
  | TFix k v t => ∃ b, ns !! id = Some (match k with Least => NMu v b | Greatest => NNu v b end)
                  ∧ m !! v = Some b ∧ mapped ns m b t
  end.

Lemma mapped_ext ns m m' id t :
  (∀ v, v ∈ bound_vars t → m' !! v = m !! v) → mapped ns m id t → mapped ns m' id t.
Proof.
  revert id. induction t as [| |p|v|t IH|l IHl r IHr|l IHl r IHr|k g t IH|k v t IH]; simpl; try done; intros id H.
  - intros (a & ? & ?). eauto.
  - intros (a & b & ? & ? & ?). exists a, b. split_and!; [done|apply IHl|apply IHr]; try done;
      intros v Hv; apply H, elem_of_app; auto.
  - intros (a & b & ? & ? & ?). exists a, b. split_and!; [done|apply IHl|apply IHr]; try done;
      intros v Hv; apply H, elem_of_app; auto.
  - intros (a & ? & ?). eauto.
  - intros (b & ? & ? & ?). exists b. split_and!; [done| |apply IH; [|done]].
    + rewrite H; [done|by left].
    + intros u Hu. apply H. by right.
Qed.

Lemma collect_mapped f id t fuel out out' :
  repr (nodes f) id t → NoDup (bound_vars t) → collect_var_bodies fuel f id out = Some out' →
  mapped (nodes f) out' id t ∧ ∀ v, v ∉ bound_vars t → out' !! v = out !! v.
Proof.
  intros Hr. revert fuel out out'.
  induction Hr as [id Hn|id Hn|id p Hn|id v Hn|id a t Hn Hr IH|id l r tl tr Hn _ IHl _ IHr
    |id l r tl tr Hn _ IHl _ IHr|id k g a t Hn _ IH|id v a t Hn Hr IH|id v a t Hn Hr IH];
    intros fuel out out' Hnd; (destruct fuel as [|fuel]; [done|]); cbn [collect_var_bodies mapped];
    unfold node; rewrite Hn; try (by intros [= <-]).
  - intros E. destruct (IH fuel out out' Hnd E). eauto.
  - destruct (collect_var_bodies fuel f l out) as [o1|] eqn:E1; [|done]. intros E2.
    simpl in Hnd. apply NoDup_app in Hnd as (Hl & Hlr & Hr).
    destruct (IHl fuel out o1 Hl E1) as [Hm1 Hk1]. destruct (IHr fuel o1 out' Hr E2) as [Hm2 Hk2]. split.
    + exists l, r. split_and!; [done| |done]. apply (mapped_ext _ o1); [|done]. intros v Hv. by apply Hk2, Hlr.
    + simpl. intros v [? ?]%not_elem_of_app. by rewrite Hk2, Hk1.
  - destruct (collect_var_bodies fuel f l out) as [o1|] eqn:E1; [|done]. intros E2.
    simpl in Hnd. apply NoDup_app in Hnd as (Hl & Hlr & Hr).
    destruct (IHl fuel out o1 Hl E1) as [Hm1 Hk1]. destruct (IHr fuel o1 out' Hr E2) as [Hm2 Hk2]. split.
    + exists l, r. split_and!; [done| |done]. apply (mapped_ext _ o1); [|done]. intros v Hv. by apply Hk2, Hlr.
    + simpl. intros v [? ?]%not_elem_of_app. by rewrite Hk2, Hk1.
  - intros E. destruct (IH fuel out out' Hnd E). eauto.
  - simpl in Hnd. apply NoDup_cons in Hnd as [Hv Hnd]. intros E. destruct (IH fuel _ out' Hnd E) as [Hm Hk].
    split.
    + exists a. split_and!; [done| |done]. by rewrite Hk, lookup_insert_eq.
    + simpl. intros u [? ?]%not_elem_of_cons. by rewrite Hk, lookup_insert_ne.
  - simpl in Hnd. apply NoDup_cons in Hnd as [Hv Hnd]. intros E. destruct (IH fuel _ out' Hnd E) as [Hm Hk].
    split.
    + exists a. split_and!; [done| |done]. by rewrite Hk, lookup_insert_eq.
    + simpl. intros u [? ?]%not_elem_of_cons. by rewrite Hk, lookup_insert_ne.
Qed.

(** What is decided of finitely many positions, short of a choice. *)
Lemma not_not_dec (P : nat → Prop) m : ¬ ¬ ∃ d : nat → bool, ∀ i, i < m → d i = true ↔ P i.
Proof.
  induction m as [|m IH]; intros Hno; [apply Hno; exists (λ _, true); lia|].
  apply IH. intros [d Hd]. assert (Hm : ¬ ¬ (P m ∨ ¬ P m)) by tauto. apply Hm. intros HP. apply Hno.
  assert (Hlt : ∀ i, i < S m → i = m ∨ i ≠ m ∧ i < m) by lia.
  destruct HP as [HP|HP]; [exists (λ i, if decide (i = m) then true else d i)
                          |exists (λ i, if decide (i = m) then false else d i)];
    (intros i [->|[Hne Hi]]%Hlt; [by rewrite decide_True|rewrite decide_False by done; auto]).
Qed.

Section adequacy.
Context (x : BuildContext) (u : Tree).
Let f := bc_formula x.
Let c := bc_clts x.
Let e := bc_env x.
Let n := state_count c.
Context (Hc : clts_ok c) (Hlabels : state_3valued_predicates c = None).
Context (Hu : mapped (nodes f) (bc_body x) (root f) u) (Hnnf : is_nnf u = true) (Hnamed : well_named u).
Context (Hctl : modalities_good (λ _ g, g_control g = Control_All) u) (Hleast : outer_least u = true).

(** [t] occurs in the formula at node [id]. *)
Inductive occurs : NodeId → Tree → Prop :=
  | occ_root : occurs (root f) u
  | occ_not id a t : occurs id (TNot t) → nodes f !! id = Some (NNot a) → mapped (nodes f) (bc_body x) a t → occurs a t
  | occ_and_l id a b l r : occurs id (TAnd l r) → nodes f !! id = Some (NAnd a b) → mapped (nodes f) (bc_body x) a l → occurs a l
  | occ_and_r id a b l r : occurs id (TAnd l r) → nodes f !! id = Some (NAnd a b) → mapped (nodes f) (bc_body x) b r → occurs b r
  | occ_or_l id a b l r : occurs id (TOr l r) → nodes f !! id = Some (NOr a b) → mapped (nodes f) (bc_body x) a l → occurs a l
  | occ_or_r id a b l r : occurs id (TOr l r) → nodes f !! id = Some (NOr a b) → mapped (nodes f) (bc_body x) b r → occurs b r
  | occ_modal id k g a t : occurs id (TModal k g t) → nodes f !! id = Some (NModal k g a) → mapped (nodes f) (bc_body x) a t → occurs a t
  | occ_fix id k v b t : occurs id (TFix k v t) → bc_body x !! v = Some b → mapped (nodes f) (bc_body x) b t → occurs b t.

Lemma occurs_mapped id t : occurs id t → mapped (nodes f) (bc_body x) id t.
Proof using Hu. by destruct 1. Qed.

(** What holds of the formula and of the parts of what it holds of, holds of
    every occurrence. *)
Lemma occurs_inv (P : Tree → Prop) :
  P u → (∀ t, P (TNot t) → P t) → (∀ l r, P (TAnd l r) → P l ∧ P r) → (∀ l r, P (TOr l r) → P l ∧ P r) →
  (∀ k g t, P (TModal k g t) → P t) → (∀ k v t, P (TFix k v t) → P t) →
  ∀ id t, occurs id t → P t.
Proof using Type.
  intros H0 H1 H2 H3 H4 H5 id t Ho.
  induction Ho as [| |? ? ? l r _ IH|? ? ? l r _ IH|? ? ? l r _ IH|? ? ? l r _ IH| |]; eauto.
  - by apply (H2 l r).
  - by apply (H2 l r).
  - by apply (H3 l r).
  - by apply (H3 l r).
Qed.

Lemma occurs_nnf id t : occurs id t → is_nnf t = true.
Proof using Hnnf.
  apply (occurs_inv (λ t, is_nnf t = true)); simpl; try done; try (intros ??; by rewrite andb_true_iff).
  intros t'. by destruct t'.
Qed.

Lemma occurs_ctl id t : occurs id t → modalities_good (λ _ g, g_control g = Control_All) t.
Proof using Hctl.
  apply (occurs_inv (modalities_good (λ _ g, g_control g = Control_All))); simpl; tauto.
Qed.

Lemma has_least_outer t : has_fix Least t = false → outer_least t = true.
Proof using Type.
  induction t; simpl; try done; rewrite ?orb_false_iff, ?andb_true_iff, ?negb_true_iff; tauto.
Qed.

Lemma occurs_outer id t : occurs id t → outer_least t = true.
Proof using Hleast.
  apply (occurs_inv (λ t, outer_least t = true)); simpl; try done; try (intros ??; by rewrite andb_true_iff).
  intros _ _ t' H%negb_true_iff. by apply has_least_outer.
Qed.

Lemma occurs_vars id t v : occurs id t → v ∈ free_vars t ∨ v ∈ bound_vars t → v ∈ bound_vars u.
Proof using Hnamed.
  intros Ho. revert id t Ho v. apply (occurs_inv (λ t, ∀ v, v ∈ free_vars t ∨ v ∈ bound_vars t → v ∈ bound_vars u));
    simpl; auto.
  - intros v [H|?]; [|done]. destruct Hnamed as [_ Hf]. rewrite Hf in H. by apply not_elem_of_empty in H.
  - intros l r H. setoid_rewrite elem_of_union in H. setoid_rewrite elem_of_app in H. split; intros v [?|?]; auto.
  - intros l r H. setoid_rewrite elem_of_union in H. setoid_rewrite elem_of_app in H. split; intros v [?|?]; auto.
  - intros _ w t H v Hv. apply H. rewrite elem_of_difference, elem_of_singleton, elem_of_cons.
    destruct (decide (v = w)); tauto.
Qed.

(** Every bound variable has its binder among the occurrences. *)
Lemma occurs_binder id t v : occurs id t → v ∈ bound_vars t →
  ∃ id' k t' b, occurs id' (TFix k v t') ∧ bc_body x !! v = Some b ∧ occurs b t'.
Proof using Hu.
  revert id. induction t as [| |p|w|t IH|l IHl r IHr|l IHl r IHr|k g t IH|k w t IH];
    intros id Ho; pose proof (occurs_mapped _ _ Ho) as Hm; simpl in Hm |- *;
    try (by intros []%not_elem_of_nil).
  - destruct Hm as (a & ? & ?). eauto using occ_not.
  - destruct Hm as (a & b & ? & ? & ?). intros [?|?]%elem_of_app; eauto using occ_and_l, occ_and_r.
  - destruct Hm as (a & b & ? & ? & ?). intros [?|?]%elem_of_app; eauto using occ_or_l, occ_or_r.
  - destruct Hm as (a & ? & ?). eauto using occ_modal.
  - destruct Hm as (b & ? & ? & ?). intros [->|?]%elem_of_cons; [|eauto using occ_fix].
    exists id, k, t, b. eauto using occ_fix.
Qed.

(** ** The moves of a finished game, by the tree of the position *)

Context (g : ParityGame) (Hg : game_ok x (vars_of u) g) (Htot : game_total g) (Hf : faithful x g).
Context (Hvp : ∀ id v t, occurs id (TFix Greatest v t) → favoured (default 0 (bc_priority x !! v)) = Eve).

(** Position [i] is state [s] at an occurrence of [t]. *)
Definition stands (i s : nat) (t : Tree) : Prop :=
  ∃ id, positions g !! i = Some {| p_state := s; p_node := id |} ∧ occurs id t.

(** A self-loop won by Eve when [P] holds. *)
Definition ends (i : nat) (P : Prop) : Prop :=
  ∃ b : bool, (b = true ↔ P) ∧ (∀ j, j ∈ successors g i ↔ j = i) ∧ priority g i = if b then 0 else 1.

(** The moves of [o] lead to [M], and nothing is seen. *)
Definition moves (i : nat) (o : Player) (M : nat → Prop) : Prop :=
  owner g i = o ∧ favoured (priority g i) = Eve ∧ (∃ j, j ∈ successors g i) ∧ ∀ j, j ∈ successors g i ↔ M j.

(** Position [j] is state [s] at the body [b] of the binder of [v]. *)
Definition body_at (j s v : nat) (b : Tree) : Prop :=
  ∃ a, bc_body x !! v = Some a ∧ positions g !! j = Some {| p_state := s; p_node := a |} ∧ occurs a b.

Definition stands_moves (i s : nat) (t : Tree) : Prop :=
  match t with
  | TTrue => ends i True
  | TFalse => ends i False
  | TPred p => ends i (atom c e p s)
  | TNot (TPred p) => ends i (¬ atom c e p s)
  | TNot _ => False
  | TAnd l r => ∃ jl jr, stands jl s l ∧ stands jr s r ∧ moves i Adam (λ j, j = jl ∨ j = jr)
  | TOr l r => ∃ jl jr, stands jl s l ∧ stands jr s r ∧ moves i Eve (λ j, j = jl ∨ j = jr)
  | TModal k gd t =>
    ((∀ tr, ¬ matched c s gd tr) ∧ ends i (k = Box)) ∨
    ∃ M, moves i (modal_owner k) M ∧
      (∀ tr, matched c s gd tr → ∃ j, M j ∧ stands j (target tr) t) ∧
      (∀ j, M j → ∃ tr, matched c s gd tr ∧ stands j (target tr) t)
  | TFix k v b => ∃ j, body_at j s v b ∧ owner g i = Eve ∧ (∀ j', j' ∈ successors g i ↔ j' = j) ∧
                  (k = Greatest → favoured (priority g i) = Eve)
  | TVar v => ∃ id k b j, occurs id (TFix k v b) ∧ body_at j s v b ∧ moves i Eve (λ j', j' = j)
  end.

Lemma local_moves i pos :
  positions g !! i = Some pos → ∃ ex, expansion x pos = Some ex ∧ local_as x g i pos ex.
Proof using Hf Htot.
  intros Hi. destruct (Hf i pos Hi) as [[Hs _]|[_ H]]; [|done].
  exfalso. apply (gt_total g Htot i); [by eapply lookup_lt_Some|done].
Qed.

Lemma atom_holds p s : predicate_holds e p s = true ↔ atom c e p s.
Proof using Hlabels.
  unfold predicate_holds, atom. destruct (predicate e p); [done|].
  unfold state_3valued_predicate. by rewrite Hlabels.
Qed.

Lemma index_positions p j : position_idx g !! p = Some j ↔ positions g !! j = Some p.
Proof using Hg. apply (go_index _ _ _ Hg). Qed.

(** The successors along a list of target positions. *)
Lemma targets_moves i pos o tgts :
  local_as x g i pos (inr (o, tgts)) → tgts ≠ [] →
  (match node f (p_node pos) with Some (NMu _ _) | Some (NNu _ _) => False | _ => True end) →
  moves i o (λ j, ∃ p, p ∈ tgts ∧ positions g !! j = Some p) ∧
  ∀ p, p ∈ tgts → ∃ j, positions g !! j = Some p.
Proof using Hg.
  intros (Ho & Hin & Hm & m & Hn & Hp) Hne Hfix. unfold f in *. rewrite Hn in Hfix.
  assert (Hex : ∀ p, p ∈ tgts → ∃ j, positions g !! j = Some p).
  { intros p Hpt. destruct (Hin p Hpt) as [j Hj]. exists j. by apply index_positions. }
  split; [|done]. split_and!; [done|rewrite Hp; by destruct m| |].
  - destruct tgts as [|p ps]; [done|]. destruct (Hex p) as [j Hj]; [by left|]. exists j.
    apply Hm. exists p. split; [by left|by apply index_positions].
  - intros j. rewrite Hm. by setoid_rewrite index_positions.
Qed.

Lemma binary_targets i pos o p q :
  local_as x g i pos (inr (o, [p; q])) →
  (match node f (p_node pos) with Some (NMu _ _) | Some (NNu _ _) => False | _ => True end) →
  ∃ jl jr, positions g !! jl = Some p ∧ positions g !! jr = Some q ∧ moves i o (λ j, j = jl ∨ j = jr).
Proof using Hg.
  intros Hloc Hfix. destruct (targets_moves i pos o [p; q] Hloc) as [(? & ? & ? & Hmv) Hin]; [done..|].
  destruct (Hin p) as [jl Hjl]; [by left|]. destruct (Hin q) as [jr Hjr]; [right; by left|].
  exists jl, jr. split_and!; [done..|]. split_and!; [done..|]. intros j. rewrite Hmv. split.
  - intros (p' & Hp & Hj). apply index_positions in Hj, Hjl, Hjr.
    apply elem_of_cons in Hp as [->|Hp]; [left; congruence|].
    apply list_elem_of_singleton in Hp as ->. right; congruence.
  - intros [-> | ->]; eexists; (split; [|done]); [by left|right; by left].
Qed.

Lemma modal_stands i s id k gd t a :
  positions g !! i = Some {| p_state := s; p_node := id |} → occurs id (TModal k gd t) →
  nodes f !! id = Some (NModal k gd a) → occurs a t → stands_moves i s (TModal k gd t).
Proof using All.
  intros Hi Ho Hn Hat. destruct (local_moves i _ Hi) as (ex & Hexp & Hloc).
  unfold expansion, node in Hexp. fold f in Hexp. simpl in Hexp. rewrite Hn in Hexp.
  destruct (occurs_ctl _ _ Ho) as [Hall _]. rewrite Hall in Hexp. injection Hexp as <-.
  assert (Hmatch : ∀ tr, tr ∈ List.filter (λ tr, transition_matches_guard tr gd c s) (outgoing c s)
    ↔ matched c s gd tr).
  { intros tr. rewrite elem_of_filterb. unfold transition_matches_guard, matched. by rewrite Hall. }
  unfold modal_moves, modal_targets in Hloc. fold c in Hloc.
  set (trs := List.filter _ _) in *. simpl. destruct trs as [|tr0 trs'] eqn:E.
  - left. split; [intros tr Htr%Hmatch; by apply not_elem_of_nil in Htr|].
    exists (bool_decide (modal_owner k = Adam)). split; [|done].
    rewrite bool_decide_eq_true. by destruct k.
  - right. rewrite <-E in *.
    assert (Hnull : null (map (λ tr, {| p_state := target tr; p_node := a |}) trs) = false) by (by rewrite E).
    rewrite Hnull in Hloc.
    destruct (targets_moves i _ _ _ Hloc) as [Hm Hex].
    { by rewrite E. }
    { unfold node. simpl. fold f. by rewrite Hn. }
    eexists. split_and!; [exact Hm| |].
    + intros tr Htr%Hmatch. destruct (Hex {| p_state := target tr; p_node := a |}) as [j Hj].
      { apply list_elem_of_fmap. eauto. }
      exists j. split; [|by exists a]. eexists. split; [|done]. apply list_elem_of_fmap. eauto.
    + intros j (p & [tr [-> Htr]]%list_elem_of_fmap & Hj). exists tr. split; [by apply Hmatch|by exists a].
Qed.

Lemma stands_spec i s t : stands i s t → stands_moves i s t.
Proof using All.
  intros (id & Hi & Ho). pose proof (occurs_mapped _ _ Ho) as Hm.
  destruct (local_moves i _ Hi) as (ex & Hexp & Hloc).
  assert (Hex := Hexp). unfold expansion, node in Hexp. fold f in Hexp. simpl in Hexp.
  destruct t as [| |p|v|t|l r|l r|k gd t|k v t]; simpl in Hm |- *.
  - rewrite Hm in Hexp. injection Hexp as <-. by exists true.
  - rewrite Hm in Hexp. injection Hexp as <-. by exists false.
  - rewrite Hm in Hexp. injection Hexp as <-. eexists. split; [apply atom_holds|done].
  - rewrite Hm in Hexp. destruct (occurs_binder (root f) u v occ_root) as (id' & k & b & a & Hb & Hv & Hab).
    { apply (occurs_vars _ _ v Ho). left. simpl. by rewrite elem_of_singleton. }
    rewrite Hv in Hexp. injection Hexp as <-.
    destruct (targets_moves i _ _ _ Hloc) as [(? & ? & ? & Hmv) Hin]; [done|unfold node; simpl; fold f; by rewrite Hm|].
    destruct (Hin {| p_state := s; p_node := a |}) as [j Hj]; [by left|].
    exists id', k, b, j. split_and!; [done|by exists a|]. split_and!; [done..|]. intros j'. rewrite Hmv. split.
    + intros (p & Hp & Hj'). apply list_elem_of_singleton in Hp as ->.
      apply index_positions in Hj, Hj'. congruence.
    + intros ->. eexists. split; [by left|done].
  - destruct Hm as (a & Hn & Hma). rewrite Hn in Hexp. pose proof (occurs_nnf _ _ Ho) as Hnn.
    destruct t; simpl in Hnn; try done. simpl in Hma. rewrite Hma in Hexp. injection Hexp as <-.
    eexists. split; [|done]. rewrite negb_true_iff, <-not_true_iff_false. by rewrite <-atom_holds.
  - destruct Hm as (a & b & Hn & Ha & Hb). rewrite Hn in Hexp. injection Hexp as <-.
    destruct (binary_targets i _ _ _ _ Hloc) as (jl & jr & ? & ? & ?); [unfold node; simpl; fold f; by rewrite Hn|].
    exists jl, jr. split_and!; [exists a; eauto using occ_and_l|exists b; eauto using occ_and_r|done].
  - destruct Hm as (a & b & Hn & Ha & Hb). rewrite Hn in Hexp. injection Hexp as <-.
    destruct (binary_targets i _ _ _ _ Hloc) as (jl & jr & ? & ? & ?); [unfold node; simpl; fold f; by rewrite Hn|].
    exists jl, jr. split_and!; [exists a; eauto using occ_or_l|exists b; eauto using occ_or_r|done].
  - destruct Hm as (a & Hn & Ha). eapply modal_stands; eauto using occ_modal.
  - destruct Hm as (b & Hn & Hv & Hb). rewrite Hn in Hexp.
    assert (Hex2 : ex = inr (Eve, [{| p_state := s; p_node := b |}])) by (destruct k; by injection Hexp).
    subst ex. destruct Hloc as (Hown & Hin & Hmv & m & Hn' & Hp).
    destruct (Hin {| p_state := s; p_node := b |}) as [j Hj]; [by left|].
    exists j. split_and!; [exists b; split_and!; [done|by apply index_positions|eauto using occ_fix]|done| |].
    + intros j'. rewrite Hmv. split.
      * intros (p & Hpt & Hj'). apply list_elem_of_singleton in Hpt as ->. congruence.
      * intros ->. eexists. split; [by left|done].
    + intros ->. unfold node in Hn'. simpl in Hn'. fold f in Hn'. rewrite Hn in Hn'.
      injection Hn' as <-. rewrite Hp. simpl. by eapply Hvp.
Qed.

Lemma body_stands j s v b : body_at j s v b → stands j s b.
Proof using Type. intros (a & _ & ? & ?). by exists a. Qed.

Lemma mapped_repr m id t : mapped (nodes f) m id t → repr (nodes f) id t.
Proof using Type.
  revert id. induction t as [| | | |t IH|l IHl r IHr|l IHl r IHr|k gd t IH|k v t IH]; simpl; intros id;
    try (by constructor).
  - intros (a & ? & ?). by apply repr_not with a; auto.
  - intros (a & b & ? & ? & ?). apply repr_and with a b; auto.
  - intros (a & b & ? & ? & ?). apply repr_or with a b; auto.
  - intros (a & ? & ?). apply repr_modal with a; auto.
  - intros (b & Hn & _ & ?). destruct k; [apply repr_mu with b|apply repr_nu with b]; auto.
Qed.

Lemma stands_det i s s' t t' : stands i s t → stands i s' t' → s = s' ∧ t = t'.
Proof using Hu.
  intros (id & Hi & Ho) (id' & Hi' & Ho'). rewrite Hi in Hi'. injection Hi' as <- <-. split; [done|].
  eapply repr_det; by eapply mapped_repr, occurs_mapped.
Qed.

(** Inside a fixpoint no least fixpoint is met again. *)
Definition past_least (t : Tree) : Prop := has_fix Least t = false ∨ ∃ v b, t = TFix Least v b.

Lemma ends_successor i P j s t :
  ends i P → stands i s t → j ∈ successors g i → has_fix Least t = false →
  ∃ s' t', stands j s' t' ∧ (past_least t → has_fix Least t' = false).
Proof using Type. intros (b & _ & Hs & _) Hi ->%Hs Ht. eauto. Qed.

Lemma body_no_least id k v b : occurs id (TFix k v b) → has_fix Least b = false.
Proof using Hleast. intros Ho%occurs_outer. simpl in Ho. by apply negb_true_iff in Ho. Qed.

Lemma successor_tree i s t j :
  stands i s t → j ∈ successors g i → ∃ s' t', stands j s' t' ∧ (past_least t → has_fix Least t' = false).
Proof using All.
  intros Hi Hj. pose proof (stands_spec i s t Hi) as Hm. pose proof Hi as (id & _ & Ho).
  destruct t as [| |p|v|t|l r|l r|k gd t|k v t]; simpl in Hm; try (by eapply ends_successor).
  - destruct Hm as (id' & k & b & jb & Hb & Hbody & (_ & _ & _ & Hm)). pose proof (proj1 (Hm j) Hj) as ->.
    exists s, b. split; [by eapply body_stands|]. intros _. by eapply body_no_least.
  - destruct t; try done. by eapply ends_successor.
  - destruct Hm as (jl & jr & Hl & Hr & (_ & _ & _ & Hm)).
    assert (Hp : past_least (TAnd l r) → has_fix Least l = false ∧ has_fix Least r = false).
    { intros [H%orb_false_iff|(? & ? & ?)]; done. }
    destruct (proj1 (Hm j) Hj) as [-> | ->]; [exists s, l|exists s, r]; (split; [done|]); intros H%Hp; apply H.
  - destruct Hm as (jl & jr & Hl & Hr & (_ & _ & _ & Hm)).
    assert (Hp : past_least (TOr l r) → has_fix Least l = false ∧ has_fix Least r = false).
    { intros [H%orb_false_iff|(? & ? & ?)]; done. }
    destruct (proj1 (Hm j) Hj) as [-> | ->]; [exists s, l|exists s, r]; (split; [done|]); intros H%Hp; apply H.
  - assert (Hp : past_least (TModal k gd t) → has_fix Least t = false) by (intros [?|(? & ? & ?)]; done).
    destruct Hm as [[_ (b & _ & Hs & _)]|(M & (_ & _ & _ & Hm) & _ & HM)].
    + pose proof (proj1 (Hs j) Hj) as ->. eauto.
    + destruct (HM j (proj1 (Hm j) Hj)) as (tr & _ & ?). eauto.
  - destruct Hm as (jb & Hbody & _ & Hs & _). pose proof (proj1 (Hs j) Hj) as ->. exists s, t.
    split; [by eapply body_stands|]. intros _. by eapply body_no_least.
Qed.

(** ** Eve's region satisfies the formula *)

Lemma ends_play i P : ends i P → ∀ p σ, winning_strategy g p i σ → i < game_len g →
  won g p (λ _, i) ∧ favoured (priority g i) = if decide (priority g i = 0) then Eve else Adam.
Proof using Type.
  intros (b & _ & Hs & Hp) p σ [Hl Hw] Hi. split; [|rewrite Hp; by destruct b].
  apply Hw; [|done]. intros k. split; [by apply Hs|]. intros Ho. symmetry. apply Hs. by apply Hl.
Qed.

(** A terminal is won by the player it names. *)
Lemma ends_winner sol i P :
  solve g = Some sol → ends i P → winner sol !! i = Some Eve → P.
Proof using Htot.
  intros Hs Hend Hi. pose proof Hend as (b & Hb & Hsucc & Hp). apply Hb.
  destruct b; [done|exfalso].
  destruct (winner_strategy g Htot sol i Eve Hs Hi) as [σ Hσ].
  assert (Hlt : i < game_len g) by (apply (gt_range g Htot i); by apply Hsucc).
  destruct (ends_play i P Hend Eve σ Hσ Hlt) as [Hwon _]. apply Hwon.
  exists 1, 0. split_and!; [done| |intros; by rewrite Hp]. intros M H. by apply (H M).
Qed.

Section solution.
Context (sol : ParitySolution) (Hsol : solve g = Some sol).

(** What the variables stand for in Eve's region. *)
Definition eve_env (v s : nat) : Prop :=
  ∃ a j, bc_body x !! v = Some a ∧ positions g !! j = Some {| p_state := s; p_node := a |} ∧
         winner sol !! j = Some Eve.

Lemma eve_sat t i s :
  s < n → stands i s t → winner sol !! i = Some Eve → sat c e (all_greatest t) eve_env s.
Proof using All.
  revert i s. induction t as [| |p|v|t IH|l IHl r IHr|l IHl r IHr|k gd t IH|k v t IH];
    intros i s Hs Hi Hw; pose proof (stands_spec i s _ Hi) as Hm; simpl in Hm |- *;
    destruct (eve_moves g Htot sol i Hsol Hw) as [HE HA].
  - done.
  - by apply (ends_winner sol i False).
  - by apply (ends_winner sol i _).
  - destruct Hm as (id & k & b & j & _ & (a & ? & ? & _) & (Ho & _ & _ & Hmv)).
    destruct (HE Ho) as (j' & Hj' & Hwj). pose proof (proj1 (Hmv j') Hj') as ->. by exists a, j.
  - destruct t; try done. simpl. by apply (ends_winner sol i _).
  - destruct Hm as (jl & jr & Hl & Hr & (Ho & _ & _ & Hmv)). specialize (HA Ho).
    split; [apply (IHl jl)|apply (IHr jr)]; try done; apply HA, Hmv; auto.
  - destruct Hm as (jl & jr & Hl & Hr & (Ho & _ & _ & Hmv)). destruct (HE Ho) as (j & Hj & Hwj).
    destruct (proj1 (Hmv j) Hj) as [-> | ->]; [left; by apply (IHl jl)|right; by apply (IHr jr)].
  - destruct Hi as (id & _ & Hocc). destruct (occurs_ctl _ _ Hocc) as [Hall _].
    unfold step. rewrite Hall.
    destruct Hm as [[Hno Hend]|(M & (Ho & _ & _ & Hmv) & Hall' & HM)].
    + apply (ends_winner sol i _ Hsol Hend) in Hw as ->. intros tr Htr. by destruct (Hno tr).
    + destruct k; simpl in Ho.
      * intros tr Htr. destruct (Hall' tr Htr) as (j & Hj & Hst). apply (IH j); [|done|by apply HA, Hmv].
        destruct Htr as [Htr _]. by eapply ok_target.
      * destruct (HE Ho) as (j & Hj & Hwj). destruct (HM j (proj1 (Hmv j) Hj)) as (tr & Htr & Hst).
        exists tr. split; [done|]. apply (IH j); [|done|done]. destruct Htr as [Htr _]. by eapply ok_target.
  - destruct Hm as (j & (a & Ha & Hj & Hocc) & Ho & Hmv & _). exists (eve_env v). split.
    + intros s' Hs' (a' & j' & Ha' & Hj' & Hwj'). assert (a' = a) as -> by congruence.
      apply (sat_free c e Hc _ eve_env); [|done|apply (IH j'); [done|by exists a|done]].
      intros w s0 _ _. unfold upd. case_decide; [by subst|done].
    + destruct (HE Ho) as (j' & Hj' & Hwj'). pose proof (proj1 (Hmv j') Hj') as ->. by exists a, j.
Qed.

(** ** Eve keeps the formula true *)

Let ρ := scope c e (all_greatest u) no_binding.

Lemma env_solves id t : occurs id t → solves c e ρ (all_greatest t).
Proof using Hc Hnamed.
  apply (occurs_inv (λ t, solves c e ρ (all_greatest t))); simpl; try done; try tauto.
  apply (scope_solves c e Hc). destruct Hnamed as [Hnd Hfv]. split; [by rewrite all_greatest_bound|].
  intros v _. rewrite all_greatest_free, Hfv. apply not_elem_of_empty.
Qed.

(** The positions where the formula holds. *)
Definition holding (i : nat) : Prop :=
  ∃ s t, stands i s t ∧ s < n ∧ sat c e (all_greatest t) ρ s.

Lemma monotone_all_greatest t : is_nnf t = true → monotone (all_greatest t) = true.
Proof using Type.
  induction t as [| | | |t IH|l IHl r IHr|l IHl r IHr|k gd t IH|k v t IH]; simpl; try done.
  - by destruct t.
  - rewrite !andb_true_iff. intros []; auto.
  - rewrite !andb_true_iff. intros []; auto.
  - intros H. rewrite all_greatest_occurs, is_nnf_positive by done. by apply IH.
Qed.

Lemma unfold_body id k v b s :
  occurs id (TFix k v b) → s < n → sat c e (TFix Greatest v (all_greatest b)) ρ s →
  sat c e (all_greatest b) ρ s.
Proof using Hc Hnamed Hnnf.
  intros Ho Hs Hsat. pose proof (env_solves _ _ Ho) as [Hv _]. pose proof (occurs_nnf _ _ Ho) as Hnn.
  apply (greatest_unfold c e Hc v); [|done|done|done].
  rewrite all_greatest_occurs. by apply is_nnf_positive.
Qed.

(** Where the formula holds, Eve has a move that keeps it, and Adam none that
    breaks it. *)
Definition keeps (i : nat) : Prop :=
  (∃ j, j ∈ successors g i ∧ holding j) ∧ (owner g i = Adam → ∀ j, j ∈ successors g i → holding j).

(** An odd priority is seen at a least fixpoint only. *)
Definition odd_at (i : nat) : Prop := favoured (priority g i) = Adam.

Lemma ends_keeps i P : ends i P → P → holding i → keeps i ∧ ¬ odd_at i.
Proof using Type.
  intros (b & Hb & Hs & Hp) HP Hi. apply Hb in HP. subst b. split; [|unfold odd_at; by rewrite Hp].
  split; [exists i; split; [by apply Hs|done]|]. intros _ j Hj. by rewrite (proj1 (Hs j) Hj).
Qed.

Lemma moves_not_odd i o M : moves i o M → ¬ odd_at i.
Proof using Type. intros (_ & Hp & _) H. unfold odd_at in H. congruence. Qed.

(** One successor, where the formula holds too. *)
Lemma single_keeps i j : (∀ j', j' ∈ successors g i ↔ j' = j) → holding j → keeps i.
Proof using Type.
  intros Hs Hj. split; [exists j; split; [by apply Hs|done]|]. intros _ j' Hj'. by rewrite (proj1 (Hs j') Hj').
Qed.

Lemma modal_keeps i s k gd t :
  stands i s (TModal k gd t) → s < n → sat c e (all_greatest (TModal k gd t)) ρ s → keeps i ∧ ¬ odd_at i.
Proof using All.
  intros Hst Hs Hsat. assert (Hi : holding i) by (by exists s, (TModal k gd t)).
  pose proof (stands_spec i s _ Hst) as Hm. simpl in Hm, Hsat.
  pose proof Hst as (id & _ & Hocc). destruct (occurs_ctl _ _ Hocc) as [Hall _].
  unfold step in Hsat. rewrite Hall in Hsat.
  assert (Htgt : ∀ tr, matched c s gd tr → target tr < n) by (intros tr [Htr _]; by eapply ok_target).
  destruct Hm as [[Hno Hend]|(M & Hmv & Hall' & HM)].
  - apply (ends_keeps i _ Hend); [|done].
    destruct k; [done|]. destruct Hsat as (tr & Htr & _). by destruct (Hno tr).
  - split; [|by eapply moves_not_odd]. destruct Hmv as (Ho & _ & Hex & Hmv). destruct k; simpl in Ho.
    + assert (Hb : ∀ j, j ∈ successors g i → holding j).
      { intros j Hj. destruct (HM j (proj1 (Hmv j) Hj)) as (tr & Htr & Hst').
        exists (target tr), t. split_and!; [done|by apply Htgt|by apply Hsat]. }
      split; [destruct Hex as [j Hj]; exists j; auto|auto].
    + split; [|congruence]. destruct Hsat as (tr & Htr & Hsat).
      destruct (Hall' tr Htr) as (j & Hj & Hst'). exists j. split; [by apply Hmv|].
      exists (target tr), t. split_and!; [done|by apply Htgt|done].
Qed.

Lemma holding_keeps i s t :
  stands i s t → s < n → sat c e (all_greatest t) ρ s →
  keeps i ∧ (odd_at i → ∃ v b, t = TFix Least v b).
Proof using All.
  intros Hst Hs Hsat. assert (Hi : holding i) by (by exists s, t).
  pose proof (stands_spec i s t Hst) as Hm. pose proof Hst as (id & _ & Hocc).
  enough (keeps i ∧ ((∃ v b, t = TFix Least v b) ∨ ¬ odd_at i)) as [? [?|?]] by (split; [done|tauto]).
  destruct t as [| |p|v|t|l r|l r|k gd t|k v t]; simpl in Hm, Hsat.
  - destruct (ends_keeps i _ Hm I Hi). auto.
  - done.
  - destruct (ends_keeps i _ Hm Hsat Hi). auto.
  - destruct Hm as (id' & k & b & j & Hb & Hbody & Hmv). split; [|right; by eapply moves_not_odd].
    destruct Hmv as (_ & _ & _ & Hmv). apply (single_keeps i j Hmv).
    exists s, b. split_and!; [by eapply body_stands|done|]. eapply unfold_body; [done..|].
    destruct (env_solves _ _ Hb) as [Hv _]. by apply Hv.
  - destruct t; try done. destruct (ends_keeps i _ Hm Hsat Hi). auto.
  - destruct Hm as (jl & jr & Hl & Hr & Hmv). split; [|right; by eapply moves_not_odd].
    destruct Hmv as (_ & _ & Hex & Hmv), Hsat as [Hsl Hsr].
    assert (Hb : ∀ j, j ∈ successors g i → holding j).
    { intros j Hj. destruct (proj1 (Hmv j) Hj) as [-> | ->]; [by exists s, l|by exists s, r]. }
    split; [destruct Hex as [j Hj]; exists j; auto|auto].
  - destruct Hm as (jl & jr & Hl & Hr & Hmv). split; [|right; by eapply moves_not_odd].
    destruct Hmv as (Ho & _ & _ & Hmv). split; [|congruence].
    destruct Hsat as [Hsat|Hsat]; [exists jl|exists jr]; (split; [apply Hmv; auto|]);
      [by exists s, l|by exists s, r].
  - destruct (modal_keeps i s k gd t Hst Hs Hsat). auto.
  - destruct Hm as (j & Hbody & _ & Hmv & Hp). split.
    + apply (single_keeps i j Hmv). exists s, t. split_and!; [by eapply body_stands|done|].
      by eapply unfold_body.
    + destruct k; [left; eauto|right]. unfold odd_at. rewrite Hp; done.
Qed.

(** After a least fixpoint no odd priority is seen. *)
Lemma once_odd π m :
  (∀ k, holding (π k)) → (∀ k, π (S k) ∈ successors g (π k)) → odd_at (π m) →
  ∀ k, ¬ odd_at (π (S m + k)).
Proof using All.
  intros Hh Hs Hodd.
  assert (Hfix : ∀ k, odd_at (π k) → ∃ s v b, stands (π k) s (TFix Least v b)).
  { intros k Ho. destruct (Hh k) as (s & t & Hst & Hsn & Hsat).
    destruct (holding_keeps _ _ _ Hst Hsn Hsat) as [_ H]. destruct (H Ho) as (v & b & ->). eauto. }
  assert (Hafter : ∀ k, ∃ s t, stands (π (S m + k)) s t ∧ has_fix Least t = false).
  { induction k as [|k (s & t & Hst & Ht)].
    - destruct (Hfix m Hodd) as (s & v & b & Hst). rewrite Nat.add_0_r.
      destruct (successor_tree _ _ _ _ Hst (Hs m)) as (s' & t' & ? & Ht'). exists s', t'.
      split; [done|]. apply Ht'. right. eauto.
    - rewrite Nat.add_succ_r. destruct (successor_tree _ _ _ _ Hst (Hs _)) as (s' & t' & ? & Ht').
      exists s', t'. split; [done|]. apply Ht'. by left. }
  intros k Ho. destruct (Hafter k) as (s & t & Hst & Ht). destruct (Hfix _ Ho) as (s' & v & b & Hst').
  destruct (stands_det _ _ _ _ _ Hst Hst') as [_ ->]. done.
Qed.

(** A play that stays where the formula holds is won by Eve. *)
Lemma holding_play π : (∀ k, holding (π k)) → (∀ k, π (S k) ∈ successors g (π k)) → won g Eve π.
Proof using All.
  intros Hh Hs (q & _ & Hq & Hrec & _). assert (Hodd : ∀ k, priority g (π k) = q → odd_at (π k)).
  { intros k Hk. unfold odd_at. by rewrite Hk. }
  apply (Hrec 0). intros m _ Hm%Hodd. apply (Hrec (S m)). intros k Hk Hqk%Hodd.
  apply (once_odd π m Hh Hs Hm (k - S m)). by replace (S m + (k - S m)) with k by lia.
Qed.

Lemma holding_lt i : holding i → i < game_len g.
Proof using Type. intros (s & t & (id & Hi & _) & _). by eapply lookup_lt_Some. Qed.

Lemma holding_won i : holding i → winner sol !! i = Some Eve.
Proof using All.
  intros Hi. pose proof (holding_lt i Hi) as Hlt.
  destruct (solve_spec g Htot) as (sol' & res & Hs' & _ & Hl & _).
  assert (sol' = sol) as -> by congruence. rewrite <-Hl in Hlt.
  destruct (lookup_lt_is_Some_2 _ _ Hlt) as [p Hp]. destruct p; [done|exfalso].
  destruct (winner_strategy g Htot sol i Adam Hsol Hp) as [τ [Hτ Hwin]].
  apply (not_not_dec holding (game_len g)). intros [d Hd].
  set (π := both g Adam τ (λ j, default 0 (List.find d (successors g j))) i).
  assert (Hnext : ∀ j, holding j →
    let j' := if decide (owner g j = Adam) then τ j else default 0 (List.find d (successors g j)) in
    j' ∈ successors g j ∧ holding j').
  { intros j Hj. pose proof (holding_lt j Hj) as Hjn. destruct Hj as (s & t & Hst & Hsn & Hsat).
    destruct (holding_keeps j s t Hst Hsn Hsat) as [[(k & Hk & Hkh) HA] _]. cbv zeta. case_decide as Ho.
    - pose proof (Hτ j Hjn Ho). auto.
    - destruct (List.find d (successors g j)) as [j'|] eqn:E; simpl.
      + apply find_some in E as [Hin%list_elem_of_In Hdj]. split; [done|].
        apply Hd; [|done]. by apply (gt_range g Htot j).
      + exfalso. apply list_elem_of_In, (find_none _ _ E) in Hk. apply Hd in Hkh; [congruence|].
        by apply holding_lt. }
  assert (Hall : ∀ k, holding (π k)) by (induction k as [|k IH]; [done|]; apply (Hnext _ IH)).
  assert (Hstep : ∀ k, π (S k) ∈ successors g (π k)) by (intros k; apply (Hnext _ (Hall k))).
  apply (won_exclusive g Eve π); [by apply holding_play|].
  apply Hwin; [|done]. intros k. split; [done|]. intros Ho. simpl. by rewrite decide_True.
Qed.

(** The winner of a position of the formula. *)
Lemma stands_winner i s : s < n → stands i s u → winner sol !! i = Some Eve ↔ sat c e (all_greatest u) no_binding s.
Proof using All.
  intros Hs Hi.
  assert (Hfree : ∀ ρ1 ρ2, sat c e (all_greatest u) ρ1 s ↔ sat c e (all_greatest u) ρ2 s).
  { intros ρ1 ρ2. apply (sat_free c e Hc); [|done]. intros v s' Hv. exfalso.
    rewrite all_greatest_free in Hv. destruct Hnamed as [_ Hf0]. rewrite Hf0 in Hv.
    by apply not_elem_of_empty in Hv. }
  split.
  - intros Hw. rewrite (Hfree _ eve_env). by apply (eve_sat u i s).
  - intros Hsat. apply holding_won. exists s, u. split_and!; [done..|]. by rewrite (Hfree _ no_binding).
Qed.
End solution.
End adequacy.

(** ** The game of a closed formula *)

Lemma favoured_greatest base : favoured (fixpoint_priority base false) = Eve.
Proof.
  unfold favoured, fixpoint_priority. destruct (Nat.even base) eqn:E; [by rewrite E|].
  by rewrite Nat.add_1_r, Nat.even_succ, <-Nat.negb_even, E.
Qed.

Lemma insert_all_other (F : nat * (FormulaVarId * bool) → nat) l (m : gmap nat nat) v :
  v ∉ map (λ lv, lv.2.1) l → foldl (λ m lv, <[lv.2.1 := F lv]> m) m l !! v = m !! v.
Proof.
  revert m. induction l as [|lv l IH]; intros m; [done|]. intros [? ?]%not_elem_of_cons. simpl.
  rewrite IH by done. by rewrite lookup_insert_ne.
Qed.

Lemma insert_all (F : nat * (FormulaVarId * bool) → nat) l (m : gmap nat nat) lv :
  NoDup (map (λ lv, lv.2.1) l) → lv ∈ l →
  foldl (λ m lv, <[lv.2.1 := F lv]> m) m l !! lv.2.1 = Some (F lv).
Proof.
  revert m. induction l as [|lv' l IH]; intros m; [by intros _ []%not_elem_of_nil|].
  simpl. intros [Hn Hnd]%NoDup_cons [->|Hin]%elem_of_cons; [|by apply IH].
  rewrite insert_all_other by done. by rewrite lookup_insert_eq.
Qed.

Lemma t_order_bound t : map fst (t_order t) = bound_vars t.
Proof. induction t; simpl; rewrite ?map_app; congruence. Qed.

(** Every binder of the nesting order is in the table built from it. *)
Lemma order_inserted (F : nat * (FormulaVarId * bool) → nat) t v l :
  NoDup (bound_vars t) → (v, l) ∈ t_order t →
  ∃ i, foldl (λ m lv, <[lv.2.1 := F lv]> m) (∅ : gmap nat nat) (zip (seq 0 (length (t_order t))) (t_order t)) !! v =
    Some (F (i, (v, l))).
Proof.
  intros Hnd [i Hl]%list_elem_of_lookup_1. exists i.
  set (z := zip (seq 0 (length (t_order t))) (t_order t)).
  assert (Hz : map snd z = t_order t).
  { apply (snd_zip (seq 0 (length (t_order t)))). by rewrite length_seq. }
  assert (Hin : (i, (v, l)) ∈ z).
  { apply list_elem_of_lookup. exists i. apply lookup_zip_with_Some. exists i, (v, l).
    split_and!; [done| |done]. apply lookup_seq_lt. by eapply lookup_lt_Some. }
  apply (insert_all F z ∅ (i, (v, l))); [|done].
  rewrite <-t_order_bound, <-Hz, map_map in Hnd. done.
Qed.

(** A greatest fixpoint's variable gets an even priority. *)
Lemma greatest_priority f t vp v :
  wf_formula f → formula_tree f t → NoDup (bound_vars t) → assign_var_priorities f = Some vp →
  (v, false) ∈ t_order t → favoured (default 0 (vp !! v)) = Eve.
Proof.
  intros Hwf Ht Hnd. unfold assign_var_priorities, fixpoint_nesting_order.
  rewrite (collect_fixpoint_order_spec _ _ _ _ _ Ht) by (by apply formula_tree_fuel). cbn [mbind option_bind app].
  intros [= <-] Hv.
  destruct (order_inserted (λ lv, fixpoint_priority (length (t_order t) - lv.1) lv.2.2) t v false Hnd Hv) as [i Hi].
  rewrite Hi. apply favoured_greatest.
Qed.

(** Rewriting keeps every guard's scope. *)
Lemma nnf_scope negate t s :
  modalities_good (λ _ g, g_control g = Control_All) t →
  modalities_good (λ _ g, g_control g = Control_All) (nnf_tree negate t s).1.
Proof.
  revert negate s. induction t as [| |p|v|t IH|l IHl r IHr|l IHl r IHr|k g t IH|k v t IH];
    intros negate s; simpl; try (by destruct negate); try done.
  - intros H. by apply IH.
  - intros [Hl Hr]. specialize (IHl negate s Hl). destruct (nnf_tree negate l s) as [tl s1].
    specialize (IHr negate s1 Hr). destruct (nnf_tree negate r s1) as [tr s2]. by destruct negate.
  - intros [Hl Hr]. specialize (IHl negate s Hl). destruct (nnf_tree negate l s) as [tl s1].
    specialize (IHr negate s1 Hr). destruct (nnf_tree negate r s1) as [tr s2]. by destruct negate.
  - intros [Hk Hg]. specialize (IH negate s Hg). destruct (nnf_tree negate t s) as [t' s1].
    destruct negate; simpl in *; [|done]. rewrite Hk. by split.
  - intros H. specialize (IH negate (bind_name v s) H). by destruct (nnf_tree negate t (bind_name v s)).
Qed.

Lemma occurs_order x u id k v b : occurs x u id (TFix k v b) → (v, bool_decide (k = Least)) ∈ t_order u.
Proof.
  assert (H : ∀ id t, occurs x u id t → ∀ o, o ∈ t_order t → o ∈ t_order u).
  { apply (occurs_inv x u (λ t, ∀ o, o ∈ t_order t → o ∈ t_order u)); simpl; auto.
    - intros l r H. split; intros o Ho; apply H, elem_of_app; auto.
    - intros l r H. split; intros o Ho; apply H, elem_of_app; auto.
    - intros k' w t H o Ho. apply H. by right. }
  intros Ho. apply (H _ _ Ho). by left.
Qed.

(** The game of a formula, solved. *)
Lemma game_solved f t c e inits :
  let u := (nnf_tree false t (0, ∅)).1 in
  clts_ok c → state_3valued_predicates c = None → (∀ s, s ∈ inits → s < state_count c) →
  closed_formula f t → modalities_good (λ _ g, g_control g = Control_All) t → outer_least u = true →
  ∃ nf, to_nnf f = Some nf ∧ ∀ fuel, length inits + state_count c * length (nodes nf) ≤ fuel →
  ∃ g sol, build_parity_game fuel f c e inits = Some g ∧ solve g = Some sol ∧
    ∀ s, s ∈ inits → ∃ i, position_idx g !! {| p_state := s; p_node := root nf |} = Some i ∧
      (winner sol !! i = Some Eve ↔ sat c e (all_greatest u) no_binding s).
Proof.
  intros u Hc Hl Hin Hf Hctl Hleast.
  destruct (build_parity_game_spec f t c e inits Hc Hf Hin)
    as (nf & x & Hnf & Hwf & Ht & Hxf & Hxc & Hxe & Hcol & Hvp & Hbuild). fold u in Ht, Hbuild.
  pose proof (nnf_tree_is_nnf false t (0, ∅)) as Hnnf. fold u in Hnnf.
  destruct Hf as [_ _ _ Hw]. pose proof (nnf_well_named t Hw) as Hnamed. fold u in Hnamed.
  exists nf. split; [done|]. intros fuel Hfuel. destruct (Hbuild fuel Hfuel) as (g & Hg & Hok & Htot & Hfaith & Hinit).
  destruct (solve_spec g Htot) as (sol & _ & Hsol & _). exists g, sol. split_and!; [done..|].
  assert (Hu : mapped (nodes (bc_formula x)) (bc_body x) (root (bc_formula x)) u).
  { rewrite Hxf. eapply collect_mapped; [done| |done]. apply Hnamed. }
  assert (Hprio : ∀ id v b, occurs x u id (TFix Greatest v b) → favoured (default 0 (bc_priority x !! v)) = Eve).
  { intros id v b Ho%occurs_order. eapply (greatest_priority nf u); try done. apply Hnamed. }
  intros s Hs. destruct (Hinit s Hs) as [i Hi]. exists i. split; [done|]. subst c e nf.
  apply (stands_winner x u Hc Hl Hu Hnnf Hnamed (nnf_scope false t _ Hctl) Hleast g Hok Htot Hfaith Hprio sol Hsol);
    [by apply Hin|].
  exists (root (bc_formula x)). split; [by apply (go_index _ _ _ Hok)|constructor].
Qed.

Lemma verification_scope t :
  modalities_good verification_guard t → modalities_good (λ _ g, g_control g = Control_All) t.
Proof. induction t; simpl; try tauto. unfold verification_guard. tauto. Qed.

(** * Properties *)

(** C5: model checking by the game is exact on safety formulas. On a closed
    formula over unscoped, unbounded modalities whose negation normal form has
    no least fixpoint, building the game and solving it succeed, and Eve wins
    the position of an initial state and the formula exactly when the evaluator
    puts the state in the formula's two-valued denotation. *)
Theorem safety_game_correct rounds f t c e o inits :
  let x := mk_ctx c e o in
  let u := (nnf_tree false t (0, ∅)).1 in
  ctx_ok x → oob_free x → plain c → keys_faithful c → state_3valued_predicates c = None →
  prior_approximants o = None → closed_formula f t → monotone t = true →
  modalities_good verification_guard t → has_fix Least u = false → 2 * state_count c < rounds →
  (∀ s, s ∈ inits → s < state_count c) →
  ∃ nf v, to_nnf f = Some nf ∧ evaluate_with_options rounds f c e o = Some v ∧
    ∀ fuel, length inits + state_count c * length (nodes nf) ≤ fuel →
    ∃ g sol, build_parity_game fuel f c e inits = Some g ∧ solve g = Some sol ∧
      ∀ s, s ∈ inits → ∃ i, position_idx g !! {| p_state := s; p_node := root nf |} = Some i ∧
        (winner sol !! i = Some Eve ↔ bit v s = true).
Proof.
  intros x u Hx Ho Hp Hk Hl Hprior Hf Hm Hg Hleast Hr Hin. pose proof (cok_clts x Hx) as Hc.
  destruct (game_solved f t c e inits Hc Hl Hin Hf (verification_scope t Hg)) as (nf & Hnf & Hgame).
  { by apply has_least_outer. }
  destruct Hf as [Hwf Ht Hb Hw].
  destruct (evaluate_denote x Hx Ho rounds f t Hprior Hwf Ht Hm Hg Hr) as [E _].
  eexists nf, _. split_and!; [done|exact E|]. intros fuel Hfuel.
  destruct (Hgame fuel Hfuel) as (g & sol & Hbuild & Hsol & Hwin). exists g, sol. split_and!; [done..|].
  intros s Hs. destruct (Hwin s Hs) as (i & Hi & Hiff). exists i. split; [done|]. rewrite Hiff.
  fold u. rewrite all_greatest_id by done.
  assert (Hgu : modalities_good verification_guard u)
    by (by apply (nnf_good x unbounded verification_guard (DL := bool_dual x Hx Ho Hp))).
  pose proof (nnf_denote_closed x unbounded verification_guard (DL := bool_dual x Hx Ho Hp) false t Hg Hm Hw) as Hd.
  simpl in Hd. fold u in Hd. rewrite <-Hd.
  symmetry. apply denote_sat_closed; [done..| |done|by apply Hin]. apply is_nnf_monotone, nnf_tree_is_nnf.
Qed.

(** What the game decides. A variable's position leads to the body of its
    binder, past the binder that carries the fixpoint's priority. On a closed
    formula over unscoped modalities whose negation normal form keeps least
    fixpoints outside the other fixpoints, Eve wins the position of an initial
    state exactly when the state satisfies the normal form with every least
    fixpoint read as a greatest one. *)
Theorem game_solves_as_greatest f t c e inits :
  let u := (nnf_tree false t (0, ∅)).1 in
  clts_ok c → state_3valued_predicates c = None → (∀ s, s ∈ inits → s < state_count c) →
  closed_formula f t → modalities_good (λ _ g, g_control g = Control_All) t → outer_least u = true →
  ∃ nf, to_nnf f = Some nf ∧ ∀ fuel, length inits + state_count c * length (nodes nf) ≤ fuel →
  ∃ g sol, build_parity_game fuel f c e inits = Some g ∧ solve g = Some sol ∧
    ∀ s, s ∈ inits → ∃ i, position_idx g !! {| p_state := s; p_node := root nf |} = Some i ∧
      (winner sol !! i = Some Eve ↔ sat c e (all_greatest u) no_binding s).
Proof. apply game_solved. Qed.

(** The winner of position 0, the position of the first initial state and the
    formula. *)
Definition initial_winner (f : Formula) (c : Clts) (e : EvalEnvironment) (inits : list StateId) : option Player :=
  let* g := build_parity_game 100 f c e inits in
  let* sol := solve g in
  winner sol !! 0.

Definition loop : Clts := arrow [(0, 0, Sharp)] [].

(** [mu X. <> X] *)
Definition ex_mu_diamond : Formula :=
  {| root := 2; nodes := [NVariable 0; NModal Diamond Guard_default 0; NMu 0 1]; vars := ["X"] |}.
(** [nu Y. mu X. <> Y] *)
Definition ex_nu_mu : Formula :=
  {| root := 3; nodes := [NVariable 0; NModal Diamond Guard_default 0; NMu 1 1; NNu 0 2]; vars := ["Y"; "X"] |}.

(** The game disagrees with the evaluator on least fixpoints, in both
    directions. On a self-loop Eve wins [mu X. <> X], which no state satisfies,
    and loses [nu Y. mu X. <> Y], which the state satisfies. *)
Theorem game_least_as_greatest :
  (initial_winner ex_mu_diamond loop p_env [0] = Some Eve ∧
   bool_verdict EvaluationOptions_default ex_mu_diamond loop = Some false) ∧
  (initial_winner ex_nu_mu loop p_env [0] = Some Adam ∧
   bool_verdict EvaluationOptions_default ex_nu_mu loop = Some true).
Proof. split_and!; vm_compute; reflexivity. Qed.

(** State 0 leads to state 2, state 2 to state 1. *)
Definition detour : Clts :=
  built (run_ops [OpLabel ["a"]; OpInitial "s0"; OpState "s1"; OpState "s2";
                  OpTransitionIds 0 [0] 2 Sharp; OpTransitionIds 2 [0] 1 Sharp]).
(** [<steps=k> p] *)
Definition ex_within (k : nat) : Formula :=
  {| root := 1; nodes := [NPredicate "p"; NModal Diamond (scoped Control_All (Some k) [] []) 0]; vars := [] |}.

(** The game has no bounded modalities. Two steps away from [p] the evaluator
    accepts [<steps=2> p]; in the game the bound is not read, the position has
    the moves of [<> p] and Eve loses it. *)
Theorem game_ignores_steps :
  bool_verdict EvaluationOptions_default (ex_within 2) detour = Some true ∧
  initial_winner (ex_within 2) detour p_env [0] = Some Adam.
Proof. split; vm_compute; reflexivity. Qed.

(** [nu Y. mu X. (Y | true)] *)
Definition ex_choice : Formula :=
  {| root := 4; nodes := [NVariable 0; NTrue; NOr 0 1; NMu 1 2; NNu 0 3]; vars := ["Y"; "X"] |}.

Definition choice_game : ParityGame := default (empty_game ex_choice) (build_parity_game 100 ex_choice loop p_env [0]).

(** The play of Eve's recorded strategy: to [Y]'s body, then round the cycle of
    [mu X], the disjunction and the variable. *)
Definition choice_play (k : nat) : nat := match k with O => 0 | S k => S (k mod 3) end.

(** The strategy [solve] records for Eve need not win. In the game of
    [nu Y. mu X. (Y | true)] on a self-loop Eve wins the initial position, but
    every strategy that agrees with the recorded one loses from it: it chooses
    [Y] at the disjunction and sees the priority of [mu X] forever. *)
Theorem eve_strategy_loses :
  ∃ sol, build_parity_game 100 ex_choice loop p_env [0] = Some choice_game ∧
    solve choice_game = Some sol ∧ winner sol !! 0 = Some Eve ∧
    ∀ σ, (∀ i s, eve_strategy sol !! i = Some (Some s) → σ i = s) →
      ¬ winning_strategy choice_game Eve 0 σ.
Proof.
  eexists. split_and!; [vm_compute; reflexivity..|]. intros σ Hσ [_ Hw].
  assert (Hm : ∀ k, k mod 3 = 0 ∧ S k mod 3 = 1 ∨ k mod 3 = 1 ∧ S k mod 3 = 2 ∨ k mod 3 = 2 ∧ S k mod 3 = 0).
  { intros k. pose proof (Nat.mod_upper_bound k 3). rewrite <-(Nat.add_1_r k), <-Nat.Div0.add_mod_idemp_l.
    destruct (k mod 3) as [|[|[|m]]]; simpl; auto; lia. }
  apply (Hw choice_play); [|done|].
  - intros [|k]; [split; [vm_compute; by left|intros _; symmetry; by apply Hσ]|]. unfold choice_play.
    destruct (Hm k) as [[-> ->]|[[-> ->]|[-> ->]]]; (split; [by vm_compute; repeat constructor|]);
      intros _; symmetry; by apply Hσ.
  - exists 1, 1. split_and!; [done| |].
    + intros M H. apply (H (S (3 * M))); [lia|]. unfold choice_play.
      by rewrite Nat.mul_comm, Nat.Div0.mod_mul.
    + intros [|m] Hle; [lia|]. unfold choice_play.
      destruct (Hm m) as [[-> _]|[[-> _]|[-> _]]]; vm_compute; lia.
Qed.

(** ** Witnesses *)

(** [nu X. (p & [] X)] *)
Definition ex_always : Formula :=
  {| root := 4; nodes := [NPredicate "p"; NVariable 0; NModal Box Guard_default 1; NAnd 0 2; NNu 0 3];
     vars := ["X"] |}.
Definition always_tree : Tree :=
  TFix Greatest 0 (TAnd (TPred "p") (TModal Box Guard_default (TVar 0))).

Lemma always_closed : closed_formula ex_always always_tree.
Proof.
  split; [apply wf_formulab_sound; reflexivity|apply (tree_of_repr 9); reflexivity|by repeat constructor|].
  split; [|vm_compute; reflexivity]. repeat constructor; set_solver.
Qed.

Lemma first_state s : s ∈ [0] → s < state_count demo_clts.
Proof. intros ->%list_elem_of_singleton. vm_compute. lia. Qed.

Lemma safety_game_correct_witness :
  ∃ nf v, to_nnf ex_always = Some nf ∧
    evaluate_with_options 5 ex_always demo_clts demo_env EvaluationOptions_default = Some v ∧
    ∀ fuel, length [0] + state_count demo_clts * length (nodes nf) ≤ fuel →
    ∃ g sol, build_parity_game fuel ex_always demo_clts demo_env [0] = Some g ∧ solve g = Some sol ∧
      ∀ s, s ∈ [0] → ∃ i, position_idx g !! {| p_state := s; p_node := root nf |} = Some i ∧
        (winner sol !! i = Some Eve ↔ bit v s = true).
Proof.
  apply (safety_game_correct 5 ex_always always_tree demo_clts demo_env EvaluationOptions_default [0]).
  - apply demo_ctx_ok.
  - apply demo_oob_free.
  - apply demo_plain.
  - apply demo_keys.
  - vm_compute. reflexivity.
  - reflexivity.
  - apply always_closed.
  - reflexivity.
  - cbn. repeat split; done.
  - vm_compute. reflexivity.
  - vm_compute. lia.
  - apply first_state.
Defined.

Definition mu_diamond_tree : Tree := TFix Least 0 (TModal Diamond Guard_default (TVar 0)).

Lemma mu_diamond_closed : closed_formula ex_mu_diamond mu_diamond_tree.
Proof.
  split; [apply wf_formulab_sound; reflexivity|apply (tree_of_repr 9); reflexivity|by repeat constructor|].
  split; [|vm_compute; reflexivity]. repeat constructor; set_solver.
Qed.

Lemma game_solves_as_greatest_witness :
  ∃ nf, to_nnf ex_mu_diamond = Some nf ∧
  ∀ fuel, length [0] + state_count demo_clts * length (nodes nf) ≤ fuel →
  ∃ g sol, build_parity_game fuel ex_mu_diamond demo_clts demo_env [0] = Some g ∧ solve g = Some sol ∧
    ∀ s, s ∈ [0] → ∃ i, position_idx g !! {| p_state := s; p_node := root nf |} = Some i ∧
      (winner sol !! i = Some Eve ↔
       sat demo_clts demo_env (all_greatest (nnf_tree false mu_diamond_tree (0, ∅)).1) no_binding s).
Proof.
  apply (game_solves_as_greatest ex_mu_diamond mu_diamond_tree demo_clts demo_env [0]).
  - apply demo_clts_ok.
  - vm_compute. reflexivity.
  - apply first_state.
  - apply mu_diamond_closed.
  - cbn. repeat split; done.
  - vm_compute. reflexivity.
Defined.
