(* ===== verification/Morphism.v ===== *)
(** Maps between systems that keep the meaning of formulas.

    A [morphism] maps the states of one system onto those of another so that
    transitions match in both directions with the same label names and guards
    read the same variables.  [sat_morphism] is bisimulation invariance: a state
    and its image satisfy the same verification formulas. *)
From S2P Require Import Prelude Formula Trit Clts Modal Evaluator Semantics Domains Checking Verdicts Divergences Transforms.

(** Two transitions carry the same label names. *)
Definition same_labels (c : Clts) (t : Transition) (c' : Clts) (t' : Transition) : Prop :=
  ∀ w, (∃ l, l ∈ t_labels t ∧ label_test c l w = true) ↔ (∃ l, l ∈ t_labels t' ∧ label_test c' l w = true).

Record morphism (c c' : Clts) (h : nat → nat) : Prop := {
  mo_range : ∀ s, s < state_count c → h s < state_count c';
  mo_onto : ∀ k, k < state_count c' → ∃ s, s < state_count c ∧ h s = k;
  mo_variables : ∀ s v, s < state_count c → state_variable_contains c' (h s) v = state_variable_contains c s v;
  mo_forward : ∀ s t, t ∈ outgoing c s →
    ∃ t', t' ∈ outgoing c' (h s) ∧ target t' = h (target t) ∧ same_labels c t c' t';
  mo_backward : ∀ s t', s < state_count c → t' ∈ outgoing c' (h s) →
    ∃ t, t ∈ outgoing c s ∧ target t' = h (target t) ∧ same_labels c t c' t'
}.

Section morphism.
Context (c c' : Clts) (h : nat → nat) (Hm : morphism c c' h) (Hc : clts_ok c).
Let n := state_count c.

Lemma guard_morphism s t t' g :
  s < n → target t < n → target t' = h (target t) → same_labels c t c' t' →
  guard_matches_labels_and_vars c' (h s) t' g = guard_matches_labels_and_vars c s t g.
Proof using Hm.
  intros Hs Ht Htgt Hl. unfold guard_matches_labels_and_vars. rewrite Htgt.
  assert (Hvars : ∀ s names, s < n → required_ok c' (h s) names = required_ok c s names ∧
    forbidden_ok c' (h s) names = forbidden_ok c s names).
  { clear -Hm. intros s names Hs. unfold required_ok, forbidden_ok.
    split; apply forallb_ext_in; intros v _; by rewrite (mo_variables _ _ _ Hm). }
  destruct (Hvars s (required (g_current g)) Hs) as [-> _]. destruct (Hvars s (forbidden (g_current g)) Hs) as [_ ->].
  destruct (Hvars _ (required (g_next g)) Ht) as [-> _]. destruct (Hvars _ (forbidden (g_next g)) Ht) as [_ ->].
  f_equal. f_equal. destruct (g_labels g) as [|w0 ws]; [done|].
  apply existsb_ext_in. intros w _. apply bool_eq_iff. rewrite !existsb_spec. symmetry. apply Hl.
Qed.

Lemma matched_forward s g t :
  matched c s g t → ∃ t', matched c' (h s) g t' ∧ target t' = h (target t).
Proof using Hm Hc.
  intros [Ht Hg]. assert (Hs : s < n) by (by eapply outgoing_in_range).
  destruct (mo_forward _ _ _ Hm s t Ht) as (t' & Ht' & Htgt & Hl). exists t'. split; [|done]. split; [done|].
  rewrite <-Hg. apply guard_morphism; try done. by eapply (ok_target c Hc).
Qed.

Lemma matched_backward s g t' :
  s < n → matched c' (h s) g t' → ∃ t, matched c s g t ∧ target t' = h (target t).
Proof using Hm Hc.
  intros Hs [Ht' Hg]. destruct (mo_backward _ _ _ Hm s t' Hs Ht') as (t & Ht & Htgt & Hl).
  exists t. split; [|done]. split; [done|]. rewrite <-Hg. symmetry. apply guard_morphism; try done.
  by eapply (ok_target c Hc).
Qed.

Lemma step_morphism k g P P' s :
  g_control g = Control_All → (∀ s, s < n → P s ↔ P' (h s)) → s < n → step c k g P s ↔ step c' k g P' (h s).
Proof using Hm Hc.
  intros Hall HP Hs. unfold step. rewrite Hall.
  assert (Htgt : ∀ t, matched c s g t → target t < n) by (intros t [Ht _]; by eapply (ok_target c Hc)).
  destruct k; split.
  - intros H t' Ht'. destruct (matched_backward s g t' Hs Ht') as (t & Ht & ->). apply HP; auto.
  - intros H t Ht. destruct (matched_forward s g t Ht) as (t' & Ht' & Heq). apply HP; [auto|].
    rewrite <-Heq. auto.
  - intros (t & Ht & HPt). destruct (matched_forward s g t Ht) as (t' & Ht' & Heq). exists t'.
    split; [done|]. rewrite Heq. apply HP; auto.
  - intros (t' & Ht' & HPt). destruct (matched_backward s g t' Hs Ht') as (t & Ht & Heq). exists t.
    split; [done|]. apply HP; [auto|]. by rewrite <-Heq.
Qed.

Context (e e' : EvalEnvironment).
Context (Hatom : ∀ p s, s < n → atom c e p s ↔ atom c' e' p (h s)).

(** Enlarging the meaning of a positive variable. *)
Lemma sat_upd_mono t v (ρ : nat → nat → Prop) S S' s :
  occurs_only true v t = true → (∀ s, s < n → S s → S' s) → s < n →
  sat c e t (upd ρ v S) s → sat c e t (upd ρ v S') s.
Proof using Hc.
  intros Hocc HS Hs. apply (sat_mono (mk_ctx c e EvaluationOptions_default) t true v _ _ s Hc Hocc); [|done].
  split.
  - intros s' Hs'. unfold upd. rewrite !decide_True by done. by apply HS.
  - intros w Hw. unfold upd. rewrite !decide_False by done. split; apply holds_on_refl.
Qed.

(** Bisimulation invariance. *)
Lemma sat_morphism t ρ ρ' s :
  modalities_good verification_guard t → monotone t = true → (∀ v s, s < n → ρ v s ↔ ρ' v (h s)) → s < n →
  sat c e t ρ s ↔ sat c' e' t ρ' (h s).
Proof using Hm Hc Hatom.
  revert ρ ρ' s. induction t as [| |p|v|t IH|l IHl r IHr|l IHl r IHr|k g t IH|k v t IH];
    intros ρ ρ' s Hg Hmon Hρ Hs; simpl in Hg, Hmon |- *; try done; rewrite ?andb_true_iff in Hmon.
  - by apply Hatom.
  - by apply Hρ.
  - by rewrite (IH ρ ρ').
  - destruct Hg, Hmon. by rewrite (IHl ρ ρ'), (IHr ρ ρ').
  - destruct Hg, Hmon. by rewrite (IHl ρ ρ'), (IHr ρ ρ').
  - destruct Hg as [[_ Hall] Hg]. apply step_morphism; [done| |done]. intros s' Hs'. by apply IH.
  - destruct Hmon as [Hocc Hmon].
    assert (Hupd : ∀ S S', (∀ s, s < n → S s ↔ S' (h s)) → ∀ s, s < n →
      sat c e t (upd ρ v S) s ↔ sat c' e' t (upd ρ' v S') (h s)).
    { intros S S' HS s' Hs'. apply IH; [done..| |done]. intros w s0 Hs0. unfold upd.
      case_decide; [by apply HS|by apply Hρ]. }
    destruct k; split.
    + intros H S' HS'. apply (H (λ s, S' (h s))). intros s' Hs' Hsat. apply HS'; [by apply (mo_range _ _ _ Hm)|].
      by apply (Hupd (λ s, S' (h s)) S').
    + intros H S HS. apply (H (λ k, ∀ s, s < n → h s = k → S s)); [|done|done].
      intros k _ Hsat s' Hs' <-. apply HS; [done|].
      apply (Hupd (λ s1, ∀ s, s < n → h s = h s1 → S s)) in Hsat; [|done|done].
      apply (sat_upd_mono t v ρ _ S s' Hocc) in Hsat; [done| |done]. intros s0 Hs0 H0. by apply H0.
    + intros (S & HS & HSs). exists (λ k, ∃ s, s < n ∧ h s = k ∧ S s). split; [|by exists s].
      intros k _ (s' & Hs' & <- & HSs'). apply (Hupd (λ s1, ∃ s, s < n ∧ h s = h s1 ∧ S s)); [done|done|].
      apply (sat_upd_mono t v ρ S _ s' Hocc); [|done|by apply HS]. intros s0 Hs0 H0. by exists s0.
    + intros (S' & HS' & HSs). exists (λ s, S' (h s)). split; [|done]. intros s' Hs' H'.
      apply (Hupd (λ s, S' (h s)) S'); [done|done|]. apply HS'; [by apply (mo_range _ _ _ Hm)|done].
Qed.

(** The evaluator's bits along a morphism. *)
Lemma evaluate_morphism rounds f t o o' :
  let x := mk_ctx c e o in let x' := mk_ctx c' e' o' in
  ctx_ok x → oob_free x → plain c → keys_faithful c → prior_approximants o = None →
  ctx_ok x' → oob_free x' → plain c' → keys_faithful c' → prior_approximants o' = None →
  wf_formula f → formula_tree f t → monotone t = true → modalities_good verification_guard t →
  2 * state_count c < rounds → 2 * state_count c' < rounds →
  ∃ v v', evaluate_with_options rounds f c e o = Some v ∧ evaluate_with_options rounds f c' e' o' = Some v' ∧
    ∀ s, s < state_count c → bit v s = bit v' (h s).
Proof using Hm Hc Hatom.
  intros x x' Hx Ho Hp Hk Hpr Hx' Ho' Hp' Hk' Hpr' Hwf Ht Hmon Hg Hr Hr'.
  destruct (evaluate_sat x rounds f t Hx Ho Hp Hk Hpr Hwf Ht Hmon Hg Hr) as (v & E & Hv).
  destruct (evaluate_sat x' rounds f t Hx' Ho' Hp' Hk' Hpr' Hwf Ht Hmon Hg Hr') as (v' & E' & Hv').
  exists v, v'. split_and!; [done..|]. intros s Hs. apply bool_eq_iff. rewrite Hv by done.
  rewrite Hv' by (by apply (mo_range _ _ _ Hm)). by apply sat_morphism.
Qed.
End morphism.
