(* ===== verification/Minimize.v ===== *)
(** Minimisation by strong bisimulation: [composition/minimize.rs].

    [refine] is one round of the partition refinement, [refine_loop] the rounds
    until the partition is stable, and [minimize_bisimulation] the whole
    function, which builds the quotient with a [CltsBuilder].

    A state's signature is its variable bits and the sorted, duplicate-free list
    of the (block, sorted labels) pairs of its transitions.  Signatures are only
    compared, so the list is modelled as the set of its elements. *)
From S2P Require Import Prelude Formula Trit Clts Modal Evaluator Semantics Domains Checking Verdicts Divergences Transforms Morphism.

(** ** Partition refinement *)

Abbreviation TransitionSignature := (nat * list nat)%type (only parsing).
Abbreviation StateSignature := (list bool * gset (nat * list nat))%type (only parsing).

Definition transition_signature (partition : list nat) (t : Transition) : TransitionSignature :=
  (default 0 (partition !! target t), label_set t).

Definition signature_compute (c : Clts) (s : StateId) (partition : list nat) : StateSignature :=
  (state_variable_bits c s, list_to_set (map (transition_signature partition) (outgoing c s))).

(** The numbering of the signatures met so far, the blocks given to the states
    visited so far, and the next number. *)
Definition assign_block (c : Clts) (partition : list nat)
    (acc : gmap StateSignature nat * list nat * nat) (s : StateId)
    : gmap StateSignature nat * list nat * nat :=
  let '(sig_map, next_partition, next_id) := acc in
  let sg := signature_compute c s partition in
  match sig_map !! sg with
  | Some id => (sig_map, next_partition ++ [id], next_id)
  | None => (<[sg := next_id]> sig_map, next_partition ++ [next_id], S next_id)
  end.

Definition refine (c : Clts) (partition : list nat) : list nat :=
  (foldl (assign_block c partition) (∅, [], 0) (states c)).1.2.

(** [while changed]; [None] when the rounds are used up. *)
Fixpoint refine_loop (rounds : nat) (c : Clts) (partition : list nat) : option (list nat) :=
  match rounds with
  | O => None
  | S r =>
    let next_partition := refine c partition in
    if decide (next_partition = partition) then Some partition else refine_loop r c next_partition
  end.

(** ** The quotient *)

Record MinimizationReport := {
  states_before : nat;
  states_after : nat;
  transitions_before : nat;
  transitions_after : nat;
  merged_states : list string
}.

(** [usize::MAX] *)
Definition usize_max : N := (2 ^ 64 - 1)%N.

Definition with_label_store (store : LabelStoreBuilder) : CltsBuilder :=
  set_labels store CltsBuilder_default.

(** The classes as lists of states, each sorted, sorted by their first state. *)
Definition class_members (c : Clts) (partition : list nat) (class_count : nat) : list (list StateId) :=
  map (λ k, List.filter (λ s, default 0 (partition !! s) =? k) (states c)) (seq 0 class_count).

Definition first_le (a b : list StateId) : Prop := default 0 (head a) ≤ default 0 (head b).
#[export] Instance first_le_dec a b : Decision (first_le a b).
Proof. unfold first_le. apply _. Defined.

Definition class_info (c : Clts) (partition : list nat) (class_count : nat) : list (list StateId) :=
  merge_sort first_le
    (map (merge_sort (≤)) (List.filter (λ m, negb (null m)) (class_members c partition class_count))).

(** The builder, the new state of every state, the representatives with their
    new states, and the names of the merged states. *)
Record Quotient := {
  q_builder : CltsBuilder;
  q_mapping : gmap StateId StateId;
  q_representatives : list (StateId * StateId);
  q_merged : list string
}.

Definition add_class `{IdStorage} (c : Clts) (q : Quotient) (members : list StateId)
    : option (Result Quotient CltsError) :=
  let* representative := head members in
  let name := default "state"%string (state_name c representative) in
  match insert_state_owned name (q_builder q) with
  | (None, _) => Some (Err (IdOverflow "state" usize_max))
  | (Some new_state, b1) =>
    let b2 := if existsb (λ s, bool_decide (s ∈ initial_states c)) members
              then initial_state_id new_state b1 else b1 in
    let vars := state_variables c representative in
    let b3 := if negb (null vars) then with_variables_for_state new_state vars b2 else b2 in
    Some (Ok {| q_builder := b3;
                q_mapping := foldl (λ m s, <[s := new_state]> m) (q_mapping q) members;
                q_representatives := q_representatives q ++ [(representative, new_state)];
                q_merged := q_merged q ++ omap (state_name c) (tail members) |})
  end.

Fixpoint add_classes `{IdStorage} (c : Clts) (q : Quotient) (classes : list (list StateId))
    : option (Result Quotient CltsError) :=
  match classes with
  | [] => Some (Ok q)
  | members :: rest =>
    let* r := add_class c q members in
    match r with Err e => Some (Err e) | Ok q' => add_classes c q' rest end
  end.

(** The transitions of a representative, without duplicates. *)
Definition quotient_edge (mapping : gmap StateId StateId) (new_source : StateId)
    (acc : CltsBuilder * gset TransitionSignature * nat) (t : Transition)
    : CltsBuilder * gset TransitionSignature * nat :=
  let '(b, seen, count) := acc in
  match mapping !! target t with
  | Some target_new =>
    let key := (target_new, label_set t) in
    if decide (key ∈ seen) then acc
    else (transition_ids new_source (t_labels t) target_new b, {[key]} ∪ seen, S count)
  | None => acc
  end.

Definition quotient_edges (c : Clts) (mapping : gmap StateId StateId) (acc : CltsBuilder * nat)
    (rep : StateId * StateId) : CltsBuilder * nat :=
  let '(b, _, count) := foldl (quotient_edge mapping rep.2) (acc.1, ∅, acc.2) (outgoing c rep.1) in
  (b, count).

Definition minimize_bisimulation `{IdStorage} (c : Clts) (label_store : option LabelStoreBuilder)
    : option (Result (option (Clts * MinimizationReport)) CltsError) :=
  let n := state_count c in
  if n <=? 1 then Some (Ok None)
  else
    let* partition := refine_loop (S n) c (replicate n 0) in
    let class_count := match partition with [] => 0 | _ => S (max_list partition) end in
    if class_count =? n then Some (Ok None)
    else
      match class_info c partition class_count with
      | [] => Some (Ok None)
      | classes =>
        let b0 := match label_store with Some store => with_label_store store | None => CltsBuilder_default end in
        let* r := add_classes c {| q_builder := b0; q_mapping := ∅; q_representatives := []; q_merged := [] |}
                    classes in
        match r with
        | Err e => Some (Err e)
        | Ok q =>
          let '(b, count) := foldl (quotient_edges c (q_mapping q)) (q_builder q, 0) (q_representatives q) in
          let* built := build b in
          match built with
          | Err e => Some (Err e)
          | Ok minimized =>
            Some (Ok (Some (minimized,
              {| states_before := n;
                 states_after := length (q_representatives q);
                 transitions_before := sum_list (map (λ s, length (outgoing c s)) (states c));
                 transitions_after := count;
                 merged_states := q_merged q |})))
          end
        end
      end.

Lemma state_variable_contains_bits c s v :
  state_variable_contains c s v = bitset_test (variables c) (state_variable_bits c s) v.
Proof.
  unfold state_variable_contains, state_variable_bits. destruct (state_variable_ids c !! s); [done|].
  unfold bitset_test, bit. by destruct (u_symbol_index (variables c) !! v).
Qed.

(** ** Numberings *)

(** A block is numbered when its first state is met. *)
Definition canonical (p : list nat) : Prop :=
  ∀ j v, p !! j = Some v → ∀ w, w < v → ∃ i, i < j ∧ p !! i = Some w.

(** States in one block of [q] are in one block of [p]. *)
Definition finer (q p : list nat) : Prop :=
  length q = length p ∧ ∀ i j, i < length p → j < length p → q !! i = q !! j → p !! i = p !! j.

Lemma canonical_new p j v :
  canonical p → p !! j = Some v → (∀ i, i < j → p !! i ≠ Some v) → ∀ i w, i < j → p !! i = Some w → w < v.
Proof.
  intros Hp Hj Hnew i w Hi Hw. destruct (decide (w < v)) as [|Hge]; [done|exfalso].
  destruct (decide (w = v)) as [->|Hne]; [by apply (Hnew i)|].
  destruct (Hp i w Hw v) as (i' & Hi' & Hv); [lia|]. apply (Hnew i'); [lia|done].
Qed.

Lemma canonical_unique p q : canonical p → canonical q → finer p q → finer q p → p = q.
Proof.
  intros Hp Hq [Hl Hpq] [_ Hqp]. apply list_eq_same_length with (length q); [done..|].
  intros j. induction (lt_wf j) as [j _ IH]. intros v w Hj Hv Hw.
  assert (Heq : ∀ i u, i < j → p !! i = Some u ↔ q !! i = Some u).
  { intros i u Hi. destruct (lookup_lt_is_Some_2 p i) as [a Ha]; [lia|].
    destruct (lookup_lt_is_Some_2 q i) as [b Hb]; [lia|].
    pose proof (IH i Hi a b ltac:(lia) Ha Hb). rewrite Ha, Hb. by subst. }
  destruct (Nat.lt_trichotomy v w) as [H|[H|H]]; [|done|]; exfalso.
  - destruct (Hq j w Hw v H) as (i & Hi & Hiv). apply Heq in Hiv as Hip; [|done].
    specialize (Hpq i j ltac:(lia) ltac:(lia)). rewrite Hip, Hv, Hiv, Hw in Hpq.
    specialize (Hpq eq_refl). simplify_eq. lia.
  - destruct (Hp j v Hv w H) as (i & Hi & Hiw). apply Heq in Hiw as Hiq; [|done].
    specialize (Hqp i j ltac:(lia) ltac:(lia)). rewrite Hiq, Hw, Hiw, Hv in Hqp.
    specialize (Hqp eq_refl). simplify_eq. lia.
Qed.

Lemma canonical_zero n : canonical (replicate n 0).
Proof. intros j v [-> _]%lookup_replicate w Hw. lia. Qed.

Lemma canonical_bound p j v : canonical p → p !! j = Some v → v ≤ j.
Proof.
  intros Hp. revert v. induction (lt_wf j) as [j _ IH]. intros [|v] Hv; [lia|].
  destruct (Hp j (S v) Hv v) as (i & Hi & Hiv); [lia|]. specialize (IH i Hi v Hiv). lia.
Qed.

Lemma max_list_elem p : p ≠ [] → max_list p ∈ p.
Proof.
  induction p as [|x p IH]; [done|]. intros _. simpl. destruct p as [|y p].
  - simpl. rewrite Nat.max_0_r. by left.
  - destruct (Nat.max_spec x (max_list (y :: p))) as [[_ ->]|[_ ->]]; [right; by apply IH|by left].
Qed.

Lemma canonical_all p v : canonical p → p ≠ [] → v ≤ max_list p ↔ v ∈ p.
Proof.
  intros Hp Hne. split; [|apply max_list_elem_of_le].
  intros Hv. apply max_list_elem in Hne. apply list_elem_of_lookup in Hne as [j Hj].
  destruct (decide (v = max_list p)) as [->|]; [by eapply list_elem_of_lookup_2|].
  destruct (Hp j _ Hj v) as (i & _ & Hi); [lia|]. by eapply list_elem_of_lookup_2.
Qed.

(** One state per block. *)
Lemma block_states (p : list nat) k : (∀ v, v < k → v ∈ p) →
  ∃ l : list nat, length l = k ∧ ∀ v i, l !! v = Some i → p !! i = Some v.
Proof.
  induction k as [|k IH]; intros H; [by exists []|].
  destruct IH as (l & Hl & HL); [intros; apply H; lia|].
  destruct (proj1 (list_elem_of_lookup p k) (H k ltac:(lia))) as [i Hi].
  exists (l ++ [i]). split; [rewrite length_app; simpl; lia|]. intros v j.
  rewrite lookup_app_Some, list_lookup_singleton_Some. intros [?|(? & ? & <-)]; [by apply HL|].
  by replace v with k by lia.
Qed.

(** A refinement has as many blocks, and more if it is strict. *)
Lemma finer_blocks p q :
  canonical p → canonical q → p ≠ [] → finer q p →
  max_list p ≤ max_list q ∧ (max_list p = max_list q → finer p q).
Proof.
  intros Hp Hq Hne [Hl Hf]. assert (Hneq : q ≠ []) by (by intros ->; destruct p).
  destruct (block_states p (S (max_list p))) as (l & Hlen & HL).
  { intros v Hv. apply canonical_all; [done..|lia]. }
  set (Q := map (λ i, default 0 (q !! i)) l).
  assert (HQ : ∀ v i, l !! v = Some i → ∃ w, q !! i = Some w ∧ Q !! v = Some w ∧ w ≤ max_list q).
  { intros v i Hi. pose proof (HL v i Hi) as Hpi. apply lookup_lt_Some in Hpi.
    destruct (lookup_lt_is_Some_2 q i) as [w Hw]; [lia|]. exists w. split_and!; [done| |].
    - unfold Q. by rewrite list_lookup_fmap, Hi; simpl; rewrite Hw.
    - apply canonical_all; [done..|]. by eapply list_elem_of_lookup_2. }
  assert (Hlook : ∀ v w, Q !! v = Some w → ∃ i, l !! v = Some i ∧ q !! i = Some w ∧ w ≤ max_list q).
  { intros v w Hw. assert (Hlt : v < length l).
    { apply lookup_lt_Some in Hw. unfold Q in Hw. by rewrite length_map in Hw. }
    destruct (lookup_lt_is_Some_2 l v Hlt) as [i Hi]. destruct (HQ v i Hi) as (w' & ? & ? & ?).
    exists i. by simplify_eq. }
  assert (Hnd : NoDup Q).
  { apply NoDup_alt. intros a b w Ha Hb. destruct (Hlook a w Ha) as (i & Hi & Hiw & _).
    destruct (Hlook b w Hb) as (j & Hj & Hjw & _). pose proof (HL a i Hi) as Hpi. pose proof (HL b j Hj) as Hpj.
    specialize (Hf i j). rewrite Hiw, Hjw, Hpi, Hpj in Hf.
    apply lookup_lt_Some in Hpi, Hpj. specialize (Hf Hpi Hpj eq_refl). congruence. }
  assert (Hsub : Q ⊆+ seq 0 (S (max_list q))).
  { apply NoDup_submseteq; [done|]. intros w [v Hw]%list_elem_of_lookup_1. apply elem_of_seq.
    destruct (Hlook v w Hw) as (_ & _ & _ & ?). lia. }
  assert (HlQ : length Q = S (max_list p)) by (unfold Q; by rewrite length_map).
  split.
  { apply submseteq_length in Hsub. rewrite length_seq in Hsub. lia. }
  intros He. assert (Hall : ∀ i w, q !! i = Some w → ∃ v i', l !! v = Some i' ∧ q !! i' = Some w ∧ p !! i = Some v).
  { intros i w Hi. assert (Hin : w ∈ Q).
    { rewrite (submseteq_length_Permutation _ _ Hsub) by (rewrite length_seq; lia).
      apply elem_of_seq. assert (w ≤ max_list q) by (apply canonical_all; [done..|by eapply list_elem_of_lookup_2]). lia. }
    apply list_elem_of_lookup_1 in Hin as [v Hv]. destruct (Hlook v w Hv) as (i' & Hi' & Hw & _).
    exists v, i'. split_and!; [done..|]. pose proof (HL v i' Hi') as Hpv. rewrite <-Hpv.
    apply Hf; [apply lookup_lt_Some in Hi; lia|by eapply lookup_lt_Some|congruence]. }
  split; [done|]. intros i j Hi Hj Hpij.
  destruct (lookup_lt_is_Some_2 q i Hi) as [a Ha]. destruct (lookup_lt_is_Some_2 q j Hj) as [b Hb].
  destruct (Hall i a Ha) as (v & i' & Hv & Hqa & Hpi). destruct (Hall j b Hb) as (w & j' & Hw & Hqb & Hpj).
  assert (v = w) as -> by congruence. congruence.
Qed.

(** ** One round *)

Lemma canonical_push q v : canonical q → (∀ w, w < v → w ∈ q) → canonical (q ++ [v]).
Proof.
  intros Hq Hv j u Hj w Hw. apply lookup_app_Some in Hj as [Hj|[Hj Hu]].
  - destruct (Hq j u Hj w Hw) as (i & ? & ?). exists i. split; [done|]. by apply lookup_app_l_Some.
  - apply list_lookup_singleton_Some in Hu as [? <-].
    destruct (list_elem_of_lookup_1 _ _ (Hv w Hw)) as [i Hi]. exists i.
    split; [apply lookup_lt_Some in Hi; lia|by apply lookup_app_l_Some].
Qed.

Section refinement.
Context (c : Clts) (Hc : clts_ok c).
Let n := state_count c.

Record numbered (p : list nat) (m : nat) (acc : gmap StateSignature nat * list nat * nat) : Prop := {
  nb_length : length acc.1.2 = m;
  nb_map : ∀ sg id, acc.1.1 !! sg = Some id ↔
    ∃ i, i < m ∧ signature_compute c i p = sg ∧ acc.1.2 !! i = Some id;
  nb_inj : ∀ i j, i < m → j < m → acc.1.2 !! i = acc.1.2 !! j →
    signature_compute c i p = signature_compute c j p;
  nb_next : ∀ v, v < acc.2 ↔ v ∈ acc.1.2;
  nb_canonical : canonical acc.1.2
}.

Lemma assign_block_numbered p m acc : numbered p m acc → numbered p (S m) (assign_block c p acc m).
Proof using Type.
  destruct acc as [[mp ids] k]. intros [Hl Hm Hi Hn Hcan]. unfold assign_block. simpl in *.
  assert (Hlast : ∀ id, (ids ++ [id]) !! m = Some id) by (intros id; rewrite <-Hl; apply lookup_push).
  assert (Hold : ∀ i id, i < m → (ids ++ [id]) !! i = ids !! i) by (intros; apply lookup_app_l; lia).
  assert (Hcase : ∀ i, i < S m → i = m ∨ i < m) by lia.
  destruct (mp !! signature_compute c m p) as [id|] eqn:E; simpl; constructor; simpl;
    try (by rewrite length_app; simpl; lia).
  - intros sg v. rewrite Hm. split.
    + intros (i & ? & ? & ?). exists i. rewrite Hold by done. split_and!; [lia|done..].
    + intros (i & [->|?]%Hcase & Hs & Hv); [|rewrite Hold in Hv by done; eauto].
      rewrite Hlast in Hv. simplify_eq. by apply Hm.
  - apply Hm in E as (i0 & Hi0 & Hs0 & Hv0).
    assert (Hmm : ∀ j, j < m → ids !! j = Some id → signature_compute c j p = signature_compute c m p).
    { intros j Hj Hv. rewrite <-Hs0. apply Hi; [done..|congruence]. }
    intros i j [->|?]%Hcase [->|?]%Hcase; rewrite ?Hlast, ?Hold by done; [done| | |by apply Hi].
    + intros Hv. symmetry. by apply Hmm.
    + intros Hv. by apply Hmm.
  - intros v. rewrite Hn, elem_of_app, list_elem_of_singleton. split; [auto|intros [?| ->]; [done|]].
    apply Hm in E as (i0 & _ & _ & Hv0). by eapply list_elem_of_lookup_2.
  - apply canonical_push; [done|]. intros w Hw. apply Hn. apply Hm in E as (i0 & _ & _ & Hv0).
    assert (id < k) by (apply Hn; by eapply list_elem_of_lookup_2). lia.
  - intros sg v. rewrite lookup_insert_Some, Hm. split.
    + intros [[<- <-]|[_ (i & ? & ? & ?)]]; [exists m; rewrite Hlast; split_and!; [lia|done..]|].
      exists i. rewrite Hold by done. split_and!; [lia|done..].
    + intros (i & [->|?]%Hcase & Hs & Hv); [left; rewrite Hlast in Hv; by simplify_eq|].
      rewrite Hold in Hv by done. right. split; [|eauto]. intros <-.
      assert (mp !! signature_compute c m p = Some v) by (apply Hm; eauto). congruence.
  - assert (Hfresh : ∀ j, j < m → ids !! j = Some k → False).
    { intros j _ Hj. apply list_elem_of_lookup_2, Hn in Hj. lia. }
    intros i j [->|Hlti]%Hcase [->|Hltj]%Hcase; rewrite ?Hlast, ?Hold by done; [done| | |by apply Hi];
      intros Hv; exfalso; by eapply Hfresh.
  - intros v. rewrite elem_of_app, list_elem_of_singleton, <-Hn. lia.
  - apply canonical_push; [done|]. intros w Hw. by apply Hn.
Qed.

Lemma refine_numbered p : ∃ acc, refine c p = acc.1.2 ∧ numbered p n acc.
Proof using Type.
  exists (foldl (assign_block c p) (∅, [], 0) (states c)). split; [done|]. unfold states. fold n.
  induction n as [|m IH].
  - constructor; simpl; try done.
    + intros sg id. rewrite lookup_empty. split; [done|]. intros (i & ? & _). lia.
    + intros i j Hi. lia.
    + intros v. split; [lia|by intros ?%not_elem_of_nil].
  - rewrite seq_S, foldl_app. by apply assign_block_numbered.
Qed.

Lemma length_refine p : length (refine c p) = n.
Proof using Type. destruct (refine_numbered p) as (acc & -> & H). apply H. Qed.

Lemma refine_canonical p : canonical (refine c p).
Proof using Type. destruct (refine_numbered p) as (acc & -> & H). apply H. Qed.

Lemma refine_blocks p i j :
  i < n → j < n → refine c p !! i = refine c p !! j ↔ signature_compute c i p = signature_compute c j p.
Proof using Type.
  destruct (refine_numbered p) as (acc & -> & [Hl Hm Hi Hn Hcan]). intros Hlti Hltj. split; [by apply Hi|].
  intros Hs. destruct (lookup_lt_is_Some_2 acc.1.2 i) as [v Hv]; [lia|].
  destruct (lookup_lt_is_Some_2 acc.1.2 j) as [w Hw]; [lia|].
  assert (H1 : acc.1.1 !! signature_compute c i p = Some v) by (apply Hm; eauto).
  assert (H2 : acc.1.1 !! signature_compute c j p = Some w) by (apply Hm; eauto).
  rewrite Hs in H1. congruence.
Qed.

(** Equal signatures, read as a matching of transitions. *)
Definition simulates (p : list nat) (i j : nat) : Prop :=
  ∀ t, t ∈ outgoing c i → ∃ t', t' ∈ outgoing c j ∧ p !! target t = p !! target t' ∧ label_set t = label_set t'.

Definition similar (p : list nat) (i j : nat) : Prop :=
  state_variable_bits c i = state_variable_bits c j ∧ simulates p i j ∧ simulates p j i.

Lemma target_block p t s : length p = n → t ∈ outgoing c s → p !! target t = Some (default 0 (p !! target t)).
Proof using Hc.
  intros Hl Ht. destruct (lookup_lt_is_Some_2 p (target t)) as [v ->]; [|done].
  rewrite Hl. by apply (ok_target c Hc s).
Qed.

Lemma signature_similar p i j :
  length p = n → signature_compute c i p = signature_compute c j p ↔ similar p i j.
Proof using Hc.
  intros Hl. unfold signature_compute, similar. rewrite pair_equal_spec.
  assert (Hone : ∀ i j, (∀ x, x ∈ (list_to_set (map (transition_signature p) (outgoing c i)) : gset _) →
      x ∈ (list_to_set (map (transition_signature p) (outgoing c j)) : gset _)) ↔ simulates p i j).
  { clear i j. intros i j. unfold simulates. setoid_rewrite elem_of_list_to_set.
    setoid_rewrite list_elem_of_fmap. split.
    - intros H t Ht. destruct (H (transition_signature p t)) as (t' & Heq & Ht'); [eauto|].
      unfold transition_signature in Heq. injection Heq as H1 H2. exists t'.
      rewrite (target_block p t i), (target_block p t' j) by done. by split_and!; [|congruence|].
    - intros H x (t & -> & Ht). destruct (H t Ht) as (t' & Ht' & Hp & Hls). exists t'.
      split; [|done]. unfold transition_signature. by rewrite Hp, Hls. }
  rewrite set_eq, <-!Hone. naive_solver.
Qed.

Lemma similar_finer p q i j : length p = n → length q = n → finer q p → similar q i j → similar p i j.
Proof using Hc.
  intros Hp Hq [_ Hf] (Hv & H1 & H2). split; [done|].
  split; [rename H1 into H|rename H2 into H]; intros t Ht; destruct (H t Ht) as (t' & Ht' & Heq & ?);
    exists t'; (split_and!; [done| |done]); apply Hf; try done; rewrite Hp; by eapply (ok_target c Hc).
Qed.

Lemma refine_finer p q : length p = n → length q = n → finer q p → finer (refine c q) (refine c p).
Proof using Hc.
  intros Hp Hq Hf. split; [by rewrite !length_refine|]. rewrite length_refine. intros i j Hi Hj.
  rewrite !refine_blocks, !signature_similar by done. by apply similar_finer.
Qed.

(** ** The refinement loop *)

(** A strong bisimulation: equal variable bits, matching labelled moves. *)
Record bisimulation (R : nat → nat → Prop) : Prop := {
  bi_variables : ∀ i j, R i j → state_variable_bits c i = state_variable_bits c j;
  bi_left : ∀ i j t, R i j → t ∈ outgoing c i →
    ∃ t', t' ∈ outgoing c j ∧ R (target t) (target t') ∧ label_set t = label_set t';
  bi_right : ∀ i j t', R i j → t' ∈ outgoing c j →
    ∃ t, t ∈ outgoing c i ∧ R (target t) (target t') ∧ label_set t = label_set t'
}.

Definition bisimilar (i j : nat) : Prop := ∃ R, bisimulation R ∧ R i j.

(** The blocks contain every bisimulation. *)
Definition coarse (p : list nat) : Prop := ∀ i j, i < n → j < n → bisimilar i j → p !! i = p !! j.

Lemma refine_coarse p : length p = n → coarse p → coarse (refine c p).
Proof using Hc.
  intros Hl Hp i j Hi Hj (R & HR & Hij). apply refine_blocks; [done..|]. apply signature_similar; [done|].
  split; [by apply (bi_variables R HR)|]. split; intros t Ht.
  - destruct (bi_left R HR i j t Hij Ht) as (t' & Ht' & Hr & Hls). exists t'. split_and!; [done| |done].
    apply Hp; [by eapply (ok_target c Hc)..|by exists R].
  - destruct (bi_right R HR i j t Hij Ht) as (t' & Ht' & Hr & Hls). exists t'. split_and!; [done| |done].
    symmetry. apply Hp; [by eapply (ok_target c Hc)..|by exists R].
Qed.

Lemma stable_bisimulation p :
  length p = n → refine c p = p → bisimulation (λ i j, i < n ∧ j < n ∧ p !! i = p !! j).
Proof using Hc.
  intros Hl Hst. assert (Hsim : ∀ i j, i < n ∧ j < n ∧ p !! i = p !! j → similar p i j).
  { intros i j (Hi & Hj & H). apply signature_similar; [done|]. apply refine_blocks; [done..|]. by rewrite Hst. }
  constructor.
  - intros i j H. by apply Hsim in H as [? _].
  - intros i j t H Ht. apply Hsim in H as (_ & H & _). destruct (H t Ht) as (t' & ? & ? & ?).
    exists t'. split_and!; try done; by eapply (ok_target c Hc).
  - intros i j t H Ht. apply Hsim in H as (_ & _ & H). destruct (H t Ht) as (t' & ? & ? & ?).
    exists t'. split_and!; try done; by eapply (ok_target c Hc).
Qed.

Lemma refine_loop_spec rounds p :
  0 < n → length p = n → canonical p → coarse p → finer (refine c p) p → n ≤ rounds + max_list p →
  ∃ q, refine_loop rounds c p = Some q ∧ length q = n ∧ canonical q ∧ coarse q ∧ refine c q = q.
Proof using Hc.
  intros Hn. revert p. induction rounds as [|r IH]; intros p Hl Hcan Hco Hf Hr.
  - exfalso. assert (Hne : p ≠ []) by (intros ->; simpl in Hl; lia).
    destruct (list_elem_of_lookup_1 _ _ (max_list_elem p Hne)) as [j Hj].
    pose proof (canonical_bound p j _ Hcan Hj). apply lookup_lt_Some in Hj. lia.
  - cbn [refine_loop]. case_decide as He; [by exists p|].
    assert (Hne : p ≠ []) by (intros ->; simpl in Hl; lia).
    destruct (finer_blocks p (refine c p) Hcan (refine_canonical p) Hne Hf) as [Hle Hst].
    apply IH; [apply length_refine|apply refine_canonical|by apply refine_coarse| |].
    + apply refine_finer; [done|apply length_refine|done].
    + destruct (decide (max_list p = max_list (refine c p))) as [Heq|]; [|lia]. exfalso. apply He.
      symmetry. apply canonical_unique; [done|apply refine_canonical|by apply Hst|done].
Qed.

Lemma refine_loop_total :
  0 < n → ∃ p, refine_loop (S n) c (replicate n 0) = Some p ∧ length p = n ∧ canonical p ∧ refine c p = p ∧
    ∀ i j, i < n → j < n → p !! i = p !! j ↔ bisimilar i j.
Proof using Hc.
  intros Hn. assert (H0 : ∀ i, i < n → replicate n 0 !! i = Some 0) by (intros; by apply lookup_replicate_2).
  destruct (refine_loop_spec (S n) (replicate n 0)) as (p & Hp & Hl & Hcan & Hco & Hst).
  - done.
  - apply length_replicate.
  - apply canonical_zero.
  - intros i j Hi Hj _. by rewrite !H0.
  - split; [by rewrite length_refine, length_replicate|]. rewrite length_replicate. intros i j Hi Hj _.
    by rewrite !H0.
  - lia.
  - exists p. split_and!; [done..|]. intros i j Hi Hj. split; [|by apply Hco]. intros Heq.
    exists (λ i j, i < n ∧ j < n ∧ p !! i = p !! j). split; [by apply stable_bisimulation|done].
Qed.
End refinement.

(** ** The transitions of the quotient *)

(** The transitions of one representative in the quotient. *)
Record edges_of (mapping : gmap StateId StateId) (i : StateId) (ts : list Transition)
    (specs : list TransitionSpec) : Prop := {
  eo_sound : ∀ x, x ∈ specs → spec_from x = i ∧ spec_modality x = Sharp ∧
    ∃ t, t ∈ ts ∧ mapping !! target t = Some (spec_to x) ∧ spec_labels x = t_labels t;
  eo_complete : ∀ t j, t ∈ ts → mapping !! target t = Some j →
    ∃ x, x ∈ specs ∧ spec_to x = j ∧ merge_sort (≤) (spec_labels x) = label_set t
}.

Lemma quotient_edge_fold mapping i ts : ∀ b seen count specs0 ts0,
  (∀ key, key ∈ seen ↔ ∃ x, x ∈ specs0 ∧ key = (spec_to x, merge_sort (≤) (spec_labels x))) →
  edges_of mapping i ts0 specs0 →
  ∃ specs, let '(b', _, count') := foldl (quotient_edge mapping i) (b, seen, count) ts in
    b' = set_transitions (cb_transitions b ++ specs) b ∧ count' = count + length specs ∧
    edges_of mapping i (ts0 ++ ts) (specs0 ++ specs).
Proof.
  induction ts as [|t ts IH]; intros b seen count specs0 ts0 Hseen He; cbn [foldl].
  { exists []. rewrite !app_nil_r. split_and!; [by destruct b|simpl; lia|done]. }
  assert (Hskip : (∀ j, mapping !! target t = Some j → (j, label_set t) ∈ seen) → edges_of mapping i (ts0 ++ [t]) specs0).
  { intros Hin. constructor.
    - intros x Hx. destruct (eo_sound _ _ _ _ He x Hx) as (? & ? & t' & ? & ? & ?).
      split_and!; [done..|]. exists t'. rewrite elem_of_app. auto.
    - intros t' j [Ht'|Ht']%elem_of_app Hj; [by apply (eo_complete _ _ _ _ He)|].
      apply list_elem_of_singleton in Ht' as ->. apply Hin, Hseen in Hj as (x & Hx & Heq).
      exists x. by injection Heq. }
  replace (ts0 ++ t :: ts) with ((ts0 ++ [t]) ++ ts) by (by rewrite <-app_assoc).
  unfold quotient_edge at 2. destruct (mapping !! target t) as [j|] eqn:Em.
  2:{ apply IH; [done|by apply Hskip]. }
  case_decide as Hk.
  { apply IH; [done|]. apply Hskip. by intros j' [= <-]. }
  set (x0 := {| spec_from := i; spec_to := j; spec_labels := t_labels t; spec_modality := Sharp |}).
  destruct (IH (transition_ids i (t_labels t) j b) ({[(j, label_set t)]} ∪ seen) (S count) (specs0 ++ [x0]) (ts0 ++ [t]))
    as (specs & Hfold).
  - intros key. rewrite elem_of_union, elem_of_singleton, Hseen. setoid_rewrite elem_of_app.
    setoid_rewrite list_elem_of_singleton. split.
    + intros [->|(x & ? & ?)]; [exists x0; auto|exists x; auto].
    + intros (x & [?| ->] & ->); [right; eauto|by left].
  - constructor.
    + intros x [Hx|Hx]%elem_of_app.
      * destruct (eo_sound _ _ _ _ He x Hx) as (? & ? & t' & ? & ? & ?).
        split_and!; [done..|]. exists t'. rewrite elem_of_app. auto.
      * apply list_elem_of_singleton in Hx as ->. split_and!; [done..|]. exists t.
        rewrite elem_of_app, list_elem_of_singleton. auto.
    + intros t' j' [Ht'|Ht']%elem_of_app Hj.
      * destruct (eo_complete _ _ _ _ He t' j' Ht' Hj) as (x & ? & ?). exists x. rewrite elem_of_app. auto.
      * apply list_elem_of_singleton in Ht' as ->. rewrite Em in Hj. injection Hj as <-.
        exists x0. rewrite elem_of_app, list_elem_of_singleton. auto.
  - exists (x0 :: specs). destruct (foldl _ _ _) as [[b' seen'] count']. destruct Hfold as (-> & -> & Hed).
    split_and!; [|simpl; lia|by rewrite <-(app_assoc specs0) in Hed].
    unfold transition_ids, transition_ids_with_modality, set_transitions. simpl. by rewrite <-app_assoc.
Qed.

Lemma quotient_edges_spec c mapping b count r i :
  ∃ specs, quotient_edges c mapping (b, count) (r, i)
      = (set_transitions (cb_transitions b ++ specs) b, count + length specs) ∧
    edges_of mapping i (outgoing c r) specs.
Proof.
  destruct (quotient_edge_fold mapping i (outgoing c r) b ∅ count [] []) as (specs & Hf).
  - intros key. split; [by intros ?%not_elem_of_empty|]. intros (x & Hx & _). by apply not_elem_of_nil in Hx.
  - constructor; [intros x Hx|intros t j Hx]; by apply not_elem_of_nil in Hx.
  - exists specs. unfold quotient_edges. cbn [fst snd].
    destruct (foldl _ _ _) as [[b' seen'] count']. destruct Hf as (-> & -> & He). done.
Qed.

(** The transitions of all representatives. *)
Lemma all_edges_spec c mapping reps : ∀ b count,
  ∃ specs, foldl (quotient_edges c mapping) (b, count) reps
      = (set_transitions (cb_transitions b ++ specs) b, count + length specs) ∧
    (∀ x, x ∈ specs → spec_modality x = Sharp ∧ ∃ r t, (r, spec_from x) ∈ reps ∧ t ∈ outgoing c r ∧
       mapping !! target t = Some (spec_to x) ∧ spec_labels x = t_labels t) ∧
    (∀ r i t j, (r, i) ∈ reps → t ∈ outgoing c r → mapping !! target t = Some j →
       ∃ x, x ∈ specs ∧ spec_from x = i ∧ spec_to x = j ∧ merge_sort (≤) (spec_labels x) = label_set t).
Proof.
  induction reps as [|[r i] reps IH]; intros b count; cbn [foldl].
  { exists []. rewrite app_nil_r. split_and!; [simpl; rewrite Nat.add_0_r; by destruct b|..].
    - intros x Hx. by apply not_elem_of_nil in Hx.
    - intros r i t j Hx. by apply not_elem_of_nil in Hx. }
  destruct (quotient_edges_spec c mapping b count r i) as (specs1 & -> & He).
  destruct (IH (set_transitions (cb_transitions b ++ specs1) b) (count + length specs1)) as (specs & -> & H1 & H2).
  exists (specs1 ++ specs). split_and!.
  - unfold set_transitions. simpl. by rewrite <-app_assoc, length_app, Nat.add_assoc.
  - intros x [Hx|Hx]%elem_of_app.
    + destruct (eo_sound _ _ _ _ He x Hx) as (Hfrom & ? & t & ? & ? & ?). split; [done|].
      exists r, t. rewrite Hfrom. split_and!; [by left|done..].
    + destruct (H1 x Hx) as (? & r' & t & ? & ? & ? & ?). split; [done|]. exists r', t.
      split_and!; [by right|done..].
  - intros r' i' t j [Heq|Hin]%elem_of_cons Ht Hj.
    + injection Heq as -> ->. destruct (eo_complete _ _ _ _ He t j Ht Hj) as (x & Hx & ? & ?).
      exists x. split_and!; [apply elem_of_app; by left| |done..]. by apply (eo_sound _ _ _ _ He x).
    + destruct (H2 r' i' t j Hin Ht Hj) as (x & Hx & ?). exists x. rewrite elem_of_app. auto.
Qed.
Definition rep (members : list StateId) : StateId := default 0 (head members).

Lemma elem_class (members : list StateId) : members ≠ [] → rep members ∈ members.
Proof. destruct members; [done|]. by left. Qed.

(** The classes of a partition, as [class_info] lists them. *)
Record classes_ok (c : Clts) (cs : list (list StateId)) : Prop := {
  co_nonempty : ∀ m, m ∈ cs → m ≠ [];
  co_range : ∀ m s, m ∈ cs → s ∈ m → s < state_count c;
  co_disjoint : ∀ i j m m' s, cs !! i = Some m → cs !! j = Some m' → s ∈ m → s ∈ m' → i = j;
  co_count : length cs ≤ state_count c
}.

(** ** The classes of a partition *)

Section classes.
Context (c : Clts) (p : list nat) (Hp : length p = state_count c) (Hcan : canonical p) (Hpos : 0 < state_count c).

Definition class (k : nat) : list StateId := List.filter (λ s, default 0 (p !! s) =? k) (states c).

Lemma elem_of_class k s : s ∈ class k ↔ p !! s = Some k.
Proof using All.
  unfold class, states. rewrite elem_of_filterb, elem_of_seq, Nat.eqb_eq.  split.
  - intros [Hlt Hd]. destruct (lookup_lt_is_Some_2 p s) as [v Hv]; [lia|]. rewrite Hv in *. by simpl in Hd; subst.
  - intros Hk. rewrite Hk. split; [apply lookup_lt_Some in Hk; lia|done].
Qed.

Lemma class_info_perm :
  class_info c p (S (max_list p)) ≡ₚ map (λ k, merge_sort (≤) (class k)) (seq 0 (S (max_list p))).
Proof using All.
  assert (Hne : p ≠ []) by (intros ->; simpl in Hp; lia).
  assert (Hin : ∀ k, k ≤ max_list p → k ∈ p) by (intros; by apply canonical_all).
  unfold class_info. rewrite merge_sort_Permutation. unfold class_members. fold class.
  generalize (S (max_list p)) (λ k, Nat.lt_succ_r k (max_list p)). intros K HK.
  assert (Hk : ∀ k, k ∈ seq 0 K → class k ≠ []).
  { intros k [_ Hk]%elem_of_seq He. destruct (list_elem_of_lookup_1 _ _ (Hin k ltac:(apply HK; lia))) as [s Hs'].
    apply elem_of_class in Hs'. rewrite He in Hs'. by apply not_elem_of_nil in Hs'. }
  clear Hin HK. induction (seq 0 K) as [|k l IH]; [done|]. cbn [map List.filter].
  change (List.filter _ (states c)) with (class k).
  destruct (class k) as [|s l'] eqn:E; [by destruct (Hk k ltac:(by left))|]. rewrite <-E. cbn.
  replace (negb (null (class k))) with true by (by rewrite E). simpl.
  constructor. apply IH. intros k' Hk'. apply Hk. by right.
Qed.

Lemma elem_of_sorted_class k s : s ∈ merge_sort (≤) (class k) ↔ p !! s = Some k.
Proof using All. rewrite (merge_sort_Permutation (≤)). apply elem_of_class. Qed.

Lemma elem_of_class_info m :
  m ∈ class_info c p (S (max_list p)) ↔ ∃ k, k ≤ max_list p ∧ m = merge_sort (≤) (class k).
Proof using All.
  rewrite class_info_perm, list_elem_of_fmap. setoid_rewrite elem_of_seq. split.
  - intros (k & -> & ?). exists k. split; [lia|done].
  - intros (k & ? & ->). exists k. split; [done|lia].
Qed.

Lemma class_info_nodup : NoDup (class_info c p (S (max_list p))).
Proof using All.
  assert (Hne : p ≠ []) by (intros ->; simpl in Hp; lia).
  rewrite class_info_perm. apply NoDup_fmap_2_strong; [|apply NoDup_seq].
  intros k k' Hk _ Heq. apply elem_of_seq in Hk.
  destruct (list_elem_of_lookup_1 p k) as [s Hs]; [by apply canonical_all; [..|lia]|].
  pose proof Hs as Hs'. apply elem_of_sorted_class in Hs'. rewrite Heq in Hs'.
  apply elem_of_sorted_class in Hs'. congruence.
Qed.

(** The classes are the blocks. *)
Lemma class_info_blocks :
  classes_ok c (class_info c p (S (max_list p))) ∧
  length (class_info c p (S (max_list p))) = S (max_list p) ∧
  (∀ m s s', m ∈ class_info c p (S (max_list p)) → s ∈ m → s' ∈ m ↔ p !! s = p !! s') ∧
  (∀ s, s < state_count c → ∃ m, m ∈ class_info c p (S (max_list p)) ∧ s ∈ m).
Proof using All.
  assert (Hne : p ≠ []) by (intros ->; simpl in Hp; lia).
  assert (Hlen : length (class_info c p (S (max_list p))) = S (max_list p)).
  { rewrite class_info_perm. by rewrite length_map, length_seq. }
  assert (Hblock : ∀ m s s', m ∈ class_info c p (S (max_list p)) → s ∈ m → s' ∈ m ↔ p !! s = p !! s').
  { intros m s s' (k & _ & ->)%elem_of_class_info Hk%elem_of_sorted_class.
    rewrite elem_of_sorted_class, Hk. naive_solver. }
  split_and!; [|done|done|].
  - constructor.
    + intros m (k & Hk & ->)%elem_of_class_info He.
      destruct (list_elem_of_lookup_1 p k) as [s Hs]; [by apply canonical_all|].
      apply elem_of_sorted_class in Hs. rewrite He in Hs. by apply not_elem_of_nil in Hs.
    + intros m s (k & _ & ->)%elem_of_class_info Hs%elem_of_sorted_class.
      apply lookup_lt_Some in Hs. by rewrite <-Hp.
    + intros i j m m' s Hi Hj Hm Hm'. apply (proj1 (NoDup_alt _) class_info_nodup i j m Hi).
      enough (m' = m) as -> by done.
      apply list_elem_of_lookup_2, elem_of_class_info in Hi as (k & _ & ->), Hj as (k' & _ & ->).
      apply elem_of_sorted_class in Hm, Hm'. congruence.
    + rewrite Hlen. destruct (list_elem_of_lookup_1 _ _ (max_list_elem p Hne)) as [j Hj].
      pose proof (canonical_bound p j _ Hcan Hj). apply lookup_lt_Some in Hj. lia.
  - intros s Hs. destruct (lookup_lt_is_Some_2 p s) as [k Hk]; [lia|].
    exists (merge_sort (≤) (class k)). split; [|by apply elem_of_sorted_class].
    apply elem_of_class_info. exists k. split; [|done]. apply max_list_elem_of_le.
    by eapply list_elem_of_lookup_2.
Qed.
End classes.
(** ** Building the quotient *)

Section quotient.
Context `{IdStorage} (c : Clts) (Hc : clts_ok c) (Hs : states_ok c).
Context (store : LabelStoreBuilder) (Hstore : label_builder_ok store).
Let n := state_count c.
Context (Hfit : (N.of_nat n <= id_max + 1)%N).

(** The builder after the states of the classes [cs]. *)
Record states_added (cs : list (list StateId)) (b : CltsBuilder) : Prop := {
  sa_ok : builder_ok b;
  sa_overflow : cb_state_overflow b = None;
  sa_transitions : cb_transitions b = [];
  sa_labels : cb_labels b = store;
  sa_controllability : cb_label_controllability b = ∅;
  sa_predicates : cb_state_3valued_predicates b = None;
  sa_valuations : Forall (λ v, v = None) (cb_state_valuations b);
  sa_names : ∀ i m, cs !! i = Some m → cb_state_names b !! i = state_name c (rep m);
  sa_count : length (cb_state_names b) = length cs;
  sa_initial : ∀ i, i ∈ cb_initial_states b ↔ ∃ m s, cs !! i = Some m ∧ s ∈ m ∧ s ∈ initial_states c;
  sa_variables : ∀ i m, cs !! i = Some m → ∃ id, cb_state_variables b !! i = Some id ∧
    vb_sets (cb_variables b) !! id = Some (canon (state_variables c (rep m)))
}.

Record classes_added (cs : list (list StateId)) (q : Quotient) : Prop := {
  ca_states : states_added cs (q_builder q);
  ca_representatives : q_representatives q = imap (λ i m, (rep m, i)) cs;
  ca_mapping : ∀ s i, q_mapping q !! s = Some i → ∃ m, cs !! i = Some m ∧ s ∈ m;
  ca_mapped : ∀ i m s, cs !! i = Some m → s ∈ m → is_Some (q_mapping q !! s)
}.

Lemma insert_fresh b name cs :
  states_added cs b → cb_state_map b !! name = None → length cs < n →
  ∃ b', insert_state_owned name b = (Some (length cs), b') ∧ builder_ok b' ∧
    cb_state_overflow b' = None ∧ cb_transitions b' = [] ∧ cb_labels b' = store ∧
    cb_label_controllability b' = ∅ ∧ cb_state_3valued_predicates b' = None ∧
    cb_state_valuations b' = cb_state_valuations b ++ [None] ∧
    cb_state_names b' = cb_state_names b ++ [name] ∧ cb_initial_states b' = cb_initial_states b ∧
    ∃ vid ext, cb_state_variables b' = cb_state_variables b ++ [vid] ∧
      vb_sets (cb_variables b') = vb_sets (cb_variables b) ++ ext ∧
      vb_sets (cb_variables b') !! vid = Some [].
Proof using Hfit.
  intros Hsa Hnone Hlt. rewrite <-(sa_count _ _ Hsa) in Hlt |- *.
  destruct (insert_state_fresh b name (sa_ok _ _ Hsa) Hnone) as (b' & vid & ext & E & Hok & Hb & Hext & Hvid); [lia|].
  exists b'. split; [done|]. split; [done|].
  rewrite Hb. cbn. split_and!; try done; try (by apply Hsa). by exists vid, ext.
Qed.

(** A class whose representative is new among the representatives. *)
Lemma add_class_states cs b members :
  states_added cs b → members ≠ [] → (∀ s, s ∈ members → s < n) →
  (∀ m, m ∈ cs → rep m < n ∧ rep m ≠ rep members) → length cs < n →
  ∃ b1, insert_state_owned (default "state"%string (state_name c (rep members))) b = (Some (length cs), b1) ∧
    let b2 := if existsb (λ s, bool_decide (s ∈ initial_states c)) members
              then initial_state_id (length cs) b1 else b1 in
    let vars := state_variables c (rep members) in
    let b3 := if negb (null vars) then with_variables_for_state (length cs) vars b2 else b2 in
    states_added (cs ++ [members]) b3.
Proof using All.
  intros Hsa Hne Hlt Hreps Hlen. set (k := length cs) in *. set (r := rep members).
  destruct (lookup_lt_is_Some_2 (state_names c) r) as [name Hname]; [by apply Hlt, elem_class|].
  assert (Hdef : default "state"%string (state_name c r) = name) by (unfold state_name; by rewrite Hname).
  rewrite Hdef. destruct (insert_fresh b name cs Hsa) as (b1 & E & Hok1 & Hov & Htr & Hlb & Hlc & Hpr & Hval & Hnm & Hin & vid & ext & Hvs & Hext & Hvid).
  { destruct (cb_state_map b !! name) as [i|] eqn:Ei; [|done]. exfalso.
    apply (bok_map _ (sa_ok _ _ Hsa)) in Ei. pose proof (lookup_lt_Some _ _ _ Ei) as Hi.
    rewrite (sa_count _ _ Hsa) in Hi. destruct (lookup_lt_is_Some_2 cs i Hi) as [m Hm].
    rewrite (sa_names _ _ Hsa i m Hm) in Ei. unfold state_name in Ei.
    destruct (Hreps m) as [_ Hner]; [by eapply list_elem_of_lookup_2|]. apply Hner.
    by apply (proj1 (NoDup_alt _) (so_names c Hs) _ _ name). }
  { done. }
  exists b1. split; [done|]. cbv zeta. set (b2 := if existsb _ _ then _ else _). fold r.
  assert (Hlk : length (cb_state_variables b) = k).
  { by rewrite (bok_var_rows _ (sa_ok _ _ Hsa)), (sa_count _ _ Hsa). }
  assert (Hb2 : builder_ok b2 ∧ b2 = set_initial_states (cb_initial_states b2) b1 ∧
    ∀ i, i ∈ cb_initial_states b2 ↔ i ∈ cb_initial_states b ∨ (i = k ∧ ∃ s, s ∈ members ∧ s ∈ initial_states c)).
  { subst b2. destruct (existsb _ _) eqn:Ex.
    - apply existsb_spec in Ex as (s & Hsm & Hsi%bool_decide_eq_true). split_and!.
      + apply initial_state_id_ok; [done|]. rewrite Hnm, length_app, (sa_count _ _ Hsa). simpl. lia.
      + done.
      + intros i. simpl. rewrite elem_of_union, elem_of_singleton, Hin. naive_solver.
    - split_and!; [done|by destruct b1|]. intros i. rewrite Hin. split; [auto|].
      intros [?|(_ & s & Hsm & Hsi)]; [done|exfalso]. apply not_true_iff_false in Ex. apply Ex.
      apply existsb_spec. exists s. by rewrite bool_decide_eq_true. }
  destruct Hb2 as (Hok2 & Hb2 & Hin2).
  destruct (variables_slot b2 k vid (state_variables c r) Hok2) as (Hok3 & Hb3 & Hid & Hother & ext' & Hext').
  { rewrite Hb2. simpl. rewrite Hvs, <-Hlk. apply lookup_push. }
  { by rewrite Hb2. }
  set (b3 := if negb _ then _ else _) in *. clearbody b3. clearbody b2.
  assert (Hcs : ∀ i m, (cs ++ [members]) !! i = Some m → cs !! i = Some m ∨ (i = k ∧ m = members)).
  { intros i m. rewrite lookup_app_Some, list_lookup_singleton_Some. intros [?|(? & ? & <-)]; [by left|right].
    split; [unfold k; lia|done]. }
  constructor; [done|..]; try (rewrite Hb3; simpl; rewrite Hb2; simpl; done).
  - rewrite Hb3; simpl; rewrite Hb2; simpl. rewrite Hval. apply Forall_app. split; [apply Hsa|by constructor].
  - intros i m Hi. rewrite Hb3; simpl; rewrite Hb2; simpl. rewrite Hnm.
    destruct (Hcs i m Hi) as [Hm|[-> ->]].
    + rewrite lookup_app_l by (rewrite (sa_count _ _ Hsa); by eapply lookup_lt_Some). by apply Hsa.
    + unfold k. rewrite <-(sa_count _ _ Hsa), lookup_push. symmetry. done.
  - rewrite Hb3; simpl; rewrite Hb2; simpl. rewrite Hnm, !length_app, (sa_count _ _ Hsa). done.
  - intros i. rewrite Hb3; simpl. rewrite Hin2, (sa_initial _ _ Hsa). split.
    + intros [(m & s & Hm & ? & ?)|(-> & s & ? & ?)].
      * exists m, s. split_and!; [by apply lookup_app_l_Some|done..].
      * exists members, s. split_and!; [apply lookup_push|done..].
    + intros (m & s & [Hm|[-> ->]]%Hcs & ? & ?); [left; eauto|right; eauto].
  - intros i m [Hm|[-> ->]]%Hcs; [|done]. destruct (sa_variables _ _ Hsa i m Hm) as (id & Hi & Hset).
    assert (Hne' : i ≠ k) by (apply lookup_lt_Some in Hm; unfold k; lia).
    exists id. rewrite (Hother i Hne'), Hext', Hb2. simpl. rewrite Hvs, Hext. split.
    + by apply lookup_app_l_Some.
    + by apply lookup_app_l_Some, lookup_app_l_Some.
Qed.

Lemma mapping_fold (members : list StateId) (m : gmap StateId StateId) k s :
  foldl (λ m s, <[s := k]> m) m members !! s = if decide (s ∈ members) then Some k else m !! s.
Proof using Type.
  revert m. induction members as [|x l IH]; intros m; cbn [foldl].
  - case_decide as Hin; [by apply not_elem_of_nil in Hin|done].
  - rewrite IH. destruct (decide (s ∈ l)) as [Hl|Hl].
    + by rewrite decide_True by (by right).
    + destruct (decide (s = x)) as [->|Hx].
      * by rewrite lookup_insert_eq, decide_True by (by left).
      * rewrite lookup_insert_ne, decide_False by (done || by intros [?|?]%elem_of_cons). done.
Qed.

Lemma add_class_spec cs q members :
  classes_added cs q → members ≠ [] → (∀ s, s ∈ members → s < n) →
  (∀ m, m ∈ cs → rep m < n ∧ ∀ s, s ∈ m → s ∉ members) → (∀ m, m ∈ cs → m ≠ []) → length cs < n →
  ∃ q', add_class c q members = Some (Ok q') ∧ classes_added (cs ++ [members]) q'.
Proof using All.
  intros [Hsa Hr Hmap Hmapped] Hne Hlt Hdis Hnes Hlen.
  destruct (add_class_states cs (q_builder q) members Hsa Hne Hlt) as (b1 & E & Hb3); [|done|].
  { intros m Hm. destruct (Hdis m Hm) as [? Hd]. split; [done|]. intros Heq.
    apply (Hd (rep m)); [by apply elem_class, Hnes|]. rewrite Heq. by apply elem_class. }
  assert (Hhead : head members = Some (rep members)) by (by destruct members).
  unfold add_class. rewrite Hhead, E. eexists. split; [done|]. constructor; cbn [q_builder q_representatives q_mapping].
  - exact Hb3.
  - rewrite Hr, imap_app. simpl. by rewrite Nat.add_0_r.
  - intros s i. rewrite mapping_fold. case_decide as Hin.
    + intros [= <-]. exists members. split; [apply lookup_push|done].
    + intros (m & Hm & ?)%Hmap. exists m. split; [by apply lookup_app_l_Some|done].
  - intros i m s. rewrite lookup_app_Some, list_lookup_singleton_Some, mapping_fold. case_decide; [done|].
    intros [Hm|(_ & _ & <-)] ?; [by apply (Hmapped i m)|done].
Qed.

Lemma add_classes_spec rest : ∀ done q,
  classes_added done q → classes_ok c (done ++ rest) →
  ∃ q', add_classes c q rest = Some (Ok q') ∧ classes_added (done ++ rest) q'.
Proof using All.
  induction rest as [|m rest IH]; intros done q Hq Hcs.
  { exists q. by rewrite app_nil_r. }
  assert (Hm : m ∈ done ++ m :: rest) by (apply elem_of_app; right; by left).
  assert (Hin : ∀ m', m' ∈ done → m' ∈ done ++ m :: rest) by (intros; apply elem_of_app; by left).
  destruct (add_class_spec done q m Hq) as (q1 & E & Hq1).
  - by apply (co_nonempty _ _ Hcs).
  - intros s Hs'. by apply (co_range _ _ Hcs m).
  - intros m' Hm'. split.
    + apply (co_range _ _ Hcs m'); [by apply Hin|]. apply elem_class. by apply (co_nonempty _ _ Hcs), Hin.
    + intros s Hs1 Hs2. apply list_elem_of_lookup_1 in Hm' as [i Hi].
      assert (i = length done); [|apply lookup_lt_Some in Hi; lia].
      apply (co_disjoint _ _ Hcs i (length done) m' m s); [by apply lookup_app_l_Some| |done..].
      by rewrite lookup_app_r, Nat.sub_diag by lia.
  - intros m' Hm'. by apply (co_nonempty _ _ Hcs), Hin.
  - pose proof (co_count _ _ Hcs) as H1. rewrite length_app in H1. simpl in H1. lia.
  - cbn [add_classes]. rewrite E. replace (done ++ m :: rest) with ((done ++ [m]) ++ rest) in * by (by rewrite <-app_assoc).
    by apply IH.
Qed.



(** The builder after the transitions: what the theorem says of the quotient. *)
Record quotient_of (c' : Clts) (cls : nat → nat) : Prop := {
  qo_ok : clts_ok c';
  qo_states : states_ok c';
  qo_labels : labels c' = label_build store;
  qo_plain : label_controllability c' = ∅ ∧ state_3valued_predicates c' = None ∧
    ∀ s, state_valuation c' s = None;
  qo_range : ∀ s, s < n → cls s < state_count c';
  qo_surjective : ∀ k, k < state_count c' → ∃ s, s < n ∧ cls s = k;
  qo_blocks : ∀ s s', s < n → s' < n → cls s = cls s' ↔ bisimilar c s s';
  qo_names : ∀ s, s < n → ∃ s', s' < n ∧ cls s' = cls s ∧ state_name c' (cls s) = state_name c s';
  qo_initial : ∀ k, k ∈ initial_states c' ↔ ∃ s, s ∈ initial_states c ∧ cls s = k;
  qo_variables : ∀ s v, s < n → state_variable_contains c' (cls s) v = state_variable_contains c s v;
  qo_forward : ∀ s t, t ∈ outgoing c s →
    ∃ t', t' ∈ outgoing c' (cls s) ∧ target t' = cls (target t) ∧ label_set t' = label_set t;
  qo_backward : ∀ s t', s < n → t' ∈ outgoing c' (cls s) → modality t' = Sharp ∧
    ∃ t, t ∈ outgoing c s ∧ target t' = cls (target t) ∧ label_set t' = label_set t
}.

Section built.
Context (p : list nat) (Hp : length p = n) (Hcan : canonical p) (Hpos : 0 < n).
Context (Hblocks : ∀ i j, i < n → j < n → p !! i = p !! j ↔ bisimilar c i j).
Let cs := class_info c p (S (max_list p)).
Context (q : Quotient) (Hq : classes_added cs q).
Let cls (s : nat) : nat := default 0 (q_mapping q !! s).

Lemma cls_class s : s < n → ∃ m, cs !! cls s = Some m ∧ s ∈ m ∧ q_mapping q !! s = Some (cls s).
Proof using Hp Hcan Hpos Hq.
  intros Hlt. destruct (class_info_blocks c p Hp Hcan Hpos) as (_ & _ & _ & Hcover).
  destruct (Hcover s Hlt) as (m & [i Hi]%list_elem_of_lookup_1 & Hin).
  destruct (ca_mapped _ _ Hq i m s Hi Hin) as [j Hj]. unfold cls. rewrite Hj. simpl.
  destruct (ca_mapping _ _ Hq s j Hj) as (m' & ? & ?). eauto.
Qed.

Lemma cls_eq s s' : s < n → s' < n → cls s = cls s' ↔ bisimilar c s s'.
Proof using Hp Hcan Hpos Hblocks Hq.
  intros Hlt Hlt'. rewrite <-Hblocks by done.
  destruct (class_info_blocks c p Hp Hcan Hpos) as (Hok & _ & Hb & _). fold cs in Hok, Hb.
  destruct (cls_class s Hlt) as (m & Hm & Hin & _). destruct (cls_class s' Hlt') as (m' & Hm' & Hin' & _).
  rewrite <-(Hb m s s') by (done || by eapply list_elem_of_lookup_2). split.
  - intros Heq. rewrite Heq, Hm' in Hm. by injection Hm as ->.
  - intros Hin2. by apply (co_disjoint _ _ Hok _ _ m m' s').
Qed.

(** The representative of a class. *)
Lemma class_rep i m : cs !! i = Some m → rep m < n ∧ rep m ∈ m ∧ cls (rep m) = i.
Proof using Hp Hcan Hpos Hq.
  intros Hi. destruct (class_info_blocks c p Hp Hcan Hpos) as (Hok & _ & _ & _). fold cs in Hok.
  assert (Hin : m ∈ cs) by (by eapply list_elem_of_lookup_2).
  assert (Hr : rep m ∈ m) by (by apply elem_class, (co_nonempty _ _ Hok)).
  assert (Hlt : rep m < n) by (by apply (co_range _ _ Hok m)).
  split_and!; [done..|]. destruct (cls_class (rep m) Hlt) as (m' & Hm' & Hin' & _).
  by apply (co_disjoint _ _ Hok _ _ m' m (rep m)).
Qed.

Lemma elem_of_reps r i : (r, i) ∈ q_representatives q ↔ ∃ m, cs !! i = Some m ∧ r = rep m.
Proof using Hq.
  rewrite (ca_representatives _ _ Hq). split.
  - intros (k & m & Heq & Hm)%elem_of_lookup_imap_1. injection Heq as -> ->. eauto.
  - intros (m & Hm & ->). apply elem_of_lookup_imap. eauto.
Qed.

Lemma cls_lt s : s < n → cls s < length cs.
Proof using Hp Hcan Hpos Hq. intros Hlt. destruct (cls_class s Hlt) as (m & Hm & _). by eapply lookup_lt_Some. Qed.

Lemma class_bisimilar s m : s < n → cs !! cls s = Some m → bisimilar c s (rep m).
Proof using Hp Hcan Hpos Hblocks Hq.
  intros Hlt Hm. destruct (class_rep _ m Hm) as (Hr & _ & Hcls). by apply cls_eq.
Qed.

Context (specs : list TransitionSpec).
Context (Hsound : ∀ x, x ∈ specs → spec_modality x = Sharp ∧ ∃ r t, (r, spec_from x) ∈ q_representatives q ∧
  t ∈ outgoing c r ∧ q_mapping q !! target t = Some (spec_to x) ∧ spec_labels x = t_labels t).
Context (Hcomplete : ∀ r i t j, (r, i) ∈ q_representatives q → t ∈ outgoing c r →
  q_mapping q !! target t = Some j →
  ∃ x, x ∈ specs ∧ spec_from x = i ∧ spec_to x = j ∧ merge_sort (≤) (spec_labels x) = label_set t).
Let b := set_transitions (cb_transitions (q_builder q) ++ specs) (q_builder q).

Lemma quotient_builder_ok : builder_ok b ∧ cb_transitions b = specs ∧ length (cb_state_names b) = length cs.
Proof using Hsound Hq.
  pose proof (ca_states _ _ Hq) as Hsa.
  assert (Hcount : length (cb_state_names b) = length cs) by apply Hsa.
  assert (Hspecs : cb_transitions b = specs) by (subst b; simpl; by rewrite (sa_transitions _ _ Hsa)).
  split_and!; [|done..]. pose proof (sa_ok _ _ Hsa) as Hok0. destruct Hok0. constructor; try done.
  intros x. rewrite Hspecs, Hcount. intros Hx. destruct (Hsound x Hx) as (_ & r & t & Hr & Ht & Hto & _). split.
  - apply elem_of_reps in Hr as (m & Hm & _). by eapply lookup_lt_Some.
  - destruct (ca_mapping _ _ Hq _ _ Hto) as (m & Hm & _). by eapply lookup_lt_Some.
Qed.

Context (c' : Clts) (Hb : build b = Some (Ok c')).

Lemma quotient_rows :
  state_count c' = length cs ∧
  ∀ s x, s < n → x ∈ outgoing c' (cls s) ↔ ∃ y, y ∈ specs ∧ spec_from y = cls s ∧ x = spec_outgoing y.
Proof using Hp Hcan Hpos Hq Hsound Hb.
  destruct quotient_builder_ok as (Hbok & Hspecs & Hcount).
  destruct (build_rows b Hbok (sa_overflow _ _ (ca_states _ _ Hq))) as (c1 & _ & _ & _ & Hb1 & Hn' & _ & _ & Hout & _).
  assert (c1 = c') as -> by congruence. rewrite Hcount in Hn'. split; [done|].
  intros s x Hlt. rewrite Hout, Hspecs, decide_True by (rewrite Hn'; by apply cls_lt).
  apply elem_of_specs_from.
Qed.

Lemma quotient_initial k : k ∈ initial_states c' ↔ ∃ s, s ∈ initial_states c ∧ cls s = k.
Proof using All.
  pose proof (build_copied b c' Hb) as Hcp. rewrite (bc_initial _ _ Hcp). unfold b. cbn [set_transitions cb_initial_states].
  rewrite (sa_initial _ _ (ca_states _ _ Hq)). split.
  - intros (m & s & Hm & Hsm & Hsi). exists s. split; [done|].
    pose proof (so_initial c Hs s Hsi) as Hlt. destruct (class_rep k m Hm) as (Hr & Hrm & <-).
    apply cls_eq; [done..|]. apply Hblocks; [done..|].
    destruct (class_info_blocks c p Hp Hcan Hpos) as (_ & _ & Hb' & _).
    apply (Hb' m); [by eapply list_elem_of_lookup_2|done|done].
  - intros (s & Hsi & <-). destruct (cls_class s) as (m & Hm & Hsm & _); [by apply (so_initial c Hs)|]. eauto.
Qed.

Lemma quotient_variables s v : s < n → state_variable_contains c' (cls s) v = state_variable_contains c s v.
Proof using All.
  intros Hlt. destruct (cls_class s Hlt) as (m & Hm & _). destruct (class_rep _ m Hm) as (Hr & _ & _).
  destruct (class_bisimilar s m Hlt Hm) as (R & HR & Hsr). pose proof (bi_variables _ R HR _ _ Hsr) as Hbits.
  destruct (sa_variables _ _ (ca_states _ _ Hq) _ m Hm) as (id & Hid & Hset).
  destruct (build_variables b c' (cls s) id _ v (proj1 quotient_builder_ok) Hb Hid Hset) as [_ Hv].
  apply bool_eq_iff. rewrite Hv, elem_of_canon, <-(so_variables c Hs) by done.
  rewrite (state_variable_contains_bits c s), (state_variable_contains_bits c (rep m)). by rewrite Hbits.
Qed.

Lemma quotient_forward s t : t ∈ outgoing c s →
  ∃ t', t' ∈ outgoing c' (cls s) ∧ target t' = cls (target t) ∧ label_set t' = label_set t.
Proof using All.
  intros Ht. assert (Hlt : s < n) by (by eapply outgoing_in_range).
  destruct (cls_class s Hlt) as (m & Hm & _). destruct (class_bisimilar s m Hlt Hm) as (R & HR & Hsr).
  destruct (bi_left _ R HR _ _ t Hsr Ht) as (t' & Ht' & Hrt & Hls).
  assert (Htgt : target t' < n) by (by eapply (ok_target c Hc)).
  destruct (cls_class (target t') Htgt) as (_ & _ & _ & Hmap).
  destruct (Hcomplete (rep m) (cls s) t' (cls (target t'))) as (x & Hx & Hfrom & Hto & Hl); [|done..|].
  { apply elem_of_reps. eauto. }
  exists (spec_outgoing x). split_and!.
  - apply (proj2 quotient_rows s); [done|]. by exists x.
  - simpl. rewrite Hto. symmetry. apply cls_eq; [by eapply (ok_target c Hc)|done|]. by exists R.
  - unfold label_set at 1. simpl. by rewrite Hl.
Qed.

Lemma quotient_backward s t' : s < n → t' ∈ outgoing c' (cls s) → modality t' = Sharp ∧
  ∃ t, t ∈ outgoing c s ∧ target t' = cls (target t) ∧ label_set t' = label_set t.
Proof using All.
  intros Hlt (x & Hx & Hfrom & ->)%(proj2 quotient_rows s); [|done].
  destruct (Hsound x Hx) as (Hsharp & r & t & Hr & Ht & Hto & Hl).
  split; [done|]. apply elem_of_reps in Hr as (m & Hm & ->). rewrite Hfrom in Hm.
  destruct (class_bisimilar s m Hlt Hm) as (R & HR & Hsr).
  destruct (bi_right _ R HR _ _ t Hsr Ht) as (t0 & Ht0 & Hrt & Hls).
  exists t0. split_and!; [done| |].
  - simpl. assert (Hto' : cls (target t) = spec_to x) by (unfold cls; by rewrite Hto). rewrite <-Hto'.
    symmetry. apply cls_eq; [by eapply (ok_target c Hc)..|]. by exists R.
  - rewrite Hls. unfold label_set. simpl. by rewrite Hl.
Qed.

Lemma quotient_built : quotient_of c' cls.
Proof using All.
  pose proof (ca_states _ _ Hq) as Hsa. pose proof (build_copied b c' Hb) as Hcp.
  destruct quotient_rows as [Hn' _]. constructor.
  - by apply (build_ok b), Hb; apply quotient_builder_ok.
  - by apply (build_states_ok b), Hb; apply quotient_builder_ok.
  - rewrite (bc_labels _ _ Hcp). by rewrite <-(sa_labels _ _ Hsa).
  - rewrite (bc_controllability _ _ Hcp), (bc_predicates _ _ Hcp). split_and!; [apply Hsa..|].
    intros s. unfold state_valuation. rewrite (bc_valuations _ _ Hcp). simpl.
    destruct (cb_state_valuations (q_builder q) !! s) as [v|] eqn:E; [|done].
    by apply (Forall_lookup_1 _ _ _ _ (sa_valuations _ _ Hsa) E).
  - intros s Hlt. rewrite Hn'. by apply cls_lt.
  - intros k Hk. rewrite Hn' in Hk. destruct (lookup_lt_is_Some_2 cs k Hk) as [m Hm].
    exists (rep m). by destruct (class_rep k m Hm) as (? & _ & ?).
  - apply cls_eq.
  - intros s Hlt. destruct (cls_class s Hlt) as (m & Hm & _). exists (rep m).
    destruct (class_rep _ m Hm) as (? & _ & ?). split_and!; [done..|].
    unfold state_name at 1. rewrite (bc_names _ _ Hcp). by apply (sa_names _ _ Hsa).
  - apply quotient_initial.
  - apply quotient_variables.
  - apply quotient_forward.
  - apply quotient_backward.
Qed.
End built.
End quotient.

(** ** [minimize_bisimulation] *)

(** A partition into [n] blocks separates all states. *)
Lemma discrete_partition (n : nat) p :
  length p = n → canonical p → 0 < n → S (max_list p) = n → ∀ i j, i < n → j < n → p !! i = p !! j → i = j.
Proof.
  intros Hl Hcan Hn Hmax.
  assert (Hcs : canonical (seq 0 n)).
  { intros j v Hv w Hw. apply lookup_seq in Hv as [-> Hj]. exists w. split; [lia|]. apply lookup_seq. lia. }
  assert (Hne : p ≠ []) by (intros ->; simpl in Hl; lia).
  destruct (finer_blocks p (seq 0 n) Hcan Hcs Hne) as [_ Heq].
  { split; [by rewrite length_seq|]. intros i j Hi Hj. rewrite Hl in Hi, Hj. rewrite !lookup_seq_lt by done.
    intros [= ->]. done. }
  intros i j Hi Hj Hp. destruct Heq as [_ Hf].
  - enough (max_list (seq 0 n) = n - 1) by lia.
    assert (Hin : max_list (seq 0 n) ∈ seq 0 n) by (apply max_list_elem; by destruct n).
    apply elem_of_seq in Hin. assert (Hge : n - 1 ≤ max_list (seq 0 n)); [|lia].
    apply max_list_elem_of_le, elem_of_seq. lia.
  - rewrite length_seq in Hf. specialize (Hf i j Hi Hj Hp). rewrite !lookup_seq_lt in Hf by done. by injection Hf.
Qed.

Section whole.
Context `{IdStorage} (c : Clts) (Hc : clts_ok c) (Hs : states_ok c).
Context (label_store : option LabelStoreBuilder).
Let store := default LabelStoreBuilder_default label_store.
Context (Hstore : label_builder_ok store).
Let n := state_count c.
Context (Hfit : (N.of_nat n <= id_max + 1)%N).

Lemma states_added_nil : states_added c store [] (with_label_store store).
Proof using Hstore.
  pose proof builder_ok_default as [? ? ? ? ? ? ? ?]. constructor; try done.
  intros i. split; [by intros ?%not_elem_of_empty|]. intros (m & s & Hm & _). by rewrite lookup_nil in Hm.
Qed.

Lemma start_builder :
  match label_store with Some store => with_label_store store | None => CltsBuilder_default end
    = with_label_store store.
Proof using Type. unfold store. clear. by destruct label_store. Qed.

Lemma minimize_spec :
  ∃ r, minimize_bisimulation c label_store = Some (Ok r) ∧
    match r with
    | None => ∀ i j, i < n → j < n → bisimilar c i j → i = j
    | Some (c', report) => ∃ cls, quotient_of c store c' cls ∧ state_count c' < n ∧
        states_before report = n ∧ states_after report = state_count c'
    end.
Proof using All.
  unfold minimize_bisimulation, n in *. destruct (state_count c <=? 1) eqn:Hn.
  { apply Nat.leb_le in Hn. exists None. split; [done|]. intros. lia. }
  apply Nat.leb_gt in Hn. assert (Hpos : 0 < state_count c) by lia.
  destruct (refine_loop_total c Hc Hpos) as (p & -> & Hl & Hcan & _ & Hbis).
  assert (Hne : p ≠ []) by (intros ->; simpl in Hl; lia).
  replace (match p with [] => 0 | _ => S (max_list p) end) with (S (max_list p)) by (by destruct p).
  destruct (S (max_list p) =? state_count c) eqn:Hall.
  { apply Nat.eqb_eq in Hall. exists None. split; [done|]. intros i j Hi Hj Hij.
    apply (discrete_partition (state_count c) p Hl Hcan Hpos Hall i j Hi Hj). by apply Hbis. }
  apply Nat.eqb_neq in Hall.
  destruct (class_info_blocks c p Hl Hcan Hpos) as (Hok & Hlen & _ & _).
  destruct (add_classes_spec c Hc Hs store Hstore Hfit (class_info c p (S (max_list p))) []
    {| q_builder := with_label_store store; q_mapping := ∅; q_representatives := []; q_merged := [] |})
    as (q & Hadd & Hq); [|exact Hok|].
  { constructor; [apply states_added_nil|done|..]; intros *; simpl; by rewrite ?lookup_empty, ?lookup_nil. }
  destruct (class_info c p (S (max_list p))) as [|m ms] eqn:Ecs; [done|]. rewrite <-Ecs in *.
  rewrite start_builder, Hadd.
  destruct (all_edges_spec c (q_mapping q) (q_representatives q) (q_builder q) 0) as (specs & -> & Hsound & Hcomplete).
  set (b := set_transitions _ _).
  destruct (quotient_builder_ok c store p q Hq specs Hsound) as (Hbok & _ & Hcount).
  destruct (build_rows b Hbok (sa_overflow _ _ _ _ (ca_states _ _ _ _ Hq))) as (c' & _ & _ & _ & Hb & Hn' & _).
  rewrite Hb. eexists. split; [done|]. exists (λ s, default 0 (q_mapping q !! s)). split.
  - by apply (quotient_built c Hc Hs store Hstore Hfit p Hl Hcan Hpos Hbis q Hq specs Hsound Hcomplete c').
  - assert (Hn2 : state_count c' = S (max_list p)) by (rewrite <-Hlen; by rewrite <-Hcount).
    pose proof (co_count _ _ Hok) as Hle. rewrite Hlen in Hle.
    assert (length (q_representatives q) = S (max_list p))
      by (rewrite (ca_representatives _ _ _ _ Hq), length_imap; exact Hlen).
    cbn [states_before states_after].
    split_and!; [lia|done|lia].
Qed.
End whole.

(** ** What the quotient keeps *)

Section preserved.
Context (c : Clts) (Hc : clts_ok c) (Hs : states_ok c) (store : LabelStoreBuilder).
Context (c' : Clts) (cls : nat → nat) (Hq : quotient_of c store c' cls).
Let n := state_count c.

(** The store given to the quotient names the labels as [c] does. *)
Context (Hnames : ∀ s t l, t ∈ outgoing c s → l ∈ t_labels t → lb_entries store !! l = label_payload c l).

Lemma quotient_payload s t l : t ∈ outgoing c s → l ∈ t_labels t → label_payload c' l = label_payload c l.
Proof using Hq Hnames.
  intros Ht Hl. rewrite <-(Hnames s t l Ht Hl). unfold label_payload, store_get. by rewrite (qo_labels _ _ _ _ Hq).
Qed.

Lemma quotient_same_labels s t t' : t ∈ outgoing c s → label_set t' = label_set t → same_labels c t c' t'.
Proof using Hq Hnames Hs.
  intros Ht Hp%label_set_perm w. pose proof (qo_states _ _ _ _ Hq) as Hs'.
  split; intros (l & Hl & Hw); exists l.
  - rewrite Hp. split; [done|]. apply (so_labels c' Hs'). rewrite (quotient_payload s t l) by done.
    by apply (so_labels c Hs).
  - rewrite Hp in Hl. split; [done|]. apply (so_labels c Hs). rewrite <-(quotient_payload s t l) by done.
    by apply (so_labels c' Hs').
Qed.

Lemma quotient_morphism : morphism c c' cls.
Proof using Hq Hnames Hs.
  constructor; try apply Hq.
  - intros s t Ht. destruct (qo_forward _ _ _ _ Hq s t Ht) as (t' & Ht' & Htgt & Hl).
    exists t'. split_and!; [done..|]. by eapply quotient_same_labels.
  - intros s t' Hlt Ht'. destruct (qo_backward _ _ _ _ Hq s t' Hlt Ht') as (_ & t & Ht & Htgt & Hl).
    exists t. split_and!; [done..|]. by eapply quotient_same_labels.
Qed.

(** Every edge of the quotient comes from a state of its class. *)
Lemma quotient_edge_origin k t' :
  t' ∈ outgoing c' k → ∃ s, s < n ∧ cls s = k ∧ modality t' = Sharp ∧
    ∃ t, t ∈ outgoing c s ∧ target t' = cls (target t) ∧ label_set t' = label_set t.
Proof using Hq.
  intros Ht'. assert (Hk : k < state_count c') by (apply (outgoing_in_range c' k t'); [apply Hq|done]).
  destruct (qo_surjective _ _ _ _ Hq k Hk) as (s & Hlt & <-). exists s. split; [done|]. split; [done|].
  by apply (qo_backward _ _ _ _ Hq).
Qed.

Lemma quotient_is_plain : plain c'.
Proof using Hq.
  intros k t' hyper Ht' Hm. destruct (quotient_edge_origin k t' Ht') as (s & _ & _ & Hsharp & _). congruence.
Qed.

Lemma quotient_label_key s t t' :
  t ∈ outgoing c s → label_set t' = label_set t → label_key c' t' = label_key c t.
Proof using Hq Hnames.
  intros Ht Hl. rewrite (label_set_key c' t' t Hl). unfold label_key, transition_label_set. do 3 f_equal.
  apply map_ext_in. intros l Hin%list_elem_of_In. by rewrite (quotient_payload s t l).
Qed.

Lemma quotient_keys_faithful : keys_faithful c → keys_faithful c'.
Proof using Hq Hnames.
  intros Hk k t1' t2' Ht1' Ht2' Hkey.
  destruct (quotient_edge_origin k t1' Ht1') as (s & Hlt & <- & _ & t1 & Ht1 & _ & Hl1).
  destruct (qo_backward _ _ _ _ Hq s t2' Hlt Ht2') as (_ & t2 & Ht2 & _ & Hl2).
  rewrite Hl1, Hl2. apply (Hk s); [done..|].
  by rewrite <-(quotient_label_key s t1 t1'), <-(quotient_label_key s t2 t2').
Qed.

(** Bisimilar classes are equal, so the quotient cannot be reduced further. *)
Lemma quotient_minimal k k' : k < state_count c' → k' < state_count c' → bisimilar c' k k' → k = k'.
Proof using Hq Hc Hs.
  intros Hk Hk' (R & HR & Hkk'). pose proof (qo_ok _ _ _ _ Hq) as Hc'.
  destruct (qo_surjective _ _ _ _ Hq k Hk) as (s & Hlt & <-).
  destruct (qo_surjective _ _ _ _ Hq k' Hk') as (s' & Hlt' & <-).
  apply (qo_blocks _ _ _ _ Hq); [done..|].
  exists (λ i j, i < n ∧ j < n ∧ R (cls i) (cls j)). split; [|done].
  constructor.
  - intros i j (Hi & Hj & Hij). apply (so_bits c Hs); [done..|]. intros v.
    rewrite <-!(qo_variables _ _ _ _ Hq), !state_variable_contains_bits by done.
    by rewrite (bi_variables _ _ HR _ _ Hij).
  - intros i j t (Hi & Hj & Hij) Ht. destruct (qo_forward _ _ _ _ Hq i t Ht) as (t1 & Ht1 & Htgt & Hl).
    destruct (bi_left _ _ HR _ _ t1 Hij Ht1) as (t2 & Ht2 & HR2 & Hl2).
    destruct (qo_backward _ _ _ _ Hq j t2 Hj Ht2) as (_ & t' & Ht' & Htgt' & Hl').
    exists t'. rewrite <-Htgt, <-Htgt'. split_and!; [done|by eapply (ok_target c Hc)..|done|congruence].
  - intros i j t (Hi & Hj & Hij) Ht. destruct (qo_forward _ _ _ _ Hq j t Ht) as (t1 & Ht1 & Htgt & Hl).
    destruct (bi_right _ _ HR _ _ t1 Hij Ht1) as (t2 & Ht2 & HR2 & Hl2).
    destruct (qo_backward _ _ _ _ Hq i t2 Hi Ht2) as (_ & t' & Ht' & Htgt' & Hl').
    exists t'. rewrite <-Htgt, <-Htgt'. split_and!; [done|by eapply (ok_target c Hc)..|done|congruence].
Qed.

End preserved.

(** An injective map does not shrink an initial segment. *)
Lemma injective_bound (h : nat → nat) n m :
  (∀ s, s < n → h s < m) → (∀ s s', s < n → s' < n → h s = h s' → s = s') → n ≤ m.
Proof.
  intros Hr Hi. enough (Hsub : map h (seq 0 n) ⊆+ seq 0 m).
  { apply submseteq_length in Hsub. by rewrite length_map, !length_seq in Hsub. }
  apply NoDup_submseteq.
  - apply NoDup_fmap_2_strong, NoDup_seq. intros x y Hx%elem_of_seq Hy%elem_of_seq. apply Hi; lia.
  - intros x Hx. apply list_elem_of_fmap in Hx as (s & -> & Hs%elem_of_seq). apply elem_of_seq.
    pose proof (Hr s). lia.
Qed.

Lemma quotient_oob_free c store c' cls e o : quotient_of c store c' cls → oob_free (mk_ctx c' e o).
Proof.
  intros Hq i. unfold oob_bits, compute_oob_bits. simpl. unfold bit, bv_tabulate.
  rewrite list_lookup_fmap. destruct (seq 0 (state_count c') !! i); [|done]. simpl.
  by rewrite (proj2 (proj2 (qo_plain _ _ _ _ Hq))).
Qed.

(** * Properties *)

(** C9: on every system that fits the identifier width the minimiser returns
    without an error.  [None] means that no two distinct states are bisimilar.
    Otherwise the result is the quotient by strong bisimilarity, it has fewer
    states, the report counts them, and a second minimisation finds nothing to
    merge. *)
Theorem minimize_correct `{IdStorage} (c : Clts) (label_store : option LabelStoreBuilder) :
  let store := default LabelStoreBuilder_default label_store in
  clts_ok c → states_ok c → label_builder_ok store → (N.of_nat (state_count c) <= id_max + 1)%N →
  ∃ r, minimize_bisimulation c label_store = Some (Ok r) ∧
    match r with
    | None => ∀ i j, i < state_count c → j < state_count c → bisimilar c i j → i = j
    | Some (c', report) => ∃ cls, quotient_of c store c' cls ∧ state_count c' < state_count c ∧
        states_before report = state_count c ∧ states_after report = state_count c' ∧
        ∀ again, label_builder_ok (default LabelStoreBuilder_default again) →
          minimize_bisimulation c' again = Some (Ok None)
    end.
Proof.
  intros store Hc Hs Hstore Hfit.
  destruct (minimize_spec c Hc Hs label_store Hstore Hfit) as (r & -> & Hr). exists r. split; [done|].
  destruct r as [[c' report]|]; [|done]. destruct Hr as (cls & Hq & Hlt & Hb & Ha). exists cls.
  split_and!; try done. intros again Hagain. fold store in Hq.
  destruct (minimize_spec c' (qo_ok _ _ _ _ Hq) (qo_states _ _ _ _ Hq) again Hagain) as (r2 & -> & Hr2); [lia|].
  destruct r2 as [[c2 report2]|]; [exfalso|done]. destruct Hr2 as (cls2 & Hq2 & Hlt2 & _).
  assert (state_count c' ≤ state_count c2); [|lia]. apply (injective_bound cls2); [apply Hq2|].
  intros s s' Hs1 Hs2 Heq. apply (quotient_minimal c Hc Hs store c' cls Hq); [done..|].
  by apply (qo_blocks _ _ _ _ Hq2).
Qed.

(** C10: minimisation with the label store of the system preserves verdicts.  A
    state and its class satisfy the same verification formulas (modalities
    without a control scope) according to the model checker, in environments
    that agree along the quotient map. *)
Theorem minimize_preserves_verdicts `{IdStorage} (c : Clts) (store : LabelStoreBuilder) rounds f t :
  clts_ok c → states_ok c → label_builder_ok store → (N.of_nat (state_count c) <= id_max + 1)%N →
  (∀ s t l, t ∈ outgoing c s → l ∈ t_labels t → lb_entries store !! l = label_payload c l) →
  plain c → keys_faithful c → wf_formula f → formula_tree f t → monotone t = true →
  modalities_good verification_guard t → 2 * state_count c < rounds →
  ∃ r, minimize_bisimulation c (Some store) = Some (Ok r) ∧
    match r with
    | None => True
    | Some (c', _) => ∃ cls, quotient_of c store c' cls ∧
        ∀ e e' o o', let x := mk_ctx c e o in let x' := mk_ctx c' e' o' in
          ctx_ok x → oob_free x → ctx_ok x' → prior_approximants o = None → prior_approximants o' = None →
          (∀ p s, s < state_count c → atom c e p s ↔ atom c' e' p (cls s)) →
          ∃ v v', evaluate_with_options rounds f c e o = Some v ∧
            evaluate_with_options rounds f c' e' o' = Some v' ∧
            ∀ s, s < state_count c → bit v s = bit v' (cls s)
    end.
Proof.
  intros Hc Hs Hstore Hfit Hnames Hp Hk Hwf Ht Hmon Hg Hr.
  destruct (minimize_spec c Hc Hs (Some store) Hstore Hfit) as (r & -> & Hspec). exists r. split; [done|].
  destruct r as [[c' report]|]; [|done]. destruct Hspec as (cls & Hq & Hlt & _). exists cls. split; [done|].
  intros e e' o o' x x' Hx Ho Hx' Hpr Hpr' Hatom.
  apply (evaluate_morphism c c' cls (quotient_morphism c Hs store c' cls Hq Hnames) Hc e e' Hatom
    rounds f t o o'); try done; [|by eapply quotient_is_plain|by eapply quotient_keys_faithful|lia].
  by eapply quotient_oob_free.
Qed.

(** ** Witnesses and the losses without a label store *)

#[local] Existing Instance u16_storage.

(** The system of a run of builder operations, its label store, and its quotient. *)
Definition quotient_system (label_store : option LabelStoreBuilder) (c : Clts) : Clts :=
  match minimize_bisimulation c label_store with Some (Ok (Some (c', _))) => c' | _ => c end.

Definition names_keptb (store : LabelStoreBuilder) (c : Clts) : bool :=
  all_transitions c (λ _ t, forallb (λ l, bool_decide (lb_entries store !! l = label_payload c l)) (t_labels t)).

Lemma names_keptb_sound store c s t l :
  clts_ok c → names_keptb store c = true → t ∈ outgoing c s → l ∈ t_labels t →
  lb_entries store !! l = label_payload c l.
Proof.
  intros Hc H Ht Hl. pose proof (all_transitions_spec c _ Hc H s t Ht) as Hall. simpl in Hall.
  rewrite forallb_spec in Hall. apply Hall in Hl. by apply bool_decide_eq_true in Hl.
Qed.

Lemma run_ops_states_ok ops c :
  ops_validb ops CltsBuilder_default = true → build (run_ops ops) = Some (Ok c) →
  clts_ok c ∧ states_ok c ∧ label_builder_ok (cb_labels (run_ops ops)).
Proof.
  intros Hv Hb. assert (Hok : builder_ok (run_ops ops))
    by (apply reachable_builder_ok, ops_validb_reachable; [constructor|done]).
  split_and!; [by eapply build_ok|by eapply build_states_ok|apply Hok].
Qed.

(** Two bisimilar successors. *)
Definition twins : list BuilderOp := fork_ops Sharp Sharp 0 0 [].
Definition twins_clts : Clts := built (run_ops twins).
Definition twins_store : LabelStoreBuilder := cb_labels (run_ops twins).

Lemma twins_ok : clts_ok twins_clts ∧ states_ok twins_clts ∧ label_builder_ok twins_store.
Proof. apply run_ops_states_ok; vm_compute; reflexivity. Qed.

Lemma minimize_correct_witness :
  state_count (quotient_system (Some twins_store) twins_clts) = 2 ∧
  ∃ r, minimize_bisimulation twins_clts (Some twins_store) = Some (Ok r) ∧
    match r with
    | None => ∀ i j, i < state_count twins_clts → j < state_count twins_clts → bisimilar twins_clts i j → i = j
    | Some (c', report) => ∃ cls, quotient_of twins_clts twins_store c' cls ∧
        state_count c' < state_count twins_clts ∧
        states_before report = state_count twins_clts ∧ states_after report = state_count c' ∧
        ∀ again, label_builder_ok (default LabelStoreBuilder_default again) →
          minimize_bisimulation c' again = Some (Ok None)
    end.
Proof.
  split; [vm_compute; reflexivity|]. apply (minimize_correct twins_clts (Some twins_store)); [apply twins_ok..|].
  vm_compute. discriminate.
Defined.

Definition can_move (ls : list string) : Formula := modal_formula Diamond (scoped Control_All None ls []) NTrue.
Definition can_move_tree (ls : list string) : Tree := TModal Diamond (scoped Control_All None ls []) TTrue.

Lemma minimize_preserves_verdicts_witness :
  let c' := quotient_system (Some twins_store) twins_clts in
  evaluate_with_options 9 (can_move ["a"]) twins_clts (no_predicates 3) bare_options = Some [true; false; false] ∧
  ∃ cls v v', quotient_of twins_clts twins_store c' cls ∧
    evaluate_with_options 9 (can_move ["a"]) twins_clts (no_predicates 3) bare_options = Some v ∧
    evaluate_with_options 9 (can_move ["a"]) c' (no_predicates 2) bare_options = Some v' ∧
    ∀ s, s < state_count twins_clts → bit v s = bit v' (cls s).
Proof.
  intros c'. split; [vm_compute; reflexivity|].
  destruct (minimize_preserves_verdicts twins_clts twins_store 9 (can_move ["a"]) (can_move_tree ["a"]))
    as (r & Hr & Hspec).
  - apply twins_ok.
  - apply twins_ok.
  - apply twins_ok.
  - vm_compute. discriminate.
  - intros s t l. apply names_keptb_sound; [apply twins_ok|vm_compute; reflexivity].
  - apply plainb_sound; [apply twins_ok|vm_compute; reflexivity].
  - apply keys_faithfulb_sound; [apply twins_ok|vm_compute; reflexivity].
  - by apply wf_formulab_sound.
  - apply tree_of_repr with 5. reflexivity.
  - reflexivity.
  - done.
  - by apply Nat.ltb_lt.
  - assert (Hc' : ∃ rep, minimize_bisimulation twins_clts (Some twins_store) = Some (Ok (Some (c', rep))))
      by (eexists; vm_compute; reflexivity).
    destruct Hc' as (rep & Hc'). rewrite Hc' in Hr. injection Hr as <-.
    destruct Hspec as (cls & Hq & Hv).
    destruct (Hv (no_predicates 3) (no_predicates 2) bare_options bare_options) as (v & v' & ?).
    + apply ctx_ok_check; [apply twins_ok|vm_compute; reflexivity..].
    + apply oob_free_check. vm_compute. reflexivity.
    + apply ctx_ok_check; [apply Hq|vm_compute; reflexivity..].
    + done.
    + done.
    + intros p s _. unfold atom. simpl. unfold state_3valued_predicate.
      by rewrite (proj1 (proj2 (qo_plain _ _ _ _ Hq))).
    + exists cls, v, v'. split; [exact Hq|assumption].
Defined.

(** The verdicts of the initial state, without predicates. *)
Definition verdict0 (f : Formula) (c : Clts) : option bool :=
  (λ v, bit v 0) <$> evaluate_with_options 9 f c (no_predicates (state_count c)) bare_options.
Definition tri_verdict0 (f : Formula) (c : Clts) : option Trit :=
  (λ ts, verdict_at ts 0) <$> evaluate_tri 9 f c (no_predicates (state_count c)).

(** What minimisation loses.  Without a label store (as the command line
    calls it) labels keep their numbers but not their names, so a labelled
    diamond turns false.  With or without one, a declared uncontrollable label
    becomes controllable and a may-transition a certain one, so
    [<ctrl = environment> false] turns false and an unknown verdict definite. *)
Theorem minimize_losses :
  let lost := quotient_system None in let kept := quotient_system (Some twins_store) in
  let unc := fork Sharp Sharp 0 0 (uncontrollable [0]) in let may := fork MayOnly MayOnly 0 0 [] in
  let env_move := modal_formula Diamond (scoped Environment None [] []) NFalse in
  let verdicts f c o := (verdict0 f c, verdict0 f o) in
  map state_count [twins_clts; lost twins_clts; kept unc; kept may] = [3; 2; 2; 2] ∧
  verdicts (can_move ["a"]) twins_clts (lost twins_clts) = (Some true, Some false) ∧
  verdicts env_move unc (kept unc) = (Some true, Some false) ∧
  (tri_verdict0 (can_move []) may, tri_verdict0 (can_move []) (kept may)) = (Some Trit_Unknown, Some Trit_True).
Proof. vm_compute. split_and!; reflexivity. Qed.
