(* ===== verification/Binary.v ===== *)
(** The byte-level layer of the persistence format: [persistence/io.rs] and
    [persistence/serialize.rs].

    Writing to a stream is appending to a list of bytes.  A [Reader] takes the
    bytes that are left and returns a value with the remaining bytes, or the
    error of the source.  [codec] relates a reader to a writer: what was written
    is read back, and a truncated stream ends in an unexpected end of file.  The
    lemmas build the codec of a compound value from those of its parts. *)
From Stdlib Require Import Strings.Byte.
From stdpp Require Import pretty.
From coqutil Require Import Word.LittleEndianList.
From S2P Require Import Prelude Clts.

Abbreviation byte := Init.Byte.byte (only parsing).
#[export] Instance byte_eq_dec : EqDecision byte := Stdlib.Strings.Byte.byte_eq_dec.

(** ** Errors *)

(** The kinds of [std::io::Error] the code meets. *)
Inductive IoErrorKind := UnexpectedEof | NotFound.

Inductive PersistenceError :=
  | PE_Io (kind : IoErrorKind)
  | PE_Clts (e : CltsError)
  | InvalidSnapshot (message : string)
  | MissingSegmentIndex (path : string)
  | InvalidSegmentIndex (message : string).

(** ** Writers *)

(** [v as u32] of a [usize]; [to_le_bytes]. *)
Definition as_u32 (n : nat) : Z := Z.of_nat n `mod` 2 ^ 32.
Definition u32_ok (v : Z) : Prop := (0 ≤ v < 2 ^ 32)%Z.
Definition u64_ok (v : Z) : Prop := (0 ≤ v < 2 ^ 64)%Z.

Definition write_u32 (value : Z) : list byte := le_split 4 value.
Definition write_u64 (value : Z) : list byte := le_split 8 value.
Definition write_u8 (value : Z) : list byte := le_split 1 value.
Definition write_bool (value : bool) : list byte := write_u8 (if value then 1 else 0).

(** ** Readers *)

Definition Reader (A : Type) : Type := list byte → Result (A * list byte) PersistenceError.

#[export] Instance reader_ret : MRet Reader := λ A a bs, Ok (a, bs).
#[export] Instance reader_bind : MBind Reader := λ A B f r bs,
  match r bs with Ok (a, rest) => f a rest | Err e => Err e end.

Definition fail {A} (e : PersistenceError) : Reader A := λ _, Err e.

(** [read_exact] into a buffer of [n] bytes. *)
Definition read_exact (n : Z) : Reader (list byte) := λ bs,
  if (Z.of_nat (length bs) <? n)%Z then Err (PE_Io UnexpectedEof)
  else Ok (take (Z.to_nat n) bs, drop (Z.to_nat n) bs).

Definition read_u32 : Reader Z := buf ← read_exact 4; mret (le_combine buf).
Definition read_u64 : Reader Z := buf ← read_exact 8; mret (le_combine buf).
Definition read_u8 : Reader Z := buf ← read_exact 1; mret (le_combine buf).

Definition invalid_boolean (other : Z) : string := "invalid boolean value " +:+ pretty other.
Definition read_bool : Reader bool :=
  v ← read_u8;
  if (v =? 0)%Z then mret false
  else if (v =? 1)%Z then mret true
  else fail (InvalidSnapshot (invalid_boolean v)).

(** [for _ in 0..n { out.push(r(reader)?) }] *)
Fixpoint read_many {A} (r : Reader A) (n : nat) : Reader (list A) :=
  match n with
  | O => mret []
  | S n' => x ← r; xs ← read_many r n'; mret (x :: xs)
  end.

(** A [u32] count followed by the elements. *)
Definition read_counted {A} (r : Reader A) : Reader (list A) :=
  count ← read_u32; read_many r (Z.to_nat count).
Definition write_counted {A} (w : A → list byte) (l : list A) : list byte :=
  write_u32 (as_u32 (length l)) ++ concat (map w l).

(** ** Strings

    A [String] is its UTF-8 bytes.  [utf8_valid] is the check of
    [String::from_utf8]: no overlong forms, surrogates or values above 10FFFF. *)
Definition in_range (lo hi : Z) (b : byte) : bool :=
  (lo <=? Byte.byte.unsigned b)%Z && (Byte.byte.unsigned b <=? hi)%Z.
Definition continuation : byte → bool := in_range 128 191.

Fixpoint utf8_valid (bs : list byte) : bool :=
  match bs with
  | [] => true
  | a :: rest =>
    if in_range 0 127 a then utf8_valid rest
    else match rest with
    | [] => false
    | b :: rest =>
      if in_range 194 223 a then continuation b && utf8_valid rest
      else match rest with
      | [] => false
      | c :: rest =>
        if in_range 224 239 a then
          (if in_range 224 224 a then in_range 160 191 b
           else if in_range 237 237 a then in_range 128 159 b else continuation b)
          && continuation c && utf8_valid rest
        else match rest with
        | [] => false
        | d :: rest =>
          in_range 240 244 a &&
          (if in_range 240 240 a then in_range 144 191 b
           else if in_range 244 244 a then in_range 128 143 b else continuation b)
          && continuation c && continuation d && utf8_valid rest
        end
      end
    end
  end.

Definition as_bytes (s : string) : list byte := String.list_byte_of_string s.
Definition from_utf8 (bs : list byte) : option string :=
  if utf8_valid bs then Some (String.string_of_list_byte bs) else None.

Definition write_string (s : string) : list byte :=
  write_u32 (as_u32 (length (as_bytes s))) ++ as_bytes s.
Definition read_string (message : string) : Reader string :=
  len ← read_u32; buf ← read_exact len;
  match from_utf8 buf with Some s => mret s | None => fail (InvalidSnapshot message) end.

(** ** Serializable structures *)

Class Serializable (A : Type) := serialize : A → list byte.
Class Deserializable (A : Type) := deserialize : Reader A.

(** * Lemmas *)

(** ** Codecs *)

(** Reading any strict prefix of [bs] hits the end of the stream. *)
Definition truncated {A} (r : Reader A) (bs : list byte) : Prop :=
  ∀ p q, bs = p ++ q → q ≠ [] → r p = Err (PE_Io UnexpectedEof).

(** Reading [bs] gives [a] and leaves what follows. *)
Definition reads_as {A} (r : Reader A) (bs : list byte) (a : A) : Prop :=
  (∀ rest, r (bs ++ rest) = Ok (a, rest)) ∧ truncated r bs.

Definition codec {A} (r : Reader A) (w : A → list byte) (ok : A → Prop) : Prop :=
  ∀ a, ok a → reads_as r (w a) a.

(** The law of the two traits. *)
Class RoundTrip (A : Type) `{Serializable A} `{Deserializable A} (ok : A → Prop) :=
  round_trip : codec deserialize serialize ok.

Lemma reads_ret {A} (a : A) : reads_as (mret a) [] a.
Proof. split; [done|]. intros p q H Hq. by destruct p, q. Qed.

Lemma reads_bind {A B} (r : Reader A) (f : A → Reader B) w1 w2 a b :
  reads_as r w1 a → reads_as (f a) w2 b → reads_as (r ≫= f) (w1 ++ w2) b.
Proof.
  intros [Hr H1] [Hf H2]. assert (Hb : ∀ bs rest, r bs = Ok (a, rest) → (r ≫= f) bs = f a rest).
  { intros bs rest H. unfold mbind, reader_bind. by rewrite H. }
  split; [intros rest; rewrite <-app_assoc, (Hb _ (w2 ++ rest)); auto|].
  intros p q Heq Hq. apply app_eq_inv in Heq as [(k & -> & ->)|(k & -> & ->)].
  - destruct k as [|x k].
    + rewrite (Hb p []) by (rewrite <-(app_nil_r p) at 1; rewrite app_nil_r in Hr; apply Hr). by apply (H2 [] w2).
    + unfold mbind, reader_bind. by rewrite (H1 p (x :: k)).
  - rewrite (Hb _ k) by apply Hr. by apply (H2 k q).
Qed.

Lemma reads_last {A B} (r : Reader A) (f : A → Reader B) w a b :
  reads_as r w a → f a = mret b → reads_as (r ≫= f) w b.
Proof.
  intros Hr Hf. rewrite <-(app_nil_r w). apply (reads_bind _ _ _ _ a); [done|]. rewrite Hf. apply reads_ret.
Qed.

(** ** Fixed-width fields *)

Lemma reads_exact bs : reads_as (read_exact (Z.of_nat (length bs))) bs bs.
Proof.
  split.
  - intros rest. unfold read_exact. rewrite length_app. destruct (_ <? _)%Z eqn:E; [apply Z.ltb_lt in E; lia|].
    by rewrite Nat2Z.id, take_app_length, drop_app_length.
  - intros p q -> Hq. unfold read_exact. rewrite length_app. destruct (_ <? _)%Z eqn:E; [done|].
    destruct q; [done|]. apply Z.ltb_ge in E. simpl in E. lia.
Qed.

(** A little-endian field of [n] bytes. *)
Lemma codec_le n (ok : Z → Prop) :
  (∀ v, ok v → (0 ≤ v < 2 ^ (Z.of_nat n * 8))%Z) →
  codec (buf ← read_exact (Z.of_nat n); mret (le_combine buf)) (le_split n) ok.
Proof.
  intros Hok v Hv. apply (reads_last _ _ _ (le_split n v)).
  - rewrite <-(length_le_split n v) at 1. apply reads_exact.
  - by rewrite le_combine_split, Z.mod_small by auto.
Qed.

Lemma codec_u32 : codec read_u32 write_u32 u32_ok.
Proof. apply (codec_le 4). done. Qed.
Lemma codec_u64 : codec read_u64 write_u64 u64_ok.
Proof. apply (codec_le 8). done. Qed.
Lemma codec_u8 : codec read_u8 write_u8 (λ v, 0 ≤ v < 256)%Z.
Proof. apply (codec_le 1). done. Qed.

Lemma codec_bool : codec read_bool write_bool (λ _, True).
Proof.
  intros b _. apply (reads_last _ _ _ (if b then 1 else 0)%Z); [apply codec_u8|]; by destruct b.
Qed.

(** ** Strings and repetition *)

Lemma from_utf8_as_bytes s : utf8_valid (as_bytes s) = true → from_utf8 (as_bytes s) = Some s.
Proof. intros H. unfold from_utf8. rewrite H. f_equal. apply String.string_of_list_byte_of_string. Qed.

(** A [String] of the source whose length fits its length field. *)
Definition string_ok (s : string) : Prop :=
  utf8_valid (as_bytes s) = true ∧ (Z.of_nat (length (as_bytes s)) < 2 ^ 32)%Z.

Lemma as_u32_small n : (Z.of_nat n < 2 ^ 32)%Z → as_u32 n = Z.of_nat n.
Proof. intros H. unfold as_u32. rewrite Z.mod_small; lia. Qed.

Lemma as_u32_ok n : u32_ok (as_u32 n).
Proof. unfold as_u32, u32_ok. apply Z.mod_pos_bound. lia. Qed.

Lemma codec_string message : codec (read_string message) write_string string_ok.
Proof.
  intros s [Hu Hl]. apply (reads_bind _ _ _ _ (as_u32 (length (as_bytes s)))); [apply codec_u32, as_u32_ok|].
  rewrite as_u32_small by done. apply (reads_last _ _ _ (as_bytes s)); [apply reads_exact|].
  by rewrite from_utf8_as_bytes.
Qed.

Lemma reads_many {A B} (r : Reader B) (w : A → list byte) (R : A → B → Prop) l k :
  (∀ a b, R a b → reads_as r (w a) b) → Forall2 R l k →
  reads_as (read_many r (length l)) (concat (map w l)) k.
Proof.
  intros Hr. induction 1 as [|a b l k Hab _ IH]; [apply reads_ret|].
  apply (reads_bind _ _ _ _ b); [by apply Hr|]. by apply (reads_last _ _ _ k).
Qed.

(** A list whose count fits its field. *)
Definition counted_ok {A} (ok : A → Prop) (l : list A) : Prop :=
  Forall ok l ∧ (Z.of_nat (length l) < 2 ^ 32)%Z.

Lemma reads_counted {A B} (r : Reader B) (w : A → list byte) (R : A → B → Prop) l k :
  (∀ a b, R a b → reads_as r (w a) b) → Forall2 R l k → (Z.of_nat (length l) < 2 ^ 32)%Z →
  reads_as (read_counted r) (write_counted w l) k.
Proof.
  intros Hr Hl Hlen. apply (reads_bind _ _ _ _ (as_u32 (length l))); [apply codec_u32, as_u32_ok|].
  rewrite as_u32_small, Nat2Z.id by done. by apply (reads_many r w R).
Qed.

Lemma codec_counted {A} (r : Reader A) w ok :
  codec r w ok → codec (read_counted r) (write_counted w) (counted_ok ok).
Proof.
  intros Hc l [Hok Hl]. apply (reads_counted r w (λ a b, ok a ∧ a = b)); [|by apply Forall_Forall2_diag, Forall_impl with ok|done].
  intros a b [Ha <-]. by apply Hc.
Qed.
