(* ===== verification/Persistence.v ===== *)
(** Snapshots of transition systems on disk: [persistence/mod.rs].

    A [BinarySnapshot] is the string table, the states, the transitions and the
    label classes of a system; [from_clts] and [into_clts] convert, [write_to]
    and [read_from] encode.  The segment index gives the place of each state's
    transitions in the file, for [prefetch_transition_segment].

    Files are a map from paths to their bytes, and writing to them succeeds.
    A function that can panic returns an [option], one that can fail a [Result].
    Hash sets are visited in the order of a [HashOrder]. *)
From stdpp Require Import pretty.
From coqutil Require Import Word.LittleEndianList.
From S2P Require Import Prelude Clts Binary.

(** ** Stored data *)

Definition terminated (s : string) : list byte := as_bytes s ++ [Byte.x00].

Definition MAGIC : list byte := terminated "CLTSBIN".
Definition VERSION : Z := 2.
Definition SEG_MAGIC : list byte := terminated "CLTSSEG".
Definition SEG_VERSION : Z := 1.

Inductive StoredLabelClass := SL_Controllable | SL_Internal | SL_Uncontrollable.

Definition to_controllability (class : StoredLabelClass) : LabelControllability :=
  match class with
  | SL_Controllable => LC_Controllable
  | SL_Internal => LC_Internal
  | SL_Uncontrollable => LC_Uncontrollable
  end.

Definition class_to_u8 (class : StoredLabelClass) : Z :=
  match class with SL_Controllable => 0 | SL_Internal => 1 | SL_Uncontrollable => 2 end.

Definition class_from_u8 (value : Z) : Result StoredLabelClass PersistenceError :=
  if (value =? 0)%Z then Ok SL_Controllable
  else if (value =? 1)%Z then Ok SL_Internal
  else if (value =? 2)%Z then Ok SL_Uncontrollable
  else Err (InvalidSnapshot ("invalid label controllability tag " +:+ pretty value)).

Record LabelClassEntry := { lc_class : StoredLabelClass; lc_symbols : list Z }.

Record StateEntry := { se_name_idx : Z; se_initial : bool; se_variables : list Z }.

Record TransitionEntry := { te_from_idx : Z; te_to_idx : Z; te_labels : list (list Z) }.

Record BinarySnapshot := {
  bs_string_table : list string;
  bs_states : list StateEntry;
  bs_transitions : list TransitionEntry;
  bs_label_classes : list LabelClassEntry
}.

(** ** Encoding *)

#[export] Instance serialize_state : Serializable StateEntry := λ e,
  write_u32 (se_name_idx e) ++ write_bool (se_initial e) ++ write_counted write_u32 (se_variables e).
#[export] Instance deserialize_state : Deserializable StateEntry :=
  name_idx ← read_u32; initial ← read_bool; variables ← read_counted read_u32;
  mret {| se_name_idx := name_idx; se_initial := initial; se_variables := variables |}.

#[export] Instance serialize_transition : Serializable TransitionEntry := λ e,
  write_u32 (te_from_idx e) ++ write_u32 (te_to_idx e) ++ write_counted (write_counted write_u32) (te_labels e).
#[export] Instance deserialize_transition : Deserializable TransitionEntry :=
  from_idx ← read_u32; to_idx ← read_u32; labels ← read_counted (read_counted read_u32);
  mret {| te_from_idx := from_idx; te_to_idx := to_idx; te_labels := labels |}.

Definition write_class (e : LabelClassEntry) : list byte :=
  write_u8 (class_to_u8 (lc_class e)) ++ write_counted write_u32 (lc_symbols e).
Definition read_class : Reader LabelClassEntry :=
  tag ← read_u8;
  match class_from_u8 tag with
  | Ok class => symbols ← read_counted read_u32; mret {| lc_class := class; lc_symbols := symbols |}
  | Err e => fail e
  end.

Definition write_to (snap : BinarySnapshot) : list byte :=
  MAGIC ++ write_u32 VERSION ++
  write_counted write_string (bs_string_table snap) ++
  write_counted serialize (bs_states snap) ++
  write_counted serialize (bs_transitions snap) ++
  write_counted write_class (bs_label_classes snap).

Definition utf8_message : string := "string table entry is not valid UTF-8".
Definition unsupported (what : string) (version : Z) : string :=
  "unsupported " +:+ what +:+ " version " +:+ pretty version.

(** The header up to the version. *)
Definition read_magic (expected : list byte) (error : PersistenceError) : Reader () :=
  magic ← read_exact 8; if decide (magic = expected) then mret tt else fail error.

Definition read_from : Reader BinarySnapshot :=
  _ ← read_magic MAGIC (InvalidSnapshot "snapshot header mismatch");
  version ← read_u32;
  if (VERSION <? version)%Z then fail (InvalidSnapshot (unsupported "snapshot" version))
  else
    string_table ← read_counted (read_string utf8_message);
    states ← read_counted deserialize;
    transitions ← read_counted deserialize;
    label_classes ← (if (1 <=? version)%Z then read_counted read_class else mret []);
    mret {| bs_string_table := string_table; bs_states := states;
            bs_transitions := transitions; bs_label_classes := label_classes |}.

(** ** Building a snapshot *)

Record StringIntern := { si_map : gmap string Z; si_entries : list string }.
Definition StringIntern_default : StringIntern := {| si_map := ∅; si_entries := [] |}.

Definition si_intern (st : StringIntern) (value : string) : Z * StringIntern :=
  match si_map st !! value with
  | Some idx => (idx, st)
  | None =>
    let idx := as_u32 (length (si_entries st)) in
    (idx, {| si_map := <[value := idx]> (si_map st); si_entries := si_entries st ++ [value] |})
  end.

(** A [map] whose function updates a state, and may panic. *)
Fixpoint traverse {S A B} (f : S → A → option (B * S)) (st : S) (l : list A) : option (list B * S) :=
  match l with
  | [] => Some ([], st)
  | x :: l' =>
    let* (y, st1) := f st x in let* (ys, st2) := traverse f st1 l' in Some (y :: ys, st2)
  end.

Definition intern_all : StringIntern → list string → option (list Z * StringIntern) :=
  traverse (λ st v, Some (si_intern st v)).

(** A state with its position; the position is recorded for the transitions. *)
Definition snapshot_state (c : Clts) (acc : StringIntern * gmap nat Z) (numbered : nat * StateId)
    : option (StateEntry * (StringIntern * gmap nat Z)) :=
  let '(st, state_indices) := acc in
  let '(idx, s) := numbered in
  let* name := state_name c s in
  let '(name_idx, st1) := si_intern st name in
  let* (variables, st2) := intern_all st1 (state_variables c s) in
  Some ({| se_name_idx := name_idx; se_initial := bool_decide (s ∈ initial_states c);
           se_variables := variables |}, (st2, <[s := as_u32 idx]> state_indices)).

Definition snapshot_label (c : Clts) (st : StringIntern) (l : LabelId) : option (list Z * StringIntern) :=
  match label_payload c l with Some payload => intern_all st payload | None => Some ([], st) end.

Definition snapshot_transition (c : Clts) (state_indices : gmap nat Z) (from_idx : Z) (st : StringIntern)
    (t : Transition) : option (TransitionEntry * StringIntern) :=
  let* to_idx := state_indices !! target t in
  let* (label_sets, st1) := traverse (snapshot_label c) st (t_labels t) in
  Some ({| te_from_idx := from_idx; te_to_idx := to_idx; te_labels := label_sets |}, st1).

Definition snapshot_row (c : Clts) (state_indices : gmap nat Z) (st : StringIntern) (s : StateId)
    : option (list TransitionEntry * StringIntern) :=
  let* from_idx := state_indices !! s in
  traverse (snapshot_transition c state_indices from_idx) st (outgoing c s).

Definition snapshot_class (c : Clts) (class : StoredLabelClass) (st : StringIntern) (l : LabelId)
    : option (list LabelClassEntry * StringIntern) :=
  match label_payload c l with
  | Some payload =>
    let* (symbols, st1) := intern_all st payload in
    Some ([{| lc_class := class; lc_symbols := symbols |}], st1)
  | None => Some ([], st)
  end.

(** [None] is a panic of one of the [expect]s. *)
Definition from_clts `{HashOrder} (c : Clts) : option BinarySnapshot :=
  let* (states, (st0, state_indices)) :=
    traverse (snapshot_state c) (StringIntern_default, ∅) (imap pair (states c)) in
  let* (rows, st1) := traverse (snapshot_row c state_indices) st0 (Clts.states c) in
  let* (con, st2) := traverse (snapshot_class c SL_Controllable) st1 (visit (controllable_alphabet c)) in
  let* (int, st3) := traverse (snapshot_class c SL_Internal) st2 (visit (internal_alphabet c)) in
  let* (unc, st4) := traverse (snapshot_class c SL_Uncontrollable) st3 (visit (uncontrollable_alphabet c)) in
  Some {| bs_string_table := si_entries st4; bs_states := states; bs_transitions := concat rows;
          bs_label_classes := concat con ++ concat int ++ concat unc |}.

(** ** Rebuilding a system *)

Abbreviation Fallible A := (option (Result A PersistenceError)) (only parsing).

Definition table_get (string_table : list string) (idx : Z) (message : string)
    : Result string PersistenceError :=
  match string_table !! Z.to_nat idx with Some s => Ok s | None => Err (InvalidSnapshot message) end.

(** [iter().map(..).collect::<Result<_, _>>()] *)
Fixpoint collect {A B E} (f : A → Result B E) (l : list A) : Result (list B) E :=
  match l with
  | [] => Ok []
  | x :: l' =>
    match f x with
    | Err e => Err e
    | Ok y => match collect f l' with Ok ys => Ok (y :: ys) | Err e => Err e end
    end
  end.

(** A loop over [l] that updates [acc] and may fail. *)
Fixpoint fold_try {A B E} (f : A → B → option (Result A E)) (acc : A) (l : list B) : option (Result A E) :=
  match l with
  | [] => Some (Ok acc)
  | x :: l' => let? acc' := f acc x in fold_try f acc' l'
  end.

Definition name_message : string := "state name index out of bounds".
Definition variable_message : string := "variable index out of bounds".
Definition source_message : string := "transition source index out of bounds".
Definition target_message : string := "transition target index out of bounds".
Definition symbol_message : string := "label symbol index out of bounds".
Definition class_message : string := "label symbol index out of bounds in controllability table".

(** [builder.state(name)]: the result of the insertion is dropped. *)
Definition declare_state `{IdStorage} (string_table : list string) (b : CltsBuilder) (e : StateEntry)
    : Fallible CltsBuilder :=
  let? name := Some (table_get string_table (se_name_idx e) name_message) in
  Some (Ok (insert_state_owned name b).2).

(** [None] is the panic "state added during initial pass". *)
Definition fill_state `{IdStorage} (string_table : list string) (acc : CltsBuilder * list StateId) (e : StateEntry)
    : Fallible (CltsBuilder * list StateId) :=
  let '(b, state_lookup) := acc in
  let? name := Some (table_get string_table (se_name_idx e) name_message) in
  match insert_state_owned name b with
  | (None, _) => None
  | (Some id, b1) =>
    let b2 := if se_initial e then initial_state_id id b1 else b1 in
    match se_variables e with
    | [] => Some (Ok (b2, state_lookup ++ [id]))
    | vs =>
      let? vars := Some (collect (λ idx, table_get string_table idx variable_message) vs) in
      Some (Ok (with_variables_for_state id vars b2, state_lookup ++ [id]))
    end
  end.

(** [builder.labels().intern(symbols)?] *)
Definition intern_symbols `{IdStorage} (string_table : list string) (message : string) (b : CltsBuilder)
    (symbols : list Z) : Result (LabelId * CltsBuilder) PersistenceError :=
  match collect (λ idx, table_get string_table idx message) symbols with
  | Err e => Err e
  | Ok strs =>
    match intern (cb_labels b) strs with
    | (Ok id, store) => Ok (id, set_labels store b)
    | (Err e, _) => Err (PE_Clts e)
    end
  end.

Definition restore_label `{IdStorage} (string_table : list string) (acc : CltsBuilder * list LabelId)
    (symbols : list Z) : Fallible (CltsBuilder * list LabelId) :=
  let '(b, ids) := acc in
  let? (id, b1) := Some (intern_symbols string_table symbol_message b symbols) in
  Some (Ok (b1, ids ++ [id])).

Definition state_get (state_lookup : list StateId) (idx : Z) (message : string)
    : Result StateId PersistenceError :=
  match state_lookup !! Z.to_nat idx with Some s => Ok s | None => Err (InvalidSnapshot message) end.

Definition restore_transition `{IdStorage} (string_table : list string) (state_lookup : list StateId)
    (b : CltsBuilder) (e : TransitionEntry) : Fallible CltsBuilder :=
  let? from := Some (state_get state_lookup (te_from_idx e) source_message) in
  let? to := Some (state_get state_lookup (te_to_idx e) target_message) in
  let? (b1, label_ids) := fold_try (restore_label string_table) (b, []) (te_labels e) in
  Some (Ok (transition_ids from label_ids to b1)).

Definition restore_class `{IdStorage} (string_table : list string) (b : CltsBuilder) (e : LabelClassEntry)
    : Fallible CltsBuilder :=
  let? (label_id, b1) := Some (intern_symbols string_table class_message b (lc_symbols e)) in
  Some (Ok (set_controllability label_id (to_controllability (lc_class e)) b1)).

Definition into_clts `{IdStorage} (snap : BinarySnapshot) : Fallible Clts :=
  let table := bs_string_table snap in
  let? b1 := fold_try (declare_state table) CltsBuilder_default (bs_states snap) in
  let? (b2, state_lookup) := fold_try (fill_state table) (b1, []) (bs_states snap) in
  let? b3 := fold_try (restore_transition table state_lookup) b2 (bs_transitions snap) in
  let? b4 := fold_try (restore_class table) b3 (bs_label_classes snap) in
  let* built := build b4 in
  match built with Ok c => Some (Ok c) | Err e => Some (Err (PE_Clts e)) end.

(** ** The segment index *)

Record TransitionSegmentInfo := {
  seg_from_state : Z;
  seg_offset : Z;
  seg_len_bytes : Z;
  seg_transitions : Z
}.

Definition sum_Z (l : list Z) : Z := foldr Z.add 0%Z l.
Definition lenZ {A} (l : list A) : Z := Z.of_nat (length l).

Definition prefix_size (snap : BinarySnapshot) : Z :=
  (lenZ MAGIC + 4 + 4 + sum_Z (map (λ s, 4 + lenZ (as_bytes s)) (bs_string_table snap)) + 4
   + sum_Z (map (λ e, 4 + 1 + 4 + lenZ (se_variables e) * 4) (bs_states snap)) + 4)%Z.

Definition transition_size (e : TransitionEntry) : Z :=
  (4 + 4 + 4 + sum_Z (map (λ label, 4 + lenZ label * 4) (te_labels e)))%Z.

(** The segments found so far, the offset of the next entry, and the open
    segment: its state, offset, length and count. *)
Record Segmenting := {
  sg_segments : list TransitionSegmentInfo;
  sg_offset : Z;
  sg_from : option Z;
  sg_current_offset : Z;
  sg_len : Z;
  sg_count : Z
}.

Definition close_segment (g : Segmenting) : list TransitionSegmentInfo :=
  match sg_from g with
  | Some from =>
    sg_segments g ++ [{| seg_from_state := from; seg_offset := sg_current_offset g;
                         seg_len_bytes := sg_len g; seg_transitions := sg_count g |}]
  | None => sg_segments g
  end.

Definition segment_step (g : Segmenting) (e : TransitionEntry) : Segmenting :=
  let g1 :=
    if decide (sg_from g = Some (te_from_idx e)) then g
    else {| sg_segments := close_segment g; sg_offset := sg_offset g; sg_from := Some (te_from_idx e);
            sg_current_offset := sg_offset g; sg_len := 0; sg_count := 0 |} in
  let size := transition_size e in
  {| sg_segments := sg_segments g1; sg_offset := (sg_offset g1 + size)%Z; sg_from := sg_from g1;
     sg_current_offset := sg_current_offset g1; sg_len := (sg_len g1 + size)%Z;
     sg_count := (sg_count g1 + 1)%Z |}.

Definition segment_index (snap : BinarySnapshot) : list TransitionSegmentInfo :=
  close_segment (foldl segment_step
    {| sg_segments := []; sg_offset := prefix_size snap; sg_from := None;
       sg_current_offset := prefix_size snap; sg_len := 0; sg_count := 0 |} (bs_transitions snap)).

Definition find_segment (index : list TransitionSegmentInfo) (from_state : Z) : option TransitionSegmentInfo :=
  head (List.filter (λ s, seg_from_state s =? from_state)%Z index).

Definition write_segment (s : TransitionSegmentInfo) : list byte :=
  write_u32 (seg_from_state s) ++ write_u64 (seg_offset s) ++ write_u64 (seg_len_bytes s)
  ++ write_u32 (seg_transitions s).
Definition read_segment : Reader TransitionSegmentInfo :=
  from_state ← read_u32; offset ← read_u64; len_bytes ← read_u64; transitions ← read_u32;
  mret {| seg_from_state := from_state; seg_offset := offset; seg_len_bytes := len_bytes;
          seg_transitions := transitions |}.

Definition write_index (index : list TransitionSegmentInfo) : list byte :=
  SEG_MAGIC ++ write_u32 SEG_VERSION ++ write_counted write_segment index.
Definition read_index : Reader (list TransitionSegmentInfo) :=
  _ ← read_magic SEG_MAGIC (InvalidSegmentIndex "segment index header mismatch");
  version ← read_u32;
  if decide (version = SEG_VERSION) then read_counted read_segment
  else fail (InvalidSegmentIndex (unsupported "segment index" version)).

(** ** Files *)

(** A path without its extension, and the extension. *)
Record Path := { p_stem : string; p_ext : option string }.
#[export] Instance Path_eq_dec : EqDecision Path.
Proof. solve_decision. Defined.
#[export] Instance Path_countable : Countable Path.
Proof.
  refine (inj_countable' (λ p, (p_stem p, p_ext p)) (λ x, {| p_stem := x.1; p_ext := x.2 |}) _).
  by intros [].
Defined.

Abbreviation FileSystem := (gmap Path (list byte)) (only parsing).

(** [a.bin] becomes [a.bin.seg], [a] becomes [a.seg]. *)
Definition segment_index_path (path : Path) : Path :=
  match p_ext path with
  | Some ext => {| p_stem := p_stem path +:+ "." +:+ ext; p_ext := Some "seg" |}
  | None => {| p_stem := p_stem path; p_ext := Some "seg" |}
  end.

Definition display (p : Path) : string :=
  match p_ext p with Some ext => p_stem p +:+ "." +:+ ext | None => p_stem p end.

Definition write_segment_index (path : Path) (index : list TransitionSegmentInfo) (fs : FileSystem) : FileSystem :=
  <[segment_index_path path := write_index index]> fs.
Definition remove_segment_index (path : Path) (fs : FileSystem) : FileSystem :=
  delete (segment_index_path path) fs.
Definition read_segment_index (path : Path) (fs : FileSystem)
    : Result (list TransitionSegmentInfo) PersistenceError :=
  match fs !! segment_index_path path with
  | None => Err (MissingSegmentIndex (display (segment_index_path path)))
  | Some bytes => match read_index bytes with Ok (index, _) => Ok index | Err e => Err e end
  end.

(** The index of a snapshot is written, or removed when it is empty. *)
Definition update_segment_index (path : Path) (snap : BinarySnapshot) (fs : FileSystem) : FileSystem :=
  if null (segment_index snap) then remove_segment_index path fs
  else write_segment_index path (segment_index snap) fs.

Definition save_clts_to_path `{HashOrder} (c : Clts) (path : Path) (fs : FileSystem) : option FileSystem :=
  let* snapshot := from_clts c in
  Some (update_segment_index path snapshot (<[path := write_to snapshot]> fs)).

Definition load_clts_from_path `{IdStorage} (path : Path) (fs : FileSystem) : Fallible Clts :=
  match fs !! path with
  | None => Some (Err (PE_Io NotFound))
  | Some bytes =>
    match read_from bytes with Ok (snapshot, _) => into_clts snapshot | Err e => Some (Err e) end
  end.

(** The number of bytes written, and the files. *)
Definition maybe_spill_clts `{HashOrder} (c : Clts) (limit_bytes : Z) (path : Path) (fs : FileSystem)
    : option (option Z * FileSystem) :=
  let* snapshot := from_clts c in
  let buffer := write_to snapshot in
  if (limit_bytes <=? lenZ buffer)%Z
  then Some (Some (lenZ buffer), update_segment_index path snapshot (<[path := buffer]> fs))
  else Some (None, remove_segment_index path fs).

(** ** Reading one segment *)

Record PrefetchedTransition := {
  pt_from_state : Z;
  pt_to_state : Z;
  pt_labels : list (list string)
}.

Abbreviation PrefetchCache := (gmap Z (list PrefetchedTransition)) (only parsing).

(** The string table; the states are skipped. *)
Definition read_header_to_transitions : Reader (list string) :=
  _ ← read_magic MAGIC (InvalidSnapshot "snapshot header mismatch");
  version ← read_u32;
  if decide (version = VERSION) then
    string_table ← read_counted (read_string utf8_message);
    _ ← read_counted (read_u32 ≫= λ _, read_bool ≫= λ _, read_counted read_u32);
    mret string_table
  else fail (InvalidSnapshot (unsupported "snapshot" version)).

Definition read_symbol (string_table : list string) : Reader string :=
  idx ← read_u32;
  match string_table !! Z.to_nat idx with
  | Some symbol => mret symbol
  | None => fail (InvalidSnapshot symbol_message)
  end.

Definition read_prefetched (string_table : list string) : Reader PrefetchedTransition :=
  from_idx ← read_u32; to_idx ← read_u32; labels ← read_counted (read_counted (read_symbol string_table));
  mret {| pt_from_state := from_idx; pt_to_state := to_idx; pt_labels := labels |}.

Definition not_found (from_state : Z) : string :=
  "transition segment for state " +:+ pretty from_state +:+ " not found".

Definition prefetch_transition_segment (path : Path) (from_state : Z) (fs : FileSystem) (cache : PrefetchCache)
    : Result (list PrefetchedTransition * PrefetchCache) PersistenceError :=
  match cache !! from_state with
  | Some value => Ok (value, cache)
  | None =>
    match read_segment_index path fs with
    | Err e => Err e
    | Ok index =>
      match find_segment index from_state with
      | None => Err (InvalidSegmentIndex (not_found from_state))
      | Some segment =>
        match fs !! path with
        | None => Err (PE_Io NotFound)
        | Some file =>
          match (string_table ← read_header_to_transitions; _ ← read_u32; mret string_table) file with
          | Err e => Err e
          | Ok (string_table, _) =>
            match read_many (read_prefetched string_table) (Z.to_nat (seg_transitions segment))
                    (drop (Z.to_nat (seg_offset segment)) file) with
            | Err e => Err e
            | Ok (transitions, _) => Ok (transitions, <[from_state := transitions]> cache)
            end
          end
        end
      end
    end
  end.

Definition evict_transition_segment (cache : PrefetchCache) (from_state : Z) : bool * PrefetchCache :=
  (bool_decide (is_Some (cache !! from_state)), delete from_state cache).

(** * Lemmas *)

(** ** Round trips of the stored structures *)

Definition state_entry_ok (e : StateEntry) : Prop := u32_ok (se_name_idx e) ∧ counted_ok u32_ok (se_variables e).
Definition transition_entry_ok (e : TransitionEntry) : Prop :=
  u32_ok (te_from_idx e) ∧ u32_ok (te_to_idx e) ∧ counted_ok (counted_ok u32_ok) (te_labels e).
Definition class_entry_ok (e : LabelClassEntry) : Prop := counted_ok u32_ok (lc_symbols e).

(** Every number fits its field and the strings are UTF-8. *)
Record snapshot_ok (snap : BinarySnapshot) : Prop := {
  sok_strings : counted_ok string_ok (bs_string_table snap);
  sok_states : counted_ok state_entry_ok (bs_states snap);
  sok_transitions : counted_ok transition_entry_ok (bs_transitions snap);
  sok_classes : counted_ok class_entry_ok (bs_label_classes snap)
}.

#[export] Instance state_round_trip : RoundTrip StateEntry state_entry_ok.
Proof.
  intros [name initial vars] [Hn Hv]. apply (reads_bind _ _ _ _ name); [by apply codec_u32|].
  apply (reads_bind _ _ _ _ initial); [by apply codec_bool|].
  apply (reads_last _ _ _ vars); [|done]. eapply codec_counted; [apply codec_u32|done].
Qed.

#[export] Instance transition_round_trip : RoundTrip TransitionEntry transition_entry_ok.
Proof.
  intros [from to ls] (Hf & Ht & Hl). apply (reads_bind _ _ _ _ from); [by apply codec_u32|].
  apply (reads_bind _ _ _ _ to); [by apply codec_u32|].
  apply (reads_last _ _ _ ls); [|done]. eapply codec_counted; [eapply codec_counted, codec_u32|done].
Qed.

Lemma codec_class : codec read_class write_class class_entry_ok.
Proof.
  intros [class syms] Hs. apply (reads_bind _ _ _ _ (class_to_u8 class)); [apply codec_u8; by destruct class|].
  destruct class; (apply (reads_last _ _ _ syms); [eapply codec_counted; [apply codec_u32|done]|done]).
Qed.

Lemma reads_magic expected e : length expected = 8 → reads_as (read_magic expected e) expected tt.
Proof.
  intros Hl. apply (reads_last _ _ _ expected); [|by rewrite decide_True].
  change 8%Z with (Z.of_nat 8). rewrite <-Hl. apply reads_exact.
Qed.

Lemma codec_snapshot : codec read_from write_to snapshot_ok.
Proof.
  intros [strings sts ts classes] [Hstr Hsts Hts Hcl].
  apply (reads_bind _ _ _ _ tt); [by apply reads_magic|].
  apply (reads_bind _ _ _ _ VERSION); [by apply codec_u32|].
  apply (reads_bind _ _ _ _ strings); [by eapply codec_counted; [apply codec_string|]|].
  apply (reads_bind _ _ _ _ sts); [by eapply codec_counted; [apply round_trip|]|].
  apply (reads_bind _ _ _ _ ts); [by eapply codec_counted; [apply round_trip|]|].
  apply (reads_last _ _ _ classes); [by eapply codec_counted; [apply codec_class|]|done].
Qed.

Definition segment_ok (s : TransitionSegmentInfo) : Prop :=
  u32_ok (seg_from_state s) ∧ u64_ok (seg_offset s) ∧ u64_ok (seg_len_bytes s) ∧ u32_ok (seg_transitions s).

Lemma codec_index : codec read_index write_index (counted_ok segment_ok).
Proof.
  intros index Hi. apply (reads_bind _ _ _ _ tt); [by apply reads_magic|].
  apply (reads_bind _ _ _ _ SEG_VERSION); [by apply codec_u32|]. rewrite decide_True by done.
  eapply codec_counted; [|done]. intros [from off ln n] (Hf & Ho & Hl & Hn).
  apply (reads_bind _ _ _ _ from); [by apply codec_u32|].
  apply (reads_bind _ _ _ _ off); [by apply codec_u64|].
  apply (reads_bind _ _ _ _ ln); [by apply codec_u64|].
  by apply (reads_last _ _ _ n); [apply codec_u32|].
Qed.
