(* ===== verification/Snapshot.v ===== *)
(** What [from_clts] stores and what [into_clts] rebuilds.

    [from_clts_stores] shows that the snapshot of a system exists and describes
    it; [into_clts_spec] that rebuilding a snapshot that describes [c] gives a
    [same_system].  The two builder passes over the states, the transitions and
    the label classes each have their invariant. *)
From coqutil Require Import Word.LittleEndianList.
From S2P Require Import Prelude Clts Binary Persistence.

(** ** What a snapshot of a system contains *)

Section traverse.
Context {S A B : Type} (f : S → A → option (B * S)) (I : S → Prop) (ext : S → S → Prop) (R : S → A → B → Prop).
Context (ext_refl : ∀ st, ext st st) (ext_trans : ∀ st1 st2 st3, ext st1 st2 → ext st2 st3 → ext st1 st3).
Context (R_mono : ∀ st st' x y, ext st st' → R st x y → R st' x y).

Lemma traverse_spec l : ∀ st,
  (∀ st x, x ∈ l → I st → ∃ y st', f st x = Some (y, st') ∧ I st' ∧ ext st st' ∧ R st' x y) → I st →
  ∃ ys st', traverse f st l = Some (ys, st') ∧ I st' ∧ ext st st' ∧ Forall2 (R st') l ys.
Proof using ext_refl ext_trans R_mono.
  induction l as [|x l IH]; intros st Hstep Hst; [by exists [], st|].
  destruct (Hstep st x) as (y & st1 & E1 & H1 & Hx & HR); [by left|done|].
  destruct (IH st1) as (ys & st2 & E2 & H2 & Hxs & HRs); [|done|].
  { intros st' x' Hin. apply Hstep. by right. }
  exists (y :: ys), st2. cbn [traverse]. rewrite E1, E2. split_and!; [done|done|by eapply ext_trans|].
  constructor; [by eapply R_mono|done].
Qed.
End traverse.

(** The table grows at its end. *)
Definition si_ext (st st' : StringIntern) : Prop := si_entries st `prefix_of` si_entries st'.

(** The index of a string of the table, at the width of the source. *)
Definition interned (entries : list string) (v : string) (i : Z) : Prop :=
  ∃ k, i = as_u32 k ∧ entries !! k = Some v.
Definition si_ok (st : StringIntern) : Prop := ∀ v i, si_map st !! v = Some i → interned (si_entries st) v i.

Lemma interned_mono entries entries' v i :
  entries `prefix_of` entries' → interned entries v i → interned entries' v i.
Proof. intros Hp (k & -> & Hk). exists k. split; [done|]. by eapply prefix_lookup_Some. Qed.

Lemma interned_get entries v i :
  interned entries v i → (Z.of_nat (length entries) < 2 ^ 32)%Z →
  u32_ok i ∧ entries !! Z.to_nat i = Some v.
Proof.
  intros (k & -> & Hk) Hl. pose proof (lookup_lt_Some _ _ _ Hk). split; [apply as_u32_ok|].
  by rewrite as_u32_small, Nat2Z.id by lia.
Qed.

Lemma si_intern_spec st v :
  si_ok st → ∃ i st', si_intern st v = (i, st') ∧ si_ok st' ∧ si_ext st st' ∧ interned (si_entries st') v i.
Proof.
  intros Hst. unfold si_intern. destruct (si_map st !! v) as [i|] eqn:Hv.
  { exists i, st. split_and!; [done|done|by unfold si_ext|by apply Hst]. }
  eexists _, _. split; [done|]. assert (Hnew : interned (si_entries st ++ [v]) v (as_u32 (length (si_entries st)))).
  { exists (length (si_entries st)). split; [done|]. apply lookup_push. }
  split_and!; [|by apply prefix_app_r|done]. intros w i. simpl. destruct (decide (w = v)) as [->|Hne].
  - rewrite lookup_insert_eq. by intros [= <-].
  - rewrite lookup_insert_ne by done. intros H%Hst. by eapply interned_mono; [apply prefix_app_r|].
Qed.

Definition interned_all (st : StringIntern) (vs : list string) (ix : list Z) : Prop :=
  Forall2 (interned (si_entries st)) vs ix.

Lemma interned_all_mono st st' vs ix : si_ext st st' → interned_all st vs ix → interned_all st' vs ix.
Proof. intros Hx H. eapply Forall2_impl; [done|]. intros v i. by apply interned_mono. Qed.

Lemma intern_all_spec vs st :
  si_ok st → ∃ ix st', intern_all st vs = Some (ix, st') ∧ si_ok st' ∧ si_ext st st' ∧ interned_all st' vs ix.
Proof.
  apply (traverse_spec _ si_ok si_ext (λ st, interned (si_entries st))).
  - by unfold si_ext.
  - unfold si_ext. intros. by etrans.
  - intros ? ? ? ?. apply interned_mono.
  - intros st' v _ H. destruct (si_intern_spec st' v H) as (i & st2 & -> & ?). by exists i, st2.
Qed.

(** The stored form of a state, a label, a transition and a label class. *)
Definition state_stored (c : Clts) (st : StringIntern) (s : StateId) (e : StateEntry) : Prop :=
  ∃ name, state_name c s = Some name ∧ interned (si_entries st) name (se_name_idx e) ∧
    se_initial e = bool_decide (s ∈ initial_states c) ∧ interned_all st (state_variables c s) (se_variables e).
Definition label_stored (c : Clts) (st : StringIntern) (l : LabelId) (symbols : list Z) : Prop :=
  interned_all st (default [] (label_payload c l)) symbols.
Definition transition_stored (c : Clts) (st : StringIntern) (s : StateId) (t : Transition) (e : TransitionEntry)
    : Prop :=
  te_from_idx e = as_u32 s ∧ te_to_idx e = as_u32 (target t) ∧ Forall2 (label_stored c st) (t_labels t) (te_labels e).
Definition class_stored (c : Clts) (st : StringIntern) (class : StoredLabelClass) (l : LabelId)
    (es : list LabelClassEntry) : Prop :=
  match label_payload c l with
  | Some payload => ∃ symbols, es = [{| lc_class := class; lc_symbols := symbols |}] ∧ interned_all st payload symbols
  | None => es = []
  end.

Section stored.
Context (c : Clts) (Hc : clts_ok c).
Let n := state_count c.

Lemma label_stored_mono st st' l symbols : si_ext st st' → label_stored c st l symbols → label_stored c st' l symbols.
Proof. apply interned_all_mono. Qed.

Lemma transition_stored_mono st st' s t e :
  si_ext st st' → transition_stored c st s t e → transition_stored c st' s t e.
Proof.
  intros Hx (? & ? & H). split_and!; [done..|]. eapply Forall2_impl; [done|]. intros. by eapply label_stored_mono.
Qed.

Lemma class_stored_mono st st' class l es : si_ext st st' → class_stored c st class l es → class_stored c st' class l es.
Proof.
  intros Hx. unfold class_stored. destruct (label_payload c l); [|done].
  intros (symbols & -> & H). exists symbols. split; [done|]. by eapply interned_all_mono.
Qed.

Lemma state_stored_mono st st' s e : si_ext st st' → state_stored c st s e → state_stored c st' s e.
Proof.
  intros Hx (name & ? & ? & ? & ?). exists name. split_and!; [done|by eapply interned_mono|done|].
  by eapply interned_all_mono.
Qed.

Lemma si_ext_refl st : si_ext st st.
Proof. by unfold si_ext. Qed.
Lemma si_ext_trans st1 st2 st3 : si_ext st1 st2 → si_ext st2 st3 → si_ext st1 st3.
Proof. unfold si_ext. intros. by etrans. Qed.

(** The recorded indices are the positions of the states. *)
Definition indices_ok (acc : StringIntern * gmap nat Z) : Prop :=
  si_ok acc.1 ∧ ∀ s i, acc.2 !! s = Some i → i = as_u32 s.
Definition indices_ext (acc acc' : StringIntern * gmap nat Z) : Prop :=
  si_ext acc.1 acc'.1 ∧ ∀ s, is_Some (acc.2 !! s) → is_Some (acc'.2 !! s).

Lemma snapshot_states_spec :
  ∃ es st ind, traverse (snapshot_state c) (StringIntern_default, ∅) (imap pair (states c)) = Some (es, (st, ind)) ∧
    si_ok st ∧ (∀ s, s < n → ind !! s = Some (as_u32 s)) ∧ Forall2 (state_stored c st) (states c) es.
Proof using Type.
  assert (Hpairs : imap pair (states c) = map (λ s, (s, s)) (states c)).
  { apply list_eq. intros i. rewrite list_lookup_imap, list_lookup_fmap. unfold states.
    destruct (seq 0 (state_count c) !! i) eqn:E; [|done]. apply lookup_seq in E as [-> _]. done. }
  destruct (traverse_spec (snapshot_state c) indices_ok indices_ext
    (λ acc x e, x.1 = x.2 ∧ state_stored c acc.1 x.2 e ∧ is_Some (acc.2 !! x.2))) with
    (l := imap pair (states c)) (st := (StringIntern_default, ∅ : gmap nat Z)) as (es & [st ind] & E & [Hst Hind] & _ & HR).
  - intros acc. split; [apply si_ext_refl|done].
  - intros a1 a2 a3 [H1 H1'] [H2 H2']. split; [by eapply si_ext_trans|auto].
  - intros a1 a2 x e [H1 H1'] (? & H2 & H3). split_and!; [done|by eapply state_stored_mono|auto].
  - intros [st ind] [i s] Hin [Hst Hind]. rewrite Hpairs in Hin. apply list_elem_of_fmap in Hin as (s' & [= -> ->] & Hs).
    apply elem_of_seq in Hs. destruct (lookup_lt_is_Some_2 (state_names c) s') as [name Hname]; [unfold state_count in *; lia|].
    cbn [snapshot_state]. unfold state_name. rewrite Hname. simpl in Hst, Hind.
    destruct (si_intern_spec st name Hst) as (ni & st1 & -> & Hst1 & Hx1 & Hni).
    destruct (intern_all_spec (state_variables c s') st1 Hst1) as (vi & st2 & -> & Hst2 & Hx2 & Hvi).
    eexists _, _. split; [done|]. split_and!.
    + split; [done|]. intros s i. simpl. destruct (decide (s = s')) as [->|Hne].
      * rewrite lookup_insert_eq. by intros [= <-].
      * rewrite lookup_insert_ne by done. apply Hind.
    + split; [by eapply si_ext_trans|]. simpl. intros s Hs'. destruct (decide (s = s')) as [->|Hne].
      * by rewrite lookup_insert_eq.
      * by rewrite lookup_insert_ne.
    + done.
    + exists name. split_and!; [done| |done|done]. by eapply interned_mono.
    + simpl. by rewrite lookup_insert_eq.
  - split; [|done]. intros v i. simpl. by rewrite lookup_empty.
  - exists es, st, ind. split_and!; [done|done| |].
    + intros s Hs. simpl in Hind. rewrite Hpairs in HR.
      destruct (Forall2_lookup_l _ _ _ s (s, s) HR) as (e & _ & _ & _ & [i Hi]).
      { rewrite list_lookup_fmap. unfold states. by rewrite lookup_seq_lt. }
      simpl in Hi. rewrite Hi. f_equal. by apply Hind.
    + rewrite Hpairs in HR. apply Forall2_fmap_l in HR. eapply Forall2_impl; [exact HR|]. by intros s e (_ & ? & _).
Qed.

Lemma snapshot_labels_spec ls st :
  si_ok st → ∃ xs st', traverse (snapshot_label c) st ls = Some (xs, st') ∧ si_ok st' ∧ si_ext st st' ∧
    Forall2 (label_stored c st') ls xs.
Proof using Type.
  apply (traverse_spec _ si_ok si_ext (label_stored c)).
  - apply si_ext_refl.
  - apply si_ext_trans.
  - intros ? ? ? ?. apply label_stored_mono.
  - intros st' l _ H. unfold snapshot_label, label_stored. destruct (label_payload c l) as [p|]; simpl.
    + destruct (intern_all_spec p st' H) as (ix & st2 & -> & ?). by exists ix, st2.
    + exists [], st'. split_and!; [done|done|apply si_ext_refl|constructor].
Qed.

Lemma snapshot_rows_spec ind st :
  (∀ s, s < n → ind !! s = Some (as_u32 s)) → si_ok st →
  ∃ rows st', traverse (snapshot_row c ind) st (states c) = Some (rows, st') ∧ si_ok st' ∧ si_ext st st' ∧
    Forall2 (λ s row, Forall2 (transition_stored c st' s) (outgoing c s) row) (states c) rows.
Proof using Hc.
  intros Hind. apply (traverse_spec _ si_ok si_ext
    (λ st s row, Forall2 (transition_stored c st s) (outgoing c s) row)).
  - apply si_ext_refl.
  - apply si_ext_trans.
  - intros st1 st2 s row Hx H. eapply Forall2_impl; [done|]. intros. by eapply transition_stored_mono.
  - intros st1 s Hs%elem_of_seq Hst1. unfold snapshot_row. rewrite Hind by (unfold n; lia).
    apply (traverse_spec _ si_ok si_ext (λ st, transition_stored c st s)); [apply si_ext_refl|apply si_ext_trans| | |done].
    { intros ? ? ? ?. apply transition_stored_mono. }
    intros st2 t Ht Hst2. unfold snapshot_transition. rewrite Hind by (by eapply (ok_target c Hc)).
    destruct (snapshot_labels_spec (t_labels t) st2 Hst2) as (xs & st3 & -> & ? & ? & Hxs).
    eexists _, _. split; [done|]. by split_and!.
Qed.

Lemma snapshot_classes_spec class ls st :
  si_ok st → ∃ es st', traverse (snapshot_class c class) st ls = Some (es, st') ∧ si_ok st' ∧ si_ext st st' ∧
    Forall2 (class_stored c st' class) ls es.
Proof using Type.
  apply (traverse_spec _ si_ok si_ext (λ st, class_stored c st class)).
  - apply si_ext_refl.
  - apply si_ext_trans.
  - intros ? ? ? ?. apply class_stored_mono.
  - intros st' l _ H. unfold snapshot_class, class_stored. destruct (label_payload c l) as [p|]; simpl.
    + destruct (intern_all_spec p st' H) as (ix & st2 & -> & ? & ? & ?). eexists _, st2. split_and!; [done..|]. by exists ix.
    + exists [], st'. split_and!; [done|done|apply si_ext_refl|done].
Qed.

(** The snapshot of a system exists, and stores it. *)
Record stores `{HashOrder} (snap : BinarySnapshot) (st : StringIntern) (rows : list (list TransitionEntry))
    (con int unc : list (list LabelClassEntry)) : Prop := {
  st_table : bs_string_table snap = si_entries st;
  st_states : Forall2 (state_stored c st) (states c) (bs_states snap);
  st_transitions : bs_transitions snap = concat rows;
  st_rows : Forall2 (λ s row, Forall2 (transition_stored c st s) (outgoing c s) row) (states c) rows;
  st_classes : bs_label_classes snap = concat con ++ concat int ++ concat unc;
  st_con : Forall2 (class_stored c st SL_Controllable) (visit (controllable_alphabet c)) con;
  st_int : Forall2 (class_stored c st SL_Internal) (visit (internal_alphabet c)) int;
  st_unc : Forall2 (class_stored c st SL_Uncontrollable) (visit (uncontrollable_alphabet c)) unc
}.

Lemma from_clts_stores `{HashOrder} : ∃ snap st rows con int unc, from_clts c = Some snap ∧ stores snap st rows con int unc.
Proof using Hc.
  destruct snapshot_states_spec as (es & st0 & ind & E0 & H0 & Hind & Hes).
  destruct (snapshot_rows_spec ind st0 Hind H0) as (rows & st1 & E1 & H1 & X1 & Hrows).
  destruct (snapshot_classes_spec SL_Controllable (visit (controllable_alphabet c)) st1 H1) as (con & st2 & E2 & H2 & X2 & Hcon).
  destruct (snapshot_classes_spec SL_Internal (visit (internal_alphabet c)) st2 H2) as (int & st3 & E3 & H3 & X3 & Hint).
  destruct (snapshot_classes_spec SL_Uncontrollable (visit (uncontrollable_alphabet c)) st3 H3) as (unc & st4 & E4 & H4 & X4 & Hunc).
  assert (X34 : si_ext st2 st4) by (by eapply si_ext_trans).
  assert (X24 : si_ext st1 st4) by (by eapply si_ext_trans).
  assert (X14 : si_ext st0 st4) by (by eapply si_ext_trans).
  eexists _, st4, rows, con, int, unc. unfold from_clts. rewrite E0, E1, E2, E3, E4. split; [done|].
  constructor; simpl; try done.
  - eapply Forall2_impl; [exact Hes|]. intros. by apply (state_stored_mono st0).
  - eapply Forall2_impl; [exact Hrows|]. intros s row Hrow. eapply Forall2_impl; [exact Hrow|].
    intros. by apply (transition_stored_mono st1).
  - eapply Forall2_impl; [exact Hcon|]. intros. by apply (class_stored_mono st2).
  - eapply Forall2_impl; [exact Hint|]. intros. by apply (class_stored_mono st3).
Qed.
End stored.

(** ** Rebuilding a stored system *)

Lemma fold_try_inv {A B E} (f : A → B → option (Result A E)) (P : list B → A → Prop) l acc :
  (∀ done x rest a, l = done ++ x :: rest → P done a → ∃ a', f a x = Some (Ok a') ∧ P (done ++ [x]) a') →
  P [] acc → ∃ acc', fold_try f acc l = Some (Ok acc') ∧ P l acc'.
Proof.
  intros Hstep. assert (Hgen : ∀ rest done a, l = done ++ rest → P done a →
    ∃ acc', fold_try f a rest = Some (Ok acc') ∧ P l acc').
  { induction rest as [|x rest IH]; intros done a Hl Ha.
    - exists a. rewrite app_nil_r in Hl. by subst.
    - destruct (Hstep done x rest a Hl Ha) as (a1 & E1 & H1). cbn [fold_try]. rewrite E1.
      apply (IH (done ++ [x])); [by rewrite <-app_assoc|done]. }
  by apply (Hgen l []).
Qed.

Lemma fold_try_app {A B E} (f : A → B → option (Result A E)) acc l k :
  fold_try f acc (l ++ k) = let? acc' := fold_try f acc l in fold_try f acc' k.
Proof. revert acc. induction l as [|x l IH]; intros acc; [done|]. simpl. destruct (f acc x) as [[]|]; [apply IH|done..]. Qed.

Lemma collect_ok {A B E} (f : A → Result B E) l k : Forall2 (λ x y, f x = Ok y) l k → collect f l = Ok k.
Proof. induction 1 as [|x y l k Hf _ IH]; [done|]. cbn [collect]. by rewrite Hf, IH. Qed.

Lemma table_get_interned table st v i message :
  table = si_entries st → (Z.of_nat (length table) < 2 ^ 32)%Z → interned (si_entries st) v i →
  table_get table i message = Ok v.
Proof. intros -> Hl Hi. unfold table_get. by rewrite (proj2 (interned_get _ _ _ Hi Hl)). Qed.

Lemma collect_interned table st vs ix message :
  table = si_entries st → (Z.of_nat (length table) < 2 ^ 32)%Z → interned_all st vs ix →
  collect (λ idx, table_get table idx message) ix = Ok vs.
Proof.
  intros Ht Hl Hix. apply collect_ok. apply Forall2_flip in Hix. eapply Forall2_impl; [exact Hix|].
  intros i v Hi. by eapply table_get_interned.
Qed.

(** The edges of a system, row by row. *)
Definition edges_of {A} (g : nat → list A) (ss : list nat) : list (nat * A) :=
  concat (map (λ s, map (pair s) (g s)) ss).

Lemma elem_of_edges {A} (g : nat → list A) ss x : x ∈ edges_of g ss → x.1 ∈ ss ∧ x.2 ∈ g x.1.
Proof.
  unfold edges_of. intros Hx%list_elem_of_In. apply in_concat in Hx as (l & Hl & Hx).
  apply in_map_iff in Hl as (s & <- & Hs). apply in_map_iff in Hx as (a & <- & Ha). by rewrite !list_elem_of_In.
Qed.

Lemma Forall2_edges {A B} (R : nat → A → B → Prop) g ss rows :
  Forall2 (λ s row, Forall2 (R s) (g s) row) ss rows → Forall2 (λ x e, R x.1 x.2 e) (edges_of g ss) (concat rows).
Proof.
  induction 1 as [|s row ss rows Hrow _ IH]; [constructor|]. apply Forall2_app; [|done].
  apply Forall2_fmap_l. eapply Forall2_impl; [exact Hrow|done].
Qed.

Lemma edges_from {A} (g : nat → list A) s ss :
  NoDup ss → s ∈ ss → List.filter (λ x, x.1 =? s) (edges_of g ss) = map (pair s) (g s).
Proof.
  assert (Hrow : ∀ s' l, List.filter (λ x : nat * A, x.1 =? s) (map (pair s') l) = if s' =? s then map (pair s') l else []).
  { intros s' l. induction l as [|a l IH]; simpl; [by destruct (s' =? s)|]. rewrite IH. by destruct (s' =? s). }
  induction 1 as [|s' ss Hn _ IH]; [by intros ?%not_elem_of_nil|]. intros Hin. unfold edges_of. simpl.
  rewrite List.filter_app, Hrow. destruct (Nat.eqb_spec s' s) as [->|Hne].
  - rewrite <-(app_nil_r (map (pair s) (g s))) at 2. f_equal. clear IH Hin. induction ss as [|x ss IH]; [done|].
    simpl. rewrite List.filter_app, Hrow. apply not_elem_of_cons in Hn as [Hx Hn].
    destruct (Nat.eqb_spec x s) as [->|]; [done|]. by apply IH.
  - apply elem_of_cons in Hin as [?|Hin]; [done|]. by apply IH.
Qed.

Lemma Forall2_filter_bool {A B} (R : A → B → Prop) p q l k :
  (∀ x y, R x y → p x = q y) → Forall2 R l k → Forall2 R (List.filter p l) (List.filter q k).
Proof.
  intros Hpq. induction 1 as [|x y l k Hxy _ IH]; [constructor|]. simpl. rewrite (Hpq x y Hxy).
  destruct (q y); [by constructor|done].
Qed.

Lemma Forall2_impl_in {A B} (R R' : A → B → Prop) l k :
  Forall2 R l k → (∀ x y, x ∈ l → y ∈ k → R x y → R' x y) → Forall2 R' l k.
Proof.
  induction 1 as [|x y l k Hxy _ IH]; intros Hi; constructor.
  - apply Hi; [by left..|done].
  - apply IH. intros x' y' Hx Hy. apply Hi; by right.
Qed.

(** A loaded system: the same states, variables and labelled transitions.
    Label identifiers may differ; every transition is [Sharp], and valuations
    and three-valued predicates are gone. *)
Definition same_label (c c' : Clts) (l l' : LabelId) : Prop :=
  (∃ p, label_payload c l = Some p ∧ label_payload c' l' = Some p) ∧
  is_uncontrollable_label c' l' = is_uncontrollable_label c l.
Definition same_transition (c c' : Clts) (t t' : Transition) : Prop :=
  target t' = target t ∧ modality t' = Sharp ∧ Forall2 (same_label c c') (t_labels t) (t_labels t').

Record same_system (c c' : Clts) : Prop := {
  ss_ok : clts_ok c';
  ss_states : states_ok c';
  ss_names : state_names c' = state_names c;
  ss_initial : initial_states c' = initial_states c;
  ss_variables : ∀ s, s < state_count c → state_variables c' s = state_variables c s;
  ss_rows : ∀ s, Forall2 (same_transition c c') (outgoing c s) (outgoing c' s);
  ss_sharp : state_3valued_predicates c' = None ∧ ∀ s, state_valuation c' s = None
}.

Section restore.
Context `{IdStorage} `{HashOrder} (c : Clts) (Hc : clts_ok c) (Hs : states_ok c).
Let n := state_count c.
Context (snap : BinarySnapshot) (st : StringIntern) (rows : list (list TransitionEntry)).
Context (con int unc : list (list LabelClassEntry)) (Hst : stores c snap st rows con int unc).
Let table := bs_string_table snap.
Context (Htable : (Z.of_nat (length table) < 2 ^ 32)%Z) (Hcount : (Z.of_nat n < 2 ^ 32)%Z).
Context (Hstates : (N.of_nat n <= id_max + 1)%N).
Context (Hstore : (N.of_nat (length (u_sets (labels c))) <= id_max + 1)%N).

(** The builder after the first pass, and when the first [k] states are filled. *)
Record states_restored (k : nat) (b : CltsBuilder) : Prop := {
  rs_ok : builder_ok b;
  rs_overflow : cb_state_overflow b = None;
  rs_transitions : cb_transitions b = [];
  rs_labels : cb_labels b = LabelStoreBuilder_default;
  rs_controllability : cb_label_controllability b = ∅;
  rs_declared : cb_declared_labels b = ∅;
  rs_predicates : cb_state_3valued_predicates b = None;
  rs_valuations : Forall (λ v, v = None) (cb_state_valuations b);
  rs_initial : ∀ s, s ∈ cb_initial_states b ↔ s < k ∧ s ∈ initial_states c;
  rs_variables : ∀ s, s < length (cb_state_names b) → ∃ id, cb_state_variables b !! s = Some id ∧
    vb_sets (cb_variables b) !! id = Some (if s <? k then state_variables c s else [])
}.

Lemma stored_state i e : bs_states snap !! i = Some e → i < n ∧ state_stored c st i e.
Proof using Hst.
  intros He. destruct (Forall2_lookup_r _ _ _ i e (st_states _ _ _ _ _ _ _ Hst) He) as (s & Hi & Hse).
  apply lookup_seq in Hi as [-> Hi]. done.
Qed.

Lemma stored_count : length (bs_states snap) = n.
Proof using Hst. rewrite <-(Forall2_length _ _ _ (st_states _ _ _ _ _ _ _ Hst)). apply length_seq. Qed.

Lemma names_new i name :
  state_names c !! i = Some name → name ∉ take i (state_names c).
Proof using Hs.
  clear -Hs. intros Hi [j Hj]%list_elem_of_lookup. apply lookup_take_Some in Hj as [Hj Hlt].
  pose proof (proj1 (NoDup_alt _) (so_names c Hs) i j name Hi Hj). lia.
Qed.

Lemma declare_states :
  ∃ b, fold_try (declare_state table) CltsBuilder_default (bs_states snap) = Some (Ok b) ∧
    states_restored 0 b ∧ cb_state_names b = state_names c.
Proof using All.
  destruct (fold_try_inv (declare_state table)
    (λ done b, states_restored 0 b ∧ cb_state_names b = take (length done) (state_names c))
    (bs_states snap) CltsBuilder_default) as (b & E & Hb & Hn).
  - intros done e rest b Hl [Hb Hnames]. set (i := length done) in *.
    destruct (stored_state i e) as [Hi (name & Hname & Hidx & _)]; [rewrite Hl; by apply list_lookup_middle|].
    unfold declare_state. rewrite (table_get_interned table st name) by (done || apply Hst).
    assert (Hlen : length (cb_state_names b) = i) by (rewrite Hnames, length_take; unfold n, state_count in Hi; lia).
    destruct (insert_state_fresh b name (rs_ok _ _ Hb)) as (b' & vid & ext & -> & Hok & Hb' & Hext & Hvid).
    { destruct (cb_state_map b !! name) as [j|] eqn:Ej; [|done]. exfalso. apply (bok_map _ (rs_ok _ _ Hb)) in Ej.
      rewrite Hnames in Ej. apply list_elem_of_lookup_2 in Ej. by apply (names_new i name Hname) in Ej. }
    { rewrite Hlen. lia. }
    exists b'. split; [done|]. split.
    + constructor; try done; rewrite Hb'; simpl; try by apply Hb.
      * apply Forall_app. split; [apply Hb|by constructor].
      * intros s. rewrite length_app. simpl. intros Hs'.
        destruct (decide (s = length (cb_state_names b))) as [->|Hne].
        -- exists vid. split; [|done]. rewrite <-(bok_var_rows _ (rs_ok _ _ Hb)). apply lookup_push.
        -- destruct (rs_variables _ _ Hb s) as (id & Hid & Hset); [lia|]. exists id.
           rewrite Hext. split; by apply lookup_app_l_Some.
    + rewrite Hb'. simpl. rewrite Hnames, length_app. simpl. rewrite Nat.add_1_r. by erewrite take_S_r.
  - split; [|done]. pose proof builder_ok_default. constructor; try done.
    + intros s. split; [by intros ?%not_elem_of_empty|lia].
    + intros s Hs'. simpl in Hs'. lia.
  - exists b. split_and!; [done|done|]. rewrite Hn, stored_count. unfold n, state_count. apply take_ge. lia.
Qed.

Lemma fill_states b :
  states_restored 0 b → cb_state_names b = state_names c →
  ∃ b', fold_try (fill_state table) (b, []) (bs_states snap) = Some (Ok (b', states c)) ∧
    states_restored n b' ∧ cb_state_names b' = state_names c.
Proof using All.
  intros Hb0 Hn0. destruct (fold_try_inv (fill_state table)
    (λ done acc, states_restored (length done) acc.1 ∧ cb_state_names acc.1 = state_names c ∧
                 acc.2 = seq 0 (length done))
    (bs_states snap) (b, [])) as ([b' lookup] & E & Hb' & Hn' & Hl').
  - intros done e rest [b1 lookup] Hl (Hb & Hnames & Hlk). simpl in Hb, Hnames, Hlk. set (i := length done) in *.
    destruct (stored_state i e) as [Hi (name & Hname & Hidx & Hini & Hvars)]; [rewrite Hl; by apply list_lookup_middle|].
    unfold fill_state. rewrite (table_get_interned table st name) by (done || apply Hst).
    rewrite (insert_state_known b1 name i) by (apply (bok_map _ (rs_ok _ _ Hb)); by rewrite Hnames).
    set (b2 := if se_initial e then _ else _).
    assert (Hb2 : b2 = set_initial_states (cb_initial_states b2) b1 ∧ builder_ok b2 ∧
      ∀ s, s ∈ cb_initial_states b2 ↔ s < S i ∧ s ∈ initial_states c).
    { assert (Hspec : ∀ s, s ∈ cb_initial_states b2 ↔ s ∈ cb_initial_states b1 ∨ (s = i ∧ s ∈ initial_states c)).
      { intros s. subst b2. rewrite Hini. destruct (bool_decide _) eqn:Ei.
        - apply bool_decide_eq_true in Ei. simpl. rewrite elem_of_union, elem_of_singleton. naive_solver.
        - apply bool_decide_eq_false in Ei. naive_solver. }
      split_and!.
      - subst b2. destruct (se_initial e); [done|by destruct b1].
      - subst b2. destruct (se_initial e); [|apply Hb].
        apply initial_state_id_ok; [apply Hb|]. rewrite Hnames. done.
      - intros s. rewrite Hspec, (rs_initial _ _ Hb). split.
        + intros [[? ?]|[-> ?]]; (split; [lia|done]).
        + intros [Hs' ?]. destruct (decide (s = i)); [by right|left; split; [lia|done]]. }
    destruct Hb2 as (Hb2 & Hok2 & Hin2). clearbody b2.
    destruct (rs_variables _ _ Hb i) as (vid & Hvid & Hvset); [rewrite Hnames; exact Hi|].
    rewrite (proj2 (Nat.ltb_ge i i)) in Hvset by lia.
    destruct (variables_slot b2 i vid (state_variables c i) Hok2) as (Hok3 & Hb3 & Hid & Hother & ext & Hext);
      [by rewrite Hb2|by rewrite Hb2|].
    set (b3 := if negb _ then _ else _) in *.
    exists (b3, lookup ++ [i]). split.
    { subst b3. clear Hb3 Hid Hother Hext Hok3. revert Hvars. generalize (state_variables c i), (se_variables e).
      intros vs ix Hix. pose proof (collect_interned table st vs ix variable_message) as Hcol.
      destruct Hix as [|v v' vs ix Hv Hix]; [done|]. rewrite Hcol; [done|apply Hst|done|by constructor]. }
    clearbody b3. simpl. rewrite length_app, seq_app, Hlk. fold i.
    change (length [e]) with 1. rewrite Nat.add_1_r.
    split_and!; [|rewrite Hb3, Hb2; done|done].
    constructor; try done; try (rewrite Hb3, Hb2; simpl; apply Hb).
    + intros s. rewrite Hb3. apply Hin2.
    + intros s Hs'. rewrite Hb3, Hb2 in Hs'. simpl in Hs'. destruct (decide (s = i)) as [->|Hne].
      * destruct Hid as (id & Hid & Hset). exists id. split; [done|].
        rewrite (proj2 (Nat.ltb_lt i (S i))), Hset by lia. f_equal. by apply (so_variable_sets c Hs).
      * destruct (rs_variables _ _ Hb s Hs') as (id & Hid' & Hset'). exists id. rewrite (Hother s Hne), Hext, Hb2.
        simpl. split; [done|]. rewrite (lookup_app_l_Some _ _ _ _ Hset'). f_equal.
        destruct (s <? i) eqn:E1, (s <? S i) eqn:E2; try done; exfalso;
          rewrite ?Nat.ltb_lt, ?Nat.ltb_ge in *; lia.
  - by split_and!.
  - exists b'. simpl in Hl', Hb'. rewrite stored_count in Hl', Hb'. split_and!; [|done|done].
    rewrite E. by subst lookup.
Qed.
(** ** Labels and transitions *)

(** Every interned payload is one of the payloads of [c]. *)
Definition store_within (L : LabelStoreBuilder) : Prop :=
  label_builder_ok L ∧ ∀ e, e ∈ lb_entries L → e ∈ u_sets (labels c).

Lemma intern_within L l p :
  store_within L → label_payload c l = Some p →
  ∃ id L', intern L p = (Ok id, L') ∧ store_within L' ∧ lb_entries L `prefix_of` lb_entries L' ∧
    lb_entries L' !! id = Some p.
Proof using All.
  intros [Hok Hin] Hp.
  destruct (intern_bounded (u_sets (labels c)) L p Hok Hin) as (id & L' & E & Hok' & Hin' & Hx & Hid);
    [by apply (so_payloads c Hs l)|by eapply list_elem_of_lookup_2|done|].
  by exists id, L'.
Qed.

(** Identifier [id] of store [L] has the payload of label [l]. *)
Definition labelled (L : LabelStoreBuilder) (l : LabelId) (id : LabelId) : Prop :=
  ∃ p, label_payload c l = Some p ∧ lb_entries L !! id = Some p.

Lemma labelled_mono L L' l id : lb_entries L `prefix_of` lb_entries L' → labelled L l id → labelled L' l id.
Proof using Type. intros Hx (p & ? & ?). exists p. split; [done|]. by eapply prefix_lookup_Some. Qed.

Lemma labelled_unique L l id id' : store_within L → labelled L l id → labelled L l id' → id = id'.
Proof using Type.
  intros [Hok _] (p & Hp & Hi) (p' & Hp' & Hi'). assert (p' = p) as -> by congruence.
  apply (lok_map _ Hok) in Hi, Hi'. congruence.
Qed.

Lemma intern_stored message b l p symbols :
  store_within (cb_labels b) → label_payload c l = Some p → interned_all st p symbols →
  ∃ id L, intern_symbols table message b symbols = Ok (id, set_labels L b) ∧ store_within L ∧
    lb_entries (cb_labels b) `prefix_of` lb_entries L ∧ labelled L l id.
Proof using All.
  intros HL Hp Hsy. destruct (intern_within (cb_labels b) l p HL Hp) as (id & L & E & HL' & Hx & Hid).
  exists id, L. unfold intern_symbols. rewrite (collect_interned table st p) by (done || apply Hst).
  rewrite E. split_and!; try done. by exists p.
Qed.

Lemma restore_labels ls xs b :
  Forall2 (label_stored c st) ls xs → (∀ l, l ∈ ls → is_Some (label_payload c l)) → store_within (cb_labels b) →
  ∀ ids0, ∃ L ids, fold_try (restore_label table) (b, ids0) xs = Some (Ok (set_labels L b, ids0 ++ ids)) ∧
    store_within L ∧ lb_entries (cb_labels b) `prefix_of` lb_entries L ∧ Forall2 (labelled L) ls ids.
Proof using All.
  intros Hls. revert b. induction Hls as [|l x ls xs Hl _ IH]; intros b Hknown HL ids0.
  { exists (cb_labels b), []. rewrite app_nil_r. split_and!; [by destruct b|done|done|constructor]. }
  destruct (Hknown l) as [p Hp]; [by left|]. unfold label_stored in Hl. rewrite Hp in Hl.
  destruct (intern_stored symbol_message b l p x HL Hp Hl) as (id & L1 & E & HL1 & Hx1 & Hid).
  destruct (IH (set_labels L1 b)) with (ids0 := ids0 ++ [id]) as (L & ids & E2 & HL2 & Hx2 & Hids).
  { intros l' Hl'. apply Hknown. by right. }
  { done. }
  exists L, (id :: ids). cbn [fold_try restore_label]. rewrite E, E2, <-app_assoc. simpl in Hx2.
  split_and!; [done|done|by etrans|]. constructor; [by eapply labelled_mono|done].
Qed.

Definition spec_for (L : LabelStoreBuilder) (x : StateId * Transition) (sp : TransitionSpec) : Prop :=
  spec_from sp = x.1 ∧ spec_to sp = target x.2 ∧ spec_modality sp = Sharp ∧
  Forall2 (labelled L) (t_labels x.2) (spec_labels sp).

Lemma spec_for_mono L L' x sp : lb_entries L `prefix_of` lb_entries L' → spec_for L x sp → spec_for L' x sp.
Proof using Type.
  intros Hx (? & ? & ? & H1). split_and!; [done..|]. eapply Forall2_impl; [done|]. intros. by eapply labelled_mono.
Qed.

Lemma state_get_index s message : s < n → state_get (states c) (as_u32 s) message = Ok s.
Proof using All.
  intros Hlt. unfold state_get, states. rewrite as_u32_small, Nat2Z.id by lia. by rewrite lookup_seq_lt.
Qed.

Context (Hknown : ∀ s t l, t ∈ outgoing c s → l ∈ t_labels t → is_Some (label_payload c l)).

Lemma restore_edges es xs b :
  Forall2 (λ x e, transition_stored c st x.1 x.2 e) es xs → (∀ x, x ∈ es → x.2 ∈ outgoing c x.1) →
  store_within (cb_labels b) →
  ∃ L specs, fold_try (restore_transition table (states c)) b xs
      = Some (Ok (set_transitions (cb_transitions b ++ specs) (set_labels L b))) ∧
    store_within L ∧ lb_entries (cb_labels b) `prefix_of` lb_entries L ∧ Forall2 (spec_for L) es specs.
Proof using All.
  intros Hes. revert b. induction Hes as [|[s t] e es xs (Hf & Ht & Hl) _ IH]; intros b Hin HL.
  { exists (cb_labels b), []. rewrite app_nil_r. split_and!; [by destruct b|done|done|constructor]. }
  simpl in Hf, Ht, Hl. assert (Hout : t ∈ outgoing c s) by (apply (Hin (s, t)); by left).
  destruct (restore_labels (t_labels t) (te_labels e) b Hl) with (ids0 := @nil LabelId)
    as (L1 & ids & E1 & HL1 & Hx1 & Hids); [by intros; eapply Hknown|done|].
  destruct (IH (transition_ids s ids (target t) (set_labels L1 b))) as (L & specs & E2 & HL2 & Hx2 & Hsp).
  { intros x Hx. apply Hin. by right. }
  { done. }
  exists L, ({| spec_from := s; spec_to := target t; spec_labels := ids; spec_modality := Sharp |} :: specs).
  cbn [fold_try]. unfold restore_transition at 1. rewrite Hf, Ht.
  rewrite state_get_index by (by eapply outgoing_in_range).
  rewrite state_get_index by (by eapply (ok_target c Hc)). rewrite E1. simpl in Hx2 |- *.
  split_and!; [|done|by etrans|constructor; [|done]].
  - rewrite E2. simpl. by rewrite <-app_assoc.
  - split_and!; try done. simpl. eapply Forall2_impl; [done|]. intros. by eapply labelled_mono.
Qed.

Lemma restore_classes class ls es b :
  Forall2 (class_stored c st class) ls es → store_within (cb_labels b) →
  ∃ L lc, fold_try (restore_class table) b (concat es)
      = Some (Ok (set_label_controllability lc (set_labels L b))) ∧
    store_within L ∧ lb_entries (cb_labels b) `prefix_of` lb_entries L ∧
    (∀ id, cb_label_controllability b !! id = Some (to_controllability class) → lc !! id = Some (to_controllability class)) ∧
    (∀ l id, l ∈ ls → labelled L l id → lc !! id = Some (to_controllability class)) ∧
    (∀ id x, lc !! id = Some x → cb_label_controllability b !! id = Some x ∨
       (x = to_controllability class ∧ ∃ l, l ∈ ls ∧ labelled L l id)).
Proof using All.
  intros Hes. revert b. induction Hes as [|l e ls es Hl _ IH]; intros b HL.
  { exists (cb_labels b), (cb_label_controllability b). split_and!; try done; [by destruct b| |by left].
    by intros ? ? ?%not_elem_of_nil. }
  unfold class_stored in Hl. destruct (label_payload c l) as [p|] eqn:Hp.
  - destruct Hl as (symbols & -> & Hsy).
    destruct (intern_stored class_message b l p symbols HL Hp Hsy) as (id & L1 & E & HL1 & Hx1 & Hid).
    destruct (IH (set_controllability id (to_controllability class) (set_labels L1 b)) HL1)
      as (L & lc & E2 & HL2 & Hx2 & Hold & Hnew & Hinv). simpl in Hx2, Hold, Hinv.
    exists L, lc. cbn [concat app fold_try]. unfold restore_class at 1. cbn [lc_symbols lc_class].
    rewrite E, E2. split_and!; [done|done|by etrans|..].
    + intros id' Hid'. apply Hold. destruct (decide (id' = id)) as [->|Hne]; [by rewrite lookup_insert_eq|].
      by rewrite lookup_insert_ne.
    + intros l' id' [->|Hl']%elem_of_cons Hlab; [|by eapply Hnew].
      apply Hold. rewrite (labelled_unique L l id' id HL2 Hlab); [by rewrite lookup_insert_eq|].
      by eapply labelled_mono.
    + intros id' x Hx. destruct (Hinv id' x Hx) as [Hi|(-> & l' & ? & ?)].
      * destruct (decide (id' = id)) as [->|Hne].
        -- rewrite lookup_insert_eq in Hi. injection Hi as <-. right. split; [done|]. exists l.
           split; [by left|by eapply labelled_mono].
        -- rewrite lookup_insert_ne in Hi by done. by left.
      * right. split; [done|]. exists l'. split; [by right|done].
  - subst e. destruct (IH b HL) as (L & lc & E2 & HL2 & Hx2 & Hold & Hnew & Hinv). exists L, lc.
    split_and!; try done.
    + intros l' id' [->|Hl']%elem_of_cons Hlab; [|by eapply Hnew]. destruct Hlab as (p & ? & _). congruence.
    + intros id x Hx. destruct (Hinv id x Hx) as [?|(? & l' & ? & ?)]; [by left|right]. split; [done|].
      exists l'. split; [by right|done].
Qed.

(** The builder when every class is restored. *)
Definition restored (b2 : CltsBuilder) (specs : list TransitionSpec) (L : LabelStoreBuilder)
    (lc : gmap LabelId LabelControllability) : CltsBuilder :=
  set_label_controllability lc (set_labels L (set_transitions specs b2)).

Lemma restored_builder b2 :
  states_restored n b2 → cb_state_names b2 = state_names c →
  ∃ specs L lc, fold_try (restore_transition table (states c)) b2 (bs_transitions snap) ≫= (λ r,
      match r with Ok b3 => fold_try (restore_class table) b3 (bs_label_classes snap) | Err e => Some (Err e) end)
      = Some (Ok (restored b2 specs L lc)) ∧
    store_within L ∧ Forall2 (spec_for L) (edges_of (outgoing c) (states c)) specs ∧
    (∀ l id, labelled L l id → lc !! id = Some LC_Uncontrollable ↔ l ∈ uncontrollable_alphabet c).
Proof using All.
  intros Hb2 Hn2. assert (HL0 : store_within (cb_labels b2)).
  { rewrite (rs_labels _ _ Hb2). split; [apply label_builder_ok_default|]. intros e He. by apply not_elem_of_nil in He. }
  destruct (restore_edges (edges_of (outgoing c) (states c)) (concat rows) b2) as (L3 & specs & E3 & HL3 & Hx3 & Hsp).
  { apply (Forall2_edges (transition_stored c st)), Hst. }
  { intros x Hx. by destruct (elem_of_edges _ _ _ Hx). }
  { done. }
  set (b3 := set_transitions _ _) in E3.
  destruct (restore_classes SL_Controllable _ con b3 (st_con _ _ _ _ _ _ _ Hst) HL3) as (L4 & lc4 & E4 & HL4 & Hx4 & _ & _ & Hinv4).
  set (b4 := set_label_controllability _ _) in E4.
  destruct (restore_classes SL_Internal _ int b4 (st_int _ _ _ _ _ _ _ Hst) HL4) as (L5 & lc5 & E5 & HL5 & Hx5 & _ & _ & Hinv5).
  set (b5 := set_label_controllability _ _) in E5.
  destruct (restore_classes SL_Uncontrollable _ unc b5 (st_unc _ _ _ _ _ _ _ Hst) HL5) as (L6 & lc6 & E6 & HL6 & Hx6 & _ & Hnew6 & Hinv6).
  exists specs, L6, lc6. rewrite (st_transitions _ _ _ _ _ _ _ Hst), (st_classes _ _ _ _ _ _ _ Hst), E3. simpl.
  rewrite fold_try_app, E4. cbv beta iota. rewrite fold_try_app, E5. cbv beta iota. rewrite E6. split_and!.
  - unfold restored, b5, b4, b3. simpl. by rewrite (rs_transitions _ _ Hb2).
  - done.
  - simpl in Hx4, Hx5, Hx6. eapply Forall2_impl; [exact Hsp|]. intros x sp. apply spec_for_mono. by do 2 etrans.
  - intros l id Hlab. split.
    + intros Hid. assert (Hl : ∃ l', l' ∈ visit (uncontrollable_alphabet c) ∧ labelled L6 l' id).
      { destruct (Hinv6 id _ Hid) as [H5|(_ & ?)]; [exfalso|done].
        destruct (Hinv5 id _ H5) as [H4|[? _]]; [|done].
        destruct (Hinv4 id _ H4) as [H3|[? _]]; [|done]. simpl in H3.
        rewrite (rs_controllability _ _ Hb2) in H3. done. }
      destruct Hl as (l' & Hl' & p' & Hp' & Hi'). destruct Hlab as (p & Hp & Hi).
      assert (l' = l) as -> by (apply (so_payload_inj c Hs _ _ p); congruence).
      rewrite visit_elements in Hl'. by apply elem_of_elements in Hl'.
    + intros Hl. apply (Hnew6 l id); [|done]. by rewrite visit_elements, elem_of_elements.
Qed.

Lemma restored_ok b2 specs L lc :
  states_restored n b2 → cb_state_names b2 = state_names c → store_within L →
  Forall2 (spec_for L) (edges_of (outgoing c) (states c)) specs → builder_ok (restored b2 specs L lc).
Proof using Hc.
  intros Hb2 Hn2 [HL _] Hsp. pose proof (rs_ok _ _ Hb2) as []. constructor; try done.
  intros t Ht. apply list_elem_of_lookup in Ht as [i Hi]. destruct (Forall2_lookup_r _ _ _ _ _ Hsp Hi) as (x & Hx & Hf & Hto & _).
  apply list_elem_of_lookup_2, elem_of_edges in Hx as [_ Hx]. simpl. rewrite Hf, Hto, Hn2. split.
  - by eapply outgoing_in_range.
  - by eapply (ok_target c Hc).
Qed.

Lemma row_out_of_range s : ¬ s < n → outgoing c s = [].
Proof using Hc.
  intros Hlt. destruct (outgoing c s) as [|t ts] eqn:E; [done|]. exfalso. apply Hlt.
  apply (outgoing_in_range c s t Hc). rewrite E. by left.
Qed.

Lemma into_clts_spec : ∃ c', into_clts snap = Some (Ok c') ∧ same_system c c'.
Proof using All.
  destruct declare_states as (b1 & E1 & Hb1 & Hn1). destruct (fill_states b1 Hb1 Hn1) as (b2 & E2 & Hb2 & Hn2).
  destruct (restored_builder b2 Hb2 Hn2) as (specs & L & lc & E3 & HL & Hsp & Hunc).
  set (b := restored b2 specs L lc) in *. pose proof (restored_ok b2 specs L lc Hb2 Hn2 HL Hsp) as Hok. fold b in Hok.
  destruct (build_rows b Hok (rs_overflow _ _ Hb2)) as (c' & u & cn & it & Hb & Hn' & _ & _ & Hout & _ & Halpha & Hu & _).
  exists c'. split.
  { unfold into_clts. fold table. rewrite E1, E2. destruct (fold_try _ b2 _) as [[b3|e]|]; simpl in E3; [|done..].
    by rewrite E3, Hb. }
  pose proof (build_copied b c' Hb) as Hcp. pose proof (build_states_ok b c' Hok Hb) as Hs'.
  assert (Hcnt : state_count c' = n) by (rewrite Hn'; unfold n, state_count; simpl; by rewrite Hn2).
  constructor.
  - by eapply build_ok.
  - done.
  - by rewrite (bc_names _ _ Hcp).
  - rewrite (bc_initial _ _ Hcp). apply set_eq. intros s. simpl. rewrite (rs_initial _ _ Hb2). split; [by intros [_ ?]|].
    intros Hini. split; [by apply (so_initial c Hs)|done].
  - intros s Hlt. destruct (rs_variables _ _ Hb2 s) as (id & Hid & Hset); [by rewrite Hn2|].
    rewrite (proj2 (Nat.ltb_lt s n)) in Hset by done.
    by destruct (build_variables b c' s id _ "" Hok Hb Hid Hset) as [-> _].
  - intros s. rewrite Hout, Hcnt. case_decide as Hlt; [|by rewrite (row_out_of_range s)].
    apply Forall2_fmap_r. change (cb_transitions b) with specs.
    assert (Hrow : Forall2 (spec_for L) (map (pair s) (outgoing c s)) (List.filter (λ t, spec_from t =? s) specs)).
    { rewrite <-(edges_from (outgoing c) s (states c)) by (apply NoDup_seq || (apply elem_of_seq; lia)).
      eapply Forall2_filter_bool; [|exact Hsp]. by intros x sp (-> & _). }
    apply (Forall2_fmap_l (pair s)) in Hrow. eapply Forall2_impl_in; [exact Hrow|]. intros t sp Ht Hin (_ & Hto & Hm & Hls).
    split_and!; [done|done|]. simpl. eapply Forall2_impl_in; [exact Hls|]. intros l id Hl Hid Hlab. split.
    + destruct Hlab as (p & Hp & Hi). exists p. split; [done|]. unfold label_payload. by rewrite (bc_labels _ _ Hcp).
    + unfold is_uncontrollable_label. apply bool_decide_ext. rewrite <-(Hunc l id Hlab), Hu.
      destruct (build_alphabets b) as [[u' cn'] it'] eqn:Ea. injection Halpha as <- <- <-.
      destruct (classify_spec _ _ _ _ _ _ _ _ Ea id) as [-> _]. unfold labelled_as. simpl.
      split.
      * intros [?%not_elem_of_empty|[_ Hc']]; [done|]. by destruct (lc !! id) as [[]|].
      * intros ->. right. split; [|done]. apply elem_of_elements, elem_of_all_labels. left.
        exists sp. split; [|done]. simpl. apply list_elem_of_In, filter_In in Hin as [Hin _]. by apply list_elem_of_In.
  - rewrite (bc_predicates _ _ Hcp). split; [apply Hb2|]. intros s. unfold state_valuation.
    rewrite (bc_valuations _ _ Hcp). simpl. destruct (cb_state_valuations b2 !! s) as [v|] eqn:E; [|done].
    by apply (Forall_lookup_1 _ _ _ _ (rs_valuations _ _ Hb2) E).
Qed.
End restore.

