(* ===== verification/Segments.v ===== *)
(** The segment index of a snapshot and the prefetching of one state.

    [segment_index_rows] computes the index from the rows of the system,
    [read_row] reads the row of a state back from the bytes of the file. *)
From coqutil Require Import Word.LittleEndianList.
From S2P Require Import Prelude Clts Binary Persistence Snapshot.

(** ** Sizes and segments *)

Lemma len_app {A} (l k : list A) : (lenZ (l ++ k) = lenZ l + lenZ k)%Z.
Proof. unfold lenZ. rewrite length_app. lia. Qed.

Lemma sum_Z_app l k : (sum_Z (l ++ k) = sum_Z l + sum_Z k)%Z.
Proof. induction l as [|x l IH]; simpl; [done|]. rewrite IH. lia. Qed.

Lemma len_concat_map {A B} (w : A → list B) size l :
  (∀ x, lenZ (w x) = size x) → lenZ (concat (map w l)) = sum_Z (map size l).
Proof. intros Hw. induction l as [|x l IH]; [done|]. cbn [map concat sum_Z foldr]. rewrite len_app, Hw. by rewrite IH. Qed.

Lemma len_u32 v : lenZ (write_u32 v) = 4%Z.
Proof. unfold lenZ, write_u32. by rewrite length_le_split. Qed.

Lemma len_counted {A} (w : A → list byte) size l :
  (∀ x, lenZ (w x) = size x) → (lenZ (write_counted w l) = 4 + sum_Z (map size l))%Z.
Proof. intros Hw. unfold write_counted. by rewrite len_app, len_u32, (len_concat_map w size). Qed.

Lemma sum_const {A} (l : list A) k : (sum_Z (map (λ _, k) l) = lenZ l * k)%Z.
Proof.
  induction l as [|x l IH]; [done|].
  assert (sum_Z (map (λ _ : A, k) (x :: l)) = k + sum_Z (map (λ _, k) l))%Z as -> by done.
  rewrite IH. unfold lenZ. simpl. lia.
Qed.

Lemma len_counted_u32 l : (lenZ (write_counted write_u32 l) = 4 + lenZ l * 4)%Z.
Proof. rewrite (len_counted _ (λ _, 4%Z)) by apply len_u32. by rewrite sum_const. Qed.

Lemma len_transition (e : TransitionEntry) : lenZ (serialize e) = transition_size e.
Proof.
  unfold serialize, serialize_transition, transition_size. rewrite !len_app, !len_u32.
  rewrite (len_counted _ _ _ len_counted_u32). lia.
Qed.

Lemma len_state (e : StateEntry) : (lenZ (serialize e) = 4 + 1 + 4 + lenZ (se_variables e) * 4)%Z.
Proof.
  unfold serialize, serialize_state. rewrite !len_app, len_u32, len_counted_u32. unfold write_bool, write_u8, lenZ at 1.
  rewrite length_le_split. lia.
Qed.

(** The file up to the first transition, and the rest. *)
Definition header_bytes (snap : BinarySnapshot) : list byte :=
  MAGIC ++ write_u32 VERSION ++ write_counted write_string (bs_string_table snap) ++
  write_counted serialize (bs_states snap).
Definition body_bytes (es : list TransitionEntry) : list byte := concat (map serialize es).

Lemma write_to_layout snap :
  write_to snap = (header_bytes snap ++ write_u32 (as_u32 (length (bs_transitions snap)))) ++
    body_bytes (bs_transitions snap) ++ write_counted write_class (bs_label_classes snap).
Proof. unfold write_to, header_bytes, write_counted at 3. by rewrite <-!app_assoc. Qed.

Lemma len_header snap :
  lenZ (header_bytes snap ++ write_u32 (as_u32 (length (bs_transitions snap)))) = prefix_size snap.
Proof.
  unfold header_bytes, prefix_size. rewrite !len_app, !len_u32.
  rewrite (len_counted _ (λ s, 4 + lenZ (as_bytes s))%Z) by (intros; unfold write_string; by rewrite len_app, len_u32).
  rewrite (len_counted _ _ _ len_state). lia.
Qed.

Definition rows_size (es : list TransitionEntry) : Z := sum_Z (map transition_size es).

Lemma len_body es : lenZ (body_bytes es) = rows_size es.
Proof. apply len_concat_map, len_transition. Qed.

(** The segments of consecutive rows of transitions; a row without transitions
    has none. *)
Fixpoint segments_of (offset : Z) (rows : list (Z * list TransitionEntry)) : list TransitionSegmentInfo :=
  match rows with
  | [] => []
  | (from, es) :: rest =>
    (if null es then []
     else [{| seg_from_state := from; seg_offset := offset; seg_len_bytes := rows_size es;
              seg_transitions := lenZ es |}]) ++ segments_of (offset + rows_size es) rest
  end.

Definition row_ok (row : Z * list TransitionEntry) : Prop := Forall (λ e, te_from_idx e = row.1) row.2.

Lemma segment_step_same g e :
  sg_from g = Some (te_from_idx e) →
  segment_step g e = {| sg_segments := sg_segments g; sg_offset := (sg_offset g + transition_size e)%Z;
    sg_from := sg_from g; sg_current_offset := sg_current_offset g;
    sg_len := (sg_len g + transition_size e)%Z; sg_count := (sg_count g + 1)%Z |}.
Proof. intros Hg. unfold segment_step. by rewrite decide_True. Qed.

Lemma segment_step_new g e :
  sg_from g ≠ Some (te_from_idx e) →
  segment_step g e = {| sg_segments := close_segment g; sg_offset := (sg_offset g + transition_size e)%Z;
    sg_from := Some (te_from_idx e); sg_current_offset := sg_offset g;
    sg_len := (0 + transition_size e)%Z; sg_count := (0 + 1)%Z |}.
Proof. intros Hg. unfold segment_step. by rewrite decide_False. Qed.

Lemma segment_same from es g :
  sg_from g = Some from → Forall (λ e, te_from_idx e = from) es →
  foldl segment_step g es = {| sg_segments := sg_segments g; sg_offset := (sg_offset g + rows_size es)%Z;
    sg_from := Some from; sg_current_offset := sg_current_offset g;
    sg_len := (sg_len g + rows_size es)%Z; sg_count := (sg_count g + lenZ es)%Z |}.
Proof.
  intros Hg Hes. revert g Hg. induction Hes as [|e es He _ IH]; intros g Hg; simpl.
  - destruct g; simpl in *. subst. unfold rows_size, lenZ. simpl. f_equal; lia.
  - rewrite segment_step_same by (by rewrite He). rewrite IH by done. simpl. unfold rows_size, lenZ. simpl. f_equal; lia.
Qed.

Lemma segment_rows rows : ∀ g,
  NoDup (map fst rows) → (∀ row, row ∈ rows → sg_from g ≠ Some row.1) → Forall row_ok rows →
  close_segment (foldl segment_step g (concat (map snd rows))) = close_segment g ++ segments_of (sg_offset g) rows.
Proof.
  induction rows as [|[from es] rows IH]; intros g Hnd Hg Hok; [by rewrite app_nil_r|].
  inversion Hnd as [|? ? Hn Hnd']. inversion Hok as [|? ? He Hok']. subst. unfold row_ok in He. simpl in He, Hn.
  cbn [map snd concat segments_of]. destruct es as [|e es].
  { simpl. rewrite IH; [|done|by intros row Hrow; apply Hg; right|done].
    f_equal. f_equal. unfold rows_size. simpl. lia. }
  inversion He as [|? ? He1 He']; subst. rewrite foldl_app. cbn [foldl null].
  assert (Hfresh : sg_from g ≠ Some (te_from_idx e)) by (apply (Hg (te_from_idx e, e :: es)); by left).
  rewrite segment_step_new, (segment_same (te_from_idx e) es) by done. rewrite IH; [|done| |done].
  - unfold close_segment at 1, rows_size, lenZ. simpl.
    rewrite <-app_assoc. simpl. f_equal. f_equal; [f_equal; lia|f_equal; lia].
  - simpl. intros row Hrow [= Heq]. apply Hn. rewrite Heq. apply list_elem_of_fmap. by exists row.
Qed.

Lemma find_segment_row pre from es post : ∀ offset,
  NoDup (map fst (pre ++ (from, es) :: post)) → es ≠ [] →
  find_segment (segments_of offset (pre ++ (from, es) :: post)) from =
    Some {| seg_from_state := from; seg_offset := (offset + rows_size (concat (map snd pre)))%Z;
            seg_len_bytes := rows_size es; seg_transitions := lenZ es |}.
Proof.
  unfold find_segment. induction pre as [|[from' es'] pre IH]; intros offset Hnd Hes.
  - destruct es as [|e es]; [done|]. simpl. rewrite Z.eqb_refl. simpl. do 2 f_equal. unfold rows_size. simpl. lia.
  - cbn [app map fst] in Hnd. inversion Hnd as [|? ? Hn Hnd']; subst. simpl in Hn.
    assert (Hne : from' ≠ from).
    { intros ->. apply Hn. rewrite map_app. apply elem_of_app. right. by left. }
    cbn [app segments_of]. rewrite List.filter_app.
    replace (List.filter _ (if null es' then [] else _)) with (@nil TransitionSegmentInfo).
    + simpl. rewrite IH by done. do 2 f_equal. unfold rows_size. rewrite map_app, sum_Z_app. lia.
    + destruct (null es'); [done|]. simpl. by rewrite (proj2 (Z.eqb_neq _ _)).
Qed.

Lemma find_segment_none rows from : ∀ offset,
  (∀ es, (from, es) ∈ rows → es = []) → find_segment (segments_of offset rows) from = None.
Proof.
  unfold find_segment. induction rows as [|[from' es'] rows IH]; intros offset Hno; [done|].
  cbn [segments_of]. rewrite List.filter_app.
  replace (List.filter _ (if null es' then [] else _)) with (@nil TransitionSegmentInfo).
  - apply IH. intros es Hes. apply Hno. by right.
  - destruct es' as [|e es']; [done|]. simpl. destruct (Z.eqb_spec from' from) as [->|]; [|done].
    specialize (Hno (e :: es')). discriminate Hno. by left.
Qed.

Lemma rows_size_nonneg es : (0 ≤ rows_size es)%Z.
Proof. rewrite <-len_body. unfold lenZ. lia. Qed.

(** Segments lie one after the other inside the transitions. *)
Lemma segments_bounds rows : ∀ offset,
  Forall (λ s, (offset ≤ seg_offset s)%Z ∧ (0 ≤ seg_len_bytes s)%Z ∧
    (seg_offset s + seg_len_bytes s ≤ offset + rows_size (concat (map snd rows)))%Z ∧
    (0 < seg_transitions s ≤ lenZ (concat (map snd rows)))%Z ∧ seg_from_state s ∈ map fst rows) (segments_of offset rows).
Proof.
  induction rows as [|[from es] rows IH]; intros offset; [constructor|]. cbn [map snd concat segments_of].
  assert (Hsize : rows_size (es ++ concat (map snd rows)) = (rows_size es + rows_size (concat (map snd rows)))%Z)
    by (unfold rows_size; by rewrite map_app, sum_Z_app).
  pose proof (rows_size_nonneg es). pose proof (rows_size_nonneg (concat (map snd rows))).
  rewrite Hsize, len_app. apply Forall_app. split.
  - destruct es as [|e es]; [constructor|]. simpl. constructor; [|constructor]. simpl. unfold lenZ. simpl.
    split_and!; try lia. by left.
  - eapply Forall_impl; [apply IH|]. intros s (? & ? & ? & ? & ?). unfold lenZ in *.
    split_and!; try lia. by right.
Qed.

Lemma length_segments rows : ∀ offset, length (segments_of offset rows) ≤ length rows.
Proof.
  induction rows as [|[from es] rows IH]; intros offset; simpl; [done|]. rewrite length_app.
  specialize (IH (offset + rows_size es)%Z). destruct (null es); simpl; lia.
Qed.

(** What the formats can hold: counts below 2^32, UTF-8 strings. *)
Definition short {A} (l : list A) : Prop := (Z.of_nat (length l) < 2 ^ 32)%Z.
Record snapshot_fits (snap : BinarySnapshot) : Prop := {
  fit_strings : counted_ok string_ok (bs_string_table snap);
  fit_states : counted_ok (λ e, short (se_variables e)) (bs_states snap);
  fit_transitions : counted_ok (λ e, counted_ok short (te_labels e)) (bs_transitions snap);
  fit_classes : counted_ok (λ e, short (lc_symbols e)) (bs_label_classes snap)
}.

Lemma interned_u32 entries vs ix : Forall2 (interned entries) vs ix → Forall u32_ok ix.
Proof. induction 1 as [|v i vs ix (k & -> & _) _ IH]; constructor; [apply as_u32_ok|done]. Qed.

Section segments.
Context `{IdStorage} `{HashOrder} (c : Clts) (Hc : clts_ok c).
Let n := state_count c.
Context (snap : BinarySnapshot) (st : StringIntern) (rows : list (list TransitionEntry)).
Context (con int unc : list (list LabelClassEntry)) (Hst : stores c snap st rows con int unc).
Context (Hfits : snapshot_fits snap).

Lemma stored_fits_count : (Z.of_nat n < 2 ^ 32)%Z.
Proof using Hst Hfits.
  pose proof (proj2 (fit_states _ Hfits)) as Hl. by rewrite (stored_count c snap st rows con int unc Hst) in Hl.
Qed.

Lemma class_symbols_u32 class ls es :
  Forall2 (class_stored c st class) ls es → Forall (λ e, Forall u32_ok (lc_symbols e)) (concat es).
Proof using Type.
  induction 1 as [|l e ls es Hl _ IH]; [constructor|]. simpl. apply Forall_app. split; [|done].
  unfold class_stored in Hl. destruct (label_payload c l); [|by subst]. destruct Hl as (symbols & -> & Hsy).
  constructor; [|constructor]. by eapply interned_u32.
Qed.

(** The indices of a snapshot fit their fields by construction. *)
Lemma stored_ok : snapshot_ok snap.
Proof using Hst Hfits.
  destruct Hfits as [Hstr [Hs Hsl] [Ht Htl] [Hk Hkl]]. constructor; [done|split; [|done]..].
  - apply Forall_forall. intros e He. rewrite Forall_forall in Hs. split.
    + apply list_elem_of_lookup in He as [i Hi].
      destruct (stored_state c snap st rows con int unc Hst i e Hi) as (_ & name & _ & (k & -> & _) & _). apply as_u32_ok.
    + split; [|by apply Hs]. apply list_elem_of_lookup in He as [i Hi].
      destruct (stored_state c snap st rows con int unc Hst i e Hi) as (_ & name & _ & _ & _ & Hv). by eapply interned_u32.
  - rewrite Forall_forall in Ht. apply Forall_forall. intros e He. specialize (Ht e He).
    rewrite (st_transitions _ _ _ _ _ _ _ Hst) in He. apply list_elem_of_In, in_concat in He as (row & Hrow & He).
    apply list_elem_of_In, list_elem_of_lookup in Hrow as [i Hi].
    destruct (Forall2_lookup_r _ _ _ _ _ (st_rows _ _ _ _ _ _ _ Hst) Hi) as (s & _ & Hss).
    apply list_elem_of_In, list_elem_of_lookup in He as [j Hj].
    destruct (Forall2_lookup_r _ _ _ _ _ Hss Hj) as (t & _ & Hf & Hto & Hls). unfold transition_entry_ok. rewrite Hf, Hto.
    split_and!; [apply as_u32_ok..|]. destruct Ht as [Ht Htl']. split; [|done].
    rewrite Forall_forall in Ht. apply Forall_forall. intros x Hx. split; [|by apply Ht].
    apply list_elem_of_lookup in Hx as [m Hm]. destruct (Forall2_lookup_r _ _ _ _ _ Hls Hm) as (l & _ & Hl).
    by eapply interned_u32.
  - rewrite Forall_forall in Hk. assert (Hall : Forall (λ e, Forall u32_ok (lc_symbols e)) (bs_label_classes snap)).
    { rewrite (st_classes _ _ _ _ _ _ _ Hst). rewrite !Forall_app.
      split_and!; eapply class_symbols_u32; apply Hst. }
    rewrite Forall_forall in Hall. apply Forall_forall. intros e He. split; [by apply Hall|by apply Hk].
Qed.

(** The rows with the stored number of their state. *)
Definition numbered_rows : list (Z * list TransitionEntry) := zip (map as_u32 (states c)) rows.

Lemma length_rows : length rows = n.
Proof using Hst. rewrite <-(Forall2_length _ _ _ (st_rows _ _ _ _ _ _ _ Hst)). apply length_seq. Qed.

Lemma numbered_rows_fst : map fst numbered_rows = map as_u32 (states c).
Proof using Hst. apply fst_zip. rewrite length_map, length_rows. unfold states, n. by rewrite length_seq. Qed.

Lemma numbered_rows_snd : map snd numbered_rows = rows.
Proof using Hst. apply snd_zip. rewrite length_map, length_rows. unfold states, n. by rewrite length_seq. Qed.

Lemma numbered_rows_nodup : NoDup (map fst numbered_rows).
Proof using Hst Hfits.
  rewrite numbered_rows_fst. apply NoDup_fmap_2_strong, NoDup_seq. pose proof stored_fits_count.
  intros x y Hx%elem_of_seq Hy%elem_of_seq Hxy. unfold n in *. rewrite !as_u32_small in Hxy by lia. lia.
Qed.

Lemma numbered_rows_lookup i row : numbered_rows !! i = Some row →
  i < n ∧ row.1 = as_u32 i ∧ Forall2 (transition_stored c st i) (outgoing c i) row.2.
Proof using Hst.
  intros Hi. destruct row as [f es]. apply lookup_zip_Some in Hi as [Hf Hes].
  rewrite list_lookup_fmap in Hf. destruct (states c !! i) as [s|] eqn:Es; [|done]. simpl in Hf.
  pose proof (Forall2_lookup_lr _ _ _ _ _ _ (st_rows _ _ _ _ _ _ _ Hst) Es Hes) as Hrow.
  apply lookup_seq in Es as [-> ?]. injection Hf as <-. by split_and!.
Qed.

Lemma numbered_rows_ok : Forall row_ok numbered_rows.
Proof using Hst.
  apply Forall_lookup_2. intros i row (_ & Hf & Hes)%numbered_rows_lookup. unfold row_ok. rewrite Hf.
  apply Forall_lookup_2. intros j e He. by destruct (Forall2_lookup_r _ _ _ _ _ Hes He) as (t & _ & Hfrom & _).
Qed.

Lemma segment_index_rows : segment_index snap = segments_of (prefix_size snap) numbered_rows.
Proof using Hst Hfits.
  unfold segment_index. rewrite (st_transitions _ _ _ _ _ _ _ Hst), <-numbered_rows_snd at 1.
  by rewrite segment_rows by (done || apply numbered_rows_nodup || apply numbered_rows_ok).
Qed.

(** ** Prefetching a row *)

(** What a transition of the system is read back as. *)
Definition prefetched (s : StateId) (t : Transition) : PrefetchedTransition :=
  {| pt_from_state := as_u32 s; pt_to_state := as_u32 (target t);
     pt_labels := map (λ l, default [] (label_payload c l)) (t_labels t) |}.

Lemma reads_symbol v i :
  interned (si_entries st) v i → reads_as (read_symbol (bs_string_table snap)) (write_u32 i) v.
Proof using Hst Hfits.
  intros Hi. pose proof (proj2 (fit_strings _ Hfits)) as Hl. rewrite (st_table _ _ _ _ _ _ _ Hst) in Hl |- *.
  destruct (interned_get _ _ _ Hi Hl) as [Hu Hg].
  apply (reads_last _ _ _ i); [by apply codec_u32|]. by rewrite Hg.
Qed.

Lemma reads_prefetched s t e :
  transition_entry_ok e → transition_stored c st s t e →
  reads_as (read_prefetched (bs_string_table snap)) (serialize e) (prefetched s t).
Proof using Hst Hfits.
  intros (Hf & Ht & [Hls Hlen]) (Hfrom & Hto & Hlab). unfold prefetched. rewrite <-Hfrom, <-Hto.
  apply (reads_bind _ _ _ _ (te_from_idx e)); [by apply codec_u32|].
  apply (reads_bind _ _ _ _ (te_to_idx e)); [by apply codec_u32|].
  apply (reads_last _ _ _ (map (λ l, default [] (label_payload c l)) (t_labels t))); [|done].
  apply (reads_counted _ _ (λ x strs, counted_ok u32_ok x ∧ interned_all st strs x)); [| |done].
  - intros x strs [[_ Hx] Hix]. apply (reads_counted _ _ (λ i v, interned (si_entries st) v i)); [| |done].
    + intros i v. apply reads_symbol.
    + by apply Forall2_flip.
  - apply Forall2_fmap_r, Forall2_flip. eapply Forall2_impl_in; [exact Hlab|]. intros l x _ Hx Hl. split; [|done].
    rewrite Forall_forall in Hls. by apply Hls.
Qed.

Lemma reads_header :
  reads_as read_header_to_transitions (header_bytes snap) (bs_string_table snap).
Proof using Hst Hfits.
  pose proof stored_ok as [Hstr [Hsts Hlen] _ _]. apply (reads_bind _ _ _ _ tt); [by apply reads_magic|].
  apply (reads_bind _ _ _ _ VERSION); [by apply codec_u32|]. rewrite decide_True by done.
  apply (reads_bind _ _ _ _ (bs_string_table snap)); [by eapply codec_counted; [apply codec_string|]|].
  apply (reads_last _ _ _ (map se_variables (bs_states snap))); [|done].
  apply (reads_counted _ _ (λ e vs, state_entry_ok e ∧ vs = se_variables e)); [| |done].
  - intros e vs [[Hn Hv] ->]. apply (reads_bind _ _ _ _ (se_name_idx e)); [by apply codec_u32|].
    apply (reads_bind _ _ _ _ (se_initial e)); [by apply codec_bool|].
    eapply codec_counted; [apply codec_u32|done].
  - apply Forall2_fmap_r. apply Forall_Forall2_diag. eapply Forall_impl; [exact Hsts|]. by intros e He.
Qed.

Lemma read_row fs path s cache :
  fs !! path = Some (write_to snap) → read_segment_index path fs = Ok (segment_index snap) →
  s < n → outgoing c s ≠ [] → cache !! as_u32 s = None →
  prefetch_transition_segment path (as_u32 s) fs cache =
    Ok (map (prefetched s) (outgoing c s), <[as_u32 s := map (prefetched s) (outgoing c s)]> cache).
Proof using Hst Hfits.
  intros Hfile Hindex Hs Hne Hcache. unfold prefetch_transition_segment. rewrite Hcache, Hindex, segment_index_rows, Hfile.
  destruct (lookup_lt_is_Some_2 numbered_rows s) as [[f es] Hrow].
  { rewrite <-(length_map fst), numbered_rows_fst, length_map. unfold states. by rewrite length_seq. }
  destruct (numbered_rows_lookup s (f, es) Hrow) as (_ & Hf & Hes). simpl in Hf, Hes. subst f.
  rewrite <-(take_drop_middle numbered_rows s _ Hrow). set (pre := take s _). set (post := drop (S s) _).
  assert (Heq : numbered_rows = pre ++ (as_u32 s, es) :: post) by (symmetry; by apply take_drop_middle).
  assert (Hesne : es ≠ []) by (intros ->; apply Hne; by inversion Hes).
  rewrite find_segment_row by (done || (rewrite <-Heq; apply numbered_rows_nodup)). cbn [seg_transitions seg_offset].
  assert (Hlayout : write_to snap = (header_bytes snap ++ write_u32 (as_u32 (length (bs_transitions snap)))) ++
    body_bytes (concat (map snd pre)) ++ body_bytes es ++
    (body_bytes (concat (map snd post)) ++ write_counted write_class (bs_label_classes snap))).
  { rewrite write_to_layout, (st_transitions _ _ _ _ _ _ _ Hst), <-numbered_rows_snd, Heq. f_equal.
    rewrite map_app, concat_app. simpl. unfold body_bytes. by rewrite !map_app, !concat_app, <-!app_assoc. }
  destruct (reads_bind read_header_to_transitions (λ table, _ ← read_u32; mret table) (header_bytes snap)
    (write_u32 (as_u32 (length (bs_transitions snap)))) (bs_string_table snap) (bs_string_table snap)
    reads_header) as [Hhead _].
  { apply (reads_last _ _ _ (as_u32 (length (bs_transitions snap)))); [apply codec_u32, as_u32_ok|done]. }
  rewrite Hlayout at 1. rewrite Hhead.
  assert (Hdrop : drop (Z.to_nat (prefix_size snap + rows_size (concat (map snd pre)))) (write_to snap) =
    body_bytes es ++ (body_bytes (concat (map snd post)) ++ write_counted write_class (bs_label_classes snap))).
  { rewrite Hlayout, app_assoc. rewrite <-len_header, <-len_body, <-len_app. unfold lenZ. by rewrite Nat2Z.id, drop_app_length. }
  rewrite Hdrop. unfold lenZ. rewrite Nat2Z.id.
  destruct (reads_many (read_prefetched (bs_string_table snap)) serialize
    (λ e p, transition_entry_ok e ∧ ∃ t, transition_stored c st s t e ∧ p = prefetched s t)
    es (map (prefetched s) (outgoing c s))) as [Hmany _].
  { intros e p (He & t & Ht & ->). by apply reads_prefetched. }
  { apply Forall2_fmap_r, Forall2_flip. eapply Forall2_impl_in; [exact Hes|]. intros t e _ He Hte. split; [|by exists t].
    pose proof (sok_transitions _ stored_ok) as [Hall _]. rewrite Forall_forall in Hall. apply Hall.
    rewrite (st_transitions _ _ _ _ _ _ _ Hst), <-numbered_rows_snd. apply list_elem_of_In, in_concat.
    exists es. split; [|by apply list_elem_of_In]. apply list_elem_of_In, list_elem_of_fmap.
    exists (as_u32 s, es). split; [done|]. by eapply list_elem_of_lookup_2. }
  by rewrite Hmany.
Qed.
End segments.

