(* ===== verification/Storage.v ===== *)
(** Saving, loading and prefetching: the properties of [persistence/mod.rs]. *)
From coqutil Require Import Word.LittleEndianList.
From S2P Require Import Prelude Formula Trit Clts Modal Evaluator Semantics Domains Checking Verdicts Divergences Transforms Morphism Minimize Binary Persistence Snapshot Segments.

(** ** Files *)

Lemma segment_index_path_ne path : segment_index_path path ≠ path.
Proof.
  destruct path as [stem [ext|]]; unfold segment_index_path; simpl; [|done]. intros [= Heq _].
  apply (f_equal String.length) in Heq. revert Heq. clear. intros Heq.
  assert (Hlen : String.length (stem +:+ "." +:+ ext) = String.length stem + S (String.length ext)).
  { clear Heq. induction stem as [|a stem IH]; [done|]. simpl. by rewrite IH. }
  unfold String.app in *. rewrite Hlen in Heq. lia.
Qed.

Lemma update_keeps_file path snap fs bytes :
  fs !! path = Some bytes → update_segment_index path snap fs !! path = Some bytes.
Proof.
  intros H. pose proof (segment_index_path_ne path). unfold update_segment_index, remove_segment_index, write_segment_index.
  destruct (null (segment_index snap)); [by rewrite lookup_delete_ne|by rewrite lookup_insert_ne].
Qed.

(** The precondition on sizes: counts and lengths below 2^32, and a file below
    2^64 bytes. *)
Definition storable `{HashOrder} (c : Clts) : Prop :=
  ∀ snap, from_clts c = Some snap → snapshot_fits snap ∧ (lenZ (write_to snap) < 2 ^ 64)%Z.

Lemma index_readable `{IdStorage} `{HashOrder} c snap st rows con int unc path fs :
  clts_ok c → stores c snap st rows con int unc → snapshot_fits snap → (lenZ (write_to snap) < 2 ^ 64)%Z →
  read_segment_index path (update_segment_index path snap fs) =
    if null (segment_index snap) then Err (MissingSegmentIndex (display (segment_index_path path)))
    else Ok (segment_index snap).
Proof.
  intros Hc Hst Hfits Hlen. unfold read_segment_index, update_segment_index, remove_segment_index, write_segment_index.
  destruct (null (segment_index snap)) eqn:En; [by rewrite lookup_delete_eq|]. rewrite lookup_insert_eq.
  assert (Hok : counted_ok segment_ok (segment_index snap)).
  { rewrite (segment_index_rows c snap st rows con int unc Hst Hfits). set (nr := numbered_rows c rows).
    pose proof (stored_fits_count c snap st rows con int unc Hst Hfits) as Hn. split.
    - eapply Forall_impl; [apply segments_bounds|]. intros s (Ho & Hl & Hend & Hk & Hf).
      assert (Hsnd : concat (map snd nr) = bs_transitions snap)
        by (unfold nr; by rewrite (numbered_rows_snd c snap st rows con int unc Hst), (st_transitions _ _ _ _ _ _ _ Hst)).
      rewrite Hsnd in Hend, Hk. rewrite <-len_header, <-len_body, <-len_app in Hend.
      rewrite write_to_layout, app_assoc, len_app in Hlen.
      pose proof (proj2 (fit_transitions _ Hfits)) as Hts. rewrite <-len_header in Ho. unfold lenZ, u64_ok, u32_ok in *.
      split_and!; try (unfold u64_ok, u32_ok; lia).
      unfold nr in Hf. rewrite (numbered_rows_fst c snap st rows con int unc Hst) in Hf.
      apply list_elem_of_fmap in Hf as (s' & -> & _). apply as_u32_ok.
    - pose proof (length_segments nr (prefix_size snap)) as Hseg. unfold nr in Hseg at 2.
      unfold numbered_rows in Hseg. rewrite length_zip_with, length_map in Hseg.
      unfold states in Hseg. rewrite length_seq in Hseg. lia. }
  destruct (codec_index _ Hok) as [Hread _]. specialize (Hread []). rewrite app_nil_r in Hread. by rewrite Hread.
Qed.

Lemma segments_null rows : ∀ offset, null (segments_of offset rows) = forallb (λ row, null row.2) rows.
Proof.
  induction rows as [|[from es] rows IH]; intros offset; [done|]. simpl. destruct es; simpl; [apply IH|done].
Qed.

(** The index is empty when the system has no transition. *)
Lemma index_null `{HashOrder} c snap st rows con int unc :
  stores c snap st rows con int unc → snapshot_fits snap →
  null (segment_index snap) = negb (existsb (λ s, negb (null (outgoing c s))) (states c)).
Proof.
  intros Hst Hfits. rewrite (segment_index_rows c snap st rows con int unc Hst Hfits), segments_null.
  apply bool_eq_iff. rewrite negb_true_iff, <-not_true_iff_false, forallb_spec, existsb_spec. split.
  - intros Hall (s & Hs & Hne). apply elem_of_seq in Hs.
    destruct (lookup_lt_is_Some_2 (numbered_rows c rows) s) as [row Hrow].
    { rewrite <-(length_map fst), (numbered_rows_fst c snap st rows con int unc Hst), length_map.
      unfold states. rewrite length_seq. lia. }
    destruct (numbered_rows_lookup c snap st rows con int unc Hst s row Hrow) as (_ & _ & Hes).
    specialize (Hall row (list_elem_of_lookup_2 _ _ _ Hrow)). by destruct Hes.
  - intros Hno row [i Hi]%list_elem_of_lookup.
    destruct (numbered_rows_lookup c snap st rows con int unc Hst i row Hi) as (Hlt & _ & Hes).
    destruct row as [f es]. simpl in *. destruct es as [|e es]; [done|]. exfalso. apply Hno.
    exists i. split; [apply elem_of_seq; lia|]. by inversion Hes.
Qed.

(** ** A loaded system satisfies the same formulas *)

Section loaded.
Context (c c' : Clts) (Hc : clts_ok c) (Hs : states_ok c) (Hss : same_system c c').
Let n := state_count c.

Lemma loaded_count : state_count c' = n.
Proof using Hss. unfold state_count, n. by rewrite (ss_names _ _ Hss). Qed.

Lemma loaded_same_labels t t' : same_transition c c' t t' → same_labels c t c' t'.
Proof using Hs Hss.
  intros (_ & _ & Hls) w. pose proof (ss_states _ _ Hss) as Hs'.
  split; intros (l & [i Hi]%list_elem_of_lookup & Hw).
  - destruct (Forall2_lookup_l _ _ _ _ _ Hls Hi) as (l' & Hi' & (p & Hp & Hp') & _). exists l'.
    split; [by eapply list_elem_of_lookup_2|]. apply (so_labels c' Hs'). rewrite Hp'.
    apply (so_labels c Hs) in Hw. by rewrite Hp in Hw.
  - destruct (Forall2_lookup_r _ _ _ _ _ Hls Hi) as (l' & Hi' & (p & Hp & Hp') & _). exists l'.
    split; [by eapply list_elem_of_lookup_2|]. apply (so_labels c Hs). rewrite Hp.
    apply (so_labels c' Hs') in Hw. by rewrite Hp' in Hw.
Qed.

Lemma loaded_morphism : morphism c c' id.
Proof using Hs Hss.
  constructor; unfold id.
  - intros s. by rewrite loaded_count.
  - intros k. rewrite loaded_count. eauto.
  - intros s v Hlt. apply bool_eq_iff. rewrite (so_variables c Hs), (so_variables c' (ss_states _ _ Hss))
      by (rewrite ?loaded_count; done). by rewrite (ss_variables _ _ Hss).
  - intros s t [i Hi]%list_elem_of_lookup. destruct (Forall2_lookup_l _ _ _ _ _ (ss_rows _ _ Hss s) Hi) as (t' & Hi' & Ht).
    exists t'. split; [by eapply list_elem_of_lookup_2|]. split; [apply Ht|by apply loaded_same_labels].
  - intros s t' _ [i Hi]%list_elem_of_lookup. destruct (Forall2_lookup_r _ _ _ _ _ (ss_rows _ _ Hss s) Hi) as (t & Hi' & Ht).
    exists t. split; [by eapply list_elem_of_lookup_2|]. split; [apply Ht|by apply loaded_same_labels].
Qed.

Lemma loaded_plain : plain c'.
Proof using Hss.
  intros s t' hyper [i Hi]%list_elem_of_lookup Hm.
  destruct (Forall2_lookup_r _ _ _ _ _ (ss_rows _ _ Hss s) Hi) as (t & _ & _ & Hsharp & _). congruence.
Qed.

Lemma loaded_label_key t t' : same_transition c c' t t' → label_key c' t' = label_key c t.
Proof using Type.
  intros (_ & _ & Hls). unfold label_key, transition_label_set. do 3 f_equal.
  induction Hls as [|l l' ls ls' [(p & Hp & Hp') _] _ IH]; [done|]. simpl. by rewrite Hp, Hp', IH.
Qed.

Lemma loaded_labels_perm ls1 ls1' ls2 ls2' :
  Forall2 (same_label c c') ls1 ls1' → Forall2 (same_label c c') ls2 ls2' → ls1 ≡ₚ ls2 → ls1' ≡ₚ ls2'.
Proof using Hss.
  intros H1 H2 Hp. assert (Hfun : ∀ l l1 l2, same_label c c' l l1 → same_label c c' l l2 → l1 = l2).
  { intros l l1 l2 [(p & Hp1 & Hp1') _] [(p2 & Hp2 & Hp2') _].
    apply (so_payload_inj c' (ss_states _ _ Hss) _ _ p); congruence. }
  destruct (Permutation_Forall2 Hp H1) as (k & Hk & H3). rewrite Hk.
  assert (k = ls2') as ->; [|done]. clear -H2 H3 Hfun. revert k H3. induction H2 as [|l l' ls ls' Hl _ IH]; intros k H3.
  - by inversion H3.
  - inversion H3 as [|? l2 ? k2 Hl2 H4]; subst. rewrite (Hfun l l2 l') by done. f_equal. by apply IH.
Qed.

Lemma loaded_keys_faithful : keys_faithful c → keys_faithful c'.
Proof using Hss.
  intros Hk s t1' t2' [i Hi]%list_elem_of_lookup [j Hj]%list_elem_of_lookup Hkey.
  destruct (Forall2_lookup_r _ _ _ _ _ (ss_rows _ _ Hss s) Hi) as (t1 & Hi1 & H1).
  destruct (Forall2_lookup_r _ _ _ _ _ (ss_rows _ _ Hss s) Hj) as (t2 & Hj2 & H2).
  rewrite (loaded_label_key t1 t1' H1), (loaded_label_key t2 t2' H2) in Hkey.
  apply (Hk s) in Hkey; [|by eapply list_elem_of_lookup_2..]. apply label_set_perm in Hkey.
  unfold label_set. apply (StronglySorted_unique (≤)); [apply (StronglySorted_merge_sort (≤))..|].
  rewrite !merge_sort_Permutation. by eapply loaded_labels_perm; [apply H1|apply H2|].
Qed.

Lemma loaded_oob_free e o : oob_free (mk_ctx c' e o).
Proof using Hss.
  intros i. unfold oob_bits, compute_oob_bits. simpl. unfold bit, bv_tabulate.
  rewrite list_lookup_fmap. destruct (seq 0 (state_count c') !! i); [|done]. simpl.
  by rewrite (proj2 (ss_sharp _ _ Hss)).
Qed.
End loaded.

(** ** Saving and loading *)

(** Every label of a transition is in the label store. *)
Definition labels_known (c : Clts) : Prop :=
  ∀ s t l, t ∈ outgoing c s → l ∈ t_labels t → is_Some (label_payload c l).

Lemma save_load_lemma `{IdStorage} `{HashOrder} (c : Clts) (path : Path) (fs : gmap Path (list byte)) :
  clts_ok c → states_ok c → labels_known c → storable c →
  (N.of_nat (state_count c) <= id_max + 1)%N → (N.of_nat (length (u_sets (labels c))) <= id_max + 1)%N →
  ∃ fs' c', save_clts_to_path c path fs = Some fs' ∧ load_clts_from_path path fs' = Some (Ok c') ∧
    same_system c c'.
Proof.
  intros Hc Hs Hk Hstor Hn Hl. destruct (from_clts_stores c Hc) as (snap & st & rows & con & int & unc & E & Hst).
  destruct (Hstor snap E) as [Hfits _].
  pose proof (stored_ok c snap st rows con int unc Hst Hfits) as Hok.
  destruct (into_clts_spec c Hc Hs snap st rows con int unc Hst (proj2 (fit_strings _ Hfits))
    (stored_fits_count c snap st rows con int unc Hst Hfits) Hn Hl Hk) as (c' & Hinto & Hss).
  eexists _, c'. unfold save_clts_to_path. rewrite E. split; [done|]. split; [|done].
  unfold load_clts_from_path. rewrite (update_keeps_file path snap _ (write_to snap)) by apply lookup_insert_eq.
  destruct (codec_snapshot snap Hok) as [Hread _]. specialize (Hread []). rewrite app_nil_r in Hread. by rewrite Hread.
Qed.

(** * Properties *)

(** C29: the snapshot encoding round-trips.  Reading what [write_to] wrote gives
    the snapshot back and leaves the bytes that follow; every strict prefix of
    it is rejected with an unexpected end of file. *)
Theorem snapshot_round_trip (snap : BinarySnapshot) :
  snapshot_ok snap →
  (∀ rest, read_from (write_to snap ++ rest) = Ok (snap, rest)) ∧
  (∀ p q, write_to snap = p ++ q → q ≠ [] → read_from p = Err (PE_Io UnexpectedEof)).
Proof. intros Hok. apply (codec_snapshot snap Hok). Qed.

(** C25: saving a system and loading the file gives the same system, in any
    order the hash sets are visited: the same state names, initial states,
    variables and transitions, with labels of the same payload and the same
    uncontrollability.  Neither call fails or panics. *)
Theorem save_load_same `{IdStorage} `{HashOrder} (c : Clts) (path : Path) (fs : gmap Path (list byte)) :
  clts_ok c → states_ok c → labels_known c → storable c →
  (N.of_nat (state_count c) <= id_max + 1)%N → (N.of_nat (length (u_sets (labels c))) <= id_max + 1)%N →
  ∃ fs' c', save_clts_to_path c path fs = Some fs' ∧ load_clts_from_path path fs' = Some (Ok c') ∧
    same_system c c'.
Proof. apply save_load_lemma. Qed.

(** The model checker gives a loaded system the verdicts of the saved one.
    Without valuations and three-valued predicates, every verification formula
    holds at the same states before and after. *)
Theorem load_preserves_verdicts `{IdStorage} `{HashOrder} (c : Clts) path fs rounds f t e o o' :
  clts_ok c → states_ok c → labels_known c → storable c →
  (N.of_nat (state_count c) <= id_max + 1)%N → (N.of_nat (length (u_sets (labels c))) <= id_max + 1)%N →
  let x := mk_ctx c e o in
  ctx_ok x → oob_free x → plain c → keys_faithful c → state_3valued_predicates c = None →
  prior_approximants o = None → prior_approximants o' = None →
  wf_formula f → formula_tree f t → monotone t = true → modalities_good verification_guard t →
  2 * state_count c < rounds →
  ∃ fs' c', save_clts_to_path c path fs = Some fs' ∧ load_clts_from_path path fs' = Some (Ok c') ∧
    ∃ v v', evaluate_with_options rounds f c e o = Some v ∧ evaluate_with_options rounds f c' e o' = Some v' ∧
      ∀ s, s < state_count c → bit v s = bit v' s.
Proof.
  intros Hc Hs Hk Hstor Hn Hl x Hx Ho Hp Hkeys Hno Hpr Hpr' Hwf Ht Hmon Hg Hr.
  destruct (save_load_lemma c path fs Hc Hs Hk Hstor Hn Hl) as (fs' & c' & E1 & E2 & Hss).
  exists fs', c'. split; [done|]. split; [done|].
  assert (Hcount : state_count c' = state_count c) by (unfold state_count; by rewrite (ss_names _ _ Hss)).
  apply (evaluate_morphism c c' id (loaded_morphism c c' Hs Hss) Hc e e) with (t := t); try done.
  - intros p s _. unfold atom, id, state_3valued_predicate. by rewrite Hno, (proj1 (ss_sharp _ _ Hss)).
  - constructor; [apply Hss| |apply (cok_predicates x Hx)]. simpl. rewrite Hcount. apply (cok_count x Hx).
  - by apply (loaded_oob_free c).
  - by apply (loaded_plain c).
  - by apply (loaded_keys_faithful c).
  - by rewrite Hcount.
Qed.

(** After a save, prefetching a state reads exactly its transitions, with the
    payloads of their labels, and puts them in the cache.  A cached state is
    served from the cache; a state without transitions has no segment and gives
    an error, which depends on whether the system has any transition. *)
Theorem prefetch_correct `{IdStorage} `{HashOrder} (c : Clts) path fs s cache :
  clts_ok c → storable c → s < state_count c →
  ∃ fs', save_clts_to_path c path fs = Some fs' ∧
    prefetch_transition_segment path (as_u32 s) fs' cache =
      match cache !! as_u32 s with
      | Some value => Ok (value, cache)
      | None =>
        match outgoing c s with
        | [] => Err (if existsb (λ s, negb (null (outgoing c s))) (states c)
                     then InvalidSegmentIndex (not_found (as_u32 s))
                     else MissingSegmentIndex (display (segment_index_path path)))
        | ts => Ok (map (prefetched c s) ts, <[as_u32 s := map (prefetched c s) ts]> cache)
        end
      end.
Proof.
  intros Hc Hstor Hlt. destruct (from_clts_stores c Hc) as (snap & st & rows & con & int & unc & E & Hst).
  destruct (Hstor snap E) as [Hfits Hlen]. eexists. unfold save_clts_to_path. rewrite E. split; [done|].
  set (fs' := update_segment_index _ _ _).
  assert (Hfile : fs' !! path = Some (write_to snap)) by (apply update_keeps_file, lookup_insert_eq).
  pose proof (index_readable c snap st rows con int unc path (<[path := write_to snap]> fs) Hc Hst Hfits Hlen) as Hindex.
  fold fs' in Hindex. rewrite (index_null c snap st rows con int unc Hst Hfits) in Hindex.
  destruct (cache !! as_u32 s) as [value|] eqn:Ec; [unfold prefetch_transition_segment; by rewrite Ec|].
  destruct (existsb _ _) eqn:Ex; simpl in Hindex.
  - destruct (outgoing c s) as [|t ts] eqn:Eo.
    + unfold prefetch_transition_segment. rewrite Ec, Hindex, (segment_index_rows c snap st rows con int unc Hst Hfits).
      rewrite find_segment_none; [done|]. intros es [i Hi]%list_elem_of_lookup.
      destruct (numbered_rows_lookup c snap st rows con int unc Hst i _ Hi) as (Hi' & Heq & Hes). simpl in Heq, Hes.
      pose proof (stored_fits_count c snap st rows con int unc Hst Hfits).
      rewrite !as_u32_small in Heq by lia. assert (i = s) as -> by lia. rewrite Eo in Hes. by inversion Hes.
    + rewrite <-Eo. apply (read_row c snap st rows con int unc Hst Hfits); try done. by rewrite Eo.
  - assert (Ho : outgoing c s = []).
    { destruct (outgoing c s) as [|t ts] eqn:Eo; [done|]. exfalso. apply not_true_iff_false in Ex. apply Ex.
      apply existsb_spec. exists s. split; [apply elem_of_seq; lia|by rewrite Eo]. }
    rewrite Ho. unfold prefetch_transition_segment. by rewrite Ec, Hindex.
Qed.

(** The segments of a saved system stay inside its file and its fields.
    Each one starts after the state section, ends within the file, holds at
    least one transition, and belongs to a state of the system. *)
Theorem segment_index_bounds `{IdStorage} `{HashOrder} (c : Clts) :
  clts_ok c → storable c →
  ∃ snap, from_clts c = Some snap ∧
    Forall (λ s, (prefix_size snap ≤ seg_offset s)%Z ∧
      (seg_offset s + seg_len_bytes s ≤ lenZ (write_to snap) < 2 ^ 64)%Z ∧
      (0 < seg_transitions s < 2 ^ 32)%Z ∧ (0 ≤ seg_from_state s < Z.of_nat (state_count c))%Z) (segment_index snap).
Proof.
  intros Hc Hstor. destruct (from_clts_stores c Hc) as (snap & st & rows & con & int & unc & E & Hst).
  destruct (Hstor snap E) as [Hfits Hlen]. exists snap. split; [done|].
  pose proof (stored_fits_count c snap st rows con int unc Hst Hfits) as Hn.
  rewrite (segment_index_rows c snap st rows con int unc Hst Hfits).
  eapply Forall_impl; [apply segments_bounds|]. intros s (Ho & Hl & Hend & Hk & Hf).
  rewrite (numbered_rows_snd c snap st rows con int unc Hst), <-(st_transitions _ _ _ _ _ _ _ Hst) in Hend, Hk.
  rewrite (numbered_rows_fst c snap st rows con int unc Hst) in Hf.
  apply list_elem_of_fmap in Hf as (s' & Hfrom & Hs'%elem_of_seq).
  rewrite as_u32_small in Hfrom by lia. rewrite <-len_header in Ho, Hend |- *.
  rewrite write_to_layout, app_assoc, !len_app, len_body in Hlen |- *. rewrite len_app in Ho, Hend.
  pose proof (proj2 (fit_transitions _ Hfits)) as Hts. unfold lenZ in *. rewrite ?length_app. split_and!; lia.
Qed.

(** What the reader rejects: a file with another magic number, a file of a
    newer version, and also a file of version 1 without the class table, which
    version 2 added: the reader expects the table from version 1 on. *)
Theorem read_from_rejects (snap : BinarySnapshot) :
  snapshot_ok snap →
  (∀ m rest, length m = 8 → m ≠ MAGIC → read_from (m ++ rest) = Err (InvalidSnapshot "snapshot header mismatch")) ∧
  (∀ v rest, (2 < v < 2 ^ 32)%Z →
     read_from (MAGIC ++ write_u32 v ++ rest) = Err (InvalidSnapshot (unsupported "snapshot" v))) ∧
  read_from (MAGIC ++ write_u32 1 ++ write_counted write_string (bs_string_table snap) ++
             write_counted serialize (bs_states snap) ++ write_counted serialize (bs_transitions snap))
    = Err (PE_Io UnexpectedEof).
Proof.
  intros [Hstr Hsts Hts _]. split_and!.
  - intros m rest Hl Hne. unfold read_from, read_magic. pose proof (proj1 (reads_exact m) rest) as Hm. rewrite Hl in Hm.
    unfold mbind, reader_bind. change (Z.of_nat 8) with 8%Z in Hm. by rewrite Hm, decide_False.
  - intros v rest Hv. unfold read_from. pose proof (proj1 (reads_magic MAGIC (InvalidSnapshot "snapshot header mismatch") eq_refl)) as Hm.
    unfold mbind, reader_bind. rewrite Hm. pose proof (proj1 (codec_u32 v ltac:(unfold u32_ok; lia)) rest) as Hr.
    rewrite Hr. by rewrite (proj2 (Z.ltb_lt _ _)) by (unfold VERSION; lia).
  - match goal with |- read_from ?bs = _ => assert (Htr : truncated read_from (bs ++ write_counted write_class [])) end.
    { rewrite <-!app_assoc.
      apply (reads_bind _ _ _ _ tt {| bs_string_table := bs_string_table snap; bs_states := bs_states snap;
        bs_transitions := bs_transitions snap; bs_label_classes := [] |}); [by apply reads_magic|].
      apply (reads_bind _ _ _ _ 1%Z); [by apply codec_u32|].
      apply (reads_bind _ _ _ _ (bs_string_table snap)); [by eapply codec_counted; [apply codec_string|]|].
      apply (reads_bind _ _ _ _ (bs_states snap)); [by eapply codec_counted; [apply round_trip|]|].
      apply (reads_bind _ _ _ _ (bs_transitions snap)); [by eapply codec_counted; [apply round_trip|]|].
      apply (reads_last _ _ _ []); [|done]. eapply codec_counted; [apply codec_class|]. split; [constructor|done]. }
    by eapply Htr.
Qed.

(** ** Witnesses *)

#[local] Existing Instance u16_storage.
#[local] Existing Instance elements_order.

Definition countedb {A} (p : A → bool) (l : list A) : bool :=
  forallb p l && (Z.of_nat (length l) <? 2 ^ 32)%Z.
Definition string_okb (s : string) : bool :=
  utf8_valid (as_bytes s) && (Z.of_nat (length (as_bytes s)) <? 2 ^ 32)%Z.
Definition shortb {A} (l : list A) : bool := (Z.of_nat (length l) <? 2 ^ 32)%Z.
Definition snapshot_fitsb (snap : BinarySnapshot) : bool :=
  countedb string_okb (bs_string_table snap) &&
  countedb (λ e, shortb (se_variables e)) (bs_states snap) &&
  countedb (λ e, countedb shortb (te_labels e)) (bs_transitions snap) &&
  countedb (λ e, shortb (lc_symbols e)) (bs_label_classes snap).

Lemma countedb_sound {A} (p : A → bool) (P : A → Prop) l :
  (∀ x, p x = true → P x) → countedb p l = true → counted_ok P l.
Proof.
  intros Hp [Hl Hn]%andb_true_iff. split; [|by apply Z.ltb_lt]. apply Forall_forall. intros x Hx.
  rewrite forallb_spec in Hl. auto.
Qed.

Lemma snapshot_fitsb_sound snap : snapshot_fitsb snap = true → snapshot_fits snap.
Proof.
  unfold snapshot_fitsb. rewrite !andb_true_iff. intros [[[H1 H2] H3] H4].
  assert (Hshort : ∀ A (l : list A), shortb l = true → short l) by (intros; by apply Z.ltb_lt).
  constructor; eapply countedb_sound; try eassumption; cbv beta.
  - intros s [Hu Hl]%andb_true_iff. split; [done|by apply Z.ltb_lt].
  - intros e. apply Hshort.
  - intros e. apply countedb_sound, Hshort.
  - intros e. apply Hshort.
Qed.

Lemma storable_check (c : Clts) snap :
  from_clts c = Some snap → snapshot_fitsb snap = true → (lenZ (write_to snap) <? 2 ^ 64)%Z = true → storable c.
Proof.
  intros E Hf Hl snap' E'. rewrite E in E'. injection E' as <-. split; [by apply snapshot_fitsb_sound|by apply Z.ltb_lt].
Qed.

Definition labels_knownb (c : Clts) : bool :=
  all_transitions c (λ _ t, forallb (λ l, bool_decide (is_Some (label_payload c l))) (t_labels t)).

Lemma labels_knownb_sound c : clts_ok c → labels_knownb c = true → labels_known c.
Proof.
  intros Hc H s t l Ht Hl. pose proof (all_transitions_spec c _ Hc H s t Ht) as Hall. simpl in Hall.
  rewrite forallb_spec in Hall. apply Hall in Hl. by apply bool_decide_eq_true in Hl.
Qed.

Definition snapshot_of (c : Clts) : BinarySnapshot :=
  default {| bs_string_table := []; bs_states := []; bs_transitions := []; bs_label_classes := [] |} (from_clts c).
Definition demo_snapshot : BinarySnapshot := snapshot_of demo_clts.

Lemma demo_snapshot_of : from_clts demo_clts = Some demo_snapshot.
Proof. vm_compute. reflexivity. Qed.

Lemma demo_storable : storable demo_clts.
Proof. apply (storable_check demo_clts demo_snapshot demo_snapshot_of); vm_compute; reflexivity. Qed.

Lemma demo_states_ok : states_ok demo_clts.
Proof. eapply build_states_ok; [apply reachable_builder_ok, demo_reachable|apply demo_build]. Qed.

Lemma demo_labels_known : labels_known demo_clts.
Proof. apply labels_knownb_sound; [apply demo_clts_ok|vm_compute; reflexivity]. Qed.

Lemma snapshot_ok_check (c : Clts) snap :
  clts_ok c → storable c → from_clts c = Some snap → snapshot_ok snap.
Proof.
  intros Hc Hstor E. destruct (from_clts_stores c Hc) as (snap' & st & rows & con & int & unc & E' & Hst).
  rewrite E in E'. injection E' as <-. apply (stored_ok c snap st rows con int unc Hst). by apply Hstor.
Qed.

Lemma demo_snapshot_ok : snapshot_ok demo_snapshot.
Proof. apply (snapshot_ok_check demo_clts _ demo_clts_ok demo_storable demo_snapshot_of). Qed.

Definition demo_path : Path := {| p_stem := "demo"; p_ext := Some "bin" |}.

Lemma snapshot_round_trip_witness :
  lenZ (write_to demo_snapshot) = 203%Z ∧
  (∀ rest, read_from (write_to demo_snapshot ++ rest) = Ok (demo_snapshot, rest)) ∧
  (∀ p q, write_to demo_snapshot = p ++ q → q ≠ [] → read_from p = Err (PE_Io UnexpectedEof)).
Proof. split; [vm_compute; reflexivity|]. apply (snapshot_round_trip demo_snapshot), demo_snapshot_ok. Defined.

Lemma save_load_same_witness :
  state_names demo_clts = ["idle"; "busy"] ∧
  ∃ fs' c', save_clts_to_path demo_clts demo_path ∅ = Some fs' ∧
    load_clts_from_path demo_path fs' = Some (Ok c') ∧ same_system demo_clts c'.
Proof.
  split; [vm_compute; reflexivity|].
  apply (save_load_same demo_clts demo_path ∅); [apply demo_clts_ok|apply demo_states_ok|apply demo_labels_known|
    apply demo_storable|vm_compute; discriminate|vm_compute; discriminate].
Defined.

Lemma load_preserves_verdicts_witness :
  evaluate_with_options 9 (can_move ["grant"]) demo_clts (no_predicates 2) bare_options = Some [false; true] ∧
  ∃ fs' c', save_clts_to_path demo_clts demo_path ∅ = Some fs' ∧
    load_clts_from_path demo_path fs' = Some (Ok c') ∧
    ∃ v v', evaluate_with_options 9 (can_move ["grant"]) demo_clts (no_predicates 2) bare_options = Some v ∧
      evaluate_with_options 9 (can_move ["grant"]) c' (no_predicates 2) bare_options = Some v' ∧
      ∀ s, s < state_count demo_clts → bit v s = bit v' s.
Proof.
  split; [vm_compute; reflexivity|].
  apply (load_preserves_verdicts demo_clts demo_path ∅ 9 (can_move ["grant"]) (can_move_tree ["grant"])).
  - apply demo_clts_ok.
  - apply demo_states_ok.
  - apply demo_labels_known.
  - apply demo_storable.
  - vm_compute. discriminate.
  - vm_compute. discriminate.
  - apply ctx_ok_check; [apply demo_clts_ok|vm_compute; reflexivity..].
  - apply oob_free_check. vm_compute. reflexivity.
  - apply demo_plain.
  - apply demo_keys.
  - reflexivity.
  - reflexivity.
  - reflexivity.
  - by apply wf_formulab_sound.
  - apply tree_of_repr with 5. reflexivity.
  - reflexivity.
  - done.
  - by apply Nat.ltb_lt.
Defined.

Lemma prefetch_correct_witness :
  outgoing demo_clts 0 ≠ [] ∧
  ∃ fs', save_clts_to_path demo_clts demo_path ∅ = Some fs' ∧
    prefetch_transition_segment demo_path (as_u32 0) fs' ∅ =
      Ok (map (prefetched demo_clts 0) (outgoing demo_clts 0),
          <[as_u32 0 := map (prefetched demo_clts 0) (outgoing demo_clts 0)]> ∅).
Proof.
  split; [vm_compute; discriminate|].
  destruct (prefetch_correct demo_clts demo_path ∅ 0 ∅) as (fs' & E & Hp);
    [apply demo_clts_ok|apply demo_storable|by apply Nat.ltb_lt|].
  exists fs'. split; [exact E|]. rewrite Hp, lookup_empty.
  destruct (outgoing demo_clts 0) eqn:Eo; [vm_compute in Eo; discriminate|reflexivity].
Defined.

Lemma segment_index_bounds_witness :
  length (segment_index demo_snapshot) = 2 ∧
  ∃ snap, from_clts demo_clts = Some snap ∧
    Forall (λ s, (prefix_size snap ≤ seg_offset s)%Z ∧
      (seg_offset s + seg_len_bytes s ≤ lenZ (write_to snap) < 2 ^ 64)%Z ∧
      (0 < seg_transitions s < 2 ^ 32)%Z ∧
      (0 ≤ seg_from_state s < Z.of_nat (state_count demo_clts))%Z) (segment_index snap).
Proof.
  split; [vm_compute; reflexivity|]. apply (segment_index_bounds demo_clts); [apply demo_clts_ok|apply demo_storable].
Defined.

Lemma read_from_rejects_witness :
  read_from (terminated "CLTSXXX") = Err (InvalidSnapshot "snapshot header mismatch") ∧
  read_from (MAGIC ++ write_u32 3) = Err (InvalidSnapshot "unsupported snapshot version 3") ∧
  read_from (MAGIC ++ write_u32 1 ++ write_counted write_string (bs_string_table demo_snapshot) ++
             write_counted serialize (bs_states demo_snapshot) ++ write_counted serialize (bs_transitions demo_snapshot))
    = Err (PE_Io UnexpectedEof).
Proof.
  destruct (read_from_rejects demo_snapshot demo_snapshot_ok) as (H1 & H2 & H3). split_and!.
  - apply (H1 (terminated "CLTSXXX") []); [reflexivity|]. vm_compute. discriminate.
  - apply (H2 3%Z []). lia.
  - exact H3.
Defined.

(** The system read back from its own snapshot. *)
Definition reloaded (c : Clts) : Clts :=
  match into_clts (snapshot_of c) with Some (Ok c') => c' | _ => empty_clts end.
Definition declared_ops : list BuilderOp :=
  [OpLabel ["a"]; OpLabel ["u"]; OpInitial "s0"; OpTransition "s0" [0] "s0"; OpDeclare 1;
   OpControllability 1 LC_Uncontrollable].

(** What a snapshot does not keep.  A may-transition is loaded as a certain
    one, so an unknown verdict turns definite; a label that is declared and not
    used is gone from its alphabet; an out-of-bounds mark is gone, so a state
    the checker left out of every result is back. *)
Theorem snapshot_losses :
  let may := fork MayOnly MayOnly 0 0 [] in
  let declared := built (run_ops declared_ops) in
  (tri_verdict0 (can_move []) may, tri_verdict0 (can_move []) (reloaded may)) = (Some Trit_Unknown, Some Trit_True) ∧
  (elements (uncontrollable_alphabet declared), elements (uncontrollable_alphabet (reloaded declared))) = ([1], []) ∧
  (compute_oob_bits oob_clts, compute_oob_bits (reloaded oob_clts)) = ([false; false; true], [false; false; false]).
Proof. vm_compute. split_and!; reflexivity. Qed.
