(* ===== verification/Composition.v ===== *)
(** The product of two transition systems: [composition/mod.rs], with
    [composition/controllability.rs] and [composition/transition.rs].

    [compose] explores the pairs of states breadth first from the pairs of
    initial states, collects the edges of the product as [TransitionKey]s, and
    builds the product from them in a fixed order.  [pair_step] is the body of
    the inner loop: the steps a left and a right transition take together or
    apart, in each of the three semantics.

    The arenas and caches ([ProductStateArena]) share equal label vectors and
    have no other effect; a label vector is its sorted, duplicate-free list.
    Hash sets are visited in the order of a [HashOrder].  [None] is the panic
    "state identifier overflow", or an exhausted exploration bound.  Log
    messages are left out. *)
From stdpp Require Import pretty.
From S2P Require Import Prelude Trit Clts.

(** ** Labels *)

(** [ProductStateArena::transition_labels]: the symbols of a transition. *)
Definition transition_labels (c : Clts) (t : Transition) : list string :=
  canon (concat (map (λ l, default [] (label_payload c l)) (t_labels t))).

(** [union_labels]; [intersection_with_set]. *)
Definition union_labels (left right : list string) : list string := canon (left ++ right).
Definition intersection_with_set (labels : list string) (shared : gset string) : list string :=
  canon (List.filter (λ l, bool_decide (l ∈ shared)) labels).

(** [merge_state_variables] *)
Definition merge_state_variables (left : Clts) (l_state : StateId) (right : Clts) (r_state : StateId) : list string :=
  canon (canon (state_variables left l_state) ++ canon (state_variables right r_state)).

(** The merge of two sorted vectors that looks for a common element. *)
Fixpoint labels_have_intersection (left right : list string) {struct left} : bool :=
  match left with
  | [] => false
  | a :: left' =>
    (fix go (right : list string) : bool :=
       match right with
       | [] => false
       | b :: right' =>
         match String.compare a b with
         | Lt => labels_have_intersection left' right
         | Gt => go right'
         | Eq => true
         end
       end) right
  end.

(** [Clts::alphabet]; the order of the symbols is not used. *)
Definition symbols_of (c : Clts) (labels : gset LabelId) : gset string :=
  list_to_set (concat (map (λ l, default [] (label_payload c l)) (elements labels))).
Definition collect_alphabet (c : Clts) : gset string :=
  symbols_of c (controllable_alphabet c) ∪ symbols_of c (internal_alphabet c) ∪ symbols_of c (uncontrollable_alphabet c).

(** ** Controllability *)

(** [collect_label_names] *)
Definition collect_label_names (c : Clts) (alphabet : gset LabelId) : gset string := symbols_of c alphabet.

(** The rendering of a vector of names with [{:?}]. *)
Class DebugNames := { debug_names : list string → string }.

Definition validate_composition `{HashOrder} `{DebugNames} (left right : Clts) : Result () CltsError :=
  let shared_controllable :=
    collect_label_names left (controllable_alphabet left) ∩ collect_label_names right (controllable_alphabet right) in
  if negb (null (visit shared_controllable)) then
    Err (CompositionError ("controllable actions shared between automata: " +:+ debug_names (visit shared_controllable)))
  else
    let shared_internal :=
      collect_label_names left (internal_alphabet left) ∩ collect_label_names right (internal_alphabet right) in
    if negb (null (visit shared_internal)) then
      Err (CompositionError ("internal actions shared between automata: " +:+ debug_names (visit shared_internal)))
    else Ok tt.

Definition composed_has_uncontrollable_labels (lt rt : Transition) (left right : Clts) : bool :=
  is_uncontrollable left lt || is_uncontrollable right rt.

(** ** Dead compound actions and synchronisation vectors *)

Record DeadCompoundAction := { da_labels : list string; da_shared_projection : list string }.

Definition all_edges (c : Clts) : list Transition := concat (map (outgoing c) (states c)).

Definition project (shared : gset string) (c : Clts) (t : Transition) : list string :=
  canon (List.filter (λ l, bool_decide (l ∈ shared))
    (concat (map (λ l, default [] (label_payload c l)) (t_labels t)))).

(** One transition of the loop: the projections seen and the actions found. *)
Definition dead_step (shared : gset string) (this other : Clts)
    (acc : gset (list string) * list DeadCompoundAction) (t : Transition)
    : gset (list string) * list DeadCompoundAction :=
  let '(seen, found) := acc in
  let labels := transition_labels this t in
  if length labels <? 2 then acc
  else
    let proj := project shared this t in
    if null proj || bool_decide (proj ∈ map (project shared other) (all_edges other)) || bool_decide (proj ∈ seen)
    then acc
    else ({[proj]} ∪ seen, found ++ [{| da_labels := labels; da_shared_projection := proj |}]).

Definition dead_side (shared : gset string) (this other : Clts) : list DeadCompoundAction :=
  (foldl (dead_step shared this other) (∅, []) (all_edges this)).2.

Definition dead_compound_actions (left right : Clts) (shared : gset string) : list DeadCompoundAction :=
  dead_side shared left right ++ dead_side shared right left.

(** A vector is its sorted, duplicate-free list of labels. *)
Definition synchronisation_vectors (c : Clts) : gset (list string) :=
  list_to_set (List.filter (λ labels, 2 <=? length labels) (map (transition_labels c) (all_edges c))).

Definition completes_a_vector_piece (vectors : list (list string)) (union : list string) : bool :=
  existsb (λ v, forallb (λ l, bool_decide (l ∈ v)) union) vectors.

(** ** Options and product edges *)

Inductive CompositionSemantics := Synchronous | Asynchronous | Superset.

Record CompositionOptions := {
  semantics : CompositionSemantics;
  sync_vectors : list (list string);
  dead_vectors_are_errors : bool
}.
Definition CompositionOptions_new (s : CompositionSemantics) : CompositionOptions :=
  {| semantics := s; sync_vectors := []; dead_vectors_are_errors := false |}.

Record TransitionKey := {
  k_source : StateId;
  k_target : StateId;
  k_labels : list string;
  k_unc : bool;
  k_modality : TransitionModality
}.
#[export] Instance TransitionKey_eq_dec : EqDecision TransitionKey.
Proof. solve_decision. Defined.

(** The order the edges are sorted in. *)
Definition then_cmp (a b : comparison) : comparison := match a with Eq => b | _ => a end.
Fixpoint list_cmp {A} (f : A → A → comparison) (l k : list A) : comparison :=
  match l, k with
  | [], [] => Eq
  | [], _ :: _ => Lt
  | _ :: _, [] => Gt
  | x :: l', y :: k' => then_cmp (f x y) (list_cmp f l' k')
  end.
Definition bool_cmp (a b : bool) : comparison :=
  match a, b with false, true => Lt | true, false => Gt | _, _ => Eq end.
Definition modality_cmp (a b : TransitionModality) : comparison :=
  match a, b with
  | Sharp, Sharp | MayOnly, MayOnly => Eq
  | Sharp, _ => Lt
  | MayOnly, Sharp => Gt
  | MayOnly, MustHyperOnly _ => Lt
  | MustHyperOnly l, MustHyperOnly k => list_cmp Nat.compare l k
  | MustHyperOnly _, _ => Gt
  end.
Definition key_cmp (a b : TransitionKey) : comparison :=
  then_cmp (Nat.compare (k_source a) (k_source b))
  (then_cmp (Nat.compare (k_target a) (k_target b))
  (then_cmp (list_cmp String.compare (k_labels a) (k_labels b))
  (then_cmp (bool_cmp (k_unc a) (k_unc b)) (modality_cmp (k_modality a) (k_modality b))))).
Definition key_le (a b : TransitionKey) : Prop := key_cmp a b ≠ Gt.
#[export] Instance key_le_dec : RelDecision key_le.
Proof. intros a b. unfold key_le. destruct (key_cmp a b); [left|left|right]; congruence. Defined.

(** ** Product states *)

(** [state_3valued_predicate_entries] as a map. *)
Definition predicate_entries (c : Clts) (s : StateId) : gmap string Tristate :=
  match state_3valued_predicates c with
  | Some m => list_to_map (omap (λ e, if decide (e.1.1 = s) then Some (e.1.2, e.2) else None) (map_to_list m))
  | None => ∅
  end.

(** Equal verdicts are kept, different ones give [KleeneBot]. *)
Definition merge_verdicts (l r : Tristate) : option Tristate := Some (if decide (r = l) then r else KleeneBot).
Definition merge_predicates (l r : gmap string Tristate) : gmap string Tristate := union_with merge_verdicts l r.

Definition with_predicates (s : StateId) (entries : gmap string Tristate) (b : CltsBuilder) : CltsBuilder :=
  foldr (λ e, with_3valued_predicate s e.1 e.2) b (map_to_list entries).

(** The left side wins on a common key. *)
Definition merge_valuations (l r : option (gmap string string)) : gmap string string := default ∅ l ∪ default ∅ r.

Definition shown_name (c : Clts) (s : StateId) : string :=
  match state_name c s with Some name => name | None => "s" +:+ pretty s end.
Definition composed_name (left right : Clts) (l_state r_state : StateId) : string :=
  shown_name left l_state +:+ "|" +:+ shown_name right r_state.

Abbreviation StatePair := (nat * nat)%type (only parsing).

(** The exploration: the builder, the product states, the queue, the pairs
    queued so far, the pairs processed so far, and the edges. *)
Record Product := {
  p_builder : CltsBuilder;
  p_state_map : gmap StatePair StateId;
  p_queue : list StatePair;
  p_discovered : gset StatePair;
  p_visited : gset StatePair;
  p_pending : list TransitionKey
}.

Definition Product_start : Product :=
  {| p_builder := CltsBuilder_default; p_state_map := ∅; p_queue := []; p_discovered := ∅;
     p_visited := ∅; p_pending := [] |}.

Definition set_states (b : CltsBuilder) (m : gmap StatePair StateId) (p : Product) : Product :=
  {| p_builder := b; p_state_map := m; p_queue := p_queue p; p_discovered := p_discovered p;
     p_visited := p_visited p; p_pending := p_pending p |}.
Definition discover (x : StatePair) (p : Product) : Product :=
  {| p_builder := p_builder p; p_state_map := p_state_map p; p_queue := p_queue p ++ [x];
     p_discovered := {[x]} ∪ p_discovered p; p_visited := p_visited p; p_pending := p_pending p |}.
Definition set_queue (q : list StatePair) (p : Product) : Product :=
  {| p_builder := p_builder p; p_state_map := p_state_map p; p_queue := q; p_discovered := p_discovered p;
     p_visited := p_visited p; p_pending := p_pending p |}.
Definition visit_pair (x : StatePair) (p : Product) : Product :=
  {| p_builder := p_builder p; p_state_map := p_state_map p; p_queue := p_queue p; p_discovered := p_discovered p;
     p_visited := {[x]} ∪ p_visited p; p_pending := p_pending p |}.
(** [pending_transitions.insert(key)] *)
Definition add_key (k : TransitionKey) (p : Product) : Product :=
  {| p_builder := p_builder p; p_state_map := p_state_map p; p_queue := p_queue p; p_discovered := p_discovered p;
     p_visited := p_visited p;
     p_pending := if decide (k ∈ p_pending p) then p_pending p else p_pending p ++ [k] |}.

Section compose.
Context `{IdStorage} (left right : Clts).

(** [None] is the panic "state identifier overflow". *)
Definition ensure_state (l_state r_state : StateId) (p : Product) : option (StateId * Product) :=
  match p_state_map p !! (l_state, r_state) with
  | Some id => Some (id, p)
  | None =>
    match insert_state_owned (composed_name left right l_state r_state) (p_builder p) with
    | (None, _) => None
    | (Some state_id, b1) =>
      let b2 := if bool_decide (l_state ∈ initial_states left) && bool_decide (r_state ∈ initial_states right)
                then initial_state_id state_id b1 else b1 in
      let composed_vars := merge_state_variables left l_state right r_state in
      let b3 := if negb (null composed_vars) then with_variables_for_state state_id composed_vars b2 else b2 in
      let merged := merge_valuations (state_valuation left l_state) (state_valuation right r_state) in
      let b4 := if bool_decide (merged = ∅) then b3 else with_valuation_for_state state_id merged b3 in
      let b5 := with_predicates state_id
                  (merge_predicates (predicate_entries left l_state) (predicate_entries right r_state)) b4 in
      Some (state_id, set_states b5 (<[(l_state, r_state) := state_id]> (p_state_map p)) p)
    end
  end.

Definition enqueue_state (l_state r_state : StateId) (p : Product) : option (StateId * Product) :=
  let* (id, p1) := ensure_state l_state r_state p in
  Some (id, if decide ((l_state, r_state) ∈ p_discovered p1) then p1 else discover (l_state, r_state) p1).

(** The other targets of a synchronised hyper-must step. *)
Fixpoint enqueue_targets (principal : StatePair) (pairs : list StatePair) (p : Product)
    : option (list StateId * Product) :=
  match pairs with
  | [] => Some ([], p)
  | (l, r) :: rest =>
    if decide ((l, r) = principal) then enqueue_targets principal rest p
    else
      let* (id, p1) := enqueue_state l r p in
      let* (ids, p2) := enqueue_targets principal rest p1 in
      Some (id :: ids, p2)
  end.

Context (options : CompositionOptions) (shared : gset string).

(** A step both sides take; [m] is its modality. *)
Definition joint_key (composed_id id : StateId) (lt rt : Transition) (m : TransitionModality) : TransitionKey :=
  {| k_source := composed_id; k_target := id;
     k_labels := union_labels (transition_labels left lt) (transition_labels right rt);
     k_unc := composed_has_uncontrollable_labels lt rt left right; k_modality := m |}.

(** A step one side takes alone. *)
Definition solo_key (c : Clts) (composed_id id : StateId) (t : Transition) : TransitionKey :=
  {| k_source := composed_id; k_target := id; k_labels := transition_labels c t;
     k_unc := is_uncontrollable c t; k_modality := modality t |}.

Definition joint_step (composed_id : StateId) (lt rt : Transition) (p : Product) : option Product :=
  let* (id, p1) := enqueue_state (target lt) (target rt) p in
  Some (add_key (joint_key composed_id id lt rt (merge (modality lt) (modality rt))) p1).

(** The [Synchronous] case: a hyper-must step gets the product of the targets. *)
Definition synchronous_step (composed_id : StateId) (lt rt : Transition) (p : Product) : option Product :=
  let* (id, p1) := enqueue_state (target lt) (target rt) p in
  match merge (modality lt) (modality rt) with
  | MustHyperOnly _ =>
    let* (ids, p2) := enqueue_targets (target lt, target rt)
      (list_prod (must_target_set (modality lt) (target lt)) (must_target_set (modality rt) (target rt))) p1 in
    Some (add_key (joint_key composed_id id lt rt (MustHyperOnly (id :: ids))) p2)
  | m => Some (add_key (joint_key composed_id id lt rt m) p1)
  end.

(** What the inner loop remembers for one left transition. *)
Record Inner := {
  i_product : Product;
  i_matched : bool;
  i_left_perm_state : option StateId;
  i_right_perm_targets : gset StateId
}.

(** The interleavings of a left and a right transition without a common label. *)
Definition interleave (l_state r_state composed_id : StateId) (lt rt : Transition) (i : Inner) : option Inner :=
  let* (left_target, p1) :=
    match i_left_perm_state i with
    | Some id => Some (id, i_product i)
    | None => enqueue_state (target lt) r_state (i_product i)
    end in
  let p2 := add_key (solo_key left composed_id left_target lt) p1 in
  if decide (target rt ∈ i_right_perm_targets i) then
    Some {| i_product := p2; i_matched := i_matched i; i_left_perm_state := Some left_target;
            i_right_perm_targets := i_right_perm_targets i |}
  else
    let* (right_target, p3) := enqueue_state l_state (target rt) p2 in
    Some {| i_product := add_key (solo_key right composed_id right_target rt) p3; i_matched := i_matched i;
            i_left_perm_state := Some left_target;
            i_right_perm_targets := {[target rt]} ∪ i_right_perm_targets i |}.

Definition with_product (p : Product) (i : Inner) : Inner :=
  {| i_product := p; i_matched := i_matched i; i_left_perm_state := i_left_perm_state i;
     i_right_perm_targets := i_right_perm_targets i |}.
Definition set_matched (i : Inner) : Inner :=
  {| i_product := i_product i; i_matched := true; i_left_perm_state := i_left_perm_state i;
     i_right_perm_targets := i_right_perm_targets i |}.

Definition pair_step (l_state r_state composed_id : StateId) (lt : Transition) (i : Inner) (rt : Transition)
    : option Inner :=
  let left_labels := transition_labels left lt in
  let right_labels := transition_labels right rt in
  if decide (intersection_with_set left_labels shared ≠ intersection_with_set right_labels shared) then Some i
  else
    let shared_actual_empty := negb (labels_have_intersection left_labels right_labels) in
    match semantics options with
    | Synchronous =>
      let* p1 := synchronous_step composed_id lt rt (i_product i) in Some (set_matched (with_product p1 i))
    | Asynchronous =>
      if shared_actual_empty then
        let* p1 :=
          (if negb (null (sync_vectors options))
              && completes_a_vector_piece (sync_vectors options) (union_labels left_labels right_labels)
           then joint_step composed_id lt rt (i_product i) else Some (i_product i)) in
        let* i1 := interleave l_state r_state composed_id lt rt (with_product p1 i) in Some (set_matched i1)
      else
        let* p1 := joint_step composed_id lt rt (i_product i) in Some (set_matched (with_product p1 i))
    | Superset =>
      let* p1 := joint_step composed_id lt rt (i_product i) in
      if shared_actual_empty then
        let* i1 := interleave l_state r_state composed_id lt rt (with_product p1 i) in Some (set_matched i1)
      else Some (set_matched (with_product p1 i))
    end.

Definition interleaves : bool := match semantics options with Synchronous => false | _ => true end.

Definition left_step (l_state r_state composed_id : StateId) (p : Product) (lt : Transition) : option Product :=
  let* i := for_each (pair_step l_state r_state composed_id lt)
    {| i_product := p; i_matched := false; i_left_perm_state := None; i_right_perm_targets := ∅ |}
    (outgoing right r_state) in
  if interleaves && negb (i_matched i) && null (intersection_with_set (transition_labels left lt) shared) then
    let* (left_target, p1) :=
      match i_left_perm_state i with
      | Some id => Some (id, i_product i)
      | None => enqueue_state (target lt) r_state (i_product i)
      end in
    Some (add_key (solo_key left composed_id left_target lt) p1)
  else Some (i_product i).

Definition right_step (l_state composed_id : StateId) (p : Product) (rt : Transition) : option Product :=
  if null (intersection_with_set (transition_labels right rt) shared) then
    let* (right_target, p1) := enqueue_state l_state (target rt) p in
    Some (add_key (solo_key right composed_id right_target rt) p1)
  else Some p.

Definition process_pair (l_state r_state : StateId) (p : Product) : option Product :=
  let* (composed_id, p1) := ensure_state l_state r_state p in
  let* p2 := for_each (left_step l_state r_state composed_id) p1 (outgoing left l_state) in
  if interleaves then for_each (right_step l_state composed_id) p2 (outgoing right r_state) else Some p2.

(** [while let Some(..) = queue.pop_front()]; [None] also when the rounds are used up. *)
Fixpoint explore (rounds : nat) (p : Product) : option Product :=
  match p_queue p with
  | [] => Some p
  | (l_state, r_state) :: queue =>
    match rounds with
    | O => None
    | S r =>
      let p1 := set_queue queue p in
      if decide ((l_state, r_state) ∈ p_visited p1) then explore r p1
      else
        let* p2 := process_pair l_state r_state (visit_pair (l_state, r_state) p1) in explore r p2
    end
  end.
End compose.

(** The edges are interned and added in order; interning can overflow. *)
Definition emit_key `{IdStorage} (b : CltsBuilder) (k : TransitionKey) : Result CltsBuilder CltsError :=
  match intern (cb_labels b) (k_labels k) with
  | (Err e, _) => Err e
  | (Ok label_id, store) =>
    let b1 := set_labels store b in
    let b2 := if k_unc k then set_controllability label_id LC_Uncontrollable b1 else b1 in
    Ok (transition_ids_with_modality (k_source k) [label_id] (k_target k) (k_modality k) b2)
  end.

Fixpoint emit_keys `{IdStorage} (b : CltsBuilder) (ks : list TransitionKey) : Result CltsBuilder CltsError :=
  match ks with
  | [] => Ok b
  | k :: ks' => match emit_key b k with Ok b1 => emit_keys b1 ks' | Err e => Err e end
  end.

(** The message of refused compound actions. *)
Definition dead_message (dead : list DeadCompoundAction) : string :=
  let listed := String.concat "; " (map (λ d,
    "{" +:+ String.concat ", " (da_labels d) +:+ "} (shared with the partner: {"
    +:+ String.concat ", " (da_shared_projection d) +:+ "})") dead) in
  "[mununu#570] compound action(s) " +:+ listed +:+ " can never fire: no transition in the partner automaton projects to the same set over the shared alphabet, so the automaton freezes where it would take one. A multi-label transition is a SYNCHRONISATION VECTOR — it fires on the whole set together. Write independent alternatives as `on label a | label b`, give the partner the matching joint action, or declare `allow_dead_vectors;` in the composition if the action is meant to be disabled.".

Definition compose `{IdStorage} `{HashOrder} `{DebugNames} (rounds : nat) (left right : Clts)
    (options : CompositionOptions) : option (Result Clts CltsError) :=
  match validate_composition left right with
  | Err e => Some (Err e)
  | Ok _ =>
    let shared_alphabet := collect_alphabet left ∩ collect_alphabet right in
    let dead := dead_compound_actions left right shared_alphabet in
    if dead_vectors_are_errors options && negb (null dead) then Some (Err (CompositionError (dead_message dead)))
    else
      let left_initials := visit (initial_states left) in
      let right_initials := visit (initial_states right) in
      if null left_initials || null right_initials then build CltsBuilder_default
      else
        let* p0 := for_each (λ p x, let* (_, p1) := enqueue_state left right x.1 x.2 p in Some p1)
                     Product_start (list_prod left_initials right_initials) in
        let* p := explore left right options shared_alphabet rounds p0 in
        match emit_keys (p_builder p) (merge_sort key_le (p_pending p)) with
        | Err e => Some (Err e)
        | Ok b => build b
        end
  end.
