(* ===== verification/Product.v ===== *)
(** The exploration of [compose] and the product it stands for.

    [product_edge] is the product of two systems as a step relation on pairs of
    states, and [reachable_pair] the pairs reachable from the initial ones.
    [explored] is the invariant of the exploration loop; [explore_spec] shows
    that [n_left * n_right] rounds empty the queue and leave exactly the
    reachable pairs and the edges between them. *)
From stdpp Require Import pretty.
From S2P Require Import Prelude Trit Clts Composition.

(** ** Sorted label vectors *)

Lemma compare_refl_string a : String.compare a a = Eq.
Proof.
  pose proof (String.compare_antisym a a) as H. by destruct (String.compare a a).
Qed.

Lemma compare_Lt_not_in a b l :
  String.compare a b = Lt → StronglySorted String.le (b :: l) → a ∉ b :: l.
Proof.
  intros Hab [_ Hb]%StronglySorted_inv [->|Ha]%elem_of_cons; [by rewrite compare_refl_string in Hab|].
  rewrite Forall_forall in Hb. specialize (Hb a Ha). unfold String.le, String.leb in Hb.
  rewrite String.compare_antisym, Hab in Hb. done.
Qed.

Lemma labels_have_intersection_spec l k :
  StronglySorted String.le l → StronglySorted String.le k →
  labels_have_intersection l k = true ↔ ∃ x, x ∈ l ∧ x ∈ k.
Proof.
  revert k. induction l as [|a l IH]; intros k Hl Hk.
  { split; [done|]. by intros (x & ?%elem_of_nil & _). }
  induction k as [|b k IHk].
  { split; [done|]. by intros (x & _ & ?%elem_of_nil). }
  assert (Hl' : StronglySorted String.le l) by (by apply StronglySorted_inv in Hl as [? _]).
  assert (Hk' : StronglySorted String.le k) by (by apply StronglySorted_inv in Hk as [? _]).
  cbn [labels_have_intersection]. destruct (String.compare a b) eqn:E.
  - apply String.compare_eq_iff in E as ->. split; [|done]. intros _. exists b. split; by left.
  - rewrite (IH (b :: k) Hl' Hk). pose proof (compare_Lt_not_in a b k E Hk) as Ha. set_solver.
  - etransitivity; [exact (IHk Hk')|].
    assert (E' : String.compare b a = Lt) by (by rewrite String.compare_antisym, E).
    pose proof (compare_Lt_not_in b a l E' Hl). set_solver.
Qed.

Lemma transition_labels_canon c t : canon (transition_labels c t) = transition_labels c t.
Proof. apply canon_idemp. Qed.

Lemma elem_of_transition_labels c t x :
  x ∈ transition_labels c t ↔ ∃ l p, l ∈ t_labels t ∧ label_payload c l = Some p ∧ x ∈ p.
Proof.
  unfold transition_labels. rewrite elem_of_canon, list_elem_of_In, in_concat. setoid_rewrite <-list_elem_of_In.
  setoid_rewrite list_elem_of_fmap. split.
  - intros (q & (l & -> & Hl) & Hx). destruct (label_payload c l) as [p|] eqn:E; [eauto|].
    by apply not_elem_of_nil in Hx.
  - intros (l & p & Hl & Hp & Hx). exists p. split; [|done]. exists l. by rewrite Hp.
Qed.

Lemma elem_of_symbols_of c ls x :
  x ∈ symbols_of c ls ↔ ∃ l p, l ∈ ls ∧ label_payload c l = Some p ∧ x ∈ p.
Proof.
  unfold symbols_of. rewrite elem_of_list_to_set, list_elem_of_In, in_concat. setoid_rewrite <-list_elem_of_In.
  setoid_rewrite list_elem_of_fmap. split.
  - intros (q & (l & -> & Hl%elem_of_elements) & Hx). destruct (label_payload c l) as [p|] eqn:E; [eauto|].
    by apply not_elem_of_nil in Hx.
  - intros (l & p & Hl & Hp & Hx). exists p. split; [|done]. exists l. rewrite Hp, elem_of_elements. done.
Qed.

(** The labels of a transition belong to the alphabet. *)
Lemma transition_labels_alphabet c s t x :
  clts_ok c → t ∈ outgoing c s → x ∈ transition_labels c t → x ∈ collect_alphabet c.
Proof.
  intros Hc Ht (l & p & Hl & Hp & Hx)%elem_of_transition_labels.
  pose proof (ok_alphabet c Hc s t l Ht Hl) as Ha.
  unfold is_uncontrollable_label, is_controllable_label, is_internal_label in Ha.
  unfold collect_alphabet. rewrite !elem_of_union, !elem_of_symbols_of.
  repeat case_bool_decide; naive_solver.
Qed.

Lemma elem_of_intersection_with_set l shared x : x ∈ intersection_with_set l shared ↔ x ∈ l ∧ x ∈ shared.
Proof. unfold intersection_with_set. by rewrite elem_of_canon, elem_of_filterb, bool_decide_eq_true. Qed.

Lemma intersection_with_set_eq l k shared :
  intersection_with_set l shared = intersection_with_set k shared ↔ ∀ x, x ∈ shared → x ∈ l ↔ x ∈ k.
Proof.
  split.
  - intros E x Hx. pose proof (elem_of_intersection_with_set l shared x) as H1.
    pose proof (elem_of_intersection_with_set k shared x) as H2. rewrite E in H1. tauto.
  - intros H. apply canon_ext. intros x. rewrite !elem_of_filterb, !bool_decide_eq_true. naive_solver.
Qed.

Lemma intersection_with_set_nil l shared :
  null (intersection_with_set l shared) = true ↔ ∀ x, x ∈ l → x ∉ shared.
Proof.
  pose proof (elem_of_intersection_with_set l shared) as H.
  destruct (intersection_with_set l shared) as [|y k]; simpl.
  - split; [|done]. intros _ x Hx Hs. by eapply not_elem_of_nil, H.
  - split; [done|]. intros Hn. exfalso. destruct (proj1 (H y)) as [? ?]; [by left|]. by eapply Hn.
Qed.

(** ** The product of two systems *)

(** The targets of a synchronised hyper-must step are pairs of states. *)
Inductive EdgeModality :=
  | Plain (m : TransitionModality)
  | HyperPairs (targets : list StatePair).

Record ProductEdge := {
  e_target : StatePair;
  e_labels : list string;
  e_unc : bool;
  e_modality : EdgeModality
}.

Section product.
Context (left right : Clts) (options : CompositionOptions).

Definition shared_alphabet : gset string := collect_alphabet left ∩ collect_alphabet right.

(** The two transitions have the same shared labels. *)
Definition same_shared (lt rt : Transition) : Prop :=
  ∀ x, x ∈ shared_alphabet → x ∈ transition_labels left lt ↔ x ∈ transition_labels right rt.
Definition local (c : Clts) (t : Transition) : Prop := ∀ x, x ∈ transition_labels c t → x ∉ shared_alphabet.

Definition common_label (lt rt : Transition) : Prop :=
  ∃ x, x ∈ transition_labels left lt ∧ x ∈ transition_labels right rt.

(** The labels of both transitions belong to one synchronisation vector. *)
Definition vector_piece (lt rt : Transition) : Prop :=
  ∃ v, v ∈ sync_vectors options ∧
    ∀ x, x ∈ transition_labels left lt ∨ x ∈ transition_labels right rt → x ∈ v.

(** Two transitions with the same shared labels step together: always in
    [Synchronous] and [Superset], in [Asynchronous] when they have a common
    label or are a piece of a vector. *)
Definition joins (lt rt : Transition) : Prop :=
  same_shared lt rt ∧
  match semantics options with
  | Asynchronous => common_label lt rt ∨ vector_piece lt rt
  | _ => True
  end.

Definition joint_modality (lt rt : Transition) : EdgeModality :=
  match semantics options, merge (modality lt) (modality rt) with
  | Synchronous, MustHyperOnly _ =>
    HyperPairs ((target lt, target rt) ::
      filter (λ y, y ≠ (target lt, target rt))
        (list_prod (must_target_set (modality lt) (target lt)) (must_target_set (modality rt) (target rt))))
  | _, m => Plain m
  end.

Definition joint_edge (lt rt : Transition) : ProductEdge :=
  {| e_target := (target lt, target rt);
     e_labels := canon (transition_labels left lt ++ transition_labels right rt);
     e_unc := is_uncontrollable left lt || is_uncontrollable right rt;
     e_modality := joint_modality lt rt |}.
Definition solo_edge (c : Clts) (y : StatePair) (t : Transition) : ProductEdge :=
  {| e_target := y; e_labels := transition_labels c t; e_unc := is_uncontrollable c t;
     e_modality := Plain (modality t) |}.

Inductive product_edge (l r : StateId) : ProductEdge → Prop :=
  | pe_joint lt rt : lt ∈ outgoing left l → rt ∈ outgoing right r → joins lt rt →
      product_edge l r (joint_edge lt rt)
  | pe_left lt : semantics options ≠ Synchronous → lt ∈ outgoing left l → local left lt →
      product_edge l r (solo_edge left (target lt, r) lt)
  | pe_right rt : semantics options ≠ Synchronous → rt ∈ outgoing right r → local right rt →
      product_edge l r (solo_edge right (l, target rt) rt).

(** The pairs an edge mentions. *)
Definition edge_pairs (e : ProductEdge) : list StatePair :=
  e_target e :: match e_modality e with HyperPairs ps => ps | Plain _ => [] end.

Inductive reachable_pair : StatePair → Prop :=
  | rp_initial l r : l ∈ initial_states left → r ∈ initial_states right → reachable_pair (l, r)
  | rp_step l r e y : reachable_pair (l, r) → product_edge l r e → y ∈ edge_pairs e → reachable_pair y.
End product.

(** The targets of hyper-must transitions are states. *)
Definition hyper_in_range (c : Clts) : Prop :=
  ∀ s t ts x, t ∈ outgoing c s → modality t = MustHyperOnly ts → x ∈ ts → x < state_count c.

Lemma must_targets_in_range c s t x :
  clts_ok c → hyper_in_range c → t ∈ outgoing c s → x ∈ must_target_set (modality t) (target t) → x < state_count c.
Proof.
  intros Hc Hh Ht. destruct (modality t) as [| |ts] eqn:Em; simpl.
  - intros ->%list_elem_of_singleton. by eapply (ok_target c Hc).
  - by intros ?%not_elem_of_nil.
  - by eapply Hh.
Qed.

(** ** The conditions of the inner loop *)

Section conditions.
Context (left right : Clts) (options : CompositionOptions).
Context (Hl : clts_ok left) (Hr : clts_ok right).
Notation shared := (shared_alphabet left right).

Lemma same_shared_spec lt rt :
  intersection_with_set (transition_labels left lt) shared = intersection_with_set (transition_labels right rt) shared
  ↔ same_shared left right lt rt.
Proof using Type. apply intersection_with_set_eq. Qed.

Lemma local_spec c t : null (intersection_with_set (transition_labels c t) shared) = true ↔ local left right c t.
Proof using Type. apply intersection_with_set_nil. Qed.

Lemma common_label_spec lt rt :
  labels_have_intersection (transition_labels left lt) (transition_labels right rt) = true ↔
  common_label left right lt rt.
Proof using Type. apply labels_have_intersection_spec; apply canon_sorted. Qed.

Lemma vector_piece_spec lt rt :
  completes_a_vector_piece (sync_vectors options)
    (union_labels (transition_labels left lt) (transition_labels right rt)) = true ↔
  vector_piece left right options lt rt.
Proof using Type.
  unfold completes_a_vector_piece, vector_piece. rewrite existsb_spec. apply exist_proper; intros v.
  assert (Hu : ∀ x, x ∈ union_labels (transition_labels left lt) (transition_labels right rt) ↔
    x ∈ transition_labels left lt ∨ x ∈ transition_labels right rt).
  { intros x. unfold union_labels. by rewrite elem_of_canon, elem_of_app. }
  rewrite forallb_spec. setoid_rewrite Hu. by setoid_rewrite bool_decide_eq_true.
Qed.

Lemma elem_of_shared x : x ∈ shared ↔ x ∈ collect_alphabet left ∧ x ∈ collect_alphabet right.
Proof using Type. unfold shared_alphabet. by rewrite elem_of_intersection. Qed.

(** Two transitions with the same shared labels have no common label exactly
    when their labels are local. *)
Lemma disjoint_local lt rt :
  same_shared left right lt rt → ¬ common_label left right lt rt → local left right left lt ∧ local left right right rt.
Proof using Type.
  intros Hs Hn. split; intros x Hx Hsh; apply Hn; exists x; (split; [|]; try done; by apply (Hs x Hsh)).
Qed.

Lemma local_disjoint l r lt rt :
  lt ∈ outgoing left l → rt ∈ outgoing right r → local left right left lt → ¬ common_label left right lt rt.
Proof using Hl Hr.
  intros Hlt Hrt Hloc (x & H1 & H2). apply (Hloc x H1). apply elem_of_shared.
  split; by eapply transition_labels_alphabet.
Qed.
End conditions.

(** ** Product states *)

(** A map of predicates indexed by a state. *)
Lemma predicate_entries_lookup c s q : predicate_entries c s !! q = state_3valued_predicate c s q.
Proof.
  unfold predicate_entries, state_3valued_predicate. destruct (state_3valued_predicates c) as [m|]; [|apply lookup_empty].
  set (l := omap _ _).
  assert (Hin : ∀ q v, (q, v) ∈ l ↔ m !! (s, q) = Some v).
  { intros q' v. unfold l. rewrite list_elem_of_omap. split.
    - intros ([[s' q''] v'] & Hm%elem_of_map_to_list & E). simpl in *. case_decide; [|done]. by simplify_eq.
    - intros Hm. exists ((s, q'), v). simpl. rewrite elem_of_map_to_list. by rewrite decide_True. }
  assert (Hnd : NoDup (l.*1)).
  { apply NoDup_fmap_fst.
    - intros q' v v'. rewrite !Hin. congruence.
    - unfold l. generalize (NoDup_map_to_list m). generalize (map_to_list m). clear. intros k.
      induction k as [|[[s' q] v] k IH]; intros Hnd; [constructor|]. apply NoDup_cons in Hnd as [Hx Hnd].
      cbn [omap list_omap fst snd]. case_decide; simpl; [|by apply IH]. subst s'. constructor; [|by apply IH].
      rewrite list_elem_of_omap. intros ([[s' q'] v'] & Hk & E). simpl in E. case_decide; [|done]. by simplify_eq. }
  apply option_eq. intros v. rewrite <-Hin. symmetry. by apply elem_of_list_to_map.
Qed.

Lemma with_predicates_other s entries b :
  with_predicates s entries b = set_state_3valued_predicates (cb_state_3valued_predicates (with_predicates s entries b)) b.
Proof.
  unfold with_predicates. induction (map_to_list entries) as [|[q v] k IH]; simpl; [by destruct b|].
  unfold with_3valued_predicate at 1. rewrite IH at 2. done.
Qed.

Lemma with_predicates_lookup s entries b i q :
  default ∅ (cb_state_3valued_predicates (with_predicates s entries b)) !! (i, q) =
  if decide (i = s) then match entries !! q with Some v => Some v
                         | None => default ∅ (cb_state_3valued_predicates b) !! (i, q) end
  else default ∅ (cb_state_3valued_predicates b) !! (i, q).
Proof.
  unfold with_predicates.
  assert (Hgen : ∀ k : list (string * Tristate), NoDup (k.*1) →
    default ∅ (cb_state_3valued_predicates (foldr (λ e, with_3valued_predicate s e.1 e.2) b k)) !! (i, q) =
    if decide (i = s) then match (list_to_map k : gmap string Tristate) !! q with Some v => Some v
                           | None => default ∅ (cb_state_3valued_predicates b) !! (i, q) end
    else default ∅ (cb_state_3valued_predicates b) !! (i, q)).
  { intros k. induction k as [|[q' v] k IH]; intros Hnd.
    - simpl. rewrite lookup_empty. by case_decide.
    - apply NoDup_cons in Hnd as [_ Hnd]. specialize (IH Hnd). cbn. case_decide as Hi.
      + subst i. destruct (decide (q' = q)) as [->|Hq].
        * by rewrite !lookup_insert_eq.
        * rewrite !lookup_insert_ne by congruence. exact IH.
      + rewrite lookup_insert_ne by congruence. exact IH. }
  rewrite Hgen by apply NoDup_fst_map_to_list. by rewrite list_to_map_to_list.
Qed.

(** What a state of the product carries. *)
Section pairs.
Context (left right : Clts).

Definition pair_name (x : StatePair) : string := composed_name left right x.1 x.2.
Definition pair_initial (x : StatePair) : Prop := x.1 ∈ initial_states left ∧ x.2 ∈ initial_states right.
Definition pair_variables (x : StatePair) : list string := merge_state_variables left x.1 right x.2.
Definition pair_valuation (x : StatePair) : option (gmap string string) :=
  let merged := merge_valuations (state_valuation left x.1) (state_valuation right x.2) in
  if bool_decide (merged = ∅) then None else Some merged.
Definition pair_predicates (x : StatePair) : gmap string Tristate :=
  merge_predicates (predicate_entries left x.1) (predicate_entries right x.2).
Definition in_range (x : StatePair) : Prop := x.1 < state_count left ∧ x.2 < state_count right.

(** Different pairs get different names. *)
Definition names_distinct : Prop := ∀ x y, in_range x → in_range y → pair_name x = pair_name y → x = y.

Lemma pair_variables_canon x : canon (pair_variables x) = pair_variables x.
Proof. apply canon_idemp. Qed.

(** The state [id] of the builder carries the pair [x]. *)
Record state_of (b : CltsBuilder) (x : StatePair) (id : StateId) : Prop := {
  sof_name : cb_state_names b !! id = Some (pair_name x);
  sof_initial : id ∈ cb_initial_states b ↔ pair_initial x;
  sof_variables : ∃ vid, cb_state_variables b !! id = Some vid ∧
    vb_sets (cb_variables b) !! vid = Some (pair_variables x);
  sof_valuation : cb_state_valuations b !! id = Some (pair_valuation x);
  sof_predicates : ∀ q, default ∅ (cb_state_3valued_predicates b) !! (id, q) = pair_predicates x !! q
}.

(** The builder holds the states of the pairs in [m], and no edges. *)
Record pairs_added (m : gmap StatePair StateId) (b : CltsBuilder) : Prop := {
  pa_ok : builder_ok b;
  pa_overflow : cb_state_overflow b = None;
  pa_transitions : cb_transitions b = [];
  pa_labels : cb_labels b = LabelStoreBuilder_default;
  pa_controllability : cb_label_controllability b = ∅;
  pa_declared : cb_declared_labels b = ∅;
  pa_range : ∀ x id, m !! x = Some id → in_range x;
  pa_state : ∀ x id, m !! x = Some id → state_of b x id;
  pa_onto : ∀ id, id < length (cb_state_names b) → ∃ x, m !! x = Some id;
  pa_count : length (cb_state_names b) = size m;
  pa_predicates : ∀ id q, length (cb_state_names b) ≤ id → default ∅ (cb_state_3valued_predicates b) !! (id, q) = None
}.

Definition all_pairs : gset StatePair :=
  list_to_set (list_prod (seq 0 (state_count left)) (seq 0 (state_count right))).

Lemma elem_of_all_pairs x : x ∈ all_pairs ↔ in_range x.
Proof.
  unfold all_pairs, in_range. rewrite elem_of_list_to_set, list_elem_of_In. destruct x as [l r].
  rewrite in_prod_iff, <-!list_elem_of_In, !elem_of_seq. simpl. lia.
Qed.

Lemma size_all_pairs : size all_pairs ≤ state_count left * state_count right.
Proof.
  unfold all_pairs. rewrite <-(length_seq (state_count left) 0) at 2.
  rewrite <-(length_seq (state_count right) 0) at 2. rewrite <-length_prod.
  generalize (list_prod (seq 0 (state_count left)) (seq 0 (state_count right))).
  intros l. induction l as [|x l IH]; [rewrite list_to_set_nil, size_empty; lia|].
  rewrite list_to_set_cons, size_union_alt, size_singleton. simpl.
  assert (size (list_to_set l ∖ {[x]} : gset StatePair) ≤ size (list_to_set l : gset StatePair)); [|lia].
  apply subseteq_size. set_solver.
Qed.

Lemma pairs_added_size m b : pairs_added m b → size m ≤ state_count left * state_count right.
Proof.
  intros Hp. rewrite <-size_dom. etransitivity; [|apply size_all_pairs]. apply subseteq_size.
  intros x [id Hid]%elem_of_dom. apply elem_of_all_pairs. by eapply pa_range.
Qed.

Lemma pairs_added_lt m b x id : pairs_added m b → m !! x = Some id → id < length (cb_state_names b).
Proof. intros Hp Hx. eapply lookup_lt_Some, sof_name, pa_state; eauto. Qed.

Lemma pairs_added_default : pairs_added ∅ CltsBuilder_default.
Proof. constructor; try done; try apply builder_ok_default; intros; simpl in *; try lia; apply lookup_empty. Qed.

(** The builder [b'] has one state more than [b], the one of [x]. *)
Record state_pushed (b b' : CltsBuilder) (x : StatePair) : Prop := {
  sp_ok : builder_ok b';
  sp_names : cb_state_names b' = cb_state_names b ++ [pair_name x];
  sp_overflow : cb_state_overflow b' = cb_state_overflow b;
  sp_transitions : cb_transitions b' = cb_transitions b;
  sp_labels : cb_labels b' = cb_labels b;
  sp_controllability : cb_label_controllability b' = cb_label_controllability b;
  sp_declared : cb_declared_labels b' = cb_declared_labels b;
  sp_initial : ∀ i, i ∈ cb_initial_states b' ↔
    i ∈ cb_initial_states b ∨ (i = length (cb_state_names b) ∧ pair_initial x);
  sp_new_variables : ∃ vid, cb_state_variables b' !! length (cb_state_names b) = Some vid ∧
    vb_sets (cb_variables b') !! vid = Some (pair_variables x);
  sp_old_variables : ∀ i, i < length (cb_state_names b) → cb_state_variables b' !! i = cb_state_variables b !! i;
  sp_sets : vb_sets (cb_variables b) `prefix_of` vb_sets (cb_variables b');
  sp_valuations : cb_state_valuations b' = cb_state_valuations b ++ [pair_valuation x];
  sp_predicates : ∀ i q, default ∅ (cb_state_3valued_predicates b') !! (i, q) =
    if decide (i = length (cb_state_names b))
    then pair_predicates x !! q ∪ default ∅ (cb_state_3valued_predicates b) !! (i, q)
    else default ∅ (cb_state_3valued_predicates b) !! (i, q)
}.

Lemma initial_slot b b1 id x :
  builder_ok b1 → cb_initial_states b1 = cb_initial_states b → id < length (cb_state_names b1) →
  let b2 := if bool_decide (x.1 ∈ initial_states left) && bool_decide (x.2 ∈ initial_states right)
            then initial_state_id id b1 else b1 in
  builder_ok b2 ∧ b2 = set_initial_states (cb_initial_states b2) b1 ∧
  ∀ i, i ∈ cb_initial_states b2 ↔ i ∈ cb_initial_states b ∨ (i = id ∧ pair_initial x).
Proof.
  intros Hok Hin Hid. cbv zeta.
  assert (Hd : bool_decide (x.1 ∈ initial_states left) && bool_decide (x.2 ∈ initial_states right) = true ↔ pair_initial x).
  { by rewrite andb_true_iff, !bool_decide_eq_true. }
  destruct (_ && _).
  - split_and!; [by apply initial_state_id_ok|done|].
    intros i. simpl. rewrite elem_of_union, elem_of_singleton, Hin. naive_solver.
  - split_and!; [done|by destruct b1|intros i; rewrite Hin; naive_solver].
Qed.

(** The state of a new pair: name, initial flag, variables, valuation, verdicts. *)
Lemma push_pair `{IdStorage} b x :
  builder_ok b → cb_state_map b !! pair_name x = None → (N.of_nat (length (cb_state_names b)) <= id_max)%N →
  ∃ b1, let id := length (cb_state_names b) in insert_state_owned (pair_name x) b = (Some id, b1) ∧
    let b2 := if bool_decide (x.1 ∈ initial_states left) && bool_decide (x.2 ∈ initial_states right)
              then initial_state_id id b1 else b1 in
    let b3 := if negb (null (pair_variables x)) then with_variables_for_state id (pair_variables x) b2 else b2 in
    let b4 := match pair_valuation x with None => b3 | Some v => with_valuation_for_state id v b3 end in
    state_pushed b (with_predicates id (pair_predicates x) b4) x.
Proof.
  intros Hok Hfresh Hroom. set (id := length (cb_state_names b)).
  destruct (insert_state_fresh b (pair_name x) Hok Hfresh Hroom) as (b1 & vid & ext & E & Hok1 & Hb1 & Hext & Hvid).
  exists b1. cbv zeta. split; [done|]. fold id in Hb1.
  destruct (initial_slot b b1 id x Hok1) as (Hok2 & Hb2 & Hin2);
    [by rewrite Hb1|rewrite Hb1; simpl; rewrite length_app; simpl; lia|].
  set (b2 := if _ && _ then _ else _) in *. clearbody b2.
  assert (Hlv : length (cb_state_variables b) = id) by apply (bok_var_rows _ Hok).
  assert (Hll : length (cb_state_valuations b) = id) by apply (bok_val_rows _ Hok).
  destruct (variables_slot b2 id vid (pair_variables x) Hok2) as (Hok3 & Hb3 & Hset & Hother & ext' & Hext');
    [rewrite Hb2, Hb1; simpl; rewrite <-Hlv; apply lookup_push|by rewrite Hb2|].
  set (b3 := if negb _ then _ else _) in *. clearbody b3. rewrite pair_variables_canon in Hset.
  set (b4 := match pair_valuation x with None => _ | Some _ => _ end).
  assert (Hb4 : b4 = set_state_valuations (cb_state_valuations b ++ [pair_valuation x]) b3).
  { assert (Hv3 : cb_state_valuations b3 = cb_state_valuations b ++ [None]) by (by rewrite Hb3, Hb2, Hb1).
    subst b4. destruct (pair_valuation x).
    - unfold with_valuation_for_state. rewrite Hv3. f_equal. by rewrite <-Hll, insert_app_r_alt, Nat.sub_diag by lia.
    - rewrite <-Hv3. by destruct b3. }
  clearbody b4. rewrite with_predicates_other. set (ps := cb_state_3valued_predicates (with_predicates _ _ _)).
  constructor; try (rewrite Hb4, Hb3, Hb2, Hb1; done).
  - constructor; try (rewrite Hb4; simpl; apply Hok3).
    rewrite Hb4, Hb3, Hb2, Hb1. simpl. by rewrite !length_app, Hll.
  - intros i Hi. rewrite Hb4. simpl. rewrite Hother, Hb2, Hb1 by (unfold id; lia). simpl.
    by rewrite lookup_app_l by (rewrite Hlv; done).
  - rewrite Hb4. simpl. rewrite Hext', Hb2. simpl. rewrite Hext, <-app_assoc. by apply prefix_app_r.
  - intros i q. subst ps. simpl. rewrite with_predicates_lookup, Hb4, Hb3, Hb2, Hb1. simpl. fold id. case_decide; [|done].
    by destruct (pair_predicates x !! q), (_ !! (i, q)).
Qed.

Lemma pairs_added_push m b b' x :
  pairs_added m b → in_range x → m !! x = None → state_pushed b b' x →
  pairs_added (<[x := length (cb_state_names b)]> m) b'.
Proof.
  intros Hp Hx Hm Hb. set (id := length (cb_state_names b)).
  assert (Hlen : length (cb_state_names b') = S id) by (rewrite (sp_names _ _ _ Hb), length_app; simpl; lia).
  assert (Hne : ∀ y i, m !! y = Some i → i < id) by (intros y i Hy; by eapply pairs_added_lt).
  assert (Hll : length (cb_state_valuations b) = id) by apply (bok_val_rows _ (pa_ok _ _ Hp)).
  constructor.
  - apply Hb.
  - rewrite (sp_overflow _ _ _ Hb). apply Hp.
  - rewrite (sp_transitions _ _ _ Hb). apply Hp.
  - rewrite (sp_labels _ _ _ Hb). apply Hp.
  - rewrite (sp_controllability _ _ _ Hb). apply Hp.
  - rewrite (sp_declared _ _ _ Hb). apply Hp.
  - intros y i [[-> ->]|[? Hy]]%lookup_insert_Some; [done|by eapply pa_range].
  - intros y i [[<- <-]|[? Hy]]%lookup_insert_Some.
    + constructor.
      * rewrite (sp_names _ _ _ Hb). apply lookup_push.
      * rewrite (sp_initial _ _ _ Hb). split; [|by right]. intros [Hi|[_ ?]]; [|done]. exfalso.
        apply (bok_initial _ (pa_ok _ _ Hp)) in Hi. unfold id in Hi. lia.
      * apply (sp_new_variables _ _ _ Hb).
      * rewrite (sp_valuations _ _ _ Hb), <-Hll. apply lookup_push.
      * intros q. rewrite (sp_predicates _ _ _ Hb), decide_True, (pa_predicates _ _ Hp) by done.
        by rewrite (right_id None _).
    + pose proof (Hne y i Hy) as Hlt. destruct (pa_state _ _ Hp y i Hy) as [H1 H2 (w & H3 & H3') H4 H5].
      constructor.
      * rewrite (sp_names _ _ _ Hb). by apply lookup_app_l_Some.
      * rewrite (sp_initial _ _ _ Hb), H2. split; [|by left]. intros [?|[-> _]]; [done|unfold id in Hlt; lia].
      * exists w. rewrite (sp_old_variables _ _ _ Hb) by done. split; [done|].
        eapply prefix_lookup_Some; [exact H3'|apply Hb].
      * rewrite (sp_valuations _ _ _ Hb). by apply lookup_app_l_Some.
      * intros q. rewrite (sp_predicates _ _ _ Hb), decide_False by (unfold id in Hlt; lia). apply H5.
  - intros i Hi. rewrite Hlen in Hi. destruct (decide (i = id)) as [->|]; [exists x; by rewrite lookup_insert_eq|].
    destruct (pa_onto _ _ Hp i) as [y Hy]; [fold id; lia|]. exists y. rewrite lookup_insert_ne; [done|congruence].
  - by rewrite Hlen, map_size_insert_None, <-(pa_count _ _ Hp).
  - intros i q Hi. rewrite Hlen in Hi. rewrite (sp_predicates _ _ _ Hb), decide_False by (fold id; lia).
    apply (pa_predicates _ _ Hp). fold id. lia.
Qed.

Section ensure.
Context `{IdStorage} (Hnames : names_distinct).
Context (Hfit : (N.of_nat (state_count left * state_count right) <= id_max + 1)%N).

Lemma pair_fresh m b x :
  pairs_added m b → in_range x → m !! x = None → cb_state_map b !! pair_name x = None.
Proof using Hnames.
  intros Hp Hx Hm. destruct (cb_state_map b !! pair_name x) as [i|] eqn:Ei; [|done]. exfalso.
  apply (bok_map _ (pa_ok _ _ Hp)) in Ei.
  destruct (pa_onto _ _ Hp i (lookup_lt_Some _ _ _ Ei)) as [y Hy].
  pose proof (sof_name _ _ _ (pa_state _ _ Hp y i Hy)) as Hn.
  assert (x = y) as -> by (apply Hnames; [done|by eapply pa_range|congruence]). congruence.
Qed.

Lemma pair_room m b x : pairs_added m b → in_range x → m !! x = None →
  (N.of_nat (length (cb_state_names b)) <= id_max)%N.
Proof using Hfit.
  intros Hp Hx Hm. rewrite (pa_count _ _ Hp).
  assert (size m < state_count left * state_count right); [|lia].
  apply Nat.lt_le_trans with (size all_pairs); [|apply size_all_pairs]. rewrite <-size_dom.
  apply subset_size, strict_spec_alt. split.
  - intros y [id Hid]%elem_of_dom. apply elem_of_all_pairs. by eapply pa_range.
  - intros E. apply not_elem_of_dom in Hm. apply Hm. rewrite E. by apply elem_of_all_pairs.
Qed.
End ensure.
End pairs.

(** ** The exploration *)

Section exploration.
Context `{IdStorage} (left right : Clts) (options : CompositionOptions).
Context (Hl : clts_ok left) (Hr : clts_ok right) (Hsl : states_ok left) (Hsr : states_ok right).
Context (Hhl : hyper_in_range left) (Hhr : hyper_in_range right).
Context (Hnames : names_distinct left right).
Notation nl := (state_count left).
Notation nr := (state_count right).
Context (Hfit : (N.of_nat (nl * nr) <= id_max + 1)%N).
Notation shared := (shared_alphabet left right).
Notation edge := (product_edge left right options).
Notation reachable := (reachable_pair left right options).

(** The edges stay within the pairs of states. *)
Lemma edge_in_range l r e y : edge l r e → in_range left right (l, r) → y ∈ edge_pairs e → in_range left right y.
Proof using Hl Hr Hhl Hhr.
  intros He [Hrl Hrr] Hy. unfold in_range in *. simpl in Hrl, Hrr. destruct He as [lt rt Hlt Hrt _|lt _ Hlt _|rt _ Hrt _].
  - assert (Ht : in_range left right (target lt, target rt)) by (split; by eapply ok_target).
    unfold edge_pairs in Hy. simpl in Hy. apply elem_of_cons in Hy as [->|Hy]; [done|].
    unfold joint_modality in Hy. destruct (semantics options); [|by apply not_elem_of_nil in Hy..].
    destruct (merge (modality lt) (modality rt)); [by apply not_elem_of_nil in Hy..|].
    apply elem_of_cons in Hy as [->|[_ Hy]%list_elem_of_filter]; [done|].
    destruct y as [a b]. apply list_elem_of_In, in_prod_iff in Hy as [Ha Hb]. apply list_elem_of_In in Ha, Hb.
    by split; eapply must_targets_in_range.
  - apply list_elem_of_singleton in Hy as ->. split; [by eapply ok_target|done].
  - apply list_elem_of_singleton in Hy as ->. split; [done|by eapply ok_target].
Qed.

Lemma reachable_in_range x : reachable x → in_range left right x.
Proof using Hl Hr Hsl Hsr Hhl Hhr.
  induction 1 as [l r Hil Hir|l r e y _ IH He Hy]; [|by eapply edge_in_range].
  split; by apply so_initial.
Qed.

(** The key of an edge, once the pairs it mentions have identifiers. *)
Definition keyed (m : gmap StatePair StateId) (x : StatePair) (e : ProductEdge) (k : TransitionKey) : Prop :=
  m !! x = Some (k_source k) ∧ m !! e_target e = Some (k_target k) ∧
  k_labels k = e_labels e ∧ k_unc k = e_unc e ∧
  match e_modality e with
  | Plain md => k_modality k = md
  | HyperPairs ps => ∃ ids, k_modality k = MustHyperOnly ids ∧ Forall2 (λ y i, m !! y = Some i) ps ids
  end.

Lemma keyed_mono m m' x e k : m ⊆ m' → keyed m x e k → keyed m' x e k.
Proof using Type.
  intros Hm (H1 & H2 & H3 & H4 & H5). split_and!; [by eapply lookup_weaken..|done|done|].
  destruct (e_modality e); [done|]. destruct H5 as (ids & ? & Hf). exists ids. split; [done|].
  eapply Forall2_impl; [exact Hf|]. intros y i Hy. exact (lookup_weaken m m' y i Hy Hm).
Qed.

Definition has_edge (p : Product) (x : StatePair) (e : ProductEdge) : Prop :=
  ∃ k, k ∈ p_pending p ∧ keyed (p_state_map p) x e k.

Record explored (p : Product) : Prop := {
  ex_pairs : pairs_added left right (p_state_map p) (p_builder p);
  ex_discovered : ∀ x, x ∈ p_discovered p ↔ is_Some (p_state_map p !! x);
  ex_frontier : ∀ x, x ∈ p_discovered p ↔ x ∈ p_visited p ∨ x ∈ p_queue p;
  ex_queue : NoDup (p_queue p);
  ex_unvisited : ∀ x, x ∈ p_queue p → x ∉ p_visited p;
  ex_reachable : ∀ x, x ∈ p_discovered p → reachable x;
  ex_sound : ∀ k, k ∈ p_pending p →
    ∃ x e, x ∈ p_visited p ∧ edge x.1 x.2 e ∧ keyed (p_state_map p) x e k;
  ex_nodup : NoDup (p_pending p)
}.

(** States and edges are only added, and the visited pairs stay the same. *)
Definition grows (p p' : Product) : Prop :=
  p_state_map p ⊆ p_state_map p' ∧ p_pending p ⊆ p_pending p' ∧ p_visited p' = p_visited p.

#[local] Instance grows_preorder : PreOrder grows.
Proof using Type.
  split; [intros p; unfold grows; by split_and!|]. intros p q s (? & ? & ?) (? & ? & ?).
  unfold grows. split_and!; [by etransitivity..|congruence].
Qed.

Lemma has_edge_grows p p' x e : has_edge p x e → grows p p' → has_edge p' x e.
Proof using Type.
  intros (k & Hk & Hkey) (Hm & Hp & _). exists k. split; [by apply Hp|by eapply keyed_mono].
Qed.

Lemma grows_lookup p p' x id : grows p p' → p_state_map p !! x = Some id → p_state_map p' !! x = Some id.
Proof using Type. intros (Hm & _) Hx. by eapply lookup_weaken. Qed.

Lemma ensure_known l r id p : p_state_map p !! (l, r) = Some id → ensure_state left right l r p = Some (id, p).
Proof using Type. intros E. unfold ensure_state. by rewrite E. Qed.

Lemma ensure_new l r p :
  pairs_added left right (p_state_map p) (p_builder p) → in_range left right (l, r) → p_state_map p !! (l, r) = None →
  ∃ id b, ensure_state left right l r p = Some (id, set_states b (<[(l, r) := id]> (p_state_map p)) p) ∧
    pairs_added left right (<[(l, r) := id]> (p_state_map p)) b.
Proof using Hnames Hfit.
  intros Hp Hx Hm. unfold ensure_state. rewrite Hm.
  destruct (push_pair left right (p_builder p) (l, r)) as (b1 & E & Hb);
    [by apply Hp|by eapply pair_fresh|by eapply pair_room|].
  change (composed_name left right l r) with (pair_name left right (l, r)). rewrite E. do 2 eexists. split; [done|].
  apply pairs_added_push; [done..|]. cbn [fst snd] in Hb. unfold pair_valuation in Hb. cbn [fst snd] in Hb.
  by destruct (bool_decide _).
Qed.

Lemma enqueue_state_spec l r p :
  explored p → reachable (l, r) →
  ∃ id p', enqueue_state left right l r p = Some (id, p') ∧ explored p' ∧ grows p p' ∧
    p_state_map p' !! (l, r) = Some id.
Proof using All.
  intros Hp Hx. unfold enqueue_state. destruct (p_state_map p !! (l, r)) as [id|] eqn:Em.
  - rewrite (ensure_known l r id p Em). exists id, p. rewrite decide_True by (by apply ex_discovered; [|rewrite Em]).
    by split_and!.
  - destruct (ensure_new l r p) as (id & b & -> & Hb); [apply Hp|by apply reachable_in_range|done|].
    assert (Hnd : (l, r) ∉ p_discovered p).
    { rewrite (ex_discovered p Hp), Em. by intros [? ?]. }
    exists id. eexists. split; [done|]. simpl. rewrite decide_False by done.
    assert (Hsub : p_state_map p ⊆ <[(l, r) := id]> (p_state_map p)) by (by apply insert_subseteq).
    split_and!; [|by split_and!|simpl; by rewrite lookup_insert_eq].
    constructor; simpl.
    + done.
    + intros x. rewrite lookup_insert_is_Some', elem_of_union, elem_of_singleton, (ex_discovered p Hp).
      split; (intros [->|?]; [by left|by right]).
    + intros x. rewrite elem_of_union, elem_of_singleton, elem_of_app, list_elem_of_singleton, (ex_frontier p Hp). tauto.
    + apply NoDup_app. split_and!; [apply Hp| |apply NoDup_singleton].
      intros x Hq ->%list_elem_of_singleton. apply Hnd, (ex_frontier p Hp). by right.
    + intros x [Hq| ->%list_elem_of_singleton]%elem_of_app; [by apply (ex_unvisited p Hp)|].
      intros Hv. apply Hnd, (ex_frontier p Hp). by left.
    + intros x [->%elem_of_singleton|?]%elem_of_union; [done|by apply (ex_reachable p Hp)].
    + intros k Hk. destruct (ex_sound p Hp k Hk) as (x & e & ? & ? & ?). exists x, e. split_and!; [done..|].
      by eapply keyed_mono.
    + apply Hp.
Qed.
(** Adding the key of an edge out of a visited pair. *)
Lemma add_key_spec p x e k :
  explored p → x ∈ p_visited p → edge x.1 x.2 e → keyed (p_state_map p) x e k →
  explored (add_key k p) ∧ grows p (add_key k p) ∧ has_edge (add_key k p) x e.
Proof using Type.
  intros Hp Hx He Hk. unfold add_key.
  assert (Hin : ∀ k', k' ∈ (if decide (k ∈ p_pending p) then p_pending p else p_pending p ++ [k]) ↔
    k' ∈ p_pending p ∨ k' = k).
  { intros k'. case_decide; [naive_solver|]. by rewrite elem_of_app, list_elem_of_singleton. }
  split_and!.
  - constructor; simpl; try apply Hp.
    + intros k' [Hk'| ->]%Hin; [by apply (ex_sound p Hp)|]. by exists x, e.
    + case_decide; [apply Hp|]. apply NoDup_app. split_and!; [apply Hp| |apply NoDup_singleton].
      by intros k' ? ->%list_elem_of_singleton.
  - split_and!; [done| |done]. intros k' Hk'. apply Hin. by left.
  - exists k. split; [|done]. apply Hin. by right.
Qed.

(** ** One pair of states *)

Section pair.
Context (l r : StateId) (composed_id : StateId).

(** The pair being processed. *)
Definition at_pair (p : Product) : Prop :=
  explored p ∧ (l, r) ∈ p_visited p ∧ reachable (l, r) ∧ p_state_map p !! (l, r) = Some composed_id.

Lemma at_pair_grows p p' : at_pair p → explored p' → grows p p' → at_pair p'.
Proof using Type.
  intros (Hp & Hv & Hreach & Hid) Hp' Hg. split_and!; [done| |done|by eapply grows_lookup].
  destruct Hg as (_ & _ & ->). done.
Qed.

Lemma enqueue_edge e y1 y2 p :
  at_pair p → edge l r e → (y1, y2) ∈ edge_pairs e →
  ∃ id p', enqueue_state left right y1 y2 p = Some (id, p') ∧ at_pair p' ∧ grows p p' ∧
    p_state_map p' !! (y1, y2) = Some id.
Proof using All.
  intros Hp He Hy. destruct (enqueue_state_spec y1 y2 p) as (id & p' & E & Hp' & Hg & Hid).
  - apply Hp.
  - destruct Hp as (_ & _ & Hreach & _). by eapply rp_step.
  - exists id, p'. split_and!; [done|by eapply at_pair_grows|done|done].
Qed.

(** Recording an edge whose target has an identifier and whose modality is plain. *)
Lemma add_plain p e id m :
  at_pair p → edge l r e → e_modality e = Plain m → p_state_map p !! e_target e = Some id →
  let k := {| k_source := composed_id; k_target := id; k_labels := e_labels e; k_unc := e_unc e; k_modality := m |} in
  at_pair (add_key k p) ∧ grows p (add_key k p) ∧ has_edge (add_key k p) (l, r) e.
Proof using Type.
  intros Hp He Hm Hid k. destruct (add_key_spec p (l, r) e k) as (H1 & H2 & H3); try apply Hp; [done| |].
  - split_and!; try done; [apply Hp|]. by rewrite Hm.
  - split_and!; [by eapply at_pair_grows|done|done].
Qed.

Lemma joint_step_spec lt rt p :
  at_pair p → lt ∈ outgoing left l → rt ∈ outgoing right r → joins left right options lt rt →
  semantics options ≠ Synchronous →
  ∃ p', joint_step left right composed_id lt rt p = Some p' ∧ at_pair p' ∧ grows p p' ∧
    has_edge p' (l, r) (joint_edge left right options lt rt).
Proof using All.
  intros Hp Hlt Hrt Hj Hsem. pose proof (pe_joint left right options l r lt rt Hlt Hrt Hj) as He.
  unfold joint_step. destruct (enqueue_edge _ (target lt) (target rt) p Hp He) as (id & p1 & -> & Hp1 & Hg1 & Hid).
  { by left. }
  destruct (add_plain p1 _ id (merge (modality lt) (modality rt)) Hp1 He) as (H1 & H2 & H3); [|done|].
  { simpl. unfold joint_modality. by destruct (semantics options). }
  eexists. split_and!; [reflexivity|exact H1|by etransitivity|exact H3].
Qed.

Lemma solo_left_spec lt p id :
  at_pair p → lt ∈ outgoing left l → local left right left lt → semantics options ≠ Synchronous →
  p_state_map p !! (target lt, r) = Some id →
  let p' := add_key (solo_key left composed_id id lt) p in
  at_pair p' ∧ grows p p' ∧ has_edge p' (l, r) (solo_edge left (target lt, r) lt).
Proof using Type.
  intros Hp Hlt Hloc Hsem Hid. pose proof (pe_left left right options l r lt Hsem Hlt Hloc) as He.
  exact (add_plain p _ id (modality lt) Hp He eq_refl Hid).
Qed.

Lemma solo_right_spec rt p id :
  at_pair p → rt ∈ outgoing right r → local left right right rt → semantics options ≠ Synchronous →
  p_state_map p !! (l, target rt) = Some id →
  let p' := add_key (solo_key right composed_id id rt) p in
  at_pair p' ∧ grows p p' ∧ has_edge p' (l, r) (solo_edge right (l, target rt) rt).
Proof using Type.
  intros Hp Hrt Hloc Hsem Hid. pose proof (pe_right left right options l r rt Hsem Hrt Hloc) as He.
  exact (add_plain p _ id (modality rt) Hp He eq_refl Hid).
Qed.

Lemma enqueue_targets_spec e principal ps : ∀ p,
  at_pair p → edge l r e → (∀ y, y ∈ ps → y ≠ principal → y ∈ edge_pairs e) →
  ∃ ids p', enqueue_targets left right principal ps p = Some (ids, p') ∧ at_pair p' ∧ grows p p' ∧
    Forall2 (λ y i, p_state_map p' !! y = Some i) (filter (λ y, y ≠ principal) ps) ids.
Proof using All.
  induction ps as [|[a b] ps IH]; intros p Hp He Hps; cbn [enqueue_targets].
  { exists [], p. split_and!; [done..|constructor]. }
  assert (Hps' : ∀ y, y ∈ ps → y ≠ principal → y ∈ edge_pairs e) by (intros; apply Hps; [by right|done]).
  destruct (decide ((a, b) = principal)) as [Heq|Hne].
  { rewrite filter_cons_False by (by intros []). by apply IH. }
  destruct (enqueue_edge e a b p Hp He) as (id & p1 & -> & Hp1 & Hg1 & Hid); [apply Hps; [by left|done]|].
  destruct (IH p1 Hp1 He Hps') as (ids & p2 & -> & Hp2 & Hg2 & Hids).
  exists (id :: ids), p2. split_and!; [done..|by etransitivity|].
  rewrite filter_cons_True by done. constructor; [by eapply grows_lookup|done].
Qed.

Lemma synchronous_step_spec lt rt p :
  at_pair p → lt ∈ outgoing left l → rt ∈ outgoing right r → joins left right options lt rt →
  semantics options = Synchronous →
  ∃ p', synchronous_step left right composed_id lt rt p = Some p' ∧ at_pair p' ∧ grows p p' ∧
    has_edge p' (l, r) (joint_edge left right options lt rt).
Proof using All.
  intros Hp Hlt Hrt Hj Hsem. pose proof (pe_joint left right options l r lt rt Hlt Hrt Hj) as He.
  set (e := joint_edge left right options lt rt) in *.
  assert (Hjm : e_modality e = joint_modality options lt rt) by done.
  unfold synchronous_step. destruct (enqueue_edge e (target lt) (target rt) p Hp He) as (id & p1 & -> & Hp1 & Hg1 & Hid).
  { by left. }
  unfold joint_modality in Hjm. rewrite Hsem in Hjm. destruct (merge (modality lt) (modality rt)) as [| |ts].
  1-2: destruct (add_plain p1 e id _ Hp1 He Hjm Hid) as (H1 & H2 & H3);
    eexists; split_and!; [reflexivity|exact H1|by etransitivity|exact H3].
  set (ps := list_prod _ _) in *.
  destruct (enqueue_targets_spec e (target lt, target rt) ps p1 Hp1 He) as (ids & p2 & -> & Hp2 & Hg2 & Hids).
  { intros y Hy Hne. unfold edge_pairs. rewrite Hjm. do 2 right. by apply list_elem_of_filter. }
  set (k := joint_key _ _ _ _ _ _ _).
  destruct (add_key_spec p2 (l, r) e k) as (H1 & H2 & H3); try apply Hp2; [done| |].
  { split_and!; try done; [apply Hp2|by eapply grows_lookup|]. rewrite Hjm. exists (id :: ids). split; [done|].
    constructor; [by eapply grows_lookup|done]. }
  eexists. split_and!; [reflexivity|by eapply at_pair_grows|by do 2 (etransitivity; [eassumption|])|done].
Qed.
(** ** The inner loops *)

(** The state of the inner loop for the left transition [lt]: a remembered left
    target is right, and a matched local transition has its own step. *)
Record inner_ok (lt : Transition) (i : Inner) : Prop := {
  io_product : at_pair (i_product i);
  io_left : ∀ id, i_left_perm_state i = Some id → p_state_map (i_product i) !! (target lt, r) = Some id;
  io_matched : i_matched i = true → semantics options ≠ Synchronous → local left right left lt →
    has_edge (i_product i) (l, r) (solo_edge left (target lt, r) lt)
}.

Definition inner_grows (i i' : Inner) : Prop :=
  grows (i_product i) (i_product i') ∧ (i_matched i = true → i_matched i' = true).
#[local] Instance inner_grows_preorder : PreOrder inner_grows.
Proof using Type.
  split; [intros i; by split|]. intros i j k [? ?] [? ?]. split; [by etransitivity|auto].
Qed.

(** The target of the left transition taken alone, remembered or not. *)
Lemma left_target_spec lt i :
  inner_ok lt i → lt ∈ outgoing left l → local left right left lt → semantics options ≠ Synchronous →
  ∃ id p1,
    match i_left_perm_state i with
    | Some id => Some (id, i_product i)
    | None => enqueue_state left right (target lt) r (i_product i)
    end = Some (id, p1) ∧ at_pair p1 ∧ grows (i_product i) p1 ∧ p_state_map p1 !! (target lt, r) = Some id.
Proof using All.
  intros Hi Hlt Hloc Hsem. destruct (i_left_perm_state i) as [id|] eqn:E.
  - exists id, (i_product i). split_and!; [done|apply Hi|done|by apply Hi].
  - apply (enqueue_edge (solo_edge left (target lt, r) lt)); [apply Hi|by constructor|by left].
Qed.

Lemma interleave_spec lt rt i :
  inner_ok lt i → lt ∈ outgoing left l → rt ∈ outgoing right r →
  local left right left lt → local left right right rt → semantics options ≠ Synchronous →
  ∃ i', interleave left right l r composed_id lt rt i = Some i' ∧ at_pair (i_product i') ∧
    grows (i_product i) (i_product i') ∧
    (∀ id, i_left_perm_state i' = Some id → p_state_map (i_product i') !! (target lt, r) = Some id) ∧
    has_edge (i_product i') (l, r) (solo_edge left (target lt, r) lt).
Proof using All.
  intros Hi Hlt Hrt Hll Hlr Hsem. unfold interleave.
  destruct (left_target_spec lt i Hi Hlt Hll Hsem) as (id & p1 & -> & Hp1 & Hg1 & Hid).
  destruct (solo_left_spec lt p1 id Hp1 Hlt Hll Hsem Hid) as (Hp2 & Hg2 & He2).
  set (p2 := add_key _ p1) in *. assert (Hg12 : grows (i_product i) p2) by (by etransitivity).
  case_decide.
  { eexists. split_and!; [reflexivity|done|done| |done]. simpl. intros id' [= <-].
    done. }
  destruct (enqueue_edge (solo_edge right (l, target rt) rt) l (target rt) p2 Hp2) as (id' & p3 & -> & Hp3 & Hg3 & Hid');
    [by constructor|by left|].
  destruct (solo_right_spec rt p3 id' Hp3 Hrt Hlr Hsem Hid') as (Hp4 & Hg4 & _).
  assert (Hg : grows p2 (add_key (solo_key right composed_id id' rt) p3)) by (by etransitivity).
  eexists. split_and!; [reflexivity|done|simpl; by etransitivity| |simpl; by eapply has_edge_grows].
  simpl. intros id'' [= <-]. by eapply grows_lookup.
Qed.

(** What one right transition contributes. *)
Definition paired (lt rt : Transition) (i : Inner) : Prop :=
  (joins left right options lt rt → has_edge (i_product i) (l, r) (joint_edge left right options lt rt)) ∧
  (same_shared left right lt rt → i_matched i = true).

Lemma inner_ok_with_product lt i p :
  inner_ok lt i → at_pair p → grows (i_product i) p → inner_ok lt (with_product p i).
Proof using Type.
  intros Hi Hp Hg. constructor; simpl; [done| |].
  - intros id Hid. eapply grows_lookup, (io_left lt i Hi); done.
  - intros. eapply has_edge_grows, Hg. by apply (io_matched lt i Hi).
Qed.

(** Interleaving and marking the left transition as matched. *)
Lemma interleave_matched lt rt i p :
  inner_ok lt i → lt ∈ outgoing left l → rt ∈ outgoing right r →
  local left right left lt → local left right right rt → semantics options ≠ Synchronous →
  at_pair p → grows (i_product i) p →
  (joins left right options lt rt → has_edge p (l, r) (joint_edge left right options lt rt)) →
  ∃ i', (let* i1 := interleave left right l r composed_id lt rt (with_product p i) in Some (set_matched i1)) = Some i' ∧
    inner_ok lt i' ∧ inner_grows i i' ∧ paired lt rt i'.
Proof using All.
  intros Hi Hlt Hrt Hll Hlr Hsem Hp Hg Hj.
  destruct (interleave_spec lt rt (with_product p i)) as (i1 & -> & Hp1 & Hg1 & Hid & He); [by apply inner_ok_with_product|done..|].
  eexists. split_and!; [reflexivity| | |].
  - by constructor.
  - split; [simpl in *; by etransitivity|done].
  - split; [|done]. intros J. eapply has_edge_grows; [by apply Hj|done].
Qed.

Lemma joined_matched lt rt i p :
  inner_ok lt i → at_pair p → grows (i_product i) p →
  (semantics options ≠ Synchronous → ¬ local left right left lt) →
  (joins left right options lt rt → has_edge p (l, r) (joint_edge left right options lt rt)) →
  inner_ok lt (set_matched (with_product p i)) ∧ inner_grows i (set_matched (with_product p i)) ∧
  paired lt rt (set_matched (with_product p i)).
Proof using Type.
  intros Hi Hp Hg Hn Hj. split_and!; [|by split|by split].
  constructor; simpl; [done| |].
  - intros id Hid. eapply grows_lookup, (io_left lt i Hi); done.
  - intros _ Hsem Hloc. by destruct (Hn Hsem).
Qed.

Lemma pair_step_spec lt rt i :
  inner_ok lt i → lt ∈ outgoing left l → rt ∈ outgoing right r →
  ∃ i', pair_step left right options shared l r composed_id lt i rt = Some i' ∧ inner_ok lt i' ∧
    inner_grows i i' ∧ paired lt rt i'.
Proof using All.
  intros Hi Hlt Hrt. unfold pair_step. case_decide as Hd.
  { exists i. rewrite same_shared_spec in Hd. split_and!; [done..|]. split; [by intros [? _]|done]. }
  rewrite same_shared_spec in Hd. set (i0 := i_product i).
  assert (Hp0 : at_pair i0) by apply Hi.
  pose proof (common_label_spec left right lt rt) as Hc.
  pose proof (local_disjoint left right Hl Hr l r lt rt Hlt Hrt) as Hloc.
  pose proof (disjoint_local left right lt rt Hd) as Hdis.
  destruct (semantics options) eqn:Hsem.
  - destruct (synchronous_step_spec lt rt i0) as (p1 & -> & Hp1 & Hg1 & He1); [done..| |done|].
    { split; [done|]. by rewrite Hsem. }
    eexists. split; [reflexivity|]. by apply joined_matched.
  - destruct (labels_have_intersection _ _); cbn [negb].
    + destruct (joint_step_spec lt rt i0) as (p1 & -> & Hp1 & Hg1 & He1); [done..| |by rewrite Hsem|].
      { split; [done|]. rewrite Hsem. left. by apply Hc. }
      eexists. split; [reflexivity|]. apply joined_matched; [done..| |done]. intros _ Hx%Hloc. by apply Hx, Hc.
    + assert (Hn : ¬ common_label left right lt rt) by (intros ?%Hc; done). destruct (Hdis Hn) as [Hll Hlr].
      assert (Hj : ∃ p1, (if negb (null (sync_vectors options)) && completes_a_vector_piece (sync_vectors options)
            (union_labels (transition_labels left lt) (transition_labels right rt))
          then joint_step left right composed_id lt rt i0 else Some i0) = Some p1 ∧ at_pair p1 ∧ grows i0 p1 ∧
          (joins left right options lt rt → has_edge p1 (l, r) (joint_edge left right options lt rt))).
      { pose proof (vector_piece_spec left right options lt rt) as Hv. destruct (completes_a_vector_piece _ _) eqn:Ev.
        - destruct (joint_step_spec lt rt i0) as (p1 & -> & Hp1 & Hg1 & He1); [done..| |by rewrite Hsem|].
          { split; [done|]. rewrite Hsem. right. by apply Hv. }
          exists p1. destruct (sync_vectors options); [done|]. by split_and!.
        - rewrite andb_false_r. exists i0. split_and!; [done..|]. intros [_ J]. rewrite Hsem in J.
          destruct J as [?|?%Hv]; done. }
      destruct Hj as (p1 & -> & Hp1 & Hg1 & He1). apply interleave_matched; try done. by rewrite Hsem.
  - destruct (joint_step_spec lt rt i0) as (p1 & -> & Hp1 & Hg1 & He1); [done..| |by rewrite Hsem|].
    { split; [done|]. by rewrite Hsem. }
    destruct (labels_have_intersection _ _); cbn [negb].
    + eexists. split; [reflexivity|]. apply joined_matched; [done..| |done]. intros _ Hx%Hloc. by apply Hx, Hc.
    + assert (Hn : ¬ common_label left right lt rt) by (intros ?%Hc; done). destruct (Hdis Hn) as [Hll Hlr].
      apply interleave_matched; try done. by rewrite Hsem.
Qed.
Lemma interleaves_spec : interleaves options = true ↔ semantics options ≠ Synchronous.
Proof using Type. unfold interleaves. by destruct (semantics options). Qed.

(** The edges that the left transition [lt] takes part in. *)
Definition left_done (lt : Transition) (p : Product) : Prop :=
  (∀ rt, rt ∈ outgoing right r → joins left right options lt rt →
     has_edge p (l, r) (joint_edge left right options lt rt)) ∧
  (semantics options ≠ Synchronous → local left right left lt →
     has_edge p (l, r) (solo_edge left (target lt, r) lt)).

Lemma left_step_spec lt p :
  at_pair p → lt ∈ outgoing left l →
  ∃ p', left_step left right options shared l r composed_id p lt = Some p' ∧ at_pair p' ∧ grows p p' ∧ left_done lt p'.
Proof using All.
  intros Hp Hlt. unfold left_step. set (i0 := {| i_product := p; i_matched := false; i_left_perm_state := None;
    i_right_perm_targets := ∅ |}).
  destruct (for_each_spec (inner_ok lt) inner_grows (paired lt)
    (pair_step left right options shared l r composed_id lt) (outgoing right r)) with (a := i0)
    as (i & -> & Hi & [Hg Hmono] & Hq).
  - intros rt i i' [H1 H2] [Hg Hm]. split; [intros J; by eapply has_edge_grows; [apply H1|]|auto].
  - intros rt i Hrt Hi. by apply pair_step_spec.
  - by constructor.
  - simpl in Hg. pose proof (local_spec left right left lt) as Hls. pose proof interleaves_spec as His.
    assert (Hjoint : ∀ rt, rt ∈ outgoing right r → joins left right options lt rt →
      has_edge (i_product i) (l, r) (joint_edge left right options lt rt)) by (intros rt Hrt; by apply Hq).
    destruct (interleaves options && negb (i_matched i) && null _) eqn:E.
    + apply andb_true_iff in E as [[Hsem%His Hm]%andb_true_iff Hloc%Hls].
      destruct (left_target_spec lt i Hi Hlt Hloc Hsem) as (id & p1 & -> & Hp1 & Hg1 & Hid).
      destruct (solo_left_spec lt p1 id Hp1 Hlt Hloc Hsem Hid) as (Hp2 & Hg2 & He2).
      eexists. split_and!; [reflexivity|done|by do 2 (etransitivity; [eassumption|])|].
      split; [|done]. intros rt Hrt J. do 2 (eapply has_edge_grows; [|eassumption]). by apply Hjoint.
    + exists (i_product i). split_and!; [done|apply Hi|done|]. split; [done|]. intros Hsem Hloc.
      apply (io_matched lt i Hi); [|done..]. destruct (i_matched i); [done|].
      apply His in Hsem. apply Hls in Hloc. by rewrite Hsem, Hloc in E.
Qed.

Lemma right_step_spec rt p :
  at_pair p → rt ∈ outgoing right r → semantics options ≠ Synchronous →
  ∃ p', right_step left right shared l composed_id p rt = Some p' ∧ at_pair p' ∧ grows p p' ∧
    (local left right right rt → has_edge p' (l, r) (solo_edge right (l, target rt) rt)).
Proof using All.
  intros Hp Hrt Hsem. unfold right_step. pose proof (local_spec left right right rt) as Hls.
  destruct (null _).
  - assert (Hloc : local left right right rt) by (by apply Hls).
    destruct (enqueue_edge (solo_edge right (l, target rt) rt) l (target rt) p Hp) as (id & p1 & -> & Hp1 & Hg1 & Hid);
      [by constructor|by left|].
    destruct (solo_right_spec rt p1 id Hp1 Hrt Hloc Hsem Hid) as (Hp2 & Hg2 & He2).
    eexists. split_and!; [reflexivity|done|by etransitivity|done].
  - exists p. split_and!; [done..|]. by intros ?%Hls.
Qed.
End pair.

(** Processing a visited pair adds its edges. *)
Lemma process_pair_spec l r p :
  explored p → (l, r) ∈ p_visited p →
  ∃ p', process_pair left right options shared l r p = Some p' ∧ explored p' ∧ grows p p' ∧
    ∀ e, edge l r e → has_edge p' (l, r) e.
Proof using All.
  intros Hp Hv. assert (Hd : (l, r) ∈ p_discovered p) by (apply (ex_frontier p Hp); by left).
  pose proof (ex_reachable p Hp _ Hd) as Hreach. destruct (proj1 (ex_discovered p Hp _) Hd) as [id Hid].
  unfold process_pair. rewrite (ensure_known l r id p Hid).
  assert (Hat : at_pair l r id p) by (by split_and!).
  destruct (for_each_spec (at_pair l r id) grows (left_done l r) (left_step left right options shared l r id)
    (outgoing left l)) with (a := p) as (p1 & -> & Hp1 & Hg1 & Hq1).
  { intros lt q q' [H1 H2] Hg. split; intros; (eapply has_edge_grows; [by auto|done]). }
  { intros lt q Hlt Hq. by apply left_step_spec. }
  { done. }
  assert (Hleft : ∀ e p', grows p1 p' → (∀ rt, rt ∈ outgoing right r → semantics options ≠ Synchronous →
      local left right right rt → has_edge p' (l, r) (solo_edge right (l, target rt) rt)) →
    edge l r e → has_edge p' (l, r) e).
  { intros e p' Hg Hright He. destruct He as [lt rt Hlt Hrt J|lt Hsem Hlt Hloc|rt Hsem Hrt Hloc].
    - eapply has_edge_grows; [by apply (Hq1 lt)|done].
    - eapply has_edge_grows; [by apply (Hq1 lt)|done].
    - by apply Hright. }
  destruct (interleaves options) eqn:Hsem.
  - apply interleaves_spec in Hsem.
    destruct (for_each_spec (at_pair l r id) grows
      (λ rt p', local left right right rt → has_edge p' (l, r) (solo_edge right (l, target rt) rt))
      (right_step left right shared l id) (outgoing right r)) with (a := p1) as (p2 & -> & Hp2 & Hg2 & Hq2).
    { intros rt q q' H1 Hg Hloc. by eapply has_edge_grows; [apply H1|]. }
    { intros rt q Hrt Hq. by apply (right_step_spec l r). }
    { done. }
    exists p2. split_and!; [done|apply Hp2|by etransitivity|]. intros e. apply Hleft; [done|]. intros rt Hrt _. by apply Hq2.
  - exists p1. split_and!; [done|apply Hp1|done|]. intros e. apply Hleft; [done|]. intros rt _ Hs.
    apply interleaves_spec in Hs. congruence.
Qed.

(** The edges of the visited pairs are recorded. *)
Definition complete (p : Product) : Prop := ∀ x e, x ∈ p_visited p → edge x.1 x.2 e → has_edge p x e.

Lemma visited_bound p x : explored p → x ∈ p_queue p → size (p_visited p) < nl * nr.
Proof using Hl Hr Hsl Hsr Hhl Hhr.
  intros Hp Hx. apply Nat.lt_le_trans with (size (all_pairs left right)); [|apply size_all_pairs].
  assert (Hsub : ∀ y, y ∈ p_discovered p → y ∈ all_pairs left right).
  { intros y Hy. apply elem_of_all_pairs, reachable_in_range. by apply (ex_reachable p Hp). }
  apply subset_size, strict_spec_alt. split.
  - intros y Hy. apply Hsub, (ex_frontier p Hp). by left.
  - intros E. apply (ex_unvisited p Hp x Hx). rewrite E. apply Hsub, (ex_frontier p Hp). by right.
Qed.

Lemma visit_explored l r queue p :
  explored p → p_queue p = (l, r) :: queue →
  explored (visit_pair (l, r) (set_queue queue p)).
Proof using Type.
  intros Hp Hq. pose proof (ex_queue p Hp) as Hnd. rewrite Hq in Hnd. apply NoDup_cons in Hnd as [Hx Hnd].
  constructor; simpl; try apply Hp.
  - intros y. rewrite (ex_frontier p Hp), Hq, elem_of_cons, elem_of_union, elem_of_singleton. tauto.
  - done.
  - intros y Hy [->%elem_of_singleton|Hv]%elem_of_union; [done|]. apply (ex_unvisited p Hp y); [|done].
    rewrite Hq. by right.
  - intros k Hk. destruct (ex_sound p Hp k Hk) as (x & e & ? & ? & ?). exists x, e. split_and!; [|done..].
    apply elem_of_union. by right.
Qed.

(** [n_left * n_right] rounds are enough. *)
Lemma explore_spec rounds : ∀ p,
  explored p → complete p → nl * nr - size (p_visited p) ≤ rounds →
  ∃ p', explore left right options shared rounds p = Some p' ∧ explored p' ∧ complete p' ∧ p_queue p' = [] ∧
    p_state_map p ⊆ p_state_map p'.
Proof using All.
  induction rounds as [|k IH]; intros p Hp Hc Hk; cbn [explore]; destruct (p_queue p) as [|[l r] queue] eqn:Hq.
  1, 3: by exists p.
  - pose proof (visited_bound p (l, r) Hp) as Hb. rewrite Hq in Hb. specialize (Hb ltac:(by left)). lia.
  - assert (Hin : (l, r) ∈ p_queue p) by (rewrite Hq; by left).
    rewrite decide_False by (by apply (ex_unvisited p Hp)).
    destruct (process_pair_spec l r (visit_pair (l, r) (set_queue queue p))) as (p1 & -> & Hp1 & Hg1 & He1);
      [by apply visit_explored|simpl; set_solver|].
    pose proof Hg1 as (Hm1 & Hpend1 & Hv1). simpl in Hv1, Hm1.
    destruct (IH p1 Hp1) as (p2 & -> & Hp2 & Hc2 & Hq2 & Hm2).
    + intros x e Hx He. rewrite Hv1 in Hx. apply elem_of_union in Hx as [->%elem_of_singleton|Hx]; [by apply He1|].
      eapply has_edge_grows; [|exact Hg1]. destruct (Hc x e Hx He) as (k' & ? & ?). by exists k'.
    + rewrite Hv1, size_union by (pose proof (ex_unvisited p Hp _ Hin); set_solver). rewrite size_singleton. lia.
    + exists p2. split_and!; [done..|by etransitivity].
Qed.

(** The start: the pairs of initial states, in any order. *)
Lemma start_spec inits :
  (∀ x, x ∈ inits → x.1 ∈ initial_states left ∧ x.2 ∈ initial_states right) →
  ∃ p, for_each (λ p x, let* (_, p1) := enqueue_state left right x.1 x.2 p in Some p1) Product_start inits = Some p ∧
    explored p ∧ p_visited p = ∅ ∧ ∀ x, x ∈ inits → is_Some (p_state_map p !! x).
Proof using All.
  intros Hin. destruct (for_each_spec explored grows (λ x p, is_Some (p_state_map p !! x))
    (λ p x, let* (_, p1) := enqueue_state left right x.1 x.2 p in Some p1) inits) with (a := Product_start)
    as (p & E & Hp & (_ & _ & Hv) & Hq).
  - intros x p p' [id Hid] Hg. exists id. by eapply grows_lookup.
  - intros [l r] p Hx Hp. destruct (Hin _ Hx) as [Hil Hir].
    destruct (enqueue_state_spec l r p Hp) as (id & p1 & E & Hp1 & Hg & Hid); [by constructor|].
    exists p1. cbn [fst snd]. rewrite E. split_and!; [done..|]. by exists id.
  - constructor; simpl; try apply pairs_added_default.
    + intros x. rewrite lookup_empty. split; [by intros ?%not_elem_of_empty|by intros [? ?]].
    + intros x. set_solver.
    + constructor.
    + intros x ?%not_elem_of_nil. done.
    + intros x ?%not_elem_of_empty. done.
    + intros k ?%not_elem_of_nil. done.
    + constructor.
  - by exists p.
Qed.

(** At the end exactly the reachable pairs are states. *)
Lemma explored_reachable p :
  explored p → complete p → p_queue p = [] →
  (∀ l r, l ∈ initial_states left → r ∈ initial_states right → is_Some (p_state_map p !! (l, r))) →
  ∀ x, is_Some (p_state_map p !! x) ↔ reachable x.
Proof using Type.
  intros Hp Hc Hq Hi x. rewrite <-(ex_discovered p Hp). split; [apply Hp|].
  assert (Hvis : ∀ y, y ∈ p_discovered p → y ∈ p_visited p).
  { intros y [?|Hy]%(ex_frontier p Hp); [done|]. rewrite Hq in Hy. by apply not_elem_of_nil in Hy. }
  induction 1 as [l r Hil Hir|l r e y _ IH He Hy].
  - apply (ex_discovered p Hp). by apply Hi.
  - destruct (Hc (l, r) e (Hvis _ IH) He) as (k & Hk & _ & Ht & _ & _ & Hm). apply (ex_discovered p Hp).
    unfold edge_pairs in Hy. destruct (e_modality e) as [m|ps].
    + apply list_elem_of_singleton in Hy as ->. by exists (k_target k).
    + apply elem_of_cons in Hy as [->|Hy]; [by exists (k_target k)|]. destruct Hm as (ids & _ & Hf).
      apply list_elem_of_lookup_1 in Hy as [j Hj]. destruct (Forall2_lookup_l _ _ _ _ _ Hf Hj) as (i & _ & Hi'). by exists i.
Qed.
End exploration.
