(* ===== verification/CompositionCorrect.v ===== *)
(** [compose] builds the product.

    [emit_keys] turns the edges of the exploration into transitions;
    [product_of] says what the built system is, and [compose_correct] that
    [compose] returns it.  The rest are its refusals, the compound actions that
    can never fire, what the components keep in the product, and three systems
    on which the product is not what the module documents. *)
From stdpp Require Import pretty.
From Stdlib Require Import Ascii.
From S2P Require Import Prelude Formula Trit Clts Modal Evaluator Semantics Domains Checking Verdicts Divergences Minimize Composition Product.

(** ** The edges of the exploration become transitions *)

(** The label vectors of all possible edges. *)
Definition product_labels (left right : Clts) : list (list string) :=
  map (λ '(lt, rt), canon (transition_labels left lt ++ transition_labels right rt))
    (list_prod (all_edges left) (all_edges right))
  ++ map (transition_labels left) (all_edges left) ++ map (transition_labels right) (all_edges right).

Lemma elem_of_all_edges c t : clts_ok c → t ∈ all_edges c ↔ ∃ s, t ∈ outgoing c s.
Proof.
  intros Hc. unfold all_edges. rewrite list_elem_of_In, in_concat. setoid_rewrite <-list_elem_of_In.
  setoid_rewrite list_elem_of_fmap. split.
  - intros (ts & (s & -> & _) & Ht). by exists s.
  - intros [s Ht]. exists (outgoing c s). split; [|done]. exists s. split; [done|].
    unfold states. apply elem_of_seq. pose proof (outgoing_in_range c s t Hc Ht). lia.
Qed.

Lemma edge_labels_known left right options l r e :
  clts_ok left → clts_ok right → product_edge left right options l r e → e_labels e ∈ product_labels left right.
Proof.
  intros Hl Hr He. unfold product_labels. rewrite !elem_of_app, !list_elem_of_fmap. destruct He as [lt rt Hlt Hrt _|lt _ Hlt _|rt _ Hrt _].
  - left. exists (lt, rt). split; [done|]. apply list_elem_of_In, in_prod_iff.
    split; apply list_elem_of_In, elem_of_all_edges; eauto.
  - right; left. exists lt. split; [done|]. apply elem_of_all_edges; eauto.
  - right; right. exists rt. split; [done|]. apply elem_of_all_edges; eauto.
Qed.

Lemma edge_labels_canon left right options l r e :
  product_edge left right options l r e → canon (e_labels e) = e_labels e.
Proof. intros He. destruct He; simpl; [apply canon_idemp|apply transition_labels_canon..]. Qed.

(** The transition of a key. *)
Definition emits (b : CltsBuilder) (k : TransitionKey) (s : TransitionSpec) : Prop :=
  spec_from s = k_source k ∧ spec_to s = k_target k ∧ spec_modality s = k_modality k ∧
  ∃ id, spec_labels s = [id] ∧ lb_entries (cb_labels b) !! id = Some (k_labels k).

Section emission.
Context `{IdStorage} (allowed : list (list string)).
Context (Hallowed : (N.of_nat (length allowed) <= id_max + 1)%N).
Context (b0 : CltsBuilder) (Hb0 : builder_ok b0).

(** The builder after the keys [ks]. *)
Record emitted (ks : list TransitionKey) (b : CltsBuilder) : Prop := {
  em_ok : builder_ok b;
  em_same : b = set_label_controllability (cb_label_controllability b)
    (set_transitions (cb_transitions b) (set_labels (cb_labels b) b0));
  em_labels : ∀ e, e ∈ lb_entries (cb_labels b) → e ∈ allowed;
  em_specs : Forall2 (emits b) ks (cb_transitions b);
  em_controllability : ∀ id, cb_label_controllability b !! id =
    match lb_entries (cb_labels b) !! id with
    | Some p => if existsb (λ k, k_unc k && bool_decide (k_labels k = p)) ks then Some LC_Uncontrollable else None
    | None => None
    end
}.

Definition key_fits (k : TransitionKey) : Prop :=
  k_source k < length (cb_state_names b0) ∧ k_target k < length (cb_state_names b0) ∧
  k_labels k ∈ allowed ∧ canon (k_labels k) = k_labels k.

Lemma emit_key_spec ks b k :
  emitted ks b → key_fits k → ∃ b', emit_key b k = Ok b' ∧ emitted (ks ++ [k]) b'.
Proof using All.
  intros Hb (Hsrc & Htgt & Hin & Hcan). unfold emit_key.
  destruct (intern_bounded allowed (cb_labels b) (k_labels k)) as (id & L & -> & HL & HLin & Hpre & Hid);
    [apply Hb|apply Hb|done..|].
  eexists. split; [done|]. set (b2 := if k_unc k then _ else _).
  assert (Hb2 : cb_labels b2 = L ∧ cb_transitions b2 = cb_transitions b ∧ cb_state_names b2 = cb_state_names b ∧
    (∀ i, cb_label_controllability b2 !! i =
       if k_unc k && bool_decide (i = id) then Some LC_Uncontrollable else cb_label_controllability b !! i) ∧
    builder_ok b2 ∧ b2 = set_label_controllability (cb_label_controllability b2) (set_labels L b)).
  { destruct (em_ok _ _ Hb). subst b2. destruct (k_unc k); simpl; (split_and!; [done..| | |by destruct b]).
    - intros i. case_bool_decide; [subst; by rewrite lookup_insert_eq|by rewrite lookup_insert_ne].
    - by constructor.
    - done.
    - by constructor. }
  destruct Hb2 as (HbL & Hbt & Hbn & Hbc & Hok2 & Hb2). clearbody b2.
  assert (Hn : cb_state_names b = cb_state_names b0) by (by rewrite (em_same _ _ Hb)).
  constructor.
  - apply transition_ids_ok; [done|by rewrite Hbn, Hn..].
  - unfold transition_ids_with_modality. rewrite Hb2, (em_same _ _ Hb). simpl. by destruct b0.
  - simpl. by rewrite HbL.
  - simpl. rewrite Hbt. apply Forall2_app.
    + eapply Forall2_impl; [apply (em_specs _ _ Hb)|]. intros k' s (? & ? & ? & i & ? & Hi). split_and!; [done..|].
      exists i. split; [done|]. simpl. rewrite HbL. by eapply prefix_lookup_Some.
    + constructor; [|constructor]. split_and!; try done. exists id. simpl. by rewrite HbL.
  - intros i. simpl. rewrite HbL, Hbc, (em_controllability _ _ Hb).
    destruct (lb_entries L !! i) as [p|] eqn:Ei.
    + rewrite existsb_app. cbn [existsb]. rewrite orb_false_r. assert (Hii : bool_decide (i = id) = bool_decide (k_labels k = p)).
      { apply bool_decide_ext. split; [intros ->; congruence|]. intros <-.
        apply (lok_map _ HL) in Hid, Ei. congruence. }
      rewrite Hii. destruct (lb_entries (cb_labels b) !! i) as [p'|] eqn:Ei'.
      * assert (p' = p) as -> by (pose proof (prefix_lookup_Some _ _ _ _ Ei' Hpre); congruence).
        destruct (k_unc k && _), (existsb _ ks); done.
      * destruct (k_unc k && _); [by rewrite orb_true_r|]. rewrite orb_false_r.
        destruct (existsb _ ks) eqn:Ex; [exfalso|done]. apply existsb_spec in Ex as (k' & Hk' & Hx).
        apply andb_true_iff in Hx as [_ Hx%bool_decide_eq_true].
        apply list_elem_of_lookup_1 in Hk' as [j Hj].
        destruct (Forall2_lookup_l _ _ _ _ _ (em_specs _ _ Hb) Hj) as (s & _ & _ & _ & _ & i' & _ & Hi').
        pose proof (prefix_lookup_Some _ _ _ _ Hi' Hpre) as Hi''. rewrite Hx in Hi''.
        apply (lok_map _ HL) in Hi'', Ei. assert (i' = i) as -> by congruence. congruence.
    + assert (Hne : i ≠ id) by (intros ->; congruence). rewrite bool_decide_eq_false_2, andb_false_r by done.
      destruct (lb_entries (cb_labels b) !! i) eqn:Ei'; [|done].
      pose proof (prefix_lookup_Some _ _ _ _ Ei' Hpre). congruence.
Qed.

Lemma emit_keys_spec rest : ∀ ks b,
  emitted ks b → Forall key_fits rest → ∃ b', emit_keys b rest = Ok b' ∧ emitted (ks ++ rest) b'.
Proof using All.
  induction rest as [|k rest IH]; intros ks b Hb Hf; cbn [emit_keys].
  { exists b. by rewrite app_nil_r. }
  apply Forall_cons in Hf as [Hk Hf]. destruct (emit_key_spec ks b k Hb Hk) as (b1 & -> & Hb1).
  destruct (IH _ b1 Hb1 Hf) as (b2 & -> & Hb2). exists b2. split; [done|]. by rewrite <-app_assoc in Hb2.
Qed.
End emission.

(** ** The product as a transition system *)

(** The transition [t] of [c] is the edge [e]. *)
Definition represents (m : gmap StatePair StateId) (c : Clts) (e : ProductEdge) (t : Transition) : Prop :=
  m !! e_target e = Some (target t) ∧
  (∃ l, t_labels t = [l] ∧ label_payload c l = Some (e_labels e)) ∧
  match e_modality e with
  | Plain md => modality t = md
  | HyperPairs ps => ∃ ids, modality t = MustHyperOnly ids ∧ Forall2 (λ y i, m !! y = Some i) ps ids
  end.

(** The system [c] is the product, [m] the numbering of its pairs.  A transition
    is uncontrollable when some edge with the same labels is. *)
Record product_of (left right : Clts) (options : CompositionOptions) (m : gmap StatePair StateId) (c : Clts) : Prop := {
  po_ok : clts_ok c;
  po_states_ok : states_ok c;
  po_pairs : ∀ x, is_Some (m !! x) ↔ reachable_pair left right options x;
  po_range : ∀ x s, m !! x = Some s → s < state_count c;
  po_onto : ∀ s, s < state_count c → ∃ x, m !! x = Some s;
  po_injective : ∀ x y s, m !! x = Some s → m !! y = Some s → x = y;
  po_name : ∀ x s, m !! x = Some s → state_name c s = Some (pair_name left right x);
  po_initial : ∀ x s, m !! x = Some s → s ∈ initial_states c ↔ pair_initial left right x;
  po_variables : ∀ x s, m !! x = Some s → state_variables c s = pair_variables left right x;
  po_valuation : ∀ x s, m !! x = Some s → state_valuation c s = pair_valuation left right x;
  po_predicate : ∀ x s q, m !! x = Some s → state_3valued_predicate c s q = pair_predicates left right x !! q;
  po_forward : ∀ x s e, m !! x = Some s → product_edge left right options x.1 x.2 e →
    ∃ t, t ∈ outgoing c s ∧ represents m c e t;
  po_backward : ∀ x s t, m !! x = Some s → t ∈ outgoing c s →
    ∃ e, product_edge left right options x.1 x.2 e ∧ represents m c e t;
  po_uncontrollable : ∀ s e t, t ∈ outgoing c s → represents m c e t →
    is_uncontrollable c t = true ↔
    ∃ y e', reachable_pair left right options y ∧ product_edge left right options y.1 y.2 e' ∧
      e_labels e' = e_labels e ∧ e_unc e' = true
}.

Section built.
Context `{IdStorage} (left right : Clts) (options : CompositionOptions).
Context (Hl : clts_ok left) (Hr : clts_ok right).
Context (Hnames : names_distinct left right).
Context (p : Product) (Hp : explored left right options p) (Hc : complete left right options p) (Hq : p_queue p = []).
Context (Hreach : ∀ x, is_Some (p_state_map p !! x) ↔ reachable_pair left right options x).
Notation m := (p_state_map p).
Notation ks := (merge_sort key_le (p_pending p)).
Context (b : CltsBuilder) (Hb : emitted (product_labels left right) (p_builder p) ks b).

Lemma elem_of_keys k : k ∈ ks ↔ k ∈ p_pending p.
Proof using Type. by rewrite (merge_sort_Permutation key_le). Qed.

Lemma visited_reachable x : x ∈ p_visited p ↔ reachable_pair left right options x.
Proof using Hp Hq Hreach.
  rewrite <-Hreach, <-(ex_discovered _ _ _ p Hp), (ex_frontier _ _ _ p Hp), Hq.
  split; [by left|]. by intros [?|?%not_elem_of_nil].
Qed.

Lemma same_names : cb_state_names b = cb_state_names (p_builder p).
Proof using Hb. by rewrite (em_same _ _ _ _ Hb). Qed.

Lemma numbered x s : m !! x = Some s → s < length (cb_state_names b) ∧ state_of left right b x s.
Proof using Hp Hb.
  intros Hx. rewrite same_names. pose proof (ex_pairs _ _ _ p Hp) as Hpa. split; [by eapply pairs_added_lt|].
  destruct (pa_state _ _ _ _ Hpa x s Hx). rewrite (em_same _ _ _ _ Hb). by constructor.
Qed.

Lemma spec_edge s : s ∈ cb_transitions b → ∃ k x e,
  emits b k s ∧ k ∈ p_pending p ∧ x ∈ p_visited p ∧ product_edge left right options x.1 x.2 e ∧ keyed m x e k.
Proof using Hp Hb.
  intros [j Hj]%list_elem_of_lookup_1.
  destruct (Forall2_lookup_r _ _ _ _ _ (em_specs _ _ _ _ Hb) Hj) as (k & Hk%list_elem_of_lookup_2%elem_of_keys & He).
  destruct (ex_sound _ _ _ p Hp k Hk) as (x & e & ? & ? & ?). by exists k, x, e.
Qed.

Lemma key_spec k : k ∈ p_pending p → ∃ s, s ∈ cb_transitions b ∧ emits b k s.
Proof using Hb.
  intros Hk%elem_of_keys. apply list_elem_of_lookup_1 in Hk as [j Hj].
  destruct (Forall2_lookup_l _ _ _ _ _ (em_specs _ _ _ _ Hb) Hj) as (s & ?%list_elem_of_lookup_2 & ?). by exists s.
Qed.

Context (c : Clts) (Hbuild : build b = Some (Ok c)).

Lemma built_payload l : label_payload c l = lb_entries (cb_labels b) !! l.
Proof using Hbuild. unfold label_payload, store_get. by rewrite (bc_labels _ _ (build_copied _ _ Hbuild)). Qed.

Lemma emitted_represents k s x e : emits b k s → keyed m x e k → represents m c e (spec_outgoing s).
Proof using Hbuild.
  intros (_ & Hto & Hmod & l & Hls & Hpay) (_ & Ht & Hlab & _ & Hm). split_and!.
  - simpl. by rewrite Hto.
  - exists l. rewrite built_payload, <-Hlab. by split.
  - simpl. by rewrite Hmod.
Qed.

Lemma built_outgoing s t : t ∈ outgoing c s ↔
  ∃ x, s < state_count c ∧ x ∈ cb_transitions b ∧ spec_from x = s ∧ t = spec_outgoing x.
Proof using All.
  destruct (build_rows b (em_ok _ _ _ _ Hb)) as (c' & unc & con & int & E & Hcount & _ & _ & Hout & _).
  { rewrite (em_same _ _ _ _ Hb). apply (pa_overflow _ _ _ _ (ex_pairs _ _ _ p Hp)). }
  assert (c' = c) as -> by congruence. rewrite Hout. case_decide.
  - rewrite elem_of_specs_from. naive_solver.
  - split; [by intros ?%not_elem_of_nil|naive_solver].
Qed.

Lemma built_count : state_count c = length (cb_state_names b).
Proof using Hbuild. unfold state_count. by rewrite (bc_names _ _ (build_copied _ _ Hbuild)). Qed.

Lemma built_uncontrollable s t l pl : t ∈ outgoing c s → t_labels t = [l] → label_payload c l = Some pl →
  is_uncontrollable c t = true ↔ ∃ k, k ∈ p_pending p ∧ k_labels k = pl ∧ k_unc k = true.
Proof using All.
  intros Ht Hls Hpay. rewrite built_payload in Hpay.
  destruct (build_rows b (em_ok _ _ _ _ Hb)) as (c' & unc & con & int & E & _ & _ & _ & _ & _ & Ha & Hunc & _).
  { rewrite (em_same _ _ _ _ Hb). apply (pa_overflow _ _ _ _ (ex_pairs _ _ _ p Hp)). }
  assert (c' = c) as -> by congruence. unfold is_uncontrollable, is_uncontrollable_label. rewrite Hls, Hunc. cbn [existsb].
  rewrite orb_false_r, bool_decide_eq_true. unfold build_alphabets in Ha.
  rewrite (proj1 (classify_spec _ _ _ _ _ _ _ _ Ha l)), elem_of_elements, elem_of_all_labels.
  unfold labelled_as. rewrite (em_controllability _ _ _ _ Hb), Hpay.
  apply built_outgoing in Ht as (x & _ & Hx & _ & ->). destruct (existsb _ ks) eqn:Ex.
  - split; [intros _|].
    + apply existsb_spec in Ex as (k & Hk%elem_of_keys & [? ?%bool_decide_eq_true]%andb_true_iff). by exists k.
    + intros _. right. split; [left|done]. exists x. simpl in Hls. rewrite Hls. split; [done|by left].
  - split; [by intros [?%not_elem_of_empty|[_ ?]]|]. intros (k & Hk & <- & Hu). exfalso.
    apply not_true_iff_false in Ex. apply Ex, existsb_spec. exists k. rewrite elem_of_keys, Hu. by rewrite andb_true_l, bool_decide_eq_true.
Qed.

Lemma product_built : product_of left right options m c.
Proof using All.
  pose proof (em_ok _ _ _ _ Hb) as Hok. pose proof (build_copied _ _ Hbuild) as Hcp. pose proof (ex_pairs _ _ _ p Hp) as Hpa.
  constructor.
  - by eapply build_ok.
  - by eapply build_states_ok.
  - done.
  - intros x s Hx. rewrite built_count. by apply numbered in Hx as [? _].
  - intros s Hs. rewrite built_count, same_names in Hs. by apply (pa_onto _ _ _ _ Hpa).
  - intros x y s Hx Hy. apply Hnames; [by eapply pa_range..|].
    apply numbered in Hx as [_ [Hx _ _ _ _]], Hy as [_ [Hy _ _ _ _]]. congruence.
  - intros x s [_ Hx]%numbered. unfold state_name. rewrite (bc_names _ _ Hcp). apply Hx.
  - intros x s [_ Hx]%numbered. rewrite (bc_initial _ _ Hcp). apply Hx.
  - intros x s [_ Hx]%numbered. destruct (sof_variables _ _ _ _ _ Hx) as (vid & Hv & Hset).
    by destruct (build_variables b c s vid (pair_variables left right x) EmptyString Hok Hbuild Hv Hset).
  - intros x s [_ Hx]%numbered. unfold state_valuation. by rewrite (bc_valuations _ _ Hcp), (sof_valuation _ _ _ _ _ Hx).
  - intros x s q [_ Hx]%numbered. unfold state_3valued_predicate. rewrite (bc_predicates _ _ Hcp).
    rewrite <-(sof_predicates _ _ _ _ _ Hx q). by destruct (cb_state_3valued_predicates b).
  - intros x s e Hx He. destruct (Hc x e) as (k & Hk & Hkey); [|done|].
    { apply visited_reachable, Hreach. by exists s. }
    destruct (key_spec k Hk) as (sp & Hsp & Hem). exists (spec_outgoing sp). split; [|by eapply emitted_represents].
    apply built_outgoing. exists sp. split_and!; [|done| |done].
    + rewrite built_count. by apply numbered in Hx as [? _].
    + destruct Hem as (-> & _), Hkey as (Hsrc & _). congruence.
  - intros x s t Hx Ht. apply built_outgoing in Ht as (sp & _ & Hsp & Hfrom & ->).
    destruct (spec_edge sp Hsp) as (k & y & e & Hem & _ & _ & He & Hkey). exists e.
    assert (y = x) as ->; [|split; [done|by eapply emitted_represents]].
    destruct Hem as (Hfr & _), Hkey as (Hsrc & _). assert (Hy : m !! y = Some s) by congruence.
    apply Hnames; [by eapply pa_range..|]. apply numbered in Hx as [_ [Hx _ _ _ _]], Hy as [_ [Hy _ _ _ _]]. congruence.
  - intros s e t Ht (_ & (l & Hls & Hpay) & _). rewrite (built_uncontrollable s t l (e_labels e)) by done. split.
    + intros (k & Hk & Hlab & Hu). destruct (ex_sound _ _ _ p Hp k Hk) as (y & e' & Hy & He' & _ & _ & Hl' & Hu' & _).
      exists y, e'. split_and!; [by apply visited_reachable|done|congruence|congruence].
    + intros (y & e' & Hy & He' & Hlab & Hu). destruct (Hc y e') as (k & Hk & _ & _ & Hl' & Hu' & _); [by apply visited_reachable|done|].
      exists k. split_and!; [done|congruence..].
Qed.
End built.

(** ** [compose] *)

(** The systems [compose] is correct on: built systems whose product states
    have different names and fit the identifier type. *)
Record composable `{IdStorage} (left right : Clts) : Prop := {
  cp_left : clts_ok left;
  cp_right : clts_ok right;
  cp_left_states : states_ok left;
  cp_right_states : states_ok right;
  cp_left_hyper : hyper_in_range left;
  cp_right_hyper : hyper_in_range right;
  cp_names : names_distinct left right;
  cp_states_fit : (N.of_nat (state_count left * state_count right) <= id_max + 1)%N;
  cp_labels_fit : (N.of_nat (length (product_labels left right)) <= id_max + 1)%N
}.

(** A system without states is the product when one side has no initial state. *)
Lemma empty_product left right options :
  (∀ l r, l ∈ initial_states left → r ∈ initial_states right → False) →
  ∃ c, build CltsBuilder_default = Some (Ok c) ∧ product_of left right options ∅ c.
Proof.
  intros Hno. assert (Hn : ∀ x, ¬ reachable_pair left right options x) by (induction 1; eauto).
  destruct (build_rows CltsBuilder_default builder_ok_default eq_refl) as (c & unc & con & int & E & Hcount & _ & _ & Hout & _).
  exists c. split; [done|]. assert (He : ∀ s, outgoing c s = []) by (intros s; rewrite Hout; by case_decide).
  constructor; try (intros *; by rewrite lookup_empty).
  - by apply (build_ok _ _ builder_ok_default).
  - by apply (build_states_ok _ _ builder_ok_default).
  - intros x. rewrite lookup_empty. split; [by intros [? ?]|by intros ?%Hn].
  - intros s Hs. rewrite Hcount in Hs. simpl in Hs. lia.
  - intros s e t Ht. rewrite He in Ht. by apply not_elem_of_nil in Ht.
Qed.

Lemma null_true {A} (l : list A) : null l = true ↔ l = [].
Proof. by destruct l. Qed.

Section compose_total.
Context `{IdStorage} `{HashOrder} (left right : Clts) (options : CompositionOptions).
Context (Hcp : composable left right) (rounds : nat).
Context (Hrounds : state_count left * state_count right ≤ rounds).

Lemma explored_total :
  ∃ p, (let* p0 := for_each (λ p x, let* (_, p1) := enqueue_state left right x.1 x.2 p in Some p1) Product_start
           (list_prod (visit (initial_states left)) (visit (initial_states right))) in
        explore left right options (shared_alphabet left right) rounds p0) = Some p ∧
    explored left right options p ∧ complete left right options p ∧ p_queue p = [] ∧
    ∀ x, is_Some (p_state_map p !! x) ↔ reachable_pair left right options x.
Proof using All.
  destruct Hcp as [Hl Hr Hsl Hsr Hhl Hhr Hn Hfit _].
  destruct (start_spec left right options Hl Hr Hsl Hsr Hhl Hhr Hn Hfit
    (list_prod (visit (initial_states left)) (visit (initial_states right)))) as (p0 & -> & Hp0 & Hv0 & Hi0).
  { intros [a b] [Ha Hb]%list_elem_of_In%in_prod_iff. apply list_elem_of_In in Ha, Hb. by rewrite !elem_of_visit in *. }
  destruct (explore_spec left right options Hl Hr Hsl Hsr Hhl Hhr Hn Hfit rounds p0 Hp0) as (p & -> & Hp & Hc & Hq & Hm).
  { intros x e Hx. by rewrite Hv0 in Hx. }
  { rewrite Hv0, size_empty. lia. }
  exists p. split_and!; [done..|]. apply explored_reachable; [done..|]. intros l r Hil Hir.
  destruct (Hi0 (l, r)) as [id Hid]; [|exists id; by eapply lookup_weaken].
  apply list_elem_of_In, in_prod_iff. rewrite <-!list_elem_of_In, !elem_of_visit. done.
Qed.

Lemma keys_fit p : explored left right options p →
  Forall (key_fits (product_labels left right) (p_builder p)) (merge_sort key_le (p_pending p)).
Proof using Hcp.
  destruct Hcp. intros Hp. apply Forall_forall. intros k Hk. rewrite (merge_sort_Permutation key_le) in Hk.
  destruct (ex_sound _ _ _ p Hp k Hk) as (x & e & _ & He & Hs & Ht & Hlab & _).
  pose proof (ex_pairs _ _ _ p Hp) as Hpa. split_and!.
  - by eapply pairs_added_lt.
  - by eapply pairs_added_lt.
  - rewrite Hlab. by eapply edge_labels_known.
  - rewrite Hlab. by eapply edge_labels_canon.
Qed.

Lemma emitted_start allowed b : builder_ok b → cb_transitions b = [] → cb_labels b = LabelStoreBuilder_default →
  cb_label_controllability b = ∅ → emitted allowed b [] b.
Proof using Type.
  intros Hok Ht Hlb Hlc. constructor.
  - done.
  - rewrite Hlc, Ht, Hlb. destruct b; simpl in *. by subst.
  - intros e. rewrite Hlb. by intros ?%not_elem_of_nil.
  - rewrite Ht. constructor.
  - intros id. rewrite Hlc, Hlb. rewrite lookup_empty. done.
Qed.

Lemma product_emitted p :
  explored left right options p → complete left right options p → p_queue p = [] →
  (∀ x, is_Some (p_state_map p !! x) ↔ reachable_pair left right options x) →
  ∃ b c, emit_keys (p_builder p) (merge_sort key_le (p_pending p)) = Ok b ∧ build b = Some (Ok c) ∧
    product_of left right options (p_state_map p) c.
Proof using Hcp.
  intros Hp Hc Hq Hreach. pose proof (ex_pairs _ _ _ p Hp) as Hpa.
  destruct (emit_keys_spec (product_labels left right) (cp_labels_fit _ _ Hcp) (p_builder p) (pa_ok _ _ _ _ Hpa)
    (merge_sort key_le (p_pending p)) [] (p_builder p)) as (b & E & Hb); [by apply emitted_start; apply Hpa|by apply keys_fit|].
  destruct (build_rows b (em_ok _ _ _ _ Hb)) as (c & unc & con & int & Eb & _).
  { rewrite (em_same _ _ _ _ Hb). apply (pa_overflow _ _ _ _ Hpa). }
  exists b, c. split_and!; [done..|]. destruct Hcp. by eapply product_built.
Qed.
End compose_total.

Lemma compose_product `{IdStorage} `{HashOrder} `{DebugNames} rounds left right options :
  composable left right →
  state_count left * state_count right ≤ rounds →
  validate_composition left right = Ok tt →
  (dead_vectors_are_errors options = true → dead_compound_actions left right (shared_alphabet left right) = []) →
  ∃ c m, compose rounds left right options = Some (Ok c) ∧ product_of left right options m c.
Proof.
  intros Hcp Hrounds Hval Hdead. unfold compose. rewrite Hval. cbv zeta.
  fold (shared_alphabet left right). destruct (dead_vectors_are_errors options && _) eqn:E.
  { apply andb_true_iff in E as [E ?]. by rewrite (Hdead E) in *. }
  destruct (null (visit (initial_states left)) || null (visit (initial_states right))) eqn:En.
  - destruct (empty_product left right options) as (c & Ec & Hc); [|by exists c, ∅].
    intros l r Hil%elem_of_visit Hir%elem_of_visit.
    apply orb_true_iff in En as [En%null_true|En%null_true]; rewrite En in *; by eapply not_elem_of_nil.
  - destruct (explored_total left right options Hcp rounds Hrounds) as (p & Ep & Hp & Hc & Hq & Hreach).
    destruct (product_emitted left right options Hcp p Hp Hc Hq Hreach) as (b & c & Eb & Hb & Hpo).
    exists c, (p_state_map p). split; [|done].
    destruct (for_each _ Product_start _); [|done]. by rewrite Ep, Eb.
Qed.

(** C13: on systems whose product states have different names and fit the identifier type, whose controllable and internal actions are not shared and whose compound actions are not refused, [compose] returns a system, with one round for every pair of states, and the system is the product: its states are the reachable pairs of states with the names, initial flags, variables, valuations and verdicts of both sides, and its transitions are the joint and separate steps the semantics asks for, whatever order the hash sets are visited in *)
Theorem compose_correct `{IdStorage} `{HashOrder} `{DebugNames} rounds left right options :
  composable left right →
  state_count left * state_count right ≤ rounds →
  validate_composition left right = Ok tt →
  (dead_vectors_are_errors options = true → dead_compound_actions left right (shared_alphabet left right) = []) →
  ∃ c m, compose rounds left right options = Some (Ok c) ∧ product_of left right options m c.
Proof. by apply compose_product. Qed.

(** A system [compose] returns is the product. *)
Lemma compose_ok_product `{IdStorage} `{HashOrder} `{DebugNames} rounds left right options c :
  composable left right → state_count left * state_count right ≤ rounds →
  compose rounds left right options = Some (Ok c) → ∃ m, product_of left right options m c.
Proof.
  intros Hcp Hrounds E. destruct (validate_composition left right) as [[]|e] eqn:Ev.
  - destruct (compose_product rounds left right options) as (c' & m & E' & Hpo); [done..| |].
    + intros Ho. destruct (dead_compound_actions _ _ _) eqn:Ed; [done|exfalso].
      unfold compose in E. rewrite Ev in E. cbv zeta in E. fold (shared_alphabet left right) in E. by rewrite Ho, Ed in E.
    + exists m. assert (c' = c) as -> by congruence. done.
  - unfold compose in E. by rewrite Ev in E.
Qed.

(** A numbering that is onto has an inverse. *)
Lemma numbering_inverse (m : gmap StatePair StateId) n :
  (∀ s, s < n → ∃ x, m !! x = Some s) → ∃ pair : StateId → StatePair, ∀ s, s < n → m !! pair s = Some s.
Proof.
  intros Hm.
  exists (λ s, default (0, 0) ((λ x : nat * (StatePair * StateId), x.2.1) <$> list_find (λ x : StatePair * StateId, x.2 = s) (map_to_list m))).
  intros s Hs. destruct (Hm s Hs) as [x Hx].
  destruct (list_find_elem_of (λ x : StatePair * StateId, x.2 = s) (map_to_list m) (x, s)) as [[i [y s']] Hf];
    [by apply elem_of_map_to_list|done|].
  rewrite Hf. apply list_find_Some in Hf as (Hf & Hy & _). simpl in *. subst s'.
  apply elem_of_map_to_list. by eapply list_elem_of_lookup_2.
Qed.

(** ** Refusals *)

(** A symbol both sides declare in the given alphabet. *)
Definition shared_symbol (left right : Clts) (alphabet : Clts → gset LabelId) : Prop :=
  ∃ x, x ∈ symbols_of left (alphabet left) ∧ x ∈ symbols_of right (alphabet right).

(** A compound action of [this] that no transition of [other] matches: at least
    two labels, one of them shared, and no transition with the same shared
    labels. *)
Definition dead_action (shared : gset string) (this other : Clts) (t : Transition) : Prop :=
  (∃ s, t ∈ outgoing this s) ∧ 2 ≤ length (transition_labels this t) ∧
  (∃ x, x ∈ transition_labels this t ∧ x ∈ shared) ∧
  ∀ s' t', t' ∈ outgoing other s' →
    ¬ ∀ x, x ∈ shared → x ∈ transition_labels this t ↔ x ∈ transition_labels other t'.

Lemma project_intersection shared c t : project shared c t = intersection_with_set (transition_labels c t) shared.
Proof.
  apply canon_ext. intros x. rewrite !elem_of_filterb. unfold transition_labels. by rewrite elem_of_canon.
Qed.

Lemma dead_action_spec shared this other t :
  clts_ok this → clts_ok other →
  dead_action shared this other t ↔
  t ∈ all_edges this ∧ 2 ≤ length (transition_labels this t) ∧ project shared this t ≠ [] ∧
  project shared this t ∉ map (project shared other) (all_edges other).
Proof.
  intros Ht Ho. unfold dead_action. rewrite (elem_of_all_edges this t Ht), project_intersection.
  assert (Hne : (∃ x, x ∈ transition_labels this t ∧ x ∈ shared) ↔ intersection_with_set (transition_labels this t) shared ≠ []).
  { setoid_rewrite <-elem_of_intersection_with_set. destruct (intersection_with_set _ _) as [|y k].
    - split; [by intros (x & ?%not_elem_of_nil)|done].
    - split; [done|]. intros _. exists y. by left. }
  rewrite Hne, list_elem_of_fmap. setoid_rewrite project_intersection. setoid_rewrite (elem_of_all_edges other _ Ho).
  setoid_rewrite <-intersection_with_set_eq. naive_solver.
Qed.

Section dead.
Context (shared : gset string) (this other : Clts).
Notation projection := (project shared this).

(** A transition the loop reports, unless one with its projection has been. *)
Definition unmatched (t : Transition) : Prop :=
  2 ≤ length (transition_labels this t) ∧ projection t ≠ [] ∧
  projection t ∉ map (project shared other) (all_edges other).

Definition reported_as (t : Transition) : DeadCompoundAction :=
  {| da_labels := transition_labels this t; da_shared_projection := projection t |}.

(** What the loop has reported after the transitions [ts]. *)
Record reported (ts : list Transition) (acc : gset (list string) * list DeadCompoundAction) : Prop := {
  re_seen : ∀ q, q ∈ acc.1 ↔ ∃ d, d ∈ acc.2 ∧ da_shared_projection d = q;
  re_found : ∀ d, d ∈ acc.2 → ∃ t, t ∈ ts ∧ unmatched t ∧ d = reported_as t;
  re_all : ∀ t, t ∈ ts → unmatched t → projection t ∈ acc.1;
  re_once : NoDup (map da_shared_projection acc.2)
}.

Lemma reported_skip ts acc t : reported ts acc → (unmatched t → projection t ∈ acc.1) → reported (ts ++ [t]) acc.
Proof using Type.
  intros [H1 H2 H3 H4] Hn. constructor; [done| | |done].
  - intros d Hd. destruct (H2 d Hd) as (t' & ? & ?). exists t'. split; [|done]. apply elem_of_app. by left.
  - intros t' [Ht'| ->%list_elem_of_singleton]%elem_of_app; auto.
Qed.

Lemma reported_add ts seen found t : reported ts (seen, found) → unmatched t → projection t ∉ seen →
  reported (ts ++ [t]) ({[projection t]} ∪ seen, found ++ [reported_as t]).
Proof using Type.
  intros [H1 H2 H3 H4] Ht Hs. cbn [fst snd] in *. constructor; cbn [fst snd].
  - intros q. rewrite elem_of_union, elem_of_singleton, H1. setoid_rewrite elem_of_app.
    setoid_rewrite list_elem_of_singleton. split.
    + intros [->|(d & ? & ?)]; [exists (reported_as t)|exists d]; auto.
    + intros (d & [?| ->] & <-); [right; eauto|by left].
  - intros d [Hd| ->%list_elem_of_singleton]%elem_of_app.
    + destruct (H2 d Hd) as (t' & ? & ?). exists t'. split; [|done]. apply elem_of_app. by left.
    + exists t. split; [|done]. apply elem_of_app. right. by left.
  - intros t' [Ht'| ->%list_elem_of_singleton]%elem_of_app Hc; [|set_solver].
    apply elem_of_union. right. auto.
  - rewrite map_app. apply NoDup_app. split_and!; [done| |apply NoDup_singleton].
    intros q (d & -> & Hd)%list_elem_of_fmap Heq%list_elem_of_singleton. apply Hs, H1. by exists d.
Qed.

Lemma dead_step_spec ts acc t : reported ts acc → reported (ts ++ [t]) (dead_step shared this other acc t).
Proof using Type.
  intros Hacc. destruct acc as [seen found]. unfold dead_step. destruct (length _ <? 2) eqn:El.
  { apply Nat.ltb_lt in El. apply reported_skip; [done|]. intros [? _]. lia. }
  apply Nat.ltb_ge in El. destruct (null _ || _ || _) eqn:Eb.
  - apply reported_skip; [done|]. intros (_ & Hne & Hn).
    apply orb_true_iff in Eb as [[Eb%null_true|Eb%bool_decide_eq_true]%orb_true_iff|Eb%bool_decide_eq_true]; done.
  - rewrite !orb_false_iff, !bool_decide_eq_false in Eb. destruct Eb as [[Hne Hn] Hs].
    apply (reported_add ts seen found t Hacc); [|done]. split_and!; [done| |done]. by destruct (projection t).
Qed.

Lemma dead_side_spec : ∃ seen, reported (all_edges this) (seen, dead_side shared this other).
Proof using Type.
  unfold dead_side. exists (foldl (dead_step shared this other) (∅, []) (all_edges this)).1. rewrite <-surjective_pairing.
  induction (all_edges this) as [|t ts IH] using rev_ind.
  - constructor; simpl; [intros q; split; [by intros ?%not_elem_of_empty|by intros (? & ?%not_elem_of_nil & _)]|
      by intros ? ?%not_elem_of_nil|by intros ? ?%not_elem_of_nil|constructor].
  - rewrite foldl_app. by apply dead_step_spec.
Qed.
End dead.

Lemma unmatched_dead shared this other t : clts_ok this → clts_ok other →
  dead_action shared this other t ↔ t ∈ all_edges this ∧ unmatched shared this other t.
Proof. intros. by rewrite dead_action_spec. Qed.

(** The reported compound actions are exactly those that no partner transition
    matches, once for every set of shared labels. *)
Lemma dead_side_reports shared this other : clts_ok this → clts_ok other →
  (∀ d, d ∈ dead_side shared this other → ∃ t, dead_action shared this other t ∧ d = reported_as shared this t) ∧
  (∀ t, dead_action shared this other t →
     ∃ d, d ∈ dead_side shared this other ∧ da_shared_projection d = project shared this t) ∧
  NoDup (map da_shared_projection (dead_side shared this other)).
Proof.
  intros Ht Ho. destruct (dead_side_spec shared this other) as [seen [H1 H2 H3 H4]]. cbn [fst snd] in *. split_and!.
  - intros d Hd. destruct (H2 d Hd) as (t & ? & ? & ->). exists t. by rewrite unmatched_dead.
  - intros t (? & ?)%unmatched_dead; [|done..]. apply H1. auto.
  - done.
Qed.

(** The reported compound actions are, once for every set of shared labels and side, exactly the transitions with two labels or more, one of them shared, that no transition of the partner matches; and such a transition takes part in no edge of the product *)
Theorem dead_compound_actions_correct left right options :
  clts_ok left → clts_ok right →
  let shared := shared_alphabet left right in
  (∀ d, d ∈ dead_compound_actions left right shared →
    (∃ t, dead_action shared left right t ∧ d = reported_as shared left t) ∨
    (∃ t, dead_action shared right left t ∧ d = reported_as shared right t)) ∧
  (∀ t, dead_action shared left right t → ∃ d, d ∈ dead_compound_actions left right shared ∧ da_shared_projection d = project shared left t) ∧
  (∀ t, dead_action shared right left t → ∃ d, d ∈ dead_compound_actions left right shared ∧ da_shared_projection d = project shared right t) ∧
  (∀ t, dead_action shared left right t → ¬ local left right left t ∧ ∀ r rt, rt ∈ outgoing right r → ¬ joins left right options t rt) ∧
  (∀ t, dead_action shared right left t → ¬ local left right right t ∧ ∀ l lt, lt ∈ outgoing left l → ¬ joins left right options lt t).
Proof.
  intros Hl Hr shared. unfold dead_compound_actions. setoid_rewrite elem_of_app.
  destruct (dead_side_reports shared left right Hl Hr) as (HL1 & HL2 & _).
  destruct (dead_side_reports shared right left Hr Hl) as (HR1 & HR2 & _). split_and!.
  - intros d [Hd|Hd]; [left|right]; auto.
  - intros t (d & ? & ?)%HL2. exists d. auto.
  - intros t (d & ? & ?)%HR2. exists d. auto.
  - intros t (_ & _ & (x & Hx & Hs) & Hn). split; [intros Hloc; by apply (Hloc x)|].
    intros r rt Hrt [J _]. by apply (Hn r rt Hrt).
  - intros t (_ & _ & (x & Hx & Hs) & Hn). split; [intros Hloc; by apply (Hloc x)|].
    intros l lt Hlt [J _]. apply (Hn l lt Hlt). intros y Hy. symmetry. by apply J.
Qed.

Lemma null_visit `{HashOrder} (X : gset string) : null (visit X) = false ↔ ∃ x, x ∈ X.
Proof.
  setoid_rewrite <-elem_of_visit. destruct (visit X) as [|y k]; simpl.
  - split; [done|]. by intros (x & ?%not_elem_of_nil).
  - split; [|done]. intros _. exists y. by left.
Qed.

Lemma validate_composition_spec `{HashOrder} `{DebugNames} left right :
  (∃ e, validate_composition left right = Err e) ↔
  shared_symbol left right controllable_alphabet ∨ shared_symbol left right internal_alphabet.
Proof.
  unfold validate_composition, shared_symbol, collect_label_names. setoid_rewrite <-elem_of_intersection.
  rewrite <-!null_visit. destruct (null (visit (symbols_of left (controllable_alphabet left) ∩ _))); simpl.
  - destruct (null (visit (symbols_of left (internal_alphabet left) ∩ _))); simpl; [|naive_solver].
    split; [by intros [e ?]|by intros [?|?]].
  - split; [by left|]. intros _. by eexists.
Qed.

(** C39: on such systems [compose] fails exactly when the systems share a controllable or an internal action, by name, or when compound actions that can never fire are to be refused and there is one; the error is then a composition error *)
Theorem compose_refuses `{IdStorage} `{HashOrder} `{DebugNames} rounds left right options :
  composable left right → state_count left * state_count right ≤ rounds →
  ((∃ e, compose rounds left right options = Some (Err e)) ↔
   shared_symbol left right controllable_alphabet ∨ shared_symbol left right internal_alphabet ∨
   (dead_vectors_are_errors options = true ∧ ∃ t, dead_action (shared_alphabet left right) left right t ∨
                                                  dead_action (shared_alphabet left right) right left t)) ∧
  (∀ e, compose rounds left right options = Some (Err e) → ∃ message, e = CompositionError message).
Proof.
  intros Hcp Hrounds. set (shared := shared_alphabet left right).
  pose proof (validate_composition_spec left right) as Hval.
  assert (Hdead : dead_compound_actions left right shared ≠ [] ↔
    ∃ t, dead_action shared left right t ∨ dead_action shared right left t).
  { destruct (dead_side_reports shared left right (cp_left _ _ Hcp) (cp_right _ _ Hcp)) as (HL1 & HL2 & _).
    destruct (dead_side_reports shared right left (cp_right _ _ Hcp) (cp_left _ _ Hcp)) as (HR1 & HR2 & _).
    unfold dead_compound_actions. split.
    - intros Hne. destruct (dead_side shared left right ++ dead_side shared right left) as [|d k] eqn:E; [done|].
      assert (Hd : d ∈ dead_side shared left right ++ dead_side shared right left) by (rewrite E; by left).
      apply elem_of_app in Hd as [Hd|Hd]; [destruct (HL1 d Hd) as (t & ? & _)|destruct (HR1 d Hd) as (t & ? & _)]; eauto.
    - intros (t & [(d & Hd & _)%HL2|(d & Hd & _)%HR2]) [E1 E2]%app_eq_nil; rewrite ?E1, ?E2 in Hd;
        by apply not_elem_of_nil in Hd. }
  destruct (validate_composition left right) as [[]|e] eqn:Ev.
  - destruct (decide (dead_vectors_are_errors options = true ∧ dead_compound_actions left right shared ≠ [])) as [[Ho Hd]|Hn].
    + assert (E : compose rounds left right options =
        Some (Err (CompositionError (dead_message (dead_compound_actions left right shared))))).
      { unfold compose. rewrite Ev. cbv zeta. fold (shared_alphabet left right). fold shared. rewrite Ho.
        by destruct (dead_compound_actions left right shared). }
      rewrite E. split; [|intros e [= <-]; eauto]. split; [|eauto]. intros _. right; right. by rewrite <-Hdead.
    + destruct (compose_product rounds left right options) as (c & m & E & _); [done|done|done| |].
      { intros Ho. destruct (dead_compound_actions left right shared) eqn:Ed; [done|]. by destruct Hn. }
      rewrite E. split; [|done]. split; [by intros [e ?]|]. rewrite <-Hdead.
      intros [?|[?|[? ?]]]; [| |by destruct Hn]; exfalso; destruct (proj2 Hval) as [e ?]; auto; done.
  - assert (E : compose rounds left right options = Some (Err e)) by (unfold compose; by rewrite Ev).
    rewrite E. split.
    + split; [|eauto]. intros _. destruct (proj1 Hval) as [?|?]; eauto.
    + intros e' [= <-]. unfold validate_composition in Ev. repeat destruct (negb _); simplify_eq; eauto.
Qed.

(** ** What the components see of the product *)

(** Under the labels [A] of a product step a component makes the step with the
    labels of [A] in its alphabet, or has none of them and stays. *)
Definition component_step (c : Clts) (s s' : StateId) (A : list string) : Prop :=
  (∃ t, t ∈ outgoing c s ∧ target t = s' ∧
     ∀ x, x ∈ transition_labels c t ↔ x ∈ A ∧ x ∈ collect_alphabet c) ∨
  (s' = s ∧ ∀ x, x ∈ A → x ∉ collect_alphabet c).

(** The states reachable through targets and hyper-must targets. *)
Inductive reachable_state (c : Clts) : StateId → Prop :=
  | rs_initial s : s ∈ initial_states c → reachable_state c s
  | rs_step s t s' : reachable_state c s → t ∈ outgoing c s →
      s' = target t ∨ s' ∈ must_target_set (modality t) (target t) → reachable_state c s'.

Section projection.
Context (left right : Clts) (options : CompositionOptions).
Context (Hl : clts_ok left) (Hr : clts_ok right).

Lemma edge_projects l r e : product_edge left right options l r e →
  component_step left l (e_target e).1 (e_labels e) ∧ component_step right r (e_target e).2 (e_labels e).
Proof using Hl Hr.
  intros He. destruct He as [lt rt Hlt Hrt [Hs _]|lt _ Hlt Hloc|rt _ Hrt Hloc]; cbn [e_target e_labels joint_edge solo_edge fst snd].
  - split; left; [exists lt|exists rt]; (split_and!; [done..|]); intros x; rewrite elem_of_canon, elem_of_app; (split; [intros Hx|intros [[Hx|Hx] Ha]]).
    + split; [by left|]. by eapply transition_labels_alphabet.
    + done.
    + apply Hs; [|done]. apply elem_of_shared. split; [done|]. by eapply transition_labels_alphabet.
    + split; [by right|]. by eapply transition_labels_alphabet.
    + apply Hs; [|done]. apply elem_of_shared. split; [|done]. by eapply transition_labels_alphabet.
    + done.
  - split; [left|right].
    + exists lt. split_and!; [done..|]. intros x. split; [|by intros [? _]]. intros Hx. split; [done|].
      by eapply transition_labels_alphabet.
    + split; [done|]. intros x Hx Ha. apply (Hloc x Hx). apply elem_of_shared. split; [|done].
      by eapply transition_labels_alphabet.
  - split; [right|left].
    + split; [done|]. intros x Hx Ha. apply (Hloc x Hx). apply elem_of_shared. split; [done|].
      by eapply transition_labels_alphabet.
    + exists rt. split_and!; [done..|]. intros x. split; [|by intros [? _]]. intros Hx. split; [done|].
      by eapply transition_labels_alphabet.
Qed.

Lemma reachable_components x : reachable_pair left right options x →
  reachable_state left x.1 ∧ reachable_state right x.2.
Proof using Type.
  induction 1 as [l r Hil Hir|l r e y _ [IHl IHr] He Hy]; [split; by apply rs_initial|]. simpl in IHl, IHr.
  destruct He as [lt rt Hlt Hrt _|lt _ Hlt _|rt _ Hrt _]; unfold edge_pairs in Hy; simpl in Hy.
  - assert (Ht : y = (target lt, target rt) ∨ y.1 ∈ must_target_set (modality lt) (target lt) ∧
      y.2 ∈ must_target_set (modality rt) (target rt)).
    { apply elem_of_cons in Hy as [?|Hy]; [by left|]. unfold joint_modality in Hy.
      destruct (semantics options); [|by apply not_elem_of_nil in Hy..].
      destruct (merge _ _); [by apply not_elem_of_nil in Hy..|].
      apply elem_of_cons in Hy as [?|[_ Hy]%list_elem_of_filter]; [by left|right].
      destruct y as [a b]. apply list_elem_of_In, in_prod_iff in Hy as [Ha Hb]. split; by apply list_elem_of_In. }
    destruct Ht as [->|[Ha Hb]]; split; (eapply rs_step; [eassumption..|auto]).
  - apply list_elem_of_singleton in Hy as ->. split; [|done]. eapply rs_step; [eassumption..|auto].
  - apply list_elem_of_singleton in Hy as ->. split; [done|]. eapply rs_step; [eassumption..|auto].
Qed.
End projection.

Lemma represents_labels m c e t : states_ok c → represents m c e t → transition_labels c t = e_labels e.
Proof.
  intros Hs (_ & (l & Hls & Hpay) & _). unfold transition_labels. rewrite Hls. cbn [map concat]. rewrite Hpay. simpl.
  rewrite app_nil_r. by eapply so_payloads.
Qed.

(** C14: every transition of the composed system is a step of both components: each takes the transition labelled with exactly the part of the labels in its alphabet, or has none of the labels and stays where it is; and every state of the composed system pairs states reachable in the components *)
Theorem product_simulated_by_components `{IdStorage} `{HashOrder} `{DebugNames} rounds left right options c :
  composable left right → state_count left * state_count right ≤ rounds →
  compose rounds left right options = Some (Ok c) →
  ∃ pair : StateId → StatePair,
    (∀ s, s ∈ initial_states c → (pair s).1 ∈ initial_states left ∧ (pair s).2 ∈ initial_states right) ∧
    (∀ s, s < state_count c → reachable_state left (pair s).1 ∧ reachable_state right (pair s).2) ∧
    (∀ s t, t ∈ outgoing c s →
       component_step left (pair s).1 (pair (target t)).1 (transition_labels c t) ∧
       component_step right (pair s).2 (pair (target t)).2 (transition_labels c t)).
Proof.
  intros Hcp Hrounds E.
  destruct (compose_ok_product rounds left right options c Hcp Hrounds E) as [m Hpo].
  destruct (numbering_inverse m (state_count c) (po_onto _ _ _ _ _ Hpo)) as [pair Hpair].
  exists pair. split_and!.
  - intros s Hs. assert (Hlt : s < state_count c) by (by apply (so_initial _ (po_states_ok _ _ _ _ _ Hpo))).
    by apply (po_initial _ _ _ _ _ Hpo _ _ (Hpair s Hlt)).
  - intros s Hs. apply (reachable_components left right options), (po_pairs _ _ _ _ _ Hpo). exists s. by apply Hpair.
  - intros s t Ht. assert (Hs : s < state_count c) by (by eapply outgoing_in_range, Ht; apply Hpo).
    destruct (po_backward _ _ _ _ _ Hpo _ s t (Hpair s Hs) Ht) as (e & He & Hrep).
    rewrite (represents_labels m c e t) by (done || apply Hpo). destruct Hcp.
    replace (pair (target t)) with (e_target e); [by eapply edge_projects|].
    eapply (po_injective _ _ _ _ _ Hpo); [apply Hrep|]. apply Hpair. eapply ok_target, Ht. apply Hpo.
Qed.

(** ** Names *)

(** The names of product states differ when the left names have no bar. *)
Lemma bar_free_distinct left right :
  states_ok left → states_ok right → forallb (char_free "|") (state_names left) = true → names_distinct left right.
Proof.
  intros Hsl Hsr Hbar [l r] [l' r'] [Hl Hr] [Hl' Hr'] E. cbn [fst snd] in *.
  rewrite forallb_spec in Hbar. unfold pair_name, composed_name, shown_name, state_name in E. cbn [fst snd] in E.
  destruct (lookup_lt_is_Some_2 (state_names left) l Hl) as [a Ha], (lookup_lt_is_Some_2 (state_names left) l' Hl') as [a' Ha'].
  destruct (lookup_lt_is_Some_2 (state_names right) r Hr) as [b Hb], (lookup_lt_is_Some_2 (state_names right) r' Hr') as [b' Hb'].
  rewrite Ha, Ha', Hb, Hb' in E.
  destruct (split_at_char "|" a a' b b') as [-> ->]; [eapply Hbar, list_elem_of_lookup_2; eassumption..|done|].
  f_equal; [by apply (proj1 (NoDup_alt _) (so_names _ Hsl) l l' a')|by apply (proj1 (NoDup_alt _) (so_names _ Hsr) r r' b')].
Qed.

(** [hyper_in_range], decided. *)
Definition hyper_in_rangeb (c : Clts) : bool :=
  forallb (λ t, match modality t with
                | MustHyperOnly ts => forallb (λ x, x <? state_count c) ts
                | _ => true
                end) (all_edges c).

Lemma hyper_in_rangeb_sound c : clts_ok c → hyper_in_rangeb c = true → hyper_in_range c.
Proof.
  intros Hc Hb s t ts x Ht Hm Hx. unfold hyper_in_rangeb in Hb. rewrite forallb_spec in Hb.
  specialize (Hb t). rewrite (elem_of_all_edges c t Hc), Hm, forallb_spec in Hb.
  apply Nat.ltb_lt. apply Hb; [by exists s|done].
Qed.

(** ** Concrete systems *)

#[local] Existing Instance u16_storage.
#[local] Existing Instance elements_order.
#[local] Instance comma_names : DebugNames := {| debug_names := String.concat ", " |}.

Definition composableb (left right : Clts) : bool :=
  hyper_in_rangeb left && hyper_in_rangeb right && forallb (char_free "|") (state_names left)
  && (N.of_nat (state_count left * state_count right) <=? id_max + 1)%N
  && (N.of_nat (length (product_labels left right)) <=? id_max + 1)%N.

Lemma composable_built opsl opsr left right :
  ops_validb opsl CltsBuilder_default = true → build (run_ops opsl) = Some (Ok left) →
  ops_validb opsr CltsBuilder_default = true → build (run_ops opsr) = Some (Ok right) →
  composableb left right = true → composable left right.
Proof.
  intros Hvl Hbl Hvr Hbr Hb. destruct (run_ops_states_ok opsl left Hvl Hbl) as (Hl & Hsl & _).
  destruct (run_ops_states_ok opsr right Hvr Hbr) as (Hr & Hsr & _).
  unfold composableb in Hb. rewrite !andb_true_iff, !N.leb_le in Hb. destruct Hb as [[[[? ?] ?] ?] ?].
  constructor; try done; [by apply hyper_in_rangeb_sound..|by apply bar_free_distinct].
Qed.

Definition composed (s : CompositionSemantics) (left right : Clts) : Clts :=
  match compose 100 left right (CompositionOptions_new s) with Some (Ok c) => c | _ => empty_clts end.

(** A client that sends, works and receives; a server that answers each message. *)
Definition client_ops : list BuilderOp :=
  [OpLabel ["send"]; OpLabel ["receive"]; OpLabel ["work"]; OpInitial "idle"; OpState "waiting";
   OpTransitionIds 0 [0] 1 Sharp; OpTransitionIds 0 [2] 0 Sharp; OpTransitionIds 1 [1] 0 Sharp;
   OpControllability 1 LC_Uncontrollable].
Definition server_ops : list BuilderOp :=
  [OpLabel ["send"]; OpLabel ["receive"]; OpLabel ["log"]; OpInitial "ready"; OpState "busy";
   OpTransitionIds 0 [0] 1 Sharp; OpTransitionIds 1 [1] 0 Sharp; OpTransitionIds 1 [2] 1 MayOnly;
   OpControllability 0 LC_Uncontrollable; OpVariables "busy" ["serving"]].
Definition client_clts : Clts := built (run_ops client_ops).
Definition server_clts : Clts := built (run_ops server_ops).

Lemma client_server_composable : composable client_clts server_clts.
Proof. by apply (composable_built client_ops server_ops); vm_compute; reflexivity. Qed.

Lemma compose_correct_witness :
  state_names (composed Asynchronous client_clts server_clts) = ["idle|ready"; "waiting|busy"] ∧
  ∃ c m, compose 4 client_clts server_clts (CompositionOptions_new Asynchronous) = Some (Ok c) ∧
    product_of client_clts server_clts (CompositionOptions_new Asynchronous) m c.
Proof.
  split; [vm_compute; reflexivity|].
  apply (compose_correct 4 client_clts server_clts); [exact client_server_composable|vm_compute; lia|vm_compute; reflexivity|done].
Defined.

(** A server that only accepts a message together with an acknowledgement. *)
Definition strict_ops : list BuilderOp :=
  [OpLabel ["receive"; "send"]; OpInitial "ready"; OpState "busy"; OpTransitionIds 0 [0] 1 Sharp;
   OpControllability 0 LC_Uncontrollable].
Definition strict_clts : Clts := built (run_ops strict_ops).
Definition refuse_dead : CompositionOptions :=
  {| semantics := Asynchronous; sync_vectors := []; dead_vectors_are_errors := true |}.

Lemma dead_compound_actions_correct_witness :
  let shared := shared_alphabet client_clts strict_clts in
  dead_compound_actions client_clts strict_clts shared =
    [{| da_labels := ["receive"; "send"]; da_shared_projection := ["receive"; "send"] |}] ∧
  ∀ t, dead_action shared strict_clts client_clts t →
    ¬ local client_clts strict_clts strict_clts t ∧
    ∀ l lt, lt ∈ outgoing client_clts l → ¬ joins client_clts strict_clts refuse_dead lt t.
Proof.
  split; [vm_compute; reflexivity|].
  apply (dead_compound_actions_correct client_clts strict_clts refuse_dead);
    [apply (run_ops_states_ok client_ops); vm_compute; reflexivity|apply (run_ops_states_ok strict_ops); vm_compute; reflexivity].
Defined.

Lemma compose_refuses_witness :
  (∃ e, compose 4 client_clts strict_clts refuse_dead = Some (Err e)) ∧
  ((∃ e, compose 4 client_clts strict_clts refuse_dead = Some (Err e)) ↔
   shared_symbol client_clts strict_clts controllable_alphabet ∨
   shared_symbol client_clts strict_clts internal_alphabet ∨
   (dead_vectors_are_errors refuse_dead = true ∧
    ∃ t, dead_action (shared_alphabet client_clts strict_clts) client_clts strict_clts t ∨
         dead_action (shared_alphabet client_clts strict_clts) strict_clts client_clts t)).
Proof.
  split; [eexists; vm_compute; reflexivity|].
  apply (compose_refuses 4 client_clts strict_clts refuse_dead); [|vm_compute; lia].
  apply (composable_built client_ops strict_ops); vm_compute; reflexivity.
Defined.

Lemma product_simulated_by_components_witness :
  let c := composed Asynchronous client_clts server_clts in
  map (transition_labels c) (all_edges c) = [["work"]; ["send"]; ["receive"]; ["log"]] ∧
  ∃ pair : StateId → StatePair,
    (∀ s, s ∈ initial_states c → (pair s).1 ∈ initial_states client_clts ∧ (pair s).2 ∈ initial_states server_clts) ∧
    (∀ s, s < state_count c → reachable_state client_clts (pair s).1 ∧ reachable_state server_clts (pair s).2) ∧
    (∀ s t, t ∈ outgoing c s →
       component_step client_clts (pair s).1 (pair (target t)).1 (transition_labels c t) ∧
       component_step server_clts (pair s).2 (pair (target t)).2 (transition_labels c t)).
Proof.
  split; [vm_compute; reflexivity|].
  apply (product_simulated_by_components 4 client_clts server_clts (CompositionOptions_new Asynchronous));
    [exact client_server_composable|vm_compute; lia|vm_compute; reflexivity].
Defined.

(** ** Where the product departs from the documentation *)

(** A partner that always synchronises on "a"; one that never does. *)
Definition loop_clts (label : string) : Clts :=
  built (run_ops [OpLabel [label]; OpInitial "u"; OpTransitionIds 0 [0] 0 Sharp; OpControllability 0 LC_Uncontrollable]).

(** States whose names contain bars. *)
Definition bars_clts (first second : string) : Clts := built (run_ops [OpInitial first; OpInitial second]).

(** The verdict of [<a> p], with [p] in the states over state 1 of the left side. *)
Definition diamond_over (c : Clts) : option Trit :=
  let env := {| env_state_count := state_count c;
                predicates := {["p" := map (λ s, bool_decide (state_name c s = Some "s1|u")) (states c)]} |} in
  (λ ts, verdict_at ts 0) <$> evaluate_tri 9 (modal_formula Diamond (scoped Control_All None ["a"] []) (NPredicate "p")) c env.

(** Three departures from the documented product.  Outside [Synchronous] a synchronised hyper-must transition keeps the placeholder without targets, so the states of its other targets are lost and [<a> p] is definitely true where [Synchronous] leaves it unknown and a resolution of the hyper-transition violates it; a separate step keeps the hyper-targets of its component, which are not states of the product; and pairs whose names coincide become one state *)
Theorem composition_departures :
  let abstract := arrow [(0, 1, MustHyperOnly [1; 2])] (uncontrollable [0]) in
  let concrete := arrow [(0, 2, Sharp)] [] in
  (resolves_hyper abstract concrete ∧
   diamond_over (composed Asynchronous abstract (loop_clts "a")) = Some Trit_True ∧
   diamond_over (composed Synchronous abstract (loop_clts "a")) = Some Trit_Unknown ∧
   diamond_over (composed Asynchronous concrete (loop_clts "a")) = Some Trit_False) ∧
  (let c := composed Asynchronous abstract (loop_clts "b") in
   state_count c = 2 ∧ ∃ t, t ∈ outgoing c 0 ∧ modality t = MustHyperOnly [1; 2]) ∧
  (let left := bars_clts "x" "x|y" in
   let right := bars_clts "z" "y|z" in
   (∀ l r, l < 2 → r < 2 → reachable_pair left right (CompositionOptions_new Asynchronous) (l, r)) ∧
   state_count (composed Asynchronous left right) = 3).
Proof.
  split_and!.
  - apply arrow_resolves; [set_solver|by right].
  - vm_compute. reflexivity.
  - vm_compute. reflexivity.
  - vm_compute. reflexivity.
  - split; [vm_compute; reflexivity|]. exists {| target := 1; t_labels := [1]; modality := MustHyperOnly [1; 2] |}.
    split; [vm_compute; right; left|reflexivity].
  - split; [|vm_compute; reflexivity].
    intros l r Hl Hr. apply rp_initial; [destruct l as [|[|l]]|destruct r as [|[|r]]]; try lia;
      apply (bool_decide_unpack _); vm_compute; exact I.
Qed.
