(* ===== verification/Hide.v ===== *)
(** Hiding: [composition/hide.rs].

    [hide_labels] copies a system through a fresh [CltsBuilder]: its states with
    their names, initial flags and variables, then one transition for every label
    of every transition, the label interned again under its payload and
    classified internal when one of its symbols is hidden.

    The theorems say that it never fails, what the copy is ([hidden_of]), that
    hiding twice is hiding the union, and that a hidden label stays in the
    alphabet the composition synchronises on. *)
From S2P Require Import Prelude Formula Trit Clts Modal Verdicts Morphism Minimize Binary Composition Product CompositionCorrect.

(** ** Hiding *)

(** A loop with [?]: it stops at the first error. *)
Fixpoint try_fold {A B E} (f : A → B → Result A E) (acc : A) (l : list B) : Result A E :=
  match l with
  | [] => Ok acc
  | x :: l' => match f acc x with Ok acc' => try_fold f acc' l' | Err e => Err e end
  end.

Definition hide_state `{IdStorage} (c : Clts) (acc : CltsBuilder * gmap StateId StateId) (state : StateId)
    : CltsBuilder * gmap StateId StateId :=
  let '(b, state_mapping) := acc in
  let name := default "state"%string (state_name c state) in
  match insert_state_owned name b with
  | (Some new_id, b1) =>
    let b2 := if bool_decide (state ∈ initial_states c) then initial_state_id new_id b1 else b1 in
    let vars := state_variables c state in
    let b3 := if negb (null vars) then with_variables_for_state new_id vars b2 else b2 in
    (b3, <[state := new_id]> state_mapping)
  | (None, b1) => (b1, state_mapping)
  end.

Definition should_hide (labels_to_hide : gset string) (payload : list string) : bool :=
  existsb (λ s, bool_decide (s ∈ labels_to_hide)) payload.

Definition hide_label `{IdStorage} (c : Clts) (labels_to_hide : gset string) (source_new target_new : StateId)
    (b : CltsBuilder) (label_id : LabelId) : Result CltsBuilder CltsError :=
  match label_payload c label_id with
  | None => Ok b
  | Some payload =>
    match intern (cb_labels b) payload with
    | (Err e, _) => Err e
    | (Ok new_label_id, store) =>
      let controllability :=
        if should_hide labels_to_hide payload then LC_Internal
        else default LC_Uncontrollable (label_controllability c !! label_id) in
      Ok (transition_ids source_new [new_label_id] target_new
           (set_controllability new_label_id controllability (set_labels store b)))
    end
  end.

Definition hide_transition `{IdStorage} (c : Clts) (labels_to_hide : gset string)
    (state_mapping : gmap StateId StateId) (source_new : StateId) (b : CltsBuilder) (t : Transition)
    : Result CltsBuilder CltsError :=
  match state_mapping !! target t with
  | Some target_new => try_fold (hide_label c labels_to_hide source_new target_new) b (t_labels t)
  | None => Ok b
  end.

Definition hide_outgoing `{IdStorage} (c : Clts) (labels_to_hide : gset string)
    (state_mapping : gmap StateId StateId) (b : CltsBuilder) (state : StateId) : Result CltsBuilder CltsError :=
  match state_mapping !! state with
  | Some source_new => try_fold (hide_transition c labels_to_hide state_mapping source_new) b (outgoing c state)
  | None => Ok b
  end.

(** [None] is a panic of [build]. *)
Definition hide_labels `{IdStorage} (c : Clts) (labels_to_hide : gset string) : option (Result Clts CltsError) :=
  let '(b, state_mapping) := foldl (hide_state c) (CltsBuilder_default, ∅) (states c) in
  match try_fold (hide_outgoing c labels_to_hide state_mapping) b (states c) with
  | Err e => Some (Err e)
  | Ok b' => build b'
  end.

Record HideResult := { labels_hidden : nat; total_labels : nat }.

Definition hide_labels_with_stats `{IdStorage} (c : Clts) (labels_to_hide : gset string)
    : option (Result (Clts * HideResult) CltsError) :=
  let total_before := size (collect_alphabet c) in
  let internal_before := size (internal_alphabet c) in
  let* r := hide_labels c labels_to_hide in
  match r with
  | Err e => Some (Err e)
  | Ok result =>
    let internal_after := size (internal_alphabet result) in
    Some (Ok (result, {| labels_hidden := internal_after - internal_before; total_labels := total_before |}))
  end.

(** ** What the copy is *)

(** One label of one transition: the target, the symbols of the label and its
    recorded controllability. *)
Record LabelStep := { ls_target : StateId; ls_payload : list string; ls_control : LabelControllability }.

Definition label_step (c : Clts) (t : Transition) (l : LabelId) : option LabelStep :=
  let* payload := label_payload c l in
  Some {| ls_target := target t; ls_payload := payload;
          ls_control := default LC_Uncontrollable (label_controllability c !! l) |}.
Definition label_steps (c : Clts) (s : StateId) : list LabelStep :=
  concat (map (λ t, omap (label_step c t) (t_labels t)) (outgoing c s)).

(** The step after hiding. *)
Definition hide_step (labels_to_hide : gset string) (x : LabelStep) : LabelStep :=
  {| ls_target := ls_target x; ls_payload := ls_payload x;
     ls_control := if should_hide labels_to_hide (ls_payload x) then LC_Internal else ls_control x |}.

Record hidden_of (c : Clts) (labels_to_hide : gset string) (c' : Clts) : Prop := {
  ho_ok : clts_ok c';
  ho_states : states_ok c';
  ho_names : state_names c' = state_names c;
  ho_initial : initial_states c' = initial_states c;
  ho_variables : ∀ s, s < state_count c → state_variables c' s = state_variables c s;
  ho_steps : ∀ s, label_steps c' s = map (hide_step labels_to_hide) (label_steps c s);
  ho_sharp : ∀ s t, t ∈ outgoing c' s → modality t = Sharp ∧ length (t_labels t) = 1;
  ho_recorded : ∀ s t l, t ∈ outgoing c' s → l ∈ t_labels t →
    ∃ p k, label_payload c' l = Some p ∧ label_controllability c' !! l = Some k;
  ho_internal : ∀ l, l ∈ internal_alphabet c' ↔
    label_controllability c' !! l = Some LC_Internal ∧ ∃ s t, t ∈ outgoing c' s ∧ l ∈ t_labels t;
  ho_alphabet : ∀ x, x ∈ collect_alphabet c' ↔ ∃ s y, y ∈ label_steps c s ∧ x ∈ ls_payload y
}.

(** ** Loops that stop at an error *)

Lemma try_fold_app {A B E} (f : A → B → Result A E) l k : ∀ a,
  try_fold f a (l ++ k) = match try_fold f a l with Ok a' => try_fold f a' k | Err e => Err e end.
Proof. induction l as [|x l IH]; intros a; [done|]. cbn [app try_fold]. by destruct (f a x). Qed.

Lemma try_fold_map {A B C E} (f : A → C → Result A E) (g : B → C) l : ∀ a,
  try_fold f a (map g l) = try_fold (λ a x, f a (g x)) a l.
Proof. induction l as [|x l IH]; intros a; [done|]. cbn [map try_fold]. by destruct (f a (g x)). Qed.

Lemma try_fold_ext {A B E} (f g : A → B → Result A E) l :
  (∀ a x, x ∈ l → f a x = g a x) → ∀ a, try_fold f a l = try_fold g a l.
Proof.
  induction l as [|x l IH]; intros Hfg a; [done|]. cbn [try_fold]. rewrite Hfg by (by left).
  destruct (g a x); [|done]. apply IH. intros; apply Hfg. by right.
Qed.

(** A nested loop runs over the concatenation. *)
Lemma try_fold_concat {A B C E} (f : A → C → Result A E) (g : B → list C) l : ∀ a,
  try_fold (λ a x, try_fold f a (g x)) a l = try_fold f a (concat (map g l)).
Proof.
  induction l as [|x l IH]; intros a; [done|]. cbn [map concat try_fold]. rewrite try_fold_app.
  by destruct (try_fold f a (g x)).
Qed.

Lemma try_fold_omap {A B C E} (f : A → C → Result A E) (g : B → option C) l : ∀ a,
  try_fold (λ a x, match g x with Some y => f a y | None => Ok a end) a l = try_fold f a (omap g l).
Proof.
  induction l as [|x l IH]; intros a; [done|]. cbn. destruct (g x) as [y|]; [|done].
  cbn [try_fold]. by destruct (f a y).
Qed.

(** ** The loops as one run over the steps *)

(** One step added to the builder. *)
Definition add_step `{IdStorage} (labels_to_hide : gset string) (b : CltsBuilder) (x : StateId * LabelStep)
    : Result CltsBuilder CltsError :=
  match intern (cb_labels b) (ls_payload x.2) with
  | (Err e, _) => Err e
  | (Ok l, store) =>
    Ok (transition_ids x.1 [l] (ls_target x.2)
         (set_controllability l (ls_control (hide_step labels_to_hide x.2)) (set_labels store b)))
  end.

Definition steps_from (c : Clts) (s : StateId) : list (StateId * LabelStep) := map (pair s) (label_steps c s).
Definition all_steps (c : Clts) : list (StateId * LabelStep) := concat (map (steps_from c) (states c)).

Section run.
Context `{IdStorage} (c : Clts) (Hc : clts_ok c) (labels_to_hide : gset string).
Context (m : gmap StateId StateId) (Hm : ∀ s, s < state_count c → m !! s = Some s).

Lemma hide_label_step s t b l :
  hide_label c labels_to_hide s (target t) b l =
  match label_step c t l with Some x => add_step labels_to_hide b (s, x) | None => Ok b end.
Proof using Type. unfold hide_label, label_step. by destruct (label_payload c l). Qed.

Lemma hide_transition_steps s t b : target t < state_count c →
  hide_transition c labels_to_hide m s b t =
  try_fold (add_step labels_to_hide) b (map (pair s) (omap (label_step c t) (t_labels t))).
Proof using Hm.
  intros Ht. unfold hide_transition. rewrite (Hm _ Ht), try_fold_map, <-try_fold_omap.
  apply try_fold_ext. intros a l _. apply hide_label_step.
Qed.

Lemma hide_outgoing_steps b s : s < state_count c →
  hide_outgoing c labels_to_hide m b s = try_fold (add_step labels_to_hide) b (steps_from c s).
Proof using Hc Hm.
  intros Hs. unfold hide_outgoing, steps_from, label_steps. rewrite (Hm _ Hs), concat_map, map_map, <-try_fold_concat.
  apply try_fold_ext. intros a t Ht. apply hide_transition_steps. by apply (ok_target c Hc s).
Qed.

Lemma hide_run b :
  try_fold (hide_outgoing c labels_to_hide m) b (states c) = try_fold (add_step labels_to_hide) b (all_steps c).
Proof using Hc Hm.
  unfold all_steps. rewrite <-try_fold_concat. apply try_fold_ext. intros a s Hs.
  apply hide_outgoing_steps. unfold states in Hs. apply elem_of_seq in Hs. lia.
Qed.
End run.

(** ** The copied states *)

Section copied.
Context `{IdStorage} (c : Clts) (Hc : clts_ok c) (Hs : states_ok c).
Context (Hfit : (N.of_nat (state_count c) <= id_max + 1)%N).

(** The state phase is that of a quotient with one state per class. *)
Lemma hide_states_spec k : k ≤ state_count c →
  let acc := foldl (hide_state c) (CltsBuilder_default, ∅) (seq 0 k) in
  states_added c LabelStoreBuilder_default (map (λ s, [s]) (seq 0 k)) acc.1 ∧
  ∀ s, acc.2 !! s = if decide (s < k) then Some s else None.
Proof using All.
  induction k as [|k IH]; intros Hk acc.
  { split; [|intros s; cbn; by rewrite lookup_empty].
    apply (states_added_nil c (Some LabelStoreBuilder_default)). apply label_builder_ok_default. }
  destruct IH as [Hsa Hmap]; [lia|]. subst acc. rewrite seq_S, foldl_app, map_app. cbn [foldl map Nat.add].
  destruct (foldl _ _ (seq 0 k)) as [b mapping]. cbn [fst snd] in Hsa, Hmap.
  destruct (add_class_states c Hc Hs LabelStoreBuilder_default label_builder_ok_default Hfit
    (map (λ s, [s]) (seq 0 k)) b [k] Hsa) as (b1 & E & Hsa'); [done| | |rewrite length_map, length_seq; lia|].
  { intros s ->%list_elem_of_singleton. lia. }
  { intros ms (s & -> & [_ Hlt]%elem_of_seq)%list_elem_of_fmap. cbn. lia. }
  unfold hide_state. change (rep [k]) with k in *. rewrite E. rewrite length_map, length_seq in *.
  cbn [existsb] in Hsa'. rewrite orb_false_r in Hsa'. split; [exact Hsa'|].
  intros s. cbn [snd]. destruct (decide (s = k)) as [->|Hne].
  - rewrite lookup_insert_eq. by rewrite decide_True by lia.
  - rewrite lookup_insert_ne, Hmap by done. repeat case_decide; done || lia.
Qed.
End copied.

(** The state phase reads names, initial flags and variables only. *)
Lemma hide_states_same `{IdStorage} c c' :
  state_names c' = state_names c → initial_states c' = initial_states c →
  ∀ l acc, (∀ s, s ∈ l → state_variables c' s = state_variables c s) → foldl (hide_state c') acc l = foldl (hide_state c) acc l.
Proof.
  intros Hn Hi l. induction l as [|s l IH]; intros acc Hv; [done|]. cbn [foldl].
  rewrite IH by (intros; apply Hv; by right). f_equal.
  destruct acc as [b mapping]. unfold hide_state, state_name. by rewrite Hn, Hi, Hv by (by left).
Qed.

(** ** The copied steps *)

(** The transition a step becomes: its label is interned under the payload. *)
Definition emitted_as (entries : list (list string)) (x : StateId * LabelStep) (t : TransitionSpec) : Prop :=
  spec_from t = x.1 ∧ spec_to t = ls_target x.2 ∧ spec_modality t = Sharp ∧
  ∃ l, spec_labels t = [l] ∧ entries !! l = Some (ls_payload x.2).

Lemma emitted_as_mono entries entries' x t :
  entries `prefix_of` entries' → emitted_as entries x t → emitted_as entries' x t.
Proof.
  intros Hp (? & ? & ? & l & ? & ?). split_and!; [done..|]. exists l. split; [done|]. by eapply prefix_lookup_Some.
Qed.

(** One step, on the parts of the builder it changes. *)
Definition with_step (l : LabelId) (k : LabelControllability) (store : LabelStoreBuilder)
    (x : StateId * LabelStep) (b : CltsBuilder) : CltsBuilder :=
  transition_ids x.1 [l] (ls_target x.2) (set_controllability l k (set_labels store b)).

Lemma with_step_ok l k store x b :
  builder_ok b → label_builder_ok store →
  x.1 < length (cb_state_names b) → ls_target x.2 < length (cb_state_names b) → builder_ok (with_step l k store x b).
Proof. intros Hok Hst Hx Hx'. apply transition_ids_ok; [|done..]. destruct Hok. by constructor. Qed.

Lemma label_entries_inj store (Hst : label_builder_ok store) l l' e :
  lb_entries store !! l = Some e → lb_entries store !! l' = Some e → l = l'.
Proof. intros Hl%(lok_map _ Hst) Hl'%(lok_map _ Hst). congruence. Qed.

Lemma Forall2_elem_left {A B} (P : A → B → Prop) l k x :
  Forall2 P l k → x ∈ l → ∃ y, y ∈ k ∧ P x y.
Proof.
  intros HP (i & Hi)%list_elem_of_lookup. destruct (Forall2_lookup_l _ _ _ _ _ HP Hi) as (y & Hy & ?).
  exists y. split; [by eapply list_elem_of_lookup_2|done].
Qed.

Section emitted.
Context `{IdStorage} (labels_to_hide : gset string) (b0 : CltsBuilder) (Hb0 : builder_ok b0).
Context (H0 : cb_labels b0 = LabelStoreBuilder_default ∧ cb_transitions b0 = [] ∧ cb_label_controllability b0 = ∅).
Context (allowed : list (list string)).

(** The builder after the steps [xs]. *)
Record steps_added (xs : list (StateId * LabelStep)) (b : CltsBuilder) : Prop := {
  st_ok : builder_ok b;
  st_same : b = set_label_controllability (cb_label_controllability b)
                  (set_transitions (cb_transitions b) (set_labels (cb_labels b) b0));
  st_entries : ∀ e, e ∈ lb_entries (cb_labels b) → e ∈ allowed;
  st_emitted : Forall2 (emitted_as (lb_entries (cb_labels b))) xs (cb_transitions b);
  st_control : ∀ x l, x ∈ xs → lb_entries (cb_labels b) !! l = Some (ls_payload x.2) →
    cb_label_controllability b !! l = Some (ls_control (hide_step labels_to_hide x.2))
}.

Lemma steps_added_nil : steps_added [] b0.
Proof using Hb0 H0.
  destruct H0 as (Hl & Ht & Hk). constructor; [done|by rewrite Hl, Ht, Hk, <-Hl, <-Ht, <-Hk; destruct b0| | |].
  - rewrite Hl. by intros e ?%not_elem_of_nil.
  - rewrite Ht. constructor.
  - by intros x l ?%not_elem_of_nil.
Qed.

Context (Hallowed : (N.of_nat (length allowed) <= id_max + 1)%N).
Context (all : list (StateId * LabelStep)).
Context (Hrange : ∀ x, x ∈ all → x.1 < length (cb_state_names b0) ∧ ls_target x.2 < length (cb_state_names b0)).
Context (Hpayload : ∀ x, x ∈ all → ls_payload x.2 ∈ allowed ∧ canon (ls_payload x.2) = ls_payload x.2).
Context (Hcontrol : ∀ x y, x ∈ all → y ∈ all → ls_payload x.2 = ls_payload y.2 → ls_control x.2 = ls_control y.2).

Lemma hide_step_control x y :
  x ∈ all → y ∈ all → ls_payload x.2 = ls_payload y.2 →
  ls_control (hide_step labels_to_hide x.2) = ls_control (hide_step labels_to_hide y.2).
Proof using Hcontrol. intros Hx Hy Hp. unfold hide_step. cbn. by rewrite Hp, (Hcontrol x y). Qed.

Lemma add_step_spec xs b x :
  steps_added xs b → (∀ y, y ∈ xs ++ [x] → y ∈ all) →
  ∃ b', add_step labels_to_hide b x = Ok b' ∧ steps_added (xs ++ [x]) b'.
Proof using Hrange Hpayload Hcontrol Hallowed.
  intros [Hok Hsame Hent Hem Hct] Hall. assert (Hx : x ∈ all) by (apply Hall, elem_of_app; right; by left).
  assert (Hxs : ∀ y, y ∈ xs → y ∈ all) by (intros; apply Hall, elem_of_app; by left).
  destruct (Hpayload x Hx) as [Hin Hcan].
  destruct (intern_bounded allowed (cb_labels b) (ls_payload x.2)) as (l & store & E & Hst & Hsub & Hpre & Hl);
    [apply Hok|exact Hent|done..|].
  assert (Hnames : cb_state_names b = cb_state_names b0) by (by rewrite Hsame).
  unfold add_step. rewrite E. eexists. split; [done|].
  fold (with_step l (ls_control (hide_step labels_to_hide x.2)) store x b). constructor.
  - apply with_step_ok; [done..| |]; rewrite Hnames; by apply Hrange.
  - by rewrite Hsame.
  - done.
  - cbn. apply Forall2_app; [|constructor; [|constructor]].
    + eapply Forall2_impl; [exact Hem|]. intros ? ?. by apply emitted_as_mono.
    + split_and!; try done. by exists l.
  - cbn. intros y l' Hy Hl'. destruct (decide (l' = l)) as [->|Hne].
    + rewrite lookup_insert_eq. f_equal. apply hide_step_control; [by auto..|]. congruence.
    + rewrite lookup_insert_ne by done. apply elem_of_app in Hy as [Hy| ->%list_elem_of_singleton].
      * apply Hct; [done|]. destruct (Forall2_elem_left _ _ _ y Hem Hy) as (t & _ & _ & _ & _ & l0 & _ & Hl0).
        enough (l0 = l') as <- by done. apply (label_entries_inj store Hst l0 l' (ls_payload y.2)); [|done].
        by eapply prefix_lookup_Some.
      * exfalso. apply Hne. by apply (label_entries_inj store Hst l' l (ls_payload x.2)).
Qed.

Lemma add_steps_spec rest : ∀ xs b,
  steps_added xs b → (∀ y, y ∈ xs ++ rest → y ∈ all) →
  ∃ b', try_fold (add_step labels_to_hide) b rest = Ok b' ∧ steps_added (xs ++ rest) b'.
Proof using Hrange Hpayload Hcontrol Hallowed.
  induction rest as [|x rest IH]; intros xs b Hb Hall; [exists b; by rewrite app_nil_r|].
  replace (xs ++ x :: rest) with ((xs ++ [x]) ++ rest) in Hall |- * by (by rewrite <-app_assoc).
  destruct (add_step_spec xs b x Hb) as (b1 & E & Hb1); [intros y Hy; apply Hall, elem_of_app; by left|].
  cbn [try_fold]. rewrite E. by apply IH.
Qed.
End emitted.

(** ** The copy *)

Lemma elem_of_label_steps c s y :
  y ∈ label_steps c s ↔ ∃ t l, t ∈ outgoing c s ∧ l ∈ t_labels t ∧ label_step c t l = Some y.
Proof.
  unfold label_steps. rewrite list_elem_of_In, in_concat. setoid_rewrite <-list_elem_of_In. split.
  - intros (k & (t & -> & Ht)%list_elem_of_fmap & (l & Hl & Hy)%list_elem_of_omap). eauto.
  - intros (t & l & Ht & Hl & Hy). exists (omap (label_step c t) (t_labels t)). split.
    + apply list_elem_of_fmap. eauto.
    + apply list_elem_of_omap. eauto.
Qed.

Lemma label_step_Some c t l y :
  label_step c t l = Some y ↔ label_payload c l = Some (ls_payload y) ∧ ls_target y = target t ∧
    ls_control y = default LC_Uncontrollable (label_controllability c !! l).
Proof.
  unfold label_step. destruct (label_payload c l) as [p|]; [|naive_solver].
  destruct y as [a q k]; simpl. naive_solver.
Qed.

(** The steps of one state, out of all of them. *)
Lemma steps_of_source (f : StateId → list LabelStep) s ks :
  NoDup ks → map snd (List.filter (λ x, x.1 =? s) (concat (map (λ k, map (pair k) (f k)) ks)))
    = if decide (s ∈ ks) then f s else [].
Proof.
  assert (Hrow : ∀ k (l : list LabelStep), map snd (List.filter (λ x, x.1 =? s) (map (pair k) l)) = if k =? s then l else []).
  { intros k l. induction l as [|y l IH]; [by destruct (k =? s)|]. cbn. destruct (k =? s); cbn; [by f_equal|done]. }
  induction ks as [|k ks IH]; intros Hnd; [done|]. apply NoDup_cons in Hnd as [Hk Hnd]. cbn [map concat].
  rewrite List.filter_app, map_app, Hrow, IH by done. destruct (Nat.eqb_spec k s) as [->|Hne].
  - rewrite (decide_False (P := s ∈ ks)), decide_True by (done || by left). apply app_nil_r.
  - cbn. destruct (decide (s ∈ ks)); [by rewrite decide_True by (by right)|].
    rewrite decide_False; [done|]. by intros [?|?]%elem_of_cons.
Qed.

(** A built system's alphabets classify the labels of the builder. *)
Lemma build_classes b c l : build b = Some (Ok c) →
  let has k := l ∈ all_labels b ∧ labelled_as (cb_label_controllability b) l = k in
  (l ∈ uncontrollable_alphabet c ↔ has LC_Uncontrollable) ∧
  (l ∈ controllable_alphabet c ↔ has LC_Controllable) ∧ (l ∈ internal_alphabet c ↔ has LC_Internal).
Proof.
  unfold build. destruct (cb_state_overflow b); [done|]. destruct (fill_adjacency _ _ _) as [[out inc]|]; [|done].
  destruct (build_alphabets b) as [[unc con] int] eqn:Ha. intros ?; simplify_eq/=. unfold build_alphabets in Ha.
  pose proof (classify_spec _ _ _ _ _ _ _ _ Ha l) as (-> & -> & ->). rewrite elem_of_elements. set_solver.
Qed.

(** The state phase declares no label. *)
Lemma hide_state_declared `{IdStorage} c acc s :
  cb_declared_labels (hide_state c acc s).1 = cb_declared_labels acc.1.
Proof.
  assert (Hv : ∀ k vs b, cb_declared_labels (with_variables_for_state k vs b) = cb_declared_labels b).
  { intros k vs b. unfold with_variables_for_state. by destruct (intern_variables (cb_variables b) vs). }
  assert (Hi : ∀ name b, cb_declared_labels (insert_state_owned name b).2 = cb_declared_labels b).
  { intros name b. unfold insert_state_owned. destruct (cb_state_map b !! name); [done|].
    destruct (try_from_usize _); [|done]. by destruct (intern_variables (cb_variables b) []). }
  destruct acc as [b m]. unfold hide_state. specialize (Hi (default "state"%string (state_name c s)) b).
  destruct (insert_state_owned _ b) as [[id|] b1]; [|done]. cbn [fst snd] in *.
  destruct (negb _), (bool_decide _); rewrite ?Hv; done.
Qed.

Lemma hide_states_declared `{IdStorage} c l : ∀ acc,
  cb_declared_labels (foldl (hide_state c) acc l).1 = cb_declared_labels acc.1.
Proof. induction l as [|s l IH]; intros acc; [done|]. cbn [foldl]. by rewrite IH, hide_state_declared. Qed.

Section hidden.
Context (c : Clts) (Hc : clts_ok c) (Hs : states_ok c).
Let n := state_count c.

Lemma elem_of_all_steps x : x ∈ all_steps c ↔ x.1 < n ∧ x.2 ∈ label_steps c x.1.
Proof using Type.
  unfold all_steps, states, steps_from. rewrite list_elem_of_In, in_concat. setoid_rewrite <-list_elem_of_In. split.
  - intros (k & (s & -> & Hin%elem_of_seq)%list_elem_of_fmap & (y & -> & Hy)%list_elem_of_fmap).
    unfold n. split; [cbn; lia|done].
  - intros [Hlt Hy]. exists (map (pair x.1) (label_steps c x.1)). split.
    + apply list_elem_of_fmap. exists x.1. split; [done|]. apply elem_of_seq. unfold n in Hlt. lia.
    + apply list_elem_of_fmap. exists x.2. by destruct x.
Qed.

Lemma all_steps_ok x : x ∈ all_steps c →
  x.1 < n ∧ ls_target x.2 < n ∧ ls_payload x.2 ∈ u_sets (labels c) ∧ canon (ls_payload x.2) = ls_payload x.2.
Proof using Hc Hs.
  intros [Hlt (t & l & Ht & _ & (Hp & -> & _)%label_step_Some)%elem_of_label_steps]%elem_of_all_steps.
  split_and!; [done|by apply (ok_target c Hc x.1)|by eapply list_elem_of_lookup_2|by eapply so_payloads].
Qed.

Lemma all_steps_control x y : x ∈ all_steps c → y ∈ all_steps c →
  ls_payload x.2 = ls_payload y.2 → ls_control x.2 = ls_control y.2.
Proof using Hs.
  intros [_ (t & l & _ & _ & (Hp & _ & ->)%label_step_Some)%elem_of_label_steps]%elem_of_all_steps.
  intros [_ (t' & l' & _ & _ & (Hp' & _ & ->)%label_step_Some)%elem_of_label_steps]%elem_of_all_steps Heq.
  rewrite Heq in Hp. by rewrite (so_payload_inj c Hs l l' _ Hp Hp').
Qed.

Context `{IdStorage} (Hfit : (N.of_nat (state_count c) <= id_max + 1)%N).
Context (Hlabels : (N.of_nat (length (u_sets (labels c))) <= id_max + 1)%N).
Context (labels_to_hide : gset string).

Lemma hide_labels_builder : ∃ b0 b,
  hide_labels c labels_to_hide = build b ∧
  states_added c LabelStoreBuilder_default (map (λ s, [s]) (seq 0 n)) b0 ∧ cb_declared_labels b0 = ∅ ∧
  steps_added labels_to_hide b0 (u_sets (labels c)) (all_steps c) b.
Proof using All.
  destruct (hide_states_spec c Hc Hs Hfit n (le_n n)) as [Hsa Hmap]. unfold hide_labels, states. fold n.
  pose proof (hide_states_declared c (seq 0 n) (CltsBuilder_default, ∅)) as Hdecl.
  destruct (foldl _ _ (seq 0 n)) as [b0 m]. cbn [fst snd] in Hsa, Hmap.
  assert (Hn : length (cb_state_names b0) = n) by (rewrite (sa_count _ _ _ _ Hsa), length_map; apply length_seq).
  destruct (add_steps_spec labels_to_hide b0 (u_sets (labels c)) Hlabels (all_steps c)) with (rest := all_steps c)
    (xs := @nil (StateId * LabelStep)) (b := b0) as (b & E & Hb).
  - intros x (? & ? & _)%all_steps_ok. by rewrite Hn.
  - by intros x (_ & _ & ? & ?)%all_steps_ok.
  - apply all_steps_control.
  - apply steps_added_nil; [apply Hsa|]. split_and!; apply Hsa.
  - done.
  - exists b0, b. split_and!; [|done..]. fold (states c). rewrite (hide_run c Hc labels_to_hide m); [by rewrite E|].
    intros s Hlt. rewrite Hmap. by rewrite decide_True.
Qed.

Section copy.
Context (b0 b : CltsBuilder) (Hsa : states_added c LabelStoreBuilder_default (map (λ s, [s]) (seq 0 n)) b0).
Context (Hb : steps_added labels_to_hide b0 (u_sets (labels c)) (all_steps c) b).
Context (c' : Clts) (Hbuild : build b = Some (Ok c')).
Let specs := cb_transitions b.

Lemma copy_count : length (cb_state_names b) = n ∧ state_count c' = n.
Proof using Hsa Hb Hbuild.
  assert (Hn : length (cb_state_names b) = n).
  { rewrite (st_same _ _ _ _ _ Hb). cbn. rewrite (sa_count _ _ _ _ Hsa), length_map. apply length_seq. }
  split; [done|]. unfold state_count. by rewrite (bc_names _ _ (build_copied b c' Hbuild)).
Qed.

Lemma copy_outgoing s : outgoing c' s = specs_from s specs.
Proof using Hsa Hb Hbuild.
  destruct (build_rows b) as (c1 & _ & _ & _ & Hb1 & _ & _ & _ & Hout & _); [apply Hb| |].
  { rewrite (st_same _ _ _ _ _ Hb). apply Hsa. }
  assert (c1 = c') as -> by congruence. rewrite Hout. case_decide as Hlt; [done|].
  destruct (specs_from s specs) as [|t l] eqn:E; [done|exfalso].
  assert (Ht : t ∈ specs_from s specs) by (rewrite E; by left).
  apply elem_of_specs_from in Ht as (x & Hx & <- & _). apply (bok_specs b) in Hx as [? _]; [|apply Hb].
  destruct copy_count as [H1 H2]. apply Hlt. by rewrite H2, <-H1.
Qed.

Lemma copy_payload l : label_payload c' l = lb_entries (cb_labels b) !! l.
Proof using Hbuild. unfold label_payload. by rewrite (bc_labels _ _ (build_copied b c' Hbuild)). Qed.

(** A copied transition carries one label, that of its step. *)
Lemma copy_emitted x t : x ∈ all_steps c → emitted_as (lb_entries (cb_labels b)) x t →
  omap (label_step c' (spec_outgoing t)) (spec_labels t) = [hide_step labels_to_hide x.2].
Proof using Hb Hbuild.
  intros Hx (_ & Hto & _ & l & -> & Hl). cbn. unfold label_step. rewrite copy_payload, Hl.
  rewrite (bc_controllability _ _ (build_copied b c' Hbuild)), (st_control _ _ _ _ _ Hb x l Hx Hl). cbn.
  by rewrite Hto.
Qed.

Lemma copy_run s : ∀ xs ts, (∀ x, x ∈ xs → x ∈ all_steps c) →
  Forall2 (emitted_as (lb_entries (cb_labels b))) xs ts →
  concat (map (λ t, omap (label_step c' t) (t_labels t)) (specs_from s ts))
    = map (hide_step labels_to_hide) (map snd (List.filter (λ x, x.1 =? s) xs)).
Proof using Hb Hbuild.
  intros xs ts Hin. induction 1 as [|x t xs ts Hxt _ IH]; [done|]. pose proof (proj1 Hxt) as Hfrom.
  unfold specs_from in *. cbn [List.filter]. rewrite Hfrom.
  assert (IH' := IH (λ y Hy, Hin y (list_elem_of_further _ _ _ Hy))).
  destruct (x.1 =? s); [|exact IH']. cbn [map concat]. rewrite IH'.
  change (t_labels (spec_outgoing t)) with (spec_labels t). rewrite (copy_emitted x t) by (done || apply Hin; by left). done.
Qed.

Lemma copy_steps s : label_steps c' s = map (hide_step labels_to_hide) (label_steps c s).
Proof using Hc Hsa Hb Hbuild.
  unfold label_steps at 1. rewrite copy_outgoing, (copy_run s (all_steps c)) by (done || apply Hb). f_equal.
  unfold all_steps, steps_from. rewrite steps_of_source by apply NoDup_seq. case_decide as Hin; [done|].
  unfold label_steps. destruct (outgoing c s) as [|t l] eqn:E; [done|exfalso]. apply Hin.
  apply elem_of_seq. split; [apply Nat.le_0_l|]. apply (outgoing_in_range c s t Hc). rewrite E. by left.
Qed.

Lemma copy_transition s t : t ∈ outgoing c' s →
  modality t = Sharp ∧ ∃ x l, x ∈ all_steps c ∧ t_labels t = [l] ∧ label_payload c' l = Some (ls_payload x.2) ∧
    label_controllability c' !! l = Some (ls_control (hide_step labels_to_hide x.2)).
Proof using Hsa Hb Hbuild.
  rewrite copy_outgoing. intros (y & Hy & _ & ->)%elem_of_specs_from. apply list_elem_of_lookup in Hy as [i Hi].
  destruct (Forall2_lookup_r _ _ _ _ _ (st_emitted _ _ _ _ _ Hb) Hi) as (x & Hx & _ & _ & Hm & l & Hl & He).
  assert (Hin : x ∈ all_steps c) by (by eapply list_elem_of_lookup_2).
  split; [done|]. exists x, l. split_and!; [done..|by rewrite copy_payload|].
  rewrite (bc_controllability _ _ (build_copied b c' Hbuild)). by apply (st_control _ _ _ _ _ Hb).
Qed.

Lemma copy_names : state_names c' = state_names c.
Proof using Hsa Hb Hbuild.
  rewrite (bc_names _ _ (build_copied b c' Hbuild)), (st_same _ _ _ _ _ Hb). cbn. apply list_eq. intros i.
  destruct (decide (i < n)) as [Hlt|Hge].
  - rewrite (sa_names _ _ _ _ Hsa i [i]); [done|]. rewrite list_lookup_fmap, lookup_seq_lt by done. done.
  - rewrite !lookup_ge_None_2; [done|by apply Nat.nlt_ge|].
    rewrite (sa_count _ _ _ _ Hsa), length_map, length_seq. by apply Nat.nlt_ge.
Qed.

Lemma copy_initial : initial_states c' = initial_states c.
Proof using Hs Hsa Hb Hbuild.
  rewrite (bc_initial _ _ (build_copied b c' Hbuild)), (st_same _ _ _ _ _ Hb). cbn. apply set_eq. intros i.
  rewrite (sa_initial _ _ _ _ Hsa). setoid_rewrite list_lookup_fmap. split.
  - intros (m & s & Hm & Hin & Hi). destruct (seq 0 n !! i) as [j|] eqn:E; [|done].
    apply lookup_seq in E as [-> _]. injection Hm as <-. by apply list_elem_of_singleton in Hin as ->.
  - intros Hi. exists [i], i. rewrite lookup_seq_lt by (by apply (so_initial c Hs)).
    split_and!; [done|by left|done].
Qed.

Lemma copy_variables s : s < n → state_variables c' s = state_variables c s.
Proof using Hs Hsa Hb Hbuild.
  intros Hlt. destruct (sa_variables _ _ _ _ Hsa s [s]) as (id & Hid & Hset); [by rewrite list_lookup_fmap, lookup_seq_lt|].
  change (rep [s]) with s in Hset. rewrite (so_variable_sets c Hs) in Hset.
  refine (proj1 (build_variables b c' s id _ EmptyString (st_ok _ _ _ _ _ Hb) Hbuild _ _));
    rewrite (st_same _ _ _ _ _ Hb); done.
Qed.

(** The labels of the copy are those its transitions carry. *)
Context (Hdecl : cb_declared_labels b0 = ∅).

Lemma copy_used l : l ∈ all_labels b ↔ ∃ s t, t ∈ outgoing c' s ∧ l ∈ t_labels t.
Proof using Hsa Hb Hbuild Hdecl.
  rewrite elem_of_all_labels. rewrite (st_same _ _ _ _ _ Hb). cbn. rewrite Hdecl. setoid_rewrite copy_outgoing. split.
  - intros [(t & Ht & Hl)|Hl]; [|by apply not_elem_of_empty in Hl].
    exists (spec_from t), (spec_outgoing t). split; [|done]. apply elem_of_specs_from. eauto.
  - intros (s & t & (y & Hy & _ & ->)%elem_of_specs_from & Hl). left. by exists y.
Qed.

Lemma copy_internal l : l ∈ internal_alphabet c' ↔
  label_controllability c' !! l = Some LC_Internal ∧ ∃ s t, t ∈ outgoing c' s ∧ l ∈ t_labels t.
Proof using Hsa Hb Hbuild Hdecl.
  destruct (build_classes b c' l Hbuild) as (_ & _ & ->). rewrite copy_used.
  rewrite (bc_controllability _ _ (build_copied b c' Hbuild)). unfold labelled_as.
  destruct (cb_label_controllability b !! l); simpl; naive_solver.
Qed.

Lemma copy_alphabet x : x ∈ collect_alphabet c' ↔ ∃ s y, y ∈ label_steps c s ∧ x ∈ ls_payload y.
Proof using Hc Hsa Hb Hbuild Hdecl.
  unfold collect_alphabet. rewrite !elem_of_union, !elem_of_symbols_of.
  assert (Hcl : ∀ l, l ∈ controllable_alphabet c' ∨ l ∈ internal_alphabet c' ∨ l ∈ uncontrollable_alphabet c' ↔ l ∈ all_labels b).
  { intros l. destruct (build_classes b c' l Hbuild) as (-> & -> & ->). destruct (labelled_as _ l); naive_solver. }
  transitivity (∃ l p, l ∈ all_labels b ∧ label_payload c' l = Some p ∧ x ∈ p); [setoid_rewrite <-Hcl; naive_solver|].
  setoid_rewrite copy_used. split.
  - intros (l & p & (s & t & Ht & Hl) & Hp & Hx). destruct (copy_transition s t Ht) as (_ & [s' y] & l' & Hy & Ht' & Hp' & _).
    rewrite Ht' in Hl. apply list_elem_of_singleton in Hl as ->. rewrite Hp in Hp'. injection Hp' as ->.
    apply elem_of_all_steps in Hy as [_ Hy]. by exists s', y.
  - intros (s & y & Hy & Hx). assert (Hy' : (s, y) ∈ all_steps c).
    { apply elem_of_all_steps. split; [|done]. apply elem_of_label_steps in Hy as (t & l & Ht & _).
      by apply (outgoing_in_range c s t Hc). }
    destruct (Forall2_elem_left _ _ _ _ (st_emitted _ _ _ _ _ Hb) Hy') as (t & Ht & _ & _ & _ & l & Hl & He).
    exists l, (ls_payload y). rewrite copy_payload. split_and!; [|done..]. apply copy_used, elem_of_all_labels.
    left. exists t. split; [done|]. rewrite Hl. by left.
Qed.

Lemma copy_hidden : hidden_of c labels_to_hide c'.
Proof using Hc Hs Hsa Hb Hbuild Hdecl.
  constructor.
  - by apply (build_ok b), Hbuild; apply Hb.
  - by apply (build_states_ok b), Hbuild; apply Hb.
  - apply copy_names.
  - apply copy_initial.
  - intros s Hlt. by apply copy_variables.
  - apply copy_steps.
  - intros s t Ht. destruct (copy_transition s t Ht) as (Hm & x & l & _ & -> & _). done.
  - intros s t l Ht Hl. destruct (copy_transition s t Ht) as (_ & x & l' & _ & Hl' & Hp & Hk).
    rewrite Hl' in Hl. apply list_elem_of_singleton in Hl as ->. eauto.
  - apply copy_internal.
  - apply copy_alphabet.
Qed.
End copy.

Lemma hide_labels_spec : ∃ c', hide_labels c labels_to_hide = Some (Ok c') ∧ hidden_of c labels_to_hide c'.
Proof using All.
  destruct hide_labels_builder as (b0 & b & -> & Hsa & Hdecl & Hb).
  destruct (build_rows b) as (c' & _ & _ & _ & Hbuild & _); [apply Hb| |].
  { rewrite (st_same _ _ _ _ _ Hb). apply Hsa. }
  exists c'. split; [done|]. by apply (copy_hidden b0 b Hsa Hb c').
Qed.
End hidden.

(** What [hide_labels] returns is the copy. *)
Lemma hide_labels_copy `{IdStorage} c :
  clts_ok c → states_ok c →
  (N.of_nat (state_count c) <= id_max + 1)%N → (N.of_nat (length (u_sets (labels c))) <= id_max + 1)%N →
  ∀ labels_to_hide c', hide_labels c labels_to_hide = Some (Ok c') → hidden_of c labels_to_hide c'.
Proof.
  intros Hc Hs Hfit Hlabels hide c' E.
  destruct (hide_labels_spec c Hc Hs Hfit Hlabels hide) as (c0 & E0 & Hh). congruence.
Qed.

(** ** Hiding in two passes *)

Lemma should_hide_union H1 H2 p : should_hide (H1 ∪ H2) p = should_hide H1 p || should_hide H2 p.
Proof.
  apply bool_eq_iff. rewrite orb_true_iff. unfold should_hide. rewrite !existsb_spec.
  setoid_rewrite bool_decide_eq_true. set_solver.
Qed.

Lemma hide_step_union H1 H2 x : hide_step H2 (hide_step H1 x) = hide_step (H1 ∪ H2) x.
Proof.
  unfold hide_step. cbn [ls_target ls_payload ls_control]. rewrite should_hide_union.
  by destruct (should_hide H1 (ls_payload x)), (should_hide H2 (ls_payload x)).
Qed.

Lemma hide_again `{IdStorage} c c1 H1 H2 :
  clts_ok c → states_ok c → (N.of_nat (state_count c) <= id_max + 1)%N → hidden_of c H1 c1 →
  hide_labels c1 H2 = hide_labels c (H1 ∪ H2).
Proof.
  intros Hc Hs Hfit Hh. assert (Hn : state_count c1 = state_count c) by (unfold state_count; by rewrite (ho_names _ _ _ Hh)).
  destruct (hide_states_spec c Hc Hs Hfit (state_count c) (le_n _)) as [_ Hmap].
  unfold hide_labels, states. rewrite Hn, (hide_states_same c c1 (ho_names _ _ _ Hh) (ho_initial _ _ _ Hh)).
  2:{ intros s [_ Hlt]%elem_of_seq. by apply (ho_variables _ _ _ Hh). }
  destruct (foldl _ _ _) as [b m]. cbn [fst snd] in Hmap.
  assert (Hm : ∀ s, s < state_count c → m !! s = Some s) by (intros s Hlt; by rewrite Hmap, decide_True).
  assert (Hst : states c1 = states c) by (unfold states; by rewrite Hn).
  fold (states c). rewrite (hide_run c Hc) by done. rewrite <-Hst, (hide_run c1 (ho_ok _ _ _ Hh)) by (by rewrite Hn).
  replace (all_steps c1) with (map (λ x, (x.1, hide_step H1 x.2)) (all_steps c)).
  - rewrite try_fold_map. erewrite try_fold_ext; [done|]. intros a x _. unfold add_step.
    cbn [fst snd]. by rewrite hide_step_union.
  - unfold all_steps, states. rewrite Hn, concat_map, map_map. f_equal. apply map_ext. intros s.
    unfold steps_from. by rewrite (ho_steps _ _ _ Hh), !map_map.
Qed.

(** ** Hiding and composition *)

(** A transition of one copy is a transition of every copy. *)
Lemma hidden_transition c H1 H2 c1 c2 s t :
  hidden_of c H1 c1 → hidden_of c H2 c2 → t ∈ outgoing c1 s →
  ∃ t', t' ∈ outgoing c2 s ∧ target t' = target t ∧ modality t' = modality t ∧
    transition_labels c2 t' = transition_labels c1 t.
Proof.
  intros Hh1 Hh2 Ht.
  assert (Hsingle : ∀ H c0 t0, hidden_of c H c0 → t0 ∈ outgoing c0 s → modality t0 = Sharp ∧
    ∃ l p, t_labels t0 = [l] ∧ label_payload c0 l = Some p ∧ transition_labels c0 t0 = canon p).
  { intros H c0 t0 Hh Ht0. destruct (ho_sharp _ _ _ Hh s t0 Ht0) as [Hm Hlen]. split; [done|].
    destruct (t_labels t0) as [|l [|]] eqn:El; try done.
    destruct (ho_recorded _ _ _ Hh s t0 l Ht0) as (p & _ & Hp & _); [rewrite El; by left|].
    exists l, p. split_and!; [done..|]. unfold transition_labels. rewrite El. cbn. by rewrite Hp, app_nil_r. }
  destruct (Hsingle H1 c1 t Hh1 Ht) as (Hm & l & p & Hl & Hp & Hls).
  assert (Hy : ∃ y, y ∈ label_steps c s ∧ ls_target y = target t ∧ ls_payload y = p).
  { assert (Hst : ∃ x, x ∈ label_steps c1 s ∧ ls_target x = target t ∧ ls_payload x = p).
    { eexists. split; [apply elem_of_label_steps; exists t, l; split_and!; [done|rewrite Hl; by left|]|].
      - unfold label_step. by rewrite Hp.
      - done. }
    destruct Hst as (x & Hx & <- & <-). rewrite (ho_steps _ _ _ Hh1) in Hx.
    apply list_elem_of_fmap in Hx as (y & -> & Hy). by exists y. }
  destruct Hy as (y & Hy & Hyt & Hyp). assert (Hy2 : hide_step H2 y ∈ label_steps c2 s).
  { rewrite (ho_steps _ _ _ Hh2). apply list_elem_of_fmap. eauto. }
  apply elem_of_label_steps in Hy2 as (t' & l' & Ht' & Hl' & (Hp' & Htgt & _)%label_step_Some).
  destruct (Hsingle H2 c2 t' Hh2 Ht') as (Hm' & l2 & p2 & Hl2 & Hp2 & Hls2).
  rewrite Hl2 in Hl'. apply list_elem_of_singleton in Hl' as ->. cbn in Hp', Htgt.
  exists t'. split_and!; [done|congruence|congruence|]. rewrite Hls, Hls2. congruence.
Qed.

Lemma hidden_shared c H1 H2 c1 c2 d :
  hidden_of c H1 c1 → hidden_of c H2 c2 → shared_alphabet c1 d = shared_alphabet c2 d.
Proof.
  intros Hh1 Hh2. apply set_eq. intros x. unfold shared_alphabet.
  by rewrite !elem_of_intersection, (ho_alphabet _ _ _ Hh1), (ho_alphabet _ _ _ Hh2).
Qed.

(** The same move of a product, whoever controls it. *)
Definition same_move (e e' : ProductEdge) : Prop :=
  e_target e = e_target e' ∧ e_labels e = e_labels e' ∧ e_modality e = e_modality e'.

Lemma hidden_product_edge c H1 H2 c1 c2 d options l r e :
  hidden_of c H1 c1 → hidden_of c H2 c2 → product_edge c1 d options l r e →
  ∃ e', product_edge c2 d options l r e' ∧ same_move e e'.
Proof.
  intros Hh1 Hh2. pose proof (hidden_shared c H1 H2 c1 c2 d Hh1 Hh2) as Hsh.
  intros [lt rt Hlt Hrt Hj|lt Hsem Hlt Hloc|rt Hsem Hrt Hloc].
  - destruct (hidden_transition c H1 H2 c1 c2 l lt Hh1 Hh2 Hlt) as (lt' & Hlt' & Htg & Hm & Hls).
    exists (joint_edge c2 d options lt' rt). split.
    + apply pe_joint; [done..|]. unfold joins, same_shared, common_label, vector_piece in *. by rewrite <-Hsh, Hls.
    + unfold same_move, joint_edge, joint_modality. cbn. by rewrite Htg, Hm, Hls.
  - destruct (hidden_transition c H1 H2 c1 c2 l lt Hh1 Hh2 Hlt) as (lt' & Hlt' & Htg & Hm & Hls).
    exists (solo_edge c2 (target lt', r) lt'). split.
    + apply pe_left; [done..|]. unfold local in *. by rewrite <-Hsh, Hls.
    + unfold same_move, solo_edge. cbn. by rewrite Htg, Hm, Hls.
  - exists (solo_edge d (l, target rt) rt). split; [|done].
    apply pe_right; [done..|]. unfold local in *. by rewrite <-Hsh.
Qed.

(** ** The statistics *)

(** The internal alphabet of [c] is what its transitions carry. *)
Definition internal_carried (c : Clts) : Prop :=
  ∀ l, l ∈ internal_alphabet c ↔ label_controllability c !! l = Some LC_Internal ∧
    ∃ s t p, t ∈ outgoing c s ∧ l ∈ t_labels t ∧ label_payload c l = Some p.

(** The payloads some transition carries and hiding turns internal. *)
Definition newly_hidden (c : Clts) (labels_to_hide : gset string) : gset (list string) :=
  list_to_set (map ls_payload (List.filter (λ y, should_hide labels_to_hide (ls_payload y)
    && negb (bool_decide (ls_control y = LC_Internal))) (concat (map (label_steps c) (states c))))).

Lemma elem_of_newly_hidden c H p : clts_ok c →
  p ∈ newly_hidden c H ↔
  ∃ s y, y ∈ label_steps c s ∧ ls_payload y = p ∧ should_hide H p = true ∧ ls_control y ≠ LC_Internal.
Proof.
  intros Hc. assert (Hall : ∀ y, y ∈ concat (map (label_steps c) (states c)) ↔ ∃ s, y ∈ label_steps c s).
  { intros y. rewrite list_elem_of_In, in_concat. setoid_rewrite <-list_elem_of_In at 1 2. split.
    - intros (k & (s & -> & _)%list_elem_of_fmap & Hy). by exists s.
    - intros (s & Hy). exists (label_steps c s). split; [|done]. apply list_elem_of_fmap. exists s. split; [done|].
      apply elem_of_label_steps in Hy as (t & l & Ht & _). apply elem_of_seq.
      apply (outgoing_in_range c s t Hc) in Ht. lia. }
  unfold newly_hidden. rewrite elem_of_list_to_set, list_elem_of_fmap. setoid_rewrite elem_of_filterb.
  setoid_rewrite Hall. setoid_rewrite andb_true_iff. setoid_rewrite negb_true_iff.
  setoid_rewrite bool_decide_eq_false. naive_solver.
Qed.

Definition internal_payloads (c : Clts) : gset (list string) :=
  set_map (λ l, default [] (label_payload c l)) (internal_alphabet c).

(** Labels with different payloads: as many payloads as labels. *)
Lemma internal_payloads_size c : states_ok c → internal_carried c →
  size (internal_payloads c) = size (internal_alphabet c).
Proof.
  intros Hs Hi. unfold internal_payloads, set_map. rewrite size_list_to_set; [by rewrite length_fmap|].
  apply NoDup_fmap_2_strong; [|apply NoDup_elements]. intros l l' Hl Hl' Heq.
  apply elem_of_elements, Hi in Hl as (_ & _ & _ & p & _ & _ & Hp).
  apply elem_of_elements, Hi in Hl' as (_ & _ & _ & p' & _ & _ & Hp').
  rewrite Hp, Hp' in Heq. cbn in Heq. subst p'. by apply (so_payload_inj c Hs l l' p).
Qed.

Lemma elem_of_internal_payloads c p : internal_carried c →
  p ∈ internal_payloads c ↔ ∃ s y, y ∈ label_steps c s ∧ ls_payload y = p ∧ ls_control y = LC_Internal.
Proof.
  intros Hi. unfold internal_payloads. rewrite elem_of_map. split.
  - intros (l & -> & (Hk & s & t & q & Ht & Hl & Hq)%Hi). rewrite Hq. cbn.
    exists s, {| ls_target := target t; ls_payload := q; ls_control := LC_Internal |}. split_and!; [|done..].
    apply elem_of_label_steps. exists t, l. split_and!; [done..|]. apply label_step_Some. by rewrite Hk.
  - intros (s & y & (t & l & Ht & Hl & (Hp & _ & Hk)%label_step_Some)%elem_of_label_steps & <- & Hy).
    exists l. rewrite Hp. split; [done|]. apply Hi. rewrite Hy in Hk.
    destruct (label_controllability c !! l) as [k|] eqn:E; [|done]. cbn in Hk. subst k. eauto 10.
Qed.

Lemma hidden_internal_carried c H c' : hidden_of c H c' → internal_carried c'.
Proof.
  intros Hh l. rewrite (ho_internal _ _ _ Hh). split; intros [Hk Ht]; (split; [done|]).
  - destruct Ht as (s & t & Ht & Hl). destruct (ho_recorded _ _ _ Hh s t l Ht Hl) as (p & _ & ? & _). eauto 10.
  - destruct Ht as (s & t & p & ? & ? & _). eauto.
Qed.

Lemma hidden_count c H c' :
  clts_ok c → states_ok c → internal_carried c → hidden_of c H c' →
  size (internal_alphabet c') - size (internal_alphabet c) = size (newly_hidden c H).
Proof.
  intros Hc Hs Hi Hh. pose proof (hidden_internal_carried c H c' Hh) as Hi'.
  rewrite <-!internal_payloads_size by (done || apply Hh).
  replace (internal_payloads c') with (internal_payloads c ∪ newly_hidden c H).
  { rewrite size_union; [lia|]. intros p (s & y & Hy & Hp & Hk)%elem_of_internal_payloads; [|done].
    intros (s' & y' & Hy' & Hp' & _ & Hk')%elem_of_newly_hidden; [|done]. apply Hk'. rewrite <-Hk.
    apply elem_of_label_steps in Hy as (t & l & _ & _ & (Hl & _ & ->)%label_step_Some).
    apply elem_of_label_steps in Hy' as (t' & l' & _ & _ & (Hl' & _ & ->)%label_step_Some).
    rewrite Hp in Hl. rewrite Hp' in Hl'. by rewrite (so_payload_inj c Hs l l' p). }
  apply set_eq. intros p. rewrite elem_of_union, !elem_of_internal_payloads, elem_of_newly_hidden by done.
  setoid_rewrite (ho_steps _ _ _ Hh). setoid_rewrite list_elem_of_fmap. split.
  - intros [(s & y & Hy & <- & Hk)|(s & y & Hy & <- & Hsh & _)]; exists s, (hide_step H y).
    + split_and!; [by exists y|done|]. cbn. by destruct (should_hide _ _).
    + split_and!; [by exists y|done|]. cbn. by rewrite Hsh.
  - intros (s & _ & (y & -> & Hy) & <- & Hk). cbn [hide_step ls_payload ls_control] in *.
    destruct (decide (ls_control y = LC_Internal)) as [Hc'|Hc'].
    + left. by exists s, y.
    + right. exists s, y. split_and!; [done..| |done]. by destruct (should_hide _ _).
Qed.

(** ** Properties *)

(** C15: [hide_labels] never fails on a built system that fits the identifier type, and the result is the copy: the same states in the same order with their names, initial flags and variables, and, state by state and in order, one sharp transition for every label of every transition, with the same target and symbols, internal when one of its symbols is hidden and otherwise classified as recorded; its alphabet is the labels the transitions carry, whatever is hidden. The statistics count the alphabet of the system and, when the internal labels of the system are carried by its transitions, exactly the labels that hiding turns internal *)
Theorem hide_labels_correct `{IdStorage} c labels_to_hide :
  clts_ok c → states_ok c →
  (N.of_nat (state_count c) <= id_max + 1)%N → (N.of_nat (length (u_sets (labels c))) <= id_max + 1)%N →
  ∃ c' report, hide_labels c labels_to_hide = Some (Ok c') ∧ hidden_of c labels_to_hide c' ∧
    hide_labels_with_stats c labels_to_hide = Some (Ok (c', report)) ∧
    total_labels report = size (collect_alphabet c) ∧
    (internal_carried c → labels_hidden report = size (newly_hidden c labels_to_hide)).
Proof.
  intros Hc Hs Hfit Hlabels. destruct (hide_labels_spec c Hc Hs Hfit Hlabels labels_to_hide) as (c' & E & Hh).
  exists c'. unfold hide_labels_with_stats. rewrite E. eexists. split_and!; [done..|].
  intros Hi. by apply hidden_count.
Qed.

(** Hiding in two passes is hiding the union, on the nose: the second pass returns the very system one pass with both sets returns. Hiding is therefore idempotent and the order of two passes does not matter *)
Theorem hide_labels_union `{IdStorage} c first second c1 :
  clts_ok c → states_ok c →
  (N.of_nat (state_count c) <= id_max + 1)%N → (N.of_nat (length (u_sets (labels c))) <= id_max + 1)%N →
  hide_labels c first = Some (Ok c1) →
  hide_labels c1 second = hide_labels c (first ∪ second) ∧
  hide_labels c1 first = Some (Ok c1) ∧
  (∀ c2, hide_labels c second = Some (Ok c2) → hide_labels c1 second = hide_labels c2 first).
Proof.
  intros Hc Hs Hfit Hlabels E1.
  pose proof (hide_labels_copy c Hc Hs Hfit Hlabels) as Hcopy.
  split_and!; [by apply hide_again, Hcopy| |].
  - rewrite (hide_again c c1 first first) by auto. by rewrite union_idemp_L.
  - intros c2 E2. rewrite (hide_again c c1 first second), (hide_again c c2 second first) by auto.
    by rewrite union_comm_L.
Qed.

(** Hiding does not take a label out of a synchronisation. Whatever two sets are hidden in a component, its product with any partner has the same shared alphabet and, at every pair of states, the same moves with the same targets, labels and modalities; only who controls them differs. In particular hiding all labels gives the moves of hiding none *)
Theorem hiding_keeps_moves `{IdStorage} c first second c1 c2 partner options :
  clts_ok c → states_ok c →
  (N.of_nat (state_count c) <= id_max + 1)%N → (N.of_nat (length (u_sets (labels c))) <= id_max + 1)%N →
  hide_labels c first = Some (Ok c1) → hide_labels c second = Some (Ok c2) →
  shared_alphabet c1 partner = shared_alphabet c2 partner ∧
  ∀ l r e, product_edge c1 partner options l r e →
    ∃ e', product_edge c2 partner options l r e' ∧ same_move e e'.
Proof.
  intros Hc Hs Hfit Hlabels E1 E2.
  pose proof (hide_labels_copy c Hc Hs Hfit Hlabels) as Hcopy.
  split; [by eapply hidden_shared; apply Hcopy|]. intros l r e. by apply (hidden_product_edge c first second); apply Hcopy.
Qed.

(** ** Witnesses *)

#[local] Existing Instance u16_storage.

Definition hidden (labels_to_hide : gset string) (c : Clts) : Clts :=
  match hide_labels c labels_to_hide with Some (Ok c') => c' | _ => empty_clts end.

Lemma client_clts_ok : clts_ok client_clts ∧ states_ok client_clts.
Proof. by destruct (run_ops_states_ok client_ops client_clts) as (? & ? & _); [vm_compute; reflexivity..|]. Qed.

Lemma client_hides hide : hide_labels client_clts hide = Some (Ok (hidden hide client_clts)).
Proof.
  destruct client_clts_ok as [Hc Hs]. unfold hidden.
  destruct (hide_labels_spec client_clts Hc Hs) with (labels_to_hide := hide) as (c' & -> & _); [vm_compute; congruence..|done].
Qed.

Lemma hide_labels_correct_witness :
  let c' := hidden {["send"]} client_clts in
  map (label_steps c') (states c') =
    [[{| ls_target := 1; ls_payload := ["send"]; ls_control := LC_Internal |};
      {| ls_target := 0; ls_payload := ["work"]; ls_control := LC_Uncontrollable |}];
     [{| ls_target := 0; ls_payload := ["receive"]; ls_control := LC_Uncontrollable |}]] ∧
  ∃ c' report, hide_labels client_clts {["send"]} = Some (Ok c') ∧ hidden_of client_clts {["send"]} c' ∧
    hide_labels_with_stats client_clts {["send"]} = Some (Ok (c', report)) ∧
    total_labels report = size (collect_alphabet client_clts) ∧
    (internal_carried client_clts → labels_hidden report = size (newly_hidden client_clts {["send"]})).
Proof.
  split; [vm_compute; reflexivity|].
  apply (hide_labels_correct client_clts {["send"]}); [apply client_clts_ok..| |]; vm_compute; congruence.
Defined.

Lemma hide_labels_union_witness :
  let c1 := hidden {["send"]} client_clts in
  size (internal_alphabet c1) = 1 ∧ size (internal_alphabet (hidden {["work"]} c1)) = 2 ∧
  hide_labels c1 {["work"]} = hide_labels client_clts ({["send"]} ∪ {["work"]}) ∧
  hide_labels c1 {["send"]} = Some (Ok c1) ∧
  (∀ c2, hide_labels client_clts {["work"]} = Some (Ok c2) → hide_labels c1 {["work"]} = hide_labels c2 {["send"]}).
Proof.
  split; [vm_compute; reflexivity|]. split; [vm_compute; reflexivity|].
  apply (hide_labels_union client_clts {["send"]} {["work"]}); [apply client_clts_ok..| | |apply client_hides];
    vm_compute; congruence.
Defined.

Lemma hiding_keeps_moves_witness :
  let c1 := hidden {["send"]} client_clts in
  let c2 := hidden ∅ client_clts in
  let options := CompositionOptions_new Asynchronous in
  is_internal_label c1 0 = true ∧ is_internal_label c2 0 = false ∧
  shared_alphabet c1 server_clts = shared_alphabet c2 server_clts ∧
  ∀ l r e, product_edge c1 server_clts options l r e →
    ∃ e', product_edge c2 server_clts options l r e' ∧ same_move e e'.
Proof.
  split; [vm_compute; reflexivity|]. split; [vm_compute; reflexivity|].
  apply (hiding_keeps_moves client_clts {["send"]} ∅); [apply client_clts_ok..| | |apply client_hides|apply client_hides];
    vm_compute; congruence.
Defined.

(** ** Where hiding departs from its documentation *)

(** A transition with two labels, a may transition, one without labels, and a
    state with a valuation and a verdict. *)
Definition rich_clts : Clts :=
  built (run_ops [OpLabel ["a"]; OpLabel ["b"]; OpInitial "u"; OpState "v"; OpTransitionIds 0 [0; 1] 1 Sharp;
    OpTransitionIds 0 [0] 0 MayOnly; OpTransitionIds 1 [] 0 Sharp; OpValuation 0 {["x" := "1"]};
    OpPredicate 0 "p" KleeneBot]).

(** Hiding nothing already changes the system: a transition with two labels becomes two, a may transition becomes sharp, a transition without labels is dropped, a label without a recorded class is controllable before and uncontrollable after, and valuations and three-valued verdicts are lost.  And a hidden label does not interleave: the product of the client that hides "send" with the server is the product of the client, where "send" is a joint step *)
Lemma hiding_departures :
  let c := rich_clts in
  let c' := hidden ∅ rich_clts in
  map (map t_labels) (outgoing_rows c) = [[[0; 1]; [0]]; [[]]] ∧
  map (map t_labels) (outgoing_rows c') = [[[0]; [1]; [0]]; []] ∧
  map (map modality) (outgoing_rows c) = [[Sharp; MayOnly]; [Sharp]] ∧
  map (map modality) (outgoing_rows c') = [[Sharp; Sharp; Sharp]; []] ∧
  map (map (is_controllable c)) (outgoing_rows c) = [[true; true]; [false]] ∧
  map (map (is_controllable c')) (outgoing_rows c') = [[false; false; false]; []] ∧
  (state_valuation c 0 ≠ None ∧ state_valuation c' 0 = None) ∧
  (state_3valued_predicate c 0 "p" = Some KleeneBot ∧ state_3valued_predicate c' 0 "p" = None) ∧
  (let product (client : Clts) := composed Asynchronous client server_clts in
   let moves (c : Clts) := map (λ s, map (λ t, (target t, transition_labels c t)) (outgoing c s)) (states c) in
   moves (product (hidden {["send"]} client_clts)) = moves (product client_clts) ∧
   moves (product client_clts) = [[(0, ["work"]); (1, ["send"])]; [(0, ["receive"]); (1, ["log"])]]).
Proof.
  split_and!; try (vm_compute; reflexivity).
  - vm_compute. congruence.
  - cbv zeta. split; vm_compute; reflexivity.
Qed.
