(* ===== verification/AbstractValues.v ===== *)
(** Abstract values: [abstraction/value.rs], the interval and Boolean domains of
    [abstraction/domains.rs] and the checked arithmetic of
    [abstraction/operations.rs].

    An [i64] is an integer; [checked] is the range test of [checked_add] and its
    kin, whose [None] is an overflow.  A [HashSet] is a [gset]; where the source
    folds over one, the result does not depend on the order. *)
From S2P Require Import Prelude.
Local Open Scope Z_scope.

(** ** 64-bit integers *)

Definition i64_min : Z := -9223372036854775808.
Definition i64_max : Z := 9223372036854775807.
Definition in_i64 (z : Z) : bool := (i64_min <=? z) && (z <=? i64_max).

Definition checked (z : Z) : option Z := if in_i64 z then Some z else None.
Definition checked_add (a b : Z) : option Z := checked (a + b).
Definition checked_sub (a b : Z) : option Z := checked (a - b).
Definition checked_mul (a b : Z) : option Z := checked (a * b).
Definition checked_div (a b : Z) : option Z := if b =? 0 then None else checked (Z.quot a b).
(** [saturating_add] and [saturating_sub] on the exact result. *)
Definition saturate (z : Z) : Z := Z.max i64_min (Z.min i64_max z).

(** [set.iter().min()] and [max()]. *)
Definition fold_elements (f : Z → Z → Z) (s : gset Z) : option Z :=
  match elements s with [] => None | x :: l => Some (foldl f x l) end.
Definition set_min (s : gset Z) : option Z := fold_elements Z.min s.
Definition set_max (s : gset Z) : option Z := fold_elements Z.max s.

(** The Boolean of a set test. *)
Definition contains {A} `{Countable A} (s : gset A) (x : A) : bool := bool_decide (x ∈ s).

(** ** [AbstractValue] *)

Inductive AbstractValue :=
  | IntConstant (n : Z)
  | BoolConstant (b : bool)
  | SymbolConstant (s : string)
  | IntInterval (lo hi : Z)
  | IntSet (s : gset Z)
  | IntTop
  | BoolSet (s : gset bool)
  | SymbolSet (s : gset string)
  | SymbolTop
  | PositiveInfinity
  | NegativeInfinity
  | Undefined.

#[export] Instance AbstractValue_eq_dec : EqDecision AbstractValue.
Proof. solve_decision. Defined.

Definition is_integer (v : AbstractValue) : bool :=
  match v with
  | IntConstant _ | IntInterval _ _ | IntSet _ | IntTop | PositiveInfinity | NegativeInfinity => true
  | _ => false
  end.
Definition is_boolean (v : AbstractValue) : bool :=
  match v with BoolConstant _ | BoolSet _ => true | _ => false end.
Definition is_symbol (v : AbstractValue) : bool :=
  match v with SymbolConstant _ | SymbolSet _ | SymbolTop => true | _ => false end.

(** [int_interval]; [None] is the panic on [min > max]. *)
Definition int_interval (lo hi : Z) : option AbstractValue :=
  if lo <=? hi then Some (IntInterval lo hi) else None.

(** A set of one element becomes a constant. *)
Definition normalize_set {A} `{Countable A} (constant : A → AbstractValue) (set : gset A → AbstractValue)
    (s : gset A) : AbstractValue :=
  match elements s with [x] => constant x | _ => set s end.

Definition normalize (v : AbstractValue) : AbstractValue :=
  match v with
  | IntInterval lo hi => if lo =? hi then IntConstant lo else IntInterval lo hi
  | IntSet s => normalize_set IntConstant IntSet s
  | BoolSet s => normalize_set BoolConstant BoolSet s
  | SymbolSet s => normalize_set SymbolConstant SymbolSet s
  | _ => v
  end.

(** ** Comparisons *)

(** A constant against a set. *)
Definition constant_eq_set {A} `{Countable A} (x : A) (s : gset A) : option bool :=
  if contains s x then (if decide (size s = 1)%nat then Some true else None) else Some false.
Definition set_eq_set {A} `{Countable A} (s1 s2 : gset A) : option bool :=
  if decide (s1 = s2) then Some true else if decide (s1 ## s2) then Some false else None.
Definition constant_eq_interval (n lo hi : Z) : option bool :=
  if (n <? lo) || (hi <? n) then Some false else None.

Definition compare_eq (a b : AbstractValue) : option bool :=
  match a, b with
  | IntConstant x, IntConstant y => Some (x =? y)
  | BoolConstant x, BoolConstant y => Some (Bool.eqb x y)
  | SymbolConstant x, SymbolConstant y => Some (String.eqb x y)
  | IntInterval min1 max1, IntInterval min2 max2 =>
    if (max1 <? min2) || (max2 <? min1) then Some false
    else if (min1 =? max1) && (min2 =? max2) && (min1 =? min2) then Some true else None
  | IntConstant n, IntInterval lo hi | IntInterval lo hi, IntConstant n => constant_eq_interval n lo hi
  | IntSet s1, IntSet s2 => set_eq_set s1 s2
  | IntConstant n, IntSet s | IntSet s, IntConstant n => constant_eq_set n s
  | BoolSet s1, BoolSet s2 => set_eq_set s1 s2
  | BoolConstant x, BoolSet s | BoolSet s, BoolConstant x => constant_eq_set x s
  | SymbolSet s1, SymbolSet s2 => set_eq_set s1 s2
  | SymbolConstant x, SymbolSet s | SymbolSet s, SymbolConstant x => constant_eq_set x s
  | IntTop, _ | _, IntTop => None
  | SymbolTop, _ | _, SymbolTop => None
  | PositiveInfinity, PositiveInfinity => Some true
  | NegativeInfinity, NegativeInfinity => Some true
  | Undefined, Undefined => Some true
  | PositiveInfinity, _ | _, PositiveInfinity => Some false
  | NegativeInfinity, _ | _, NegativeInfinity => Some false
  | Undefined, _ | _, Undefined => Some false
  | _, _ => Some false
  end.

Definition compare_lt (a b : AbstractValue) : option bool :=
  match a, b with
  | IntConstant x, IntConstant y => Some (x <? y)
  | IntInterval min1 max1, IntInterval min2 max2 =>
    if max1 <? min2 then Some true else if max2 <=? min1 then Some false else None
  | IntConstant n, IntInterval lo _ => if n <? lo then Some true else None
  | IntInterval _ hi, IntConstant n => if hi <? n then Some true else None
  | IntSet s1, IntSet s2 =>
    let* max1 := set_max s1 in
    let* min2 := set_min s2 in
    if max1 <? min2 then Some true
    else
      let* min1 := set_min s1 in
      let* max2 := set_max s2 in
      if max2 <=? min1 then Some false else None
  | IntConstant n, IntSet s =>
    let* hi := set_max s in
    if n <? hi then (if n <? default hi (set_min s) then Some true else None) else Some false
  | IntSet s, IntConstant n =>
    let* lo := set_min s in
    if lo <? n then (if default lo (set_max s) <? n then Some true else None) else Some false
  | NegativeInfinity, _ => Some true
  | _, PositiveInfinity => Some true
  | PositiveInfinity, _ => Some false
  | _, NegativeInfinity => Some false
  | Undefined, _ | _, Undefined => None
  | IntTop, _ | _, IntTop => None
  | _, _ => None
  end.

Definition compare_le (a b : AbstractValue) : option bool :=
  match compare_lt a b with
  | Some true => Some true
  | Some false => compare_eq a b
  | None => None
  end.
Definition compare_gt (a b : AbstractValue) : option bool := compare_lt b a.
Definition compare_ge (a b : AbstractValue) : option bool := compare_le b a.

(** ** Arithmetic *)

(** The interval between two results that may have overflowed. *)
Definition interval_bounds (min_result max_result : option Z) : AbstractValue :=
  match min_result, max_result with
  | Some lo, Some hi => if lo =? hi then IntConstant lo else IntInterval lo hi
  | Some lo, None => normalize (IntInterval lo i64_max)
  | None, Some hi => normalize (IntInterval i64_min hi)
  | None, None => IntTop
  end.

(** All results of a checked operation on two sets, [None] when one overflows. *)
Definition combine_sets (op : Z → Z → option Z) (s1 s2 : gset Z) : option (gset Z) :=
  let* results := mapM (λ p, op p.1 p.2) (list_prod (elements s1) (elements s2)) in
  Some (list_to_set results).

Definition set_by_set (op : Z → Z → option Z) (s1 s2 : gset Z) : AbstractValue :=
  match combine_sets op s1 s2 with
  | None => IntTop
  | Some r => if decide (r = ∅) then IntTop else normalize (IntSet r)
  end.
(** A constant with a set: an empty result is kept. *)
Definition constant_by_set (op : Z → Z → option Z) (s1 s2 : gset Z) : AbstractValue :=
  match combine_sets op s1 s2 with None => IntTop | Some r => normalize (IntSet r) end.

Definition add_intervals (a_min a_max b_min b_max : Z) : AbstractValue :=
  interval_bounds (checked_add a_min b_min) (checked_add a_max b_max).

(** The bounds of a set passed to an operation on intervals. *)
Definition with_bounds (s : gset Z) (f : Z → Z → AbstractValue) : AbstractValue :=
  match set_min s, set_max s with Some lo, Some hi => f lo hi | _, _ => IntTop end.

Definition add (x y : AbstractValue) : AbstractValue :=
  match x, y with
  | IntConstant a, IntConstant b =>
    match checked_add a b with
    | Some n => IntConstant n
    | None => if (0 <? a) && (0 <=? b) then PositiveInfinity else NegativeInfinity
    end
  | IntInterval a_min a_max, IntInterval b_min b_max => add_intervals a_min a_max b_min b_max
  | IntConstant a, IntInterval b_min b_max => interval_bounds (checked_add a b_min) (checked_add a b_max)
  | IntInterval a_min a_max, IntConstant b => interval_bounds (checked_add a_min b) (checked_add a_max b)
  | IntSet a_set, IntSet b_set => set_by_set checked_add a_set b_set
  | IntConstant a, IntSet b_set => constant_by_set checked_add {[a]} b_set
  | IntSet a_set, IntConstant b => constant_by_set checked_add a_set {[b]}
  | IntInterval a_min a_max, IntSet b_set => with_bounds b_set (add_intervals a_min a_max)
  | IntSet a_set, IntInterval b_min b_max =>
    with_bounds a_set (λ a_min a_max, add_intervals a_min a_max b_min b_max)
  | IntTop, _ | _, IntTop => IntTop
  | PositiveInfinity, NegativeInfinity | NegativeInfinity, PositiveInfinity => IntTop
  | PositiveInfinity, _ | _, PositiveInfinity => PositiveInfinity
  | NegativeInfinity, _ | _, NegativeInfinity => NegativeInfinity
  | Undefined, _ | _, Undefined => Undefined
  | _, _ => Undefined
  end.

Definition sub_intervals (a_min a_max b_min b_max : Z) : AbstractValue :=
  interval_bounds (checked_sub a_min b_max) (checked_sub a_max b_min).

Definition sub (x y : AbstractValue) : AbstractValue :=
  match x, y with
  | IntConstant a, IntConstant b =>
    match checked_sub a b with
    | Some n => IntConstant n
    | None => if a <? b then NegativeInfinity else PositiveInfinity
    end
  | IntInterval a_min a_max, IntInterval b_min b_max => sub_intervals a_min a_max b_min b_max
  | IntConstant a, IntInterval b_min b_max => interval_bounds (checked_sub a b_max) (checked_sub a b_min)
  | IntInterval a_min a_max, IntConstant b => interval_bounds (checked_sub a_min b) (checked_sub a_max b)
  | IntSet a_set, IntSet b_set => set_by_set checked_sub a_set b_set
  | IntConstant a, IntSet b_set => constant_by_set checked_sub {[a]} b_set
  | IntSet a_set, IntConstant b => constant_by_set checked_sub a_set {[b]}
  | IntInterval a_min a_max, IntSet b_set => with_bounds b_set (sub_intervals a_min a_max)
  | IntSet a_set, IntInterval b_min b_max =>
    with_bounds a_set (λ a_min a_max, sub_intervals a_min a_max b_min b_max)
  | IntTop, _ | _, IntTop => IntTop
  | PositiveInfinity, PositiveInfinity => IntTop
  | NegativeInfinity, NegativeInfinity => IntTop
  | PositiveInfinity, _ => PositiveInfinity
  | _, PositiveInfinity => NegativeInfinity
  | NegativeInfinity, _ => NegativeInfinity
  | _, NegativeInfinity => PositiveInfinity
  | Undefined, _ | _, Undefined => Undefined
  | _, _ => Undefined
  end.

(** The smallest and the largest of the corners that did not overflow. *)
Definition corner_range (corners : list (option Z)) : option Z * option Z :=
  foldl (λ '(min_val, max_val) corner,
    match corner with
    | Some c =>
      (Some (match min_val with Some m => Z.min m c | None => c end),
       Some (match max_val with Some m => Z.max m c | None => c end))
    | None => (min_val, max_val)
    end) (None, None) corners.

Definition corner_hull (corners : list (option Z)) : AbstractValue :=
  match corner_range corners with
  | (Some lo, Some hi) => if lo =? hi then IntConstant lo else normalize (IntInterval lo hi)
  | _ => IntTop
  end.

(** Both branches of the source, with and without zero in an interval, take the
    corners. *)
Definition mul_intervals (a_min a_max b_min b_max : Z) : AbstractValue :=
  corner_hull [checked_mul a_min b_min; checked_mul a_min b_max; checked_mul a_max b_min; checked_mul a_max b_max].

(** An interval times, or divided by, a constant: a negative one reverses it. *)
Definition scaled (negative : bool) (min_result max_result : option Z) : AbstractValue :=
  match min_result, max_result with
  | Some lo, Some hi =>
    if lo =? hi then IntConstant lo
    else if negative then normalize (IntInterval hi lo) else normalize (IntInterval lo hi)
  | _, _ => IntTop
  end.

Definition negative_constant (v : AbstractValue) : bool :=
  match v with IntConstant n => n <? 0 | _ => false end.

Definition mul (x y : AbstractValue) : AbstractValue :=
  match x, y with
  | PositiveInfinity, IntConstant 0 | IntConstant 0, PositiveInfinity => IntTop
  | NegativeInfinity, IntConstant 0 | IntConstant 0, NegativeInfinity => IntTop
  | IntConstant a, IntConstant b =>
    match checked_mul a b with
    | Some n => IntConstant n
    | None =>
      if ((0 <? a) && (0 <? b)) || ((a <? 0) && (b <? 0)) then PositiveInfinity else NegativeInfinity
    end
  | IntConstant 0, _ | _, IntConstant 0 => IntConstant 0
  | IntInterval a_min a_max, IntInterval b_min b_max => mul_intervals a_min a_max b_min b_max
  | IntConstant a, IntInterval b_min b_max =>
    if a =? 0 then IntConstant 0 else scaled (a <? 0) (checked_mul b_min a) (checked_mul b_max a)
  | IntInterval a_min a_max, IntConstant b =>
    if b =? 0 then IntConstant 0 else scaled (b <? 0) (checked_mul a_min b) (checked_mul a_max b)
  | IntSet a_set, IntSet b_set => set_by_set checked_mul a_set b_set
  | IntConstant a, IntSet b_set =>
    if a =? 0 then IntConstant 0 else constant_by_set checked_mul {[a]} b_set
  | IntSet a_set, IntConstant b =>
    if b =? 0 then IntConstant 0 else constant_by_set checked_mul a_set {[b]}
  | IntInterval a_min a_max, IntSet b_set => with_bounds b_set (mul_intervals a_min a_max)
  | IntSet a_set, IntInterval b_min b_max =>
    with_bounds a_set (λ a_min a_max, mul_intervals a_min a_max b_min b_max)
  | IntTop, _ | _, IntTop => IntTop
  | PositiveInfinity, PositiveInfinity => PositiveInfinity
  | NegativeInfinity, NegativeInfinity => PositiveInfinity
  | PositiveInfinity, NegativeInfinity | NegativeInfinity, PositiveInfinity => NegativeInfinity
  | PositiveInfinity, _ | _, PositiveInfinity =>
    if negative_constant y || negative_constant x then NegativeInfinity else PositiveInfinity
  | NegativeInfinity, _ | _, NegativeInfinity =>
    if negative_constant y || negative_constant x then PositiveInfinity else NegativeInfinity
  | Undefined, _ | _, Undefined => Undefined
  | _, _ => Undefined
  end.

(** The quotients of two sets that do not overflow. *)
Definition quotients (s1 s2 : gset Z) : gset Z :=
  list_to_set (omap (λ p, checked_div p.1 p.2) (list_prod (elements s1) (elements s2))).

Definition spans_zero (b_min b_max : Z) : bool := (b_min <=? 0) && (0 <=? b_max).

(** [None] is the division by zero [Err(())]. *)
Definition div_intervals (a_min a_max b_min b_max : Z) : option AbstractValue :=
  if spans_zero b_min b_max then None
  else Some (corner_hull
    [checked_div a_min b_min; checked_div a_min b_max; checked_div a_max b_min; checked_div a_max b_max]).

(** The tests for a zero divisor that come before every other case. *)
Definition divisor_has_zero (y : AbstractValue) : bool :=
  match y with
  | IntConstant b => b =? 0
  | IntInterval b_min b_max => spans_zero b_min b_max
  | IntSet b_set => contains b_set 0
  | _ => false
  end.

Definition div (x y : AbstractValue) : option AbstractValue :=
  if divisor_has_zero y then None
  else
    match x, y with
    | IntConstant a, IntConstant b =>
      Some (match checked_div a b with Some n => IntConstant n | None => IntTop end)
    | IntInterval a_min a_max, IntInterval b_min b_max => div_intervals a_min a_max b_min b_max
    | IntConstant a, IntInterval b_min b_max =>
      Some (scaled false (checked_div a b_max) (checked_div a b_min))
    | IntInterval a_min a_max, IntConstant b =>
      Some (scaled (b <? 0) (checked_div a_min b) (checked_div a_max b))
    | IntSet a_set, IntSet b_set =>
      let r := quotients a_set b_set in
      Some (if decide (r = ∅) then IntTop else normalize (IntSet r))
    | IntConstant a, IntSet b_set => Some (normalize (IntSet (quotients {[a]} b_set)))
    | IntSet a_set, IntConstant b => Some (normalize (IntSet (quotients a_set {[b]})))
    | IntInterval a_min a_max, IntSet b_set =>
      match set_min b_set, set_max b_set with
      | Some b_min, Some b_max => div_intervals a_min a_max b_min b_max
      | _, _ => Some IntTop
      end
    | IntSet a_set, IntInterval b_min b_max =>
      match set_min a_set, set_max a_set with
      | Some a_min, Some a_max => div_intervals a_min a_max b_min b_max
      | _, _ => Some IntTop
      end
    | IntTop, _ | _, IntTop => Some IntTop
    | PositiveInfinity, PositiveInfinity | NegativeInfinity, NegativeInfinity => Some IntTop
    | PositiveInfinity, NegativeInfinity | NegativeInfinity, PositiveInfinity => Some IntTop
    | PositiveInfinity, _ => Some (if negative_constant y then NegativeInfinity else PositiveInfinity)
    | NegativeInfinity, _ => Some (if negative_constant y then PositiveInfinity else NegativeInfinity)
    | _, PositiveInfinity | _, NegativeInfinity => Some (IntConstant 0)
    | Undefined, _ | _, Undefined => Some Undefined
    | _, _ => Some Undefined
    end.

(** ** Lattice operations *)

(** The integers of an interval. *)
Definition interval_elements (lo hi : Z) : gset Z := list_to_set (seqZ lo (hi - lo + 1)).

Definition join (x y : AbstractValue) : AbstractValue :=
  match x, y with
  | IntConstant a, IntConstant b =>
    if a =? b then IntConstant a else normalize (IntInterval (Z.min a b) (Z.max a b))
  | IntConstant a, IntInterval b_min b_max => normalize (IntInterval (Z.min a b_min) (Z.max a b_max))
  | IntInterval a_min a_max, IntConstant b => normalize (IntInterval (Z.min a_min b) (Z.max a_max b))
  | IntInterval a_min a_max, IntInterval b_min b_max =>
    normalize (IntInterval (Z.min a_min b_min) (Z.max a_max b_max))
  | IntConstant a, IntSet b_set => normalize (IntSet ({[a]} ∪ b_set))
  | IntSet a_set, IntConstant b => normalize (IntSet ({[b]} ∪ a_set))
  | IntInterval a_min a_max, IntSet b_set => normalize (IntSet (interval_elements a_min a_max ∪ b_set))
  | IntSet a_set, IntInterval b_min b_max => normalize (IntSet (interval_elements b_min b_max ∪ a_set))
  | IntSet a_set, IntSet b_set => normalize (IntSet (a_set ∪ b_set))
  | IntTop, _ | _, IntTop => IntTop
  | PositiveInfinity, _ | _, PositiveInfinity | NegativeInfinity, _ | _, NegativeInfinity => IntTop
  | BoolConstant a, BoolConstant b => if Bool.eqb a b then BoolConstant a else BoolSet {[true; false]}
  | BoolConstant a, BoolSet b_set => normalize (BoolSet ({[a]} ∪ b_set))
  | BoolSet a_set, BoolConstant b => normalize (BoolSet ({[b]} ∪ a_set))
  | BoolSet a_set, BoolSet b_set => normalize (BoolSet (a_set ∪ b_set))
  | SymbolConstant a, SymbolConstant b =>
    if String.eqb a b then SymbolConstant a else normalize (SymbolSet {[a; b]})
  | SymbolConstant a, SymbolSet b_set => normalize (SymbolSet ({[a]} ∪ b_set))
  | SymbolSet a_set, SymbolConstant b => normalize (SymbolSet ({[b]} ∪ a_set))
  | SymbolSet a_set, SymbolSet b_set => normalize (SymbolSet (a_set ∪ b_set))
  | SymbolTop, _ | _, SymbolTop => SymbolTop
  | Undefined, _ | _, Undefined => Undefined
  | _, _ => Undefined
  end.

(** A set that is not empty, normalised; [Undefined] is the bottom. *)
Definition some_set {A} `{Countable A} (set : gset A → AbstractValue) (s : gset A) : AbstractValue :=
  if decide (s = ∅) then Undefined else normalize (set s).

Definition set_in_interval (lo hi : Z) (s : gset Z) : gset Z := filter (λ x, lo ≤ x ∧ x ≤ hi) s.

Definition meet (x y : AbstractValue) : AbstractValue :=
  match x, y with
  | IntConstant a, IntConstant b => if a =? b then IntConstant a else Undefined
  | IntConstant a, IntInterval lo hi | IntInterval lo hi, IntConstant a =>
    if (lo <=? a) && (a <=? hi) then IntConstant a else Undefined
  | IntInterval a_min a_max, IntInterval b_min b_max =>
    let meet_min := Z.max a_min b_min in
    let meet_max := Z.min a_max b_max in
    if meet_min <=? meet_max then normalize (IntInterval meet_min meet_max) else Undefined
  | IntConstant a, IntSet s | IntSet s, IntConstant a => if contains s a then IntConstant a else Undefined
  | IntInterval lo hi, IntSet s | IntSet s, IntInterval lo hi => some_set IntSet (set_in_interval lo hi s)
  | IntSet a_set, IntSet b_set => some_set IntSet (a_set ∩ b_set)
  | IntTop, v | v, IntTop => v
  | PositiveInfinity, PositiveInfinity => PositiveInfinity
  | NegativeInfinity, NegativeInfinity => NegativeInfinity
  | PositiveInfinity, _ | _, PositiveInfinity | NegativeInfinity, _ | _, NegativeInfinity => Undefined
  | BoolConstant a, BoolConstant b => if Bool.eqb a b then BoolConstant a else Undefined
  | BoolConstant a, BoolSet s | BoolSet s, BoolConstant a => if contains s a then BoolConstant a else Undefined
  | BoolSet a_set, BoolSet b_set => some_set BoolSet (a_set ∩ b_set)
  | SymbolConstant a, SymbolConstant b => if String.eqb a b then SymbolConstant a else Undefined
  | SymbolConstant a, SymbolSet s | SymbolSet s, SymbolConstant a =>
    if contains s a then SymbolConstant a else Undefined
  | SymbolSet a_set, SymbolSet b_set => some_set SymbolSet (a_set ∩ b_set)
  | SymbolTop, v | v, SymbolTop => v
  | Undefined, _ | _, Undefined => Undefined
  | _, _ => Undefined
  end.

Definition to_interval_approximation (v : AbstractValue) : AbstractValue :=
  match v with
  | IntSet s => match set_min s, set_max s with Some lo, Some hi => IntInterval lo hi | _, _ => Undefined end
  | _ => v
  end.

(** [widen] without its two cases for a set and another value. *)
Definition widen_values (x y : AbstractValue) : AbstractValue :=
  match x, y with
  | IntInterval a_min a_max, IntInterval b_min b_max =>
    if b_min <? a_min then IntTop
    else if a_max <? b_max then IntTop
    else normalize (IntInterval (Z.min a_min b_min) (Z.max a_max b_max))
  | IntSet a_set, IntSet b_set =>
    let union := a_set ∪ b_set in
    if decide (union = ∅) then Undefined
    else if (100 <? size union)%nat then normalize (to_interval_approximation (IntSet union))
    else normalize (IntSet union)
  | IntConstant a, IntConstant b =>
    if a =? b then IntConstant a else normalize (IntInterval (Z.min a b) (Z.max a b))
  | IntConstant a, IntInterval b_min b_max =>
    if (b_min <? a) || (a <? b_max) then IntTop
    else normalize (IntInterval (Z.min a b_min) (Z.max a b_max))
  | IntInterval a_min a_max, IntConstant b =>
    if (b <? a_min) || (a_max <? b) then IntTop
    else normalize (IntInterval (Z.min a_min b) (Z.max a_max b))
  | IntTop, _ | _, IntTop => IntTop
  | PositiveInfinity, _ | _, PositiveInfinity | NegativeInfinity, _ | _, NegativeInfinity => IntTop
  | BoolConstant _, _ | BoolSet _, _ => join x y
  | SymbolConstant _, _ | SymbolSet _, _ | SymbolTop, _ => join x y
  | Undefined, _ | _, Undefined => Undefined
  | _, _ => Undefined
  end.

(** A set against another value is first replaced by its bounds. *)
Definition widen (x y : AbstractValue) : AbstractValue :=
  match x, y with
  | IntSet _, IntSet _ => widen_values x y
  | IntSet _, _ => widen_values (to_interval_approximation x) y
  | _, IntSet _ => widen_values x (to_interval_approximation y)
  | _, _ => widen_values x y
  end.

Definition narrow (x y : AbstractValue) : AbstractValue :=
  match x, y with
  | IntInterval a_min a_max, IntInterval b_min b_max =>
    let narrow_min := Z.max a_min b_min in
    let narrow_max := Z.min a_max b_max in
    if narrow_min <=? narrow_max then normalize (IntInterval narrow_min narrow_max) else Undefined
  | IntSet a_set, IntSet b_set => some_set IntSet (a_set ∩ b_set)
  | _, _ => meet x y
  end.

(** ** Checked arithmetic *)

(** What the message of a type mismatch shows. *)
Inductive Mismatch :=
  | M_Values (x y : AbstractValue)
  | M_Value (x : AbstractValue)
  | M_EmptySet
  | M_Operator (symbol : string).

Inductive EvaluationError :=
  | UnknownVariable (name : string)
  | TypeMismatch (expected : string) (actual : Mismatch)
  | DivisionByZero
  | ArithmeticOverflow.

Definition check_integers (x y : AbstractValue) (r : Result AbstractValue EvaluationError)
    : Result AbstractValue EvaluationError :=
  if negb (is_integer x) || negb (is_integer y) then Err (TypeMismatch "int" (M_Values x y)) else r.

Definition add_checked (x y : AbstractValue) := check_integers x y (Ok (add x y)).
Definition sub_checked (x y : AbstractValue) := check_integers x y (Ok (sub x y)).
Definition mul_checked (x y : AbstractValue) := check_integers x y (Ok (mul x y)).
Definition div_checked (x y : AbstractValue) :=
  check_integers x y (match div x y with Some v => Ok v | None => Err DivisionByZero end).

(** ** The domains of [domains.rs] *)

Module BoolDomain.
Inductive BoolDomain := BTrue | BFalse | BUnknown.

Definition from_bool (b : bool) : BoolDomain := if b then BTrue else BFalse.
Definition to_bool (d : BoolDomain) : option bool :=
  match d with BTrue => Some true | BFalse => Some false | BUnknown => None end.
Definition and (x y : BoolDomain) : BoolDomain :=
  match x, y with
  | BTrue, BTrue => BTrue
  | BFalse, _ | _, BFalse => BFalse
  | _, _ => BUnknown
  end.
Definition or (x y : BoolDomain) : BoolDomain :=
  match x, y with
  | BFalse, BFalse => BFalse
  | BTrue, _ | _, BTrue => BTrue
  | _, _ => BUnknown
  end.
Definition xor (x y : BoolDomain) : BoolDomain :=
  match x, y with
  | BTrue, BTrue | BFalse, BFalse => BFalse
  | BTrue, BFalse | BFalse, BTrue => BTrue
  | _, _ => BUnknown
  end.
Definition implies (x y : BoolDomain) : BoolDomain :=
  match x, y with
  | BTrue, BTrue => BTrue
  | BTrue, BFalse => BFalse
  | BFalse, _ => BTrue
  | _, _ => BUnknown
  end.
Definition not (x : BoolDomain) : BoolDomain :=
  match x with BTrue => BFalse | BFalse => BTrue | BUnknown => BUnknown end.
End BoolDomain.

Module IntDomain.
(** A missing bound is infinite. *)
Record IntDomain := { lower : option Z; upper : option Z }.

(** [None] is the failed assertion on the order of the bounds. *)
Definition interval (lower upper : option Z) : option IntDomain :=
  match lower, upper with
  | Some l, Some u => if l <=? u then Some {| lower := lower; upper := upper |} else None
  | _, _ => Some {| lower := lower; upper := upper |}
  end.
Definition constant (value : Z) : IntDomain := {| lower := Some value; upper := Some value |}.
Definition unbounded : IntDomain := {| lower := None; upper := None |}.

Definition is_constant (d : IntDomain) : bool :=
  match lower d, upper d with Some l, Some u => l =? u | _, _ => false end.
Definition to_constant (d : IntDomain) : option Z := if is_constant d then lower d else None.
Definition contains (d : IntDomain) (value : Z) : bool :=
  match lower d with Some l => l <=? value | None => true end &&
  match upper d with Some u => value <=? u | None => true end.

Definition is_subset_of (d other : IntDomain) : bool :=
  match lower d, lower other with
  | None, _ => true
  | Some _, None => true
  | Some l, Some r => r <=? l
  end &&
  match upper d, upper other with
  | None, _ => true
  | Some _, None => true
  | Some u, Some r => u <=? r
  end.

Definition add (x y : IntDomain) : IntDomain :=
  {| lower := match lower x, lower y with Some a, Some b => Some (saturate (a + b)) | _, _ => None end;
     upper := match upper x, upper y with
              | Some a, Some b =>
                match checked_add a b with Some sum => if sum <? i64_max then Some sum else None | None => None end
              | _, _ => None
              end |}.

Definition sub (x y : IntDomain) : IntDomain :=
  {| lower := match lower x, upper y with Some a, Some b => Some (saturate (a - b)) | _, _ => None end;
     upper := match upper x, lower y with
              | Some a, Some b =>
                match checked_sub a b with Some diff => if i64_min <? diff then Some diff else None | None => None end
              | _, _ => None
              end |}.

Definition scale (d : IntDomain) (c : Z) : IntDomain :=
  let times b := match b with Some z => checked_mul z c | None => None end in
  if c =? 0 then constant 0
  else if 0 <? c then {| lower := times (lower d); upper := times (upper d) |}
  else {| lower := times (upper d); upper := times (lower d) |}.

(** The corners of two intervals: unbounded when one is missing or overflows. *)
Definition corners (op : Z → Z → option Z) (x y : IntDomain) : IntDomain :=
  match mapM (λ p, match p with (Some a, Some b) => op a b | _ => None end)
    [(lower x, lower y); (lower x, upper y); (upper x, lower y); (upper x, upper y)] with
  | Some cs => let '(lo, hi) := corner_range (map Some cs) in {| lower := lo; upper := hi |}
  | None => unbounded
  end.

(** Only a constant zero is tested for, which contains zero. *)
Definition mul (x y : IntDomain) : IntDomain :=
  if decide (to_constant x = Some 0) then constant 0
  else if decide (to_constant y = Some 0) then constant 0
  else
    match to_constant x, to_constant y with
    | Some c, _ => scale y c
    | None, Some c => scale x c
    | None, None => corners checked_mul x y
    end.

(** [None] is [DivisionByZero]. *)
Definition div (x y : IntDomain) : option IntDomain :=
  if contains y 0 then None
  else
    match to_constant y with
    | Some c => Some (scale x (Z.quot 1 c))
    | None => Some (corners checked_div x y)
    end.

Definition widen (d : IntDomain) (threshold : Z) : IntDomain :=
  match lower d, upper d with
  | Some l, Some u => if threshold <? saturate (u - l) then {| lower := lower d; upper := None |} else d
  | _, _ => d
  end.
End IntDomain.

(** [as_bool]. *)
Definition as_bool (v : AbstractValue) : option BoolDomain.BoolDomain :=
  match v with
  | BoolConstant b => Some (BoolDomain.from_bool b)
  | BoolSet s =>
    if contains s true && contains s false then Some BoolDomain.BUnknown
    else if contains s true then Some BoolDomain.BTrue
    else if contains s false then Some BoolDomain.BFalse
    else None
  | _ => None
  end.

(** [as_int]; the outer option is the panic on an inverted interval. *)
Definition as_int (v : AbstractValue) : option (option IntDomain.IntDomain) :=
  match v with
  | IntConstant n => Some (Some (IntDomain.constant n))
  | IntInterval lo hi => Some <$> IntDomain.interval (Some lo) (Some hi)
  | IntSet s =>
    match set_min s, set_max s with
    | Some lo, Some hi => Some <$> IntDomain.interval (Some lo) (Some hi)
    | _, _ => Some None
    end
  | IntTop => Some (Some IntDomain.unbounded)
  | PositiveInfinity => Some <$> IntDomain.interval (Some i64_max) None
  | NegativeInfinity => Some <$> IntDomain.interval None (Some i64_min)
  | _ => Some None
  end.
