(* ===== verification/AbstractSound.v ===== *)
(** What the abstract values mean, and that the arithmetic of
    [abstraction/value.rs] is sound.

    An abstract value is a set of concrete values ([v ∈ a]).  The concrete
    arithmetic is checked: an operation whose result is not an [i64] has no
    result, so the infinities, which stand for overflows, are empty.  Every
    operation contains the concrete results and keeps well-formedness, with two
    exceptions stated exactly as side conditions ([mul_fits], [div_fits]). *)
From S2P Require Import Prelude AbstractValues.
Local Open Scope Z_scope.

(** ** Concrete values *)

Inductive ConcreteValue := VInt (n : Z) | VBool (b : bool) | VSymbol (s : string).

Definition i64 (z : Z) : Prop := i64_min ≤ z ≤ i64_max.

Definition denotes (v : ConcreteValue) (a : AbstractValue) : Prop :=
  match a, v with
  | IntConstant n, VInt x => x = n
  | IntInterval lo hi, VInt x => lo ≤ x ≤ hi
  | IntSet s, VInt x => x ∈ s
  | IntTop, VInt x => i64 x
  | BoolConstant b, VBool x => x = b
  | BoolSet s, VBool x => x ∈ s
  | SymbolConstant s, VSymbol x => x = s
  | SymbolSet s, VSymbol x => x ∈ s
  | SymbolTop, VSymbol _ => True
  | _, _ => False
  end.
#[export] Instance gamma : ElemOf ConcreteValue AbstractValue := denotes.

(** The integers are 64-bit and intervals are not inverted. *)
Definition value_ok (a : AbstractValue) : Prop :=
  match a with
  | IntConstant n => i64 n
  | IntInterval lo hi => i64 lo ∧ i64 hi ∧ lo ≤ hi
  | IntSet s => ∀ x, x ∈ s → i64 x
  | _ => True
  end.

(** Constants are written as constants. *)
Definition normal (a : AbstractValue) : Prop := normalize a = a.

(** ** Integers and sets *)

Lemma in_i64_spec z : in_i64 z = true ↔ i64 z.
Proof. unfold in_i64, i64. rewrite andb_true_iff, !Z.leb_le. done. Qed.

Lemma checked_Some z r : checked z = Some r ↔ r = z ∧ i64 z.
Proof.
  unfold checked. destruct (in_i64 z) eqn:E.
  - apply in_i64_spec in E. naive_solver.
  - split; [done|]. intros [_ H%in_i64_spec]. congruence.
Qed.

Lemma checked_None z : checked z = None ↔ ¬ i64 z.
Proof.
  unfold checked. rewrite <-in_i64_spec. destruct (in_i64 z); naive_solver.
Qed.

Lemma checked_div_Some a b r : checked_div a b = Some r ↔ b ≠ 0 ∧ r = Z.quot a b ∧ i64 (Z.quot a b).
Proof.
  unfold checked_div. destruct (Z.eqb_spec b 0); [naive_solver|]. rewrite checked_Some. naive_solver.
Qed.

Lemma fold_elements_spec (f : Z → Z → Z) (R : relation Z) `{!PreOrder R} (s : gset Z) :
  (∀ x y, f x y = x ∨ f x y = y) → (∀ x y, R (f x y) x ∧ R (f x y) y) →
  match fold_elements f s with Some m => m ∈ s ∧ ∀ x, x ∈ s → R m x | None => s = ∅ end.
Proof.
  intros Hsel HR. assert (Hs : ∀ x, x ∈ s ↔ x ∈ elements s) by (intros x; by rewrite elem_of_elements).
  unfold fold_elements.
  destruct (elements s) as [|a l] eqn:E; [by apply elements_empty_inv in E; apply leibniz_equiv|].
  clear E. enough (foldl f a l ∈ a :: l ∧ ∀ x, x ∈ a :: l → R (foldl f a l) x) by (split; [|intros x]; rewrite Hs; naive_solver).
  clear Hs. revert a. induction l as [|b l IH]; intros a; cbn [foldl].
  - split; [by left|]. intros x ->%list_elem_of_singleton. done.
  - destruct (IH (f a b)) as [Hin Hle]. split.
    + apply elem_of_cons in Hin as [->|Hin]; [|by do 2 right]. destruct (Hsel a b) as [->| ->]; [by left|by right; left].
    + intros x [->|[->|Hx]%elem_of_cons]%elem_of_cons.
      * etrans; [apply Hle; by left|apply HR].
      * etrans; [apply Hle; by left|apply HR].
      * apply Hle. by right.
Qed.

Lemma set_min_spec (s : gset Z) :
  match set_min s with Some m => m ∈ s ∧ ∀ x, x ∈ s → m ≤ x | None => s = ∅ end.
Proof. apply (fold_elements_spec Z.min Z.le s); intros; lia. Qed.

Lemma set_max_spec (s : gset Z) :
  match set_max s with Some m => m ∈ s ∧ ∀ x, x ∈ s → x ≤ m | None => s = ∅ end.
Proof.
  apply (fold_elements_spec Z.max (flip Z.le) s); [intros; lia|unfold flip; intros; lia].
Qed.

(** A set that is not empty has both bounds. *)
Lemma set_bounds (s : gset Z) :
  (s = ∅ ∧ set_min s = None ∧ set_max s = None) ∨
  ∃ lo hi, set_min s = Some lo ∧ set_max s = Some hi ∧ lo ∈ s ∧ hi ∈ s ∧ ∀ x, x ∈ s → lo ≤ x ≤ hi.
Proof.
  pose proof (set_min_spec s) as H1. pose proof (set_max_spec s) as H2.
  destruct (set_min s) as [lo|], (set_max s) as [hi|].
  - right. exists lo, hi. naive_solver.
  - exfalso. destruct H1 as [H1 _]. rewrite H2 in H1. by apply not_elem_of_empty in H1.
  - exfalso. destruct H2 as [H2 _]. rewrite H1 in H2. by apply not_elem_of_empty in H2.
  - by left.
Qed.

Lemma elem_of_combine_sets op (s1 s2 r : gset Z) z :
  combine_sets op s1 s2 = Some r → z ∈ r ↔ ∃ x y, x ∈ s1 ∧ y ∈ s2 ∧ op x y = Some z.
Proof.
  unfold combine_sets. destruct (mapM _ _) as [l|] eqn:E; [|done]. intros [= <-].
  apply mapM_Some in E. rewrite elem_of_list_to_set. split.
  - intros (i & Hi)%list_elem_of_lookup. destruct (Forall2_lookup_r _ _ _ _ _ E Hi) as ([x y] & Hp%list_elem_of_lookup_2 & Hz).
    apply list_elem_of_In, in_prod_iff in Hp as [Hx%list_elem_of_In Hy%list_elem_of_In].
    apply elem_of_elements in Hx, Hy. eauto.
  - intros (x & y & Hx%elem_of_elements & Hy%elem_of_elements & Hz).
    assert (Hp : (x, y) ∈ list_prod (elements s1) (elements s2)) by (apply list_elem_of_In, in_prod; by apply list_elem_of_In).
    apply list_elem_of_lookup in Hp as [i Hp]. destruct (Forall2_lookup_l _ _ _ _ _ E Hp) as (z' & Hz' & Heq).
    simpl in Heq. rewrite Hz in Heq. injection Heq as ->. by eapply list_elem_of_lookup_2.
Qed.

(** ** Normalisation *)

Lemma normalize_set_elements {A} `{Countable A} (c : A → AbstractValue) (set : gset A → AbstractValue) (s : gset A) :
  (∃ x, s = {[x]} ∧ normalize_set c set s = c x) ∨ (size s ≠ 1%nat ∧ normalize_set c set s = set s).
Proof.
  unfold normalize_set, size, set_size. destruct (elements s) as [|x [|y l]] eqn:E; simpl.
  - right. by rewrite E.
  - left. exists x. split; [|done]. apply set_eq. intros z. rewrite <-elem_of_elements, E. set_solver.
  - right. by rewrite E.
Qed.

Lemma integer_member a v : is_integer a = true → v ∈ a → ∃ x, v = VInt x.
Proof. destruct a, v; done || eauto. Qed.

Lemma gamma_normalize a v : v ∈ normalize a ↔ v ∈ a.
Proof.
  destruct a as [| | |lo hi|s| |s|s| | | |]; try done; cbn [normalize].
  - destruct (Z.eqb_spec lo hi) as [->|]; [|done]. destruct v; unfold elem_of; simpl; [lia|done|done].
  - destruct (normalize_set_elements IntConstant IntSet s) as [(x & -> & ->)|[_ ->]]; [|done].
    destruct v; unfold elem_of, gamma, denotes at 1 2; set_solver.
  - destruct (normalize_set_elements BoolConstant BoolSet s) as [(x & -> & ->)|[_ ->]]; [|done].
    destruct v; unfold elem_of, gamma, denotes at 1 2; set_solver.
  - destruct (normalize_set_elements SymbolConstant SymbolSet s) as [(x & -> & ->)|[_ ->]]; [|done].
    destruct v; unfold elem_of, gamma, denotes at 1 2; set_solver.
Qed.

Lemma normalize_normal a : normal (normalize a).
Proof.
  unfold normal. destruct a as [| | |lo hi|s| |s|s| | | |]; try done; cbn [normalize].
  - destruct (Z.eqb_spec lo hi) as [->|]; [done|]. cbn [normalize]. by destruct (Z.eqb_spec lo hi).
  - destruct (normalize_set_elements IntConstant IntSet s) as [(x & -> & Hs)|[_ Hs]]; rewrite Hs; [done|exact Hs].
  - destruct (normalize_set_elements BoolConstant BoolSet s) as [(x & -> & Hs)|[_ Hs]]; rewrite Hs; [done|exact Hs].
  - destruct (normalize_set_elements SymbolConstant SymbolSet s) as [(x & -> & Hs)|[_ Hs]]; rewrite Hs; [done|exact Hs].
Qed.

Lemma normalize_ok a : value_ok a → value_ok (normalize a).
Proof.
  destruct a as [| | |lo hi|s| |s|s| | | |]; try done; cbn [normalize].
  - destruct (Z.eqb_spec lo hi) as [->|]; [by intros []|done].
  - intros Hs. destruct (normalize_set_elements IntConstant IntSet s) as [(x & -> & ->)|[_ ->]]; [|done].
    apply Hs, elem_of_singleton. done.
  - intros _. by destruct (normalize_set_elements BoolConstant BoolSet s) as [(x & -> & ->)|[_ ->]].
  - intros _. by destruct (normalize_set_elements SymbolConstant SymbolSet s) as [(x & -> & ->)|[_ ->]].
Qed.

(** ** Ranges of results *)

Definition between (p q z : Z) : Prop := p ≤ z ≤ q ∨ q ≤ z ≤ p.

Lemma gamma_singleton_or_interval lo hi x :
  VInt x ∈ (if lo =? hi then IntConstant lo else IntInterval lo hi) ↔ lo ≤ x ≤ hi.
Proof. destruct (Z.eqb_spec lo hi) as [->|]; unfold elem_of; simpl; lia. Qed.

Lemma singleton_or_interval_ok lo hi :
  i64 lo → i64 hi → lo ≤ hi → value_ok (if lo =? hi then IntConstant lo else IntInterval lo hi).
Proof. by destruct (Z.eqb_spec lo hi). Qed.

Lemma singleton_or_interval_normal lo hi : normal (if lo =? hi then IntConstant lo else IntInterval lo hi).
Proof. exact (normalize_normal (IntInterval lo hi)). Qed.

Lemma interval_bounds_sound lo hi z :
  i64 z → lo ≤ z ≤ hi → VInt z ∈ interval_bounds (checked lo) (checked hi).
Proof.
  intros Hz Hb. unfold interval_bounds.
  destruct (checked lo) as [lo'|] eqn:E1, (checked hi) as [hi'|] eqn:E2;
    rewrite ?checked_Some in E1; rewrite ?checked_Some in E2.
  - destruct E1 as [-> _], E2 as [-> _]. by apply gamma_singleton_or_interval.
  - destruct E1 as [-> _]. apply gamma_normalize. unfold elem_of, i64 in *; simpl. lia.
  - destruct E2 as [-> _]. apply gamma_normalize. unfold elem_of, i64 in *; simpl. lia.
  - done.
Qed.

Lemma i64_bounds : i64 i64_min ∧ i64 i64_max.
Proof. unfold i64, i64_min, i64_max. lia. Qed.

Lemma interval_bounds_ok lo hi : lo ≤ hi → value_ok (interval_bounds (checked lo) (checked hi)).
Proof.
  intros Hb. destruct i64_bounds as [Hmin Hmax]. unfold interval_bounds.
  destruct (checked lo) as [lo'|] eqn:E1, (checked hi) as [hi'|] eqn:E2;
    rewrite ?checked_Some in E1; rewrite ?checked_Some in E2; [| | |done].
  - destruct E1 as [-> ?], E2 as [-> ?]. by apply singleton_or_interval_ok.
  - destruct E1 as [-> H]. apply normalize_ok. repeat split; try done; apply H.
  - destruct E2 as [-> H]. apply normalize_ok. repeat split; try done; apply H.
Qed.

Lemma corner_hull_sound p q r s z :
  i64 p → i64 q → i64 r → i64 s →
  (∃ u v, between p q u ∧ between r s v ∧ between u v z) →
  VInt z ∈ corner_hull [checked p; checked q; checked r; checked s].
Proof.
  intros Hp Hq Hr Hs (u & v & Hu & Hv & Hz).
  assert (Hc : ∀ n, i64 n → checked n = Some n) by (intros n ?; by apply checked_Some).
  rewrite !Hc by done. unfold corner_hull. cbn [corner_range foldl].
  match goal with |- VInt z ∈ (if ?a =? ?b then _ else _) => assert (Hb : a ≤ z ≤ b) by (unfold between in *; lia) end.
  destruct (Z.eqb_spec (Z.min (Z.min (Z.min p q) r) s) (Z.max (Z.max (Z.max p q) r) s)) as [He|];
    [|apply gamma_normalize]; unfold elem_of; simpl; lia.
Qed.

Lemma corner_hull_ok l : (∀ z, Some z ∈ l → i64 z) → value_ok (corner_hull l).
Proof.
  intros Hl. unfold corner_hull, corner_range.
  set (ok := λ p : option Z * option Z,
    match p with (Some lo, Some hi) => i64 lo ∧ i64 hi ∧ lo ≤ hi | (None, None) => True | _ => False end).
  assert (Hinv : ∀ p, ok p → ok (foldl (λ '(min_val, max_val) corner,
    match corner with
    | Some c =>
      (Some (match min_val with Some m => Z.min m c | None => c end),
       Some (match max_val with Some m => Z.max m c | None => c end))
    | None => (min_val, max_val)
    end) p l)).
  { induction l as [|[c|] l IH]; intros [[lo|] [hi|]] Hp; try done; simpl;
      apply IH; try (intros z Hz; apply Hl; by right); try done;
      pose proof (Hl c (list_elem_of_here _ _)); unfold ok, i64 in *; lia. }
  specialize (Hinv (None, None) I). destruct (foldl _ _ l) as [[lo|] [hi|]]; try done.
  destruct Hinv as (? & ? & ?). destruct (Z.eqb_spec lo hi); [done|by apply normalize_ok].
Qed.

Lemma scaled_sound (neg : bool) p q z :
  (if neg then q ≤ z ≤ p else p ≤ z ≤ q) → i64 z → VInt z ∈ scaled neg (checked p) (checked q).
Proof.
  intros Hb Hz. unfold scaled. destruct (checked p) as [p'|] eqn:E1; [|done].
  destruct (checked q) as [q'|] eqn:E2; [|done]. apply checked_Some in E1 as [-> _], E2 as [-> _].
  destruct (Z.eqb_spec p q) as [->|]; [destruct neg; unfold elem_of; simpl; lia|].
  destruct neg; by apply gamma_normalize.
Qed.

Lemma scaled_ok (neg : bool) p q :
  (if neg then q ≤ p else p ≤ q) → value_ok (scaled neg (checked p) (checked q)).
Proof.
  intros Hb. unfold scaled. destruct (checked p) as [p'|] eqn:E1; [|done].
  destruct (checked q) as [q'|] eqn:E2; [|done]. apply checked_Some in E1 as [-> ?], E2 as [-> ?].
  destruct (Z.eqb_spec p q) as [->|]; [done|]. destruct neg; by apply normalize_ok.
Qed.

(** ** Operations on sets *)

Lemma gamma_normal_set s x : x ∈ s → VInt x ∈ normalize (IntSet s).
Proof. intros Hx. by apply gamma_normalize. Qed.

Section set_operations.
Context (op : Z → Z → option Z).
Hypothesis op_i64 : ∀ x y z, op x y = Some z → i64 z.

Lemma combined_sound s1 s2 r x y z :
  combine_sets op s1 s2 = Some r → x ∈ s1 → y ∈ s2 → op x y = Some z → z ∈ r.
Proof using. intros Hr Hx Hy Hz. apply (elem_of_combine_sets op s1 s2 r z Hr). eauto. Qed.

Lemma combined_ok s1 s2 r : combine_sets op s1 s2 = Some r → value_ok (IntSet r).
Proof using op_i64.
  intros Hr z (x & y & _ & _ & Hz)%(elem_of_combine_sets op s1 s2 r z Hr). by apply (op_i64 x y).
Qed.

Lemma set_by_set_sound s1 s2 x y z :
  x ∈ s1 → y ∈ s2 → op x y = Some z → VInt z ∈ set_by_set op s1 s2.
Proof using op_i64.
  intros Hx Hy Hz. unfold set_by_set. destruct (combine_sets op s1 s2) as [r|] eqn:E;
    [|exact (op_i64 x y z Hz)].
  pose proof (combined_sound _ _ _ _ _ _ E Hx Hy Hz) as Hr.
  destruct (decide (r = ∅)) as [->|]; [by apply not_elem_of_empty in Hr|]. by apply gamma_normalize.
Qed.

Lemma constant_by_set_sound s1 s2 x y z :
  x ∈ s1 → y ∈ s2 → op x y = Some z → VInt z ∈ constant_by_set op s1 s2.
Proof using op_i64.
  intros Hx Hy Hz. unfold constant_by_set. destruct (combine_sets op s1 s2) as [r|] eqn:E;
    [|exact (op_i64 x y z Hz)].
  apply gamma_normalize. exact (combined_sound _ _ _ _ _ _ E Hx Hy Hz).
Qed.

Lemma set_by_set_ok s1 s2 : value_ok (set_by_set op s1 s2).
Proof using op_i64.
  unfold set_by_set. destruct (combine_sets op s1 s2) as [r|] eqn:E; [|done].
  destruct (decide (r = ∅)); [done|]. by apply normalize_ok, (combined_ok _ _ _ E).
Qed.

Lemma constant_by_set_ok s1 s2 : value_ok (constant_by_set op s1 s2).
Proof using op_i64.
  unfold constant_by_set. destruct (combine_sets op s1 s2) as [r|] eqn:E; [|done].
  by apply normalize_ok, (combined_ok _ _ _ E).
Qed.
End set_operations.

Lemma with_bounds_sound s f x z :
  x ∈ s → (∀ lo hi, lo ∈ s → hi ∈ s → lo ≤ x ≤ hi → VInt z ∈ f lo hi) → VInt z ∈ with_bounds s f.
Proof.
  intros Hx Hf. unfold with_bounds. destruct (set_bounds s) as [(-> & _)|(lo & hi & -> & -> & Hl & Hh & Hb)].
  - by apply not_elem_of_empty in Hx.
  - apply Hf; [done|done|by apply Hb].
Qed.

Lemma with_bounds_ok s f :
  (∀ lo hi, lo ∈ s → hi ∈ s → lo ≤ hi → value_ok (f lo hi)) → value_ok (with_bounds s f).
Proof.
  intros Hf. unfold with_bounds. destruct (set_bounds s) as [(_ & -> & _)|(lo & hi & -> & -> & Hl & Hh & Hb)]; [done|].
  apply Hf; [done|done|by apply Hb].
Qed.

Lemma checked_i64 n z : checked n = Some z → i64 z.
Proof. by intros [-> ?]%checked_Some. Qed.

Lemma checked_add_i64 x y z : checked_add x y = Some z → i64 z.
Proof. apply checked_i64. Qed.
Lemma checked_sub_i64 x y z : checked_sub x y = Some z → i64 z.
Proof. apply checked_i64. Qed.
Lemma checked_mul_i64 x y z : checked_mul x y = Some z → i64 z.
Proof. apply checked_i64. Qed.
Lemma checked_div_i64 x y z : checked_div x y = Some z → i64 z.
Proof. intros (_ & -> & H)%checked_div_Some. done. Qed.

(** The results of checked operations and their sets. *)
Create HintDb abstract.
#[export] Hint Resolve checked_add_i64 checked_sub_i64 checked_mul_i64 checked_div_i64 : abstract.
#[export] Hint Resolve set_by_set_sound constant_by_set_sound set_by_set_ok constant_by_set_ok : abstract.

Lemma elem_of_self (x : Z) : x ∈ ({[x]} : gset Z).
Proof. by apply elem_of_singleton. Qed.
#[export] Hint Resolve elem_of_self : abstract.

(** ** Addition and subtraction *)

(** The concrete values of two integers, one case per pair of constructors. *)
Ltac integer_cases a b :=
  destruct a, b;
  repeat match goal with
  | H : VInt _ ∈ _ |- _ => unfold elem_of, gamma in H; cbn [denotes] in H
  end; try done.

Lemma add_sound a b x y z :
  VInt x ∈ a → VInt y ∈ b → checked_add x y = Some z → VInt z ∈ add a b.
Proof.
  intros Hx Hy Hz. pose proof (checked_add_i64 _ _ _ Hz) as Hi.
  pose proof Hz as [-> _]%checked_Some.
  integer_cases a b; cbn [add]; subst; try (exact Hi); eauto with abstract.
  - rewrite Hz. done.
  - apply interval_bounds_sound; [done|lia].
  - apply interval_bounds_sound; [done|lia].
  - apply interval_bounds_sound; [done|lia].
  - apply (with_bounds_sound _ _ y); [done|]. intros. apply interval_bounds_sound; [done|lia].
  - apply (with_bounds_sound _ _ x); [done|]. intros. apply interval_bounds_sound; [done|lia].
Qed.

Lemma sub_sound a b x y z :
  VInt x ∈ a → VInt y ∈ b → checked_sub x y = Some z → VInt z ∈ sub a b.
Proof.
  intros Hx Hy Hz. pose proof (checked_sub_i64 _ _ _ Hz) as Hi.
  pose proof Hz as [-> _]%checked_Some.
  integer_cases a b; cbn [sub]; subst; try (exact Hi); eauto with abstract.
  - rewrite Hz. done.
  - apply interval_bounds_sound; [done|lia].
  - apply interval_bounds_sound; [done|lia].
  - apply interval_bounds_sound; [done|lia].
  - apply (with_bounds_sound _ _ y); [done|]. intros. apply interval_bounds_sound; [done|lia].
  - apply (with_bounds_sound _ _ x); [done|]. intros. apply interval_bounds_sound; [done|lia].
Qed.

(** ** Multiplication and division *)

Definition ranged (a : AbstractValue) : bool :=
  match a with IntInterval _ _ | IntSet _ => true | _ => false end.
Definition is_interval (a : AbstractValue) : bool :=
  match a with IntInterval _ _ => true | _ => false end.

(** The operations on the corners of two ranges ignore a corner that overflows. *)
Definition corner_case (a b : AbstractValue) : bool :=
  ranged a && ranged b && (is_interval a || is_interval b).

Definition mul_fits (a b : AbstractValue) : Prop :=
  corner_case a b = true → ∀ x y, VInt x ∈ a → VInt y ∈ b → i64 (x * y).

(** A negative constant over an interval gives the quotients in the wrong order. *)
Definition div_fits (a b : AbstractValue) : Prop :=
  (corner_case a b = true → ∀ x y, VInt x ∈ a → VInt y ∈ b → i64 (Z.quot x y)) ∧
  (match a, b with IntConstant n, IntInterval _ _ => 0 ≤ n | _, _ => True end).

Lemma mul_between x p q y : p ≤ x ≤ q → between (p * y) (q * y) (x * y).
Proof. intros H. unfold between. destruct (Z.le_gt_cases 0 y); [left|right]; nia. Qed.

Lemma mul_between_r x y p q : p ≤ y ≤ q → between (x * p) (x * q) (x * y).
Proof. intros H. rewrite !(Z.mul_comm x). by apply mul_between. Qed.

Lemma mul_intervals_sound p q r s x y :
  p ≤ x ≤ q → r ≤ y ≤ s → (∀ u v, p ≤ u ≤ q → r ≤ v ≤ s → (u = p ∨ u = q) → (v = r ∨ v = s) → i64 (u * v)) →
  VInt (x * y) ∈ mul_intervals p q r s.
Proof.
  intros Hx Hy Hf. apply corner_hull_sound; try (apply Hf; lia).
  exists (p * y), (q * y). split_and!; [by apply mul_between_r..|by apply mul_between].
Qed.

Lemma scaled_mul_sound c lo hi y :
  lo ≤ y ≤ hi → i64 (y * c) → VInt (y * c) ∈ scaled (c <? 0) (checked_mul lo c) (checked_mul hi c).
Proof.
  intros Hy Hi. apply scaled_sound; [|done]. destruct (Z.ltb_spec c 0); nia.
Qed.

(** The match of [mul] on a constant zero. *)
Ltac nonzero n := let E := fresh "E" in destruct n as [|?|?] eqn:E; [lia| |];
  rewrite <-E; replace (n =? 0) with false by lia; subst n.

Lemma mul_constant_interval c lo hi y :
  lo ≤ y ≤ hi → i64 (c * y) → VInt (c * y) ∈ mul (IntConstant c) (IntInterval lo hi).
Proof.
  intros Hy Hi. destruct (decide (c = 0)) as [->|Hc]; [done|].
  rewrite Z.mul_comm in Hi |- *. cbn [mul]. nonzero c; by apply scaled_mul_sound.
Qed.

Lemma mul_interval_constant c lo hi y :
  lo ≤ y ≤ hi → i64 (y * c) → VInt (y * c) ∈ mul (IntInterval lo hi) (IntConstant c).
Proof.
  intros Hy Hi. destruct (decide (c = 0)) as [->|Hc]; [by rewrite Z.mul_0_r|].
  cbn [mul]. nonzero c; by apply scaled_mul_sound.
Qed.

Lemma mul_constant_set c s y z :
  y ∈ s → checked_mul c y = Some z → VInt z ∈ mul (IntConstant c) (IntSet s).
Proof.
  intros Hy Hz. destruct (decide (c = 0)) as [->|Hc]; [by apply checked_Some in Hz as [-> _]|].
  cbn [mul]. nonzero c; eauto with abstract.
Qed.

Lemma mul_set_constant c s y z :
  y ∈ s → checked_mul y c = Some z → VInt z ∈ mul (IntSet s) (IntConstant c).
Proof.
  intros Hy Hz. destruct (decide (c = 0)) as [->|Hc];
    [apply checked_Some in Hz as [-> _]; by rewrite Z.mul_0_r|].
  cbn [mul]. nonzero c; eauto with abstract.
Qed.

Lemma mul_constants c d z : checked_mul c d = Some z → mul (IntConstant c) (IntConstant d) = IntConstant z.
Proof. intros Hz. cbn [mul]. rewrite Hz. by destruct c, d. Qed.

Lemma mul_sound a b x y z :
  mul_fits a b → VInt x ∈ a → VInt y ∈ b → checked_mul x y = Some z → VInt z ∈ mul a b.
Proof.
  intros Hf Hx Hy Hz. pose proof Hz as [-> Hi]%checked_Some.
  assert (Hc : corner_case a b = true → ∀ u v, VInt u ∈ a → VInt v ∈ b → i64 (u * v)) by exact Hf.
  integer_cases a b; try subst x; try subst y.
  - by rewrite (mul_constants _ _ _ Hz).
  - by apply mul_constant_interval.
  - by apply (mul_constant_set _ _ y).
  - cbn [mul]. by destruct n.
  - by apply mul_interval_constant.
  - apply mul_intervals_sound; [done|done|]. intros u v **. by apply Hc.
  - cbn [mul]. apply (with_bounds_sound _ _ y); [done|]. intros r t Hr Ht Hy'.
    apply mul_intervals_sound; [done|done|]. intros u v ? ? ? [-> | ->]; by apply Hc.
  - by apply (mul_set_constant _ _ x).
  - cbn [mul]. apply (with_bounds_sound _ _ x); [done|]. intros r t Hr Ht Hx'.
    apply mul_intervals_sound; [done|done|]. intros u v ? ? [-> | ->] ?; by apply Hc.
  - cbn [mul]. eauto with abstract.
  - cbn [mul]. destruct n; [|done..]. by rewrite Z.mul_0_r.
Qed.

Lemma quot_antitone b u v : b < 0 → u ≤ v → Z.quot v b ≤ Z.quot u b.
Proof.
  intros Hb Huv. pose proof (Z.quot_le_mono u v (- b)) as H. rewrite !Z.quot_opp_r in H by lia. lia.
Qed.

Lemma quot_between x p q y : y ≠ 0 → p ≤ x ≤ q → between (Z.quot p y) (Z.quot q y) (Z.quot x y).
Proof.
  intros Hy [H1 H2]. unfold between. destruct (Z.lt_gt_cases 0 y) as [[Hp|Hn] _]; [done|left|right].
  - split; by apply Z.quot_le_mono.
  - split; apply quot_antitone; lia.
Qed.

Lemma quot_between_pos x r s y : 0 < r → r ≤ y ≤ s → between (Z.quot x r) (Z.quot x s) (Z.quot x y).
Proof.
  intros Hr [H1 H2]. unfold between. destruct (Z.le_gt_cases 0 x) as [Hx|Hx]; [right|left].
  - split; apply Z.quot_le_compat_l; lia.
  - assert (Hm : ∀ u v, 0 < u ≤ v → Z.quot x u ≤ Z.quot x v).
    { intros u v Huv. pose proof (Z.quot_le_compat_l (- x) u v) as H.
      rewrite !Z.quot_opp_l in H by lia. lia. }
    split; apply Hm; lia.
Qed.

Lemma quot_between_r x r s y :
  spans_zero r s = false → r ≤ y ≤ s → between (Z.quot x r) (Z.quot x s) (Z.quot x y).
Proof.
  intros Hs Hy. unfold spans_zero in Hs. destruct (Z.le_gt_cases r 0) as [Hr|Hr];
    [|by apply quot_between_pos].
  assert (Hn : s < 0) by lia.
  pose proof (quot_between_pos x (- s) (- r) (- y) ltac:(lia) ltac:(lia)) as H.
  rewrite !Z.quot_opp_r in H by lia. unfold between in *. lia.
Qed.

Lemma div_intervals_sound p q r s x y c :
  div_intervals p q r s = Some c → p ≤ x ≤ q → r ≤ y ≤ s →
  (∀ u v, p ≤ u ≤ q → r ≤ v ≤ s → (u = p ∨ u = q) → (v = r ∨ v = s) → i64 (Z.quot u v)) →
  VInt (Z.quot x y) ∈ c.
Proof.
  intros Hd Hx Hy Hf. unfold div_intervals in Hd. destruct (spans_zero r s) eqn:Hs; [done|].
  injection Hd as <-.
  assert (Hz : r =? 0 = false ∧ s =? 0 = false ∧ y ≠ 0) by (unfold spans_zero in Hs; lia).
  destruct Hz as (H1 & H2 & H0). unfold checked_div. rewrite H1, H2.
  apply corner_hull_sound; try (apply Hf; lia).
  exists (Z.quot p y), (Z.quot q y). split_and!; [by apply quot_between_r..|by apply quot_between].
Qed.

(** A constant that is not zero. *)
Lemma checked_div_nonzero a b : b ≠ 0 → checked_div a b = checked (Z.quot a b).
Proof. intros Hb. unfold checked_div. by destruct (Z.eqb_spec b 0). Qed.

Lemma elem_of_quotients s1 s2 z :
  z ∈ quotients s1 s2 ↔ ∃ x y, x ∈ s1 ∧ y ∈ s2 ∧ checked_div x y = Some z.
Proof.
  unfold quotients. rewrite elem_of_list_to_set, list_elem_of_omap. split.
  - intros ([x y] & Hp & Hz). apply list_elem_of_In, in_prod_iff in Hp as [Hx Hy].
    exists x, y. rewrite <-!elem_of_elements. split_and!; [by apply list_elem_of_In..|done].
  - intros (x & y & Hx & Hy & Hz). exists (x, y). split; [|done].
    apply list_elem_of_In, in_prod; by apply list_elem_of_In, elem_of_elements.
Qed.

Lemma div_interval_constant lo hi b x :
  b ≠ 0 → lo ≤ x ≤ hi → i64 (Z.quot x b) →
  VInt (Z.quot x b) ∈ scaled (b <? 0) (checked_div lo b) (checked_div hi b).
Proof.
  intros Hb Hx Hi. rewrite !checked_div_nonzero by done. apply scaled_sound; [|done].
  destruct (Z.ltb_spec b 0) as [Hn|Hn].
  - split; apply quot_antitone; lia.
  - split; apply Z.quot_le_mono; lia.
Qed.

Lemma quot_of_nonneg a lo hi y :
  0 ≤ a → spans_zero lo hi = false → lo ≤ y ≤ hi → Z.quot a hi ≤ Z.quot a y ≤ Z.quot a lo.
Proof.
  intros Ha Hs Hy. unfold spans_zero in Hs. destruct (Z.le_gt_cases lo 0) as [Hl|Hl].
  - assert (Hm : ∀ u v, u ≤ v < 0 → Z.quot a v ≤ Z.quot a u).
    { intros u v Huv. pose proof (Z.quot_le_compat_l a (- v) (- u)) as H.
      rewrite !Z.quot_opp_r in H by lia. lia. }
    split; apply Hm; lia.
  - split; apply Z.quot_le_compat_l; lia.
Qed.

Lemma spans_zero_bounds lo hi : spans_zero lo hi = false → lo ≤ hi → lo ≠ 0 ∧ hi ≠ 0.
Proof. unfold spans_zero. lia. Qed.

Lemma div_constant_interval a lo hi y :
  0 ≤ a → spans_zero lo hi = false → lo ≤ y ≤ hi → i64 (Z.quot a y) →
  VInt (Z.quot a y) ∈ scaled false (checked_div a hi) (checked_div a lo).
Proof.
  intros Ha Hs Hy Hi. destruct (spans_zero_bounds lo hi Hs); [lia|].
  rewrite !checked_div_nonzero by done. apply scaled_sound; [|done]. by apply quot_of_nonneg.
Qed.

Lemma div_sound a b c x y z :
  div_fits a b → div a b = Some c → VInt x ∈ a → VInt y ∈ b → checked_div x y = Some z → VInt z ∈ c.
Proof.
  intros [Hf Hp] Hc Hx Hy Hz. pose proof Hz as (Hy0 & -> & Hi)%checked_div_Some.
  assert (Hcc : corner_case a b = true → ∀ u v, VInt u ∈ a → VInt v ∈ b → i64 (Z.quot u v)) by exact Hf.
  unfold div in Hc. destruct (divisor_has_zero b) eqn:Hd; [done|]. integer_cases a b; try subst x; try subst y.
  - rewrite Hz in Hc. by injection Hc as <-.
  - injection Hc as <-. by apply div_constant_interval.
  - injection Hc as <-. apply gamma_normal_set, elem_of_quotients. exists n, y. by auto with abstract.
  - by injection Hc as <-.
  - injection Hc as <-. by apply div_interval_constant.
  - apply (div_intervals_sound _ _ _ _ _ _ _ Hc); [done|done|]. intros u v **. by apply Hcc.
  - destruct (set_bounds s) as [(-> & _)|(r & t & Hr & Ht & Hr' & Ht' & Hb)]; [by apply not_elem_of_empty in Hy|].
    rewrite Hr, Ht in Hc. apply (div_intervals_sound _ _ _ _ _ _ _ Hc); [done|by apply Hb|].
    intros u v ? ? ? [-> | ->]; by apply Hcc.
  - by injection Hc as <-.
  - injection Hc as <-. apply gamma_normal_set, elem_of_quotients. exists x, n. by auto with abstract.
  - destruct (set_bounds s) as [(-> & _)|(r & t & Hr & Ht & Hr' & Ht' & Hb)]; [by apply not_elem_of_empty in Hx|].
    rewrite Hr, Ht in Hc. apply (div_intervals_sound _ _ _ _ _ _ _ Hc); [by apply Hb|done|].
    intros u v ? ? [-> | ->] ?; by apply Hcc.
  - injection Hc as <-. assert (Hq : Z.quot x y ∈ quotients s s0) by (apply elem_of_quotients; eauto).
    destruct (decide (quotients s s0 = ∅)) as [He|]; [rewrite He in Hq; by apply not_elem_of_empty in Hq|].
    by apply gamma_normal_set.
  - by injection Hc as <-.
  - by injection Hc as <-.
  - by injection Hc as <-.
  - by injection Hc as <-.
  - by injection Hc as <-.
Qed.

(** ** The results are well formed and normal *)

Definition wf (a : AbstractValue) : Prop := value_ok a ∧ normal a.

Lemma interval_bounds_normal p q : normal (interval_bounds p q).
Proof.
  destruct p, q; try apply normalize_normal; [apply singleton_or_interval_normal|done].
Qed.
Lemma corner_hull_normal l : normal (corner_hull l).
Proof.
  unfold corner_hull. destruct (corner_range l) as [[lo|] [hi|]]; try done.
  destruct (Z.eqb_spec lo hi); [done|apply normalize_normal].
Qed.
Lemma scaled_normal neg p q : normal (scaled neg p q).
Proof.
  destruct p as [lo|], q as [hi|]; try done; unfold scaled.
  destruct (Z.eqb_spec lo hi); [done|]. destruct neg; apply normalize_normal.
Qed.
Lemma set_by_set_normal op s t : normal (set_by_set op s t).
Proof.
  unfold set_by_set. destruct (combine_sets op s t); [|done]. destruct (decide _); [done|apply normalize_normal].
Qed.
Lemma constant_by_set_normal op s t : normal (constant_by_set op s t).
Proof. unfold constant_by_set. destruct (combine_sets op s t); [apply normalize_normal|done]. Qed.
Lemma with_bounds_normal s f : (∀ lo hi, normal (f lo hi)) → normal (with_bounds s f).
Proof. intros Hf. unfold with_bounds. by destruct (set_min s), (set_max s). Qed.
Lemma some_set_normal {A} `{Countable A} (set : gset A → AbstractValue) s :
  (∀ t, normal (normalize (set t))) → normal (some_set set s).
Proof. intros Hs. unfold some_set. by destruct (decide (s = ∅)). Qed.
#[export] Hint Resolve normalize_normal interval_bounds_normal corner_hull_normal scaled_normal set_by_set_normal
  constant_by_set_normal with_bounds_normal some_set_normal : abstract.

Lemma add_normal a b : normal (add a b).
Proof.
  destruct a, b; cbn [add]; try done; auto with abstract; unfold add_intervals; auto with abstract.
  destruct (checked_add _ _); [done|]. by destruct (_ && _).
Qed.
Lemma sub_normal a b : normal (sub a b).
Proof.
  destruct a, b; cbn [sub]; try done; auto with abstract; unfold sub_intervals; auto with abstract.
  destruct (checked_sub _ _); [done|]. by destruct (_ <? _).
Qed.
Lemma mul_intervals_normal p q r s : normal (mul_intervals p q r s).
Proof. apply corner_hull_normal. Qed.
#[export] Hint Resolve mul_intervals_normal : abstract.
Lemma mul_normal a b : normal (mul a b).
Proof.
  destruct a as [[|n|n]| | | | | | | | | | |], b as [[|m|m]| | | | | | | | | | |];
    cbn [mul Z.eqb]; try done; auto with abstract; try (by destruct (checked_mul _ _)).
Qed.

Lemma div_normal a b c : div a b = Some c → normal c.
Proof.
  unfold div. destruct (divisor_has_zero b); [done|]. intros Hc.
  destruct a, b; unfold div_intervals in Hc; repeat case_match; try done; injection Hc as <-; auto with abstract; try done;
    exact (normalize_normal (IntSet _)).
Qed.

(** The hypotheses on the operands, one per constructor. *)
Ltac value_cases a b :=
  destruct a, b; cbn [value_ok] in *; try done;
  repeat match goal with H : _ ∧ _ |- _ => destruct H end.

Lemma checked_constant_ok z (v : AbstractValue) :
  value_ok v → value_ok match checked z with Some n => IntConstant n | None => v end.
Proof. intros Hv. destruct (checked z) eqn:E; [|done]. by apply checked_Some in E as [-> ?]. Qed.

Lemma add_ok a b : value_ok a → value_ok b → value_ok (add a b).
Proof.
  intros Ha Hb. value_cases a b; cbn [add]; try (by eauto with abstract); try (apply interval_bounds_ok; lia).
  - apply checked_constant_ok. by destruct (_ && _).
  - apply with_bounds_ok. intros. apply interval_bounds_ok. lia.
  - apply with_bounds_ok. intros. apply interval_bounds_ok. lia.
Qed.

Lemma sub_ok a b : value_ok a → value_ok b → value_ok (sub a b).
Proof.
  intros Ha Hb. value_cases a b; cbn [sub]; try (by eauto with abstract); try (apply interval_bounds_ok; lia).
  - apply checked_constant_ok. by destruct (_ <? _).
  - apply with_bounds_ok. intros. apply interval_bounds_ok. lia.
  - apply with_bounds_ok. intros. apply interval_bounds_ok. lia.
Qed.

Lemma corners_ok l : (∀ c, c ∈ l → ∃ z, c = checked z) → value_ok (corner_hull l).
Proof.
  intros Hl. apply corner_hull_ok. intros z Hz. destruct (Hl _ Hz) as [n Hn]. by apply (checked_i64 n).
Qed.

Lemma mul_intervals_ok p q r s : value_ok (mul_intervals p q r s).
Proof. apply corners_ok. set_solver. Qed.
#[export] Hint Resolve mul_intervals_ok with_bounds_ok : abstract.

Lemma scaled_mul_ok c lo hi : lo ≤ hi → value_ok (scaled (c <? 0) (checked_mul lo c) (checked_mul hi c)).
Proof. intros Hl. apply scaled_ok. destruct (Z.ltb_spec c 0); nia. Qed.
#[export] Hint Resolve scaled_mul_ok : abstract.

Lemma mul_ok a b : value_ok a → value_ok b → value_ok (mul a b).
Proof.
  intros Ha Hb. value_cases a b; cbn [mul]; auto with abstract; repeat case_match;
    subst; simplify_eq; try done; cbn [value_ok]; eauto with abstract; unfold i64, i64_min, i64_max; lia.
Qed.

Lemma quotients_ok s1 s2 : value_ok (IntSet (quotients s1 s2)).
Proof. intros z (x & y & _ & _ & Hz)%elem_of_quotients. by apply (checked_div_i64 x y). Qed.

Lemma normal_quotients_ok s1 s2 : value_ok (normalize (IntSet (quotients s1 s2))).
Proof. apply normalize_ok, quotients_ok. Qed.

Lemma div_intervals_ok p q r s c : div_intervals p q r s = Some c → value_ok c.
Proof.
  unfold div_intervals. destruct (spans_zero r s); [done|]. intros [= <-].
  apply corner_hull_ok. intros z Hz.
  repeat (apply elem_of_cons in Hz as [Hz|Hz]; [by eapply checked_div_i64|]). by apply not_elem_of_nil in Hz.
Qed.

Lemma div_ok a b c : div_fits a b → value_ok a → value_ok b → div a b = Some c → value_ok c.
Proof.
  intros [_ Hp] Ha Hb Hc. unfold div in Hc. destruct (divisor_has_zero b) eqn:Hd; [done|].
  value_cases a b; cbn [divisor_has_zero] in Hd; try (injection Hc as <-; try done).
  - unfold checked_div. rewrite Hd. by apply checked_constant_ok.
  - destruct (spans_zero_bounds lo hi Hd); [lia|]. rewrite !checked_div_nonzero by done.
    apply scaled_ok, (quot_of_nonneg n lo hi lo); [done|done|lia].
  - apply normal_quotients_ok.
  - apply Z.eqb_neq in Hd. rewrite !checked_div_nonzero by done. apply scaled_ok.
    destruct (Z.ltb_spec n 0); [apply quot_antitone|apply Z.quot_le_mono]; lia.
  - by apply div_intervals_ok in Hc.
  - destruct (set_min s), (set_max s); try (by injection Hc as <-). by apply div_intervals_ok in Hc.
  - apply normal_quotients_ok.
  - destruct (set_min s), (set_max s); try (by injection Hc as <-). by apply div_intervals_ok in Hc.
  - destruct (decide _); [done|apply normal_quotients_ok].
  - by destruct (n <? 0).
  - by destruct (n <? 0).
Qed.

(** ** The results *)

(** C16: Abstract addition and subtraction contain every concrete result that is
    an [i64], for every pair of operands; multiplication and division do so too,
    when no product or quotient of two ranges overflows and a constant divided by
    an interval is not negative.  The results are well formed and normalised. *)
Theorem arithmetic_sound a b x y :
  value_ok a → value_ok b → VInt x ∈ a → VInt y ∈ b →
  (∀ z, checked_add x y = Some z → VInt z ∈ add a b) ∧ wf (add a b) ∧
  (∀ z, checked_sub x y = Some z → VInt z ∈ sub a b) ∧ wf (sub a b) ∧
  (mul_fits a b → (∀ z, checked_mul x y = Some z → VInt z ∈ mul a b) ∧ wf (mul a b)) ∧
  (∀ c, div_fits a b → div a b = Some c → (∀ z, checked_div x y = Some z → VInt z ∈ c) ∧ wf c).
Proof.
  intros Ha Hb Hx Hy. split_and!.
  - intros z Hz. by apply (add_sound a b x y).
  - split; [by apply add_ok|apply add_normal].
  - intros z Hz. by apply (sub_sound a b x y).
  - split; [by apply sub_ok|apply sub_normal].
  - intros Hf. split; [intros z Hz; by apply (mul_sound a b x y)|]. split; [by apply mul_ok|apply mul_normal].
  - intros c Hf Hc. split; [intros z Hz; by apply (div_sound a b c x y)|].
    split; [by apply (div_ok a b)|by apply (div_normal a b)].
Qed.

Lemma arithmetic_sound_witness :
  mul (IntInterval (-3) 4) (IntInterval 2 5) = IntInterval (-15) 20 ∧ VInt (-6) ∈ IntInterval (-15) 20 ∧
  div (IntConstant 10) (IntInterval 1 5) = Some (IntInterval 2 10) ∧ VInt (-6) ∈ sub (IntInterval (-3) 4) (IntInterval 2 5).
Proof.
  assert (Hok : ∀ p q, -1000 ≤ p → p ≤ q → q ≤ 1000 → value_ok (IntInterval p q))
    by (intros; unfold value_ok, i64, i64_min, i64_max; lia).
  destruct (arithmetic_sound (IntInterval (-3) 4) (IntInterval 2 5) (-3) 2) as (_ & _ & _ & _ & Hm & _);
    [apply Hok; lia..|unfold elem_of; simpl; lia|unfold elem_of; simpl; lia|].
  destruct (arithmetic_sound (IntInterval (-3) 4) (IntInterval 2 5) (-3) 3) as (_ & _ & Hs & _);
    [apply Hok; lia..|unfold elem_of; simpl; lia|unfold elem_of; simpl; lia|].
  split; [by vm_compute|]. split; [|split; [by vm_compute|by apply (Hs (-6))]].
  destruct Hm as [Hm _]; [|by apply (Hm (-6))].
  intros _ x y. unfold elem_of; simpl. intros. unfold i64, i64_min, i64_max. nia.
Defined.

(** Without the side conditions: the product of two intervals forgets the corners
    that overflow, a negative constant over an interval gives an inverted
    interval, and a division by zero is an error, not [Undefined]. *)
Lemma arithmetic_departures :
  (mul (IntInterval 2 i64_max) (IntInterval 2 3) = IntInterval 4 6 ∧ ¬ VInt 20 ∈ IntInterval 4 6 ∧
   checked_mul 10 2 = Some 20) ∧
  (div (IntConstant (-10)) (IntInterval 1 5) = Some (IntInterval (-2) (-10)) ∧ ¬ value_ok (IntInterval (-2) (-10))) ∧
  div (IntConstant 1) (IntConstant 0) = None ∧
  (IntDomain.div (IntDomain.constant 10) (IntDomain.constant 2) = Some (IntDomain.constant 0) ∧
   IntDomain.is_subset_of IntDomain.unbounded (IntDomain.constant 3) = true).
Proof.
  split_and!; try (by vm_compute); [unfold elem_of; simpl; lia|unfold value_ok; lia].
Qed.
