(* ===== verification/AbstractLattice.v ===== *)
(** The lattice operations of [abstraction/value.rs]: [meet] is the
    intersection, [join] and [widen] contain both operands, [narrow] lies
    between the intersection and its operands, and an ascending sequence of
    integer values through [widen] changes a bounded number of times. *)
From S2P Require Import Prelude AbstractValues AbstractSound.
Local Open Scope Z_scope.

(** Two values of one kind: integers, Booleans or symbols. *)
Definition same_kind (a b : AbstractValue) : bool :=
  (is_integer a && is_integer b) || (is_boolean a && is_boolean b) || (is_symbol a && is_symbol b).

(** One case per pair of constructors of one kind and per kind of value. *)
Ltac kind_cases v a b :=
  destruct a, b; try done; destruct v;
  unfold elem_of, gamma in *; cbn [denotes value_ok] in *; try done.

Lemma gamma_some_set_int s v : v ∈ some_set IntSet s ↔ v ∈ IntSet s.
Proof.
  unfold some_set. destruct (decide (s = ∅)) as [->|]; [|apply gamma_normalize].
  unfold elem_of at 1 2, gamma. destruct v; cbn [denotes]; set_solver.
Qed.
Lemma gamma_some_set_bool s v : v ∈ some_set BoolSet s ↔ v ∈ BoolSet s.
Proof.
  unfold some_set. destruct (decide (s = ∅)) as [->|]; [|apply gamma_normalize].
  unfold elem_of at 1 2, gamma. destruct v; cbn [denotes]; set_solver.
Qed.
Lemma gamma_some_set_symbol s v : v ∈ some_set SymbolSet s ↔ v ∈ SymbolSet s.
Proof.
  unfold some_set. destruct (decide (s = ∅)) as [->|]; [|apply gamma_normalize].
  unfold elem_of at 1 2, gamma. destruct v; cbn [denotes]; set_solver.
Qed.

Lemma gamma_int_range lo hi v : v ∈ IntInterval lo hi ↔ ∃ x, v = VInt x ∧ lo ≤ x ≤ hi.
Proof. destruct v; unfold elem_of, gamma; cbn [denotes]; naive_solver. Qed.
Lemma gamma_int v n : v ∈ IntConstant n ↔ v = VInt n.
Proof. destruct v; unfold elem_of, gamma; cbn [denotes]; naive_solver. Qed.
Lemma gamma_bool v n : v ∈ BoolConstant n ↔ v = VBool n.
Proof. destruct v; unfold elem_of, gamma; cbn [denotes]; naive_solver. Qed.
Lemma gamma_symbol v n : v ∈ SymbolConstant n ↔ v = VSymbol n.
Proof. destruct v; unfold elem_of, gamma; cbn [denotes]; naive_solver. Qed.
Lemma gamma_int_set v s : v ∈ IntSet s ↔ ∃ x, v = VInt x ∧ x ∈ s.
Proof. destruct v; unfold elem_of at 1, gamma; cbn [denotes]; naive_solver. Qed.
Lemma gamma_bool_set v s : v ∈ BoolSet s ↔ ∃ x, v = VBool x ∧ x ∈ s.
Proof. destruct v; unfold elem_of at 1, gamma; cbn [denotes]; naive_solver. Qed.
Lemma gamma_symbol_set v s : v ∈ SymbolSet s ↔ ∃ x, v = VSymbol x ∧ x ∈ s.
Proof. destruct v; unfold elem_of at 1, gamma; cbn [denotes]; naive_solver. Qed.
Lemma gamma_int_top v : v ∈ IntTop ↔ ∃ x, v = VInt x ∧ i64 x.
Proof. destruct v; unfold elem_of, gamma; cbn [denotes]; naive_solver. Qed.
Lemma gamma_symbol_top v : v ∈ SymbolTop ↔ ∃ x, v = VSymbol x.
Proof. destruct v; unfold elem_of, gamma; cbn [denotes]; naive_solver. Qed.
Lemma gamma_nothing v a :
  match a with PositiveInfinity | NegativeInfinity | Undefined => True | _ => False end → v ∈ a ↔ False.
Proof. destruct a; try done; destruct v; done. Qed.
Lemma gamma_undefined v : v ∈ Undefined ↔ False.
Proof. by apply gamma_nothing. Qed.
Lemma gamma_positive_infinity v : v ∈ PositiveInfinity ↔ False.
Proof. by apply gamma_nothing. Qed.
Lemma gamma_negative_infinity v : v ∈ NegativeInfinity ↔ False.
Proof. by apply gamma_nothing. Qed.

(** Membership in every shape of value. *)
Ltac gamma_simpl := rewrite ?gamma_normalize, ?gamma_some_set_int, ?gamma_some_set_bool, ?gamma_some_set_symbol,
  ?gamma_int_range, ?gamma_int, ?gamma_bool, ?gamma_symbol, ?gamma_int_set, ?gamma_bool_set, ?gamma_symbol_set,
  ?gamma_int_top, ?gamma_symbol_top, ?gamma_undefined, ?gamma_positive_infinity, ?gamma_negative_infinity.

Lemma contains_spec {A} `{Countable A} (s : gset A) x : contains s x = true ↔ x ∈ s.
Proof. unfold contains. by rewrite bool_decide_eq_true. Qed.
Lemma contains_false {A} `{Countable A} (s : gset A) x : contains s x = false ↔ x ∉ s.
Proof. unfold contains. by rewrite bool_decide_eq_false. Qed.

Lemma elem_of_set_in_interval lo hi s x : x ∈ set_in_interval lo hi s ↔ lo ≤ x ≤ hi ∧ x ∈ s.
Proof. unfold set_in_interval. by rewrite elem_of_filter. Qed.

Lemma elem_of_interval_elements lo hi x : x ∈ interval_elements lo hi ↔ lo ≤ x ≤ hi.
Proof. unfold interval_elements. rewrite elem_of_list_to_set, elem_of_seqZ. lia. Qed.

(** ** [meet] *)

(** The value of a membership test, with its meaning. *)
Ltac test_cases :=
  repeat match goal with
  | |- context [if contains ?s ?x then _ else _] =>
    let E := fresh "E" in destruct (contains s x) eqn:E; [apply contains_spec in E|apply contains_false in E]
  | |- context [if ?x =? ?y then _ else _] => destruct (Z.eqb_spec x y) as [->|]
  | |- context [if Bool.eqb ?x ?y then _ else _] => destruct (eqb_spec x y) as [->|]
  | |- context [if String.eqb ?x ?y then _ else _] => destruct (String.eqb_spec x y) as [->|]
  | |- context [if ?b then _ else _] => let E := fresh "E" in destruct b eqn:E
  end.

Lemma meet_exact_values a b v :
  same_kind a b = true → value_ok a → value_ok b → v ∈ meet a b ↔ v ∈ a ∧ v ∈ b.
Proof.
  intros Hk Ha Hb. destruct a, b; try done; cbn [meet value_ok] in *; test_cases; gamma_simpl;
    try (setoid_rewrite elem_of_set_in_interval); try (setoid_rewrite elem_of_intersection);
    naive_solver (unfold i64 in *; lia).
Qed.

(** ** [join] *)

Lemma join_upper_values a b v :
  same_kind a b = true → value_ok a → value_ok b → v ∈ a ∨ v ∈ b → v ∈ join a b.
Proof.
  intros Hk Ha Hb. destruct a, b; try done; cbn [join value_ok] in *; test_cases; gamma_simpl;
    try (setoid_rewrite elem_of_union); try (setoid_rewrite elem_of_interval_elements);
    try (setoid_rewrite elem_of_singleton);
    try (naive_solver (unfold i64 in *; lia)).
  intros [-> | ->]; eexists; (split; [done|]); [destruct b0|destruct b]; auto.
Qed.

(** ** [widen] and [narrow] *)

Definition nonempty (a : AbstractValue) : bool :=
  match a with IntSet s => bool_decide (s ≠ ∅) | _ => true end.

(** The bounds of a set contain it. *)
Lemma approximation_upper a v : v ∈ a → v ∈ to_interval_approximation a.
Proof.
  destruct a as [| | | |s| | | | | | |]; try done. intros (x & -> & Hx)%gamma_int_set. cbn [to_interval_approximation].
  destruct (set_bounds s) as [(-> & _)|(lo & hi & -> & -> & _ & _ & Hb)]; [by apply not_elem_of_empty in Hx|].
  by apply Hb.
Qed.

Lemma approximation_kind a :
  nonempty a = true → is_integer (to_interval_approximation a) = is_integer a.
Proof.
  destruct a as [| | | |s| | | | | | |]; try done. cbn [nonempty to_interval_approximation].
  intros Hs%bool_decide_eq_true. by destruct (set_bounds s) as [(-> & _)|(lo & hi & -> & -> & _)].
Qed.

Lemma approximation_ok a : value_ok a → value_ok (to_interval_approximation a).
Proof.
  destruct a as [| | | |s| | | | | | |]; try done. cbn [to_interval_approximation]. intros Hs.
  destruct (set_bounds s) as [(_ & -> & _)|(lo & hi & -> & -> & Hl & Hh & Hb)]; [done|].
  split_and!; [by apply Hs..|by apply Hb].
Qed.

(** A set against another value. *)
Definition mixed (a b : AbstractValue) : bool :=
  match a, b with IntSet _, IntSet _ => false | IntSet _, _ | _, IntSet _ => true | _, _ => false end.

Lemma widen_by_values a b :
  widen a b = if mixed a b then widen_values (to_interval_approximation a) (to_interval_approximation b)
              else widen_values a b.
Proof. by destruct a, b. Qed.

Lemma widen_values_upper a b v :
  mixed a b = false → same_kind a b = true → value_ok a → value_ok b → v ∈ a ∨ v ∈ b → v ∈ widen_values a b.
Proof.
  intros Hm Hk Ha Hb. destruct a, b; try done; try exact (join_upper_values _ _ v Hk Ha Hb).
  all: cbn [widen_values value_ok] in *; cbv zeta; test_cases; gamma_simpl;
    try (naive_solver (unfold i64 in *; lia)).
  - clear E. set_unfold. naive_solver.
  - intros Hv. apply approximation_upper. gamma_simpl. setoid_rewrite elem_of_union. naive_solver.
  - setoid_rewrite elem_of_union. naive_solver.
Qed.

Lemma approximations_unmixed a b :
  mixed (to_interval_approximation a) (to_interval_approximation b) = false.
Proof.
  destruct a as [| | | |s| | | | | | |], b as [| | | |t| | | | | | |]; try done; cbn [to_interval_approximation];
    repeat case_match; done.
Qed.

Lemma approximation_same_kind a b :
  nonempty a = true → nonempty b = true → mixed a b = true → same_kind a b = true →
  same_kind (to_interval_approximation a) (to_interval_approximation b) = true.
Proof.
  intros Ha Hb Hm Hk. unfold same_kind. rewrite !approximation_kind by done. by destruct a, b.
Qed.

Lemma widen_upper_values a b v :
  nonempty a = true → nonempty b = true → same_kind a b = true → value_ok a → value_ok b →
  v ∈ a ∨ v ∈ b → v ∈ widen a b.
Proof.
  intros Hna Hnb Hk Ha Hb Hv. rewrite widen_by_values. destruct (mixed a b) eqn:Hm; [|by apply widen_values_upper].
  apply widen_values_upper.
  - apply approximations_unmixed.
  - by apply approximation_same_kind.
  - by apply approximation_ok.
  - by apply approximation_ok.
  - destruct Hv as [Hv|Hv]; [left|right]; by apply approximation_upper.
Qed.

Lemma narrow_values a b v :
  same_kind a b = true → value_ok a → value_ok b → v ∈ narrow a b ↔ v ∈ a ∧ v ∈ b.
Proof.
  intros Hk Ha Hb. destruct a, b; exact (meet_exact_values _ _ v Hk Ha Hb).
Qed.

(** ** Widening stabilises *)

(** The height above the top: a set grows up to one hundred elements, is then
    replaced by its bounds, and an interval that has to grow is the top. *)
Definition widening_rank (a : AbstractValue) : nat :=
  match a with
  | IntSet s => 105 - Nat.min 101 (size s)
  | IntConstant _ => 3
  | IntInterval _ _ | PositiveInfinity | NegativeInfinity => 2
  | Undefined => 1
  | _ => 0
  end.

Definition integer_or_undefined (a : AbstractValue) : bool := is_integer a || bool_decide (a = Undefined).

Lemma approximation_integer a :
  is_integer a = true → integer_or_undefined (to_interval_approximation a) = true.
Proof. destruct a; try done. intros _. cbn [to_interval_approximation]. by repeat case_match. Qed.

Lemma interval_inside_normal a_min a_max b_min b_max :
  normal (IntInterval a_min a_max) → a_min ≤ b_min → b_max ≤ a_max →
  normalize (IntInterval (Z.min a_min b_min) (Z.max a_max b_max)) = IntInterval a_min a_max.
Proof. intros Hn H1 H2. rewrite Z.min_l, Z.max_l by lia. exact Hn. Qed.

Definition widening_progress (a r : AbstractValue) : Prop :=
  integer_or_undefined r = true ∧ normal r ∧ (r = a ∨ (widening_rank r < widening_rank a)%nat).

Lemma progress_same a : integer_or_undefined a = true → normal a → widening_progress a a.
Proof. intros Ha Hn. split_and!; [done|done|by left]. Qed.

Lemma progress_down a r :
  integer_or_undefined r = true → normal r → (widening_rank r < widening_rank a)%nat → widening_progress a r.
Proof. intros Hr Hn Hlt. split_and!; [done|done|by right]. Qed.

Lemma set_rank s : (4 ≤ widening_rank (IntSet s))%nat.
Proof. cbn [widening_rank]. lia. Qed.

Lemma normalize_set_integer s : integer_or_undefined (normalize (IntSet s)) = true.
Proof. destruct (normalize_set_elements IntConstant IntSet s) as [(x & _ & Hs)|[_ Hs]]; cbn [normalize]; by rewrite Hs. Qed.

Lemma bounds_progress s t : widening_progress (IntSet s) (normalize (to_interval_approximation (IntSet t))).
Proof.
  pose proof (set_rank s). apply progress_down; [|apply normalize_normal|]; cbn [to_interval_approximation];
    repeat case_match; cbn [normalize]; try case_match; try done; cbn [widening_rank] in *; lia.
Qed.

Lemma union_progress s t :
  normal (IntSet s) → (size (s ∪ t) ≤ 100)%nat → widening_progress (IntSet s) (normalize (IntSet (s ∪ t))).
Proof.
  intros Hn Hs. destruct (decide (t ⊆ s)) as [Ht|Ht].
  - assert (He : s ∪ t = s) by set_solver. rewrite He, Hn. by apply progress_same.
  - apply progress_down; [apply normalize_set_integer|apply normalize_normal|].
    assert (Hlt : (size s < size (s ∪ t))%nat) by (apply subset_size; set_solver).
    destruct (normalize_set_elements IntConstant IntSet (s ∪ t)) as [(x & _ & Hr)|[_ Hr]]; cbn [normalize]; rewrite Hr.
    + pose proof (set_rank s). cbn [widening_rank] in *. lia.
    + cbn [widening_rank]. lia.
Qed.

Lemma interval_progress p q p' q' :
  normal (IntInterval p q) → p ≤ p' → q' ≤ q →
  widening_progress (IntInterval p q) (normalize (IntInterval (Z.min p p') (Z.max q q'))).
Proof.
  intros Hn H1 H2. rewrite (interval_inside_normal p q p' q') by done. by apply progress_same.
Qed.

Lemma top_progress a : (0 < widening_rank a)%nat → widening_progress a IntTop.
Proof. intros H. by apply progress_down. Qed.

Lemma widen_values_progress a b :
  mixed a b = false → integer_or_undefined a = true → integer_or_undefined b = true → normal a →
  widening_progress a (widen_values a b).
Proof.
  intros Hm Ha Hb Hn. destruct a as [n| | |p q|s| | | | | | |]; try done; destruct b as [m| | |p' q'|t| | | | | | |]; try done;
    cbn [widen_values]; try (by apply progress_same); try (apply top_progress; cbn [widening_rank]; lia);
    try (apply progress_down; [done|done|cbn [widening_rank]; lia]).
  - destruct (Z.eqb_spec n m) as [->|Hne]; [by apply progress_same|]. cbn [normalize].
    destruct (Z.eqb_spec (Z.min n m) (Z.max n m)); [lia|]. apply progress_down; [done| |cbn [widening_rank]; lia].
    unfold normal. cbn [normalize]. by destruct (Z.eqb_spec (Z.min n m) (Z.max n m)).
  - destruct (_ || _) eqn:E; [by apply top_progress; cbn [widening_rank]; lia|].
    rewrite Z.min_l, Z.max_l by lia. cbn [normalize]. rewrite Z.eqb_refl. by apply progress_same.
  - destruct (_ || _) eqn:E; [by apply top_progress; cbn [widening_rank]; lia|]. apply interval_progress; [done|lia|lia].
  - destruct (p' <? p) eqn:E1; [apply top_progress; cbn [widening_rank]; lia|]. destruct (q <? q') eqn:E2; [apply top_progress; cbn [widening_rank]; lia|].
    apply interval_progress; [done|lia|lia].
  - cbv zeta. pose proof (set_rank s). destruct (decide (s ∪ t = ∅)); [by apply progress_down; [done|done|cbn [widening_rank] in *; lia]|].
    destruct (Nat.ltb_spec 100 (size (s ∪ t))); [apply bounds_progress|by apply union_progress].
Qed.

(** The bounds of a set, widened by another value, are an interval or the top. *)
Lemma widen_bounds_progress s b :
  is_integer b = true → mixed (IntSet s) b = true →
  widening_progress (IntSet s) (widen_values (to_interval_approximation (IntSet s)) (to_interval_approximation b)).
Proof.
  intros Hb Hm. pose proof (set_rank s). apply progress_down.
  - destruct b as [m| | |p' q'|t| | | | | | |]; try done; cbn [to_interval_approximation]; repeat case_match; try done;
      cbn [widen_values normalize]; repeat case_match; done.
  - destruct b as [m| | |p' q'|t| | | | | | |]; try done; cbn [to_interval_approximation]; repeat case_match; try done;
      cbn [widen_values]; repeat case_match; try done; apply normalize_normal.
  - destruct b as [m| | |p' q'|t| | | | | | |]; try done; cbn [to_interval_approximation]; repeat case_match; try done;
      cbn [widen_values normalize]; repeat case_match; cbn [widening_rank] in *; lia.
Qed.

(** One step of widening by an integer keeps the value or lowers the rank. *)
Lemma widen_progress a b :
  integer_or_undefined a = true → is_integer b = true → normal a → widening_progress a (widen a b).
Proof.
  intros Ha Hb Hn. assert (Hb' : integer_or_undefined b = true) by (unfold integer_or_undefined; by rewrite Hb).
  rewrite widen_by_values. destruct (mixed a b) eqn:Hm; [|by apply widen_values_progress].
  pose proof (approximations_unmixed a b) as Hu. apply approximation_integer in Hb as Hi.
  destruct a; try (by apply widen_bounds_progress); try done; by apply widen_values_progress.
Qed.

(** The number of elements of [bs] that change the value. *)
Fixpoint widening_changes (a : AbstractValue) (bs : list AbstractValue) : nat :=
  match bs with
  | [] => 0
  | b :: bs => (if decide (widen a b = a) then 0 else 1) + widening_changes (widen a b) bs
  end.

Lemma widening_changes_rank bs a :
  integer_or_undefined a = true → normal a → Forall (λ b, is_integer b = true) bs →
  (widening_changes a bs ≤ widening_rank a)%nat.
Proof.
  revert a. induction bs as [|b bs IH]; intros a Ha Hn Hbs; cbn [widening_changes]; [lia|].
  apply Forall_cons in Hbs as [Hb Hbs]. destruct (widen_progress a b Ha Hb Hn) as (Hi & Hm & Hr).
  specialize (IH _ Hi Hm Hbs). destruct (decide (widen a b = a)) as [He|He].
  - rewrite He in IH |- *. lia.
  - destruct Hr; [done|lia].
Qed.

Lemma widening_rank_bound a : (widening_rank a ≤ 105)%nat.
Proof. destruct a; cbn [widening_rank]; lia. Qed.

(** ** The results *)

(** C17: On values of one kind, with 64-bit integers and intervals that are not
    inverted, [meet] and [narrow] denote the intersection of the two operands,
    [join] contains both, and so does [widen] when no operand is an empty set. *)
Theorem lattice_correct a b v :
  same_kind a b = true → value_ok a → value_ok b →
  (v ∈ meet a b ↔ v ∈ a ∧ v ∈ b) ∧
  (v ∈ narrow a b ↔ v ∈ a ∧ v ∈ b) ∧
  (v ∈ a ∨ v ∈ b → v ∈ join a b) ∧
  (nonempty a = true → nonempty b = true → v ∈ a ∨ v ∈ b → v ∈ widen a b).
Proof.
  intros Hk Ha Hb. split_and!.
  - by apply meet_exact_values.
  - by apply narrow_values.
  - by apply join_upper_values.
  - intros. by apply widen_upper_values.
Qed.

Lemma lattice_correct_witness :
  VInt 7 ∈ meet (IntInterval 0 9) (IntSet {[7; 12]}) ∧ VInt 12 ∈ widen (IntInterval 0 9) (IntSet {[7; 12]}).
Proof.
  assert (Hok : value_ok (IntInterval 0 9)) by (unfold value_ok, i64, i64_min, i64_max; lia).
  assert (Hs : value_ok (IntSet {[7; 12]})) by (intros x Hx; unfold i64, i64_min, i64_max; set_solver by lia).
  destruct (lattice_correct (IntInterval 0 9) (IntSet {[7; 12]}) (VInt 7) eq_refl Hok Hs) as (Hm & _).
  destruct (lattice_correct (IntInterval 0 9) (IntSet {[7; 12]}) (VInt 12) eq_refl Hok Hs) as (_ & _ & _ & Hw).
  split.
  - apply Hm. split; [|by apply gamma_int_set; exists 7; split; [|set_solver]].
    unfold elem_of; simpl; lia.
  - apply Hw; [done|by vm_compute|]. right. apply gamma_int_set. exists 12. split; [done|set_solver].
Defined.

(** C18: Along any sequence of integers, a normalised integer value changes at most
    105 times under [widen]: a set grows to one hundred elements, becomes an
    interval, and an interval that has to grow becomes the top. *)
Theorem widening_stabilises a bs :
  is_integer a = true → normal a → Forall (λ b, is_integer b = true) bs →
  (widening_changes a bs ≤ 105)%nat.
Proof.
  intros Ha Hn Hbs. etrans; [|apply (widening_rank_bound a)].
  apply widening_changes_rank; [unfold integer_or_undefined; by rewrite Ha|done|done].
Qed.

Lemma widening_stabilises_witness :
  (widening_changes (IntConstant 0) (map IntConstant (seqZ 0 200)) ≤ 105)%nat ∧
  widening_changes (IntConstant 0) [IntConstant 1; IntConstant 2; IntConstant 9] = 2%nat.
Proof.
  split; [|by vm_compute]. apply widening_stabilises; [done|done|]. by apply Forall_fmap, Forall_true.
Defined.

(** Where the operations depart from their reading as sets: a join with
    [Undefined], which is also what an empty intersection gives, forgets the
    other operand; equal sets compare as equal values; an infinity is below
    itself. *)
Lemma lattice_departures :
  (meet (IntConstant 1) (IntConstant 2) = Undefined ∧ join (IntConstant 5) (meet (IntConstant 1) (IntConstant 2)) = Undefined) ∧
  compare_eq (IntSet {[1; 2]}) (IntSet {[1; 2]}) = Some true ∧
  compare_lt NegativeInfinity NegativeInfinity = Some true ∧ compare_lt PositiveInfinity PositiveInfinity = Some true.
Proof. by vm_compute. Qed.
