(* ===== verification/Guards.v ===== *)
(** Guards over abstract states: the expressions and guards of
    [abstraction/expression.rs], the states and their constraints
    ([state.rs], [constraint.rs], [constraints.rs]), the evaluation of
    [evaluator.rs], the refinement of [refinement.rs] and the heuristics of
    [heuristics.rs].

    A [HashMap] is a [gmap]. *)
From S2P Require Import Prelude AbstractValues.
From stdpp Require Import pretty sorting.
Local Open Scope Z_scope.

(** ** Expressions and guards *)

Inductive ComparisonOp := Eq | Ne | Lt | Le | Gt | Ge.

#[export] Instance ComparisonOp_eq_dec : EqDecision ComparisonOp.
Proof. solve_decision. Defined.

Inductive Expr :=
  | EVar (name : string)
  | EConst (n : Z)
  | EBool (b : bool)
  | EAdd (l r : Expr)
  | ESub (l r : Expr)
  | EMul (l r : Expr)
  | EDiv (l r : Expr).

Inductive GuardExpr :=
  | GTrue
  | GFalse
  | GComparison (l : Expr) (op : ComparisonOp) (r : Expr)
  | GAnd (l r : GuardExpr)
  | GOr (l r : GuardExpr)
  | GNot (g : GuardExpr)
  | GPredicate (name : string).

Inductive GuardResult := AlwaysTrue | AlwaysFalse | Maybe.

#[export] Instance GuardResult_eq_dec : EqDecision GuardResult.
Proof. solve_decision. Defined.

Definition guard_and (x y : GuardResult) : GuardResult :=
  match x, y with
  | AlwaysTrue, AlwaysTrue => AlwaysTrue
  | AlwaysFalse, _ | _, AlwaysFalse => AlwaysFalse
  | _, _ => Maybe
  end.
Definition guard_or (x y : GuardResult) : GuardResult :=
  match x, y with
  | AlwaysFalse, AlwaysFalse => AlwaysFalse
  | AlwaysTrue, _ | _, AlwaysTrue => AlwaysTrue
  | _, _ => Maybe
  end.
Definition guard_not (x : GuardResult) : GuardResult :=
  match x with AlwaysTrue => AlwaysFalse | AlwaysFalse => AlwaysTrue | Maybe => Maybe end.

(** ** Constraints and states *)

Inductive ConstraintKind :=
  | VarConst (var : string) (op : ComparisonOp) (constant : Z)
  | VarVar (left : string) (op : ComparisonOp) (right : string)
  | Arithmetic (e : Expr).

Record Constraint := {
  c_kind : ConstraintKind;
  c_left : Expr;
  c_op : ComparisonOp;
  c_right : Expr;
}.

Definition var_const (var : string) (op : ComparisonOp) (constant : Z) : Constraint :=
  {| c_kind := VarConst var op constant; c_left := EVar var; c_op := op; c_right := EConst constant |}.
Definition var_var (left : string) (op : ComparisonOp) (right : string) : Constraint :=
  {| c_kind := VarVar left op right; c_left := EVar left; c_op := op; c_right := EVar right |}.

Record AbstractState := {
  location : string;
  variables : gmap string AbstractValue;
  constraints : list Constraint;
}.

Definition new_state (location : string) : AbstractState :=
  {| location := location; variables := ∅; constraints := [] |}.
Definition set_variable (st : AbstractState) (name : string) (v : AbstractValue) : AbstractState :=
  {| location := location st; variables := <[name:=v]> (variables st); constraints := constraints st |}.
Definition get_variable (st : AbstractState) (name : string) : option AbstractValue := variables st !! name.
Definition add_constraint (st : AbstractState) (c : Constraint) : AbstractState :=
  {| location := location st; variables := variables st; constraints := constraints st ++ [c] |}.

(** The text of a Boolean. *)
Definition bool_text (b : bool) : string := if b then "true" else "false".

(** The text of a set of one element, or another one. *)
Definition singleton_text {A} `{Countable A} (text : A → string) (s : gset A) (otherwise : string) : string :=
  match elements s with [x] => text x | _ => otherwise end.

(** What [state_name] appends to the name of a variable. *)
Definition value_text (v : AbstractValue) : string :=
  match v with
  | BoolConstant b => bool_text b
  | BoolSet s => singleton_text bool_text s "unknown"
  | IntConstant n => pretty n
  | IntInterval lo hi =>
    if lo =? hi then pretty lo else ("[" +:+ pretty lo +:+ "," +:+ pretty hi +:+ "]")%string
  | IntSet s => singleton_text pretty s "set"
  | SymbolConstant s => s
  | SymbolSet s => singleton_text id s "set"
  | IntTop | SymbolTop => "top"
  | PositiveInfinity => "inf"
  | NegativeInfinity => "-inf"
  | Undefined => "undefined"
  end.

(** The variables are sorted by name. *)
Definition by_name (p q : string * AbstractValue) : Prop := Is_true (String.leb p.1 q.1).
#[export] Instance by_name_dec : RelDecision by_name.
Proof. intros p q. unfold by_name. apply _. Defined.

Definition state_name (st : AbstractState) : string :=
  String.concat "_" (location st ::
    map (λ p, (p.1 +:+ "_" +:+ value_text p.2)%string) (merge_sort by_name (map_to_list (variables st)))).

(** ** Evaluation *)

(** [e?]. *)
Local Notation "'try' x ':=' e 'in' k" :=
  (match e with Ok x => k | Err err => Err err end) (at level 200, x name, e at level 200, k at level 200).

Fixpoint evaluate_expr (e : Expr) (st : AbstractState) : Result AbstractValue EvaluationError :=
  match e with
  | EVar name => match get_variable st name with Some v => Ok v | None => Err (UnknownVariable name) end
  | EConst n => Ok (IntConstant n)
  | EBool b => Ok (BoolConstant b)
  | EAdd l r => try x := evaluate_expr l st in try y := evaluate_expr r st in add_checked x y
  | ESub l r => try x := evaluate_expr l st in try y := evaluate_expr r st in sub_checked x y
  | EMul l r => try x := evaluate_expr l st in try y := evaluate_expr r st in mul_checked x y
  | EDiv l r => try x := evaluate_expr l st in try y := evaluate_expr r st in div_checked x y
  end.

(** The two tests of most comparisons. *)
Definition decided (yes no : bool) : GuardResult :=
  if yes then AlwaysTrue else if no then AlwaysFalse else Maybe.

Definition constant_in_set {A} `{Countable A} (x : A) (s : gset A) : GuardResult :=
  if bool_decide (size s = 1%nat) && contains s x then AlwaysTrue
  else if negb (contains s x) then AlwaysFalse else Maybe.
Definition sets_equal {A} `{Countable A} (s t : gset A) : GuardResult :=
  if decide (s ∩ t = ∅) then AlwaysFalse
  else if bool_decide (s = t) && bool_decide (size s = 1%nat) then AlwaysTrue else Maybe.

Definition evaluate_boolean_eq (x y : AbstractValue) : GuardResult :=
  match x, y with
  | BoolConstant a, BoolConstant b => if Bool.eqb a b then AlwaysTrue else AlwaysFalse
  | BoolConstant a, BoolSet s | BoolSet s, BoolConstant a => constant_in_set a s
  | BoolSet s, BoolSet t => sets_equal s t
  | _, _ => Maybe
  end.

Definition interval_eq_set (lo hi : Z) (s : gset Z) : GuardResult :=
  let in_range := set_in_interval lo hi s in
  if decide (in_range = ∅) then AlwaysFalse
  else if bool_decide (size in_range = 1%nat) && (lo =? hi) && contains s lo then AlwaysTrue else Maybe.

Definition evaluate_int_eq (x y : AbstractValue) : GuardResult :=
  match x, y with
  | IntConstant a, IntConstant b => if a =? b then AlwaysTrue else AlwaysFalse
  | IntConstant a, IntInterval lo hi | IntInterval lo hi, IntConstant a =>
    if (lo <=? a) && (a <=? hi) then (if (lo =? a) && (a =? hi) then AlwaysTrue else Maybe) else AlwaysFalse
  | IntInterval a_min a_max, IntInterval b_min b_max =>
    if (a_max <? b_min) || (b_max <? a_min) then AlwaysFalse
    else if (a_min =? b_min) && (a_max =? b_max) && (a_min =? a_max) then AlwaysTrue else Maybe
  | IntConstant a, IntSet s | IntSet s, IntConstant a => constant_in_set a s
  | IntInterval lo hi, IntSet s | IntSet s, IntInterval lo hi => interval_eq_set lo hi s
  | IntSet s, IntSet t => sets_equal s t
  | IntTop, _ | _, IntTop => Maybe
  | PositiveInfinity, PositiveInfinity | NegativeInfinity, NegativeInfinity => AlwaysTrue
  | PositiveInfinity, _ | _, PositiveInfinity => AlwaysFalse
  | NegativeInfinity, _ | _, NegativeInfinity => AlwaysFalse
  | _, _ => Maybe
  end.

(** [abstract_value_to_interval_bounds]. *)
Definition interval_of (v : AbstractValue) : Result (Z * Z) EvaluationError :=
  match v with
  | IntConstant n => Ok (n, n)
  | IntInterval lo hi => Ok (lo, hi)
  | IntSet s =>
    match set_min s, set_max s with
    | Some lo, Some hi => Ok (lo, hi)
    | _, _ => Err (TypeMismatch "non-empty integer set" M_EmptySet)
    end
  | IntTop => Ok (i64_min, i64_max)
  | PositiveInfinity => Ok (i64_max, i64_max)
  | NegativeInfinity => Ok (i64_min, i64_min)
  | _ => Err (TypeMismatch "integer value" (M_Value v))
  end.

(** The last case of each order comparison: the two values are replaced by
    intervals, which the case of two intervals then compares. *)
Definition on_bounds (f : Z → Z → Z → Z → GuardResult) (x y : AbstractValue) : Result GuardResult EvaluationError :=
  try p := interval_of x in try q := interval_of y in Ok (f p.1 p.2 q.1 q.2).

Definition lt_intervals (a_min a_max b_min b_max : Z) : GuardResult := decided (a_max <? b_min) (b_max <=? a_min).
Definition le_intervals (a_min a_max b_min b_max : Z) : GuardResult := decided (a_max <=? b_min) (b_max <? a_min).
Definition gt_intervals (a_min a_max b_min b_max : Z) : GuardResult := decided (b_max <? a_min) (a_max <=? b_min).
Definition ge_intervals (a_min a_max b_min b_max : Z) : GuardResult := decided (b_max <=? a_min) (a_max <? b_min).

Definition evaluate_int_ge (x y : AbstractValue) : Result GuardResult EvaluationError :=
  match x, y with
  | IntConstant a, IntConstant b => Ok (if b <=? a then AlwaysTrue else AlwaysFalse)
  | IntConstant a, IntInterval b_min b_max => Ok (decided (b_max <=? a) (a <? b_min))
  | IntInterval a_min a_max, IntConstant b => Ok (decided (b <=? a_min) (a_max <? b))
  | IntInterval a_min a_max, IntInterval b_min b_max => Ok (ge_intervals a_min a_max b_min b_max)
  | _, _ => on_bounds ge_intervals x y
  end.

Definition evaluate_int_lt (x y : AbstractValue) : Result GuardResult EvaluationError :=
  match x, y with
  | IntConstant a, IntConstant b => Ok (if a <? b then AlwaysTrue else AlwaysFalse)
  | IntConstant a, IntInterval b_min b_max => Ok (decided (a <? b_min) (b_max <=? a))
  | IntInterval _ _, IntConstant _ => try r := evaluate_int_ge x y in Ok (guard_not r)
  | IntInterval a_min a_max, IntInterval b_min b_max => Ok (lt_intervals a_min a_max b_min b_max)
  | _, _ => on_bounds lt_intervals x y
  end.

Definition evaluate_int_le (x y : AbstractValue) : Result GuardResult EvaluationError :=
  match x, y with
  | IntConstant a, IntConstant b => Ok (if a <=? b then AlwaysTrue else AlwaysFalse)
  | IntConstant a, IntInterval b_min b_max => Ok (decided (a <=? b_min) (b_max <? a))
  | IntInterval a_min a_max, IntConstant b => Ok (decided (a_max <=? b) (b <? a_min))
  | IntInterval a_min a_max, IntInterval b_min b_max => Ok (le_intervals a_min a_max b_min b_max)
  | _, _ => on_bounds le_intervals x y
  end.

Definition evaluate_int_gt (x y : AbstractValue) : Result GuardResult EvaluationError :=
  match x, y with
  | IntConstant a, IntConstant b => Ok (if b <? a then AlwaysTrue else AlwaysFalse)
  | IntConstant a, IntInterval b_min b_max => Ok (decided (b_max <? a) (a <=? b_min))
  | IntInterval a_min a_max, IntConstant b => Ok (decided (b <? a_min) (a_max <=? b))
  | IntInterval a_min a_max, IntInterval b_min b_max => Ok (gt_intervals a_min a_max b_min b_max)
  | _, _ => on_bounds gt_intervals x y
  end.

(** The operator of a Boolean comparison that is not an equality. *)
Definition op_text (op : ComparisonOp) : string :=
  match op with Eq => "Eq" | Ne => "Ne" | Lt => "Lt" | Le => "Le" | Gt => "Gt" | Ge => "Ge" end.

Definition evaluate_boolean_comparison (x : AbstractValue) (op : ComparisonOp) (y : AbstractValue)
    : Result GuardResult EvaluationError :=
  match op with
  | Eq => Ok (evaluate_boolean_eq x y)
  | Ne => Ok (guard_not (evaluate_boolean_eq x y))
  | _ => Err (TypeMismatch "comparison operator for booleans (only == and != are supported)"
                (M_Operator (op_text op)))
  end.

Definition evaluate_comparison (x : AbstractValue) (op : ComparisonOp) (y : AbstractValue)
    : Result GuardResult EvaluationError :=
  if negb (is_integer x) || negb (is_integer y) then
    (if is_boolean x && is_boolean y then evaluate_boolean_comparison x op y
     else Err (TypeMismatch "int or bool" (M_Values x y)))
  else
    match op with
    | Eq => Ok (evaluate_int_eq x y)
    | Ne => Ok (guard_not (evaluate_int_eq x y))
    | Lt => evaluate_int_lt x y
    | Le => evaluate_int_le x y
    | Gt => evaluate_int_gt x y
    | Ge => evaluate_int_ge x y
    end.

Fixpoint evaluate_guard (g : GuardExpr) (st : AbstractState) (predicates : gmap string bool)
    : Result GuardResult EvaluationError :=
  match g with
  | GTrue => Ok AlwaysTrue
  | GFalse => Ok AlwaysFalse
  | GComparison l op r =>
    match evaluate_expr l st with
    | Err (UnknownVariable _) => Ok Maybe
    | Err e => Err e
    | Ok x =>
      match evaluate_expr r st with
      | Err (UnknownVariable _) => Ok Maybe
      | Err e => Err e
      | Ok y => evaluate_comparison x op y
      end
    end
  | GAnd l r => try x := evaluate_guard l st predicates in try y := evaluate_guard r st predicates in Ok (guard_and x y)
  | GOr l r => try x := evaluate_guard l st predicates in try y := evaluate_guard r st predicates in Ok (guard_or x y)
  | GNot g => try x := evaluate_guard g st predicates in Ok (guard_not x)
  | GPredicate name =>
    match (predicates !! name) : option bool with
    | Some b => Ok (if b then AlwaysTrue else AlwaysFalse)
    | None => Ok Maybe
    end
  end.

(** [ConstraintManager::evaluate]. *)
Fixpoint evaluate_constraints (cs : list Constraint) (st : AbstractState) (predicates : gmap string bool)
    : Result bool EvaluationError :=
  match cs with
  | [] => Ok true
  | c :: cs =>
    match evaluate_guard (GComparison (c_left c) (c_op c) (c_right c)) st predicates with
    | Ok AlwaysFalse => Ok false
    | Ok _ => evaluate_constraints cs st predicates
    | Err (UnknownVariable _) => evaluate_constraints cs st predicates
    | Err e => Err e
    end
  end.

(** ** Refinement *)

Definition negate_comparison_op (op : ComparisonOp) : ComparisonOp :=
  match op with Gt => Le | Ge => Lt | Lt => Ge | Le => Gt | Eq => Ne | Ne => Eq end.

Fixpoint negate_guard (g : GuardExpr) : GuardExpr :=
  match g with
  | GTrue => GFalse
  | GFalse => GTrue
  | GNot inner => inner
  | GComparison l op r => GComparison l (negate_comparison_op op) r
  | GAnd l r => GOr (negate_guard l) (negate_guard r)
  | GOr l r => GAnd (negate_guard l) (negate_guard r)
  | GPredicate name => GNot (GPredicate name)
  end.

(** A copy of the state with a value and its constraint. *)
Definition branch (st : AbstractState) (var : string) (v : AbstractValue) (op : ComparisonOp) (constant : Z)
    : AbstractState :=
  add_constraint (set_variable st var v) (var_const var op constant).

(** [is_empty] then keeps the state. *)
Definition or_unchanged (st : AbstractState) (result : list AbstractState) : list AbstractState :=
  match result with [] => [st] | _ => result end.

(** The bounds of each interval are tested before it is made, so the
    constructor's assertion holds and nothing overflows. *)
Definition refine_interval_comparison (st : AbstractState) (var : string) (lo hi : Z) (op : ComparisonOp)
    (constant : Z) : list AbstractState :=
  let below c op := branch st var (IntInterval lo c) op constant in
  let above c op := branch st var (IntInterval c hi) op constant in
  match op with
  | Gt | Le => or_unchanged st
      ((if lo <=? constant then [below constant Le] else []) ++
       (if constant <? hi then [above (constant + 1) Gt] else []))
  | Ge | Lt => or_unchanged st
      ((if lo <? constant then [below (constant - 1) Lt] else []) ++
       (if constant <=? hi then [above constant Ge] else []))
  | Eq =>
      (if lo <? constant then [below (constant - 1) Lt] else []) ++
      [branch st var (IntConstant constant) Eq constant] ++
      (if constant <? hi then [above (constant + 1) Gt] else [])
  | Ne => or_unchanged st
      ((if lo <? constant then [below (constant - 1) Ne] else []) ++
       (if constant <? hi then [above (constant + 1) Ne] else []))
  end.

Definition refine_comparison (st : AbstractState) (l : Expr) (op : ComparisonOp) (r : Expr) : list AbstractState :=
  match l, r with
  | EVar var, EConst constant =>
    match get_variable st var with
    | Some (IntInterval lo hi) => refine_interval_comparison st var lo hi op constant
    | _ => [st]
    end
  | _, _ => [st]
  end.

(** [None] is a recursion deeper than the fuel. *)
Fixpoint refine_state_with_guard (fuel : nat) (st : AbstractState) (g : GuardExpr) : option (list AbstractState) :=
  match fuel with
  | O => None
  | S fuel =>
    match g with
    | GTrue => Some [st]
    | GFalse => Some []
    | GComparison l op r => Some (refine_comparison st l op r)
    | GAnd l r =>
      let* refined := refine_state_with_guard fuel st l in
      let* results := mapM (λ st', refine_state_with_guard fuel st' r) refined in
      Some (concat results)
    | GOr l r =>
      let* first := refine_state_with_guard fuel st l in
      let* second := refine_state_with_guard fuel st r in
      Some (first ++ second)
    | GNot inner => refine_state_with_guard fuel st (negate_guard inner)
    | GPredicate _ => Some [st]
    end
  end.

(** ** Heuristics *)

Record HeuristicConfig := {
  max_set_size : nat;
  max_interval_width : Z;
  max_total_states : nat;
  prefer_intervals_for_contiguous : bool;
}.

Definition default_config : HeuristicConfig :=
  {| max_set_size := 20; max_interval_width := 1000; max_total_states := 1000;
     prefer_intervals_for_contiguous := true |}.

Inductive VariableContext := Counter | State | Accumulator | Unknown.

Definition usize_limit : Z := 18446744073709551615.

(** The cast wraps a negative difference; on an interval that is not inverted
    the sum [diff as usize + 1] does not overflow. *)
Definition estimate_domain_size (v : AbstractValue) : Z :=
  match v with
  | IntConstant _ | BoolConstant _ | SymbolConstant _ => 1
  | IntInterval lo hi =>
    match checked_sub hi lo with Some d => (d mod (usize_limit + 1)) + 1 | None => usize_limit end
  | IntSet s => Z.of_nat (size s)
  | BoolSet s => Z.of_nat (size s)
  | SymbolSet s => Z.of_nat (size s)
  | IntTop | SymbolTop | PositiveInfinity | NegativeInfinity => usize_limit
  | Undefined => 0
  end.

Record StateSpaceStats := {
  total_states : nat;
  states_per_location : gmap string nat;
  variable_domain_sizes : gmap string Z;
}.

Definition add_state (stats : StateSpaceStats) (loc : string) (vars : gmap string AbstractValue) : StateSpaceStats :=
  {| total_states := S (total_states stats);
     states_per_location :=
       <[loc := S (default O (states_per_location stats !! loc))]> (states_per_location stats);
     variable_domain_sizes :=
       union_with (λ old new, Some (Z.max old new)) (variable_domain_sizes stats)
         (estimate_domain_size <$> vars) |}.

Definition is_approaching_limit (stats : StateSpaceStats) (config : HeuristicConfig) : bool :=
  (max_total_states config / 2 <=? total_states stats)%nat.
Definition has_exceeded_limit (stats : StateSpaceStats) (config : HeuristicConfig) : bool :=
  (max_total_states config <? total_states stats)%nat.

(** [None] is the overflow of [max_val - min_val + 1], a panic where arithmetic is checked. *)
Definition convert_set_to_interval_if_contiguous (s : gset Z) (config : HeuristicConfig) : option AbstractValue :=
  if (size s <=? 1)%nat then Some (IntSet s)
  else
    match set_min s, set_max s with
    | Some lo, Some hi =>
      let* width := checked_sub hi lo in
      let* expected := checked_add width 1 in
      Some (if (Z.of_nat (size s) =? expected) && (0 <? expected) && prefer_intervals_for_contiguous config
            then normalize (IntInterval lo hi) else IntSet s)
    | _, _ => Some (IntSet s)
    end.

Definition select_int_set_type (s : gset Z) (context : VariableContext) (config : HeuristicConfig)
    (aggressive : bool) : option AbstractValue :=
  match elements s with
  | [] => Some (IntSet s)
  | [x] => Some (IntConstant x)
  | _ =>
    let keep :=
      match context with
      | State => (size s <=? max_set_size config * 2)%nat || negb aggressive
      | Counter => (size s <=? max_set_size config)%nat
      | Accumulator => negb ((max_set_size config / 2 <? size s)%nat || aggressive)
      | Unknown => (size s <=? max_set_size config)%nat && negb aggressive
      end in
    if keep then Some (IntSet s) else convert_set_to_interval_if_contiguous s config
  end.

(** Every context keeps the interval; the thresholds change nothing. *)
Definition select_int_interval_type (lo hi : Z) : AbstractValue :=
  if lo =? hi then IntConstant lo else IntInterval lo hi.

Definition select_abstract_type (v : AbstractValue) (context : VariableContext) (config : HeuristicConfig)
    (stats : StateSpaceStats) : option AbstractValue :=
  let aggressive := is_approaching_limit stats config in
  match v with
  | IntConstant n => Some (if aggressive then IntInterval n n else v)
  | IntSet s => select_int_set_type s context config aggressive
  | IntInterval lo hi => Some (select_int_interval_type lo hi)
  | _ => Some v
  end.

Definition apply_widening_if_needed (v : AbstractValue) (previous : option AbstractValue)
    (config : HeuristicConfig) : AbstractValue :=
  match previous, v with
  | Some (IntInterval prev_min prev_max as prev), IntInterval curr_min curr_max =>
    let prev_width := saturate (prev_max - prev_min) in
    let curr_width := saturate (curr_max - curr_min) in
    if (max_interval_width config <? curr_width) && (prev_width <? curr_width) then widen v prev else v
  | _, _ => v
  end.
