(* ===== verification/GuardsCorrect.v ===== *)
(** Guards are evaluated soundly: a guard that is [AlwaysTrue] or [AlwaysFalse]
    in an abstract state has that value in every concrete state it stands for,
    and the states a refinement returns cover the state it refines. *)
From S2P Require Import Prelude AbstractValues AbstractSound AbstractLattice Guards.
Local Open Scope Z_scope.

(** ** Concrete states *)

Abbreviation Env := (gmap string ConcreteValue).

(** The concrete states of an abstract state. *)
#[export] Instance state_gamma : ElemOf Env AbstractState := λ ρ st,
  ∀ x a, variables st !! x = Some a → ∃ v, ρ !! x = Some v ∧ v ∈ a.

Definition state_ok (st : AbstractState) : Prop := ∀ x a, variables st !! x = Some a → wf a.

Definition arith (op : Z → Z → option Z) (u v : option ConcreteValue) : option ConcreteValue :=
  match u, v with Some (VInt x), Some (VInt y) => VInt <$> op x y | _, _ => None end.

(** The value of an expression; an overflow or a division by zero has none. *)
Fixpoint eval_expr (ρ : Env) (e : Expr) : option ConcreteValue :=
  match e with
  | EVar x => ρ !! x
  | EConst n => Some (VInt n)
  | EBool b => Some (VBool b)
  | EAdd l r => arith checked_add (eval_expr ρ l) (eval_expr ρ r)
  | ESub l r => arith checked_sub (eval_expr ρ l) (eval_expr ρ r)
  | EMul l r => arith checked_mul (eval_expr ρ l) (eval_expr ρ r)
  | EDiv l r => arith checked_div (eval_expr ρ l) (eval_expr ρ r)
  end.

Definition holds (op : ComparisonOp) (x y : Z) : bool :=
  match op with
  | Eq => x =? y | Ne => negb (x =? y) | Lt => x <? y | Le => x <=? y | Gt => y <? x | Ge => y <=? x
  end.
Definition compare_values (op : ComparisonOp) (u v : ConcreteValue) : option bool :=
  match u, v with
  | VInt x, VInt y => Some (holds op x y)
  | VBool x, VBool y =>
    match op with Eq => Some (Bool.eqb x y) | Ne => Some (negb (Bool.eqb x y)) | _ => None end
  | _, _ => None
  end.

Fixpoint eval_guard (ρ : Env) (P : string → bool) (g : GuardExpr) : option bool :=
  match g with
  | GTrue => Some true
  | GFalse => Some false
  | GComparison l op r =>
    let* u := eval_expr ρ l in let* v := eval_expr ρ r in compare_values op u v
  | GAnd l r => let* x := eval_guard ρ P l in let* y := eval_guard ρ P r in Some (x && y)
  | GOr l r => let* x := eval_guard ρ P l in let* y := eval_guard ρ P r in Some (x || y)
  | GNot g => let* x := eval_guard ρ P g in Some (negb x)
  | GPredicate name => Some (P name)
  end.

(** The side conditions of the products and quotients of an expression. *)
Fixpoint expr_fits (st : AbstractState) (e : Expr) : Prop :=
  match e with
  | EVar _ | EBool _ => True
  | EConst n => i64 n
  | EAdd l r | ESub l r => expr_fits st l ∧ expr_fits st r
  | EMul l r =>
    expr_fits st l ∧ expr_fits st r ∧
    ∀ a b, evaluate_expr l st = Ok a → evaluate_expr r st = Ok b → mul_fits a b
  | EDiv l r =>
    expr_fits st l ∧ expr_fits st r ∧
    ∀ a b, evaluate_expr l st = Ok a → evaluate_expr r st = Ok b → div_fits a b
  end.
Fixpoint guard_fits (st : AbstractState) (g : GuardExpr) : Prop :=
  match g with
  | GTrue | GFalse | GPredicate _ => True
  | GComparison l _ r => expr_fits st l ∧ expr_fits st r
  | GAnd l r | GOr l r => guard_fits st l ∧ guard_fits st r
  | GNot g => guard_fits st g
  end.

(** A three-valued answer about a Boolean. *)
Definition agrees (r : GuardResult) (b : bool) : Prop :=
  match r with AlwaysTrue => b = true | AlwaysFalse => b = false | Maybe => True end.

(** ** Expressions *)

Lemma check_integers_Ok x y R r :
  check_integers x y R = Ok r → is_integer x = true ∧ is_integer y = true ∧ R = Ok r.
Proof. unfold check_integers. destruct (is_integer x), (is_integer y); naive_solver. Qed.

Lemma arith_Some op u v w :
  arith op u v = Some w → ∃ x y z, u = Some (VInt x) ∧ v = Some (VInt y) ∧ op x y = Some z ∧ w = VInt z.
Proof.
  destruct u as [[x| |]|], v as [[y| |]|]; try done. cbn [arith].
  destruct (op x y) as [z|] eqn:Hz; [|done]. intros [= <-]. by exists x, y, z.
Qed.

Lemma evaluate_expr_wf st e a : state_ok st → expr_fits st e → evaluate_expr e st = Ok a → wf a.
Proof.
  intros Hst. revert a. induction e as [x|n|b|l IHl r IHr|l IHl r IHr|l IHl r IHr|l IHl r IHr]; intros a Hf He;
    cbn [expr_fits evaluate_expr] in *.
  - destruct (get_variable st x) eqn:E; [|done]. injection He as <-. by apply (Hst x).
  - injection He as <-. done.
  - injection He as <-. done.
  - repeat case_match; simplify_eq. apply check_integers_Ok in He as (_ & _ & [= <-]).
    destruct Hf. destruct (IHl a0), (IHr a1); [done..|]. split; [by apply add_ok|apply add_normal].
  - repeat case_match; simplify_eq. apply check_integers_Ok in He as (_ & _ & [= <-]).
    destruct Hf. destruct (IHl a0), (IHr a1); [done..|]. split; [by apply sub_ok|apply sub_normal].
  - repeat case_match; simplify_eq. apply check_integers_Ok in He as (_ & _ & [= <-]).
    destruct Hf as (? & ? & _). destruct (IHl a0), (IHr a1); [done..|]. split; [by apply mul_ok|apply mul_normal].
  - repeat case_match; simplify_eq. apply check_integers_Ok in He as (_ & _ & He).
    destruct (div a0 a1) as [c|] eqn:Hd; [|done]. injection He as <-. destruct Hf as (Hl & Hr & Hd').
    destruct (IHl a0), (IHr a1); [done..|]. split; [by apply (div_ok a0 a1); [apply Hd'|..]|by apply (div_normal a0 a1)].
Qed.

Lemma evaluate_expr_sound_values st ρ e a v :
  ρ ∈ st → expr_fits st e → evaluate_expr e st = Ok a → eval_expr ρ e = Some v → v ∈ a.
Proof.
  intros Hρ. revert a v.
  induction e as [x|n|b|l IHl r IHr|l IHl r IHr|l IHl r IHr|l IHl r IHr]; intros a v Hf He Hv;
    cbn [expr_fits evaluate_expr eval_expr] in *.
  - destruct (get_variable st x) as [a'|] eqn:E; [|done]. injection He as <-.
    destruct (Hρ x a' E) as (v' & Hv' & Hin). congruence.
  - injection He as <-. injection Hv as <-. done.
  - injection He as <-. injection Hv as <-. done.
  - apply arith_Some in Hv as (x & y & z & Hx & Hy & Hz & ->). repeat case_match; simplify_eq.
    apply check_integers_Ok in He as (_ & _ & [= <-]). apply (add_sound _ _ x y); naive_solver.
  - apply arith_Some in Hv as (x & y & z & Hx & Hy & Hz & ->). repeat case_match; simplify_eq.
    apply check_integers_Ok in He as (_ & _ & [= <-]). apply (sub_sound _ _ x y); naive_solver.
  - apply arith_Some in Hv as (x & y & z & Hx & Hy & Hz & ->). repeat case_match; simplify_eq.
    apply check_integers_Ok in He as (_ & _ & [= <-]). apply (mul_sound _ _ x y); naive_solver.
  - apply arith_Some in Hv as (x & y & z & Hx & Hy & Hz & ->). repeat case_match; simplify_eq.
    apply check_integers_Ok in He as (_ & _ & He). destruct (div a0 a1) as [c|] eqn:Hd; [|done].
    injection He as <-. apply (div_sound a0 a1 c x y); naive_solver.
Qed.

(** ** Comparisons *)

Lemma agrees_not r b : agrees r b → agrees (guard_not r) (negb b).
Proof. destruct r; simpl; naive_solver. Qed.
Lemma agrees_and r s b c : agrees r b → agrees s c → agrees (guard_and r s) (b && c).
Proof. destruct r, s, b, c; simpl; naive_solver. Qed.
Lemma agrees_or r s b c : agrees r b → agrees s c → agrees (guard_or r s) (b || c).
Proof. destruct r, s, b, c; simpl; naive_solver. Qed.

Lemma decided_agrees (yes no c : bool) :
  (yes = true → c = true) → (no = true → c = false) → agrees (decided yes no) c.
Proof. destruct yes, no; simpl; auto. Qed.

Lemma interval_of_sound a p x : value_ok a → interval_of a = Ok p → VInt x ∈ a → p.1 ≤ x ≤ p.2.
Proof.
  intros Ha Hp Hx. destruct a as [| | | |s| | | | | | |]; try done; unfold elem_of, gamma in Hx; cbn [denotes interval_of] in *.
  - injection Hp as <-. simpl. lia.
  - by injection Hp as <-.
  - destruct (set_bounds s) as [(-> & _)|(lo & hi & Hl & Hh & _ & _ & Hb)]; [by apply not_elem_of_empty in Hx|].
    rewrite Hl, Hh in Hp. injection Hp as <-. by apply Hb.
  - by injection Hp as <-.
Qed.

Lemma on_bounds_sound f a b r x y (c : bool) :
  value_ok a → value_ok b →
  (∀ p q s t, p ≤ x ≤ q → s ≤ y ≤ t → agrees (f p q s t) c) →
  on_bounds f a b = Ok r → VInt x ∈ a → VInt y ∈ b → agrees r c.
Proof.
  intros Ha Hb Hf Hr Hx Hy. unfold on_bounds in Hr.
  destruct (interval_of a) as [p|] eqn:Ep; [|done]. destruct (interval_of b) as [q|] eqn:Eq; [|done].
  injection Hr as <-. apply Hf; [by apply (interval_of_sound a p x)|by apply (interval_of_sound b q y)].
Qed.

Lemma constant_verdict (c : bool) : agrees (if c then AlwaysTrue else AlwaysFalse) c.
Proof. by destruct c. Qed.

(** The cases of an order comparison: constants and intervals are compared as
    they are, the rest by their bounds. *)
Ltac order_cases f a b Ha Hb Hr Hx Hy :=
  destruct a, b; unfold elem_of, gamma in Hx, Hy; cbn [denotes] in Hx, Hy; try done;
  first [ apply (on_bounds_sound f _ _ _ _ _ _ Ha Hb) with (2 := Hr) (3 := Hx) (4 := Hy);
          intros; unfold f; apply decided_agrees; lia
        | injection Hr as <-; unfold f, decided; repeat case_match; simpl; lia ].

Lemma evaluate_int_ge_sound a b r x y :
  value_ok a → value_ok b → evaluate_int_ge a b = Ok r → VInt x ∈ a → VInt y ∈ b → agrees r (holds Ge x y).
Proof. intros Ha Hb Hr Hx Hy. cbn [holds]. order_cases ge_intervals a b Ha Hb Hr Hx Hy. Qed.

Lemma evaluate_int_lt_sound a b r x y :
  value_ok a → value_ok b → evaluate_int_lt a b = Ok r → VInt x ∈ a → VInt y ∈ b → agrees r (holds Lt x y).
Proof. intros Ha Hb Hr Hx Hy. cbn [holds]. order_cases lt_intervals a b Ha Hb Hr Hx Hy. Qed.

Lemma evaluate_int_le_sound a b r x y :
  value_ok a → value_ok b → evaluate_int_le a b = Ok r → VInt x ∈ a → VInt y ∈ b → agrees r (holds Le x y).
Proof. intros Ha Hb Hr Hx Hy. cbn [holds]. order_cases le_intervals a b Ha Hb Hr Hx Hy. Qed.

Lemma evaluate_int_gt_sound a b r x y :
  value_ok a → value_ok b → evaluate_int_gt a b = Ok r → VInt x ∈ a → VInt y ∈ b → agrees r (holds Gt x y).
Proof. intros Ha Hb Hr Hx Hy. cbn [holds]. order_cases gt_intervals a b Ha Hb Hr Hx Hy. Qed.

Lemma singleton_size {A} `{Countable A} (s : gset A) x y :
  size s = 1%nat → x ∈ s → y ∈ s → x = y.
Proof.
  intros Hs Hx Hy. apply size_1_elem_of in Hs as [z Hz]. set_solver.
Qed.

Lemma constant_in_set_sound {A} `{Countable A} (x y : A) (s : gset A) (c : bool) :
  (c = true ↔ x = y) → y ∈ s → agrees (constant_in_set x s) c.
Proof.
  intros Hc Hy. unfold constant_in_set. destruct (bool_decide _ && _) eqn:E.
  - apply andb_true_iff in E as [Hs%bool_decide_eq_true Hx%contains_spec].
    apply Hc. by apply (singleton_size s).
  - destruct (contains s x) eqn:Ex; [done|]. apply contains_false in Ex. simpl.
    apply not_true_iff_false. intros ->%Hc. done.
Qed.

Lemma sets_equal_sound {A} `{Countable A} (x y : A) (s t : gset A) (c : bool) :
  (c = true ↔ x = y) → x ∈ s → y ∈ t → agrees (sets_equal s t) c.
Proof.
  intros Hc Hx Hy. unfold sets_equal. destruct (decide (s ∩ t = ∅)) as [He|].
  - simpl. apply not_true_iff_false. intros ->%Hc. set_solver.
  - destruct (bool_decide _ && _) eqn:E; [|done].
    apply andb_true_iff in E as [->%bool_decide_eq_true Hs%bool_decide_eq_true].
    apply Hc. by apply (singleton_size t).
Qed.

Lemma interval_eq_set_sound lo hi s x y (c : bool) :
  (c = true ↔ x = y) → lo ≠ hi → lo ≤ x ≤ hi → y ∈ s → agrees (interval_eq_set lo hi s) c.
Proof.
  intros Hc Hne Hx Hy. unfold interval_eq_set. destruct (decide (set_in_interval lo hi s = ∅)) as [He|].
  - simpl. apply not_true_iff_false. intros ->%Hc.
    apply (not_elem_of_empty (C:=gset Z) y). rewrite <-He. by apply elem_of_set_in_interval.
  - destruct (Z.eqb_spec lo hi); [done|]. by rewrite andb_false_r.
Qed.

(** A normal interval has two elements. *)
Lemma normal_interval lo hi : normal (IntInterval lo hi) → lo ≠ hi.
Proof. unfold normal. cbn [normalize]. by destruct (Z.eqb_spec lo hi). Qed.

Lemma evaluate_int_eq_sound a b x y :
  wf a → wf b → VInt x ∈ a → VInt y ∈ b → agrees (evaluate_int_eq a b) (holds Eq x y).
Proof.
  intros [Ha Hna] [Hb Hnb] Hx Hy. cbn [holds].
  assert (Hc : (x =? y) = true ↔ x = y) by apply Z.eqb_eq.
  assert (Hc' : (x =? y) = true ↔ y = x) by (rewrite Hc; done).
  destruct a as [n| | |p q|s| | | | | | |], b as [m| | |p' q'|t| | | | | | |];
    unfold elem_of, gamma in Hx, Hy; cbn [denotes] in Hx, Hy; try done; cbn [evaluate_int_eq];
    try (repeat case_match; simpl; lia).
  - subst x. by apply constant_in_set_sound with y.
  - apply (interval_eq_set_sound _ _ _ x y); [done|by apply normal_interval|done|done].
  - subst y. by apply constant_in_set_sound with x.
  - apply (interval_eq_set_sound _ _ _ y x); [done|by apply normal_interval|done|done].
  - by apply sets_equal_sound with x y.
Qed.

Lemma evaluate_boolean_eq_sound a b x y :
  VBool x ∈ a → VBool y ∈ b → agrees (evaluate_boolean_eq a b) (Bool.eqb x y).
Proof.
  intros Hx Hy.
  assert (Hc : Bool.eqb x y = true ↔ x = y) by apply eqb_true_iff.
  assert (Hc' : Bool.eqb x y = true ↔ y = x) by (rewrite Hc; done).
  destruct a, b; unfold elem_of, gamma in Hx, Hy; cbn [denotes] in Hx, Hy; try done; cbn [evaluate_boolean_eq].
  - subst. apply constant_verdict.
  - subst x. by apply constant_in_set_sound with y.
  - subst y. by apply constant_in_set_sound with x.
  - by apply sets_equal_sound with x y.
Qed.

Lemma kind_of_int a x : VInt x ∈ a → is_integer a = true ∧ is_boolean a = false.
Proof. by destruct a. Qed.
Lemma kind_of_bool a x : VBool x ∈ a → is_integer a = false ∧ is_boolean a = true.
Proof. by destruct a. Qed.

Lemma holds_ne x y : holds Ne x y = negb (holds Eq x y).
Proof. done. Qed.

Lemma evaluate_comparison_sound a op b r u v c :
  wf a → wf b → evaluate_comparison a op b = Ok r → u ∈ a → v ∈ b → compare_values op u v = Some c → agrees r c.
Proof.
  intros Ha Hb Hr Hu Hv Hc. unfold evaluate_comparison in Hr.
  destruct u as [x|x|], v as [y|y|]; try done; cbn [compare_values] in Hc.
  - destruct (kind_of_int a x Hu) as [Hia _], (kind_of_int b y Hv) as [Hib _]. rewrite Hia, Hib in Hr. simpl in Hr.
    injection Hc as <-. destruct op.
    + injection Hr as <-. by apply evaluate_int_eq_sound.
    + injection Hr as <-. rewrite holds_ne. by apply agrees_not, evaluate_int_eq_sound.
    + by apply (evaluate_int_lt_sound a b); [apply Ha|apply Hb|..].
    + by apply (evaluate_int_le_sound a b); [apply Ha|apply Hb|..].
    + by apply (evaluate_int_gt_sound a b); [apply Ha|apply Hb|..].
    + by apply (evaluate_int_ge_sound a b); [apply Ha|apply Hb|..].
  - destruct (kind_of_bool a x Hu) as [Hia Hba], (kind_of_bool b y Hv) as [_ Hbb]. rewrite Hia, Hba, Hbb in Hr. simpl in Hr.
    destruct op; try done; injection Hr as <-; injection Hc as <-.
    + by apply evaluate_boolean_eq_sound.
    + by apply agrees_not, evaluate_boolean_eq_sound.
Qed.

(** ** Guards *)

(** The predicates that are known. *)
Definition knows (predicates : gmap string bool) (P : string → bool) : Prop :=
  ∀ x b, predicates !! x = Some b → P x = b.

Lemma evaluate_guard_sound_values st ρ predicates P g r c :
  state_ok st → ρ ∈ st → knows predicates P → guard_fits st g →
  evaluate_guard g st predicates = Ok r → eval_guard ρ P g = Some c → agrees r c.
Proof.
  intros Hst Hρ HP. revert r c.
  induction g as [| |l op rr|l IHl rr IHr|l IHl rr IHr|g IH|name]; intros r c Hf Hr Hc;
    cbn [guard_fits evaluate_guard eval_guard] in *.
  - injection Hr as <-. injection Hc as <-. done.
  - injection Hr as <-. injection Hc as <-. done.
  - destruct Hf as [Hl Hrr].
    destruct (eval_expr ρ l) as [u|] eqn:Eu; [|done]. destruct (eval_expr ρ rr) as [v|] eqn:Ev; [|done].
    destruct (evaluate_expr l st) as [a|[]] eqn:Ea; try done; [|by injection Hr as <-].
    destruct (evaluate_expr rr st) as [b|[]] eqn:Eb; try done; [|by injection Hr as <-].
    apply (evaluate_comparison_sound a op b r u v c); try done.
    + by apply (evaluate_expr_wf st l).
    + by apply (evaluate_expr_wf st rr).
    + by apply (evaluate_expr_sound_values st ρ l).
    + by apply (evaluate_expr_sound_values st ρ rr).
  - destruct Hf as [Hl Hrr]. repeat case_match; simplify_eq.
    apply agrees_and; auto.
  - destruct Hf as [Hl Hrr]. repeat case_match; simplify_eq.
    apply agrees_or; auto.
  - repeat case_match; simplify_eq. apply agrees_not; auto.
  - injection Hc as <-. destruct (predicates !! name) as [b|] eqn:E; simplify_eq; [|done].
    rewrite (HP _ _ E). by apply constant_verdict.
Qed.

(** ** Refinement *)

Definition constraint_holds (ρ : Env) (c : Constraint) : Prop :=
  eval_guard ρ (λ _, true) (GComparison (c_left c) (c_op c) (c_right c)) = Some true.

(** A concrete state of the abstract one that meets its constraints. *)
Definition satisfies (ρ : Env) (st : AbstractState) : Prop :=
  ρ ∈ st ∧ Forall (constraint_holds ρ) (constraints st).

Lemma elem_of_branch ρ st var v op c :
  ρ ∈ branch st var v op c ↔
  (∃ w, ρ !! var = Some w ∧ w ∈ v) ∧
  (∀ x a, x ≠ var → variables st !! x = Some a → ∃ w, ρ !! x = Some w ∧ w ∈ a).
Proof.
  unfold elem_of at 1, state_gamma. cbn [branch add_constraint set_variable variables]. split.
  - intros H. split; [apply H; by rewrite lookup_insert_eq|].
    intros x a Hne Hx. apply H. by rewrite lookup_insert_ne.
  - intros [Hv Ho] x a Hx. destruct (decide (x = var)) as [->|Hne].
    + rewrite lookup_insert_eq in Hx. by injection Hx as <-.
    + rewrite lookup_insert_ne in Hx by done. by apply (Ho x).
Qed.

Lemma satisfies_branch ρ st var x v op c :
  satisfies ρ st → ρ !! var = Some (VInt x) → VInt x ∈ v → holds op x c = true → satisfies ρ (branch st var v op c).
Proof.
  intros [Hρ Hc] Hx Hv Hop. split.
  - apply elem_of_branch. split; [by exists (VInt x)|]. intros y a _ Hy. by apply Hρ.
  - cbn [branch add_constraint set_variable constraints]. apply Forall_app. split; [done|].
    apply Forall_singleton. unfold constraint_holds, var_const. cbn [c_left c_right c_op eval_guard eval_expr].
    rewrite Hx. cbn [compare_values]. by rewrite Hop.
Qed.

Lemma or_unchanged_incl st l st' : st' ∈ l → st' ∈ or_unchanged st l.
Proof. by destruct l; [intros H%not_elem_of_nil|]. Qed.

Lemma elem_of_if (b : bool) (st : AbstractState) : b = true → st ∈ (if b then [st] else []).
Proof. intros ->. by left. Qed.

(** The value of the variable is in one of the intervals. *)
Section cuts.
Context (ρ : Env) (st : AbstractState) (var : string) (lo hi c x : Z).
Hypothesis Hρ : satisfies ρ st.
Hypothesis Hx : ρ !! var = Some (VInt x).
Hypothesis Hb : lo ≤ x ≤ hi.

Lemma cut_branch p q o : p ≤ x ≤ q → holds o x c = true → satisfies ρ (branch st var (IntInterval p q) o c).
Proof using Hρ Hx. intros Hpq Ho. by apply (satisfies_branch ρ st var x). Qed.

Lemma cut_le :
  ∃ st', st' ∈ (if lo <=? c then [branch st var (IntInterval lo c) Le c] else []) ++
               (if c <? hi then [branch st var (IntInterval (c + 1) hi) Gt c] else []) ∧ satisfies ρ st'.
Proof using Hρ Hx Hb.
  destruct (Z.le_gt_cases x c).
  - eexists. split; [apply elem_of_app; left; apply elem_of_if; lia|apply cut_branch; simpl; lia].
  - eexists. split; [apply elem_of_app; right; apply elem_of_if; lia|apply cut_branch; simpl; lia].
Qed.

Lemma cut_lt :
  ∃ st', st' ∈ (if lo <? c then [branch st var (IntInterval lo (c - 1)) Lt c] else []) ++
               (if c <=? hi then [branch st var (IntInterval c hi) Ge c] else []) ∧ satisfies ρ st'.
Proof using Hρ Hx Hb.
  destruct (Z.le_gt_cases c x).
  - eexists. split; [apply elem_of_app; right; apply elem_of_if; lia|apply cut_branch; simpl; lia].
  - eexists. split; [apply elem_of_app; left; apply elem_of_if; lia|apply cut_branch; simpl; lia].
Qed.

Lemma cut_eq :
  ∃ st', st' ∈ refine_interval_comparison st var lo hi Eq c ∧ satisfies ρ st'.
Proof using Hρ Hx Hb.
  unfold refine_interval_comparison. destruct (Z.lt_trichotomy x c) as [Hlt|[->|Hgt]].
  - eexists. split; [apply elem_of_app; left; apply elem_of_if; lia|apply cut_branch; simpl; lia].
  - eexists. split; [apply elem_of_app; right; by left|].
    apply (satisfies_branch ρ st var c); [done|done|done|by apply Z.eqb_eq].
  - eexists. split; [apply elem_of_app; right; right; apply elem_of_if; lia|apply cut_branch; simpl; lia].
Qed.

Lemma refine_interval_covers op :
  op ≠ Ne → ∃ st', st' ∈ refine_interval_comparison st var lo hi op c ∧ satisfies ρ st'.
Proof using Hρ Hx Hb.
  destruct op; intros Hop; [apply cut_eq|done| | | |]; unfold refine_interval_comparison;
    destruct cut_le as (s1 & H1 & ?); destruct cut_lt as (s2 & H2 & ?); eauto using or_unchanged_incl.
Qed.
End cuts.

Lemma refine_comparison_covers ρ st l op r :
  op ≠ Ne → satisfies ρ st → ∃ st', st' ∈ refine_comparison st l op r ∧ satisfies ρ st'.
Proof.
  intros Hop Hρ. assert (Hself : ∃ st', st' ∈ [st] ∧ satisfies ρ st') by (exists st; split; [by left|done]).
  unfold refine_comparison. destruct l as [var| | | | | |], r; try done.
  destruct (get_variable st var) as [[| | |lo hi| | | | | | | |]|] eqn:E; try done.
  destruct Hρ as [Hρ Hc]. destruct (Hρ var _ E) as (v & Hv & Hin).
  apply gamma_int_range in Hin as (x & -> & Hx). by apply (refine_interval_covers ρ st var lo hi n x).
Qed.

(** A predicate under an even number of negations. *)
Fixpoint terminates (pos : bool) (g : GuardExpr) : bool :=
  match g with
  | GPredicate _ => pos
  | GNot g => terminates (negb pos) g
  | GAnd l r | GOr l r => terminates pos l && terminates pos r
  | _ => true
  end.

(** No part of the guard removes a state: [False], or a disequality, under the
    negations around it. *)
Fixpoint keeps (pos : bool) (g : GuardExpr) : bool :=
  match g with
  | GTrue => pos
  | GFalse => negb pos
  | GComparison _ op _ => bool_decide (op ≠ if pos then Ne else Eq)
  | GNot g => keeps (negb pos) g
  | GAnd l r => if pos then keeps pos l && keeps pos r else keeps pos l || keeps pos r
  | GOr l r => if pos then keeps pos l || keeps pos r else keeps pos l && keeps pos r
  | GPredicate _ => true
  end.

Fixpoint guard_height (g : GuardExpr) : nat :=
  match g with
  | GAnd l r | GOr l r => S (Nat.max (guard_height l) (guard_height r))
  | GNot g => S (guard_height g)
  | _ => 1
  end.

Lemma keeps_negate pos g : keeps pos (negate_guard g) = keeps (negb pos) g.
Proof.
  revert pos. induction g as [| |l op r|l IHl r IHr|l IHl r IHr|g IH|name]; intros pos; cbn [keeps negate_guard].
  - by destruct pos.
  - by destruct pos.
  - destruct pos, op; reflexivity.
  - rewrite IHl, IHr. by destruct pos.
  - rewrite IHl, IHr. by destruct pos.
  - by destruct pos.
  - done.
Qed.

Lemma terminates_negate pos g : terminates pos (negate_guard g) = terminates (negb pos) g.
Proof.
  revert pos. induction g as [| |l op r|l IHl r IHr|l IHl r IHr|g IH|name]; intros pos; cbn [terminates negate_guard];
    try done; [by rewrite IHl, IHr|by rewrite IHl, IHr|by destruct pos].
Qed.

Lemma negate_height g : terminates false g = true → (guard_height (negate_guard g) ≤ guard_height g)%nat.
Proof.
  induction g as [| |l op r|l IHl r IHr|l IHl r IHr|g IH|name]; cbn [terminates negate_guard guard_height]; try lia; try done.
  - intros [H1%IHl H2%IHr]%andb_true_iff. lia.
  - intros [H1%IHl H2%IHr]%andb_true_iff. lia.
Qed.

Lemma mapM_total {A B} (f : A → option B) l : (∀ x, is_Some (f x)) → is_Some (mapM f l).
Proof. intros Hf. apply mapM_is_Some, Forall_forall. auto. Qed.

Lemma refine_total fuel st g :
  terminates true g = true → (guard_height g ≤ fuel)%nat → is_Some (refine_state_with_guard fuel st g).
Proof.
  revert st g. induction fuel as [|fuel IH]; intros st g Ht Hh; [destruct g; cbn in Hh; lia|].
  destruct g as [| |l op r|l r|l r|g|name]; cbn [refine_state_with_guard terminates guard_height] in *; try done.
  - apply andb_true_iff in Ht as [Hl Hr]. destruct (IH st l Hl ltac:(lia)) as [sts ->].
    destruct (mapM_total (λ st', refine_state_with_guard fuel st' r) sts) as [res ->]; [|done].
    intros st'. apply IH; [done|lia].
  - apply andb_true_iff in Ht as [Hl Hr]. destruct (IH st l Hl ltac:(lia)) as [? ->].
    by destruct (IH st r Hr ltac:(lia)) as [? ->].
  - apply IH; [by rewrite terminates_negate|]. pose proof (negate_height g Ht). lia.
Qed.

Lemma refine_keeps fuel st g sts ρ :
  keeps true g = true → refine_state_with_guard fuel st g = Some sts → satisfies ρ st →
  ∃ st', st' ∈ sts ∧ satisfies ρ st'.
Proof.
  revert st g sts. induction fuel as [|fuel IH]; intros st g sts Hk Hr Hρ; [done|].
  destruct g as [| |l op r|l r|l r|g|name]; cbn [refine_state_with_guard keeps] in *; try done.
  - injection Hr as <-. exists st. split; [by left|done].
  - injection Hr as <-. apply bool_decide_eq_true in Hk. by apply refine_comparison_covers.
  - apply andb_true_iff in Hk as [Hl Hr'].
    destruct (refine_state_with_guard fuel st l) as [first|] eqn:E1; [|done].
    destruct (mapM _ first) as [res|] eqn:E2; [|done]. injection Hr as <-.
    destruct (IH _ _ _ Hl E1 Hρ) as (st1 & Hin & Hst1).
    apply mapM_Some in E2. apply list_elem_of_lookup in Hin as [i Hi].
    destruct (Forall2_lookup_l _ _ _ _ _ E2 Hi) as (sts1 & Hs1 & Hr1).
    destruct (IH _ _ _ Hr' Hr1 Hst1) as (st2 & Hin2 & Hst2). exists st2. split; [|done].
    apply list_elem_of_In, in_concat. exists sts1. split; apply list_elem_of_In; [by eapply list_elem_of_lookup_2|done].
  - destruct (refine_state_with_guard fuel st l) as [first|] eqn:E1; [|done].
    destruct (refine_state_with_guard fuel st r) as [second|] eqn:E2; [|done]. injection Hr as <-.
    setoid_rewrite elem_of_app. apply orb_true_iff in Hk as [Hk|Hk];
      [destruct (IH _ _ _ Hk E1 Hρ) as (st1 & ? & ?)|destruct (IH _ _ _ Hk E2 Hρ) as (st1 & ? & ?)]; eauto.
  - apply (IH st (negate_guard g)); [by rewrite keeps_negate|done|done].
  - injection Hr as <-. exists st. split; [by left|done].
Qed.

(** ** The parts of an interval *)

Section parts.
Context (st : AbstractState) (var : string) (lo hi c : Z).
Hypothesis Hvar : get_variable st var = Some (IntInterval lo hi).

(** The values and constraints of the states of a refinement. *)
Definition parts (op : ComparisonOp) : list (AbstractValue * ComparisonOp) :=
  match op with
  | Gt | Le => [(IntInterval lo c, Le); (IntInterval (c + 1) hi, Gt)]
  | Ge | Lt => [(IntInterval lo (c - 1), Lt); (IntInterval c hi, Ge)]
  | _ =>
    (if lo <? c then [(IntInterval lo (c - 1), Lt)] else []) ++ [(IntConstant c, Eq)] ++
    (if c <? hi then [(IntInterval (c + 1) hi, Gt)] else [])
  end.

Definition part_state (p : AbstractValue * ComparisonOp) : AbstractState := branch st var p.1 p.2 c.

(** The comparison is undecided on the interval. *)
Definition undecided (op : ComparisonOp) : Prop :=
  match op with
  | Gt | Le => lo ≤ c < hi
  | Ge | Lt => lo < c ≤ hi
  | _ => lo ≤ c ≤ hi
  end.

Lemma maybe_undecided op predicates :
  lo ≤ hi → evaluate_guard (GComparison (EVar var) op (EConst c)) st predicates = Ok Maybe → undecided op.
Proof using Hvar.
  intros Hb. cbn [evaluate_guard evaluate_expr]. rewrite Hvar. unfold evaluate_comparison. cbn [is_integer negb orb].
  destruct op; cbn; unfold decided; repeat case_match; intros; simplify_eq; try done; lia.
Qed.

Lemma refine_parts op :
  op ≠ Ne → undecided op → refine_comparison st (EVar var) op (EConst c) = map part_state (parts op).
Proof using Hvar.
  intros Hop Hu. unfold refine_comparison. rewrite Hvar.
  unfold refine_interval_comparison. destruct op; try done; cbn [undecided] in Hu; cbn [parts].
  - by destruct (lo <? c), (c <? hi).
  - assert (E1 : lo <? c = true) by lia. assert (E2 : c <=? hi = true) by lia. by rewrite E1, E2.
  - assert (E1 : lo <=? c = true) by lia. assert (E2 : c <? hi = true) by lia. by rewrite E1, E2.
  - assert (E1 : lo <=? c = true) by lia. assert (E2 : c <? hi = true) by lia. by rewrite E1, E2.
  - assert (E1 : lo <? c = true) by lia. assert (E2 : c <=? hi = true) by lia. by rewrite E1, E2.
Qed.

Lemma parts_cover op x : undecided op → lo ≤ x ≤ hi ↔ Exists (λ p, VInt x ∈ p.1) (parts op).
Proof using.
  intros Hu. destruct op; cbn [undecided parts] in *; repeat case_match; cbn [app];
    rewrite ?Exists_cons, Exists_nil; unfold elem_of, gamma; cbn [denotes fst]; lia.
Qed.

Lemma parts_disjoint op i j p q x :
  parts op !! i = Some p → parts op !! j = Some q → VInt x ∈ p.1 → VInt x ∈ q.1 → i = j.
Proof using.
  intros Hp Hq Hx Hy. unfold elem_of, gamma in Hx, Hy.
  destruct op; cbn [parts] in *; destruct (lo <? c), (c <? hi); cbn [app] in *;
    destruct i as [|[|[|i]]], j as [|[|[|j]]]; simplify_eq/=; try done; cbn [denotes] in *; lia.
Qed.

Lemma parts_integers op : Forall (λ p, is_integer p.1 = true) (parts op).
Proof using. destruct op; cbn [parts]; repeat case_match; by repeat constructor. Qed.

(** Each part decides the comparison. *)
Lemma parts_decided op p predicates :
  undecided op → op ≠ Ne → p ∈ parts op →
  ∃ r, evaluate_guard (GComparison (EVar var) op (EConst c)) (part_state p) predicates = Ok r ∧ r ≠ Maybe.
Proof using.
  intros Hu Hop Hp. cbn [evaluate_guard evaluate_expr]. unfold get_variable, part_state.
  cbn [branch add_constraint set_variable variables]. rewrite lookup_insert_eq.
  unfold evaluate_comparison. destruct op; try done; cbn [parts undecided] in *;
    repeat case_match; cbn [app] in Hp; set_unfold in Hp; destruct_or?; subst p; simplify_eq/=;
    eexists; (split; [reflexivity|]); unfold decided; repeat case_match; simplify_eq; try done; lia.
Qed.

Lemma elem_of_integer_branch ρ (v : AbstractValue) o :
  is_integer v = true →
  ρ ∈ branch st var v o c ↔
  (∃ x, ρ !! var = Some (VInt x) ∧ VInt x ∈ v) ∧
  (∀ x a, x ≠ var → variables st !! x = Some a → ∃ w, ρ !! x = Some w ∧ w ∈ a).
Proof using.
  intros Hv. rewrite elem_of_branch. split; intros [(w & Hw & Hin) Ho]; (split; [|done]).
  - destruct (integer_member v w Hv Hin) as [x ->]. eauto.
  - eauto.
Qed.

Lemma elem_of_interval_state ρ :
  ρ ∈ st ↔
  (∃ x, ρ !! var = Some (VInt x) ∧ lo ≤ x ≤ hi) ∧
  (∀ x a, x ≠ var → variables st !! x = Some a → ∃ w, ρ !! x = Some w ∧ w ∈ a).
Proof using Hvar.
  split.
  - intros Hρ. split; [|intros x a _; by apply Hρ].
    destruct (Hρ var _ Hvar) as (w & Hw & (x & -> & Hx)%gamma_int_range). eauto.
  - intros [(x & Hx & Hb) Ho] y a Hy. destruct (decide (y = var)) as [->|Hne]; [|by apply (Ho y)].
    unfold get_variable in Hvar. rewrite Hvar in Hy. injection Hy as <-.
    exists (VInt x). split; [done|]. apply gamma_int_range. eauto.
Qed.

Lemma part_states_cover op ρ :
  undecided op → ρ ∈ st ↔ ∃ st', st' ∈ map part_state (parts op) ∧ ρ ∈ st'.
Proof using Hvar.
  intros Hu. pose proof (parts_integers op) as Hi. rewrite Forall_forall in Hi. split.
  - intros [(x & Hx & Hb) Ho]%elem_of_interval_state.
    apply (parts_cover op x Hu), Exists_exists in Hb as (p & Hp & Hin).
    exists (part_state p). split; [by apply list_elem_of_fmap_2|]. apply elem_of_integer_branch; eauto.
  - intros (st' & (p & -> & Hp)%list_elem_of_fmap & Hρ).
    apply elem_of_integer_branch in Hρ as [(x & Hx & Hin) Ho]; [|by apply Hi].
    apply elem_of_interval_state. split; [|done]. exists x. split; [done|].
    apply (parts_cover op x Hu), Exists_exists. eauto.
Qed.

Lemma part_states_disjoint op i j s t ρ :
  map part_state (parts op) !! i = Some s → map part_state (parts op) !! j = Some t →
  ρ ∈ s → ρ ∈ t → i = j.
Proof using.
  pose proof (parts_integers op) as Hi. rewrite Forall_forall in Hi. intros Hs Ht Hρs Hρt.
  apply list_lookup_fmap_Some in Hs as (p & -> & Hp), Ht as (q & -> & Hq).
  apply elem_of_integer_branch in Hρs as [(x & Hx & Hxp) _]; [|by eapply Hi, list_elem_of_lookup_2].
  apply elem_of_integer_branch in Hρt as [(y & Hy & Hyq) _]; [|by eapply Hi, list_elem_of_lookup_2].
  rewrite Hx in Hy. injection Hy as <-. by apply (parts_disjoint op i j p q x).
Qed.
End parts.

(** ** Heuristics *)

Lemma contiguous_set s lo hi :
  (∀ x, x ∈ s → lo ≤ x ≤ hi) → Z.of_nat (size s) = hi - lo + 1 → interval_elements lo hi = s.
Proof.
  intros Hb Hs. symmetry. apply leibniz_equiv, set_subseteq_size_equiv.
  - intros x Hx. by apply elem_of_interval_elements, Hb.
  - unfold interval_elements. rewrite size_list_to_set, length_seqZ by apply NoDup_seqZ. lia.
Qed.

Lemma convert_keeps s config r v :
  convert_set_to_interval_if_contiguous s config = Some r → v ∈ r ↔ v ∈ IntSet s.
Proof.
  unfold convert_set_to_interval_if_contiguous. destruct (size s <=? 1)%nat; [by intros [= <-]|].
  destruct (set_bounds s) as [(_ & -> & _)|(lo & hi & -> & -> & Hl & Hh & Hb)]; [by intros [= <-]|].
  destruct (checked_sub hi lo) as [d|] eqn:Ed; [|done]. destruct (checked_add d 1) as [e|] eqn:Ee; [|done].
  intros [= <-]. destruct (_ && _) eqn:Ec; [|done].
  apply checked_Some in Ed as [-> _], Ee as [-> _].
  etransitivity; [exact (gamma_normalize (IntInterval lo hi) v)|]. gamma_simpl.
  setoid_rewrite <-(contiguous_set s lo hi Hb); [|lia]. by setoid_rewrite elem_of_interval_elements.
Qed.

(** The selection of a type keeps the values. *)
Lemma select_abstract_type_keeps a context config stats r v :
  select_abstract_type a context config stats = Some r → v ∈ r ↔ v ∈ a.
Proof.
  destruct a as [n| | |lo hi|s| | | | | | |]; cbn [select_abstract_type]; try (by intros [= <-]).
  - destruct (is_approaching_limit _ _); intros [= <-]; [|done]. gamma_simpl.
    split; [intros (x & -> & Hx); f_equal; lia|intros ->; exists n; split; [done|lia]].
  - intros [= <-]. unfold select_int_interval_type. exact (gamma_normalize (IntInterval lo hi) v).
  - unfold select_int_set_type.
    assert (Hs : ∀ x, x ∈ s ↔ x ∈ elements s) by (intros x; by rewrite elem_of_elements).
    destruct (elements s) as [|x [|y l]] eqn:E; [by intros [= <-]| |].
    + intros [= <-]. gamma_simpl. setoid_rewrite Hs. setoid_rewrite list_elem_of_singleton. naive_solver.
    + cbv zeta. intros Hr. match type of Hr with (if ?b then _ else _) = _ => destruct b end.
      * by injection Hr as <-.
      * by apply (convert_keeps s config).
Qed.

(** ** The results *)

(** C19: A guard that [evaluate_guard] reports as always true, or as always false,
    has that value in every concrete state of the abstract state, whatever the
    unknown predicates are, provided the products and quotients of the guard
    meet their side conditions and the variables hold normalised values. *)
Theorem evaluate_guard_sound st ρ predicates P g r c :
  state_ok st → ρ ∈ st → knows predicates P → guard_fits st g →
  evaluate_guard g st predicates = Ok r → eval_guard ρ P g = Some c →
  (r = AlwaysTrue → c = true) ∧ (r = AlwaysFalse → c = false).
Proof.
  intros Hst Hρ HP Hf Hr Hc. pose proof (evaluate_guard_sound_values _ _ _ _ _ _ _ Hst Hρ HP Hf Hr Hc).
  split; by intros ->.
Qed.

(** A state with a variable between 0 and 10. *)
Definition counter_state : AbstractState := set_variable (new_state "Run") "x" (IntInterval 0 10).
Definition counter_env (n : Z) : Env := {["x" := VInt n]}.

Lemma counter_state_ok : state_ok counter_state.
Proof.
  intros x a Hx. cbn in Hx. apply lookup_insert_Some in Hx as [[<- <-]|[_ Hx]]; [|by rewrite lookup_empty in Hx].
  split; [unfold value_ok, i64, i64_min, i64_max; lia|done].
Qed.

Lemma counter_env_in n : 0 ≤ n ≤ 10 → counter_env n ∈ counter_state.
Proof.
  intros Hn x a Hx. cbn in Hx. apply lookup_insert_Some in Hx as [[<- <-]|[_ Hx]]; [|by rewrite lookup_empty in Hx].
  exists (VInt n). split; [apply lookup_singleton_eq|]. apply gamma_int_range. eauto.
Qed.

(** 2 * x + 1 > 0 and not x = 11. *)
Definition counter_guard : GuardExpr :=
  GAnd (GComparison (EAdd (EMul (EConst 2) (EVar "x")) (EConst 1)) Gt (EConst 0))
       (GNot (GComparison (EVar "x") Eq (EConst 11))).

Lemma evaluate_guard_sound_witness :
  evaluate_guard counter_guard counter_state ∅ = Ok AlwaysTrue ∧
  ((AlwaysTrue = AlwaysTrue → true = true) ∧ (AlwaysTrue = AlwaysFalse → true = false)).
Proof.
  split; [by vm_compute|].
  apply (evaluate_guard_sound counter_state (counter_env 4) ∅ (λ _, true) counter_guard).
  - apply counter_state_ok.
  - apply counter_env_in. lia.
  - intros x b Hx. by rewrite lookup_empty in Hx.
  - cbn [guard_fits counter_guard expr_fits]. split_and!; try done.
    intros a b [= <-] _ [=].
  - by vm_compute.
  - by vm_compute.
Defined.

(** C20: A comparison of a variable with a constant that is undecided on the
    interval of the variable splits the state exactly: the concrete states of
    the result are those of the state, no two of its states share one, and each
    of them decides the comparison.  The comparison is not a disequality. *)
Theorem refine_partition st var lo hi op c predicates :
  get_variable st var = Some (IntInterval lo hi) → lo ≤ hi → op ≠ Ne →
  evaluate_guard (GComparison (EVar var) op (EConst c)) st predicates = Ok Maybe →
  ∃ sts, refine_state_with_guard 1 st (GComparison (EVar var) op (EConst c)) = Some sts ∧
  (∀ ρ : Env, ρ ∈ st ↔ ∃ st', st' ∈ sts ∧ ρ ∈ st') ∧
  (∀ i j s t (ρ : Env), sts !! i = Some s → sts !! j = Some t → ρ ∈ s → ρ ∈ t → i = j) ∧
  (∀ st', st' ∈ sts →
    ∃ r, evaluate_guard (GComparison (EVar var) op (EConst c)) st' predicates = Ok r ∧ r ≠ Maybe).
Proof.
  intros Hvar Hb Hop Hm. pose proof (maybe_undecided st var lo hi c Hvar op predicates Hb Hm) as Hu.
  exists (map (part_state st var c) (parts lo hi c op)). split_and!.
  - cbn [refine_state_with_guard]. by rewrite (refine_parts st var lo hi c Hvar op).
  - intros ρ. by apply part_states_cover.
  - intros i j s t ρ. by apply part_states_disjoint.
  - intros st' (p & -> & Hp)%list_elem_of_fmap. by apply (parts_decided st var lo hi).
Qed.

Lemma refine_partition_witness :
  ∃ sts, refine_state_with_guard 1 counter_state (GComparison (EVar "x") Gt (EConst 5)) = Some sts ∧
  (∀ ρ : Env, ρ ∈ counter_state ↔ ∃ st', st' ∈ sts ∧ ρ ∈ st').
Proof.
  destruct (refine_partition counter_state "x" 0 10 Gt 5 ∅) as (sts & Hs & Hc & _);
    [done|lia|done|by vm_compute|]. by exists sts.
Defined.

(** Refinement by a guard whose predicates are under an even number of
    negations returns, within the height of the guard, and when no part of the
    guard removes a state, every concrete state that meets the constraints of
    the state is in one of the results and meets its constraints, the new ones
    included. *)
Theorem refinement_covers st g :
  terminates true g = true → keeps true g = true →
  ∃ sts, refine_state_with_guard (guard_height g) st g = Some sts ∧
  ∀ ρ, satisfies ρ st → ∃ st', st' ∈ sts ∧ satisfies ρ st'.
Proof.
  intros Ht Hk. destruct (refine_total (guard_height g) st g Ht (le_n _)) as [sts Hs].
  exists sts. split; [done|]. intros ρ Hρ. by apply (refine_keeps _ _ _ _ _ Hk Hs).
Qed.

Lemma refinement_covers_witness :
  ∃ sts, refine_state_with_guard 4 counter_state
    (GNot (GAnd (GComparison (EVar "x") Gt (EConst 5)) (GNot (GPredicate "p")))) = Some sts ∧
  (∃ st', st' ∈ sts ∧ satisfies (counter_env 7) st').
Proof.
  destruct (refinement_covers counter_state
    (GNot (GAnd (GComparison (EVar "x") Gt (EConst 5)) (GNot (GPredicate "p"))))) as (sts & Hs & Hc); [done|done|].
  exists sts. split; [exact Hs|]. apply Hc. split; [apply counter_env_in; lia|by constructor].
Defined.

(** ** Departures *)

(** An interval of one value, which the heuristics make of a constant near the
    limit on states, is equal to every larger set that has the value. *)
Lemma singleton_interval_departure :
  select_abstract_type (IntConstant 1) Unknown default_config
    {| total_states := 500; states_per_location := ∅; variable_domain_sizes := ∅ |} = Some (IntInterval 1 1) ∧
  evaluate_int_eq (IntInterval 1 1) (IntSet {[1; 2]}) = AlwaysTrue ∧ VInt 2 ∈ IntSet {[1; 2]}.
Proof. split_and!; [by vm_compute..|]. apply gamma_int_set. exists 2. split; [done|set_solver]. Qed.

Lemma branch_excludes n v op c : VInt n ∉ v → counter_env n ∉ branch counter_state "x" v op c.
Proof.
  intros Hv [(w & Hw & Hin) _]%elem_of_branch. unfold counter_env in Hw.
  rewrite lookup_singleton_eq in Hw. by injection Hw as <-.
Qed.

(** The refinement of a disequality loses the value; an interval on which a
    conjunct is decided grows; a negated predicate is negated again for ever. *)
Lemma refinement_departures :
  (∀ st', st' ∈ default [] (refine_state_with_guard 1 counter_state (GComparison (EVar "x") Ne (EConst 5))) →
    ¬ counter_env 5 ∈ st') ∧
  refine_interval_comparison (set_variable (new_state "Run") "x" (IntInterval 6 10)) "x" 6 10 Lt 20 =
    [branch (set_variable (new_state "Run") "x" (IntInterval 6 10)) "x" (IntInterval 6 19) Lt 20] ∧
  (∀ fuel st p, refine_state_with_guard fuel st (GNot (GPredicate p)) = None).
Proof.
  split_and!.
  - intros st' Hst.
    assert (Hr : refine_state_with_guard 1 counter_state (GComparison (EVar "x") Ne (EConst 5)) =
      Some [branch counter_state "x" (IntInterval 0 4) Ne 5; branch counter_state "x" (IntInterval 6 10) Ne 5])
      by (by vm_compute).
    rewrite Hr in Hst. cbn [default from_option id] in Hst.
    apply elem_of_cons in Hst as [->|[->|Hst%elem_of_nil]%elem_of_cons]; [| |done];
      apply branch_excludes; rewrite gamma_int_range; naive_solver lia.
  - by vm_compute.
  - induction fuel as [|fuel IH]; intros st p; [done|]. exact (IH st p).
Qed.

(** Two states with different values have one name, which is the key of a state;
    an interval that grows is widened with its arguments swapped, so it is kept. *)
Lemma state_departures :
  (state_name (set_variable (new_state "Run") "x" (IntSet {[1; 2]})) =
   state_name (set_variable (new_state "Run") "x" (IntSet {[3; 4]})) ∧
   IntSet {[1; 2]} ≠ IntSet {[3; 4]}) ∧
  apply_widening_if_needed (IntInterval 0 2000) (Some (IntInterval 0 1500)) default_config = IntInterval 0 2000 ∧
  widen (IntInterval 0 1500) (IntInterval 0 2000) = IntTop.
Proof. by vm_compute. Qed.
