(* ===== verification/Bitvec.v ===== *)
(** Bit vectors: the two-variant value [Bv] of [adapter/btor2/bv.rs], and that
    every operation computes the fixed-width result.

    A [u128] is an [N] below [2^128], a [BigUint] an [N], a width an [N] below
    [2^32]; the wrap-around of the [u128] operations and the masks are written
    out.  [None] is a panic: a debug assertion on widths, or a width above
    [u32::MAX]. *)
From S2P Require Import Prelude.
From Stdlib Require Import NArith.
Local Open Scope N_scope.

(** ** Machine words *)

Definition u128_wrap (n : N) : N := n mod 2 ^ 128.
Definition wrapping_add (a b : N) : N := u128_wrap (a + b).
Definition wrapping_sub (a b : N) : N := u128_wrap (a + 2 ^ 128 - b).
Definition wrapping_mul (a b : N) : N := u128_wrap (a * b).
(** [a << n]: bits above the word are lost. *)
Definition u128_shl (a n : N) : N := u128_wrap (N.shiftl a n).
(** [!a]. *)
Definition u128_not (a : N) : N := N.lxor a (2 ^ 128 - 1).

(** A sum of widths, as a [u32]. *)
Definition width_add (a b : N) : option N := if a + b <? 2 ^ 32 then Some (a + b) else None.

Definition mask_u128 (bits width : N) : N :=
  if 128 <=? width then bits
  else if width =? 0 then 0
  else N.land bits (N.shiftl 1 width - 1).

Definition biguint_mask (width : N) : N := N.shiftl 1 width - 1.

(** The two low 64-bit digits. *)
Definition biguint_to_u128_truncating (mag : N) : N :=
  let masked := N.land mag (N.shiftl 1 128 - 1) in
  N.lor (N.shiftl (N.shiftr masked 64 mod 2 ^ 64) 64) (masked mod 2 ^ 64).

(** ** [Bv] *)

Module Bv.
Inductive Bv :=
  | Small (bits width : N)
  | Wide (mag width : N).

#[export] Instance Bv_eq_dec : EqDecision Bv.
Proof. solve_decision. Defined.

Definition from_u128 (bits width : N) : option Bv :=
  if width <=? 128 then Some (Small (mask_u128 bits width) width) else None.

Definition from_biguint (mag width : N) : Bv :=
  if width <=? 128 then Small (mask_u128 (biguint_to_u128_truncating mag) width) width
  else Wide (N.land mag (biguint_mask width)) width.

Definition from_u128_width (bits width : N) : Bv :=
  if width <=? 128 then Small (mask_u128 bits width) width else Wide bits width.

Definition zero (width : N) : Bv := if width <=? 128 then Small 0 width else Wide 0 width.
Definition one (width : N) : Bv := from_biguint 1 width.
Definition ones (width : N) : Bv :=
  if width <=? 128 then Small (mask_u128 (2 ^ 128 - 1) width) width else Wide (biguint_mask width) width.
Definition from_bool (b : bool) : Bv := Small (if b then 1 else 0) 1.

Definition width (v : Bv) : N := match v with Small _ w | Wide _ w => w end.
Definition is_zero (v : Bv) : bool := match v with Small n _ | Wide n _ => n =? 0 end.
Definition is_nonzero (v : Bv) : bool := negb (is_zero v).
Definition to_bool (v : Bv) : bool := is_nonzero v.
Definition to_u128 (v : Bv) : option N := match v with Small n _ => Some n | Wide _ _ => None end.
Definition low128 (v : Bv) : N :=
  match v with Small n _ => n | Wide n _ => biguint_to_u128_truncating n end.
Definition to_biguint (v : Bv) : N := match v with Small n _ | Wide n _ => n end.

(** The index is a [u64], the width a [u32]: the test casts the index. *)
Definition bit (v : Bv) (i : N) : bool :=
  if width v <=? i mod 2 ^ 32 then false
  else match v with Small n _ | Wide n _ => N.testbit n i end.

Definition is_negative (v : Bv) : bool :=
  let w := width v in
  if w =? 0 then false
  else match v with Small n _ | Wide n _ => N.testbit n (w - 1) end.

(** *** Bitwise operations and arithmetic *)

Definition binop_small_or_wide (small wide : N → N → N) (x y : Bv) : option Bv :=
  let w := width x in
  if w =? width y then
    Some match x, y with
         | Small a _, Small b _ => Small (mask_u128 (small a b) w) w
         | _, _ => from_biguint (wide (to_biguint x) (to_biguint y)) w
         end
  else None.

Definition and : Bv → Bv → option Bv := binop_small_or_wide N.land N.land.
Definition or : Bv → Bv → option Bv := binop_small_or_wide N.lor N.lor.
Definition xor : Bv → Bv → option Bv := binop_small_or_wide N.lxor N.lxor.

Definition not (v : Bv) : Bv :=
  match v with
  | Small n w => Small (mask_u128 (u128_not n) w) w
  | Wide n w => Wide (N.lxor n (biguint_mask w)) w
  end.

Definition add : Bv → Bv → option Bv := binop_small_or_wide wrapping_add N.add.

Definition sub (x y : Bv) : option Bv :=
  let w := width x in
  if w =? width y then
    Some match x, y with
         | Small a _, Small b _ => Small (mask_u128 (wrapping_sub a b) w) w
         | _, _ =>
           let modulus := N.shiftl 1 w in
           from_biguint ((to_biguint x + modulus - to_biguint y) mod modulus) w
         end
  else None.

Definition mul (x y : Bv) : option Bv :=
  let w := width x in
  if w =? width y then
    Some match x, y with
         | Small a _, Small b _ =>
           if w <=? 64 then Small (mask_u128 (wrapping_mul a b) w) w
           else from_biguint (to_biguint x * to_biguint y) w
         | _, _ => from_biguint (to_biguint x * to_biguint y) w
         end
  else None.

Definition udiv (x y : Bv) : option Bv :=
  if is_zero y then Some (ones (width x)) else binop_small_or_wide N.div N.div x y.
Definition urem (x y : Bv) : option Bv :=
  if is_zero y then Some x else binop_small_or_wide N.modulo N.modulo x y.
Definition neg (v : Bv) : option Bv := sub (zero (width v)) v.

(** *** Shifts *)

Definition shl (v : Bv) (n : N) : Bv :=
  let w := width v in
  if w <=? n then zero w
  else match v with
       | Small bits _ => Small (mask_u128 (u128_shl bits n) w) w
       | Wide mag _ => from_biguint (N.shiftl mag n) w
       end.

Definition shr (v : Bv) (n : N) : Bv :=
  let w := width v in
  if w <=? n then zero w
  else match v with
       | Small bits _ => Small (N.shiftr bits n) w
       | Wide mag _ => from_biguint (N.shiftr mag n) w
       end.

Definition sra (v : Bv) (n : N) : option Bv :=
  let w := width v in
  let neg := is_negative v in
  if w <=? n then Some (if neg then ones w else zero w)
  else
    let logical := shr v n in
    if negb neg then Some logical else or logical (shl (ones w) (w - n)).

Definition rol (v : Bv) (n : N) : option Bv :=
  let w := width v in
  let n := n mod N.max w 1 in
  if n =? 0 then Some v else or (shl v n) (shr v (w - n)).

Definition ror (v : Bv) (n : N) : option Bv :=
  let w := width v in
  let n := n mod N.max w 1 in
  if n =? 0 then Some v else or (shr v n) (shl v (w - n)).

Fixpoint popcount (p : positive) : N :=
  match p with xH => 1 | xO p => popcount p | xI p => 1 + popcount p end.
Definition count_ones (v : Bv) : N := match to_biguint v with N0 => 0 | Npos p => popcount p end.

(** *** Structure *)

(** A narrow high part is shifted as a [u128]: by 128 bits the shift overflows,
    which takes a high part of width zero. *)
Definition concat (hi lo : Bv) : option Bv :=
  let lw := width lo in
  let* w := width_add (width hi) lw in
  match hi, lo with
  | Small h _, Small l _ =>
    if w <=? 128 then
      if lw <? 128 then Some (Small (mask_u128 (N.lor (u128_shl h lw) l) w) w) else None
    else Some (from_biguint (N.lor (N.shiftl (to_biguint hi) lw) (to_biguint lo)) w)
  | _, _ => Some (from_biguint (N.lor (N.shiftl (to_biguint hi) lw) (to_biguint lo)) w)
  end.

Definition slice (v : Bv) (hi lo : N) : option Bv :=
  if (lo <=? hi) && (hi <? width v) then
    let out_w := hi - lo + 1 in
    Some match v with
         | Small bits _ => Small (mask_u128 (N.shiftr bits lo) out_w) out_w
         | Wide mag _ => from_biguint (N.shiftr mag lo) out_w
         end
  else None.

Definition uext (v : Bv) (by_ : N) : option Bv :=
  let* w := width_add (width v) by_ in
  Some match v with
       | Small bits _ => if w <=? 128 then Small bits w else from_biguint (to_biguint v) w
       | Wide _ _ => from_biguint (to_biguint v) w
       end.

Definition sext (v : Bv) (by_ : N) : option Bv :=
  let* w := width_add (width v) by_ in
  if negb (is_negative v) || (by_ =? 0) then uext v by_
  else
    let* base := uext v by_ in
    or base (shl (ones w) (width v)).

(** *** Comparisons *)

Definition ult_bool (x y : Bv) : bool :=
  match x, y with Small a _, Small b _ => a <? b | _, _ => to_biguint x <? to_biguint y end.
Definition slt_bool (x y : Bv) : bool :=
  match is_negative x, is_negative y with
  | true, false => true
  | false, true => false
  | _, _ => ult_bool x y
  end.
Definition bv_eqb (x y : Bv) : bool := bool_decide (x = y).

Definition eq_bv (x y : Bv) : Bv := from_bool (bv_eqb x y).
Definition ne_bv (x y : Bv) : Bv := from_bool (negb (bv_eqb x y)).
Definition ult (x y : Bv) : Bv := from_bool (ult_bool x y).
Definition ulte (x y : Bv) : Bv := from_bool (ult_bool x y || bv_eqb x y).
Definition ugt (x y : Bv) : Bv := from_bool (ult_bool y x).
Definition ugte (x y : Bv) : Bv := from_bool (ult_bool y x || bv_eqb x y).
Definition slt (x y : Bv) : Bv := from_bool (slt_bool x y).
Definition slte (x y : Bv) : Bv := from_bool (slt_bool x y || bv_eqb x y).
Definition sgt (x y : Bv) : Bv := from_bool (slt_bool y x).
Definition sgte (x y : Bv) : Bv := from_bool (slt_bool y x || bv_eqb x y).
End Bv.
Import Bv (Bv, Small, Wide).

(** ** The value of a given width *)

(** Values below [2^w] have one representation. *)
Definition mk (w n : N) : Bv := if w <=? 128 then Small n w else Wide n w.

Lemma pow2_positive n : 0 < 2 ^ n.
Proof. apply N.neq_0_lt_0, N.pow_nonzero. done. Qed.

Lemma shiftl_1_ones w : N.shiftl 1 w - 1 = N.ones w.
Proof. by rewrite N.ones_equiv, N.shiftl_1_l, N.sub_1_r. Qed.

Lemma mod_pow_pow n a b : a ≤ b → (n mod 2 ^ b) mod 2 ^ a = n mod 2 ^ a.
Proof.
  intros Hab. rewrite <-!N.land_ones, <-N.land_assoc. f_equal.
  rewrite N.land_comm, N.land_ones. apply N.mod_small. rewrite N.ones_equiv.
  pose proof (N.pow_le_mono_r 2 a b ltac:(done) Hab). pose proof (pow2_positive a). lia.
Qed.

Lemma mask_mod n w : w ≤ 128 → n < 2 ^ 128 → mask_u128 n w = n mod 2 ^ w.
Proof.
  intros Hw Hn. unfold mask_u128. destruct (N.leb_spec 128 w).
  - assert (w = 128) as -> by lia. by rewrite N.mod_small.
  - destruct (N.eqb_spec w 0) as [->|]; [by rewrite N.mod_1_r|].
    by rewrite shiftl_1_ones, N.land_ones.
Qed.

Lemma wrap_lt n : u128_wrap n < 2 ^ 128.
Proof. by apply N.mod_lt. Qed.

Lemma mask_wrap n w : w ≤ 128 → mask_u128 (u128_wrap n) w = n mod 2 ^ w.
Proof. intros Hw. rewrite mask_mod by (done || apply wrap_lt). by apply mod_pow_pow. Qed.

Lemma truncating_mod n : biguint_to_u128_truncating n = n mod 2 ^ 128.
Proof.
  unfold biguint_to_u128_truncating. rewrite shiftl_1_ones, N.land_ones.
  apply N.bits_inj. intros i. rewrite N.lor_spec.
  destruct (N.ltb_spec i 64) as [Hi|Hi].
  - rewrite N.shiftl_spec_low by done. rewrite N.mod_pow2_bits_low by done. done.
  - rewrite N.shiftl_spec_high' by done. rewrite (N.mod_pow2_bits_high _ 64 i) by done. rewrite orb_false_r.
    destruct (N.ltb_spec (i - 64) 64) as [Hj|Hj].
    + rewrite N.mod_pow2_bits_low by done. rewrite N.shiftr_spec'. f_equal. lia.
    + rewrite N.mod_pow2_bits_high by done. symmetry. apply N.mod_pow2_bits_high. lia.
Qed.

Lemma width_mk w n : Bv.width (mk w n) = w.
Proof. unfold mk. by destruct (w <=? 128). Qed.
Lemma biguint_mk w n : Bv.to_biguint (mk w n) = n.
Proof. unfold mk. by destruct (w <=? 128). Qed.
Lemma is_zero_mk w n : Bv.is_zero (mk w n) = (n =? 0).
Proof. unfold mk. by destruct (w <=? 128). Qed.
Lemma mk_inj w a b : mk w a = mk w b ↔ a = b.
Proof. unfold mk. destruct (w <=? 128); naive_solver. Qed.
Lemma bv_eqb_mk w a b : Bv.bv_eqb (mk w a) (mk w b) = (a =? b).
Proof.
  unfold Bv.bv_eqb. apply bool_eq_iff. rewrite bool_decide_eq_true, mk_inj. by rewrite N.eqb_eq.
Qed.

Lemma from_biguint_mk n w : Bv.from_biguint n w = mk w (n mod 2 ^ w).
Proof.
  unfold Bv.from_biguint, mk. destruct (N.leb_spec w 128).
  - rewrite truncating_mod. change (n mod 2 ^ 128) with (u128_wrap n). by rewrite mask_wrap.
  - unfold biguint_mask. by rewrite shiftl_1_ones, N.land_ones.
Qed.

Lemma from_u128_width_mk n w : n < 2 ^ 128 → Bv.from_u128_width n w = mk w (n mod 2 ^ w).
Proof.
  intros Hn. unfold Bv.from_u128_width, mk. destruct (N.leb_spec w 128) as [Hw|Hw].
  - by rewrite mask_mod.
  - f_equal. symmetry. apply N.mod_small. pose proof (N.pow_le_mono_r 2 128 w ltac:(done)). lia.
Qed.

Lemma zero_mk w : Bv.zero w = mk w 0.
Proof. done. Qed.
Lemma one_mk w : Bv.one w = mk w (1 mod 2 ^ w).
Proof. apply from_biguint_mk. Qed.
Lemma ones_mk w : Bv.ones w = mk w (N.ones w).
Proof.
  unfold Bv.ones, mk. destruct (N.leb_spec w 128) as [Hw|Hw].
  - rewrite mask_mod by done. f_equal. change (2 ^ 128 - 1) with (N.ones 128).
    rewrite <-N.land_ones, N.land_comm, N.land_ones. apply N.mod_small.
    rewrite N.ones_equiv. pose proof (N.pow_le_mono_r 2 w 128 ltac:(done) Hw). pose proof (pow2_positive w).
    change (2 ^ 128) with 340282366920938463463374607431768211456 in *. lia.
  - by rewrite <-shiftl_1_ones.
Qed.
Lemma from_bool_mk b : Bv.from_bool b = mk 1 (if b then 1 else 0).
Proof. done. Qed.

Lemma ones_lt w : N.ones w < 2 ^ w.
Proof. rewrite N.ones_equiv. pose proof (pow2_positive w). lia. Qed.

Lemma fits_128 w n : w ≤ 128 → n < 2 ^ w → n < 2 ^ 128.
Proof. intros Hw Hn. pose proof (N.pow_le_mono_r 2 w 128 ltac:(done) Hw). lia. Qed.

(** ** Bits *)

Lemma bits_above n w i : n < 2 ^ w → w ≤ i → N.testbit n i = false.
Proof. intros Hn Hi. rewrite <-(N.mod_small n (2 ^ w)) by done. by apply N.mod_pow2_bits_high. Qed.

Lemma lt_by_bits n w : (∀ i, w ≤ i → N.testbit n i = false) → n < 2 ^ w.
Proof.
  intros H. assert (n = n mod 2 ^ w) as ->; [|apply N.mod_lt, N.pow_nonzero; done].
  apply N.bits_inj. intros i. destruct (N.ltb_spec i w).
  - by rewrite N.mod_pow2_bits_low.
  - by rewrite N.mod_pow2_bits_high, H.
Qed.

Lemma land_lt a b w : a < 2 ^ w → N.land a b < 2 ^ w.
Proof. intros Ha. apply lt_by_bits. intros i Hi. by rewrite N.land_spec, (bits_above a w i). Qed.
Lemma lor_lt a b w : a < 2 ^ w → b < 2 ^ w → N.lor a b < 2 ^ w.
Proof.
  intros Ha Hb. apply lt_by_bits. intros i Hi. by rewrite N.lor_spec, (bits_above a w i), (bits_above b w i).
Qed.
Lemma lxor_lt a b w : a < 2 ^ w → b < 2 ^ w → N.lxor a b < 2 ^ w.
Proof.
  intros Ha Hb. apply lt_by_bits. intros i Hi. by rewrite N.lxor_spec, (bits_above a w i), (bits_above b w i).
Qed.
Lemma shiftr_lt a n w : a < 2 ^ w → N.shiftr a n < 2 ^ w.
Proof. intros Ha. apply lt_by_bits. intros i Hi. rewrite N.shiftr_spec'. apply (bits_above a w); [done|lia]. Qed.
Lemma mod_lt_pow n w : n mod 2 ^ w < 2 ^ w.
Proof. apply N.mod_lt, N.pow_nonzero. done. Qed.

Create HintDb bv.
#[export] Hint Resolve land_lt lor_lt lxor_lt shiftr_lt mod_lt_pow ones_lt pow2_positive : bv.

(** A bit of a value of width [w]. *)
Lemma bit_mk w n i : i < 2 ^ 32 → n < 2 ^ w → Bv.bit (mk w n) i = N.testbit n i.
Proof.
  intros Hi Hn. unfold Bv.bit. rewrite width_mk, (N.mod_small i) by done.
  destruct (N.leb_spec w i) as [Hw|Hw]; [symmetry; by apply (bits_above n w)|].
  unfold mk. by destruct (w <=? 128).
Qed.

Lemma is_negative_mk w n : Bv.is_negative (mk w n) = negb (w =? 0) && N.testbit n (w - 1).
Proof.
  unfold Bv.is_negative. rewrite width_mk. destruct (w =? 0); [done|]. unfold mk. by destruct (w <=? 128).
Qed.

(** ** The operations *)

Lemma binop_mk small wide w a b :
  (∀ x y, x < 2 ^ 128 → y < 2 ^ 128 → w ≤ 128 → mask_u128 (small x y) w = wide x y mod 2 ^ w) →
  a < 2 ^ w → b < 2 ^ w →
  Bv.binop_small_or_wide small wide (mk w a) (mk w b) = Some (mk w (wide a b mod 2 ^ w)).
Proof.
  intros Hs Ha Hb. unfold Bv.binop_small_or_wide. rewrite !width_mk, N.eqb_refl, !biguint_mk, from_biguint_mk.
  f_equal. unfold mk. destruct (N.leb_spec w 128); [|done].
  rewrite Hs; [done|by apply (fits_128 w)|by apply (fits_128 w)|done].
Qed.

Lemma and_mk w a b : a < 2 ^ w → b < 2 ^ w → Bv.and (mk w a) (mk w b) = Some (mk w (N.land a b)).
Proof.
  intros Ha Hb. unfold Bv.and. rewrite (binop_mk N.land N.land) by
    (done || intros; apply mask_mod; auto with bv).
  by rewrite N.mod_small by auto with bv.
Qed.
Lemma or_mk w a b : a < 2 ^ w → b < 2 ^ w → Bv.or (mk w a) (mk w b) = Some (mk w (N.lor a b)).
Proof.
  intros Ha Hb. unfold Bv.or. rewrite (binop_mk N.lor N.lor) by
    (done || intros; apply mask_mod; auto with bv).
  by rewrite N.mod_small by auto with bv.
Qed.
Lemma xor_mk w a b : a < 2 ^ w → b < 2 ^ w → Bv.xor (mk w a) (mk w b) = Some (mk w (N.lxor a b)).
Proof.
  intros Ha Hb. unfold Bv.xor. rewrite (binop_mk N.lxor N.lxor) by
    (done || intros; apply mask_mod; auto with bv).
  by rewrite N.mod_small by auto with bv.
Qed.

Lemma add_mk w a b : a < 2 ^ w → b < 2 ^ w → Bv.add (mk w a) (mk w b) = Some (mk w ((a + b) mod 2 ^ w)).
Proof. apply binop_mk. intros. by apply mask_wrap. Qed.

Lemma not_mk w a : a < 2 ^ w → Bv.not (mk w a) = mk w (N.lxor a (N.ones w)).
Proof.
  intros Ha. unfold Bv.not, mk. destruct (N.leb_spec w 128) as [Hw|Hw].
  - f_equal. unfold u128_not. change (2 ^ 128 - 1) with (N.ones 128).
    rewrite mask_mod; [|done|apply lxor_lt; [by apply (fits_128 w)|done]].
    apply N.bits_inj. intros i. destruct (N.ltb_spec i w) as [Hi|Hi].
    + rewrite N.mod_pow2_bits_low, !N.lxor_spec by done. by rewrite !N.ones_spec_low by lia.
    + rewrite N.mod_pow2_bits_high, N.lxor_spec by done. by rewrite N.ones_spec_high, (bits_above a w).
  - by unfold biguint_mask; rewrite shiftl_1_ones.
Qed.

Lemma sub_wrap a b w : w ≤ 128 → a < 2 ^ w → b < 2 ^ w → (a + 2 ^ 128 - b) mod 2 ^ w = (a + 2 ^ w - b) mod 2 ^ w.
Proof.
  intros Hw Ha Hb. assert (Hp : 2 ^ 128 = 2 ^ w * 2 ^ (128 - w)) by (rewrite <-N.pow_add_r; f_equal; lia).
  rewrite Hp. pose proof (pow2_positive (128 - w)).
  replace (a + 2 ^ w * 2 ^ (128 - w) - b) with (a + 2 ^ w - b + (2 ^ (128 - w) - 1) * 2 ^ w) by nia.
  by rewrite N.Div0.mod_add.
Qed.

Lemma sub_mk w a b :
  a < 2 ^ w → b < 2 ^ w → Bv.sub (mk w a) (mk w b) = Some (mk w ((a + 2 ^ w - b) mod 2 ^ w)).
Proof.
  intros Ha Hb. unfold Bv.sub. rewrite !width_mk, N.eqb_refl, !biguint_mk. f_equal. cbv zeta.
  rewrite N.shiftl_1_l, from_biguint_mk, N.Div0.mod_mod. unfold mk. destruct (N.leb_spec w 128); [|done].
  unfold wrapping_sub. by rewrite mask_wrap, sub_wrap.
Qed.

Lemma mul_mk w a b : a < 2 ^ w → b < 2 ^ w → Bv.mul (mk w a) (mk w b) = Some (mk w ((a * b) mod 2 ^ w)).
Proof.
  intros Ha Hb. unfold Bv.mul. rewrite !width_mk, N.eqb_refl, !biguint_mk. f_equal.
  rewrite from_biguint_mk. unfold mk. destruct (N.leb_spec w 128); [|done].
  destruct (w <=? 64); [|done]. unfold wrapping_mul. by rewrite mask_wrap.
Qed.

Lemma udiv_mk w a b :
  a < 2 ^ w → b < 2 ^ w → Bv.udiv (mk w a) (mk w b) = Some (mk w (if b =? 0 then N.ones w else a / b)).
Proof.
  intros Ha Hb. unfold Bv.udiv. rewrite is_zero_mk, width_mk. destruct (N.eqb_spec b 0); [by rewrite ones_mk|].
  assert (Hd : ∀ x y k, x < 2 ^ k → x / y < 2 ^ k).
  { intros x y k Hx. destruct (decide (y = 0)) as [->|]; [rewrite N.div_0_r; apply pow2_positive|].
    eapply N.le_lt_trans; [|exact Hx]. apply N.Div0.div_le_upper_bound. nia. }
  rewrite (binop_mk N.div N.div) by (done || intros; apply mask_mod; auto).
  by rewrite N.mod_small by auto.
Qed.

Lemma urem_mk w a b :
  a < 2 ^ w → b < 2 ^ w → Bv.urem (mk w a) (mk w b) = Some (mk w (if b =? 0 then a else a mod b)).
Proof.
  intros Ha Hb. unfold Bv.urem. rewrite is_zero_mk. destruct (N.eqb_spec b 0); [done|].
  assert (Hd : ∀ x y k, x < 2 ^ k → x mod y < 2 ^ k).
  { intros x y k Hx. eapply N.le_lt_trans; [|exact Hx]. apply N.Div0.mod_le. }
  rewrite (binop_mk N.modulo N.modulo) by (done || intros; apply mask_mod; auto).
  by rewrite N.mod_small by auto.
Qed.

Lemma neg_mk w a : a < 2 ^ w → Bv.neg (mk w a) = Some (mk w ((2 ^ w - a) mod 2 ^ w)).
Proof. intros Ha. unfold Bv.neg. rewrite width_mk, zero_mk, sub_mk by auto with bv. done. Qed.

Lemma shl_mk w a n : a < 2 ^ w → Bv.shl (mk w a) n = mk w (N.shiftl a n mod 2 ^ w).
Proof.
  intros Ha. unfold Bv.shl. rewrite width_mk. destruct (N.leb_spec w n) as [Hn|Hn].
  - rewrite zero_mk. f_equal. symmetry. apply N.bits_inj_0. intros i. destruct (N.ltb_spec i w).
    + rewrite N.mod_pow2_bits_low, N.shiftl_spec_low by lia. done.
    + by apply N.mod_pow2_bits_high.
  - rewrite <-from_biguint_mk. unfold mk. destruct (N.leb_spec w 128) as [Hw|Hw]; [|done].
    rewrite from_biguint_mk. unfold mk. rewrite (proj2 (N.leb_le w 128) Hw).
    f_equal. by apply mask_wrap.
Qed.

Lemma shr_mk w a n : a < 2 ^ w → Bv.shr (mk w a) n = mk w (N.shiftr a n).
Proof.
  intros Ha. unfold Bv.shr. rewrite width_mk. destruct (N.leb_spec w n) as [Hn|Hn].
  - rewrite zero_mk. f_equal. symmetry. apply N.bits_inj_0. intros i.
    rewrite N.shiftr_spec'. apply (bits_above a w); [done|lia].
  - unfold mk. destruct (w <=? 128) eqn:Hw; [done|].
    rewrite from_biguint_mk. unfold mk. rewrite Hw. f_equal. apply N.mod_small. auto with bv.
Qed.

(** The value of an arithmetic shift: the sign fills the top bits. *)
Definition sra_value (w a n : N) : N :=
  if negb (w =? 0) && N.testbit a (w - 1) then N.lor (N.shiftr a n) (N.shiftl (N.ones w) (w - n) mod 2 ^ w)
  else N.shiftr a n.

Lemma sra_mk w a n : a < 2 ^ w → Bv.sra (mk w a) n = Some (mk w (sra_value w a n)).
Proof.
  intros Ha. unfold Bv.sra, sra_value. rewrite width_mk, is_negative_mk, ones_mk, zero_mk, shr_mk by done.
  destruct (N.leb_spec w n) as [Hn|Hn].
  - f_equal. assert (Hz : N.shiftr a n = 0).
    { apply N.bits_inj_0. intros i. rewrite N.shiftr_spec'. apply (bits_above a w); [done|lia]. }
    rewrite Hz. destruct (_ && _); [|done]. rewrite N.lor_0_l. f_equal.
    replace (w - n) with 0 by lia. rewrite N.shiftl_0_r, N.mod_small by apply ones_lt. done.
  - destruct (_ && _); [|done]. cbn [negb]. rewrite shl_mk by auto with bv. apply or_mk; auto with bv.
Qed.

Lemma concat_mk wh wl h l :
  h < 2 ^ wh → l < 2 ^ wl → wh + wl < 2 ^ 32 → ¬ (wh = 0 ∧ wl = 128) →
  Bv.concat (mk wh h) (mk wl l) = Some (mk (wh + wl) (N.lor (N.shiftl h wl) l)).
Proof.
  intros Hh Hl Hw Hne. unfold Bv.concat, width_add. rewrite !width_mk, !biguint_mk.
  replace (wh + wl <? 2 ^ 32) with true by (symmetry; by apply N.ltb_lt). cbn [mbind option_bind].
  assert (Hlt : N.lor (N.shiftl h wl) l < 2 ^ (wh + wl)).
  { apply lor_lt.
    - rewrite N.shiftl_mul_pow2, N.pow_add_r. pose proof (pow2_positive wl). nia.
    - pose proof (N.pow_le_mono_r 2 wl (wh + wl) ltac:(done) ltac:(lia)). lia. }
  rewrite from_biguint_mk, (N.mod_small _ _ Hlt).
  unfold mk at 1 2. destruct (N.leb_spec wh 128) as [H1|H1], (N.leb_spec wl 128) as [H2|H2]; try done.
  destruct (N.leb_spec (wh + wl) 128) as [H3|H3]; [|done].
  rewrite (proj2 (N.ltb_lt wl 128)) by lia. f_equal.
  unfold mk. rewrite (proj2 (N.leb_le _ 128) H3). f_equal.
  assert (Hs : N.shiftl h wl < 2 ^ 128).
  { rewrite N.shiftl_mul_pow2. apply (fits_128 (wh + wl)); [done|]. rewrite N.pow_add_r. pose proof (pow2_positive wl). nia. }
  unfold u128_shl, u128_wrap. rewrite (N.mod_small _ _ Hs), mask_mod by (done || by apply (fits_128 (wh + wl))).
  by apply N.mod_small.
Qed.

Lemma slice_mk w a hi lo :
  a < 2 ^ w → lo ≤ hi → hi < w →
  Bv.slice (mk w a) hi lo = Some (mk (hi - lo + 1) (N.shiftr a lo mod 2 ^ (hi - lo + 1))).
Proof.
  intros Ha H1 H2. unfold Bv.slice. rewrite width_mk.
  replace (lo <=? hi) with true by (symmetry; by apply N.leb_le).
  replace (hi <? w) with true by (symmetry; by apply N.ltb_lt). cbn [andb]. f_equal. cbv zeta.
  rewrite <-from_biguint_mk. unfold mk. destruct (N.leb_spec w 128) as [Hw|Hw]; [|done].
  rewrite from_biguint_mk. unfold mk. rewrite (proj2 (N.leb_le (hi - lo + 1) 128)) by lia. f_equal.
  apply mask_mod; [lia|]. apply shiftr_lt. by apply (fits_128 w).
Qed.

Lemma lt_wider w a b : a < 2 ^ w → w ≤ b → a < 2 ^ b.
Proof. intros Ha Hb. pose proof (N.pow_le_mono_r 2 w b ltac:(done) Hb). lia. Qed.

Lemma uext_mk w a b : a < 2 ^ w → w + b < 2 ^ 32 → Bv.uext (mk w a) b = Some (mk (w + b) a).
Proof.
  intros Ha Hb. unfold Bv.uext, width_add. rewrite width_mk, biguint_mk.
  replace (w + b <? 2 ^ 32) with true by (symmetry; by apply N.ltb_lt). cbn. f_equal.
  rewrite from_biguint_mk, (N.mod_small a) by (apply (lt_wider w); [done|lia]).
  unfold mk at 1. destruct (w <=? 128); [|done]. unfold mk. by destruct (w + b <=? 128).
Qed.

Definition sext_value (w a b : N) : N :=
  if negb (w =? 0) && N.testbit a (w - 1) then N.lor a (N.shiftl (N.ones (w + b)) w mod 2 ^ (w + b)) else a.

Lemma sext_mk w a b : a < 2 ^ w → w + b < 2 ^ 32 → Bv.sext (mk w a) b = Some (mk (w + b) (sext_value w a b)).
Proof.
  intros Ha Hb. unfold Bv.sext, sext_value, width_add. rewrite width_mk, is_negative_mk.
  replace (w + b <? 2 ^ 32) with true by (symmetry; by apply N.ltb_lt). cbn [mbind option_bind].
  rewrite uext_mk by done. destruct (negb (w =? 0) && N.testbit a (w - 1)) eqn:Hn; [|done]. cbn [negb orb].
  destruct (N.eqb_spec b 0) as [->|Hb0].
  - f_equal. f_equal. rewrite N.add_0_r. apply N.bits_inj. intros i. rewrite N.lor_spec.
    destruct (N.ltb_spec i w).
    + by rewrite N.mod_pow2_bits_low, N.shiftl_spec_low, orb_false_r.
    + by rewrite N.mod_pow2_bits_high, orb_false_r.
  - rewrite ones_mk, shl_mk by auto with bv. apply or_mk; [apply (lt_wider w); [done|lia]|auto with bv].
Qed.

(** The two's-complement reading. *)
Definition signed (w n : N) : Z :=
  if negb (w =? 0) && N.testbit n (w - 1) then (Z.of_N n - 2 ^ Z.of_N w)%Z else Z.of_N n.

Lemma ult_bool_mk w a b : Bv.ult_bool (mk w a) (mk w b) = (a <? b).
Proof. unfold mk. by destruct (w <=? 128). Qed.

Lemma sign_bit w n : 0 < w → n < 2 ^ w → N.testbit n (w - 1) = (2 ^ (w - 1) <=? n).
Proof.
  intros Hw Hn. assert (Hp : 2 ^ w = 2 * 2 ^ (w - 1)) by (rewrite <-N.pow_succ_r'; f_equal; lia).
  rewrite N.testbit_eqb. pose proof (pow2_positive (w - 1)) as Hq.
  destruct (N.leb_spec (2 ^ (w - 1)) n) as [Hl|Hl].
  - assert (n / 2 ^ (w - 1) = 1) as ->; [|done]. symmetry. apply (N.div_unique _ _ _ (n - 2 ^ (w - 1))); lia.
  - by rewrite N.div_small.
Qed.

Lemma slt_bool_mk w a b :
  a < 2 ^ w → b < 2 ^ w → Bv.slt_bool (mk w a) (mk w b) = (signed w a <? signed w b)%Z.
Proof.
  intros Ha Hb. unfold Bv.slt_bool, signed. rewrite !is_negative_mk, ult_bool_mk.
  destruct (N.eqb_spec w 0) as [->|Hw]; cbn [negb andb].
  - apply bool_eq_iff. rewrite N.ltb_lt, Z.ltb_lt. lia.
  - rewrite !sign_bit by (done || lia).
    assert (Hz : (2 ^ Z.of_N w)%Z = Z.of_N (2 ^ w)) by (by rewrite N2Z.inj_pow).
    rewrite Hz. pose proof (pow2_positive w).
    destruct (N.leb_spec (2 ^ (w - 1)) a), (N.leb_spec (2 ^ (w - 1)) b);
      apply bool_eq_iff; rewrite ?N.ltb_lt, ?Z.ltb_lt; split; intros; try done; lia.
Qed.

(** ** Rotations *)

Lemma rol_mk w a n :
  a < 2 ^ w → Bv.rol (mk w a) n =
    Some (mk w (let k := n mod N.max w 1 in
                if k =? 0 then a else N.lor (N.shiftl a k mod 2 ^ w) (N.shiftr a (w - k)))).
Proof.
  intros Ha. unfold Bv.rol. rewrite width_mk. cbv zeta. destruct (n mod N.max w 1 =? 0); [done|].
  rewrite shl_mk, shr_mk by done. apply or_mk; auto with bv.
Qed.

Lemma ror_mk w a n :
  a < 2 ^ w → Bv.ror (mk w a) n =
    Some (mk w (let k := n mod N.max w 1 in
                if k =? 0 then a else N.lor (N.shiftr a k) (N.shiftl a (w - k) mod 2 ^ w))).
Proof.
  intros Ha. unfold Bv.ror. rewrite width_mk. cbv zeta. destruct (n mod N.max w 1 =? 0); [done|].
  rewrite shl_mk, shr_mk by done. apply or_mk; auto with bv.
Qed.

(** ** Bits, least significant first *)

Definition bits (w n : N) : list bool := map (λ i, N.testbit n (N.of_nat i)) (seq 0 (N.to_nat w)).

Lemma length_bits w n : length (bits w n) = N.to_nat w.
Proof. unfold bits. by rewrite length_map, length_seq. Qed.

Lemma lookup_bits w n i : (i < N.to_nat w)%nat → bits w n !! i = Some (N.testbit n (N.of_nat i)).
Proof. intros Hi. unfold bits. rewrite list_lookup_fmap, lookup_seq_lt by done. done. Qed.

Lemma bits_inj w a b : a < 2 ^ w → b < 2 ^ w → bits w a = bits w b → a = b.
Proof.
  intros Ha Hb H. apply N.bits_inj. intros i. destruct (N.ltb_spec i w) as [Hi|Hi].
  - assert (Hn : (N.to_nat i < N.to_nat w)%nat) by lia.
    pose proof (lookup_bits w a _ Hn) as H1. rewrite H, (lookup_bits w b _ Hn) in H1.
    rewrite N2Nat.id in H1. by injection H1.
  - by rewrite (bits_above a w), (bits_above b w).
Qed.

(** The parity of the number of ones. *)
Definition parity (l : list bool) : bool := foldl xorb false l.

Lemma foldl_xorb b l : foldl xorb b l = xorb b (parity l).
Proof.
  unfold parity. revert b. induction l as [|c l IH]; intros b; simpl; [by rewrite xorb_false_r|].
  rewrite IH, (IH c). by rewrite xorb_assoc.
Qed.

Lemma bits_double w n : bits (N.succ w) n = N.odd n :: bits w (N.div2 n).
Proof.
  unfold bits. rewrite N2Nat.inj_succ. cbn [seq map]. f_equal; [by rewrite N.bit0_odd|].
  rewrite <-seq_shift, map_map. apply map_ext. intros i. rewrite Nat2N.inj_succ, N.div2_spec, N.shiftr_spec'.
  f_equal. lia.
Qed.

Definition ones_count (n : N) : N := match n with N0 => 0 | Npos p => Bv.popcount p end.

Lemma ones_count_double n : ones_count n = (if N.odd n then 1 else 0) + ones_count (N.div2 n).
Proof. destruct n as [|[p|p|]]; try done; cbn; lia. Qed.

Lemma parity_ones_count w n : n < 2 ^ w → parity (bits w n) = N.odd (ones_count n).
Proof.
  revert n. induction w as [|w IH] using N.peano_ind; intros n Hn.
  - assert (n = 0) as -> by (simpl in Hn; lia). done.
  - rewrite bits_double, ones_count_double. unfold parity. cbn [foldl]. rewrite foldl_xorb, IH.
    + rewrite N.odd_add. by destruct (N.odd n), (N.odd (ones_count (N.div2 n))).
    + rewrite N.div2_div. apply N.Div0.div_lt_upper_bound. by rewrite <-N.pow_succ_r'.
Qed.

Lemma count_ones_mk w n : Bv.count_ones (mk w n) = ones_count n.
Proof. unfold Bv.count_ones. by rewrite biguint_mk. Qed.

(** C27: The operations are arithmetic modulo [2^w], whichever of the two
    representations a width selects: on values that fit their width none panics,
    sums, differences, products and negation wrap, division by zero gives all
    ones and the remainder by zero the dividend, and the comparisons are those of
    the unsigned and of the two's-complement reading. *)
Theorem bv_operations_correct (w a b : N) (Ha : a < 2 ^ w) (Hb : b < 2 ^ w) :
  Bv.add (mk w a) (mk w b) = Some (mk w ((a + b) mod 2 ^ w)) ∧
  Bv.sub (mk w a) (mk w b) = Some (mk w ((a + 2 ^ w - b) mod 2 ^ w)) ∧
  Bv.mul (mk w a) (mk w b) = Some (mk w ((a * b) mod 2 ^ w)) ∧
  Bv.udiv (mk w a) (mk w b) = Some (mk w (if b =? 0 then N.ones w else a / b)) ∧
  Bv.urem (mk w a) (mk w b) = Some (mk w (if b =? 0 then a else a mod b)) ∧
  Bv.neg (mk w a) = Some (mk w ((2 ^ w - a) mod 2 ^ w)) ∧
  Bv.ult (mk w a) (mk w b) = mk 1 (if a <? b then 1 else 0) ∧
  Bv.slt (mk w a) (mk w b) = mk 1 (if (signed w a <? signed w b)%Z then 1 else 0).
Proof.
  split_and!; auto using add_mk, sub_mk, mul_mk, udiv_mk, urem_mk, neg_mk.
  - unfold Bv.ult. by rewrite ult_bool_mk, from_bool_mk.
  - unfold Bv.slt. by rewrite slt_bool_mk, from_bool_mk.
Qed.

Lemma bv_operations_correct_witness :
  Bv.sub (mk 200 5) (mk 200 7) = Some (mk 200 ((5 + 2 ^ 200 - 7) mod 2 ^ 200)) ∧
  Bv.add (mk 8 250) (mk 8 10) = Some (mk 8 4).
Proof.
  split.
  - apply (bv_operations_correct 200 5 7); reflexivity.
  - apply (bv_operations_correct 8 250 10); reflexivity.
Defined.
