(* ===== verification/Btor2.v ===== *)
(** BTOR2 designs: the tree of [adapter/btor2/ast.rs], the sort rules of
    [parser.rs], the walk of [term_backend.rs] over any backend, and the concrete
    backend and the one-step simulation of [bit_blast.rs].

    A node id is an [i64], here an integer; a [HashMap] is a [gmap].  The walk is
    written against the interface [BvTermBackend]; a computation changes the
    backend and fails, and [None] is a panic.  The parser of [num_bigint] for
    literals is the class [RadixParser]. *)
From S2P Require Import Prelude Bitvec.
From Stdlib Require Import NArith Ascii.
From stdpp Require Import pretty.
Import Bv (Bv, Small, Wide).
Local Open Scope Z_scope.
Local Delimit Scope char_scope with char.

(** ** The tree *)

Abbreviation Nid := Z.
(** A negative operand is the complement of the node. *)
Definition operand_nid (o : Z) : Nid := Z.abs o.
Definition is_negated (o : Z) : bool := o <? 0.

Inductive Sort := BitVec (width : N) | Array (index element : Nid).

Inductive ConstValue := CZero | COne | COnes | CBin (s : string) | CDec (d : Z) | CHex (s : string).

Inductive Op :=
  | Not | Inc | Dec | Neg | Redand | Redor | Redxor
  | Iff | Implies | Eq | Neq | And | Or | Xor | Nand | Nor | Xnor
  | Sgt | Ugt | Sgte | Ugte | Slt | Ult | Slte | Ulte
  | Add | Sub | Mul
  | Sll | Srl | Sra | Rol | Ror
  | Concat | Slice | Uext | Sext | Ite
  | Sdiv | Udiv | Smod | Srem | Urem
  | Saddo | Ssubo | Smulo | Uaddo | Usubo | Umulo | Sdivo
  | Read | Write.

#[export] Instance Op_eq_dec : EqDecision Op.
Proof. solve_decision. Defined.

Inductive Node :=
  | NSort (sort : Sort)
  | NInput (sort : Nid) (symbol : option string)
  | NState (sort : Nid) (symbol : option string)
  | NConst (sort : Nid) (value : ConstValue)
  | NOp (sort : Nid) (op : Op) (args : list Z) (symbol : option string)
  | NInit (sort state : Nid) (value : Z)
  | NNext (sort state : Nid) (value : Z)
  | NBad (signal : Z)
  | NConstraint (signal : Z)
  | NFair (signal : Z)
  | NOutput (signal : Z) (symbol : option string)
  | NJustice (signals : list Z).

Record Line := { nid : Nid; node : Node; immediates : list N }.

Record Btor2File := { lines : list Line; by_nid : gmap Z nat }.

(** The index of a parsed file is in range. *)
Definition lookup_line (f : Btor2File) (n : Nid) : option Line :=
  match by_nid f !! n with Some i => lines f !! i | None => None end.

Definition arity (op : Op) : nat :=
  match op with
  | Not | Inc | Dec | Neg | Redand | Redor | Redxor | Uext | Sext => 1
  | Slice => 1
  | Ite | Write => 3
  | _ => 2
  end.

Definition is_blastable (op : Op) : bool :=
  match op with
  | Sdiv | Udiv | Smod | Srem | Urem | Saddo | Ssubo | Smulo | Uaddo | Usubo | Umulo | Sdivo | Read | Write => false
  | _ => true
  end.

(** ** Sorts *)

Definition bv_width (f : Btor2File) (sort_nid : Nid) : option N :=
  match lookup_line f sort_nid with
  | Some l => match node l with NSort (BitVec w) => Some w | _ => None end
  | None => None
  end.

Definition array_widths (f : Btor2File) (sort_nid : Nid) : option (N * N) :=
  match lookup_line f sort_nid with
  | Some l =>
    match node l with
    | NSort (Array index element) =>
      let* i := bv_width f index in
      let* e := bv_width f element in
      Some (i, e)
    | _ => None
    end
  | None => None
  end.

Definition node_bv_width (f : Btor2File) (n : Nid) : option N :=
  match lookup_line f n with
  | Some l =>
    match node l with
    | NInput sort _ | NState sort _ | NConst sort _ | NOp sort _ _ _ => bv_width f sort
    | _ => None
    end
  | None => None
  end.

(** What the message of [check_sorts] says. *)
Inductive SortError :=
  | PropertyWidth (line : Nid) (what : string) (operand : Nid) (w : N)
  | OperandWidth (line : Nid) (op : Op) (res : N) (i : nat) (w : N)
  | ComparedWidths (line : Nid) (op : Op) (a b : N)
  | ConditionWidth (line : Nid) (w : N)
  | BranchWidth (line : Nid) (res : N) (i : nat) (w : N)
  | StateWidth (line : Nid) (state : Nid) (sw vw : N).

(** The first error of a list of checks. *)
Fixpoint first_error {E} (checks : list (option E)) : Result unit E :=
  match checks with
  | [] => Ok tt
  | Some e :: _ => Err e
  | None :: checks => first_error checks
  end.

Definition check_property (f : Btor2File) (line : Nid) (what : string) (o : Z) : option SortError :=
  match node_bv_width f (operand_nid o) with
  | Some w => if (w =? 1)%N then None else Some (PropertyWidth line what (operand_nid o) w)
  | None => None
  end.

(** A known width that is not the expected one. *)
Definition differs (w : option N) (res : N) : option N :=
  match w with Some w => if (w =? res)%N then None else Some w | None => None end.

Definition check_operands (line : Nid) (op : Op) (res : N) (ws : list (option N)) : list (option SortError) :=
  imap (λ i w, OperandWidth line op res i <$> differs w res) ws.

Definition check_op (f : Btor2File) (line : Nid) (op : Op) (res : N) (args : list Z) : list (option SortError) :=
  let w := map (λ a, node_bv_width f (operand_nid a)) args in
  match op with
  | And | Or | Xor | Nand | Nor | Xnor | Add | Sub | Mul | Udiv | Sdiv | Urem | Srem | Smod
  | Not | Neg | Inc | Dec => check_operands line op res w
  | Eq | Neq | Ugt | Ugte | Ult | Ulte | Sgt | Sgte | Slt | Slte =>
    match w with
    | [Some a; Some b] => [if (a =? b)%N then None else Some (ComparedWidths line op a b)]
    | _ => []
    end
  | Ite =>
    match w with
    | [c; t; e] =>
      [ConditionWidth line <$> differs c 1; BranchWidth line res 1 <$> differs t res;
       BranchWidth line res 2 <$> differs e res]
    | _ => []
    end
  | _ => []
  end.

Definition check_line (f : Btor2File) (l : Line) : list (option SortError) :=
  match node l with
  | NBad s => [check_property f (nid l) "bad" s]
  | NConstraint s => [check_property f (nid l) "constraint" s]
  | NFair s => [check_property f (nid l) "fair" s]
  | NJustice ss => map (check_property f (nid l) "justice") ss
  | NOp sort op args _ =>
    match bv_width f sort with Some res => check_op f (nid l) op res args | None => [] end
  | NInit _ state value | NNext _ state value =>
    match node_bv_width f state, node_bv_width f (operand_nid value) with
    | Some sw, Some vw => [if (sw =? vw)%N then None else Some (StateWidth (nid l) state sw vw)]
    | _, _ => []
    end
  | _ => []
  end.

Definition check_sorts (f : Btor2File) : Result unit SortError :=
  first_error (concat (map (check_line f) (lines f))).

(** ** The walk *)

(** A computation that changes the backend [S] and may fail or panic. *)
Definition Comp (S E A : Type) : Type := S → option (Result A E * S).

Class BvTermBackend (S Value Error : Type) := {
  eval_const : ConstValue → N → Comp S Error Value;
  eval_op : Nid → Op → list N → list Z → N → Comp S Error Value;
  bind_value : Nid → Value → S → S;
  honor_init : S → bool;
  read_operand : S → Z → option Value;
  uf_substitute : Nid → N → S → option Value;
}.

Inductive WalkError (E : Type) := NonBitvecSort (n : Nid) | Unevaluated (n : Nid) | BackendError (e : E).
Arguments NonBitvecSort {E} n.
Arguments Unevaluated {E} n.
Arguments BackendError {E} e.

Section walk.
Context {S Value Error : Type} `{!BvTermBackend S Value Error}.

(** A computed value is bound to the node. *)
Definition bind_result (n : Nid) (c : Comp S Error Value) : Comp S (WalkError Error) unit := λ st,
  match c st with
  | Some (Ok v, st) => Some (Ok tt, bind_value n v st)
  | Some (Err e, st) => Some (Err (BackendError e), st)
  | None => None
  end.

Definition walk_line (f : Btor2File) (l : Line) : Comp S (WalkError Error) unit := λ st,
  match node l with
  | NConst sort value =>
    match bv_width f sort with
    | Some w => bind_result (nid l) (eval_const value w) st
    | None => Some (Err (NonBitvecSort (nid l)), st)
    end
  | NInit _ state value =>
    if honor_init st then
      match read_operand st value with
      | Some v => Some (Ok tt, bind_value state v st)
      | None => Some (Err (Unevaluated (nid l)), st)
      end
    else Some (Ok tt, st)
  | NOp sort op args _ =>
    match bv_width f sort with
    | None =>
      match array_widths f sort with
      | Some _ => Some (Ok tt, st)
      | None => Some (Err (NonBitvecSort (nid l)), st)
      end
    | Some w =>
      match uf_substitute (nid l) w st with
      | Some v => Some (Ok tt, bind_value (nid l) v st)
      | None => bind_result (nid l) (eval_op (nid l) op (immediates l) args w) st
      end
    end
  | _ => Some (Ok tt, st)
  end.

Fixpoint walk_lines (f : Btor2File) (ls : list Line) : Comp S (WalkError Error) unit := λ st,
  match ls with
  | [] => Some (Ok tt, st)
  | l :: ls =>
    match walk_line f l st with
    | Some (Ok _, st) => walk_lines f ls st
    | r => r
    end
  end.

Definition walk_design (f : Btor2File) : Comp S (WalkError Error) unit := walk_lines f (lines f).
End walk.

(** ** The concrete backend *)

(** [BigUint::parse_bytes] and its documented value on binary literals. *)
Fixpoint binary_value (acc : N) (s : string) : N :=
  match s with
  | EmptyString => acc
  | String c s => binary_value (2 * acc + (if Ascii.eqb c "1"%char then 1 else 0)) s
  end.
Fixpoint binary_digits (s : string) : bool :=
  match s with
  | EmptyString => true
  | String c s => (Ascii.eqb c "0"%char || Ascii.eqb c "1"%char) && binary_digits s
  end.

Class RadixParser := {
  parse_bytes : string → N → option N;
  parse_bytes_binary s : s ≠ "" → binary_digits s = true → parse_bytes s 2 = Some (binary_value 0 s);
}.

Abbreviation Env := (gmap Z Bv).

Definition env_operand (env : Env) (o : Z) : option Bv :=
  match env !! operand_nid o with
  | Some v => Some (if is_negated o then Bv.not v else v)
  | None => None
  end.

Inductive EvalError :=
  | OperandUnevaluated (n : Nid)
  | BadLiteral
  | SliceMissing
  | UnsupportedOperator (op : Op).

(** [eval_const_value]: the negation of [i128::MIN] overflows. *)
Definition eval_const_value `{!RadixParser} (value : ConstValue) (w : N) : option (Result Bv EvalError) :=
  match value with
  | CZero => Some (Ok (Bv.zero w))
  | COne => Some (Ok (Bv.one w))
  | COnes => Some (Ok (Bv.ones w))
  | CBin s => Some (match parse_bytes s 2 with Some mag => Ok (Bv.from_biguint mag w) | None => Err BadLiteral end)
  | CDec d =>
    if 0 <=? d then Some (Ok (Bv.from_biguint (Z.to_N d) w))
    else if d =? - 2 ^ 127 then None
    else
      let modulus := N.shiftl 1 w in
      let abs := (Z.to_N (- d) mod modulus)%N in
      Some (Ok (Bv.from_biguint ((modulus - abs) mod modulus)%N w))
  | CHex s => Some (match parse_bytes s 16 with Some mag => Ok (Bv.from_biguint mag w) | None => Err BadLiteral end)
  end.

Definition shl_amount (a b : Bv) : N :=
  let w := Bv.width a in
  if (Bv.width b <=? 128)%N then N.min (Bv.low128 b) w
  else if Bv.is_zero (Bv.ugte b (Bv.from_u128_width w (Bv.width b))) then (Bv.low128 b mod 2 ^ 32)%N
  else w.
Definition rot_amount (a b : Bv) : N := ((Bv.low128 b mod 2 ^ 32) mod N.max (Bv.width a) 1)%N.

(** The operands of an operator; [None] is an index out of bounds. *)
Definition read (env : Env) (args : list Z) (i : nat) : option (Result Bv EvalError) :=
  match args !! i with
  | Some o => Some (match env_operand env o with Some v => Ok v | None => Err (OperandUnevaluated (operand_nid o)) end)
  | None => None
  end.

Definition unary (env : Env) (args : list Z) (f : Bv → option Bv) : option (Result Bv EvalError) :=
  let? a := read env args 0 in Ok <$> f a.
Definition binary (env : Env) (args : list Z) (f : Bv → Bv → option Bv) : option (Result Bv EvalError) :=
  let? a := read env args 0 in
  let? b := read env args 1 in Ok <$> f a b.
Definition compare (env : Env) (args : list Z) (f : Bv → Bv → Bv) : option (Result Bv EvalError) :=
  binary env args (λ a b, Some (f a b)).

Definition eval_op_concrete (op : Op) (immediates : list N) (args : list Z) (width : N) (env : Env)
    : option (Result Bv EvalError) :=
  match op with
  | Not => unary env args (λ v, Some (Bv.not v))
  | Inc => unary env args (λ v, Bv.add v (Bv.one (Bv.width v)))
  | Dec => unary env args (λ v, Bv.sub v (Bv.one (Bv.width v)))
  | Neg => unary env args Bv.neg
  | Redand => unary env args (λ v, Some (Bv.from_bool (Bv.bv_eqb v (Bv.ones (Bv.width v)))))
  | Redor => unary env args (λ v, Some (Bv.from_bool (Bv.is_nonzero v)))
  | Redxor => unary env args (λ v, Some (Bv.from_bool (N.odd (Bv.count_ones v))))
  | Iff | Eq => compare env args Bv.eq_bv
  | Implies => compare env args (λ a b, Bv.from_bool (negb (Bv.to_bool a) || Bv.to_bool b))
  | Neq => compare env args Bv.ne_bv
  | And => binary env args Bv.and
  | Or => binary env args Bv.or
  | Xor => binary env args Bv.xor
  | Nand => binary env args (λ a b, Bv.not <$> Bv.and a b)
  | Nor => binary env args (λ a b, Bv.not <$> Bv.or a b)
  | Xnor => binary env args (λ a b, Bv.not <$> Bv.xor a b)
  | Add => binary env args Bv.add
  | Sub => binary env args Bv.sub
  | Mul => binary env args Bv.mul
  | Ult => compare env args Bv.ult
  | Ulte => compare env args Bv.ulte
  | Ugt => compare env args Bv.ugt
  | Ugte => compare env args Bv.ugte
  | Slt => compare env args Bv.slt
  | Slte => compare env args Bv.slte
  | Sgt => compare env args Bv.sgt
  | Sgte => compare env args Bv.sgte
  | Sll => binary env args (λ a b, Some (Bv.shl a (shl_amount a b)))
  | Srl => binary env args (λ a b, Some (Bv.shr a (shl_amount a b)))
  | Sra => binary env args (λ a b, Bv.sra a (shl_amount a b))
  | Rol => binary env args (λ a b, Bv.rol a (rot_amount a b))
  | Ror => binary env args (λ a b, Bv.ror a (rot_amount a b))
  | Concat => binary env args Bv.concat
  | Slice =>
    let? a := read env args 0 in
    match immediates with
    | upper :: lower :: _ => Ok <$> Bv.slice a upper lower
    | _ => Some (Err SliceMissing)
    end
  | Uext =>
    let? a := read env args 0 in
    if (width <? Bv.width a)%N then None else Ok <$> Bv.uext a (width - Bv.width a)
  | Sext =>
    let? a := read env args 0 in
    if (width <? Bv.width a)%N then None else Ok <$> Bv.sext a (width - Bv.width a)
  | Ite =>
    let? c := read env args 0 in
    let? t := read env args 1 in
    let? e := read env args 2 in Some (Ok (if Bv.to_bool c then t else e))
  | _ => Some (Err (UnsupportedOperator op))
  end.

Inductive UfRepresentative := UfZero | UfOnes.
Definition to_value (rep : UfRepresentative) (w : N) : Bv :=
  match rep with UfZero => Bv.zero w | UfOnes => Bv.ones w end.

Record ConcreteBackend := {
  env : Env;
  honors_init : bool;
  uf_wrapped_nids : option (gset Z);
  rep : UfRepresentative;
}.

Definition with_env (b : ConcreteBackend) (e : Env) : ConcreteBackend :=
  {| env := e; honors_init := honors_init b; uf_wrapped_nids := uf_wrapped_nids b; rep := rep b |}.

(** A pure evaluation leaves the backend as it is. *)
Definition pure_eval {S E A} (r : option (Result A E)) : Comp S E A := λ st,
  match r with Some r => Some (r, st) | None => None end.

#[export] Instance concrete_backend `{!RadixParser} : BvTermBackend ConcreteBackend Bv EvalError := {
  eval_const value w := pure_eval (eval_const_value value w);
  eval_op _ op immediates args w := λ b, pure_eval (eval_op_concrete op immediates args w (env b)) b;
  bind_value n v b := with_env b (<[n := v]> (env b));
  honor_init := honors_init;
  read_operand b o := env_operand (env b) o;
  uf_substitute n w b :=
    match uf_wrapped_nids b with
    | Some wrapped => if decide (n ∈ wrapped) then Some (to_value (rep b) w) else None
    | None => None
    end;
}.

(** ** One step of a design *)

Inductive StepError :=
  | WalkFailed (e : WalkError EvalError)
  | UnevaluatedNext (line : Nid)
  | UnevaluatedConstraint (line : Nid) (signal : Nid).

Section step.
Context `{!RadixParser}.

Definition evaluate_pure_with_uf_rep (f : Btor2File) (e : Env) (honor : bool) (wrapped : option (gset Z))
    (r : UfRepresentative) : option (Result unit StepError * Env) :=
  match walk_design f {| env := e; honors_init := honor; uf_wrapped_nids := wrapped; rep := r |} with
  | Some (Ok _, b) => Some (Ok tt, env b)
  | Some (Err err, b) => Some (Err (WalkFailed err), env b)
  | None => None
  end.

Definition evaluate_pure_with_uf f e honor wrapped := evaluate_pure_with_uf_rep f e honor wrapped UfZero.
Definition evaluate_pure f e honor := evaluate_pure_with_uf f e honor None.

(** The updates of the [next] lines, then their commit. *)
Fixpoint next_updates (ls : list Line) (e : Env) : Result (list (Nid * Bv)) StepError :=
  match ls with
  | [] => Ok []
  | l :: ls =>
    match node l with
    | NNext _ state value =>
      match env_operand e value with
      | None => Err (UnevaluatedNext (nid l))
      | Some v =>
        match next_updates ls e with Ok us => Ok ((state, v) :: us) | Err err => Err err end
      end
    | _ => next_updates ls e
    end
  end.

Definition apply_next (f : Btor2File) (e : Env) : Result Env StepError :=
  match next_updates (lines f) e with
  | Ok us => Ok (foldl (λ e u, <[u.1 := u.2]> e) e us)
  | Err err => Err err
  end.

Fixpoint constraints_hold_lines (ls : list Line) (e : Env) : Result bool StepError :=
  match ls with
  | [] => Ok true
  | l :: ls =>
    match node l with
    | NConstraint signal =>
      match env_operand e signal with
      | None => Err (UnevaluatedConstraint (nid l) (operand_nid signal))
      | Some v => if negb (Bv.to_bool v) then Ok false else constraints_hold_lines ls e
      end
    | _ => constraints_hold_lines ls e
    end
  end.
Definition constraints_hold (f : Btor2File) (e : Env) : Result bool StepError := constraints_hold_lines (lines f) e.

Record StateMeta := { sm_nid : Nid; sm_width : N; sm_symbol : string }.

(** The name of a cell: its symbol, or one made of its id. *)
Definition step_name (symbols : gmap Z string) (tag : string) (n : Nid) : string :=
  match symbols !! n with Some s => s | None => (tag +:+ pretty n)%string end.

Definition meta_of (f : Btor2File) (symbols : gmap Z string) (tag : string) (l : Line) (sort : Nid) : StateMeta :=
  {| sm_nid := nid l; sm_width := default 0%N (bv_width f sort); sm_symbol := step_name symbols tag (nid l) |}.

Definition state_metas (f : Btor2File) (symbols : gmap Z string) : list StateMeta :=
  omap (λ l, match node l with NState sort _ => Some (meta_of f symbols "st_n" l sort) | _ => None end) (lines f).
Definition input_metas (f : Btor2File) (symbols : gmap Z string) : list StateMeta :=
  omap (λ l, match node l with NInput sort _ => Some (meta_of f symbols "in_n" l sort) | _ => None end) (lines f).

(** The cells take the given values; a missing one is zero. *)
Definition seed_cells (values : gmap string N) (cells : list StateMeta) (e : Env) : Env :=
  foldl (λ e sm, <[sm_nid sm := Bv.from_u128_width (default 0%N (values !! sm_symbol sm)) (sm_width sm)]> e) e cells.

(** The states are read back by name. *)
Definition read_cells (e : Env) (cells : list StateMeta) : gmap string N :=
  foldl (λ out sm,
    <[sm_symbol sm := match e !! sm_nid sm with Some v => Bv.low128 v | None => 0%N end]> out) ∅ cells.

(** [symbol_to_input_nid]: of two inputs of one name the later is kept. *)
Definition inputs_by_symbol (f : Btor2File) (symbols : gmap Z string) : gmap string StateMeta :=
  foldl (λ m sm, <[sm_symbol sm := sm]> m) ∅ (input_metas f symbols).

Definition step_env (f : Btor2File) (e : Env) (wrapped : option (gset Z)) (r : UfRepresentative)
    : option (Result Env StepError) :=
  match evaluate_pure_with_uf_rep f e false wrapped r with
  | Some (Ok _, e) => Some (apply_next f e)
  | Some (Err err, _) => Some (Err err)
  | None => None
  end.

(** [symbols] is what [collect_symbols] returns. *)
Definition simulate_one_step (f : Btor2File) (symbols : gmap Z string) (register_values input_values : gmap string N)
    : option (Result (gmap string N) StepError) :=
  let states := state_metas f symbols in
  let e := seed_cells register_values states ∅ in
  let e := seed_cells input_values (map_to_list (inputs_by_symbol f symbols)).*2 e in
  let? e := step_env f e None UfZero in
  Some (Ok (read_cells e states)).
(** *** [PreparedStep] *)

Record PreparedStep := {
  file : Btor2File;
  states : list StateMeta;
  inputs : list StateMeta;
  op_nid : gmap string Nid;
  out_sig_nid : gmap string Nid;
  si_nid : gmap string Nid;
}.

Record StepOutcome := { next_state : gmap string N; observed : gmap string N; admissible : bool }.

(** [entry(s).or_insert(nid)] over the named lines. *)
Definition first_named (named : Line → option (string * Nid)) (ls : list Line) : gmap string Nid :=
  foldl (λ m l, match named l with
                | Some (s, n) => match m !! s with Some _ => m | None => <[s := n]> m end
                | None => m
                end) ∅ ls.

Definition prepare (f : Btor2File) (symbols : gmap Z string) : PreparedStep := {|
  file := f;
  states := state_metas f symbols;
  inputs := input_metas f symbols;
  op_nid := first_named (λ l, match node l with NOp _ _ _ (Some s) => Some (s, nid l) | _ => None end) (lines f);
  out_sig_nid :=
    first_named (λ l, match node l with NOutput signal (Some s) => Some (s, operand_nid signal) | _ => None end) (lines f);
  si_nid :=
    first_named (λ l, match node l with NState _ (Some s) | NInput _ (Some s) => Some (s, nid l) | _ => None end) (lines f);
|}.

(** An operator, then the signal of an output, then a cell. *)
Definition resolve_observed (p : PreparedStep) (name : string) : option Nid :=
  match op_nid p !! name with
  | Some n => Some n
  | None => match out_sig_nid p !! name with Some n => Some n | None => si_nid p !! name end
  end.

Definition observe_all (p : PreparedStep) (e : Env) (observe : list string) : gmap string N :=
  foldl (λ out name,
    match resolve_observed p name with
    | Some n => match e !! n with Some v => <[name := Bv.low128 v]> out | None => out end
    | None => out
    end) ∅ observe.

Definition step (p : PreparedStep) (register_values input_values : gmap string N) (observe : list string)
    : option (Result StepOutcome StepError) :=
  let e := seed_cells register_values (states p) ∅ in
  let e := seed_cells input_values (inputs p) e in
  match evaluate_pure (file p) e false with
  | Some (Ok _, e) =>
    match constraints_hold (file p) e with
    | Err err => Some (Err err)
    | Ok adm =>
      match apply_next (file p) e with
      | Err err => Some (Err err)
      | Ok e' =>
        Some (Ok {| next_state := read_cells e' (states p); observed := observe_all p e observe; admissible := adm |})
      end
    end
  | Some (Err err, _) => Some (Err err)
  | None => None
  end.
End step.
