(* ===== verification/Btor2Spec.v ===== *)
(** The meaning of a BTOR2 design on numbers, and that the walk of
    [term_backend.rs] computes it over every backend that implements the
    operators.

    [op_value] is the reference meaning of an operator, [sorted_file] the sort
    rules of the language with definitions before uses, [Implements] what a
    backend promises.  [walk_implements] is proved once against that interface;
    the concrete backend discharges it here, the bit-blaster in
    [BitBlastCorrect]. *)
From S2P Require Import Prelude Bitvec Btor2.
From Stdlib Require Import NArith.
Import Bv (Bv, Small, Wide).
Local Open Scope N_scope.

(** ** Operators *)

Definition bool_value (b : bool) : N := if b then 1 else 0.

(** The value of an operator of result width [w] on operands given by their
    widths and values. *)
Definition op_value (op : Op) (immediates : list N) (args : list (N * N)) (w : N) : N :=
  match op, args with
  | Not, [(_, a)] => N.lxor a (N.ones w)
  | Inc, [(_, a)] => (a + 1) mod 2 ^ w
  | Dec, [(_, a)] => (a + 2 ^ w - 1) mod 2 ^ w
  | Neg, [(_, a)] => (2 ^ w - a) mod 2 ^ w
  | Redand, [(wa, a)] => bool_value (a =? N.ones wa)
  | Redor, [(_, a)] => bool_value (negb (a =? 0))
  | Redxor, [(_, a)] => bool_value (N.odd (ones_count a))
  | (Iff | Eq), [(_, a); (_, b)] => bool_value (a =? b)
  | Neq, [(_, a); (_, b)] => bool_value (negb (a =? b))
  | Implies, [(_, a); (_, b)] => bool_value ((a =? 0) || negb (b =? 0))
  | And, [(_, a); (_, b)] => N.land a b
  | Or, [(_, a); (_, b)] => N.lor a b
  | Xor, [(_, a); (_, b)] => N.lxor a b
  | Nand, [(_, a); (_, b)] => N.lxor (N.land a b) (N.ones w)
  | Nor, [(_, a); (_, b)] => N.lxor (N.lor a b) (N.ones w)
  | Xnor, [(_, a); (_, b)] => N.lxor (N.lxor a b) (N.ones w)
  | Add, [(_, a); (_, b)] => (a + b) mod 2 ^ w
  | Sub, [(_, a); (_, b)] => (a + 2 ^ w - b) mod 2 ^ w
  | Mul, [(_, a); (_, b)] => (a * b) mod 2 ^ w
  | Ult, [(_, a); (_, b)] => bool_value (a <? b)
  | Ulte, [(_, a); (_, b)] => bool_value (a <=? b)
  | Ugt, [(_, a); (_, b)] => bool_value (b <? a)
  | Ugte, [(_, a); (_, b)] => bool_value (b <=? a)
  | Slt, [(wa, a); (_, b)] => bool_value (signed wa a <? signed wa b)%Z
  | Slte, [(wa, a); (_, b)] => bool_value (signed wa a <=? signed wa b)%Z
  | Sgt, [(wa, a); (_, b)] => bool_value (signed wa b <? signed wa a)%Z
  | Sgte, [(wa, a); (_, b)] => bool_value (signed wa b <=? signed wa a)%Z
  | Sll, [(_, a); (_, b)] => N.shiftl a (N.min b w) mod 2 ^ w
  | Srl, [(_, a); (_, b)] => N.shiftr a (N.min b w)
  | Sra, [(_, a); (_, b)] => sra_value w a (N.min b w)
  | Rol, [(_, a); (_, b)] =>
    let k := b mod N.max w 1 in
    if k =? 0 then a else N.lor (N.shiftl a k mod 2 ^ w) (N.shiftr a (w - k))
  | Ror, [(_, a); (_, b)] =>
    let k := b mod N.max w 1 in
    if k =? 0 then a else N.lor (N.shiftr a k) (N.shiftl a (w - k) mod 2 ^ w)
  | Concat, [(_, a); (wb, b)] => N.lor (N.shiftl a wb) b
  | Slice, [(_, a)] => match immediates with _ :: lower :: _ => N.shiftr a lower mod 2 ^ w | _ => 0 end
  | Uext, [(_, a)] => a
  | Sext, [(wa, a)] => sext_value wa a (w - wa)
  | Ite, [(_, c); (_, t); (_, e)] => if c =? 0 then e else t
  | _, _ => 0
  end.

(** The sort rules; a signed comparison needs a sign bit, and an empty high part
    of a concatenation is refused where the code's shift overflows. *)
Definition op_sorted (op : Op) (immediates : list N) (ws : list N) (w : N) : bool :=
  match op, ws with
  | (Not | Inc | Dec | Neg), [a] => a =? w
  | (Redand | Redor | Redxor), [_] => w =? 1
  | Implies, [_; _] => w =? 1
  | (Iff | Eq | Neq | Ult | Ulte | Ugt | Ugte), [a; b] => (a =? b) && (w =? 1)
  | (Slt | Slte | Sgt | Sgte), [a; b] => (a =? b) && (0 <? a) && (w =? 1)
  | (And | Or | Xor | Nand | Nor | Xnor | Add | Sub | Mul), [a; b] => (a =? w) && (b =? w)
  | (Sll | Srl | Sra | Rol | Ror), [a; _] => a =? w
  | Concat, [a; b] => (a + b =? w) && negb ((a =? 0) && (b =? 128))
  | Slice, [a] =>
    match immediates with
    | upper :: lower :: _ => (lower <=? upper) && (upper <? a) && (upper - lower + 1 =? w)
    | _ => false
    end
  | (Uext | Sext), [a] => a <=? w
  | Ite, [c; t; e] => (c =? 1) && (t =? w) && (e =? w)
  | _, _ => false
  end.

Definition complement_if (neg : bool) (w n : N) : N := if neg then N.lxor n (N.ones w) else n.

(** A literal that every backend reads, with its value. *)
Definition const_value (value : ConstValue) (w : N) : option N :=
  match value with
  | CZero => Some 0
  | COne => Some (1 mod 2 ^ w)
  | COnes => Some (N.ones w)
  | CBin s => if negb (String.eqb s "") && binary_digits s then Some (binary_value 0 s mod 2 ^ w) else None
  | CDec d =>
    if (0 <=? d)%Z then Some (Z.to_N d mod 2 ^ w)
    else if (d =? - 2 ^ 127)%Z then None
    else Some ((2 ^ w - Z.to_N (- d) mod 2 ^ w) mod 2 ^ w)
  | CHex _ => None
  end.

(** ** Designs *)

(** The values of the nodes, with their widths. *)
Abbreviation Values := (gmap Z (N * N)).

Definition operand_value (vals : Values) (o : Z) : option (N * N) :=
  match vals !! operand_nid o with
  | Some (w, n) => Some (w, complement_if (is_negated o) w n)
  | None => None
  end.

(** One line: [None] when the line breaks the rules. *)
Definition spec_line (f : Btor2File) (l : Line) (vals : Values) : option Values :=
  match node l with
  | NConst sort value =>
    let* w := bv_width f sort in
    let* n := const_value value w in
    if w <? 2 ^ 32 then Some (<[nid l := (w, n)]> vals) else None
  | NOp sort op args _ =>
    match bv_width f sort with
    | Some w =>
      let* operands := mapM (operand_value vals) args in
      if op_sorted op (immediates l) operands.*1 w && (w <? 2 ^ 32) then
        Some (<[nid l := (w, op_value op (immediates l) operands w)]> vals)
      else None
    | None => match array_widths f sort with Some _ => Some vals | None => None end
    end
  | _ => Some vals
  end.

Fixpoint spec_lines (f : Btor2File) (ls : list Line) (vals : Values) : option Values :=
  match ls with
  | [] => Some vals
  | l :: ls => let* vals' := spec_line f l vals in spec_lines f ls vals'
  end.

Definition design_values (f : Btor2File) (leaves : Values) : option Values := spec_lines f (lines f) leaves.

(** Every value fits its width. *)
Definition fits (vals : Values) : Prop := ∀ n w v, vals !! n = Some (w, v) → v < 2 ^ w ∧ w < 2 ^ 32.

Definition line_op (l : Line) : option Op := match node l with NOp _ op _ _ => Some op | _ => None end.
Definition uses_only (supported : Op → bool) (f : Btor2File) : Prop :=
  ∀ l op, l ∈ lines f → line_op l = Some op → supported op = true.

(** Every operator is supported at the widths of its operands and result. *)
Definition line_within (supported : Op → list N → N → bool) (f : Btor2File) (l : Line) (vals : Values) : bool :=
  match node l with
  | NOp sort op args _ =>
    match bv_width f sort, mapM (operand_value vals) args with
    | Some w, Some operands => supported op operands.*1 w
    | _, _ => true
    end
  | _ => true
  end.

Fixpoint lines_within (supported : Op → list N → N → bool) (f : Btor2File) (ls : list Line) (vals : Values) : bool :=
  match ls with
  | [] => true
  | l :: ls =>
    line_within supported f l vals &&
    match spec_line f l vals with Some vals' => lines_within supported f ls vals' | None => true end
  end.

(** The amount of a rotation is cut to 32 bits before it is reduced modulo the
    width; that changes nothing where the operand has 32 bits or the width divides
    [2 ^ 32]. *)
Definition rotation_fits (op : Op) (ws : list N) (w : N) : bool :=
  match op, ws with
  | (Rol | Ror), [_; wb] => (wb <=? 32) || (2 ^ 32 mod N.max w 1 =? 0)
  | _, _ => true
  end.
Definition rotations_fit (f : Btor2File) (leaves : Values) : bool := lines_within rotation_fits f (lines f) leaves.

Lemma uses_only_within (supported : Op → bool) f vals :
  uses_only supported f → lines_within (λ op _ _, supported op) f (lines f) vals = true.
Proof.
  unfold uses_only. generalize (lines f). intros ls. revert vals. induction ls as [|l ls IH]; intros vals Hop; [done|].
  cbn [lines_within]. apply andb_true_intro. split.
  - unfold line_within. destruct (node l) eqn:Hl; try done. destruct (bv_width f sort); [|done].
    destruct (mapM (operand_value vals) args); [|done]. apply (Hop l); [by left|]. unfold line_op. by rewrite Hl.
  - destruct (spec_line f l vals) as [vals'|]; [|done]. apply IH. intros l' op Hin. apply Hop. by right.
Qed.

Lemma lines_within_mono (p q : Op → list N → N → bool) f ls vals :
  (∀ op ws w, p op ws w = true → q op ws w = true) → lines_within p f ls vals = true → lines_within q f ls vals = true.
Proof.
  intros Hpq. revert vals. induction ls as [|l ls IH]; intros vals; [done|]. cbn [lines_within].
  intros [Hl Hls]%andb_prop. apply andb_true_intro. split.
  - unfold line_within in *. destruct (node l); try done. destruct (bv_width f sort), (mapM (operand_value vals) args); auto.
  - destruct (spec_line f l vals); auto.
Qed.

(** ** The values fit *)

Lemma bool_value_lt b : bool_value b < 2 ^ 1.
Proof. by destruct b. Qed.
#[export] Hint Resolve bool_value_lt : bv.

Lemma sra_value_lt w a n : a < 2 ^ w → sra_value w a n < 2 ^ w.
Proof. intros Ha. unfold sra_value. destruct (_ && _); auto with bv. Qed.

Lemma sext_value_lt w a b : a < 2 ^ w → sext_value w a b < 2 ^ (w + b).
Proof.
  intros Ha. unfold sext_value. assert (a < 2 ^ (w + b)) by (apply (lt_wider w); [done|lia]).
  destruct (_ && _); auto with bv.
Qed.

Lemma concat_lt wh wl h l : h < 2 ^ wh → l < 2 ^ wl → N.lor (N.shiftl h wl) l < 2 ^ (wh + wl).
Proof.
  intros Hh Hl. apply lor_lt.
  - rewrite N.shiftl_mul_pow2, N.pow_add_r. pose proof (pow2_positive wl). nia.
  - apply (lt_wider wl); [done|lia].
Qed.
#[export] Hint Resolve sra_value_lt sext_value_lt concat_lt : bv.

Lemma not_both x y n m : negb ((x =? n) && (y =? m)) = true → ¬ (x = n ∧ y = m).
Proof. rewrite negb_true_iff, andb_false_iff, !N.eqb_neq. tauto. Qed.

(** The sort rules give the number and the widths of the operands. *)
Ltac sorted_operands operands Hs :=
  let a := fresh "a" in let b := fresh "b" in let c := fresh "c" in
  destruct operands as [|[? a] [|[? b] [|[? c] [|? operands]]]];
  cbn [fmap list_fmap fst op_sorted] in Hs; try discriminate Hs;
  repeat match type of Hs with (match ?l with _ => _ end) = true => destruct l; try discriminate Hs end;
  repeat match goal with
    | H : _ && _ = true |- _ => apply andb_prop in H as [? ?]
    | H : negb (_ && _) = true |- _ => apply not_both in H
    | H : (_ =? _) = true |- _ => apply N.eqb_eq in H
    | H : (_ <? _) = true |- _ => apply N.ltb_lt in H
    | H : (_ <=? _) = true |- _ => apply N.leb_le in H
    end; subst.

Definition in_range (o : N * N) : Prop := o.2 < 2 ^ o.1 ∧ o.1 < 2 ^ 32.

Lemma op_value_lt op imms operands w :
  Forall in_range operands → op_sorted op imms operands.*1 w = true → op_value op imms operands w < 2 ^ w.
Proof.
  intros Hr Hs. destruct op; sorted_operands operands Hs;
    repeat match goal with H : Forall _ (_ :: _) |- _ => apply Forall_cons in H as [[??] ?] end;
    cbn [op_value fst snd] in *; cbv zeta; try solve [auto 6 with bv | case_match; auto with bv | eauto using lt_wider].
  match goal with |- sext_value ?n _ _ < 2 ^ ?w => replace w with (n + (w - n)) at 2 by lia end. auto with bv.
Qed.

Lemma complement_lt neg w n : n < 2 ^ w → complement_if neg w n < 2 ^ w.
Proof. intros Hn. destruct neg; cbn [complement_if]; auto with bv. Qed.

Lemma const_value_lt value w n : const_value value w = Some n → n < 2 ^ w.
Proof.
  destruct value; cbn [const_value]; intros H; try (injection H as <-); try discriminate;
    auto using pow2_positive with bv.
  - case_match; [injection H as <-; auto with bv|done].
  - repeat case_match; try done; injection H as <-; auto with bv.
Qed.

Lemma operand_in_range vals o x : fits vals → operand_value vals o = Some x → in_range x.
Proof.
  unfold operand_value. intros Hf H. destruct (vals !! operand_nid o) as [[w n]|] eqn:Ho; [|done].
  injection H as <-. destruct (Hf _ _ _ Ho). by split; [apply complement_lt|].
Qed.

(** ** What a backend promises *)

(** [get] reads the value bound to a node, [rel w n v] says that [v] stands for
    [n] at width [w], [ready] is kept by the walk, and [reliable] is what the
    backend needs never to give up.  A computation keeps the bindings. *)
Section interface.
Context {S Value Error : Type} `{!BvTermBackend S Value Error}.
Context (get : S → Z → option Value) (rel : N → N → Value → Prop).
Context (ready : S → Prop) (reliable : Prop) (supported : Op → list N → N → bool).

Definition holds (vals : Values) (st : S) : Prop :=
  ∀ n w v, vals !! n = Some (w, v) → ∃ x, get st n = Some x ∧ rel w v x.

Definition computes (w n : N) (st : S) (r : option (Result Value Error * S)) : Prop :=
  match r with
  | Some (Ok x, st') => rel w n x ∧ ready st' ∧ ∀ k, get st' k = get st k
  | Some (Err _, st') => ¬ reliable
  | None => False
  end.

Class Implements : Prop := {
  impl_const value w n st :
    ready st → w < 2 ^ 32 → const_value value w = Some n → computes w n st (eval_const value w st);
  impl_op vals k op imms args operands w st :
    ready st → fits vals → holds vals st → w < 2 ^ 32 → supported op operands.*1 w = true →
    mapM (operand_value vals) args = Some operands → op_sorted op imms operands.*1 w = true →
    computes w (op_value op imms operands w) st (eval_op k op imms args w st);
  impl_bind n v st : ready st → ready (bind_value n v st);
  impl_get n v st k : get (bind_value n v st) k = if decide (k = n) then Some v else get st k;
  impl_init st : ready st → honor_init st = false;
  impl_uf n w st : ready st → uf_substitute n w st = None;
}.

Context `{!Implements}.

Definition related (vals : Values) (st : S) : Prop := ready st ∧ fits vals ∧ holds vals st.

Lemma bind_related vals k w n st x :
  fits vals → holds vals st → n < 2 ^ w → w < 2 ^ 32 → ∀ st', rel w n x → ready st' →
  (∀ j, get st' j = get st j) → related (<[k := (w, n)]> vals) (bind_value k x st').
Proof using All.
  intros Hf Hh Hn Hw st' Hx Hr Hk. split; [by apply impl_bind|]. split.
  - intros j v u. destruct (decide (j = k)) as [->|Hj].
    + rewrite lookup_insert_eq. intros [= <- <-]. done.
    + rewrite lookup_insert_ne by done. apply Hf.
  - intros j v u. rewrite impl_get. destruct (decide (j = k)) as [->|Hj].
    + rewrite lookup_insert_eq. intros [= <- <-]. eauto.
    + rewrite lookup_insert_ne, Hk by done. apply Hh.
Qed.

(** The outcome of a walk that should give [vals]. *)
Definition walked (vals : Values) (r : option (Result unit (WalkError Error) * S)) : Prop :=
  match r with
  | Some (Ok _, st) => related vals st
  | Some (Err (BackendError _), _) => ¬ reliable
  | _ => False
  end.

Lemma bind_result_walked vals k w n c st :
  related vals st → n < 2 ^ w → w < 2 ^ 32 → computes w n st (c st) →
  walked (<[k := (w, n)]> vals) (bind_result k c st).
Proof using All.
  intros (Hr & Hf & Hh) Hn Hw Hc. unfold bind_result. destruct (c st) as [[[x|e] st']|]; [|done|done].
  destruct Hc as (Hx & Hr' & Hk). cbn [walked]. by eapply bind_related.
Qed.

Lemma walk_line_implements f l vals vals' st :
  related vals st → spec_line f l vals = Some vals' →
  line_within supported f l vals = true → walked vals' (walk_line f l st).
Proof using All.
  intros Hrel Hs Hop. unfold line_within in Hop. pose proof Hrel as (Hr & Hf & Hh). unfold spec_line in Hs. unfold walk_line.
  destruct (node l) eqn:Hl; try (injection Hs as <-; exact Hrel).
  - destruct (bv_width f sort) as [w|]; [|done]. cbn [mbind option_bind] in Hs.
    destruct (const_value value w) as [n|] eqn:Hn; [|done]. cbn [mbind option_bind] in Hs.
    destruct (N.ltb_spec w (2 ^ 32)); [|done]. injection Hs as <-.
    apply bind_result_walked; [done|by eapply const_value_lt|done|by apply impl_const].
  - destruct (bv_width f sort) as [w|].
    + destruct (mapM (operand_value vals) args) as [operands|] eqn:Ho; [|done]. cbn [mbind option_bind] in Hs.
      destruct (op_sorted op (immediates l) operands.*1 w) eqn:Hsort; [|done].
      destruct (N.ltb_spec w (2 ^ 32)); [|done]. injection Hs as <-. rewrite impl_uf by done.
      assert (Hin : Forall in_range operands).
      { apply mapM_Some in Ho. apply Forall_forall. intros x Hx.
        apply list_elem_of_lookup in Hx as [i Hi]. destruct (Forall2_lookup_r _ _ _ _ _ Ho Hi) as (o & _ & Hv).
        by eapply operand_in_range. }
      apply bind_result_walked; [done|by apply op_value_lt|done|].
      by apply (impl_op vals).
    + destruct (array_widths f sort); [|done]. injection Hs as <-. exact Hrel.
  - injection Hs as <-. by rewrite impl_init.
Qed.

Lemma walk_lines_implements f ls vals vals' st :
  related vals st → spec_lines f ls vals = Some vals' →
  lines_within supported f ls vals = true → walked vals' (walk_lines f ls st).
Proof using All.
  revert vals st. induction ls as [|l ls IH]; intros vals st Hrel Hs Hop; simpl in Hs.
  - by injection Hs as <-.
  - destruct (spec_line f l vals) as [vals1|] eqn:Hl; [|done]. cbn [mbind option_bind] in Hs.
    cbn [lines_within] in Hop. rewrite Hl in Hop. apply andb_prop in Hop as [Hop1 Hop].
    assert (Hw : walked vals1 (walk_line f l st)) by (by apply (walk_line_implements f l vals)).
    simpl. destruct (walk_line f l st) as [[[[]|e] st']|]; [|done|done].
    by apply (IH vals1).
Qed.

(** The walk over any implementation: it never panics, gives up only when the
    backend is not reliable, and ends with the values of the design. *)
Lemma walk_design_implements f leaves vals st :
  related leaves st → design_values f leaves = Some vals → lines_within supported f (lines f) leaves = true →
  walked vals (walk_design f st).
Proof using All. intros Hrel Hs Hop. by apply (walk_lines_implements f (lines f) leaves). Qed.
End interface.

Arguments Implements {S Value Error _}.
Arguments related {S Value}.
Arguments holds {S Value}.

(** ** The concrete backend *)

Definition is_bv (w n : N) (v : Bv) : Prop := v = mk w n.
Definition plain (b : ConcreteBackend) : Prop := honors_init b = false ∧ uf_wrapped_nids b = None.
Definition env_get (b : ConcreteBackend) (n : Z) : option Bv := env b !! n.

Lemma env_operand_holds vals (e : Env) o w n :
  fits vals → (∀ n w v, vals !! n = Some (w, v) → e !! n = Some (mk w v)) →
  operand_value vals o = Some (w, n) → env_operand e o = Some (mk w n).
Proof.
  unfold operand_value, env_operand. intros Hf He Ho.
  destruct (vals !! operand_nid o) as [[w' n']|] eqn:Hv; [|done]. injection Ho as -> <-.
  rewrite (He _ _ _ Hv). f_equal. destruct (is_negated o); cbn [complement_if]; [|done].
  apply not_mk. by apply (Hf _ _ _ Hv).
Qed.

Lemma low128_mk w n : Bv.low128 (mk w n) mod 2 ^ 128 = n mod 2 ^ 128 ∧ (n < 2 ^ 128 → Bv.low128 (mk w n) = n).
Proof.
  unfold mk. destruct (w <=? 128); cbn [Bv.low128]; [done|]. rewrite truncating_mod. split.
  - by rewrite N.Div0.mod_mod.
  - intros Hn. by rewrite N.mod_small.
Qed.

Lemma shl_amount_mk w a wb b : w < 2 ^ 32 → b < 2 ^ wb → shl_amount (mk w a) (mk wb b) = N.min b w.
Proof.
  intros Hw Hb. unfold shl_amount. rewrite !width_mk. destruct (N.leb_spec wb 128) as [H|H].
  - by rewrite (proj2 (low128_mk wb b)) by (by apply (fits_128 wb)).
  - assert (Hw' : w < 2 ^ wb) by (apply (lt_wider 32); [done|lia]).
    rewrite from_u128_width_mk, (N.mod_small w) by (done || apply (lt_wider 32); done).
    unfold Bv.ugte. rewrite ult_bool_mk, bv_eqb_mk, from_bool_mk, is_zero_mk.
    destruct (N.ltb_spec w b), (N.eqb_spec b w); cbn [orb N.eqb]; try lia.
    assert (Hlt : b < w) by lia. assert (b < 2 ^ 32) by lia.
    rewrite (proj2 (low128_mk wb b)) by (apply (lt_wider 32); done). rewrite N.mod_small; lia.
Qed.

Lemma rot_amount_mk w a wb b : rot_amount (mk w a) (mk wb b) = (b mod 2 ^ 32) mod N.max w 1.
Proof.
  unfold rot_amount. rewrite width_mk. f_equal.
  rewrite <-(mod_pow_pow _ 32 128), (proj1 (low128_mk wb b)), (mod_pow_pow _ 32 128) by lia. done.
Qed.

(** The two reductions agree where the amount fits. *)
Lemma cut_amount w wb b :
  rotation_fits Rol [w; wb] w = true → b < 2 ^ wb → (b mod 2 ^ 32) mod N.max w 1 = b mod N.max w 1.
Proof.
  intros [H|H]%orb_prop Hb.
  - apply N.leb_le in H. by rewrite (N.mod_small b) by (by apply (lt_wider wb)).
  - apply N.eqb_eq in H. rewrite (N.div_mod' b (2 ^ 32)) at 2. apply N.Div0.mod_divides in H as [q Hq].
    set (m := N.max w 1) in *. rewrite Hq at 2.
    replace (m * q * (b / 2 ^ 32) + b mod 2 ^ 32) with (b mod 2 ^ 32 + q * (b / 2 ^ 32) * m) by lia.
    by rewrite N.Div0.mod_add.
Qed.

#[export] Hint Rewrite width_mk is_zero_mk bv_eqb_mk ult_bool_mk zero_mk one_mk ones_mk from_bool_mk count_ones_mk
  rot_amount_mk : bv.

Definition stores (vals : Values) (e : Env) : Prop := ∀ n w v, vals !! n = Some (w, v) → e !! n = Some (mk w v).

Lemma read_stored vals (e : Env) args operands i w n :
  fits vals → stores vals e → mapM (operand_value vals) args = Some operands → operands !! i = Some (w, n) →
  read e args i = Some (Ok (mk w n)).
Proof.
  intros Hf He Hm Hi. apply mapM_Some in Hm. destruct (Forall2_lookup_r _ _ _ _ _ Hm Hi) as (o & Ho & Hv).
  unfold read. rewrite Ho. by rewrite (env_operand_holds vals e o w n).
Qed.

(** The comparisons on canonical values. *)
Lemma leb_ltb_eqb a b : (a <? b) || (a =? b) = (a <=? b).
Proof. apply bool_eq_iff. rewrite orb_true_iff, N.ltb_lt, N.eqb_eq, N.leb_le. lia. Qed.

Lemma signed_inj w a b : a < 2 ^ w → b < 2 ^ w → (a =? b) = (signed w a =? signed w b)%Z.
Proof.
  intros Ha Hb. apply bool_eq_iff. rewrite N.eqb_eq, Z.eqb_eq. split; [by intros ->|]. unfold signed.
  assert (Hz : (2 ^ Z.of_N w)%Z = Z.of_N (2 ^ w)) by (by rewrite N2Z.inj_pow). rewrite Hz.
  destruct (negb (w =? 0) && N.testbit a (w - 1)), (negb (w =? 0) && N.testbit b (w - 1)); lia.
Qed.

Lemma signed_leb w a b :
  a < 2 ^ w → b < 2 ^ w → (signed w a <? signed w b)%Z || (a =? b) = (signed w a <=? signed w b)%Z.
Proof.
  intros Ha Hb. rewrite (signed_inj w) by done. apply bool_eq_iff.
  rewrite orb_true_iff, Z.ltb_lt, Z.eqb_eq, Z.leb_le. lia.
Qed.

(** Adding or subtracting the reduced one. *)
Lemma inc_mod a w : (a + 1 mod 2 ^ w) mod 2 ^ w = (a + 1) mod 2 ^ w.
Proof. by rewrite N.Div0.add_mod_idemp_r. Qed.

Lemma dec_mod a w : (a + 2 ^ w - 1 mod 2 ^ w) mod 2 ^ w = (a + 2 ^ w - 1) mod 2 ^ w.
Proof.
  destruct (N.eq_dec w 0) as [->|Hw]; [by rewrite !N.mod_1_r|].
  pose proof (N.pow_le_mono_r 2 1 w ltac:(done) ltac:(lia)). by rewrite (N.mod_small 1) by (simpl in *; lia).
Qed.

Lemma leb_ltb_eqb' a b : (b <? a) || (a =? b) = (b <=? a).
Proof. by rewrite (N.eqb_sym a b), leb_ltb_eqb. Qed.

Lemma signed_leb' w a b :
  a < 2 ^ w → b < 2 ^ w → (signed w b <? signed w a)%Z || (a =? b) = (signed w b <=? signed w a)%Z.
Proof. intros Ha Hb. by rewrite (N.eqb_sym a b), signed_leb. Qed.

#[export] Hint Rewrite and_mk or_mk xor_mk not_mk add_mk sub_mk mul_mk neg_mk shl_mk shr_mk sra_mk rol_mk ror_mk
  slt_bool_mk signed_leb signed_leb' concat_mk slice_mk uext_mk sext_mk using (solve [auto 6 with bv | lia]) : bv.
#[export] Hint Rewrite inc_mod dec_mod leb_ltb_eqb leb_ltb_eqb' N.Div0.mod_mod negb_involutive : bv.
#[export] Hint Rewrite shl_amount_mk using done : bv.

Lemma eval_op_concrete_correct vals (e : Env) op imms args operands w :
  fits vals → stores vals e → mapM (operand_value vals) args = Some operands → w < 2 ^ 32 →
  op_sorted op imms operands.*1 w = true → rotation_fits op operands.*1 w = true →
  eval_op_concrete op imms args w e = Some (Ok (mk w (op_value op imms operands w))).
Proof.
  intros Hf He Hm Hw Hs Hrot.
  assert (Hr : Forall in_range operands).
  { apply mapM_Some in Hm. apply Forall_forall. intros x Hx. apply list_elem_of_lookup in Hx as [i Hi].
    destruct (Forall2_lookup_r _ _ _ _ _ Hm Hi) as (o & _ & Hv). by eapply operand_in_range. }
  pose proof (λ i w' n, read_stored vals e args operands i w' n Hf He Hm) as Hread. clear Hm He.
  destruct op; sorted_operands operands Hs;
    repeat match goal with H : Forall _ (_ :: _) |- _ => apply Forall_cons in H as [[??] ?] end;
    cbn [fst snd] in *; unfold eval_op_concrete, compare, binary, unary;
    rewrite ?(Hread 0%nat _ _ eq_refl), ?(Hread 1%nat _ _ eq_refl), ?(Hread 2%nat _ _ eq_refl); clear Hread;
    cbn [mbind option_bind fmap option_fmap option_map op_value fst snd];
    unfold Bv.eq_bv, Bv.ne_bv, Bv.ult, Bv.ulte, Bv.ugt, Bv.ugte, Bv.slt, Bv.slte, Bv.sgt, Bv.sgte,
      Bv.is_nonzero, Bv.to_bool, Bv.is_nonzero;
    autorewrite with bv; cbn [fmap option_fmap option_map]; autorewrite with bv; try done.
  - cbn [fmap list_fmap fst] in Hrot. by rewrite (cut_amount _ _ _ Hrot).
  - cbn [fmap list_fmap fst] in Hrot. by rewrite (cut_amount _ _ _ Hrot).
  - rewrite (proj2 (N.ltb_ge _ _)) by done. by replace (n + (w - n)) with w by lia.
  - rewrite (proj2 (N.ltb_ge _ _)) by done. by replace (n + (w - n)) with w by lia.
  - by destruct (a =? 0).
Qed.

Lemma const_value_concrete `{!RadixParser} value w n :
  w < 2 ^ 32 → const_value value w = Some n → eval_const_value value w = Some (Ok (mk w n)).
Proof.
  intros Hw. destruct value; cbn [const_value eval_const_value]; intros Hc; try discriminate.
  - injection Hc as <-. by rewrite zero_mk.
  - injection Hc as <-. by rewrite one_mk.
  - injection Hc as <-. by rewrite ones_mk.
  - destruct (negb (String.eqb s "") && binary_digits s) eqn:Hb; [|done]. injection Hc as <-.
    apply andb_prop in Hb as [Hs Hb]. apply negb_true_iff, String.eqb_neq in Hs.
    by rewrite (parse_bytes_binary s Hs Hb), from_biguint_mk.
  - destruct (0 <=? d)%Z; [injection Hc as <-; by rewrite from_biguint_mk|].
    destruct (d =? - 2 ^ 127)%Z; [done|]. injection Hc as <-. cbv zeta.
    by rewrite from_biguint_mk, N.shiftl_1_l, N.Div0.mod_mod.
Qed.

#[export] Instance concrete_implements `{!RadixParser} :
  Implements env_get is_bv plain True rotation_fits.
Proof.
  split.
  - intros value w n b Hp Hw Hn. cbn. unfold pure_eval. by rewrite (const_value_concrete _ _ n).
  - intros vals k op imms args operands w b Hp Hf Hh Hw Hrot Hm Hs. cbn. unfold pure_eval.
    rewrite (eval_op_concrete_correct vals _ _ _ _ operands); try done.
    intros n v u Hv. destruct (Hh n v u Hv) as (x & Hx & ->). done.
  - done.
  - intros n v b k. unfold env_get. cbn. case_decide as Hk; [subst; by rewrite lookup_insert_eq|].
    by rewrite lookup_insert_ne.
  - by intros b [Hh _].
  - intros n w b [_ Hu]. cbn. by rewrite Hu.
Qed.
