(* ===== verification/Btor2Correct.v ===== *)
(** The evaluation of a BTOR2 design, one step of it, and the sort check.

    [evaluate_pure_correct]: the walk with the concrete backend computes the
    reference values of [Btor2Spec]; [simulate_one_step_correct]: a step returns
    the next value of every register; the departures are what the sort check and
    the step do that their comments do not say. *)
From S2P Require Import Prelude Bitvec Btor2 Btor2Spec.
From Stdlib Require Import NArith.
Import Bv (Bv, Small, Wide).
Local Open Scope N_scope.

(** ** A parser of literals *)

(** Binary literals alone. *)
#[export] Instance binary_parser : RadixParser.
Proof.
  refine {| parse_bytes s r := if (r =? 2) && negb (String.eqb s "") && binary_digits s then Some (binary_value 0 s) else None |}.
  intros s Hs Hb. apply String.eqb_neq in Hs. by rewrite Hs, Hb.
Defined.

(** ** Evaluation *)

(** The walk of [evaluate_pure]. *)
Lemma evaluate_pure_stores `{!RadixParser} f leaves vals (e : Env) :
  fits leaves → stores leaves e → design_values f leaves = Some vals → rotations_fit f leaves = true →
  ∃ e', evaluate_pure f e false = Some (Ok tt, e') ∧ stores vals e' ∧ fits vals.
Proof.
  intros Hfits Hleaves Hvals Hrot.
  pose (b := {| env := e; honors_init := false; uf_wrapped_nids := None; rep := UfZero |}).
  assert (Hrel : related env_get is_bv plain leaves b).
  { split_and!; [done|done|]. intros n w v Hv. exists (mk w v). split; [by apply Hleaves|done]. }
  pose proof (walk_design_implements env_get is_bv plain True rotation_fits f leaves vals b Hrel Hvals Hrot) as Hw.
  unfold evaluate_pure, evaluate_pure_with_uf, evaluate_pure_with_uf_rep. fold b.
  destruct (walk_design f b) as [[[[]|[]] b']|]; cbn [walked] in Hw; try (exfalso; by apply Hw).
  eexists. split; [done|]. destruct Hw as (_ & Hf & Hh). split; [|done]. intros n w v Hv.
  by destruct (Hh n w v Hv) as (x & Hx & ->).
Qed.

(** The pure evaluation of a design computes the value of every node.  When
    the sources are bound and the lines respect the sort rules, with definitions
    before uses, and the amounts of rotations fit, [evaluate_pure] neither fails nor panics and binds every node to
    the bit vector of its width that holds the value of the reference
    meaning. *)
Lemma evaluate_pure_correct `{!RadixParser} (f : Btor2File) (leaves vals : Values) (e : Env)
    (Hfits : fits leaves) (Hleaves : stores leaves e) (Hvals : design_values f leaves = Some vals)
    (Hrot : rotations_fit f leaves = true) :
  ∃ e', evaluate_pure f e false = Some (Ok tt, e') ∧ stores vals e'.
Proof.
  destruct (evaluate_pure_stores f leaves vals e Hfits Hleaves Hvals Hrot) as (e' & He & Hs & _). eauto.
Qed.

(** A counter: [next = enable ? count + 1 : count] on two bits. *)
Definition counter_lines : list Line :=
  map (λ '(n, nd), {| nid := n; node := nd; immediates := [] |})
    [(1, NSort (BitVec 1)); (2, NSort (BitVec 2)); (3, NInput 1 (Some "enable")); (4, NState 2 (Some "count"));
     (5, NOp 2 Inc [4] None); (6, NOp 2 Ite [3; 5; 4] None); (7, NNext 2 4 6); (8, NOp 1 Redand [-4] None)]%Z.
Definition counter : Btor2File :=
  {| lines := counter_lines; by_nid := list_to_map (imap (λ i l, (nid l, i)) counter_lines) |}.

Lemma evaluate_pure_correct_witness :
  let leaves := {[ 3%Z := (1, 1); 4%Z := (2, 3) ]} in
  match design_values counter leaves with
  | Some vals => vals !! 6%Z = Some (2, 0) ∧ vals !! 8%Z = Some (1, 0) ∧
    ∃ e', evaluate_pure counter ((λ v, mk v.1 v.2) <$> leaves) false = Some (Ok tt, e') ∧ stores vals e'
  | None => False
  end.
Proof.
  intros leaves. destruct (design_values counter leaves) as [vals|] eqn:Hv; [|by vm_compute in Hv].
  assert (Hvals : Some vals = design_values counter leaves) by done. vm_compute in Hvals. injection Hvals as Hvals.
  split; [by rewrite Hvals|]. split; [by rewrite Hvals|].
  apply (evaluate_pure_correct counter leaves vals); [| |done|by vm_compute].
  - intros n w v. unfold leaves. rewrite lookup_insert_Some, lookup_singleton_Some. by intros [[<- [= <- <-]]|[_ [<- [= <- <-]]]].
  - intros n w v H. rewrite lookup_fmap. by rewrite H.
Defined.

(** ** One step *)

(** Inserting the pairs of a list of distinct keys in any order. *)
Lemma foldl_insert_other {K A B} `{Countable K} (k : A → K) (g : A → B) (l : list A) (m : gmap K B) i :
  i ∉ k <$> l → foldl (λ m a, <[k a := g a]> m) m l !! i = m !! i.
Proof.
  revert m. induction l as [|b l IH]; intros m Hi; [done|]. rewrite fmap_cons, not_elem_of_cons in Hi.
  destruct Hi as [Hb Hi]. cbn [foldl]. rewrite IH by done. by apply lookup_insert_ne.
Qed.

Lemma foldl_insert_lookup {K A B} `{Countable K} (k : A → K) (g : A → B) (l : list A) (m : gmap K B) x :
  NoDup (k <$> l) → x ∈ l → foldl (λ m a, <[k a := g a]> m) m l !! k x = Some (g x).
Proof.
  revert m. induction l as [|a l IH]; intros m Hd Hx; [by apply not_elem_of_nil in Hx|].
  rewrite fmap_cons, NoDup_cons in Hd. destruct Hd as [Ha Hd]. cbn [foldl].
  apply elem_of_cons in Hx as [->|Hx]; [|by apply IH].
  rewrite foldl_insert_other by done. apply lookup_insert_eq.
Qed.

(** The value of a cell: the given one cut to the width, zero when missing. *)
Definition cell_value (values : gmap string N) (sm : StateMeta) : N * N :=
  (sm_width sm, default 0 (values !! sm_symbol sm) mod 2 ^ sm_width sm).
Definition leaf_values (f : Btor2File) (symbols : gmap Z string) (registers inputs : gmap string N) : Values :=
  list_to_map (((λ sm, (sm_nid sm, cell_value registers sm)) <$> state_metas f symbols) ++
               ((λ sm, (sm_nid sm, cell_value inputs sm)) <$> input_metas f symbols)).

(** A design whose cells have names and ids of their own, and [u128] values. *)
Record Named (f : Btor2File) (symbols : gmap Z string) (registers inputs : gmap string N) : Prop := {
  named_nids : NoDup (sm_nid <$> state_metas f symbols ++ input_metas f symbols);
  named_states : NoDup (sm_symbol <$> state_metas f symbols);
  named_inputs : NoDup (sm_symbol <$> input_metas f symbols);
  named_widths sm : sm ∈ state_metas f symbols ++ input_metas f symbols → sm_width sm < 2 ^ 32;
  named_registers s v : registers !! s = Some v → v < 2 ^ 128;
  named_values s v : inputs !! s = Some v → v < 2 ^ 128;
}.

(** The [next] lines, and the next value of a node: without a line it keeps its
    value. *)
Definition next_lines (f : Btor2File) : list (Z * Z) :=
  omap (λ l, match node l with NNext _ state value => Some (state, value) | _ => None end) (lines f).
Definition next_value (f : Btor2File) (vals : Values) (n : Z) : option (N * N) :=
  match (list_to_map (next_lines f) : gmap Z Z) !! n with
  | Some value => operand_value vals value
  | None => vals !! n
  end.

Section step.
Context `{!RadixParser} {f : Btor2File} {symbols : gmap Z string} {registers inputs : gmap string N}.
Context (Hnamed : Named f symbols registers inputs).

Lemma seeded_value values sm :
  (∀ s v, values !! s = Some v → v < 2 ^ 128) →
  Bv.from_u128_width (default 0 (values !! sm_symbol sm)) (sm_width sm) =
  mk (cell_value values sm).1 (cell_value values sm).2.
Proof using Type.
  intros Hv. unfold cell_value. cbn [fst snd]. apply from_u128_width_mk.
  destruct (values !! sm_symbol sm) as [v|] eqn:E; [by eapply Hv|done].
Qed.

Lemma distinct_inputs : (map_to_list (inputs_by_symbol f symbols)).*2 ≡ₚ input_metas f symbols.
Proof using Hnamed.
  unfold inputs_by_symbol. pose proof (named_inputs _ _ _ _ Hnamed) as Hd.
  assert (E : ∀ l (m : gmap string StateMeta), NoDup (sm_symbol <$> l) → (∀ sm, sm ∈ l → m !! sm_symbol sm = None) →
    map_to_list (foldl (λ m sm, <[sm_symbol sm := sm]> m) m l) ≡ₚ
    ((λ sm, (sm_symbol sm, sm)) <$> l) ++ map_to_list m).
  { intros l. induction l as [|sm l IH]; intros m Hl Hm; [done|]. simpl.
    rewrite fmap_cons, NoDup_cons in Hl. destruct Hl as [Hsm Hl]. rewrite IH; [|done|].
    - rewrite map_to_list_insert by (apply Hm; left). by rewrite <-Permutation_middle.
    - intros sm' Hin. rewrite lookup_insert_ne; [apply Hm; by right|].
      intros E. apply Hsm. rewrite E. by apply list_elem_of_fmap_2. }
  rewrite (E _ ∅) by (done || intros; apply lookup_empty). rewrite map_to_list_empty, app_nil_r.
  rewrite <-list_fmap_compose. by rewrite list_fmap_id.
Qed.

Lemma seeded_stores :
  stores (leaf_values f symbols registers inputs)
    (seed_cells inputs (map_to_list (inputs_by_symbol f symbols)).*2 (seed_cells registers (state_metas f symbols) ∅)).
Proof using Hnamed.
  intros n w v Hv. unfold leaf_values in Hv. pose proof (named_nids _ _ _ _ Hnamed) as Hd.
  rewrite fmap_app in Hd. apply NoDup_app in Hd as (Hs & Hsi & Hi). pose proof distinct_inputs as Hp.
  assert (Hi' : NoDup (sm_nid <$> (map_to_list (inputs_by_symbol f symbols)).*2)) by (by rewrite Hp).
  apply elem_of_list_to_map_2, elem_of_app in Hv. unfold seed_cells.
  destruct Hv as [Hv|Hv]; apply list_elem_of_fmap in Hv as (sm & [= -> -> ->] & Hin).
  - rewrite (foldl_insert_other sm_nid) by (rewrite Hp; apply Hsi; by apply list_elem_of_fmap_2).
    rewrite (foldl_insert_lookup sm_nid
      (λ sm, Bv.from_u128_width (default 0 (registers !! sm_symbol sm)) (sm_width sm))) by done.
    rewrite seeded_value by apply (named_registers _ _ _ _ Hnamed). done.
  - rewrite (foldl_insert_lookup sm_nid
      (λ sm, Bv.from_u128_width (default 0 (inputs !! sm_symbol sm)) (sm_width sm))) by (done || by rewrite Hp).
    rewrite seeded_value by apply (named_values _ _ _ _ Hnamed). done.
Qed.

Lemma leaves_fit : fits (leaf_values f symbols registers inputs).
Proof using Hnamed.
  intros n w v Hv. apply elem_of_list_to_map_2, elem_of_app in Hv.
  destruct Hv as [Hv|Hv]; apply list_elem_of_fmap in Hv as (sm & [= -> -> ->] & Hin);
    (split; [apply mod_lt_pow|]); apply (named_widths _ _ _ _ Hnamed); apply elem_of_app; auto.
Qed.

(** The two seedings of the inputs agree. *)
Lemma seeded_inputs :
  seed_cells inputs (map_to_list (inputs_by_symbol f symbols)).*2 (seed_cells registers (state_metas f symbols) ∅) =
  seed_cells inputs (input_metas f symbols) (seed_cells registers (state_metas f symbols) ∅).
Proof using Hnamed.
  pose proof (named_nids _ _ _ _ Hnamed) as Hd. rewrite fmap_app in Hd. apply NoDup_app in Hd as (_ & _ & Hi).
  pose proof distinct_inputs as Hp. apply map_eq. intros n. unfold seed_cells at 1 3.
  set (g := λ sm, Bv.from_u128_width (default 0 (inputs !! sm_symbol sm)) (sm_width sm)).
  destruct (decide (n ∈ sm_nid <$> input_metas f symbols)) as [Hn|Hn].
  - apply list_elem_of_fmap in Hn as (sm & -> & Hin).
    etrans; [|symmetry; by apply (foldl_insert_lookup sm_nid g)].
    apply (foldl_insert_lookup sm_nid g); by rewrite Hp.
  - etrans; [|symmetry; by apply (foldl_insert_other sm_nid g)].
    apply (foldl_insert_other sm_nid g). by rewrite Hp.
Qed.

(** The updates of a valid environment. *)
Lemma next_updates_values ls vals (e : Env) :
  fits vals → stores vals e →
  Forall (λ p, is_Some (operand_value vals p.2))
    (omap (λ l, match node l with NNext _ state value => Some (state, value) | _ => None end) ls) →
  next_updates ls e = Ok ((λ p, (p.1, match operand_value vals p.2 with Some (w, n) => mk w n | None => Bv.zero 0 end)) <$>
    omap (λ l, match node l with NNext _ state value => Some (state, value) | _ => None end) ls).
Proof using Type.
  intros Hf Hs. induction ls as [|l ls IH]; intros Hall; [done|]. cbn [omap list_omap next_updates] in *.
  destruct (node l); try (by apply IH). apply Forall_cons in Hall as [[[w n] Hv] Hall]. cbn [snd] in Hv.
  rewrite (env_operand_holds vals e value w n Hf Hs Hv), IH by done. cbn [fmap list_fmap fst snd]. by rewrite Hv.
Qed.

Lemma apply_next_values vals (e : Env) :
  fits vals → stores vals e → NoDup (next_lines f).*1 →
  Forall (λ p, is_Some (operand_value vals p.2)) (next_lines f) →
  ∃ e', apply_next f e = Ok e' ∧ ∀ n w v, next_value f vals n = Some (w, v) → e' !! n = Some (mk w v).
Proof using Type.
  intros Hf Hs Hd Hall. unfold apply_next. rewrite (next_updates_values _ vals) by done. fold (next_lines f).
  eexists. split; [done|]. intros n w v Hv. rewrite foldl_fmap. unfold next_value in Hv. cbn [fst snd].
  set (g := λ p : Z * Z, match operand_value vals p.2 with Some (w, n) => mk w n | None => Bv.zero 0 end).
  destruct (list_to_map (next_lines f) !! n) as [value|] eqn:E.
  - apply elem_of_list_to_map_2 in E.
    pose proof (foldl_insert_lookup fst g (next_lines f) e (n, value) Hd E) as Hl. unfold g in Hl. cbn [fst snd] in Hl.
    rewrite Hv in Hl. exact Hl.
  - apply not_elem_of_list_to_map_2 in E.
    pose proof (foldl_insert_other fst g (next_lines f) e n E) as Hl. unfold g in Hl. rewrite Hl. by apply Hs.
Qed.
End step.

Lemma low128_mod w n : n < 2 ^ w → Bv.low128 (mk w n) = n mod 2 ^ 128.
Proof.
  intros Hn. unfold mk. destruct (N.leb_spec w 128); cbn [Bv.low128]; [|apply truncating_mod].
  symmetry. apply N.mod_small. by apply (fits_128 w).
Qed.

Lemma next_value_lt f vals n w v : fits vals → next_value f vals n = Some (w, v) → v < 2 ^ w.
Proof.
  intros Hf. unfold next_value. destruct (_ !! n) as [value|].
  - intros Hv. exact (proj1 (operand_in_range vals value _ Hf Hv)).
  - intros Hv. by apply (Hf _ _ _ Hv).
Qed.

Lemma constraints_error ls (e : Env) err : constraints_hold_lines ls e = Err err → ∃ a b, err = UnevaluatedConstraint a b.
Proof.
  induction ls as [|l ls IH]; [done|]. cbn [constraints_hold_lines]. destruct (node l); try done.
  destruct (env_operand e signal); [destruct (negb _); done|]. intros [= <-]. eauto.
Qed.

(** The meaning of one step: every line of the design has a value, and so has
    every next line. *)
Definition step_values (f : Btor2File) (symbols : gmap Z string) (registers inputs : gmap string N) : option Values :=
  let* vals := design_values f (leaf_values f symbols registers inputs) in
  if decide (Forall (λ p, is_Some (operand_value vals p.2)) (next_lines f)) then Some vals else None.

Lemma simulate_one_step_values `{!RadixParser} (f : Btor2File) (symbols : gmap Z string)
    (registers inputs : gmap string N) (vals : Values)
    (Hnamed : Named f symbols registers inputs) (Hnext : NoDup (next_lines f).*1)
    (Hvals : step_values f symbols registers inputs = Some vals)
    (Hrot : rotations_fit f (leaf_values f symbols registers inputs) = true) :
  ∃ out, simulate_one_step f symbols registers inputs = Some (Ok out) ∧
    ∀ sm w n, sm ∈ state_metas f symbols → next_value f vals (sm_nid sm) = Some (w, n) →
      out !! sm_symbol sm = Some (n mod 2 ^ 128).
Proof.
  unfold step_values in Hvals. destruct (design_values f _) as [vals'|] eqn:Hd; [|done].
  cbn [mbind option_bind] in Hvals. case_decide as Hall; [|done]. injection Hvals as ->.
  destruct (evaluate_pure_stores f _ vals _ (leaves_fit Hnamed) (seeded_stores Hnamed) Hd Hrot) as (e1 & He & Hs & Hf).
  destruct (apply_next_values vals e1 Hf Hs Hnext Hall) as (e2 & Ha & Hn).
  unfold simulate_one_step, step_env. cbv zeta. unfold evaluate_pure, evaluate_pure_with_uf in He. rewrite He, Ha.
  eexists. split; [done|]. intros sm w n Hin Hv. unfold read_cells.
  pose proof (foldl_insert_lookup sm_symbol
    (λ sm, match e2 !! sm_nid sm with Some v => Bv.low128 v | None => 0 end) _ ∅ sm
    (named_states _ _ _ _ Hnamed) Hin) as Hl. cbn beta in Hl. rewrite Hl, (Hn _ _ _ Hv). f_equal.
  apply low128_mod. by eapply next_value_lt.
Qed.

(** C24: One step of a design.  [simulate_one_step] neither fails nor panics on a
    design whose cells have names of their own, whose states have at most one
    next line and whose lines respect the sort rules; it returns for every
    register the low 128 bits of its next value, where missing values are zero
    and a register without a next line keeps its value.  The amounts of rotations
    have at most 32 bits, or the width divides [2 ^ 32]: the code cuts an amount
    to 32 bits before it reduces it ([step_departures]). *)
Theorem simulate_one_step_correct `{!RadixParser} (f : Btor2File) (symbols : gmap Z string)
    (registers inputs : gmap string N) (vals : Values)
    (Hnamed : Named f symbols registers inputs) (Hnext : NoDup (next_lines f).*1)
    (Hvals : step_values f symbols registers inputs = Some vals)
    (Hrot : rotations_fit f (leaf_values f symbols registers inputs) = true) :
  ∃ out, simulate_one_step f symbols registers inputs = Some (Ok out) ∧
    ∀ sm w n, sm ∈ state_metas f symbols → next_value f vals (sm_nid sm) = Some (w, n) →
      out !! sm_symbol sm = Some (n mod 2 ^ 128).
Proof. by apply simulate_one_step_values. Qed.

Lemma counter_named (registers inputs : gmap string N) :
  (∀ s v, registers !! s = Some v → v < 2 ^ 128) → (∀ s v, inputs !! s = Some v → v < 2 ^ 128) →
  Named counter {[ 3%Z := "enable"; 4%Z := "count" ]} registers inputs.
Proof.
  set (symbols := {[ 3%Z := "enable"; 4%Z := "count" ]}). intros Hr Hi.
  assert (Hm : state_metas counter symbols ++ input_metas counter symbols =
    [{| sm_nid := 4; sm_width := 2; sm_symbol := "count" |}; {| sm_nid := 3; sm_width := 1; sm_symbol := "enable" |}])
    by (vm_compute; done).
  split; [apply (bool_decide_unpack _); by vm_compute|apply (bool_decide_unpack _); by vm_compute|
          apply (bool_decide_unpack _); by vm_compute| |done|done].
  rewrite Hm. intros sm [->|[->|[]%not_elem_of_nil]%elem_of_cons]%elem_of_cons; vm_compute; done.
Qed.

Lemma simulate_one_step_correct_witness :
  let symbols := {[ 3%Z := "enable"; 4%Z := "count" ]} in
  let registers := {[ "count" := 2 ]} in
  let inputs := {[ "enable" := 1 ]} in
  match step_values counter symbols registers inputs with
  | Some vals => next_value counter vals 4 = Some (2, 3) ∧
    ∃ out, simulate_one_step counter symbols registers inputs = Some (Ok out) ∧
      ∀ sm w n, sm ∈ state_metas counter symbols → next_value counter vals (sm_nid sm) = Some (w, n) →
        out !! sm_symbol sm = Some (n mod 2 ^ 128)
  | None => False
  end.
Proof.
  intros symbols registers inputs.
  destruct (step_values counter symbols registers inputs) as [vals|] eqn:Hv; [|by vm_compute in Hv].
  split.
  - assert (H : (λ vals, next_value counter vals 4) <$> step_values counter symbols registers inputs = Some (Some (2, 3)))
      by (vm_compute; done).
    rewrite Hv in H. by injection H.
  - apply (simulate_one_step_correct counter symbols registers inputs vals); [|apply (bool_decide_unpack _); by vm_compute|done|by vm_compute].
    apply counter_named; by intros s v [<- <-]%lookup_singleton_Some.
Defined.

(** C26: The prepared step agrees with the plain one.  On a design whose cells
    have names of their own, whenever [step] of the prepared design returns,
    [simulate_one_step] returns the same next state, and the two fail or panic
    together, save that only the prepared step evaluates the constraints. *)
Theorem prepared_step_agrees `{!RadixParser} (f : Btor2File) (symbols : gmap Z string)
    (registers inputs : gmap string N) (observe : list string) (Hnamed : Named f symbols registers inputs) :
  match step (prepare f symbols) registers inputs observe with
  | Some (Ok out) => simulate_one_step f symbols registers inputs = Some (Ok (next_state out))
  | Some (Err (UnevaluatedConstraint _ _)) => True
  | Some (Err e) => simulate_one_step f symbols registers inputs = Some (Err e)
  | None => simulate_one_step f symbols registers inputs = None
  end.
Proof.
  unfold simulate_one_step, step, step_env. cbv zeta. cbn [prepare states Btor2.inputs file].
  rewrite (seeded_inputs Hnamed). unfold evaluate_pure, evaluate_pure_with_uf.
  destruct (evaluate_pure_with_uf_rep _ _ _ _ _) as [[[[]|e] e1]|] eqn:He; [| |done].
  - unfold constraints_hold. destruct (constraints_hold_lines (lines f) e1) as [adm|err] eqn:Hc.
    + destruct (apply_next f e1) as [e2|err] eqn:Ha; [done|]. destruct err; done.
    + assert (∃ a b, err = UnevaluatedConstraint a b) as (a & b & ->) by (by eapply constraints_error). done.
  - unfold evaluate_pure_with_uf_rep in He. destruct (walk_design _ _) as [[[|] ?]|]; try done.
    injection He as <- <-. done.
Qed.

Lemma prepared_step_agrees_witness :
  let symbols := {[ 3%Z := "enable"; 4%Z := "count" ]} in
  let registers := {[ "count" := 3 ]} in
  let inputs := {[ "enable" := 1 ]} in
  match step (prepare counter symbols) registers inputs ["count"] with
  | Some (Ok out) => next_state out = {[ "count" := 0 ]} ∧ observed out = {[ "count" := 3 ]} ∧ admissible out = true ∧
    simulate_one_step counter symbols registers inputs = Some (Ok (next_state out))
  | _ => False
  end.
Proof.
  intros symbols registers inputs.
  assert (Hnamed : Named counter symbols registers inputs)
    by (apply counter_named; by intros s v [<- <-]%lookup_singleton_Some).
  pose proof (prepared_step_agrees counter symbols registers inputs ["count"] Hnamed) as H.
  destruct (step (prepare counter symbols) registers inputs ["count"]) as [[out|err]|] eqn:E; [|vm_compute in E; discriminate E..].
  assert (Hout : Some (Ok out) = step (prepare counter symbols) registers inputs ["count"]) by done.
  vm_compute in Hout. injection Hout as Hout. split_and!; [by rewrite Hout..|exact H].
Defined.

(** ** Departures *)

Definition design (nodes : list (Z * Node)) : Btor2File :=
  let ls := map (λ '(n, nd), {| nid := n; node := nd; immediates := [] |}) nodes in
  {| lines := ls; by_nid := list_to_map (imap (λ i l, (nid l, i)) ls) |}.

(** A comparison declared two bits wide, used by a two-bit operator. *)
Definition wide_comparison : Btor2File :=
  design [(1, NSort (BitVec 2)); (2, NInput 1 (Some "a")); (3, NInput 1 (Some "b"));
          (4, NOp 1 Eq [2; 3] None); (5, NOp 1 And [4; 2] None)]%Z.

(** Two inputs of one name. *)
Definition same_name : Btor2File :=
  design [(1, NSort (BitVec 1)); (2, NInput 1 (Some "a")); (3, NInput 1 (Some "a")); (4, NState 1 (Some "s"));
          (5, NOp 1 And [2; 3] None); (6, NNext 1 4 5)]%Z.
Definition same_name_symbols : gmap Z string := {[ 2%Z := "a"; 3%Z := "a"; 4%Z := "s" ]}.

(** A rotation by [2 ^ 32] at width 33. *)
Definition wide_rotation : Btor2File :=
  design [(1, NSort (BitVec 33)); (2, NInput 1 (Some "a")); (3, NInput 1 (Some "b")); (4, NOp 1 Rol [2; 3] None)]%Z.

(** What the sort check and the step do that their comments do not say.
    [check_sorts] accepts a comparison whose declared width is not one bit, and
    evaluating such a file panics on the operator that uses it; with two inputs
    of one name [simulate_one_step] fails, because the earlier input has no
    value, where [step] of the prepared design gives both the value.  The amount
    of a rotation is cut to 32 bits before it is reduced modulo the width, so 1
    rotated left by [2 ^ 32] at width 33 stays 1, where it should be rotated by
    4; and a concatenation of an empty high part and 128 bits overflows its
    shift. *)
Lemma step_departures :
  check_sorts wide_comparison = Ok tt ∧
  evaluate_pure wide_comparison {[ 2%Z := mk 2 1; 3%Z := mk 2 1 ]} false = None ∧
  check_sorts same_name = Ok tt ∧
  simulate_one_step same_name same_name_symbols ∅ {[ "a" := 1 ]} =
    Some (Err (WalkFailed (BackendError (OperandUnevaluated 2)))) ∧
  next_state <$> (match step (prepare same_name same_name_symbols) ∅ {[ "a" := 1 ]} [] with
                  | Some (Ok out) => Some out
                  | _ => None
                  end) = Some {[ "s" := 1 ]} ∧
  check_sorts wide_rotation = Ok tt ∧
  (let leaves := {[ 2%Z := (33, 1); 3%Z := (33, 2 ^ 32) ]} in
   (λ r, r.2 !! 4%Z) <$> evaluate_pure wide_rotation ((λ v, mk v.1 v.2) <$> leaves) false = Some (Some (mk 33 1)) ∧
   (λ vals : Values, vals !! 4%Z) <$> design_values wide_rotation leaves = Some (Some (33, 16))) ∧
  Bv.concat (mk 0 0) (mk 128 5) = None.
Proof. cbv zeta. split_and!; vm_compute; reflexivity. Qed.
