(* ===== verification/BitBlast.v ===== *)
(** The bit-blaster of [adapter/btor2/symbolic_bitblast.rs]: the gadgets that
    build a BDD per bit, the backend of the walk made of them, the leaves and
    passes of a build and the evaluation of one step.

    The BDD library is the class [BddLib]: an operation changes the manager and
    gives no function when the arena is exhausted.  [run_expired] is the clock of
    the run budget.  The level diagnostics, off unless an environment variable
    asks for them, are left out. *)
From S2P Require Import Prelude Bitvec Btor2.
From Stdlib Require Import NArith Ascii.
Import Bv (Bv, Small, Wide).
Local Open Scope N_scope.
Local Delimit Scope char_scope with char.

Class BddLib (M F : Type) := {
  bdd_t : F;
  bdd_f : F;
  bdd_var : N → M → option F * M;
  bdd_not : F → M → option F * M;
  bdd_and : F → F → M → option F * M;
  bdd_or : F → F → M → option F * M;
  bdd_eqb : F → F → bool;
  new_manager : N → M;
  add_vars : N → M → N * M;
  approx_num_inner_nodes : M → N;
  num_vars : M → N;
  num_levels : M → N;
  run_expired : M → bool * M;
}.

Inductive BlastError :=
  | ArenaExhausted
  | RunBudget
  | LevelDrift (vars levels accounted : N)
  | NodeBudget (live budget : N)
  | OperandMissing (n : Nid)
  | ConstantError (e : EvalError)
  | SliceMissingLower
  | OperatorUnsupported (op : Op)
  | IllSorted (e : SortError)
  | BitCap (bits cap : N)
  | WalkNonBitvec (n : Nid)
  | WalkUnevaluated (n : Nid)
  | ZeroWidthConstraint
  | BuildPanicked.

(** The fields the guards read. *)
Record Limits := { node_budget : N; declared_vars : N }.

(** ** Computations *)

(** A computation on the manager; [None] is a panic. *)
Abbreviation Gadget M A := (Comp M BlastError A).

Section comp.
Context {M : Type}.
Definition ret {A} (a : A) : Gadget M A := λ m, Some (Ok a, m).
Definition throw {A} (e : BlastError) : Gadget M A := λ m, Some (Err e, m).
Definition panic {A} : Gadget M A := λ _, None.
Definition gbind {A B} (c : Gadget M A) (k : A → Gadget M B) : Gadget M B := λ m,
  match c m with
  | Some (Ok a, m) => k a m
  | Some (Err e, m) => Some (Err e, m)
  | None => None
  end.
(** [oom]: an exhausted arena is an error. *)
Definition oom {F} (op : M → option F * M) : Gadget M F := λ m,
  match op m with (Some f, m) => Some (Ok f, m) | (None, m) => Some (Err ArenaExhausted, m) end.
End comp.

Declare Scope gadget_scope.
Delimit Scope gadget_scope with gadget.
Notation "'let!' x ':=' c 'in' k" := (gbind c (λ x, k))
  (at level 200, x pattern, k at level 200, only parsing) : gadget_scope.
Notation "c ;! k" := (gbind c (λ _, k)) (at level 199, right associativity, only parsing) : gadget_scope.
Local Open Scope gadget_scope.

Section blast.
Context {M F : Type} `{!BddLib M F} (lim : Limits).
Abbreviation G := (Comp M BlastError).

(** [collect::<Result<_, _>>()]. *)
Fixpoint try_collect {A B} (l : list A) (f : A → G B) : G (list B) :=
  match l with
  | [] => ret []
  | a :: l => let! b := f a in let! bs := try_collect l f in ret (b :: bs)
  end.

Definition check_node_budget : G unit := λ m,
  let '(late, m) := run_expired m in
  if late then Some (Err RunBudget, m)
  else
    let live := approx_num_inner_nodes m in
    let vars := num_vars m in
    let levels := num_levels m in
    if negb (vars =? declared_vars lim) || negb (levels =? declared_vars lim) then
      Some (Err (LevelDrift vars levels (declared_vars lim)), m)
    else if node_budget lim <? live then Some (Err (NodeBudget live (node_budget lim)), m)
    else Some (Ok tt, m).

Definition bnot (a : F) : G F := oom (bdd_not a).
Definition band (a b : F) : G F := oom (bdd_and a b).
Definition bor (a b : F) : G F := oom (bdd_or a b).

(** [v[i]] and [v.get(i).unwrap_or(ff)]. *)
Definition index (v : list F) (i : nat) : G F := match v !! i with Some f => ret f | None => panic end.
Definition get_or (d : F) (v : list F) (i : nat) : F := default d (v !! i).
Definition bit_or_false : list F → nat → F := get_or bdd_f.

Definition bxor (a b : F) : G F :=
  let! nb := bnot b in
  let! lhs := band a nb in
  let! na := bnot a in
  let! rhs := band na b in
  bor lhs rhs.

Definition map_bits_checked (width : N) (f : nat → G F) : G (list F) :=
  try_collect (seq 0 (N.to_nat width)) (λ i, let! b := f i in check_node_budget ;! ret b).

(** The bits from [i] on. *)
Fixpoint add_loop (a b : list F) (i n : nat) (carry : F) : G (list F * F) :=
  match n with
  | O => ret ([], carry)
  | S n =>
    let ai := bit_or_false a i in
    let bi := bit_or_false b i in
    let! axb := bxor ai bi in
    let! s := bxor axb carry in
    let! ab := band ai bi in
    let! c_axb := band carry axb in
    let! c := bor ab c_axb in
    check_node_budget ;!
    let! r := add_loop a b (S i) n c in
    ret (s :: r.1, r.2)
  end.
Definition add_bits (a b : list F) (cin : F) (width : N) : G (list F * F) := add_loop a b 0 (N.to_nat width) cin.

(** [1usize.checked_shl(k).unwrap_or(usize::MAX)]. *)
Definition stage_shift (k : nat) : N := if (k <? 64)%nat then 2 ^ N.of_nat k else 2 ^ 64 - 1.

(** The bit that replaces bit [j] when the stage shifts by [sh]. *)
Definition shifted_bit (cur : list F) (sign : F) (w : nat) (sh : N) (left : bool) (j : nat) : G F :=
  if left then if sh <=? N.of_nat j then index cur (N.to_nat (N.of_nat j - sh)) else ret bdd_f
  else if (sh <? N.of_nat w) && (N.of_nat j + sh <? N.of_nat w) then index cur (N.to_nat (N.of_nat j + sh))
  else ret sign.

Fixpoint barrel_loop (sign : F) (w : nat) (left : bool) (k : nat) (s : list F) (cur : list F) : G (list F) :=
  match s with
  | [] => ret cur
  | sk :: s =>
    let! nsk := bnot sk in
    let! cur' := try_collect (seq 0 w) (λ j,
      let! shifted := shifted_bit cur sign w (stage_shift k) left j in
      let! on := band sk shifted in
      let! cj := index cur j in
      let! off := band nsk cj in
      bor on off) in
    check_node_budget ;! barrel_loop sign w left (S k) s cur'
  end.

Definition barrel_shift (a s : list F) (width : N) (left arith : bool) : G (list F) :=
  let w := N.to_nat width in
  let sign := if arith then if (w =? 0)%nat then bdd_f else bit_or_false a (w - 1) else bdd_f in
  barrel_loop sign w left 0 s (map (bit_or_false a) (seq 0 w)).

(** A fold of a gadget over the bits, with the budget checked at each. *)
Fixpoint reduce (step : F → F → G F) (bits : list F) (acc : F) : G F :=
  match bits with
  | [] => ret acc
  | b :: bits => let! acc := step acc b in check_node_budget ;! reduce step bits acc
  end.
Definition or_reduce (bits : list F) : G F := reduce bor bits bdd_f.
Definition and_reduce (bits : list F) : G F := reduce band bits bdd_t.
Definition xor_reduce (bits : list F) : G F := reduce bxor bits bdd_f.

Fixpoint eq_loop (a b : list F) (idx : list nat) (acc : F) : G F :=
  match idx with
  | [] => ret acc
  | i :: idx =>
    let! x := bxor (bit_or_false a i) (bit_or_false b i) in
    let! xnor := bnot x in
    let! acc := band acc xnor in
    check_node_budget ;! eq_loop a b idx acc
  end.
Definition eq_bits (a b : list F) : G (list F) :=
  let! acc := eq_loop a b (seq 0 (length a `max` length b)) bdd_t in ret [acc].

Definition uge (a b : list F) (width : N) : G F :=
  let! not_b := try_collect (seq 0 (N.to_nat width)) (λ i, bnot (bit_or_false b i)) in
  let! r := add_bits a not_b bdd_t width in ret r.2.

(** [w - 1] underflows at width zero. *)
Definition slt (a b : list F) (width : N) : G F :=
  if width =? 0 then panic
  else
    let amsb := bit_or_false a (N.to_nat width - 1) in
    let bmsb := bit_or_false b (N.to_nat width - 1) in
    let! signs_differ := bxor amsb bmsb in
    let! ge := uge a b width in
    let! ult := bnot ge in
    let! on := band signs_differ amsb in
    let! same := bnot signs_differ in
    let! off := band same ult in
    bor on off.

Definition zero_extend (bits : list F) (width : nat) : list F := map (bit_or_false bits) (seq 0 width).

(** The bits of a [u128]. *)
Definition const_bits (value : N) (width : nat) : list F :=
  map (λ b, if (b <? 128)%nat && N.testbit value (N.of_nat b) then bdd_t else bdd_f) (seq 0 width).

Inductive CmpOp := CEq | CNe | CGe | CLt | CLe | CGt.

Definition cmp_bits (a : list F) (op : CmpOp) (b : list F) (width : N) : G F :=
  match op with
  | CEq => let! e := eq_bits a b in index e 0
  | CNe => let! e := eq_bits a b in let! x := index e 0 in bnot x
  | CGe => uge a b width
  | CLt => let! x := uge a b width in bnot x
  | CLe => uge b a width
  | CGt => let! x := uge b a width in bnot x
  end.

(** The schoolbook product: partial sums from bit [i] on. *)
Fixpoint mul_loop (a b : list F) (width : N) (idx : list nat) (acc : list F) : G (list F) :=
  match idx with
  | [] => ret acc
  | i :: idx =>
    let bi := bit_or_false b i in
    let! partial := map_bits_checked width (λ j, if (i <=? j)%nat then band (bit_or_false a (j - i)) bi else ret bdd_f) in
    let! r := add_bits acc partial bdd_f width in
    mul_loop a b width idx r.1
  end.
Definition mul_bits (a b : list F) (width : N) : G (list F) :=
  mul_loop a b width (seq 0 (N.to_nat width)) (replicate (N.to_nat width) bdd_f).

Definition ite_bits (c : F) (t e : list F) (width : N) : G (list F) :=
  let! nc := bnot c in
  map_bits_checked width (λ i,
    let! ti := index t i in
    let! then_i := band c ti in
    let! ei := index e i in
    let! else_i := band nc ei in
    bor then_i else_i).

(** ** Operators *)

(** Every bit of a value negated. *)
Definition resolve (env : gmap Z (list F)) (o : Z) : G (list F) :=
  match env !! operand_nid o with
  | None => throw (OperandMissing (operand_nid o))
  | Some v => if is_negated o then try_collect v bnot else ret v
  end.

(** A literal: the bits of a binary one come from its text. *)
Definition blast_const `{!RadixParser} (value : ConstValue) (width : N) : G (list F) :=
  let bit (b : bool) : F := if b then bdd_t else bdd_f in
  match value with
  | CBin s =>
    let n := String.length s in
    ret (map (λ b, bit ((b <? n)%nat && match String.get (n - 1 - b) s with
                                        | Some c => Ascii.eqb c "1"%char
                                        | None => false
                                        end)) (seq 0 (N.to_nat width)))
  | _ =>
    match eval_const_value value width with
    | Some (Ok bv) => ret (map (λ b, bit (Bv.bit bv (N.of_nat b))) (seq 0 (N.to_nat width)))
    | Some (Err e) => throw (ConstantError e)
    | None => panic
    end
  end.

Definition single (c : G F) : G (list F) := let! f := c in ret [f].
Definition negated (c : G F) : G F := let! f := c in bnot f.
(** [a.len().max(b.len()) as u32]. *)
Definition max_len (a b : list F) : N := N.of_nat (length a `max` length b) mod 2 ^ 32.

(** [args[i]], resolved. *)
Definition read_arg (env : gmap Z (list F)) (args : list Z) (i : nat) : G (list F) :=
  match args !! i with Some o => resolve env o | None => panic end.

(** An operator on two operands. *)
Definition with_two (env : gmap Z (list F)) (args : list Z) (f : list F → list F → G (list F)) : G (list F) :=
  let! a := read_arg env args 0 in
  let! b := read_arg env args 1 in f a b.
Definition bitwise (env : gmap Z (list F)) (args : list Z) (width : N) (gate : F → F → G F) : G (list F) :=
  with_two env args (λ a b, map_bits_checked width (λ i,
    let! ai := index a i in
    let! bi := index b i in gate ai bi)).
Definition sum (a b : list F) (cin : F) (width : N) : G (list F) := let! r := add_bits a b cin width in ret r.1.
Definition complement (v : list F) (width : N) : G (list F) :=
  try_collect (seq 0 (N.to_nat width)) (λ i, let! b := index v i in bnot b).

(** The arm of an operator, between the two guards. *)
Definition op_arm (env : gmap Z (list F)) (op : Op) (immediates : list N) (args : list Z) (width : N) : G (list F) :=
  let two := with_two env args in
  let one (f : list F → G (list F)) : G (list F) := let! a := read_arg env args 0 in f a in
  match op with
  | Not => one (λ a, map_bits_checked width (λ i, let! ai := index a i in bnot ai))
  | And => bitwise env args width band
  | Or => bitwise env args width bor
  | Xor => bitwise env args width bxor
  | Nand => bitwise env args width (λ a b, negated (band a b))
  | Nor => bitwise env args width (λ a b, negated (bor a b))
  | Xnor => bitwise env args width (λ a b, negated (bxor a b))
  | Add => two (λ a b, sum a b bdd_f width)
  | Sub => two (λ a b, let! not_b := complement b width in sum a not_b bdd_t width)
  | Inc => one (λ a, sum a [] bdd_t width)
  | Dec => one (λ a, sum a (replicate (N.to_nat width) bdd_t) bdd_f width)
  | Neg => one (λ a, let! not_a := complement a width in sum not_a [] bdd_t width)
  | Mul => two (λ a b, mul_bits a b width)
  | Sll => two (λ a s, barrel_shift a s width true false)
  | Srl => two (λ a s, barrel_shift a s width false false)
  | Sra => two (λ a s, barrel_shift a s width false true)
  | Eq | Iff => two eq_bits
  | Neq => two (λ a b, single (let! e := eq_bits a b in let! x := index e 0 in bnot x))
  | Implies => two (λ a b,
      single (let! a_bool := or_reduce a in let! b_bool := or_reduce b in let! na := bnot a_bool in bor na b_bool))
  | Ugte => two (λ a b, single (uge a b (max_len a b)))
  | Ult => two (λ a b, single (negated (uge a b (max_len a b))))
  | Ugt => two (λ a b, single (negated (uge b a (max_len a b))))
  | Ulte => two (λ a b, single (uge b a (max_len a b)))
  | Slt => two (λ a b, single (slt a b (max_len a b)))
  | Sgt => two (λ a b, single (slt b a (max_len a b)))
  | Sgte => two (λ a b, single (negated (slt a b (max_len a b))))
  | Slte => two (λ a b, single (negated (slt b a (max_len a b))))
  | Redor => one (λ a, single (or_reduce a))
  | Redand => one (λ a, single (and_reduce a))
  | Redxor => one (λ a, single (xor_reduce a))
  | Concat => two (λ a b, ret (take (N.to_nat width) (b ++ a)))
  | Slice => one (λ a,
      match immediates !! 1%nat with
      | None => throw SliceMissingLower
      | Some lower => ret (map (λ i, bit_or_false a (N.to_nat lower + i)) (seq 0 (N.to_nat width)))
      end)
  | Uext => one (λ a, ret (map (bit_or_false a) (seq 0 (N.to_nat width))))
  | Sext => one (λ a, ret (map (get_or (default bdd_f (last a)) a) (seq 0 (N.to_nat width))))
  | Ite =>
    let! c := read_arg env args 0 in
    let! t := read_arg env args 1 in
    let! e := read_arg env args 2 in
    let! cond := index c 0 in ite_bits cond t e width
  | other => throw (OperatorUnsupported other)
  end.

Definition blast_op (env : gmap Z (list F)) (op : Op) (immediates : list N) (args : list Z) (width : N) : G (list F) :=
  check_node_budget ;!
  let! result := op_arm env op immediates args width in
  check_node_budget ;! ret result.
End blast.

(** ** The backend *)

Record Cell (F : Type) := { cell_symbol : string; cell_is_state : bool; cell_vars : list F; cell_varnos : list N }.
Arguments cell_symbol {F}.
Arguments cell_is_state {F}.
Arguments cell_vars {F}.
Arguments cell_varnos {F}.

Record BddBitBlaster (M F : Type) := {
  manager : M;
  limits : Limits;
  bb_env : gmap Z (list F);
  cells : list (Cell F);
  next_funcs : gmap string (list F);
  named_signals : gmap string (list F);
  constraint_bdd : F;
}.
Arguments manager {M F}.
Arguments limits {M F}.
Arguments bb_env {M F}.
Arguments cells {M F}.
Arguments next_funcs {M F}.
Arguments named_signals {M F}.
Arguments constraint_bdd {M F}.

Section backend.
Context {M F : Type} `{!BddLib M F}.
Abbreviation Blaster := (BddBitBlaster M F).

Definition with_manager (b : Blaster) (m : M) : Blaster :=
  {| manager := m; limits := limits b; bb_env := bb_env b; cells := cells b; next_funcs := next_funcs b;
     named_signals := named_signals b; constraint_bdd := constraint_bdd b |}.
Definition bind_node (n : Z) (v : list F) (b : Blaster) : Blaster :=
  {| manager := manager b; limits := limits b; bb_env := <[n := v]> (bb_env b); cells := cells b;
     next_funcs := next_funcs b; named_signals := named_signals b; constraint_bdd := constraint_bdd b |}.

(** A gadget run on the manager of the blaster. *)
Definition on_manager {A} (c : Comp M BlastError A) : Comp Blaster BlastError A := λ b,
  match c (manager b) with Some (r, m) => Some (r, with_manager b m) | None => None end.

#[export] Instance blaster_backend `{!RadixParser} : BvTermBackend Blaster (list F) BlastError := {
  eval_const value w := on_manager (blast_const value w);
  eval_op _ op immediates args w := λ b, on_manager (blast_op (limits b) (bb_env b) op immediates args w) b;
  bind_value := bind_node;
  honor_init _ := false;
  read_operand b o := match resolve (bb_env b) o (manager b) with Some (Ok v, _) => Some v | _ => None end;
  uf_substitute _ _ _ := None;
}.
End backend.
