(* ===== verification/BitBlastCorrect.v ===== *)
(** The gadgets of the bit-blaster compute the bits of the reference values.

    The meaning of a function of the BDD library is a boolean of an assignment of
    the variables, [den]; [BddMeaning] states it for the operations.  [gives c P]:
    the computation never panics, gives up only in a library or under limits that
    are not [reliable], and else ends with [P].  The gadgets, then the arms of
    the operators, then the backend as an implementation of the interface of
    [Btor2Spec]. *)
From S2P Require Import Prelude Bitvec Btor2 Btor2Spec BitBlast.
From Stdlib Require Import NArith.
Import Bv (Bv, Small, Wide).
Local Open Scope N_scope.

Class BddMeaning {M F : Type} `{!BddLib M F} (den : F → (N → bool) → bool) := {
  den_t ρ : den bdd_t ρ = true;
  den_f ρ : den bdd_f ρ = false;
  den_var i m f m' ρ : bdd_var i m = (Some f, m') → den f ρ = ρ i;
  den_not a m f m' ρ : bdd_not a m = (Some f, m') → den f ρ = negb (den a ρ);
  den_and a b m f m' ρ : bdd_and a b m = (Some f, m') → den f ρ = den a ρ && den b ρ;
  den_or a b m f m' ρ : bdd_or a b m = (Some f, m') → den f ρ = den a ρ || den b ρ;
  bdd_eqb_den a b : bdd_eqb a b = true ↔ ∀ ρ, den a ρ = den b ρ;
}.

(** The arena is never exhausted and the guards never fire. *)
Definition reliable {M F} `{!BddLib M F} (lim : Limits) : Prop :=
  (∀ a m, (bdd_not a m).1 ≠ None) ∧ (∀ a b m, (bdd_and a b m).1 ≠ None) ∧ (∀ a b m, (bdd_or a b m).1 ≠ None) ∧
  ∀ m, ∃ m', check_node_budget lim m = Some (Ok tt, m').

(** ** Numbers and their bits *)

Lemma bits_ext w a b : (∀ i, i < w → N.testbit a i = N.testbit b i) → bits w a = bits w b.
Proof.
  intros H. unfold bits. apply map_ext_in. intros i Hi. apply in_seq in Hi. apply H. lia.
Qed.

Lemma bits_mod w n : bits w (n mod 2 ^ w) = bits w n.
Proof. apply bits_ext. intros i Hi. by apply N.mod_pow2_bits_low. Qed.

Lemma odd_2 n b : N.odd (2 * n + N.b2n b) = b.
Proof. rewrite <-N.bit0_odd. apply N.testbit_0_r. Qed.

Lemma div2_2 n b : N.div2 (2 * n + N.b2n b) = n.
Proof. rewrite N.div2_div. symmetry. apply (N.div_unique _ _ _ (N.b2n b)); [destruct b; simpl; lia|done]. Qed.

Lemma mod_double n b k : (2 * n + N.b2n b) mod 2 ^ N.succ k = 2 * (n mod 2 ^ k) + N.b2n b.
Proof.
  rewrite N.pow_succ_r'. symmetry. pose proof (mod_lt_pow n k).
  apply (N.mod_unique _ _ (n / 2 ^ k)); [destruct b; cbn [N.b2n]; lia|].
  pose proof (N.div_mod' n (2 ^ k)). lia.
Qed.

(** The carry of an adder. *)
Definition carry_out (k A B : N) (c : bool) : bool := 2 ^ k <=? A mod 2 ^ k + B mod 2 ^ k + N.b2n c.
Definition majority (a b c : bool) : bool := (a && b) || (c && xorb a b).

Lemma full_adder A B a b c :
  2 * A + N.b2n a + (2 * B + N.b2n b) + N.b2n c = 2 * (A + B + N.b2n (majority a b c)) + N.b2n (xorb (xorb a b) c).
Proof. destruct a, b, c; cbn; lia. Qed.

Lemma carry_out_step k A B a b c :
  carry_out (N.succ k) (2 * A + N.b2n a) (2 * B + N.b2n b) c = carry_out k A B (majority a b c).
Proof.
  unfold carry_out. rewrite !mod_double, N.pow_succ_r'. apply bool_eq_iff. rewrite !N.leb_le.
  pose proof (full_adder (A mod 2 ^ k) (B mod 2 ^ k) a b c). destruct (xorb (xorb a b) c); cbn [N.b2n] in *; lia.
Qed.

Lemma shiftr_step A i : N.shiftr A i = 2 * N.shiftr A (N.succ i) + N.b2n (N.testbit A i).
Proof.
  rewrite (N.div2_odd (N.shiftr A i)), <-N.bit0_odd, N.shiftr_spec', N.add_0_l.
  f_equal. f_equal. apply N.bits_inj. intros j. rewrite N.div2_spec, !N.shiftr_spec'. f_equal. lia.
Qed.

(** Subtraction and comparison by adding the complement. *)
Lemma lxor_ones w n : n < 2 ^ w → N.lxor n (N.ones w) = 2 ^ w - 1 - n.
Proof.
  intros Hn. destruct (N.eq_dec w 0) as [->|Hw]; [by assert (n = 0) as -> by (simpl in Hn; lia)|].
  change (N.lxor n (N.ones w)) with (N.lnot n w). rewrite N.lnot_sub_low, N.ones_equiv; [lia|].
  destruct (N.eq_dec n 0) as [->|H0]; [simpl; lia|apply N.log2_lt_pow2; lia].
Qed.

Lemma sub_complement w a b : b < 2 ^ w → (a + N.lxor b (N.ones w) + 1) mod 2 ^ w = (a + 2 ^ w - b) mod 2 ^ w.
Proof. intros Hb. rewrite lxor_ones by done. f_equal. lia. Qed.

Lemma carry_uge w a b : a < 2 ^ w → b < 2 ^ w → carry_out w a (N.lxor b (N.ones w)) true = (b <=? a).
Proof.
  intros Ha Hb. unfold carry_out. pose proof (pow2_positive w). rewrite lxor_ones, !N.mod_small by lia.
  apply bool_eq_iff. rewrite !N.leb_le. cbn [N.b2n]. lia.
Qed.

Lemma signed_ltb w a b :
  0 < w → a < 2 ^ w → b < 2 ^ w →
  (signed w a <? signed w b)%Z =
  if xorb (N.testbit a (w - 1)) (N.testbit b (w - 1)) then N.testbit a (w - 1) else a <? b.
Proof.
  intros Hw Ha Hb. rewrite <-slt_bool_mk by done. unfold Bv.slt_bool. rewrite !is_negative_mk, ult_bool_mk.
  replace (w =? 0) with false by (symmetry; apply N.eqb_neq; lia). cbn [negb andb].
  destruct (N.testbit a (w - 1)), (N.testbit b (w - 1)); done.
Qed.

(** Folds of the bits. *)
Lemma div2_lt n w : n < 2 ^ N.succ w → N.div2 n < 2 ^ w.
Proof. intros Hn. rewrite N.div2_div. apply N.Div0.div_lt_upper_bound. by rewrite <-N.pow_succ_r'. Qed.

Lemma foldl_orb b w n : n < 2 ^ w → foldl orb b (bits w n) = b || negb (n =? 0).
Proof.
  revert b n. induction w as [|w IH] using N.peano_ind; intros b n Hn.
  - assert (n = 0) as -> by (simpl in Hn; lia). by destruct b.
  - rewrite bits_double. cbn [foldl]. rewrite IH by (by apply div2_lt).
    assert (E : (n =? 0) = (N.div2 n =? 0) && negb (N.odd n)).
    { pose proof (N.div2_odd n) as Ho. destruct (N.odd n); cbn [N.b2n negb] in *; rewrite ?andb_true_r, ?andb_false_r.
      - apply N.eqb_neq. lia.
      - apply bool_eq_iff. rewrite !N.eqb_eq. lia. }
    rewrite E. by destruct b, (N.odd n), (N.div2 n =? 0).
Qed.

Lemma foldl_andb b w n : n < 2 ^ w → foldl andb b (bits w n) = b && (n =? N.ones w).
Proof.
  revert b n. induction w as [|w IH] using N.peano_ind; intros b n Hn.
  - assert (n = 0) as -> by (simpl in Hn; lia). by destruct b.
  - rewrite bits_double. cbn [foldl]. rewrite IH by (by apply div2_lt).
    assert (Ho : N.ones (N.succ w) = 2 * N.ones w + N.b2n true).
    { rewrite !N.ones_equiv, N.pow_succ_r'. cbn [N.b2n]. pose proof (pow2_positive w). lia. }
    assert (E : (n =? N.ones (N.succ w)) = (N.div2 n =? N.ones w) && N.odd n).
    { rewrite Ho. pose proof (N.div2_odd n) as Hd.
      destruct (N.odd n); cbn [N.b2n] in *; rewrite ?andb_true_r, ?andb_false_r.
      - apply bool_eq_iff. rewrite !N.eqb_eq. lia.
      - apply N.eqb_neq. lia. }
    rewrite E. by destruct b, (N.odd n), (N.div2 n =? N.ones w).
Qed.

(** The outcome of a shift by [S] of the bits [g] of width [w]. *)
Definition shift_bits (left : bool) (sign : bool) (w : N) (g : N → bool) (S j : N) : bool :=
  if left then if S <=? j then g (j - S) else false
  else if j + S <? w then g (j + S) else sign.

Lemma shift_bits_add left sign w g S1 S2 j :
  shift_bits left sign w (shift_bits left sign w g S1) S2 j = shift_bits left sign w g (S1 + S2) j.
Proof.
  unfold shift_bits. destruct left.
  - destruct (N.leb_spec S2 j), (N.leb_spec S1 (j - S2)), (N.leb_spec (S1 + S2) j); try lia; try done. f_equal. lia.
  - destruct (N.ltb_spec (j + S2) w), (N.ltb_spec (j + S2 + S1) w), (N.ltb_spec (j + (S1 + S2)) w); try lia; try done.
    f_equal. lia.
Qed.

Lemma shift_bits_ext left sign w g g' S j :
  (∀ i, i < w → g i = g' i) → j < w → shift_bits left sign w g S j = shift_bits left sign w g' S j.
Proof.
  intros H Hj. unfold shift_bits. destruct left.
  - destruct (S <=? j); [|done]. apply H. lia.
  - destruct (N.ltb_spec (j + S) w); [|done]. by apply H.
Qed.

Lemma shift_bits_far left sign w g S S' j : j < w → w ≤ S → w ≤ S' →
  shift_bits left sign w g S j = shift_bits left sign w g S' j.
Proof.
  intros Hj H1 H2. unfold shift_bits. destruct left.
  - by rewrite !(proj2 (N.leb_gt _ _)) by lia.
  - by rewrite !(proj2 (N.ltb_ge _ _)) by lia.
Qed.

Lemma stage_shift_bits left sign w g k j :
  w < 2 ^ 32 → j < w → shift_bits left sign w g (stage_shift k) j = shift_bits left sign w g (2 ^ N.of_nat k) j.
Proof.
  intros Hw Hj. unfold stage_shift. destruct (Nat.ltb_spec k 64) as [Hk|Hk]; [done|].
  apply shift_bits_far; [done|lia|]. pose proof (N.pow_le_mono_r 2 64 (N.of_nat k) ltac:(done) ltac:(lia)). lia.
Qed.

Lemma sll_bits w a n j : j < w → N.testbit (N.shiftl a (N.min n w) mod 2 ^ w) j = shift_bits true false w (N.testbit a) n j.
Proof.
  intros Hj. rewrite N.mod_pow2_bits_low by done. unfold shift_bits. destruct (N.leb_spec n j).
  - rewrite N.shiftl_spec_high' by lia. f_equal. lia.
  - by rewrite N.shiftl_spec_low by lia.
Qed.

Lemma srl_bits w a n j :
  a < 2 ^ w → j < w → N.testbit (N.shiftr a (N.min n w)) j = shift_bits false false w (N.testbit a) n j.
Proof.
  intros Ha Hj. rewrite N.shiftr_spec'. unfold shift_bits. destruct (N.ltb_spec (j + n) w).
  - f_equal. lia.
  - apply (bits_above a w); [done|lia].
Qed.

Lemma sra_bits w a n j :
  a < 2 ^ w → j < w →
  N.testbit (sra_value w a (N.min n w)) j = shift_bits false (N.testbit a (w - 1)) w (N.testbit a) n j.
Proof.
  intros Ha Hj. unfold sra_value. replace (w =? 0) with false by (symmetry; apply N.eqb_neq; lia). cbn [negb andb].
  destruct (N.testbit a (w - 1)) eqn:Hs; [|by apply srl_bits].
  rewrite N.lor_spec, (srl_bits w a n j), N.mod_pow2_bits_low by done. unfold shift_bits.
  destruct (N.ltb_spec (j + n) w).
  - rewrite N.shiftl_spec_low by lia. apply orb_false_r.
  - rewrite N.shiftl_spec_high' by lia. rewrite N.ones_spec_low by lia. done.
Qed.

(** ** Computations *)

Section gadgets.
Context {M F : Type} `{!BddLib M F} {den : F → (N → bool) → bool} `{!BddMeaning den}.
Context (lim : Limits) (ρ : N → bool).

Definition gives {A} (c : Comp M BlastError A) (P : A → Prop) : Prop := ∀ m,
  match c m with Some (Ok a, _) => P a | Some (Err _, _) => ¬ reliable lim | None => False end.

Lemma gives_ret {A} (a : A) (P : A → Prop) : P a → gives (ret a) P.
Proof using Type. by intros Ha m. Qed.

Lemma gives_bind {A B} (c : Comp M BlastError A) (k : A → Comp M BlastError B) P Q :
  gives c P → (∀ a, P a → gives (k a) Q) → gives (gbind c k) Q.
Proof using Type.
  intros Hc Hk m. unfold gbind. specialize (Hc m). destruct (c m) as [[[a|e] m']|]; [|done|done]. by apply Hk.
Qed.

Lemma gives_mono {A} (c : Comp M BlastError A) (P Q : A → Prop) : gives c P → (∀ a, P a → Q a) → gives c Q.
Proof using Type. intros Hc HPQ m. specialize (Hc m). destruct (c m) as [[[a|e] m']|]; auto. Qed.

Lemma gives_check : gives (check_node_budget lim) (λ _, True).
Proof using Type.
  intros m. destruct (check_node_budget lim m) as [[[[]|e] m']|] eqn:E; [done| |].
  - intros (_ & _ & _ & H). destruct (H m) as [m'' Hm]. congruence.
  - unfold check_node_budget in E. destruct (run_expired m). repeat case_match; done.
Qed.

Lemma gives_bnot a b : den a ρ = b → gives (bnot a) (λ f, den f ρ = negb b).
Proof using All.
  intros <- m. unfold bnot, oom. destruct (bdd_not a m) as [[f|] m'] eqn:E; [by eapply den_not|].
  intros (H & _). apply (H a m). by rewrite E.
Qed.

Lemma gives_band a b x y : den a ρ = x → den b ρ = y → gives (band a b) (λ f, den f ρ = x && y).
Proof using All.
  intros <- <- m. unfold band, oom. destruct (bdd_and a b m) as [[f|] m'] eqn:E; [by eapply den_and|].
  intros (_ & H & _). apply (H a b m). by rewrite E.
Qed.

Lemma gives_bor a b x y : den a ρ = x → den b ρ = y → gives (bor a b) (λ f, den f ρ = x || y).
Proof using All.
  intros <- <- m. unfold bor, oom. destruct (bdd_or a b m) as [[f|] m'] eqn:E; [by eapply den_or|].
  intros (_ & _ & H & _). apply (H a b m). by rewrite E.
Qed.

Lemma gives_bxor a b x y : den a ρ = x → den b ρ = y → gives (bxor a b) (λ f, den f ρ = xorb x y).
Proof using All.
  intros Ha Hb. unfold bxor.
  eapply gives_bind; [exact (gives_bnot _ _ Hb)|]. intros nb Hnb.
  eapply gives_bind; [exact (gives_band _ _ _ _ Ha Hnb)|]. intros lhs Hl.
  eapply gives_bind; [exact (gives_bnot _ _ Ha)|]. intros na Hna.
  eapply gives_bind; [exact (gives_band _ _ _ _ Hna Hb)|]. intros rhs Hr.
  eapply gives_mono; [exact (gives_bor _ _ _ _ Hl Hr)|]. intros f ->. by destruct x, y.
Qed.

(** ** Vectors of bits *)

Definition dens (v : list F) : list bool := map (λ f, den f ρ) v.

(** The vector holds the value [n] of width [w]. *)
Definition is_bits (w n : N) (v : list F) : Prop := dens v = bits w n.

Lemma gives_collect {A} (l : list A) (f : A → Comp M BlastError F) (g : A → bool) :
  (∀ a, a ∈ l → gives (f a) (λ x, den x ρ = g a)) → gives (try_collect l f) (λ v, dens v = map g l).
Proof using Type.
  induction l as [|a l IH]; intros H; [by apply gives_ret|]. cbn [try_collect].
  eapply gives_bind; [apply H; left|]. intros b Hb.
  eapply gives_bind; [apply IH; intros; apply H; by right|]. intros bs Hbs.
  apply gives_ret. unfold dens in *. cbn [map]. by rewrite Hb, Hbs.
Qed.

Lemma seq_bits w n (g : nat → bool) :
  (∀ i, N.of_nat i < w → g i = N.testbit n (N.of_nat i)) → map g (seq 0 (N.to_nat w)) = bits w n.
Proof using Type. intros H. apply map_ext_in. intros i Hi. apply in_seq in Hi. apply H. lia. Qed.

Lemma gives_collect_bits w n f :
  (∀ i, N.of_nat i < w → gives (f i) (λ x, den x ρ = N.testbit n (N.of_nat i))) →
  gives (try_collect (seq 0 (N.to_nat w)) f) (is_bits w n).
Proof using Type.
  intros H. apply (gives_collect _ _ (λ i, N.testbit n (N.of_nat i))).
  intros i Hi. apply list_elem_of_In, in_seq in Hi. apply H. lia.
Qed.

Lemma gives_checked {A} (c : Comp M BlastError A) P :
  gives c P → gives (gbind c (λ b, gbind (check_node_budget lim) (λ _, ret b))) P.
Proof using Type.
  intros Hc. eapply gives_bind; [exact Hc|]. intros a Ha.
  eapply gives_bind; [apply gives_check|]. intros _ _. by apply gives_ret.
Qed.

Lemma gives_map_bits w n f :
  (∀ i, N.of_nat i < w → gives (f i) (λ x, den x ρ = N.testbit n (N.of_nat i))) →
  gives (map_bits_checked lim w f) (is_bits w n).
Proof using Type. intros H. apply gives_collect_bits. intros i Hi. by apply gives_checked, H. Qed.

Lemma is_bits_length w n v : is_bits w n v → length v = N.to_nat w.
Proof using Type. unfold is_bits, dens. intros H. by rewrite <-(length_bits w n), <-H, length_map. Qed.

(** Reading a bit, in range or with the default. *)
Lemma gives_index w n v i :
  is_bits w n v → N.of_nat i < w → gives (index v i) (λ f, den f ρ = N.testbit n (N.of_nat i)).
Proof using Type.
  intros Hv Hi m. unfold index. pose proof (lookup_bits w n i ltac:(lia)) as Hl.
  rewrite <-Hv in Hl. unfold dens in Hl. rewrite list_lookup_fmap in Hl.
  destruct (v !! i) as [f|]; [|done]. by injection Hl.
Qed.

Lemma get_or_bit d w n v i :
  is_bits w n v → n < 2 ^ w →
  den (get_or d v i) ρ = if N.of_nat i <? w then N.testbit n (N.of_nat i) else den d ρ.
Proof using Type.
  intros Hv Hn. unfold get_or. destruct (N.ltb_spec (N.of_nat i) w) as [Hi|Hi].
  - pose proof (lookup_bits w n i ltac:(lia)) as Hl. rewrite <-Hv in Hl. unfold dens in Hl.
    rewrite list_lookup_fmap in Hl. destruct (v !! i) as [f|]; [|done]. by injection Hl.
  - rewrite lookup_ge_None_2; [done|]. rewrite (is_bits_length w n) by done. lia.
Qed.

Lemma bit_or_false_bit w n v i :
  is_bits w n v → n < 2 ^ w → den (bit_or_false v i) ρ = N.testbit n (N.of_nat i).
Proof using BddMeaning0.
  intros Hv Hn. unfold bit_or_false. rewrite (get_or_bit _ w n) by done.
  destruct (N.ltb_spec (N.of_nat i) w); [done|]. rewrite den_f. symmetry. by apply (bits_above n w).
Qed.

(** ** The gadgets *)

(** A vector read with false beyond its end, as a number. *)
Definition reads (n : N) (v : list F) : Prop := ∀ i, den (bit_or_false v i) ρ = N.testbit n (N.of_nat i).

Lemma is_bits_reads w n v : is_bits w n v → n < 2 ^ w → reads n v.
Proof using BddMeaning0. intros Hv Hn i. by apply (bit_or_false_bit w). Qed.

Lemma reads_nil : reads 0 [].
Proof using BddMeaning0. intros i. unfold bit_or_false, get_or. rewrite lookup_nil. cbn [default]. by rewrite den_f, N.bits_0. Qed.

Lemma gives_add_loop n i a b carry A B c :
  reads A a → reads B b → den carry ρ = c →
  gives (add_loop lim a b i n carry) (λ r,
    is_bits (N.of_nat n) (N.shiftr A (N.of_nat i) + N.shiftr B (N.of_nat i) + N.b2n c) r.1 ∧
    den r.2 ρ = carry_out (N.of_nat n) (N.shiftr A (N.of_nat i)) (N.shiftr B (N.of_nat i)) c).
Proof using All.
  intros Ha Hb. revert i carry c. induction n as [|n IH]; intros i carry c Hc; cbn [add_loop].
  { apply gives_ret. split; [done|]. cbn [snd]. rewrite Hc. unfold carry_out. simpl. rewrite !N.mod_1_r.
    by destruct c. }
  set (x := N.testbit A (N.of_nat i)). set (y := N.testbit B (N.of_nat i)).
  eapply gives_bind; [exact (gives_bxor _ _ _ _ (Ha i) (Hb i))|]. intros axb Haxb.
  eapply gives_bind; [exact (gives_bxor _ _ _ _ Haxb Hc)|]. intros s Hs.
  eapply gives_bind; [exact (gives_band _ _ _ _ (Ha i) (Hb i))|]. intros ab Hab.
  eapply gives_bind; [exact (gives_band _ _ _ _ Hc Haxb)|]. intros cx Hcx.
  eapply gives_bind; [exact (gives_bor _ _ _ _ Hab Hcx)|]. intros c' Hc'.
  eapply gives_bind; [apply gives_check|]. intros _ _.
  eapply gives_bind; [exact (IH (S i) c' (majority x y c) Hc')|]. intros r [Hr1 Hr2].
  apply gives_ret. cbn [fst snd]. rewrite !Nat2N.inj_succ in *.
  rewrite (shiftr_step A (N.of_nat i)), (shiftr_step B (N.of_nat i)). fold x y. split.
  - rewrite full_adder. unfold is_bits. rewrite bits_double, odd_2, div2_2. unfold dens. cbn [map].
    rewrite Hs. f_equal. exact Hr1.
  - by rewrite carry_out_step.
Qed.

Lemma gives_add_bits w a b cin A B c :
  reads A a → reads B b → den cin ρ = c →
  gives (add_bits lim a b cin w) (λ r, is_bits w (A + B + N.b2n c) r.1 ∧ den r.2 ρ = carry_out w A B c).
Proof using All.
  intros Ha Hb Hc. eapply gives_mono; [exact (gives_add_loop (N.to_nat w) 0 a b cin A B c Ha Hb Hc)|].
  intros r. cbn [N.of_nat]. by rewrite !N.shiftr_0_r, N2Nat.id.
Qed.

(** The low bits of a sum. *)
Lemma gives_sum w a b cin A B c n :
  reads A a → reads B b → den cin ρ = c → (A + B + N.b2n c) mod 2 ^ w = n mod 2 ^ w →
  gives (sum lim a b cin w) (is_bits w n).
Proof using All.
  intros Ha Hb Hc Hn. unfold sum. eapply gives_bind; [exact (gives_add_bits w _ _ _ _ _ _ Ha Hb Hc)|].
  intros r [Hr _]. apply gives_ret. unfold is_bits in *. by rewrite Hr, <-bits_mod, Hn, bits_mod.
Qed.

Lemma gives_complement w v n : is_bits w n v → gives (complement v w) (is_bits w (N.lxor n (N.ones w))).
Proof using All.
  intros Hv. apply gives_collect_bits. intros i Hi. eapply gives_bind; [by eapply gives_index|].
  intros b Hb. eapply gives_mono; [exact (gives_bnot _ _ Hb)|]. intros f ->.
  by rewrite N.lxor_spec, N.ones_spec_low, xorb_true_r.
Qed.

Lemma gives_uge w a b A B :
  is_bits w A a → is_bits w B b → A < 2 ^ w → B < 2 ^ w →
  gives (uge lim a b w) (λ f, den f ρ = (B <=? A)).
Proof using All.
  intros Ha Hb HA HB. unfold uge.
  eapply gives_bind.
  { apply (gives_collect_bits w (N.lxor B (N.ones w))). intros i Hi.
    eapply gives_mono; [exact (gives_bnot _ _ (bit_or_false_bit w B b i Hb HB))|]. intros f ->.
    by rewrite N.lxor_spec, N.ones_spec_low, xorb_true_r. }
  intros nb Hnb.
  assert (Hlt : N.lxor B (N.ones w) < 2 ^ w) by auto with bv.
  eapply gives_bind; [exact (gives_add_bits w _ _ _ _ _ _ (is_bits_reads _ _ _ Ha HA) (is_bits_reads _ _ _ Hnb Hlt) (den_t ρ))|].
  intros r [_ Hr]. apply gives_ret. by rewrite Hr, carry_uge.
Qed.

Lemma gives_negated c b : gives c (λ f, den f ρ = b) → gives (negated c) (λ f, den f ρ = negb b).
Proof using All. intros Hc. eapply gives_bind; [exact Hc|]. intros f Hf. exact (gives_bnot _ _ Hf). Qed.

Lemma gives_single c b : gives c (λ f, den f ρ = b) → gives (single c) (is_bits 1 (bool_value b)).
Proof using Type.
  intros Hc. eapply gives_bind; [exact Hc|]. intros f Hf. apply gives_ret. unfold is_bits, dens. cbn.
  rewrite Hf. by destruct b.
Qed.

Lemma gives_slt w a b A B :
  0 < w → is_bits w A a → is_bits w B b → A < 2 ^ w → B < 2 ^ w →
  gives (slt lim a b w) (λ f, den f ρ = (signed w A <? signed w B)%Z).
Proof using All.
  intros Hw Ha Hb HA HB. unfold slt. replace (w =? 0) with false by (symmetry; apply N.eqb_neq; lia).
  pose proof (bit_or_false_bit w A a (N.to_nat w - 1) Ha HA) as Hx.
  pose proof (bit_or_false_bit w B b (N.to_nat w - 1) Hb HB) as Hy.
  replace (N.of_nat (N.to_nat w - 1)) with (w - 1) in Hx, Hy by lia.
  eapply gives_bind; [exact (gives_bxor _ _ _ _ Hx Hy)|]. intros sd Hsd.
  eapply gives_bind; [exact (gives_uge w a b A B Ha Hb HA HB)|]. intros ge Hge.
  eapply gives_bind; [exact (gives_bnot _ _ Hge)|]. intros ult Hult.
  eapply gives_bind; [exact (gives_band _ _ _ _ Hsd Hx)|]. intros on Hon.
  eapply gives_bind; [exact (gives_bnot _ _ Hsd)|]. intros same Hsame.
  eapply gives_bind; [exact (gives_band _ _ _ _ Hsame Hult)|]. intros off Hoff.
  eapply gives_mono; [exact (gives_bor _ _ _ _ Hon Hoff)|]. intros f ->. rewrite signed_ltb by done.
  replace (A <? B) with (negb (B <=? A)) by (apply bool_eq_iff; rewrite negb_true_iff, N.leb_gt, N.ltb_lt; done).
  by destruct (N.testbit A (w - 1)), (N.testbit B (w - 1)), (B <=? A).
Qed.

Lemma gives_reduce step g :
  (∀ a b x y, den a ρ = x → den b ρ = y → gives (step a b) (λ f, den f ρ = g x y)) →
  ∀ v acc, gives (reduce lim step v acc) (λ f, den f ρ = foldl g (den acc ρ) (dens v)).
Proof using Type.
  intros Hstep v. induction v as [|b v IH]; intros acc; cbn [reduce]; [by apply gives_ret|].
  eapply gives_bind; [by apply (Hstep acc b)|]. intros acc' Hacc.
  eapply gives_bind; [apply gives_check|]. intros _ _.
  eapply gives_mono; [apply IH|]. intros f ->. rewrite Hacc. done.
Qed.

Lemma gives_or_reduce w n v : is_bits w n v → n < 2 ^ w → gives (or_reduce lim v) (λ f, den f ρ = negb (n =? 0)).
Proof using All.
  intros Hv Hn. eapply gives_mono; [exact (gives_reduce _ _ gives_bor v bdd_f)|].
  intros f ->. by rewrite Hv, den_f, foldl_orb.
Qed.

Lemma gives_and_reduce w n v : is_bits w n v → n < 2 ^ w → gives (and_reduce lim v) (λ f, den f ρ = (n =? N.ones w)).
Proof using All.
  intros Hv Hn. eapply gives_mono; [exact (gives_reduce _ _ gives_band v bdd_t)|].
  intros f ->. by rewrite Hv, den_t, foldl_andb.
Qed.

Lemma gives_xor_reduce w n v : is_bits w n v → n < 2 ^ w → gives (xor_reduce lim v) (λ f, den f ρ = N.odd (ones_count n)).
Proof using All.
  intros Hv Hn. eapply gives_mono; [exact (gives_reduce _ _ gives_bxor v bdd_f)|].
  intros f ->. rewrite Hv, den_f. by apply parity_ones_count.
Qed.

Lemma gives_eq_loop a b A B idx acc :
  reads A a → reads B b →
  gives (eq_loop lim a b idx acc) (λ f, den f ρ =
    den acc ρ && forallb (λ i, eqb (N.testbit A (N.of_nat i)) (N.testbit B (N.of_nat i))) idx).
Proof using All.
  intros Ha Hb. revert acc. induction idx as [|i idx IH]; intros acc; cbn [eq_loop forallb].
  { apply gives_ret. by rewrite andb_true_r. }
  eapply gives_bind; [exact (gives_bxor _ _ _ _ (Ha i) (Hb i))|]. intros x Hx.
  eapply gives_bind; [exact (gives_bnot _ _ Hx)|]. intros xn Hxn.
  eapply gives_bind; [exact (gives_band acc xn _ _ eq_refl Hxn)|]. intros acc' Hacc.
  eapply gives_bind; [apply gives_check|]. intros _ _.
  eapply gives_mono; [apply IH|]. intros f ->. rewrite Hacc, <-andb_assoc. f_equal. f_equal.
  by destruct (N.testbit A _), (N.testbit B _).
Qed.

Lemma gives_eq_bits w a b A B :
  is_bits w A a → is_bits w B b → A < 2 ^ w → B < 2 ^ w → gives (eq_bits lim a b) (is_bits 1 (bool_value (A =? B))).
Proof using All.
  intros Ha Hb HA HB. unfold eq_bits. rewrite (is_bits_length _ _ _ Ha), (is_bits_length _ _ _ Hb), Nat.max_id.
  eapply gives_bind; [exact (gives_eq_loop a b A B _ bdd_t (is_bits_reads _ _ _ Ha HA) (is_bits_reads _ _ _ Hb HB))|].
  intros f Hf. apply gives_ret. unfold is_bits, dens. cbn. rewrite Hf, den_t. cbn [andb].
  assert (E : forallb (λ i, eqb (N.testbit A (N.of_nat i)) (N.testbit B (N.of_nat i))) (seq 0 (N.to_nat w)) = (A =? B)).
  { apply bool_eq_iff. rewrite forallb_forall, N.eqb_eq. split; [|intros -> i _; apply eqb_reflx].
    intros H. apply (bits_inj w); [done|done|]. apply bits_ext. intros i Hi.
    specialize (H (N.to_nat i)). rewrite N2Nat.id in H. apply eqb_prop, H, in_seq. lia. }
  rewrite E. by destruct (A =? B).
Qed.

Lemma is_bits_mod w a b v : is_bits w a v → a mod 2 ^ w = b mod 2 ^ w → is_bits w b v.
Proof using Type. intros Hv H. unfold is_bits in *. by rewrite Hv, <-bits_mod, H, bits_mod. Qed.

Lemma gives_mul_loop w a b A B k i acc X :
  reads A a → reads B b → B < 2 ^ w → (i + k = N.to_nat w)%nat → is_bits w X acc →
  gives (mul_loop lim a b w (seq i k) acc) (is_bits w (X + A * 2 ^ N.of_nat i * N.shiftr B (N.of_nat i))).
Proof using All.
  intros Ha Hb HB. revert i acc X. induction k as [|k IH]; intros i acc X Hi Hacc; cbn [seq mul_loop].
  { apply gives_ret. assert (N.shiftr B (N.of_nat i) = 0) as ->; [|by rewrite N.mul_0_r, N.add_0_r].
    apply N.bits_inj_0. intros j. rewrite N.shiftr_spec'. apply (bits_above B w); [done|lia]. }
  set (bi := N.testbit B (N.of_nat i)). set (P := A * 2 ^ N.of_nat i * N.b2n bi).
  eapply gives_bind.
  { apply (gives_map_bits w P). intros j Hj. destruct (Nat.leb_spec i j) as [Hij|Hij].
    - eapply gives_mono; [exact (gives_band _ _ _ _ (Ha (j - i)%nat) (Hb i))|]. intros f ->. fold bi. unfold P.
      destruct bi; cbn [N.b2n]; [|by rewrite N.mul_0_r, N.bits_0, andb_false_r].
      rewrite N.mul_1_r, <-N.shiftl_mul_pow2, N.shiftl_spec_high' by lia. rewrite andb_true_r. f_equal. lia.
    - apply gives_ret. rewrite den_f. unfold P. destruct bi; cbn [N.b2n]; [|by rewrite N.mul_0_r, N.bits_0].
      by rewrite N.mul_1_r, <-N.shiftl_mul_pow2, N.shiftl_spec_low by lia. }
  intros p Hp.
  assert (Hx : is_bits w (X mod 2 ^ w) acc) by (eapply is_bits_mod; [exact Hacc|by rewrite N.Div0.mod_mod]).
  assert (Hq : is_bits w (P mod 2 ^ w) p) by (eapply is_bits_mod; [exact Hp|by rewrite N.Div0.mod_mod]).
  eapply gives_bind.
  { exact (gives_add_bits w _ _ _ _ _ _ (is_bits_reads _ _ _ Hx (mod_lt_pow _ _))
             (is_bits_reads _ _ _ Hq (mod_lt_pow _ _)) (den_f ρ)). }
  intros r [Hr _]. cbn [N.b2n] in Hr. rewrite N.add_0_r in Hr.
  assert (Hr' : is_bits w (X + P) r.1) by (eapply is_bits_mod; [exact Hr|by rewrite <-N.Div0.add_mod]).
  eapply gives_mono; [apply (IH (S i) r.1 (X + P)); [lia|exact Hr']|]. intros v Hv.
  rewrite (shiftr_step B (N.of_nat i)). fold bi. eapply is_bits_mod; [exact Hv|]. f_equal. unfold P.
  rewrite Nat2N.inj_succ, N.pow_succ_r'. lia.
Qed.

Lemma is_bits_replicate w n x :
  (∀ i, i < w → den x ρ = N.testbit n i) → is_bits w n (replicate (N.to_nat w) x).
Proof using Type.
  intros Hx. unfold is_bits. apply list_eq. intros i. unfold dens. rewrite list_lookup_fmap.
  destruct (decide (i < N.to_nat w)%nat) as [Hi|Hi].
  - rewrite lookup_replicate_2, lookup_bits by done. cbn. f_equal. apply Hx. lia.
  - rewrite !lookup_ge_None_2; [done| |]; rewrite ?length_bits, ?length_replicate; lia.
Qed.

Lemma gives_mul_bits w a b A B :
  reads A a → reads B b → B < 2 ^ w → gives (mul_bits lim a b w) (is_bits w ((A * B) mod 2 ^ w)).
Proof using All.
  intros Ha Hb HB. unfold mul_bits.
  eapply gives_mono; [apply (gives_mul_loop w a b A B _ _ _ 0); [done|done|done|done|]|].
  - apply is_bits_replicate. intros i Hi. by rewrite den_f, N.bits_0.
  - intros v Hv. cbn [N.of_nat] in Hv. rewrite N.shiftr_0_r, N.pow_0_r, N.mul_1_r, N.add_0_l in Hv.
    eapply is_bits_mod; [exact Hv|by rewrite N.Div0.mod_mod].
Qed.

(** *** The barrel shifter *)

Definition follows (w : N) (g : N → bool) (v : list F) : Prop :=
  dens v = map (λ i, g (N.of_nat i)) (seq 0 (N.to_nat w)).

Lemma follows_index w g v i : follows w g v → N.of_nat i < w → gives (index v i) (λ f, den f ρ = g (N.of_nat i)).
Proof using Type.
  intros Hv Hi m. unfold index.
  assert (Hl : dens v !! i = Some (g (N.of_nat i))) by (rewrite Hv, list_lookup_fmap, lookup_seq_lt by lia; done).
  unfold dens in Hl. rewrite list_lookup_fmap in Hl. destruct (v !! i) as [f|]; [|done]. by injection Hl.
Qed.

Lemma gives_shifted_bit w g cur sign sg sh left j :
  follows w g cur → den sign ρ = sg → N.of_nat j < w →
  gives (shifted_bit cur sign (N.to_nat w) sh left j) (λ f, den f ρ = shift_bits left sg w g sh (N.of_nat j)).
Proof using All.
  intros Hg Hsg Hj. unfold shifted_bit, shift_bits. rewrite N2Nat.id. destruct left.
  - destruct (N.leb_spec sh (N.of_nat j)); [|apply gives_ret, den_f].
    eapply gives_mono; [apply (follows_index w g); [done|lia]|]. intros f ->. by rewrite N2Nat.id.
  - destruct (N.ltb_spec (N.of_nat j + sh) w).
    + rewrite (proj2 (N.ltb_lt sh w)) by lia. cbn [andb].
      eapply gives_mono; [apply (follows_index w g); [done|lia]|]. intros f ->. by rewrite N2Nat.id.
    + rewrite andb_false_r. by apply gives_ret.
Qed.

Lemma gives_barrel_loop w sign sg left s k n g cur :
  w < 2 ^ 32 → is_bits (N.of_nat (length s)) n s → n < 2 ^ N.of_nat (length s) →
  follows w g cur → den sign ρ = sg →
  gives (barrel_loop lim sign (N.to_nat w) left k s cur) (follows w (shift_bits left sg w g (n * 2 ^ N.of_nat k))).
Proof using All.
  intros Hw. revert k n g cur. induction s as [|sk s IH]; intros k n g cur Hs Hn Hg Hsg; cbn [barrel_loop].
  - assert (n = 0) as -> by (simpl in Hn; lia). rewrite N.mul_0_l. apply gives_ret.
    unfold follows in *. rewrite Hg. apply map_ext_in. intros i Hi. apply in_seq in Hi. unfold shift_bits.
    destruct left; [by rewrite N.sub_0_r, (proj2 (N.leb_le _ _)) by lia|].
    by rewrite N.add_0_r, (proj2 (N.ltb_lt _ _)) by lia.
  - cbn [length] in Hs, Hn. rewrite Nat2N.inj_succ in Hs, Hn. unfold is_bits, dens in Hs. cbn [map] in Hs.
    rewrite bits_double in Hs. injection Hs as Hsk Hs.
    eapply gives_bind; [exact (gives_bnot _ _ Hsk)|]. intros nsk Hnsk.
    set (g' := λ j, if N.odd n then shift_bits left sg w g (stage_shift k) j else g j).
    eapply (gives_bind _ _ (follows w g')).
    { apply gives_collect. intros j Hj. apply list_elem_of_In, in_seq in Hj.
      eapply gives_bind; [apply (gives_shifted_bit w g _ _ sg); [done|done|lia]|]. intros sb Hsb.
      eapply gives_bind; [exact (gives_band _ _ _ _ Hsk Hsb)|]. intros on Hon.
      eapply gives_bind; [apply (follows_index w g); [done|lia]|]. intros cj Hcj.
      eapply gives_bind; [exact (gives_band _ _ _ _ Hnsk Hcj)|]. intros off Hoff.
      eapply gives_mono; [exact (gives_bor _ _ _ _ Hon Hoff)|]. intros f ->. unfold g'.
      destruct (N.odd n); cbn [andb orb negb]; [by rewrite orb_false_r|done]. }
    intros cur' Hcur. eapply gives_bind; [apply gives_check|]. intros _ _.
    eapply gives_mono; [apply (IH (S k) (N.div2 n) g'); [exact Hs|by apply div2_lt|done|done]|].
    intros v Hv. unfold follows in *. rewrite Hv. apply map_ext_in. intros j Hj. apply in_seq in Hj.
    pose proof (N.div2_odd n) as Hd. unfold g'. rewrite Nat2N.inj_succ, N.pow_succ_r'. destruct (N.odd n); cbn [N.b2n] in Hd.
    + erewrite shift_bits_ext; [|intros i Hi; by apply stage_shift_bits|lia]. rewrite shift_bits_add. f_equal. lia.
    + f_equal. lia.
Qed.

Lemma gives_barrel_shift w ws a s A n left arith :
  w < 2 ^ 32 → reads A a → is_bits ws n s → n < 2 ^ ws →
  gives (barrel_shift lim a s w left arith)
    (follows w (shift_bits left (arith && N.testbit A (w - 1)) w (N.testbit A) n)).
Proof using All.
  intros Hw Ha Hs Hn. unfold barrel_shift. destruct (N.eq_dec w 0) as [->|Hw0].
  { eapply gives_mono; [|intros v Hv; exact Hv].
    eapply gives_mono; [apply (gives_barrel_loop 0 _ false _ _ 0 n (λ _, false)); try done|done].
    - rewrite (is_bits_length _ _ _ Hs), N2Nat.id. done.
    - rewrite (is_bits_length _ _ _ Hs), N2Nat.id. done.
    - cbn. destruct arith; apply den_f. }
  set (sign := if arith then _ else _).
  assert (Hsign : den sign ρ = arith && N.testbit A (w - 1)).
  { unfold sign. destruct arith; [|apply den_f]. destruct (Nat.eqb_spec (N.to_nat w) 0); [lia|].
    rewrite (Ha _). cbn [andb]. f_equal. lia. }
  eapply gives_mono.
  { apply (gives_barrel_loop w sign (arith && N.testbit A (w - 1)) left s 0 n (N.testbit A)); [done| | | |exact Hsign].
    - by rewrite (is_bits_length _ _ _ Hs), N2Nat.id.
    - by rewrite (is_bits_length _ _ _ Hs), N2Nat.id.
    - unfold follows, dens. rewrite map_map. apply map_ext. intros i. apply Ha. }
  intros v Hv. cbn [N.of_nat] in Hv. by rewrite N.pow_0_r, N.mul_1_r in Hv.
Qed.

(** A shift that follows a function of the bits of a number holds it. *)
Lemma follows_bits w g n v : follows w g v → (∀ j, j < w → N.testbit n j = g j) → is_bits w n v.
Proof using Type.
  intros Hv H. unfold is_bits. rewrite Hv. apply seq_bits. intros i Hi. symmetry. by apply H.
Qed.

Lemma gives_ite_bits w c t e b T E :
  den c ρ = b → is_bits w T t → is_bits w E e →
  gives (ite_bits lim c t e w) (is_bits w (if b then T else E)).
Proof using All.
  intros Hc Ht He. unfold ite_bits.
  eapply gives_bind; [exact (gives_bnot _ _ Hc)|]. intros nc Hnc.
  apply gives_map_bits. intros i Hi.
  eapply gives_bind; [by apply (gives_index w T)|]. intros ti Hti.
  eapply gives_bind; [exact (gives_band _ _ _ _ Hc Hti)|]. intros th Hth.
  eapply gives_bind; [by apply (gives_index w E)|]. intros ei Hei.
  eapply gives_bind; [exact (gives_band _ _ _ _ Hnc Hei)|]. intros el Hel.
  eapply gives_mono; [exact (gives_bor _ _ _ _ Hth Hel)|]. intros f ->.
  destruct b; cbn [andb orb negb]; [by rewrite orb_false_r|done].
Qed.
End gadgets.
