(* ===== verification/BitBlastBackend.v ===== *)
(** The backend of the bit-blaster implements the operators.

    [op_arm_correct]: the arm of every supported operator holds the bits of its
    reference value; [blaster_implements]: the blaster satisfies the interface of
    [Btor2Spec] at every assignment of the variables, so that a walk that ends
    leaves, in every node, functions that evaluate to the value of the node. *)
From S2P Require Import Prelude Bitvec Btor2 Btor2Spec BitBlast BitBlastCorrect.
From Stdlib Require Import NArith Ascii.
Import Bv (Bv, Small, Wide).
Local Open Scope N_scope.

(** The operators with an arm. *)
Definition blast_supported (op : Op) : bool := match op with Rol | Ror => false | _ => is_blastable op end.

(** The bits of a binary literal. *)
Lemma binary_value_app acc s :
  binary_value acc s = acc * 2 ^ N.of_nat (String.length s) + binary_value 0 s.
Proof.
  revert acc. induction s as [|c s IH]; intros acc; cbn [binary_value String.length].
  { rewrite N.pow_0_r. lia. }
  rewrite IH, (IH (2 * 0 + _)), Nat2N.inj_succ, N.pow_succ_r'. lia.
Qed.

Lemma binary_value_lt s : binary_value 0 s < 2 ^ N.of_nat (String.length s).
Proof.
  induction s as [|c s IH]; cbn [binary_value String.length]; [done|].
  rewrite binary_value_app, Nat2N.inj_succ, N.pow_succ_r'. destruct (Ascii.eqb c _); lia.
Qed.

Lemma binary_value_bit s i :
  N.testbit (binary_value 0 s) (N.of_nat i) =
  (i <? String.length s)%nat && match String.get (String.length s - 1 - i) s with
                                | Some c => Ascii.eqb c "1"%char
                                | None => false
                                end.
Proof.
  destruct (Nat.ltb_spec i (String.length s)) as [Hi|Hi]; cbn [andb].
  2: { apply (bits_above _ (N.of_nat (String.length s))); [apply binary_value_lt|lia]. }
  induction s as [|c s IH]; cbn [binary_value String.length] in *; [lia|].
  rewrite binary_value_app. destruct (decide (i = String.length s)) as [->|Hne].
  - replace (S (String.length s) - 1 - String.length s)%nat with 0%nat by lia. cbn [String.get].
    rewrite N.testbit_eqb. pose proof (binary_value_lt s) as Hlt.
    rewrite N.div_add_l by (apply N.pow_nonzero; done). rewrite (N.div_small (binary_value 0 s)) by done.
    by destruct (Ascii.eqb c "1").
  - replace (S (String.length s) - 1 - i)%nat with (S (String.length s - 1 - i))%nat by lia. cbn [String.get].
    rewrite <-IH by lia. rewrite N.add_comm, <-N.shiftl_mul_pow2.
    rewrite <-(N.mod_pow2_bits_low _ (N.of_nat (String.length s))) by lia.
    rewrite N.shiftl_mul_pow2, N.Div0.mod_add, N.mod_small by apply binary_value_lt. done.
Qed.

Lemma map_seq_add {A} (g : nat → A) k n : map g (seq k n) = map (λ i, g (k + i)%nat) (seq 0 n).
Proof. induction n as [|n IH]; [done|]. by rewrite !seq_S, !map_app, IH. Qed.

Section backend.
Context {M F : Type} `{!BddLib M F} {den : F → (N → bool) → bool} `{!BddMeaning den}.
Context `{!RadixParser} (lim : Limits) (ρ : N → bool).
Abbreviation gives := (gives lim).
Abbreviation is_bits := (is_bits (den := den) ρ).

Lemma gives_const value w n :
  w < 2 ^ 32 → const_value value w = Some n → gives (blast_const value w) (is_bits w n).
Proof using All.
  intros Hw Hc. unfold blast_const.
  assert (Hbit : ∀ b : bool, den (if b then bdd_t else bdd_f) ρ = b) by (intros []; auto using den_t, den_f).
  assert (Hbv : ∀ bv, eval_const_value value w = Some (Ok bv) →
    is_bits w n (map (λ b, if Bv.bit bv (N.of_nat b) then bdd_t else bdd_f) (seq 0 (N.to_nat w)))).
  { intros bv. rewrite (const_value_concrete value w n Hw Hc). intros [= <-]. unfold BitBlastCorrect.is_bits, dens.
    rewrite map_map. apply seq_bits. intros i Hi. rewrite Hbit. apply bit_mk; [lia|by eapply const_value_lt]. }
  pose proof (const_value_concrete value w n Hw Hc) as He.
  destruct value; try (rewrite He in *; apply gives_ret, Hbv; done).
  apply gives_ret. unfold BitBlastCorrect.is_bits, dens. rewrite map_map. apply seq_bits. intros i Hi. rewrite Hbit.
  rewrite <-binary_value_bit. cbn [const_value] in Hc. destruct (_ && _); [|done]. injection Hc as <-.
  by rewrite N.mod_pow2_bits_low.
Qed.

Context (vals : Values) (env : gmap Z (list F)).
Context (Hfits : fits vals) (Henv : ∀ n w v, vals !! n = Some (w, v) → ∃ x, env !! n = Some x ∧ is_bits w v x).

Lemma gives_resolve o w n : operand_value vals o = Some (w, n) → gives (resolve env o) (is_bits w n).
Proof using All.
  unfold operand_value, resolve. intros Ho. destruct (vals !! operand_nid o) as [[w' n']|] eqn:Hv; [|done].
  injection Ho as -> <-. destruct (Henv _ _ _ Hv) as (x & -> & Hx).
  destruct (is_negated o); cbn [complement_if]; [|by apply gives_ret].
  eapply gives_mono.
  { apply (gives_collect (den:=den) lim ρ x bnot (λ f, negb (den f ρ))). intros f _. by apply gives_bnot. }
  intros v Hd. unfold BitBlastCorrect.is_bits. rewrite Hd. unfold BitBlastCorrect.is_bits, dens in Hx.
  rewrite <-(map_map (λ f, den f ρ) negb), Hx. unfold bits. rewrite map_map. apply map_ext_in.
  intros i Hi. apply in_seq in Hi. by rewrite N.lxor_spec, N.ones_spec_low, xorb_true_r by lia.
Qed.

Context (args : list Z).
Abbreviation holds_args operands := (mapM (operand_value vals) args = Some operands).

Lemma gives_read_arg operands i w n :
  holds_args operands → operands !! i = Some (w, n) → gives (read_arg env args i) (is_bits w n).
Proof using All.
  intros Hargs Hi. apply mapM_Some in Hargs. destruct (Forall2_lookup_r _ _ _ _ _ Hargs Hi) as (o & Ho & Hv).
  unfold read_arg. rewrite Ho. by apply gives_resolve.
Qed.

Lemma gives_one {A} w n (P : A → Prop) f :
  holds_args [(w, n)] → (∀ a, is_bits w n a → gives (f a) P) → gives (gbind (read_arg env args 0) f) P.
Proof using All. intros H0 Hf. eapply gives_bind; [by apply (gives_read_arg _ 0 w n H0)|exact Hf]. Qed.

Lemma gives_with_two wa a wb b (P : list F → Prop) f :
  holds_args [(wa, a); (wb, b)] →
  (∀ x y, is_bits wa a x → is_bits wb b y → gives (f x y) P) → gives (with_two env args f) P.
Proof using All.
  intros H0 Hf. unfold with_two. eapply gives_bind; [by apply (gives_read_arg _ 0 wa a H0)|]. intros x Hx.
  eapply gives_bind; [by apply (gives_read_arg _ 1 wb b H0)|]. intros y Hy. by apply Hf.
Qed.

(** A gate on each bit. *)
Lemma gives_bitwise w a b n gate g :
  holds_args [(w, a); (w, b)] →
  (∀ x y p q, den x ρ = p → den y ρ = q → gives (gate x y) (λ f, den f ρ = g p q)) →
  (∀ i, i < w → N.testbit n i = g (N.testbit a i) (N.testbit b i)) →
  gives (bitwise lim env args w gate) (is_bits w n).
Proof using All.
  intros H0 Hgate Hn. eapply gives_with_two; [exact H0|]. intros x y Hx Hy.
  apply gives_map_bits. intros i Hi.
  eapply gives_bind; [by apply (gives_index (den:=den) lim ρ w a)|]. intros xi Hxi.
  eapply gives_bind; [by apply (gives_index (den:=den) lim ρ w b)|]. intros yi Hyi.
  eapply gives_mono; [exact (Hgate _ _ _ _ Hxi Hyi)|]. intros f ->. symmetry. by apply Hn.
Qed.

Lemma gives_gate_not gate g :
  (∀ x y p q, den x ρ = p → den y ρ = q → gives (gate x y) (λ f, den f ρ = g p q)) →
  ∀ x y p q, den x ρ = p → den y ρ = q → gives (negated (gate x y)) (λ f, den f ρ = negb (g p q)).
Proof using All. intros Hg x y p q Hx Hy. by apply gives_negated, Hg. Qed.

Lemma max_len_bits w a b x y : w < 2 ^ 32 → is_bits w a x → is_bits w b y → max_len x y = w.
Proof using Type.
  intros Hw Hx Hy. unfold max_len. rewrite (is_bits_length _ _ _ _ Hx), (is_bits_length _ _ _ _ Hy), Nat.max_id, N2Nat.id.
  by apply N.mod_small.
Qed.

(** *** The arms *)

Inductive Group := Logic | Arithmetic | Comparison | Reduction | Shift | Structure.
Definition group (op : Op) : Group :=
  match op with
  | Not | And | Or | Xor | Nand | Nor | Xnor => Logic
  | Add | Sub | Inc | Dec | Neg | Mul => Arithmetic
  | Eq | Iff | Neq | Ult | Ulte | Ugt | Ugte | Slt | Slte | Sgt | Sgte => Comparison
  | Redand | Redor | Redxor | Implies => Reduction
  | Sll | Srl | Sra => Shift
  | _ => Structure
  end.

Abbreviation arm_holds op imms operands w := (gives (op_arm lim env op imms args w) (is_bits w (op_value op imms operands w))).

Ltac ranges := repeat match goal with H : Forall _ (_ :: _) |- _ => apply Forall_cons in H as [[??] ?] end; cbn [fst snd] in *.

Lemma logic_arms op imms operands w :
  group op = Logic → holds_args operands →
  op_sorted op imms operands.*1 w = true → arm_holds op imms operands w.
Proof using All.
  intros Hop Ha Hs. destruct op; try discriminate Hop; clear Hop; sorted_operands operands Hs; cbn [op_arm op_value].
  - eapply gives_one; [exact Ha|]. intros v Hv. apply gives_map_bits. intros i Hi.
    eapply gives_bind; [by apply (gives_index (den:=den) lim ρ w a)|]. intros x Hx.
    eapply gives_mono; [exact (gives_bnot _ _ _ _ Hx)|]. intros f ->.
    by rewrite N.lxor_spec, N.ones_spec_low, xorb_true_r.
  - eapply gives_bitwise; [exact Ha|apply gives_band|]. intros i _. apply N.land_spec.
  - eapply gives_bitwise; [exact Ha|apply gives_bor|]. intros i _. apply N.lor_spec.
  - eapply gives_bitwise; [exact Ha|apply gives_bxor|]. intros i _. apply N.lxor_spec.
  - eapply gives_bitwise; [exact Ha|apply gives_gate_not, gives_band|]. intros i Hi. cbn beta.
    by rewrite N.lxor_spec, N.ones_spec_low, xorb_true_r, N.land_spec.
  - eapply gives_bitwise; [exact Ha|apply gives_gate_not, gives_bor|]. intros i Hi. cbn beta.
    by rewrite N.lxor_spec, N.ones_spec_low, xorb_true_r, N.lor_spec.
  - eapply gives_bitwise; [exact Ha|apply gives_gate_not, gives_bxor|]. intros i Hi. cbn beta.
    by rewrite !N.lxor_spec, N.ones_spec_low, xorb_true_r.
Qed.

(** Two reduced operands of an adder. *)
Lemma arithmetic_arms op imms operands w :
  group op = Arithmetic → holds_args operands → Forall in_range operands →
  op_sorted op imms operands.*1 w = true → arm_holds op imms operands w.
Proof using All.
  intros Hop Ha Hr Hs. destruct op; try discriminate Hop; clear Hop; sorted_operands operands Hs; ranges;
    cbn [op_arm op_value].
  - eapply gives_one; [exact Ha|]. intros v Hv.
    eapply gives_sum; [by eapply is_bits_reads|apply reads_nil|apply den_t|]. by rewrite N.Div0.mod_mod, N.add_0_r.
  - eapply gives_one; [exact Ha|]. intros v Hv.
    eapply gives_sum; [by eapply is_bits_reads| |apply den_f|].
    + eapply is_bits_reads; [|apply (ones_lt w)]. apply is_bits_replicate. intros i Hi. by rewrite den_t, N.ones_spec_low.
    + rewrite N.Div0.mod_mod, N.ones_equiv. f_equal. cbn [N.b2n]. pose proof (pow2_positive w). lia.
  - eapply gives_one; [exact Ha|]. intros v Hv.
    eapply gives_bind; [by eapply gives_complement|]. intros nv Hnv.
    eapply gives_sum; [eapply is_bits_reads; [exact Hnv|auto with bv]|apply reads_nil|apply den_t|].
    rewrite N.Div0.mod_mod, lxor_ones by done. f_equal. cbn [N.b2n]. lia.
  - eapply gives_with_two; [exact Ha|]. intros x y Hx Hy.
    eapply gives_sum; [by eapply is_bits_reads|by eapply is_bits_reads|apply den_f|].
    by rewrite N.Div0.mod_mod, N.add_0_r.
  - eapply gives_with_two; [exact Ha|]. intros x y Hx Hy.
    eapply gives_bind; [by eapply gives_complement|]. intros ny Hny.
    eapply gives_sum; [by eapply is_bits_reads|eapply is_bits_reads; [exact Hny|auto with bv]|apply den_t|].
    by rewrite N.Div0.mod_mod, sub_complement.
  - eapply gives_with_two; [exact Ha|]. intros x y Hx Hy.
    apply gives_mul_bits; [by eapply is_bits_reads|by eapply is_bits_reads|done].
Qed.

(** The arms whose operands are compared. *)
Lemma gives_comparison w a b c f g :
  holds_args [(w, a); (w, b)] → w < 2 ^ 32 →
  (∀ x y, is_bits w a x → is_bits w b y → gives (g x y w) (λ f, den f ρ = c)) →
  f = (λ x y, single (g x y (max_len x y))) →
  gives (with_two env args f) (is_bits 1 (bool_value c)).
Proof using All.
  intros Ha Hw Hg ->. eapply gives_with_two; [exact Ha|]. intros x y Hx Hy.
  rewrite (max_len_bits w a b) by done. by apply gives_single, Hg.
Qed.

Lemma max_len_sym (x y : list F) : max_len x y = max_len y x.
Proof using Type. unfold max_len. by rewrite Nat.max_comm. Qed.

Lemma comparison_arms op imms operands w :
  group op = Comparison → holds_args operands → Forall in_range operands →
  op_sorted op imms operands.*1 w = true → arm_holds op imms operands w.
Proof using All.
  assert (Hneg : ∀ x y, (x <? y) = negb (y <=? x))
    by (intros x y; apply bool_eq_iff; rewrite negb_true_iff, N.leb_gt, N.ltb_lt; done).
  assert (Hsneg : ∀ x y, (x <=? y)%Z = negb (y <? x)%Z)
    by (intros x y; apply bool_eq_iff; rewrite negb_true_iff, Z.ltb_ge, Z.leb_le; done).
  intros Hop Ha Hr Hs. destruct op; try discriminate Hop; clear Hop; sorted_operands operands Hs; ranges;
    cbn [op_arm op_value].
  1-2: eapply gives_with_two; [exact Ha|]; intros x y Hx Hy; by eapply gives_eq_bits.
  - eapply gives_with_two; [exact Ha|]. intros x y Hx Hy. apply gives_single.
    eapply gives_bind; [by eapply gives_eq_bits|]. intros e He.
    eapply gives_bind; [by apply (gives_index (den:=den) lim ρ 1 (bool_value (a =? b)))|]. intros f Hf.
    eapply gives_mono; [exact (gives_bnot _ _ _ _ Hf)|]. intros ? ->. by destruct (a =? b).
  - eapply (gives_comparison _ a b _ _ (λ x y w, slt lim y x w)); [exact Ha|done| |done].
    intros x y Hx Hy. by apply gives_slt.
  - rewrite Hneg. eapply (gives_comparison _ a b _ _ (λ x y w, negated (uge lim y x w))); [exact Ha|done| |done].
    intros x y Hx Hy. by apply gives_negated, (gives_uge _ _ n0).
  - rewrite Hsneg. eapply (gives_comparison _ a b _ _ (λ x y w, negated (slt lim x y w))); [exact Ha|done| |done].
    intros x y Hx Hy. by apply gives_negated, gives_slt.
  - eapply (gives_comparison _ a b _ _ (λ x y w, uge lim x y w)); [exact Ha|done| |done].
    intros x y Hx Hy. by apply (gives_uge _ _ n0).
  - eapply (gives_comparison _ a b _ _ (λ x y w, slt lim x y w)); [exact Ha|done| |done].
    intros x y Hx Hy. by apply gives_slt.
  - rewrite Hneg. eapply (gives_comparison _ a b _ _ (λ x y w, negated (uge lim x y w))); [exact Ha|done| |done].
    intros x y Hx Hy. by apply gives_negated, (gives_uge _ _ n0).
  - rewrite Hsneg. eapply (gives_comparison _ a b _ _ (λ x y w, negated (slt lim y x w))); [exact Ha|done| |done].
    intros x y Hx Hy. by apply gives_negated, gives_slt.
  - eapply (gives_comparison _ a b _ _ (λ x y w, uge lim y x w)); [exact Ha|done| |done].
    intros x y Hx Hy. by apply (gives_uge _ _ n0).
Qed.

Lemma reduction_arms op imms operands w :
  group op = Reduction → holds_args operands → Forall in_range operands →
  op_sorted op imms operands.*1 w = true → arm_holds op imms operands w.
Proof using All.
  intros Hop Ha Hr Hs. destruct op; try discriminate Hop; clear Hop; sorted_operands operands Hs; ranges;
    cbn [op_arm op_value].
  - eapply gives_one; [exact Ha|]. intros v Hv. by eapply gives_single, gives_and_reduce.
  - eapply gives_one; [exact Ha|]. intros v Hv. by eapply gives_single, gives_or_reduce.
  - eapply gives_one; [exact Ha|]. intros v Hv. by eapply gives_single, gives_xor_reduce.
  - eapply gives_with_two; [exact Ha|]. intros x y Hx Hy. apply gives_single.
    eapply gives_bind; [by eapply gives_or_reduce|]. intros p Hp.
    eapply gives_bind; [by eapply gives_or_reduce|]. intros q Hq.
    eapply gives_bind; [exact (gives_bnot _ _ _ _ Hp)|]. intros np Hnp.
    eapply gives_mono; [exact (gives_bor _ _ _ _ _ _ Hnp Hq)|]. intros f ->. by rewrite negb_involutive.
Qed.

Lemma shift_arms op imms operands w :
  group op = Shift → holds_args operands → Forall in_range operands → w < 2 ^ 32 →
  op_sorted op imms operands.*1 w = true → arm_holds op imms operands w.
Proof using All.
  intros Hop Ha Hr Hw Hs. destruct op; try discriminate Hop; clear Hop; sorted_operands operands Hs; ranges;
    cbn [op_arm op_value]; (eapply gives_with_two; [exact Ha|]); intros x y Hx Hy;
    (eapply gives_mono; [eapply gives_barrel_shift; [done|by eapply is_bits_reads|exact Hy|done]|]);
    intros v Hv; (eapply follows_bits; [exact Hv|]); intros j Hj; cbn [andb].
  - by apply sll_bits.
  - by apply srl_bits.
  - by apply sra_bits.
Qed.

(** A vector read bit by bit. *)
Lemma mapped_bits w n (f : nat → F) :
  (∀ i, N.of_nat i < w → den (f i) ρ = N.testbit n (N.of_nat i)) → is_bits w n (map f (seq 0 (N.to_nat w))).
Proof using Type. intros Hf. unfold BitBlastCorrect.is_bits, dens. rewrite map_map. by apply seq_bits. Qed.

Lemma concat_bits wa a wb b : b < 2 ^ wb → bits wb b ++ bits wa a = bits (wa + wb) (N.lor (N.shiftl a wb) b).
Proof using Type.
  intros Hb. unfold bits. rewrite (N.add_comm wa), N2Nat.inj_add, seq_app, map_app. f_equal.
  - apply map_ext_in. intros i Hi. apply in_seq in Hi. rewrite N.lor_spec, N.shiftl_spec_low by lia. done.
  - rewrite Nat.add_0_l, (map_seq_add _ (N.to_nat wb)). apply map_ext_in. intros i Hi.
    rewrite N.lor_spec, N.shiftl_spec_high' by lia. rewrite (bits_above b wb) by (done || lia). rewrite orb_false_r. f_equal. lia.
Qed.

Lemma last_bit w n v : is_bits w n v → den (default bdd_f (last v)) ρ = negb (w =? 0) && N.testbit n (w - 1).
Proof using BddMeaning0.
  intros Hv. rewrite last_lookup, (is_bits_length _ _ _ _ Hv). destruct (N.eqb_spec w 0) as [->|Hw]; cbn [negb andb].
  - assert (v = []) as -> by (apply length_zero_iff_nil; by rewrite (is_bits_length _ _ _ _ Hv)). apply den_f.
  - unfold BitBlastCorrect.is_bits in Hv. pose proof (lookup_bits w n (Init.Nat.pred (N.to_nat w)) ltac:(lia)) as Hl.
    rewrite <-Hv in Hl. unfold dens in Hl. rewrite list_lookup_fmap in Hl.
    destruct (v !! Init.Nat.pred (N.to_nat w)) as [f|]; [|done]. injection Hl as Hl. etrans; [exact Hl|]. f_equal. lia.
Qed.

Lemma sext_bit w a b i : i < w + b → a < 2 ^ w →
  N.testbit (sext_value w a b) i = if i <? w then N.testbit a i else negb (w =? 0) && N.testbit a (w - 1).
Proof using Type.
  intros Hi Ha. unfold sext_value. destruct (negb (w =? 0) && N.testbit a (w - 1)) eqn:Hs.
  - rewrite N.lor_spec, N.mod_pow2_bits_low by done. destruct (N.ltb_spec i w).
    + by rewrite N.shiftl_spec_low, orb_false_r by done.
    + rewrite N.shiftl_spec_high', N.ones_spec_low by lia. apply orb_true_r.
  - destruct (N.ltb_spec i w); [done|]. by apply (bits_above a w).
Qed.

Lemma structure_arms op imms operands w :
  group op = Structure → blast_supported op = true → holds_args operands → Forall in_range operands →
  op_sorted op imms operands.*1 w = true → arm_holds op imms operands w.
Proof using All.
  intros Hop Hsup Ha Hr Hs. destruct op; try discriminate Hop; try discriminate Hsup; clear Hop Hsup;
    sorted_operands operands Hs; ranges; cbn [op_arm op_value].
  - eapply gives_with_two; [exact Ha|]. intros x y Hx Hy. apply gives_ret.
    unfold BitBlastCorrect.is_bits, dens in *. rewrite take_ge, map_app, Hx, Hy by
      (rewrite length_app, (is_bits_length _ _ _ _ Hx), (is_bits_length _ _ _ _ Hy); lia).
    by apply concat_bits.
  - eapply gives_one; [exact Ha|]. intros v Hv. cbn [lookup list_lookup]. apply gives_ret, mapped_bits. intros i Hi.
    rewrite (bit_or_false_bit ρ n a v) by done. rewrite N.mod_pow2_bits_low, N.shiftr_spec' by done. f_equal. lia.
  - eapply gives_one; [exact Ha|]. intros v Hv. apply gives_ret, mapped_bits. intros i Hi.
    by rewrite (bit_or_false_bit ρ n a v).
  - eapply gives_one; [exact Ha|]. intros v Hv. apply gives_ret, mapped_bits. intros i Hi.
    rewrite (get_or_bit ρ _ n a v), (last_bit n a), sext_bit by (done || lia). done.
  - eapply gives_bind; [by apply (gives_read_arg _ 0 1 a Ha)|]. intros cs Hc.
    eapply gives_bind; [by apply (gives_read_arg _ 1 w b Ha)|]. intros t Ht.
    eapply gives_bind; [by apply (gives_read_arg _ 2 w c Ha)|]. intros e He.
    eapply gives_bind; [by apply (gives_index (den:=den) lim ρ 1 a)|]. intros cond Hcond.
    eapply gives_mono; [exact (gives_ite_bits _ _ _ _ _ _ _ _ _ Hcond Ht He)|]. intros v Hv.
    assert (Hb : N.testbit a (N.of_nat 0) = negb (a =? 0)) by (assert (a = 0 ∨ a = 1) as [->| ->] by (simpl in *; lia); done).
    rewrite Hb in Hv. by destruct (a =? 0).
Qed.

(** The arm of an operator holds the bits of its value. *)
Lemma op_arm_correct op imms operands w :
  blast_supported op = true → holds_args operands → w < 2 ^ 32 →
  op_sorted op imms operands.*1 w = true → arm_holds op imms operands w.
Proof using All.
  intros Hsup Ha Hw Hs.
  assert (Hr : Forall in_range operands).
  { pose proof (proj1 (mapM_Some _ _ _) Ha) as Hm. apply Forall_forall. intros x Hx.
    apply list_elem_of_lookup in Hx as [i Hi]. destruct (Forall2_lookup_r _ _ _ _ _ Hm Hi) as (o & _ & Hv).
    by eapply operand_in_range. }
  destruct (group op) eqn:Hg;
    auto using logic_arms, arithmetic_arms, comparison_arms, reduction_arms, shift_arms, structure_arms.
Qed.

Lemma gives_blast_op op imms operands w :
  blast_supported op = true → holds_args operands → w < 2 ^ 32 → op_sorted op imms operands.*1 w = true →
  gives (blast_op lim env op imms args w) (is_bits w (op_value op imms operands w)).
Proof using All.
  intros Hsup Ha Hw Hs. unfold blast_op. eapply gives_bind; [apply gives_check|]. intros _ _.
  apply gives_checked. by apply op_arm_correct.
Qed.
End backend.

(** ** The implementation *)

Section instance.
Context {M F : Type} `{!BddLib M F} {den : F → (N → bool) → bool} `{!BddMeaning den}.
Context `{!RadixParser} (lim : Limits) (ρ : N → bool).

Definition limited (b : BddBitBlaster M F) : Prop := limits b = lim.
Definition node_bits (b : BddBitBlaster M F) (n : Z) : option (list F) := bb_env b !! n.

Lemma on_manager_computes w n (c : Comp M BlastError (list F)) b :
  limited b → gives lim c (is_bits (den := den) ρ w n) →
  computes node_bits (is_bits (den := den) ρ) limited (reliable lim) w n b (on_manager c b).
Proof using Type.
  intros Hb Hc. unfold computes, on_manager. specialize (Hc (manager b)).
  destruct (c (manager b)) as [[[v|e] m]|]; [|done|done]. done.
Qed.

#[export] Instance blaster_implements :
  Implements node_bits (is_bits (den := den) ρ) limited (reliable lim) (λ op _ _, blast_supported op).
Proof using All.
  split.
  - intros value w n b Hb Hw Hn. apply on_manager_computes; [done|]. by apply gives_const.
  - intros vals k op imms args operands w b Hb Hf Hh Hw Hsup Hm Hs.
    change (eval_op k op imms args w b) with (on_manager (blast_op (limits b) (bb_env b) op imms args w) b).
    rewrite Hb. apply on_manager_computes; [done|]. by apply (gives_blast_op lim ρ vals).
  - done.
  - intros n v b k. unfold node_bits. cbn. case_decide as Hk; [subst; by rewrite lookup_insert_eq|].
    by rewrite lookup_insert_ne.
  - done.
  - done.
Qed.
End instance.
