(* ===== verification/BitBlastBuild.v ===== *)
(** The build of a bit-blaster and its step: the leaves of [adapter/sts_ir.rs],
    the bit cap, the variable orders, the passes of [build_passes] and
    [eval_step] of [adapter/btor2/symbolic_bitblast.rs].

    The environment variables are arguments, as is the visit rank of the circuit
    order.  A panic of the passes after the walk starts is caught, as the source
    does; before it, it is a panic of the build. *)
From S2P Require Import Prelude Bitvec Btor2 BitBlast.
From Stdlib Require Import NArith.
From stdpp Require Import sorting pretty.
Import Bv (Bv, Small, Wide).
Local Open Scope N_scope.
Local Open Scope gadget_scope.

(** ** Leaves *)

Record LeafCell := { leaf_nid : Z; leaf_name : string; leaf_named : bool; leaf_is_state : bool; leaf_width : N }.

Definition resolve_leaf_symbol (symbols : gmap Z string) (n : Z) (raw : option string) (tag : string) : string :=
  match symbols !! n with
  | Some s => s
  | None => match raw with Some s => s | None => (tag +:+ "_" +:+ pretty n)%string end
  end.

Definition states_with_next (f : Btor2File) : gset Z :=
  list_to_set (omap (λ l, match node l with NNext _ state _ => Some state | _ => None end) (lines f)).

Fixpoint leaf_cells_of (f : Btor2File) (symbols : gmap Z string) (ls : list Line) : Result (list LeafCell) Nid :=
  match ls with
  | [] => Ok []
  | l :: ls =>
    let leaf sort raw is_state tag :=
      match bv_width f sort with
      | None => Err (nid l)
      | Some w =>
        match leaf_cells_of f symbols ls with
        | Err e => Err e
        | Ok out =>
          Ok ({| leaf_nid := nid l; leaf_name := resolve_leaf_symbol symbols (nid l) raw tag;
                 leaf_named := bool_decide (is_Some (symbols !! nid l)); leaf_is_state := is_state; leaf_width := w |} :: out)
        end
      end in
    match node l with
    | NState sort raw => leaf sort raw (bool_decide (nid l ∈ states_with_next f)) "state"%string
    | NInput sort raw => leaf sort raw false "input"%string
    | _ => leaf_cells_of f symbols ls
    end
  end.
Definition leaf_cells (f : Btor2File) (symbols : gmap Z string) : Result (list LeafCell) Nid :=
  leaf_cells_of f symbols (lines f).

(** ** Limits *)

Definition MAX_BITBLAST_BITS : N := 40.
Definition AUTO_CAP_CEILING : N := 192.
Definition HARD_BITBLAST_CEILING : N := 1024.

Definition default_cap_for_cone (cone_bits : N) : N := N.max MAX_BITBLAST_BITS (N.min cone_bits AUTO_CAP_CEILING).
Definition effective_bitblast_cap (env_cap : option N) (cone_bits : N) : N :=
  match env_cap with Some v => N.min v HARD_BITBLAST_CEILING | None => default_cap_for_cone cone_bits end.
Definition effective_bitblast_cap_with (env_cap : option N) (cone_bits : N) (cap_override : option N) : N :=
  match cap_override with Some v => N.min v HARD_BITBLAST_CEILING | None => effective_bitblast_cap env_cap cone_bits end.

Definition default_arena (total_bits : N) : N := if total_bits <=? 40 then 2 ^ 24 else 2 ^ 26.
Definition budget_for (total_bits arena_nodes : N) : N := if total_bits <=? 40 then 2 ^ 21 else arena_nodes * 8 / 10.

(** ** Variable orders *)

Inductive VarOrder := Interleaved | CellMajor | Circuit.

(** Each row is the positions of a cell's bits: [p..p + w] in turn. *)
Fixpoint cell_major_slots (p : nat) (widths : list nat) : list (list nat) :=
  match widths with [] => [] | w :: widths => seq p w :: cell_major_slots (p + w) widths end.

(** The sort key of a bit: its original index, the rank of its cell, the cell
    and the bit. *)
Record BitKey := { bk_key : N; bk_rank : N; bk_cell : nat; bk_bit : nat }.

Definition keyed_row (key : nat → N) (rank : N) (ci w : nat) : list BitKey :=
  map (λ k, {| bk_key := key k; bk_rank := rank; bk_cell := ci; bk_bit := k |}) (seq 0 w).

Definition bit_key_le (a b : BitKey) : Prop :=
  bk_key a < bk_key b ∨ bk_key a = bk_key b ∧
  (bk_rank a < bk_rank b ∨ bk_rank a = bk_rank b ∧
  ((bk_cell a < bk_cell b)%nat ∨ bk_cell a = bk_cell b ∧ (bk_bit a <= bk_bit b)%nat)).
#[export] Instance bit_key_le_dec a b : Decision (bit_key_le a b).
Proof. unfold bit_key_le. apply _. Defined.

(** [s[ci][k] = p]. *)
Definition place (s : list (list nat)) (p : nat) (b : BitKey) : list (list nat) :=
  alter (λ row, <[bk_bit b := p]> row) (bk_cell b) s.
Fixpoint place_all (p : nat) (bs : list BitKey) (s : list (list nat)) : list (list nat) :=
  match bs with [] => s | b :: bs => place_all (S p) bs (place s p b) end.

Definition bit_keys (order : VarOrder) (bit_index : gmap Z (list N)) (rank : gmap Z N) (kept : list (Z * nat)) : list BitKey :=
  concat (imap (λ ci '(n, w),
    let r := match order with
             | Circuit => default (2 ^ 63 - 1 + N.of_nat ci) (rank !! n)
             | _ => N.of_nat ci
             end in
    keyed_row (λ k, match bit_index !! n with
                    | Some v => default (N.of_nat k) (v !! k)
                    | None => N.of_nat k
                    end) r ci w) kept).

Definition slots_of (order : VarOrder) (bit_index : gmap Z (list N)) (rank : gmap Z N) (kept : list (Z * nat)) : list (list nat) :=
  match order with
  | CellMajor => cell_major_slots 0 kept.*2
  | _ => place_all 0 (merge_sort bit_key_le (bit_keys order bit_index rank kept)) (map (λ w, replicate w 0%nat) kept.*2)
  end.

(** ** The build *)

Section build.
Context {M F : Type} `{!BddLib M F} `{!RadixParser}.
Abbreviation Blaster := (BddBitBlaster M F).

Definition is_kept (keep : option (gset Z)) (n : Z) : bool :=
  match keep with None => true | Some k => bool_decide (n ∈ k) end.

(** The widths are summed as [u32]: an overflow is a panic. *)
Definition total_bits (keep : option (gset Z)) (leaves : list LeafCell) : option N :=
  foldl (λ n c, let* n := n in width_add n (leaf_width c)) (Some 0) (filter (λ c, is_kept keep (leaf_nid c)) leaves).

(** The leaves are bound: a kept one to its variables, the others to zero. *)
Fixpoint bind_leaves (keep : option (gset Z)) (base : N) (all_vars : list F) (slots : list (list nat))
    (leaves : list LeafCell) (env : gmap Z (list F)) (cells : list (Cell F))
    : option (gmap Z (list F) * list (Cell F)) :=
  match leaves with
  | [] => Some (env, cells)
  | c :: leaves =>
    if is_kept keep (leaf_nid c) then
      match slots with
      | [] => None
      | pos :: slots =>
        let* vars := mapM (λ i, all_vars !! i) pos in
        if negb (length vars =? N.to_nat (leaf_width c))%nat then None
        else bind_leaves keep base all_vars slots leaves (<[leaf_nid c := vars]> env)
               (cells ++ [{| cell_symbol := leaf_name c; cell_is_state := leaf_is_state c; cell_vars := vars;
                             cell_varnos := map (λ i, base + N.of_nat i) pos |}])
      end
    else bind_leaves keep base all_vars slots leaves
           (<[leaf_nid c := replicate (N.to_nat (leaf_width c)) bdd_f]> env) cells
  end.

(** The name of a state by its id; of two the later. *)
Definition nid_symbol (leaves : list LeafCell) : gmap Z string :=
  foldl (λ m c, if leaf_is_state c then <[leaf_nid c := leaf_name c]> m else m) ∅ leaves.

Definition map_next (g : gmap string (list F) → gmap string (list F)) (b : Blaster) : Blaster :=
  {| manager := manager b; limits := limits b; bb_env := bb_env b; cells := cells b; next_funcs := g (next_funcs b);
     named_signals := named_signals b; constraint_bdd := constraint_bdd b |}.
Definition map_named (g : gmap string (list F) → gmap string (list F)) (b : Blaster) : Blaster :=
  {| manager := manager b; limits := limits b; bb_env := bb_env b; cells := cells b; next_funcs := next_funcs b;
     named_signals := g (named_signals b); constraint_bdd := constraint_bdd b |}.
Definition set_constraint (c : F) (b : Blaster) : Blaster :=
  {| manager := manager b; limits := limits b; bb_env := bb_env b; cells := cells b; next_funcs := next_funcs b;
     named_signals := named_signals b; constraint_bdd := c |}.

(** Pass 3: the next-state functions by the names of the states. *)
Fixpoint collect_next (keep : option (gset Z)) (names : gmap Z string) (ls : list Line) : Comp Blaster BlastError unit := λ b,
  match ls with
  | [] => Some (Ok tt, b)
  | l :: ls =>
    match node l with
    | NNext _ state value =>
      if negb (is_kept keep state) then collect_next keep names ls b
      else
        match names !! state with
        | None => collect_next keep names ls b
        | Some sym =>
          match on_manager (resolve (bb_env b) value) b with
          | Some (Ok v, b) => collect_next keep names ls (map_next (insert sym v) b)
          | Some (Err e, b) => Some (Err e, b)
          | None => None
          end
        end
    | _ => collect_next keep names ls b
    end
  end.

(** Pass 4: the first function of a name. *)
Definition insert_first (s : string) (v : option (list F)) (m : gmap string (list F)) : gmap string (list F) :=
  match v, m !! s with Some v, None => <[s := v]> m | _, _ => m end.
Definition name_line (env : gmap Z (list F)) (m : gmap string (list F)) (l : Line) : gmap string (list F) :=
  match node l with
  | NOutput signal (Some s) => insert_first s (env !! operand_nid signal) m
  | NOp _ _ _ (Some s) => insert_first s (env !! nid l) m
  | _ => m
  end.

(** Pass 5: the conjunction of the constraints. *)
Fixpoint collect_constraints (ls : list Line) : Comp Blaster BlastError unit := λ b,
  match ls with
  | [] => Some (Ok tt, b)
  | l :: ls =>
    match node l with
    | NConstraint signal =>
      match on_manager (resolve (bb_env b) signal) b with
      | Some (Ok [], b) => Some (Err ZeroWidthConstraint, b)
      | Some (Ok (c :: _), b) =>
        match on_manager (band (constraint_bdd b) c) b with
        | Some (Ok g, b) => collect_constraints ls (set_constraint g b)
        | Some (Err e, b) => Some (Err e, b)
        | None => None
        end
      | Some (Err e, b) => Some (Err e, b)
      | None => None
      end
    | _ => collect_constraints ls b
    end
  end.

(** [map_err] of the walk. *)
Definition walk_error (e : WalkError BlastError) : BlastError :=
  match e with NonBitvecSort n => WalkNonBitvec n | Unevaluated n => WalkUnevaluated n | BackendError e => e end.

(** Passes 2 to 5. *)
Definition run_passes (f : Btor2File) (keep : option (gset Z)) (leaves : list LeafCell) : Comp Blaster BlastError unit := λ b,
  match walk_design f b with
  | None => None
  | Some (Err e, b) => Some (Err (walk_error e), b)
  | Some (Ok _, b) =>
    match collect_next keep (nid_symbol leaves) (lines f) b with
    | Some (Ok _, b) => collect_constraints (lines f) (map_named (λ m, foldl (name_line (bb_env b)) m (lines f)) b)
    | r => r
    end
  end.

(** [build_passes]. *)
Definition build_passes (f : Btor2File) (symbols : gmap Z string) (keep : option (gset Z)) (order : VarOrder)
    (bit_index : gmap Z (list N)) (rank : gmap Z N) (cap_override env_cap arena_override : option N)
    : option (Result Blaster BlastError) :=
  match leaf_cells f symbols with
  | Err n => Some (Err (WalkNonBitvec n))
  | Ok leaves =>
    let* bits := total_bits keep leaves in
    let cap := effective_bitblast_cap_with env_cap bits cap_override in
    if cap <? bits then Some (Err (BitCap bits cap))
    else
      let arena_nodes := default (default_arena bits) arena_override in
      let lim := {| node_budget := budget_for bits arena_nodes; declared_vars := bits |} in
      let '(base, m) := add_vars bits (new_manager arena_nodes) in
      match try_collect (seq 0 (N.to_nat bits)) (λ i, oom (bdd_var (base + N.of_nat i))) m with
      | None => None
      | Some (Err e, _) => Some (Err e)
      | Some (Ok all_vars, m) =>
        if negb (num_vars m =? bits) || negb (num_levels m =? bits) then
          Some (Err (LevelDrift (num_vars m) (num_levels m) bits))
        else
          let kept := map (λ c, (leaf_nid c, N.to_nat (leaf_width c))) (filter (λ c, is_kept keep (leaf_nid c)) leaves) in
          match bind_leaves keep base all_vars (slots_of order bit_index rank kept) leaves ∅ [] with
          | None => None
          | Some (env, cells) =>
            match check_sorts f with
            | Err e => Some (Err (IllSorted e))
            | Ok _ =>
              let b := {| manager := m; limits := lim; bb_env := env; cells := cells; next_funcs := ∅;
                          named_signals := ∅; constraint_bdd := bdd_t |} in
              match run_passes f keep leaves b with
              | Some (Ok _, b) => Some (Ok b)
              | Some (Err e, _) => Some (Err e)
              | None => Some (Err BuildPanicked)
              end
            end
          end
      end
  end.

(** ** One step *)

(** [(v >> b) & 1]: a shift by 128 or more overflows. *)
Definition u128_bit (v : N) (b : nat) : Comp M BlastError bool :=
  if (b <? 128)%nat then ret (N.testbit v (N.of_nat b)) else panic.

Fixpoint literals (v : N) (b : nat) (vars : list F) (mt : F) : Comp M BlastError F :=
  match vars with
  | [] => ret mt
  | var :: vars =>
    let! bit := u128_bit v b in
    let! lit := (if bit then ret var else bnot var) in
    let! mt := band mt lit in
    literals v (S b) vars mt
  end.

Fixpoint minterm_cells (assignment : gmap string N) (cs : list (Cell F)) (mt : F) : Comp M BlastError F :=
  match cs with
  | [] => ret mt
  | c :: cs =>
    let! mt := literals (default 0 (assignment !! cell_symbol c)) 0 (cell_vars c) mt in
    minterm_cells assignment cs mt
  end.
Definition minterm_for (b : Blaster) (assignment : gmap string N) : Comp M BlastError F :=
  minterm_cells assignment (cells b) bdd_t.

(** [1 << b] overflows from bit 128 on. *)
Fixpoint value_from (i : nat) (bits : list F) (minterm : F) (val : N) : Comp M BlastError N :=
  match bits with
  | [] => ret val
  | f :: bits =>
    let! g := band minterm f in
    if bdd_eqb g minterm then
      if (i <? 128)%nat then value_from (S i) bits minterm (N.lor val (N.shiftl 1 (N.of_nat i))) else panic
    else value_from (S i) bits minterm val
  end.
Definition value_of (bits : list F) (minterm : F) : Comp M BlastError N := value_from 0 bits minterm 0.

Fixpoint values_of (fs : list (string * list F)) (minterm : F) (out : gmap string N) : Comp M BlastError (gmap string N) :=
  match fs with
  | [] => ret out
  | (sym, bits) :: fs => let! v := value_of bits minterm in values_of fs minterm (<[sym := v]> out)
  end.

Definition eval_step (b : Blaster) (assignment : gmap string N) : Comp M BlastError (gmap string N) :=
  let! minterm := minterm_for b assignment in
  values_of (map_to_list (next_funcs b)) minterm ∅.
End build.
