(* ===== verification/BitBlastStep.v ===== *)
(** A build of the bit-blaster and its step are correct.

    Distinct bits get distinct variables under every order; after a build every
    node, next-state function and constraint evaluates, at every assignment of the
    variables, to the reference value of the design; and [eval_step] agrees with
    [simulate_one_step] on the registers that have a next line. *)
From S2P Require Import Prelude Bitvec Btor2 Btor2Spec Btor2Correct BitBlast BitBlastCorrect BitBlastBackend BitBlastBuild.
From Stdlib Require Import NArith.
From stdpp Require Import sorting.
Import Bv (Bv, Small, Wide).
Local Open Scope N_scope.

(** ** Variable orders *)

(** The position of a bit of a cell. *)
Definition slot (s : list (list nat)) (ci k : nat) : option nat := match s !! ci with Some row => row !! k | None => None end.

(** No two bits share a position. *)
Definition slots_injective (s : list (list nat)) : Prop :=
  ∀ ci k ci' k' p, slot s ci k = Some p → slot s ci' k' = Some p → ci = ci' ∧ k = k'.

Lemma cell_major_slot p ws ci k q : slot (cell_major_slots p ws) ci k = Some q → (p ≤ q)%nat.
Proof.
  revert p ci. induction ws as [|w ws IH]; intros p ci; [done|]. unfold slot in *. cbn [cell_major_slots].
  destruct ci as [|ci]; cbn [lookup list_lookup]; intros H.
  - apply lookup_seq in H. lia.
  - apply IH in H. lia.
Qed.

Lemma cell_major_injective p ws : slots_injective (cell_major_slots p ws).
Proof.
  revert p. induction ws as [|w ws IH]; intros p ci k ci' k' q; [done|]. unfold slot. cbn [cell_major_slots].
  destruct ci as [|ci], ci' as [|ci']; cbn [lookup list_lookup]; intros H H'.
  - apply lookup_seq in H, H'. lia.
  - apply lookup_seq in H. apply (cell_major_slot (p + w) ws ci' k') in H'. lia.
  - apply lookup_seq in H'. apply (cell_major_slot (p + w) ws ci k) in H. lia.
  - destruct (IH _ _ _ _ _ _ H H') as [-> ->]. done.
Qed.

Lemma place_slot s p b ci k q :
  slot (place s p b) ci k = Some q →
  (bk_cell b = ci ∧ bk_bit b = k ∧ q = p) ∨ ((bk_cell b ≠ ci ∨ bk_bit b ≠ k) ∧ slot s ci k = Some q).
Proof.
  unfold slot, place. intros H. destruct (decide (bk_cell b = ci)) as [<-|Hc].
  - rewrite list_lookup_alter_eq in H. destruct (s !! bk_cell b) as [row|]; cbn in H |- *; [|done].
    destruct (decide (bk_bit b = k)) as [<-|Hk]; [|rewrite list_lookup_insert_ne in H by done; auto].
    left. split_and!; [done|done|]. by apply list_lookup_insert_Some in H as [(_ & -> & _)|[? _]].
  - rewrite list_lookup_alter_ne in H by done. auto.
Qed.

Lemma place_all_slot bs p s ci k q :
  slot (place_all p bs s) ci k = Some q →
  (∃ i b, bs !! i = Some b ∧ bk_cell b = ci ∧ bk_bit b = k ∧ q = (p + i)%nat) ∨
  ((∀ b, b ∈ bs → bk_cell b ≠ ci ∨ bk_bit b ≠ k) ∧ slot s ci k = Some q).
Proof.
  revert p s. induction bs as [|b bs IH]; intros p s; cbn [place_all].
  { intros H. right. split; [|done]. intros b Hb. by apply not_elem_of_nil in Hb. }
  intros H. destruct (IH _ _ H) as [(i & b' & Hi & Hc & Hk & ->)|[Hn Hs]].
  - left. exists (S i), b'. split_and!; [done|done|done|lia].
  - destruct (place_slot _ _ _ _ _ _ Hs) as [(Hc & Hk & ->)|[Hne Hs']].
    + left. exists 0%nat, b. split_and!; [done|done|done|lia].
    + right. split; [|done]. intros b' [->|Hb]%elem_of_cons; [done|by apply Hn].
Qed.

Lemma place_shape s p b : map length (place s p b) = map length s.
Proof.
  unfold place. apply list_eq. intros i. rewrite !list_lookup_fmap. destruct (decide (bk_cell b = i)) as [<-|Hi].
  - rewrite list_lookup_alter_eq. destruct (s !! bk_cell b); [|done]. cbn. by rewrite length_insert.
  - by rewrite list_lookup_alter_ne.
Qed.

Lemma place_all_shape bs p s : map length (place_all p bs s) = map length s.
Proof. revert p s. induction bs as [|b bs IH]; intros p s; [done|]. cbn [place_all]. by rewrite IH, place_shape. Qed.

Lemma slot_shape s s' ci k q : map length s = map length s' → slot s ci k = Some q → is_Some (slot s' ci k).
Proof.
  intros Hl. unfold slot. destruct (s !! ci) as [row|] eqn:Hr; [|done]. intros Hk.
  assert (E : (map length s') !! ci = Some (length row)) by (by rewrite <-Hl, list_lookup_fmap, Hr).
  rewrite list_lookup_fmap in E. destruct (s' !! ci) as [row'|]; [|done]. injection E as E.
  apply lookup_lt_is_Some_2. rewrite E. by eapply lookup_lt_Some.
Qed.

Lemma slots_shape order bit_index rank kept : map length (slots_of order bit_index rank kept) = kept.*2.
Proof.
  assert (Hr : ∀ ws, map length (map (λ w, replicate w 0%nat) ws) = ws).
  { intros ws. rewrite map_map. rewrite <-(map_id ws) at 2. apply map_ext. intros w. apply length_replicate. }
  assert (Hc : ∀ p ws, map length (cell_major_slots p ws) = ws).
  { intros p ws. revert p. induction ws as [|w ws IH]; intros p; [done|]. cbn [cell_major_slots map].
    by rewrite length_seq, IH. }
  destruct order; cbn [slots_of]; rewrite ?place_all_shape; auto.
Qed.

(** Every bit has a key. *)
Lemma bit_keys_complete order bit_index rank kept ci n w k :
  kept !! ci = Some (n, w) → (k < w)%nat →
  ∃ b, b ∈ bit_keys order bit_index rank kept ∧ bk_cell b = ci ∧ bk_bit b = k.
Proof.
  intros Hci Hk. unfold bit_keys.
  set (h := λ (ci : nat) '(n, w), keyed_row _ _ ci w) in *.
  exists {| bk_key := match bit_index !! n with Some v => default (N.of_nat k) (v !! k) | None => N.of_nat k end;
            bk_rank := match order with Circuit => default (2 ^ 63 - 1 + N.of_nat ci) (rank !! n) | _ => N.of_nat ci end;
            bk_cell := ci; bk_bit := k |}.
  split; [|done]. apply list_elem_of_In, in_concat. exists (h ci (n, w)). split.
  - apply list_elem_of_In, list_elem_of_lookup. exists ci. by rewrite list_lookup_imap, Hci.
  - unfold h, keyed_row. apply in_map_iff. exists k. split; [done|]. apply in_seq. lia.
Qed.

Lemma place_all_injective order bit_index rank kept ci k ci' k' p :
  let s := place_all 0 (merge_sort bit_key_le (bit_keys order bit_index rank kept)) (map (λ w, replicate w 0%nat) kept.*2) in
  slot s ci k = Some p → slot s ci' k' = Some p → ci = ci' ∧ k = k'.
Proof.
  intros s. subst s. set (bs := merge_sort bit_key_le _).
  assert (Hkey : ∀ ci k p, slot (place_all 0 bs (map (λ w, replicate w 0%nat) kept.*2)) ci k = Some p →
    ∃ b, bs !! p = Some b ∧ bk_cell b = ci ∧ bk_bit b = k).
  { intros c j q Hs. destruct (place_all_slot _ _ _ _ _ _ Hs) as [(i & b & Hi & Hc & Hj & ->)|[Hn Hs']]; [by exists b|].
    unfold slot in Hs'. rewrite list_lookup_fmap in Hs'. destruct (kept.*2 !! c) as [w|] eqn:Hw; [|done].
    cbn in Hs'. apply lookup_replicate in Hs' as [_ Hj].
    rewrite list_lookup_fmap in Hw. destruct (kept !! c) as [[n w']|] eqn:Hk; [|done]. injection Hw as ->.
    destruct (bit_keys_complete order bit_index rank kept c n w j Hk Hj) as (b & Hb & Hbc & Hbj).
    destruct (Hn b) as [?|?]; [|done|done]. unfold bs. by rewrite merge_sort_Permutation. }
  intros H H'. destruct (Hkey _ _ _ H) as (b & Hb & <- & <-). destruct (Hkey _ _ _ H') as (b' & Hb' & <- & <-).
  by simplify_eq.
Qed.

(** Under every order, distinct bits of the kept cells get distinct variables. *)
Lemma slots_of_injective order bit_index rank kept : slots_injective (slots_of order bit_index rank kept).
Proof.
  destruct order; [|apply cell_major_injective|].
  all: intros ci k ci' k' p H H'; cbn [slots_of] in H, H'; by eapply place_all_injective.
Qed.

(** ** Leaves *)

(** The leaf of a line. *)
Definition leaf_of (f : Btor2File) (symbols : gmap Z string) (l : Line) : option LeafCell :=
  let leaf sort raw is_state tag :=
    Some {| leaf_nid := nid l; leaf_name := resolve_leaf_symbol symbols (nid l) raw tag;
            leaf_named := bool_decide (is_Some (symbols !! nid l)); leaf_is_state := is_state;
            leaf_width := default 0 (bv_width f sort) |} in
  match node l with
  | NState sort raw => leaf sort raw (bool_decide (nid l ∈ states_with_next f)) "state"%string
  | NInput sort raw => leaf sort raw false "input"%string
  | _ => None
  end.

Lemma leaf_cells_lines f symbols ls leaves : leaf_cells_of f symbols ls = Ok leaves → leaves = omap (leaf_of f symbols) ls.
Proof.
  revert leaves. induction ls as [|l ls IH]; intros leaves; cbn [leaf_cells_of]; [by intros [= <-]|].
  cbn [omap list_omap]. unfold leaf_of at 1. destruct (node l) as [| sort raw | sort raw | | | | | | | | |];
    try apply IH; cbv zeta; (destruct (bv_width f sort) as [w|]; [|done]);
    (destruct (leaf_cells_of f symbols ls) as [out|]; [|done]); intros [= <-]; by rewrite (IH out).
Qed.

(** The number of a list of bits, least significant first. *)
Fixpoint bits_value (l : list bool) : N := match l with [] => 0 | b :: l => 2 * bits_value l + N.b2n b end.

Lemma bits_of_value l : bits (N.of_nat (length l)) (bits_value l) = l.
Proof.
  induction l as [|b l IH]; [done|]. cbn [length bits_value]. by rewrite Nat2N.inj_succ, bits_double, odd_2, div2_2, IH.
Qed.

Lemma bits_value_lt l : bits_value l < 2 ^ N.of_nat (length l).
Proof.
  induction l as [|b l IH]; [done|]. cbn [length bits_value]. rewrite Nat2N.inj_succ, N.pow_succ_r'. destruct b; cbn; lia.
Qed.

(** The leaf values of an assignment of the variables. *)
Fixpoint leaf_assign (ρ : N → bool) (base : N) (keep : option (gset Z)) (slots : list (list nat)) (leaves : list LeafCell)
    : list (Z * (N * N)) :=
  match leaves with
  | [] => []
  | c :: leaves =>
    if is_kept keep (leaf_nid c) then
      match slots with
      | [] => []
      | pos :: slots =>
        (leaf_nid c, (leaf_width c, bits_value (map (λ i, ρ (base + N.of_nat i)) pos))) ::
        leaf_assign ρ base keep slots leaves
      end
    else (leaf_nid c, (leaf_width c, 0)) :: leaf_assign ρ base keep slots leaves
  end.

Section bind.
Context {M F : Type} `{!BddLib M F} {den : F → (N → bool) → bool} `{!BddMeaning den}.
Abbreviation is_bits ρ := (is_bits (den := den) ρ).

Context (base : N) (all_vars : list F).
Context (Hvars : ∀ i f ρ, all_vars !! i = Some f → den f ρ = ρ (base + N.of_nat i)).

Lemma mapped_vars pos vars ρ :
  mapM (λ i, all_vars !! i) pos = Some vars → map (λ f, den f ρ) vars = map (λ i, ρ (base + N.of_nat i)) pos.
Proof using Hvars.
  intros Hm. apply mapM_Some in Hm. induction Hm as [|i f pos vars Hi _ IH]; [done|]. cbn [map].
  by rewrite (Hvars i f), IH.
Qed.

(** The rows the cells take. *)
Inductive bound (keep : option (gset Z)) : list (list nat) → list LeafCell → list (Cell F) → Prop :=
  | bound_nil slots : bound keep slots [] []
  | bound_kept pos slots c leaves vars cs :
      is_kept keep (leaf_nid c) = true → mapM (λ i, all_vars !! i) pos = Some vars →
      length vars = N.to_nat (leaf_width c) → bound keep slots leaves cs →
      bound keep (pos :: slots) (c :: leaves)
        ({| cell_symbol := leaf_name c; cell_is_state := leaf_is_state c; cell_vars := vars;
            cell_varnos := map (λ i, base + N.of_nat i) pos |} :: cs)
  | bound_pinned slots c leaves cs :
      is_kept keep (leaf_nid c) = false → bound keep slots leaves cs → bound keep slots (c :: leaves) cs.

Lemma bind_leaves_bound keep slots leaves env cs env' cs' :
  bind_leaves keep base all_vars slots leaves env cs = Some (env', cs') → ∃ new, cs' = cs ++ new ∧ bound keep slots leaves new.
Proof using Type.
  revert slots env cs. induction leaves as [|c leaves IH]; intros slots env cs; cbn [bind_leaves].
  { intros [= <- <-]. exists []. split; [by rewrite app_nil_r|constructor]. }
  destruct (is_kept keep (leaf_nid c)) eqn:Hk.
  - destruct slots as [|pos slots]; [done|]. destruct (mapM _ pos) as [vars|] eqn:Hm; [|done]. cbn [mbind option_bind].
    destruct (Nat.eqb_spec (length vars) (N.to_nat (leaf_width c))) as [Hl|]; [|done]. cbn [negb]. intros H.
    destruct (IH _ _ _ H) as (new & -> & Hb). eexists. split; [by rewrite <-app_assoc|]. by constructor.
  - intros H. destruct (IH _ _ _ H) as (new & -> & Hb). exists new. split; [done|]. by constructor.
Qed.

(** One cell for every kept leaf, with the variables of its row. *)
Lemma bound_cells keep slots leaves cs :
  bound keep slots leaves cs → length slots = length (filter (λ c, is_kept keep (leaf_nid c)) leaves) →
  map cell_symbol cs = map leaf_name (filter (λ c, is_kept keep (leaf_nid c)) leaves) ∧
  map cell_varnos cs = map (map (λ i, base + N.of_nat i)) slots.
Proof using Type.
  induction 1 as [slots|pos slots c leaves vars cs Hk Hm Hl Hb IH|slots c leaves cs Hk Hb IH].
  - intros Hlen. apply nil_length_inv in Hlen. by subst.
  - rewrite filter_cons_True by (by rewrite Hk). intros [= Hlen]. destruct (IH Hlen) as [H1 H2].
    cbn [map cell_symbol cell_varnos]. by rewrite H1, H2.
  - rewrite filter_cons_False by (rewrite Hk; by intros []). exact IH.
Qed.

Lemma bind_leaves_other keep slots leaves env cs env' cs' n :
  bind_leaves keep base all_vars slots leaves env cs = Some (env', cs') → n ∉ leaf_nid <$> leaves → env' !! n = env !! n.
Proof using Type.
  revert slots env cs. induction leaves as [|c leaves IH]; intros slots env cs; cbn [bind_leaves]; [by intros [= <- <-]|].
  intros H [Hn Hn']%not_elem_of_cons. destruct (is_kept keep (leaf_nid c)).
  - destruct slots as [|pos slots]; [done|]. destruct (mapM _ pos) as [vars|]; [|done]. cbn [mbind option_bind] in H.
    destruct (negb _); [done|]. rewrite (IH _ _ _ H) by done. by apply lookup_insert_ne.
  - rewrite (IH _ _ _ H) by done. by apply lookup_insert_ne.
Qed.

(** Every leaf is bound to functions that hold its value. *)
Lemma bind_leaves_holds keep slots leaves env cs env' cs' ρ n w v :
  bind_leaves keep base all_vars slots leaves env cs = Some (env', cs') → NoDup (leaf_nid <$> leaves) →
  (n, (w, v)) ∈ leaf_assign ρ base keep slots leaves →
  v < 2 ^ w ∧ ∃ x, env' !! n = Some x ∧ is_bits ρ w v x.
Proof using All.
  revert slots env cs. induction leaves as [|c leaves IH]; intros slots env cs; cbn [bind_leaves leaf_assign].
  { intros _ _ []%not_elem_of_nil. }
  intros H Hd Hin. rewrite fmap_cons, NoDup_cons in Hd. destruct Hd as [Hc Hd].
  destruct (is_kept keep (leaf_nid c)).
  - destruct slots as [|pos slots]; [done|]. destruct (mapM _ pos) as [vars|] eqn:Hm; [|done].
    cbn [mbind option_bind] in H.
    destruct (Nat.eqb_spec (length vars) (N.to_nat (leaf_width c))) as [Hl|]; [|done]. cbn [negb] in H.
    apply elem_of_cons in Hin as [[= -> -> ->]|Hin]; [|by eapply IH].
    pose proof (mapped_vars pos vars ρ Hm) as Hmap.
    assert (Hlen : N.of_nat (length (map (λ i, ρ (base + N.of_nat i)) pos)) = leaf_width c).
    { rewrite <-Hmap, length_map, Hl. apply N2Nat.id. }
    split; [rewrite <-Hlen; apply bits_value_lt|].
    exists vars. rewrite (bind_leaves_other _ _ _ _ _ _ _ _ H Hc), lookup_insert_eq. split; [done|].
    unfold BitBlastCorrect.is_bits, dens. by rewrite Hmap, <-Hlen, bits_of_value.
  - apply elem_of_cons in Hin as [[= -> -> ->]|Hin]; [|by eapply IH]. split; [apply pow2_positive|].
    eexists. rewrite (bind_leaves_other _ _ _ _ _ _ _ _ H Hc), lookup_insert_eq. split; [done|].
    apply is_bits_replicate. intros i _. by rewrite den_f, N.bits_0.
Qed.
End bind.

(** ** The passes *)

Section passes.
Context {M F : Type} `{!BddLib M F} {den : F → (N → bool) → bool} `{!BddMeaning den} `{RP : !RadixParser}.
Abbreviation Blaster := (BddBitBlaster M F).
Abbreviation is_bits ρ := (is_bits (den := den) ρ).

(** The parts of a blaster the last passes keep. *)
Definition same_nodes (b b' : Blaster) : Prop :=
  bb_env b' = bb_env b ∧ cells b' = cells b ∧ limits b' = limits b.

(** A resolved operand. *)
Definition resolves_to (b : Blaster) (o : Z) (v : list F) : Prop := ∃ m m', resolve (bb_env b) o m = Some (Ok v, m').

Lemma resolve_on_manager (b b' : Blaster) o v :
  on_manager (resolve (bb_env b) o) b = Some (Ok v, b') →
  resolves_to b o v ∧ same_nodes b b' ∧ next_funcs b' = next_funcs b ∧ constraint_bdd b' = constraint_bdd b.
Proof using Type.
  unfold on_manager. destruct (resolve (bb_env b) o (manager b)) as [[r m]|] eqn:E; [|done]. intros [= -> <-].
  split; [|done]. by exists (manager b), m.
Qed.

(** The next line [l] of a kept and named state. *)
Definition next_line keep (names : gmap Z string) (l : Line) (value : Z) (sym : string) : Prop :=
  ∃ sort state, node l = NNext sort state value ∧ is_kept keep state = true ∧ names !! state = Some sym.

Record CollectedNext keep names (ls : list Line) (b b' : Blaster) : Prop := {
  cn_nodes : same_nodes b b';
  cn_constraint : constraint_bdd b' = constraint_bdd b;
  cn_from sym v : next_funcs b' !! sym = Some v →
    next_funcs b !! sym = Some v ∨ ∃ l value, l ∈ ls ∧ next_line keep names l value sym ∧ resolves_to b value v;
  cn_keep sym : is_Some (next_funcs b !! sym) → is_Some (next_funcs b' !! sym);
  cn_all l value sym : l ∈ ls → next_line keep names l value sym → is_Some (next_funcs b' !! sym);
}.

Lemma collected_skip keep names l ls b b' :
  CollectedNext keep names ls b b' → (∀ value sym, ¬ next_line keep names l value sym) →
  CollectedNext keep names (l :: ls) b b'.
Proof using Type.
  intros [H1 H2 H3 H4 H5] Hno. split; try done.
  - intros sym v Hv. destruct (H3 sym v Hv) as [?|(l' & va & Hin & ?)]; [by left|].
    right. exists l', va. split; [by right|done].
  - intros l' va sym [->|Hin]%elem_of_cons Hn; [by destruct (Hno va sym)|by eapply H5].
Qed.

Lemma collected_insert keep names l ls b b1 b' value sym v :
  next_line keep names l value sym → resolves_to b value v → same_nodes b b1 → next_funcs b1 = next_funcs b →
  constraint_bdd b1 = constraint_bdd b → CollectedNext keep names ls (map_next (insert sym v) b1) b' →
  CollectedNext keep names (l :: ls) b b'.
Proof using Type.
  intros Hl Hres (He1 & Hc1 & Hl1) Hn1 Hcb1 [(He & Hc & Hli) Hcb Hfrom Hkeep Hall].
  cbn [map_next bb_env cells limits next_funcs constraint_bdd] in *. split.
  - by split_and!; congruence.
  - congruence.
  - intros sym' v' Hv. destruct (Hfrom sym' v' Hv) as [Hv'|(l' & va & Hin & Hn & Hr')].
    + destruct (decide (sym' = sym)) as [->|Hne].
      * rewrite lookup_insert_eq in Hv'. injection Hv' as <-. right. exists l, value. split_and!; try done. by left.
      * rewrite lookup_insert_ne, Hn1 in Hv' by done. by left.
    + right. exists l', va. split_and!; try done; [by right|]. destruct Hr' as (m & m' & Hm). exists m, m'.
      cbn in Hm. by rewrite He1 in Hm.
  - intros sym' Hsome. apply Hkeep. destruct (decide (sym' = sym)) as [->|Hne]; [by rewrite lookup_insert_eq|].
    by rewrite lookup_insert_ne, Hn1.
  - intros l' va sym' [->|Hin]%elem_of_cons Hn; [|by eapply Hall]. apply Hkeep.
    destruct Hl as (s1 & st1 & Hn1' & _ & Hs1), Hn as (s2 & st2 & Hn2 & _ & Hs2).
    rewrite Hn1' in Hn2. injection Hn2 as <- <- <-. rewrite Hs1 in Hs2. injection Hs2 as <-. by rewrite lookup_insert_eq.
Qed.

Lemma collect_next_spec keep names ls (b b' : Blaster) :
  collect_next keep names ls b = Some (Ok tt, b') → CollectedNext keep names ls b b'.
Proof using Type.
  revert b. induction ls as [|l ls IH]; intros b; cbn [collect_next].
  { intros [= <-]. split; auto; [by split_and!|]. intros l ?? []%not_elem_of_nil. }
  destruct (node l) as [| | | | | |sort state value| | | | |] eqn:Hl;
    try (intros H; apply collected_skip; [by apply IH|]; intros ?? (? & ? & ? & _); congruence).
  destruct (is_kept keep state) eqn:Hk; cbn [negb];
    [|intros H; apply collected_skip; [by apply IH|]; intros ?? (? & ? & ? & ? & _); congruence].
  destruct (names !! state) as [sym|] eqn:Hs;
    [|intros H; apply collected_skip; [by apply IH|]; intros ?? (? & ? & ? & ? & ?); congruence].
  destruct (on_manager (resolve (bb_env b) value) b) as [[[v|e] b1]|] eqn:Hr; [|done|done].
  destruct (resolve_on_manager _ _ _ _ Hr) as (Hres & Hsame & Hn1 & Hcb1). intros H.
  eapply collected_insert; [by exists sort, state|exact Hres|exact Hsame|exact Hn1|exact Hcb1|by apply IH].
Qed.

Lemma bit_is_one ρ vals signal n c v :
  fits vals → operand_value vals signal = Some (1, n) → is_bits ρ 1 n (c :: v) → den c ρ = (n =? 1).
Proof using Type.
  intros Hf Hn Hb. destruct (operand_in_range vals signal _ Hf Hn) as [Hlt _]. cbn [fst snd] in Hlt.
  injection Hb as Hb _. assert (n = 0 ∨ n = 1) as [->| ->] by (simpl in Hlt; lia); exact Hb.
Qed.

(** The conjunction of the constraints. *)
Lemma collect_constraints_spec ls (b b' : Blaster) ρ vals lim :
  collect_constraints ls b = Some (Ok tt, b') → limits b = lim → fits vals →
  (∀ n w v, vals !! n = Some (w, v) → ∃ x, bb_env b !! n = Some x ∧ is_bits ρ w v x) →
  (∀ l signal, l ∈ ls → node l = NConstraint signal → ∃ n, operand_value vals signal = Some (1, n)) →
  same_nodes b b' ∧ next_funcs b' = next_funcs b ∧ named_signals b' = named_signals b ∧
  den (constraint_bdd b') ρ = den (constraint_bdd b) ρ &&
    forallb (λ l, match node l with
                  | NConstraint signal => match operand_value vals signal with Some (_, n) => n =? 1 | None => false end
                  | _ => true
                  end) ls.
Proof using All.
  intros H Hlim Hf Henv. revert b H Hlim Henv. induction ls as [|l ls IH]; intros b; cbn [collect_constraints forallb].
  { intros [= <-] _ _ _. rewrite andb_true_r. by split_and!. }
  intros H Hlim Henv Hwid.
  assert (Hwid' : ∀ l' signal, l' ∈ ls → node l' = NConstraint signal → ∃ n, operand_value vals signal = Some (1, n))
    by (intros l' s Hin; apply Hwid; by right).
  destruct (node l) as [| | | | | | | |signal| | |] eqn:Hl; try by apply IH.
  destruct (Hwid l signal) as (n & Hn); [by left|done|]. rewrite Hn.
  destruct (on_manager (resolve (bb_env b) signal) b) as [[[[|c v]|e] b1]|] eqn:Hr; [done| |done|done].
  destruct (resolve_on_manager _ _ _ _ Hr) as ((m & m' & Hm) & Hsame & Hn1 & Hcb1).
  pose proof (gives_resolve lim ρ vals (bb_env b) Hf Henv signal 1 n Hn m) as Hb. rewrite Hm in Hb.
  destruct (on_manager (band (constraint_bdd b1) c) b1) as [[[g|e] b2]|] eqn:Hg; [|done|done].
  unfold on_manager in Hg. destruct (band (constraint_bdd b1) c (manager b1)) as [[r m2]|] eqn:Hband; [|done].
  injection Hg as -> <-. destruct Hsame as (He1 & Hc1 & Hl1).
  pose proof (gives_band lim ρ (constraint_bdd b1) c _ _ eq_refl eq_refl (manager b1)) as Hd. rewrite Hband in Hd.
  destruct (IH (set_constraint g (with_manager b1 m2))) as ((He & Hc & Hli) & Hnx & Hns & Hden); [exact H| | |done|].
  - cbn. congruence.
  - intros k w v' Hk. cbn. rewrite He1. by apply Henv.
  - cbn in *. split_and!; [by split_and!; congruence|congruence| |].
    + rewrite Hns. unfold on_manager in Hr. destruct (resolve _ _ (manager b)) as [[? ?]|]; [|done]. by injection Hr as _ <-.
    + rewrite Hden, Hd, Hcb1, <-andb_assoc. f_equal. f_equal. by eapply bit_is_one.
Qed.
(** *** The build *)

Lemma collect_results {A B} (l : list A) (f : A → Comp M BlastError B) m v m' :
  try_collect l f m = Some (Ok v, m') → Forall2 (λ a b, ∃ m m', f a m = Some (Ok b, m')) l v.
Proof using Type.
  revert m v. induction l as [|a l IH]; intros m v; cbn [try_collect].
  { intros [= <- <-]. constructor. }
  unfold gbind at 1. destruct (f a m) as [[[b|e] m1]|] eqn:Ha; [|done|done].
  unfold gbind. destruct (try_collect l f m1) as [[[bs|e] m2]|] eqn:Hl; [|done|done]. intros [= <- <-].
  constructor; [eauto|by eapply IH].
Qed.

(** The walk and the constraints keep the rest of the blaster. *)
Lemma on_manager_keeps {A} (c : Comp M BlastError A) (b : Blaster) r b' :
  on_manager c b = Some (r, b') →
  same_nodes b b' ∧ next_funcs b' = next_funcs b ∧ constraint_bdd b' = constraint_bdd b.
Proof using Type. unfold on_manager. destruct (c (manager b)) as [[? ?]|]; [|done]. by intros [= _ <-]. Qed.

Lemma walk_keeps f (b : Blaster) :
  match walk_design f b with
  | Some (_, b') => next_funcs b' = next_funcs b ∧ cells b' = cells b ∧ constraint_bdd b' = constraint_bdd b
  | None => True
  end.
Proof using Type.
  unfold walk_design. generalize (lines f). intros ls. revert b. induction ls as [|l ls IH]; intros b; [done|].
  assert (Hl : match walk_line f l b with
    | Some (_, b') => next_funcs b' = next_funcs b ∧ cells b' = cells b ∧ constraint_bdd b' = constraint_bdd b
    | None => True
    end).
  { assert (Hb : ∀ n (c : Comp M BlastError (list F)),
      match bind_result n (on_manager c) b with
      | Some (_, b') => next_funcs b' = next_funcs b ∧ cells b' = cells b ∧ constraint_bdd b' = constraint_bdd b
      | None => True
      end).
    { intros n c. unfold bind_result. destruct (on_manager c b) as [[[v|e] b1]|] eqn:E; [| |done];
        by destruct (on_manager_keeps _ _ _ _ E) as ((_ & ? & _) & ? & ?). }
    unfold walk_line. destruct (node l); try done.
    - destruct (bv_width f sort); [apply Hb|done].
    - destruct (bv_width f sort); [apply (Hb _ (blast_op (limits b) (bb_env b) op (immediates l) args n))|].
      by destruct (array_widths f sort). }
  cbn [walk_lines]. destruct (walk_line f l b) as [[[u|e] b1]|]; [|done|done].
  specialize (IH b1). destruct (walk_lines f ls b1) as [[r b2]|]; [|done].
  destruct Hl as (? & ? & ?), IH as (? & ? & ?). split_and!; congruence.
Qed.

Lemma collect_constraints_keeps ls (b b' : Blaster) :
  collect_constraints ls b = Some (Ok tt, b') → same_nodes b b' ∧ next_funcs b' = next_funcs b.
Proof using Type.
  revert b. induction ls as [|l ls IH]; intros b; cbn [collect_constraints]; [by intros [= <-]|].
  destruct (node l) as [| | | | | | | |signal| | |]; try apply IH.
  destruct (on_manager (resolve (bb_env b) signal) b) as [[[[|c v]|e] b1]|] eqn:Hr; [done| |done|done].
  destruct (on_manager (band (constraint_bdd b1) c) b1) as [[[g|e] b2]|] eqn:Hg; [|done|done].
  intros H. destruct (on_manager_keeps _ _ _ _ Hr) as ((He1 & Hc1 & Hl1) & Hn1 & _).
  destruct (on_manager_keeps _ _ _ _ Hg) as ((He2 & Hc2 & Hl2) & Hn2 & _).
  destruct (IH _ H) as ((He & Hc & Hl) & Hn). cbn in *. split; [split_and!; congruence|congruence].
Qed.

Lemma run_passes_cells f keep leaves (b b' : Blaster) : run_passes f keep leaves b = Some (Ok tt, b') → cells b' = cells b.
Proof using Type.
  unfold run_passes. pose proof (walk_keeps f b) as Hk. destruct (walk_design f b) as [[[u|e] b1]|]; [|done|done].
  destruct (collect_next _ _ _ b1) as [[[[]|e] b2]|] eqn:Hn; [|done|done].
  destruct (collect_next_spec _ _ _ _ _ Hn) as [(_ & Hc2 & _) _ _ _ _]. intros H.
  destruct (collect_constraints_keeps _ _ _ H) as ((_ & Hc & _) & _). cbn in Hc. destruct Hk as (_ & ? & _). congruence.
Qed.

(** What a build gives at an assignment [ρ] where the design has values [vals]. *)
Record Blasted (f : Btor2File) (keep : option (gset Z)) (names : gmap Z string) (b : Blaster) (ρ : N → bool)
    (vals : Values) : Prop := {
  bl_fits : fits vals;
  bl_nodes n w v : vals !! n = Some (w, v) → ∃ x, bb_env b !! n = Some x ∧ is_bits ρ w v x;
  bl_next sym v : next_funcs b !! sym = Some v → ∃ l value, l ∈ lines f ∧ next_line keep names l value sym ∧
    ∀ w n, operand_value vals value = Some (w, n) → is_bits ρ w n v;
  bl_constraint : (∀ l signal, l ∈ lines f → node l = NConstraint signal → ∃ n, operand_value vals signal = Some (1, n)) →
    den (constraint_bdd b) ρ =
      forallb (λ l, match node l with
                    | NConstraint signal => match operand_value vals signal with Some (_, n) => n =? 1 | None => false end
                    | _ => true
                    end) (lines f);
}.

Lemma run_passes_blasted f keep leaves (b b' : Blaster) ρ lvals vals :
  run_passes f keep leaves b = Some (Ok tt, b') → next_funcs b = ∅ → constraint_bdd b = bdd_t →
  uses_only blast_supported f → fits lvals → holds node_bits (is_bits ρ) lvals b → design_values f lvals = Some vals →
  (∀ l value sym, l ∈ lines f → next_line keep (nid_symbol leaves) l value sym → is_Some (next_funcs b' !! sym)) ∧
  cells b' = cells b ∧ limits b' = limits b ∧ Blasted f keep (nid_symbol leaves) b' ρ vals.
Proof using All.
  intros H Hnf Hcb Hop Hf Hh Hd. unfold run_passes in H.
  pose proof (walk_design_implements node_bits (is_bits ρ) (limited (limits b)) (reliable (limits b)) (λ op _ _, blast_supported op)
    f lvals vals b (conj eq_refl (conj Hf Hh)) Hd (uses_only_within _ _ _ Hop)) as Hw.
  pose proof (walk_keeps f b) as Hk. destruct (walk_design f b) as [[[[]|e] b1]|] eqn:E; [|done|done].
  cbn [walked] in Hw. destruct Hw as (Hl1 & Hf1 & Hh1). destruct Hk as (Hn1 & Hc1 & Hcc1).
  destruct (collect_next keep (nid_symbol leaves) (lines f) b1) as [[[[]|e] b2]|] eqn:Hn; [|done|done].
  destruct (collect_next_spec _ _ _ _ _ Hn) as [(He2 & Hc2 & Hl2) Hcb2 Hfrom _ Hall].
  set (b3 := map_named _ b2) in H.
  assert (Henv : ∀ n w v, vals !! n = Some (w, v) → ∃ x, bb_env b3 !! n = Some x ∧ is_bits ρ w v x).
  { intros n w v Hv. cbn. rewrite He2. by apply Hh1. }
  assert (H4 : (∀ l signal, l ∈ lines f → node l = NConstraint signal → ∃ n, operand_value vals signal = Some (1, n)) → _)
    by (exact (collect_constraints_spec (lines f) b3 b' ρ vals _ H eq_refl Hf1 Henv)).
  pose proof (collect_constraints_keeps (lines f) b3 b' H) as ((He4 & Hc4 & Hli4) & Hn4).
  assert (Hcore : cells b' = cells b ∧ limits b' = limits b ∧ next_funcs b' = next_funcs b2).
  { cbn in *. unfold limited in Hl1. split_and!; congruence. }
  destruct Hcore as (Hc & Hli & Hnx). split_and!; [|done|done|].
  - intros l value sym Hin Hl. rewrite Hnx. by eapply Hall.
  - split; [done| | |].
    + intros n w v Hv. destruct (Henv n w v Hv) as (x & Hx & Hb). exists x. by rewrite He4.
    + intros sym v Hv. rewrite Hnx in Hv. destruct (Hfrom sym v Hv) as [Hv'|(l & value & Hin & Hl & (m & m' & Hm))].
      { by rewrite Hn1, Hnf, lookup_empty in Hv'. }
      exists l, value. split_and!; [done|done|]. intros w n Ho.
      pose proof (gives_resolve (limits b) ρ vals (bb_env b1) Hf1 Hh1 value w n Ho m) as Hg. by rewrite Hm in Hg.
    + intros Hwid. destruct (H4 Hwid) as (_ & _ & _ & Hden). rewrite Hden. cbn. by rewrite Hcb2, Hcc1, Hcb, den_t.
Qed.
(** The leaf values of a build at an assignment. *)
Definition leaves_at (ρ : N → bool) (base : N) keep slots leaves : Values := list_to_map (leaf_assign ρ base keep slots leaves).

(** The rows of the kept leaves. *)
Definition kept_leaves (keep : option (gset Z)) (leaves : list LeafCell) : list LeafCell :=
  filter (λ c, is_kept keep (leaf_nid c)) leaves.
Definition kept_slots order bit_index rank keep leaves : list (list nat) :=
  slots_of order bit_index rank (map (λ c, (leaf_nid c, N.to_nat (leaf_width c))) (kept_leaves keep leaves)).

Record BuildOf (f : Btor2File) (keep : option (gset Z)) (leaves : list LeafCell) (slots : list (list nat)) (b : Blaster)
    (base : N) (all_vars : list F) : Prop := {
  bo_vars i x ρ : all_vars !! i = Some x → den x ρ = ρ (base + N.of_nat i);
  bo_bound : bound base all_vars keep slots leaves (cells b);
  bo_all : (∃ ρ, is_Some (design_values f (leaves_at ρ base keep slots leaves))) →
    ∀ l value sym, l ∈ lines f → next_line keep (nid_symbol leaves) l value sym → is_Some (next_funcs b !! sym);
  bo_at ρ vals : design_values f (leaves_at ρ base keep slots leaves) = Some vals →
    Blasted f keep (nid_symbol leaves) b ρ vals;
}.

Lemma bind_leaves_fits base all_vars keep slots leaves env cs ρ :
  (∀ i x ρ, all_vars !! i = Some x → den x ρ = ρ (base + N.of_nat i)) →
  bind_leaves keep base all_vars slots leaves ∅ [] = Some (env, cs) →
  NoDup (leaf_nid <$> leaves) → Forall (λ c, leaf_width c < 2 ^ 32) leaves →
  fits (leaves_at ρ base keep slots leaves) ∧
  ∀ n w v, leaves_at ρ base keep slots leaves !! n = Some (w, v) → ∃ x, env !! n = Some x ∧ is_bits ρ w v x.
Proof using All.
  intros Hv Hb Hd Hw.
  assert (Hin : ∀ n w v, leaves_at ρ base keep slots leaves !! n = Some (w, v) →
    (n, (w, v)) ∈ leaf_assign ρ base keep slots leaves) by (intros n w v; apply elem_of_list_to_map_2).
  assert (Hww : ∀ n w v, (n, (w, v)) ∈ leaf_assign ρ base keep slots leaves → w < 2 ^ 32).
  { clear Hb Hd Hin. revert slots. induction Hw as [|c leaves Hc _ IH]; intros slots n w v; cbn [leaf_assign].
    - intros []%not_elem_of_nil.
    - destruct (is_kept keep (leaf_nid c)); [destruct slots as [|pos slots]; [intros []%not_elem_of_nil|]|];
        intros [[= -> -> ->]|Hin]%elem_of_cons; try done; by eapply IH. }
  split; intros n w v H; apply Hin in H; pose proof (bind_leaves_holds base all_vars Hv _ _ _ _ _ _ _ ρ _ _ _ Hb Hd H) as [??].
  - split; [done|by eapply Hww].
  - done.
Qed.

Lemma build_passes_built f symbols keep order bit_index rank co ec ao (b : Blaster) leaves :
  build_passes f symbols keep order bit_index rank co ec ao = Some (Ok b) → leaf_cells f symbols = Ok leaves →
  NoDup (leaf_nid <$> leaves) → Forall (λ c, leaf_width c < 2 ^ 32) leaves → uses_only blast_supported f →
  ∃ base all_vars, BuildOf f keep leaves (kept_slots order bit_index rank keep leaves) b base all_vars.
Proof using All.
  intros H Hleaves Hd Hw Hop. unfold build_passes in H. rewrite Hleaves in H. cbv zeta in H.
  destruct (total_bits keep leaves) as [bits|]; [|done]. destruct (_ <? _); [done|]. destruct (add_vars _ _) as [base m0]. exists base.
  destruct (try_collect _ _ m0) as [[[all_vars|e] m]|] eqn:Hc; [|done|done]. exists all_vars.
  destruct (_ || _); [done|]. fold (kept_slots order bit_index rank keep leaves) in H.
  destruct (bind_leaves _ _ _ _ _ _ _) as [[env cs]|] eqn:Hb; [|done].
  destruct (check_sorts f); [|done]. set (b0 := Build_BddBitBlaster _ _ _ _ _ _ _ _ _) in H.
  destruct (run_passes f keep leaves b0) as [[[[]|e] b1]|] eqn:Hrun; [|done|done]. injection H as ->.
  assert (Hvars : ∀ i x ρ, all_vars !! i = Some x → den x ρ = ρ (base + N.of_nat i)).
  { intros i x ρ Hi. apply collect_results in Hc.
    destruct (Forall2_lookup_r _ _ _ _ _ Hc Hi) as (j & Hj & m1 & m1' & Hvar).
    apply lookup_seq in Hj as [-> _]. unfold oom in Hvar.
    destruct (bdd_var _ m1) as [[y|] m2] eqn:Hy; [|done]. injection Hvar as <- _. by eapply den_var. }
  pose proof (λ ρ, bind_leaves_fits base all_vars keep _ leaves env cs ρ Hvars Hb Hd Hw) as Hfit.
  assert (Hpass : ∀ ρ vals, design_values f (leaves_at ρ base keep (kept_slots order bit_index rank keep leaves) leaves) = Some vals → _)
    by (intros ρ vals Hv; exact (run_passes_blasted f keep leaves b0 b ρ _ vals Hrun eq_refl eq_refl Hop
          (proj1 (Hfit ρ)) (proj2 (Hfit ρ)) Hv)).
  split; [done| | |].
  - destruct (bind_leaves_bound base all_vars _ _ _ _ _ _ _ Hb) as (new & -> & Hbound). by rewrite (run_passes_cells f keep leaves b0 b Hrun).
  - intros (ρ & vals & Hv). by apply (Hpass ρ vals).
  - intros ρ vals Hv. by apply (Hpass ρ vals).
Qed.
End passes.
