(* ===== verification/BitBlastAgree.v ===== *)
(** The step of the bit-blaster agrees with the concrete step.

    The minterm of an assignment of the cells, the reading of a value at it, and
    [eval_step_agrees]: on a design whose cells are named, [eval_step] of a build
    and [simulate_one_step] return the same value for every register with a next
    line.  A library of boolean expressions instantiates the interface. *)
From S2P Require Import Prelude Bitvec Btor2 Btor2Spec Btor2Correct BitBlast BitBlastCorrect BitBlastBackend BitBlastBuild BitBlastStep.
From Stdlib Require Import NArith.
Import Bv (Bv, Small, Wide).
Local Open Scope N_scope.

Section agree.
Context {M F : Type} `{!BddLib M F} {den : F → (N → bool) → bool} `{!BddMeaning den} `{RP : !RadixParser}.
Context (lim : Limits).
Abbreviation gives := (gives lim).

Lemma gives_bnot_all a : gives (bnot a) (λ f, ∀ ρ, den f ρ = negb (den a ρ)).
Proof using All.
  intros m. unfold bnot, oom. destruct (bdd_not a m) as [[f|] m'] eqn:E; [intros ρ; by eapply den_not|].
  intros (H & _). apply (H a m). by rewrite E.
Qed.

Lemma gives_band_all a b : gives (band a b) (λ f, ∀ ρ, den f ρ = den a ρ && den b ρ).
Proof using All.
  intros m. unfold band, oom. destruct (bdd_and a b m) as [[f|] m'] eqn:E; [intros ρ; by eapply den_and|].
  intros (_ & H & _). apply (H a b m). by rewrite E.
Qed.

(** ** The minterm *)

Definition testbits (v : N) (b n : nat) : list bool := map (λ i, N.testbit v (N.of_nat i)) (seq b n).
Definition cell_matches (assignment : gmap string N) (ρ : N → bool) (c : Cell F) : Prop :=
  map (λ x, den x ρ) (cell_vars c) = testbits (default 0 (assignment !! cell_symbol c)) 0 (length (cell_vars c)).

Lemma gives_literals v b vars mt :
  (b + length vars ≤ 128)%nat →
  gives (literals v b vars mt) (λ mt', ∀ ρ, den mt' ρ = true ↔
    den mt ρ = true ∧ map (λ x, den x ρ) vars = testbits v b (length vars)).
Proof using All.
  revert b mt. induction vars as [|x vars IH]; intros b mt Hb; cbn [literals length] in *.
  { apply gives_ret. intros ρ. split; [by intros H; split|by intros [H _]]. }
  eapply gives_bind.
  { unfold u128_bit. rewrite (proj2 (Nat.ltb_lt b 128)) by lia. by apply (gives_ret _ _ (λ bit, bit = N.testbit v (N.of_nat b))). }
  intros bit ->.
  eapply (gives_bind _ _ _ (λ lit, ∀ ρ, den lit ρ = true ↔ den x ρ = N.testbit v (N.of_nat b))).
  { destruct (N.testbit v (N.of_nat b)); [by apply gives_ret|]. eapply gives_mono; [apply gives_bnot_all|].
    intros lit Hl ρ. cbn beta in *. rewrite Hl. apply negb_true_iff. }
  intros lit Hlit. eapply gives_bind; [apply gives_band_all|]. intros mt' Hmt.
  eapply gives_mono; [apply IH; lia|]. intros mt'' Hmt'' ρ. cbn beta in *. rewrite Hmt'', Hmt, andb_true_iff, Hlit.
  unfold testbits. cbn [map seq]. split.
  - intros [[H1 H2] H3]. by rewrite H2, H3.
  - intros [H1 H2]. injection H2 as H2 H3. done.
Qed.

Lemma gives_minterm assignment cs mt :
  Forall (λ c : Cell F, (length (cell_vars c) ≤ 128)%nat) cs →
  gives (minterm_cells assignment cs mt) (λ mt', ∀ ρ, den mt' ρ = true ↔
    den mt ρ = true ∧ Forall (cell_matches assignment ρ) cs).
Proof using All.
  intros Hw. revert mt. induction Hw as [|c cs Hc _ IH]; intros mt; cbn [minterm_cells].
  { apply gives_ret. intros ρ. split; [by split; [|constructor]|tauto]. }
  eapply gives_bind; [by apply gives_literals|]. intros mt' Hmt'.
  eapply gives_mono; [apply IH|]. intros mt'' Hmt'' ρ. cbn beta in *. rewrite Hmt'', Hmt', Forall_cons. unfold cell_matches. tauto.
Qed.

(** ** Reading a value *)

Lemma mod_succ n i : n mod 2 ^ N.of_nat (S i) =
  if N.testbit n (N.of_nat i) then N.lor (n mod 2 ^ N.of_nat i) (N.shiftl 1 (N.of_nat i)) else n mod 2 ^ N.of_nat i.
Proof using Type.
  apply N.bits_inj. intros j. rewrite Nat2N.inj_succ.
  assert (Hs : N.testbit (N.shiftl 1 (N.of_nat i)) j = (j =? N.of_nat i)).
  { rewrite N.shiftl_1_l, N.pow2_bits_eqb. apply N.eqb_sym. }
  destruct (N.lt_trichotomy j (N.of_nat i)) as [Hj|[->|Hj]].
  - rewrite N.mod_pow2_bits_low by lia. destruct (N.testbit n (N.of_nat i)); rewrite ?N.lor_spec, ?Hs, N.mod_pow2_bits_low by lia; [|done].
    rewrite (proj2 (N.eqb_neq _ _)) by lia. by rewrite orb_false_r.
  - rewrite N.mod_pow2_bits_low by lia. destruct (N.testbit n (N.of_nat i)) eqn:E;
      rewrite ?N.lor_spec, ?Hs, N.mod_pow2_bits_high by lia; [by rewrite N.eqb_refl|done].
  - rewrite N.mod_pow2_bits_high by lia. destruct (N.testbit n (N.of_nat i)); rewrite ?N.lor_spec, ?Hs, N.mod_pow2_bits_high by lia; [|done].
    by rewrite (proj2 (N.eqb_neq _ _)) by lia.
Qed.

Lemma gives_value_from n i v mt val ρ0 :
  (i + length v ≤ 128)%nat → den mt ρ0 = true →
  (∀ ρ, den mt ρ = true → map (λ x, den x ρ) v = testbits n i (length v)) → val = n mod 2 ^ N.of_nat i →
  gives (value_from i v mt val) (λ r, r = n mod 2 ^ N.of_nat (i + length v)).
Proof using All.
  intros Hi H0. revert i val Hi. induction v as [|x v IH]; intros i val Hi Hv Hval; cbn [value_from length] in *.
  { apply gives_ret. by rewrite Nat.add_0_r. }
  assert (Hx : ∀ ρ, den mt ρ = true → den x ρ = N.testbit n (N.of_nat i) ∧ map (λ x, den x ρ) v = testbits n (S i) (length v)).
  { intros ρ Hρ. specialize (Hv ρ Hρ). unfold testbits in Hv. cbn [map seq] in Hv. by injection Hv. }
  eapply gives_bind; [apply gives_band_all|]. intros g Hg. cbn beta in Hg.
  assert (Hb : bdd_eqb g mt = N.testbit n (N.of_nat i)).
  { apply bool_eq_iff. rewrite bdd_eqb_den. split.
    - intros He. specialize (He ρ0). rewrite Hg, H0 in He. by rewrite <-(proj1 (Hx ρ0 H0)).
    - intros Ht ρ. rewrite Hg. destruct (den mt ρ) eqn:E; [|done]. by rewrite (proj1 (Hx ρ E)), Ht. }
  rewrite Hb, <-Nat.add_succ_comm. rewrite (proj2 (Nat.ltb_lt i 128)) by lia.
  destruct (N.testbit n (N.of_nat i)) eqn:E; (apply IH; [lia|intros ρ Hρ; by apply Hx|]);
    rewrite mod_succ, E; by subst.
Qed.
(** ** The assignment of the variables *)

(** The variables of the cells set to the bits of the assigned values. *)
Definition chosen (assignment : gmap string N) (base : N) (slots : list (list nat)) (cs : list (Cell F)) (x : N) : bool :=
  existsb (λ j, match cs !! j with
    | Some c => existsb (λ k, match slot slots j k with
        | Some i => (base + N.of_nat i =? x) && N.testbit (default 0 (assignment !! cell_symbol c)) (N.of_nat k)
        | None => false
        end) (seq 0 (length (cell_vars c)))
    | None => false
    end) (seq 0 (length cs)).

Lemma chosen_bit assignment base slots cs j c k i :
  slots_injective slots → cs !! j = Some c → (k < length (cell_vars c))%nat → slot slots j k = Some i →
  chosen assignment base slots cs (base + N.of_nat i) = N.testbit (default 0 (assignment !! cell_symbol c)) (N.of_nat k).
Proof using Type.
  intros Hinj Hj Hk Hs. apply bool_eq_iff. unfold chosen. rewrite existsb_exists. split.
  - intros (j' & _ & H). destruct (cs !! j') as [c'|] eqn:Hj'; [|done]. apply existsb_exists in H as (k' & _ & H).
    destruct (slot slots j' k') as [i'|] eqn:Hs'; [|done]. apply andb_prop in H as [Hi%N.eqb_eq Hb].
    assert (i' = i) as -> by lia. destruct (Hinj _ _ _ _ _ Hs Hs') as [<- <-]. rewrite Hj in Hj'. by injection Hj' as <-.
  - intros Hb. exists j. split; [apply in_seq; apply lookup_lt_Some in Hj; lia|]. rewrite Hj. apply existsb_exists.
    exists k. split; [apply in_seq; lia|]. by rewrite Hs, N.eqb_refl.
Qed.

Lemma bound_row base all_vars keep slots leaves (cs : list (Cell F)) j c :
  bound base all_vars keep slots leaves cs → cs !! j = Some c →
  ∃ pos, slots !! j = Some pos ∧ mapM (λ i, all_vars !! i) pos = Some (cell_vars c).
Proof using Type.
  intros Hb. revert j. induction Hb as [|pos slots c0 leaves vars cs Hk Hm Hl Hb IH|slots c0 leaves cs Hk Hb IH]; intros j Hj; [done| |by apply IH].
  destruct j as [|j]; [injection Hj as <-; by exists pos|]. by apply IH.
Qed.

Lemma chosen_matches assignment base all_vars keep slots leaves (cs : list (Cell F)) :
  (∀ i x ρ, all_vars !! i = Some x → den x ρ = ρ (base + N.of_nat i)) →
  slots_injective slots → bound base all_vars keep slots leaves cs →
  Forall (cell_matches assignment (chosen assignment base slots cs)) cs.
Proof using Type.
  intros Hvars Hinj Hb. apply Forall_lookup. intros j c Hj. destruct (bound_row _ _ _ _ _ _ _ _ Hb Hj) as (pos & Hp & Hm).
  unfold cell_matches. rewrite (mapped_vars base all_vars Hvars pos (cell_vars c) _ Hm).
  assert (Hlen : length pos = length (cell_vars c)) by (apply mapM_Some in Hm; by eapply Forall2_length).
  apply list_eq. intros k. unfold testbits. rewrite !list_lookup_fmap.
  destruct (decide (k < length (cell_vars c))%nat) as [Hk|Hk].
  - destruct (pos !! k) as [i|] eqn:Hi; [|apply lookup_ge_None in Hi; lia]. rewrite lookup_seq_lt by done. cbn. f_equal.
    apply (chosen_bit _ _ _ _ j c); [done|done|done|]. unfold slot. by rewrite Hp.
  - rewrite !lookup_ge_None_2; rewrite ?length_seq; try lia. done.
Qed.

(** The leaf values where the cells match. *)
Lemma value_testbits v w : bits_value (testbits v 0 (N.to_nat w)) = v mod 2 ^ w.
Proof using Type.
  pose proof (bits_of_value (testbits v 0 (N.to_nat w))) as H.
  pose proof (bits_value_lt (testbits v 0 (N.to_nat w))) as Hlt.
  assert (Hl : N.of_nat (length (testbits v 0 (N.to_nat w))) = w)
    by (unfold testbits; rewrite length_map, length_seq; apply N2Nat.id).
  rewrite Hl in H, Hlt. apply (bits_inj w); [done|apply mod_lt_pow|]. by rewrite bits_mod, H.
Qed.

Definition leaf_entry (assignment : gmap string N) (c : LeafCell) : Z * (N * N) :=
  (leaf_nid c, (leaf_width c, default 0 (assignment !! leaf_name c) mod 2 ^ leaf_width c)).

Lemma leaf_assign_matches assignment base all_vars slots leaves (cs : list (Cell F)) ρ :
  (∀ i x ρ, all_vars !! i = Some x → den x ρ = ρ (base + N.of_nat i)) →
  bound base all_vars None slots leaves cs → Forall (cell_matches assignment ρ) cs →
  leaf_assign ρ base None slots leaves = map (leaf_entry assignment) leaves.
Proof using Type.
  intros Hvars Hb. induction Hb as [|pos slots c leaves vars cs Hk Hm Hl Hb IH|]; intros Hc; [done| |done].
  apply Forall_cons in Hc as [Hc Hcs]. cbn [leaf_assign is_kept map]. rewrite IH by done. f_equal.
  unfold leaf_entry. do 2 f_equal. rewrite <-(mapped_vars base all_vars Hvars pos vars ρ Hm).
  unfold cell_matches in Hc. cbn [cell_vars cell_symbol] in Hc. by rewrite Hc, Hl, value_testbits.
Qed.
End agree.

(** ** Named cells *)

Lemma omap_split {A B} (g g1 g2 : A → option B) (l : list A) :
  (∀ a, a ∈ l → g a = match g1 a with Some b => Some b | None => g2 a end) →
  (∀ a, g1 a = None ∨ g2 a = None) → omap g l ≡ₚ omap g1 l ++ omap g2 l.
Proof.
  intros Hg Hx. induction l as [|a l IH]; [done|]. cbn [omap list_omap]. rewrite Hg by left.
  assert (IH' : omap g l ≡ₚ omap g1 l ++ omap g2 l) by (apply IH; intros b Hb; apply Hg; by right).
  destruct (g1 a) as [b|] eqn:H1.
  - destruct (Hx a) as [|H2]; [congruence|]. rewrite H2. cbn. by constructor.
  - destruct (g2 a) as [b|]; [|done]. rewrite <-Permutation_middle. by constructor.
Qed.

(** Every cell line has a symbol. *)
Definition all_named (f : Btor2File) (symbols : gmap Z string) : Prop :=
  ∀ l, l ∈ lines f → (∃ s r, node l = NState s r ∨ node l = NInput s r) → is_Some (symbols !! nid l).

Definition meta_entry (values : gmap string N) (sm : StateMeta) : Z * (N * N) := (sm_nid sm, cell_value values sm).

Lemma leaves_permutation f symbols leaves a :
  all_named f symbols → leaf_cells f symbols = Ok leaves →
  map (leaf_entry a) leaves ≡ₚ (meta_entry a <$> state_metas f symbols) ++ (meta_entry a <$> input_metas f symbols).
Proof.
  intros Hn Hl. rewrite (leaf_cells_lines f symbols (lines f) leaves Hl). unfold state_metas, input_metas.
  change (map (leaf_entry a)) with (fmap (M := list) (leaf_entry a)). rewrite !list_fmap_omap.
  apply omap_split.
  - intros l Hin. cbn. unfold leaf_of, meta_of, meta_entry, leaf_entry, cell_value.
    destruct (node l) as [|sort raw|sort raw| | | | | | | | |] eqn:E; try done; cbn [fmap option_fmap option_map];
      do 4 f_equal; (destruct (Hn l Hin) as [s Hs]; [eauto|]);
      cbn [leaf_name sm_symbol]; unfold resolve_leaf_symbol, step_name; by rewrite Hs.
  - intros l. cbn. destruct (node l); auto.
Qed.

Lemma leaf_values_permutation f symbols leaves a :
  all_named f symbols → leaf_cells f symbols = Ok leaves → NoDup (sm_nid <$> state_metas f symbols ++ input_metas f symbols) →
  NoDup (leaf_nid <$> leaves) ∧ list_to_map (map (leaf_entry a) leaves) = leaf_values f symbols a a.
Proof.
  intros Hn Hl Hd. pose proof (leaves_permutation f symbols leaves a Hn Hl) as Hp.
  assert (Hk : (map (leaf_entry a) leaves).*1 = leaf_nid <$> leaves).
  { change (map (leaf_entry a) leaves) with (leaf_entry a <$> leaves). rewrite <-list_fmap_compose. done. }
  assert (Hk' : ((meta_entry a <$> state_metas f symbols) ++ (meta_entry a <$> input_metas f symbols)).*1 =
    sm_nid <$> state_metas f symbols ++ input_metas f symbols).
  { rewrite !fmap_app, <-!list_fmap_compose. done. }
  assert (Hd1 : NoDup (leaf_nid <$> leaves)) by (by rewrite <-Hk, Hp, Hk').
  split; [done|]. unfold leaf_values. apply list_to_map_proper; [by rewrite Hk|exact Hp].
Qed.

Lemma nodup_key {A B} (k : A → B) (l : list A) x y : NoDup (k <$> l) → x ∈ l → y ∈ l → k x = k y → x = y.
Proof.
  intros Hd Hx Hy E. apply list_elem_of_lookup in Hx as [i Hi], Hy as [j Hj].
  assert (i = j) as ->; [|congruence].
  eapply (NoDup_lookup _ i j (k x)); [done|by rewrite list_lookup_fmap, Hi|by rewrite list_lookup_fmap, Hj, E].
Qed.

(** The names of the states. *)
Lemma nid_symbol_from leaves n s :
  nid_symbol leaves !! n = Some s → ∃ c, c ∈ leaves ∧ leaf_is_state c = true ∧ leaf_nid c = n ∧ leaf_name c = s.
Proof.
  unfold nid_symbol. assert (H : ∀ m : gmap Z string,
    foldl (λ m c, if leaf_is_state c then <[leaf_nid c := leaf_name c]> m else m) m leaves !! n = Some s →
    m !! n = Some s ∨ ∃ c, c ∈ leaves ∧ leaf_is_state c = true ∧ leaf_nid c = n ∧ leaf_name c = s).
  { induction leaves as [|c leaves IH]; intros m; cbn [foldl]; [auto|]. intros H.
    destruct (IH _ H) as [Hm|(c' & Hc' & ?)]; [|right; exists c'; split; [by right|done]].
    destruct (leaf_is_state c) eqn:Hs; [|by left].
    apply lookup_insert_Some in Hm as [[Hn Hv]|[_ Hm]]; [|by left]. right. exists c. split_and!; try done. by left. }
  intros Hs. destruct (H ∅ Hs) as [Hm|Hc]; [by rewrite lookup_empty in Hm|done].
Qed.

Lemma nid_symbol_of leaves c :
  NoDup (leaf_nid <$> leaves) → c ∈ leaves → leaf_is_state c = true → nid_symbol leaves !! leaf_nid c = Some (leaf_name c).
Proof.
  intros Hd Hc Hs.
  assert (H : is_Some (nid_symbol leaves !! leaf_nid c)).
  { unfold nid_symbol. generalize (∅ : gmap Z string). clear Hd. induction leaves as [|c' leaves IH]; intros m; [by apply not_elem_of_nil in Hc|].
    cbn [foldl]. apply elem_of_cons in Hc as [<-|Hc]; [|by apply IH]. rewrite Hs. clear IH.
    assert (Hm : is_Some (<[leaf_nid c := leaf_name c]> m !! leaf_nid c)) by (rewrite lookup_insert_eq; eauto).
    revert Hm. generalize (<[leaf_nid c := leaf_name c]> m). induction leaves as [|c' leaves IH]; intros m' Hm; [done|].
    cbn [foldl]. apply IH. destruct (leaf_is_state c'); [|done]. destruct (decide (leaf_nid c' = leaf_nid c)) as [->|Hne].
    - rewrite lookup_insert_eq. eauto.
    - by rewrite lookup_insert_ne. }
  destruct H as [s Hs']. rewrite Hs'. destruct (nid_symbol_from leaves _ _ Hs') as (c' & Hc' & _ & Hn & <-).
  by rewrite (nodup_key leaf_nid leaves c' c Hd Hc' Hc Hn).
Qed.

(** The state leaf of a cell with a next line, and back. *)
Lemma state_leaf f symbols leaves sm :
  all_named f symbols → leaf_cells f symbols = Ok leaves → sm ∈ state_metas f symbols → sm_nid sm ∈ (next_lines f).*1 →
  ∃ c, c ∈ leaves ∧ leaf_is_state c = true ∧ leaf_nid c = sm_nid sm ∧ leaf_name c = sm_symbol sm.
Proof.
  intros Hn Hl Hin Hnext. rewrite (leaf_cells_lines f symbols (lines f) leaves Hl).
  apply list_elem_of_omap in Hin as (l & Hll & Hm). destruct (node l) as [| |sort raw| | | | | | | | |] eqn:E; try done. injection Hm as <-.
  destruct (Hn l Hll) as [s Hs]; [eauto|].
  exists {| leaf_nid := nid l; leaf_name := s; leaf_named := bool_decide (is_Some (symbols !! nid l)); leaf_is_state := true;
            leaf_width := default 0 (bv_width f sort) |}.
  split_and!; [|done|done|cbn; unfold step_name; by rewrite Hs].
  apply list_elem_of_omap. exists l. split; [done|]. unfold leaf_of. rewrite E. cbv zeta. unfold resolve_leaf_symbol. rewrite Hs.
  do 2 f_equal. apply bool_decide_eq_true. unfold states_with_next. apply elem_of_list_to_set.
  apply list_elem_of_fmap in Hnext as ([st v] & Hst & Hnext). cbn in Hst. unfold next_lines in Hnext.
  apply list_elem_of_omap in Hnext as (l' & Hl' & Hn'). apply list_elem_of_omap. exists l'. split; [done|].
  destruct (node l'); try done. injection Hn' as -> ->. by rewrite Hst.
Qed.

Lemma leaf_state f symbols leaves c :
  all_named f symbols → leaf_cells f symbols = Ok leaves → c ∈ leaves → leaf_is_state c = true →
  ∃ sm, sm ∈ state_metas f symbols ∧ sm_nid sm = leaf_nid c ∧ sm_symbol sm = leaf_name c.
Proof.
  intros Hn Hl Hin Hst. rewrite (leaf_cells_lines f symbols (lines f) leaves Hl) in Hin.
  apply list_elem_of_omap in Hin as (l & Hll & Hm). unfold leaf_of in Hm.
  destruct (node l) as [|sort raw|sort raw| | | | | | | | |] eqn:E; try done; injection Hm as <-; [done|].
  exists (meta_of f symbols "st_n" l sort). destruct (Hn l Hll) as [s Hs]; [eauto|]. split_and!.
  - apply list_elem_of_omap. exists l. split; [done|]. by rewrite E.
  - done.
  - cbn. unfold step_name, resolve_leaf_symbol. by rewrite Hs.
Qed.

(** ** The step *)

Record Comparable (f : Btor2File) (symbols : gmap Z string) (a : gmap string N) (vals : Values) : Prop := {
  cp_named : Named f symbols a a;
  cp_all : all_named f symbols;
  cp_next : NoDup (next_lines f).*1;
  cp_ops : uses_only blast_supported f;
  cp_narrow sm : sm ∈ state_metas f symbols ++ input_metas f symbols → sm_width sm ≤ 128;
  cp_values : step_values f symbols a a = Some vals;
  cp_next_narrow state value w n : (state, value) ∈ next_lines f → operand_value vals value = Some (w, n) → w ≤ 128;
}.

Section step.
Context {M F : Type} `{!BddLib M F} {den : F → (N → bool) → bool} `{!BddMeaning den} `{RP : !RadixParser}.
Context (lim : Limits) {f : Btor2File} {symbols : gmap Z string} {a : gmap string N} {vals : Values}.
Context (Hc : Comparable f symbols a vals) {leaves : list LeafCell} (Hl : leaf_cells f symbols = Ok leaves).
Abbreviation Blaster := (BddBitBlaster M F).

(** The value [eval_step] should give to a name. *)
Definition named_next (sym : string) (r : N) : Prop :=
  ∃ state value w n, (state, value) ∈ next_lines f ∧ nid_symbol leaves !! state = Some sym ∧
    operand_value vals value = Some (w, n) ∧ r = n ∧ n < 2 ^ w ∧ w ≤ 128.

Lemma gives_values_of fs mt (out : gmap string N) (R : string → N → Prop) :
  (∀ sym bits, (sym, bits) ∈ fs → gives lim (value_of bits mt) (R sym)) →
  (∀ sym r, out !! sym = Some r → R sym r) →
  gives lim (values_of (F := F) fs mt out)
    (λ m, ∀ sym, sym ∈ fs.*1 ∨ is_Some (out !! sym) → ∃ r, m !! sym = Some r ∧ R sym r).
Proof using Type.
  revert out. induction fs as [|[sym bits] fs IH]; intros out Hfs Hout; cbn [values_of].
  { apply gives_ret. intros s [[]%not_elem_of_nil|[r Hr]]. eauto. }
  eapply gives_bind; [apply Hfs; left|]. intros v Hv.
  eapply gives_mono; [apply IH|].
  - intros s b Hin. apply Hfs. by right.
  - intros s r [[<- <-]|[_ Hr]]%lookup_insert_Some; auto.
  - intros m Hm s Hs. apply Hm. destruct (decide (s = sym)) as [->|Hne]; [right; rewrite lookup_insert_eq; eauto|].
    rewrite lookup_insert_ne by done. cbn [fmap list_fmap fst] in Hs. destruct Hs as [[?|?]%elem_of_cons|?]; auto. done.
Qed.

Lemma step_values_inv :
  design_values f (leaf_values f symbols a a) = Some vals ∧
  ∀ state value, (state, value) ∈ next_lines f → ∃ w n, operand_value vals value = Some (w, n).
Proof using Hc.
  pose proof (cp_values _ _ _ _ Hc) as H. unfold step_values in H.
  destruct (design_values f _) as [vals'|]; [|done]. cbn [mbind option_bind] in H. case_decide as Hall; [|done].
  injection H as ->. split; [done|]. intros state value Hin. rewrite Forall_forall in Hall.
  destruct (Hall _ Hin) as [[w n] Hv]. eauto.
Qed.

Lemma next_line_in l value sym :
  l ∈ lines f → next_line None (nid_symbol leaves) l value sym →
  ∃ state, (state, value) ∈ next_lines f ∧ nid_symbol leaves !! state = Some sym.
Proof using Type.
  intros Hin (sort & state & Hn & _ & Hs). exists state. split; [|done]. apply list_elem_of_omap.
  exists l. split; [done|]. by rewrite Hn.
Qed.

Lemma leaf_widths : Forall (λ c, leaf_width c ≤ 128) leaves.
Proof using Hc Hl.
  pose proof (leaves_permutation f symbols leaves a (cp_all _ _ _ _ Hc) Hl) as Hp.
  apply Forall_forall. intros c Hin. assert (Hin' : leaf_entry a c ∈ map (leaf_entry a) leaves) by by apply list_elem_of_fmap_2.
  rewrite Hp in Hin'. apply elem_of_app in Hin' as [Hin'|Hin']; apply list_elem_of_fmap in Hin' as (sm & [= _ Hw _] & Hsm);
    rewrite Hw; apply (cp_narrow _ _ _ _ Hc); apply elem_of_app; auto.
Qed.

Lemma bound_widths base all_vars keep slots (cs : list (Cell F)) :
  bound base all_vars keep slots leaves cs → Forall (λ c, (length (cell_vars c) ≤ 128)%nat) cs.
Proof using Hc Hl.
  intros Hb. pose proof leaf_widths as Hw. clear Hl. revert Hw. induction Hb as [|pos slots c lv vars cs Hk Hm Hlen Hb IH|]; intros Hw; [constructor| |].
  - apply Forall_cons in Hw as [Hc0 Hw]. constructor; [cbn; rewrite Hlen; lia|by apply IH].
  - apply Forall_cons in Hw as [_ Hw]. auto.
Qed.

(** A name is the name of one state, with one next line. *)
Lemma named_unique s1 s2 sym :
  nid_symbol leaves !! s1 = Some sym → nid_symbol leaves !! s2 = Some sym → s1 = s2.
Proof using Hc Hl.
  intros H1 H2. destruct (nid_symbol_from leaves _ _ H1) as (c1 & Hc1 & Hs1 & <- & Hn1).
  destruct (nid_symbol_from leaves _ _ H2) as (c2 & Hc2 & Hs2 & <- & Hn2).
  pose proof (cp_all _ _ _ _ Hc) as Ha.
  destruct (leaf_state f symbols leaves c1 Ha Hl Hc1 Hs1) as (m1 & Hm1 & <- & E1).
  destruct (leaf_state f symbols leaves c2 Ha Hl Hc2 Hs2) as (m2 & Hm2 & <- & E2).
  f_equal. eapply (nodup_key sm_symbol); [apply (named_states _ _ _ _ (cp_named _ _ _ _ Hc))|done|done|congruence].
Qed.

Lemma next_unique s v1 v2 : (s, v1) ∈ next_lines f → (s, v2) ∈ next_lines f → v1 = v2.
Proof using Hc.
  intros H1 H2. pose proof (nodup_key fst _ _ _ (cp_next _ _ _ _ Hc) H1 H2 eq_refl) as H. by injection H.
Qed.

Lemma same_next_value l l' value value' sym :
  l ∈ lines f → next_line None (nid_symbol leaves) l value sym →
  l' ∈ lines f → next_line None (nid_symbol leaves) l' value' sym → value' = value.
Proof using Hc Hl.
  intros Hin Hn Hin' Hn'. destruct (next_line_in _ _ _ Hin Hn) as (s & Hs & H1), (next_line_in _ _ _ Hin' Hn') as (s' & Hs' & H2).
  rewrite (named_unique s' s sym) in Hs' by done. by eapply next_unique.
Qed.

Context (b : Blaster) (base : N) (all_vars : list F) (slots : list (list nat)).
Context (Hb : BuildOf (den := den) f None leaves slots b base all_vars) (Hinj : slots_injective slots).

(** At the assignments of a minterm the design has its values. *)
Lemma matching_values ρ :
  Forall (cell_matches (den := den) a ρ) (cells b) → design_values f (leaves_at ρ base None slots leaves) = Some vals.
Proof using Hc Hl Hb.
  intros Hm. unfold leaves_at. destruct Hb as [Hvars Hbound _ _].
  rewrite (leaf_assign_matches a base all_vars slots leaves (cells b) ρ Hvars Hbound Hm).
  rewrite (proj2 (leaf_values_permutation f symbols leaves a (cp_all _ _ _ _ Hc) Hl (named_nids _ _ _ _ (cp_named _ _ _ _ Hc)))).
  apply step_values_inv.
Qed.

Lemma gives_next_value sym bits mt :
  next_funcs b !! sym = Some bits →
  (∀ ρ, den mt ρ = true ↔ Forall (cell_matches (den := den) a ρ) (cells b)) →
  gives lim (value_of bits mt) (named_next sym).
Proof using All.
  intros Hs Hmt. pose proof (bo_vars _ _ _ _ _ _ _ Hb) as Hvars. pose proof (bo_bound _ _ _ _ _ _ _ Hb) as Hbound.
  pose proof (chosen_matches a base all_vars None slots leaves (cells b) Hvars Hinj Hbound) as H0.
  set (ρ0 := chosen a base slots (cells b)) in *.
  destruct (bl_next _ _ _ _ _ _ (bo_at _ _ _ _ _ _ _ Hb ρ0 vals (matching_values ρ0 H0)) sym bits Hs)
    as (l & value & Hin & Hline & Hbits0).
  destruct (next_line_in l value sym Hin Hline) as (state & Hnl & Hname).
  destruct (proj2 step_values_inv state value Hnl) as (w & n & Ho).
  pose proof (cp_next_narrow _ _ _ _ Hc state value w n Hnl Ho) as Hw.
  assert (Hfits : fits vals) by apply (bl_fits _ _ _ _ _ _ (bo_at _ _ _ _ _ _ _ Hb ρ0 vals (matching_values ρ0 H0))).
  destruct (operand_in_range vals value _ Hfits Ho) as [Hn _]. cbn [fst snd] in Hn.
  pose proof (is_bits_length _ _ _ _ (Hbits0 w n Ho)) as Hlen.
  eapply gives_mono; [apply (gives_value_from lim n 0 bits mt 0 ρ0); [lia|by apply Hmt| |by rewrite N.mod_1_r]|].
  - intros ρ Hρ. apply Hmt in Hρ.
    destruct (bl_next _ _ _ _ _ _ (bo_at _ _ _ _ _ _ _ Hb ρ vals (matching_values ρ Hρ)) sym bits Hs)
      as (l' & value' & Hin' & Hline' & Hbits).
    assert (value' = value) as ->; [|rewrite Hlen; exact (Hbits w n Ho)].
    exact (same_next_value l l' value value' sym Hin Hline Hin' Hline').
  - intros r ->. exists state, value, w, n. split_and!; try done. rewrite Nat.add_0_l, Hlen, N2Nat.id. by apply N.mod_small.
Qed.

Lemma gives_eval_step :
  gives lim (eval_step b a) (λ out, ∀ sm value w n,
    sm ∈ state_metas f symbols → (sm_nid sm, value) ∈ next_lines f → operand_value vals value = Some (w, n) →
    out !! sm_symbol sm = Some n ∧ n < 2 ^ 128).
Proof using All.
  unfold eval_step, minterm_for. pose proof (bo_bound _ _ _ _ _ _ _ Hb) as Hbound.
  eapply gives_bind; [apply gives_minterm; by eapply bound_widths|]. intros mt Hmt. cbn beta in Hmt.
  assert (Hmt' : ∀ ρ, den mt ρ = true ↔ Forall (cell_matches (den := den) a ρ) (cells b)).
  { intros ρ. rewrite Hmt, den_t. tauto. }
  eapply gives_mono; [apply (gives_values_of _ _ ∅ named_next)|].
  - intros sym bits Hin. apply elem_of_map_to_list in Hin. by apply gives_next_value.
  - intros sym r. by rewrite lookup_empty.
  - intros out Hout sm value w n Hsm Hnext Ho. cbn beta in Hout.
    assert (Hk : sm_nid sm ∈ (next_lines f).*1) by (apply list_elem_of_fmap; by exists (sm_nid sm, value)).
    pose proof (cp_all _ _ _ _ Hc) as Ha.
    destruct (state_leaf f symbols leaves sm Ha Hl Hsm Hk) as (c & Hcin & Hst & Hn & Hname).
    pose proof (proj1 (leaf_values_permutation f symbols leaves a Ha Hl (named_nids _ _ _ _ (cp_named _ _ _ _ Hc)))) as Hd.
    pose proof (nid_symbol_of leaves c Hd Hcin Hst) as Hsym. rewrite Hn, Hname in Hsym.
    assert (Hsome : is_Some (next_funcs b !! sm_symbol sm)).
    { apply list_elem_of_omap in Hnext as (l & Hlin & Hnode).
      eapply (bo_all _ _ _ _ _ _ _ Hb); [|exact Hlin|].
      - pose proof (chosen_matches a base all_vars None slots leaves (cells b) (bo_vars _ _ _ _ _ _ _ Hb) Hinj Hbound) as H0.
        eexists. eexists. exact (matching_values _ H0).
      - destruct (node l) as [| | | | | |sort st va| | | | |] eqn:E; try done. injection Hnode as -> ->.
        exists sort, (sm_nid sm). by split_and!. }
    destruct Hsome as [bits Hbits].
    destruct (Hout (sm_symbol sm)) as (r & Hr & (s' & v' & w' & n' & Hn' & Hs' & Ho' & -> & Hlt & Hw)).
    { left. apply list_elem_of_fmap. exists (sm_symbol sm, bits). split; [done|]. by apply elem_of_map_to_list. }
    rewrite (named_unique s' (sm_nid sm) (sm_symbol sm)) in Hn' by done.
    rewrite (next_unique _ _ _ Hn' Hnext), Ho in Ho'. injection Ho' as <- <-. split; [done|]. by apply (fits_128 w).
Qed.
End step.

(** Designs the blaster supports have no rotations. *)
Lemma blast_rotation op ws w : blast_supported op = true → rotation_fits op ws w = true.
Proof. by destruct op. Qed.

Lemma blast_rotations_fit f vals : uses_only blast_supported f → rotations_fit f vals = true.
Proof. intros Hop. eapply lines_within_mono; [|by apply uses_only_within]. intros op ws w. apply blast_rotation. Qed.

(** C21: The bit-blaster's step agrees with the concrete one.  On a build of a
    named design without pinned leaves, for the orders, caps and budgets of any
    run, [eval_step] never panics; it gives up only when the library or a guard
    does; and when it returns, [simulate_one_step] returns too, and both hold the
    same value for every register that has a next line. *)
Theorem eval_step_agrees {M F : Type} `{!BddLib M F} {den : F → (N → bool) → bool} `{!BddMeaning den} `{!RadixParser}
    (f : Btor2File) (symbols : gmap Z string) (order : VarOrder) (bit_index : gmap Z (list N)) (rank : gmap Z N)
    (cap_override env_cap arena : option N) (b : BddBitBlaster M F) (a : gmap string N) (vals : Values)
    (Hbuild : build_passes f symbols None order bit_index rank cap_override env_cap arena = Some (Ok b))
    (Hc : Comparable f symbols a vals) :
  match eval_step b a (manager b) with
  | Some (Ok out, _) => ∃ out', simulate_one_step f symbols a a = Some (Ok out') ∧
      ∀ sm, sm ∈ state_metas f symbols → sm_nid sm ∈ (next_lines f).*1 →
        is_Some (out !! sm_symbol sm) ∧ out !! sm_symbol sm = out' !! sm_symbol sm
  | Some (Err _, _) => ¬ reliable (limits b)
  | None => False
  end.
Proof.
  destruct (leaf_cells f symbols) as [leaves|n] eqn:Hl; [|unfold build_passes in Hbuild; by rewrite Hl in Hbuild].
  pose proof (leaf_values_permutation f symbols leaves a (cp_all _ _ _ _ Hc) Hl (named_nids _ _ _ _ (cp_named _ _ _ _ Hc))) as [Hd _].
  assert (Hw : Forall (λ c, leaf_width c < 2 ^ 32) leaves) by (eapply Forall_impl; [exact (leaf_widths Hc Hl)|intros c Hcw; cbn in Hcw; lia]).
  destruct (build_passes_built (den := den) f symbols None order bit_index rank _ _ _ b leaves Hbuild Hl Hd Hw (cp_ops _ _ _ _ Hc))
    as (base & all_vars & Hb).
  pose proof (gives_eval_step (limits b) Hc Hl b base all_vars _ Hb (slots_of_injective _ _ _ _) (manager b)) as Hstep.
  destruct (eval_step b a (manager b)) as [[[out|e] m]|]; [|done|done].
  destruct (simulate_one_step_values f symbols a a vals (cp_named _ _ _ _ Hc) (cp_next _ _ _ _ Hc) (cp_values _ _ _ _ Hc)
    (blast_rotations_fit _ _ (cp_ops _ _ _ _ Hc))) as (out' & Hout' & Hval).
  exists out'. split; [done|]. intros sm Hsm Hk. apply list_elem_of_fmap in Hk as ([s value] & Hs & Hin). cbn in Hs. subst s.
  destruct (proj2 (step_values_inv Hc) _ _ Hin) as (w & n & Ho). destruct (Hstep sm value w n Hsm Hin Ho) as [Hn Hlt].
  rewrite Hn. split; [eauto|]. symmetry. rewrite <-(N.mod_small n (2 ^ 128)) by done. apply (Hval sm w n Hsm).
  unfold next_value. by rewrite (elem_of_list_to_map_1 _ _ _ (cp_next _ _ _ _ Hc) Hin).
Qed.

(** ** A library of boolean expressions *)

Module Exp.
Inductive Exp := ETrue | EFalse | EVar (i : N) | ENot (a : Exp) | EAnd (a b : Exp) | EOr (a b : Exp).

Fixpoint den (e : Exp) (ρ : N → bool) : bool :=
  match e with
  | ETrue => true
  | EFalse => false
  | EVar i => ρ i
  | ENot a => negb (den a ρ)
  | EAnd a b => den a ρ && den b ρ
  | EOr a b => den a ρ || den b ρ
  end.

Fixpoint vars (e : Exp) : list N :=
  match e with
  | EVar i => [i]
  | ENot a => vars a
  | EAnd a b | EOr a b => vars a ++ vars b
  | _ => []
  end.

Lemma den_vars e ρ ρ' : (∀ i, i ∈ vars e → ρ i = ρ' i) → den e ρ = den e ρ'.
Proof.
  induction e as [| |i|a IH|a IHa b IHb|a IHa b IHb]; cbn [den vars]; intros H; try done.
  - apply H. left.
  - by rewrite IH.
  - rewrite IHa, IHb; [done|intros i Hi; apply H, elem_of_app; auto|intros i Hi; apply H, elem_of_app; auto].
  - rewrite IHa, IHb; [done|intros i Hi; apply H, elem_of_app; auto|intros i Hi; apply H, elem_of_app; auto].
Qed.

(** Every assignment of the listed variables. *)
Fixpoint always (vs : list N) (ρ : N → bool) (p : (N → bool) → bool) : bool :=
  match vs with
  | [] => p ρ
  | v :: vs => always vs (λ i, if i =? v then true else ρ i) p && always vs (λ i, if i =? v then false else ρ i) p
  end.

Lemma always_spec vs ρ p :
  (∀ ρ1 ρ2, (∀ i, ρ1 i = ρ2 i) → p ρ1 = p ρ2) →
  always vs ρ p = true ↔ ∀ ρ', (∀ i, i ∉ vs → ρ' i = ρ i) → p ρ' = true.
Proof.
  intros Hp. revert ρ. induction vs as [|v vs IH]; intros ρ; cbn [always].
  - split; [|intros H; by apply H]. intros Ht ρ' H. rewrite <-Ht. apply Hp. intros i. apply H. apply not_elem_of_nil.
  - rewrite andb_true_iff, !IH. split.
    + intros [Ht Hf] ρ' H. destruct (ρ' v) eqn:E; [apply Ht|apply Hf]; intros i Hi; (destruct (N.eqb_spec i v) as [->|]; [done|]);
        apply H; by rewrite not_elem_of_cons.
    + intros H. split; intros ρ' H'; apply H; intros i [Hv Hi]%not_elem_of_cons; rewrite H' by done;
        by rewrite (proj2 (N.eqb_neq i v)).
Qed.

Definition same (a b : Exp) : bool :=
  always (remove_dups (vars a ++ vars b)) (λ _, false) (λ ρ, eqb (den a ρ) (den b ρ)).

Lemma same_spec a b : same a b = true ↔ ∀ ρ, den a ρ = den b ρ.
Proof.
  unfold same. rewrite always_spec by (intros ρ1 ρ2 H; by rewrite !(den_vars _ ρ1 ρ2)). split.
  - intros H ρ. set (vs := remove_dups (vars a ++ vars b)) in *.
    specialize (H (λ i, if decide (i ∈ vs) then ρ i else false)). apply eqb_prop in H; [|intros i Hi; by rewrite decide_False].
    assert (Hagree : ∀ e i, i ∈ vars e → i ∈ vs → ρ i = if decide (i ∈ vs) then ρ i else false)
      by (intros e i _ Hi; by rewrite decide_True).
    etrans; [apply den_vars; intros i Hi; apply (Hagree a i Hi), elem_of_remove_dups, elem_of_app; auto|].
    etrans; [exact H|]. symmetry. apply den_vars. intros i Hi. apply (Hagree b i Hi), elem_of_remove_dups, elem_of_app. auto.
  - intros H ρ _. rewrite H. apply eqb_reflx.
Qed.

(** The manager counts the variables. *)
#[global] Instance lib : BddLib N Exp := {
  bdd_t := ETrue;
  bdd_f := EFalse;
  bdd_var i m := (Some (EVar i), m);
  bdd_not a m := (Some (ENot a), m);
  bdd_and a b m := (Some (EAnd a b), m);
  bdd_or a b m := (Some (EOr a b), m);
  bdd_eqb := same;
  new_manager _ := 0;
  add_vars n m := (m, m + n);
  approx_num_inner_nodes _ := 0;
  num_vars m := m;
  num_levels m := m;
  run_expired m := (false, m);
}.

#[global] Instance meaning : BddMeaning den.
Proof. split; try done; try apply same_spec; intros; cbn in *; by simplify_eq. Qed.
End Exp.

Definition counter_symbols : gmap Z string := {[ 3%Z := "enable"; 4%Z := "count" ]}.
Definition counter_assignment : gmap string N := {[ "enable" := 1; "count" := 2 ]}.

Lemma counter_supported : uses_only blast_supported counter.
Proof.
  intros l op Hl. cbn in Hl. repeat (apply elem_of_cons in Hl as [->|Hl]; [cbn; first [done|by intros [= <-]]|]).
  by apply not_elem_of_nil in Hl.
Qed.

Lemma counter_comparable vals :
  step_values counter counter_symbols counter_assignment counter_assignment = Some vals →
  Comparable counter counter_symbols counter_assignment vals.
Proof.
  intros Hv. split; [| | | | |done|].
  - apply counter_named; intros s v; unfold counter_assignment; rewrite lookup_insert_Some, lookup_singleton_Some;
      by intros [[<- <-]|[_ [<- <-]]].
  - intros l Hl (s & r & Hn). revert Hn. cbn in Hl.
    repeat (apply elem_of_cons in Hl as [->|Hl]; [intros [Hn|Hn]; first [discriminate Hn|by eexists]|]).
    by apply not_elem_of_nil in Hl.
  - apply (bool_decide_unpack _). by vm_compute.
  - exact counter_supported.
  - assert (Hm : state_metas counter counter_symbols ++ input_metas counter counter_symbols =
      [{| sm_nid := 4; sm_width := 2; sm_symbol := "count" |}; {| sm_nid := 3; sm_width := 1; sm_symbol := "enable" |}])
      by (vm_compute; done).
    rewrite Hm. intros sm [->|[->|[]%not_elem_of_nil]%elem_of_cons]%elem_of_cons; vm_compute; done.
  - intros state value w n Hin Ho. assert (Hvals : (λ vals, operand_value vals 6) <$>
      step_values counter counter_symbols counter_assignment counter_assignment = Some (Some (2, 3))) by (vm_compute; done).
    rewrite Hv in Hvals. injection Hvals as Hvals. apply elem_of_cons in Hin as [[= -> ->]|[]%not_elem_of_nil].
    rewrite Hvals in Ho. injection Ho as <- <-. done.
Qed.

Lemma eval_step_agrees_witness :
  match build_passes (M := N) (F := Exp.Exp) counter counter_symbols None Interleaved ∅ ∅ None None None with
  | Some (Ok b) =>
    match eval_step b counter_assignment (manager b) with
    | Some (Ok out, _) => out = {[ "count" := 3 ]} ∧
      ∃ out', simulate_one_step counter counter_symbols counter_assignment counter_assignment = Some (Ok out') ∧
      ∀ sm, sm ∈ state_metas counter counter_symbols → sm_nid sm ∈ (next_lines counter).*1 →
        is_Some (out !! sm_symbol sm) ∧ out !! sm_symbol sm = out' !! sm_symbol sm
    | _ => False
    end
  | _ => False
  end.
Proof.
  destruct (step_values counter counter_symbols counter_assignment counter_assignment) as [vals|] eqn:Hv;
    [|vm_compute in Hv; discriminate Hv].
  destruct (build_passes (M := N) (F := Exp.Exp) counter counter_symbols None Interleaved ∅ ∅ None None None) as [[b|e]|] eqn:Hb;
    [|vm_compute in Hb; discriminate Hb..].
  pose proof (eval_step_agrees (den := Exp.den) counter counter_symbols Interleaved ∅ ∅ None None None b counter_assignment vals Hb
    (counter_comparable vals Hv)) as H.
  assert (Hout : (λ r, match r with Ok b => (λ o, match o.1 with Ok out => Some out | Err _ => None end) <$> eval_step b counter_assignment (manager b)
    | Err _ => None end) <$>
    build_passes (M := N) (F := Exp.Exp) counter counter_symbols None Interleaved ∅ ∅ None None None = Some (Some (Some {[ "count" := 3 ]})))
    by (vm_compute; reflexivity).
  rewrite Hb in Hout. cbn [fmap option_fmap option_map] in Hout.
  destruct (eval_step b counter_assignment (manager b)) as [[[out|e] m]|]; cbn [fst] in Hout; [|discriminate Hout..].
  injection Hout as Hout. split; [exact Hout|exact H].
Defined.

(** ** The variables, the build and the operators *)

(** C28: Every bit has a variable of its own.  Under each of the three orders the
    positions have the shape of the kept cells, and two bits of the cells never
    share a position, whatever the original indices and the ranks are. *)
Theorem variable_orders_correct (order : VarOrder) (bit_index : gmap Z (list N)) (rank : gmap Z N) (kept : list (Z * nat)) :
  map length (slots_of order bit_index rank kept) = kept.*2 ∧ slots_injective (slots_of order bit_index rank kept).
Proof. split; [apply slots_shape|apply slots_of_injective]. Qed.

(** C22: A build is correct at every assignment of its variables.  The positions
    of the bits are those the variable order gives to the kept leaves, with the
    widths of the leaves and no position shared; the cells of the build are the
    kept leaves, over the variables at these positions.  An assignment gives every
    kept leaf the number its variables spell and every pinned leaf zero; wherever
    the design has values at these leaves, the functions of every node evaluate to
    its value, every kept state with a next line has a next-state function, these
    evaluate to the next values, and the constraint to the conjunction of the
    constraint lines. *)
Theorem build_passes_correct {M F : Type} `{!BddLib M F} {den : F → (N → bool) → bool} `{!BddMeaning den} `{!RadixParser}
    (f : Btor2File) (symbols : gmap Z string) (keep : option (gset Z)) (order : VarOrder) (bit_index : gmap Z (list N))
    (rank : gmap Z N) (cap_override env_cap arena : option N) (b : BddBitBlaster M F) (leaves : list LeafCell)
    (Hbuild : build_passes f symbols keep order bit_index rank cap_override env_cap arena = Some (Ok b))
    (Hleaves : leaf_cells f symbols = Ok leaves) (Hnids : NoDup (leaf_nid <$> leaves))
    (Hwidths : Forall (λ c, leaf_width c < 2 ^ 32) leaves) (Hops : uses_only blast_supported f) :
  let slots := kept_slots order bit_index rank keep leaves in
  map length slots = map (λ c, N.to_nat (leaf_width c)) (kept_leaves keep leaves) ∧ slots_injective slots ∧
  map cell_symbol (cells b) = map leaf_name (kept_leaves keep leaves) ∧
  ∃ base, map cell_varnos (cells b) = map (map (λ i, base + N.of_nat i)) slots ∧
    ∀ ρ vals, design_values f (leaves_at ρ base keep slots leaves) = Some vals →
      Blasted (den := den) f keep (nid_symbol leaves) b ρ vals ∧
      ∀ l value sym, l ∈ lines f → next_line keep (nid_symbol leaves) l value sym → is_Some (next_funcs b !! sym).
Proof.
  intros slots.
  destruct (build_passes_built (den := den) f symbols keep order bit_index rank _ _ _ b leaves Hbuild Hleaves Hnids Hwidths Hops)
    as (base & all_vars & Hb). fold slots in Hb.
  assert (Hshape : map length slots = map (λ c, N.to_nat (leaf_width c)) (kept_leaves keep leaves)).
  { unfold slots, kept_slots. rewrite slots_shape. unfold kept_leaves.
    change (map (λ c, (leaf_nid c, N.to_nat (leaf_width c)))) with
      (fmap (M := list) (λ c, (leaf_nid c, N.to_nat (leaf_width c)))). by rewrite <-list_fmap_compose. }
  destruct (bound_cells _ _ _ _ _ _ (bo_bound _ _ _ _ _ _ _ Hb)) as [Hsym Hvarnos].
  { apply (f_equal length) in Hshape. by rewrite !length_map in Hshape. }
  split_and!; [done|apply slots_of_injective|done|]. exists base. split; [done|]. intros ρ vals Hv. split.
  - by apply (bo_at _ _ _ _ _ _ _ Hb).
  - apply (bo_all _ _ _ _ _ _ _ Hb). eauto.
Qed.

Definition counter_leaves : list LeafCell :=
  [{| leaf_nid := 3; leaf_name := "enable"; leaf_named := true; leaf_is_state := false; leaf_width := 1 |};
   {| leaf_nid := 4; leaf_name := "count"; leaf_named := true; leaf_is_state := true; leaf_width := 2 |}].

Lemma counter_total base (ρ : N → bool) :
  is_Some (design_values counter (leaves_at ρ base (Some {[ 4%Z ]})
    (kept_slots CellMajor ∅ ∅ (Some {[ 4%Z ]}) counter_leaves) counter_leaves)).
Proof.
  replace (leaves_at ρ base (Some {[ 4%Z ]}) (kept_slots CellMajor ∅ ∅ (Some {[ 4%Z ]}) counter_leaves) counter_leaves)
    with ({[ 3%Z := (1, 0); 4%Z := (2, bits_value [ρ (base + 0); ρ (base + 1)]) ]} : Values) by reflexivity.
  destruct (ρ (base + 0)), (ρ (base + 1)); eexists; vm_compute; reflexivity.
Qed.

(** The input is pinned; the design has values at every assignment. *)
Lemma build_passes_correct_witness :
  match build_passes (M := N) (F := Exp.Exp) counter counter_symbols (Some {[ 4%Z ]}) CellMajor ∅ ∅ None None None with
  | Some (Ok b) => map cell_symbol (cells b) = ["count"%string] ∧
    ∃ base, map cell_varnos (cells b) = [[base + 0; base + 1]] ∧ ∀ ρ, ∃ vals,
      design_values counter (leaves_at ρ base (Some {[ 4%Z ]}) [[0; 1]%nat] counter_leaves) = Some vals ∧
      Blasted (den := Exp.den) counter (Some {[ 4%Z ]}) (nid_symbol counter_leaves) b ρ vals
  | _ => False
  end.
Proof.
  destruct (build_passes (M := N) (F := Exp.Exp) counter counter_symbols (Some {[ 4%Z ]}) CellMajor ∅ ∅ None None None)
    as [[b|e]|] eqn:Hb; [|vm_compute in Hb; discriminate Hb..].
  destruct (build_passes_correct (den := Exp.den) counter counter_symbols (Some {[ 4%Z ]}) CellMajor ∅ ∅ None None None b
    counter_leaves Hb) as (_ & _ & Hsym & base & Hvars & Hat);
    [vm_compute; reflexivity|apply (bool_decide_unpack _); by vm_compute|by repeat constructor|exact counter_supported|].
  split; [exact Hsym|]. exists base. split; [exact Hvars|]. intros ρ.
  destruct (counter_total base ρ) as [vals Hv]. exists vals. split; [exact Hv|]. by apply Hat.
Defined.

(** C23: The two backends compute the same operators.  On operands that the node
    stores of both hold and that respect the sort rules, the concrete evaluation
    of every operator with an arm returns a bit vector of the result width, and
    the bit-blaster's functions evaluate, at the assignment, to its bits: the
    adder, the multiplier, the comparisons and the barrel shifter included. *)
Theorem backends_agree {M F : Type} `{!BddLib M F} {den : F → (N → bool) → bool} `{!BddMeaning den} `{!RadixParser}
    (lim : Limits) (ρ : N → bool) (vals : Values) (e : Env) (env : gmap Z (list F))
    (op : Op) (imms : list N) (args : list Z) (operands : list (N * N)) (w : N)
    (Hfits : fits vals) (He : stores vals e)
    (Henv : ∀ n w v, vals !! n = Some (w, v) → ∃ x, env !! n = Some x ∧ is_bits (den := den) ρ w v x)
    (Hargs : mapM (operand_value vals) args = Some operands) (Hsorted : op_sorted op imms operands.*1 w = true)
    (Hw : w < 2 ^ 32) (Hop : blast_supported op = true) :
  ∃ r, eval_op_concrete op imms args w e = Some (Ok r) ∧ Bv.width r = w ∧
    gives lim (blast_op lim env op imms args w) (λ x, map (λ f, den f ρ) x = bits w (Bv.to_biguint r)).
Proof.
  exists (mk w (op_value op imms operands w)). split_and!.
  - apply (eval_op_concrete_correct vals); try done. by apply blast_rotation.
  - apply width_mk.
  - rewrite biguint_mk. by apply (gives_blast_op lim ρ vals env Hfits Henv).
Qed.

Lemma backends_agree_witness :
  let vals : Values := {[ 2%Z := (2, 3); 3%Z := (2, 2) ]} in
  let lim := {| node_budget := 0; declared_vars := 0 |} in
  let ρ := λ i : N, (i =? 0) || (i =? 1) || (i =? 3) in
  let env := {[ 2%Z := [Exp.EVar 0; Exp.EVar 1]; 3%Z := [Exp.EVar 2; Exp.EVar 3] ]} in
  blast_op lim env Mul [] [2; -3]%Z 2 0 ≠ None ∧
  ∃ r, eval_op_concrete Mul [] [2; -3]%Z 2 ((λ v, mk v.1 v.2) <$> vals) = Some (Ok r) ∧ Bv.width r = 2 ∧
    gives lim (blast_op lim env Mul [] [2; -3]%Z 2) (λ x, map (λ f, Exp.den f ρ) x = bits 2 (Bv.to_biguint r)).
Proof.
  intros vals lim ρ env. split; [by vm_compute|].
  apply (backends_agree lim ρ vals ((λ v, mk v.1 v.2) <$> vals) env Mul [] [2; -3]%Z [(2, 3); (2, 1)] 2); try reflexivity.
  - intros n w v. unfold vals. rewrite lookup_insert_Some, lookup_singleton_Some. by intros [[<- [= <- <-]]|[_ [<- [= <- <-]]]].
  - intros n w v H. rewrite lookup_fmap. by rewrite H.
  - intros n w v. unfold vals. rewrite lookup_insert_Some, lookup_singleton_Some.
    intros [[<- [= <- <-]]|[_ [<- [= <- <-]]]]; (eexists; split; [reflexivity|]); vm_compute; reflexivity.
Defined.
