(* ===== verification/Game3v.v ===== *)
(** The three-valued model-checking game: the data and the construction of
    [mu_calculus/parity_game_3v_build.rs].

    A game has one position for every state and every node of the arena, state
    by state, whether the node is reachable from the root or not.  [None] is an
    index panic of [fixpoint_nesting_order].  A [HashMap] is a [gmap].  A
    priority is a [u32]; it stays below twice the number of fixpoints plus one,
    so it is a [nat] here.

    [build_game_positions] and [game_moves] say which position is where and what
    its moves are; the solver of Solve3v.v runs on any game. *)
From S2P Require Import Prelude Formula Clts Transforms.

(** ** Data *)

Inductive EdgeModality := E_Sharp | E_MayOnly | E_MustHyperOnly.
Inductive Player := Existential | Universal.

#[export] Instance EdgeModality_eq_dec : EqDecision EdgeModality.
Proof. solve_decision. Defined.
#[export] Instance Player_eq_dec : EqDecision Player.
Proof. solve_decision. Defined.

Definition from_clts (m : TransitionModality) : EdgeModality :=
  match m with
  | Sharp => E_Sharp
  | MayOnly => E_MayOnly
  | MustHyperOnly _ => E_MustHyperOnly
  end.

Abbreviation PositionId := nat (only parsing).

Record Position := {
  pos_state : nat;
  pos_node : NodeId;
  pos_owner : Player;
  pos_priority : nat
}.

Record Game3v := {
  positions : list Position;
  successors : list (list PositionId);
  edge_modalities : list (list EdgeModality);
  index : gmap (nat * NodeId) PositionId
}.

Definition position_count (g : Game3v) : nat := length (positions g).
Definition edge_count (g : Game3v) : nat := sum_list (map length (successors g)).
Definition position_id (g : Game3v) (state : nat) (id : NodeId) : option PositionId :=
  index g !! (state, id).

(** ** Owners and priorities *)

Definition position_owner (n : Node) : Player :=
  match n with
  | NOr _ _ | NMu _ _ => Existential
  | NAnd _ _ | NNu _ _ => Universal
  | NModal kind _ _ => match kind with Diamond => Existential | Box => Universal end
  | NTrue | NFalse | NPredicate _ | NVariable _ | NNot _ => Universal
  end.

Definition position_priority (n : Node) (priorities : gmap FormulaVarId nat) : nat :=
  match n with
  | NMu var _ | NNu var _ => default 0 (priorities !! var)
  | _ => 0
  end.

Definition variable_priority (idx : nat) (is_mu : bool) : nat :=
  let base := 2 * idx in if is_mu then base + 1 else base + 2.

Definition compute_priorities (f : Formula) : option (gmap FormulaVarId nat) :=
  let* nesting := fixpoint_nesting_order f in
  Some (foldl (λ m lv, <[lv.2.1 := variable_priority lv.1 lv.2.2]> m) ∅
          (zip (seq 0 (length nesting)) nesting)).

(** The node is the fixpoint itself; a later one replaces an earlier one. *)
Definition collect_var_bindings (f : Formula) : gmap FormulaVarId NodeId :=
  foldl (λ m '(idx, n), match n with NMu var _ | NNu var _ => <[var := idx]> m | _ => m end) ∅
    (zip (seq 0 (length (nodes f))) (nodes f)).

(** ** Moves *)

Definition Moves : Type := list PositionId * list EdgeModality.

(** One transition of a modal position: a target already listed keeps its edge,
    which becomes sharp when the new one is. *)
Definition push_edge (idx : gmap (nat * NodeId) PositionId) (tgt : NodeId) (acc : Moves)
    (t : Transition) : Moves :=
  let '(out, mods) := acc in
  match idx !! (target t, tgt) with
  | None => acc
  | Some pid =>
    let edge_mod := from_clts (modality t) in
    match list_find (λ p, p = pid) out with
    | Some (existing_idx, _) =>
      if negb (bool_decide (mods !! existing_idx = Some E_Sharp)) && bool_decide (edge_mod = E_Sharp)
      then (out, <[existing_idx := E_Sharp]> mods)
      else acc
    | None => (out ++ [pid], mods ++ [edge_mod])
    end
  end.

(** The move to the position of [id] at the same state. *)
Definition push_sharp (idx : gmap (nat * NodeId) PositionId) (state : nat) (acc : Moves) (id : NodeId)
    : Moves :=
  match idx !! (state, id) with
  | Some pid => (acc.1 ++ [pid], acc.2 ++ [E_Sharp])
  | None => acc
  end.

Definition compute_successors (n : Node) (state : nat) (c : Clts)
    (idx : gmap (nat * NodeId) PositionId) (var_binding : gmap FormulaVarId NodeId) : Moves :=
  match n with
  | NTrue | NFalse | NPredicate _ => ([], [])
  | NVariable var =>
    match var_binding !! var with
    | None => ([], [])
    | Some binding_node => push_sharp idx state ([], []) binding_node
    end
  | NNot inner => push_sharp idx state ([], []) inner
  | NAnd l r | NOr l r => push_sharp idx state (push_sharp idx state ([], []) l) r
  | NModal _ _ tgt => foldl (push_edge idx tgt) ([], []) (outgoing c state)
  | NMu _ body | NNu _ body => push_sharp idx state ([], []) body
  end.

(** ** [build_game] *)

Definition state_positions (f : Formula) (priorities : gmap FormulaVarId nat) (state : nat) : list Position :=
  imap (λ node_idx n, {| pos_state := state; pos_node := node_idx; pos_owner := position_owner n;
                         pos_priority := position_priority n priorities |}) (nodes f).

Definition build_game (f : Formula) (c : Clts) : option Game3v :=
  let* priorities := compute_priorities f in
  let var_binding := collect_var_bindings f in
  let positions := concat (map (state_positions f priorities) (seq 0 (state_count c))) in
  let idx := list_to_map (imap (λ pid pos, ((pos_state pos, pos_node pos), pid)) positions) in
  let moves := map (λ pos, match node f (pos_node pos) with
                           | Some n => compute_successors n (pos_state pos) c idx var_binding
                           | None => ([], [])
                           end) positions in
  Some {| positions := positions; successors := map fst moves; edge_modalities := map snd moves;
          index := idx |}.

(** ** Reading a game *)

(** The solver reads the vectors of a game at positions of the game. *)
Definition owner (g : Game3v) (i : PositionId) : Player := default Universal (pos_owner <$> positions g !! i).
Definition priority (g : Game3v) (i : PositionId) : nat := default 0 (pos_priority <$> positions g !! i).
Definition succs (g : Game3v) (i : PositionId) : list PositionId := default [] (successors g !! i).
Definition mods (g : Game3v) (i : PositionId) : list EdgeModality := default [] (edge_modalities g !! i).

(** Every position has a row of moves to positions, with a modality each. *)
Record game_ok (g : Game3v) : Prop := {
  go_rows : length (successors g) = position_count g;
  go_mods : length (edge_modalities g) = position_count g;
  go_range : ∀ i j, j ∈ succs g i → j < position_count g;
  go_parallel : ∀ i, length (mods g i) = length (succs g i)
}.

(** ** The built game *)

Lemma concat_rows {A} (row : nat → list A) L m s k : (∀ s, length (row s) = L) → s < m → k < L →
  concat (map row (seq 0 m)) !! (s * L + k) = row s !! k.
Proof.
  intros HL Hs Hk. enough (H : ∀ a, concat (map row (seq a m)) !! (s * L + k) = row (a + s) !! k) by apply H.
  revert s Hs. induction m as [|m IH]; intros s Hs a; [lia|]. cbn [seq map concat].
  destruct s as [|s]; [rewrite lookup_app_l by (rewrite HL; lia); by rewrite Nat.add_0_r|].
  rewrite lookup_app_r by (rewrite HL; lia). rewrite HL. replace (S s * L + k - L) with (s * L + k) by lia.
  rewrite IH by lia. by replace (S a + s) with (a + S s) by lia.
Qed.

Lemma length_concat_rows {A} (row : nat → list A) L l :
  (∀ s, length (row s) = L) → length (concat (map row l)) = length l * L.
Proof.
  intros HL. induction l as [|s l IH]; [done|]. cbn [map concat length]. rewrite length_app, HL, IH. lia.
Qed.

(** The position of a state and a node. *)
Definition pos (f : Formula) (s : nat) (id : NodeId) : PositionId := s * length (nodes f) + id.

Lemma pos_inj f s s' id id' : id < length (nodes f) → id' < length (nodes f) → pos f s id = pos f s' id' → s = s' ∧ id = id'.
Proof.
  unfold pos. intros ?? H. destruct (Nat.lt_trichotomy s s') as [?|[->|?]]; [nia| |nia].
  split; [done|lia].
Qed.

Section built.
Context (f : Formula) (c : Clts) (vp : gmap FormulaVarId nat) (g : Game3v).
Context (Hvp : compute_priorities f = Some vp) (Hg : build_game f c = Some g).
Let m := state_count c.
Let L := length (nodes f).

Abbreviation pos := (pos f).

Lemma length_state_positions s : length (state_positions f vp s) = L.
Proof using Type. apply length_imap. Qed.

Definition position_moves (p : Position) : Moves :=
  match node f (pos_node p) with
  | Some n => compute_successors n (pos_state p) c (index g) (collect_var_bindings f)
  | None => ([], [])
  end.

Lemma built_parts :
  positions g = concat (map (state_positions f vp) (seq 0 m)) ∧
  index g = list_to_map (imap (λ pid p, ((pos_state p, pos_node p), pid)) (positions g)) ∧
  successors g = map fst (map position_moves (positions g)) ∧
  edge_modalities g = map snd (map position_moves (positions g)).
Proof using Hg Hvp. unfold build_game in Hg. rewrite Hvp in Hg. unfold position_moves. by injection Hg as <-. Qed.

Lemma built_positions : positions g = concat (map (state_positions f vp) (seq 0 m)).
Proof using Hg Hvp. apply built_parts. Qed.

Lemma built_size : position_count g = m * L.
Proof using Hg Hvp.
  unfold position_count. rewrite built_positions, (length_concat_rows _ L) by apply length_state_positions.
  by rewrite length_seq.
Qed.

Lemma pos_lt s id : s < m → id < L → pos s id < position_count g.
Proof using Hg Hvp. rewrite built_size. unfold pos. fold L. nia. Qed.

Lemma pos_cases i : i < position_count g → ∃ s id, i = pos s id ∧ s < m ∧ id < L.
Proof using Hg Hvp.
  rewrite built_size. intros Hi. assert (L ≠ 0) by nia. exists (i / L), (i mod L). unfold pos. fold L.
  pose proof (Nat.div_mod i L ltac:(done)). split_and!; [lia| |by apply Nat.mod_upper_bound].
  apply Nat.Div0.div_lt_upper_bound; lia.
Qed.

Lemma built_position s id n : s < m → nodes f !! id = Some n →
  positions g !! pos s id = Some {| pos_state := s; pos_node := id; pos_owner := position_owner n;
                                    pos_priority := position_priority n vp |}.
Proof using Hg Hvp.
  intros Hs Hn. pose proof (lookup_lt_Some _ _ _ Hn) as Hid. rewrite built_positions. unfold pos.
  rewrite (concat_rows _ L) by (apply length_state_positions || done).
  unfold state_positions. by rewrite list_lookup_imap, Hn.
Qed.

Lemma position_at i p : positions g !! i = Some p → i = pos (pos_state p) (pos_node p) ∧ pos_state p < m ∧
  ∃ n, nodes f !! pos_node p = Some n ∧ pos_owner p = position_owner n ∧ pos_priority p = position_priority n vp.
Proof using Hg Hvp.
  intros Hp. destruct (pos_cases i) as (s & id & -> & Hs & Hid); [by eapply lookup_lt_Some|].
  destruct (lookup_lt_is_Some_2 (nodes f) id Hid) as [n Hn].
  rewrite (built_position s id n) in Hp by done. injection Hp as <-. simpl. split_and!; [done..|]. by exists n.
Qed.

Lemma built_index s id i : index g !! (s, id) = Some i ↔ s < m ∧ id < L ∧ i = pos s id.
Proof using Hg Hvp.
  destruct built_parts as (_ & Hix & _).
  assert (Hlook : ∀ j p, positions g !! j = Some p →
    imap (λ pid p, ((pos_state p, pos_node p), pid)) (positions g) !! j = Some ((pos_state p, pos_node p), j))
    by (intros j p Hp; by rewrite list_lookup_imap, Hp).
  rewrite Hix, <-elem_of_list_to_map.
  - rewrite list_elem_of_lookup. split.
    + intros [j Hj]. rewrite list_lookup_imap in Hj. destruct (positions g !! j) as [p|] eqn:Hp; [|done].
      simpl in Hj. simplify_eq. destruct (position_at _ _ Hp) as (-> & ? & n & ? & _).
      split_and!; [done|by eapply lookup_lt_Some|done].
    + intros (Hs & Hid & ->). exists (pos s id). destruct (lookup_lt_is_Some_2 (nodes f) id Hid) as [n Hn].
      by rewrite (Hlook _ _ (built_position s id n Hs Hn)).
  - apply NoDup_alt. intros j j' k. rewrite !list_lookup_fmap, !list_lookup_imap.
    destruct (positions g !! j) as [p|] eqn:Hp; [|done]. destruct (positions g !! j') as [p'|] eqn:Hp'; [|done].
    simpl. intros [= <-] [= E1 E2]. destruct (position_at _ _ Hp) as (-> & _), (position_at _ _ Hp') as (-> & _).
    by rewrite E1, E2.
Qed.

Definition moves_at (s : nat) (n : Node) : Moves := compute_successors n s c (index g) (collect_var_bindings f).

Lemma built_moves s id n : s < m → nodes f !! id = Some n →
  succs g (pos s id) = fst (moves_at s n) ∧ mods g (pos s id) = snd (moves_at s n).
Proof using Hg Hvp.
  intros Hs Hn. pose proof (built_position s id n Hs Hn) as Hp. destruct built_parts as (_ & _ & Hs' & Hm').
  unfold succs, mods, moves_at.
  rewrite Hs', Hm', !list_lookup_fmap, Hp. unfold position_moves, node. simpl. by rewrite Hn.
Qed.

(** ** Moves of a built game *)

Context (Hwf : wf_arena (nodes f)) (Hc : clts_ok c).

(** The nodes a position moves to without changing its state. *)
Definition local_targets (n : Node) : list NodeId :=
  match n with
  | NVariable v => option_list (collect_var_bindings f !! v)
  | NModal _ _ _ => []
  | _ => children n
  end.

Lemma binding_spec v id : collect_var_bindings f !! v = Some id →
  ∃ b, nodes f !! id = Some (NMu v b) ∨ nodes f !! id = Some (NNu v b).
Proof using Type.
  unfold collect_var_bindings.
  assert (H : ∀ l (m0 : gmap nat nat),
    (∀ v id, m0 !! v = Some id → ∃ b, nodes f !! id = Some (NMu v b) ∨ nodes f !! id = Some (NNu v b)) →
    (∀ id n, (id, n) ∈ l → nodes f !! id = Some n) →
    ∀ v id, foldl (λ m '(idx, n), match n with NMu var _ | NNu var _ => <[var := idx]> m | _ => m end) m0 l !! v
      = Some id → ∃ b, nodes f !! id = Some (NMu v b) ∨ nodes f !! id = Some (NNu v b)).
  { induction l as [|[i n] l IH]; intros m0 H0 Hl; [done|]. cbn [foldl]. apply IH; [|intros; apply Hl; by right].
    assert (Hi : nodes f !! i = Some n) by (apply Hl; by left).
    intros w id'. destruct n; try apply H0; rewrite lookup_insert_Some; intros [[<- <-]|[_ ?]]; eauto. }
  apply H; [done|]. intros i n Hin%elem_of_lookup_zip_with. destruct Hin as (k & ? & ? & [= <- <-] & Hk & Hn).
  apply lookup_seq in Hk as [-> _]. done.
Qed.

Lemma local_target_lt id n a : nodes f !! id = Some n → a ∈ local_targets n → a < L.
Proof using Hwf c.
  intros Hn Ha. pose proof (lookup_lt_Some _ _ _ Hn) as Hid.
  assert (Hch : a ∈ children n → a < L).
  { intros Hin. pose proof (Hwf id n Hn) as Hf. rewrite Forall_forall in Hf. specialize (Hf a Hin). fold L in Hid. lia. }
  destruct n; simpl in Ha; try (by apply Hch).
  - destruct (collect_var_bindings f !! var) as [b|] eqn:E; simpl in Ha; [|by apply not_elem_of_nil in Ha].
    apply list_elem_of_singleton in Ha as ->. apply binding_spec in E as (b' & [H|H]); by apply lookup_lt_Some in H.
  - by apply not_elem_of_nil in Ha.
Qed.

Lemma push_sharp_spec s acc a : s < m → a < L →
  push_sharp (index g) s acc a = (acc.1 ++ [pos s a], acc.2 ++ [E_Sharp]).
Proof using Hg Hvp. intros Hs Ha. unfold push_sharp. by rewrite (proj2 (built_index s a (pos s a))). Qed.

Lemma local_row s id n : s < m → nodes f !! id = Some n → (∀ k gd t, n ≠ NModal k gd t) →
  moves_at s n = (map (pos s) (local_targets n), map (λ _, E_Sharp) (local_targets n)).
Proof using All.
  intros Hs Hn Hnm. unfold moves_at. pose proof (local_target_lt id n) as Hlt.
  destruct n; simpl in *; try done; try by destruct (Hnm kind guard target).
  all: try destruct (collect_var_bindings f !! var) as [b|]; try done; simpl in Hlt.
  all: by rewrite !push_sharp_spec by (done || (apply Hlt; [done|set_solver])).
Qed.

(** The moves listed for the transitions [ts]: one for every target position,
    with the modality of one of the transitions to it, sharp when one is. *)
Record lists_moves (tgt : NodeId) (ts : list Transition) (mv : Moves) : Prop := {
  lm_parallel : length mv.1 = length mv.2;
  lm_nodup : NoDup mv.1;
  lm_target : ∀ j, j ∈ mv.1 ↔ ∃ t, t ∈ ts ∧ j = pos (target t) tgt;
  lm_modality : ∀ k j e, mv.1 !! k = Some j → mv.2 !! k = Some e →
    ∃ t, t ∈ ts ∧ j = pos (target t) tgt ∧ from_clts (modality t) = e;
  lm_sharp : ∀ k j t, mv.1 !! k = Some j → t ∈ ts → j = pos (target t) tgt → modality t = Sharp →
    mv.2 !! k = Some E_Sharp
}.

Lemma push_edge_lists tgt ts mv t : tgt < L → target t < m → lists_moves tgt ts mv →
  lists_moves tgt (ts ++ [t]) (push_edge (index g) tgt mv t).
Proof using All.
  intros Hid Ht [Hp Hnd Htg Hmod Hsh]. destruct mv as [out ms]. simpl in *.
  rewrite (proj2 (built_index (target t) tgt (pos (target t) tgt))) by done.
  set (j0 := pos (target t) tgt).
  assert (Hts : ∀ (Q : Transition → Prop), (∃ u, u ∈ ts ++ [t] ∧ Q u) ↔ (∃ u, u ∈ ts ∧ Q u) ∨ Q t).
  { intros Q. setoid_rewrite elem_of_app. setoid_rewrite list_elem_of_singleton. naive_solver. }
  destruct (list_find (λ p, p = j0) out) as [[k p]|] eqn:Hf.
  - apply list_find_Some in Hf as (Hk & -> & _).
    assert (Hold : ∀ j, j ∈ out ↔ ∃ u, u ∈ ts ++ [t] ∧ j = pos (target u) tgt).
    { intros j. rewrite (Hts (λ u, j = pos (target u) tgt)), <-Htg. split; [by left|].
      intros [?| ->]; [done|]. by eapply list_elem_of_lookup_2. }
    destruct (negb _ && _) eqn:E; simpl.
    + apply andb_true_iff in E as [_ E%bool_decide_eq_true].
      assert (Hkl : k < length ms) by (rewrite <-Hp; by eapply lookup_lt_Some).
      split; simpl; [by rewrite length_insert|done|done| |].
      * intros i j e Hi He. destruct (decide (i = k)) as [->|].
        -- rewrite list_lookup_insert_eq in He by done. simplify_eq. exists t. split_and!; [set_solver|done|done].
        -- rewrite list_lookup_insert_ne in He by done. destruct (Hmod i j e Hi He) as (u & ? & ? & ?).
           exists u. split; [set_solver|done].
      * intros i j u Hi Hu Hj Hu'. destruct (decide (i = k)) as [->|]; [by rewrite list_lookup_insert_eq|].
        rewrite list_lookup_insert_ne by done. apply elem_of_app in Hu as [Hu|Hu%list_elem_of_singleton].
        -- by apply (Hsh i j u).
        -- subst u. destruct (NoDup_lookup out i k j0); [done|by subst j|done|done].
    + split; simpl; [done..| |].
      * intros i j e Hi He. destruct (Hmod i j e Hi He) as (u & ? & ? & ?). exists u. split; [set_solver|done].
      * intros i j u Hi Hu Hj Hu'. apply elem_of_app in Hu as [Hu|Hu%list_elem_of_singleton]; [by apply (Hsh i j u)|].
        subst u. assert (i = k) as -> by (apply (NoDup_lookup out i k j0); [done|by subst j|done]).
        rewrite Hu' in E. simpl in E. rewrite andb_true_r in E. by apply negb_false_iff, bool_decide_eq_true in E.
  - assert (Hn : j0 ∉ out).
    { rewrite list_find_None, Forall_forall in Hf. intros Hin. by apply (Hf j0 Hin). }
    split; simpl.
    + rewrite !length_app. simpl. lia.
    + apply NoDup_app. split_and!; [done| |apply NoDup_singleton]. intros j Hj ->%list_elem_of_singleton. done.
    + intros j. rewrite elem_of_app, list_elem_of_singleton, (Hts (λ u, j = pos (target u) tgt)), <-Htg. done.
    + intros i j e Hi He. apply lookup_app_Some in Hi as [Hi|[Hi1 Hi2]].
      * rewrite lookup_app_l in He by (rewrite <-Hp; by eapply lookup_lt_Some).
        destruct (Hmod i j e Hi He) as (u & ? & ? & ?). exists u. split; [set_solver|done].
      * apply list_lookup_singleton_Some in Hi2 as [Hi2 <-]. rewrite lookup_app_r, <-Hp, Hi2 in He by lia.
        simpl in He. simplify_eq. exists t. split; [set_solver|done].
    + intros i j u Hi Hu Hj Hu'. apply lookup_app_Some in Hi as [Hi|[Hi1 Hi2]].
      * apply elem_of_app in Hu as [Hu|Hu%list_elem_of_singleton].
        -- rewrite lookup_app_l by (rewrite <-Hp; by eapply lookup_lt_Some). by apply (Hsh i j u).
        -- subst u. destruct Hn. subst j. by eapply list_elem_of_lookup_2.
      * apply list_lookup_singleton_Some in Hi2 as [Hi2 <-]. rewrite lookup_app_r, <-Hp, Hi2 by lia. simpl.
        apply elem_of_app in Hu as [Hu|Hu%list_elem_of_singleton]; [|by rewrite <-Hu, Hu'].
        destruct Hn. apply Htg. by exists u.
Qed.

Lemma modal_moves s tgt : tgt < L → lists_moves tgt (outgoing c s) (foldl (push_edge (index g) tgt) ([], []) (outgoing c s)).
Proof using All.
  intros Hid. assert (H : ∀ l ts mv, (∀ t, t ∈ l → target t < m) → lists_moves tgt ts mv →
    lists_moves tgt (ts ++ l) (foldl (push_edge (index g) tgt) mv l)).
  { induction l as [|t l IH]; intros ts mv Hl Hmv; cbn [foldl]; [by rewrite app_nil_r|].
    rewrite cons_middle, app_assoc. apply IH; [intros; apply Hl; by right|].
    apply push_edge_lists; [done|apply Hl; by left|done]. }
  apply (H _ []); [intros t; by apply (ok_target c Hc)|]. split; simpl; [done|constructor| |done..].
  intros j. split; [by intros ?%not_elem_of_nil|]. intros (t & Ht & _). by apply not_elem_of_nil in Ht.
Qed.
End built.
