(* ===== verification/Solve3v.v ===== *)
(** The solvers of the three-valued game: [mu_calculus/parity_game_3v_solve.rs],
    [parity_game_3v_solve3v.rs], [parity_game_3v_subgame.rs] and the evaluator
    [parity_game_3v.rs].

    The map of winners is a [gmap]; a [BTreeSet] of positions is a [gset] visited
    upwards ([ascending]).  Loops that run until nothing changes take a number of
    rounds and the recursion takes fuel; [None] is running out of them, which
    the theorems of Solve3vCorrect.v exclude. *)
From S2P Require Import Prelude Formula Trit Clts Modal Evaluator Game3v.

(** ** The two-valued solver *)

Abbreviation Winners := (gmap nat Player).

Definition other_player (p : Player) : Player :=
  match p with Existential => Universal | Universal => Existential end.

Definition wins_at (w : Winners) (p : Player) (s : PositionId) : bool := bool_decide (w !! s = Some p).
Definition resolved (w : Winners) (s : PositionId) : bool := bool_decide (is_Some (w !! s)).

Definition ascending (g : Game3v) (X : gset PositionId) : list PositionId :=
  List.filter (λ i, bool_decide (i ∈ X)) (seq 0 (position_count g)).

(** One candidate of a round of [propagate_from_resolved]. *)
Definition settle (g : Game3v) (st : gset PositionId * Winners * bool) (pid : PositionId)
    : gset PositionId * Winners * bool :=
  let '(active, winners, changed) := st in
  if existsb (wins_at winners (owner g pid)) (succs g pid)
  then (active ∖ {[pid]}, <[pid := owner g pid]> winners, true)
  else if forallb (resolved winners) (succs g pid)
  then (active ∖ {[pid]}, <[pid := other_player (owner g pid)]> winners, true)
  else st.

Fixpoint propagate_from_resolved (rounds : nat) (g : Game3v) (active : gset PositionId) (winners : Winners)
    : option (gset PositionId * Winners) :=
  match rounds with
  | O => None
  | S r =>
    let '(active', winners', changed) := foldl (settle g) (active, winners, false) (ascending g active) in
    if (changed : bool) then propagate_from_resolved r g active' winners' else Some (active', winners')
  end.

(** One candidate of a round of [attractor]. *)
Definition attract (g : Game3v) (player : Player) (winners : Winners) (st : gset PositionId * bool)
    (pid : PositionId) : gset PositionId * bool :=
  let '(result, changed) := st in
  let is_player_winning s := bool_decide (s ∈ result) || wins_at winners player s in
  let in_attractor :=
    if decide (owner g pid = player) then existsb is_player_winning (succs g pid)
    else forallb is_player_winning (succs g pid) in
  if negb (null (succs g pid)) && in_attractor then ({[pid]} ∪ result, true) else st.

Fixpoint attractor_loop (rounds : nat) (g : Game3v) (active result : gset PositionId) (player : Player)
    (winners : Winners) : option (gset PositionId) :=
  match rounds with
  | O => None
  | S r =>
    let '(result', changed) :=
      foldl (attract g player winners) (result, false) (ascending g (active ∖ result)) in
    if (changed : bool) then attractor_loop r g active result' player winners else Some result'
  end.

Definition attractor (g : Game3v) (active tgt : gset PositionId) (player : Player) (winners : Winners)
    : option (gset PositionId) :=
  attractor_loop (S (size active)) g active (tgt ∩ active) player winners.

Definition max_priority (g : Game3v) (active : gset PositionId) : nat :=
  foldl (λ d pid, if d <? priority g pid then priority g pid else d) 0 (ascending g active).

(** Every position of [a] is given to [player]. *)
Definition resolve (g : Game3v) (a : gset PositionId) (player : Player) (winners : Winners) : Winners :=
  foldl (λ w pid, <[pid := player]> w) winners (ascending g a).

Definition roll_back (snapshot : list (PositionId * option Player)) (winners : Winners) : Winners :=
  foldl (λ w '(pid, prev), match prev with Some p => <[pid := p]> w | None => delete pid w end)
    winners snapshot.

Definition unresolve (g : Game3v) (a : gset PositionId) (winners : Winners) : Winners :=
  foldl (λ w pid, delete pid w) winners (ascending g a).

Fixpoint zielonka (fuel : nat) (g : Game3v) (active : gset PositionId) (winners : Winners) : option Winners :=
  match fuel with
  | O => None
  | S k =>
    let* (active, winners) := propagate_from_resolved (S (size active)) g active winners in
    if bool_decide (active = ∅) then Some winners else
    let d := max_priority g active in
    let player := if Nat.even d then Existential else Universal in
    let opponent := other_player player in
    let u := filter (λ pid, priority g pid = d) active in
    let* a := attractor g active u player winners in
    let active_minus_a := active ∖ a in
    if bool_decide (active_minus_a = ∅) then Some (resolve g a player winners) else
    let a_winners_snapshot := map (λ pid, (pid, winners !! pid)) (ascending g a) in
    let* sub := zielonka k g active_minus_a (resolve g a player winners) in
    let w_opp := filter (λ pid, sub !! pid = Some opponent) active_minus_a in
    if bool_decide (w_opp = ∅) then Some sub else
    let winners := unresolve g active_minus_a (roll_back a_winners_snapshot sub) in
    let* b := attractor g active w_opp opponent winners in
    zielonka k g (active ∖ b) (resolve g b opponent winners)
  end.

(** The classified positions that are positions of the game. *)
Definition known_leaves (g : Game3v) (leaf_winners : Winners) : Winners :=
  filter (λ x, x.1 < position_count g) leaf_winners.

Definition solve_2v (g : Game3v) (leaf_winners : Winners) : option Winners :=
  let winners := known_leaves g leaf_winners in
  let active := list_to_set (List.filter (λ i, negb (resolved winners i)) (seq 0 (position_count g))) in
  let* (active, winners) := propagate_from_resolved (S (size active)) g active winners in
  zielonka (S (position_count g)) g active winners.

Definition leaf_winner (f : Formula) (oracle : nat → string → bool) (pos : Position) : option Player :=
  match node f (pos_node pos) with
  | Some NTrue => Some Existential
  | Some NFalse => Some Universal
  | Some (NPredicate name) => Some (if oracle (pos_state pos) name then Existential else Universal)
  | _ => None
  end.

Definition leaf_winners_from_oracle (g : Game3v) (f : Formula) (oracle : nat → string → bool) : Winners :=
  list_to_map (omap (λ '(pid, pos), (pid,.) <$> leaf_winner f oracle pos)
                 (zip (seq 0 (position_count g)) (positions g))).

(** ** The three-valued solver *)

Inductive Trit3v := DefiniteEve | DefiniteAdam | Indefinite.

#[export] Instance Trit3v_eq_dec : EqDecision Trit3v.
Proof. solve_decision. Defined.

Record Solution3v := { verdicts : gmap PositionId Trit3v; indefinite3 : list PositionId }.

(** The moves of one position without those that are [MayOnly]. *)
Definition must_moves (row : list PositionId * list EdgeModality) : list (PositionId * EdgeModality) :=
  List.filter (λ x, negb (bool_decide (x.2 = E_MayOnly))) (zip row.1 row.2).

Definition remove_may_only_edges (g : Game3v) : Game3v :=
  let kept := map (λ i, must_moves (succs g i, mods g i)) (seq 0 (position_count g)) in
  {| positions := positions g; successors := map (map fst) kept; edge_modalities := map (map snd) kept;
     index := index g |}.

Definition combine_3v (over under : option Player) : Trit3v :=
  match over, under with
  | Some Existential, Some Existential => DefiniteEve
  | Some Universal, Some Universal => DefiniteAdam
  | _, _ => Indefinite
  end.

Definition solve_3v (g : Game3v) (leaf_winners : Winners) : option Solution3v :=
  let* over_solution := solve_2v g leaf_winners in
  let* under_solution := solve_2v (remove_may_only_edges g) leaf_winners in
  let verdict pid := combine_3v (over_solution !! pid) (under_solution !! pid) in
  let pids := seq 0 (position_count g) in
  Some {| verdicts := list_to_map (map (λ pid, (pid, verdict pid)) pids);
          indefinite3 := List.filter (λ pid, bool_decide (verdict pid = Indefinite)) pids |}.

(** ** The failure subgame *)

Record FailureSubgamePrecise := {
  fp_positions : list PositionId;
  classifying_edges : list (PositionId * PositionId);
  fp_complete : bool
}.

Definition remove_single_edge (g : Game3v) (src tgt : PositionId) : Game3v :=
  match list_find (λ s, s = tgt) (succs g src) with
  | Some (pos, _) =>
    {| positions := positions g; successors := alter (delete pos) src (successors g);
       edge_modalities := alter (delete pos) src (edge_modalities g); index := index g |}
  | None => g
  end.

Definition may_only_edges (g : Game3v) : list (PositionId * PositionId) :=
  concat (map (λ src, omap (λ x : PositionId * EdgeModality, if decide (x.2 = E_MayOnly) then Some (src, x.1) else None)
                        (zip (succs g src) (mods g src))) (seq 0 (position_count g))).

(** Some position has another winner without the edge. *)
Definition classifies (g : Game3v) (leaf_winners over_baseline : Winners) (e : PositionId * PositionId)
    : option bool :=
  let* perturbed_sol := solve_2v (remove_single_edge g e.1 e.2) leaf_winners in
  Some (existsb (λ pid, negb (bool_decide (over_baseline !! pid = perturbed_sol !! pid)))
          (seq 0 (position_count g))).

Definition push_classifying (g : Game3v) (leaf_winners over_baseline : Winners)
    (acc : list (PositionId * PositionId)) (e : PositionId * PositionId)
    : option (list (PositionId * PositionId)) :=
  let* changed := classifies g leaf_winners over_baseline e in
  Some (if (changed : bool) then acc ++ [e] else acc).

Definition extract_failure_subgame (g : Game3v) (leaf_winners : Winners) (sol : Solution3v)
    : option FailureSubgamePrecise :=
  let positions := indefinite3 sol in
  if null positions
  then Some {| fp_positions := positions; classifying_edges := []; fp_complete := true |}
  else
    let* over_baseline := solve_2v g leaf_winners in
    let* edges := for_each (push_classifying g leaf_winners over_baseline) [] (may_only_edges g) in
    Some {| fp_positions := positions; classifying_edges := edges; fp_complete := true |}.

(** ** [evaluate_3v_game] *)

Inductive OwningPlayer := OP_Environment | OP_Controller | OP_Unknown.

Record FailureSubgame := {
  fs_positions : list (nat * NodeId);
  classifying_transitions : list (nat * nat * OwningPlayer);
  fs_root : option (nat * NodeId);
  subgame_extraction_complete : bool
}.

Record GameEvaluation := { ge_verdicts : TritSet; failure_subgame : option FailureSubgame }.

Definition owning_player (c : Clts) (t : Transition) : OwningPlayer :=
  if is_controllable c t then OP_Controller
  else if is_uncontrollable c t then OP_Environment
  else OP_Unknown.

(** One transition tried for a classifying edge between the states [src] and
    [tgt]. *)
Definition push_transition (c : Clts) (src tgt : nat) (acc : list (nat * nat * OwningPlayer))
    (x : nat * Transition) : list (nat * nat * OwningPlayer) :=
  let '(t_idx, t) := x in
  if (target t =? tgt) && bool_decide (modality t = MayOnly)
     && negb (existsb (λ y, (y.1.1 =? src) && (y.1.2 =? t_idx)) acc)
  then acc ++ [(src, t_idx, owning_player c t)]
  else acc.

Definition push_edge_transitions (c : Clts) (g : Game3v) (acc : list (nat * nat * OwningPlayer))
    (e : PositionId * PositionId) : list (nat * nat * OwningPlayer) :=
  match positions g !! e.1, positions g !! e.2 with
  | Some src_pos, Some tgt_pos =>
    let row := outgoing c (pos_state src_pos) in
    foldl (push_transition c (pos_state src_pos) (pos_state tgt_pos)) acc (zip (seq 0 (length row)) row)
  | _, _ => acc
  end.

Definition build_leaf_oracle_from_env (g : Game3v) (f : Formula) (e : EvalEnvironment) : Winners :=
  leaf_winners_from_oracle g f
    (λ state name, match predicate e name with Some bits => bit bits state | None => false end).

Definition indefinite_states (v : TritSet) : list nat :=
  List.filter (λ s, bool_decide (verdict_at v s = Trit_Unknown)) (seq 0 (len v)).

Definition failure_subgame_of (f : Formula) (c : Clts) (e : EvalEnvironment) : option FailureSubgame :=
  let* game := build_game f c in
  let leaf_winners := build_leaf_oracle_from_env game f e in
  let* solution3v := solve_3v game leaf_winners in
  let* precise := extract_failure_subgame game leaf_winners solution3v in
  let positions_translated :=
    omap (λ pid, (λ pos, (pos_state pos, pos_node pos)) <$> positions game !! pid) (fp_positions precise) in
  Some {| fs_positions := positions_translated;
          classifying_transitions := foldl (push_edge_transitions c game) [] (classifying_edges precise);
          fs_root := head positions_translated;
          subgame_extraction_complete := true |}.

Definition evaluate_3v_game_with_options (rounds : nat) (f : Formula) (c : Clts) (e : EvalEnvironment)
    (o : EvaluationOptions) : option GameEvaluation :=
  let* verdicts := evaluate_tri_with_options rounds f c e o in
  if null (indefinite_states verdicts)
  then Some {| ge_verdicts := verdicts; failure_subgame := None |}
  else
    let* fs := failure_subgame_of f c e in
    Some {| ge_verdicts := verdicts; failure_subgame := Some fs |}.

Definition evaluate_3v_game (rounds : nat) (f : Formula) (c : Clts) (e : EvalEnvironment)
    : option GameEvaluation :=
  evaluate_3v_game_with_options rounds f c e EvaluationOptions_default.

Definition clts_has_non_sharp_transitions (c : Clts) : bool :=
  existsb (λ s, existsb (λ t, negb (bool_decide (modality t = Sharp))) (outgoing c s))
    (seq 0 (state_count c)).

Definition clts_has_hyper_must_transitions (c : Clts) : bool :=
  existsb (λ s, existsb (λ t, match modality t with MustHyperOnly _ => true | _ => false end) (outgoing c s))
    (seq 0 (state_count c)).
