(* ===== verification/Solve3vCorrect.v ===== *)
(** What the two-valued solver of Solve3v.v computes.

    A position is decided for a player when that player has a positional
    strategy: a set of positions the strategy keeps the play in, where every
    play that ends does so at a position already given to the player or with
    the opponent to move and no move left, and every infinite play is won
    ([wins]).  [decides] states this of a map of winners relative to the winners
    known before, and composes ([decides_trans]); propagation, the two cases of
    the recursion and the whole solver are instances of it. *)
From S2P Require Import Prelude Game3v Solve3v.

(** ** Plays and strategies *)

Definition parity_winner (d : nat) : Player := if Nat.even d then Existential else Universal.

Definition recurs (g : Game3v) (π : nat → nat) (d : nat) : Prop :=
  ∀ M, ¬ ∀ m, M ≤ m → priority g (π m) ≠ d.

(** A priority of the opponent's parity recurs and bounds the play from some
    point on. *)
Definition lost (g : Game3v) (q : Player) (π : nat → nat) : Prop :=
  ∃ d N, parity_winner d = other_player q ∧ recurs g π d ∧ ∀ m, N ≤ m → priority g (π m) ≤ d.

(** A play through undecided positions in which [q] follows [σ]. *)
Definition play (g : Game3v) (known : Winners) (q : Player) (σ π : nat → nat) : Prop :=
  ∀ k, known !! π k = None ∧ π (S k) ∈ succs g (π k) ∧ (owner g (π k) = q → π (S k) = σ (π k)).

Record wins (g : Game3v) (known : Winners) (q : Player) (W : nat → Prop) (σ : nat → nat) : Prop := {
  wi_end : ∀ i p, W i → known !! i = Some p → p = q;
  wi_own : ∀ i, W i → known !! i = None → owner g i = q → σ i ∈ succs g i ∧ W (σ i);
  wi_opp : ∀ i s, W i → known !! i = None → owner g i ≠ q → s ∈ succs g i → W s;
  wi_play : ∀ π, play g known q σ π → W (π 0) → ¬ lost g q π
}.

(** [w] keeps what is known, and each player wins the positions it is given. *)
Record decides (g : Game3v) (known w : Winners) : Prop := {
  de_sub : known ⊆ w;
  de_wins : ∀ q, ∃ σ, wins g known q (λ i, w !! i = Some q) σ
}.

Lemma other_ne p : other_player p ≠ p.
Proof. by destruct p. Qed.
Lemma other_involutive p : other_player (other_player p) = p.
Proof. by destruct p. Qed.
Lemma other_of p q : p ≠ q → p = other_player q.
Proof. by destruct p, q. Qed.

Section strategies.
Context (g : Game3v).

Lemma lost_suffix q π k : lost g q π → lost g q (λ n, π (n + k)).
Proof.
  intros (d & N & Hd & Hrec & Hub). exists d, N. split_and!; [done| |intros; apply Hub; lia].
  intros M Hne. apply (Hrec (M + k)). intros j Hj. specialize (Hne (j - k) ltac:(lia)).
  simpl in Hne. by replace (j - k + k) with j in Hne by lia.
Qed.

Lemma play_from known q σ π k : play g known q σ π → play g known q σ (λ n, π (n + k)).
Proof. intros H n. apply (H (n + k)). Qed.

(** An infinite play is not lost by one player only if it is lost by the other. *)
Lemma lost_some B q π : (∃ N, ∀ m, N ≤ m → priority g (π m) ≤ B) →
  ¬ lost g q π → ¬ lost g (other_player q) π → False.
Proof.
  intros HB H1 H2. induction B as [|B IH]; destruct HB as [N HB].
  - assert (Hrec : recurs g π 0).
    { intros M Hne. apply (Hne (M + N)); [lia|]. specialize (HB (M + N) ltac:(lia)). lia. }
    destruct q; [apply H2|apply H1]; by exists 0, N.
  - assert (Hinf : ¬ recurs g π (S B)).
    { intros Hinf. destruct (decide (parity_winner (S B) = q)) as [E|E%other_of]; [apply H2|apply H1];
        exists (S B), N; split_and!; try done. by rewrite other_involutive. }
    apply Hinf. intros M Hne. apply IH. exists (M + N). intros m Hm.
    specialize (Hne m ltac:(lia)). specialize (HB m ltac:(lia)). lia.
Qed.

Lemma priorities_bounded i : priority g i ≤ max_list (map pos_priority (positions g)).
Proof.
  unfold priority. destruct (positions g !! i) as [p|] eqn:E; simpl; [|lia].
  apply max_list_elem_of_le, list_elem_of_In, in_map, list_elem_of_In. by apply list_elem_of_lookup_2 with i.
Qed.

(** No position is won by both players. *)
Lemma one_winner known q W W' σ σ' i :
  wins g known q W σ → wins g known (other_player q) W' σ' → W i → W' i → False.
Proof.
  intros H H' Hi Hi'.
  set (next j := if decide (owner g j = q) then σ j else σ' j). set (π k := Nat.iter k next i).
  assert (Hnext : ∀ j, W j ∧ W' j → known !! j = None ∧ next j ∈ succs g j ∧ W (next j) ∧ W' (next j)).
  { intros j [HW HW']. destruct (known !! j) as [p|] eqn:E.
    - pose proof (wi_end _ _ _ _ _ H j p HW E). pose proof (wi_end _ _ _ _ _ H' j p HW' E).
      subst p. by destruct q.
    - unfold next. destruct (decide (owner g j = q)) as [Ho|Ho].
      + destruct (wi_own _ _ _ _ _ H j HW E Ho) as [Hs ?]. split_and!; try done.
        apply (wi_opp _ _ _ _ _ H' j); try done. rewrite Ho. by destruct q.
      + destruct (wi_own _ _ _ _ _ H' j HW' E) as [Hs ?]; [by apply other_of|]. split_and!; try done.
        by apply (wi_opp _ _ _ _ _ H j). }
  assert (Hin : ∀ k, W (π k) ∧ W' (π k)) by (induction k; [done|by apply Hnext]).
  apply (lost_some (max_list (map pos_priority (positions g))) q π).
  - exists 0. intros m _. apply priorities_bounded.
  - apply (wi_play _ _ _ _ _ H); [|done]. intros k. destruct (Hnext (π k) (Hin k)) as (? & ? & _).
    split_and!; [done..|]. intros Ho. simpl. unfold next. by rewrite decide_True.
  - apply (wi_play _ _ _ _ _ H'); [|done]. intros k. destruct (Hnext (π k) (Hin k)) as (? & ? & _).
    split_and!; [done..|]. intros Ho. simpl. unfold next. rewrite decide_False; [done|].
    rewrite Ho. by destruct q.
Qed.

(** ** Composition *)

Lemma decides_refl w : decides g w w.
Proof.
  split; [done|]. intros q. exists id. split.
  - intros i p -> [=]. done.
  - intros i H. by rewrite H.
  - intros i s H. by rewrite H.
  - intros π Hp H0. destruct (Hp 0) as [Hn _]. by rewrite H0 in Hn.
Qed.

(** A region won towards decided positions that are won themselves. *)
Lemma wins_trans known w q σ W τ :
  known ⊆ w → wins g known q (λ i, w !! i = Some q) σ → (∀ i, w !! i = Some q → W i) → wins g w q W τ →
  wins g known q W (λ i, if decide (is_Some (w !! i)) then σ i else τ i).
Proof.
  intros Hsub H1 HW H2.
  assert (Hcase : ∀ i, W i → w !! i = Some q ∨ w !! i = None ∧ known !! i = None).
  { intros i Hi. destruct (w !! i) as [p|] eqn:E; [left|right; split; [done|by eapply lookup_weaken_None]].
    by rewrite (wi_end _ _ _ _ _ H2 i p Hi E). }
  split.
  - intros i p Hi Hk. apply (wi_end _ _ _ _ _ H2 i); [done|]. by eapply lookup_weaken.
  - intros i Hi Hk Ho. destruct (Hcase i Hi) as [E|[E _]]; rewrite E.
    + rewrite decide_True by (by eexists). destruct (wi_own _ _ _ _ _ H1 i E Hk Ho). auto.
    + rewrite decide_False by (by intros []). by apply (wi_own _ _ _ _ _ H2).
  - intros i s Hi Hk Ho Hs. destruct (Hcase i Hi) as [E|[E _]].
    + by apply HW, (wi_opp _ _ _ _ _ H1 i).
    + by apply (wi_opp _ _ _ _ _ H2 i).
  - intros π Hp H0.
    assert (Hin : ∀ k, W (π k)).
    { induction k as [|k IH]; [done|]. destruct (Hp k) as (Hk & Hs & Hf).
      destruct (decide (owner g (π k) = q)) as [Ho|Ho].
      - rewrite Hf by done. destruct (Hcase _ IH) as [E|[E _]]; rewrite E.
        + rewrite decide_True by (by eexists). apply HW. by apply (wi_own _ _ _ _ _ H1).
        + rewrite decide_False by (by intros []). by apply (wi_own _ _ _ _ _ H2).
      - destruct (Hcase _ IH) as [E|[E _]].
        + by apply HW, (wi_opp _ _ _ _ _ H1 (π k)).
        + by apply (wi_opp _ _ _ _ _ H2 (π k)). }
    (* A play that meets a decided position stays among them. *)
    intros Hlost. assert (Hund : ∀ k, w !! π k = None).
    { intros k. destruct (Hcase _ (Hin k)) as [E|[? _]]; [exfalso|done].
      assert (Hst : ∀ m, w !! π (m + k) = Some q).
      { induction m as [|m IH]; [done|]. destruct (Hp (m + k)) as (Hk & Hs & Hf). simpl.
        destruct (decide (owner g (π (m + k)) = q)) as [Ho|Ho].
        - rewrite Hf by done. rewrite IH, decide_True by (by eexists). by apply (wi_own _ _ _ _ _ H1).
        - by apply (wi_opp _ _ _ _ _ H1 (π (m + k))). }
      apply (wi_play _ _ _ _ _ H1 (λ m, π (m + k))); [|by apply (Hst 0)|by apply lost_suffix].
      intros m. destruct (Hp (m + k)) as (Hk & Hs & Hf). split_and!; [done..|].
      intros Ho. simpl. rewrite Hf by done. by rewrite (Hst m), decide_True by (by eexists). }
    apply (wi_play _ _ _ _ _ H2 π); [|done..].
    intros k. destruct (Hp k) as (Hk & Hs & Hf). split_and!; [done..|].
    intros Ho. rewrite Hf by done. by rewrite Hund, decide_False by (by intros []).
Qed.

Lemma decides_trans known w w' : decides g known w → decides g w w' → decides g known w'.
Proof.
  intros [H1 Hw1] [H2 Hw2]. split; [by etransitivity|]. intros q.
  destruct (Hw1 q) as [σ Hσ], (Hw2 q) as [τ Hτ]. eexists. apply (wins_trans known w); try done.
  intros i E. by eapply lookup_weaken.
Qed.

(** A player is given positions it wins. *)
Lemma decides_grow known q (A : gset nat) σ (w : Winners) :
  (∀ i, w !! i = if decide (i ∈ A) then Some q else known !! i) →
  (∀ i, i ∈ A → known !! i = None) →
  wins g known q (λ i, w !! i = Some q) σ → decides g known w.
Proof.
  intros Hw HA Hq. split.
  - apply map_subseteq_spec. intros i p Hi. rewrite Hw, decide_False; [done|].
    intros Hin. by rewrite (HA i Hin) in Hi.
  - intros p. destruct (decide (p = q)) as [->|Hp]; [by exists σ|].
    assert (Hk : ∀ i, w !! i = Some p → known !! i = Some p).
    { intros i. rewrite Hw. case_decide; [|done]. by intros [= ->]. }
    exists id. split.
    + intros i p' Hi Hi'. apply Hk in Hi. congruence.
    + intros i Hi Hn. apply Hk in Hi. congruence.
    + intros i s Hi Hn. apply Hk in Hi. congruence.
    + intros π Hp' H0. destruct (Hp' 0) as [Hn _]. apply Hk in H0. congruence.
Qed.

End strategies.

(** ** Propagation *)

(** The active positions are the undecided ones. *)
Definition open (g : Game3v) (active : gset PositionId) (w : Winners) : Prop :=
  ∀ i, i ∈ active ↔ i < position_count g ∧ w !! i = None.

Definition same_outside (active : gset PositionId) (w w' : Winners) : Prop := ∀ i, i ∉ active → w' !! i = w !! i.

(** Every active position is decided, and nothing else changes. *)
Definition solved (g : Game3v) (active : gset PositionId) (w w' : Winners) : Prop :=
  decides g w w' ∧ same_outside active w w' ∧ ∀ i, i ∈ active → is_Some (w' !! i).

(** No move of [i] decides it. *)
Definition unsettled (g : Game3v) (w : Winners) (i : PositionId) : Prop :=
  existsb (wins_at w (owner g i)) (succs g i) = false ∧ forallb (resolved w) (succs g i) = false.

Section solver.
Context (g : Game3v).
Let n := position_count g.

Lemma elem_of_ascending X i : i ∈ ascending g X ↔ i < n ∧ i ∈ X.
Proof using Type. unfold ascending. rewrite elem_of_filterb, elem_of_seq, bool_decide_eq_true. split; intros [? ?]; (split; [lia|done]). Qed.

Lemma NoDup_ascending X : NoDup (ascending g X).
Proof using Type.
  unfold ascending. apply NoDup_ListNoDup, List.NoDup_filter, NoDup_ListNoDup, NoDup_seq.
Qed.

Lemma wins_at_spec w p s : wins_at w p s = true ↔ w !! s = Some p.
Proof using Type. apply bool_decide_eq_true. Qed.

Lemma resolved_spec w s : resolved w s = true ↔ is_Some (w !! s).
Proof using Type. apply bool_decide_eq_true. Qed.

Lemma decides_step (w : Winners) pid q :
  w !! pid = None → (owner g pid = q → ∃ s, s ∈ succs g pid ∧ w !! s = Some q) →
  (owner g pid ≠ q → ∀ s, s ∈ succs g pid → w !! s = Some q) → decides g w (<[pid:=q]> w).
Proof using Type.
  intros Hn Hown Hopp.
  assert (Hs : ∃ s, owner g pid = q → s ∈ succs g pid ∧ w !! s = Some q).
  { destruct (decide (owner g pid = q)) as [E|E]; [destruct (Hown E) as [s ?]; by exists s|by exists 0]. }
  destruct Hs as [s Hs]. clear Hown.
  assert (Hin : ∀ i, <[pid:=q]> w !! i = if decide (i ∈ ({[pid]} : gset nat)) then Some q else w !! i).
  { intros i. case_decide as E; [apply elem_of_singleton in E as ->; by rewrite lookup_insert_eq|].
    rewrite elem_of_singleton in E. by rewrite lookup_insert_ne. }
  assert (Hw : ∀ i, w !! i = Some q → <[pid:=q]> w !! i = Some q).
  { intros i Hi. rewrite lookup_insert_ne; [done|]. intros <-. by rewrite Hn in Hi. }
  assert (Hpid : ∀ i, <[pid:=q]> w !! i = Some q → w !! i = None → i = pid).
  { intros i Hi Hi'. destruct (decide (i = pid)) as [|E]; [done|]. rewrite lookup_insert_ne in Hi by done. congruence. }
  apply (decides_grow g w q {[pid]} (λ _, s)); [done|intros i ->%elem_of_singleton; done|]. split.
  - intros i p Hi Hk. rewrite Hin in Hi. case_decide as E; [apply elem_of_singleton in E as ->|]; congruence.
  - intros i Hi Hk Ho. apply Hpid in Hi as ->; [|done]. destruct (Hs Ho). auto.
  - intros i j Hi Hk Ho Hj. apply Hpid in Hi as ->; [|done]. by apply Hw, Hopp.
  - intros π Hp H0. destruct (Hp 0) as (Hk & Hsu & Hf), (Hp 1) as (Hk1 & _).
    apply Hpid in H0 as E; [|done]. rewrite E in *.
    destruct (decide (owner g pid = q)) as [Ho|Ho].
    + rewrite (Hf Ho) in Hk1. destruct (Hs Ho). congruence.
    + rewrite (Hopp Ho) in Hk1 by done. done.
Qed.

Lemma open_insert active (w : Winners) pid q : pid ∈ active → open g active w → open g (active ∖ {[pid]}) (<[pid:=q]> w).
Proof using Type.
  intros Hp Ho i. rewrite elem_of_difference, elem_of_singleton, (Ho i).
  destruct (decide (i = pid)) as [->|]; [rewrite lookup_insert_eq; naive_solver|].
  rewrite lookup_insert_ne by done. tauto.
Qed.

Lemma settle_spec active w ch pid : pid ∈ active → open g active w →
  let st := settle g (active, w, ch) pid in
  open g st.1.1 st.1.2 ∧ decides g w st.1.2 ∧
  (st = (active, w, ch) ∧ unsettled g w pid ∨ st.1.1 = active ∖ {[pid]} ∧ st.2 = true ∧ same_outside active w st.1.2).
Proof using Type.
  intros Hp Ho. pose proof (proj1 (Ho pid) Hp) as [_ Hn]. simpl.
  assert (Hfr : ∀ q, same_outside active w (<[pid:=q]> w)).
  { intros q i Hi. rewrite lookup_insert_ne; [done|]. by intros <-. }
  destruct (existsb (wins_at w (owner g pid)) (succs g pid)) eqn:E1; simpl.
  - split_and!; [by apply open_insert| |by right]. apply decides_step; [done| |done].
    intros _. apply existsb_spec in E1 as (s & ? & Hs). exists s. by rewrite wins_at_spec in Hs.
  - destruct (forallb (resolved w) (succs g pid)) eqn:E2; simpl.
    + split_and!; [by apply open_insert| |by right].
      apply decides_step; [done|intros E; by destruct (owner g pid)|].
      intros _ s Hs. rewrite forallb_spec in E2. pose proof (E2 s Hs) as Hr.
      rewrite resolved_spec in Hr. destruct Hr as [p Hr]. rewrite Hr. f_equal. apply other_of. intros ->.
      enough (existsb (wins_at w (owner g pid)) (succs g pid) = true) by congruence.
      apply existsb_spec. exists s. by rewrite wins_at_spec.
    + split_and!; [done|apply decides_refl|by left].
Qed.

Lemma settle_round l active w ch : NoDup l → (∀ i, i ∈ l → i ∈ active) → open g active w →
  let st := foldl (settle g) (active, w, ch) l in
  open g st.1.1 st.1.2 ∧ decides g w st.1.2 ∧ same_outside active w st.1.2 ∧ st.1.1 ⊆ active ∧
  (st = (active, w, ch) ∧ (∀ i, i ∈ l → unsettled g w i) ∨ st.2 = true ∧ size st.1.1 < size active).
Proof using Type.
  revert active w ch. induction l as [|pid l IH]; intros active w ch Hnd Hin Ho; cbn [foldl].
  { split_and!; [done|apply decides_refl|done..|]. left. split; [done|]. by intros i ?%not_elem_of_nil. }
  apply NoDup_cons in Hnd as [Hpid Hnd]. assert (Hpa : pid ∈ active) by (apply Hin; by left).
  destruct (settle_spec active w ch pid Hpa Ho) as (Ho1 & Hd1 & [[-> Hu]|(Ha1 & Hc1 & Hf1)]).
  - destruct (IH active w ch) as (Ho2 & Hd2 & Hf2 & Hs2 & Hc2); [done|intros; apply Hin; by right|done|].
    split_and!; [done..|]. destruct Hc2 as [[-> Hl]|]; [left|by right]. split; [done|].
    intros i [->|Hi]%elem_of_cons; auto.
  - destruct (settle g (active, w, ch) pid) as [[a1 w1] c1]. cbn [fst snd] in *. subst a1 c1.
    destruct (IH (active ∖ {[pid]}) w1 true) as (Ho2 & Hd2 & Hf2 & Hs2 & Hc2); [done| |done|].
    { intros i Hi. apply elem_of_difference. rewrite elem_of_singleton. split; [apply Hin; by right|].
      by intros ->. }
    assert (Hlt : size (active ∖ {[pid]}) < size active).
    { apply subset_size. split; [set_solver|]. intros H. specialize (H pid Hpa). set_solver. }
    split_and!; [done|by eapply decides_trans| |set_solver|right].
    + intros i Hi. rewrite Hf2 by set_solver. by apply Hf1.
    + destruct Hc2 as [[-> _]|[-> ?]]; [done|split; [done|lia]].
Qed.

Lemma propagate_spec rounds active w : size active < rounds → open g active w →
  ∃ active' w', propagate_from_resolved rounds g active w = Some (active', w') ∧ open g active' w' ∧
    decides g w w' ∧ same_outside active w w' ∧ active' ⊆ active ∧ ∀ i, i ∈ active' → unsettled g w' i.
Proof using Type.
  revert active w. induction rounds as [|r IH]; intros active w Hr Ho; [lia|]. cbn [propagate_from_resolved].
  destruct (settle_round (ascending g active) active w false) as (Ho1 & Hd1 & Hf1 & Hs1 & Hc1);
    [apply NoDup_ascending|by intros i [_ ?]%elem_of_ascending|done|].
  destruct (foldl (settle g) (active, w, false) (ascending g active)) as [[a1 w1] c1]. cbn [fst snd] in *.
  destruct Hc1 as [[[= -> -> ->] Hu]|[-> Hlt]].
  - exists active, w. split_and!; [done..|]. intros i Hi. apply Hu, elem_of_ascending.
    split; [|done]. by apply Ho.
  - destruct (IH a1 w1) as (a2 & w2 & -> & Ho2 & Hd2 & Hf2 & Hs2 & Hu); [lia|done|].
    exists a2, w2. split_and!; [done|done|by eapply decides_trans| |set_solver|done].
    intros i Hi. rewrite Hf2 by set_solver. by apply Hf1.
Qed.

(** ** Attractors *)

(** The move from [i] to [s] is decided for [p] or lowers the rank. *)
Definition closer (w : Winners) (p : Player) (A : gset nat) (rank : nat → nat) (i s : nat) : Prop :=
  w !! s = Some p ∨ s ∈ A ∧ rank s < rank i.

(** From [A] the player [p] reaches [T] or a position decided for it. *)
Definition towards (w : Winners) (p : Player) (T A : gset nat) (rank : nat → nat) : Prop :=
  ∀ i, i ∈ A → rank i < size A ∧ (i ∈ T ∨
    if decide (owner g i = p) then ∃ s, s ∈ succs g i ∧ closer w p A rank i s
    else ∀ s, s ∈ succs g i → closer w p A rank i s).

Lemma attract_spec w p T A rank ch pid : pid ∉ A → towards w p T A rank →
  let st := attract g p w (A, ch) pid in
  st = (A, ch) ∨ st = ({[pid]} ∪ A, true) ∧ ∃ rank', towards w p T ({[pid]} ∪ A) rank'.
Proof using Type.
  intros Hp Ht. simpl. set (won_move := λ s, bool_decide (s ∈ A) || wins_at w p s).
  destruct (negb _ && _) eqn:E; [right; split; [done|]|by left].
  apply andb_true_iff in E as [_ E].
  set (rank' := λ j, if decide (j = pid) then size A else rank j). exists rank'.
  assert (Hsz : size ({[pid]} ∪ A) = S (size A)) by (rewrite size_union, size_singleton; [done|set_solver]).
  assert (Hold : ∀ j, j ∈ A → rank' j = rank j).
  { intros j Hj. unfold rank'. rewrite decide_False; [done|]. by intros ->. }
  assert (Hnew : ∀ s, won_move s = true → closer w p ({[pid]} ∪ A) rank' pid s).
  { intros s [Hs%bool_decide_eq_true|Hs%wins_at_spec]%orb_true_iff; [right|by left].
    split; [set_solver|]. rewrite (Hold s Hs). unfold rank'. rewrite decide_True by done. by apply Ht. }
  assert (Hkeep : ∀ i s, i ∈ A → closer w p A rank i s → closer w p ({[pid]} ∪ A) rank' i s).
  { intros i s Hi [?|[Hs ?]]; [by left|right]. rewrite !Hold by done. split; [set_solver|done]. }
  intros i [->%elem_of_singleton|Hi]%elem_of_union.
  - split; [unfold rank'; rewrite decide_True by done; lia|right].
    destruct (decide (owner g pid = p)).
    + apply existsb_spec in E as (s & ? & Hs). exists s. auto.
    + rewrite forallb_spec in E. auto.
  - destruct (Ht i Hi) as [Hr H]. rewrite (Hold i Hi). split; [lia|]. destruct H as [?|H]; [by left|right].
    destruct (decide (owner g i = p)); [|auto].
    destruct H as (s & ? & ?). eauto.
Qed.

Lemma attract_round l w p T A rank ch : NoDup l → (∀ i, i ∈ l → i ∉ A) → towards w p T A rank →
  let st := foldl (attract g p w) (A, ch) l in
  A ⊆ st.1 ∧ (∀ i, i ∈ st.1 → i ∈ A ∨ i ∈ l) ∧ (∃ rank', towards w p T st.1 rank') ∧
  (st = (A, ch) ∨ st.2 = true ∧ size A < size st.1).
Proof using Type.
  revert A rank ch. induction l as [|pid l IH]; intros A rank ch Hnd Hin Ht; cbn [foldl].
  { split_and!; [done|by left|by exists rank|by left]. }
  apply NoDup_cons in Hnd as [Hpid Hnd]. assert (Hpa : pid ∉ A) by (apply Hin; by left).
  destruct (attract_spec w p T A rank ch pid Hpa Ht) as [->|[-> [rank1 Ht1]]].
  - destruct (IH A rank ch) as (? & Hl & ? & ?); [done|intros; apply Hin; by right|done|].
    split_and!; [done| |done|done]. intros i Hi. destruct (Hl i Hi); [by left|right; by right].
  - destruct (IH ({[pid]} ∪ A) rank1 true) as (Hsub & Hl & Hex & Hc); [done| |done|].
    { intros i Hi. rewrite not_elem_of_union, not_elem_of_singleton. split; [by intros ->|].
      apply Hin. by right. }
    assert (Hsz : size ({[pid]} ∪ A) = S (size A)) by (rewrite size_union, size_singleton; [done|set_solver]).
    split_and!; [set_solver| |done|right].
    + intros i Hi. destruct (Hl i Hi) as [[->%elem_of_singleton|?]%elem_of_union|?];
        [right; by left|by left|right; by right].
    + destruct Hc as [->|[-> ?]]; cbn [fst snd]; split; (done || lia).
Qed.

Lemma attractor_loop_spec rounds active w p T A rank :
  (∀ i, i ∈ active → i < n) → A ⊆ active → size active < rounds + size A → towards w p T A rank →
  ∃ A', attractor_loop rounds g active A p w = Some A' ∧ A ⊆ A' ∧ A' ⊆ active ∧
    ∃ rank', towards w p T A' rank'.
Proof using Type.
  intros Hin. revert A rank. induction rounds as [|r IH]; intros A rank HA Hr Ht.
  { pose proof (subseteq_size A active HA). lia. }
  cbn [attractor_loop].
  destruct (attract_round (ascending g (active ∖ A)) w p T A rank false) as (Hsub & Hl & [rank1 Ht1] & Hc);
    [apply NoDup_ascending|intros i [_ ?]%elem_of_ascending; set_solver|done|].
  assert (HA1 : (foldl (attract g p w) (A, false) (ascending g (active ∖ A))).1 ⊆ active).
  { intros i Hi. destruct (Hl i Hi) as [?|[_ ?]%elem_of_ascending]; set_solver. }
  destruct (foldl (attract g p w) (A, false) (ascending g (active ∖ A))) as [A1 c1]. cbn [fst snd] in *.
  destruct Hc as [[= -> ->]|[-> Hlt]].
  - exists A. split_and!; [done..|]. by exists rank.
  - destruct (IH A1 rank1) as (A' & -> & ? & ? & ?); [done|lia|done|].
    exists A'. split_and!; [done|by etransitivity|done..].
Qed.

Lemma attractor_spec active w p T : (∀ i, i ∈ active → i < n) →
  ∃ A, attractor g active T p w = Some A ∧ T ∩ active ⊆ A ∧ A ⊆ active ∧ ∃ rank, towards w p T A rank.
Proof using Type.
  intros Hin. unfold attractor.
  apply (attractor_loop_spec _ _ _ _ _ _ (λ _, 0)); [done|set_solver|lia|].
  intros i Hi. split; [|left; set_solver].
  assert (size (T ∩ active) ≠ 0) by (rewrite size_non_empty_iff; set_solver). lia.
Qed.

(** ** Writing winners *)

Lemma write_lookup (v : nat → option Player) l (w : Winners) i :
  foldl (λ w pid, partial_alter (λ _, v pid) pid w) w l !! i = if decide (i ∈ l) then v i else w !! i.
Proof using Type.
  revert w. induction l as [|pid l IH]; intros w; cbn [foldl]; [by rewrite decide_False by apply not_elem_of_nil|].
  rewrite IH. destruct (decide (i ∈ l)) as [Hl|Hl]; [by rewrite decide_True by (by right)|].
  destruct (decide (i = pid)) as [->|Hne].
  - by rewrite lookup_partial_alter_eq, decide_True by (by left).
  - rewrite lookup_partial_alter_ne by done. rewrite decide_False; [done|]. by intros [?|?]%elem_of_cons.
Qed.

Lemma write_ascending (v : nat → option Player) (X : gset nat) (w : Winners) i : (∀ j, j ∈ X → j < n) →
  foldl (λ w pid, partial_alter (λ _, v pid) pid w) w (ascending g X) !! i = if decide (i ∈ X) then v i else w !! i.
Proof using Type.
  intros HX. rewrite write_lookup. apply decide_ext. rewrite elem_of_ascending. fold n. naive_solver.
Qed.

Lemma resolve_lookup X p (w : Winners) i : (∀ j, j ∈ X → j < n) →
  resolve g X p w !! i = if decide (i ∈ X) then Some p else w !! i.
Proof using Type. apply (write_ascending (λ _, Some p)). Qed.

Lemma unresolve_lookup X (w : Winners) i : (∀ j, j ∈ X → j < n) →
  unresolve g X w !! i = if decide (i ∈ X) then None else w !! i.
Proof using Type. apply (write_ascending (λ _, None)). Qed.

Lemma roll_back_lookup X (w w0 : Winners) i : (∀ j, j ∈ X → j < n) →
  roll_back (map (λ pid, (pid, w0 !! pid)) (ascending g X)) w !! i = if decide (i ∈ X) then w0 !! i else w !! i.
Proof using Type.
  intros HX. rewrite <-(write_ascending (λ j, w0 !! j)) by done. f_equal. unfold roll_back.
  generalize (ascending g X). intros l. revert w. induction l as [|j l IH]; intros w; [done|].
  cbn [map foldl]. rewrite IH. f_equal. by destruct (w0 !! j).
Qed.

Lemma highest_priority active : (∀ i, i ∈ active → i < n) → active ≠ ∅ →
  (∀ i, i ∈ active → priority g i ≤ max_priority g active) ∧
  ∃ i, i ∈ active ∧ priority g i = max_priority g active.
Proof using Type.
  intros Hin Hne. unfold max_priority.
  assert (H : ∀ l d, let m := foldl (λ d pid, if d <? priority g pid then priority g pid else d) d l in
    d ≤ m ∧ (∀ i, i ∈ l → priority g i ≤ m) ∧ (m = d ∨ ∃ i, i ∈ l ∧ priority g i = m)).
  { induction l as [|j l IH]; intros d; cbn [foldl].
    { split_and!; [done|by intros ? ?%not_elem_of_nil|by left]. }
    destruct (IH (if d <? priority g j then priority g j else d)) as (H1 & H2 & H3).
    assert (d ≤ (if d <? priority g j then priority g j else d) ∧
            priority g j ≤ (if d <? priority g j then priority g j else d)) by (destruct (Nat.ltb_spec d (priority g j)); lia).
    split_and!; [lia|intros i [->|Hi]%elem_of_cons; [lia|by apply H2]|].
    destruct H3 as [H3|(i & ? & ?)]; [|right; exists i; split; [by right|done]].
    rewrite H3. destruct (d <? priority g j); [right; exists j; split; [by left|done]|by left]. }
  destruct (H (ascending g active) 0) as (_ & H2 & H3).
  assert (Hall : ∀ i, i ∈ active → i ∈ ascending g active) by (intros i Hi; apply elem_of_ascending; auto).
  split; [auto|]. destruct H3 as [H3|(i & [_ ?]%elem_of_ascending & ?)]; [|by exists i].
  apply set_choose_L in Hne as [i Hi]. exists i. split; [done|]. specialize (H2 i (Hall i Hi)). lia.
Qed.

(** A move of [i] that passes the test. *)
Definition pick (f : nat → bool) (i : nat) : nat := default 0 (List.find f (succs g i)).

Lemma pick_move (f : nat → bool) i : (∃ s, s ∈ succs g i ∧ f s = true) → pick f i ∈ succs g i ∧ f (pick f i) = true.
Proof using Type.
  intros (s & Hs & Hf). unfold pick. destruct (List.find f (succs g i)) as [s'|] eqn:E; simpl.
  - apply List.find_some in E as [?%list_elem_of_In ?]. done.
  - apply list_elem_of_In in Hs. pose proof (List.find_none _ _ E s Hs). congruence.
Qed.

Definition closer_b (w : Winners) (p : Player) (A : gset nat) (rank : nat → nat) (i s : nat) : bool :=
  wins_at w p s || bool_decide (s ∈ A) && (rank s <? rank i).

Lemma closer_b_spec w p A rank i s : closer_b w p A rank i s = true ↔ closer w p A rank i s.
Proof using Type.
  unfold closer_b, closer. by rewrite orb_true_iff, andb_true_iff, wins_at_spec, bool_decide_eq_true, Nat.ltb_lt.
Qed.

Lemma pick_closer w p A rank i : (∃ s, s ∈ succs g i ∧ closer w p A rank i s) →
  pick (closer_b w p A rank i) i ∈ succs g i ∧ closer w p A rank i (pick (closer_b w p A rank i) i).
Proof using Type.
  intros (s & ? & ?). rewrite <-closer_b_spec. apply pick_move. exists s. by rewrite closer_b_spec.
Qed.
End solver.

(** ** The two cases of the recursion *)

Section recursion.
Context (g : Game3v) (Hg : game_ok g).
Let n := position_count g.
Context (active A : gset nat) (w w1 : Winners) (p : Player) (rank : nat → nat).
Context (Hopen : open g active w) (HA : A ⊆ active).
Context (Hdec : decides g (resolve g A p w) w1) (Hout : same_outside (active ∖ A) (resolve g A p w) w1).

Lemma active_lt i : i ∈ active → i < n.
Proof using Hopen. by intros [??]%Hopen. Qed.

Lemma active_none i : i ∈ active → w !! i = None.
Proof using Hopen. by intros [_ ?]%Hopen. Qed.

Lemma none_active i s : s ∈ succs g i → w !! s = None → s ∈ active.
Proof using Hg Hopen. intros Hs ?. apply Hopen. split; [by apply (go_range g Hg i)|done]. Qed.

Lemma given_lookup i : resolve g A p w !! i = if decide (i ∈ A) then Some p else w !! i.
Proof using HA Hopen. apply resolve_lookup. intros j Hj. by apply active_lt, HA. Qed.

Lemma sub_lookup i : i ∉ active ∖ A → w1 !! i = if decide (i ∈ A) then Some p else w !! i.
Proof using HA Hopen Hout. intros Hi. by rewrite <-given_lookup, Hout. Qed.

Lemma sub_none i : i ∈ active ∖ A → resolve g A p w !! i = None.
Proof using HA Hopen.
  intros [Hi HiA]%elem_of_difference. rewrite given_lookup, decide_False by done. by apply active_none.
Qed.

(** The highest priorities are the player's and the rest of the subgame is won
    by the player: then all of it is. *)
Section takes_all.
Context (d : nat) (U : gset nat).
Context (Hunsettled : ∀ i, i ∈ active → unsettled g w i).
Context (HU : ∀ i, i ∈ U ↔ i ∈ active ∧ priority g i = d).
Context (Hd : ∀ i, i ∈ active → priority g i ≤ d) (Hp : parity_winner d = p).
Context (Htowards : towards g w p U A rank).
Context (Hall : ∀ i, i ∈ active ∖ A → w1 !! i = Some p).

Lemma taken_lookup i : w1 !! i = if decide (i ∈ active) then Some p else w !! i.
Proof using All.
  destruct (decide (i ∈ active ∖ A)) as [Hi|Hi].
  - rewrite Hall by done. rewrite decide_True; [done|set_solver].
  - rewrite sub_lookup by done. destruct (decide (i ∈ A)); [rewrite decide_True; [done|set_solver]|].
    rewrite decide_False; [done|set_solver].
Qed.

Lemma taken i : w1 !! i = Some p → w !! i = None → i ∈ active.
Proof using All. rewrite taken_lookup. case_decide; [done|congruence]. Qed.

(** A move out of the subgame is not to a position of the opponent. *)
Lemma move_taken i s : i ∈ active → s ∈ succs g i → (owner g i = p → w !! s = None) → w1 !! s = Some p.
Proof using All.
  intros Hi Hs Ho. rewrite taken_lookup. case_decide as Ha; [done|].
  destruct (w !! s) as [p'|] eqn:E; [|by destruct Ha; apply (none_active i)].
  destruct (decide (owner g i = p)) as [Hown|Hown]; [by apply Ho in Hown|].
  destruct (Hunsettled i Hi) as [Hex _]. f_equal. destruct (decide (p' = p)) as [|Hne]; [done|exfalso].
  enough (existsb (wins_at w (owner g i)) (succs g i) = true) by congruence.
  apply existsb_spec. exists s. split; [done|]. apply wins_at_spec. rewrite E. f_equal.
  by destruct p', p, (owner g i).
Qed.

Lemma stay_move i : i ∈ active →
  pick g (λ s, negb (resolved w s)) i ∈ succs g i ∧ w !! pick g (λ s, negb (resolved w s)) i = None.
Proof using All.
  intros Hi. destruct (pick_move g (λ s, negb (resolved w s)) i) as [H1 H2].
  - destruct (Hunsettled i Hi) as [_ H]. apply not_true_iff_false in H.
    assert (Hn : ¬ Forall (λ s, resolved w s = true) (succs g i)) by (by rewrite Forall_forall, <-forallb_spec).
    apply not_Forall_Exists, Exists_exists in Hn; [|intros ?; apply _].
    destruct Hn as (s & ? & Hs%not_true_iff_false). exists s. by rewrite Hs.
  - split; [done|]. apply negb_true_iff in H2. destruct (w !! _) eqn:E; [|done].
    enough (resolved w (pick g (λ s, negb (resolved w s)) i) = true) by congruence.
    apply resolved_spec. by eexists.
Qed.

Definition taking (σ : nat → nat) (i : nat) : nat :=
  if decide (i ∈ A) then
    if decide (i ∈ U) then pick g (λ s, negb (resolved w s)) i else pick g (closer_b w p A rank i) i
  else σ i.

Lemma taking_wins σ : wins g (resolve g A p w) p (λ i, w1 !! i = Some p) σ →
  wins g w p (λ i, w1 !! i = Some p) (taking σ).
Proof using All.
  intros Hσ.
  assert (Hmove : ∀ i, i ∈ active → owner g i = p → taking σ i ∈ succs g i ∧ w1 !! taking σ i = Some p).
  { intros i Hi Ho. unfold taking. destruct (decide (i ∈ A)) as [HiA|HiA]; [destruct (decide (i ∈ U)) as [HiU|HiU]|].
    - destruct (stay_move i Hi) as [Hs Hn]. split; [done|]. by apply (move_taken i).
    - destruct (Htowards i HiA) as [_ [?|Ht]]; [done|]. rewrite decide_True in Ht by done.
      destruct (pick_closer g w p A rank i Ht) as [Hs Hc]. split; [done|]. rewrite taken_lookup.
      case_decide as Ha; [done|]. destruct Hc as [?|[? _]]; [done|set_solver].
    - apply (wi_own _ _ _ _ _ Hσ); [apply Hall; set_solver| |done]. apply sub_none. set_solver. }
  split.
  - intros i q Hi Hk. rewrite taken_lookup in Hi. case_decide; [|congruence].
    by rewrite (active_none i) in Hk.
  - intros i Hi Hn Ho. apply Hmove; [by apply taken|done].
  - intros i s Hi Hn Ho Hs. by apply (move_taken i); [apply taken|..].
  - intros π Hplay H0 (e & N & He & Hrec & Hub).
    assert (Hact : ∀ k, π k ∈ active).
    { intros [|k]; [apply taken; [done|apply Hplay]|]. destruct (Hplay k) as (_ & Hs & _).
      apply (none_active (π k)); [done|apply Hplay]. }
    assert (HnU : ∀ m, N ≤ m → π m ∉ U).
    { intros m Hm Hu%HU. destruct Hu as [_ Hu]. specialize (Hub m Hm). apply (Hrec 0). intros j _ Hj.
      pose proof (Hd _ (Hact j)). assert (d = e) as -> by lia. rewrite He in Hp. by apply (other_ne p). }
    assert (HnA : ∀ r m, N ≤ m → π m ∈ A → rank (π m) < r → False).
    { induction r as [|r IH]; intros m Hm Hi Hr; [lia|]. destruct (Hplay m) as (_ & Hs & Hf).
      destruct (Htowards _ Hi) as [_ [?|Ht]]; [by apply (HnU m)|].
      assert (Hc : closer w p A rank (π m) (π (S m))).
      { destruct (decide (owner g (π m) = p)) as [Ho|Ho]; [|by apply Ht].
        rewrite (Hf Ho). unfold taking. rewrite decide_True by done.
        rewrite decide_False by (by apply HnU). by apply pick_closer. }
      destruct Hc as [Hc|[? ?]]; [destruct (Hplay (S m)); congruence|]. apply (IH (S m)); [lia|done|lia]. }
    assert (HnA' : ∀ m, N ≤ m → π m ∉ A) by (intros m Hm Hi; eapply HnA; [done..|apply Nat.lt_succ_diag_r]).
    apply (wi_play _ _ _ _ _ Hσ (λ m, π (m + N))).
    + intros m. destruct (Hplay (m + N)) as (_ & Hs & Hf). simpl. split_and!; [|done|].
      * apply sub_none, elem_of_difference. split; [done|]. apply HnA'. lia.
      * intros Ho. rewrite (Hf Ho). unfold taking. rewrite decide_False; [done|]. apply HnA'. lia.
    + apply Hall, elem_of_difference. split; [done|]. apply HnA'. lia.
    + apply lost_suffix. by exists e, N.
Qed.

Lemma takes_all : solved g active w w1.
Proof using All.
  destruct (de_wins _ _ _ Hdec p) as [σ Hσ]. split_and!.
  - apply (decides_grow g w p active (taking σ)); [apply taken_lookup|apply active_none|by apply taking_wins].
  - intros i Hi. by rewrite taken_lookup, decide_False.
  - intros i Hi. rewrite taken_lookup, decide_True by done. by eexists.
Qed.
End takes_all.

(** The opponent wins part of the rest of the subgame, and what it attracts. *)
Section takes_back.
Context (B U : gset nat) (rank' : nat → nat).
Let q := other_player p.
Context (HU : ∀ i, i ∈ U ↔ i ∈ active ∖ A ∧ w1 !! i = Some q) (HUB : U ⊆ B) (HB : B ⊆ active).
Context (Htowards : towards g w q U B rank').

Lemma back_lookup i : resolve g B q w !! i = if decide (i ∈ B) then Some q else w !! i.
Proof using All. apply resolve_lookup. intros j Hj. by apply active_lt, HB. Qed.

Lemma sub_opponent i : w1 !! i = Some q → i ∈ U ∨ w !! i = Some q.
Proof using All.
  intros Hi. destruct (decide (i ∈ active ∖ A)); [left; by apply HU|right].
  rewrite sub_lookup in Hi by done. case_decide; [|done]. exfalso. apply (other_ne p). by injection Hi.
Qed.

Lemma back_sub i : w1 !! i = Some q → resolve g B q w !! i = Some q.
Proof using All.
  intros Hi. rewrite back_lookup. destruct (sub_opponent i Hi) as [?|Hw]; [rewrite decide_True; [done|set_solver]|].
  by case_decide.
Qed.

Lemma back_closer i s : closer w q B rank' i s → resolve g B q w !! s = Some q.
Proof using All. rewrite back_lookup. intros [?|[? _]]; by case_decide. Qed.

Definition taking_back (σ : nat → nat) (i : nat) : nat :=
  if decide (i ∈ U) then σ i else pick g (closer_b w q B rank' i) i.

Lemma taking_back_wins σ : wins g (resolve g A p w) q (λ i, w1 !! i = Some q) σ →
  wins g w q (λ i, resolve g B q w !! i = Some q) (taking_back σ).
Proof using All.
  intros Hσ.
  assert (HiB : ∀ i, resolve g B q w !! i = Some q → w !! i = None → i ∈ B).
  { intros i. rewrite back_lookup. case_decide; [done|congruence]. }
  assert (HiU : ∀ i, i ∈ U → w1 !! i = Some q ∧ resolve g A p w !! i = None).
  { intros i [? ?]%HU. split; [done|]. by apply sub_none. }
  split.
  - intros i p' Hi Hk. rewrite back_lookup in Hi. case_decide as E; [|congruence].
    by rewrite (active_none i (HB i E)) in Hk.
  - intros i Hi Hn Ho. unfold taking_back. destruct (decide (i ∈ U)) as [Hu|Hu].
    + destruct (HiU i Hu) as [Hq Hk]. destruct (wi_own _ _ _ _ _ Hσ i Hq Hk Ho). split; [done|by apply back_sub].
    + destruct (Htowards i (HiB i Hi Hn)) as [_ [?|Ht]]; [done|]. rewrite decide_True in Ht by done.
      destruct (pick_closer g w q B rank' i Ht). split; [done|by apply (back_closer i)].
  - intros i s Hi Hn Ho Hs. destruct (decide (i ∈ U)) as [Hu|Hu].
    + destruct (HiU i Hu) as [Hq Hk]. by apply back_sub, (wi_opp _ _ _ _ _ Hσ i).
    + destruct (Htowards i (HiB i Hi Hn)) as [_ [?|Ht]]; [done|]. rewrite decide_False in Ht by done.
      by apply (back_closer i), Ht.
  - intros π Hplay H0 Hlost.
    (* Once among the positions the subgame gives to the opponent, the play stays there. *)
    assert (HnU : ∀ m, π m ∉ U).
    { intros m Hm. assert (Hst : ∀ j, π (j + m) ∈ U).
      { induction j as [|j IH]; [done|]. destruct (Hplay (j + m)) as (_ & Hs & Hf), (HiU _ IH) as [Hq Hk].
        assert (Hw : w1 !! π (S (j + m)) = Some q).
        { destruct (decide (owner g (π (j + m)) = q)) as [Ho|Ho]; [|by apply (wi_opp _ _ _ _ _ Hσ (π (j + m)))].
          rewrite (Hf Ho). unfold taking_back. rewrite decide_True by done. by apply (wi_own _ _ _ _ _ Hσ). }
        destruct (sub_opponent _ Hw) as [?|Hc]; [done|]. destruct (Hplay (S (j + m))); congruence. }
      apply (wi_play _ _ _ _ _ Hσ (λ j, π (j + m))); [|by apply HiU, (Hst 0)|by apply lost_suffix].
      intros j. destruct (Hplay (j + m)) as (_ & Hs & Hf). split_and!; [by apply HiU|done|].
      intros Ho. simpl. rewrite (Hf Ho). unfold taking_back. by rewrite decide_True. }
    assert (HnB : ∀ r m, π m ∈ B → rank' (π m) < r → False).
    { induction r as [|r IH]; intros m Hi Hr; [lia|]. destruct (Hplay m) as (_ & Hs & Hf).
      destruct (Htowards _ Hi) as [_ [?|Ht]]; [by apply (HnU m)|].
      assert (Hc : closer w q B rank' (π m) (π (S m))).
      { destruct (decide (owner g (π m) = q)) as [Ho|Ho]; [|by apply Ht].
        rewrite (Hf Ho). unfold taking_back. rewrite decide_False by done. by apply pick_closer. }
      destruct Hc as [Hc|[? ?]]; [destruct (Hplay (S m)); congruence|]. apply (IH (S m)); [done|lia]. }
    apply (HnB (S (rank' (π 0))) 0); [|lia]. apply HiB; [done|apply Hplay].
Qed.

Lemma takes_back : decides g w (resolve g B q w).
Proof using All.
  destruct (de_wins _ _ _ Hdec q) as [σ Hσ].
  apply (decides_grow g w q B (taking_back σ)); [apply back_lookup| |by apply taking_back_wins].
  intros i Hi. by apply active_none, HB.
Qed.
End takes_back.
End recursion.

(** ** The solver *)

Section solver_correct.
Context (g : Game3v).
Let n := position_count g.

Lemma open_given active A p w : open g active w → A ⊆ active → open g (active ∖ A) (resolve g A p w).
Proof using Type.
  intros Ho HA i. rewrite elem_of_difference, (Ho i), resolve_lookup by (intros j Hj; by apply Ho, HA).
  case_decide; [|tauto]. split; [tauto|]. by intros [_ [=]].
Qed.

(** Rolling back restores the winners the recursion started from. *)
Lemma rolled_back active A p w sub : open g active w → A ⊆ active →
  same_outside (active ∖ A) (resolve g A p w) sub →
  unresolve g (active ∖ A) (roll_back (map (λ pid, (pid, w !! pid)) (ascending g A)) sub) = w.
Proof using Type.
  intros Ho HA Hout. apply map_eq. intros i.
  rewrite unresolve_lookup, roll_back_lookup by (intros j Hj; apply Ho; set_solver).
  destruct (decide (i ∈ active ∖ A)) as [Hi|Hi].
  { apply elem_of_difference in Hi as [Hi _]. symmetry. by apply Ho. }
  destruct (decide (i ∈ A)) as [HiA|HiA]; [done|].
  rewrite Hout, resolve_lookup by (done || (intros j Hj; by apply Ho, HA)). by rewrite decide_False.
Qed.

Lemma rest_smaller (active A T : gset nat) : T ∩ active ⊆ A → T ∩ active ≠ ∅ → size (active ∖ A) < size active.
Proof using Type.
  intros HT Hne. apply set_choose_L in Hne as [i Hi]. apply subset_size. split; [set_solver|].
  intros H. specialize (H i). set_solver.
Qed.

(** Solving what is left after deciding some positions. *)
Lemma solved_rest active0 w0 active w w' :
  open g active0 w0 → open g active w → active ⊆ active0 → decides g w0 w → same_outside active0 w0 w →
  solved g active w w' → solved g active0 w0 w'.
Proof using Type.
  intros Ho0 Ho Hsub Hd0 Hf0 (Hd & Hf & Htot). split_and!; [by eapply decides_trans| |].
  - intros i Hi. rewrite Hf by (by intros ?%Hsub). by apply Hf0.
  - intros i Hi. destruct (decide (i ∈ active)) as [|Hn]; [auto|]. rewrite Hf by done.
    destruct (w !! i) eqn:E; [by eexists|]. destruct Hn. apply Ho. split; [by apply Ho0|done].
Qed.

Context (Hg : game_ok g).

(** The opponent keeps what it takes back, and the rest is solved. *)
Lemma solved_back active A B U w w1 w' p rank' :
  open g active w → A ⊆ active → solved g (active ∖ A) (resolve g A p w) w1 →
  (∀ i, i ∈ U ↔ i ∈ active ∖ A ∧ w1 !! i = Some (other_player p)) → U ∩ active ⊆ B → B ⊆ active →
  towards g w (other_player p) U B rank' →
  solved g (active ∖ B) (resolve g B (other_player p) w) w' → solved g active w w'.
Proof using Hg.
  intros Ho HA (Hdec & Hout & _) HU HUB HB Ht.
  apply solved_rest; [done|by apply open_given|set_solver| |].
  - apply (takes_back g Hg active A w w1 p) with U rank'; try done.
    intros i Hi. apply HUB. pose proof (proj1 (HU i) Hi). set_solver.
  - intros i Hi. rewrite resolve_lookup by (intros j Hj; by apply Ho, HB). rewrite decide_False; [done|set_solver].
Qed.

Lemma zielonka_spec fuel active w : size active < fuel → open g active w →
  ∃ w', zielonka fuel g active w = Some w' ∧ solved g active w w'.
Proof using Hg.
  revert active w. induction fuel as [|k IH]; intros active0 w0 Hk Ho0; [lia|]. cbn [zielonka].
  destruct (propagate_spec g (S (size active0)) active0 w0)
    as (active & w & -> & Ho & Hd0 & Hf0 & Hsub & Hun); [lia|done|]. cbn [mbind option_bind].
  assert (Hlt : ∀ i, i ∈ active → i < n) by (by intros i [??]%Ho).
  pose proof (subseteq_size _ _ Hsub) as Hsz.
  lazymatch goal with |- ∃ w', ?res = _ ∧ _ =>
    enough (∃ w', res = Some w' ∧ solved g active w w') as (w' & Hw & Hs)
      by (exists w'; split; [exact Hw|by apply (solved_rest active0 w0 active w)]) end.
  case_bool_decide as He.
  { exists w. split; [done|]. split; [apply decides_refl|]. split; [done|]. rewrite He. set_solver. }
  destruct (highest_priority g active Hlt He) as [Hd (i0 & Hi0 & Hp0)].
  set (d := max_priority g active) in *. set (p := if Nat.even d then Existential else Universal).
  set (U := filter (λ pid, priority g pid = d) active).
  assert (HU : ∀ i, i ∈ U ↔ i ∈ active ∧ priority g i = d) by (intros i; unfold U; rewrite elem_of_filter; tauto).
  destruct (attractor_spec g active w p U Hlt) as (A & -> & HUA & HA & rank & Ht). cbn [mbind option_bind].
  assert (Htake : ∀ sub, decides g (resolve g A p w) sub → same_outside (active ∖ A) (resolve g A p w) sub →
    (∀ i, i ∈ active ∖ A → sub !! i = Some p) → solved g active w sub).
  { intros sub Hdec Hout. by apply (takes_all g Hg active A w sub p rank Ho HA Hdec Hout d U). }
  case_bool_decide as Hr.
  { eexists. split; [done|]. apply Htake; [apply decides_refl|done|]. rewrite Hr. set_solver. }
  assert (Hsm : size (active ∖ A) < size active) by (apply (rest_smaller active A U); set_solver).
  destruct (IH (active ∖ A) (resolve g A p w)) as (sub & -> & Hsub'); [lia|by apply open_given|].
  cbn [mbind option_bind]. pose proof Hsub' as (Hdec & Hout & Htot).
  set (W := filter (λ pid, sub !! pid = Some (other_player p)) (active ∖ A)).
  assert (HW : ∀ i, i ∈ W ↔ i ∈ active ∖ A ∧ sub !! i = Some (other_player p)).
  { intros i. unfold W. rewrite elem_of_filter. tauto. }
  case_bool_decide as Hwe.
  { exists sub. split; [done|]. apply Htake; [done..|]. intros i Hi. destruct (Htot i Hi) as [q Hq].
    rewrite Hq. f_equal. destruct (decide (q = p)) as [|Hne%other_of]; [done|exfalso]. subst q.
    apply (not_elem_of_empty (C := gset nat) i). rewrite <-Hwe. by apply HW. }
  rewrite (rolled_back active A p w sub) by done.
  destruct (attractor_spec g active w (other_player p) W Hlt) as (B & -> & HWB & HB & rank' & Ht').
  cbn [mbind option_bind].
  assert (HsmB : size (active ∖ B) < size active).
  { apply (rest_smaller active B W); [done|]. apply set_choose_L in Hwe as [i Hi].
    pose proof (proj1 (HW i) Hi). set_solver. }
  destruct (IH (active ∖ B) (resolve g B (other_player p) w)) as (w' & -> & Hw');
    [lia|by apply open_given|]. exists w'. split; [done|].
  by apply (solved_back active A B W w sub w' p rank').
Qed.

Lemma known_lookup leaf i p : known_leaves g leaf !! i = Some p ↔ i < n ∧ leaf !! i = Some p.
Proof using Type. unfold known_leaves. rewrite map_lookup_filter_Some. simpl. fold n. tauto. Qed.

Lemma solve_2v_solved leaf : ∃ w, solve_2v g leaf = Some w ∧ decides g (known_leaves g leaf) w ∧
  ∀ i, is_Some (w !! i) ↔ i < n.
Proof using Hg.
  unfold solve_2v. set (known := known_leaves g leaf).
  set (active := list_to_set (List.filter (λ i, negb (resolved known i)) (seq 0 (position_count g)))).
  assert (Ho : open g active known).
  { intros i. unfold active. rewrite elem_of_list_to_set, elem_of_filterb, elem_of_seq, negb_true_iff. fold n.
    unfold resolved. rewrite bool_decide_eq_false, <-eq_None_not_Some. split; intros [? ?]; (split; [lia|done]). }
  destruct (propagate_spec g (S (size active)) active known)
    as (active' & w & -> & Ho' & Hd & Hf & Hsub & _); [lia|done|]. cbn [mbind option_bind].
  assert (Hsz : size active' ≤ n).
  { rewrite <-(length_seq n 0), <-(size_list_to_set (C := gset nat)) by apply NoDup_seq.
    apply subseteq_size. intros i [Hi _]%Ho'. apply elem_of_list_to_set, elem_of_seq. fold n in Hi. lia. }
  destruct (zielonka_spec (S (position_count g)) active' w) as (w' & -> & Hs); [fold n; lia|done|].
  destruct (solved_rest active known active' w w') as (Hd' & Hf' & Htot); [done..|].
  exists w'. split_and!; [done..|]. intros i.
  destruct (decide (i ∈ active)) as [Hi|Hi].
  - split; [intros _; by apply Ho|intros _; by apply Htot].
  - rewrite Hf' by done. destruct (known !! i) as [p|] eqn:E.
    + apply known_lookup in E as [? _]. split; [done|by eexists].
    + split; [by intros []|]. intros Hlt. by destruct Hi; apply Ho.
Qed.
End solver_correct.

(** * Properties *)

(** C6: the solver of the three-valued game is correct.  On every game whose
    moves lead to positions [solve_2v] returns, within the rounds and fuel given
    to its loops; it gives a winner to every position and to nothing else, keeps
    the winners of the leaves, and a position is given to a player exactly when
    that player has a positional strategy from it: one that keeps the play in a
    set where plays end only at leaves of that player or with the opponent
    unable to move, and where the opponent's parity is never the highest
    priority seen for ever. *)
Theorem solve_2v_correct g leaf :
  game_ok g →
  ∃ w, solve_2v g leaf = Some w ∧ (∀ i, is_Some (w !! i) ↔ i < position_count g) ∧
    (∀ i p, i < position_count g → leaf !! i = Some p → w !! i = Some p) ∧
    (∀ q, ∃ σ, wins g (known_leaves g leaf) q (λ i, w !! i = Some q) σ) ∧
    ∀ i q, i < position_count g →
      w !! i = Some q ↔ ∃ W σ, wins g (known_leaves g leaf) q W σ ∧ W i.
Proof.
  intros Hg. destruct (solve_2v_solved g Hg leaf) as (w & -> & [Hsub Hw] & Htot).
  exists w. split_and!; [done|done| |done|].
  - intros i p Hi Hl. eapply lookup_weaken; [by apply known_lookup|done].
  - intros i q Hi. split; [intros E; destruct (Hw q) as [σ Hσ]; by exists (λ i, w !! i = Some q), σ|].
    intros (W & σ & HW & HWi). destruct (proj2 (Htot i) Hi) as [p Hp]. rewrite Hp. f_equal.
    destruct (decide (p = q)) as [|Hne%other_of]; [done|exfalso]. subst p.
    destruct (Hw (other_player q)) as [τ Hτ]. by destruct (one_winner g _ q W _ σ τ i HW Hτ).
Qed.

(** A position of each player on a cycle, and a leaf. *)
Definition small_game : Game3v :=
  {| positions := [{| pos_state := 0; pos_node := 0; pos_owner := Existential; pos_priority := 1 |};
                   {| pos_state := 0; pos_node := 1; pos_owner := Universal; pos_priority := 2 |};
                   {| pos_state := 0; pos_node := 2; pos_owner := Universal; pos_priority := 0 |}];
     successors := [[1]; [0; 2]; []]; edge_modalities := [[E_Sharp]; [E_Sharp; E_MayOnly]; []];
     index := ∅ |}.

Lemma small_game_ok : game_ok small_game.
Proof.
  split; [done..| |].
  - intros [|[|[|i]]] j; cbn; rewrite ?elem_of_cons, ?elem_of_nil; naive_solver lia.
  - by intros [|[|[|i]]].
Qed.

Lemma solve_2v_correct_witness :
  let leaf : Winners := {[2 := Existential]} in
  game_ok small_game ∧ solve_2v small_game leaf = Some {[0 := Existential; 1 := Existential; 2 := Existential]} ∧
  ∃ w, solve_2v small_game leaf = Some w ∧ (∀ i, is_Some (w !! i) ↔ i < 3) ∧
    (∀ i p, i < 3 → leaf !! i = Some p → w !! i = Some p) ∧
    (∀ q, ∃ σ, wins small_game (known_leaves small_game leaf) q (λ i, w !! i = Some q) σ) ∧
    ∀ i q, i < 3 → w !! i = Some q ↔ ∃ W σ, wins small_game (known_leaves small_game leaf) q W σ ∧ W i.
Proof.
  intros leaf. split; [apply small_game_ok|]. split; [by vm_compute|].
  apply (solve_2v_correct small_game leaf), small_game_ok.
Defined.
