(* ===== verification/Meaning3v.v ===== *)
(** What the three-valued game decides.

    On a formula without negation and guards whose fixpoints do not alternate,
    the game built for a system is won by the existential player exactly where
    the formula holds ([game_meaning]), and the game without the may-only edges
    where it holds of the system without its may-only transitions ([must_part]).
    [solve_3v] therefore says whether the two agree.  The last part records where
    the game leaves the evaluator: nested fixpoints of different kinds, negation,
    guards, labels, and what a definite verdict is worth. *)
From Stdlib Require Import Classical.
From S2P Require Import Prelude Formula Trit Clts Modal Evaluator Semantics Domains Checking Verdicts Divergences Transforms ParityGame GameBuild GameCorrect Game3v Solve3v Solve3vCorrect.

(** ** The system without its may-only transitions *)

Definition must_transition (t : Transition) : bool := has_must (modality t).

Definition must_part (c : Clts) : Clts :=
  let rows := map (List.filter must_transition) (outgoing_rows c) in
  {| state_names := state_names c; state_map := state_map c; initial_states := initial_states c;
     outgoing_rows := rows; incoming_rows := map (List.filter must_transition) (incoming_rows c);
     labels := labels c; variables := variables c; state_variable_ids := state_variable_ids c;
     state_valuations := state_valuations c; state_3valued_predicates := state_3valued_predicates c;
     label_controllability := label_controllability c; uncontrollable_alphabet := uncontrollable_alphabet c;
     controllable_alphabet := controllable_alphabet c; internal_alphabet := internal_alphabet c;
     uncontrollable_groups := map (group_transitions (uncontrollable_alphabet c)) rows |}.

Lemma must_outgoing c s : outgoing (must_part c) s = List.filter must_transition (outgoing c s).
Proof. unfold outgoing. simpl. rewrite list_lookup_fmap. by destruct (outgoing_rows c !! s). Qed.

Lemma must_incoming c s : incoming (must_part c) s = List.filter must_transition (incoming c s).
Proof. unfold incoming. simpl. rewrite list_lookup_fmap. by destruct (incoming_rows c !! s). Qed.

Lemma must_part_ok c : clts_ok c → clts_ok (must_part c).
Proof.
  intros [H1 H2 H3 H4 H5 H6]. split.
  - simpl. by rewrite length_map.
  - simpl. by rewrite length_map.
  - intros s t. rewrite must_outgoing, elem_of_filterb. intros [? _]. by eapply H3.
  - intros s s' ls m. rewrite must_outgoing, must_incoming, !elem_of_filterb, H4. tauto.
  - intros s t l. rewrite must_outgoing, elem_of_filterb. intros [? _]. by eapply H5.
  - done.
Qed.

Lemma no_hyper c s t : clts_ok c → clts_has_hyper_must_transitions c = false → t ∈ outgoing c s →
  ∀ ts, modality t ≠ MustHyperOnly ts.
Proof.
  intros Hc Hno Ht ts Hm. enough (clts_has_hyper_must_transitions c = true) by congruence.
  apply existsb_spec. exists s. split; [apply elem_of_seq; pose proof (outgoing_in_range c s t Hc Ht); lia|].
  apply existsb_spec. exists t. by rewrite Hm.
Qed.

(** ** The moves of the two games *)

Section boards.
Context (f : Formula).
Let L := length (nodes f).
Abbreviation pos := (pos f).

(** The game plays [f] on [c]. *)
Record board (vp : gmap FormulaVarId nat) (c : Clts) (g : Game3v) : Prop := {
  bd_ok : game_ok g;
  bd_count : position_count g = state_count c * L;
  bd_position : ∀ s id n, s < state_count c → nodes f !! id = Some n →
    owner g (pos s id) = position_owner n ∧ priority g (pos s id) = position_priority n vp;
  bd_local : ∀ s id n, s < state_count c → nodes f !! id = Some n → (∀ k gd t, n ≠ NModal k gd t) →
    ∀ j, j ∈ succs g (pos s id) ↔ ∃ a, a ∈ local_targets f n ∧ j = pos s a;
  bd_modal : ∀ s id k gd a, s < state_count c → nodes f !! id = Some (NModal k gd a) →
    ∀ j, j ∈ succs g (pos s id) ↔ ∃ t, t ∈ outgoing c s ∧ j = pos (target t) a
}.

Section built_boards.
Context (c : Clts) (vp : gmap FormulaVarId nat) (g : Game3v).
Context (Hvp : compute_priorities f = Some vp) (Hg : build_game f c = Some g).
Context (Hwf : wf_arena (nodes f)) (Hc : clts_ok c).

Lemma node_target_lt id n a : nodes f !! id = Some n → a ∈ children n → a < L.
Proof using Hwf.
  intros Hn Ha. pose proof (lookup_lt_Some _ _ _ Hn) as Hid. fold L in Hid.
  pose proof (Hwf id n Hn) as Hf. rewrite Forall_forall in Hf. specialize (Hf a Ha). lia.
Qed.

Lemma row_cases s id n : s < state_count c → nodes f !! id = Some n →
  (∀ k gd t, n ≠ NModal k gd t) ∧ succs g (pos s id) = map (pos s) (local_targets f n) ∧
    mods g (pos s id) = map (λ _, E_Sharp) (local_targets f n) ∨
  ∃ k gd a, n = NModal k gd a ∧ lists_moves f a (outgoing c s) (succs g (pos s id), mods g (pos s id)).
Proof using All.
  intros Hs Hn. destruct (built_moves f c vp g Hvp Hg s id n Hs Hn) as [-> ->].
  destruct (classic (∃ k gd a, n = NModal k gd a)) as [(k & gd & a & ->)|Hno].
  - right. exists k, gd, a. split; [done|]. rewrite <-surjective_pairing.
    apply (modal_moves f c vp g Hvp Hg Hwf Hc). apply (node_target_lt id _ a Hn). by left.
  - assert (Hnm : ∀ k gd t, n ≠ NModal k gd t) by (intros k gd t ->; apply Hno; eauto).
    left. split; [done|]. by rewrite (local_row f c vp g Hvp Hg Hwf Hc s id n Hs Hn Hnm).
Qed.

Lemma built_ok : game_ok g.
Proof using All.
  destruct (built_parts f c vp g Hvp Hg) as (_ & _ & Hsu & Hmo).
  assert (Hout : ∀ i, position_count g ≤ i → succs g i = [] ∧ mods g i = []).
  { intros i Hi. unfold succs, mods. rewrite Hsu, Hmo, !lookup_ge_None_2; [done|..]; by rewrite !length_map. }
  assert (Hrow : ∀ i, (∀ j, j ∈ succs g i → j < position_count g) ∧ length (mods g i) = length (succs g i)).
  { intros i. destruct (decide (i < position_count g)) as [Hi|Hi].
    2: { destruct (Hout i) as [-> ->]; [lia|]. split; [by intros ? ?%not_elem_of_nil|done]. }
    destruct (pos_cases f c vp g Hvp Hg i Hi) as (s & id & -> & Hs & Hid).
    destruct (lookup_lt_is_Some_2 (nodes f) id Hid) as [n Hn].
    destruct (row_cases s id n Hs Hn) as [(_ & -> & ->)|(k & gd & a & -> & Hl)].
    - split; [|by rewrite !length_map]. intros j (b & -> & Hb)%list_elem_of_fmap.
      apply (pos_lt f c vp g Hvp Hg); [done|]. by apply (local_target_lt f c Hwf id n).
    - split; [|symmetry; apply (lm_parallel _ _ _ _ Hl)]. intros j (t & Ht & ->)%(lm_target _ _ _ _ Hl).
      apply (pos_lt f c vp g Hvp Hg); [by apply (ok_target c Hc s)|].
      apply (node_target_lt id _ a Hn). by left. }
  split; [by rewrite Hsu, !length_map|by rewrite Hmo, !length_map|apply Hrow|apply Hrow].
Qed.

Lemma built_board : board vp c g.
Proof using All.
  split; [apply built_ok|apply (built_size f c vp g Hvp Hg)|..].
  - intros s id n Hs Hn. unfold owner, priority. by rewrite (built_position f c vp g Hvp Hg s id n).
  - intros s id n Hs Hn Hnm j. destruct (row_cases s id n Hs Hn) as [(_ & -> & _)|(k & gd & a & -> & _)].
    + rewrite list_elem_of_fmap. naive_solver.
    + by destruct (Hnm k gd a).
  - intros s id k gd a Hs Hn j. destruct (row_cases s id _ Hs Hn) as [(Hnm & _)|(k' & gd' & a' & E & Hl)].
    + by destruct (Hnm k gd a).
    + injection E as <- <- <-. apply (lm_target _ _ _ _ Hl).
Qed.

(** ** Removing the may-only edges *)

Lemma must_row i : i < position_count g →
  succs (remove_may_only_edges g) i = map fst (must_moves (succs g i, mods g i)) ∧
  mods (remove_may_only_edges g) i = map snd (must_moves (succs g i, mods g i)).
Proof using Type.
  intros Hi. unfold succs at 1, mods at 2. cbn [successors edge_modalities remove_may_only_edges].
  by rewrite !list_lookup_fmap, lookup_seq_lt by done.
Qed.

Lemma must_row_elem i j : i < position_count g →
  j ∈ succs (remove_may_only_edges g) i ↔
  ∃ k e, succs g i !! k = Some j ∧ mods g i !! k = Some e ∧ e ≠ E_MayOnly.
Proof using Type.
  intros Hi. rewrite (proj1 (must_row i Hi)), list_elem_of_fmap. unfold must_moves. simpl. split.
  - intros ([j' e] & -> & [Hin Hm]%elem_of_filterb). apply negb_true_iff, bool_decide_eq_false in Hm.
    apply elem_of_lookup_zip_with in Hin as (k & ? & ? & [= <- <-] & ? & ?). eauto.
  - intros (k & e & Hj & He & Hm). exists (j, e). split; [done|]. apply elem_of_filterb. split.
    + apply elem_of_lookup_zip_with. eauto 10.
    + by apply negb_true_iff, bool_decide_eq_false.
Qed.

Lemma must_game_ok : game_ok (remove_may_only_edges g).
Proof using All.
  pose proof built_ok as Hok. split.
  - cbn. by rewrite !length_map, length_seq.
  - cbn. by rewrite !length_map, length_seq.
  - intros i j Hj. destruct (decide (i < position_count g)) as [Hi|Hi].
    + apply must_row_elem in Hj as (k & e & Hj & _); [|done].
      apply (go_range g Hok i). by eapply list_elem_of_lookup_2.
    + unfold succs in Hj. cbn in Hj. rewrite lookup_ge_None_2 in Hj; [by apply not_elem_of_nil in Hj|].
      rewrite !length_map, length_seq. lia.
  - intros i. destruct (decide (i < position_count g)) as [Hi|Hi].
    + destruct (must_row i Hi) as [-> ->]. by rewrite !length_map.
    + unfold succs, mods. cbn. rewrite !lookup_ge_None_2; [done|..]; rewrite !length_map, length_seq; lia.
Qed.

Lemma must_board : clts_has_hyper_must_transitions c = false →
  board vp (must_part c) (remove_may_only_edges g).
Proof using All.
  intros Hno. pose proof built_board as Hb.
  assert (Hi : ∀ s id n, s < state_count c → nodes f !! id = Some n → pos s id < position_count g).
  { intros s id n Hs Hn. apply (pos_lt f c vp g Hvp Hg); [done|]. by eapply lookup_lt_Some. }
  split; [apply must_game_ok|apply Hb|apply Hb|..].
  - intros s id n Hs Hn Hnm j. rewrite must_row_elem by eauto.
    destruct (row_cases s id n Hs Hn) as [(_ & -> & ->)|(k & gd & a & -> & _)]; [|by destruct (Hnm k gd a)].
    setoid_rewrite list_lookup_fmap. split.
    + intros (k & e & Hk & _). destruct (local_targets f n !! k) as [a|] eqn:E; [|done]. simpl in Hk. simplify_eq.
      exists a. split; [by eapply list_elem_of_lookup_2|done].
    + intros (a & [k Hk]%list_elem_of_lookup_1 & ->). exists k, E_Sharp. by rewrite Hk.
  - intros s id k gd a Hs Hn j. rewrite must_row_elem by eauto. setoid_rewrite must_outgoing.
    setoid_rewrite elem_of_filterb. destruct (row_cases s id _ Hs Hn) as [(Hnm & _)|(k' & gd' & a' & E & Hl)].
    { by destruct (Hnm k gd a). }
    injection E as <- <- <-. split.
    + intros (i & e & Hj & He & Hm). destruct (lm_modality _ _ _ _ Hl i j e Hj He) as (t & Ht & -> & Hte).
      exists t. split_and!; [done| |done]. unfold must_transition. by destruct (modality t); simpl in Hte; subst e.
    + intros (t & [Ht Hm] & ->).
      assert (Hin : pos (target t) a ∈ succs g (pos s id)) by (apply (lm_target _ _ _ _ Hl); by exists t).
      apply list_elem_of_lookup_1 in Hin as [i Hj]. exists i, E_Sharp. split_and!; [done| |done].
      apply (lm_sharp _ _ _ _ Hl i _ t Hj Ht); [done|]. unfold must_transition in Hm.
      destruct (modality t) as [| |ts] eqn:E; [done..|]. by destruct (no_hyper c s t Hc Hno Ht ts).
Qed.
End built_boards.
End boards.

(** ** The fragment *)

(** No negation, and every modality over all transitions. *)
Fixpoint basic (t : Tree) : bool :=
  match t with
  | TTrue | TFalse | TPred _ | TVar _ => true
  | TNot _ => false
  | TAnd l r | TOr l r => basic l && basic r
  | TModal _ gd t => bool_decide (gd = Guard_default) && basic t
  | TFix _ _ t => basic t
  end.

(** The variables free in a fixpoint are bound by fixpoints of its kind. *)
Fixpoint alternation_free (bound : list (FormulaVarId * FixpointKind)) (t : Tree) : bool :=
  match t with
  | TTrue | TFalse | TPred _ | TVar _ => true
  | TNot t | TModal _ _ t => alternation_free bound t
  | TAnd l r | TOr l r => alternation_free bound l && alternation_free bound r
  | TFix k v t =>
      forallb (λ x, bool_decide (x = v) || bool_decide ((x, k) ∈ bound)) (elements (free_vars t))
      && alternation_free ((v, k) :: bound) t
  end.

Definition binder_var (n : Node) : option FormulaVarId :=
  match n with NMu v _ | NNu v _ => Some v | _ => None end.

(** No two nodes of the arena, reachable or not, bind the same variable. *)
Definition binds_once (f : Formula) : Prop :=
  ∀ id id' n n' v, nodes f !! id = Some n → nodes f !! id' = Some n' →
    binder_var n = Some v → binder_var n' = Some v → id = id'.

Definition fix_node (k : FixpointKind) (v : FormulaVarId) (a : NodeId) : Node :=
  match k with Least => NMu v a | Greatest => NNu v a end.

Lemma fix_node_inj k k' v v' a a' : fix_node k v a = fix_node k' v' a' → k = k'.
Proof. by destruct k, k'. Qed.

Lemma fix_node_priority k v a vp : position_priority (fix_node k v a) vp = default 0 (vp !! v).
Proof. by destruct k. Qed.

(** The player an endless repetition of the fixpoint favours. *)
Definition fix_player (k : FixpointKind) : Player :=
  match k with Greatest => Existential | Least => Universal end.

(** [P] for the existential player, its negation for the other. *)
Definition side (q : Player) (P : Prop) : Prop := match q with Existential => P | Universal => ¬ P end.

Lemma side_iff q P Q : (P ↔ Q) → side q P ↔ side q Q.
Proof. destruct q; simpl; tauto. Qed.

Lemma side_and q P Q : side q (P ∧ Q) →
  if decide (Universal = q) then side q P ∨ side q Q else side q P ∧ side q Q.
Proof. destruct q; simpl; [done|]. intros H. by apply not_and_or. Qed.

Lemma side_or q P Q : side q (P ∨ Q) →
  if decide (Existential = q) then side q P ∨ side q Q else side q P ∧ side q Q.
Proof. destruct q; simpl; [done|]. intros H. by apply not_or_and. Qed.

Lemma side_ex {A} q (R : A → Prop) (P : A → Prop) : side q (∃ x, R x ∧ P x) →
  if decide (Existential = q) then ∃ x, R x ∧ side q (P x) else ∀ x, R x → side q (P x).
Proof. destruct q; simpl; [done|]. intros H x Hx Hp. apply H. by exists x. Qed.

Lemma side_all {A} q (R : A → Prop) (P : A → Prop) : side q (∀ x, R x → P x) →
  if decide (Universal = q) then ∃ x, R x ∧ side q (P x) else ∀ x, R x → side q (P x).
Proof.
  destruct q; simpl; [done|]. intros H. apply not_all_ex_not in H as [x H]. exists x. by apply imply_to_and.
Qed.

Lemma basic_nnf t : basic t = true → is_nnf t = true.
Proof.
  induction t as [| |p|v|t IH|l IHl r IHr|l IHl r IHr|k gd t IH|k v t IH]; simpl; try done;
    rewrite ?andb_true_iff; naive_solver.
Qed.

Section unfolding.
Context (c : Clts) (e : EvalEnvironment) (Hc : clts_ok c).

Lemma sat_bind_mono v b η (S S' : nat → Prop) s : basic b = true → s < state_count c →
  (∀ s', s' < state_count c → S s' → S' s') → sat c e b (upd η v S) s → sat c e b (upd η v S') s.
Proof using Hc.
  intros Hb Hs HS. set (x := mk_ctx c e EvaluationOptions_default).
  apply (sat_mono x b true v (upd η v S) (upd η v S') s Hc); [by apply is_nnf_positive, basic_nnf| |done].
  split.
  - intros s' Hs'. unfold upd. rewrite !decide_True by done. by apply HS.
  - intros w Hw. unfold upd. rewrite !decide_False by done. split; apply holds_on_refl.
Qed.

(** A fixpoint is its unfolding. *)
Lemma sat_unfold k v b η s : basic b = true → s < state_count c →
  sat c e (TFix k v b) η s ↔ sat c e b (upd η v (sat c e (TFix k v b) η)) s.
Proof using Hc.
  intros Hb. revert s. destruct k.
  - assert (Hin : ∀ s, s < state_count c →
      sat c e b (upd η v (sat c e (TFix Least v b) η)) s → sat c e (TFix Least v b) η s).
    { intros s Hs Hsat S HS. apply HS; [done|]. revert Hsat. apply sat_bind_mono; [done..|].
      intros s' _ H. by apply H. }
    intros s Hs. split; [|by apply Hin]. intros Hf. apply (Hf (sat c e b (upd η v (sat c e (TFix Least v b) η)))).
    intros s' Hs'. apply sat_bind_mono; [done..|]. by apply Hin.
  - assert (Hout : ∀ s, s < state_count c →
      sat c e (TFix Greatest v b) η s → sat c e b (upd η v (sat c e (TFix Greatest v b) η)) s).
    { intros s Hs (S & HS & HSs). apply (sat_bind_mono v b η S); [done..| |by apply HS].
      intros s' _ H. by exists S. }
    intros s Hs. split; [by apply Hout|]. intros Hsat.
    exists (sat c e b (upd η v (sat c e (TFix Greatest v b) η))). split; [|done].
    intros s' Hs'. apply sat_bind_mono; [done..|]. by apply Hout.
Qed.

(** An unguarded modality. *)
Lemma default_step k P s : step c k Guard_default P s ↔
  match k with
  | Diamond => ∃ t, t ∈ outgoing c s ∧ P (target t)
  | Box => ∀ t, t ∈ outgoing c s → P (target t)
  end.
Proof using Type.
  assert (Hm : ∀ t, matched c s Guard_default t ↔ t ∈ outgoing c s).
  { intros t. unfold matched, guard_matches_labels_and_vars. simpl. tauto. }
  destruct k; simpl; by setoid_rewrite Hm.
Qed.
End unfolding.

(** ** Who wins *)

Section decided.
Context (g : Game3v) (Hg : game_ok g) (known w : Winners).
Context (Hw : decides g known w) (Htot : ∀ i, is_Some (w !! i) ↔ i < position_count g).

Lemma winner_cases i q : i < position_count g → w !! i = Some q ∨ w !! i = Some (other_player q).
Proof using Htot.
  intros Hi. destruct (proj2 (Htot i) Hi) as [p Hp]. rewrite Hp.
  destruct (decide (p = q)) as [->|Hne%other_of]; [by left|right; by subst].
Qed.

Lemma winner_not i q : w !! i = Some q → w !! i ≠ Some (other_player q).
Proof using Type. intros -> [= E]. by apply (other_ne q). Qed.

Lemma move_won i q j : known !! i = None → owner g i ≠ q → w !! i = Some q → j ∈ succs g i → w !! j = Some q.
Proof using Hw.
  intros Hn Ho Hi Hj. destruct (de_wins _ _ _ Hw q) as [σ Hσ]. by apply (wi_opp _ _ _ _ _ Hσ i).
Qed.

(** An undecided position is won by its owner when a move is. *)
Lemma winner_local i q : i < position_count g → known !! i = None →
  w !! i = Some q ↔
  if decide (owner g i = q) then ∃ j, j ∈ succs g i ∧ w !! j = Some q
  else ∀ j, j ∈ succs g i → w !! j = Some q.
Proof using All.
  intros Hi Hn. destruct (decide (owner g i = q)) as [Ho|Ho]; split.
  - intros E. destruct (de_wins _ _ _ Hw q) as [σ Hσ]. exists (σ i). by apply (wi_own _ _ _ _ _ Hσ).
  - intros (j & Hj & E). destruct (winner_cases i q Hi) as [?|Hc]; [done|exfalso].
    apply (winner_not j q E). apply (move_won i); [done| |done|done]. rewrite Ho. by destruct q.
  - intros E j Hj. by apply (move_won i).
  - intros Hall. destruct (winner_cases i q Hi) as [?|Hc]; [done|exfalso].
    destruct (de_wins _ _ _ Hw (other_player q)) as [σ Hσ].
    destruct (wi_own _ _ _ _ _ Hσ i Hc Hn) as [Hs Hq]; [by apply other_of|].
    by apply (winner_not _ _ (Hall _ Hs)).
Qed.

Lemma winner_single i j q : i < position_count g → known !! i = None → (∀ j', j' ∈ succs g i ↔ j' = j) →
  w !! i = Some q ↔ w !! j = Some q.
Proof using All.
  intros Hi Hn Hj. rewrite (winner_local i q Hi Hn). case_decide; setoid_rewrite Hj; naive_solver.
Qed.

(** A region in which a player can stay, or leave it to positions it wins, and
    in which it loses no play. *)
Section trapped.
Context (q : Player) (P : nat → Prop).
Context (Hlt : ∀ i, P i → i < position_count g) (Hend : ∀ i p, P i → known !! i = Some p → p = q).
Context (Hown : ∀ i, P i → known !! i = None → owner g i = q → ∃ j, j ∈ succs g i ∧ (P j ∨ w !! j = Some q)).
Context (Hopp : ∀ i j, P i → known !! i = None → owner g i ≠ q → j ∈ succs g i → P j ∨ w !! j = Some q).
Context (Hplay : ∀ π, (∀ k, P (π k) ∧ π (S k) ∈ succs g (π k)) → ¬ lost g q π).

Lemma trapped_wins (d : nat → bool) σ : (∀ i, i < position_count g → d i = true ↔ P i) →
  wins g known q (λ i, w !! i = Some q) σ →
  wins g known q (λ i, P i ∨ w !! i = Some q)
    (λ i, if wins_at w q i then σ i else pick g (λ j, d j || wins_at w q j) i).
Proof using All.
  intros Hd Hσ. set (τ := λ i, if wins_at w q i then σ i else pick g (λ j, d j || wins_at w q j) i).
  assert (Hcase : ∀ i, P i ∨ w !! i = Some q → w !! i = Some q ∧ τ i = σ i ∨ w !! i ≠ Some q ∧ P i).
  { intros i Hi. unfold τ. destruct (wins_at w q i) eqn:E.
    - left. split; [by apply wins_at_spec|done].
    - right. rewrite <-(wins_at_spec w q i). destruct Hi as [?|Hi]; [split; congruence|].
      apply (wins_at_spec w q i) in Hi. congruence. }
  assert (Hτ : ∀ i, P i ∨ w !! i = Some q → known !! i = None → owner g i = q →
    τ i ∈ succs g i ∧ (P (τ i) ∨ w !! τ i = Some q)).
  { intros i Hi Hn Ho. destruct (Hcase i Hi) as [[E ->]|[E HP]].
    - destruct (wi_own _ _ _ _ _ Hσ i E Hn Ho). auto.
    - unfold τ. rewrite (not_true_is_false (wins_at w q i)) by (by rewrite wins_at_spec).
      destruct (pick_move g (λ j, d j || wins_at w q j) i) as [Hs Ht].
      + destruct (Hown i HP Hn Ho) as (j & Hj & Hq). exists j. split; [done|].
        rewrite orb_true_iff, wins_at_spec, Hd by (by apply (go_range g Hg i)). done.
      + split; [done|]. rewrite orb_true_iff, wins_at_spec, Hd in Ht by (by apply (go_range g Hg i)). done. }
  split; [| |intros i j Hi Hn Ho Hj|].
  - intros i p [Hi|Hi]; [by apply Hend|by apply (wi_end _ _ _ _ _ Hσ)].
  - intros i Hi Hn Ho. by apply Hτ.
  - destruct Hi as [Hi|Hi]; [by apply (Hopp i)|right; by apply (wi_opp _ _ _ _ _ Hσ i)].
  - intros π Hp H0 Hlost.
    assert (Hin : ∀ k, P (π k) ∨ w !! π k = Some q).
    { induction k as [|k IH]; [done|]. destruct (Hp k) as (Hn & Hs & Hf).
      destruct (decide (owner g (π k) = q)) as [Ho|Ho]; [rewrite (Hf Ho); by apply Hτ|].
      destruct IH as [IH|IH]; [by apply (Hopp (π k))|right; by apply (wi_opp _ _ _ _ _ Hσ (π k))]. }
    assert (Hno : ∀ k, w !! π k ≠ Some q).
    { intros k E. assert (Hst : ∀ m, w !! π (m + k) = Some q).
      { induction m as [|m IH]; [done|]. destruct (Hp (m + k)) as (Hn & Hs & Hf). simpl.
        destruct (decide (owner g (π (m + k)) = q)) as [Ho|Ho]; [|by apply (wi_opp _ _ _ _ _ Hσ (π (m + k)))].
        rewrite (Hf Ho). destruct (Hcase (π (m + k))) as [[_ Hτσ]|[? _]]; [by right| |done].
        rewrite Hτσ. by apply (wi_own _ _ _ _ _ Hσ). }
      apply (wi_play _ _ _ _ _ Hσ (λ m, π (m + k))); [|apply (Hst 0)|by apply lost_suffix].
      intros m. destruct (Hp (m + k)) as (Hn & Hs & Hf). split_and!; [done..|]. intros Ho. simpl. rewrite (Hf Ho).
      by destruct (Hcase (π (m + k)) (or_intror (Hst m))) as [[_ ?]|[[] _]]. }
    apply (Hplay π); [|done]. intros k. split; [|apply Hp]. by destruct (Hin k) as [?|?%Hno].
Qed.

Lemma trapped i : P i → w !! i = Some q.
Proof using All.
  intros Hi. apply NNPP. intros Hne. apply (not_not_dec P (position_count g)). intros [d Hd].
  destruct (de_wins _ _ _ Hw q) as [σ Hσ], (de_wins _ _ _ Hw (other_player q)) as [τ Hτ].
  destruct (winner_cases i q (Hlt i Hi)) as [?|Hc]; [done|].
  by apply (one_winner g known q _ _ _ τ i (trapped_wins d σ Hd Hσ) Hτ); [left|].
Qed.
End trapped.
End decided.

(** ** The meaning of a position *)

Section meaning.
Context (f : Formula) (vp : gmap FormulaVarId nat) (c : Clts) (e : EvalEnvironment) (g : Game3v).
Context (Hboard : board f vp c g) (Hc : clts_ok c) (Hlabels : state_3valued_predicates c = None).
Context (known w : Winners) (Hw : decides g known w) (Htot : ∀ i, is_Some (w !! i) ↔ i < position_count g).
Let m := state_count c.
Abbreviation pos := (pos f).
Abbreviation binding := (collect_var_bindings f).

(** The winners of the leaves. *)
Definition leaf_of (s : nat) (n : Node) : option Player :=
  match n with
  | NTrue => Some Existential
  | NFalse => Some Universal
  | NPredicate p =>
      Some (if match predicate e p with Some bits => bit bits s | None => false end then Existential else Universal)
  | _ => None
  end.

Context (Hknown : ∀ s id n, s < m → nodes f !! id = Some n → known !! pos s id = leaf_of s n).

Definition binder_kind (v : FormulaVarId) (k : FixpointKind) : Prop :=
  ∃ id a, binding !! v = Some id ∧ nodes f !! id = Some (fix_node k v a).

(** The tree at a node of the arena, inside the fragment: a variable's binder is
    the node its moves lead to, priorities have the parity of the fixpoint, and
    the free variables of a fixpoint are of its kind. *)
Fixpoint readable (id : NodeId) (t : Tree) : Prop :=
  match t with
  | TTrue => nodes f !! id = Some NTrue
  | TFalse => nodes f !! id = Some NFalse
  | TPred p => nodes f !! id = Some (NPredicate p)
  | TVar v => nodes f !! id = Some (NVariable v) ∧ is_Some (binding !! v)
  | TNot _ => False
  | TAnd l r => ∃ a b, nodes f !! id = Some (NAnd a b) ∧ readable a l ∧ readable b r
  | TOr l r => ∃ a b, nodes f !! id = Some (NOr a b) ∧ readable a l ∧ readable b r
  | TModal k gd t => gd = Guard_default ∧ ∃ a, nodes f !! id = Some (NModal k gd a) ∧ readable a t
  | TFix k v t =>
      binding !! v = Some id ∧ parity_winner (default 0 (vp !! v)) = fix_player k ∧
      (∀ x, x ∈ free_vars t → x ≠ v → binder_kind x k) ∧
      ∃ a, nodes f !! id = Some (fix_node k v a) ∧ readable a t
  end.

Lemma readable_basic id t : readable id t → basic t = true.
Proof using Type.
  revert id. induction t as [| |p|v|t IH|l IHl r IHr|l IHl r IHr|k gd t IH|k v t IH]; intros id; simpl; try done.
  - intros (a & b & _ & ? & ?). by rewrite (IHl a), (IHr b).
  - intros (a & b & _ & ? & ?). by rewrite (IHl a), (IHr b).
  - intros (-> & a & _ & ?). by rewrite (IH a).
  - intros (_ & _ & _ & a & _ & ?). by apply (IH a).
Qed.

Lemma readable_repr id t : readable id t → repr (nodes f) id t.
Proof using Type.
  revert id. induction t as [| |p|v|t IH|l IHl r IHr|l IHl r IHr|k gd t IH|k v t IH]; intros id; simpl; try done.
  - apply repr_true.
  - apply repr_false.
  - apply repr_pred.
  - intros [? _]. by apply repr_var.
  - intros (a & b & ? & ? & ?). econstructor; eauto.
  - intros (a & b & ? & ? & ?). econstructor; eauto.
  - intros (-> & a & ? & ?). econstructor; eauto.
  - intros (_ & _ & _ & a & ? & ?). destruct k; [eapply repr_mu|eapply repr_nu]; eauto.
Qed.

Lemma readable_node id t : readable id t → ∃ n, nodes f !! id = Some n.
Proof using Type. intros H%readable_repr. inversion H; eauto. Qed.

Lemma pos_in s id t : s < m → readable id t → pos s id < position_count g.
Proof using Hboard Htot.
  intros Hs [n Hn]%readable_node. rewrite (bd_count _ _ _ _ Hboard). apply lookup_lt_Some in Hn.
  unfold pos. fold m. nia.
Qed.

(** A position with one move, at the same state. *)
Lemma single_move s id n a : s < m → nodes f !! id = Some n → (∀ k gd t, n ≠ NModal k gd t) →
  local_targets f n = [a] → ∀ j, j ∈ succs g (pos s id) ↔ j = pos s a.
Proof using Hboard Htot.
  intros Hs Hn Hnm Ha j. rewrite (bd_local _ _ _ _ Hboard s id n Hs Hn Hnm), Ha.
  setoid_rewrite list_elem_of_singleton. naive_solver.
Qed.

Lemma pair_moves s id n a b : s < m → nodes f !! id = Some n → (∀ k gd t, n ≠ NModal k gd t) →
  local_targets f n = [a; b] → ∀ j, j ∈ succs g (pos s id) ↔ j = pos s a ∨ j = pos s b.
Proof using Hboard Htot.
  intros Hs Hn Hnm Ha j. rewrite (bd_local _ _ _ _ Hboard s id n Hs Hn Hnm), Ha.
  setoid_rewrite elem_of_cons. setoid_rewrite list_elem_of_singleton. naive_solver.
Qed.

Lemma variable_moves s id v b : s < m → nodes f !! id = Some (NVariable v) → binding !! v = Some b →
  ∀ j, j ∈ succs g (pos s id) ↔ j = pos s b.
Proof using Hboard Htot. intros Hs Hn Hb. apply (single_move s id (NVariable v)); simpl; try done. by rewrite Hb. Qed.

Lemma fix_moves s id k v a : s < m → nodes f !! id = Some (fix_node k v a) →
  ∀ j, j ∈ succs g (pos s id) ↔ j = pos s a.
Proof using Hboard Htot. intros Hs Hn. by apply (single_move s id (fix_node k v a)); destruct k. Qed.

(** The existential player wins at the node. *)
Definition eve (id : NodeId) (s : nat) : Prop := w !! pos s id = Some Existential.

(** A variable stands for the positions won at its binder. *)
Definition won_env (v s : nat) : Prop := ∃ b, binding !! v = Some b ∧ eve b s.

Lemma side_eve q s id : pos s id < position_count g → side q (eve id s) ↔ w !! pos s id = Some q.
Proof using Htot.
  intros Hlt. unfold eve. destruct q; simpl; [done|].
  destruct (winner_cases g w Htot _ Universal Hlt) as [E|E]; rewrite E; naive_solver.
Qed.

Lemma leaf_sat s id t n : s < m → readable id t → nodes f !! id = Some n →
  match t with TTrue | TFalse | TPred _ => True | _ => False end →
  ∀ η, ∃ p, known !! pos s id = Some p ∧ side p (sat c e t η s).
Proof using All.
  intros Hs Hr Hn Ht η. rewrite (Hknown s id n Hs Hn).
  destruct t; try done; simpl in Hr; rewrite Hr in Hn; injection Hn as <-; simpl;
    [by exists Existential|exists Universal; simpl; tauto|].
  eexists. split; [done|]. unfold atom, state_3valued_predicate. rewrite Hlabels.
  destruct (predicate e p); [|done]. by destruct (bit _ _).
Qed.

(** ** A block of fixpoints of one kind *)

Section block.
Context (k : FixpointKind) (id0 : NodeId) (v0 : FormulaVarId) (b0 : Tree).
Let q := fix_player k.
Let t0 := TFix k v0 b0.
Context (Hr0 : readable id0 t0).
Context (IH : ∀ id t s, height t < height t0 → readable id t → s < m → eve id s ↔ sat c e t won_env s).

(** The trees reached from the fixpoint through fixpoints of its kind, with what
    the variables bound on the way stand for. *)
Inductive inblock : NodeId → Tree → (nat → nat → Prop) → Prop :=
  | ib_start : inblock id0 t0 won_env
  | ib_and_l id a b l r η : inblock id (TAnd l r) η → nodes f !! id = Some (NAnd a b) → readable a l → inblock a l η
  | ib_and_r id a b l r η : inblock id (TAnd l r) η → nodes f !! id = Some (NAnd a b) → readable b r → inblock b r η
  | ib_or_l id a b l r η : inblock id (TOr l r) η → nodes f !! id = Some (NOr a b) → readable a l → inblock a l η
  | ib_or_r id a b l r η : inblock id (TOr l r) η → nodes f !! id = Some (NOr a b) → readable b r → inblock b r η
  | ib_modal id kd gd a t η : inblock id (TModal kd gd t) η → nodes f !! id = Some (NModal kd gd a) → readable a t → inblock a t η
  | ib_fix id v a t η : inblock id (TFix k v t) η → nodes f !! id = Some (fix_node k v a) → readable a t →
      inblock a t (upd η v (sat c e (TFix k v t) η)).

Definition other_fix (t : Tree) : Prop := match t with TFix k' _ _ => k' ≠ k | _ => False end.

Lemma inblock_readable id t η : inblock id t η → readable id t.
Proof using Hr0. by destruct 1. Qed.

Lemma inblock_height id t η : inblock id t η → t = t0 ∨ height t < height t0.
Proof using Type.
  induction 1 as [|id a b l r η _ IHin|id a b l r η _ IHin|id a b l r η _ IHin|id a b l r η _ IHin
                 |id kd gd a t η _ IHin|id v a t η _ IHin]; [by left|right..];
    (destruct IHin as [E|Hlt]; [unfold t0 in *; simplify_eq|]); simpl in *; lia.
Qed.

(** A free variable stands for the positions won at its binder, or its binder
    is in the block and it stands for the binder's meaning. *)
Definition bound_in (η : nat → nat → Prop) (x : nat) : Prop :=
  (∀ s, η x s ↔ won_env x s) ∨
  ∃ id t η', binding !! x = Some id ∧ inblock id (TFix k x t) η' ∧ ∀ s, η x s ↔ sat c e (TFix k x t) η' s.

Lemma inblock_bound id t η : inblock id t η → ∀ x, x ∈ free_vars t → bound_in η x.
Proof using All.
  induction 1 as [|id a b l r η Hin IHin|id a b l r η Hin IHin|id a b l r η Hin IHin|id a b l r η Hin IHin
                 |id kd gd a t η Hin IHin|id v a t η Hin IHin]; intros x Hx; simpl in *;
    try (apply IHin; set_solver).
  - by left.
  - unfold bound_in, upd. destruct (decide (x = v)) as [->|Hne].
    + right. exists id, t, η. split_and!; [|done|done].
      by destruct (inblock_readable _ _ _ Hin) as [? _].
    + apply IHin. set_solver.
Qed.

(** A fixpoint of the other kind does not see the block. *)
Lemma other_fix_sat id t η s : inblock id t η → other_fix t → s < m → sat c e t η s ↔ eve id s.
Proof using All.
  intros Hin Ho Hs. destruct t as [| | | | | | | |k' v t]; try done. simpl in Ho.
  destruct (inblock_height _ _ _ Hin) as [E|Hh]; [unfold t0 in E; congruence|].
  pose proof (inblock_readable _ _ _ Hin) as Hr. rewrite (IH id _ s Hh Hr Hs).
  apply (sat_free c e Hc); [|done]. intros x s' Hx Hs'.
  destruct (inblock_bound _ _ _ Hin x Hx) as [He|(id' & t' & η' & Hb & Hin' & _)]; [done|].
  exfalso. simpl in Hr, Hx. destruct Hr as (_ & _ & Hkind & _).
  destruct (Hkind x) as (id'' & a & Hb' & Hn); [set_solver..|].
  pose proof (inblock_readable _ _ _ Hin') as (_ & _ & _ & a' & Hn' & _).
  rewrite Hb in Hb'. injection Hb' as <-. rewrite Hn in Hn'. injection Hn' as E. apply Ho. by eapply fix_node_inj.
Qed.

(** The positions of the block that the player should win. *)
Definition region (i : nat) : Prop :=
  ∃ s id t η, i = pos s id ∧ s < m ∧ inblock id t η ∧ ¬ other_fix t ∧ side q (sat c e t η s).

Definition good (j : nat) : Prop := region j ∨ w !! j = Some q.

Lemma inblock_good s id t η : s < m → inblock id t η → side q (sat c e t η s) → good (pos s id).
Proof using All.
  intros Hs Hin Hsat. destruct (classic (other_fix t)) as [Ho|Ho].
  - right. apply side_eve; [by apply (pos_in s id t), (inblock_readable _ _ _ Hin)|].
    by apply (side_iff q _ _ (other_fix_sat id t η s Hin Ho Hs)).
  - left. by exists s, id, t, η.
Qed.


Definition stays (i : nat) : Prop :=
  if decide (owner g i = q) then ∃ j, j ∈ succs g i ∧ good j else ∀ j, j ∈ succs g i → good j.

Lemma single_stays i j : (∀ j', j' ∈ succs g i ↔ j' = j) → good j → stays i.
Proof using All. intros Hj Hgood. unfold stays. case_decide; setoid_rewrite Hj; naive_solver. Qed.

(** What holds of the variable holds at its binder. *)
Lemma variable_stays s id x η : s < m → inblock id (TVar x) η → side q (η x s) → stays (pos s id).
Proof using All.
  intros Hs Hin Hsat. pose proof (inblock_readable _ _ _ Hin) as [Hn [b Hb]].
  apply (single_stays _ (pos s b)); [by apply (variable_moves s id x)|].
  destruct (inblock_bound _ _ _ Hin x) as [He|(id' & t & η' & Hb' & Hin' & He)]; [simpl; set_solver| |].
  - right. assert (Hwe : won_env x s ↔ eve b s).
    { split; [|by exists b]. intros (b' & Hb' & ?). rewrite Hb in Hb'. by injection Hb' as <-. }
    apply side_eve; [|by apply (side_iff q _ _ (He s)), (side_iff q _ _ Hwe) in Hsat].
    destruct (binding_spec f x b Hb) as (a & [Hn'|Hn']); apply lookup_lt_Some in Hn';
      rewrite (bd_count _ _ _ _ Hboard); unfold pos; fold m; nia.
  - rewrite Hb in Hb'. injection Hb' as <-. apply (inblock_good s b (TFix k x t) η'); [done..|].
    by apply (side_iff q _ _ (He s)).
Qed.

Lemma modal_stays s id kd gd a t η : s < m → inblock id (TModal kd gd t) η →
  nodes f !! id = Some (NModal kd gd a) → readable a t → side q (sat c e (TModal kd gd t) η s) → stays (pos s id).
Proof using All.
  intros Hs Hin Hn Hr Hsat. pose proof (inblock_readable _ _ _ Hin) as [-> _].
  assert (Hgood : ∀ u, u ∈ outgoing c s → side q (sat c e t η (target u)) → good (pos (target u) a)).
  { intros u Hu. apply (inblock_good _ a t); [by apply (ok_target c Hc s)|by eapply ib_modal]. }
  apply (side_iff q _ _ (default_step c kd _ s)) in Hsat.
  unfold stays. rewrite (proj1 (bd_position _ _ _ _ Hboard s id _ Hs Hn)).
  pose proof (bd_modal _ _ _ _ Hboard s id kd _ a Hs Hn) as Hmv.
  destruct kd; simpl; [apply side_all in Hsat|apply side_ex in Hsat]; case_decide; setoid_rewrite Hmv; naive_solver.
Qed.

Lemma and_stays s id l r η : s < m → inblock id (TAnd l r) η → side q (sat c e (TAnd l r) η s) → stays (pos s id).
Proof using All.
  intros Hs Hin Hsat. pose proof (inblock_readable _ _ _ Hin) as (a & b & Hn & Hl & Hr).
  pose proof (inblock_good s a l η Hs (ib_and_l _ _ _ _ _ _ Hin Hn Hl)).
  pose proof (inblock_good s b r η Hs (ib_and_r _ _ _ _ _ _ Hin Hn Hr)).
  unfold stays. rewrite (proj1 (bd_position _ _ _ _ Hboard s id _ Hs Hn)). simpl position_owner.
  assert (Hmv : ∀ j, j ∈ succs g (pos s id) ↔ j = pos s a ∨ j = pos s b) by (by eapply pair_moves).
  apply side_and in Hsat. case_decide; setoid_rewrite Hmv; naive_solver.
Qed.

Lemma or_stays s id l r η : s < m → inblock id (TOr l r) η → side q (sat c e (TOr l r) η s) → stays (pos s id).
Proof using All.
  intros Hs Hin Hsat. pose proof (inblock_readable _ _ _ Hin) as (a & b & Hn & Hl & Hr).
  pose proof (inblock_good s a l η Hs (ib_or_l _ _ _ _ _ _ Hin Hn Hl)).
  pose proof (inblock_good s b r η Hs (ib_or_r _ _ _ _ _ _ Hin Hn Hr)).
  unfold stays. rewrite (proj1 (bd_position _ _ _ _ Hboard s id _ Hs Hn)). simpl position_owner.
  assert (Hmv : ∀ j, j ∈ succs g (pos s id) ↔ j = pos s a ∨ j = pos s b) by (by eapply pair_moves).
  apply side_or in Hsat. case_decide; setoid_rewrite Hmv; naive_solver.
Qed.

Lemma fix_stays s id v b η : s < m → inblock id (TFix k v b) η → side q (sat c e (TFix k v b) η s) → stays (pos s id).
Proof using All.
  intros Hs Hin Hsat. pose proof (inblock_readable _ _ _ Hin) as (_ & _ & _ & a & Hn & Hr).
  apply (single_stays _ (pos s a)); [by apply (fix_moves s id k v)|].
  apply (inblock_good s a b _ Hs (ib_fix _ _ _ _ _ Hin Hn Hr)).
  by apply (side_iff q _ _ (sat_unfold c e Hc k v b η s (readable_basic _ _ Hr) Hs)).
Qed.

Lemma region_stays i : region i → known !! i = None → stays i.
Proof using All.
  intros (s & id & t & η & -> & Hs & Hin & Ho & Hsat) Hk.
  pose proof (inblock_readable _ _ _ Hin) as Hr. destruct (readable_node _ _ Hr) as [n Hn].
  destruct t as [| |p|x|t|l r|l r|kd gd t|k' v t].
  1-3: by destruct (leaf_sat s id _ n Hs Hr Hn I η) as (? & ? & _); congruence.
  - by apply (variable_stays s id x η).
  - done.
  - by apply (and_stays s id l r η).
  - by apply (or_stays s id l r η).
  - pose proof Hr as (_ & a & Hn' & Hr'). by apply (modal_stays s id kd gd a t η).
  - simpl in Ho. apply NNPP in Ho as ->. by apply (fix_stays s id v t η).
Qed.

Lemma region_end i p : region i → known !! i = Some p → p = q.
Proof using All.
  intros (s & id & t & η & -> & Hs & Hin & Ho & Hsat) Hk.
  pose proof (inblock_readable _ _ _ Hin) as Hr. destruct (readable_node _ _ Hr) as [n Hn].
  assert (Hleaf : match t with TTrue | TFalse | TPred _ => True | _ => False end → p = q).
  { intros Ht. destruct (leaf_sat s id t n Hs Hr Hn Ht η) as (p' & Hp' & Hsat').
    rewrite Hk in Hp'. injection Hp' as <-. destruct p, q; simpl in *; tauto. }
  rewrite (Hknown s id n Hs Hn) in Hk.
  assert (Hnode : leaf_of s n = None → p = q) by congruence.
  destruct t as [| |p'|x|t|l r|l r|kd gd t|k' v t]; try (by apply Hleaf); apply Hnode; clear - Hr Hn; simpl in Hr.
  - destruct Hr as [Hr _]. rewrite Hr in Hn. by injection Hn as <-.
  - destruct Hr as (a & b & Hr & _). rewrite Hr in Hn. by injection Hn as <-.
  - destruct Hr as (a & b & Hr & _). rewrite Hr in Hn. by injection Hn as <-.
  - destruct Hr as (_ & a & Hr & _). rewrite Hr in Hn. by injection Hn as <-.
  - destruct Hr as (_ & _ & _ & a & Hr & _). rewrite Hr in Hn. injection Hn as <-. by destruct k'.
Qed.

(** ** Endless plays of a block *)

Lemma region_at s id : s < m → region (pos s id) → id < length (nodes f) →
  ∃ t η, inblock id t η ∧ ¬ other_fix t.
Proof using All.
  intros Hs (s' & id' & t & η & E & Hs' & Hin & Ho & _) Hid.
  destruct (readable_node _ _ (inblock_readable _ _ _ Hin)) as [n Hn].
  apply pos_inj in E as [-> ->]; [by exists t, η|done|by apply lookup_lt_Some in Hn].
Qed.

(** A fixpoint of the region has a priority of the player's parity. *)
Lemma region_fix s id n v : s < m → region (pos s id) → nodes f !! id = Some n → binder_var n = Some v →
  parity_winner (priority g (pos s id)) = q.
Proof using All.
  intros Hs Hreg Hn Hv. rewrite (proj2 (bd_position _ _ _ _ Hboard s id _ Hs Hn)).
  destruct (region_at s id Hs Hreg) as (t & η & Hin & Ho); [by apply lookup_lt_Some in Hn|].
  pose proof (inblock_readable _ _ _ Hin) as Hr. pose proof (readable_repr _ _ Hr) as Hrep.
  assert (Ht : ∃ k' b, t = TFix k' v b).
  { destruct n; try done; injection Hv as ->; inversion Hrep; simplify_eq; eauto. }
  destruct Ht as (k' & b & ->). simpl in Ho. apply NNPP in Ho as ->.
  destruct Hr as (_ & Hp & _ & a & Hn' & _). rewrite Hn in Hn'. injection Hn' as ->.
  by rewrite fix_node_priority.
Qed.

Lemma region_priority i : region i → priority g i = 0 ∨ parity_winner (priority g i) = q.
Proof using All.
  intros Hreg. pose proof Hreg as (s & id & t & η & -> & Hs & Hin & _).
  destruct (readable_node _ _ (inblock_readable _ _ _ Hin)) as [n Hn].
  destruct (binder_var n) as [v|] eqn:Hv; [right; by apply (region_fix s id n v)|left].
  rewrite (proj2 (bd_position _ _ _ _ Hboard s id _ Hs Hn)). by destruct n.
Qed.

(** A move of the region goes to a fixpoint, comes from one, or goes down. *)
Lemma region_move s id t j : s < m → readable id t → region j → j ∈ succs g (pos s id) →
  (∃ s' id' n v, s' < m ∧ j = pos s' id' ∧ nodes f !! id' = Some n ∧ binder_var n = Some v) ∨
  (∃ n v, nodes f !! id = Some n ∧ binder_var n = Some v) ∨
  ∃ s' id' t', s' < m ∧ j = pos s' id' ∧ readable id' t' ∧ height t' < height t.
Proof using All.
  intros Hs Hr Hreg Hj. destruct t as [| |p|x|t|l r|l r|kd gd t|k' v t]; simpl in Hr.
  1-3: rewrite (bd_local _ _ _ _ Hboard s id _ Hs Hr) in Hj by done;
    by destruct Hj as (? & ?%not_elem_of_nil & _).
  - destruct Hr as [Hn [b Hb]]. left. apply (variable_moves s id x b Hs Hn Hb) in Hj as ->.
    destruct (binding_spec f x b Hb) as (a & [Hn'|Hn']); by exists s, b; eexists _, x.
  - done.
  - destruct Hr as (a & b & Hn & Hl & Hr). right. right.
    assert (Hmv : j = pos s a ∨ j = pos s b) by (by eapply pair_moves).
    destruct Hmv as [->| ->]; [exists s, a, l|exists s, b, r]; split_and!; try done; simpl; lia.
  - destruct Hr as (a & b & Hn & Hl & Hr). right. right.
    assert (Hmv : j = pos s a ∨ j = pos s b) by (by eapply pair_moves).
    destruct Hmv as [->| ->]; [exists s, a, l|exists s, b, r]; split_and!; try done; simpl; lia.
  - destruct Hr as (-> & a & Hn & Hr). right. right. apply (bd_modal _ _ _ _ Hboard s id kd _ a Hs Hn) in Hj as (u & Hu & ->).
    exists (target u), a, t. split_and!; [by apply (ok_target c Hc s)|done..|simpl; lia].
  - destruct Hr as (_ & _ & _ & a & Hn & _). right. left. exists (fix_node k' v a), v. split; [done|by destruct k'].
Qed.

Lemma region_play π : (∀ j, region (π j) ∧ π (S j) ∈ succs g (π j)) → ¬ lost g q π.
Proof using All.
  intros Hπ (d & N & Hd & Hrec & Hub).
  assert (d = 0) as ->.
  { destruct (decide (d = 0)) as [|Hd0]; [done|]. destruct (Hrec 0). intros j _ Hj.
    destruct (region_priority (π j)) as [Hp|Hp]; [by apply Hπ|congruence|].
    rewrite Hj, Hd in Hp. by apply (other_ne q). }
  assert (Hnofix : ∀ j s id n v, N ≤ j → s < m → π j = pos s id → nodes f !! id = Some n → binder_var n ≠ Some v).
  { intros j s id n v HN Hs E Hn Hv. specialize (Hub j HN). rewrite E in Hub.
    assert (Hreg : region (pos s id)) by (rewrite <-E; apply Hπ).
    pose proof (region_fix s id n v Hs Hreg Hn Hv) as Hp. replace (priority g (pos s id)) with 0 in Hp by lia.
    rewrite Hd in Hp. by apply (other_ne q). }
  assert (Hdown : ∀ h j s id t, N ≤ j → s < m → π j = pos s id → readable id t → height t < h → False).
  { induction h as [|h IHh]; intros j s id t HN Hs E Hr Hh; [lia|].
    destruct (region_move s id t (π (S j)) Hs Hr) as [H|[H|H]]; [by apply Hπ|rewrite <-E; by apply Hπ|..].
    - destruct H as (s' & id' & n & v & ? & E' & Hn & Hv). by apply (Hnofix (S j) s' id' n v); [lia|..].
    - destruct H as (n & v & Hn & Hv). by apply (Hnofix j s id n v).
    - destruct H as (s' & id' & t' & ? & E' & ? & ?). apply (IHh (S j) s' id' t'); try done; lia. }
  destruct (proj1 (Hπ N)) as (s & id & t & η & E & Hs & Hin & _).
  by eapply (Hdown (S (height t)) N s id t); [| |exact E|by eapply inblock_readable|lia].
Qed.

(** The player wins its side of the block. *)
Lemma block_won s : s < m → side q (sat c e t0 won_env s) → w !! pos s id0 = Some q.
Proof using All.
  intros Hs Hsat. apply (trapped g (bd_ok _ _ _ _ Hboard) known w Hw Htot q region).
  - intros i (s' & id & t & η & -> & Hs' & Hin & _). by apply (pos_in s' id t), (inblock_readable _ _ _ Hin).
  - apply region_end.
  - intros i Hi Hn Ho. pose proof (region_stays i Hi Hn) as H. unfold stays in H. by rewrite decide_True in H.
  - intros i j Hi Hn Ho Hj. pose proof (region_stays i Hi Hn) as H. unfold stays in H.
    rewrite decide_False in H by done. by apply H.
  - apply region_play.
  - exists s, id0, t0, won_env. split_and!; [done|done|apply ib_start|simpl; tauto|done].
Qed.
End block.

(** ** Adequacy *)

Lemma node_inner s id t n : s < m → readable id t → nodes f !! id = Some n → leaf_of s n = None →
  pos s id < position_count g ∧ known !! pos s id = None.
Proof using All. intros Hs Hr Hn Hl. split; [by apply (pos_in s id t)|]. by rewrite (Hknown s id n Hs Hn). Qed.

(** The moves of a connective read in the winners. *)
Lemma and_eve s id l r a b : s < m → readable id (TAnd l r) → nodes f !! id = Some (NAnd a b) →
  eve id s ↔ eve a s ∧ eve b s.
Proof using All.
  intros Hs Hr Hn. destruct (node_inner s id _ _ Hs Hr Hn) as [Hlt Hk]; [done|].
  assert (Hmv : ∀ j, j ∈ succs g (pos s id) ↔ j = pos s a ∨ j = pos s b) by (by eapply pair_moves).
  unfold eve. rewrite (winner_local g (bd_ok _ _ _ _ Hboard) known w Hw Htot _ _ Hlt Hk).
  rewrite (proj1 (bd_position _ _ _ _ Hboard s id _ Hs Hn)). simpl. setoid_rewrite Hmv. naive_solver.
Qed.

Lemma or_eve s id l r a b : s < m → readable id (TOr l r) → nodes f !! id = Some (NOr a b) →
  eve id s ↔ eve a s ∨ eve b s.
Proof using All.
  intros Hs Hr Hn. destruct (node_inner s id _ _ Hs Hr Hn) as [Hlt Hk]; [done|].
  assert (Hmv : ∀ j, j ∈ succs g (pos s id) ↔ j = pos s a ∨ j = pos s b) by (by eapply pair_moves).
  unfold eve. rewrite (winner_local g (bd_ok _ _ _ _ Hboard) known w Hw Htot _ _ Hlt Hk).
  rewrite (proj1 (bd_position _ _ _ _ Hboard s id _ Hs Hn)). simpl. setoid_rewrite Hmv. naive_solver.
Qed.

Lemma modal_eve s id k t a : s < m → readable id (TModal k Guard_default t) →
  nodes f !! id = Some (NModal k Guard_default a) → eve id s ↔ step c k Guard_default (eve a) s.
Proof using All.
  intros Hs Hr Hn. destruct (node_inner s id _ _ Hs Hr Hn) as [Hlt Hk]; [done|].
  pose proof (bd_modal _ _ _ _ Hboard s id k _ a Hs Hn) as Hmv. rewrite default_step. unfold eve at 1.
  rewrite (winner_local g (bd_ok _ _ _ _ Hboard) known w Hw Htot _ _ Hlt Hk).
  rewrite (proj1 (bd_position _ _ _ _ Hboard s id _ Hs Hn)). unfold eve.
  destruct k; simpl; setoid_rewrite Hmv; naive_solver.
Qed.

Lemma fix_eve s id k v t a : s < m → readable id (TFix k v t) → nodes f !! id = Some (fix_node k v a) →
  eve id s ↔ eve a s.
Proof using All.
  intros Hs Hr Hn. destruct (node_inner s id _ _ Hs Hr Hn) as [Hlt Hk]; [by destruct k|].
  apply (winner_single g (bd_ok _ _ _ _ Hboard) known w Hw Htot _ _ _ Hlt Hk). by apply (fix_moves s id k v).
Qed.

Lemma fix_adequate id k v b s :
  (∀ id' t s, height t < height (TFix k v b) → readable id' t → s < m → eve id' s ↔ sat c e t won_env s) →
  readable id (TFix k v b) → s < m → eve id s ↔ sat c e (TFix k v b) won_env s.
Proof using All.
  intros IH Hr Hs. pose proof Hr as (Hb & _ & _ & a & Hn & Hra).
  assert (Hbody : ∀ s', s' < m → sat c e b (upd won_env v (eve id)) s' ↔ eve id s').
  { intros s' Hs'. rewrite (fix_eve s' id k v b a Hs' Hr Hn), (IH a b s') by (done || (simpl; lia)).
    apply (sat_free c e Hc); [|done]. intros x s0 _ _. unfold upd. case_decide as E; [subst x|done].
    split; [by exists id|]. intros (id' & Hb' & ?). congruence. }
  pose proof (block_won k id v b Hr IH s Hs) as Hwon. destruct k; simpl in Hwon.
  - split; [|intros Hsat; apply (Hsat (eve id)); intros; by apply Hbody].
    intros He. apply NNPP. intros Hno. apply Hwon in Hno. unfold eve in He. congruence.
  - split; [|done]. intros He. exists (eve id). split; [intros; by apply Hbody|done].
Qed.

Lemma adequate id t s : readable id t → s < m → eve id s ↔ sat c e t won_env s.
Proof using All.
  remember (height t) as h eqn:Hh. revert id t s Hh. induction (lt_wf h) as [h _ IH]. intros id t s -> Hr Hs.
  assert (IH' : ∀ id' t' s', height t' < height t → readable id' t' → s' < m → eve id' s' ↔ sat c e t' won_env s')
    by (intros id' t' s' Hlt; by apply (IH (height t') Hlt)).
  destruct (readable_node _ _ Hr) as [n Hn]. destruct t as [| |p|x|t|l r|l r|k gd t|k v b].
  1-3: destruct (leaf_sat s id _ n Hs Hr Hn I won_env) as (p' & Hk & Hsat); unfold eve;
    rewrite (lookup_weaken _ _ _ _ Hk (de_sub _ _ _ Hw)); destruct p'; simpl in *; naive_solver.
  - pose proof Hr as [Hn' [b Hb]]. destruct (node_inner s id _ _ Hs Hr Hn') as [Hlt Hk]; [done|].
    unfold eve. rewrite (winner_single g (bd_ok _ _ _ _ Hboard) known w Hw Htot _ (pos s b) _ Hlt Hk)
      by (by apply (variable_moves s id x)). simpl.
    split; [by exists b|]. intros (b' & Hb' & ?). congruence.
  - done.
  - pose proof Hr as (a & b & Hn' & Hl & Hr'). rewrite (and_eve s id l r a b), (IH' a l), (IH' b r) by (done || (simpl; lia)).
    done.
  - pose proof Hr as (a & b & Hn' & Hl & Hr'). rewrite (or_eve s id l r a b), (IH' a l), (IH' b r) by (done || (simpl; lia)).
    done.
  - pose proof Hr as (-> & a & Hn' & Hr'). rewrite (modal_eve s id k t a) by done.
    split; apply step_mono; try done; intros s' Hs'; apply IH'; (done || (simpl; lia)).
  - by apply fix_adequate.
Qed.
End meaning.

(** ** Formulas of the fragment *)

Lemma binding_total f id n v : binds_once f → nodes f !! id = Some n → binder_var n = Some v →
  collect_var_bindings f !! v = Some id.
Proof.
  intros Honce Hn Hv.
  assert (Hs : ∀ l (m0 : gmap nat nat), is_Some (m0 !! v) ∨ (id, n) ∈ l →
    is_Some (foldl (λ m '(idx, n), match n with NMu var _ | NNu var _ => <[var := idx]> m | _ => m end) m0 l !! v)).
  { induction l as [|[i n'] l IH]; intros m0 H; cbn [foldl].
    { destruct H as [?|?%not_elem_of_nil]; done. }
    apply IH. assert (Hkeep : ∀ (w : nat), is_Some (m0 !! v) → is_Some (<[w:=i]> m0 !! v)).
    { intros w Hs. by apply lookup_insert_is_Some'; right. }
    destruct H as [H|[E|H]%elem_of_cons]; [|injection E as <- <-|by right]; left.
    - destruct n'; auto.
    - destruct n; try done; injection Hv as ->; rewrite lookup_insert_eq; by eexists. }
  destruct (Hs (zip (seq 0 (length (nodes f))) (nodes f)) ∅) as [id' Hid'].
  { right. apply elem_of_lookup_zip_with. exists id, id, n. split_and!; [done| |done].
    apply lookup_seq_lt. by eapply lookup_lt_Some. }
  fold (collect_var_bindings f) in Hid'. rewrite Hid'. f_equal.
  destruct (binding_spec f v id' Hid') as (b & [H|H]); by eapply Honce.
Qed.

Lemma variable_parity f t (vp : gmap FormulaVarId nat) v (l : bool) :
  wf_formula f → formula_tree f t → NoDup (bound_vars t) → compute_priorities f = Some vp → (v, l) ∈ t_order t →
  parity_winner (default 0 (vp !! v)) = if l then Universal else Existential.
Proof.
  intros Hwf Ht Hnd. unfold compute_priorities, fixpoint_nesting_order.
  rewrite (collect_fixpoint_order_spec _ _ _ _ _ Ht) by (by apply formula_tree_fuel). cbn [mbind option_bind app].
  intros [= <-] Hv.
  destruct (order_inserted (λ lv, variable_priority lv.1 lv.2.2) t v l Hnd Hv) as [i Hi].
  rewrite Hi. unfold parity_winner, variable_priority. simpl. replace (i + (i + 0)) with (2 * i) by lia.
  destruct l; [by rewrite Nat.even_odd|]. rewrite Nat.even_add, Nat.even_even. done.
Qed.

(** A part of a formula of the fragment, below binders of the listed kinds. *)
Record in_scope (f : Formula) (vp : gmap FormulaVarId nat) (bound : list (FormulaVarId * FixpointKind)) (t : Tree)
    : Prop := {
  sc_basic : basic t = true;
  sc_alternation : alternation_free bound t = true;
  sc_bound : ∀ x k, (x, k) ∈ bound → binder_kind f x k;
  sc_free : ∀ x, x ∈ free_vars t → ∃ k, (x, k) ∈ bound;
  sc_parity : ∀ v (l : bool), (v, l) ∈ t_order t → parity_winner (default 0 (vp !! v)) = if l then Universal else Existential
}.

Lemma scope_pair f vp bound t l r :
  t = TAnd l r ∨ t = TOr l r → in_scope f vp bound t → in_scope f vp bound l ∧ in_scope f vp bound r.
Proof.
  intros [-> | ->] [H1%andb_true_iff H2%andb_true_iff H3 H4 H5]; simpl in *;
    split; (split; [tauto|tauto|done|intros; apply H4; set_solver|intros; apply H5; set_solver]).
Qed.

Lemma scope_fix f vp bound k v t id a : nodes f !! id = Some (fix_node k v a) → collect_var_bindings f !! v = Some id →
  in_scope f vp bound (TFix k v t) → in_scope f vp ((v, k) :: bound) t ∧
    parity_winner (default 0 (vp !! v)) = fix_player k ∧ ∀ x, x ∈ free_vars t → x ≠ v → binder_kind f x k.
Proof.
  intros Hn Hv [H1 H2 H3 H4 H5]. simpl in *. apply andb_true_iff in H2 as [Hfv Haf]. rewrite forallb_spec in Hfv.
  split_and!; [split; try done| |].
  - intros x k' [[= -> ->]|Hin]%elem_of_cons; [by exists id, a|by apply H3].
  - intros x Hx. destruct (decide (x = v)) as [->|]; [exists k; by left|].
    destruct (H4 x) as [k' Hk]; [set_solver|]. exists k'. by right.
  - intros; apply H5; by right.
  - rewrite (H5 v (bool_decide (k = Least))) by (by left). by destruct k.
  - intros x Hx Hne. specialize (Hfv x). rewrite elem_of_elements, orb_true_iff, !bool_decide_eq_true in Hfv.
    apply H3. by destruct (Hfv Hx).
Qed.

Lemma readable_tree f vp bound t id :
  binds_once f → repr (nodes f) id t → in_scope f vp bound t → readable f vp id t.
Proof.
  intros Honce Hr. revert bound.
  induction Hr as [id|id|id p|id v|id a t|id a b l r Hn Hl IHl Hr IHr|id a b l r Hn Hl IHl Hr IHr|id k gd a t Hn Hr IH
    |id v a t Hn Hr IH|id v a t Hn Hr IH]; intros bound Hsc; try done.
  - destruct (sc_free _ _ _ _ Hsc v) as [k Hk]; [simpl; set_solver|].
    destruct (sc_bound _ _ _ _ Hsc v k Hk) as (id' & a & Hv & _). split; [done|by eexists].
  - by destruct Hsc.
  - destruct (scope_pair f vp bound _ l r (or_introl eq_refl) Hsc). exists a, b. eauto.
  - destruct (scope_pair f vp bound _ l r (or_intror eq_refl) Hsc). exists a, b. eauto.
  - destruct Hsc as [[?%bool_decide_eq_true ?]%andb_true_iff ? ? ? ?]. split; [done|].
    exists a. split; [done|]. by apply (IH bound).
  - assert (Hv : collect_var_bindings f !! v = Some id) by (by eapply binding_total).
    destruct (scope_fix f vp bound Least v t id a Hn Hv Hsc) as (Hsc' & ? & ?). simpl. eauto 10.
  - assert (Hv : collect_var_bindings f !! v = Some id) by (by eapply binding_total).
    destruct (scope_fix f vp bound Greatest v t id a Hn Hv Hsc) as (Hsc' & ? & ?). simpl. eauto 10.
Qed.

(** ** Leaves *)

Lemma indexed_lookup {A} (h : A → option Player) (l : list A) a j :
  (list_to_map (omap (λ '(i, x), (i,.) <$> h x) (zip (seq a (length l)) l)) : Winners) !! j =
  if decide (a ≤ j) then l !! (j - a) ≫= h else None.
Proof.
  revert a. induction l as [|x l IH]; intros a; simpl; [by case_decide|].
  destruct (decide (j = a)) as [->|Hne].
  - rewrite decide_True, Nat.sub_diag by lia. simpl. destruct (h x); simpl; [by rewrite lookup_insert_eq|].
    rewrite IH, decide_False by lia. done.
  - assert (Hj : (if decide (S a ≤ j) then l !! (j - S a) ≫= h else None) =
                 if decide (a ≤ j) then (x :: l) !! (j - a) ≫= h else None).
    { destruct (decide (S a ≤ j)); [rewrite decide_True by lia|rewrite decide_False by lia; done].
      by replace (j - a) with (S (j - S a)) by lia. }
    rewrite <-Hj, <-IH. destruct (h x); simpl; [by rewrite lookup_insert_ne|done].
Qed.

Lemma oracle_lookup g f oracle i :
  leaf_winners_from_oracle g f oracle !! i = positions g !! i ≫= leaf_winner f oracle.
Proof.
  unfold leaf_winners_from_oracle, position_count. rewrite (indexed_lookup (leaf_winner f oracle)).
  by rewrite decide_True, Nat.sub_0_r by lia.
Qed.

Section leaves.
Context (f : Formula) (c : Clts) (e : EvalEnvironment) (vp : gmap FormulaVarId nat) (g : Game3v).
Context (Hvp : compute_priorities f = Some vp) (Hg : build_game f c = Some g).

Lemma leaves_known s id n : s < state_count c → nodes f !! id = Some n →
  known_leaves g (build_leaf_oracle_from_env g f e) !! pos f s id = leaf_of e s n.
Proof using Hvp Hg.
  intros Hs Hn. pose proof (built_position f c vp g Hvp Hg s id n Hs Hn) as Hp.
  assert (Hl : build_leaf_oracle_from_env g f e !! pos f s id = leaf_of e s n).
  { unfold build_leaf_oracle_from_env. rewrite oracle_lookup, Hp. simpl. unfold leaf_winner, node. simpl.
    rewrite Hn. by destruct n. }
  apply option_eq. intros p. rewrite known_lookup, Hl.
  split; [by intros [_ ?]|]. intros E. split; [by apply lookup_lt_Some in Hp|done].
Qed.
End leaves.

(** ** The three-valued solver *)

Lemma solve_3v_spec g leaf : game_ok g → game_ok (remove_may_only_edges g) →
  ∃ over under sol, solve_2v g leaf = Some over ∧ solve_2v (remove_may_only_edges g) leaf = Some under ∧
    solve_3v g leaf = Some sol ∧
    (∀ i, i < position_count g → verdicts sol !! i = Some (combine_3v (over !! i) (under !! i))) ∧
    indefinite3 sol = List.filter (λ i, bool_decide (combine_3v (over !! i) (under !! i) = Indefinite))
                        (seq 0 (position_count g)).
Proof.
  intros Hg Hu. destruct (solve_2v_solved g Hg leaf) as (over & Ho & _),
    (solve_2v_solved _ Hu leaf) as (under & Hun & _). exists over, under.
  unfold solve_3v. rewrite Ho, Hun. cbn [mbind option_bind]. eexists. split_and!; [done..| |done].
  intros i Hi. simpl. apply elem_of_list_to_map.
  - rewrite <-list_fmap_compose. replace (list_fmap _ _ _ _) with (seq 0 (position_count g)); [apply NoDup_seq|].
    symmetry. apply list_fmap_id.
  - apply list_elem_of_fmap. exists i. split; [done|]. apply elem_of_seq. lia.
Qed.

(** On a game without may-only edges every verdict is definite: the winner's. *)
Theorem sharp_definite g leaf : game_ok g → (∀ i, E_MayOnly ∉ mods g i) →
  ∃ w sol, solve_2v g leaf = Some w ∧ solve_3v g leaf = Some sol ∧ indefinite3 sol = [] ∧
    ∀ i, i < position_count g →
      verdicts sol !! i = Some (if decide (w !! i = Some Existential) then DefiniteEve else DefiniteAdam).
Proof.
  intros Hg Hsharp.
  assert (Hrow : ∀ i, must_moves (succs g i, mods g i) = zip (succs g i) (mods g i)).
  { intros i. unfold must_moves. simpl. apply forallb_filter_id. apply forallb_spec. intros [j e] Hin.
    apply negb_true_iff, bool_decide_eq_false. intros E. simpl in E. subst e. apply (Hsharp i).
    apply elem_of_lookup_zip_with in Hin as (k & ? & ? & [= <- <-] & _ & Hk). by eapply list_elem_of_lookup_2. }
  assert (Hsame : remove_may_only_edges g = g).
  { assert (Hall : ∀ (A : Type) (h : PositionId * EdgeModality → A) rows,
      length rows = position_count g → (∀ i, map h (zip (succs g i) (mods g i)) = default [] (rows !! i)) →
      map (map h) (map (λ i, must_moves (succs g i, mods g i)) (seq 0 (position_count g))) = rows).
    { intros A h rows Hlen Hh. apply list_eq. intros i. rewrite !list_lookup_fmap.
      destruct (decide (i < position_count g)) as [Hi|Hi].
      - rewrite lookup_seq_lt by done. simpl. rewrite Hrow, Hh.
        destruct (lookup_lt_is_Some_2 rows i) as [r Hr]; [lia|]. by rewrite Hr.
      - rewrite !lookup_ge_None_2; [done|lia|rewrite length_seq; lia]. }
    assert (Hz : ∀ i, length (succs g i) = length (mods g i)) by (intros i; symmetry; apply (go_parallel g Hg)).
    unfold remove_may_only_edges. rewrite (Hall _ fst (successors g)), (Hall _ snd (edge_modalities g));
      [by destruct g|apply (go_mods g Hg)| |apply (go_rows g Hg)|].
    - intros i. refine (eq_trans (snd_zip (succs g i) (mods g i) _) eq_refl). by rewrite Hz.
    - intros i. refine (eq_trans (fst_zip (succs g i) (mods g i) _) eq_refl). by rewrite Hz. }
  destruct (solve_3v_spec g leaf Hg) as (over & under & sol & Ho & Hu & Hs & Hv & Hin); [by rewrite Hsame|].
  rewrite Hsame, Ho in Hu. injection Hu as <-. destruct (solve_2v_solved g Hg leaf) as (w & Hw & _ & Htot).
  rewrite Ho in Hw. injection Hw as <-.
  assert (Hdef : ∀ i, i < position_count g → combine_3v (over !! i) (over !! i) =
    if decide (over !! i = Some Existential) then DefiniteEve else DefiniteAdam).
  { intros i Hi. destruct (proj2 (Htot i) Hi) as [[] ->]; done. }
  exists over, sol. split_and!; [done|done| |intros i Hi; by rewrite Hv, Hdef].
  rewrite Hin. apply elem_of_nil_inv. intros i [Hi%elem_of_seq E%bool_decide_eq_true]%elem_of_filterb.
  rewrite Hdef in E by lia. by case_decide.
Qed.

(** The winner at the root says whether the formula holds. *)
Lemma root_meaning f vp c e g leaf u w s :
  board f vp c g → clts_ok c → state_3valued_predicates c = None →
  (∀ s id n, s < state_count c → nodes f !! id = Some n → known_leaves g leaf !! pos f s id = leaf_of e s n) →
  readable f vp (root f) u → free_vars u = ∅ → solve_2v g leaf = Some w → s < state_count c →
  ∃ p, w !! pos f s (root f) = Some p ∧ side p (sat c e u no_binding s).
Proof.
  intros Hboard Hc Hlab Hleaf Hr Hfv Hs Hlt.
  destruct (solve_2v_solved g (bd_ok _ _ _ _ Hboard) leaf) as (w' & Hw & Hd & Htot).
  rewrite Hs in Hw. injection Hw as <-.
  pose proof (adequate f vp c e g Hboard Hc Hlab _ w Hd Htot Hleaf (root f) u s Hr Hlt) as Had.
  rewrite (sat_free c e Hc u _ no_binding) in Had by (rewrite ?Hfv; done || set_solver).
  destruct (proj2 (Htot (pos f s (root f)))) as [p Hp]; [by apply (pos_in f vp c g Hboard w Htot s (root f) u)|].
  exists p. split; [done|]. unfold eve in Had. rewrite Hp in Had. destruct p; simpl; naive_solver.
Qed.

Lemma priorities_total f u : wf_formula f → formula_tree f u → is_Some (compute_priorities f).
Proof.
  intros Hwf Htree. unfold compute_priorities, fixpoint_nesting_order.
  rewrite (collect_fixpoint_order_spec _ _ _ _ _ Htree) by (by apply formula_tree_fuel). by eexists.
Qed.

Lemma build_total f c vp : compute_priorities f = Some vp → is_Some (build_game f c).
Proof. unfold build_game. intros ->. by eexists. Qed.

(** * Properties *)

(** C7: what a verdict of the three-valued game means.  For a closed formula
    without negation and guards, whose fixpoints do not alternate and each bind a
    variable of their own, and a system without hyper-must transitions and
    three-valued labels, the game is built and solved, and the verdict at a state
    and the root is definite for the existential player exactly when the formula
    holds there both of the whole system and of the system without its may-only
    transitions, and definite for the other player exactly when it holds of
    neither. *)
Theorem solve_3v_meaning f u c e :
  closed_formula f u → binds_once f → basic u = true → alternation_free [] u = true →
  clts_ok c → state_3valued_predicates c = None → clts_has_hyper_must_transitions c = false →
  ∃ g sol, build_game f c = Some g ∧ solve_3v g (build_leaf_oracle_from_env g f e) = Some sol ∧
    ∀ s, s < state_count c → ∃ i v, position_id g s (root f) = Some i ∧ verdicts sol !! i = Some v ∧
      (v = DefiniteEve ↔ sat c e u no_binding s ∧ sat (must_part c) e u no_binding s) ∧
      (v = DefiniteAdam ↔ ¬ sat c e u no_binding s ∧ ¬ sat (must_part c) e u no_binding s).
Proof.
  intros [Hwf Htree _ [Hnd Hfv]] Honce Hb Haf Hc Hlab Hno.
  destruct (priorities_total f u Hwf Htree) as [vp Hvp].
  destruct (build_total f c vp Hvp) as [g Hg]. pose proof (proj1 Hwf) as Har.
  pose proof (built_board f c vp g Hvp Hg Har Hc) as Hboard.
  pose proof (must_board f c vp g Hvp Hg Har Hc Hno) as Hmust.
  set (leaf := build_leaf_oracle_from_env g f e).
  destruct (solve_3v_spec g leaf (bd_ok _ _ _ _ Hboard) (bd_ok _ _ _ _ Hmust))
    as (over & under & sol & Ho & Hu & Hs & Hv & _).
  assert (Hr : readable f vp (root f) u).
  { apply (readable_tree f vp []); [done|done|]. split; try done.
    - intros x k ?%not_elem_of_nil. done.
    - rewrite Hfv. by intros x ?%not_elem_of_empty.
    - intros v l. by apply (variable_parity f u). }
  exists g, sol. split_and!; [done|done|]. intros s Hlt.
  pose proof (pos_lt f c vp g Hvp Hg s (root f) Hlt (proj2 Hwf)) as Hpos.
  exists (pos f s (root f)), (combine_3v (over !! pos f s (root f)) (under !! pos f s (root f))).
  split; [apply (built_index f c vp g Hvp Hg); split_and!; [done|apply Hwf|done]|].
  split; [by apply Hv|].
  destruct (root_meaning f vp c e g leaf u over s Hboard Hc Hlab (leaves_known f c e vp g Hvp Hg) Hr Hfv Ho Hlt)
    as (p & -> & Hp).
  destruct (root_meaning f vp (must_part c) e (remove_may_only_edges g) leaf u under s Hmust (must_part_ok c Hc) Hlab
              (leaves_known f c e vp g Hvp Hg) Hr Hfv Hu Hlt) as (p' & -> & Hp').
  destruct p, p'; simpl in *; naive_solver.
Qed.

(** * Witnesses *)

(** Staying in [p]: [nu X. p && <> X]. *)
Definition ex_stay : Formula :=
  {| root := 4; vars := ["X"];
     nodes := [NPredicate "p"; NVariable 0; NModal Diamond Guard_default 1; NAnd 0 2; NNu 0 3] |}.
Definition stay_tree : Tree := TFix Greatest 0 (TAnd (TPred "p") (TModal Diamond Guard_default (TVar 0))).

(** One may-only loop. *)
Definition may_loop : Clts := arrow [(0, 0, MayOnly)] [].
Definition p_everywhere : EvalEnvironment :=
  {| env_state_count := 3; predicates := {["p" := [true; true; true]]} |}.

Lemma stay_closed : closed_formula ex_stay stay_tree.
Proof.
  split; [apply wf_formulab_sound; reflexivity|apply (tree_of_repr 9); reflexivity|by repeat constructor|].
  split; [|vm_compute; reflexivity]. repeat constructor; set_solver.
Qed.

Lemma stay_once : binds_once ex_stay.
Proof.
  intros [|[|[|[|[|id]]]]] [|[|[|[|[|id']]]]] n n' v Hn Hn' Hv Hv'; by simplify_eq/=.
Qed.

(** The state can stay, but only by the may-only loop: the verdict is indefinite. *)
Lemma solve_3v_meaning_witness :
  (let* g := build_game ex_stay may_loop in
   let* sol := solve_3v g (build_leaf_oracle_from_env g ex_stay p_everywhere) in
   let* i := position_id g 0 4 in verdicts sol !! i) = Some Indefinite ∧
  ∃ g sol, build_game ex_stay may_loop = Some g ∧
    solve_3v g (build_leaf_oracle_from_env g ex_stay p_everywhere) = Some sol ∧
    ∀ s, s < state_count may_loop → ∃ i v, position_id g s 4 = Some i ∧ verdicts sol !! i = Some v ∧
      (v = DefiniteEve ↔ sat may_loop p_everywhere stay_tree no_binding s ∧
                         sat (must_part may_loop) p_everywhere stay_tree no_binding s) ∧
      (v = DefiniteAdam ↔ ¬ sat may_loop p_everywhere stay_tree no_binding s ∧
                          ¬ sat (must_part may_loop) p_everywhere stay_tree no_binding s).
Proof.
  split; [by vm_compute|].
  apply (solve_3v_meaning ex_stay stay_tree may_loop p_everywhere);
    [apply stay_closed|apply stay_once|by vm_compute|by vm_compute| |by vm_compute|by vm_compute].
  apply (run_ops_ok (arrow_ops [(0, 0, MayOnly)] [])); vm_compute; reflexivity.
Defined.
