(* ===== verification/Evaluate3v.v ===== *)
(** The three-valued game evaluator: the failure subgame, and where the game
    parts from the evaluator whose verdicts it accompanies.

    [evaluate_3v_game_spec] describes the result of [evaluate_3v_game_with_options]
    completely: the verdicts are those of [evaluate_tri], and the subgame lists
    the indefinite positions of the game, of every subformula, and the may-only transitions behind the
    edges whose removal changes a winner.  [game_departures] is the other side:
    systems on which the verdicts of the game are not those of the evaluator. *)
From S2P Require Import Prelude Formula Trit Clts Modal Evaluator Semantics Domains Checking Verdicts Divergences Transforms ParityGame GameBuild GameCorrect Game3v Solve3v Solve3vCorrect Meaning3v.

(** ** Removing one edge *)

Section single.
Context (g : Game3v) (Hg : game_ok g).

Lemma elem_of_may_only i j :
  (i, j) ∈ may_only_edges g ↔ i < position_count g ∧ ∃ k, succs g i !! k = Some j ∧ mods g i !! k = Some E_MayOnly.
Proof using Type.
  unfold may_only_edges. rewrite list_elem_of_In, in_concat. split.
  - intros (row & (i' & <- & Hi')%in_map_iff & Hin). apply list_elem_of_In, list_elem_of_omap in Hin as ([j' e] & Hz & E).
    apply list_elem_of_In, elem_of_seq in Hi'. simpl in E. case_decide as He; [|done]. injection E as <- <-. subst e.
    apply elem_of_lookup_zip_with in Hz as (k & ? & ? & [= <- <-] & ? & ?). split; [lia|]. by exists k.
  - intros (Hi & k & Hj & He). eexists. split.
    + apply in_map_iff. exists i. split; [done|]. apply list_elem_of_In, elem_of_seq. lia.
    + apply list_elem_of_In, list_elem_of_omap. exists (j, E_MayOnly). split; [|done].
      apply elem_of_lookup_zip_with. exists k, j, E_MayOnly. done.
Qed.

Lemma removed_rows src tgt : remove_single_edge g src tgt = g ∨
  ∃ k, succs g src !! k = Some tgt ∧ position_count (remove_single_edge g src tgt) = position_count g ∧
    (∀ i, succs (remove_single_edge g src tgt) i = if decide (i = src) then delete k (succs g src) else succs g i) ∧
    (∀ i, mods (remove_single_edge g src tgt) i = if decide (i = src) then delete k (mods g src) else mods g i).
Proof using Type.
  unfold remove_single_edge. destruct (list_find (λ s, s = tgt) (succs g src)) as [[k s]|] eqn:E; [right|by left].
  apply list_find_Some in E as (Hk & -> & _). exists k. split_and!; [done|done|..]; intros i; unfold succs, mods; simpl;
    (destruct (decide (i = src)) as [->|]; [rewrite list_lookup_alter_eq; by destruct (_ !! src)|by rewrite list_lookup_alter_ne]).
Qed.

Lemma removed_ok src tgt : game_ok (remove_single_edge g src tgt).
Proof using Hg.
  destruct (removed_rows src tgt) as [->|(k & Hk & Hc & Hs & Hm)]; [done|]. destruct Hg as [H1 H2 H3 H4].
  split.
  - unfold remove_single_edge. destruct (list_find _ _) as [[]|]; simpl; by rewrite ?length_alter.
  - unfold remove_single_edge. destruct (list_find _ _) as [[]|]; simpl; by rewrite ?length_alter.
  - intros i j. rewrite Hs, Hc. case_decide as E; [subst i|by apply H3].
    intros Hj. apply (H3 src). eapply elem_of_submseteq; [done|]. apply sublist_submseteq, sublist_delete.
  - intros i. rewrite Hs, Hm. case_decide as E; [subst i|by apply H4].
    rewrite !length_delete, H4; [done|by eexists|]. apply lookup_lt_is_Some_2. rewrite H4. by apply lookup_lt_Some in Hk.
Qed.

(** The edge matters: some position has another winner without it. *)
Definition decisive (leaf : Winners) (edge : PositionId * PositionId) : Prop :=
  ∃ w w' p, solve_2v g leaf = Some w ∧ solve_2v (remove_single_edge g edge.1 edge.2) leaf = Some w' ∧ w !! p ≠ w' !! p.

Lemma classifies_spec leaf w edge : solve_2v g leaf = Some w →
  ∃ b, classifies g leaf w edge = Some b ∧ (b = true ↔ decisive leaf edge).
Proof using Hg.
  intros Hw. unfold classifies.
  destruct (solve_2v_solved _ (removed_ok edge.1 edge.2) leaf) as (w' & Hw' & _ & Htot'). rewrite Hw'.
  cbn [mbind option_bind]. eexists. split; [done|]. rewrite existsb_spec. split.
  - intros (p & _ & Hp%negb_true_iff%bool_decide_eq_false). by exists w, w', p.
  - intros (w1 & w2 & p & E1 & E2 & Hp). rewrite Hw in E1. rewrite Hw' in E2. injection E1 as <-. injection E2 as <-.
    exists p. split; [|by apply negb_true_iff, bool_decide_eq_false].
    apply elem_of_seq. destruct (decide (p < position_count g)) as [|Hge]; [lia|exfalso].
    destruct (solve_2v_solved g Hg leaf) as (w1 & E & _ & Htot). rewrite Hw in E. injection E as <-.
    assert (Hc : position_count (remove_single_edge g edge.1 edge.2) = position_count g).
    { unfold remove_single_edge. by destruct (list_find _ _) as [[]|]. }
    rewrite Hc in Htot'. apply Hp. specialize (Htot p). specialize (Htot' p).
    destruct (w !! p) eqn:Ea; [by exfalso; apply Hge, Htot; eexists|].
    destruct (w' !! p) eqn:Eb; [by exfalso; apply Hge, Htot'; eexists|done].
Qed.

Lemma classify_all leaf w l : solve_2v g leaf = Some w → ∀ acc,
  ∃ edges, for_each (push_classifying g leaf w) acc l = Some edges ∧
    ∀ edge, edge ∈ edges ↔ edge ∈ acc ∨ edge ∈ l ∧ decisive leaf edge.
Proof using Hg.
  intros Hw. induction l as [|x l IH]; intros acc; cbn [for_each].
  { exists acc. split; [done|]. intros edge. rewrite elem_of_nil. tauto. }
  destruct (classifies_spec leaf w x Hw) as (b & Hb & Hdec). unfold push_classifying at 1. rewrite Hb.
  cbn [mbind option_bind]. destruct (IH (if b then acc ++ [x] else acc)) as (edges & -> & He).
  exists edges. split; [done|]. intros edge. rewrite He, elem_of_cons.
  destruct b; [rewrite elem_of_app, list_elem_of_singleton|]; naive_solver.
Qed.

Lemma extract_spec leaf sol : ∃ pr, extract_failure_subgame g leaf sol = Some pr ∧ fp_positions pr = indefinite3 sol ∧
  ∀ edge, edge ∈ classifying_edges pr ↔ indefinite3 sol ≠ [] ∧ edge ∈ may_only_edges g ∧ decisive leaf edge.
Proof using Hg.
  unfold extract_failure_subgame. destruct (indefinite3 sol) as [|p ps] eqn:E; simpl.
  { eexists. split_and!; [done..|]. intros edge. simpl. rewrite elem_of_nil. naive_solver. }
  destruct (solve_2v_solved g Hg leaf) as (w & Hw & _). rewrite Hw. cbn [mbind option_bind].
  destruct (classify_all leaf w (may_only_edges g) Hw []) as (edges & -> & He). cbn [mbind option_bind].
  eexists. split_and!; [done..|]. intros edge. simpl. rewrite He, elem_of_nil. naive_solver.
Qed.
End single.

(** ** The transitions of an edge *)

Section transitions.
Context (c : Clts).

(** The entries name transitions once, with their owner. *)
Definition tagged (acc : list (nat * nat * OwningPlayer)) : Prop :=
  NoDup (map fst acc) ∧ ∀ x, x ∈ acc → ∃ t, outgoing c x.1.1 !! x.1.2 = Some t ∧ x.2 = owning_player c t.

(** [x] is a may-only transition from [src] to [tgt]. *)
Definition may_transition (src tgt : nat) (x : nat * nat * OwningPlayer) : Prop :=
  ∃ t, x.1.1 = src ∧ outgoing c src !! x.1.2 = Some t ∧ target t = tgt ∧ modality t = MayOnly ∧
    x.2 = owning_player c t.

Lemma push_transition_spec src tgt acc k t : outgoing c src !! k = Some t → tagged acc →
  tagged (push_transition c src tgt acc (k, t)) ∧
  ∀ x, x ∈ push_transition c src tgt acc (k, t) ↔
    x ∈ acc ∨ target t = tgt ∧ modality t = MayOnly ∧ x = (src, k, owning_player c t).
Proof using Type.
  intros Ht [Hnd Hacc]. unfold push_transition. destruct (_ && _) eqn:E.
  - apply andb_true_iff in E as [[E1%Nat.eqb_eq E2%bool_decide_eq_true]%andb_true_iff E3%negb_true_iff].
    assert (Hnew : (src, k) ∉ map fst acc).
    { intros (y & Ey & Hy)%list_elem_of_fmap. enough (existsb (λ y, (y.1.1 =? src) && (y.1.2 =? k)) acc = true) by congruence.
      apply existsb_spec. exists y. split; [done|]. by rewrite <-Ey, !Nat.eqb_refl. }
    split; [split|].
    + rewrite map_app. apply NoDup_app. split_and!; [done| |apply NoDup_singleton].
      by intros y Hy ->%list_elem_of_singleton.
    + intros x [Hx| ->%list_elem_of_singleton]%elem_of_app; [by apply Hacc|by exists t].
    + intros x. rewrite elem_of_app, list_elem_of_singleton. naive_solver.
  - split; [done|]. intros x. split; [by left|]. intros [?|(E1 & E2 & ->)]; [done|].
    rewrite E1, Nat.eqb_refl, bool_decide_true in E by done. simpl in E. apply negb_false_iff, existsb_spec in E.
    destruct E as ([[s k'] op] & Hy & [E3%Nat.eqb_eq E4%Nat.eqb_eq]%andb_true_iff). simpl in *. subst s k'.
    destruct (Hacc _ Hy) as (t' & Ht' & Hop). simpl in *. rewrite Ht in Ht'. injection Ht' as <-. by rewrite <-Hop.
Qed.

Lemma push_row src tgt l acc : (∀ k t, (k, t) ∈ l → outgoing c src !! k = Some t) → tagged acc →
  tagged (foldl (push_transition c src tgt) acc l) ∧
  ∀ x, x ∈ foldl (push_transition c src tgt) acc l ↔
    x ∈ acc ∨ ∃ k t, (k, t) ∈ l ∧ target t = tgt ∧ modality t = MayOnly ∧ x = (src, k, owning_player c t).
Proof using Type.
  revert acc. induction l as [|[k t] l IH]; intros acc Hl Hacc; cbn [foldl].
  { split; [done|]. intros x. split; [by left|]. intros [?|(? & ? & ?%not_elem_of_nil & _)]; done. }
  destruct (push_transition_spec src tgt acc k t) as [Hacc' Hx]; [apply Hl; by left|done|].
  destruct (IH (push_transition c src tgt acc (k, t))) as [Hres Hy]; [intros; apply Hl; by right|done|].
  split; [done|]. intros x. rewrite Hy, Hx. setoid_rewrite elem_of_cons. naive_solver.
Qed.

Definition edge_transition (g : Game3v) (edge : PositionId * PositionId) (x : nat * nat * OwningPlayer) : Prop :=
  ∃ p p', positions g !! edge.1 = Some p ∧ positions g !! edge.2 = Some p' ∧
    may_transition (pos_state p) (pos_state p') x.

Lemma push_edge_transitions_spec g acc edge : tagged acc →
  tagged (push_edge_transitions c g acc edge) ∧
  ∀ x, x ∈ push_edge_transitions c g acc edge ↔ x ∈ acc ∨ edge_transition g edge x.
Proof using Type.
  intros Hacc. unfold push_edge_transitions, edge_transition.
  destruct (positions g !! edge.1) as [p|], (positions g !! edge.2) as [p'|]; try (split; [done|naive_solver]).
  set (row := outgoing c (pos_state p)).
  assert (Hrow : ∀ k t, (k, t) ∈ zip (seq 0 (length row)) row ↔ row !! k = Some t).
  { intros k t. rewrite elem_of_lookup_zip_with. split.
    - intros (i & ? & ? & [= <- <-] & [-> _]%lookup_seq & ?). done.
    - intros Ht. exists k, k, t. split_and!; [done| |done]. apply lookup_seq_lt. by eapply lookup_lt_Some. }
  destruct (push_row (pos_state p) (pos_state p') (zip (seq 0 (length row)) row) acc) as [H1 H2];
    [intros k t; apply Hrow|done|].
  split; [done|]. intros x. rewrite H2. setoid_rewrite Hrow. unfold may_transition.
  destruct x as [[s k] op]. naive_solver.
Qed.

Lemma push_edges g edges acc : tagged acc →
  tagged (foldl (push_edge_transitions c g) acc edges) ∧
  ∀ x, x ∈ foldl (push_edge_transitions c g) acc edges ↔ x ∈ acc ∨ ∃ edge, edge ∈ edges ∧ edge_transition g edge x.
Proof using Type.
  revert acc. induction edges as [|edge edges IH]; intros acc Hacc; cbn [foldl].
  { split; [done|]. intros x. split; [by left|]. intros [?|(? & ?%not_elem_of_nil & _)]; done. }
  destruct (push_edge_transitions_spec g acc edge Hacc) as [Hacc' Hx].
  destruct (IH _ Hacc') as [Hres Hy]. split; [done|]. intros x. rewrite Hy, Hx. setoid_rewrite elem_of_cons. naive_solver.
Qed.
End transitions.

(** ** The failure subgame *)

Lemma owning_player_tag c s t : clts_ok c → t ∈ outgoing c s →
  owning_player c t = if is_controllable c t then OP_Controller else OP_Environment.
Proof.
  intros Hc Ht. unfold owning_player. rewrite (controllable_xor c s t Hc Ht).
  by destruct (is_uncontrollable c t).
Qed.

Section subgame.
Context (f : Formula) (c : Clts) (e : EvalEnvironment) (vp : gmap FormulaVarId nat) (g : Game3v).
Context (Hvp : compute_priorities f = Some vp) (Hg : build_game f c = Some g).
Context (Hwf : wf_arena (nodes f)) (Hc : clts_ok c).
Let leaf := build_leaf_oracle_from_env g f e.

Lemma position_index i s id : position_id g s id = Some i ↔
  ∃ p, positions g !! i = Some p ∧ pos_state p = s ∧ pos_node p = id.
Proof using Hvp Hg.
  unfold position_id. rewrite (built_index f c vp g Hvp Hg). split.
  - intros (Hs & Hid & ->). destruct (lookup_lt_is_Some_2 (nodes f) id Hid) as [n Hn].
    eexists. split; [by apply (built_position f c vp g Hvp Hg)|done].
  - intros (p & Hp & <- & <-). destruct (position_at f c vp g Hvp Hg i p Hp) as (-> & ? & n & Hn & _).
    split_and!; [done|by eapply lookup_lt_Some|done].
Qed.

Lemma elem_of_indefinite sol i : solve_3v g leaf = Some sol →
  i ∈ indefinite3 sol ↔ i < position_count g ∧ verdicts sol !! i = Some Indefinite.
Proof using All.
  intros Hs. pose proof (built_ok f c vp g Hvp Hg Hwf Hc) as Hok.
  pose proof (must_game_ok f c vp g Hvp Hg Hwf Hc) as Hmok.
  destruct (solve_3v_spec g leaf Hok Hmok) as (over & under & sol' & _ & _ & Hs' & Hv & Hind).
  rewrite Hs in Hs'. injection Hs' as <-.
  rewrite Hind, elem_of_filterb, elem_of_seq, bool_decide_eq_true. split.
  - intros [Hi E]. split; [lia|]. by rewrite Hv, E by lia.
  - intros [Hi E]. rewrite Hv in E by done. split; [lia|congruence].
Qed.

Lemma elem_of_translated sol pids s id : solve_3v g leaf = Some sol → pids = indefinite3 sol →
  (s, id) ∈ omap (λ pid, (λ p, (pos_state p, pos_node p)) <$> positions g !! pid) pids ↔
  ∃ i, position_id g s id = Some i ∧ verdicts sol !! i = Some Indefinite.
Proof using All.
  intros Hs ->. rewrite list_elem_of_omap. setoid_rewrite position_index.
  setoid_rewrite (elem_of_indefinite sol _ Hs). split.
  - intros (i & [Hi Hv] & E). destruct (positions g !! i) as [p|] eqn:Hp; [|done]. injection E as <- <-.
    exists i. split; [by exists p|done].
  - intros (i & (p & Hp & <- & <-) & Hv). exists i. rewrite Hp. split; [|done].
    split; [by eapply lookup_lt_Some|done].
Qed.

Lemma translated_nil sol pids : solve_3v g leaf = Some sol → pids = indefinite3 sol →
  omap (λ pid, (λ p, (pos_state p, pos_node p)) <$> positions g !! pid) pids = [] ↔ pids = [].
Proof using All.
  intros Hs Hp. split; [|by intros ->]. intros E. apply elem_of_nil_inv. intros i Hi. rewrite Hp in Hi.
  apply (elem_of_indefinite sol i Hs) in Hi as [Hi Hv]. apply lookup_lt_is_Some_2 in Hi as [p Hpos].
  apply (not_elem_of_nil (pos_state p, pos_node p)). rewrite <-E. apply (elem_of_translated sol pids _ _ Hs Hp).
  exists i. rewrite position_index. split; [by exists p|done].
Qed.

Lemma edge_transition_iff edge s k tag : edge_transition c g edge (s, k, tag) ↔
  ∃ t id id', outgoing c s !! k = Some t ∧ modality t = MayOnly ∧
    tag = (if is_controllable c t then OP_Controller else OP_Environment) ∧
    position_id g s id = Some edge.1 ∧ position_id g (target t) id' = Some edge.2.
Proof using All.
  unfold edge_transition, may_transition. setoid_rewrite position_index. simpl. split.
  - intros (p & p' & Hp & Hp' & t & -> & Ht & Htt & Hm & ->).
    exists t, (pos_node p), (pos_node p'). split_and!; [done|done| |by exists p|by exists p'].
    apply (owning_player_tag c (pos_state p)); [done|]. by eapply list_elem_of_lookup_2.
  - intros (t & id & id' & Ht & Hm & -> & (p & Hp & <- & <-) & (p' & Hp' & Htt & <-)).
    exists p, p'. split_and!; [done..|]. exists t. split_and!; try done.
    symmetry. apply (owning_player_tag c (pos_state p)); [done|]. by eapply list_elem_of_lookup_2.
Qed.

Lemma failure_subgame_spec : ∃ fs sol, failure_subgame_of f c e = Some fs ∧ solve_3v g leaf = Some sol ∧
  (∀ s id, (s, id) ∈ fs_positions fs ↔ ∃ i, position_id g s id = Some i ∧ verdicts sol !! i = Some Indefinite) ∧
  fs_root fs = head (fs_positions fs) ∧ NoDup (map fst (classifying_transitions fs)) ∧
  ∀ s k tag, (s, k, tag) ∈ classifying_transitions fs ↔
    fs_positions fs ≠ [] ∧ ∃ t i j id id', outgoing c s !! k = Some t ∧ modality t = MayOnly ∧
      tag = (if is_controllable c t then OP_Controller else OP_Environment) ∧
      position_id g s id = Some i ∧ position_id g (target t) id' = Some j ∧
      (i, j) ∈ may_only_edges g ∧ decisive g leaf (i, j).
Proof using All.
  unfold failure_subgame_of. rewrite Hg. cbn [mbind option_bind]. fold leaf.
  pose proof (built_ok f c vp g Hvp Hg Hwf Hc) as Hok.
  destruct (solve_3v_spec g leaf Hok (must_game_ok f c vp g Hvp Hg Hwf Hc)) as (_ & _ & sol & _ & _ & Hs & _).
  rewrite Hs. cbn [mbind option_bind]. destruct (extract_spec g Hok leaf sol) as (pr & -> & Hpos & Hedges).
  cbn [mbind option_bind]. eexists _, sol. split; [done|]. split; [done|].
  destruct (push_edges c g (classifying_edges pr) []) as [[Hnd _] Hx];
    [split; [apply NoDup_nil_2|by intros x ?%not_elem_of_nil]|].
  split; [intros s id; by apply elem_of_translated|]. split; [done|]. split; [done|].
  intros s k tag. cbn [classifying_transitions fs_positions]. rewrite Hx, (translated_nil sol _ Hs Hpos), Hpos.
  setoid_rewrite Hedges. setoid_rewrite edge_transition_iff. split.
  - intros [?%not_elem_of_nil|([i j] & (Hne & Hm & Hd) & t & id & id' & H)]; [done|].
    split; [done|]. exists t, i, j, id, id'. naive_solver.
  - intros (Hne & t & i & j & id & id' & H). right. exists (i, j). split; [naive_solver|]. exists t, id, id'. naive_solver.
Qed.
End subgame.

(** ** Systems and formulas outside the fragment *)

(** The verdict of the game at state 0 and the root, next to the evaluator's. *)
Definition root_verdict (f : Formula) (c : Clts) (e : EvalEnvironment) : option Trit3v :=
  let* g := build_game f c in
  let* sol := solve_3v g (build_leaf_oracle_from_env g f e) in
  let* i := position_id g 0 (root f) in verdicts sol !! i.
Definition tri_root (f : Formula) (c : Clts) (e : EvalEnvironment) : option Trit :=
  (λ ts, verdict_at ts 0) <$> evaluate_tri 9 f c e.

(** A sharp loop at state 0. *)
Definition sharp_loop : Clts := arrow [(0, 0, Sharp)] [].

(** [p] holds infinitely often on some path: [nu X. mu Y. (p && <> X) || <> Y]. *)
Definition ex_infinitely : Formula :=
  {| root := 8; vars := ["X"; "Y"];
     nodes := [NPredicate "p"; NVariable 0; NModal Diamond Guard_default 1; NAnd 0 2; NVariable 1;
               NModal Diamond Guard_default 4; NOr 3 5; NMu 1 6; NNu 0 7] |}.
Definition ex_not_p : Formula := {| root := 1; vars := []; nodes := [NPredicate "p"; NNot 0] |}.
Definition ex_p : Formula := {| root := 0; vars := []; nodes := [NPredicate "p"] |}.
(** [<> p || [] false] *)
Definition ex_may_or_dead : Formula :=
  {| root := 4; vars := [];
     nodes := [NPredicate "p"; NModal Diamond Guard_default 0; NFalse; NModal Box Guard_default 2; NOr 1 3] |}.

(** Three states, the first labelled with a value of [p] the environment does
    not know. *)
Definition labelled_ops (t : Tristate) : list BuilderOp := [OpInitial "s0"; OpState "s1"; OpState "s2"; OpPredicate 0 "p" t].
Definition labelled (t : Tristate) : Clts := built (run_ops (labelled_ops t)).
Definition no_env : EvalEnvironment := {| env_state_count := 3; predicates := ∅ |}.

(** Two transitions to state 1, one of them only possible. *)
Definition parallel (m1 m2 : TransitionModality) : Clts := arrow [(0, 1, m1); (0, 1, m2)] [].
Definition ex_can_p : Formula := {| root := 1; vars := []; nodes := [NPredicate "p"; NModal Diamond Guard_default 0] |}.

Definition identity_below (n : nat) (a s : nat) : Prop := a = s ∧ a < n.

(** Two may-only transitions of state 0, and a system that has the second. *)
Definition two_may : Clts := fork MayOnly MayOnly 0 0 [].
Definition second_only : Clts := arrow [(0, 2, Sharp)] [].

Lemma second_refines : refinement two_may second_only (λ gd, gd = Guard_default) (identity_below 3).
Proof.
  assert (Hsc : ∀ s, outgoing second_only s = if s =? 0 then [{| target := 2; t_labels := [0]; modality := Sharp |}] else []).
  { by intros [|[|[|s]]]. }
  assert (Hsa : ∀ s, outgoing two_may s = if s =? 0 then [{| target := 1; t_labels := [0]; modality := MayOnly |};
                                            {| target := 2; t_labels := [0]; modality := MayOnly |}] else []).
  { by intros [|[|[|s]]]. }
  split.
  - intros a s [-> Hs]. assert (E : state_count two_may = 3) by (vm_compute; reflexivity).
    assert (E' : state_count second_only = 3) by (vm_compute; reflexivity). by rewrite E, E'.
  - intros g a s t -> [-> Hs] [Ht _]. rewrite Hsc in Ht. destruct (s =? 0) eqn:E; [|by apply not_elem_of_nil in Ht].
    apply list_elem_of_singleton in Ht as ->. exists {| target := 2; t_labels := [0]; modality := MayOnly |}.
    split; [split; [|by vm_compute]|by split; [|apply Nat.lt_succ_diag_r]]. rewrite Hsa, E. right. left.
  - intros g a s ta -> [-> Hs] [Hta _] Hm. rewrite Hsa in Hta.
    destruct (s =? 0); [|by apply not_elem_of_nil in Hta].
    apply elem_of_cons in Hta as [->|Hta]; [done|]. by apply list_elem_of_singleton in Hta as ->.
Qed.

(** * Properties *)

(** C40: the result of the game evaluator.  Where [evaluate_tri] returns verdicts,
    [evaluate_3v_game_with_options] returns the same; it attaches a failure
    subgame exactly when one of them is unknown.  The subgame's positions are the
    positions the game leaves indefinite, one for each state and subformula
    concerned, where the documentation of [Position3v] and of the [positions]
    field says that they are positions of the root formula only.  Its root is the first of them, and its
    transitions are, each once, the may-only transitions between the states of a
    may-only edge of the game without which some position has another winner.
    A transition is tagged with the controller when all its labels are
    controllable or internal, and with the environment otherwise: the third tag
    does not occur. *)
Theorem evaluate_3v_game_spec rounds f u c e o v :
  wf_formula f → formula_tree f u → clts_ok c → evaluate_tri_with_options rounds f c e o = Some v →
  ∃ ge, evaluate_3v_game_with_options rounds f c e o = Some ge ∧ ge_verdicts ge = v ∧
    (failure_subgame ge = None ↔ ∀ s, s < len v → verdict_at v s ≠ Trit_Unknown) ∧
    ∀ fs, failure_subgame ge = Some fs →
      ∃ g sol, build_game f c = Some g ∧ solve_3v g (build_leaf_oracle_from_env g f e) = Some sol ∧
        (∀ s id, (s, id) ∈ fs_positions fs ↔
           ∃ i, position_id g s id = Some i ∧ verdicts sol !! i = Some Indefinite) ∧
        fs_root fs = head (fs_positions fs) ∧ NoDup (map fst (classifying_transitions fs)) ∧
        ∀ s k tag, (s, k, tag) ∈ classifying_transitions fs ↔
          fs_positions fs ≠ [] ∧ ∃ t i j id id', outgoing c s !! k = Some t ∧ modality t = MayOnly ∧
            tag = (if is_controllable c t then OP_Controller else OP_Environment) ∧
            position_id g s id = Some i ∧ position_id g (target t) id' = Some j ∧
            (i, j) ∈ may_only_edges g ∧ decisive g (build_leaf_oracle_from_env g f e) (i, j).
Proof.
  intros Hwf Htree Hc Hv. unfold evaluate_3v_game_with_options. rewrite Hv. cbn [mbind option_bind].
  assert (Hnil : null (indefinite_states v) = true ↔ ∀ s, s < len v → verdict_at v s ≠ Trit_Unknown).
  { assert (Hin : ∀ s, s ∈ indefinite_states v ↔ s < len v ∧ verdict_at v s = Trit_Unknown).
    { intros s. unfold indefinite_states. rewrite elem_of_filterb, elem_of_seq, bool_decide_eq_true.
      split; intros [? ?]; (split; [lia|done]). }
    split.
    - intros H s Hs E. destruct (indefinite_states v); [|done]. by apply (not_elem_of_nil s), Hin.
    - intros H. replace (indefinite_states v) with (@nil nat); [done|]. symmetry. apply elem_of_nil_inv.
      intros s [? ?]%Hin. by eapply H. }
  destruct (null (indefinite_states v)).
  { eexists. split_and!; [done|done| |done]. split; [intros _; by apply Hnil|done]. }
  destruct (priorities_total f u Hwf Htree) as [vp Hvp]. destruct (build_total f c vp Hvp) as [g Hg].
  destruct (failure_subgame_spec f c e vp g Hvp Hg (proj1 Hwf) Hc) as (fs & sol & -> & Hfs).
  cbn [mbind option_bind]. eexists. split_and!; [done|done| |].
  - simpl. split; [done|]. intros H. by apply Hnil in H.
  - simpl. intros fs' [= <-]. by exists g, sol.
Qed.

(** Staying by a may-only loop is possible, not certain. *)
Lemma evaluate_3v_game_spec_witness :
  let v := {| must_true := [false; false; false]; may_true := [true; false; false] |} in
  let leaf g := build_leaf_oracle_from_env g ex_stay p_everywhere in
  (failure_subgame <$> evaluate_3v_game 9 ex_stay may_loop p_everywhere) =
    Some (Some {| fs_positions := [(0, 1); (0, 2); (0, 3); (0, 4)]; classifying_transitions := [(0, 0, OP_Controller)];
                  fs_root := Some (0, 1); subgame_extraction_complete := true |}) ∧
  ∃ ge, evaluate_3v_game_with_options 9 ex_stay may_loop p_everywhere EvaluationOptions_default = Some ge ∧
    ge_verdicts ge = v ∧
    (failure_subgame ge = None ↔ ∀ s, s < len v → verdict_at v s ≠ Trit_Unknown) ∧
    ∀ fs, failure_subgame ge = Some fs →
      ∃ g sol, build_game ex_stay may_loop = Some g ∧ solve_3v g (leaf g) = Some sol ∧
        (∀ s id, (s, id) ∈ fs_positions fs ↔
           ∃ i, position_id g s id = Some i ∧ verdicts sol !! i = Some Indefinite) ∧
        fs_root fs = head (fs_positions fs) ∧ NoDup (map fst (classifying_transitions fs)) ∧
        ∀ s k tag, (s, k, tag) ∈ classifying_transitions fs ↔
          fs_positions fs ≠ [] ∧ ∃ t i j id id', outgoing may_loop s !! k = Some t ∧ modality t = MayOnly ∧
            tag = (if is_controllable may_loop t then OP_Controller else OP_Environment) ∧
            position_id g s id = Some i ∧ position_id g (target t) id' = Some j ∧
            (i, j) ∈ may_only_edges g ∧ decisive g (leaf g) (i, j).
Proof.
  intros v leaf. split; [vm_compute; reflexivity|].
  apply (evaluate_3v_game_spec 9 ex_stay stay_tree may_loop p_everywhere EvaluationOptions_default v);
    [apply stay_closed|apply stay_closed| |vm_compute; reflexivity].
  apply (run_ops_ok (arrow_ops [(0, 0, MayOnly)] [])); vm_compute; reflexivity.
Defined.

(** Where the game is not the evaluator.  Nested fixpoints of different kinds:
    the inner one has the higher priority, so [nu X. mu Y. (p && <> X) || <> Y] is
    lost on a loop on which it holds.  A negation passes the play on without
    exchanging the players, a guard is not read, and a label that is not in the
    environment counts as false even when it is definitely true.  Dropping the
    may-only moves of both players is not an under-approximation: [<> p || [] false]
    is definite for the existential player on a system with a refinement where it
    is false.  A failure subgame can be empty although a verdict is unknown.  Of
    two transitions to one state, a may-only one listed before a must one hides
    it. *)
Theorem game_departures :
  let guarded := modal_formula Diamond (scoped Control_All None ["b"] []) (NPredicate "p") in
  (tri_root ex_infinitely sharp_loop p_everywhere = Some Trit_True ∧
   root_verdict ex_infinitely sharp_loop p_everywhere = Some DefiniteAdam) ∧
  (tri_root ex_not_p sharp_loop p_everywhere = Some Trit_False ∧
   root_verdict ex_not_p sharp_loop p_everywhere = Some DefiniteEve) ∧
  (tri_root guarded sharp_loop p_everywhere = Some Trit_False ∧
   root_verdict guarded sharp_loop p_everywhere = Some DefiniteEve) ∧
  (tri_root ex_p (labelled KleeneT) no_env = Some Trit_True ∧
   root_verdict ex_p (labelled KleeneT) no_env = Some DefiniteAdam) ∧
  (root_verdict ex_may_or_dead two_may p_env = Some DefiniteEve ∧
   refinement two_may second_only (λ gd, gd = Guard_default) (identity_below 3) ∧
   (λ v, bit v 0) <$> evaluate 9 ex_may_or_dead second_only p_env = Some false) ∧
  (tri_root ex_p (labelled KleeneBot) no_env = Some Trit_Unknown ∧
   failure_subgame <$> evaluate_3v_game 9 ex_p (labelled KleeneBot) no_env =
     Some (Some {| fs_positions := []; classifying_transitions := []; fs_root := None;
                   subgame_extraction_complete := true |})) ∧
  (root_verdict ex_can_p (parallel MayOnly (MustHyperOnly [1])) p_env = Some Indefinite ∧
   root_verdict ex_can_p (parallel (MustHyperOnly [1]) MayOnly) p_env = Some DefiniteEve).
Proof.
  pose proof second_refines. split_and!; try done; vm_compute; reflexivity.
Qed.
