(* ===== verification/Gr1.v ===== *)
(** The GR(1) solver and its strategies: [mu_calculus/gr1.rs].

    The system is a turn-based arena: a state with a controllable transition is
    Eve's, any other one Adam's.  A set of states is a bit vector with one bit
    per state.  The loops of the source run until their set stops changing;
    [rounds] bounds them, and [None] is an exhausted bound or an index panic. *)
From S2P Require Import Prelude Trit Clts.

Abbreviation StateSet := (list bool) (only parsing).

Definition full (n : nat) : StateSet := bv_fill n true.
Definition empty_set (n : nat) : StateSet := bv_fill n false.

(** Controllable predecessor inside [safe]. *)
Definition cpre (c : Clts) (safe tgt : StateSet) : StateSet :=
  bv_tabulate (state_count c) (λ si,
    if negb (bit safe si) then false
    else
      let outs := outgoing c si in
      if null outs then false
      else
        let eve_owned := existsb (is_controllable c) outs in
        if eve_owned then existsb (λ t, bit tgt (target t)) (List.filter (is_controllable c) outs)
        else forallb (λ t, bit tgt (target t)) outs).

Definition safety_region (rounds : nat) (c : Clts) (safe : StateSet) : option StateSet :=
  stabilise rounds (λ x, Some (cpre c safe x)) (full (state_count c)).

Definition reach (rounds : nat) (c : Clts) (safe tgt : StateSet) : option StateSet :=
  stabilise rounds (λ x, Some (bv_or x (cpre c safe x))) (bv_and tgt safe).

Definition buchi (rounds : nat) (c : Clts) (safe f : StateSet) : option StateSet :=
  stabilise rounds (λ z, reach rounds c safe (bv_and f (cpre c safe z)))
    (bv_and (full (state_count c)) safe).

(** [νX. base ∨ (¬a ∧ CPre(X))] *)
Definition gr1_nu_x (rounds : nat) (c : Clts) (safe base a : StateSet) : option StateSet :=
  stabilise rounds (λ x, Some (bv_or base (bv_and (bv_not a) (cpre c safe x))))
    (bv_and (full (state_count c)) safe).

(** [⋁_i νX. base ∨ (¬a_i ∧ CPre(X))], or [base] without assumptions. *)
Definition gr1_disj (rounds : nat) (c : Clts) (safe base : StateSet) (env_fair : list StateSet) : option StateSet :=
  if null env_fair then Some base
  else for_each (λ d a, let* nx := gr1_nu_x rounds c safe base a in Some (bv_or d nx))
         (empty_set (state_count c)) env_fair.

Definition gr1_mu_y (rounds : nat) (c : Clts) (safe g z : StateSet) (env_fair : list StateSet) : option StateSet :=
  let g_and_cprez := bv_and g (cpre c safe z) in
  stabilise rounds (λ y,
    let* disj := gr1_disj rounds c safe (bv_or g_and_cprez (cpre c safe y)) env_fair in
    Some (bv_or y disj)) (empty_set (state_count c)).

Definition gr1_win (rounds : nat) (c : Clts) (safe : StateSet) (sys_fair env_fair : list StateSet) : option StateSet :=
  if null sys_fair then safety_region rounds c safe
  else
    let* z := safety_region rounds c safe in
    stabilise rounds (λ z,
      for_each (λ z_next g, let* y := gr1_mu_y rounds c safe g z env_fair in Some (bv_and z_next y))
        (bv_and (full (state_count c)) safe) sys_fair) z.

(** ** Ranks *)

(** The newly added states get the rank; [true] when there are any. *)
Definition set_ranks (n r : nat) (cp : StateSet) (rank : list (option nat)) : list (option nat) * bool :=
  let new i := bit cp i && bool_decide (rank !! i = Some None) in
  (imap (λ i x, if new i then Some r else x) rank, existsb new (seq 0 n)).

Fixpoint reach_ranks_loop (rounds : nat) (c : Clts) (arena current : StateSet) (r : nat) (rank : list (option nat))
    : option (list (option nat)) :=
  match rounds with
  | O => None
  | S k =>
    let n := state_count c in
    let cp := cpre c arena current in
    let '(rank', added) := set_ranks n (S r) cp rank in
    let current' := imap (λ i b, b || (bit cp i && bool_decide (rank !! i = Some None))) current in
    if added then reach_ranks_loop k c arena current' (S r) rank' else Some rank'
  end.

Definition gr1_reach_ranks (rounds : nat) (c : Clts) (arena tgt : StateSet) : option (list (option nat)) :=
  let n := state_count c in
  let current := bv_and tgt arena in
  reach_ranks_loop rounds c arena current 0 (map (λ i, if bit current i then Some 0 else None) (seq 0 n)).

Fixpoint mu_y_ranks_loop (rounds inner : nat) (c : Clts) (safe g_and_cprez : StateSet) (env_fair : list StateSet)
    (y : StateSet) (k : nat) (rank : list (option nat)) : option (list (option nat)) :=
  match rounds with
  | O => None
  | S r =>
    let* disj := gr1_disj inner c safe (bv_or g_and_cprez (cpre c safe y)) env_fair in
    let y_next := bv_or y disj in
    let new i := bit y_next i && negb (bit y i) in
    let rank' := imap (λ i x, if new i then Some k else x) rank in
    if existsb new (seq 0 (state_count c))
    then mu_y_ranks_loop r inner c safe g_and_cprez env_fair y_next (S k) rank'
    else Some rank'
  end.

Definition gr1_mu_y_ranks (rounds : nat) (c : Clts) (safe g z : StateSet) (env_fair : list StateSet)
    : option (list (option nat)) :=
  let n := state_count c in
  mu_y_ranks_loop rounds rounds c safe (bv_and g (cpre c safe z)) env_fair (empty_set n) 0 (replicate n None).

(** ** Strategies *)

(** A rank, or [usize::MAX] without one. *)
Definition rank_key (r : option nat) : N := default (2 ^ 64 - 1)%N (N.of_nat <$> r).

(** The first target in [z] of least rank; reading the ranks can panic. *)
Fixpoint best_target (z : StateSet) (ranks : option (list (option nat))) (best : option (N * StateId))
    (ts : list Transition) : option (option (N * StateId)) :=
  match ts with
  | [] => Some best
  | t :: ts' =>
    if negb (bit z (target t)) then best_target z ranks best ts'
    else
      let* rank := ranks in
      let tr := rank_key (default None (rank !! target t)) in
      let better := match best with None => true | Some (br, _) => (tr <? br)%N end in
      best_target z ranks (if better then Some (tr, target t) else best) ts'
  end.

(** The states of [z] with a controllable transition. *)
Definition eve_choices (c : Clts) (z : StateSet) : list StateId :=
  List.filter (λ s, bit z s && existsb (is_controllable c) (outgoing c s)) (states c).

Definition gr1_strategy_single (rounds : nat) (c : Clts) (z g : StateSet) : option (gmap StateId StateId) :=
  let* rank := gr1_reach_ranks rounds c z (bv_and g (cpre c z z)) in
  for_each (λ strat s,
    let* best := best_target z (Some rank) None (List.filter (is_controllable c) (outgoing c s)) in
    Some (match best with Some (_, ti) => <[s := ti]> strat | None => strat end)) ∅ (eve_choices c z).

Record Gr1MultiStrategy := {
  gs_moves : gmap (StateId * nat) (StateId * nat);
  n_modes : nat
}.

Definition gr1_strategy_multi (rounds : nat) (c : Clts) (safe z : StateSet) (sys_fair env_fair : list StateSet)
    : option Gr1MultiStrategy :=
  let m := Nat.max (length sys_fair) 1 in
  let* ranks := for_each (λ rs g, let* r := gr1_mu_y_ranks rounds c safe g z env_fair in Some (rs ++ [r])) [] sys_fair in
  let* moves := for_each (λ moves sm,
      let '(s, mode) := sm in
      let* best := best_target z (ranks !! mode) None (List.filter (is_controllable c) (outgoing c s)) in
      match best with
      | None => Some moves
      | Some (_, ti) =>
        let* g := sys_fair !! mode in
        Some (<[(s, mode) := (ti, if bit g ti then (mode + 1) mod m else mode)]> moves)
      end) ∅ (list_prod (eve_choices c z) (seq 0 m)) in
  Some {| gs_moves := moves; n_modes := m |}.
