(* ===== verification/Gr1Game.v ===== *)
(** The GR(1) game: its plays, what each player can enforce, and the winning
    region [gr1_win] computes.

    [eve_wins] and [adam_wins] are the two players' winning conditions over
    strategies that see the whole history.  The fixpoints of the
    solver are named here ([Win], [MuY], [NuX]) and computed by it ([gr1_win_spec]). *)
From S2P Require Import Prelude Trit Clts Gr1.

(** ** The game *)

Section game.
Context (c : Clts) (safe : StateSet).

Definition eve (s : StateId) : bool := existsb (is_controllable c) (outgoing c s).

(** Where the owner of a state can move. *)
Definition moves (s : StateId) : list StateId :=
  map target (if eve s then List.filter (is_controllable c) (outgoing c s) else outgoing c s).

(** A play visits [π 0], [π 1], ...; a strategy sees the states visited so far. *)
Definition history (π : nat → StateId) (t : nat) : list StateId := map π (seq 0 (S t)).

Definition play (π : nat → StateId) (s : StateId) : Prop := π 0 = s ∧ ∀ t, π (S t) ∈ moves (π t).
Definition follows (owner : bool) (σ : list StateId → StateId) (π : nat → StateId) : Prop :=
  ∀ t, eve (π t) = owner → π (S t) = σ (history π t).

(** The finite histories from [s], ending in [x], in which the player keeps to
    the strategy. *)
Inductive partial_play (owner : bool) (σ : list StateId → StateId) (s : StateId) : StateId → list StateId → Prop :=
  | pp_start : partial_play owner σ s s [s]
  | pp_step x h y : partial_play owner σ s x h → y ∈ moves x → (eve x = owner → y = σ h) →
      partial_play owner σ s y (h ++ [y]).

Definition infinitely_often (S : StateSet) (π : nat → StateId) : Prop := ∀ t, ∃ t', t ≤ t' ∧ bit S (π t') = true.

(** If the environment meets every assumption infinitely often, the system meets
    every guarantee infinitely often. *)
Definition objective (sys_fair env_fair : list StateSet) (π : nat → StateId) : Prop :=
  (∀ a, a ∈ env_fair → infinitely_often a π) → ∀ g, g ∈ sys_fair → infinitely_often g π.

(** Eve never gets stuck nor leaves [safe], and meets the objective. *)
Definition eve_wins (sys_fair env_fair : list StateSet) (s : StateId) : Prop :=
  ∃ σ, (∀ x h, partial_play true σ s x h →
          bit safe x = true ∧ moves x ≠ [] ∧ (eve x = true → σ h ∈ moves x)) ∧
       ∀ π, play π s → follows true σ π → objective sys_fair env_fair π.

(** Adam's moves are legal, and every infinite play leaves [safe] or misses the
    objective. *)
Definition adam_wins (sys_fair env_fair : list StateSet) (s : StateId) : Prop :=
  ∃ τ, (∀ x h, partial_play false τ s x h → eve x = false → moves x ≠ [] → τ h ∈ moves x) ∧
       ∀ π, play π s → follows false τ π → (∀ t, bit safe (π t) = true) → ¬ objective sys_fair env_fair π.

(** ** Controllable predecessors *)

Lemma moves_nil s : moves s = [] ↔ outgoing c s = [].
Proof using Type.
  unfold moves, eve. destruct (existsb _ _) eqn:E.
  - apply existsb_spec in E as (t & Ht & Hct). split.
    + intros Hm. apply map_eq_nil in Hm. assert (Hin : t ∈ List.filter (is_controllable c) (outgoing c s)) by (by apply elem_of_filterb).
      rewrite Hm in Hin. by apply not_elem_of_nil in Hin.
    + intros Ho. rewrite Ho in Ht. by apply not_elem_of_nil in Ht.
  - split; [apply map_eq_nil|by intros ->].
Qed.

Lemma moves_lt s y : clts_ok c → y ∈ moves s → y < state_count c.
Proof using Type.
  intros Hc. unfold moves. rewrite list_elem_of_fmap. intros (t & -> & Ht).
  destruct (eve s); [apply elem_of_filterb in Ht as [Ht _]|]; by eapply ok_target.
Qed.

(** The state belongs to its controllable predecessors of [T]. *)
Lemma bit_cpre T s :
  bit (cpre c safe T) s = true ↔ s < state_count c ∧ bit safe s = true ∧ moves s ≠ [] ∧
    if eve s then ∃ y, y ∈ moves s ∧ bit T y = true else ∀ y, y ∈ moves s → bit T y = true.
Proof using Type.
  destruct (decide (s < state_count c)) as [Hs|Hs].
  2: { rewrite bit_ge by (unfold cpre; rewrite length_bv_tabulate; lia). split; [done|]. by intros [? _]. }
  unfold cpre. rewrite bit_tabulate by done. rewrite moves_nil. destruct (bit safe s); simpl; [|naive_solver].
  destruct (null (outgoing c s)) eqn:En.
  { destruct (outgoing c s); [|done]. split; [done|]. by intros (_ & _ & ? & _). }
  assert (Hne : outgoing c s ≠ []) by (by destruct (outgoing c s)).
  unfold moves. fold (eve s). destruct (eve s).
  - rewrite existsb_spec. setoid_rewrite list_elem_of_fmap. split.
    + intros (t & Ht & Hb). split_and!; [done..|]. exists (target t). split; [|done]. by exists t.
    + intros (_ & _ & _ & y & (t & -> & Ht) & Hb). by exists t.
  - rewrite forallb_spec. setoid_rewrite list_elem_of_fmap. split.
    + intros H. split_and!; [done..|]. intros y (t & -> & Ht). auto.
    + intros (_ & _ & _ & H) t Ht. apply H. by exists t.
Qed.

Lemma length_cpre T : length (cpre c safe T) = state_count c.
Proof using Type. apply length_bv_tabulate. Qed.

Lemma cpre_mono T T' : bv_sub T T' → bv_sub (cpre c safe T) (cpre c safe T').
Proof using Type.
  intros H s. rewrite !bit_cpre. intros (? & ? & ? & Hm). split_and!; [done..|].
  destruct (eve s); [destruct Hm as (y & ? & ?); exists y; auto|auto].
Qed.

Lemma cpre_safe T : bv_sub (cpre c safe T) safe.
Proof using Type. intros s. rewrite bit_cpre. by intros (_ & ? & _). Qed.

(** A safe state with moves outside the predecessors of [T]: Adam can avoid [T]. *)
Lemma not_cpre T s : s < state_count c → bit safe s = true → moves s ≠ [] → bit (cpre c safe T) s = false →
  if eve s then ∀ y, y ∈ moves s → bit T y = false else ∃ y, y ∈ moves s ∧ bit T y = false.
Proof using Type.
  intros Hs Hsafe Hm Hn. apply not_true_iff_false in Hn. rewrite bit_cpre in Hn. destruct (eve s).
  - intros y Hy. apply not_true_iff_false. intros Hb. apply Hn. split_and!; [done..|]. by exists y.
  - destruct (forallb (λ y, bit T y) (moves s)) eqn:E.
    + exfalso. apply Hn. rewrite forallb_spec in E. by split_and!.
    + apply not_true_iff_false in E. rewrite forallb_spec in E.
      destruct (decide (Exists (λ y, bit T y = false) (moves s))) as [(y & ? & ?)%Exists_exists|Hno]; [eauto|].
      exfalso. apply E. intros y Hy. destruct (bit T y) eqn:Eb; [done|]. exfalso. apply Hno, Exists_exists. eauto.
Qed.
End game.

(** ** The fixpoints the solver iterates *)

Lemma bit_or_same a b i : length a = length b → bit (bv_or a b) i = bit a i || bit b i.
Proof.
  intros Hl. destruct (decide (i < length a)); [by apply bit_or|].
  rewrite !bit_ge; rewrite ?length_bv_or; (done || lia).
Qed.

Lemma bit_and_not a b i : length a = length b → bit (bv_and (bv_not a) b) i = negb (bit a i) && bit b i.
Proof.
  intros Hl. rewrite bit_and. destruct (decide (i < length a)); [by rewrite bit_not|].
  rewrite (bit_ge b) by lia. by rewrite !andb_false_r.
Qed.

Lemma bv_and_full n s : length s = n → bv_and (full n) s = s.
Proof.
  intros Hl. unfold full. apply bv_eq; rewrite length_bv_and, length_bv_fill; [done|].
  intros i Hi. rewrite bit_and, bit_fill, bool_decide_eq_true_2 by done. done.
Qed.

Lemma null_false_elem {A} (l : list A) : null l = false → ∃ x, x ∈ l.
Proof. destruct l as [|x l]; [done|]. exists x. by left. Qed.

(** Monotone iteration. *)
Lemma iter_sub (F G : StateSet → StateSet) x y k :
  bv_sub x y → (∀ u v, bv_sub u v → bv_sub (F u) (G v)) → bv_sub (Nat.iter k F x) (Nat.iter k G y).
Proof. intros Hxy HFG. induction k as [|k IH]; simpl; auto. Qed.

Lemma iter_invariant {A} (P : A → Prop) (F : A → A) k x : P x → (∀ y, P y → P (F y)) → P (Nat.iter k F x).
Proof. intros Hx HF. induction k as [|k IH]; simpl; auto. Qed.

Section solver.
Context (c : Clts) (safe : StateSet) (sys_fair env_fair : list StateSet).
Notation n := (state_count c).
Context (Hsafe : length safe = n) (Hsys : Forall (λ g, length g = n) sys_fair) (Henv : Forall (λ a, length a = n) env_fair).
Notation C := (cpre c safe).

Definition NuStep (base a x : StateSet) : StateSet := bv_or base (bv_and (bv_not a) (C x)).
Definition NuX (base a : StateSet) : StateSet := Nat.iter n (NuStep base a) safe.
Definition Disj (base : StateSet) : StateSet :=
  if null env_fair then base else foldl (λ d a, bv_or d (NuX base a)) (empty_set n) env_fair.
Definition Base (g z y : StateSet) : StateSet := bv_or (bv_and g (C z)) (C y).
Definition Grow (g z y : StateSet) : StateSet := bv_or y (Disj (Base g z y)).
Definition MuY (g z : StateSet) : StateSet := Nat.iter n (Grow g z) (empty_set n).
Definition Outer (z : StateSet) : StateSet := foldl (λ acc g, bv_and acc (MuY g z)) safe sys_fair.
Definition Safety : StateSet := Nat.iter n C (full n).
Definition Win : StateSet := if null sys_fair then Safety else Nat.iter n Outer Safety.

(** A set of safe states. *)
Definition arena (x : StateSet) : Prop := length x = n ∧ bv_sub x safe.

Lemma arena_cpre x : arena (C x).
Proof using Type. split; [apply length_cpre|apply cpre_safe]. Qed.

Lemma arena_safe : arena safe.
Proof using Hsafe. split; [exact Hsafe|apply bv_sub_refl]. Qed.

Lemma arena_empty : arena (empty_set n).
Proof using Type. split; [apply length_bv_fill|]. intros i. unfold empty_set. by rewrite bit_fill. Qed.

Lemma arena_or x y : arena x → arena y → arena (bv_or x y).
Proof using Type.
  intros [Hx Hxs] [Hy Hys]. split; [by rewrite length_bv_or|]. intros i.
  rewrite bit_or_same by congruence. intros [?|?]%orb_true_iff; auto.
Qed.

Lemma arena_and x y : length x = n → arena y → arena (bv_and x y).
Proof using Type. intros Hx [_ Hy]. split; [by rewrite length_bv_and|]. intros i. rewrite bit_and. intros [_ ?]%andb_true_iff. auto. Qed.

Lemma bit_NuStep base a x i : length base = n → length a = n →
  bit (NuStep base a x) i = true ↔ bit base i = true ∨ (bit a i = false ∧ bit (C x) i = true).
Proof using Type.
  intros Hb Ha. unfold NuStep.
  rewrite bit_or_same by (rewrite length_bv_and; unfold bv_not; by rewrite length_fmap, Hb).
  rewrite bit_and_not by (by rewrite length_cpre). rewrite orb_true_iff, andb_true_iff, negb_true_iff. done.
Qed.

Lemma arena_NuStep base a x : arena base → length a = n → arena (NuStep base a x).
Proof using Type.
  intros Hb Ha. apply arena_or; [done|]. apply arena_and; [by rewrite length_bv_not|apply arena_cpre].
Qed.

Lemma NuStep_mono base base' a x y : length base = n → length base' = n → length a = n →
  bv_sub base base' → bv_sub x y → bv_sub (NuStep base a x) (NuStep base' a y).
Proof using Type.
  intros Hb Hb' Ha Hbb Hxy i. rewrite !bit_NuStep by done. intros [?|[? ?]]; [left; auto|right].
  split; [done|]. by eapply (cpre_mono c safe x y).
Qed.

(** One of the sets that shrink towards [NuX]. *)
Definition nu_descends (base a x : StateSet) : Prop := arena x ∧ bv_sub (NuStep base a x) x.

Lemma nu_descends_step base a x : arena base → length a = n → nu_descends base a x → nu_descends base a (NuStep base a x).
Proof using Type.
  intros Hb Ha [Hx Hd]. split; [by apply arena_NuStep|]. apply NuStep_mono; try done; [apply Hb|apply Hb|apply bv_sub_refl].
Qed.

Lemma nu_descends_safe base a : arena base → length a = n → nu_descends base a safe.
Proof using Hsafe. intros Hb Ha. split; [apply arena_safe|]. by apply arena_NuStep. Qed.

Lemma gr1_nu_x_spec rounds base a : arena base → length a = n → n < rounds →
  gr1_nu_x rounds c safe base a = Some (NuX base a) ∧ NuStep base a (NuX base a) = NuX base a.
Proof using Hsafe.
  intros Hb Ha Hr. unfold gr1_nu_x. rewrite bv_and_full by done.
  destruct (stabilise_shrinks (nu_descends base a) (NuStep base a) (λ x, Some (bv_or base (bv_and (bv_not a) (C x)))) n) with (rounds := rounds) (x := safe) as (E & Hfix & _).
  - intros x Hx. pose proof (nu_descends_step base a x Hb Ha Hx) as Hx'. split_and!; [done|done|apply Hx|apply Hx'|apply Hx].
  - by apply nu_descends_safe.
  - done.
  - done.
Qed.

Lemma arena_NuX base a : arena base → length a = n → arena (NuX base a).
Proof using Hsafe. intros Hb Ha. apply (iter_invariant arena); [apply arena_safe|]. intros. by apply arena_NuStep. Qed.

Lemma NuX_fix base a i : arena base → length a = n →
  bit (NuX base a) i = true ↔ bit base i = true ∨ (bit a i = false ∧ bit (C (NuX base a)) i = true).
Proof using Hsafe.
  intros Hb Ha. destruct (gr1_nu_x_spec (S n) base a Hb Ha) as [_ E]; [lia|].
  rewrite <-E at 1. apply bit_NuStep; [apply Hb|done].
Qed.

Lemma NuX_mono base base' a : arena base → arena base' → length a = n → bv_sub base base' → bv_sub (NuX base a) (NuX base' a).
Proof using Type.
  intros Hb Hb' Ha H. apply iter_sub; [apply bv_sub_refl|]. intros u v Huv. apply NuStep_mono; try done; [apply Hb|apply Hb'].
Qed.

Lemma foldl_or_spec (f : StateSet → StateSet) l d : length d = n → (∀ a, a ∈ l → length (f a) = n) →
  length (foldl (λ d a, bv_or d (f a)) d l) = n ∧
  ∀ i, bit (foldl (λ d a, bv_or d (f a)) d l) i = true ↔ bit d i = true ∨ ∃ a, a ∈ l ∧ bit (f a) i = true.
Proof using Type.
  revert d. induction l as [|a l IH]; intros d Hd Hf; cbn [foldl].
  { split; [done|]. intros i. split; [by left|]. by intros [?|(? & ?%not_elem_of_nil & _)]. }
  destruct (IH (bv_or d (f a))) as [Hl Hb]; [by rewrite length_bv_or|intros; apply Hf; by right|].
  split; [done|]. intros i. rewrite Hb, bit_or_same by (rewrite Hf by (by left); done).
  rewrite orb_true_iff. setoid_rewrite elem_of_cons. naive_solver.
Qed.

Lemma env_length a : a ∈ env_fair → length a = n.
Proof using Henv. rewrite Forall_forall in Henv. apply Henv. Qed.

(** Membership in the disjunction: the base, or one of the waiting regions. *)
Lemma bit_Disj base i : arena base →
  bit (Disj base) i = true ↔
  if null env_fair then bit base i = true else ∃ a, a ∈ env_fair ∧ bit (NuX base a) i = true.
Proof using Hsafe Henv.
  intros Hb. unfold Disj. destruct (null env_fair) eqn:E; [done|].
  destruct (foldl_or_spec (NuX base) env_fair (empty_set n)) as [_ H]; [apply arena_empty| |].
  { intros a Ha%env_length. by apply arena_NuX. }
  rewrite H. unfold empty_set. rewrite bit_fill. naive_solver.
Qed.

Lemma arena_Disj base : arena base → arena (Disj base).
Proof using Hsafe Henv.
  intros Hb. split.
  - unfold Disj. destruct (null env_fair); [apply Hb|].
    apply foldl_or_spec; [apply arena_empty|]. intros a Ha%env_length. by apply arena_NuX.
  - intros i. rewrite bit_Disj by done. destruct (null env_fair); [apply Hb|].
    intros (a & Ha%env_length & Hi). by apply (arena_NuX base a).
Qed.

Lemma base_Disj base : arena base → bv_sub base (Disj base).
Proof using Hsafe Henv.
  intros Hb i Hi. rewrite bit_Disj by done. destruct (null env_fair) eqn:En; [done|].
  destruct (null_false_elem _ En) as [a Ha]. exists a. split; [done|].
  apply NuX_fix; [done|by apply env_length|by left].
Qed.

Lemma Disj_mono base base' : arena base → arena base' → bv_sub base base' → bv_sub (Disj base) (Disj base').
Proof using Hsafe Henv.
  intros Hb Hb' H i. rewrite !bit_Disj by done. destruct (null env_fair); [apply H|].
  intros (a & Ha & Hi). exists a. split; [done|]. apply (NuX_mono base base' a); try done. by apply env_length.
Qed.

Lemma gr1_disj_spec rounds base : arena base → n < rounds → gr1_disj rounds c safe base env_fair = Some (Disj base).
Proof using Hsafe Henv.
  intros Hb Hr. unfold gr1_disj, Disj. destruct (null env_fair); [done|].
  assert (Hgen : ∀ l d, (∀ a, a ∈ l → length a = n) →
    for_each (λ d a, let* nx := gr1_nu_x rounds c safe base a in Some (bv_or d nx)) d l
    = Some (foldl (λ d a, bv_or d (NuX base a)) d l)).
  { induction l as [|a l IH]; intros d Hall; [done|]. cbn [for_each foldl].
    destruct (gr1_nu_x_spec rounds base a Hb) as [-> _]; [apply Hall; by left|done|].
    apply IH. intros; apply Hall; by right. }
  apply Hgen, env_length.
Qed.

Lemma arena_Base g z y : length g = n → arena (Base g z y).
Proof using Type. intros Hg. apply arena_or; [|apply arena_cpre]. apply arena_and; [done|apply arena_cpre]. Qed.

Lemma bit_Base g z y i : length g = n →
  bit (Base g z y) i = true ↔ (bit g i = true ∧ bit (C z) i = true) ∨ bit (C y) i = true.
Proof using Type.
  intros Hg. unfold Base. rewrite bit_or_same by (by rewrite length_bv_and, Hg, length_cpre).
  by rewrite bit_and, orb_true_iff, andb_true_iff.
Qed.

Lemma Base_mono g z z' y y' : length g = n → bv_sub z z' → bv_sub y y' → bv_sub (Base g z y) (Base g z' y').
Proof using Type.
  intros Hg Hz Hy i. rewrite !bit_Base by done. pose proof (cpre_mono c safe z z' Hz i). pose proof (cpre_mono c safe y y' Hy i). tauto.
Qed.

Lemma bit_Grow g z y i : length g = n → arena y →
  bit (Grow g z y) i = true ↔ bit y i = true ∨ bit (Disj (Base g z y)) i = true.
Proof using Hsafe Henv.
  intros Hg [Hy _]. unfold Grow. rewrite bit_or_same; [by rewrite orb_true_iff|].
  rewrite Hy. symmetry. by apply arena_Disj, arena_Base.
Qed.

Lemma arena_Grow g z y : length g = n → arena y → arena (Grow g z y).
Proof using Hsafe Henv. intros Hg Hy. apply arena_or; [done|]. by apply arena_Disj, arena_Base. Qed.

(** The approximants of [MuY]. *)
Definition Y (g z : StateSet) (k : nat) : StateSet := Nat.iter k (Grow g z) (empty_set n).

Lemma arena_Y g z k : length g = n → arena (Y g z k).
Proof using Hsafe Henv. intros Hg. apply (iter_invariant arena); [apply arena_empty|]. intros. by apply arena_Grow. Qed.

Lemma bit_Y_S g z k i : length g = n →
  bit (Y g z (S k)) i = true ↔ bit (Y g z k) i = true ∨ bit (Disj (Base g z (Y g z k))) i = true.
Proof using Hsafe Henv. intros Hg. apply bit_Grow; [done|by apply arena_Y]. Qed.

Lemma Y_mono_k g z k k' : length g = n → k ≤ k' → bv_sub (Y g z k) (Y g z k').
Proof using Hsafe Henv.
  intros Hg. induction 1 as [|k' _ IH]; [apply bv_sub_refl|]. eapply bv_sub_trans; [exact IH|].
  intros i Hi. apply bit_Y_S; auto.
Qed.

Lemma Y_mono_z g z z' k : length g = n → bv_sub z z' → bv_sub (Y g z k) (Y g z' k).
Proof using Hsafe Henv.
  intros Hg Hz. induction k as [|k IH]; [apply bv_sub_refl|]. intros i. rewrite !bit_Y_S by done.
  intros [?|Hd]; [left; auto|right]. eapply Disj_mono, Hd; [by apply arena_Base..|]. by apply Base_mono.
Qed.

Lemma gr1_mu_y_spec rounds g z : length g = n → n < rounds →
  gr1_mu_y rounds c safe g z env_fair = Some (MuY g z) ∧ Grow g z (MuY g z) = MuY g z.
Proof using Hsafe Henv.
  intros Hg Hr. unfold gr1_mu_y.
  destruct (stabilise_grows arena (Grow g z) (λ y,
    let* disj := gr1_disj rounds c safe (bv_or (bv_and g (C z)) (C y)) env_fair in Some (bv_or y disj)) n)
    with (rounds := rounds) (x := empty_set n) as (E & Hfix & _); [|apply arena_empty|done|done].
  intros y Hy. pose proof (arena_Grow g z y Hg Hy) as Hgr. split_and!; [|done|apply Hy|apply Hgr|].
  - fold (Base g z y). rewrite gr1_disj_spec; [done|by apply arena_Base|done].
  - intros i Hi. apply bit_Grow; [done..|by left].
Qed.

Lemma MuY_Y g z : MuY g z = Y g z n.
Proof using Type. done. Qed.

Lemma arena_MuY g z : length g = n → arena (MuY g z).
Proof using Hsafe Henv. apply arena_Y. Qed.

(** Every approximant consists of base states of the next one. *)
Lemma Y_Base g z k : length g = n → bv_sub (Y g z k) (Base g z (Y g z k)).
Proof using Hsafe Henv.
  intros Hg. induction k as [|k IH].
  { intros i. unfold Y, empty_set. simpl. by rewrite bit_fill. }
  assert (Hstep : bv_sub (Base g z (Y g z k)) (Base g z (Y g z (S k)))).
  { apply Base_mono; [done|apply bv_sub_refl|apply Y_mono_k; [done|lia]]. }
  intros i. rewrite bit_Y_S by done. intros [Hi|Hd]; [auto|].
  rewrite bit_Disj in Hd by (by apply arena_Base). destruct (null env_fair) eqn:En; [auto|].
  destruct Hd as (a & Ha & Hi). pose proof (env_length a Ha) as Hla.
  apply (NuX_fix (Base g z (Y g z k)) a i) in Hi as [Hi|[_ Hi]]; [auto| |by apply arena_Base|done].
  apply bit_Base; [done|]. right. eapply cpre_mono, Hi.
  intros j Hj. apply bit_Y_S; [done|]. right. rewrite bit_Disj, En by (by apply arena_Base). eauto.
Qed.

Lemma MuY_Base g z : length g = n → MuY g z = Base g z (MuY g z).
Proof using Hsafe Henv.
  intros Hg. apply bv_sub_antisym.
  - rewrite (proj1 (arena_MuY g z Hg)). symmetry. by apply arena_Base.
  - exact (Y_Base g z n Hg).
  - destruct (gr1_mu_y_spec (S n) g z Hg) as [_ E]; [lia|]. intros i Hi. rewrite <-E.
    apply bit_Grow; [done|by apply arena_MuY|]. right. by apply base_Disj; [apply arena_Base|].
Qed.

(** The waiting regions of the fixpoint are the fixpoint. *)
Lemma MuY_NuX g z a i : length g = n → a ∈ env_fair →
  bit (NuX (Base g z (MuY g z)) a) i = true ↔ bit (MuY g z) i = true.
Proof using Hsafe Henv.
  intros Hg Ha. split.
  - intros Hi. destruct (gr1_mu_y_spec (S n) g z Hg) as [_ E]; [lia|]. rewrite <-E.
    apply bit_Grow; [done|by apply arena_MuY|]. right. rewrite bit_Disj by (by apply arena_Base).
    destruct (null env_fair) eqn:En; [|by exists a]. destruct env_fair; [by apply not_elem_of_nil in Ha|done].
  - intros Hi. apply NuX_fix; [by apply arena_Base|by apply env_length|]. left. by rewrite <-MuY_Base.
Qed.

(** ** The outer fixpoint *)

Lemma safety_descends : bv_sub (C (full n)) (full n).
Proof using Type. intros i Hi. unfold full. rewrite bit_fill. apply bit_cpre in Hi as [Hi _]. by rewrite bool_decide_eq_true_2. Qed.

Lemma safety_region_spec rounds : n < rounds → safety_region rounds c safe = Some Safety ∧ C Safety = Safety.
Proof using Type.
  intros Hr. unfold safety_region.
  destruct (stabilise_shrinks (λ x, length x = n ∧ bv_sub (C x) x) C (λ x, Some (C x)) n) with (rounds := rounds) (x := full n)
    as (E & Hfix & _); [| |done|done].
  - intros x [Hx Hd]. split_and!; [done|apply length_cpre|by apply cpre_mono|done|apply length_cpre|done].
  - split; [apply length_bv_fill|apply safety_descends].
Qed.

Lemma arena_Safety : arena Safety.
Proof using Type. destruct (safety_region_spec (S n)) as [_ <-]; [apply Nat.lt_succ_diag_r|]. apply arena_cpre. Qed.

(** A set of states Eve can stay in is part of the safety region. *)
Lemma Safety_greatest U : (∀ i, bit U i = true → i < n) → bv_sub U (C U) → bv_sub U Safety.
Proof using Type.
  intros Hlt HU. apply (iter_invariant (bv_sub U) C).
  - intros i Hi. unfold full. rewrite bit_fill. by rewrite bool_decide_eq_true_2 by auto.
  - intros y Hy. eapply bv_sub_trans; [exact HU|]. by apply cpre_mono.
Qed.

Lemma sys_length g : g ∈ sys_fair → length g = n.
Proof using Hsys. rewrite Forall_forall in Hsys. apply Hsys. Qed.

Lemma foldl_and_spec (f : StateSet → StateSet) l d :
  length (foldl (λ acc g, bv_and acc (f g)) d l) = length d ∧
  ∀ i, bit (foldl (λ acc g, bv_and acc (f g)) d l) i = true ↔ bit d i = true ∧ ∀ g, g ∈ l → bit (f g) i = true.
Proof using Type.
  revert d. induction l as [|g l IH]; intros d; cbn [foldl].
  - split; [done|]. intros i. split; [|by intros [? _]]. split; [done|]. by intros g ?%not_elem_of_nil.
  - destruct (IH (bv_and d (f g))) as [Hl Hb]. rewrite length_bv_and in Hl. split; [done|].
    intros i. rewrite Hb, bit_and, andb_true_iff. setoid_rewrite elem_of_cons. naive_solver.
Qed.

Lemma bit_Outer z i : bit (Outer z) i = true ↔ bit safe i = true ∧ ∀ g, g ∈ sys_fair → bit (MuY g z) i = true.
Proof using Type. apply (foldl_and_spec (λ g, MuY g z)). Qed.

Lemma arena_Outer z : arena (Outer z).
Proof using Hsafe.
  split; [|intros i; rewrite bit_Outer; by intros [? _]].
  destruct (foldl_and_spec (λ g, MuY g z) sys_fair safe) as [E _]. unfold Outer. by rewrite E.
Qed.

Lemma Outer_mono z z' : bv_sub z z' → bv_sub (Outer z) (Outer z').
Proof using Hsafe Henv Hsys.
  intros Hz i. rewrite !bit_Outer. intros [? Hg]. split; [done|]. intros g Hin.
  exact (Y_mono_z g z z' n (sys_length g Hin) Hz i (Hg g Hin)).
Qed.

(** Reaching a guarantee or waiting leads nowhere out of the safety region. *)
Lemma Y_Safety g z k : length g = n → bv_sub z Safety → bv_sub (Y g z k) Safety.
Proof using Hsafe Henv.
  intros Hg Hz. induction k as [|k IH].
  { intros i. unfold Y, empty_set. simpl. by rewrite bit_fill. }
  set (D := Disj (Base g z (Y g z k))). pose proof (arena_Base g z (Y g z k) Hg) as HB.
  assert (HD : arena D) by (by apply arena_Disj).
  assert (HU : bv_sub (bv_or Safety D) Safety).
  { pose proof (proj2 (safety_region_spec (S n) (Nat.lt_succ_diag_r n))) as HS.
    assert (Hbit : ∀ i, bit (bv_or Safety D) i = true ↔ bit Safety i = true ∨ bit D i = true).
    { intros i. rewrite bit_or_same by (rewrite (proj1 arena_Safety); symmetry; apply HD). by rewrite orb_true_iff. }
    assert (HSU : bv_sub Safety (bv_or Safety D)) by (intros i Hi; apply Hbit; by left).
    assert (Hbase : bv_sub (Base g z (Y g z k)) (C (bv_or Safety D))).
    { intros i. rewrite bit_Base by done. intros [[_ Hi]|Hi]; (eapply cpre_mono, Hi; intros j Hj; apply HSU; auto). }
    apply Safety_greatest.
    - intros i Hi. apply bit_lt in Hi. by rewrite length_bv_or, (proj1 arena_Safety) in Hi.
    - intros i [Hi|Hi]%Hbit.
      + rewrite <-HS in Hi. by eapply cpre_mono, Hi.
      + pose proof Hi as Hi'. unfold D in Hi'. rewrite bit_Disj in Hi' by done. destruct (null env_fair) eqn:En; [auto|].
        destruct Hi' as (a & Ha & Hx). apply NuX_fix in Hx as [Hx|[_ Hx]]; [auto| |done|by apply env_length].
        eapply cpre_mono, Hx. intros j Hj. apply Hbit. right. unfold D. rewrite bit_Disj, En by done. by exists a. }
  intros i. rewrite bit_Y_S by done. intros [Hi|Hi]; [auto|]. apply HU.
  rewrite bit_or_same by (rewrite (proj1 arena_Safety); symmetry; apply HD). fold D in Hi. by rewrite Hi, orb_true_r.
Qed.

(** The approximants of the winning region. *)
Definition Z (p : nat) : StateSet := Nat.iter p Outer Safety.

Definition outer_descends (z : StateSet) : Prop := arena z ∧ bv_sub z Safety ∧ bv_sub (Outer z) z.

Lemma outer_start : null sys_fair = false → outer_descends Safety.
Proof using Hsafe Hsys Henv.
  intros Hne. split_and!; [apply arena_Safety|apply bv_sub_refl|]. intros i. rewrite bit_Outer. intros [_ Hi].
  destruct (null_false_elem _ Hne) as [g Hg]. apply (Y_Safety g Safety n (sys_length g Hg) (bv_sub_refl _)). exact (Hi g Hg).
Qed.

Lemma outer_step z : outer_descends z → outer_descends (Outer z).
Proof using Hsafe Hsys Henv.
  intros (Hz & Hs & Hd). split_and!; [apply arena_Outer|by eapply bv_sub_trans|by apply Outer_mono].
Qed.

Lemma Z_descends p : null sys_fair = false → outer_descends (Z p).
Proof using Hsafe Hsys Henv. intros Hne. apply (iter_invariant outer_descends); [by apply outer_start|apply outer_step]. Qed.

Lemma Z_anti p q : null sys_fair = false → p ≤ q → bv_sub (Z q) (Z p).
Proof using Hsafe Hsys Henv.
  intros Hne. induction 1 as [|q _ IH]; [apply bv_sub_refl|]. eapply bv_sub_trans; [|exact IH].
  by apply Z_descends.
Qed.

Lemma gr1_win_spec rounds : n < rounds →
  gr1_win rounds c safe sys_fair env_fair = Some Win ∧ (null sys_fair = false → Outer Win = Win).
Proof using Hsafe Hsys Henv.
  intros Hr. unfold gr1_win, Win. destruct (safety_region_spec rounds Hr) as [-> _].
  destruct (null sys_fair) eqn:Hne; [done|].
  destruct (stabilise_shrinks outer_descends Outer (λ z,
      for_each (λ z_next g, let* y := gr1_mu_y rounds c safe g z env_fair in Some (bv_and z_next y))
        (bv_and (full n) safe) sys_fair) n) with (rounds := rounds) (x := Safety) as (E & Hfix & _);
    [|by apply outer_start|done|by split].
  intros z Hz. pose proof (outer_step z Hz) as Hz'. split_and!; [|done|apply Hz|apply Hz'|apply Hz].
  rewrite bv_and_full by done. unfold Outer.
  assert (Hgen : ∀ l d, (∀ g, g ∈ l → length g = n) →
    for_each (λ z_next g, let* y := gr1_mu_y rounds c safe g z env_fair in Some (bv_and z_next y)) d l
    = Some (foldl (λ acc g, bv_and acc (MuY g z)) d l)).
  { induction l as [|g l IH]; intros d Hl; [done|]. cbn [for_each foldl].
    destruct (gr1_mu_y_spec rounds g z) as [-> _]; [apply Hl; by left|done|]. apply IH. intros; apply Hl; by right. }
  apply Hgen, sys_length.
Qed.
End solver.

(** ** Strategies with memory *)

(** The least index below [b] with the property. *)
Fixpoint least (P : nat → bool) (b : nat) : nat :=
  match b with O => O | S b' => if P 0 then 0 else S (least (λ k, P (S k)) b') end.

Lemma least_spec P b k : k ≤ b → P k = true → P (least P b) = true ∧ least P b ≤ k.
Proof.
  revert P k. induction b as [|b IH]; intros P k Hk HP; simpl.
  - assert (k = 0) as -> by lia. split; [done|lia].
  - destruct (P 0) eqn:E0; [split; [done|lia]|]. destruct k as [|k]; [congruence|].
    destruct (IH (λ k, P (S k)) k) as [H1 H2]; [lia|done|]. split; [done|lia].
Qed.

Section memory.
Context {M : Type} (c : Clts) (owner : bool) (upd : M → StateId → M) (choice : M → StateId → StateId) (m0 : M).

Definition run_step (acc : option (M * StateId)) (y : StateId) : option (M * StateId) :=
  match acc with None => Some (m0, y) | Some (m, x) => Some (upd m x, y) end.
Definition run_history (h : list StateId) : option (M * StateId) := foldl run_step None h.

(** The strategy that remembers an element of [M]. *)
Definition with_memory (h : list StateId) : StateId :=
  match run_history h with Some (m, x) => choice m x | None => 0 end.

(** The memory along a play. *)
Fixpoint memory (π : nat → StateId) (t : nat) : M :=
  match t with O => m0 | S t' => upd (memory π t') (π t') end.

Lemma run_play π t : run_history (history π t) = Some (memory π t, π t).
Proof using Type.
  unfold run_history, history. induction t as [|t IH]; [done|].
  rewrite seq_S, map_app, foldl_app, IH. done.
Qed.

Lemma follows_memory π t : follows c owner with_memory π → eve c (π t) = owner → π (S t) = choice (memory π t) (π t).
Proof using Type. intros Hf He. rewrite (Hf t He). unfold with_memory. by rewrite run_play. Qed.

(** An invariant of memory and state holds along the histories and the plays. *)
Context (I : M → StateId → Prop) (Hstep : ∀ m x y, I m x → y ∈ moves c x → (eve c x = owner → y = choice m x) → I (upd m x) y).

Lemma partial_memory s x h : I m0 s → partial_play c owner with_memory s x h → ∃ m, run_history h = Some (m, x) ∧ I m x.
Proof using Hstep.
  intros Hs. induction 1 as [|x h y _ (m & E & Hm) Hy Hc]; [by exists m0|].
  exists (upd m x). unfold run_history in *. rewrite foldl_app, E. split; [done|]. apply Hstep; [done..|].
  intros He. rewrite (Hc He). unfold with_memory, run_history. by rewrite E.
Qed.

Lemma play_memory s π : I m0 s → play c π s → follows c owner with_memory π → ∀ t, I (memory π t) (π t).
Proof using Hstep.
  intros Hs [H0 Hm] Hf t. induction t as [|t IH]; [by rewrite H0|]. simpl. apply Hstep; [done..|].
  by apply follows_memory.
Qed.
End memory.
