(* ===== verification/Gr1Correct.v ===== *)
(** The region of [gr1_win] is Eve's winning region.

    From a state of the region Eve wins by pursuing the guarantees in turn; from
    any other state Adam wins by staying out of the approximants the state is
    missing from. *)
From S2P Require Import Prelude Formula Trit Clts Verdicts Gr1 Gr1Game.

(** ** Eve *)

(** The first move into [T]. *)
Definition pick (c : Clts) (T : StateSet) (s : StateId) : StateId :=
  default 0 (head (List.filter (bit T) (moves c s))).

Lemma pick_spec c T s y : y ∈ moves c s → bit T y = true → pick c T s ∈ moves c s ∧ bit T (pick c T s) = true.
Proof.
  intros Hy HT. unfold pick. assert (Hin : y ∈ List.filter (bit T) (moves c s)) by (by apply elem_of_filterb).
  destruct (List.filter (bit T) (moves c s)) as [|x l] eqn:E; [by apply not_elem_of_nil in Hin|]. simpl.
  apply elem_of_filterb. rewrite E. by left.
Qed.

(** Moving into [T] from its controllable predecessors. *)
Lemma pick_cpre c safe T s : bit (cpre c safe T) s = true →
  bit safe s = true ∧ moves c s ≠ [] ∧
  (eve c s = true → pick c T s ∈ moves c s) ∧
  ∀ y, y ∈ moves c s → (eve c s = true → y = pick c T s) → bit T y = true.
Proof.
  rewrite bit_cpre. intros (_ & Hs & Hm & H). split_and!; [done..| |]; destruct (eve c s).
  - destruct H as (y & Hy & HT). intros _. by apply (pick_spec c T s y).
  - done.
  - destruct H as (y & Hy & HT). intros y' _ Hy'. rewrite Hy' by done. by apply (pick_spec c T s y).
  - auto.
Qed.

Section eve.
Context (c : Clts) (Hc : clts_ok c) (safe : StateSet) (sys_fair env_fair : list StateSet).
Notation n := (state_count c).
Context (Hsafe : length safe = n) (Hsys : Forall (λ g, length g = n) sys_fair) (Henv : Forall (λ a, length a = n) env_fair).
Context (Hne : null sys_fair = false).
Notation C := (cpre c safe).
Notation W := (Win c safe sys_fair env_fair).
Notation Yk g k := (Y c safe env_fair g W k).
Notation Base' g k := (Base c safe g W (Yk g k)).
Notation Mu g := (MuY c safe env_fair g W).
Notation m := (length sys_fair).

Definition rank (g : StateSet) (s : StateId) : nat := least (λ k, bit (Yk g (S k)) s) n.
Definition waits (g : StateSet) (k i : nat) (s : StateId) : bool :=
  match env_fair !! i with Some a => bit (NuX c safe (Base' g k) a) s | None => false end.
Definition waiting (g : StateSet) (s : StateId) : nat := least (λ i, waits g (rank g s) i s) (length env_fair).

(** What Eve aims for: a state of the region once the guarantee is met, a lower
    rank, or to wait in the region of an assumption. *)
Definition aim (g : StateSet) (s : StateId) : StateSet :=
  let k := rank g s in
  if bit g s && bit (C W) s then W
  else if bit (C (Yk g k)) s then Yk g k
  else match env_fair !! waiting g s with
       | Some a => NuX c safe (Base' g k) a
       | None => empty_set n
       end.

Lemma rank_spec g s : length g = n → bit (Mu g) s = true →
  bit (Yk g (S (rank g s))) s = true ∧ bit (Yk g (rank g s)) s = false ∧ rank g s ≤ n.
Proof using Hsafe Henv.
  intros Hg Hs. destruct (least_spec (λ k, bit (Yk g (S k)) s) n n) as [H1 H2]; [done| |].
  { apply bit_Y_S; [done..|]. by left. }
  fold (rank g s) in H1, H2. split_and!; [done| |done]. apply not_true_iff_false. intros Hb.
  destruct (rank g s) as [|k] eqn:Ek.
  - unfold Y, empty_set in Hb. simpl in Hb. by rewrite bit_fill in Hb.
  - destruct (least_spec (λ k, bit (Yk g (S k)) s) n k) as [_ H3]; [lia|done|]. fold (rank g s) in H3. lia.
Qed.

Lemma rank_le g s k : length g = n → k ≤ n → bit (Yk g (S k)) s = true → rank g s ≤ k.
Proof using Type. intros Hg Hk Hb. by apply (least_spec (λ k, bit (Yk g (S k)) s) n k). Qed.

Lemma rank_lt g s k : length g = n → k ≤ n → bit (Yk g k) s = true → rank g s < k.
Proof using Hsafe.
  intros Hg Hk Hb. destruct k as [|k].
  - unfold Y, empty_set in Hb. simpl in Hb. by rewrite bit_fill in Hb.
  - enough (rank g s ≤ k) by lia. by apply rank_le; [|lia|].
Qed.

(** The three cases of a state that can still be won for the guarantee. *)
Lemma aim_spec g s : length g = n → bit (Mu g) s = true →
  bit (C (aim g s)) s = true ∧
  ((bit g s = true ∧ bit (C W) s = true ∧ aim g s = W) ∨
   aim g s = Yk g (rank g s) ∨
   ∃ a, env_fair !! waiting g s = Some a ∧ bit a s = false ∧ aim g s = NuX c safe (Base' g (rank g s)) a).
Proof using Hsafe Henv.
  intros Hg Hs. destruct (rank_spec g s Hg Hs) as (H1 & H2 & Hk). unfold aim.
  destruct (bit g s && bit (C W) s) eqn:E1.
  { apply andb_true_iff in E1 as [??]. split; [done|]. by left. }
  destruct (bit (C (Yk g (rank g s))) s) eqn:E2; [split; [done|]; by right; left|].
  apply bit_Y_S in H1 as [?|Hd]; [congruence| |done..].
  assert (Hnb : bit (Base' g (rank g s)) s = false).
  { apply not_true_iff_false. intros [[Hx Hy]|?]%bit_Base; [by rewrite Hx, Hy in E1|congruence|done]. }
  rewrite bit_Disj in Hd by (done || by apply arena_Base). destruct (null env_fair); [congruence|].
  destruct Hd as (a & Ha & Hx). apply list_elem_of_lookup_1 in Ha as [i Hi].
  destruct (least_spec (λ i, waits g (rank g s) i s) (length env_fair) i) as [Hw _].
  { apply lookup_lt_Some in Hi. lia. }
  { unfold waits. by rewrite Hi. }
  fold (waiting g s) in Hw. unfold waits in Hw. destruct (env_fair !! waiting g s) as [a'|] eqn:Ea; [|done].
  apply NuX_fix in Hw as [?|[? ?]]; [congruence| |done|by apply arena_Base|].
  - split; [done|]. right; right. by exists a'.
  - apply list_elem_of_lookup_2 in Ea. by eapply env_length.
Qed.

(** Without meeting the guarantee the rank does not grow, nor the assumption
    waited for at the same rank. *)
Definition measure_lt (g : StateSet) (x y : StateId) : Prop :=
  rank g x < rank g y ∨ (rank g x = rank g y ∧ waiting g x < waiting g y).

Lemma aim_Mu g s y : length g = n → bit (Mu g) s = true → bit (aim g s) y = true →
  ¬ (bit g s = true ∧ bit (C W) s = true) →
  bit (Mu g) y = true ∧
  (measure_lt g y s ∨
   (rank g y = rank g s ∧ waiting g y = waiting g s ∧ ∃ a, env_fair !! waiting g s = Some a ∧ bit a s = false)).
Proof using Hsafe Henv.
  intros Hg Hs Hy Hno. destruct (rank_spec g s Hg Hs) as (_ & _ & Hk).
  destruct (aim_spec g s Hg Hs) as [_ [(? & ? & _)|[E|(a & Ea & Has & E)]]]; [by destruct Hno|..]; rewrite E in Hy.
  - split; [by apply (Y_mono_k c safe env_fair Hsafe Henv g W (rank g s) n Hg Hk)|].
    left. left. by apply rank_lt.
  - assert (Hla : length a = n) by (eapply env_length; [done|by eapply list_elem_of_lookup_2]).
    assert (HyS : bit (Yk g (S (rank g s))) y = true).
    { apply bit_Y_S; [done..|]. right. rewrite bit_Disj by (done || by apply arena_Base).
      destruct env_fair as [|a0 l] eqn:El; [done|]. exists a. split; [|done]. by eapply list_elem_of_lookup_2. }
    pose proof (rank_le g y (rank g s) Hg Hk HyS) as Hle.
    assert (HMu : bit (Mu g) y = true).
    { destruct (decide (rank g s = n)) as [En|Hlt]; [|by apply (Y_mono_k c safe env_fair Hsafe Henv g W (S (rank g s)) n Hg); [lia|]].
      rewrite En in HyS. destruct (gr1_mu_y_spec c safe env_fair Hsafe Henv (S n) g W Hg) as [_ Hfix]; [lia|].
      rewrite <-Hfix. exact HyS. }
    split; [done|]. destruct (decide (rank g y = rank g s)) as [Er|]; [|left; left; lia].
    assert (Hw : waiting g y ≤ waiting g s).
    { apply (least_spec (λ i, waits g (rank g y) i y)).
      - apply lookup_lt_Some in Ea. lia.
      - unfold waits. rewrite Ea, Er. exact Hy. }
    destruct (decide (waiting g y = waiting g s)) as [Ew|]; [right|left; right; lia].
    split_and!; [done..|]. by exists a.
Qed.

(** Eve remembers which guarantee she pursues. *)
Definition met (g : StateSet) (s : StateId) : bool := bit g s && bit (C W) s.
Definition pursue (j : nat) (s : StateId) : nat :=
  match sys_fair !! j with Some g => if met g s then (j + 1) mod m else j | None => j end.
Definition eve_choice (j : nat) (s : StateId) : StateId :=
  match sys_fair !! j with Some g => pick c (aim g s) s | None => 0 end.
Definition pursuing (j : nat) (s : StateId) : Prop := ∃ g, sys_fair !! j = Some g ∧ bit (Mu g) s = true.

Lemma pursue_eq j g s : sys_fair !! j = Some g → pursue j s = if met g s then (j + 1) mod m else j.
Proof using Type. unfold pursue. by intros ->. Qed.

Lemma sys_lookup_length j g : sys_fair !! j = Some g → length g = n.
Proof using Hsys. intros Hg. apply (sys_length c sys_fair Hsys). by eapply list_elem_of_lookup_2. Qed.

Lemma sys_some j : j < m → ∃ g, sys_fair !! j = Some g ∧ length g = n.
Proof using Hsys.
  intros Hj. destruct (lookup_lt_is_Some_2 sys_fair j Hj) as [g Hg]. exists g. split; [done|]. by eapply sys_lookup_length.
Qed.

Lemma m_pos : 0 < m.
Proof using Hne. clear -Hne. by destruct sys_fair; [|apply Nat.lt_0_succ]. Qed.

Lemma win_pursuing j s : bit W s = true → j < m → pursuing j s.
Proof using Hsafe Hsys Henv Hne.
  intros Hs Hj. destruct (sys_some j Hj) as (g & Hg & _). exists g. split; [done|].
  destruct (gr1_win_spec c safe sys_fair env_fair Hsafe Hsys Henv (S n)) as [_ E]; [lia|].
  rewrite <-(E Hne) in Hs. apply bit_Outer in Hs as [_ Hs]. apply Hs. by eapply list_elem_of_lookup_2.
Qed.

Lemma pursue_step j s y : pursuing j s → y ∈ moves c s → (eve c s = true → y = eve_choice j s) →
  pursuing (pursue j s) y ∧
  ∀ g, sys_fair !! j = Some g → met g s = false → bit (aim g s) y = true.
Proof using Hsafe Hsys Henv Hne.
  intros (g & Hg & Hs) Hy Hc'. assert (Hlg : length g = n) by (by eapply sys_lookup_length).
  unfold pursue, eve_choice in *. rewrite Hg in *.
  destruct (aim_spec g s Hlg Hs) as [Hcp _]. destruct (pick_cpre c safe (aim g s) s Hcp) as (_ & _ & _ & Hin).
  specialize (Hin y Hy Hc'). split; [|intros ? [= <-] _; done]. destruct (met g s) eqn:Em.
  - unfold met in Em. unfold aim in Hin. rewrite Em in Hin. apply win_pursuing; [done|].
    apply Nat.mod_upper_bound. pose proof m_pos. lia.
  - exists g. split; [done|]. apply (aim_Mu g s y Hlg Hs Hin). intros [H1 H2]. unfold met in Em. by rewrite H1, H2 in Em.
Qed.

(** The play of a winning strategy. *)
Section play.
Context (π : nat → StateId) (s : StateId) (Hs : pursuing 0 s) (Hplay : play c π s).
Context (Hfollows : follows c true (with_memory pursue eve_choice 0) π).
Notation μ t := (memory pursue 0 π t).

Lemma pursued t : pursuing (μ t) (π t).
Proof using All.
  apply (play_memory c true pursue eve_choice 0 pursuing) with (s := s); try done.
  intros j x y Hj Hy Hc'. by apply pursue_step.
Qed.

Definition weight (g : StateSet) (x : StateId) : nat := rank g x * S (length env_fair) + waiting g x.

Lemma weight_lt g x y : measure_lt g x y → weight g x < weight g y.
Proof using Type.
  assert (Hle : ∀ P b, least P b ≤ b) by (clear; intros P b; revert P; induction b as [|b IH]; intros P; simpl; [done|]; destruct (P 0); [lia|]; specialize (IH (λ k, P (S k))); lia).
  pose proof (Hle (λ i, waits g (rank g x) i x) (length env_fair)) as Hx. fold (waiting g x) in Hx.
  unfold measure_lt, weight. clear -Hx. intros [H|[-> H]]; [|lia].
  assert (rank g x * S (length env_fair) + S (length env_fair) ≤ rank g y * S (length env_fair)); [|lia].
  replace (rank g x * S (length env_fair) + S (length env_fair)) with (S (rank g x) * S (length env_fair)) by lia.
  apply Nat.mul_le_mono_r. lia.
Qed.

(** One step towards the guarantee: it is met, or the weight falls, or Eve waits. *)
Lemma pursuit_step t g : sys_fair !! μ t = Some g →
  met g (π t) = true ∨
  μ (S t) = μ t ∧ (weight g (π (S t)) < weight g (π t) ∨
    weight g (π (S t)) = weight g (π t) ∧ waiting g (π (S t)) = waiting g (π t) ∧
    ∃ a, env_fair !! waiting g (π t) = Some a ∧ bit a (π t) = false).
Proof using All.
  intros Hg. destruct (met g (π t)) eqn:Em; [by left|right].
  assert (Hlg : length g = n) by (by eapply sys_lookup_length).
  destruct (pursued t) as (g' & Hg' & Hin). assert (g' = g) as -> by congruence. split.
  { simpl. by rewrite (pursue_eq _ g), Em. }
  destruct (pursue_step (μ t) (π t) (π (S t)) (pursued t)) as [_ Haim];
    [apply Hplay|intros He; by apply (follows_memory c true pursue eve_choice 0)|].
  destruct (aim_Mu g (π t) (π (S t)) Hlg Hin (Haim g Hg Em)) as [_ [Hlt|(Hr & Hw & Ha)]].
  - intros [H1 H2]. unfold met in Em. by rewrite H1, H2 in Em.
  - left. by apply weight_lt.
  - right. split_and!; [|done..]. unfold weight. by rewrite Hr, Hw.
Qed.

Context (Hass : ∀ a, a ∈ env_fair → infinitely_often a π).

(** Every guarantee pursued is met. *)
Lemma pursuit_succeeds k : ∀ t g, sys_fair !! μ t = Some g → weight g (π t) < k →
  ∃ t', t ≤ t' ∧ μ t' = μ t ∧ met g (π t') = true.
Proof using All.
  induction k as [|k IH]; intros t g Hg Hk; [lia|].
  assert (Hwait : ∀ d t, sys_fair !! μ t = Some g → weight g (π t) < S k →
    (∃ a, env_fair !! waiting g (π t) = Some a ∧ bit a (π (t + d)) = true) →
    ∃ t', t ≤ t' ∧ μ t' = μ t ∧ met g (π t') = true).
  { clear t Hg Hk. induction d as [|d IHd]; intros t Hg Hk (a & Ha & Hd);
      destruct (pursuit_step t g Hg) as [Hm|[Hμ [Hlt|(Hw & Hwt & a' & Ha' & Hb)]]]; try (by exists t).
    1, 3: destruct (IH (S t) g) as (t' & ? & ? & ?); [by rewrite Hμ|lia|exists t'; split_and!; [lia|congruence|done]].
    - rewrite Nat.add_0_r in Hd. congruence.
    - destruct (IHd (S t)) as (t' & ? & ? & ?); [by rewrite Hμ|lia| |exists t'; split_and!; [lia|congruence|done]].
      exists a. rewrite Hwt. split; [done|]. by replace (S t + d) with (t + S d) by lia. }
  destruct (pursuit_step t g Hg) as [Hm|[Hμ [Hlt|(_ & _ & a & Ha & _)]]].
  - by exists t.
  - destruct (IH (S t) g) as (t' & ? & ? & ?); [by rewrite Hμ|lia|]. exists t'. split_and!; [lia|congruence|done].
  - destruct (Hass a) with (t := t) as (t1 & Ht1 & Hb1); [by eapply list_elem_of_lookup_2|].
    apply (Hwait (t1 - t) t Hg Hk). exists a. split; [done|]. by replace (t + (t1 - t)) with t1 by lia.
Qed.

(** The guarantees are pursued in turn. *)
Lemma pursuit_turns k t : ∃ t', t ≤ t' ∧ μ t' = (μ t + k) mod m.
Proof using All.
  assert (Hlt : ∀ t, μ t < m) by (intros t'; destruct (pursued t') as (g & Hg & _); by eapply lookup_lt_Some).
  induction k as [|k (t' & Ht & IH)].
  { exists t. split; [done|]. rewrite Nat.add_0_r, Nat.mod_small; auto. }
  destruct (sys_some (μ t') (Hlt t')) as (g & Hg & _).
  destruct (pursuit_succeeds (S (weight g (π t'))) t' g Hg) as (t2 & Ht2 & Hμ & Hm); [lia|].
  exists (S t2). split; [lia|]. simpl. rewrite Hμ, (pursue_eq _ g), Hm, IH by done.
  rewrite Nat.Div0.add_mod_idemp_l. f_equal. lia.
Qed.

Lemma guarantees_met g : g ∈ sys_fair → infinitely_often g π.
Proof using All.
  intros [j Hj]%list_elem_of_lookup_1 t. pose proof (lookup_lt_Some _ _ _ Hj) as Hjm.
  assert (Hlt : μ t < m) by (destruct (pursued t) as (g' & Hg' & _); by eapply lookup_lt_Some).
  destruct (pursuit_turns (j + m - μ t) t) as (t1 & Ht1 & Hμ1).
  replace (μ t + (j + m - μ t)) with (j + 1 * m) in Hμ1 by lia.
  rewrite Nat.Div0.mod_add, Nat.mod_small in Hμ1 by lia. rewrite <-Hμ1 in Hj.
  destruct (pursuit_succeeds (S (weight g (π t1))) t1 g Hj) as (t2 & Ht2 & _ & Hm); [lia|].
  exists t2. split; [lia|]. unfold met in Hm. by apply andb_true_iff in Hm as [? _].
Qed.
End play.

Lemma eve_wins_region s : bit W s = true → eve_wins c safe sys_fair env_fair s.
Proof using All.
  intros Hs. assert (H0 : pursuing 0 s) by (apply win_pursuing; [done|apply m_pos]).
  exists (with_memory pursue eve_choice 0). split.
  - intros x h Hh. destruct (partial_memory c true pursue eve_choice 0 pursuing) with (s := s) (x := x) (h := h)
      as (j & Hrun & g & Hg & Hx); [|done..|].
    { intros j' x' y Hj Hy Hc'. by apply pursue_step. }
    assert (Hlg : length g = n) by (by eapply sys_lookup_length).
    destruct (aim_spec g x Hlg Hx) as [Hcp _]. destruct (pick_cpre c safe _ x Hcp) as (? & ? & Hpick & _).
    split_and!; [done..|]. intros He. unfold with_memory, eve_choice. rewrite Hrun, Hg. auto.
  - intros π Hplay Hf Hass g Hg. by eapply guarantees_met.
Qed.
End eve.

(** Without guarantees Eve stays in the safety region. *)
Lemma eve_stays_safe c safe env_fair s : bit (Safety c safe) s = true → eve_wins c safe [] env_fair s.
Proof.
  intros Hs. destruct (safety_region_spec c safe (S (state_count c))) as [_ E]; [lia|].
  set (I := λ (_ : unit) x, bit (Safety c safe) x = true).
  exists (with_memory (λ _ _, ()) (λ _, pick c (Safety c safe)) ()). split.
  - intros x h Hh. destruct (partial_memory c true (λ _ _, ()) (λ _, pick c (Safety c safe)) () I) with (s := s) (x := x) (h := h)
      as ([] & Hrun & Hx); [|done..|].
    { intros m x' y Hx' Hy Hc. unfold I in *. rewrite <-E in Hx'. apply pick_cpre in Hx' as (_ & _ & _ & H). auto. }
    unfold I in Hx. rewrite <-E in Hx. apply pick_cpre in Hx as (? & ? & Hp & _). split_and!; [done..|].
    intros He. unfold with_memory. rewrite Hrun. auto.
  - intros π _ _ _ g ?%not_elem_of_nil. done.
Qed.

(** ** Adam *)

(** The first move outside [T], or the first move. *)
Definition avoid (c : Clts) (T : StateSet) (s : StateId) : StateId :=
  default (default 0 (head (moves c s))) (head (List.filter (λ y, negb (bit T y)) (moves c s))).

Lemma avoid_move c T s : moves c s ≠ [] → avoid c T s ∈ moves c s.
Proof.
  intros Hm. unfold avoid. destruct (List.filter _ _) as [|x l] eqn:E; simpl.
  - destruct (moves c s); [done|]. by left.
  - assert (Hx : x ∈ List.filter (λ y, negb (bit T y)) (moves c s)) by (rewrite E; by left).
    by apply elem_of_filterb in Hx as [? _].
Qed.

Lemma avoid_spec c T s : (∃ y, y ∈ moves c s ∧ bit T y = false) → bit T (avoid c T s) = false.
Proof.
  intros (y & Hy & HT). unfold avoid.
  assert (Hin : y ∈ List.filter (λ y, negb (bit T y)) (moves c s)) by (apply elem_of_filterb; by rewrite HT).
  destruct (List.filter _ _) as [|x l] eqn:E; [by apply not_elem_of_nil in Hin|]. simpl.
  assert (Hx : x ∈ List.filter (λ y, negb (bit T y)) (moves c s)) by (rewrite E; by left).
  apply elem_of_filterb in Hx as [_ ?]. by apply negb_true_iff.
Qed.

(** Adam leaves the winning region, leaves the safe states, or blocks guarantee
    [j] outside the approximant [q] while he waits for assumption [i]. *)
Inductive AdamGoal :=
  | Enter (q : nat)
  | Escape (r : nat)
  | Block (q j i r : nat).

Section adam.
Context (c : Clts) (Hc : clts_ok c) (safe : StateSet) (sys_fair env_fair : list StateSet).
Notation n := (state_count c).
Context (Hsafe : length safe = n) (Hsys : Forall (λ g, length g = n) sys_fair) (Henv : Forall (λ a, length a = n) env_fair).
Notation C := (cpre c safe).
Notation Zq q := (Z c safe sys_fair env_fair q).
Notation Mu g q := (MuY c safe env_fair g (Zq q)).
Notation Base' g q := (Base c safe g (Zq q) (Mu g q)).
Notation E := (Nat.max 1 (length env_fair)).

Definition guarantee (j : nat) : StateSet := default (empty_set n) (sys_fair !! j).
Definition assumption (i : nat) : StateSet := default (full n) (env_fair !! i).

(** What Adam stays out of. *)
Definition avoided (m : AdamGoal) : StateSet :=
  match m with
  | Enter q => Zq q
  | Escape r => Nat.iter r C (full n)
  | Block q j i r => Nat.iter r (NuStep c safe (Base' (guarantee j) q) (assumption i)) safe
  end.

Definition resolve (m : AdamGoal) (s : StateId) : AdamGoal :=
  match m with
  | Enter 0 => Escape n
  | Enter (S q) => Block q (least (λ j, negb (bit (Mu (guarantee j) q) s)) (length sys_fair)) 0 n
  | m => m
  end.

Definition adam_next (m : AdamGoal) (s : StateId) : AdamGoal :=
  match resolve m s with
  | Enter q => Enter q
  | Escape r => Escape (pred r)
  | Block q j i r =>
    if negb (bit (C (Zq q)) s) then Enter q
    else if bit (assumption i) s then Block q j ((i + 1) mod E) n
    else Block q j i (pred r)
  end.

Definition adam_choice (m : AdamGoal) (s : StateId) : StateId := avoid c (avoided (adam_next m s)) s.

(** The indices are in range and the state is outside. *)
Definition pending (m : AdamGoal) : Prop :=
  match m with Block _ j i r => j < length sys_fair ∧ i < E ∧ r ≤ n | _ => True end.
Definition adam_inv (m : AdamGoal) (s : StateId) : Prop := pending m ∧ bit (avoided m) s = false.

Lemma guarantee_length j : length (guarantee j) = n.
Proof using Hsys.
  unfold guarantee. destruct (sys_fair !! j) as [g|] eqn:Eg; [|apply length_bv_fill]. simpl.
  apply (sys_length c sys_fair Hsys). by eapply list_elem_of_lookup_2.
Qed.

Lemma assumption_length i : length (assumption i) = n.
Proof using Henv.
  unfold assumption. destruct (env_fair !! i) as [a|] eqn:Ea; [|apply length_bv_fill]. simpl.
  apply (env_length c env_fair Henv). by eapply list_elem_of_lookup_2.
Qed.

(** Waiting for an assumption does not help outside the fixpoint. *)
Lemma waiting_fixpoint j q i s : s < n → i < E →
  bit (NuX c safe (Base' (guarantee j) q) (assumption i)) s = true → bit (Mu (guarantee j) q) s = true.
Proof using Hsafe Hsys Henv.
  intros Hs Hi Hb. pose proof (guarantee_length j) as Hg. unfold assumption in Hb.
  destruct (env_fair !! i) as [a|] eqn:Ea; simpl in Hb.
  - apply (MuY_NuX c safe env_fair Hsafe Henv) with (a := a); [done| |done]. by eapply list_elem_of_lookup_2.
  - rewrite (MuY_Base c safe env_fair Hsafe Henv) by done. apply NuX_fix in Hb as [?|[Hf _]]; [done| |done|by apply arena_Base|apply length_bv_fill].
    unfold full in Hf. rewrite bit_fill, bool_decide_eq_true_2 in Hf by done. done.
Qed.

Lemma resolve_inv m s : s < n → bit safe s = true → adam_inv m s → adam_inv (resolve m s) s.
Proof using Hsafe Hsys Henv.
  intros Hs Hsf [Hp Hb]. destruct m as [[|q]|r|q j i r]; try done.
  cbn [resolve]. set (P := λ j, negb (bit (Mu (guarantee j) q) s)).
  assert (Hex : ∃ j, j < length sys_fair ∧ P j = true).
  { destruct (decide (Exists (λ g, bit (Mu g q) s = false) sys_fair)) as [(g & Hg & Hgs)%Exists_exists|Hno].
    - apply list_elem_of_lookup_1 in Hg as [j Hj]. exists j. split; [by eapply lookup_lt_Some|].
      unfold P, guarantee. by rewrite Hj; simpl; rewrite Hgs.
    - exfalso. apply not_true_iff_false in Hb. apply Hb. cbn [avoided]. apply bit_Outer. split; [done|].
      intros g Hg. destruct (bit (Mu g q) s) eqn:Eb; [done|]. exfalso. apply Hno, Exists_exists. by exists g. }
  destruct Hex as (j & Hj & HP). destruct (least_spec P (length sys_fair) j) as [H1 H2]; [lia|done|].
  split; [cbn [pending]; lia|]. cbn [avoided]. apply not_true_iff_false. intros Hx.
  apply (waiting_fixpoint _ q 0 s Hs) in Hx; [|lia].
  change (negb (bit (Mu (guarantee (least P (length sys_fair))) q) s) = true) in H1. fold P in Hx. by rewrite Hx in H1.
Qed.

Lemma adam_step m s y : s < n → bit safe s = true → adam_inv m s → y ∈ moves c s →
  (eve c s = false → y = adam_choice m s) → adam_inv (adam_next m s) y.
Proof using Hc Hsafe Hsys Henv.
  intros Hs Hsf Hinv Hy Hch. pose proof (resolve_inv m s Hs Hsf Hinv) as [Hp Hb].
  enough (Hgoal : pending (adam_next m s) ∧ bit (C (avoided (adam_next m s))) s = false).
  { destruct Hgoal as [Hp' Hn]. split; [done|]. apply not_cpre in Hn; [|done..|by intros Em; rewrite Em in Hy; apply not_elem_of_nil in Hy].
    destruct (eve c s); [auto|]. rewrite (Hch eq_refl). by apply avoid_spec. }
  unfold adam_next. destruct (resolve m s) as [q|r|q j i r] eqn:Er; cbn [avoided pending] in *.
  - by destruct m as [[|?]| |].
  - split; [done|]. destruct r as [|r]; [|done]. simpl in Hb. unfold full in Hb.
    by rewrite bit_fill, bool_decide_eq_true_2 in Hb by done.
  - destruct r as [|r]; [simpl in Hb; congruence|]. destruct Hp as (Hj & Hi & Hr).
    pose proof (guarantee_length j) as Hg. pose proof (assumption_length i) as Ha.
    assert (Hbase : bit (Base' (guarantee j) q) s = false ∧ (bit (assumption i) s = false →
      bit (C (avoided (Block q j i r))) s = false)).
    { apply not_true_iff_false in Hb. cbn [Nat.iter] in Hb. change (Nat.iter (S r) ?f ?x) with (f (Nat.iter r f x)) in Hb.
      rewrite bit_NuStep in Hb by (done || by apply arena_Base). split; [|intros Has]; apply not_true_iff_false; tauto. }
    destruct Hbase as [Hbase Hwait]. destruct (bit (C (Zq q)) s) eqn:Ez; cbn [negb]; [|done].
    destruct (bit (assumption i) s) eqn:Ea; cbn [pending pred].
    + split; [split_and!; [done|apply Nat.mod_upper_bound; lia|done]|]. cbn [avoided].
      apply not_true_iff_false. intros Hcp. apply not_true_iff_false in Hbase. apply Hbase, bit_Base; [done|]. right.
      apply bit_cpre in Hcp. apply bit_cpre. destruct Hcp as (? & ? & ? & Hm). split_and!; [done..|].
      assert (Hsub : ∀ z, z ∈ moves c s → bit (Nat.iter n (NuStep c safe (Base' (guarantee j) q) (assumption ((i + 1) mod E))) safe) z = true → bit (Mu (guarantee j) q) z = true).
      { intros z Hz. apply waiting_fixpoint; [by eapply moves_lt|apply Nat.mod_upper_bound; lia]. }
      destruct (eve c s); [destruct Hm as (z & Hz & Hzb); exists z; auto|auto].
    + split; [lia|]. auto.
Qed.

(** A play of Adam's strategy that stays safe. *)
Section play.
Context (m0 : AdamGoal) (π : nat → StateId) (s : StateId) (Hs : s < n) (H0 : adam_inv m0 s) (Hplay : play c π s).
Context (Hfollows : follows c false (with_memory adam_next adam_choice m0) π) (Hsf : ∀ t, bit safe (π t) = true).
Notation μ t := (memory adam_next m0 π t).
Notation goal t := (resolve (μ t) (π t)).

Lemma play_lt t : π t < n.
Proof using Hc Hs Hplay.
  destruct Hplay as [E0 Hm]. destruct t as [|t]; [by rewrite E0|]. by eapply moves_lt.
Qed.

Lemma play_inv t : adam_inv (μ t) (π t).
Proof using All.
  induction t as [|t IH]; [destruct Hplay as [-> _]; done|]. simpl.
  apply adam_step; [apply play_lt|done..|apply Hplay|]. intros He. by apply (follows_memory c false adam_next adam_choice m0).
Qed.

Lemma goal_inv t : adam_inv (goal t) (π t).
Proof using All. apply resolve_inv; [apply play_lt|done|apply play_inv]. Qed.

Lemma goal_step t : μ (S t) = match goal t with
  | Enter q => Enter q | Escape r => Escape (pred r)
  | Block q j i r => if negb (bit (C (Zq q)) (π t)) then Enter q
      else if bit (assumption i) (π t) then Block q j ((i + 1) mod E) n else Block q j i (pred r) end.
Proof using Type. done. Qed.

(** A safe play never escapes: the approximants of the safety region run out. *)
Lemma no_escape r : ∀ t, goal t = Escape r → False.
Proof using All.
  induction r as [|r IH]; intros t Hg.
  - destruct (goal_inv t) as [_ Hb]. rewrite Hg in Hb. cbn [avoided] in Hb. simpl in Hb. unfold full in Hb.
    by rewrite bit_fill, bool_decide_eq_true_2 in Hb by apply play_lt.
  - apply (IH (S t)). by rewrite goal_step, Hg.
Qed.

Lemma next_block q j i t r : μ t = Block q j i r → goal t = Block q j i r.
Proof using Type. by intros ->. Qed.

(** While Adam blocks, each awaited assumption is met, or he leaves an approximant. *)
Lemma block_waits q j i r : ∀ t, goal t = Block q j i r →
  ∃ t', t ≤ t' ∧ (μ (S t') = Enter q ∨ (bit (assumption i) (π t') = true ∧ μ (S t') = Block q j ((i + 1) mod E) n)).
Proof using All.
  induction r as [|r IH]; intros t Hg.
  - destruct (goal_inv t) as [_ Hb]. rewrite Hg in Hb. cbn [avoided] in Hb. simpl in Hb. by rewrite Hsf in Hb.
  - pose proof (goal_step t) as Hn. rewrite Hg in Hn. destruct (negb _); [exists t; auto|].
    destruct (bit (assumption i) (π t)) eqn:Ea; [exists t; auto|].
    destruct (IH (S t) (next_block _ _ _ _ _ Hn)) as (t' & Ht & H'). exists t'. split; [lia|done].
Qed.

(** A blocked state is outside the guarantee. *)
Lemma blocked q j i r t : goal t = Block q j i r → μ (S t) ≠ Enter q → bit (guarantee j) (π t) = false.
Proof using All.
  intros Hg Hne. pose proof (goal_step t) as Hn. rewrite Hg in Hn. destruct (bit (C (Zq q)) (π t)) eqn:Ez; [|done].
  destruct (goal_inv t) as [_ Hb]. rewrite Hg in Hb. cbn [avoided] in Hb. destruct r as [|r].
  - simpl in Hb. by rewrite Hsf in Hb.
  - change (Nat.iter (S r) ?f ?x) with (f (Nat.iter r f x)) in Hb. pose proof (guarantee_length j) as Hlg.
    apply not_true_iff_false in Hb. rewrite bit_NuStep in Hb by (apply assumption_length || by apply arena_Base).
    apply not_true_iff_false. intros Hgb. apply Hb. left. apply bit_Base; [done|]. by left.
Qed.

Context (Hobj : objective sys_fair env_fair π).

(** Blocking forever meets every assumption and misses the guarantee. *)
Lemma block_forever q j t0 : (∀ t, t0 ≤ t → μ t ≠ Enter q) → (∃ i r, goal t0 = Block q j i r) → False.
Proof using All.
  intros Hne Hblock.
  assert (Hall : ∀ d, ∃ i r, goal (t0 + d) = Block q j i r).
  { induction d as [|d (i & r & Hd)]; [by rewrite Nat.add_0_r|].
    pose proof (goal_step (t0 + d)) as Hn. rewrite Hd in Hn. rewrite <-plus_n_Sm.
    destruct (negb _) eqn:En; [exfalso; apply (Hne (S (t0 + d))); [lia|by rewrite Hn]|].
    destruct (bit (assumption i) (π (t0 + d))); eauto using next_block. }
  assert (Hturn : ∀ k t, t0 ≤ t → ∃ t' i i' r, t ≤ t' ∧ goal t = Block q j i r ∧ i < E ∧ i' = (i + k) mod E ∧
    ∃ r', goal t' = Block q j i' r').
  { induction k as [|k IH]; intros t Ht.
    - destruct (Hall (t - t0)) as (i & r & Hd). replace (t0 + (t - t0)) with t in Hd by lia.
      destruct (goal_inv t) as [Hp _]. rewrite Hd in Hp. destruct Hp as (_ & Hi & _).
      exists t, i, i, r. split_and!; [done..| |eauto]. by rewrite Nat.add_0_r, Nat.mod_small.
    - destruct (IH t Ht) as (t1 & i & i1 & r & Ht1 & Hd & Hi & -> & r1 & Hd1).
      destruct (block_waits _ _ _ _ _ Hd1) as (t2 & Ht2 & [Hen|[_ Hn]]).
      { exfalso. apply (Hne (S t2)); [lia|done]. }
      exists (S t2), i, (((i + k) mod E + 1) mod E), r. split_and!; [lia|done..| |eauto using next_block].
      rewrite Nat.Div0.add_mod_idemp_l. f_equal. lia. }
  assert (Hgj : infinitely_often (guarantee j) π).
  { destruct Hblock as (i & r & Hb). destruct (goal_inv t0) as [Hp _]. rewrite Hb in Hp. destruct Hp as (Hj & _).
    apply Hobj.
    - intros a [ia Hia]%list_elem_of_lookup_1 t. pose proof (lookup_lt_Some _ _ _ Hia) as Hlt.
      destruct (Hturn 0 (t0 + t)) as (? & i0 & ? & r0 & _ & Hd0 & Hi0 & _); [lia|].
      destruct (Hturn (ia + E - i0) (t0 + t)) as (t1 & i1 & i' & r1 & Ht1 & Hd1 & Hi1 & -> & r' & Hd'); [lia|].
      assert (i1 = i0) as -> by congruence.
      replace (i0 + (ia + E - i0)) with (ia + 1 * E) in Hd' by lia.
      rewrite Nat.Div0.mod_add, Nat.mod_small in Hd' by lia.
      destruct (block_waits _ _ _ _ _ Hd') as (t2 & Ht2 & [Hen|[Ha _]]).
      { exfalso. apply (Hne (S t2)); [lia|done]. }
      exists t2. split; [lia|]. unfold assumption in Ha. by rewrite Hia in Ha.
    - unfold guarantee. destruct (lookup_lt_is_Some_2 sys_fair j Hj) as [g Hg]. rewrite Hg. simpl.
      by eapply list_elem_of_lookup_2. }
  destruct (Hgj t0) as (t & Ht & Hbt). destruct (Hall (t - t0)) as (i & r & Hd).
  replace (t0 + (t - t0)) with t in Hd by lia. rewrite (blocked _ _ _ _ _ Hd) in Hbt; [done|]. apply Hne. lia.
Qed.

Lemma adam_spoils q : ∀ t, μ t = Enter q → False.
Proof using All.
  induction q as [|q IH]; intros t Ht.
  - apply (no_escape n t). by rewrite Ht.
  - eapply (block_forever q _ t); [intros t' _ Ht'; by eapply IH|]. rewrite Ht. cbn [resolve]. eauto.
Qed.
End play.

Lemma adam_wins_outside q s : s < n → bit (Zq q) s = false → adam_wins c safe sys_fair env_fair s.
Proof using All.
  intros Hs Hb. exists (with_memory adam_next adam_choice (Enter q)). split.
  - intros x h Hh _ Hm. destruct (partial_memory c false adam_next adam_choice (Enter q) (λ _ _, True)) with (s := s) (x := x) (h := h)
      as (m & Hrun & _); [done..|]. unfold with_memory. rewrite Hrun. by apply avoid_move.
  - intros π Hplay Hf Hsf Hobj. by eapply (adam_spoils (Enter q) π s) with (t := 0) (q := q).
Qed.
End adam.

(** ** Both players *)

(** The play of two strategies. *)
Fixpoint joint_history (c : Clts) (σ τ : list StateId → StateId) (s : StateId) (t : nat) : StateId * list StateId :=
  match t with
  | O => (s, [s])
  | S t' => let '(x, h) := joint_history c σ τ s t' in let y := if eve c x then σ h else τ h in (y, h ++ [y])
  end.

Lemma joint_history_map c σ τ s t : (joint_history c σ τ s t).2 = history (λ t, (joint_history c σ τ s t).1) t.
Proof.
  unfold history. induction t as [|t IH]; [done|]. rewrite seq_S, map_app. cbn [joint_history].
  destruct (joint_history c σ τ s t) as [x h] eqn:E. cbn [snd] in *. rewrite <-IH. cbn [map]. f_equal. f_equal.
  change (0 + S t) with (S t). cbn [joint_history]. by rewrite E.
Qed.

(** At most one player wins. *)
Lemma wins_exclusive c safe sys_fair env_fair s :
  eve_wins c safe sys_fair env_fair s → adam_wins c safe sys_fair env_fair s → False.
Proof.
  intros (σ & Hσ & Hσw) (τ & Hτ & Hτw).
  set (π := λ t, (joint_history c σ τ s t).1).
  assert (Hnext : ∀ t, π (S t) = if eve c (π t) then σ (history π t) else τ (history π t)).
  { intros t. replace (history π t) with (joint_history c σ τ s t).2 by apply joint_history_map.
    unfold π. cbn [joint_history]. by destruct (joint_history c σ τ s t). }
  assert (Hpart : ∀ t, partial_play c true σ s (π t) (history π t) ∧ partial_play c false τ s (π t) (history π t) ∧
    π (S t) ∈ moves c (π t)).
  { assert (Hm : ∀ t, partial_play c true σ s (π t) (history π t) → partial_play c false τ s (π t) (history π t) →
      π (S t) ∈ moves c (π t)).
    { intros t H1 H2. destruct (Hσ _ _ H1) as (_ & Hne & He). rewrite Hnext. destruct (eve c (π t)) eqn:E; [auto|].
      by apply Hτ. }
    assert (Hh : ∀ t, history π (S t) = history π t ++ [π (S t)]) by (intros t; unfold history; by rewrite seq_S, map_app).
    intros t. induction t as [|t (H1 & H2 & H3)]; [split_and!; [constructor..|apply Hm; constructor]|].
    assert (H1' : partial_play c true σ s (π (S t)) (history π (S t))).
    { rewrite Hh. econstructor; [done..|]. intros He. by rewrite Hnext, He. }
    assert (H2' : partial_play c false τ s (π (S t)) (history π (S t))).
    { rewrite Hh. econstructor; [done..|]. intros He. by rewrite Hnext, He. }
    split_and!; auto. }
  assert (Hplay : play c π s) by (split; [done|]; intros t; apply Hpart).
  apply (Hτw π); [done|intros t He; by rewrite Hnext, He|intros t; by eapply Hσ, Hpart|].
  apply Hσw; [done|]. intros t He. by rewrite Hnext, He.
Qed.

(** C11: the GR(1) solver decides the game. With more rounds than states [gr1_win] returns a set, and from every state of the system exactly one player wins: Eve, by a strategy that never leaves the safe states nor gets stuck and meets every guarantee infinitely often on each play where every assumption holds infinitely often, when the state is in the set; Adam, by a strategy against which no safe infinite play meets the objective, when it is not *)
Theorem gr1_win_correct rounds c safe sys_fair env_fair :
  clts_ok c → length safe = state_count c →
  Forall (λ g, length g = state_count c) sys_fair → Forall (λ a, length a = state_count c) env_fair →
  state_count c < rounds →
  ∃ z, gr1_win rounds c safe sys_fair env_fair = Some z ∧ length z = state_count c ∧
    ∀ s, s < state_count c →
      (bit z s = true → eve_wins c safe sys_fair env_fair s ∧ ¬ adam_wins c safe sys_fair env_fair s) ∧
      (bit z s = false → adam_wins c safe sys_fair env_fair s ∧ ¬ eve_wins c safe sys_fair env_fair s).
Proof.
  intros Hc Hsafe Hsys Henv Hr. exists (Win c safe sys_fair env_fair).
  destruct (gr1_win_spec c safe sys_fair env_fair Hsafe Hsys Henv rounds Hr) as [-> _].
  assert (Heve : ∀ s, bit (Win c safe sys_fair env_fair) s = true → eve_wins c safe sys_fair env_fair s).
  { intros s. destruct (null sys_fair) eqn:En; [|by apply eve_wins_region].
    destruct sys_fair; [|done]. apply eve_stays_safe. }
  assert (Hadam : ∀ s, s < state_count c → bit (Win c safe sys_fair env_fair) s = false → adam_wins c safe sys_fair env_fair s).
  { intros s Hs Hb. apply (adam_wins_outside c Hc safe sys_fair env_fair Hsafe Hsys Henv)
      with (q := if null sys_fair then 0 else state_count c); [done|].
    unfold Win in Hb. unfold Z. by destruct (null sys_fair). }
  split_and!; [done| |].
  - unfold Win. destruct (null sys_fair) eqn:En; [apply arena_Safety|].
    apply (Z_descends c safe sys_fair env_fair Hsafe Hsys Henv (state_count c) En).
  - intros s Hs. split; intros Hb; (split; [auto|]); intros Hw; eapply wins_exclusive; eauto.
Qed.

(** In the request/grant system the environment may postpone requests forever;
    assuming it does not, the system can grant infinitely often. *)
Lemma gr1_win_correct_witness :
  let safe := [true; true] in let granted := [[true; false]] in let requested := [[false; true]] in
  gr1_win 3 demo_clts safe [[false; true]] [] = Some [false; false] ∧
  gr1_win 3 demo_clts safe [[false; true]] requested = Some [true; true] ∧
  ∃ z, gr1_win 3 demo_clts safe granted requested = Some z ∧ length z = state_count demo_clts ∧
    ∀ s, s < state_count demo_clts →
      (bit z s = true → eve_wins demo_clts safe granted requested s ∧ ¬ adam_wins demo_clts safe granted requested s) ∧
      (bit z s = false → adam_wins demo_clts safe granted requested s ∧ ¬ eve_wins demo_clts safe granted requested s).
Proof.
  split; [vm_compute; reflexivity|]. split; [vm_compute; reflexivity|].
  apply gr1_win_correct; [apply demo_clts_ok|reflexivity|repeat constructor..|vm_compute; lia].
Defined.
