(* ===== verification/Gr1Strategies.v ===== *)
(** The strategies of [gr1.rs].

    Without assumptions the positional strategy descends the attractor ranks and
    wins from the whole region ([single_strategy_correct]).  Both extractors
    return within more rounds than states. *)
From S2P Require Import Prelude Trit Clts Gr1 Gr1Game Gr1Correct.

(** ** Attractor ranks *)

Section ranks.
Context (c : Clts) (arena : StateSet).
Notation n := (state_count c).
Notation C := (cpre c arena).

(** The states whose rank is at most [k]. *)
Definition ranked (rank : list (option nat)) (k : nat) : StateSet :=
  bv_tabulate n (λ i, match rank !! i with Some (Some j) => j <=? k | _ => false end).

Lemma bit_ranked rank k i : length rank = n →
  bit (ranked rank k) i = true ↔ ∃ j, rank !! i = Some (Some j) ∧ j ≤ k.
Proof using Type.
  intros Hl. destruct (decide (i < n)) as [Hi|Hi].
  - unfold ranked. rewrite bit_tabulate by done. destruct (rank !! i) as [[j|]|] eqn:E.
    + rewrite Nat.leb_le. split; [by exists j|]. by intros (? & [= ->] & ?).
    + split; [done|]. by intros (? & ? & _).
    + split; [done|]. by intros (? & ? & _).
  - rewrite bit_ge by (unfold ranked; rewrite length_bv_tabulate; lia). split; [done|].
    intros (j & Hj & _). apply lookup_lt_Some in Hj. lia.
Qed.

(** Ranks up to [r] are assigned, and a positive rank is one step from lower ones. *)
Record ranks_ok (target current : StateSet) (r : nat) (rank : list (option nat)) : Prop := {
  rk_length : length rank = n;
  rk_current : length current = n ∧ ∀ i, bit current i = true ↔ ∃ k, rank !! i = Some (Some k);
  rk_bound : ∀ i k, rank !! i = Some (Some k) → k ≤ r;
  rk_target : ∀ i, rank !! i = Some (Some 0) ↔ bit target i = true ∧ i < n;
  rk_step : ∀ i k, rank !! i = Some (Some (S k)) → bit (C (ranked rank k)) i = true
}.

Lemma set_ranks_lookup r cp rank i k :
  (set_ranks n r cp rank).1 !! i = Some (Some k) ↔
  rank !! i = Some (Some k) ∨ (rank !! i = Some None ∧ bit cp i = true ∧ k = r).
Proof using Type.
  cbn [set_ranks fst]. rewrite list_lookup_imap. destruct (rank !! i) as [[j|]|] eqn:E; cbn [fmap option_fmap option_map].
  - rewrite bool_decide_eq_false_2, andb_false_r by congruence. naive_solver.
  - rewrite bool_decide_eq_true_2, andb_true_r by done. destruct (bit cp i); naive_solver.
  - naive_solver.
Qed.

Lemma set_ranks_added r cp rank : length rank = n →
  (set_ranks n r cp rank).2 = true ↔ ∃ i, bit cp i = true ∧ rank !! i = Some None.
Proof using Type.
  intros Hl. cbn [set_ranks snd]. rewrite existsb_spec. setoid_rewrite elem_of_seq.
  setoid_rewrite andb_true_iff. setoid_rewrite bool_decide_eq_true. split.
  - intros (i & _ & ? & ?). by exists i.
  - intros (i & ? & Hi). exists i. split; [|done]. apply lookup_lt_Some in Hi. lia.
Qed.

Lemma ranks_step target current r rank :
  ranks_ok target current r rank →
  let cp := C current in
  let current' := imap (λ i b, b || (bit cp i && bool_decide (rank !! i = Some None))) current in
  ranks_ok target current' (S r) (set_ranks n (S r) cp rank).1 ∧ bv_sub current current' ∧
  ((set_ranks n (S r) cp rank).2 = true → current' ≠ current) ∧
  ((set_ranks n (S r) cp rank).2 = false → bv_sub cp current).
Proof using Type.
  intros [Hl [Hcl Hc] Hb Ht Hs] cp current'.
  assert (Hcur : ∀ i, bit current' i = true ↔ bit current i = true ∨ (bit cp i = true ∧ rank !! i = Some None)).
  { intros i. unfold current', bit at 1. rewrite list_lookup_imap. destruct (current !! i) as [b|] eqn:E; simpl.
    - rewrite (bit_lookup current i b E), orb_true_iff, andb_true_iff, bool_decide_eq_true. done.
    - split; [done|]. intros [Hi|[_ Hi]]; [unfold bit in Hi; by rewrite E in Hi|].
      apply lookup_lt_Some in Hi. apply lookup_ge_None in E. lia. }
  assert (Hmono : ∀ k, bv_sub (ranked rank k) (ranked (set_ranks n (S r) cp rank).1 k)).
  { intros k i. rewrite !bit_ranked; [|by cbn [set_ranks fst]; rewrite length_imap|done].
    intros (j & Hj & ?). exists j. split; [|done]. apply set_ranks_lookup. by left. }
  split_and!.
  - constructor.
    + cbn [set_ranks fst]. by rewrite length_imap.
    + split; [by unfold current'; rewrite length_imap|]. intros i. rewrite Hcur, Hc. setoid_rewrite set_ranks_lookup.
      split; [intros [[k ?]|[? ?]]; [exists k; by left|exists (S r); by right]|].
      intros [k [?|(? & ? & _)]]; [left; by exists k|by right].
    + intros i k [Hk|(_ & _ & ->)]%set_ranks_lookup; [apply Hb in Hk; lia|lia].
    + intros i. rewrite set_ranks_lookup, Ht. naive_solver.
    + intros i k [Hk|(_ & Hcp & [= ->])]%set_ranks_lookup; [eapply cpre_mono; [apply Hmono|by apply Hs]|].
      eapply cpre_mono, Hcp. intros j Hj. apply bit_ranked; [by cbn [set_ranks fst]; rewrite length_imap|].
      apply Hc in Hj as [k Hk]. exists k. split; [apply set_ranks_lookup; by left|by eapply Hb].
  - intros i Hi. apply Hcur. by left.
  - intros (i & Hi & Hn)%set_ranks_added Heq; [|done]. assert (Hbi : bit current' i = true) by (apply Hcur; by right).
    rewrite Heq in Hbi. apply Hc in Hbi as [k Hk]. congruence.
  - intros Hadd i Hi. pose proof (bit_cpre c arena current i) as [Hlt _]. destruct (Hlt Hi) as [Hin _].
    apply Hc. destruct (rank !! i) as [[k|]|] eqn:E; [by exists k| |apply lookup_ge_None in E; lia].
    exfalso. apply not_true_iff_false in Hadd. apply Hadd, set_ranks_added; [done|]. by exists i.
Qed.

Lemma reach_ranks_loop_spec target rounds : ∀ current r rank,
  ranks_ok target current r rank → n - bv_count current < rounds →
  ∃ current' r' rank', reach_ranks_loop rounds c arena current r rank = Some rank' ∧
    ranks_ok target current' r' rank' ∧ bv_sub (C current') current'.
Proof using Type.
  induction rounds as [|k IH]; intros current r rank Hok Hr; [lia|].
  destruct (ranks_step target current r rank Hok) as (Hok' & Hsub & Hne & Hclosed).
  cbn [reach_ranks_loop]. destruct (set_ranks n (S r) (C current) rank) as [rank' added] eqn:E. cbn [fst snd] in *.
  destruct added.
  - apply (IH _ _ _ Hok'). pose proof (bv_count_strict current _ (eq_sym (length_imap _ _)) Hsub (not_eq_sym (Hne eq_refl))).
    pose proof (bv_count_le_length (imap (λ i b, b || (bit (C current) i && bool_decide (rank !! i = Some None))) current)) as Hle.
    rewrite length_imap, (proj1 (rk_current _ _ _ _ Hok)) in Hle. lia.
  - eexists _, _, rank'. split; [done|]. split; [exact Hok'|].
    assert (Heq : imap (λ i b, b || (bit (C current) i && bool_decide (rank !! i = Some None))) current = current);
      [|rewrite Heq; by apply Hclosed].
    apply bv_eq; [apply length_imap|]. intros i _. apply bool_eq_iff. split; [|apply Hsub].
    unfold bit at 1. rewrite list_lookup_imap. destruct (current !! i) as [b|] eqn:Ei; simpl; [|done].
    rewrite (bit_lookup _ _ _ Ei). intros [?|[Hcp _]%andb_true_iff]%orb_true_iff; [done|].
    apply Hclosed in Hcp; [|done]. by rewrite (bit_lookup _ _ _ Ei) in Hcp.
Qed.

(** The ranks of the attractor: the target has rank 0, a ranked state can force
    lower ranks, and the ranked states are closed. *)
Lemma gr1_reach_ranks_spec rounds tgt : length tgt = n → n < rounds →
  ∃ current r rank, gr1_reach_ranks rounds c arena tgt = Some rank ∧
    ranks_ok (bv_and tgt arena) current r rank ∧ bv_sub (C current) current.
Proof using Type.
  intros Hl Hr. unfold gr1_reach_ranks. apply reach_ranks_loop_spec; [|lia].
  set (cur := bv_and tgt arena). assert (Hlc : length cur = n) by (unfold cur; by rewrite length_bv_and).
  assert (Hlook : ∀ i k, map (λ i, if bit cur i then Some 0 else None) (seq 0 n) !! i = Some (Some k) ↔ bit cur i = true ∧ k = 0).
  { intros i k. rewrite list_lookup_fmap. destruct (decide (i < n)).
    - rewrite lookup_seq_lt by done. simpl. destruct (bit cur i); naive_solver.
    - rewrite lookup_seq_ge, bit_ge by lia. naive_solver. }
  constructor.
  - by rewrite length_fmap, length_seq.
  - split; [done|]. intros i. setoid_rewrite Hlook. naive_solver.
  - intros i k [_ ->]%Hlook. done.
  - intros i. rewrite Hlook. split; [|naive_solver]. intros [Hi _]. split; [done|]. rewrite <-Hlc. by apply bit_lt.
  - by intros i k [_ ?]%Hlook.
Qed.
End ranks.

(** ** The strategy *)

Section single.
Context (c : Clts) (z g : StateSet).
Notation n := (state_count c).
Notation C := (cpre c z).

(** The chosen target is in [z], and none in [z] has a smaller rank. *)
Lemma best_target_spec rank ts : ∀ best, ∃ best',
  best_target z (Some rank) best ts = Some best' ∧
  (∀ r t, best' = Some (r, t) → best = Some (r, t) ∨
    (∃ x, x ∈ ts ∧ target x = t ∧ bit z t = true ∧ r = rank_key (default None (rank !! t)))) ∧
  (∀ r t, best = Some (r, t) → ∃ r' t', best' = Some (r', t') ∧ (r' <= r)%N) ∧
  (∀ x, x ∈ ts → bit z (target x) = true →
    ∃ r' t', best' = Some (r', t') ∧ (r' <= rank_key (default None (rank !! target x)))%N).
Proof using Type.
  induction ts as [|x ts IH]; intros best; cbn [best_target].
  { exists best. split_and!; [done|by left|intros r t ->; eauto|by intros ? ?%not_elem_of_nil]. }
  destruct (bit z (target x)) eqn:Ez; cbn [negb].
  - set (tr := rank_key (default None (rank !! target x))).
    set (nxt := if match best with None => true | Some (br, _) => (tr <? br)%N end then Some (tr, target x) else best).
    destruct (IH nxt) as (best' & -> & H1 & H2 & H3). exists best'.
    assert (Hn : ∃ r t, nxt = Some (r, t) ∧ (r <= tr)%N ∧ ∀ br b, best = Some (br, b) → (r <= br)%N).
    { unfold nxt. destruct best as [[br b]|].
      - destruct (N.ltb_spec tr br); [exists tr, (target x)|exists br, b]; (split_and!; [done|lia|intros ? ? [= <- <-]; lia]).
      - exists tr, (target x). split_and!; [done|lia|done]. }
    destruct Hn as (r0 & t0 & Hn & Hle & Hbest). destruct (H2 r0 t0 Hn) as (r' & t' & -> & Hr'). split_and!; [done|..].
    + intros r t E. destruct (H1 r t E) as [Hx|(y & Hy & Hr)]; [|right; exists y; split; [by right|done]].
      unfold nxt in Hx. destruct (match best with None => true | Some _ => _ end); [|by left].
      right. exists x. simplify_eq. split_and!; [by left|done..].
    + intros r t E. exists r', t'. split; [done|]. specialize (Hbest _ _ E). lia.
    + intros y [->|Hy]%elem_of_cons Hyz; [exists r', t'; split; [done|]; fold tr; lia|by apply H3].
  - destruct (IH best) as (best' & -> & H1 & H2 & H3). exists best'. split_and!; [done|..].
    + intros r t E. destruct (H1 r t E) as [Hx|(y & Hy & Hr)]; [by left|right; exists y; split; [by right|done]].
    + done.
    + intros y [->|Hy]%elem_of_cons Hyz; [congruence|by apply H3].
Qed.

Lemma elem_of_eve_choices s : s ∈ eve_choices c z ↔ s < n ∧ bit z s = true ∧ eve c s = true.
Proof using Type.
  unfold eve_choices, eve. rewrite elem_of_filterb, andb_true_iff. unfold states. rewrite elem_of_seq. naive_solver lia.
Qed.

Lemma elem_of_eve_targets s t : eve c s = true →
  t ∈ moves c s ↔ ∃ x, x ∈ List.filter (is_controllable c) (outgoing c s) ∧ target x = t.
Proof using Type. intros He. unfold moves. rewrite He, list_elem_of_fmap. naive_solver. Qed.

(** Every state of [z] has a rank: the region is winning. *)
Context (Hz : length z = n) (Hg : length g = n).
Context (Hclosed : bv_sub z (C z)).

(** The choice at each of Eve's states: a move of least rank. *)
Lemma single_strategy_spec rounds : n < rounds →
  ∃ current r rank strat, gr1_strategy_single rounds c z g = Some strat ∧
    ranks_ok c z (bv_and (bv_and g (C z)) z) current r rank ∧ bv_sub (C current) current ∧
    ∀ s, bit z s = true → eve c s = true →
      ∃ t, strat !! s = Some t ∧ t ∈ moves c s ∧ bit z t = true ∧
        ∀ y, y ∈ moves c s → bit z y = true →
          (rank_key (default None (rank !! t)) <= rank_key (default None (rank !! y)))%N.
Proof using Hz Hg Hclosed.
  intros Hr. unfold gr1_strategy_single.
  destruct (gr1_reach_ranks_spec c z rounds (bv_and g (C z))) as (current & r & rank & -> & Hok & Hcl);
    [by rewrite length_bv_and|done|]. exists current, r, rank.
  set (Q := λ s (strat : gmap StateId StateId), ∃ t, strat !! s = Some t ∧ t ∈ moves c s ∧ bit z t = true ∧
    ∀ y, y ∈ moves c s → bit z y = true → (rank_key (default None (rank !! t)) <= rank_key (default None (rank !! y)))%N).
  set (R := λ m m' : gmap StateId StateId, ∀ s, Q s m → Q s m').
  assert (PreOrder R) by (split; [by intros m s|intros m1 m2 m3 H1 H2 s Hs; apply H2, H1, Hs]).
  match goal with |- context [for_each ?F _ _] =>
    destruct (for_each_spec (λ _ : gmap StateId StateId, True) R Q F (eve_choices c z)) with (a := ∅ : gmap StateId StateId)
      as (strat & E & _ & _ & HQ) end.
  - intros s m m' Hs HR. by apply HR.
  - intros s m (Hs & Hzs & He)%elem_of_eve_choices _.
    destruct (best_target_spec rank (List.filter (is_controllable c) (outgoing c s)) None) as (best & -> & H1 & _ & H3).
    pose proof (Hclosed s Hzs) as Hcp. apply bit_cpre in Hcp as (_ & _ & _ & Hm). rewrite He in Hm.
    destruct Hm as (y & Hy & Hyz). apply elem_of_eve_targets in Hy as (x & Hx & <-); [|done].
    destruct (H3 x Hx Hyz) as (r' & t' & -> & _). destruct (H1 r' t' eq_refl) as [?|(x' & Hx' & <- & Hxz & ->)]; [done|].
    assert (HQs : ∀ m : gmap StateId StateId, m !! s = Some (target x') → Q s m).
    { intros m' Hm'. exists (target x'). split_and!; [done|apply elem_of_eve_targets; eauto|done|].
      intros y (x2 & Hx2 & <-)%elem_of_eve_targets Hyz'; [|done]. by destruct (H3 x2 Hx2 Hyz') as (? & ? & [= <- <-] & ?). }
    eexists. split_and!; [done|done| |apply HQs, lookup_insert_eq].
    intros s' Hs'. destruct (decide (s' = s)) as [->|Hne]; [apply HQs, lookup_insert_eq|].
    destruct Hs' as (t & Ht & Hrest). exists t. by rewrite lookup_insert_ne.
  - done.
  - exists strat. split_and!; [exact E|done..|]. intros s Hs He. apply HQ, elem_of_eve_choices. split_and!; [|done..].
    rewrite <-Hz. by apply bit_lt.
Qed.

(** Eve's choice has a smaller rank, and so has every move of Adam. *)
Lemma rank_descends current r rank strat s y k :
  ranks_ok c z (bv_and (bv_and g (C z)) z) current r rank →
  (eve c s = true → strat !! s = Some y) →
  (eve c s = true → ∃ t, (strat : gmap StateId StateId) !! s = Some t ∧
     ∀ y, y ∈ moves c s → bit z y = true → (rank_key (default None (rank !! t)) <= rank_key (default None (rank !! y)))%N) →
  bv_sub z current → bit z y = true → y ∈ moves c s →
  rank !! s = Some (Some (S k)) → ∃ j, rank !! y = Some (Some j) ∧ j ≤ k.
Proof using Hz Hg.
  intros Hok Hy Hst Hall Hyz Hym Hs. pose proof (rk_step _ _ _ _ _ _ Hok s k Hs) as Hcp.
  apply bit_cpre in Hcp as (_ & _ & _ & Hm). pose proof (rk_length _ _ _ _ _ _ Hok) as Hl.
  assert (Hyr : ∃ j, rank !! y = Some (Some j)) by (by apply (rk_current _ _ _ _ _ _ Hok), Hall).
  destruct Hyr as [j Hj]. destruct (eve c s) eqn:He.
  - destruct Hm as (x & Hx & Hr). apply bit_ranked in Hr as (i & Hi & Hik); [|done].
    destruct (Hst eq_refl) as (t & Ht & Hmin). rewrite (Hy eq_refl) in Ht. injection Ht as <-.
    destruct (bit z x) eqn:Exz.
    + specialize (Hmin x Hx Exz). rewrite Hj, Hi in Hmin. unfold rank_key in Hmin. simpl in Hmin. exists j. split; [done|lia].
    + exfalso. destruct i as [|i].
      * apply (rk_target _ _ _ _ _ _ Hok) in Hi as [Hi _]. rewrite bit_and in Hi. by rewrite Exz, andb_false_r in Hi.
      * apply (rk_step _ _ _ _ _ _ Hok) in Hi. apply cpre_safe in Hi. congruence.
  - specialize (Hm y Hym). apply bit_ranked in Hm as (i & Hi & Hik); [|done]. exists i. by split.
Qed.
End single.

(** The cases in which [synthesise_gr1] follows the strategy without assumptions:
    one guarantee, or none, with the region itself as the goal. *)
Definition unassumed (sys_fair : list StateSet) (goal z : StateSet) : Prop :=
  sys_fair = [goal] ∨ (sys_fair = [] ∧ goal = z).

Lemma cpre_inside c safe z T s : bit (cpre c safe T) s = true → bit z s = true → bit (cpre c z T) s = true.
Proof. rewrite !bit_cpre. naive_solver. Qed.

Section region.
Context (c : Clts) (safe goal z : StateSet) (sys_fair : list StateSet).
Notation n := (state_count c).
Context (Hsafe : length safe = n) (Hgoal : length goal = n).
Context (Hz : z = Win c safe sys_fair []) (Hsys : unassumed sys_fair goal z).

(** With one guarantee the region is the inner fixpoint. *)
Lemma region_mu : sys_fair = [goal] → length z = n ∧ MuY c safe [] goal z = z.
Proof using Hsafe Hgoal Hz.
  clear Hsys. intros ->. assert (Hl : Forall (λ g, length g = n) [goal]) by (by repeat constructor).
  destruct (gr1_win_spec c safe [goal] [] Hsafe Hl (Forall_nil_2 _) (S n)) as [_ Hfix]; [lia|].
  rewrite <-Hz in Hfix. specialize (Hfix eq_refl).
  destruct (Z_descends c safe [goal] [] Hsafe Hl (Forall_nil_2 _) n eq_refl) as [[Hlz _] _].
  assert (Hlz' : length z = n) by (rewrite Hz; exact Hlz). split; [done|].
  pose proof (arena_MuY c safe [] Hsafe (Forall_nil_2 _) goal z Hgoal) as [Hlm Hms].
  apply bv_sub_antisym; [congruence| |]; intros i Hi.
  - rewrite <-Hfix. apply bit_Outer. split; [by apply Hms|]. by intros g ->%list_elem_of_singleton.
  - rewrite <-Hfix in Hi. apply bit_Outer in Hi as [_ Hi]. apply Hi. by left.
Qed.

Lemma region_length : length z = n.
Proof using All.
  destruct Hsys as [E|[E _]]; [by apply region_mu|]. rewrite Hz, E. apply arena_Safety.
Qed.

Lemma region_closed : bv_sub z (cpre c z z).
Proof using All.
  intros s Hs. apply (cpre_inside c safe z z s); [|done]. destruct Hsys as [E|[E _]].
  - destruct (region_mu E) as [_ HM]. rewrite <-HM in Hs.
    rewrite (MuY_Base c safe [] Hsafe (Forall_nil_2 _)), HM in Hs by done. by apply bit_Base in Hs as [[_ ?]|?].
  - rewrite Hz, E in Hs |- *. destruct (safety_region_spec c safe (S n)) as [_ E']; [lia|].
    change (Win c safe [] []) with (Safety c safe) in *. by rewrite E'.
Qed.

Lemma region_ranked current r rank :
  ranks_ok c z (bv_and (bv_and goal (cpre c z z)) z) current r rank → bv_sub (cpre c z current) current → bv_sub z current.
Proof using All.
  intros Hok Hcl.
  assert (Ht : ∀ s, bit goal s = true → bit z s = true → bit current s = true).
  { intros s Hg Hs. apply (rk_current _ _ _ _ _ _ Hok). exists 0. apply (rk_target _ _ _ _ _ _ Hok).
    rewrite !bit_and, Hg, Hs, (region_closed s Hs). split; [done|]. rewrite <-region_length. by apply bit_lt. }
  destruct Hsys as [E|[_ E]].
  2:{ intros s Hs. apply Ht; [by rewrite E|done]. }
  destruct (region_mu E) as [_ HM].
  assert (HY : ∀ k, k ≤ n → bv_sub (Y c safe [] goal z k) current).
  { induction k as [|k IH]; intros Hk i Hi.
    { unfold Y, empty_set in Hi. simpl in Hi. by rewrite bit_fill in Hi. }
    assert (Hiz : bit z i = true) by (rewrite <-HM; by apply (Y_mono_k c safe [] Hsafe (Forall_nil_2 _) goal z (S k) n)).
    apply bit_Y_S in Hi as [Hi|Hi]; [apply IH; [lia|done]| |done..].
    change (Disj c safe [] ?b) with b in Hi. apply bit_Base in Hi as [[Hg _]|Hi]; [by apply Ht| |done].
    apply Hcl. apply (cpre_mono c z _ _ (IH ltac:(lia))). by apply (cpre_inside c safe). }
  intros s Hs. rewrite <-HM in Hs. by apply (HY n).
Qed.
End region.

(** The positional strategy wins without assumptions. When the winning region was computed without assumptions and for one guarantee, or for none with the region itself as the goal, [gr1_strategy_single] gives each of Eve's states in the region one of her moves into it, and every play from the region that follows the strategy stays in the region, hence in the safe states, and visits the goal infinitely often, whatever Adam does *)
Theorem single_strategy_correct rounds c safe goal z sys_fair :
  length safe = state_count c → length goal = state_count c → state_count c < rounds →
  unassumed sys_fair goal z → gr1_win rounds c safe sys_fair [] = Some z →
  ∃ strat, gr1_strategy_single rounds c z goal = Some strat ∧
    bv_sub z safe ∧
    (∀ s, bit z s = true → eve c s = true → ∃ t, strat !! s = Some t ∧ t ∈ moves c s ∧ bit z t = true) ∧
    ∀ π s, bit z s = true → play c π s →
      (∀ t, eve c (π t) = true → strat !! π t = Some (π (S t))) →
      (∀ t, bit z (π t) = true) ∧ infinitely_often goal π.
Proof.
  intros Hsafe Hgoal Hr Hsys Hwin.
  assert (Hall : Forall (λ g, length g = state_count c) sys_fair).
  { destruct Hsys as [->|[-> _]]; [by repeat constructor|constructor]. }
  destruct (gr1_win_spec c safe sys_fair [] Hsafe Hall (Forall_nil_2 _) rounds Hr) as [E _].
  rewrite Hwin in E. injection E as Hz.
  pose proof (region_length c safe goal z sys_fair Hsafe Hgoal Hz Hsys) as Hlz.
  pose proof (region_closed c safe goal z sys_fair Hsafe Hgoal Hz Hsys) as Hcl.
  destruct (single_strategy_spec c z goal Hlz Hgoal Hcl rounds Hr) as (current & r & rank & strat & Hst & Hok & Hccl & Hch).
  pose proof (region_ranked c safe goal z sys_fair Hsafe Hgoal Hz Hsys current r rank Hok Hccl) as Hranked.
  exists strat. split; [exact Hst|]. split.
  { destruct Hsys as [->|[-> _]]; rewrite Hz; [|apply arena_Safety].
    apply (Z_descends c safe [goal] [] Hsafe Hall (Forall_nil_2 _) (state_count c) eq_refl). }
  split.
  { intros s Hs He. destruct (Hch s Hs He) as (t & ? & ? & ? & _). by exists t. }
  intros π s Hs [H0 Hm] Hf.
  assert (Hin : ∀ t, bit z (π t) = true).
  { induction t as [|t IH]; [by rewrite H0|]. destruct (eve c (π t)) eqn:He.
    - destruct (Hch _ IH He) as (y & Hy & _ & Hyz & _). rewrite (Hf t He) in Hy. by injection Hy as ->.
    - pose proof (Hcl _ IH) as Hcp. apply bit_cpre in Hcp as (_ & _ & _ & Ha). rewrite He in Ha. apply Ha, Hm. }
  split; [done|]. intros t.
  destruct (proj1 (proj2 (rk_current _ _ _ _ _ _ Hok) _) (Hranked _ (Hin t))) as [k Hk].
  revert t Hk. induction k as [k IH] using lt_wf_ind. intros t Hk. destruct k as [|k].
  - exists t. split; [done|]. apply (rk_target _ _ _ _ _ _ Hok) in Hk as [Hk _]. rewrite !bit_and in Hk.
    by apply andb_true_iff in Hk as [[? _]%andb_true_iff _].
  - destruct (rank_descends c z goal Hlz Hgoal current r rank strat (π t) (π (S t)) k Hok) as (j & Hj & Hjk);
      [apply Hf| |exact Hranked|apply Hin|apply Hm|exact Hk|].
    + intros He. destruct (Hch _ (Hin t) He) as (y & Hy & _ & _ & Hmin). by exists y.
    + destruct (IH j) with (t := S t) as (t' & Ht' & Hg); [lia|done|]. exists t'. split; [lia|done].
Qed.

Lemma single_strategy_correct_witness :
  let z := [true; true] in
  gr1_strategy_single 3 demo_clts z [true; false] = Some {[1 := 0]} ∧
  ∃ strat, gr1_strategy_single 3 demo_clts z [true; false] = Some strat ∧
    bv_sub z [true; true] ∧
    (∀ s, bit z s = true → eve demo_clts s = true → ∃ t, strat !! s = Some t ∧ t ∈ moves demo_clts s ∧ bit z t = true) ∧
    ∀ π s, bit z s = true → play demo_clts π s →
      (∀ t, eve demo_clts (π t) = true → strat !! π t = Some (π (S t))) →
      (∀ t, bit z (π t) = true) ∧ infinitely_often [true; false] π.
Proof.
  split; [vm_compute; reflexivity|].
  apply (single_strategy_correct 3 demo_clts [true; true] [true; false] [true; true] [[true; false]]);
    [reflexivity|reflexivity|vm_compute; lia|by left|vm_compute; reflexivity].
Defined.

(** ** Both extractors return *)

Lemma best_target_total z rank ts best : is_Some (best_target z (Some rank) best ts).
Proof. destruct (best_target_spec z rank ts best) as (b & -> & _). by eexists. Qed.

Lemma gr1_strategy_single_total rounds c z g : length g = state_count c → state_count c < rounds →
  is_Some (gr1_strategy_single rounds c z g).
Proof.
  intros Hg Hr. unfold gr1_strategy_single.
  destruct (gr1_reach_ranks_spec c z rounds (bv_and g (cpre c z z))) as (_ & _ & rank & -> & _); [by rewrite length_bv_and|done|].
  apply for_each_total. intros strat s _. destruct (best_target_total z rank (List.filter (is_controllable c) (outgoing c s)) None) as [b ->].
  by eexists.
Qed.

Section multi.
Context (c : Clts) (safe z : StateSet) (sys_fair env_fair : list StateSet).
Notation n := (state_count c).
Context (Hsafe : length safe = n) (Hsys : Forall (λ g, length g = n) sys_fair) (Henv : Forall (λ a, length a = n) env_fair).

Lemma mu_y_ranks_loop_total g rounds inner : length g = n → n < inner → ∀ y k rank,
  arena c safe y → n - bv_count y < rounds →
  is_Some (mu_y_ranks_loop rounds inner c safe (bv_and g (cpre c safe z)) env_fair y k rank).
Proof using Hsafe Henv.
  intros Hg Hi. induction rounds as [|r IH]; intros y k rank Hy Hr; [lia|]. cbn [mu_y_ranks_loop].
  change (bv_or (bv_and g (cpre c safe z)) (cpre c safe y)) with (Base c safe g z y).
  rewrite (gr1_disj_spec c safe env_fair Hsafe Henv inner) by (done || by apply arena_Base).
  change (bv_or y (Disj c safe env_fair (Base c safe g z y))) with (Grow c safe env_fair g z y).
  destruct (existsb _ _) eqn:E; [|by eexists]. pose proof (arena_Grow c safe env_fair Hsafe Henv g z y Hg Hy) as Hgr.
  apply IH; [done|]. assert (bv_count y < bv_count (Grow c safe env_fair g z y)).
  { apply bv_count_strict; [by rewrite (proj1 Hy), (proj1 Hgr)| |].
    - intros i Hb. apply (bit_Grow c safe env_fair Hsafe Henv g z y i Hg Hy). by left.
    - intros Heq. apply existsb_spec in E as (i & _ & [E1 E2]%andb_true_iff). rewrite <-Heq in E1. by rewrite E1 in E2. }
  pose proof (bv_count_le_length (Grow c safe env_fair g z y)) as Hle. rewrite (proj1 Hgr) in Hle. lia.
Qed.

Lemma gr1_strategy_multi_total rounds : sys_fair ≠ [] → n < rounds →
  is_Some (gr1_strategy_multi rounds c safe z sys_fair env_fair).
Proof using Hsafe Hsys Henv.
  intros Hne Hr. unfold gr1_strategy_multi.
  assert (Hranks : ∀ l rs, Forall (λ g, length g = n) l → ∃ rs', for_each (λ rs g,
      let* r := gr1_mu_y_ranks rounds c safe g z env_fair in Some (rs ++ [r])) rs l = Some rs' ∧ length rs' = length rs + length l).
  { induction l as [|g l IH]; intros rs Hl; cbn [for_each length]; [exists rs; split; [done|lia]|].
    apply Forall_cons in Hl as [Hg Hl]. unfold gr1_mu_y_ranks at 1.
    destruct (mu_y_ranks_loop_total g rounds rounds Hg Hr (empty_set n) 0 (replicate n None)) as [r ->]; [apply arena_empty|lia|].
    destruct (IH (rs ++ [r]) Hl) as (rs' & -> & Hlen). exists rs'. split; [done|]. rewrite Hlen, length_app. cbn. lia. }
  destruct (Hranks sys_fair [] Hsys) as (rs & -> & Hlen). cbn in Hlen.
  assert (Hmoves : is_Some (for_each (λ (moves : gmap (StateId * nat) (StateId * nat)) sm,
      let '(s, mode) := sm in
      let* best := best_target z (rs !! mode) None (List.filter (is_controllable c) (outgoing c s)) in
      match best with
      | None => Some moves
      | Some (_, ti) =>
        let* g := sys_fair !! mode in
        Some (<[(s, mode) := (ti, if bit g ti then (mode + 1) mod Nat.max (length sys_fair) 1 else mode)]> moves)
      end) ∅ (list_prod (eve_choices c z) (seq 0 (Nat.max (length sys_fair) 1))))).
  { apply for_each_total. intros moves [s mode] Hin.
    assert (Hmode : mode < length sys_fair).
    { apply list_elem_of_In, in_prod_iff in Hin as [_ Hin%list_elem_of_In%elem_of_seq].
      destruct sys_fair; [done|]. cbn [length] in *. lia. }
    destruct (lookup_lt_is_Some_2 rs mode) as [rank ->]; [lia|].
    destruct (best_target_total z rank (List.filter (is_controllable c) (outgoing c s)) None) as [[[r t]|] ->]; [|by eexists].
    destruct (lookup_lt_is_Some_2 sys_fair mode Hmode) as [g ->]. by eexists. }
  destruct Hmoves as [moves ->]. by eexists.
Qed.
End multi.
