(* ===== verification/Gr1Build.v ===== *)
(** The GR(1) game of an LTL specification and its synthesis:
    [mu_calculus/gr1_build.rs].

    A specification is classified into clauses; the game keeps one monitor bit
    per transition and per response clause and alternates the inputs of the
    environment with the outputs of the controller.  The text of the emitted
    module is not modelled: the controller is the strategy it is printed from.
    [None] is a panic: an [unwrap] of a full identifier type, an overflowing
    shift, or a missing key. *)
From stdpp Require Import pretty.
From S2P Require Import Prelude Clts Ltl Gr1.

(** ** Propositional layer *)

Fixpoint is_propositional (f : LtlFormula) : bool :=
  match f with
  | LTrue | LFalse | LPredicate _ => true
  | LNot a => is_propositional a
  | LAnd a b | LOr a b | LImplies a b => is_propositional a && is_propositional b
  | _ => false
  end.

Abbreviation Valuation := (gmap string bool) (only parsing).

Fixpoint eval_prop (f : LtlFormula) (val : Valuation) : bool :=
  match f with
  | LTrue => true
  | LFalse => false
  | LPredicate p => default false (val !! p)
  | LNot a => negb (eval_prop a val)
  | LAnd a b => eval_prop a val && eval_prop b val
  | LOr a b => eval_prop a val || eval_prop b val
  | LImplies a b => negb (eval_prop a val) || eval_prop b val
  | _ => false
  end.

Fixpoint predicates_of (f : LtlFormula) (out : list string) : list string :=
  match f with
  | LPredicate p => if bool_decide (p ∈ out) then out else out ++ [p]
  | LNot a => predicates_of a out
  | LAnd a b | LOr a b | LImplies a b => predicates_of b (predicates_of a out)
  | LNext a | LAlways a | LEventually a | LRecurrence a | LStabilization a => predicates_of a out
  | LUntil l r | LWeakUntil l r | LRelease l r => predicates_of r (predicates_of l out)
  | LResponse t r => predicates_of r (predicates_of t out)
  | LTrue | LFalse => out
  end.

(** ** Classification *)

Inductive SafetyClause :=
  | SC_Invariant (p : LtlFormula)
  | SC_Transition (pre post : LtlFormula).

Record ResponseClause := { rc_trigger : LtlFormula; rc_response : LtlFormula }.

Record Gr1Spec := {
  sp_inputs : list string;
  sp_outputs : list string;
  sp_safety : list SafetyClause;
  sp_responses : list ResponseClause;
  sp_env_fair : list LtlFormula
}.

(** The error messages, with the formula they print. *)
Inductive ClassifyError :=
  | UnsupportedClause (f : LtlFormula)
  | UnsupportedImplies (rhs : LtlFormula)
  | UnsupportedAlways (body : LtlFormula)
  | FairOverOutputs (prop : LtlFormula)
  | FairOverOthers (prop : LtlFormula)
  | AssumedResponse
  | TemporalResponse.

Definition push_safety (cl : SafetyClause) (spec : Gr1Spec) : Gr1Spec :=
  {| sp_inputs := sp_inputs spec; sp_outputs := sp_outputs spec; sp_safety := sp_safety spec ++ [cl];
     sp_responses := sp_responses spec; sp_env_fair := sp_env_fair spec |}.

Definition push_fair (prop : LtlFormula) (is_guarantee : bool) (spec : Gr1Spec) : Result Gr1Spec ClassifyError :=
  if is_guarantee then
    let ps := predicates_of prop [] in
    if existsb (λ p, bool_decide (p ∈ sp_outputs spec)) ps then Err (FairOverOutputs prop)
    else Err (FairOverOthers prop)
  else Ok {| sp_inputs := sp_inputs spec; sp_outputs := sp_outputs spec; sp_safety := sp_safety spec;
             sp_responses := sp_responses spec; sp_env_fair := sp_env_fair spec ++ [prop] |}.

Definition push_response (trigger response : LtlFormula) (is_guarantee : bool) (spec : Gr1Spec)
    : Result Gr1Spec ClassifyError :=
  if negb is_guarantee then Err AssumedResponse
  else if negb (is_propositional trigger) || negb (is_propositional response) then Err TemporalResponse
  else Ok {| sp_inputs := sp_inputs spec; sp_outputs := sp_outputs spec; sp_safety := sp_safety spec;
             sp_responses := sp_responses spec ++ [{| rc_trigger := trigger; rc_response := response |}];
             sp_env_fair := sp_env_fair spec |}.

Definition classify_implies (pre rhs : LtlFormula) (is_guarantee : bool) (spec : Gr1Spec)
    : Result Gr1Spec ClassifyError :=
  match rhs with
  | LNext post =>
    if is_propositional post then Ok (push_safety (SC_Transition pre post) spec) else Err (UnsupportedImplies rhs)
  | LEventually resp =>
    if is_propositional resp then push_response pre resp is_guarantee spec else Err (UnsupportedImplies rhs)
  | _ => Err (UnsupportedImplies rhs)
  end.

Definition classify_invariant (body : LtlFormula) (spec : Gr1Spec) : Result Gr1Spec ClassifyError :=
  if is_propositional body then Ok (push_safety (SC_Invariant body) spec) else Err (UnsupportedAlways body).

Definition classify_always (body : LtlFormula) (is_guarantee : bool) (spec : Gr1Spec)
    : Result Gr1Spec ClassifyError :=
  match body with
  | LEventually inner | LRecurrence inner =>
    if is_propositional inner then push_fair inner is_guarantee spec else classify_invariant body spec
  | LImplies pre rhs =>
    if is_propositional pre then classify_implies pre rhs is_guarantee spec else classify_invariant body spec
  | _ => classify_invariant body spec
  end.

Definition classify_one (f : LtlFormula) (is_guarantee : bool) (spec : Gr1Spec) : Result Gr1Spec ClassifyError :=
  match f with
  | LRecurrence inner =>
    if is_propositional inner then push_fair inner is_guarantee spec else Err (UnsupportedClause f)
  | LAlways inner => classify_always inner is_guarantee spec
  | LResponse trigger response =>
    if is_propositional trigger && is_propositional response then push_response trigger response is_guarantee spec
    else Err (UnsupportedClause f)
  | _ => Err (UnsupportedClause f)
  end.

Fixpoint classify_all (fs : list LtlFormula) (is_guarantee : bool) (spec : Gr1Spec) : Result Gr1Spec ClassifyError :=
  match fs with
  | [] => Ok spec
  | f :: fs' =>
    match classify_one f is_guarantee spec with
    | Ok spec' => classify_all fs' is_guarantee spec'
    | Err e => Err e
    end
  end.

Definition spec_classify (assumptions guarantees : list LtlFormula) (inputs outputs : list string)
    : Result Gr1Spec ClassifyError :=
  let spec := {| sp_inputs := inputs; sp_outputs := outputs; sp_safety := []; sp_responses := []; sp_env_fair := [] |} in
  match classify_all assumptions false spec with
  | Ok spec' => classify_all guarantees true spec'
  | Err e => Err e
  end.

(** ** Game construction *)

Record Gr1Game := {
  g_clts : Clts;
  g_safe : StateSet;
  g_sys_fair : list StateSet;
  g_env_fair : list StateSet;
  g_init : StateId;
  ctrl_meta : gmap StateId (nat * nat);
  move_output : gmap (StateId * StateId) nat;
  e_meta : gmap StateId nat;
  n_monitors : nat;
  g_inputs : list string;
  g_outputs : list string
}.

(** [1 << n] at a width, with the overflow check. *)
Definition shl_one (width n : nat) : option nat := if n <? width then Some (2 ^ n) else None.

Definition ts_clauses (spec : Gr1Spec) : list (LtlFormula * LtlFormula) :=
  omap (λ cl, match cl with SC_Transition pre post => Some (pre, post) | SC_Invariant _ => None end) (sp_safety spec).
Definition inv_clauses (spec : Gr1Spec) : list LtlFormula :=
  omap (λ cl, match cl with SC_Invariant p => Some p | SC_Transition _ _ => None end) (sp_safety spec).

(** The valuation of an input and an output value; a repeated name keeps the last. *)
Definition signal_val (spec : Gr1Spec) (iv ov : nat) : Valuation :=
  let insert_bits v := foldl (λ (val : Valuation) bn, <[snd bn := Nat.testbit v (fst bn)]> val) in
  insert_bits ov (insert_bits iv ∅ (imap pair (sp_inputs spec))) (imap pair (sp_outputs spec)).

Definition unsafe_move (spec : Gr1Spec) (m : nat) (val : Valuation) : bool :=
  existsb (λ p, negb (eval_prop p val)) (inv_clauses spec)
  || existsb (λ ic, Nat.testbit m (fst ic) && negb (eval_prop (snd (snd ic)) val)) (imap pair (ts_clauses spec)).

(** The next monitor bits. *)
Definition next_monitors (spec : Gr1Spec) (m : nat) (val : Valuation) : nat :=
  let n_ts := length (ts_clauses spec) in
  let m2 := foldl (λ m2 ic, if eval_prop (fst (snd ic)) val then Nat.setbit m2 (fst ic) else m2) 0
              (imap pair (ts_clauses spec)) in
  foldl (λ m2 jr,
    let '(j, resp) := jr in
    let pending := Nat.testbit m (n_ts + j) in
    let trig := eval_prop (rc_trigger resp) val in
    let done := eval_prop (rc_response resp) val in
    if (pending || trig) && negb done then Nat.setbit m2 (n_ts + j) else m2) m2 (imap pair (sp_responses spec)).

Section build.
Context `{IdStorage}.

(** Interning a label with its controllability; [unwrap] panics when it fails. *)
Definition new_label (ctl : LabelControllability) (acc : list LabelId * CltsBuilder) (name : string)
    : option (list LabelId * CltsBuilder) :=
  let '(ids, b) := acc in
  match intern (cb_labels b) [name] with
  | (Ok l, ls) => Some (ids ++ [l], set_controllability l ctl (set_labels ls b))
  | (Err _, _) => None
  end.

Definition new_state (acc : list StateId * CltsBuilder) (name : string) : option (list StateId * CltsBuilder) :=
  let '(ids, b) := acc in
  match insert_state_owned name b with
  | (Some s, b') => Some (ids ++ [s], b')
  | (None, _) => None
  end.

Definition new_ctrl_state (acc : gmap (nat * nat) StateId * CltsBuilder) (mi : nat * nat)
    : option (gmap (nat * nat) StateId * CltsBuilder) :=
  let '(c_state, b) := acc in
  match insert_state_owned ("C" +:+ pretty mi.1 +:+ "_" +:+ pretty mi.2) b with
  | (Some s, b') => Some (<[mi := s]> c_state, b')
  | (None, _) => None
  end.

(** [E[m] -env_iv-> C[m,iv]] *)
Definition env_move (env_labels : list LabelId) (e_state : list StateId) (c_state : gmap (nat * nat) StateId)
    (acc : gmap StateId (nat * nat) * CltsBuilder) (mi : nat * nat) : option (gmap StateId (nat * nat) * CltsBuilder) :=
  let '(meta, b) := acc in
  let* e := e_state !! mi.1 in
  let* c := c_state !! mi in
  let* l := env_labels !! mi.2 in
  Some (<[c := mi]> meta, transition_ids e [l] c b).

(** [C[m,iv] -ctrl_ov-> E[m']] or [BAD] *)
Definition ctrl_move (spec : Gr1Spec) (ctrl_labels : list LabelId) (e_state : list StateId)
    (c_state : gmap (nat * nat) StateId) (bad : StateId)
    (acc : gmap (StateId * StateId) nat * CltsBuilder) (mio : nat * nat * nat)
    : option (gmap (StateId * StateId) nat * CltsBuilder) :=
  let '(moves, b) := acc in
  let '(m, iv, ov) := mio in
  let* c := c_state !! (m, iv) in
  let val := signal_val spec iv ov in
  let* tgt := (if unsafe_move spec m val then Some bad else e_state !! next_monitors spec m val) in
  let* l := ctrl_labels !! ov in
  Some (<[(c, tgt) := ov]> moves, transition_ids c [l] tgt b).

Definition set_bit_at (s : StateSet) (i : nat) : option StateSet :=
  if i <? length s then Some (bv_set s i true) else None.

(** The states [C[m,iv]] whose input satisfies the assumption, outputs read as false. *)
Definition env_fair_set (spec : Gr1Spec) (n : nat) (pairs : list (nat * nat)) (c_state : gmap (nat * nat) StateId)
    (prop : LtlFormula) : option StateSet :=
  for_each (λ s mi,
    if eval_prop prop (signal_val spec mi.2 0) then let* c := c_state !! mi in set_bit_at s c else Some s)
    (empty_set n) pairs.

(** The states [E[m]] without a pending response [j]. *)
Definition sys_fair_set (n n_ts : nat) (monitors : list nat) (e_state : list StateId) (j : nat) : option StateSet :=
  for_each (λ s m, if negb (Nat.testbit m (n_ts + j)) then let* e := e_state !! m in set_bit_at s e else Some s)
    (empty_set n) monitors.

Definition collect_sets {A B} (f : A → option B) (l : list A) : option (list B) :=
  for_each (λ acc x, let* y := f x in Some (acc ++ [y])) [] l.

Definition build_game (spec : Gr1Spec) : option Gr1Game :=
  let n_ts := length (ts_clauses spec) in
  let n_resp := length (sp_responses spec) in
  let n_mon := n_ts + n_resp in
  let* n_mon_states := shl_one 64 n_mon in
  let* n_in_vals := shl_one 32 (length (sp_inputs spec)) in
  let* n_out_vals := shl_one 32 (length (sp_outputs spec)) in
  let* (env_labels, b) := for_each (new_label LC_Uncontrollable) ([], CltsBuilder_default)
                            (map (λ k, "env_" +:+ pretty k) (seq 0 n_in_vals)) in
  let* (ctrl_labels, b) := for_each (new_label LC_Controllable) ([], b)
                             (map (λ k, "ctrl_" +:+ pretty k) (seq 0 n_out_vals)) in
  let* (bad_labels, b) := new_label LC_Uncontrollable ([], b) "bad" in
  let pairs := list_prod (seq 0 n_mon_states) (seq 0 n_in_vals) in
  let* (e_state, b) := for_each new_state ([], b) (map (λ m : nat, "E" +:+ pretty m) (seq 0 n_mon_states)) in
  let* (c_state, b) := for_each new_ctrl_state (∅, b) pairs in
  let* (bads, b) := new_state ([], b) "BAD" in
  let* bad := head bads in
  let* init_state := e_state !! 0 in
  let b := initial_state_id init_state b in
  let* (meta, b) := for_each (env_move env_labels e_state c_state) (∅, b) pairs in
  let* (outputs, b) := for_each (ctrl_move spec ctrl_labels e_state c_state bad) (∅, b)
                         (list_prod pairs (seq 0 n_out_vals)) in
  let b := transition_ids bad bad_labels bad b in
  match build b with
  | Some (Ok clts) =>
    let n := state_count clts in
    let* env_fair := collect_sets (env_fair_set spec n pairs c_state) (sp_env_fair spec) in
    let* sys_fair := collect_sets (sys_fair_set n n_ts (seq 0 n_mon_states) e_state) (seq 0 n_resp) in
    Some {| g_clts := clts; g_safe := bv_set (full n) bad false; g_sys_fair := sys_fair; g_env_fair := env_fair;
            g_init := init_state; ctrl_meta := meta; move_output := outputs;
            e_meta := list_to_map (imap (λ m e, (e, m)) e_state); n_monitors := n_mon;
            g_inputs := sp_inputs spec; g_outputs := sp_outputs spec |}
  | _ => None
  end.
End build.

(** ** Synthesis *)

(** The strategy the module is printed from. *)
Inductive Controller :=
  | Positional (strat : gmap StateId StateId)
  | RoundRobin (strat : Gr1MultiStrategy).

Record Gr1Synthesis := {
  realizable : bool;
  controller : option Controller;
  n_monitor_bits : nat;
  n_game_states : nat;
  notes : list string
}.

(** [None] is a panic or exhausted rounds. *)
Definition synthesise_gr1 `{IdStorage} (rounds : nat) (assumptions guarantees : list LtlFormula)
    (inputs outputs : list string) : option (Result Gr1Synthesis ClassifyError) :=
  match spec_classify assumptions guarantees inputs outputs with
  | Err e => Some (Err e)
  | Ok spec =>
    let* game := build_game spec in
    let c := g_clts game in
    let* z := gr1_win rounds c (g_safe game) (g_sys_fair game) (g_env_fair game) in
    let result real ctl nts :=
      {| realizable := real; controller := ctl; n_monitor_bits := n_monitors game; n_game_states := state_count c; notes := nts |} in
    let* won := z !! g_init game in
    if negb won then Some (Ok (result false None []))
    else
      match g_sys_fair game with
      | [] =>
        let* strat := gr1_strategy_single rounds c z z in
        Some (Ok (result true (Some (Positional strat)) []))
      | [g] =>
        let* strat := gr1_strategy_single rounds c z g in
        Some (Ok (result true (Some (Positional strat)) []))
      | gs =>
        let* strat := gr1_strategy_multi rounds c (g_safe game) z gs (g_env_fair game) in
        Some (Ok (result true (Some (RoundRobin strat))
          [pretty (length gs) +:+ " system guarantees: multi-guarantee memoryful strategy"]))
      end
  end.
