(* ===== verification/Gr1BuildCorrect.v ===== *)
(** The system [build_game] builds: its states, its labels and its moves.

    State [m] below [n_mon_states] is [E[m]], the states after them are the
    [C[m,iv]], the last one is [BAD] ([built_game]). *)
From S2P Require Import Prelude Clts Ltl Gr1 Gr1Game Gr1Build.

(** ** Lists of pairs *)

Lemma lookup_list_prod n k i j :
  i < n → j < k → list_prod (seq 0 n) (seq 0 k) !! (i * k + j) = Some (i, j).
Proof.
  intros Hi Hj. assert (Hgen : ∀ n s i, i < n → list_prod (seq s n) (seq 0 k) !! (i * k + j) = Some (s + i, j)).
  { clear n i Hi. induction n as [|n IH]; intros s i Hi; [lia|]. cbn [seq list_prod].
    change (map (λ y, (s, y)) (seq 0 k)) with ((λ y, (s, y)) <$> seq 0 k). destruct i as [|i].
    - rewrite lookup_app_l by (rewrite length_fmap, length_seq; lia).
      rewrite list_lookup_fmap, lookup_seq_lt by done. simpl. by rewrite Nat.add_0_r.
    - rewrite lookup_app_r by (rewrite length_fmap, length_seq; lia). rewrite length_fmap, length_seq.
      replace (S i * k + j - k) with (i * k + j) by lia. rewrite IH by lia. f_equal. f_equal. lia. }
  apply Hgen. done.
Qed.

Lemma elem_of_list_prod {A B} (l : list A) (k : list B) x y : (x, y) ∈ list_prod l k ↔ x ∈ l ∧ y ∈ k.
Proof. by rewrite !list_elem_of_In, in_prod_iff. Qed.

Lemma elem_of_pairs n k x y : (x, y) ∈ list_prod (seq 0 n) (seq 0 k) ↔ x < n ∧ y < k.
Proof. rewrite elem_of_list_prod, !elem_of_seq. lia. Qed.

Lemma NoDup_list_prod {A B} (l : list A) (k : list B) : NoDup l → NoDup k → NoDup (list_prod l k).
Proof.
  intros Hl Hk. induction Hl as [|x l Hx _ IH]; cbn [list_prod]; [constructor|].
  change (map (λ y, (x, y)) k) with ((λ y, (x, y)) <$> k). apply NoDup_app. split_and!; [|  |done].
  - apply NoDup_fmap_2; [|done]. by intros y y' [= ->].
  - intros [a b] (y & [= -> ->] & _)%list_elem_of_fmap [Ha _]%elem_of_list_prod. done.
Qed.

Lemma NoDup_map_inj {A B} (f : A → B) l : (∀ x y, f x = f y → x = y) → NoDup l → NoDup (map f l).
Proof. intros Hf Hl. change (NoDup (f <$> l)). by apply NoDup_fmap_2. Qed.

(** ** Labels *)

Section phases.
Context `{IdStorage}.

Lemma canon_singleton (x : string) : canon [x] = [x].
Proof. reflexivity. Qed.

(** Interning a payload that is not there yet. *)
Lemma intern_new b x : label_builder_ok b → [x] ∉ lb_entries b → (N.of_nat (length (lb_entries b)) <= id_max)%N →
  ∃ b', intern b [x] = (Ok (length (lb_entries b)), b') ∧ label_builder_ok b' ∧ lb_entries b' = lb_entries b ++ [[x]].
Proof.
  intros Hok Hx Hfit. destruct (intern b [x]) as [r b'] eqn:E. pose proof (intern_ok b [x] r b' Hok E) as (Hok' & _ & _).
  revert E. unfold intern. rewrite canon_singleton. destruct (lb_entry_map b !! [x]) as [i|] eqn:Em.
  { exfalso. apply Hx. apply (lok_map _ Hok) in Em. by eapply list_elem_of_lookup_2. }
  unfold try_from_usize. rewrite (proj2 (N.leb_le _ _)) by done.
  destruct (record_symbols_into_universe _ _ _ _) as [[set syms] dirty]. intros [= <- <-]. by eexists.
Qed.

(** The builder [b'] has the labels [names] after those of [b]. *)
Record labels_added (ctl : LabelControllability) (b b' : CltsBuilder) (names : list string) : Prop := {
  la_ok : builder_ok b';
  la_same : b' = set_label_controllability (cb_label_controllability b') (set_labels (cb_labels b') b);
  la_entries : lb_entries (cb_labels b') = lb_entries (cb_labels b) ++ map (λ x, [x]) names;
  la_controllability : ∀ l, cb_label_controllability b' !! l =
    if decide (length (lb_entries (cb_labels b)) ≤ l < length (lb_entries (cb_labels b)) + length names)
    then Some ctl else cb_label_controllability b !! l
}.

Lemma new_label_spec ctl ids b name : builder_ok b → [name] ∉ lb_entries (cb_labels b) →
  (N.of_nat (length (lb_entries (cb_labels b))) <= id_max)%N →
  ∃ b', new_label ctl (ids, b) name = Some (ids ++ [length (lb_entries (cb_labels b))], b') ∧ labels_added ctl b b' [name].
Proof.
  intros Hok Hnew Hfit. destruct (intern_new (cb_labels b) name (bok_labels _ Hok) Hnew Hfit) as (ls & E & Hls & He).
  unfold new_label. rewrite E. eexists. split; [done|]. constructor; [|done|done|].
  - destruct Hok. by constructor.
  - intros l. cbn. rewrite Nat.add_1_r. case_decide.
    + assert (l = length (lb_entries (cb_labels b))) as -> by lia. by rewrite lookup_insert_eq.
    + rewrite lookup_insert_ne by lia. done.
Qed.

Lemma labels_added_trans ctl b1 b2 b3 name names :
  labels_added ctl b1 b2 [name] → labels_added ctl b2 b3 names → labels_added ctl b1 b3 (name :: names).
Proof.
  intros H1 H2. constructor.
  - apply H2.
  - rewrite (la_same _ _ _ _ H2) at 1. rewrite (la_same _ _ _ _ H1). done.
  - by rewrite (la_entries _ _ _ _ H2), (la_entries _ _ _ _ H1), <-app_assoc.
  - intros l. rewrite (la_controllability _ _ _ _ H2), (la_controllability _ _ _ _ H1), (la_entries _ _ _ _ H1).
    rewrite length_app. cbn. repeat case_decide; (done || lia).
Qed.

Lemma new_labels_spec ctl names : ∀ ids b, builder_ok b → NoDup names →
  (∀ x, x ∈ names → [x] ∉ lb_entries (cb_labels b)) →
  (N.of_nat (length (lb_entries (cb_labels b)) + length names) <= id_max + 1)%N →
  ∃ b', for_each (new_label ctl) (ids, b) names
          = Some (ids ++ seq (length (lb_entries (cb_labels b))) (length names), b') ∧ labels_added ctl b b' names.
Proof.
  induction names as [|x names IH]; intros ids b Hok Hnd Hnew Hfit.
  { exists b. cbn. rewrite app_nil_r. split; [done|]. constructor; [done|by destruct b|by rewrite app_nil_r|].
    intros l. cbn. case_decide; (done || lia). }
  apply NoDup_cons in Hnd as [Hx Hnd]. cbn [for_each length seq] in *.
  destruct (new_label_spec ctl ids b x Hok) as (b1 & -> & H1); [apply Hnew; by left|lia|].
  destruct (IH (ids ++ [length (lb_entries (cb_labels b))]) b1 (la_ok _ _ _ _ H1) Hnd) as (b2 & -> & H2).
  - intros y Hy. rewrite (la_entries _ _ _ _ H1). intros [Hin|Hin%list_elem_of_singleton]%elem_of_app.
    + by apply (Hnew y); [right|].
    + injection Hin as ->. done.
  - rewrite (la_entries _ _ _ _ H1), length_app. cbn. lia.
  - exists b2. split; [|by eapply labels_added_trans].
    rewrite (la_entries _ _ _ _ H1), length_app, <-app_assoc. cbn. by rewrite Nat.add_1_r.
Qed.

(** ** States *)

(** The builder [b'] has the states [names] after those of [b]. *)
Record states_added (b b' : CltsBuilder) (names : list string) : Prop := {
  st_ok : builder_ok b';
  st_names : cb_state_names b' = cb_state_names b ++ names;
  st_overflow : cb_state_overflow b' = cb_state_overflow b;
  st_transitions : cb_transitions b' = cb_transitions b;
  st_labels : cb_labels b' = cb_labels b;
  st_controllability : cb_label_controllability b' = cb_label_controllability b
}.

Lemma new_state_owned b name : builder_ok b → name ∉ cb_state_names b →
  (N.of_nat (length (cb_state_names b)) <= id_max)%N →
  ∃ b', insert_state_owned name b = (Some (length (cb_state_names b)), b') ∧ states_added b b' [name].
Proof.
  intros Hok Hnew Hfit. destruct (insert_state_fresh b name Hok) as (b' & vid & ext & E & Hok' & Hb' & _); [|done|].
  { destruct (cb_state_map b !! name) as [i|] eqn:Em; [|done]. exfalso. apply (bok_map _ Hok) in Em.
    by eapply Hnew, list_elem_of_lookup_2. }
  exists b'. split; [done|]. constructor; [done|..]; by rewrite Hb'.
Qed.

Lemma states_added_trans b1 b2 b3 name names :
  states_added b1 b2 [name] → states_added b2 b3 names → states_added b1 b3 (name :: names).
Proof.
  intros [] []. constructor; [done|..]; try congruence.
  rewrite st_names1, st_names0. by rewrite <-app_assoc.
Qed.

Lemma no_states_added b : builder_ok b → states_added b b [].
Proof. intros. constructor; [done|by rewrite app_nil_r|done..]. Qed.

Lemma fresh_after b b1 x names : states_added b b1 [x] → x ∉ names →
  (∀ y, y ∈ x :: names → y ∉ cb_state_names b) → ∀ y, y ∈ names → y ∉ cb_state_names b1.
Proof.
  intros H1 Hx Hnew y Hy. rewrite (st_names _ _ _ H1). intros [Hin|Hin]%elem_of_app; [by apply (Hnew y); [right|]|].
  apply list_elem_of_singleton in Hin. congruence.
Qed.

Lemma new_states_spec names : ∀ ids b, builder_ok b → NoDup names → (∀ x, x ∈ names → x ∉ cb_state_names b) →
  (N.of_nat (length (cb_state_names b) + length names) <= id_max + 1)%N →
  ∃ b', for_each new_state (ids, b) names = Some (ids ++ seq (length (cb_state_names b)) (length names), b') ∧
    states_added b b' names.
Proof.
  induction names as [|x names IH]; intros ids b Hok Hnd Hnew Hfit.
  { exists b. cbn. rewrite app_nil_r. split; [done|by apply no_states_added]. }
  apply NoDup_cons in Hnd as [Hx Hnd]. cbn [for_each length seq] in *.
  destruct (new_state_owned b x Hok) as (b1 & E & H1); [apply Hnew; by left|lia|]. unfold new_state at 1. rewrite E.
  destruct (IH (ids ++ [length (cb_state_names b)]) b1 (st_ok _ _ _ H1) Hnd) as (b2 & -> & H2).
  - by eapply fresh_after.
  - rewrite (st_names _ _ _ H1), length_app. cbn. lia.
  - exists b2. split; [|by eapply states_added_trans].
    rewrite (st_names _ _ _ H1), length_app, <-app_assoc. cbn. by rewrite Nat.add_1_r.
Qed.

Definition ctrl_name (mi : nat * nat) : string := "C" +:+ pretty mi.1 +:+ "_" +:+ pretty mi.2.

Lemma new_ctrl_states_spec ks : ∀ m0 b, builder_ok b → NoDup (map ctrl_name ks) →
  (∀ x, x ∈ map ctrl_name ks → x ∉ cb_state_names b) →
  (N.of_nat (length (cb_state_names b) + length ks) <= id_max + 1)%N →
  ∃ m b', for_each new_ctrl_state (m0, b) ks = Some (m, b') ∧ states_added b b' (map ctrl_name ks) ∧
    (∀ i k, ks !! i = Some k → m !! k = Some (length (cb_state_names b) + i)) ∧
    (∀ k, k ∉ ks → m !! k = m0 !! k).
Proof.
  induction ks as [|k ks IH]; intros m0 b Hok Hnd Hnew Hfit.
  { exists m0, b. split_and!; [done|by apply no_states_added|by intros i k|done]. }
  cbn [map] in *. apply NoDup_cons in Hnd as [Hx Hnd]. cbn [for_each length] in *.
  destruct (new_state_owned b (ctrl_name k) Hok) as (b1 & E & H1); [apply Hnew; by left|lia|].
  unfold new_ctrl_state at 1. unfold ctrl_name in E at 1. rewrite E.
  destruct (IH (<[k := length (cb_state_names b)]> m0) b1 (st_ok _ _ _ H1) Hnd) as (m & b2 & -> & H2 & Hm & Ho).
  - by eapply fresh_after.
  - rewrite (st_names _ _ _ H1), length_app. cbn. lia.
  - assert (Hk : k ∉ ks) by (intros Hk; apply Hx; change (ctrl_name k ∈ ctrl_name <$> ks); by apply list_elem_of_fmap_2).
    exists m, b2. split_and!; [done|by eapply states_added_trans| |].
    + intros [|i] k' Hi.
      * injection Hi as ->. by rewrite (Ho k' Hk), lookup_insert_eq, Nat.add_0_r.
      * rewrite (Hm i k' Hi), (st_names _ _ _ H1), length_app. cbn. f_equal. lia.
    + intros k' [Hne Hk']%not_elem_of_cons. rewrite (Ho k' Hk'). by rewrite lookup_insert_ne.
Qed.

(** The names of the states are different. *)
Lemma ctrl_name_inj x y : ctrl_name x = ctrl_name y → x = y.
Proof.
  destruct x as [m iv], y as [m' iv']. unfold ctrl_name. cbn [fst snd]. intros E. injection E as E.
  apply split_at_char in E as [E1%(inj pretty) E2%(inj pretty)]; [congruence|apply pretty_char_free..];
    intros d; destruct d as [|p]; try done; do 4 (destruct p as [p|p|]; try done).
Qed.
End phases.

(** ** Monitors *)

Lemma foldl_setbit {A} (P : nat * A → bool) off l : ∀ (m0 k : nat) j,
  Nat.testbit (foldl (λ m2 ix, if P ix then Nat.setbit m2 (off + fst ix) else m2) m0 (imap (λ i x, (k + i, x)) l)) j
  = Nat.testbit m0 j || existsb (λ ix, P ix && (j =? off + fst ix)) (imap (λ i x, (k + i, x)) l).
Proof.
  induction l as [|x l IH]; intros m0 k j; cbn [imap foldl existsb]; [by rewrite orb_false_r|].
  rewrite (imap_ext _ (λ i y, (S k + i, y))) by (intros; simpl; f_equal; lia).
  rewrite IH. destruct (P (k + 0, x)); cbn [andb fst orb]; [|done].
  rewrite Nat.setbit_eqb, (Nat.eqb_sym (off + (k + 0)) j). by destruct (Nat.testbit m0 j), (j =? off + (k + 0)).
Qed.

(** The bit of an entry, and of no entry. *)
Lemma indexed_bit {A} (P : nat * A → bool) off (l : list A) i j x :
  l !! i = Some x → j = off + i → existsb (λ ix, P ix && (j =? off + fst ix)) (imap pair l) = P (i, x).
Proof.
  intros Hi ->. apply bool_eq_iff. rewrite existsb_spec. split.
  - intros ([i' x'] & Hin & [HP Heq%Nat.eqb_eq]%andb_true_iff). cbn in Heq. assert (i' = i) as -> by lia.
    apply list_elem_of_lookup_1 in Hin as [k Hk]. rewrite list_lookup_imap_Some in Hk. destruct Hk as (y & Hy & [= <- ->]).
    assert (x = y) as -> by congruence. done.
  - intros HP. exists (i, x). split; [|by rewrite HP; cbn; apply Nat.eqb_eq].
    apply list_elem_of_lookup_2 with i. rewrite list_lookup_imap, Hi. done.
Qed.

Lemma no_indexed_bit {A} (P : nat * A → bool) off (l : list A) j :
  j < off ∨ off + length l ≤ j → existsb (λ ix, P ix && (j =? off + fst ix)) (imap pair l) = false.
Proof.
  intros Hj. apply not_true_iff_false. rewrite existsb_spec. intros ([i' x'] & Hin & [HP Heq%Nat.eqb_eq]%andb_true_iff).
  apply list_elem_of_lookup_1 in Hin as [k Hk]. rewrite list_lookup_imap_Some in Hk. destruct Hk as (y & Hy & [= <- ->]).
  apply lookup_lt_Some in Hy. cbn in Heq. lia.
Qed.

Lemma lt_pow2_bits x n : (∀ i, n ≤ i → Nat.testbit x i = false) → x < 2 ^ n.
Proof.
  intros Hb. replace x with (x mod 2 ^ n); [apply Nat.mod_upper_bound, Nat.pow_nonzero; lia|].
  apply Nat.bits_inj. intros i. destruct (decide (i < n)).
  - by rewrite Nat.mod_pow2_bits_low.
  - rewrite Nat.mod_pow2_bits_high by lia. by rewrite Hb by lia.
Qed.

Section monitors.
Context (spec : Gr1Spec) (m : nat) (val : gmap string bool).
Notation n_ts := (length (ts_clauses spec)).
Notation n_resp := (length (sp_responses spec)).

Definition response_pending (jr : nat * ResponseClause) : bool :=
  (Nat.testbit m (n_ts + fst jr) || eval_prop (rc_trigger (snd jr)) val) && negb (eval_prop (rc_response (snd jr)) val).

Lemma next_monitors_bits j : Nat.testbit (next_monitors spec m val) j =
  existsb (λ ic, eval_prop (fst (snd ic)) val && (j =? 0 + fst ic)) (imap pair (ts_clauses spec))
  || existsb (λ jr, response_pending jr && (j =? n_ts + fst jr)) (imap pair (sp_responses spec)).
Proof.
  pose proof (foldl_setbit (λ ic : nat * (LtlFormula * LtlFormula), eval_prop (fst (snd ic)) val) 0 (ts_clauses spec) 0 0 j) as H1.
  rewrite Nat.bits_0 in H1. cbn [orb] in H1.
  pose proof (λ m0, foldl_setbit response_pending n_ts (sp_responses spec) m0 0 j) as H2.
  set (m2 := foldl (λ m2 ic, if eval_prop (fst (snd ic)) val then Nat.setbit m2 (0 + fst ic) else m2) 0
              (imap pair (ts_clauses spec))).
  assert (H3 : next_monitors spec m val
    = foldl (λ m2 jr, if response_pending jr then Nat.setbit m2 (n_ts + fst jr) else m2) m2 (imap pair (sp_responses spec))).
  { unfold next_monitors. change (foldl _ 0 _) with m2. generalize (imap pair (sp_responses spec)) as l. clearbody m2.
    clear. intros l. revert m2. induction l as [|[j' r] l IH]; intros m2; [done|]. cbn [foldl]. apply IH. }
  rewrite H3. etransitivity; [apply H2|]. f_equal. exact H1.
Qed.

Lemma next_transition_bit i cl : ts_clauses spec !! i = Some cl →
  Nat.testbit (next_monitors spec m val) i = eval_prop (fst cl) val.
Proof.
  intros Hi. rewrite next_monitors_bits, (indexed_bit _ 0 _ i i cl Hi eq_refl).
  apply lookup_lt_Some in Hi. rewrite no_indexed_bit by lia. cbn. apply orb_false_r.
Qed.

Lemma next_response_bit j r : sp_responses spec !! j = Some r →
  Nat.testbit (next_monitors spec m val) (n_ts + j) =
    (Nat.testbit m (n_ts + j) || eval_prop (rc_trigger r) val) && negb (eval_prop (rc_response r) val).
Proof.
  intros Hj. rewrite next_monitors_bits, no_indexed_bit by lia. cbn [orb].
  by rewrite (indexed_bit response_pending n_ts _ j (n_ts + j) r Hj eq_refl).
Qed.

Lemma next_monitors_lt : next_monitors spec m val < 2 ^ (n_ts + n_resp).
Proof. apply lt_pow2_bits. intros i Hi. rewrite next_monitors_bits, !no_indexed_bit by lia. done. Qed.
End monitors.

(** ** Moves *)

Lemma set_transitions_ok ts b : builder_ok b →
  (∀ t, t ∈ ts → spec_from t < length (cb_state_names b) ∧ spec_to t < length (cb_state_names b)) →
  builder_ok (set_transitions ts b).
Proof. intros [] Hts. by constructor. Qed.

Section moves.
Context (spec : Gr1Spec) (N I O : nat).

(** The numbering of the states. *)
Definition ctrl_state (m iv : nat) : StateId := N + (m * I + iv).
Definition bad_state : StateId := N + N * I.

(** Where the controller's output leads. *)
Definition ctrl_target (m iv ov : nat) : StateId :=
  let val := signal_val spec iv ov in
  if unsafe_move spec m val then bad_state else next_monitors spec m val.

Definition env_spec (mi : nat * nat) : TransitionSpec :=
  {| spec_from := mi.1; spec_to := ctrl_state mi.1 mi.2; spec_labels := [mi.2]; spec_modality := Sharp |}.
Definition ctrl_spec (mio : nat * nat * nat) : TransitionSpec :=
  {| spec_from := ctrl_state mio.1.1 mio.1.2; spec_to := ctrl_target mio.1.1 mio.1.2 mio.2;
     spec_labels := [I + mio.2]; spec_modality := Sharp |}.

Context (env_labels ctrl_labels : list LabelId) (e_state : list StateId) (c_state : gmap (nat * nat) StateId).
Context (He : ∀ m, m < N → e_state !! m = Some m).
Context (Hcs : ∀ m iv, m < N → iv < I → c_state !! (m, iv) = Some (ctrl_state m iv)).
Context (Hel : ∀ iv, iv < I → env_labels !! iv = Some iv).
Context (Hcl : ∀ ov, ov < O → ctrl_labels !! ov = Some (I + ov)).

Lemma set_transitions_app ts ts' b :
  set_transitions (cb_transitions (set_transitions ts b) ++ ts') (set_transitions ts b) = set_transitions (ts ++ ts') b.
Proof using Type. done. Qed.

Lemma env_moves_spec ks : ∀ meta b, (∀ m iv, (m, iv) ∈ ks → m < N ∧ iv < I) →
  ∃ meta', for_each (env_move env_labels e_state c_state) (meta, b) ks
    = Some (meta', set_transitions (cb_transitions b ++ map env_spec ks) b).
Proof using He Hcs Hel.
  induction ks as [|[m iv] ks IH]; intros meta b Hks.
  { exists meta. cbn. rewrite app_nil_r. by destruct b. }
  destruct (Hks m iv) as [Hm Hi]; [by left|]. cbn [for_each env_move fst snd].
  rewrite (He m Hm), (Hcs m iv Hm Hi), (Hel iv Hi).
  destruct (IH (<[ctrl_state m iv := (m, iv)]> meta) (transition_ids m [iv] (ctrl_state m iv) b)) as [meta' E]; [intros; apply Hks; by right|].
  exists meta'. rewrite E. f_equal. f_equal. unfold transition_ids, transition_ids_with_modality.
  rewrite set_transitions_app. by rewrite <-app_assoc.
Qed.

Context (HN : N = 2 ^ (length (ts_clauses spec) + length (sp_responses spec))).

Lemma ctrl_target_range m iv ov : ctrl_target m iv ov ≤ bad_state.
Proof using HN.
  unfold ctrl_target. case_match; [done|]. pose proof (next_monitors_lt spec m (signal_val spec iv ov)).
  unfold bad_state. lia.
Qed.

(** The recorded outputs lead where their move leads. *)
Lemma ctrl_moves_spec ks : ∀ (outs : gmap (StateId * StateId) nat) b,
  (∀ m iv ov, (m, iv, ov) ∈ ks → m < N ∧ iv < I ∧ ov < O) →
  ∃ outs', for_each (ctrl_move spec ctrl_labels e_state c_state bad_state) (outs, b) ks
    = Some (outs', set_transitions (cb_transitions b ++ map ctrl_spec ks) b) ∧
    (∀ k ov, outs' !! k = Some ov → outs !! k = Some ov ∨
      ∃ m iv, (m, iv, ov) ∈ ks ∧ k = (ctrl_state m iv, ctrl_target m iv ov)) ∧
    (∀ k, is_Some (outs !! k) → is_Some (outs' !! k)) ∧
    (∀ m iv ov, (m, iv, ov) ∈ ks → is_Some (outs' !! (ctrl_state m iv, ctrl_target m iv ov))).
Proof using He Hcs Hcl HN.
  induction ks as [|[[m iv] ov] ks IH]; intros outs b Hks.
  { exists outs. cbn. rewrite app_nil_r. split_and!; [by destruct b|by left|done|by intros ? ? ? ?%not_elem_of_nil]. }
  destruct (Hks m iv ov) as (Hm & Hi & Ho); [by left|]. cbn [for_each]. unfold ctrl_move at 1.
  rewrite (Hcs m iv Hm Hi), (Hcl ov Ho).
  assert (Ht : (if unsafe_move spec m (signal_val spec iv ov) then Some bad_state
                else e_state !! next_monitors spec m (signal_val spec iv ov)) = Some (ctrl_target m iv ov)).
  { unfold ctrl_target. case_match; [done|]. apply He. rewrite HN. apply next_monitors_lt. }
  rewrite Ht. set (k0 := (ctrl_state m iv, ctrl_target m iv ov)).
  destruct (IH (<[k0 := ov]> outs) (transition_ids (ctrl_state m iv) [I + ov] (ctrl_target m iv ov) b))
    as (outs' & E & H1 & H2 & H3); [intros; apply Hks; by right|].
  exists outs'. split_and!.
  - rewrite E. f_equal. f_equal. unfold transition_ids, transition_ids_with_modality.
    rewrite set_transitions_app. by rewrite <-app_assoc.
  - intros k ov' [Hk|(m' & iv' & Hin & ->)]%H1.
    + destruct (decide (k = k0)) as [->|]; [|rewrite lookup_insert_ne in Hk by done; by left].
      rewrite lookup_insert_eq in Hk. injection Hk as <-. right. exists m, iv. split; [by left|done].
    + right. exists m', iv'. split; [by right|done].
  - intros k Hk. apply H2. destruct (decide (k = k0)) as [->|]; [by rewrite lookup_insert_eq|by rewrite lookup_insert_ne].
  - intros m' iv' ov' [[= -> -> ->]|Hin]%elem_of_cons; [apply H2; by rewrite lookup_insert_eq|by apply H3].
Qed.
End moves.

(** ** The sets of states *)

Lemma for_each_set_bits {A} (P : A → bool) (at_ : A → option nat) n (l : list A) :
  (∀ x, x ∈ l → P x = true → ∃ i, at_ x = Some i ∧ i < n) →
  ∀ s, length s = n →
  ∃ s', for_each (λ s x, if P x then let* i := at_ x in set_bit_at s i else Some s) s l = Some s' ∧
    length s' = n ∧ ∀ i, bit s' i = true ↔ bit s i = true ∨ ∃ x, x ∈ l ∧ P x = true ∧ at_ x = Some i.
Proof.
  intros Hat. induction l as [|x l IH]; intros s Hs; cbn [for_each].
  { exists s. split_and!; [done..|]. intros i. split; [by left|]. by intros [?|(? & ?%not_elem_of_nil & _)]. }
  assert (Hl : ∀ y, y ∈ l → P y = true → ∃ i, at_ y = Some i ∧ i < n) by (intros; apply Hat; [by right|done]).
  destruct (P x) eqn:HP.
  - destruct (Hat x) as (k & Hk & Hkn); [by left|done|]. rewrite Hk.
    assert (set_bit_at s k = Some (bv_set s k true)) as -> by (unfold set_bit_at; destruct (Nat.ltb_spec k (length s)); [done|lia]).
    destruct (IH Hl (bv_set s k true)) as (s' & -> & Hl' & Hb); [by rewrite length_bv_set|]. exists s'. split_and!; [done..|].
    intros i. rewrite Hb, bit_set by lia. setoid_rewrite elem_of_cons. case_decide as Hik.
    + subst i. split; [intros _; right; exists x; auto|by left].
    + split; [intros [?|(y & ? & ? & ?)]; [by left|right; exists y; auto]|].
      intros [?|(y & [->|?] & ? & Hy)]; [by left|congruence|right; exists y; auto].
  - destruct (IH Hl s Hs) as (s' & -> & Hl' & Hb). exists s'. split_and!; [done..|].
    intros i. rewrite Hb. setoid_rewrite elem_of_cons. split.
    + intros [?|(y & ? & ? & ?)]; [by left|right; exists y; auto].
    + intros [?|(y & [->|?] & ? & ?)]; [by left|congruence|right; exists y; auto].
Qed.

Lemma collect_sets_spec {A B} (f : A → option B) (Q : A → B → Prop) l :
  (∀ x, x ∈ l → ∃ y, f x = Some y ∧ Q x y) → ∃ ys, collect_sets f l = Some ys ∧ Forall2 Q l ys.
Proof.
  unfold collect_sets. set (F := λ (acc : list B) (x : A), let* y := f x in Some (acc ++ [y])).
  assert (Hgen : ∀ acc, (∀ x, x ∈ l → ∃ y, f x = Some y ∧ Q x y) → ∃ ys, for_each F acc l = Some (acc ++ ys) ∧ Forall2 Q l ys).
  { induction l as [|x l IH]; intros acc Hf; cbn [for_each].
    { exists []. rewrite app_nil_r. by split. }
    destruct (Hf x) as (y & E & Hy); [by left|]. unfold F at 1. rewrite E.
    destruct (IH (acc ++ [y])) as (ys & -> & Hys); [intros; apply Hf; by right|].
    exists (y :: ys). rewrite <-app_assoc. split; [done|]. by constructor. }
  intros Hf. by destruct (Hgen [] Hf) as (ys & -> & Hys); exists ys.
Qed.

(** ** The built game *)

(** A transition with one label is controllable unless its label is uncontrollable. *)
Lemma built_control b c s t l : builder_ok b → build b = Some (Ok c) → t ∈ outgoing c s → t_labels t = [l] →
  is_controllable c t = negb (bool_decide (labelled_as (cb_label_controllability b) l = LC_Uncontrollable)).
Proof.
  intros Hok Hb Ht Hl. assert (Hov : cb_state_overflow b = None) by (unfold build in Hb; by destruct (cb_state_overflow b)).
  destruct (build_rows b Hok Hov) as (c' & unc & con & int & E & _ & _ & _ & Hout & _ & Ha & Hunc & _).
  assert (c' = c) as -> by congruence. rewrite controllable_xor with (s := s) by (done || by eapply build_ok).
  unfold is_uncontrollable, is_uncontrollable_label. rewrite Hl, Hunc. cbn [existsb]. rewrite orb_false_r. f_equal.
  apply bool_decide_ext. unfold build_alphabets in Ha. rewrite (proj1 (classify_spec _ _ _ _ _ _ _ _ Ha l)).
  rewrite elem_of_elements, elem_of_all_labels. split; [by intros [?%not_elem_of_empty|[_ ?]]|].
  intros Hc. right. split; [left|done]. rewrite Hout in Ht. case_decide; [|by apply not_elem_of_nil in Ht].
  apply elem_of_specs_from in Ht as (x & Hx & _ & ->). exists x. simpl in Hl. rewrite Hl. split; [done|by left].
Qed.

(** The identifiers suffice for the states and labels of the game. *)
Definition game_fits `{IdStorage} (spec : Gr1Spec) : Prop :=
  let n_mon := length (ts_clauses spec) + length (sp_responses spec) in
  let n_in := length (sp_inputs spec) in let n_out := length (sp_outputs spec) in
  n_mon < 64 ∧ n_in < 32 ∧ n_out < 32 ∧
  (N.of_nat (2 ^ n_mon + 2 ^ n_mon * 2 ^ n_in) <= id_max)%N ∧ (N.of_nat (2 ^ n_in + 2 ^ n_out) <= id_max)%N.

(** The arena of the game, and the sets of its states. *)
Record built_game (spec : Gr1Spec) (N I O : nat) (g : Gr1Game) : Prop := {
  bg_ok : clts_ok (g_clts g);
  bg_count : state_count (g_clts g) = S (bad_state N I);
  bg_env : ∀ m, m < N → eve (g_clts g) m = false ∧
    ∀ y, y ∈ moves (g_clts g) m ↔ ∃ iv, iv < I ∧ y = ctrl_state N I m iv;
  bg_ctrl : ∀ m iv, m < N → iv < I → eve (g_clts g) (ctrl_state N I m iv) = true ∧
    ∀ y, y ∈ moves (g_clts g) (ctrl_state N I m iv) ↔ ∃ ov, ov < O ∧ y = ctrl_target spec N I m iv ov;
  bg_init : g_init g = 0;
  bg_safe : length (g_safe g) = S (bad_state N I) ∧
    ∀ s, bit (g_safe g) s = true ↔ s < bad_state N I;
  bg_sys : Forall2 (λ j S, length S = state_count (g_clts g) ∧
    ∀ s, bit S s = true ↔ s < N ∧ Nat.testbit s (length (ts_clauses spec) + j) = false) (seq 0 (length (sp_responses spec))) (g_sys_fair g);
  bg_assume : Forall2 (λ prop S, length S = state_count (g_clts g) ∧
    ∀ s, bit S s = true ↔ ∃ m iv, m < N ∧ iv < I ∧ s = ctrl_state N I m iv ∧ eval_prop prop (signal_val spec iv 0) = true)
    (sp_env_fair spec) (g_env_fair g);
  bg_output : ∀ m iv t ov, m < N → iv < I → move_output g !! (ctrl_state N I m iv, t) = Some ov →
    ov < O ∧ t = ctrl_target spec N I m iv ov;
  bg_outputs : ∀ m iv ov, m < N → iv < I → ov < O → is_Some (move_output g !! (ctrl_state N I m iv, ctrl_target spec N I m iv ov));
  bg_meta : ∀ m, m < N → e_meta g !! m = Some m
}.

Lemma ctrl_state_inj N I m iv m' iv' : iv < I → iv' < I → ctrl_state N I m iv = ctrl_state N I m' iv' → m = m' ∧ iv = iv'.
Proof.
  unfold ctrl_state. intros Hi Hi' E. assert (E' : I * m + iv = I * m' + iv') by lia.
  destruct (Nat.div_mod_unique I m m' iv iv' Hi Hi' E'). done.
Qed.

Lemma ctrl_state_range N I m iv : m < N → iv < I → N ≤ ctrl_state N I m iv < bad_state N I.
Proof. unfold ctrl_state, bad_state. intros. assert (m * I + I ≤ N * I); [|lia]. replace (m * I + I) with (S m * I) by lia. apply Nat.mul_le_mono_r. lia. Qed.

Section built.
Context `{IdStorage} (spec : Gr1Spec) (Hfits : game_fits spec).
Notation N := (2 ^ (length (ts_clauses spec) + length (sp_responses spec))).
Notation I := (2 ^ length (sp_inputs spec)).
Notation O := (2 ^ length (sp_outputs spec)).

Lemma labels_phase : ∃ b,
  for_each (new_label LC_Uncontrollable) ([], CltsBuilder_default) (map (λ k : nat, "env_" +:+ pretty k) (seq 0 I)) = Some (seq 0 I, b) ∧
  ∃ b', for_each (new_label LC_Controllable) ([], b) (map (λ k : nat, "ctrl_" +:+ pretty k) (seq 0 O)) = Some (seq I O, b') ∧
  ∃ b'', new_label LC_Uncontrollable ([], b') "bad" = Some ([I + O], b'') ∧ builder_ok b'' ∧
    cb_state_names b'' = [] ∧ cb_state_overflow b'' = None ∧ cb_transitions b'' = [] ∧
    ∀ l, l < I + O + 1 → labelled_as (cb_label_controllability b'') l = LC_Uncontrollable ↔ l < I ∨ l = I + O.
Proof using Hfits.
  destruct Hfits as (_ & _ & _ & _ & Hlab). clear Hfits. generalize dependent I. generalize dependent O. intros O I Hlab.
  destruct (new_labels_spec LC_Uncontrollable (map (λ k : nat, "env_" +:+ pretty k) (seq 0 I)) [] CltsBuilder_default) as (b & E & H1).
  { apply builder_ok_default. }
  { apply NoDup_map_inj, NoDup_seq. intros x y E. by apply (inj (String.append "env_")), (inj pretty) in E. }
  { intros x _. apply not_elem_of_nil. }
  { rewrite length_map, length_seq. cbn. lia. }
  rewrite length_map, length_seq in E. exists b. split; [exact E|].
  assert (Hlen : length (lb_entries (cb_labels b)) = I).
  { rewrite (la_entries _ _ _ _ H1). cbn. by rewrite !length_map, length_seq. }
  destruct (new_labels_spec LC_Controllable (map (λ k : nat, "ctrl_" +:+ pretty k) (seq 0 O)) [] b) as (b' & E' & H2).
  { apply H1. }
  { apply NoDup_map_inj, NoDup_seq. intros x y Exy. by apply (inj (String.append "ctrl_")), (inj pretty) in Exy. }
  { intros x (k & -> & _)%list_elem_of_fmap. rewrite (la_entries _ _ _ _ H1). cbn.
    intros (y & Hy & (j & -> & _)%list_elem_of_fmap)%list_elem_of_fmap. done. }
  { rewrite length_map, length_seq, Hlen. lia. }
  rewrite length_map, length_seq, Hlen in E'. exists b'. split; [exact E'|].
  assert (Hlen' : length (lb_entries (cb_labels b')) = I + O).
  { rewrite (la_entries _ _ _ _ H2), length_app, Hlen, !length_map, length_seq. done. }
  destruct (new_label_spec LC_Uncontrollable [] b' "bad") as (b'' & E'' & H3).
  { apply H2. }
  { rewrite (la_entries _ _ _ _ H2), (la_entries _ _ _ _ H1). cbn. rewrite elem_of_app.
    intros [(y & Hy & (j & -> & _)%list_elem_of_fmap)%list_elem_of_fmap|(y & Hy & (j & -> & _)%list_elem_of_fmap)%list_elem_of_fmap]; done. }
  { rewrite Hlen'. lia. }
  rewrite Hlen' in E''. exists b''. split_and!; [exact E''|apply H3|..].
  - rewrite (la_same _ _ _ _ H3), (la_same _ _ _ _ H2), (la_same _ _ _ _ H1). done.
  - rewrite (la_same _ _ _ _ H3), (la_same _ _ _ _ H2), (la_same _ _ _ _ H1). done.
  - rewrite (la_same _ _ _ _ H3), (la_same _ _ _ _ H2), (la_same _ _ _ _ H1). done.
  - intros l Hl. unfold labelled_as.
    rewrite (la_controllability _ _ _ _ H3), (la_controllability _ _ _ _ H2), (la_controllability _ _ _ _ H1), Hlen, Hlen'.
    rewrite !length_map, !length_seq. cbn. repeat case_decide; cbn; (split; [|intros]; try done; lia).
Qed.

Lemma states_phase b : builder_ok b → cb_state_names b = [] → ∃ b1,
  for_each new_state ([], b) (map (λ m : nat, "E" +:+ pretty m) (seq 0 N)) = Some (seq 0 N, b1) ∧
  ∃ c_state b2, for_each new_ctrl_state (∅, b1) (list_prod (seq 0 N) (seq 0 I)) = Some (c_state, b2) ∧
    (∀ m iv, m < N → iv < I → c_state !! (m, iv) = Some (ctrl_state N I m iv)) ∧
  ∃ b3, new_state ([], b2) "BAD" = Some ([bad_state N I], b3) ∧ builder_ok b3 ∧
    length (cb_state_names b3) = S (bad_state N I) ∧ cb_state_overflow b3 = cb_state_overflow b ∧
    cb_transitions b3 = cb_transitions b ∧ cb_label_controllability b3 = cb_label_controllability b.
Proof using Hfits.
  destruct Hfits as (_ & _ & _ & Hst & _). clear Hfits. generalize dependent I. generalize dependent N. intros N I Hst Hok Hnames.
  destruct (new_states_spec (map (λ m : nat, "E" +:+ pretty m) (seq 0 N)) [] b) as (b1 & E1 & H1); [done|..].
  { apply NoDup_map_inj, NoDup_seq. intros x y E. by apply (inj (String.append "E")), (inj pretty) in E. }
  { intros x _. rewrite Hnames. apply not_elem_of_nil. }
  { rewrite Hnames, length_map, length_seq. cbn. lia. }
  rewrite Hnames, length_map, length_seq in E1. exists b1. split; [exact E1|].
  assert (Hlen : length (cb_state_names b1) = N) by (rewrite (st_names _ _ _ H1), Hnames; cbn; by rewrite length_map, length_seq).
  set (ks := list_prod (seq 0 N) (seq 0 I)).
  assert (Hks : length ks = N * I) by (unfold ks; by rewrite length_prod, !length_seq).
  destruct (new_ctrl_states_spec ks ∅ b1) as (m & b2 & E2 & H2 & Hm & _).
  { apply H1. }
  { apply NoDup_map_inj; [apply ctrl_name_inj|apply NoDup_list_prod; apply NoDup_seq]. }
  { intros x (k & -> & _)%list_elem_of_fmap. rewrite (st_names _ _ _ H1), Hnames. cbn.
    intros (j & Hj & _)%list_elem_of_fmap. done. }
  { rewrite Hlen, Hks. lia. }
  exists m, b2. split; [exact E2|]. split.
  { intros mo iv Hmo Hiv. rewrite (Hm (mo * I + iv)) by (by apply lookup_list_prod). by rewrite Hlen. }
  assert (Hlen2 : length (cb_state_names b2) = bad_state N I).
  { rewrite (st_names _ _ _ H2), length_app, Hlen, length_map, Hks. done. }
  destruct (new_state_owned b2 "BAD") as (b3 & E3 & H3); [apply H2| |rewrite Hlen2; unfold bad_state; lia|].
  { rewrite (st_names _ _ _ H2), (st_names _ _ _ H1), Hnames. cbn. rewrite elem_of_app.
    intros [(k & Hk & _)%list_elem_of_fmap|(k & Hk & _)%list_elem_of_fmap]; done. }
  exists b3. unfold new_state. rewrite E3, Hlen2. destruct H1, H2, H3. split_and!; try congruence; [done|].
  rewrite st_names2, length_app, Hlen2. cbn. lia.
Qed.

(** The transitions of the game, and the set-up around them. *)
Definition game_transitions : list TransitionSpec :=
  map (env_spec N I) (list_prod (seq 0 N) (seq 0 I)) ++
  map (ctrl_spec spec N I) (list_prod (list_prod (seq 0 N) (seq 0 I)) (seq 0 O)) ++
  [{| spec_from := bad_state N I; spec_to := bad_state N I; spec_labels := [I + O]; spec_modality := Sharp |}].

Lemma pow2_pos k : 0 < 2 ^ k.
Proof using Type. clear. apply Nat.neq_0_lt_0, Nat.pow_nonzero. done. Qed.

Lemma elem_of_game_transitions t : t ∈ game_transitions ↔
  (∃ m iv, m < N ∧ iv < I ∧ t = env_spec N I (m, iv)) ∨
  (∃ m iv ov, m < N ∧ iv < I ∧ ov < O ∧ t = ctrl_spec spec N I (m, iv, ov)) ∨
  t = {| spec_from := bad_state N I; spec_to := bad_state N I; spec_labels := [I + O]; spec_modality := Sharp |}.
Proof using Type.
  clear Hfits. unfold game_transitions. rewrite !elem_of_app, list_elem_of_singleton. split.
  - intros [([m iv] & -> & [? ?]%elem_of_pairs)%list_elem_of_fmap|[([[m iv] ov] & -> & [[? ?]%elem_of_pairs Ho%elem_of_seq]%elem_of_list_prod)%list_elem_of_fmap| ->]];
      [left; by exists m, iv|right; left; exists m, iv, ov; split_and!; (done || lia)|by right; right].
  - intros [(m & iv & ? & ? & ->)|[(m & iv & ov & ? & ? & ? & ->)| ->]]; [left|right; left|by right; right].
    + change (env_spec N I (m, iv) ∈ env_spec N I <$> list_prod (seq 0 N) (seq 0 I)). by apply list_elem_of_fmap_2, elem_of_pairs.
    + change (ctrl_spec spec N I (m, iv, ov) ∈ ctrl_spec spec N I <$> list_prod (list_prod (seq 0 N) (seq 0 I)) (seq 0 O)).
      apply list_elem_of_fmap_2, elem_of_list_prod. split; [by apply elem_of_pairs|apply elem_of_seq; lia].
Qed.

Section arena.
Context (b : CltsBuilder) (Hok : builder_ok b) (c : Clts) (Hb : build b = Some (Ok c)).
Context (Hts : cb_transitions b = game_transitions) (Hcount : length (cb_state_names b) = S (bad_state N I)).
Context (Hlab : ∀ l, l < I + O + 1 → labelled_as (cb_label_controllability b) l = LC_Uncontrollable ↔ l < I ∨ l = I + O).

Lemma arena_count : state_count c = S (bad_state N I).
Proof using Hb Hcount. unfold state_count. by rewrite (bc_names _ _ (build_copied _ _ Hb)). Qed.

Lemma arena_outgoing s t : s < S (bad_state N I) →
  t ∈ outgoing c s ↔ ∃ x, x ∈ game_transitions ∧ spec_from x = s ∧ t = spec_outgoing x.
Proof using Hok Hb Hts Hcount.
  intros Hs. assert (Hov : cb_state_overflow b = None) by (unfold build in Hb; by destruct (cb_state_overflow b)).
  destruct (build_rows b Hok Hov) as (c' & ? & ? & ? & E & Hn & _ & _ & Hout & _).
  assert (c' = c) as -> by congruence. rewrite Hout, decide_True by (by rewrite Hn, Hcount).
  by rewrite elem_of_specs_from, Hts.
Qed.

Lemma arena_control s t l : t ∈ outgoing c s → t_labels t = [l] → l < I + O + 1 →
  is_controllable c t = negb (bool_decide (l < I ∨ l = I + O)).
Proof using Hok Hb Hlab.
  intros Ht Hl Hlt. rewrite (built_control b c s t l Hok Hb Ht Hl). f_equal. apply bool_decide_ext, Hlab, Hlt.
Qed.

(** Only one kind of transition leaves a state. *)
Lemma leaving_env m x : m < N → x ∈ game_transitions → spec_from x = m → ∃ iv, iv < I ∧ x = env_spec N I (m, iv).
Proof using Type.
  clear. intros Hm Hx Hf. apply elem_of_game_transitions in Hx as [(m' & iv & Hm' & Hi & ->)|[(m' & iv & ov & Hm' & Hi & _ & ->)| ->]]; cbn in Hf.
  - subst. by exists iv.
  - pose proof (ctrl_state_range N I m' iv Hm' Hi). lia.
  - unfold bad_state in Hf. assert (0 ≤ N * I) by apply Nat.le_0_l. lia.
Qed.

Lemma leaving_ctrl m iv x : m < N → iv < I → x ∈ game_transitions → spec_from x = ctrl_state N I m iv →
  ∃ ov, ov < O ∧ x = ctrl_spec spec N I (m, iv, ov).
Proof using Type.
  clear. intros Hm Hi Hx Hf. pose proof (ctrl_state_range N I m iv Hm Hi) as Hr.
  apply elem_of_game_transitions in Hx as [(m' & iv' & Hm' & _ & ->)|[(m' & iv' & ov & Hm' & Hi' & Ho & ->)| ->]]; cbn in Hf.
  - lia.
  - apply ctrl_state_inj in Hf as [-> ->]; [|done..]. by exists ov.
  - lia.
Qed.

Lemma arena_env m : m < N → eve c m = false ∧ ∀ y, y ∈ moves c m ↔ ∃ iv, iv < I ∧ y = ctrl_state N I m iv.
Proof using Hok Hb Hts Hcount Hlab.
  intros Hm. assert (Hms : m < S (bad_state N I)) by (unfold bad_state; assert (0 ≤ N * I) by apply Nat.le_0_l; lia).
  assert (He : eve c m = false).
  { apply not_true_iff_false. unfold eve. rewrite existsb_spec. intros (t & Ht & Hct).
    pose proof Ht as Ht'. apply arena_outgoing in Ht' as (x & Hx & Hf & ->); [|done].
    destruct (leaving_env m x Hm Hx Hf) as (iv & Hi & ->). rewrite (arena_control m _ iv) in Hct; [|done|done|lia].
    rewrite bool_decide_eq_true_2 in Hct by lia. done. }
  split; [done|]. intros y. unfold moves. rewrite He, list_elem_of_fmap. split.
  - intros (t & -> & Ht). apply arena_outgoing in Ht as (x & Hx & Hf & ->); [|done].
    destruct (leaving_env m x Hm Hx Hf) as (iv & Hi & ->). by exists iv.
  - intros (iv & Hi & ->). exists (spec_outgoing (env_spec N I (m, iv))). split; [done|]. apply arena_outgoing; [done|].
    exists (env_spec N I (m, iv)). split_and!; [|done..]. apply elem_of_game_transitions. left. by exists m, iv.
Qed.

Lemma arena_ctrl m iv : m < N → iv < I → eve c (ctrl_state N I m iv) = true ∧
  ∀ y, y ∈ moves c (ctrl_state N I m iv) ↔ ∃ ov, ov < O ∧ y = ctrl_target spec N I m iv ov.
Proof using Hok Hb Hts Hcount Hlab.
  intros Hm Hi. pose proof (ctrl_state_range N I m iv Hm Hi) as Hr.
  assert (Hin : ∀ ov, ov < O → spec_outgoing (ctrl_spec spec N I (m, iv, ov)) ∈ outgoing c (ctrl_state N I m iv)).
  { intros ov Ho. apply arena_outgoing; [lia|]. exists (ctrl_spec spec N I (m, iv, ov)). split_and!; [|done..].
    apply elem_of_game_transitions. right; left. by exists m, iv, ov. }
  assert (Hctl : ∀ t, t ∈ outgoing c (ctrl_state N I m iv) → is_controllable c t = true).
  { intros t Ht. pose proof Ht as Ht'. apply arena_outgoing in Ht' as (x & Hx & Hf & ->); [|lia].
    destruct (leaving_ctrl m iv x Hm Hi Hx Hf) as (ov & Ho & ->). rewrite (arena_control _ _ (I + ov) Ht); [|done|lia].
    rewrite bool_decide_eq_false_2 by lia. done. }
  assert (He : eve c (ctrl_state N I m iv) = true).
  { unfold eve. apply existsb_spec. exists (spec_outgoing (ctrl_spec spec N I (m, iv, 0))). pose proof (Hin 0 (pow2_pos _)). auto. }
  split; [done|]. intros y. unfold moves. rewrite He, list_elem_of_fmap. setoid_rewrite elem_of_filterb. split.
  - intros (t & -> & Ht & _). apply arena_outgoing in Ht as (x & Hx & Hf & ->); [|lia].
    destruct (leaving_ctrl m iv x Hm Hi Hx Hf) as (ov & Ho & ->). by exists ov.
  - intros (ov & Ho & ->). exists (spec_outgoing (ctrl_spec spec N I (m, iv, ov))). auto.
Qed.
End arena.

Lemma game_transitions_range t : t ∈ game_transitions → spec_from t < S (bad_state N I) ∧ spec_to t < S (bad_state N I).
Proof using Type.
  clear. intros [(m & iv & Hm & Hi & ->)|[(m & iv & ov & Hm & Hi & _ & ->)| ->]]%elem_of_game_transitions; cbn.
  - pose proof (ctrl_state_range N I m iv Hm Hi). lia.
  - pose proof (ctrl_state_range N I m iv Hm Hi). pose proof (ctrl_target_range spec N I eq_refl m iv ov). lia.
  - lia.
Qed.

Lemma shl_one_fits width n : n < width → shl_one width n = Some (2 ^ n).
Proof using Type. clear. intros Hn. unfold shl_one. by destruct (Nat.ltb_spec n width); [|lia]. Qed.

(** The game is built, as [built_game] describes it. *)
Lemma build_game_spec : ∃ g, build_game spec = Some g ∧ built_game spec N I O g.
Proof using Hfits.
  pose proof Hfits as (Hmon & Hin & Hout & _ & _). unfold build_game.
  rewrite (shl_one_fits 64), (shl_one_fits 32), (shl_one_fits 32) by done.
  destruct labels_phase as (b1 & -> & b2 & -> & b3 & -> & Hok3 & Hn3 & Hov3 & Ht3 & Hc3).
  destruct (states_phase b3 Hok3 Hn3) as (b4 & -> & c_state & b5 & -> & Hcs & b6 & -> & Hok6 & Hn6 & Hov6 & Ht6 & Hc6).
  assert (He : ∀ m, m < N → seq 0 N !! m = Some m) by (intros m Hm; by rewrite lookup_seq_lt).
  cbn [head]. rewrite (He 0) by apply pow2_pos.
  set (b7 := initial_state_id 0 b6).
  assert (Hpos : 0 < S (bad_state N I)) by lia.
  assert (Hok7 : builder_ok b7) by (apply initial_state_id_ok; [done|by rewrite Hn6]).
  destruct (env_moves_spec N I (seq 0 I) (seq 0 N) c_state He Hcs) with (ks := list_prod (seq 0 N) (seq 0 I))
    (meta := ∅ : gmap StateId (nat * nat)) (b := b7) as (meta & ->); [by intros iv Hiv; rewrite lookup_seq_lt|by intros m iv ?%elem_of_pairs|].
  destruct (ctrl_moves_spec spec N I O (seq I O) (seq 0 N) c_state He Hcs) with (ks := list_prod (list_prod (seq 0 N) (seq 0 I)) (seq 0 O))
    (outs := ∅ : gmap (StateId * StateId) nat) (b := set_transitions (cb_transitions b7 ++ map (env_spec N I) (list_prod (seq 0 N) (seq 0 I))) b7)
    as (outs & -> & Hout1 & _ & Hout3); [by intros ov Hov; rewrite lookup_seq_lt|done| |].
  { intros m iv ov [?%elem_of_pairs ?%elem_of_seq]%elem_of_list_prod. lia. }
  match goal with |- context [build ?B] => set (b8 := B) end.
  assert (Hts8 : cb_transitions b8 = game_transitions).
  { unfold b8, b7. cbn. rewrite Ht6, Ht3. cbn [app]. unfold game_transitions. by rewrite <-app_assoc. }
  assert (Hb8 : b8 = set_transitions game_transitions b7) by (rewrite <-Hts8; done).
  assert (Hok8 : builder_ok b8).
  { rewrite Hb8. apply set_transitions_ok; [done|]. intros t Ht. change (cb_state_names b7) with (cb_state_names b6).
    rewrite Hn6. by apply game_transitions_range. }
  assert (Hn8 : length (cb_state_names b8) = S (bad_state N I)) by (rewrite Hb8; exact Hn6).
  destruct (build_rows b8 Hok8) as (c & _ & _ & _ & Hbuild & _); [rewrite Hb8; cbn; congruence|]. rewrite Hbuild.
  assert (Hlab8 : ∀ l, l < I + O + 1 → labelled_as (cb_label_controllability b8) l = LC_Uncontrollable ↔ l < I ∨ l = I + O).
  { intros l Hl. rewrite Hb8. cbn. rewrite Hc6. by apply Hc3. }
  pose proof (arena_count b8 c Hbuild Hn8) as Hcount. clearbody b8.
  destruct (collect_sets_spec (env_fair_set spec (state_count c) (list_prod (seq 0 N) (seq 0 I)) c_state)
    (λ prop S, length S = state_count c ∧ ∀ s, bit S s = true ↔
       ∃ m iv, m < N ∧ iv < I ∧ s = ctrl_state N I m iv ∧ eval_prop prop (signal_val spec iv 0) = true) (sp_env_fair spec))
    as (env_fair & -> & Henv).
  { intros prop _. unfold env_fair_set.
    destruct (for_each_set_bits (λ mi : nat * nat, eval_prop prop (signal_val spec mi.2 0)) (λ mi, c_state !! mi)
      (state_count c) (list_prod (seq 0 N) (seq 0 I))) with (s := empty_set (state_count c)) as (S & E & HlS & HbS).
    - intros [m iv] [Hm Hi]%elem_of_pairs _. exists (ctrl_state N I m iv). rewrite (Hcs m iv Hm Hi). split; [done|].
      rewrite Hcount. pose proof (ctrl_state_range N I m iv Hm Hi). lia.
    - apply length_bv_fill.
    - exists S. split_and!; [exact E|done|]. intros s. rewrite HbS. unfold empty_set. rewrite bit_fill. cbn [andb]. split.
      + intros [?|([m iv] & [Hm Hi]%elem_of_pairs & HP & Hs)]; [done|]. rewrite (Hcs m iv Hm Hi) in Hs. injection Hs as <-. by exists m, iv.
      + intros (m & iv & Hm & Hi & -> & HP). right. exists (m, iv). split_and!; [by apply elem_of_pairs|done|by apply Hcs]. }
  destruct (collect_sets_spec (sys_fair_set (state_count c) (length (ts_clauses spec)) (seq 0 N) (seq 0 N))
    (λ j S, length S = state_count c ∧ ∀ s, bit S s = true ↔ s < N ∧ Nat.testbit s (length (ts_clauses spec) + j) = false)
    (seq 0 (length (sp_responses spec)))) as (sys_fair & -> & Hsys).
  { intros j _. unfold sys_fair_set.
    destruct (for_each_set_bits (λ m, negb (Nat.testbit m (length (ts_clauses spec) + j))) (λ m, seq 0 N !! m)
      (state_count c) (seq 0 N)) with (s := empty_set (state_count c)) as (S & E & HlS & HbS).
    - intros m Hm%elem_of_seq _. exists m. rewrite He by lia. split; [done|]. rewrite Hcount. unfold bad_state.
      assert (0 ≤ N * I) by apply Nat.le_0_l. lia.
    - apply length_bv_fill.
    - exists S. split_and!; [exact E|done|]. intros s. rewrite HbS. unfold empty_set. rewrite bit_fill. cbn [andb]. split.
      + intros [?|(m & Hm%elem_of_seq & HP & Hs)]; [done|]. rewrite He in Hs by lia. injection Hs as <-. split; [lia|by apply negb_true_iff].
      + intros [Hs HP]. right. exists s. split_and!; [apply elem_of_seq; lia|by apply negb_true_iff|by apply He]. }
  eexists. split; [done|]. constructor; cbn [g_clts g_safe g_sys_fair g_env_fair g_init move_output e_meta].
  - by eapply build_ok.
  - done.
  - intros m Hm. by apply (arena_env b8).
  - intros m iv Hm Hi. by apply (arena_ctrl b8).
  - done.
  - rewrite length_bv_set. unfold full. rewrite length_bv_fill, Hcount. split; [done|].
    intros s. rewrite bit_set by (rewrite length_bv_fill; lia). rewrite bit_fill. case_decide; [split; [done|lia]|].
    rewrite andb_true_l, bool_decide_eq_true. lia.
  - exact Hsys.
  - exact Henv.
  - intros m iv t ov Hm Hi [?|(m' & iv' & [[Hm' Hi']%elem_of_pairs Ho%elem_of_seq]%elem_of_list_prod & Hk)]%Hout1.
    { by rewrite lookup_empty in *. }
    injection Hk as Hc' ->. apply ctrl_state_inj in Hc' as [-> ->]; [|done..]. split; [lia|done].
  - intros m iv ov Hm Hi Ho. apply Hout3, elem_of_list_prod. split; [by apply elem_of_pairs|apply elem_of_seq; lia].
  - intros m Hm. assert (Himap : imap (λ m e : nat, (e, m)) (seq 0 N) = (λ m : nat, (m, m)) <$> seq 0 N).
    { apply list_eq. intros i. rewrite list_lookup_imap, list_lookup_fmap. destruct (decide (i < N)).
      - by rewrite lookup_seq_lt by done.
      - by rewrite lookup_seq_ge by lia. }
    rewrite Himap. apply elem_of_list_to_map_1.
    + rewrite <-list_fmap_compose. cbn. change (λ x, (fst ∘ (λ m : nat, (m, m))) x) with (λ x : nat, x).
      rewrite list_fmap_id. apply NoDup_seq.
    + apply list_elem_of_fmap. exists m. split; [done|]. apply elem_of_seq. lia.
Qed.
End built.
