(* ===== verification/Gr1Synthesis.v ===== *)
(** What [synthesise_gr1] promises: the specification is realizable exactly when
    some controller, seeing the inputs up to now, keeps the clauses.

    The plays of the built game are the traces of inputs and outputs: the
    monitors at even times, the inputs at odd ones.  The theorems state the
    clauses in linear temporal logic. *)
From S2P Require Import Prelude Clts Ltl Gr1 Gr1Game Gr1Correct Gr1Strategies Gr1Build Gr1BuildCorrect.

(** ** Traces of a specification *)

Lemma eval_prop_sat (val : nat → gmap string bool) f t : is_propositional f = true →
  eval_prop f (val t) = true ↔ ltl_sat (λ t p, default false (val t !! p)) f t.
Proof.
  induction f as [| |p|f IH|f IHf g IHg|f IHf g IHg|f IHf g IHg| | | | | | | | |]; cbn; try done.
  - intros Hp. rewrite <-IH by done. by destruct (eval_prop f (val t)).
  - intros [??]%andb_true_iff. by rewrite andb_true_iff, IHf, IHg.
  - intros [??]%andb_true_iff. by rewrite orb_true_iff, IHf, IHg.
  - intros [??]%andb_true_iff. rewrite <-IHf, <-IHg by done.
    destruct (eval_prop f (val t)), (eval_prop g (val t)); cbn; intuition congruence.
Qed.

Section trace.
Context (spec : Gr1Spec) (ι o : nat → nat).

Definition value (t : nat) : gmap string bool := signal_val spec (ι t) (o t).
Definition trace (t : nat) (p : string) : bool := default false (value t !! p).

(** The monitor bits along the trace. *)
Fixpoint monitor (t : nat) : nat :=
  match t with O => 0 | S t' => next_monitors spec (monitor t') (value t') end.

(** The inputs alone, outputs read as false. *)
Definition input_trace (t : nat) (p : string) : bool := default false (signal_val spec (ι t) 0 !! p).

(** ** Clauses as formulas *)

Definition safety_formula (cl : SafetyClause) : LtlFormula :=
  match cl with
  | SC_Invariant p => LAlways p
  | SC_Transition pre post => LAlways (LImplies pre (LNext post))
  end.
Definition response_formula (r : ResponseClause) : LtlFormula := LResponse (rc_trigger r) (rc_response r).

Definition safety_propositional (cl : SafetyClause) : Prop :=
  match cl with
  | SC_Invariant p => is_propositional p = true
  | SC_Transition pre post => is_propositional pre = true ∧ is_propositional post = true
  end.

Definition never_unsafe : Prop := ∀ t, unsafe_move spec (monitor t) (value t) = false.

Lemma elem_of_inv_clauses p : p ∈ inv_clauses spec ↔ SC_Invariant p ∈ sp_safety spec.
Proof using Type.
  unfold inv_clauses. rewrite list_elem_of_omap. split; [|intros; by exists (SC_Invariant p)].
  by intros ([q|pre post] & Hq & [= ->]).
Qed.

Lemma elem_of_ts_clauses cl : cl ∈ ts_clauses spec ↔ SC_Transition cl.1 cl.2 ∈ sp_safety spec.
Proof using Type.
  unfold ts_clauses. rewrite list_elem_of_omap. destruct cl as [pre post]. split; [|intros; by exists (SC_Transition pre post)].
  by intros ([q|pre' post'] & Hq & [= -> ->]).
Qed.

Lemma unsafe_spec m val : unsafe_move spec m val = false ↔
  (∀ p, SC_Invariant p ∈ sp_safety spec → eval_prop p val = true) ∧
  (∀ i cl, ts_clauses spec !! i = Some cl → Nat.testbit m i = true → eval_prop cl.2 val = true).
Proof using Type.
  unfold unsafe_move. rewrite orb_false_iff. f_equiv.
  - rewrite <-not_true_iff_false, existsb_spec. setoid_rewrite <-elem_of_inv_clauses. split.
    + intros Hno p Hp. destruct (eval_prop p val) eqn:E; [done|]. exfalso. apply Hno. exists p. by rewrite E.
    + intros Hall (p & Hp & Hn). by rewrite (Hall p Hp) in Hn.
  - rewrite <-not_true_iff_false, existsb_spec. split.
    + intros Hno i cl Hi Hb. destruct (eval_prop cl.2 val) eqn:E; [done|]. exfalso. apply Hno. exists (i, cl). cbn.
      rewrite Hb, E. split; [|done]. apply list_elem_of_lookup_2 with i. by rewrite list_lookup_imap, Hi.
    + intros Hall ([i cl] & Hin & [Hb Hn]%andb_true_iff). cbn in *. apply list_elem_of_lookup_1 in Hin as [k Hk].
      rewrite list_lookup_imap_Some in Hk. destruct Hk as (x & Hx & [= <- <-]). by rewrite (Hall i cl Hx Hb) in Hn.
Qed.

(** The monitored moves are safe exactly when the safety clauses hold. *)
Lemma never_unsafe_ltl : (∀ cl, cl ∈ sp_safety spec → safety_propositional cl) →
  never_unsafe ↔ ∀ cl, cl ∈ sp_safety spec → ltl_sat trace (safety_formula cl) 0.
Proof using Type.
  intros Hprop. unfold never_unsafe. setoid_rewrite unsafe_spec. split.
  - intros Hs [p|pre post] Hcl; pose proof (Hprop _ Hcl) as Hp; cbn in *.
    + intros t _. apply (eval_prop_sat value); [done|]. by apply (Hs t).
    + intros t _ Hpre. apply (eval_prop_sat value); [apply Hp|]. apply (eval_prop_sat value) in Hpre; [|apply Hp].
      apply (elem_of_ts_clauses (pre, post)), list_elem_of_lookup_1 in Hcl as [i Hi].
      apply (proj2 (Hs (S t)) i _ Hi). cbn. by rewrite (next_transition_bit _ _ _ _ _ Hi).
  - intros Hs t. split.
    + intros p Hp. apply (eval_prop_sat value); [by apply (Hprop _ Hp)|]. apply (Hs _ Hp). lia.
    + intros i [pre post] Hi Hb. pose proof Hi as Hin. apply list_elem_of_lookup_2, elem_of_ts_clauses in Hin. cbn in *.
      destruct (Hprop _ Hin) as [Hpre Hpost]. destruct t as [|t]; [by rewrite Nat.bits_0 in Hb|]. cbn in Hb.
      rewrite (next_transition_bit _ _ _ _ _ Hi) in Hb. cbn in Hb. apply (eval_prop_sat value); [done|].
      apply (Hs _ Hin t); [lia|]. by apply (eval_prop_sat value).
Qed.

(** A pending bit is clear infinitely often exactly when every trigger is answered. *)
Lemma pending_ltl j r : sp_responses spec !! j = Some r →
  is_propositional (rc_trigger r) = true → is_propositional (rc_response r) = true →
  (∀ t, ∃ t', t ≤ t' ∧ Nat.testbit (monitor t') (length (ts_clauses spec) + j) = false) ↔ ltl_sat trace (response_formula r) 0.
Proof using Type.
  intros Hj Ht Hr. set (pend := λ t, Nat.testbit (monitor t) (length (ts_clauses spec) + j)).
  assert (Hstep : ∀ t, pend (S t) = (pend t || eval_prop (rc_trigger r) (value t)) && negb (eval_prop (rc_response r) (value t))).
  { intros t. unfold pend. cbn. by apply next_response_bit. }
  unfold response_formula. cbn. setoid_rewrite <-(eval_prop_sat value _ _ Ht). setoid_rewrite <-(eval_prop_sat value _ _ Hr). split.
  - intros Hio t _ Htr.
    assert (Hwait : ∀ d s, eval_prop (rc_response r) (value s) = true ∨ (pend (S s) = true → pend (S s + d) = false →
      ∃ k, s ≤ k ∧ eval_prop (rc_response r) (value k) = true)).
    { induction d as [|d IH]; intros s; right; intros Hp Hd; [rewrite Nat.add_0_r in Hd; congruence|].
      destruct (IH (S s)) as [Hk|Hk]; [by exists (S s); split; [lia|]|].
      destruct (pend (S (S s))) eqn:E.
      - destruct (Hk eq_refl) as (k & ? & ?); [by replace (S (S s) + d) with (S s + S d) by lia|]. exists k. split; [lia|done].
      - rewrite Hstep, Hp in E. cbn in E. apply negb_false_iff in E. exists (S s). split; [lia|done]. }
    destruct (eval_prop (rc_response r) (value t)) eqn:E; [by exists t|].
    destruct (Hio (S t)) as (t' & Hle & Hf). destruct (Hwait (t' - S t) t) as [?|Hk]; [congruence|].
    apply Hk; [rewrite Hstep, Htr, E; by destruct (pend t)|]. by replace (S t + (t' - S t)) with t' by lia.
  - intros Hresp t.
    assert (Hinv : ∀ t, pend t = true → ∃ t0, t0 < t ∧ eval_prop (rc_trigger r) (value t0) = true ∧
      ∀ u, t0 ≤ u < t → eval_prop (rc_response r) (value u) = false).
    { induction t0 as [|u IH]; [by unfold pend; rewrite Nat.bits_0|]. rewrite Hstep. intros [Hor Hn%negb_true_iff]%andb_true_iff.
      destruct (pend u) eqn:Eu.
      - destruct (IH eq_refl) as (t0 & ? & ? & Hno). exists t0. split_and!; [lia|done|]. intros v Hv.
        destruct (decide (v = u)) as [->|]; [done|apply Hno; lia].
      - exists u. split_and!; [lia|done|]. intros v Hv. by assert (v = u) as -> by lia. }
    destruct (pend t) eqn:Et; [|by exists t]. destruct (Hinv t Et) as (t0 & Hlt & Htr & Hno).
    destruct (Hresp t0) as (k & Hk & Hrk); [lia|done|]. exists (S k). split.
    + destruct (decide (k < t)); [|lia]. by rewrite Hno in Hrk by lia.
    + change (pend (S k) = false). rewrite Hstep, Hrk. apply andb_false_r.
Qed.
End trace.

(** ** Plays and traces *)

Section plays.
Context (spec : Gr1Spec) (g : Gr1Game).
Notation N := (2 ^ (length (ts_clauses spec) + length (sp_responses spec))).
Notation I := (2 ^ length (sp_inputs spec)).
Notation O := (2 ^ length (sp_outputs spec)).
Context (Hg : built_game spec N I O g).
Notation c := (g_clts g).
Notation C m iv := (ctrl_state N I m iv).

(** The play visits the monitors and, between them, the inputs. *)
Definition encodes (π ι : nat → nat) (o : nat → nat) : Prop :=
  ∀ t, π (2 * t) = monitor spec ι o t ∧ π (S (2 * t)) = C (monitor spec ι o t) (ι t).

Lemma monitor_lt ι o t : monitor spec ι o t < N.
Proof using Type. destruct t; [apply pow2_pos|apply next_monitors_lt]. Qed.

Lemma even_or_odd t : (∃ k, t = 2 * k) ∨ (∃ k, t = S (2 * k)).
Proof using Type. clear. destruct (Nat.Even_or_Odd t) as [[k ->]|[k ->]]; [left|right]; exists k; lia. Qed.

Lemma encoded_sys π ι o j Q : encodes π ι o → (∀ t, ι t < I) → g_sys_fair g !! j = Some Q →
  infinitely_often Q π ↔ ∀ t, ∃ t', t ≤ t' ∧ Nat.testbit (monitor spec ι o t') (length (ts_clauses spec) + j) = false.
Proof using Hg.
  intros He Hι Hj. destruct (Forall2_lookup_r _ _ _ _ _ (bg_sys _ _ _ _ _ Hg) Hj) as (j' & Hj' & _ & HQ).
  apply lookup_seq in Hj' as [-> _]. unfold infinitely_often. setoid_rewrite HQ. split.
  - intros H t. destruct (H (2 * t)) as (t' & Ht & Hlt & Hb). destruct (even_or_odd t') as [[k ->]|[k ->]].
    + destruct (He k) as [E _]. rewrite E in Hb. exists k. split; [lia|done].
    + destruct (He k) as [_ E]. rewrite E in Hlt. pose proof (ctrl_state_range N I _ _ (monitor_lt ι o k) (Hι k)). lia.
  - intros H t. destruct (H t) as (t' & Ht & Hb). exists (2 * t'). destruct (He t') as [E _]. rewrite E.
    split_and!; [lia|apply monitor_lt|done].
Qed.

Lemma encoded_env π ι o prop Q : encodes π ι o → (∀ t, ι t < I) →
  length Q = state_count c → (∀ s, bit Q s = true ↔ ∃ m iv, m < N ∧ iv < I ∧ s = C m iv ∧ eval_prop prop (signal_val spec iv 0) = true) →
  infinitely_often Q π ↔ ∀ t, ∃ t', t ≤ t' ∧ eval_prop prop (signal_val spec (ι t') 0) = true.
Proof using Type.
  intros He Hι _ HQ. unfold infinitely_often. setoid_rewrite HQ. split.
  - intros H t. destruct (H (2 * t)) as (t' & Ht & m & iv & Hm & Hi & Heq & Hp). destruct (even_or_odd t') as [[k ->]|[k ->]].
    + destruct (He k) as [E _]. rewrite E in Heq. pose proof (ctrl_state_range N I _ _ Hm Hi). pose proof (monitor_lt ι o k). lia.
    + destruct (He k) as [_ E]. rewrite E in Heq. apply ctrl_state_inj in Heq as [_ <-]; [|done..]. exists k. split; [lia|done].
  - intros H t. destruct (H t) as (t' & Ht & Hp). exists (S (2 * t')). destruct (He t') as [_ E]. split; [lia|].
    exists (monitor spec ι o t'), (ι t'). split_and!; [apply monitor_lt|done..].
Qed.

(** The objective of the game on an encoded trace. *)
Definition fair_inputs (ι : nat → nat) : Prop :=
  ∀ prop, prop ∈ sp_env_fair spec → ∀ t, ∃ t', t ≤ t' ∧ eval_prop prop (signal_val spec (ι t') 0) = true.
Definition answered (ι o : nat → nat) : Prop :=
  ∀ j, j < length (sp_responses spec) → ∀ t, ∃ t', t ≤ t' ∧ Nat.testbit (monitor spec ι o t') (length (ts_clauses spec) + j) = false.

Lemma encoded_objective π ι o : encodes π ι o → (∀ t, ι t < I) →
  objective (g_sys_fair g) (g_env_fair g) π ↔ (fair_inputs ι → answered ι o).
Proof using Hg.
  intros He Hι. unfold objective.
  assert (Henv : (∀ a, a ∈ g_env_fair g → infinitely_often a π) ↔ fair_inputs ι).
  { split.
    - intros H prop [i Hi]%list_elem_of_lookup_1.
      destruct (Forall2_lookup_l _ _ _ _ _ (bg_assume _ _ _ _ _ Hg) Hi) as (S & HS & Hl & Hb).
      apply (encoded_env π ι o prop S); [done..|]. apply H. by eapply list_elem_of_lookup_2.
    - intros H a [i Hi]%list_elem_of_lookup_1.
      destruct (Forall2_lookup_r _ _ _ _ _ (bg_assume _ _ _ _ _ Hg) Hi) as (prop & Hp & Hl & Hb).
      apply (encoded_env π ι o prop a); [done..|]. apply H. by eapply list_elem_of_lookup_2. }
  assert (Hsys : (∀ S, S ∈ g_sys_fair g → infinitely_often S π) ↔ answered ι o).
  { pose proof (Forall2_length _ _ _ (bg_sys _ _ _ _ _ Hg)) as Hlen. rewrite length_seq in Hlen. split.
    - intros H j Hj. destruct (lookup_lt_is_Some_2 (g_sys_fair g) j) as [S HS]; [lia|].
      apply (encoded_sys π ι o j S); [done..|]. apply H. by eapply list_elem_of_lookup_2.
    - intros H S [j Hj]%list_elem_of_lookup_1. apply (encoded_sys π ι o j S); [done..|].
      apply H. apply lookup_lt_Some in Hj. lia. }
  rewrite Henv, Hsys. done.
Qed.

(** A controller: the output for the inputs before and the present one. *)
Definition outputs (f : list nat → nat → nat) (ι : nat → nat) (t : nat) : nat := f (map ι (seq 0 t)) (ι t).

(** The controller keeps the specification against every input sequence. *)
Definition keeps (f : list nat → nat → nat) : Prop :=
  (∀ h i, f h i < O) ∧
  ∀ ι, (∀ t, ι t < I) → never_unsafe spec ι (outputs f ι) ∧ (fair_inputs ι → answered ι (outputs f ι)).

Lemma map_seq_S {A} (f : nat → A) t : map f (seq 0 (S t)) = map f (seq 0 t) ++ [f t].
Proof using Type. by rewrite seq_S, map_app. Qed.

Lemma history_S π t : history π (S t) = history π t ++ [π (S t)].
Proof using Type. apply map_seq_S. Qed.

(** *** From a strategy to a controller *)

Section controller.
Context (σ : list StateId → StateId).
Context (Hlegal : ∀ x h, partial_play c true σ 0 x h →
  bit (g_safe g) x = true ∧ moves c x ≠ [] ∧ (eve c x = true → σ h ∈ moves c x)).

(** The history and the monitors after some inputs. *)
Definition simulate_step (acc : list StateId * nat) (i : nat) : list StateId * nat :=
  let '(h, m) := acc in let h' := h ++ [C m i] in (h' ++ [σ h'], σ h').
Definition simulate (ins : list nat) : list StateId * nat := foldl simulate_step ([0], 0) ins.

Definition found_output (m i y : nat) : nat :=
  let k := least (λ ov, ctrl_target spec N I m i ov =? y) O in if k <? O then k else 0.
Definition strategy_controller (ins : list nat) (i : nat) : nat :=
  let '(h, m) := simulate ins in found_output m i (σ (h ++ [C m i])).

Lemma found_output_lt m i y : found_output m i y < O.
Proof using Type. unfold found_output. cbv zeta. destruct (Nat.ltb_spec (least (λ ov, ctrl_target spec N I m i ov =? y) O) O); [done|apply pow2_pos]. Qed.

Lemma found_output_target m i y ov : ov < O → y = ctrl_target spec N I m i ov → ctrl_target spec N I m i (found_output m i y) = y.
Proof using Type.
  intros Ho Hy. destruct (least_spec (λ ov, ctrl_target spec N I m i ov =? y) O ov) as [H1 H2]; [lia|by apply Nat.eqb_eq|].
  unfold found_output. cbv zeta. destruct (Nat.ltb_spec (least (λ ov, ctrl_target spec N I m i ov =? y) O) O); [by apply Nat.eqb_eq|lia].
Qed.

Lemma safe_not_bad s : bit (g_safe g) s = true → s < bad_state N I.
Proof using Hg. apply (bg_safe _ _ _ _ _ Hg). Qed.

Context (ι : nat → nat) (Hι : ∀ t, ι t < I).
Notation o := (outputs strategy_controller ι).

Lemma simulate_S t : simulate (map ι (seq 0 (S t))) = simulate_step (simulate (map ι (seq 0 t))) (ι t).
Proof using Type. unfold simulate. by rewrite map_seq_S, foldl_app. Qed.

(** The simulated histories are plays, and the trace is safe. *)
Lemma simulate_spec t : ∃ h, simulate (map ι (seq 0 t)) = (h, monitor spec ι o t) ∧
  partial_play c true σ 0 (monitor spec ι o t) h ∧
  partial_play c true σ 0 (C (monitor spec ι o t) (ι t)) (h ++ [C (monitor spec ι o t) (ι t)]) ∧
  σ (h ++ [C (monitor spec ι o t) (ι t)]) = monitor spec ι o (S t) ∧
  unsafe_move spec (monitor spec ι o t) (value spec ι o t) = false.
Proof using All.
  assert (Hodd : ∀ t h, partial_play c true σ 0 (monitor spec ι o t) h →
    partial_play c true σ 0 (C (monitor spec ι o t) (ι t)) (h ++ [C (monitor spec ι o t) (ι t)])).
  { intros t' h Hh. destruct (bg_env _ _ _ _ _ Hg _ (monitor_lt ι o t')) as [He Hm].
    econstructor; [done|apply Hm; by exists (ι t')|]. rewrite He. done. }
  assert (Hnext : ∀ t h, simulate (map ι (seq 0 t)) = (h, monitor spec ι o t) →
    partial_play c true σ 0 (monitor spec ι o t) h →
    let h' := h ++ [C (monitor spec ι o t) (ι t)] in
    σ h' = monitor spec ι o (S t) ∧ unsafe_move spec (monitor spec ι o t) (value spec ι o t) = false ∧
    partial_play c true σ 0 (σ h') (h' ++ [σ h'])).
  { intros t' h Hsim Hh h'. pose proof (Hodd t' h Hh) as Hh'. destruct (Hlegal _ _ Hh') as (_ & _ & Hmv).
    destruct (bg_ctrl _ _ _ _ _ Hg _ _ (monitor_lt ι o t') (Hι t')) as [He Hm].
    specialize (Hmv He). pose proof Hmv as Hmv'. apply Hm in Hmv' as (ov & Ho & Hov).
    assert (Hpp : partial_play c true σ 0 (σ h') (h' ++ [σ h'])) by (econstructor; [exact Hh'|done|done]).
    destruct (Hlegal _ _ Hpp) as (Hsafe%safe_not_bad & _ & _).
    assert (Ht : ctrl_target spec N I (monitor spec ι o t') (ι t') (o t') = σ h').
    { unfold outputs at 2, strategy_controller. rewrite Hsim. by eapply found_output_target. }
    unfold ctrl_target in Ht. fold (value spec ι o t') in Ht. destruct (unsafe_move _ _ _) eqn:Eu; [lia|]. done. }
  induction t as [|t (h & Hsim & Hpp & _ & Hσ & _)].
  - exists [0]. destruct (Hnext 0 [0] eq_refl (pp_start _ _ _ _)) as (H1 & H2 & _).
    split_and!; [done|constructor|apply (Hodd 0 [0]); constructor|done..].
  - destruct (Hnext t h Hsim Hpp) as (_ & _ & Hpp'). rewrite Hσ in Hpp'.
    set (h' := (h ++ [C (monitor spec ι o t) (ι t)]) ++ [monitor spec ι o (S t)]) in *.
    assert (Hsim' : simulate (map ι (seq 0 (S t))) = (h', monitor spec ι o (S t))).
    { rewrite simulate_S, Hsim. cbn [simulate_step]. by rewrite Hσ. }
    exists h'. destruct (Hnext (S t) h' Hsim' Hpp') as (H1 & H2 & _). split_and!; [done|done|by apply Hodd|done..].
Qed.

(** The play of the trace. *)
Definition trace_play (t : nat) : StateId :=
  if Nat.even t then monitor spec ι o (Nat.div2 t) else C (monitor spec ι o (Nat.div2 t)) (ι (Nat.div2 t)).

Lemma trace_play_encodes : encodes trace_play ι o.
Proof using Type.
  intros t. unfold trace_play. rewrite Nat.even_even, Nat.div2_double, Nat.even_succ, Nat.odd_even, Nat.div2_succ_double. done.
Qed.

Lemma trace_play_history t : ∃ h, simulate (map ι (seq 0 t)) = (h, monitor spec ι o t) ∧ h = history trace_play (2 * t).
Proof using All.
  induction t as [|t (h & Hsim & Hh)]; [by exists [0]|].
  destruct (simulate_spec t) as (h0 & Hsim0 & _ & _ & Hσ & _). assert (h0 = h) as -> by congruence.
  rewrite simulate_S, Hsim. cbn [simulate_step]. rewrite Hσ. eexists. split; [done|].
  replace (2 * S t) with (S (S (2 * t))) by lia. rewrite !history_S, <-Hh.
  destruct (trace_play_encodes t) as [_ ->]. replace (S (S (2 * t))) with (2 * S t) by lia.
  by destruct (trace_play_encodes (S t)) as [-> _].
Qed.

Lemma strategy_controller_lt ins i : strategy_controller ins i < O.
Proof using Type. unfold strategy_controller. destruct (simulate ins). apply found_output_lt. Qed.

Lemma trace_play_spec : play c trace_play 0 ∧ follows c true σ trace_play.
Proof using All.
  split.
  - split; [done|]. intros t. destruct (even_or_odd t) as [[k ->]|[k ->]].
    + destruct (trace_play_encodes k) as [-> ->]. apply (bg_env _ _ _ _ _ Hg _ (monitor_lt ι o k)). by exists (ι k).
    + replace (S (S (2 * k))) with (2 * S k) by lia. destruct (trace_play_encodes k) as [_ ->].
      destruct (trace_play_encodes (S k)) as [-> _]. apply (bg_ctrl _ _ _ _ _ Hg _ _ (monitor_lt ι o k) (Hι k)).
      exists (o k). split; [apply strategy_controller_lt|]. destruct (simulate_spec k) as (_ & _ & _ & _ & _ & Hu).
      unfold ctrl_target. fold (value spec ι o k). by rewrite Hu.
  - intros t Ht. destruct (even_or_odd t) as [[k ->]|[k ->]].
    + destruct (trace_play_encodes k) as [E _]. rewrite E, (proj1 (bg_env _ _ _ _ _ Hg _ (monitor_lt ι o k))) in Ht. done.
    + replace (S (S (2 * k))) with (2 * S k) by lia. destruct (trace_play_encodes (S k)) as [-> _].
      destruct (simulate_spec k) as (h & Hsim & _ & _ & <- & _). destruct (trace_play_history k) as (h' & Hsim' & ->).
      assert (h = history trace_play (2 * k)) as -> by congruence. rewrite history_S.
      by destruct (trace_play_encodes k) as [_ ->].
Qed.
End controller.

Lemma eve_keeps : eve_wins c (g_safe g) (g_sys_fair g) (g_env_fair g) (g_init g) → ∃ f, keeps f.
Proof using Hg.
  rewrite (bg_init _ _ _ _ _ Hg). intros (σ & Hlegal & Hobj). exists (strategy_controller σ).
  split; [intros; apply strategy_controller_lt|]. intros ι Hι. split.
  - intros t. destruct (simulate_spec σ Hlegal ι Hι t) as (_ & _ & _ & _ & _ & Hu). exact Hu.
  - destruct (trace_play_spec σ Hlegal ι Hι) as [Hp Hf].
    apply (encoded_objective (trace_play σ ι) ι _ (trace_play_encodes σ ι) Hι). by apply Hobj.
Qed.

(** *** From a controller to a strategy *)

Section strategy.
Context (f : list nat → nat → nat) (Hf : keeps f).

(** The inputs of a history. *)
Definition inputs_of (h : list StateId) : list nat :=
  omap (λ s, if N <=? s then Some ((s - N) mod I) else None) h.
Definition controller_strategy (h : list StateId) : StateId :=
  match last h with
  | Some x => ctrl_target spec N I ((x - N) / I) ((x - N) mod I) (f (inputs_of (removelast h)) ((x - N) mod I))
  | None => 0
  end.

Lemma decode m iv : iv < I → (C m iv - N) / I = m ∧ (C m iv - N) mod I = iv.
Proof using Type.
  clear. intros Hi. unfold ctrl_state. replace (N + (m * I + iv) - N) with (iv + m * I) by lia.
  rewrite Nat.div_add, Nat.Div0.mod_add by lia. by rewrite Nat.div_small, Nat.mod_small.
Qed.

Lemma inputs_of_app h x : inputs_of (h ++ [x]) = inputs_of h ++ (if N <=? x then [(x - N) mod I] else []).
Proof using Type. unfold inputs_of. rewrite omap_app. cbn. by destruct (N <=? x). Qed.

Lemma inputs_of_ctrl h m iv : m < N → iv < I → inputs_of (h ++ [C m iv]) = inputs_of h ++ [iv].
Proof using Type.
  intros Hm Hi. rewrite inputs_of_app. pose proof (ctrl_state_range N I m iv Hm Hi).
  destruct (Nat.leb_spec N (C m iv)); [|lia]. by rewrite (proj2 (decode m iv Hi)).
Qed.

Lemma inputs_of_env h m : m < N → inputs_of (h ++ [m]) = inputs_of h.
Proof using Type. intros Hm. rewrite inputs_of_app. destruct (Nat.leb_spec N m); [lia|]. apply app_nil_r. Qed.

Lemma controller_strategy_spec h m iv : iv < I →
  controller_strategy (h ++ [C m iv]) = ctrl_target spec N I m iv (f (inputs_of h) iv).
Proof using Type.
  intros Hi. unfold controller_strategy. rewrite last_snoc, removelast_last. by destruct (decode m iv Hi) as [-> ->].
Qed.

(** The trace of some inputs, continued with zeros. *)
Definition padded (ins : list nat) (t : nat) : nat := nth t ins 0.

Lemma padded_lt ins : Forall (λ i, i < I) ins → ∀ t, padded ins t < I.
Proof using Type.
  intros Hall t. unfold padded. destruct (nth_in_or_default t ins 0) as [Hin| ->]; [|apply pow2_pos].
  rewrite Forall_forall in Hall. by apply Hall, list_elem_of_In.
Qed.

(** The trace up to [t] depends on the inputs before [t]. *)
Lemma monitor_ext ι ι' t : (∀ k, k < t → ι k = ι' k) → monitor spec ι (outputs f ι) t = monitor spec ι' (outputs f ι') t.
Proof using Type.
  induction t as [|t IH]; intros H; [done|]. cbn. rewrite IH by auto. f_equal. unfold value, outputs. rewrite H by lia.
  f_equal. f_equal. apply map_ext_in. intros k Hk%in_seq. apply H. lia.
Qed.

Lemma trace_target ι t : (∀ t, ι t < I) →
  ctrl_target spec N I (monitor spec ι (outputs f ι) t) (ι t) (f (map ι (seq 0 t)) (ι t)) = monitor spec ι (outputs f ι) (S t).
Proof using Hf.
  intros Hι. destruct Hf as [_ H]. destruct (H ι Hι) as [Hsafe _]. unfold ctrl_target.
  change (signal_val spec (ι t) (f (map ι (seq 0 t)) (ι t))) with (value spec ι (outputs f ι) t). by rewrite Hsafe.
Qed.

Lemma map_padded ins i : map (padded (ins ++ i)) (seq 0 (length ins)) = ins.
Proof using Type.
  apply list_eq. intros k. change (map ?h ?l) with (h <$> l). rewrite list_lookup_fmap. destruct (decide (k < length ins)) as [Hk|].
  - rewrite lookup_seq_lt by done. cbn. unfold padded. rewrite app_nth1 by done.
    destruct (lookup_lt_is_Some_2 ins k Hk) as [x Hx]. rewrite Hx. f_equal. by apply nth_lookup_Some.
  - rewrite lookup_seq_ge, lookup_ge_None_2 by lia. done.
Qed.

Lemma padded_at ins i : padded (ins ++ [i]) (length ins) = i.
Proof using Type. unfold padded. by rewrite app_nth2, Nat.sub_diag by lia. Qed.

(** Where the histories of the strategy are. *)
Definition tracked (x : StateId) (h : list StateId) : Prop :=
  ∃ ins, Forall (λ i, i < I) ins ∧ let m := monitor spec (padded ins) (outputs f (padded ins)) (length ins) in
    (x = m ∧ inputs_of h = ins) ∨ ∃ i h', i < I ∧ x = C m i ∧ h = h' ++ [x] ∧ inputs_of h' = ins.

Lemma tracked_step x h y : tracked x h → y ∈ moves c x → (eve c x = true → y = controller_strategy h) → tracked y (h ++ [y]).
Proof using Hg Hf.
  intros (ins & Hall & Hor) Hy Hch. cbv zeta in Hor. set (m := monitor spec (padded ins) (outputs f (padded ins)) (length ins)) in *.
  assert (Hm : m < N) by apply monitor_lt. destruct Hor as [[-> Hins]|(i & h' & Hi & -> & -> & Hins)].
  - destruct (bg_env _ _ _ _ _ Hg m Hm) as [_ Hmv]. apply Hmv in Hy as (i & Hi & ->).
    exists ins. split; [done|]. right. by exists i, h.
  - destruct (bg_ctrl _ _ _ _ _ Hg m i Hm Hi) as [He _]. rewrite (Hch He), controller_strategy_spec, Hins by done.
    exists (ins ++ [i]). assert (Hall' : Forall (λ i, i < I) (ins ++ [i])) by (by apply Forall_app; repeat constructor).
    split; [done|]. left. set (ι := padded (ins ++ [i])). rewrite length_app. cbn [length]. rewrite Nat.add_1_r.
    assert (Em : m = monitor spec ι (outputs f ι) (length ins)).
    { apply monitor_ext. intros k Hk. unfold ι, padded. by rewrite app_nth1. }
    pose proof (trace_target ι (length ins) (padded_lt _ Hall')) as Ht.
    assert (E1 : ι (length ins) = i) by apply padded_at. assert (E2 : map ι (seq 0 (length ins)) = ins) by apply map_padded.
    fold ι in Ht. rewrite E1, E2, <-Em in Ht. rewrite Ht. split; [done|].
    rewrite inputs_of_env by apply monitor_lt. by rewrite inputs_of_ctrl, Hins.
Qed.

Lemma tracked_history x h : partial_play c true controller_strategy 0 x h → tracked x h.
Proof using Hg Hf.
  induction 1 as [|x h y _ IH Hy Hch]; [|by eapply tracked_step].
  exists []. split; [constructor|]. left. split; [done|]. unfold inputs_of. cbn.
  destruct (Nat.leb_spec N 0); [|done]. pose proof (pow2_pos (length (ts_clauses spec) + length (sp_responses spec))). lia.
Qed.

Lemma keeps_legal x h : partial_play c true controller_strategy 0 x h →
  bit (g_safe g) x = true ∧ moves c x ≠ [] ∧ (eve c x = true → controller_strategy h ∈ moves c x).
Proof using Hg Hf.
  intros (ins & Hall & Hor)%tracked_history. cbv zeta in Hor.
  set (m := monitor spec (padded ins) (outputs f (padded ins)) (length ins)) in *.
  assert (Hm : m < N) by apply monitor_lt. destruct Hor as [[-> Hins]|(i & h' & Hi & -> & -> & Hins)].
  - destruct (bg_env _ _ _ _ _ Hg m Hm) as [He Hmv]. split_and!.
    + apply (bg_safe _ _ _ _ _ Hg). unfold bad_state. assert (0 < N * I) by (apply Nat.mul_pos_pos; apply pow2_pos). lia.
    + intros E. assert (Hin : C m 0 ∈ moves c m) by (apply Hmv; exists 0; split; [apply pow2_pos|done]).
      rewrite E in Hin. by apply not_elem_of_nil in Hin.
    + by rewrite He.
  - destruct (bg_ctrl _ _ _ _ _ Hg m i Hm Hi) as [He Hmv]. pose proof (ctrl_state_range N I m i Hm Hi).
    assert (Hin : controller_strategy (h' ++ [C m i]) ∈ moves c (C m i)).
    { rewrite controller_strategy_spec by done. apply Hmv. eexists. split; [apply Hf|done]. }
    split_and!; [apply (bg_safe _ _ _ _ _ Hg); lia| |done]. intros E. rewrite E in Hin. by apply not_elem_of_nil in Hin.
Qed.

(** A play of the strategy is the trace of its inputs. *)
Lemma keeps_encodes π : play c π 0 → follows c true controller_strategy π →
  ∃ ι, (∀ t, ι t < I) ∧ encodes π ι (outputs f ι).
Proof using Hg Hf.
  intros [H0 Hmv] Hfol. set (ι := λ t, (π (S (2 * t)) - N) mod I). exists ι.
  assert (Hι : ∀ t, ι t < I) by (intros t; apply Nat.mod_upper_bound; pose proof (pow2_pos (length (sp_inputs spec))); lia).
  split; [done|].
  assert (Hodd : ∀ t, π (2 * t) = monitor spec ι (outputs f ι) t → π (S (2 * t)) = C (monitor spec ι (outputs f ι) t) (ι t)).
  { intros t Ht. pose proof (Hmv (2 * t)) as Hm. rewrite Ht in Hm.
    apply (bg_env _ _ _ _ _ Hg _ (monitor_lt ι _ t)) in Hm as (i & Hi & E). unfold ι at 3. rewrite E.
    by rewrite (proj2 (decode _ i Hi)). }
  assert (Hall : ∀ t, π (2 * t) = monitor spec ι (outputs f ι) t ∧ inputs_of (history π (2 * t)) = map ι (seq 0 t)).
  { induction t as [|t [IH Hin]].
    - split; [done|]. unfold history, inputs_of. cbn. rewrite H0.
      destruct (Nat.leb_spec N 0); [|done]. pose proof (pow2_pos (length (ts_clauses spec) + length (sp_responses spec))). lia.
    - pose proof (Hodd t IH) as Ho. replace (2 * S t) with (S (S (2 * t))) by lia.
      assert (Hnext : π (S (S (2 * t))) = monitor spec ι (outputs f ι) (S t)).
      { rewrite (Hfol (S (2 * t))).
        - rewrite history_S, Ho, controller_strategy_spec, Hin by done. by apply trace_target.
        - rewrite Ho. apply (bg_ctrl _ _ _ _ _ Hg _ _ (monitor_lt ι _ t) (Hι t)). }
      split; [done|]. rewrite !history_S, Hnext, Ho, inputs_of_env by apply monitor_lt.
      rewrite inputs_of_ctrl, Hin by (done || apply monitor_lt). by rewrite map_seq_S. }
  intros t. split; [apply Hall|apply Hodd, Hall].
Qed.

Lemma keeps_eve : eve_wins c (g_safe g) (g_sys_fair g) (g_env_fair g) (g_init g).
Proof using Hg Hf.
  rewrite (bg_init _ _ _ _ _ Hg). exists controller_strategy. split; [apply keeps_legal|].
  intros π Hp Hfol. destruct (keeps_encodes π Hp Hfol) as (ι & Hι & He).
  apply (encoded_objective π ι _ He Hι). by apply Hf.
Qed.
End strategy.
End plays.

(** ** Classification *)

(** The accepted formulas that become safety clauses. *)
Definition is_safety (f : LtlFormula) : bool :=
  match f with
  | LAlways (LEventually _) | LAlways (LRecurrence _) | LAlways (LImplies _ (LEventually _)) => false
  | LAlways _ => true
  | _ => false
  end.

Definition response_propositional (r : ResponseClause) : Prop :=
  is_propositional (rc_trigger r) = true ∧ is_propositional (rc_response r) = true.

(** One formula becomes one clause with the same meaning. *)
Inductive classified (f : LtlFormula) (is_guarantee : bool) (spec spec' : Gr1Spec) : Prop :=
  | cl_safety cl : is_safety f = true → safety_propositional cl → (∀ tr, ltl_sat tr (safety_formula cl) 0 ↔ ltl_sat tr f 0) →
      spec' = push_safety cl spec → classified f is_guarantee spec spec'
  | cl_fair p : is_safety f = false → is_guarantee = false → is_propositional p = true →
      (∀ tr, ltl_sat tr (LRecurrence p) 0 ↔ ltl_sat tr f 0) →
      spec' = {| sp_inputs := sp_inputs spec; sp_outputs := sp_outputs spec; sp_safety := sp_safety spec;
                 sp_responses := sp_responses spec; sp_env_fair := sp_env_fair spec ++ [p] |} → classified f is_guarantee spec spec'
  | cl_response r : is_safety f = false → is_guarantee = true → response_propositional r →
      (∀ tr, ltl_sat tr (response_formula r) 0 ↔ ltl_sat tr f 0) →
      spec' = {| sp_inputs := sp_inputs spec; sp_outputs := sp_outputs spec; sp_safety := sp_safety spec;
                 sp_responses := sp_responses spec ++ [r]; sp_env_fair := sp_env_fair spec |} → classified f is_guarantee spec spec'.

Lemma push_fair_classified f p is_guarantee spec spec' : is_safety f = false → is_propositional p = true →
  (∀ tr, ltl_sat tr (LRecurrence p) 0 ↔ ltl_sat tr f 0) →
  push_fair p is_guarantee spec = Ok spec' → classified f is_guarantee spec spec'.
Proof.
  intros Hs Hp He. unfold push_fair. destruct is_guarantee; [by destruct (existsb _ _)|]. intros [= <-]. by eapply cl_fair.
Qed.

Lemma push_response_classified f t r is_guarantee spec spec' : is_safety f = false →
  (∀ tr, ltl_sat tr (LResponse t r) 0 ↔ ltl_sat tr f 0) →
  push_response t r is_guarantee spec = Ok spec' → classified f is_guarantee spec spec'.
Proof.
  intros Hs He. unfold push_response. destruct is_guarantee; [|done]. cbn [negb].
  destruct (is_propositional t) eqn:Et, (is_propositional r) eqn:Er; try done. cbn. intros [= <-].
  by eapply (cl_response _ _ _ _ {| rc_trigger := t; rc_response := r |}).
Qed.

Lemma invariant_classified body is_guarantee spec spec' :
  classify_invariant body spec = Ok spec' → is_safety (LAlways body) = true → classified (LAlways body) is_guarantee spec spec'.
Proof.
  unfold classify_invariant. destruct (is_propositional body) eqn:E; [|done]. intros [= <-] Hs.
  by apply (cl_safety _ _ _ _ (SC_Invariant body)).
Qed.

Lemma classify_one_spec f is_guarantee spec spec' :
  classify_one f is_guarantee spec = Ok spec' → classified f is_guarantee spec spec'.
Proof.
  destruct f as [| | | | | | | |body| | | | |p| |t r]; cbn [classify_one]; try done.
  - destruct body as [| | | | | |pre rhs| | |p| | | |p| |]; cbn [classify_always];
      try (intros Hc; by apply invariant_classified).
    + destruct (is_propositional pre) eqn:Ep; [|unfold classify_invariant; cbn; by rewrite Ep].
      destruct rhs as [| | | | | | |post| |resp| | | | | |]; cbn [classify_implies]; try done.
      * destruct (is_propositional post) eqn:Eq; [|done]. intros [= <-].
        by apply (cl_safety _ _ _ _ (SC_Transition pre post)).
      * destruct (is_propositional resp) eqn:Er; [|done]. by apply push_response_classified.
    + destruct (is_propositional p) eqn:Ep; [|unfold classify_invariant; cbn; done]. by apply push_fair_classified.
    + destruct (is_propositional p) eqn:Ep; [|unfold classify_invariant; cbn; done]. apply push_fair_classified; [done..|].
      intros tr. cbn. split; [intros H j _ j' _; apply H; lia|intros H j _; apply (H j); lia].
  - destruct (is_propositional p) eqn:Ep; [|done]. by apply push_fair_classified.
  - destruct (is_propositional t && is_propositional r) eqn:Ep; [|done]. by apply push_response_classified.
Qed.

(** The clauses of a specification mean its formulas. *)
Record means (inputs outs : list string) (assumptions guarantees : list LtlFormula) (spec : Gr1Spec) : Prop := {
  me_inputs : sp_inputs spec = inputs;
  me_outputs : sp_outputs spec = outs;
  me_safety_prop : ∀ cl, cl ∈ sp_safety spec → safety_propositional cl;
  me_response_prop : ∀ r, r ∈ sp_responses spec → response_propositional r;
  me_fair_prop : ∀ p, p ∈ sp_env_fair spec → is_propositional p = true;
  me_safety : ∀ tr, (∀ cl, cl ∈ sp_safety spec → ltl_sat tr (safety_formula cl) 0) ↔
    ∀ f, f ∈ assumptions ++ guarantees → is_safety f = true → ltl_sat tr f 0;
  me_fair : ∀ tr, (∀ p, p ∈ sp_env_fair spec → ltl_sat tr (LRecurrence p) 0) ↔
    ∀ f, f ∈ assumptions → is_safety f = false → ltl_sat tr f 0;
  me_response : ∀ tr, (∀ r, r ∈ sp_responses spec → ltl_sat tr (response_formula r) 0) ↔
    ∀ f, f ∈ guarantees → is_safety f = false → ltl_sat tr f 0
}.

Lemma forall_snoc {A} (P : A → Prop) l x : (∀ y, y ∈ l ++ [x] → P y) ↔ (∀ y, y ∈ l → P y) ∧ P x.
Proof.
  setoid_rewrite elem_of_app. setoid_rewrite list_elem_of_singleton. naive_solver.
Qed.

Lemma means_step inputs outs As Gs spec f is_guarantee spec' :
  means inputs outs As Gs spec → classified f is_guarantee spec spec' → (is_guarantee = false → Gs = []) →
  means inputs outs (if is_guarantee then As else As ++ [f]) (if is_guarantee then Gs ++ [f] else Gs) spec'.
Proof.
  intros [] Hc Hgs.
  assert (Hall : ∀ P : LtlFormula → Prop, (∀ g, g ∈ (if is_guarantee then As else As ++ [f]) ++ (if is_guarantee then Gs ++ [f] else Gs) → P g)
    ↔ (∀ g, g ∈ As ++ Gs → P g) ∧ P f).
  { intros P. rewrite <-forall_snoc. destruct is_guarantee; [by rewrite app_assoc|]. rewrite Hgs, !app_nil_r by done. done. }
  assert (HA : ∀ P : LtlFormula → Prop, (∀ g, g ∈ (if is_guarantee then As else As ++ [f]) → P g)
    ↔ (∀ g, g ∈ As → P g) ∧ (is_guarantee = false → P f)).
  { intros P. destruct is_guarantee; [naive_solver|]. rewrite forall_snoc. naive_solver. }
  assert (HG : ∀ P : LtlFormula → Prop, (∀ g, g ∈ (if is_guarantee then Gs ++ [f] else Gs) → P g)
    ↔ (∀ g, g ∈ Gs → P g) ∧ (is_guarantee = true → P f)).
  { intros P. destruct is_guarantee; [rewrite forall_snoc; naive_solver|naive_solver]. }
  destruct Hc as [cl Hs Hp He ->|p Hs -> Hp He ->|r Hs -> Hp He ->]; constructor; cbn [push_safety sp_inputs sp_outputs sp_safety sp_responses sp_env_fair];
    try done; try (by apply forall_snoc); intros tr; rewrite ?forall_snoc, ?Hall, ?HA, ?HG, <-?me_safety0, <-?me_fair0, <-?me_response0, ?Hs, ?He;
    naive_solver.
Qed.

Lemma classify_all_means inputs outs is_guarantee fs : ∀ As Gs spec spec',
  means inputs outs As Gs spec → (is_guarantee = false → Gs = []) → classify_all fs is_guarantee spec = Ok spec' →
  means inputs outs (if is_guarantee then As else As ++ fs) (if is_guarantee then Gs ++ fs else Gs) spec'.
Proof.
  induction fs as [|f fs IH]; intros As Gs spec spec' Hm Hgs; cbn [classify_all].
  { intros [= <-]. rewrite !app_nil_r. by destruct is_guarantee. }
  destruct (classify_one f is_guarantee spec) as [spec1|e] eqn:E; [|done]. intros Hc.
  apply classify_one_spec in E. pose proof (means_step _ _ _ _ _ _ _ _ Hm E Hgs) as Hm1.
  apply (IH _ _ _ _ Hm1) in Hc; [|by destruct is_guarantee]. destruct is_guarantee; by rewrite <-app_assoc in Hc.
Qed.

Lemma classify_means assumptions guarantees inputs outs spec :
  spec_classify assumptions guarantees inputs outs = Ok spec → means inputs outs assumptions guarantees spec.
Proof.
  unfold spec_classify. destruct (classify_all assumptions false _) as [spec1|e] eqn:E; [|done]. intros E2.
  apply (classify_all_means inputs outs false assumptions [] []) in E; [|by constructor; cbn; (done || set_solver)|done].
  by apply (classify_all_means inputs outs true guarantees assumptions []) in E2.
Qed.

(** ** Realizability *)

Lemma fair_inputs_ltl spec ι : (∀ p, p ∈ sp_env_fair spec → is_propositional p = true) →
  fair_inputs spec ι ↔ ∀ p, p ∈ sp_env_fair spec → ltl_sat (input_trace spec ι) (LRecurrence p) 0.
Proof.
  intros Hp. unfold fair_inputs, input_trace. cbn. split.
  - intros H p Hin t _. destruct (H p Hin t) as (k & Hk & Hb). exists k. split; [done|].
    by apply (eval_prop_sat (λ t, signal_val spec (ι t) 0)); [apply Hp|].
  - intros H p Hin t. destruct (H p Hin t) as (k & Hk & Hb); [lia|]. exists k. split; [done|].
    by apply (eval_prop_sat (λ t, signal_val spec (ι t) 0)) in Hb; [|apply Hp].
Qed.

Lemma answered_ltl spec ι o : (∀ r, r ∈ sp_responses spec → response_propositional r) →
  answered spec ι o ↔ ∀ r, r ∈ sp_responses spec → ltl_sat (trace spec ι o) (response_formula r) 0.
Proof.
  intros Hp. unfold answered. split.
  - intros H r Hr. pose proof (Hp r Hr) as [H1 H2]. apply list_elem_of_lookup_1 in Hr as [j Hj].
    apply (pending_ltl spec ι o j r Hj H1 H2), H. by eapply lookup_lt_Some.
  - intros H j Hj. destruct (lookup_lt_is_Some_2 _ _ Hj) as [r Hr]. pose proof (list_elem_of_lookup_2 _ _ _ Hr) as Hin.
    destruct (Hp r Hin) as [H1 H2]. by apply (pending_ltl spec ι o j r Hr H1 H2), H.
Qed.

(** The controller [f] keeps the formulas: the safety formulas on every input
    sequence, the others when the input assumptions hold. *)
Definition keeps_formulas (spec : Gr1Spec) (assumptions guarantees : list LtlFormula) (f : list nat → nat → nat) : Prop :=
  (∀ h i, f h i < 2 ^ length (sp_outputs spec)) ∧
  ∀ ι, (∀ t, ι t < 2 ^ length (sp_inputs spec)) →
    let tr := trace spec ι (outputs f ι) in
    (∀ φ, φ ∈ assumptions ++ guarantees → is_safety φ = true → ltl_sat tr φ 0) ∧
    ((∀ φ, φ ∈ assumptions → is_safety φ = false → ltl_sat (input_trace spec ι) φ 0) →
     ∀ φ, φ ∈ guarantees → is_safety φ = false → ltl_sat tr φ 0).

Lemma keeps_ltl inputs outs As Gs spec f : means inputs outs As Gs spec → keeps spec f ↔ keeps_formulas spec As Gs f.
Proof.
  intros [_ _ Hsp Hrp Hfp Hs Hf Hr]. unfold keeps, keeps_formulas. f_equiv.
  split; intros H ι Hι; specialize (H ι Hι); cbv zeta in *.
  - by rewrite (never_unsafe_ltl _ _ _ Hsp), Hs, (fair_inputs_ltl _ _ Hfp), Hf, (answered_ltl _ _ _ Hrp), Hr in H.
  - by rewrite (never_unsafe_ltl _ _ _ Hsp), Hs, (fair_inputs_ltl _ _ Hfp), Hf, (answered_ltl _ _ _ Hrp), Hr.
Qed.

Lemma built_lengths spec N I O g : built_game spec N I O g →
  length (g_safe g) = state_count (g_clts g) ∧
  Forall (λ s, length s = state_count (g_clts g)) (g_sys_fair g) ∧ Forall (λ s, length s = state_count (g_clts g)) (g_env_fair g).
Proof.
  intros Hg. split_and!; [rewrite (bg_count _ _ _ _ _ Hg); apply (bg_safe _ _ _ _ _ Hg)|..];
    apply Forall_forall; intros x [i Hi]%list_elem_of_lookup_1.
  - by destruct (Forall2_lookup_r _ _ _ _ _ (bg_sys _ _ _ _ _ Hg) Hi) as (? & _ & ? & _).
  - by destruct (Forall2_lookup_r _ _ _ _ _ (bg_assume _ _ _ _ _ Hg) Hi) as (? & _ & ? & _).
Qed.

(** C12: synthesis decides realizability. For a specification that is classified and whose game fits the identifier types, [synthesise_gr1] with more rounds than game states returns a verdict, with a controller exactly when it is "realizable"; and the verdict is "realizable" if and only if some controller, a function from the inputs so far to the outputs, keeps the temporal formulas on every input sequence: the safety formulas always, and the response guarantees whenever the recurrence assumptions hold of the inputs *)
Theorem synthesise_gr1_correct `{IdStorage} rounds assumptions guarantees inputs outs spec :
  spec_classify assumptions guarantees inputs outs = Ok spec → game_fits spec →
  S (bad_state (2 ^ (length (ts_clauses spec) + length (sp_responses spec))) (2 ^ length inputs)) < rounds →
  ∃ r, synthesise_gr1 rounds assumptions guarantees inputs outs = Some (Ok r) ∧
    (realizable r = true ↔ ∃ f, keeps_formulas spec assumptions guarantees f) ∧
    (realizable r = true ↔ is_Some (controller r)).
Proof.
  intros Hc Hfit Hr. pose proof (classify_means _ _ _ _ _ Hc) as Hm. unfold synthesise_gr1. rewrite Hc.
  destruct (build_game_spec spec Hfit) as (g & -> & Hg). rewrite (me_inputs _ _ _ _ _ Hm) in Hg.
  destruct (built_lengths _ _ _ _ _ Hg) as (Hsafe & Hsys & Henv). rewrite <-(bg_count _ _ _ _ _ Hg) in Hr.
  destruct (gr1_win_correct rounds (g_clts g) (g_safe g) (g_sys_fair g) (g_env_fair g)) as (z & -> & Hz & Hwin);
    [apply Hg|done..|].
  assert (H0 : g_init g < state_count (g_clts g)) by (rewrite (bg_init _ _ _ _ _ Hg), (bg_count _ _ _ _ _ Hg); lia).
  assert (Hreal : bit z (g_init g) = true ↔ ∃ f, keeps_formulas spec assumptions guarantees f).
  { rewrite <-(me_inputs _ _ _ _ _ Hm) in Hg. destruct (Hwin _ H0) as [Hyes Hno]. split.
    - intros Hb. destruct (eve_keeps spec g Hg) as (f & Hf); [by apply Hyes|]. exists f. by apply (keeps_ltl _ _ _ _ _ f Hm).
    - intros (f & Hf%(keeps_ltl _ _ _ _ _ f Hm)). destruct (bit z (g_init g)) eqn:E; [done|]. exfalso. destruct (Hno eq_refl) as [_ Hn].
      by apply Hn, (keeps_eve spec g Hg f). }
  rewrite lookup_bit by (by rewrite Hz). destruct (bit z (g_init g)); cbn [negb].
  2:{ eexists. split; [done|]. cbn. split; [exact Hreal|]. split; [done|]. by intros [? ?]. }
  destruct (g_sys_fair g) as [|s [|s' l]] eqn:Es.
  - destruct (gr1_strategy_single_total rounds (g_clts g) z z Hz Hr) as [strat ->]. eexists. split; [done|]. cbn. split; [exact Hreal|]. by split.
  - apply Forall_cons in Hsys as [Hs _]. destruct (gr1_strategy_single_total rounds (g_clts g) z s Hs Hr) as [strat ->].
    eexists. split; [done|]. cbn. split; [exact Hreal|]. by split.
  - destruct (gr1_strategy_multi_total (g_clts g) (g_safe g) z (s :: s' :: l) (g_env_fair g) Hsafe Hsys Henv rounds) as [strat ->]; [done..|].
    eexists. split; [done|]. cbn. split; [exact Hreal|]. by split.
Qed.

(** ** Witness *)

#[local] Existing Instance u16_storage.

(** Every request is answered, and no grant follows another. *)
Definition request_grant_assumptions : list LtlFormula := [LRecurrence (LPredicate "req")].
Definition request_grant_guarantees : list LtlFormula :=
  [LResponse (LPredicate "req") (LPredicate "grant");
   LAlways (LImplies (LPredicate "grant") (LNext (LNot (LPredicate "grant"))))].

Definition request_grant_spec : Gr1Spec :=
  {| sp_inputs := ["req"]; sp_outputs := ["grant"];
     sp_safety := [SC_Transition (LPredicate "grant") (LNot (LPredicate "grant"))];
     sp_responses := [{| rc_trigger := LPredicate "req"; rc_response := LPredicate "grant" |}];
     sp_env_fair := [LPredicate "req"] |}.

Definition verdict_of (r : option (Result Gr1Synthesis ClassifyError)) : option bool :=
  match r with Some (Ok r) => Some (realizable r) | _ => None end.
Definition positional_of (r : option (Result Gr1Synthesis ClassifyError)) : gmap StateId StateId :=
  match r with
  | Some (Ok r) => match controller r with Some (Positional strat) => strat | _ => ∅ end
  | _ => ∅
  end.

Lemma synthesise_gr1_correct_witness :
  verdict_of (synthesise_gr1 14 request_grant_assumptions request_grant_guarantees ["req"] ["grant"]) = Some true ∧
  ∃ r, synthesise_gr1 14 request_grant_assumptions request_grant_guarantees ["req"] ["grant"] = Some (Ok r) ∧
    (realizable r = true ↔ ∃ f, keeps_formulas request_grant_spec request_grant_assumptions request_grant_guarantees f) ∧
    (realizable r = true ↔ is_Some (controller r)).
Proof.
  split; [vm_compute; reflexivity|].
  apply (synthesise_gr1_correct 14 request_grant_assumptions request_grant_guarantees ["req"] ["grant"] request_grant_spec);
    [reflexivity| |vm_compute; lia].
  unfold game_fits. cbn. split_and!; try lia; vm_compute; discriminate.
Defined.

(** ** Where the controllers depart from the documentation *)

(** The output [o] needs the input [i] and, one step before, the output [w];
    it is due for ever, and [i] comes infinitely often. *)
Definition prepare_assumptions : list LtlFormula := [LRecurrence (LPredicate "i")].
Definition prepare_guarantees : list LtlFormula :=
  [LAlways (LOr (LNot (LPredicate "o")) (LPredicate "i"));
   LAlways (LImplies (LNot (LPredicate "w")) (LNext (LNot (LPredicate "o"))));
   LResponse LTrue (LPredicate "o")].
Definition prepare_spec : Gr1Spec :=
  {| sp_inputs := ["i"]; sp_outputs := ["o"; "w"];
     sp_safety := [SC_Invariant (LOr (LNot (LPredicate "o")) (LPredicate "i"));
                   SC_Transition (LNot (LPredicate "w")) (LNot (LPredicate "o"))];
     sp_responses := [{| rc_trigger := LTrue; rc_response := LPredicate "o" |}];
     sp_env_fair := [LPredicate "i"] |}.

Lemma prepare_fits : game_fits prepare_spec.
Proof. unfold game_fits. cbn. split_and!; try lia; vm_compute; discriminate. Qed.

(** A play that ends in a cycle. *)
Definition lasso {A} (d : A) (prefix cycle : list A) (t : nat) : A :=
  if t <? length prefix then nth t prefix d else nth ((t - length prefix) mod length cycle) cycle d.

Section lasso.
Context {A : Type} (d : A) (prefix cycle : list A) (Hcycle : 0 < length cycle).
Notation at_ := (lasso d prefix cycle).

Lemma lasso_periodic t : length prefix ≤ t → at_ (t + length cycle) = at_ t.
Proof using Hcycle.
  intros Ht. unfold lasso. destruct (Nat.ltb_spec t (length prefix)), (Nat.ltb_spec (t + length cycle) (length prefix)); try lia.
  replace (t + length cycle - length prefix) with ((t - length prefix) + 1 * length cycle) by lia. by rewrite Nat.Div0.mod_add.
Qed.

(** What holds of the steps of the prefix and of one round holds always. *)
Lemma lasso_always (P : A → A → Prop) :
  (∀ t, t < length prefix + length cycle → P (at_ t) (at_ (S t))) → ∀ t, P (at_ t) (at_ (S t)).
Proof using Hcycle.
  intros H t. induction t as [t IH] using lt_wf_ind. destruct (decide (t < length prefix + length cycle)); [auto|].
  specialize (IH (t - length cycle)). rewrite <-(lasso_periodic (t - length cycle)) in IH by lia.
  rewrite <-(lasso_periodic (S (t - length cycle))) in IH by lia.
  replace (t - length cycle + length cycle) with t in IH by lia. replace (S (t - length cycle) + length cycle) with (S t) in IH by lia.
  apply IH. lia.
Qed.

Lemma lasso_recurs i : i < length cycle → ∀ t, ∃ t', t ≤ t' ∧ at_ t' = nth i cycle d.
Proof using Hcycle.
  intros Hi t. exists (length prefix + (i + t * length cycle)). split; [nia|].
  unfold lasso. destruct (Nat.ltb_spec (length prefix + (i + t * length cycle)) (length prefix)); [lia|].
  replace (length prefix + (i + t * length cycle) - length prefix) with (i + t * length cycle) by lia.
  by rewrite Nat.Div0.mod_add, Nat.mod_small.
Qed.

Lemma lasso_tail t : length prefix ≤ t → at_ t ∈ cycle.
Proof using Hcycle.
  intros Ht. unfold lasso. destruct (Nat.ltb_spec t (length prefix)); [lia|].
  apply list_elem_of_In, nth_In, Nat.mod_upper_bound. lia.
Qed.
End lasso.

(** The edges of a built game, decided. *)
Definition game_edge (spec : Gr1Spec) (N I O : nat) (x y : StateId) : bool :=
  if x <? N then existsb (λ iv, y =? ctrl_state N I x iv) (seq 0 I)
  else (x <? bad_state N I) && existsb (λ ov, y =? ctrl_target spec N I ((x - N) / I) ((x - N) mod I) ov) (seq 0 O).

Lemma game_edge_spec spec N I O g x y : built_game spec N I O g → game_edge spec N I O x y = true →
  y ∈ moves (g_clts g) x ∧ eve (g_clts g) x = (N <=? x).
Proof.
  intros Hg. unfold game_edge. destruct (Nat.ltb_spec x N) as [Hx|Hx].
  - intros (iv & Hiv%elem_of_seq & ->%Nat.eqb_eq)%existsb_spec. destruct (bg_env _ _ _ _ _ Hg x Hx) as [He Hm].
    split; [apply Hm; exists iv; split; [lia|done]|]. rewrite He. symmetry. by apply Nat.leb_gt.
  - intros [Hb%Nat.ltb_lt (ov & Ho%elem_of_seq & ->%Nat.eqb_eq)%existsb_spec]%andb_true_iff.
    assert (HI : I ≠ 0) by (intros ->; unfold bad_state in Hb; lia).
    assert (Hm : (x - N) / I < N) by (apply Nat.Div0.div_lt_upper_bound; unfold bad_state in Hb; lia).
    assert (Hi : (x - N) mod I < I) by (by apply Nat.mod_upper_bound).
    assert (Ex : x = ctrl_state N I ((x - N) / I) ((x - N) mod I)).
    { unfold ctrl_state. pose proof (Nat.div_mod (x - N) I HI). lia. }
    destruct (bg_ctrl _ _ _ _ _ Hg _ _ Hm Hi) as [He Hmv]. rewrite <-Ex in He, Hmv.
    split; [apply Hmv; exists ov; split; [lia|done]|]. rewrite He. symmetry. by apply Nat.leb_le.
Qed.

(** Following an emitted strategy from its first mode. *)
Definition follows_controller (c : Clts) (ctl : option Controller) (π : nat → StateId) : Prop :=
  match ctl with
  | Some (Positional strat) => ∀ t, eve c (π t) = true → strat !! π t = Some (π (S t))
  | Some (RoundRobin strat) => ∃ μ : nat → nat, μ 0 = 0 ∧
      ∀ t, if eve c (π t) then gs_moves strat !! (π t, μ t) = Some (π (S t), μ (S t)) else μ (S t) = μ t
  | None => False
  end.

(** The specification is realizable, but its controller has a play on which the
    assumptions hold infinitely often and a guarantee, after some time, never. *)
Definition controller_loses (assumptions guarantees : list LtlFormula) (inputs outs : list string) (spec : Gr1Spec) : Prop :=
  spec_classify assumptions guarantees inputs outs = Ok spec ∧
  ∃ r, synthesise_gr1 100 assumptions guarantees inputs outs = Some (Ok r) ∧ realizable r = true ∧
  ∃ g, build_game spec = Some g ∧
  ∃ π, play (g_clts g) π (g_init g) ∧ follows_controller (g_clts g) (controller r) π ∧
    (∀ a, a ∈ g_env_fair g → infinitely_often a π) ∧
    ∃ s, s ∈ g_sys_fair g ∧ ∃ t0, ∀ t, t0 ≤ t → bit s (π t) = false.

(** The check of such a play, given by a prefix and a cycle of states and modes. *)
Definition controller_step (N : nat) (ctl : option Controller) (x y : StateId * nat) : bool :=
  match ctl with
  | Some (Positional strat) => negb (N <=? x.1) || bool_decide (strat !! x.1 = Some y.1)
  | Some (RoundRobin strat) => if N <=? x.1 then bool_decide (gs_moves strat !! x = Some y) else x.2 =? y.2
  | None => false
  end.

Definition loses_check (assumptions guarantees : list LtlFormula) (inputs outs : list string) (spec : Gr1Spec)
    (prefix cycle : list (StateId * nat)) (j : nat) : bool :=
  let n_ts := length (ts_clauses spec) in
  let N := 2 ^ (n_ts + length (sp_responses spec)) in let I := 2 ^ length (sp_inputs spec) in
  let at_ := lasso (0, 0) prefix cycle in
  match synthesise_gr1 100 assumptions guarantees inputs outs with
  | Some (Ok r) =>
    realizable r && bool_decide (at_ 0 = (0, 0)) && (0 <? length cycle) && (j <? length (sp_responses spec)) &&
    forallb (λ t, game_edge spec N I (2 ^ length (sp_outputs spec)) (at_ t).1 (at_ (S t)).1 &&
                  controller_step N (controller r) (at_ t) (at_ (S t))) (seq 0 (length prefix + length cycle)) &&
    forallb (λ prop, existsb (λ x, (N <=? x.1) && (x.1 <? bad_state N I) && eval_prop prop (signal_val spec ((x.1 - N) mod I) 0)) cycle)
      (sp_env_fair spec) &&
    forallb (λ x, (N <=? x.1) || Nat.testbit x.1 (n_ts + j)) cycle
  | _ => false
  end.

Lemma loses_check_sound assumptions guarantees inputs outs spec prefix cycle j :
  spec_classify assumptions guarantees inputs outs = Ok spec → game_fits spec →
  loses_check assumptions guarantees inputs outs spec prefix cycle j = true →
  controller_loses assumptions guarantees inputs outs spec.
Proof.
  intros Hc Hfit Hchk. split; [done|]. unfold loses_check in Hchk. cbv zeta in Hchk.
  destruct (synthesise_gr1 100 assumptions guarantees inputs outs) as [[r|e]|]; try done. exists r. split; [done|].
  rewrite !andb_true_iff in Hchk. destruct Hchk as ((((((Hreal & H0%bool_decide_eq_true) & Hcyc%Nat.ltb_lt) & Hj%Nat.ltb_lt) & Hsteps) & Hass) & Hgua).
  rewrite forallb_spec in Hsteps. rewrite forallb_spec in Hass. rewrite forallb_spec in Hgua. split; [done|].
  destruct (build_game_spec spec Hfit) as (g & Hb & Hg). exists g. split; [done|].
  set (N := 2 ^ (length (ts_clauses spec) + length (sp_responses spec))) in *. set (I := 2 ^ length (sp_inputs spec)) in *.
  set (at_ := lasso (0, 0) prefix cycle) in *.
  assert (Hstep : ∀ t, (at_ (S t)).1 ∈ moves (g_clts g) (at_ t).1 ∧ eve (g_clts g) (at_ t).1 = (N <=? (at_ t).1) ∧
    controller_step N (controller r) (at_ t) (at_ (S t)) = true).
  { apply (lasso_always (0, 0) prefix cycle Hcyc (λ x y, y.1 ∈ moves (g_clts g) x.1 ∧ eve (g_clts g) x.1 = (N <=? x.1) ∧
      controller_step N (controller r) x y = true)). intros t Ht.
    destruct (proj1 (andb_true_iff _ _) (Hsteps t ltac:(apply elem_of_seq; lia))) as [H1 H2].
    destruct (game_edge_spec _ _ _ _ _ _ _ Hg H1). done. }
  assert (HI : I ≠ 0) by (pose proof (pow2_pos (length (sp_inputs spec))); unfold I; lia).
  exists (λ t, (at_ t).1). split_and!.
  - rewrite (bg_init _ _ _ _ _ Hg). split; [by rewrite H0|]. apply Hstep.
  - unfold follows_controller, controller_step in *. destruct (controller r) as [[strat|strat]|].
    + intros t He. destruct (Hstep t) as (_ & Heq & Hct). rewrite He in Heq. rewrite <-Heq in Hct. cbn in Hct. by apply bool_decide_eq_true in Hct.
    + exists (λ t, (at_ t).2). split; [by rewrite H0|]. intros t. destruct (Hstep t) as (_ & -> & Hct).
      destruct (N <=? (at_ t).1); [apply bool_decide_eq_true in Hct; by destruct (at_ t), (at_ (S t))|].
      symmetry. by apply Nat.eqb_eq.
    + destruct (Hstep 0) as (_ & _ & ?). done.
  - intros a [i Hi]%list_elem_of_lookup_1.
    destruct (Forall2_lookup_r _ _ _ _ _ (bg_assume _ _ _ _ _ Hg) Hi) as (prop & Hp & _ & Ha).
    apply list_elem_of_lookup_2, Hass, existsb_spec in Hp as (x & Hx & [[Hx1%Nat.leb_le Hx2%Nat.ltb_lt]%andb_true_iff Hx3]%andb_true_iff).
    apply list_elem_of_lookup_1 in Hx as [k Hk]. intros t.
    destruct (lasso_recurs (0, 0) prefix cycle Hcyc k (lookup_lt_Some _ _ _ Hk) t) as (t' & Ht' & Hat). exists t'. split; [done|].
    fold at_ in Hat. rewrite Hat, (nth_lookup_Some _ _ _ _ Hk). apply Ha. exists ((x.1 - N) / I), ((x.1 - N) mod I). split_and!.
    + apply Nat.Div0.div_lt_upper_bound. unfold bad_state in Hx2. lia.
    + by apply Nat.mod_upper_bound.
    + unfold ctrl_state. pose proof (Nat.div_mod (x.1 - N) I HI). lia.
    + done.
  - destruct (Forall2_lookup_l _ _ _ j j (bg_sys _ _ _ _ _ Hg)) as (s & Hs & _ & Hbs); [by rewrite lookup_seq_lt|].
    exists s. split; [by eapply list_elem_of_lookup_2|]. exists (length prefix). intros t Ht.
    apply not_true_iff_false. rewrite Hbs. intros [Hlt Hbit].
    pose proof (Hgua _ (lasso_tail (0, 0) prefix cycle Hcyc t Ht)) as [Hge%Nat.leb_le|Hb2]%orb_true_iff; 
      [change (lasso (0, 0) prefix cycle t) with (at_ t) in *; fold N in Hlt; lia|change (lasso (0, 0) prefix cycle t) with (at_ t) in Hb2; congruence].
Qed.

(** The output [o] needs one input or the other, according to the step before. *)
Definition steered : LtlFormula :=
  LOr (LAnd (LPredicate "i2") (LNot (LPredicate "x"))) (LAnd (LNot (LPredicate "i2")) (LPredicate "x")).
Definition steer_assumptions : list LtlFormula := [LRecurrence (LPredicate "i1"); LRecurrence (LPredicate "i2")].
Definition steer_guarantees : list LtlFormula :=
  [LAlways (LImplies steered (LNext (LOr (LNot (LPredicate "o")) (LPredicate "i2"))));
   LAlways (LImplies (LNot steered) (LNext (LOr (LNot (LPredicate "o")) (LPredicate "i1"))));
   LResponse LTrue (LPredicate "o"); LResponse (LPredicate "i1") (LPredicate "o")].
Definition steer_spec : Gr1Spec :=
  {| sp_inputs := ["i1"; "i2"]; sp_outputs := ["o"; "x"];
     sp_safety := [SC_Transition steered (LOr (LNot (LPredicate "o")) (LPredicate "i2"));
                   SC_Transition (LNot steered) (LOr (LNot (LPredicate "o")) (LPredicate "i1"))];
     sp_responses := [{| rc_trigger := LTrue; rc_response := LPredicate "o" |};
                      {| rc_trigger := LPredicate "i1"; rc_response := LPredicate "o" |}];
     sp_env_fair := [LPredicate "i1"; LPredicate "i2"] |}.

Lemma steer_fits : game_fits steer_spec.
Proof. unfold game_fits. cbn. split_and!; try lia; vm_compute; discriminate. Qed.

(** Departures of the synthesis from its documentation, which calls the controllers sound by construction. The strategy emitted for one guarantee ignores the assumptions, and the one for several guarantees mixes the waiting regions of two assumptions: each has a realizable specification and a play that follows the emitted strategy on which every assumption holds infinitely often and a guarantee, after some time, never. A safety assumption is enforced like a guarantee: assuming [G i] of an input, with nothing to guarantee, is reported unrealizable. And a propositional invariant written as an implication is rejected *)
Theorem synthesis_departures :
  controller_loses prepare_assumptions prepare_guarantees ["i"] ["o"; "w"] prepare_spec ∧
  controller_loses steer_assumptions steer_guarantees ["i1"; "i2"] ["o"; "x"] steer_spec ∧
  verdict_of (synthesise_gr1 5 [LAlways (LPredicate "i")] [] ["i"] ["o"]) = Some false ∧
  spec_classify [] [LAlways (LImplies (LPredicate "o") (LPredicate "i"))] ["i"] ["o"] = Err (UnsupportedImplies (LPredicate "i")).
Proof.
  split_and!; [| |vm_compute; reflexivity|reflexivity].
  - apply (loses_check_sound _ _ _ _ _ [(0, 0); (5, 0); (1, 0); (7, 0)] [(3, 0); (11, 0)] 0); [reflexivity|apply prepare_fits|vm_compute; reflexivity].
  - apply (loses_check_sound _ _ _ _ _ [(0, 0); (18, 0); (1, 1); (21, 1)] [(14, 1); (74, 1); (13, 1); (69, 1)] 0);
      [reflexivity|apply steer_fits|vm_compute; reflexivity].
Qed.
